(* ===== verification/_CoqProject ===== *)
-Q . S2P
Prelude.v
MimeTables.v
QuotedPrintable.v
NameValueArray.v
NamedFlags.v
StringUtils.v
Utf8.v
Civil.v
TimeUtil.v
DateParse.v
CamelUrl.v
ObjectBag.v
ObjectBagInv.v
ObjectBagSpec.v
HostnameUtils.v
Trie.v
TrieInv.v
TrieSpec.v
UrlScanner.v
UrlScannerSpec.v
ToHtml.v
ToHtmlSpec.v
ToHtmlStream.v
ToHtmlUrls.v
ToHtmlEscape.v
Thread.v
ThreadSubject.v
ThreadRep.v
ThreadPrune.v
ThreadLink.v
ThreadItems.v
ThreadRoots.v
ThreadMove.v
ThreadGroup.v
ThreadMerge.v
ThreadSort.v
ThreadPhantoms.v
ThreadSpec.v
IntervalTree.v
IntervalTreeRep.v
IntervalTreeRotate.v
IntervalTreeSearch.v
IntervalTreeZip.v
IntervalTreeInsert.v
IntervalTreeLeaf.v
IntervalTreeDelete.v
IntervalTreeRemove.v
IntervalTreeSpec.v
ESexp.v
ESexpEval.v
ESexpParse.v
VCard.v
VCardParse.v
VCardWrite.v
VCardParseSpec.v
VCardFolds.v
VCardParams.v
VCardLines.v
VCardRoundtrip.v
VCardSpec.v
VCardConvert.v
VCardConvertSpec.v
VCardConvertBack.v
BlockFile.v
BlockFileInv.v
BlockFileOps.v
BlockFileSpec.v
BlockFileSafe.v
KeyTable.v
KeyBlocks.v
KeyTableInv.v
KeyTableSpec.v
KeyTableSafe.v
PartitionTable.v
PartitionInv.v
PartitionSpec.v
PartitionSplit.v
PartitionGrow.v
PartitionAdd.v
PartitionSafe.v
