(* ===== verification/Prelude.v ===== *)
(** * A verification of parts of evolution-data-server

    Evolution Data Server stores mail (src/src/camel), contacts
    (src/src/addressbook) and calendars (src/src/calendar) and serves them over
    D-Bus.  This development models components whose logic is their own, not
    GLib's, SQLite's or a network's: the codecs and parsers that every message
    goes through, the shared data structures, the files of the full-text index,
    and the query language and interval index of the calendar.  Every definition that models code is a
    function that computes; the statements are about these functions.

    ** The parts

    Text and headers of messages (src/src/camel):
    - MimeTables: the character classes of camel-mime-utils.h and the program
      camel-gen-tables.c that generates them.
    - QuotedPrintable: [camel_quoted_encode_step], [_close],
      [camel_quoted_decode_step], and the "Q" words of rfc2047
      (camel-mime-utils.c).  The saved variables of a stream are the state
      [Encode.st] and [Decode.st].
    - DateParse over Civil: [camel_header_format_date] and
      [camel_header_decode_date] with its fallback parser (camel-mime-utils.c).
    - NameValueArray, NamedFlags: the header array and the set of user flags
      (camel-name-value-array.c, camel-named-flags.c).
    - StringUtils: comparing, hashing and searching without case, and the pool of
      interned strings with its references (camel-string-utils.c).
    - Utf8: UTF-8, UCS-2 and the UTF-7 of IMAP (camel-utf8.c).
    - CamelUrl: parsing, resolving and writing URLs (camel-url.c).
    - HostnameUtils: host names that look like others (camel-hostname-utils.c)
      and the URLs that hold them (camel-net-utils.c); it uses CamelUrl.
    - Trie, TrieInv, TrieSpec: the Aho-Corasick matcher (camel-trie.c).
    - UrlScanner, UrlScannerSpec: finding URLs and addresses in a text
      (camel-url-scanner.c), over the matcher.
    - ToHtml, ToHtmlSpec, ToHtmlStream, ToHtmlUrls, ToHtmlEscape: the filter from
      plain text to HTML (camel-mime-filter-tohtml.c), over the URL scanner and
      HostnameUtils; the filter knows the scanner as the class [UrlScan].
    - Thread: threads of messages by references, subjects and dates
      (camel-folder-thread.c), on a store of nodes.  ThreadSubject is about
      subjects.  ThreadRep says which forest a store holds; ThreadLink and
      ThreadItems follow the links made by references, ThreadRoots reads the
      forest off them, ThreadPrune, ThreadMove, ThreadGroup, ThreadMerge,
      ThreadSort and ThreadPhantoms follow the later stages, and ThreadSpec
      puts the stages together.

    Shared objects (src/src/camel):
    - ObjectBag, ObjectBagInv, ObjectBagSpec: the bag of folders that threads
      share, with its reservations and condition variables
      (camel-object-bag.c), as a step relation over threads and objects.

    On-disk index (src/src/camel):
    - BlockFile: files of blocks with their cache (camel-block-file.c).  The file
      is a size and a map of blocks, with a list of the outcomes that the next
      calls of the system have; blocks in memory are records in a store.
      BlockFileInv says when the cache stands for a store of blocks,
      BlockFileOps follows the operations, BlockFileSpec is the store that
      callers see and the file that is opened again, BlockFileSafe has the
      properties.
    - KeyTable: the keys of the index under numbers (the second half of
      camel-partition-table.c), over the block files.  KeyBlocks lays out a
      block of keys, KeyTableInv is the chain of blocks, KeyTableSpec follows
      the operations, KeyTableSafe has the properties.
    - PartitionTable: the hash table from keys to numbers (the first half of
      camel-partition-table.c), over both.  PartitionInv is about the ranges of
      hashes, the arrays of pairs that hold them, and the search;
      PartitionSpec looks up and removes; PartitionSplit cuts the keys of a full
      block and puts new ranges in the place of old ones; PartitionGrow asks for
      neighbours and new blocks and splits a block of the map; PartitionAdd puts
      these together; PartitionSafe has the properties, and opens tables.

    Contacts (src/src/addressbook/libebook-contacts):
    - VCard, VCardParse, VCardWrite, VCardConvert: vCards (e-vcard.c): attributes
      and their parameters, the parser with its folded lines, the writers, and
      the conversions between versions.  VCardParseSpec is about every text,
      VCardFolds, VCardParams, VCardLines and VCardRoundtrip follow the parser
      along a line that the writer made, VCardSpec is about escapes,
      quoted-printable values and the UID, VCardConvertSpec and VCardConvertBack
      are about conversions.

    Calendar (src/src/calendar, src/src/libedataserver):
    - TimeUtil over Civil: the functions on days, weeks and [time_t]
      (e-cal-time-util.c); libical is the class [ICalLib].
    - IntervalTree and the files that start with that name: the red-black
      interval tree of the calendar backends (e-cal-backend-intervaltree.c),
      pointer by pointer, and the map that it implements.
    - ESexp, ESexpEval, ESexpParse: the query language (e-sexp.c): its
      evaluation, the time window of a query, its parser and the strings it
      writes.

    ** How state and effects are modelled

    Bytes and C integers are [Z], with wrap-around written out.  A buffer is a
    list of bytes and a pointer into it the rest of the list or an offset.  Where
    addresses matter (the string pool, the interval tree, the matcher, the bag,
    the threads, the cached blocks) a store maps addresses to records and every
    read and write is an operation on it.  [None] is undefined behaviour: a read outside of a buffer,
    a freed or missing address, a bad index.  Errors that the code reports are
    values: [option], [sum] or an outcome type of their own ([Fatal] of ESexp,
    [Overrun] of VCardParse).
    Library code that the source only calls (GLib's Unicode and regular
    expressions, libical, ICU, mktime) is a parameter, with named laws where a
    theorem needs them, and an instance that satisfies them.

    Loops that are not structural have fuel.  It is bounded by what the loop
    consumes, in the definition itself: the length of the text that is left for
    the scanners and filters, the height or size of the store for the trees, the
    length of the path for [remove_dotdots], the tokens for the parser.  In the
    index it is a constant above the sizes of the arrays: 256 steps for a search
    among 127 ranges, 129 for a walk over 127 keys.  The blocks that a key table
    or a partition table links are read with a given number of steps, since
    those of a broken file may be a circle.
    The theorems say that the result is [Some] or does not depend on more fuel
    where that is not plain from the definition (termination theorems, and
    totality as part of a functional statement: [intervaltree_refines_map],
    [trie_search_finds], [html_chunks_irrelevant], [sexp_parse_ends],
    [thread_complete]).

    ** What the theorems show

    - Refinement and functional correctness: the interval tree is a finite map
      with an exact search, balanced to 2 log2 (n + 1); the trie finds what a
      naive search finds; flags are a finite set; the value arrays set and get
      by name; threading keeps every message once and files replies under what
      they answer; the cache of a block file cannot be seen; a key table is a list
      of keys; and a partition table is a bag of hashes with numbers, as long as
      no full block is cut between pairs of equal hashes and no full block of the
      map is split at its last range ([add_clean]; [equal_hashes_lost] is what
      happens otherwise).
    - Windows: an object for which a query holds has times that overlap the
      window of the query, when what the query asks of times is inside of the
      times of the object ([occurs_inside]) and these meet 0 to [INT_MAX];
      [late_event_missed] and [alarm_event_missed] show both limits.
    - Crash safety: when a program dies, a block file that validates has the
      blocks of the last sync, unless a block was freed or reused while the flag
      of consistency was still set ([free_leaves_flag]); and synced files are read
      back as they were.
    - Calendar: the day of the week is that of the calendar in use, up to the
      last year whose days [gint] can count, except on the days before September
      1752 that the code gets wrong.
    - Round trips: quoted-printable in any chunks, dates, URLs, UTF-8, UTF-7,
      S-expressions through their tokens, HTML escapes, vCards through their
      text, and vCards 3.0 through version 4.0.
    - Types and errors: a typed S-expression evaluates to its type, and
      ill-typed ones fail as the code says.
    - Concurrency: a key of the bag is reserved by one thread at a time, no
      freed record is read as long as objects are rekeyed to unused keys
      ([rekey_used_key_freed]), and a waiter is served once the holder is done.
    - Safety: the output of the HTML filter is well formed whatever the input;
      the scanners read inside of their buffers, except that the start of an
      address is looked for beyond a text without an atom ([addrspec_reads_on]);
      the chunks that a text comes in cannot be seen; invalid UTF-8 is made valid; the
      vCard parser ends for every text and reads inside of one that ends well.

    ** What is not modelled

    Freeing memory, except where a record may be read after it; the growth of
    output buffers; GObject, GTask, D-Bus, SQLite, libxml2, libsoup, LDAP and
    network I/O, and with them the folders, stores, sessions, backends and
    registries, whose operations are calls of these libraries; character set
    tables and iconv; libical's components and the expansion of recurrences; the
    MIME parser and structured headers are left out, and of the index the key
    files (CamelKeyFile), renaming, the list of all open block files and
    camel-text-index.c.
    TimeUtil leaves out the resolution of zones by name.

    * This file

    Bytes are [Z] values in [0, 256); C strings and buffers are [list Z].
    The C integer types are [Z] with the wrap-around written out ([u8], [u16],
    [u32], [s32]).  It holds the exhaustive-check principle for
    bytes, the <ctype.h> functions the program uses (in the "C" locale), GLib's
    ASCII helpers, and the lemmas on lists that the components share. *)

From stdpp Require Import base list strings numbers.
From Stdlib Require Import ZArith Lia Ascii.

#[global] Set Default Goal Selector "1".

Open Scope Z_scope.

(** ** Characters *)

Abbreviation cNUL := 0 (only parsing).
Abbreviation cTAB := 9 (only parsing).
Abbreviation cLF := 10 (only parsing).
Abbreviation cCR := 13 (only parsing).
Abbreviation cSP := 32 (only parsing).

(** The byte of a character literal: [ch "="]. *)
Definition ch (a : ascii) : Z := Z.of_N (N_of_ascii a).

(** The bytes of a string literal, without the terminating NUL. *)
Fixpoint bs (s : string) : list Z :=
  match s with
  | EmptyString => []
  | String a s' => ch a :: bs s'
  end.

(** ** C integers *)

Definition u8 (x : Z) : Z := x mod 2 ^ 8.
Definition u16 (x : Z) : Z := x mod 2 ^ 16.
Definition u32 (x : Z) : Z := x mod 2 ^ 32.
Definition s32 (x : Z) : Z := (x + 2 ^ 31) mod 2 ^ 32 - 2 ^ 31.

(** [(guint) -1]: "no such index". *)
Definition NOT_FOUND : Z := u32 (-1).

(** C's [char] is signed on the platforms the program supports first; a byte
    read through a [gchar *] is [schar b]. *)
Definition schar (b : Z) : Z := if b <? 128 then b else b - 256.

Definition is_byte (c : Z) : Prop := 0 <= c < 256.
Definition is_byteb (c : Z) : bool := (0 <=? c) && (c <? 256).
Abbreviation bytes_ok := (Forall is_byte).

(** ** <ctype.h> in the "C" locale *)

Definition isdigit (c : Z) : bool := (48 <=? c) && (c <=? 57).
Definition isupper (c : Z) : bool := (65 <=? c) && (c <=? 90).
Definition islower (c : Z) : bool := (97 <=? c) && (c <=? 122).
Definition isalpha (c : Z) : bool := isupper c || islower c.
Definition isalnum (c : Z) : bool := isalpha c || isdigit c.
Definition isxdigit (c : Z) : bool :=
  isdigit c || ((65 <=? c) && (c <=? 70)) || ((97 <=? c) && (c <=? 102)).
Definition isspace (c : Z) : bool := (c =? 32) || ((9 <=? c) && (c <=? 13)).
Definition iscntrl (c : Z) : bool := ((0 <=? c) && (c <? 32)) || (c =? 127).
Definition toupper (c : Z) : Z := if islower c then c - 32 else c.
Definition tolower (c : Z) : Z := if isupper c then c + 32 else c.

(** ** Strings *)

(** [strncmp (p, lit, n) == 0] where [lit] has [n] bytes, none of them NUL. *)
Fixpoint prefix_eqb (lit p : list Z) : bool :=
  match lit, p with
  | [], _ => true
  | a :: lit', b :: p' => (a =? b) && prefix_eqb lit' p'
  | _ :: _, [] => false
  end.

(** Equality of two byte strings. *)
Fixpoint bytes_eqb (a b : list Z) : bool :=
  match a, b with
  | [], [] => true
  | x :: a', y :: b' => (x =? y) && bytes_eqb a' b'
  | _, _ => false
  end.

(** GLib's [g_ascii_strcasecmp (a, b) == 0]. *)
Definition strcase_eqb (a b : list Z) : bool :=
  bytes_eqb (map tolower a) (map tolower b).

(** [g_ascii_strncasecmp (s, lit, length lit) == 0]. *)
Definition strncase_prefix (s lit : list Z) : bool := prefix_eqb (map tolower lit) (map tolower s).

(** The C string in a buffer: the bytes before the first NUL. *)
Fixpoint cstr (s : list Z) : list Z :=
  match s with
  | [] => []
  | c :: s' => if c =? 0 then [] else c :: cstr s'
  end.

(** The place of the first byte that satisfies [p]. *)
Fixpoint index_where (p : Z -> bool) (s : list Z) : option nat :=
  match s with
  | [] => None
  | c :: s' => if p c then Some O else S <$> index_where p s'
  end.

(** [strchr] of a byte that is no NUL, as an offset. *)
Definition strchr (s : list Z) (c : Z) : option nat := index_where (Z.eqb c) s.

(** [strtoul (s, NULL, 10)]. *)
Fixpoint skip_space (s : list Z) : list Z :=
  match s with c :: s' => if isspace c then skip_space s' else s | [] => [] end.
Fixpoint digits_value (s : list Z) (v : Z) : Z :=
  match s with c :: s' => if isdigit c then digits_value s' (v * 10 + (c - 48)) else v | [] => v end.
Definition strtoul (s : list Z) : Z :=
  let s := skip_space s in
  let '(neg, s) := match s with c :: s' => if c =? ch "-" then (true, s') else if c =? ch "+" then (false, s') else (false, s) | [] => (false, s) end in
  let v := digits_value s 0 in
  if v >? 2 ^ 64 - 1 then 2 ^ 64 - 1 else if neg then (- v) mod 2 ^ 64 else v.

(** ** Lemmas *)

Lemma index_where_app p a b : Forall (fun c => p c = false) a ->
  index_where p (a ++ b) = (fun i => length a + i)%nat <$> index_where p b.
Proof.
  induction 1 as [|c a C F IH]; cbn; [by destruct (index_where p b)|].
  rewrite C, IH. by destruct (index_where p b).
Qed.

Lemma index_where_none p s : Forall (fun c => p c = false) s -> index_where p s = None.
Proof. induction 1 as [|c s C F IH]; cbn; [done|]. by rewrite C, IH. Qed.

Lemma index_where_some p a c b : Forall (fun c => p c = false) a -> p c = true ->
  index_where p (a ++ c :: b) = Some (length a).
Proof. intros F C. rewrite index_where_app by done. cbn. rewrite C. cbn. by rewrite Nat.add_0_r. Qed.

(** Where the first such byte is. *)
Lemma index_where_split p s i : index_where p s = Some i -> exists a c b, s = a ++ c :: b /\ length a = i /\
  Forall (fun c => p c = false) a /\ p c = true.
Proof.
  revert i; induction s as [|c s IH]; intros i; cbn; [done|]. destruct (p c) eqn:C.
  - intros [= <-]. exists [], c, s. by split_and!.
  - destruct (index_where p s) as [j|] eqn:E; [|done]. intros [= <-].
    destruct (IH j eq_refl) as (a & d & b & -> & <- & F & D). exists (c :: a), d, b. split_and!; try done. by constructor.
Qed.

(** Taking apart at a separator. *)
Lemma drop_middle {A} (a : list A) c b : drop (S (length a)) (a ++ c :: b) = b.
Proof. induction a as [|x a IH]; [done|]. exact IH. Qed.

Lemma cstr_id s : Forall (fun c => c <> 0) s -> cstr s = s.
Proof. induction 1 as [|c s C F IH]; [done|]. cbn. by rewrite (proj2 (Z.eqb_neq c 0) C), IH. Qed.

Lemma bytes_eqb_eq (a b : list Z) : bytes_eqb a b = true <-> a = b.
Proof.
  revert b; induction a as [|x a IH]; intros [|y b]; simpl; try easy.
  rewrite andb_true_iff, Z.eqb_eq, IH. split; [intros [-> ->]|intros [= -> ->]]; easy.
Qed.

Lemma bytes_eqb_refl (a : list Z) : bytes_eqb a a = true.
Proof. by apply bytes_eqb_eq. Qed.

Lemma bytes_eqb_neq (a b : list Z) : bytes_eqb a b = false <-> a <> b.
Proof. rewrite <- not_true_iff_false, bytes_eqb_eq. tauto. Qed.

Lemma bytes_eqb_sym (a b : list Z) : bytes_eqb a b = bytes_eqb b a.
Proof.
  destruct (bytes_eqb b a) eqn:E.
  - apply bytes_eqb_eq. by apply bytes_eqb_eq in E.
  - apply bytes_eqb_neq. apply bytes_eqb_neq in E. congruence.
Qed.

#[export] Instance bytes_dec : EqDecision (list Z) := _.

Lemma prefix_eqb_spec (lit p : list Z) :
  prefix_eqb lit p = true <-> exists r, p = lit ++ r.
Proof.
  revert p; induction lit as [|a lit IH]; intros p; simpl.
  - split; [intros _; by exists p|easy].
  - destruct p as [|b p]; [split; [easy|intros [? ?]; easy]|].
    rewrite andb_true_iff, Z.eqb_eq, IH. split.
    + intros [-> [r ->]]. by exists r.
    + intros [r [= -> ->]]. split; [easy|by exists r].
Qed.

(** Every byte is in this list: the exhaustive-check principle. *)
Definition all_bytes : list Z := seqZ 0 256.

Lemma all_bytes_spec (f : Z -> bool) :
  forallb f all_bytes = true -> forall c, is_byte c -> f c = true.
Proof.
  intros H c Hc. rewrite forallb_forall in H. apply H.
  apply list_elem_of_In, elem_of_seqZ. unfold is_byte in Hc. lia.
Qed.

Lemma is_byteb_spec (c : Z) : is_byteb c = true <-> is_byte c.
Proof. unfold is_byteb, is_byte. rewrite andb_true_iff, Z.leb_le, Z.ltb_lt. tauto. Qed.

Lemma bytes_okb s : forallb is_byteb s = true -> bytes_ok s.
Proof. intros F. rewrite forallb_forall in F. apply list.Forall_forall. intros c Hc. by apply is_byteb_spec, F, list_elem_of_In. Qed.

(** Splitting a fold over a concatenation: the shape of every chunked codec. *)
Lemma fold_left_split {A B} (f : A -> B -> A) (l1 l2 : list B) (a : A) :
  fold_left f (l1 ++ l2) a = fold_left f l2 (fold_left f l1 a).
Proof. apply fold_left_app. Qed.

Lemma NOT_FOUND_val : NOT_FOUND = 4294967295.
Proof. reflexivity. Qed.

(** ** Automation *)

Create HintDb eds discriminated.
Create Rewrite HintDb eds.
#[export] Hint Resolve bytes_eqb_refl : eds.
#[export] Hint Rewrite Z.eqb_refl bytes_eqb_refl andb_true_r andb_false_r
  orb_true_r orb_false_r app_nil_r : eds.

(** Turn the boolean integer tests of the context and the goal into
    propositions, splitting on those of the goal. *)
Ltac zb :=
  repeat match goal with
  | H : (_ && _) = true |- _ => apply andb_true_iff in H; destruct H
  | H : (_ || _) = false |- _ => apply orb_false_iff in H; destruct H
  | H : negb _ = true |- _ => apply negb_true_iff in H
  | H : negb _ = false |- _ => apply negb_false_iff in H
  | H : (_ =? _) = true |- _ => apply Z.eqb_eq in H
  | H : (_ =? _) = false |- _ => apply Z.eqb_neq in H
  | H : (_ <=? _) = true |- _ => apply Z.leb_le in H
  | H : (_ <=? _) = false |- _ => apply Z.leb_gt in H
  | H : (_ <? _) = true |- _ => apply Z.ltb_lt in H
  | H : (_ <? _) = false |- _ => apply Z.ltb_ge in H
  | H : (_ >? _) = true |- _ => rewrite Z.gtb_ltb in H; apply Z.ltb_lt in H
  | H : (_ >? _) = false |- _ => rewrite Z.gtb_ltb in H; apply Z.ltb_ge in H
  | H : (_ >=? _) = true |- _ => rewrite Z.geb_leb in H; apply Z.leb_le in H
  | H : (_ >=? _) = false |- _ => rewrite Z.geb_leb in H; apply Z.leb_gt in H
  end.

(** Case-split on the innermost boolean test of a goal. *)
Ltac zcase :=
  match goal with
  | |- context [if ?b then _ else _] =>
      lazymatch b with
      | context [if _ then _ else _] => fail
      | _ => let E := fresh "E" in destruct b eqn:E; zb
      end
  end.

(** Prove a fact about one byte by evaluating it on all 256 values. *)
Ltac by_bytes f c H :=
  let K := fresh "K" in
  assert (K : f c = true); [apply (all_bytes_spec f); [vm_compute; reflexivity|exact H]|].

(** ** Decimal numbers of printf *)

Fixpoint udec (fuel : nat) (n : Z) : list Z :=
  match fuel with
  | O => []
  | S fuel => if n <? 10 then [48 + n] else udec fuel (n / 10) ++ [48 + n mod 10]
  end.

(** "%d" of an [int]. *)
Definition fmt_d (n : Z) : list Z := (if n <? 0 then [ch "-"] else []) ++ udec 11 (Z.abs n).

(** "%0<w>d" of an [int]; eleven digits hold any. *)
Definition fmt0 (w : nat) (n : Z) : list Z :=
  let sign := if n <? 0 then [ch "-"] else [] in
  let digits := udec 11 (Z.abs n) in
  sign ++ replicate (w - length sign - length digits) 48 ++ digits.

Lemma fmt0_2 n : 0 <= n < 100 -> fmt0 2 n = [48 + n / 10; 48 + n mod 10].
Proof.
  intros H. unfold fmt0. rewrite (proj2 (Z.ltb_ge n 0)), Z.abs_eq by lia. cbn [udec].
  destruct (Z.ltb_spec n 10).
  - simpl. rewrite Z.div_small, Z.mod_small by lia. done.
  - rewrite (proj2 (Z.ltb_lt (n / 10) 10)) by (Z.to_euclidean_division_equations; lia). done.
Qed.

Lemma fmt0_4 n : 0 <= n < 10000 ->
  fmt0 4 n = [48 + n / 1000; 48 + n / 100 mod 10; 48 + n / 10 mod 10; 48 + n mod 10].
Proof.
  intros H. unfold fmt0. rewrite (proj2 (Z.ltb_ge n 0)), Z.abs_eq by lia. cbn [udec].
  repeat match goal with |- context [?x <? 10] => destruct (Z.ltb_spec x 10) end; cbn [length app replicate Nat.sub];
    try (exfalso; Z.to_euclidean_division_equations; lia);
    repeat apply (f_equal2 (@cons Z)); try done; Z.to_euclidean_division_equations; lia.
Qed.
