(* ===== verification/MimeTables.v ===== *)
(** * The character classes of Camel's MIME code

    src/src/camel/camel-gen-tables.c is a program that the build runs to write
    [camel_mime_special_table]; the tables of the library are what it prints.
    Here its [main] is the function [camel_mime_special_table], built by the
    same steps ([add_bits], [rem_bits] over the base ranges), and the macros
    [camel_mime_is_...] of camel-mime-utils.h read it.  The facts the codecs
    need about the classes are proved by evaluating the table on all 256
    bytes. *)

From stdpp Require Import base list strings numbers.
From Stdlib Require Import ZArith Lia Ascii.
From S2P Require Import Prelude.

Open Scope Z_scope.

Definition CAMEL_MIME_IS_CTRL : Z := Z.shiftl 1 0.
Definition CAMEL_MIME_IS_LWSP : Z := Z.shiftl 1 1.
Definition CAMEL_MIME_IS_TSPECIAL : Z := Z.shiftl 1 2.
Definition CAMEL_MIME_IS_SPECIAL : Z := Z.shiftl 1 3.
Definition CAMEL_MIME_IS_SPACE : Z := Z.shiftl 1 4.
Definition CAMEL_MIME_IS_DSPECIAL : Z := Z.shiftl 1 5.
Definition CAMEL_MIME_IS_QPSAFE : Z := Z.shiftl 1 6.
Definition CAMEL_MIME_IS_ESAFE : Z := Z.shiftl 1 7.
Definition CAMEL_MIME_IS_PSAFE : Z := Z.shiftl 1 8.
Definition CAMEL_MIME_IS_ATTRCHAR : Z := Z.shiftl 1 9.

(** The character lists of the generator; 34 is the double quote, 92 the
    backslash and 39 the single quote. *)
Definition CHARS_LWSP : list Z := [cSP; cTAB; cLF; cCR].
Definition CHARS_TSPECIAL : list Z := bs "()<>@,;:" ++ [92; 34] ++ bs "/[]?=".
Definition CHARS_SPECIAL : list Z := bs "()<>@,;:" ++ [92; 34] ++ bs ".[]".
Definition CHARS_DSPECIAL : list Z := bs "[]" ++ [92; cCR; cSP; cTAB].
Definition CHARS_ATTRCHAR : list Z := bs "*" ++ [39] ++ bs "% ".

(** [table[pos] |= bit] for every listed character. *)
Fixpoint add_bits (table : list Z) (bit : Z) (chars : list Z) : list Z :=
  match chars with
  | [] => table
  | c :: chars' =>
      let pos := Z.to_nat c in
      add_bits (<[pos := Z.lor (nth pos table 0) bit]> table) bit chars'
  end.

(** [table[pos] &= ~bit] for every listed character. *)
Fixpoint rem_bits (table : list Z) (bit : Z) (chars : list Z) : list Z :=
  match chars with
  | [] => table
  | c :: chars' =>
      let pos := Z.to_nat c in
      rem_bits (<[pos := u16 (Z.land (nth pos table 0) (Z.lnot bit))]> table) bit chars'
  end.

(** The base ranges: one entry of the first loop of [main]. *)
Definition base_entry (ii : Z) : Z :=
  let e := 0 in
  let e := if (ii <? 32) || (ii =? 127)
           then Z.lor e (Z.lor CAMEL_MIME_IS_CTRL CAMEL_MIME_IS_TSPECIAL)
           else if ii <? 127 then Z.lor e CAMEL_MIME_IS_ATTRCHAR else e in
  let e := if ((32 <=? ii) && (ii <=? 60)) || ((62 <=? ii) && (ii <=? 126)) || (ii =? 9)
           then Z.lor e (Z.lor CAMEL_MIME_IS_QPSAFE CAMEL_MIME_IS_ESAFE) else e in
  if ((48 <=? ii) && (ii <=? 57)) || ((97 <=? ii) && (ii <=? 122))
     || ((65 <=? ii) && (ii <=? 90))
  then Z.lor e CAMEL_MIME_IS_PSAFE else e.

(** [main]: the table it prints. *)
Definition gen_special_table : list Z :=
  let table := map base_entry (seqZ 0 256) in
  let table := <[32%nat := Z.lor (nth 32 table 0) CAMEL_MIME_IS_SPACE]> table in
  let table := add_bits table CAMEL_MIME_IS_LWSP CHARS_LWSP in
  let table := add_bits table CAMEL_MIME_IS_TSPECIAL CHARS_TSPECIAL in
  let table := add_bits table CAMEL_MIME_IS_SPECIAL CHARS_SPECIAL in
  let table := add_bits table CAMEL_MIME_IS_DSPECIAL CHARS_DSPECIAL in
  let table := rem_bits table CAMEL_MIME_IS_ESAFE
                 (bs "()<>@,;:" ++ [34] ++ bs "/[]?.=_") in
  let table := rem_bits table CAMEL_MIME_IS_ATTRCHAR (CHARS_ATTRCHAR ++ CHARS_TSPECIAL) in
  add_bits table CAMEL_MIME_IS_PSAFE (bs "!*+-/").

(** The array of the library; the generator is run once, at build time. *)
Definition camel_mime_special_table_data : list Z :=
  Eval vm_compute in gen_special_table.

(** [camel_mime_special_table[(guchar) c]]. *)
Definition camel_mime_special_table (c : Z) : Z :=
  nth (Z.to_nat (u8 c)) camel_mime_special_table_data 0.

Definition camel_mime_is_type (c t : Z) : bool :=
  negb (Z.land (camel_mime_special_table c) t =? 0).
Definition camel_mime_is_lwsp (c : Z) : bool := camel_mime_is_type c CAMEL_MIME_IS_LWSP.
Definition camel_mime_is_qpsafe (c : Z) : bool := camel_mime_is_type c CAMEL_MIME_IS_QPSAFE.
Definition camel_mime_is_psafe (c : Z) : bool := camel_mime_is_type c CAMEL_MIME_IS_PSAFE.
Definition camel_mime_is_attrchar (c : Z) : bool :=
  camel_mime_is_type c CAMEL_MIME_IS_ATTRCHAR.
Definition camel_mime_is_ttoken (c : Z) : bool :=
  Z.land (camel_mime_special_table c)
    (Z.lor CAMEL_MIME_IS_TSPECIAL (Z.lor CAMEL_MIME_IS_LWSP CAMEL_MIME_IS_CTRL)) =? 0.
Definition camel_mime_is_atom (c : Z) : bool :=
  Z.land (camel_mime_special_table c)
    (Z.lor CAMEL_MIME_IS_SPECIAL (Z.lor CAMEL_MIME_IS_SPACE CAMEL_MIME_IS_CTRL)) =? 0.
Definition camel_mime_is_dtext (c : Z) : bool :=
  Z.land (camel_mime_special_table c) CAMEL_MIME_IS_DSPECIAL =? 0.

(** ** The classes in closed form *)

Lemma gen_special_table_data : gen_special_table = camel_mime_special_table_data.
Proof. vm_compute. reflexivity. Qed.

(** A class is what its closed form says, on every byte. *)
Ltac table_class f g :=
  let c := fresh "c" in let H := fresh "H" in
  intros c H; apply eqb_prop;
  apply (all_bytes_spec (fun c => Bool.eqb (f c) (g c)));
  [vm_compute; reflexivity|exact H].

Definition qpsafe_ref (c : Z) : bool :=
  ((32 <=? c) && (c <=? 126) && negb (c =? 61)) || (c =? 9).
Definition lwsp_ref (c : Z) : bool := (c =? 32) || (c =? 9) || (c =? 10) || (c =? 13).

Lemma qpsafe_spec : forall c, is_byte c -> camel_mime_is_qpsafe c = qpsafe_ref c.
Proof. table_class camel_mime_is_qpsafe qpsafe_ref. Qed.

Lemma lwsp_spec : forall c, is_byte c -> camel_mime_is_lwsp c = lwsp_ref c.
Proof. table_class camel_mime_is_lwsp lwsp_ref. Qed.
