(* ===== verification/QuotedPrintable.v ===== *)
(** * Quoted-printable and the rfc2047 "Q" encoding

    The byte codecs of src/src/camel/camel-mime-utils.c:
    [camel_quoted_encode_step], [camel_quoted_encode_close],
    [camel_quoted_decode_step], and [quoted_encode], [quoted_decode] for
    encoded words.  The step functions are called on successive chunks with
    the loop variables saved in between, so each is a fold of its loop body
    over the chunk, from the saved state to the saved state, with the bytes
    written to [out] in order. *)

From stdpp Require Import base list strings numbers.
From Stdlib Require Import ZArith Lia Ascii.
From S2P Require Import Prelude MimeTables.

Open Scope Z_scope.

(** The static table [tohex]. *)
Definition tohex (i : Z) : Z := nth (Z.to_nat i) (bs "0123456789ABCDEF") 0.

(** The two digits written for a byte: [tohex[(c >> 4) & 0xf]] and
    [tohex[c & 0xf]]. *)
Definition hex2 (c : Z) : list Z :=
  [tohex (Z.land (Z.shiftr c 4) 15); tohex (Z.land c 15)].

Module Encode.

(** The state kept between calls: [*save] is the number of characters on the
    current line, [*state] the delayed byte or -1. *)
Record st := ST { sofar : Z; last : Z }.

(** What a caller passes first. *)
Definition init : st := ST 0 (-1).

(** The macro [output_last]: bytes written and the new [sofar]. *)
Definition output_last (s : st) : list Z * Z :=
  let '(pre, sofar) := if sofar s + 3 >? 74 then ([ch "="; cLF], 0) else ([], sofar s) in
  (pre ++ [ch "="] ++ hex2 (last s), sofar + 3).

(** The body of the loop of [camel_quoted_encode_step] for the byte [c]. *)
Definition step1 (s : st) (c : Z) : list Z * st :=
  if c =? cCR then
    let '(o, sofar) := if negb (last s =? -1) then output_last s else ([], sofar s) in
    (o, ST sofar c)
  else if c =? cLF then
    let '(o, sofar) := if negb (last s =? -1) && negb (last s =? cCR)
                       then output_last s else ([], sofar s) in
    (o ++ [cLF], ST 0 (-1))
  else
    let '(o, sofar) :=
      if negb (last s =? -1) then
        if camel_mime_is_qpsafe (last s) then ([last s], sofar s + 1) else output_last s
      else ([], sofar s) in
    if camel_mime_is_qpsafe c then
      let '(o, sofar) := if sofar >? 74 then (o ++ [ch "="; cLF], 0) else (o, sofar) in
      if (c =? cSP) || (c =? cTAB) then (o, ST sofar c)
      else (o ++ [c], ST (sofar + 1) (-1))
    else
      let '(o, sofar) := if sofar >? 72 then (o ++ [ch "="; cLF], 3) else (o, sofar + 3) in
      (o ++ [ch "="] ++ hex2 c, ST sofar (-1)).

Definition body (acc : list Z * st) (c : Z) : list Z * st :=
  let '(o, s) := step1 (snd acc) c in (fst acc ++ o, s).

(** One call: the bytes written to [out] and the saved state. *)
Definition camel_quoted_encode_step (inp : list Z) (s : st) : list Z * st :=
  fold_left body inp ([], s).

Definition camel_quoted_encode_close (inp : list Z) (s : st) : list Z * st :=
  let '(o, s) := match inp with
                 | [] => ([], s)
                 | _ => camel_quoted_encode_step inp s
                 end in
  let o' :=
    if negb (last s =? -1) then
      if camel_mime_is_qpsafe (last s) && negb (last s =? cSP) && negb (last s =? 9)
      then [last s]
      else [ch "="] ++ hex2 (last s)
    else [] in
  (o ++ o', ST 0 (-1)).

(** A whole message fed chunk by chunk, the last chunk to the close
    function: how the "basic" MIME filter drives the codec. *)
Fixpoint run (chunks : list (list Z)) (final : list Z) (s : st) : list Z :=
  match chunks with
  | [] => fst (camel_quoted_encode_close final s)
  | c :: chunks' => let '(o, s') := camel_quoted_encode_step c s in o ++ run chunks' final s'
  end.

End Encode.

Module Decode.

(** [*savestate] is 0 (text), 1 (after [=]) or 2 (after [=] and a byte),
    [*saveme] the byte after [=]. *)
Record st := ST { state : Z; save : Z }.

Definition init : st := ST 0 0.

(** [HEXVAL]-like expression of the decoder on an upper-cased digit. *)
Definition digit (c : Z) : Z :=
  Z.land (if ch "A" <=? c then c - ch "A" + 10 else c - ch "0") 15.

(** The loops of [camel_quoted_decode_step] from the current input position.
    Case 0 is an inner loop that reads bytes until [=] and re-enters the
    switch when it stops; every case consumes one byte, so the recursion is
    on the rest of the chunk. *)
Fixpoint camel_quoted_decode_step (inp : list Z) (s : st) : list Z * st :=
  match inp with
  | [] => ([], s)
  | c :: rest =>
      if state s =? 0 then
        if c =? ch "=" then camel_quoted_decode_step rest (ST 1 (save s))
        else let '(o, s') := camel_quoted_decode_step rest s in (c :: o, s')
      else if state s =? 1 then
        if c =? cLF then camel_quoted_decode_step rest (ST 0 (save s))
        else camel_quoted_decode_step rest (ST 2 c)
      else if state s =? 2 then
        if isxdigit c && isxdigit (save s) then
          let c := toupper c in
          let save := toupper (save s) in
          let b := Z.lor (Z.shiftl (digit save) 4) (digit c) in
          let '(o, s') := camel_quoted_decode_step rest (ST 0 save) in (b :: o, s')
        else if (c =? cLF) && (save s =? cCR) then
          camel_quoted_decode_step rest (ST 0 (save s))
        else
          let '(o, s') := camel_quoted_decode_step rest (ST 0 (save s)) in
          (ch "=" :: save s :: c :: o, s')
      else (* no case: the outer loop makes no progress; not reachable *) ([], s)
  end.

(** Successive calls on the chunks of a stream. *)
Fixpoint run (chunks : list (list Z)) (s : st) : list Z :=
  match chunks with
  | [] => []
  | c :: chunks' => let '(o, s') := camel_quoted_decode_step c s in o ++ run chunks' s'
  end.

End Decode.

Module QWord.

(** [quoted_encode]: the bytes written for an encoded word. *)
Fixpoint quoted_encode (inp : list Z) (safemask : Z) : list Z :=
  match inp with
  | [] => []
  | c :: rest =>
      (if c =? cSP then [ch "_"]
       else if negb (Z.land (camel_mime_special_table c) safemask =? 0) then [c]
       else ch "=" :: hex2 c) ++ quoted_encode rest safemask
  end.

(** The loop of [quoted_decode]: the bytes written, [None] when it breaks
    with [ret = -1] on a truncated escape. *)
Fixpoint quoted_decode_loop (inp : list Z) : option (list Z) :=
  match inp with
  | [] => Some []
  | c :: rest =>
      if c =? ch "=" then
        match rest with
        | h :: l :: rest' =>
            let c := toupper h in
            let c1 := toupper l in
            cons (Z.lor (Z.shiftl (Decode.digit c) 4) (Decode.digit c1))
              <$> quoted_decode_loop rest'
        | _ => None
        end
      else if c =? ch "_" then cons 32 <$> quoted_decode_loop rest
      else cons c <$> quoted_decode_loop rest
  end.

(** [quoted_decode]: the decoded bytes, nothing when the input is
    truncated ([return 0]). *)
Definition quoted_decode (inp : list Z) : list Z :=
  match quoted_decode_loop inp with Some o => o | None => [] end.

End QWord.

(** ** What the codecs are for: the reference functions *)

(** CR LF becomes LF, every other byte stays: what survives the encoder, which
    treats LF as the line end of text and drops a CR in front of it. *)
Fixpoint crlf2lf (l : list Z) : list Z :=
  match l with
  | [] => []
  | c :: l' =>
      match l' with
      | d :: _ => if (c =? cCR) && (d =? cLF) then crlf2lf l' else c :: crlf2lf l'
      | [] => [c]
      end
  end.

(** Every line of [l] has at most [n] bytes when the first starts at column
    [col]; the line feeds are not counted. *)
Fixpoint lines_le (n col : Z) (l : list Z) : bool :=
  match l with
  | [] => col <=? n
  | c :: l' => if c =? cLF then (col <=? n) && lines_le n 0 l' else lines_le n (col + 1) l'
  end.

(** The column after [l]. *)
Fixpoint column (col : Z) (l : list Z) : Z :=
  match l with
  | [] => col
  | c :: l' => if c =? cLF then column 0 l' else column (col + 1) l'
  end.

(** ** Digits *)

Lemma hex2_decode (c : Z) : is_byte c ->
  let '(h, l) := match hex2 c with [h; l] => (h, l) | _ => (0, 0) end in
  isxdigit h = true /\ isxdigit l = true /\
  Z.lor (Z.shiftl (Decode.digit (toupper h)) 4) (Decode.digit (toupper l)) = c.
Proof.
  intros H.
  by_bytes (fun c => match hex2 c with
    | [h; l] => isxdigit h && (isxdigit l &&
        (Z.lor (Z.shiftl (Decode.digit (toupper h)) 4) (Decode.digit (toupper l)) =? c))
    | _ => false end) c H.
  cbn [hex2] in *. zb. auto.
Qed.

Lemma hex2_plain (c : Z) : is_byte c ->
  exists h l, hex2 c = [h; l] /\ 32 < h < 127 /\ 32 < l < 127.
Proof.
  intros H.
  by_bytes (fun c => match hex2 c with
    | [h; l] => (32 <? h) && (h <? 127) && ((32 <? l) && (l <? 127))
    | _ => false end) c H.
  unfold hex2 in *. do 2 eexists. split; [reflexivity|]. zb. lia.
Qed.

(** ** The decoder on the encoder's tokens *)

Module DecodeFacts.
Import Decode.

Lemma dec_step_app (a b : list Z) (s : st) : (0 <= state s <= 2) ->
  camel_quoted_decode_step (a ++ b) s =
  let '(o1, s1) := camel_quoted_decode_step a s in
  let '(o2, s2) := camel_quoted_decode_step b s1 in (o1 ++ o2, s2).
Proof.
  revert s; induction a as [|c a IH]; intros s Hs; simpl.
  - by destruct (camel_quoted_decode_step b s).
  - destruct (Z.eqb_spec (state s) 0); [|destruct (Z.eqb_spec (state s) 1);
      [|destruct (Z.eqb_spec (state s) 2); [|lia]]];
    repeat zcase; rewrite IH by (simpl; lia);
    destruct (camel_quoted_decode_step a _); destruct (camel_quoted_decode_step b _); done.
Qed.

Lemma step_state (a : list Z) (s : st) : 0 <= state s <= 2 ->
  0 <= state (snd (camel_quoted_decode_step a s)) <= 2.
Proof.
  revert s; induction a as [|c a IH]; intros s Hs; simpl; [done|].
  repeat (zcase; [destruct (camel_quoted_decode_step a _) as [o s'] eqn:D;
    change s' with (snd (o, s')); rewrite <- D; apply IH; simpl; lia || idtac|]);
  repeat zcase; try (apply IH; simpl; lia);
  try (destruct (camel_quoted_decode_step a _) as [o s'] eqn:D; simpl;
       change s' with (snd (o, s')); rewrite <- D; apply IH; simpl; lia).
  done.
Qed.

Lemma dec_run_concat (chunks : list (list Z)) (s : st) : 0 <= state s <= 2 ->
  run chunks s = fst (camel_quoted_decode_step (concat chunks) s).
Proof.
  revert s; induction chunks as [|c chunks IH]; intros s Hs; simpl; [done|].
  rewrite dec_step_app by done.
  pose proof (step_state c s Hs) as Hs'.
  destruct (camel_quoted_decode_step c s) as [o s'] eqn:E; simpl in *.
  rewrite (IH s' Hs'). by destruct (camel_quoted_decode_step (concat chunks) s').
Qed.

(** [o] decodes to [d] from the text state, whatever follows. *)
Definition decodes (o d : list Z) : Prop :=
  forall rest sv, exists sv',
    fst (camel_quoted_decode_step (o ++ rest) (ST 0 sv)) =
    d ++ fst (camel_quoted_decode_step rest (ST 0 sv')).

Lemma decodes_nil : decodes [] [].
Proof. intros rest sv. by exists sv. Qed.

Lemma decodes_app o1 d1 o2 d2 :
  decodes o1 d1 -> decodes o2 d2 -> decodes (o1 ++ o2) (d1 ++ d2).
Proof.
  intros H1 H2 rest sv. rewrite <- app_assoc.
  destruct (H1 (o2 ++ rest) sv) as [sv1 ->]. destruct (H2 rest sv1) as [sv2 ->].
  exists sv2. by rewrite app_assoc.
Qed.

Lemma decodes_char c : c <> 61 -> decodes [c] [c].
Proof.
  intros Hc rest sv. exists sv. cbn [app camel_quoted_decode_step state].
  destruct (Z.eqb_spec c (ch "=")) as [->|_]; [by contradict Hc|].
  by destruct (camel_quoted_decode_step rest _).
Qed.

Lemma decodes_soft : decodes [ch "="; cLF] [].
Proof. intros rest sv. by exists sv. Qed.

Lemma decodes_hex c : is_byte c -> decodes ([ch "="] ++ hex2 c) [c].
Proof.
  intros Hc rest sv. pose proof (hex2_decode c Hc) as Hd.
  pose proof (hex2_plain c Hc) as (h & l & E & Hh & _). rewrite E in *.
  destruct Hd as (Xh & Xl & Hv).
  cbn [app camel_quoted_decode_step state save].
  change (ch "=" =? ch "=") with true. cbn match. change (0 =? 0) with true.
  change (1 =? 0) with false. change (1 =? 1) with true.
  change (2 =? 0) with false. change (2 =? 1) with false. change (2 =? 2) with true.
  cbn match. cbn [state save].
  destruct (Z.eqb_spec h cLF); [lia|]. cbn [state save].
  change (2 =? 0) with false. change (2 =? 1) with false. change (2 =? 2) with true.
  cbn match. rewrite Xh, Xl, Hv. cbn [andb]. cbn match.
  exists (toupper h). by destruct (camel_quoted_decode_step rest _).
Qed.

End DecodeFacts.

(** ** The encoder *)

Module EncodeFacts.
Import Encode DecodeFacts.

(** The delayed byte, as the input it stands for. *)
Definition pending (s : st) : list Z := if last s =? -1 then [] else [last s].

(** The delayed byte is a space, a tab or a CR. *)
Definition wf (s : st) : Prop :=
  last s = -1 \/ last s = cSP \/ last s = cTAB \/ last s = cCR.

Lemma wf_init : wf init.
Proof. by left. Qed.

Lemma qpsafe_plain c : is_byte c -> camel_mime_is_qpsafe c = true ->
  c <> 61 /\ c <> 10 /\ c <> 13 /\ (c = 9 \/ 32 <= c <= 126).
Proof.
  intros H Q. rewrite qpsafe_spec in Q by done. unfold qpsafe_ref in Q.
  apply orb_true_iff in Q as [Q|Q]; zb; lia.
Qed.

Lemma qpsafe_delayed : camel_mime_is_qpsafe cSP = true /\ camel_mime_is_qpsafe cTAB = true
  /\ camel_mime_is_qpsafe cCR = false /\ camel_mime_is_qpsafe (-1) = false.
Proof. vm_compute. auto. Qed.

Lemma wf_byte s : wf s -> last s <> -1 -> is_byte (last s).
Proof. unfold wf, is_byte. lia. Qed.

Lemma output_last_decodes s : is_byte (last s) -> decodes (fst (output_last s)) [last s].
Proof.
  intros H. unfold output_last. zcase; cbn [fst].
  - apply (decodes_app _ [] _ [last s]); [apply decodes_soft|by apply decodes_hex].
  - apply (decodes_app [] [] _ [last s]); [apply decodes_nil|by apply decodes_hex].
Qed.

(** The part of [step1] that flushes the delayed byte before an ordinary
    byte. *)
Definition flush (s : st) : list Z * Z :=
  if negb (last s =? -1) then
    if camel_mime_is_qpsafe (last s) then ([last s], sofar s + 1) else output_last s
  else ([], sofar s).

Lemma flush_decodes s : wf s -> decodes (fst (flush s)) (pending s).
Proof.
  intros W. unfold flush, pending. destruct (Z.eqb_spec (last s) (-1)) as [E|E]; cbn [negb].
  - apply decodes_nil.
  - destruct (camel_mime_is_qpsafe (last s)) eqn:Q.
    + apply decodes_char. apply qpsafe_plain in Q; [tauto|by apply wf_byte].
    + apply output_last_decodes. by apply wf_byte.
Qed.

(** What an ordinary byte appends after the flush. *)
Definition emit (c : Z) (o : list Z) (sofar : Z) : list Z * st :=
  if camel_mime_is_qpsafe c then
    let '(o, sofar) := if sofar >? 74 then (o ++ [ch "="; cLF], 0) else (o, sofar) in
    if (c =? cSP) || (c =? cTAB) then (o, ST sofar c)
    else (o ++ [c], ST (sofar + 1) (-1))
  else
    let '(o, sofar) := if sofar >? 72 then (o ++ [ch "="; cLF], 3) else (o, sofar + 3) in
    (o ++ [ch "="] ++ hex2 c, ST sofar (-1)).

Lemma step1_ordinary s c : c <> cCR -> c <> cLF ->
  step1 s c = let '(o, n) := flush s in emit c o n.
Proof.
  intros H1 H2. unfold step1, flush, emit.
  destruct (Z.eqb_spec c cCR); [easy|]. destruct (Z.eqb_spec c cLF); [easy|].
  by repeat (zcase; try done).
Qed.

Lemma emit_decodes c o d n : is_byte c -> c <> cCR -> c <> cLF -> decodes o d ->
  exists e, decodes (fst (emit c o n)) (d ++ e) /\ e ++ pending (snd (emit c o n)) = [c] /\
    wf (snd (emit c o n)).
Proof.
  intros Hc H1 H2 Ho. unfold emit. destruct (camel_mime_is_qpsafe c) eqn:Q.
  - assert (S : decodes (o ++ [ch "="; cLF]) d).
    { rewrite <- (app_nil_r d). by apply decodes_app; [|apply decodes_soft]. }
    destruct (qpsafe_plain _ Hc Q) as (N & _).
    assert (E : exists o', fst (if n >? 74 then (o ++ [ch "="; cLF], 0) else (o, n)) = o'
      /\ decodes o' d) by (destruct (n >? 74); eauto).
    destruct (if n >? 74 then _ else _) as [o' n']. destruct E as (? & <- & E).
    cbn [fst] in E. destruct ((c =? cSP) || (c =? cTAB)) eqn:T; cbn [fst snd].
    + exists []. rewrite app_nil_r. split_and!; [done| |].
      * unfold pending. cbn. destruct (Z.eqb_spec c (-1)); [unfold is_byte in Hc; lia|done].
      * unfold wf; cbn. apply orb_true_iff in T as [T|T]; zb; auto.
    + exists [c]. split_and!; [|done|by left]. apply decodes_app; [done|by apply decodes_char].
  - assert (S : decodes (o ++ [ch "="; cLF]) d).
    { rewrite <- (app_nil_r d). by apply decodes_app; [|apply decodes_soft]. }
    exists [c]. destruct (n >? 72); cbn [fst snd];
      (split_and!; [|done|by left]); apply decodes_app; eauto using decodes_hex.
Qed.

Lemma crlf2lf_cons c l : c <> cCR -> crlf2lf (c :: l) = c :: crlf2lf l.
Proof.
  intros H. destruct l as [|d l]; [done|].
  change (crlf2lf (c :: d :: l)) with
    (if (c =? cCR) && (d =? cLF) then crlf2lf (d :: l) else c :: crlf2lf (d :: l)).
  by destruct (Z.eqb_spec c cCR).
Qed.

Lemma crlf2lf_cr c l : crlf2lf (cCR :: c :: l) =
  if c =? cLF then crlf2lf (c :: l) else cCR :: crlf2lf (c :: l).
Proof. reflexivity. Qed.

(** A delayed byte followed by anything but LF passes through. *)
Lemma crlf2lf_pending s c l : wf s -> c <> cLF ->
  crlf2lf (pending s ++ c :: l) = pending s ++ crlf2lf (c :: l).
Proof.
  intros W Hc. unfold pending. destruct (Z.eqb_spec (last s) (-1)); [done|]. cbn [app].
  destruct (Z.eqb_spec (last s) cCR) as [->|E].
  - rewrite crlf2lf_cr. by destruct (Z.eqb_spec c cLF).
  - by apply crlf2lf_cons.
Qed.

(** One byte: what is written decodes to what has been settled of the input,
    and the rest is still pending. *)
Lemma step1_decodes s c tail : wf s -> is_byte c ->
  exists d, decodes (fst (step1 s c)) d /\ wf (snd (step1 s c)) /\
    crlf2lf (pending s ++ c :: tail) = d ++ crlf2lf (pending (snd (step1 s c)) ++ tail).
Proof.
  intros W Hc. destruct (Z.eqb_spec c cCR) as [->|N1]; [|destruct (Z.eqb_spec c cLF) as [->|N2]].
  - exists (pending s). unfold step1. change (cCR =? cCR) with true. cbn match.
    rewrite crlf2lf_pending by (done || lia). unfold pending.
    destruct (Z.eqb_spec (last s) (-1)) as [E|E]; cbn [negb].
    + split_and!; [apply decodes_nil|unfold wf; cbn; auto|done].
    + pose proof (output_last_decodes s (wf_byte s W E)).
      destruct (output_last s) as [o n]. split_and!; [done|unfold wf; cbn; auto|done].
  - exists (crlf2lf (pending s ++ [cLF])). unfold step1.
    change (cLF =? cCR) with false. change (cLF =? cLF) with true. cbn match.
    assert (T : crlf2lf (pending s ++ cLF :: tail) = crlf2lf (pending s ++ [cLF]) ++ crlf2lf tail).
    { unfold pending. destruct (Z.eqb_spec (last s) (-1)); cbn [app].
      - by rewrite !crlf2lf_cons by lia.
      - destruct (Z.eqb_spec (last s) cCR) as [->|].
        + rewrite !crlf2lf_cr. change (cLF =? cLF) with true. cbn match.
          by rewrite (crlf2lf_cons cLF tail) by lia.
        + rewrite !crlf2lf_cons by (done || lia). done. }
    destruct (Z.eqb_spec (last s) (-1)) as [E|E]; cbn [negb andb];
      [|destruct (Z.eqb_spec (last s) cCR) as [E'|E']; cbn [negb andb]].
    + split_and!; [|by left|done]. unfold pending. rewrite E. cbn.
      apply (decodes_char 10). lia.
    + split_and!; [|by left|done]. unfold pending. rewrite E'. cbn.
      apply (decodes_char 10). lia.
    + pose proof (output_last_decodes s (wf_byte s W E)) as D.
      destruct (output_last s) as [o n]. split_and!; [|by left|done].
      unfold pending. destruct (Z.eqb_spec (last s) (-1)); [done|]. cbn [app fst].
      rewrite crlf2lf_cons by done. change (last s :: crlf2lf [cLF]) with ([last s] ++ [cLF]).
      apply decodes_app; [done|]. apply (decodes_char 10). lia.
  - rewrite step1_ordinary by done. pose proof (flush_decodes s W) as F.
    destruct (flush s) as [o n]. cbn [fst] in F.
    destruct (emit_decodes c o (pending s) n Hc N1 N2 F) as (e & D & P & W').
    exists (pending s ++ e). split_and!; [done|done|].
    rewrite crlf2lf_pending by done. rewrite <- app_assoc. f_equal.
    rewrite crlf2lf_cons by done.
    apply app_eq_unit in P as [[-> P]|[-> P]]; rewrite P; cbn [app]; [|done].
    by rewrite crlf2lf_cons by done.
Qed.

(** The same for a whole call of the step function. *)
Lemma body_prefix inp o s :
  fold_left body inp (o, s) =
  let '(o', s') := camel_quoted_encode_step inp s in (o ++ o', s').
Proof.
  unfold camel_quoted_encode_step. revert o s.
  induction inp as [|c inp IH]; intros o s; cbn [fold_left].
  - by rewrite app_nil_r.
  - replace (body (o, s) c) with (o ++ fst (step1 s c), snd (step1 s c))
      by (unfold body; cbn; by destruct (step1 s c)).
    replace (body ([], s) c) with (fst (step1 s c), snd (step1 s c))
      by (unfold body; cbn; by destruct (step1 s c)).
    rewrite (IH (o ++ _)), (IH (fst (step1 s c))).
    destruct (fold_left body inp ([], _)). by rewrite app_assoc.
Qed.

Lemma enc_step_cons c inp s :
  camel_quoted_encode_step (c :: inp) s =
  let '(o1, s1) := step1 s c in
  let '(o2, s2) := camel_quoted_encode_step inp s1 in (o1 ++ o2, s2).
Proof.
  change (camel_quoted_encode_step (c :: inp) s) with (fold_left body inp (body ([], s) c)).
  unfold body at 2. cbn [snd fst]. destruct (step1 s c) as [o1 s1]. by rewrite body_prefix.
Qed.

Lemma enc_step_app a b s :
  camel_quoted_encode_step (a ++ b) s =
  let '(o1, s1) := camel_quoted_encode_step a s in
  let '(o2, s2) := camel_quoted_encode_step b s1 in (o1 ++ o2, s2).
Proof.
  unfold camel_quoted_encode_step at 1. rewrite fold_left_app.
  change (fold_left body a ([], s)) with (camel_quoted_encode_step a s).
  destruct (camel_quoted_encode_step a s) as [o1 s1]. apply body_prefix.
Qed.

Lemma close_step inp s :
  camel_quoted_encode_close inp s =
  let '(o, s1) := camel_quoted_encode_step inp s in
  let '(o', s2) := camel_quoted_encode_close [] s1 in (o ++ o', s2).
Proof.
  unfold camel_quoted_encode_close. destruct inp as [|c inp]; [done|].
  by destruct (camel_quoted_encode_step (c :: inp) s).
Qed.

(** Feeding a message in chunks writes what feeding it at once writes. *)
Lemma enc_run_concat chunks final s :
  run chunks final s = fst (camel_quoted_encode_close (concat chunks ++ final) s).
Proof.
  revert s; induction chunks as [|c chunks IH]; intros s; cbn [run concat]; [done|].
  rewrite <- app_assoc, close_step, enc_step_app.
  destruct (camel_quoted_encode_step c s) as [o s1]. rewrite IH, close_step.
  destruct (camel_quoted_encode_step (concat chunks ++ final) s1) as [o2 s2].
  destruct (camel_quoted_encode_close [] s2). cbn. by rewrite app_assoc.
Qed.

Lemma step_decodes inp s tail : wf s -> bytes_ok inp ->
  exists d, decodes (fst (camel_quoted_encode_step inp s)) d /\
    wf (snd (camel_quoted_encode_step inp s)) /\
    crlf2lf (pending s ++ inp ++ tail) =
      d ++ crlf2lf (pending (snd (camel_quoted_encode_step inp s)) ++ tail).
Proof.
  revert s; induction inp as [|c inp IH]; intros s W B.
  - exists []. split_and!; [apply decodes_nil|done|done].
  - apply Forall_cons_iff in B as [Hc B]. rewrite enc_step_cons.
    destruct (step1_decodes s c (inp ++ tail) W Hc) as (d1 & D1 & W1 & E1).
    destruct (step1 s c) as [o1 s1]. cbn [fst snd] in *.
    destruct (IH s1 W1 B) as (d2 & D2 & W2 & E2).
    destruct (camel_quoted_encode_step inp s1) as [o2 s2]. cbn [fst snd] in *.
    exists (d1 ++ d2). split_and!; [by apply decodes_app|done|].
    cbn [app]. by rewrite E1, E2, app_assoc.
Qed.

Lemma close_decodes inp s : wf s -> bytes_ok inp ->
  decodes (fst (camel_quoted_encode_close inp s)) (crlf2lf (pending s ++ inp)).
Proof.
  intros W B. rewrite close_step.
  destruct (step_decodes inp s [] W B) as (d & D & W' & E).
  destruct (camel_quoted_encode_step inp s) as [o s']. rewrite !app_nil_r in E. rewrite E.
  cbn [fst snd] in *. unfold camel_quoted_encode_close, pending.
  destruct (Z.eqb_spec (last s') (-1)) as [L|L]; cbn [negb fst app].
  - change (crlf2lf []) with (@nil Z). apply (decodes_app _ d _ []); [done|apply decodes_nil].
  - apply decodes_app; [done|].
    change (crlf2lf [last s']) with [last s'].
    pose proof (wf_byte s' W' L).
    destruct (camel_mime_is_qpsafe _ && _ && _) eqn:Q; [|by apply decodes_hex].
    apply andb_true_iff in Q as [Q _]. apply andb_true_iff in Q as [Q _].
    apply decodes_char. apply qpsafe_plain in Q; tauto.
Qed.

End EncodeFacts.

(** C39. A message encoded as quoted-printable chunk by chunk, in any chunks,
    and decoded chunk by chunk, in any other chunks, is the message with its
    CR LF line ends written as LF: nothing else of it is lost or changed. *)
Theorem quoted_roundtrip (chunks : list (list Z)) (final : list Z) (dchunks : list (list Z)) :
  Forall bytes_ok chunks -> bytes_ok final ->
  concat dchunks = Encode.run chunks final Encode.init ->
  Decode.run dchunks Decode.init = crlf2lf (concat chunks ++ final).
Proof.
  intros B1 B2 E. rewrite DecodeFacts.dec_run_concat, E, EncodeFacts.enc_run_concat by done.
  assert (B : bytes_ok (concat chunks ++ final)).
  { apply Forall_app. split; [|done]. by apply Forall_concat. }
  pose proof (EncodeFacts.close_decodes _ _ EncodeFacts.wf_init B [] 0) as [sv D].
  rewrite app_nil_r in D. etransitivity; [exact D|]. by rewrite app_nil_r.
Qed.

(** ** The shape of the encoded text *)

(** What mail transports accept: no byte outside TAB, LF and printable ASCII,
    and no line that ends in a space or a tab ([ws]: the text so far does). *)
Definition plain (c : Z) : bool := (c =? cTAB) || (c =? cLF) || ((32 <=? c) && (c <=? 126)).

Fixpoint transport_safe (ws : bool) (l : list Z) : bool :=
  match l with
  | [] => negb ws
  | c :: l' =>
      plain c &&
      (if c =? cLF then negb ws && transport_safe false l'
       else transport_safe ((c =? cSP) || (c =? cTAB)) l')
  end.

Module ShapeFacts.
Import Encode EncodeFacts.

(** The column is the saved counter; a delayed space leaves room for itself. *)
Definition inv (s : st) : Prop :=
  wf s /\ 0 <= sofar s <= 75 /\ (last s = cSP \/ last s = cTAB -> sofar s <= 74).

(** [o] takes column [a] to column [b] with no line over [n] bytes. *)
Definition moves (n a : Z) (o : list Z) (b : Z) : Prop :=
  forall rest, lines_le n a (o ++ rest) = lines_le n b rest.

Lemma moves_nil n a : moves n a [] a.
Proof. done. Qed.

Lemma moves_app n a o1 b o2 c : moves n a o1 b -> moves n b o2 c -> moves n a (o1 ++ o2) c.
Proof. intros H1 H2 rest. by rewrite <- app_assoc, H1, H2. Qed.

Lemma moves_char n a c : c <> cLF -> moves n a [c] (a + 1).
Proof. intros H rest. simpl. by destruct (Z.eqb_spec c cLF). Qed.

Lemma moves_lf n a : a <= n -> moves n a [cLF] 0.
Proof. intros H rest. simpl. by rewrite (proj2 (Z.leb_le a n) H). Qed.

Lemma moves_soft n a : a + 1 <= n -> moves n a [ch "="; cLF] 0.
Proof.
  intros H. apply (moves_app n a [ch "="] (a + 1) [cLF] 0); [by apply moves_char|by apply moves_lf].
Qed.

Lemma moves_hex n a c : is_byte c -> moves n a ([ch "="] ++ hex2 c) (a + 3).
Proof.
  intros H. destruct (hex2_plain c H) as (h & l & -> & Hh & Hl).
  replace (a + 3) with (a + 1 + 1 + 1) by lia.
  apply (moves_app n a [ch "="] (a + 1)); [by apply moves_char|].
  apply (moves_app n (a + 1) [h] (a + 1 + 1) [l]); apply moves_char; lia.
Qed.

Create HintDb moves.
#[local] Hint Resolve moves_nil moves_char moves_lf moves_soft moves_hex : moves.

Section Limit.

Context (lim : Z) (lim_ok : 76 <= lim).

Lemma output_last_moves s : is_byte (last s) -> 0 <= sofar s <= 75 ->
  moves lim (sofar s) (fst (output_last s)) (snd (output_last s)) /\
  0 <= snd (output_last s) <= 74.
Proof.
  intros H R. unfold output_last. zcase; cbn [fst snd].
  - split; [|lia]. eapply moves_app; [apply moves_soft; lia|]. by apply moves_hex.
  - split; [|lia]. by apply moves_hex.
Qed.

Lemma flush_moves s : inv s ->
  moves lim (sofar s) (fst (flush s)) (snd (flush s)) /\ 0 <= snd (flush s) <= 75.
Proof.
  intros (W & R & D). unfold flush.
  destruct (Z.eqb_spec (last s) (-1)) as [E|E]; cbn [negb fst snd]; [split; [apply moves_nil|lia]|].
  destruct (camel_mime_is_qpsafe (last s)) eqn:Q; cbn [fst snd].
  - assert (last s = cSP \/ last s = cTAB).
    { pose proof qpsafe_delayed as (_ & _ & N & _). destruct W as [?|[?|[?|W]]]; auto; [lia|].
      rewrite W in Q. congruence. }
    split; [apply moves_char; lia|lia].
  - destruct (output_last_moves s (wf_byte s W E) R) as [M ?]. split; [done|lia].
Qed.

Lemma emit_moves c o a n : is_byte c -> c <> cCR -> c <> cLF ->
  moves lim a o n -> 0 <= n <= 75 ->
  moves lim a (fst (emit c o n)) (sofar (snd (emit c o n))) /\ inv (snd (emit c o n)).
Proof.
  intros Hc H1 H2 M R. unfold emit, inv, wf. destruct (camel_mime_is_qpsafe c) eqn:Q.
  - assert (S : n > 74 -> moves lim a (o ++ [ch "="; cLF]) 0).
    { intros. eapply moves_app; [exact M|]. apply moves_soft. lia. }
    destruct (n >? 74) eqn:G; zb; (destruct ((c =? cSP) || (c =? cTAB)) eqn:T; cbn [fst snd sofar last];
      [apply orb_true_iff in T as [T|T]; zb|]); split_and!; auto with lia moves;
      try (eapply moves_app; [eauto with lia|by apply moves_char]); lia.
  - assert (S : n > 72 -> moves lim a (o ++ [ch "="; cLF]) 0).
    { intros. eapply moves_app; [exact M|]. apply moves_soft. lia. }
    destruct (n >? 72) eqn:G; zb; cbn [fst snd sofar last]; split_and!; auto with lia.
    + apply (moves_app lim a _ 0 _ 3); [apply S; lia|by apply (moves_hex lim 0)].
    + eapply moves_app; [exact M|by apply moves_hex].
Qed.

Lemma step1_moves s c : inv s -> is_byte c ->
  moves lim (sofar s) (fst (step1 s c)) (sofar (snd (step1 s c))) /\ inv (snd (step1 s c)).
Proof.
  intros I Hc. pose proof I as (W & R & D).
  destruct (Z.eqb_spec c cCR) as [->|N1]; [|destruct (Z.eqb_spec c cLF) as [->|N2]].
  - unfold step1. change (cCR =? cCR) with true. cbn match.
    destruct (Z.eqb_spec (last s) (-1)) as [E|E]; cbn [negb].
    + split; [apply moves_nil|]. unfold inv, wf; cbn. lia.
    + destruct (output_last_moves s (wf_byte s W E) R) as [M ?].
      destruct (output_last s) as [o n]. cbn [fst snd sofar] in *. split; [done|].
      unfold inv, wf; cbn. lia.
  - unfold step1. change (cLF =? cCR) with false. change (cLF =? cLF) with true. cbn match.
    destruct (negb (last s =? -1) && negb (last s =? cCR)) eqn:E; zb.
    + destruct (output_last_moves s (wf_byte s W ltac:(done)) R) as [M ?].
      destruct (output_last s) as [o n]. cbn [fst snd sofar] in *.
      split; [|unfold inv, wf; cbn; lia]. eapply moves_app; [exact M|apply moves_lf; lia].
    + cbn [fst snd sofar]. split; [|unfold inv, wf; cbn; lia]. apply (moves_lf lim). lia.
  - rewrite step1_ordinary by done. destruct (flush_moves s I) as [M ?].
    destruct (flush s) as [o n]. by apply emit_moves.
Qed.

Lemma step_moves inp s : inv s -> bytes_ok inp ->
  moves lim (sofar s) (fst (camel_quoted_encode_step inp s))
    (sofar (snd (camel_quoted_encode_step inp s))) /\
  inv (snd (camel_quoted_encode_step inp s)).
Proof.
  revert s; induction inp as [|c inp IH]; intros s I B; [by split; [apply moves_nil|]|].
  apply Forall_cons_iff in B as [Hc B]. rewrite enc_step_cons.
  destruct (step1_moves s c I Hc) as [M1 I1]. destruct (step1 s c) as [o1 s1].
  destruct (IH s1 I1 B) as [M2 I2]. destruct (camel_quoted_encode_step inp s1) as [o2 s2].
  cbn [fst snd] in *. split; [|done]. by eapply moves_app.
Qed.

End Limit.

(** The flush of the close function stays within 78 columns. *)
Lemma close_lines s : inv s ->
  lines_le 78 (sofar s) (fst (camel_quoted_encode_close [] s)) = true.
Proof.
  intros (W & R & _). unfold camel_quoted_encode_close.
  destruct (Z.eqb_spec (last s) (-1)) as [L|L]; cbn [negb fst app].
  - apply Z.leb_le. lia.
  - pose proof (wf_byte s W L) as Hb. destruct (_ && _ && _); cbn [app].
    + simpl. destruct (Z.eqb_spec (last s) 10); [unfold wf in W; lia|].
      apply Z.leb_le. lia.
    + pose proof (moves_hex 78 (sofar s) _ Hb []) as H.
      rewrite app_nil_r in H. cbn [app] in H. rewrite H. simpl. apply Z.leb_le. lia.
Qed.

(** Nothing is delayed after a line feed. *)
Lemma step_lf text s : last (snd (camel_quoted_encode_step (text ++ [cLF]) s)) = -1.
Proof.
  rewrite enc_step_app. destruct (camel_quoted_encode_step text s) as [o s']. rewrite enc_step_cons.
  unfold step1. cbn. by destruct (negb (last s' =? -1) && _); [destruct (output_last s')|].
Qed.

(** ** Transport safety *)

(** [o] is safe after text that ends in blanks iff [ws], and leaves [ws']. *)
Definition safe (ws : bool) (o : list Z) (ws' : bool) : Prop :=
  forall rest, transport_safe ws (o ++ rest) = transport_safe ws' rest.

Definition blank (c : Z) : bool := (c =? cSP) || (c =? cTAB).

Lemma safe_nil ws : safe ws [] ws.
Proof. done. Qed.

Lemma safe_app a o1 b o2 c : safe a o1 b -> safe b o2 c -> safe a (o1 ++ o2) c.
Proof. intros H1 H2 rest. by rewrite <- app_assoc, H1, H2. Qed.

Lemma safe_char ws c : plain c = true -> c <> cLF -> safe ws [c] (blank c).
Proof. intros P H rest. simpl. rewrite P. by destruct (Z.eqb_spec c cLF). Qed.

Lemma safe_soft ws : safe ws [ch "="; cLF] false.
Proof. done. Qed.

Lemma safe_hex ws c : is_byte c -> safe ws ([ch "="] ++ hex2 c) false.
Proof.
  intros H rest. destruct (hex2_plain c H) as (h & l & -> & Hh & Hl). simpl.
  assert (P : forall x, 32 < x < 127 -> plain x = true /\ (x =? cLF) = false /\
            ((x =? cSP) || (x =? cTAB)) = false).
  { intros x Hx. unfold plain.
    repeat split; [rewrite (proj2 (Z.leb_le 32 x)), (proj2 (Z.leb_le x 126)) by lia;
      apply orb_true_r|apply Z.eqb_neq; lia|
      apply orb_false_iff; split; apply Z.eqb_neq; lia]. }
  destruct (P h Hh) as (-> & -> & _). destruct (P l Hl) as (-> & -> & ->). done.
Qed.

Lemma output_last_safe ws s : is_byte (last s) -> safe ws (fst (output_last s)) false.
Proof.
  intros H. unfold output_last. zcase; cbn [fst].
  - eapply safe_app; [apply safe_soft|by apply safe_hex].
  - by apply safe_hex.
Qed.

(** The text may end in a blank only while the next blank is delayed. *)
Definition ws_inv (ws : bool) (s : st) : Prop :=
  wf s /\ (ws = true -> blank (last s) = true).

Lemma flush_safe ws s : ws_inv ws s -> exists ws', safe ws (fst (flush s)) ws'.
Proof.
  intros [W I]. unfold flush. destruct (Z.eqb_spec (last s) (-1)) as [E|E]; cbn [negb];
    [exists ws; apply safe_nil|].
  destruct (camel_mime_is_qpsafe (last s)) eqn:Q;
    [|exists false; apply output_last_safe; by apply wf_byte].
  apply qpsafe_plain in Q as (_ & L & _ & P); [|by apply wf_byte].
  eexists. apply safe_char; [|done]. unfold plain.
  apply orb_true_iff. destruct P as [->|P]; [by left|right; apply andb_true_iff; lia].
Qed.

Lemma emit_safe ws o ws' c n : is_byte c -> c <> cCR -> c <> cLF -> safe ws o ws' ->
  exists w, safe ws (fst (emit c o n)) w /\ ws_inv w (snd (emit c o n)).
Proof.
  intros Hc N1 N2 H. unfold emit, ws_inv, wf.
  assert (S : safe ws (o ++ [ch "="; cLF]) false) by (eapply safe_app; [exact H|apply safe_soft]).
  destruct (camel_mime_is_qpsafe c) eqn:Q.
  - apply qpsafe_plain in Q as (_ & _ & _ & P); [|done].
    assert (C : plain c = true).
    { unfold plain. apply orb_true_iff.
      destruct P as [->|P]; [by left|right; apply andb_true_iff; lia]. }
    assert (X : exists o' n' w, (if n >? 74 then (o ++ [ch "="; cLF], 0) else (o, n)) = (o', n')
              /\ safe ws o' w) by (destruct (n >? 74); eauto 6).
    destruct X as (o' & n' & w & -> & X).
    destruct ((c =? cSP) || (c =? cTAB)) eqn:T; cbn [fst snd last].
    + exists w. split_and!; [done| |by intros _].
      apply orb_true_iff in T as [T|T]; zb; auto.
    + exists (blank c). split_and!; [eapply safe_app; [exact X|by apply safe_char]|by left|].
      unfold blank. by rewrite T.
  - exists false. destruct (n >? 72); cbn [fst snd last]; (split_and!; [|by left|done]);
      (eapply safe_app; [eassumption|by apply safe_hex]).
Qed.

Lemma step1_safe ws s c : ws_inv ws s -> is_byte c ->
  exists w, safe ws (fst (step1 s c)) w /\ ws_inv w (snd (step1 s c)).
Proof.
  intros I Hc. pose proof I as [W D].
  destruct (Z.eqb_spec c cCR) as [->|N1]; [|destruct (Z.eqb_spec c cLF) as [->|N2]].
  - exists false. unfold step1. change (cCR =? cCR) with true. cbn match.
    destruct (Z.eqb_spec (last s) (-1)) as [E|E]; cbn [negb].
    + split; [|split; [unfold wf; cbn; lia|done]]. destruct ws; [|apply safe_nil].
      rewrite E in D. by specialize (D eq_refl).
    + pose proof (output_last_safe ws s (wf_byte s W E)) as S. destruct (output_last s).
      split; [done|split; [unfold wf; cbn; lia|done]].
  - exists false. unfold step1. change (cLF =? cCR) with false. change (cLF =? cLF) with true.
    cbn match. destruct (negb (last s =? -1) && negb (last s =? cCR)) eqn:E; zb.
    + pose proof (output_last_safe ws s (wf_byte s W ltac:(done))) as S. destruct (output_last s).
      split; [|split; [by left|done]]. by eapply safe_app; [exact S|].
    + split; [|split; [by left|done]]. destruct ws; [|done]. specialize (D eq_refl).
      unfold blank in D. apply orb_true_iff in D as [D|D]; zb; rewrite D in E; done.
  - rewrite step1_ordinary by done. destruct (flush_safe ws s I) as [w F].
    destruct (flush s) as [o n]. by eapply emit_safe.
Qed.

Lemma step_safe inp ws s : ws_inv ws s -> bytes_ok inp ->
  exists w, safe ws (fst (camel_quoted_encode_step inp s)) w /\
    ws_inv w (snd (camel_quoted_encode_step inp s)).
Proof.
  revert ws s; induction inp as [|c inp IH]; intros ws s I B; [exists ws; by split|].
  apply Forall_cons_iff in B as [Hc B]. rewrite enc_step_cons.
  destruct (step1_safe ws s c I Hc) as (w & M1 & I1). destruct (step1 s c) as [o1 s1].
  destruct (IH w s1 I1 B) as (w2 & M2 & I2). destruct (camel_quoted_encode_step inp s1).
  cbn [fst snd] in *. exists w2. split; [|done]. by eapply safe_app.
Qed.

End ShapeFacts.

(** No encoded line is longer than 78 bytes however the message is cut into
    chunks, and none is longer than the 76 bytes of RFC 2045 when the message
    ends with a line feed. *)
Theorem quoted_line_length (chunks : list (list Z)) (final : list Z) :
  Forall bytes_ok chunks -> bytes_ok final ->
  lines_le 78 0 (Encode.run chunks final Encode.init) = true /\
  (forall text, concat chunks ++ final = text ++ [cLF] ->
     lines_le 76 0 (Encode.run chunks final Encode.init) = true).
Proof.
  intros B1 B2. rewrite EncodeFacts.enc_run_concat, EncodeFacts.close_step.
  assert (B : bytes_ok (concat chunks ++ final)).
  { apply Forall_app. split; [|done]. by apply Forall_concat. }
  assert (I : ShapeFacts.inv Encode.init).
  { split; [apply EncodeFacts.wf_init|cbn; lia]. }
  split; [|intros text E; rewrite E in *; clear E].
  - destruct (ShapeFacts.step_moves 78 ltac:(lia) _ _ I B) as [M I'].
    destruct (Encode.camel_quoted_encode_step _ _) as [o s]. pose proof (ShapeFacts.close_lines s I').
    destruct (Encode.camel_quoted_encode_close [] s). cbn [fst snd Encode.sofar] in *. by rewrite M.
  - destruct (ShapeFacts.step_moves 76 ltac:(lia) _ _ I B) as [M (W & R & _)].
    pose proof (ShapeFacts.step_lf text Encode.init) as L.
    destruct (Encode.camel_quoted_encode_step _ _) as [o s]. cbn [fst snd Encode.sofar] in *.
    unfold Encode.camel_quoted_encode_close. rewrite L. cbn [negb fst app].
    change (-1 =? -1) with true. cbn [negb]. rewrite M. simpl. apply Z.leb_le. lia.
Qed.

(** The encoded text can travel through any mail transport: every byte is
    TAB, LF or printable ASCII, and no line, the last one included, ends in a
    space or a tab. *)
Theorem quoted_transport_safe (chunks : list (list Z)) (final : list Z) :
  Forall bytes_ok chunks -> bytes_ok final ->
  transport_safe false (Encode.run chunks final Encode.init) = true.
Proof.
  intros B1 B2. rewrite EncodeFacts.enc_run_concat, EncodeFacts.close_step.
  assert (B : bytes_ok (concat chunks ++ final)).
  { apply Forall_app. split; [|done]. by apply Forall_concat. }
  assert (I : ShapeFacts.ws_inv false Encode.init) by (split; [apply EncodeFacts.wf_init|done]).
  destruct (ShapeFacts.step_safe _ _ _ I B) as (w & M & W & D).
  destruct (Encode.camel_quoted_encode_step _ _) as [o s]. cbn [fst snd] in *.
  unfold Encode.camel_quoted_encode_close.
  destruct (Z.eqb_spec (Encode.last s) (-1)) as [L|L]; cbn [negb fst app]; rewrite M.
  - destruct w; [|done]. rewrite L in D. by specialize (D eq_refl).
  - pose proof (EncodeFacts.wf_byte s W L) as Hb.
    destruct (_ && _ && _) eqn:Q.
    + exfalso. apply andb_true_iff in Q as [Q ?]. zb.
      pose proof EncodeFacts.qpsafe_delayed as (_ & _ & N & _).
      destruct W as [?|[?|[?|W]]]; try done. by rewrite W, N in *.
    + pose proof (ShapeFacts.safe_hex w _ Hb []) as H. rewrite app_nil_r in H. exact H.
Qed.

(** An encoded word decodes to what was encoded, for every class of bytes
    left as they are that excludes [=] and [_] (the ESAFE and PSAFE classes the
    header code uses both do). *)
Theorem quoted_word_roundtrip (inp : list Z) (safemask : Z) :
  bytes_ok inp ->
  Z.land (camel_mime_special_table (ch "=")) safemask = 0 ->
  Z.land (camel_mime_special_table (ch "_")) safemask = 0 ->
  QWord.quoted_decode (QWord.quoted_encode inp safemask) = inp.
Proof.
  intros B M1 M2. unfold QWord.quoted_decode.
  assert (E : QWord.quoted_decode_loop (QWord.quoted_encode inp safemask) = Some inp);
    [|by rewrite E].
  induction inp as [|c inp IH]; [done|]. apply Forall_cons_iff in B as [Hc B].
  cbn [QWord.quoted_encode]. destruct (Z.eqb_spec c cSP) as [->|N].
  - cbn. by rewrite IH.
  - destruct (Z.land (camel_mime_special_table c) safemask =? 0) eqn:S; cbn [negb].
    + pose proof (hex2_decode c Hc) as D. unfold hex2 in *. destruct D as (_ & _ & D).
      cbn [app QWord.quoted_decode_loop]. change (ch "=" =? ch "=") with true. cbn match.
      rewrite D, IH by done. done.
    + zb. cbn [app QWord.quoted_decode_loop].
      destruct (Z.eqb_spec c (ch "=")) as [->|_]; [done|].
      destruct (Z.eqb_spec c (ch "_")) as [->|_]; [done|]. by rewrite IH.
Qed.

(** ** Witnesses *)

Lemma quoted_roundtrip_witness :
  Decode.run [bs "a =3D"; [10]] Decode.init = bs "a =" ++ [10].
Proof.
  refine (quoted_roundtrip [bs "a ="; []] [13; 10] [bs "a =3D"; [10]] _ _ _);
    [repeat constructor; vm_compute; (discriminate || reflexivity)
    |repeat constructor; vm_compute; (discriminate || reflexivity)|reflexivity].
Defined.

(** A line of 75 plain bytes and a final CR: the limit of C2 is reached. *)
Definition long_line : list Z := repeat 97 75 ++ [13].

Lemma quoted_line_length_witness :
  lines_le 78 0 (Encode.run [] long_line Encode.init) = true /\
  lines_le 77 0 (Encode.run [] long_line Encode.init) = false.
Proof.
  split; [|vm_compute; reflexivity].
  refine (proj1 (quoted_line_length [] long_line _ _)); [constructor|].
  repeat constructor; vm_compute; (discriminate || reflexivity).
Defined.

Lemma quoted_transport_safe_witness :
  transport_safe false (Encode.run [bs "end "] [10; 32] Encode.init) = true.
Proof.
  refine (quoted_transport_safe [bs "end "] [10; 32] _ _);
    repeat constructor; vm_compute; (discriminate || reflexivity).
Defined.

Lemma quoted_word_roundtrip_witness :
  QWord.quoted_decode (QWord.quoted_encode (bs "a_b =c" ++ [200]) CAMEL_MIME_IS_PSAFE)
  = bs "a_b =c" ++ [200].
Proof.
  refine (quoted_word_roundtrip _ CAMEL_MIME_IS_PSAFE _ _ _);
    [repeat constructor; vm_compute; (discriminate || reflexivity)|reflexivity|reflexivity].
Defined.
