(* ===== verification/NameValueArray.v ===== *)
(** * CamelNameValueArray: the headers of a message

    src/src/camel/camel-name-value-array.c keeps message headers in a GArray of
    (name, value) pairs, in order and with duplicates.  An array is here the
    list of its pairs; a pointer that may be NULL is an [option].  An operation
    that changes the array returns the new one with its result.  Indices are
    [guint]s, with [(guint) -1] for "not found", as in the code. *)

From stdpp Require Import base list strings numbers.
From Stdlib Require Import ZArith Lia Ascii Permutation.
From S2P Require Import Prelude.

Open Scope Z_scope.

(** CamelNameValuePair. *)
Record pair := Pair { name : list Z; value : list Z }.

Abbreviation garray := (list pair).

Inductive CamelCompareType := CAMEL_COMPARE_CASE_INSENSITIVE | CAMEL_COMPARE_CASE_SENSITIVE.

Definition camel_name_value_array_new : garray := [].

(** [reserve_size] only sizes the allocation. *)
Definition camel_name_value_array_new_sized (reserve_size : Z) : garray := [].

Definition camel_name_value_array_get_length (array : option garray) : Z :=
  match array with
  | None => 0
  | Some arr => Z.of_nat (length arr)
  end.

(** The result and the pair stored through the out pointers. *)
Definition camel_name_value_array_get (arr : garray) (index : Z) : option pair :=
  if index >=? camel_name_value_array_get_length (Some arr) then None
  else arr !! Z.to_nat index.

Definition camel_name_value_array_get_name (arr : garray) (index : Z) : option (list Z) :=
  name <$> camel_name_value_array_get arr index.

Definition camel_name_value_array_get_value (arr : garray) (index : Z) : option (list Z) :=
  value <$> camel_name_value_array_get arr index.

(** The name test of [find_named]. *)
Definition name_matches (compare_type : CamelCompareType) (nm : list Z) (p : pair) : bool :=
  match compare_type with
  | CAMEL_COMPARE_CASE_SENSITIVE => bytes_eqb nm (name p)
  | CAMEL_COMPARE_CASE_INSENSITIVE => strcase_eqb nm (name p)
  end.

(** The loop of [camel_name_value_array_find_named] from index [ii]. *)
Fixpoint find_loop (test : pair -> bool) (arr : garray) (ii : Z) : Z :=
  match arr with
  | [] => NOT_FOUND
  | p :: arr' => if test p then ii else find_loop test arr' (ii + 1)
  end.

Definition camel_name_value_array_find_named (arr : garray) (compare_type : CamelCompareType)
    (nm : list Z) : Z :=
  find_loop (name_matches compare_type nm) arr 0.

Definition camel_name_value_array_get_named (arr : garray) (compare_type : CamelCompareType)
    (nm : list Z) : option (list Z) :=
  let index := camel_name_value_array_find_named arr compare_type nm in
  if index =? NOT_FOUND then None else camel_name_value_array_get_value arr index.

Definition camel_name_value_array_append (arr : garray) (nm v : list Z) : garray :=
  arr ++ [Pair nm v].

(** The new array and whether it changed; [None] for a NULL argument means
    "leave that field". *)
Definition camel_name_value_array_set_internal (arr : garray) (index : Z)
    (nm v : option (list Z)) : garray * bool :=
  if negb (index <? camel_name_value_array_get_length (Some arr)) then (arr, false)
  else
    match arr !! Z.to_nat index with
    | None => (arr, false)
    | Some p =>
        let '(p, changed) :=
          match nm with
          | Some n => if negb (bytes_eqb (name p) n) then (Pair n (value p), true) else (p, false)
          | None => (p, false)
          end in
        let '(p, changed) :=
          match v with
          | Some x => if negb (bytes_eqb (value p) x) then (Pair (name p) x, true)
                      else (p, changed)
          | None => (p, changed)
          end in
        (<[Z.to_nat index := p]> arr, changed)
    end.

Definition camel_name_value_array_set (arr : garray) (index : Z) (nm v : list Z) : garray * bool :=
  if negb (index <? camel_name_value_array_get_length (Some arr)) then (arr, false)
  else camel_name_value_array_set_internal arr index (Some nm) (Some v).

Definition camel_name_value_array_set_name (arr : garray) (index : Z) (nm : list Z)
    : garray * bool :=
  if negb (index <? camel_name_value_array_get_length (Some arr)) then (arr, false)
  else camel_name_value_array_set_internal arr index (Some nm) None.

Definition camel_name_value_array_set_value (arr : garray) (index : Z) (v : list Z)
    : garray * bool :=
  if negb (index <? camel_name_value_array_get_length (Some arr)) then (arr, false)
  else camel_name_value_array_set_internal arr index None (Some v).

Definition camel_name_value_array_set_named (arr : garray) (compare_type : CamelCompareType)
    (nm v : list Z) : garray * bool :=
  let index := camel_name_value_array_find_named arr compare_type nm in
  if index =? NOT_FOUND then (camel_name_value_array_append arr nm v, true)
  else camel_name_value_array_set_value arr index v.

Definition camel_name_value_array_remove (arr : garray) (index : Z) : garray * bool :=
  if negb (index <? camel_name_value_array_get_length (Some arr)) then (arr, false)
  else (take (Z.to_nat index) arr ++ drop (S (Z.to_nat index)) arr, true).

(** The loop of [camel_name_value_array_remove_named]: [None] when [fuel]
    rounds were not enough. *)
Fixpoint remove_loop (fuel : nat) (arr : garray) (compare_type : CamelCompareType)
    (nm : list Z) (all_occurrences : bool) (removed : Z) : option (garray * Z) :=
  match fuel with
  | O => None
  | S fuel =>
      let index := camel_name_value_array_find_named arr compare_type nm in
      if index =? NOT_FOUND then Some (arr, removed)
      else
        let '(arr, ok) := camel_name_value_array_remove arr index in
        if negb ok then Some (arr, removed)
        else if negb all_occurrences then Some (arr, u32 (removed + 1))
        else remove_loop fuel arr compare_type nm all_occurrences (u32 (removed + 1))
  end.

(** One round per element and one to see that none is left. *)
Definition camel_name_value_array_remove_named (arr : garray) (compare_type : CamelCompareType)
    (nm : list Z) (all_occurrences : bool) : option (garray * Z) :=
  remove_loop (S (length arr)) arr compare_type nm all_occurrences 0.

Definition camel_name_value_array_clear (arr : garray) : garray := [].

(** The loop of [camel_name_value_array_copy] over the indices. *)
Fixpoint copy_loop (arr : garray) (iis : list Z) (copy : garray) : garray :=
  match iis with
  | [] => copy
  | ii :: iis' =>
      copy_loop arr iis'
        match camel_name_value_array_get arr ii with
        | Some p => camel_name_value_array_append copy (name p) (value p)
        | None => copy
        end
  end.

Definition camel_name_value_array_copy (array : option garray) : option garray :=
  match array with
  | None => None
  | Some arr =>
      let len := camel_name_value_array_get_length array in
      Some (copy_loop arr (seqZ 0 len) (camel_name_value_array_new_sized len))
  end.

(** [g_strcmp0 (a, b) == 0]. *)
Definition strcmp0_eqb (a b : option (list Z)) : bool :=
  match a, b with
  | None, None => true
  | Some x, Some y => bytes_eqb x y
  | _, _ => false
  end.

(** The loop of [camel_name_value_array_equal]. *)
Fixpoint equal_loop (a b : garray) (compare_type : CamelCompareType) (iis : list Z) : bool :=
  match iis with
  | [] => true
  | ii :: iis' =>
      let value1 := camel_name_value_array_get_value a ii in
      let value2 := match camel_name_value_array_get_name a ii with
                    | Some n => camel_name_value_array_get_named b compare_type n
                    | None => None
                    end in
      if negb (strcmp0_eqb value1 value2) then false else equal_loop a b compare_type iis'
  end.

(** [same] is the pointer test [array_a == array_b]. *)
Definition camel_name_value_array_equal (same : bool) (array_a array_b : option garray)
    (compare_type : CamelCompareType) : bool :=
  if same then true
  else
    match array_a, array_b with
    | Some a, Some b =>
        let len := camel_name_value_array_get_length array_a in
        if negb (len =? camel_name_value_array_get_length array_b) then false
        else equal_loop a b compare_type (seqZ 0 len)
    | _, _ =>
        camel_name_value_array_get_length array_a =? camel_name_value_array_get_length array_b
    end.

(** ** Lemmas *)

(** A GArray's length is a [guint]. *)
Definition garray_ok (arr : garray) : Prop := Z.of_nat (length arr) < 2 ^ 32.

Section Find.

Context (test : pair -> bool).

Lemma find_loop_range arr ii : 0 <= ii -> ii + Z.of_nat (length arr) < 2 ^ 32 ->
  (find_loop test arr ii = NOT_FOUND /\ forallb (fun p => negb (test p)) arr = true) \/
  (exists l p r, arr = l ++ p :: r /\ forallb (fun p => negb (test p)) l = true /\
     test p = true /\ find_loop test arr ii = ii + Z.of_nat (length l) /\
     find_loop test arr ii <> NOT_FOUND).
Proof.
  revert ii; induction arr as [|p arr IH]; intros ii H1 H2; simpl; [by left|].
  destruct (test p) eqn:T; cbn [negb andb].
  - right. exists [], p, arr. simpl. rewrite NOT_FOUND_val.
    split_and!; try done; simpl in *; lia.
  - destruct (IH (ii + 1)) as [[E F]|(l & q & r & E & F & Q & I & N)];
      [lia|simpl in H2; lia|by left|].
    right. exists (p :: l), q, r. subst arr. simpl. rewrite T. cbn. split_and!; try done. lia.
Qed.

End Find.

(** [get_named] is the value of the first pair that matches. *)
Lemma get_named_find arr ct nm : garray_ok arr ->
  camel_name_value_array_get_named arr ct nm =
  value <$> List.find (name_matches ct nm) arr.
Proof.
  intros H. unfold camel_name_value_array_get_named, camel_name_value_array_find_named.
  destruct (find_loop_range (name_matches ct nm) arr 0) as [[-> F]|(l & p & r & E & F & Q & I & N)];
    [done|unfold garray_ok in H; lia| |].
  - rewrite Z.eqb_refl. destruct (List.find _ arr) as [p|] eqn:G; [|done].
    apply find_some in G as [G1 G2]. rewrite forallb_forall in F. specialize (F p G1).
    by rewrite G2 in F.
  - rewrite (proj2 (Z.eqb_neq _ _) N), I, E. clear E I N H.
    unfold camel_name_value_array_get_value, camel_name_value_array_get,
      camel_name_value_array_get_length.
    replace (0 + Z.of_nat (length l) >=? Z.of_nat (length (l ++ p :: r))) with false;
      [|symmetry; rewrite Z.geb_leb; apply Z.leb_gt; rewrite length_app; simpl; lia].
    rewrite Z.add_0_l, Nat2Z.id, list_lookup_middle by done.
    induction l as [|q l IH]; simpl in *; [by rewrite Q|]. zb.
    destruct (name_matches ct nm q); [done|by apply IH].
Qed.

(** Whether two names are the same for a comparison. *)
Definition same_name (ct : CamelCompareType) (a b : list Z) : bool :=
  name_matches ct a (Pair b []).

Lemma same_name_matches ct a p : same_name ct a (name p) = name_matches ct a p.
Proof. by destruct ct. Qed.

Lemma same_name_refl ct a : same_name ct a a = true.
Proof. destruct ct; apply bytes_eqb_refl. Qed.

(** Names the same as one another match the same pairs. *)
Lemma same_name_ext ct a b p : same_name ct a b = true ->
  name_matches ct a p = name_matches ct b p.
Proof.
  destruct ct; unfold same_name, name_matches, strcase_eqb; simpl; intros H;
    apply bytes_eqb_eq in H; by rewrite H.
Qed.

Lemma same_name_sym ct a b : same_name ct a b = same_name ct b a.
Proof. destruct ct; apply bytes_eqb_sym. Qed.

Lemma find_app_value (f : pair -> bool) l r :
  List.find f (l ++ r) = match List.find f l with Some p => Some p | None => List.find f r end.
Proof. induction l as [|p l IH]; simpl; [done|]. by destruct (f p). Qed.

Lemma find_forallb (f : pair -> bool) l :
  forallb (fun p => negb (f p)) l = true -> List.find f l = None.
Proof. induction l as [|p l IH]; simpl; [done|]. intros H. zb. destruct (f p); [done|auto]. Qed.

Lemma insert_middle {A} (l r : list A) (x y : A) :
  <[length l := y]> (l ++ x :: r) = l ++ y :: r.
Proof. rewrite insert_app_r_alt by lia. by rewrite Nat.sub_diag. Qed.

(** [set_named] changes the first match in place, or appends. *)
Lemma set_named_spec arr ct nm v : garray_ok arr ->
  (forallb (fun p => negb (name_matches ct nm p)) arr = true /\
   camel_name_value_array_set_named arr ct nm v = (arr ++ [Pair nm v], true)) \/
  (exists l p r, arr = l ++ p :: r /\
   forallb (fun p => negb (name_matches ct nm p)) l = true /\ name_matches ct nm p = true /\
   camel_name_value_array_set_named arr ct nm v =
     (l ++ Pair (name p) v :: r, negb (bytes_eqb (value p) v))).
Proof.
  intros H. unfold camel_name_value_array_set_named, camel_name_value_array_find_named.
  destruct (find_loop_range (name_matches ct nm) arr 0) as [[-> F]|(l & p & r & E & F & Q & I & N)];
    [done|unfold garray_ok in H; lia|by left|].
  right. exists l, p, r. split_and!; try done.
  rewrite (proj2 (Z.eqb_neq _ _) N), I. clear H I N. subst arr.
  unfold camel_name_value_array_set_value, camel_name_value_array_set_internal,
    camel_name_value_array_get_length. rewrite Z.add_0_l.
  replace (Z.of_nat (length l) <? _) with true;
    [|symmetry; apply Z.ltb_lt; rewrite length_app; simpl; lia].
  cbn [negb]. rewrite Nat2Z.id, list_lookup_middle by done.
  destruct (bytes_eqb (value p) v) eqn:E; cbn [negb]; rewrite insert_middle; [|done].
  apply bytes_eqb_eq in E as <-. by destruct p.
Qed.

(** Setting a header by name makes it the value a lookup of that name
    returns, leaves every other name's lookup as it was, and reports a change
    exactly when the lookup did not already give that value; this for both
    ways of comparing names and any order and duplicates in the array. *)
Theorem set_named_get_named (arr : garray) (ct : CamelCompareType) (nm v : list Z) :
  Z.of_nat (length arr) + 1 < 2 ^ 32 ->
  let '(arr', changed) := camel_name_value_array_set_named arr ct nm v in
  camel_name_value_array_get_named arr' ct nm = Some v /\
  (forall other, same_name ct nm other = false ->
     camel_name_value_array_get_named arr' ct other =
     camel_name_value_array_get_named arr ct other) /\
  (changed = false <-> camel_name_value_array_get_named arr ct nm = Some v).
Proof.
  intros H. assert (O : garray_ok arr) by (unfold garray_ok; lia).
  destruct (set_named_spec arr ct nm v O) as [[F ->]|(l & p & r & E & F & Q & ->)].
  - assert (O' : garray_ok (arr ++ [Pair nm v])).
    { unfold garray_ok. rewrite length_app. simpl. lia. }
    setoid_rewrite (get_named_find _ _ _ O'). setoid_rewrite (get_named_find _ _ _ O).
    setoid_rewrite find_app_value. rewrite (find_forallb _ _ F). cbn [List.find].
    split_and!; [|intros other D|done].
    + rewrite <- same_name_matches. cbn. by rewrite same_name_refl.
    + destruct (List.find _ arr); [done|].
      rewrite <- same_name_matches, same_name_sym. cbn. by rewrite D.
  - subst arr. assert (O' : garray_ok (l ++ Pair (name p) v :: r)).
    { unfold garray_ok in *. rewrite length_app in *. simpl in *. lia. }
    setoid_rewrite (get_named_find _ _ _ O'). setoid_rewrite (get_named_find _ _ _ O).
    setoid_rewrite find_app_value. rewrite (find_forallb _ _ F). cbn [List.find].
    split_and!; [|intros other D|].
    + replace (name_matches ct nm (Pair (name p) v)) with (name_matches ct nm p) by (by destruct ct).
      by rewrite Q.
    + destruct (List.find _ l); [done|].
      replace (name_matches ct other (Pair (name p) v)) with (name_matches ct other p)
        by (by destruct ct).
      destruct (name_matches ct other p) eqn:M; [|done]. exfalso.
      rewrite <- same_name_matches in Q, M. rewrite same_name_sym in Q, M.
      assert (X : name_matches ct (name p) (Pair nm []) = name_matches ct other (Pair nm [])).
      { apply same_name_ext. exact M. }
      rewrite same_name_sym in D. unfold same_name in D, Q. by rewrite X, D in Q.
    + rewrite Q. cbn. rewrite negb_false_iff, bytes_eqb_eq. split; [by intros ->|by intros [= ->]].
Qed.

(** Removing the first match. *)
Lemma remove_first arr ct nm : garray_ok arr ->
  let index := camel_name_value_array_find_named arr ct nm in
  (index = NOT_FOUND /\ forallb (fun p => negb (name_matches ct nm p)) arr = true) \/
  (exists l p r, arr = l ++ p :: r /\ index <> NOT_FOUND /\
   forallb (fun p => negb (name_matches ct nm p)) l = true /\ name_matches ct nm p = true /\
   camel_name_value_array_remove arr index = (l ++ r, true)).
Proof.
  intros H index. unfold index, camel_name_value_array_find_named.
  destruct (find_loop_range (name_matches ct nm) arr 0) as [[E F]|(l & p & r & E & F & Q & I & N)];
    [done|unfold garray_ok in H; lia|by left|].
  right. exists l, p, r. split_and!; try done. rewrite I. clear I N H. subst arr.
  unfold camel_name_value_array_remove, camel_name_value_array_get_length.
  rewrite Z.add_0_l.
  replace (Z.of_nat (length l) <? _) with true;
    [|symmetry; apply Z.ltb_lt; rewrite length_app; simpl; lia].
  cbn [negb]. rewrite Nat2Z.id, take_app_length.
  replace (S (length l)) with (length l + 1)%nat by lia.
  rewrite drop_app_add. done.
Qed.

Lemma filter_forallb (f : pair -> bool) l :
  forallb (fun p => negb (f p)) l = true -> List.filter (fun p => negb (f p)) l = l.
Proof. induction l as [|p l IH]; simpl; [done|]. intros H. zb. rewrite H. simpl. by rewrite IH. Qed.

Lemma filter_none (f : pair -> bool) l :
  forallb (fun p => negb (f p)) l = true -> List.filter f l = [].
Proof. induction l as [|p l IH]; simpl; [done|]. intros H. zb. rewrite H. by apply IH. Qed.

Lemma remove_loop_all fuel arr ct nm k : (length arr < fuel)%nat -> garray_ok arr ->
  0 <= k -> k + Z.of_nat (length arr) < 2 ^ 32 ->
  remove_loop fuel arr ct nm true k =
  Some (List.filter (fun p => negb (name_matches ct nm p)) arr,
        k + Z.of_nat (length (List.filter (name_matches ct nm) arr))).
Proof.
  revert arr k; induction fuel as [|fuel IH]; intros arr k L H K1 K2; [lia|].
  cbn [remove_loop].
  destruct (remove_first arr ct nm H) as [[-> F]|(l & p & r & E & N & F & Q & R)].
  - rewrite Z.eqb_refl, (filter_none _ _ F), (filter_forallb _ _ F). simpl.
    by rewrite Z.add_0_r.
  - rewrite (proj2 (Z.eqb_neq _ _) N), R. cbn [negb]. subst arr.
    unfold garray_ok in *. rewrite !length_app in *. simpl in *.
    rewrite IH; rewrite ?length_app; unfold u32; rewrite ?Z.mod_small; try lia.
    rewrite !List.filter_app, (filter_none _ _ F), (filter_forallb _ _ F). simpl.
    rewrite Q. simpl. do 2 f_equal. lia.
Qed.

(** Removing a header by name terminates; with [all_occurrences] it leaves
    exactly the pairs that do not match, in their order, and returns how many
    did; without it, it removes the first match only. *)
Theorem remove_named_spec (arr : garray) (ct : CamelCompareType) (nm : list Z) :
  garray_ok arr ->
  camel_name_value_array_remove_named arr ct nm true =
    Some (List.filter (fun p => negb (name_matches ct nm p)) arr,
          Z.of_nat (length (List.filter (name_matches ct nm) arr))) /\
  (camel_name_value_array_remove_named arr ct nm false = Some (arr, 0) /\
     forallb (fun p => negb (name_matches ct nm p)) arr = true \/
   exists l p r, arr = l ++ p :: r /\
     forallb (fun p => negb (name_matches ct nm p)) l = true /\ name_matches ct nm p = true /\
     camel_name_value_array_remove_named arr ct nm false = Some (l ++ r, 1)).
Proof.
  intros H. unfold camel_name_value_array_remove_named. split.
  - rewrite remove_loop_all; [done|lia|done|done|done].
  - cbn [remove_loop].
    destruct (remove_first arr ct nm H) as [[-> F]|(l & p & r & E & N & F & Q & R)].
    + left. by rewrite Z.eqb_refl.
    + right. exists l, p, r. split_and!; try done.
      by rewrite (proj2 (Z.eqb_neq _ _) N), R.
Qed.

(** ** Copying and comparing *)

Lemma get_lookup arr ii : 0 <= ii ->
  camel_name_value_array_get arr ii = arr !! Z.to_nat ii.
Proof.
  intros H. unfold camel_name_value_array_get, camel_name_value_array_get_length.
  rewrite Z.geb_leb. destruct (Z.leb_spec (Z.of_nat (length arr)) ii); [|done].
  symmetry. apply lookup_ge_None. lia.
Qed.

Lemma copy_loop_prefix pre arr copy : 
  copy_loop (pre ++ arr) (seqZ (Z.of_nat (length pre)) (Z.of_nat (length arr))) copy = copy ++ arr.
Proof.
  revert pre copy; induction arr as [|p arr IH]; intros pre copy; [simpl; by rewrite app_nil_r|].
  simpl length. rewrite seqZ_cons by lia. cbn [copy_loop].
  rewrite get_lookup, Nat2Z.id, list_lookup_middle by (done || lia).
  replace (pre ++ p :: arr) with ((pre ++ [p]) ++ arr) by (by rewrite <- app_assoc).
  replace (Z.succ (Z.of_nat (length pre))) with (Z.of_nat (length (pre ++ [p])))
    by (rewrite length_app; simpl; lia).
  replace (Z.pred (Z.of_nat (S (length arr)))) with (Z.of_nat (length arr)) by lia.
  rewrite IH. unfold camel_name_value_array_append. destruct p. by rewrite <- app_assoc.
Qed.

(** A copy holds the same pairs in the same order; copying NULL gives
    NULL. *)
Theorem copy_same (array : option garray) : camel_name_value_array_copy array = array.
Proof. destruct array as [arr|]; [|done]. cbn. f_equal. apply (copy_loop_prefix [] arr []). Qed.

Lemma equal_loop_forallb pre a b ct :
  equal_loop (pre ++ a) b ct (seqZ (Z.of_nat (length pre)) (Z.of_nat (length a))) =
  forallb (fun p => strcmp0_eqb (Some (value p))
                      (camel_name_value_array_get_named b ct (name p))) a.
Proof.
  revert pre; induction a as [|p a IH]; intros pre; [done|].
  simpl length. rewrite seqZ_cons by lia. cbn [equal_loop forallb].
  unfold camel_name_value_array_get_value, camel_name_value_array_get_name.
  rewrite get_lookup, Nat2Z.id, list_lookup_middle by (done || lia). cbn [fmap option_fmap option_map].
  replace (pre ++ p :: a) with ((pre ++ [p]) ++ a) by (by rewrite <- app_assoc).
  replace (Z.succ (Z.of_nat (length pre))) with (Z.of_nat (length (pre ++ [p])))
    by (rewrite length_app; simpl; lia).
  replace (Z.pred (Z.of_nat (S (length a)))) with (Z.of_nat (length a)) by lia.
  rewrite IH. by destruct (strcmp0_eqb _ _).
Qed.

Lemma equal_forallb a b ct :
  camel_name_value_array_equal false (Some a) (Some b) ct =
  (Z.of_nat (length a) =? Z.of_nat (length b)) &&
  forallb (fun p => strcmp0_eqb (Some (value p))
                      (camel_name_value_array_get_named b ct (name p))) a.
Proof.
  unfold camel_name_value_array_equal. cbn [camel_name_value_array_get_length].
  destruct (Z.of_nat (length a) =? Z.of_nat (length b)); [|done]. cbn [negb andb].
  exact (equal_loop_forallb [] a b ct).
Qed.

Lemma find_named_elem b n p : List.find (name_matches CAMEL_COMPARE_CASE_SENSITIVE n) b = Some p ->
  List.In p b /\ name p = n.
Proof. intros H. apply find_some in H as [H1 H2]. apply bytes_eqb_eq in H2. by subst. Qed.

(** With distinct names, every pair is what the lookup of its name finds. *)
Lemma find_named_unique b p : List.NoDup (map name b) -> List.In p b ->
  List.find (name_matches CAMEL_COMPARE_CASE_SENSITIVE (name p)) b = Some p.
Proof.
  induction b as [|q b IH]; intros N I; [done|]. simpl in *.
  apply NoDup_cons_iff in N as [N1 N2]. destruct I as [->|I]; [by rewrite bytes_eqb_refl|].
  destruct (bytes_eqb (name p) (name q)) eqn:E; [|by apply IH].
  apply bytes_eqb_eq in E. contradict N1. rewrite <- E. by apply in_map.
Qed.

(** On headers whose names are distinct, the case-sensitive comparison of
    two arrays is TRUE exactly when they hold the same pairs in some order. *)
Theorem equal_permutation (a b : garray) :
  List.NoDup (map name a) -> garray_ok b ->
  camel_name_value_array_equal false (Some a) (Some b) CAMEL_COMPARE_CASE_SENSITIVE = true <->
  Permutation a b.
Proof.
  intros N O. rewrite equal_forallb, andb_true_iff, Z.eqb_eq, forallb_forall. split.
  - intros [L F]. apply NoDup_Permutation_bis; [by eapply NoDup_map_inv|lia|].
    intros p Hp. specialize (F p Hp). rewrite get_named_find in F by done.
    destruct (List.find _ b) as [q|] eqn:E; [|done]. apply find_named_elem in E as [I E].
    cbn in F. apply bytes_eqb_eq in F. destruct p, q; cbn in *; by subst.
  - intros P. split; [by rewrite (Permutation_length P)|]. intros p Hp.
    assert (Nb : List.NoDup (map name b)) by (eapply Permutation_NoDup; [by apply Permutation_map|done]).
    rewrite get_named_find, find_named_unique by (try done; by apply (Permutation_in _ P)).
    apply bytes_eqb_refl.
Qed.

(** ** Witnesses *)

Definition hdr (n v : string) : pair := Pair (bs n) (bs v).

Definition sample : garray := [hdr "From" "a"; hdr "To" "b"; hdr "to" "c"; hdr "Cc" "d"].

Lemma set_named_get_named_witness :
  camel_name_value_array_get_named
    (fst (camel_name_value_array_set_named sample CAMEL_COMPARE_CASE_INSENSITIVE (bs "TO") (bs "x")))
    CAMEL_COMPARE_CASE_INSENSITIVE (bs "to") = Some (bs "x").
Proof.
  exact (proj1 (set_named_get_named sample CAMEL_COMPARE_CASE_INSENSITIVE (bs "TO") (bs "x")
                  ltac:(vm_compute; reflexivity))).
Defined.

Lemma remove_named_spec_witness :
  camel_name_value_array_remove_named sample CAMEL_COMPARE_CASE_INSENSITIVE (bs "TO") true =
  Some ([hdr "From" "a"; hdr "Cc" "d"], 2).
Proof.
  refine (eq_trans (proj1 (remove_named_spec sample CAMEL_COMPARE_CASE_INSENSITIVE (bs "TO") _)) _);
    vm_compute; reflexivity.
Defined.

Lemma equal_permutation_witness :
  camel_name_value_array_equal false (Some [hdr "To" "b"; hdr "From" "a"])
    (Some [hdr "From" "a"; hdr "To" "b"]) CAMEL_COMPARE_CASE_SENSITIVE = true.
Proof.
  apply (equal_permutation [hdr "To" "b"; hdr "From" "a"] [hdr "From" "a"; hdr "To" "b"]);
    [|vm_compute; reflexivity|constructor].
  repeat constructor; intros I; vm_compute in I; repeat (destruct I as [I|I]; [discriminate|]); exact I.
Defined.

(** Without distinct names the comparison is not symmetric, and an array with a
    repeated name is not equal to its own copy. *)
Example equal_not_symmetric :
  let a := [hdr "X" "1"; hdr "X" "1"] in
  let b := [hdr "X" "1"; hdr "Y" "2"] in
  camel_name_value_array_equal false (Some a) (Some b) CAMEL_COMPARE_CASE_SENSITIVE = true /\
  camel_name_value_array_equal false (Some b) (Some a) CAMEL_COMPARE_CASE_SENSITIVE = false.
Proof. vm_compute. auto. Qed.

Example equal_copy_false :
  let a := [hdr "Received" "1"; hdr "Received" "2"] in
  camel_name_value_array_equal false (Some a) (camel_name_value_array_copy (Some a))
    CAMEL_COMPARE_CASE_SENSITIVE = false.
Proof. vm_compute. reflexivity. Qed.
