(* ===== verification/NamedFlags.v ===== *)
(** * CamelNamedFlags: the user flags of a message

    src/src/camel/camel-named-flags.c keeps a set of flag names in a GPtrArray
    of strings, in insertion order.  The array is the list of its strings; an
    operation that changes it returns the new one with its result.  The
    invariant is that no name occurs twice, and the operations are those of a
    finite set ([to_set]). *)

From stdpp Require Import base list strings numbers gmap.
From Stdlib Require Import ZArith Lia Ascii Permutation.
From S2P Require Import Prelude.

Open Scope Z_scope.

Abbreviation flags := (list (list Z)).

Definition camel_named_flags_new : flags := [].

Definition camel_named_flags_new_sized (reserve_size : Z) : flags := [].

Definition camel_named_flags_get_length (named_flags : option flags) : Z :=
  match named_flags with
  | None => 0
  | Some arr => Z.of_nat (length arr)
  end.

(** The loop of [camel_named_flags_copy]: empty names are left out. *)
Fixpoint copy_names (src arr : flags) : flags :=
  match src with
  | [] => arr
  | name :: src' =>
      copy_names src' match name with [] => arr | _ => arr ++ [name] end
  end.

Definition camel_named_flags_copy (named_flags : option flags) : option flags :=
  match named_flags with
  | None => None
  | Some src => Some (copy_names src (camel_named_flags_new_sized (Z.of_nat (length src))))
  end.

(** The loop of [camel_named_flags_find] from index [ii]. *)
Fixpoint find_name (arr : flags) (name : list Z) (ii : Z) : Z :=
  match arr with
  | [] => NOT_FOUND
  | nm :: arr' => if bytes_eqb nm name then ii else find_name arr' name (ii + 1)
  end.

Definition camel_named_flags_find (arr : flags) (name : list Z) : Z := find_name arr name 0.

Definition camel_named_flags_insert (arr : flags) (name : list Z) : flags * bool :=
  let index := camel_named_flags_find arr name in
  if negb (index =? NOT_FOUND) then (arr, false) else (arr ++ [name], true).

Definition camel_named_flags_remove (arr : flags) (name : list Z) : flags * bool :=
  let index := camel_named_flags_find arr name in
  if index =? NOT_FOUND then (arr, false)
  else (take (Z.to_nat index) arr ++ drop (S (Z.to_nat index)) arr, true).

Definition camel_named_flags_contains (arr : flags) (name : list Z) : bool :=
  negb (camel_named_flags_find arr name =? NOT_FOUND).

Definition camel_named_flags_clear (arr : flags) : flags :=
  if negb (Z.of_nat (length arr) =? 0) then [] else arr.

Definition camel_named_flags_get (arr : flags) (index : Z) : option (list Z) :=
  if index >=? camel_named_flags_get_length (Some arr) then None else arr !! Z.to_nat index.

(** The loop of [camel_named_flags_equal]; [contains] fails on the NULL that an
    index out of range would give. *)
Fixpoint equal_names (a b : flags) (iis : list Z) : bool :=
  match iis with
  | [] => true
  | ii :: iis' =>
      match camel_named_flags_get b ii with
      | Some nm => if negb (camel_named_flags_contains a nm) then false else equal_names a b iis'
      | None => false
      end
  end.

Definition camel_named_flags_equal (same : bool) (named_flags_a named_flags_b : option flags)
    : bool :=
  if same then true
  else
    match named_flags_a, named_flags_b with
    | Some a, Some b =>
        let len := camel_named_flags_get_length named_flags_a in
        if negb (len =? camel_named_flags_get_length named_flags_b) then false
        else equal_names a b (seqZ 0 len)
    | _, _ =>
        camel_named_flags_get_length named_flags_a =? camel_named_flags_get_length named_flags_b
    end.

(** ** The abstract specification: a finite set of names *)

Definition to_set (arr : flags) : gset (list Z) := list_to_set arr.

(** The representation invariant. *)
Definition flags_ok (arr : flags) : Prop := NoDup arr /\ Z.of_nat (length arr) < 2 ^ 32.

(** What the set interface promises; [camel_named_flags_...] implement it. *)
Record set_interface (T : Type) := SetInterface {
  si_view : T -> gset (list Z);
  si_ok : T -> Prop;
  si_insert : T -> list Z -> T * bool;
  si_remove : T -> list Z -> T * bool;
  si_contains : T -> list Z -> bool;
}.

Arguments si_view {T}. Arguments si_ok {T}. Arguments si_insert {T}.
Arguments si_remove {T}. Arguments si_contains {T}.

(** The laws of the interface, as long as the container has room for one more
    element ([room]). *)
Record set_laws {T} (I : set_interface T) (room : T -> Prop) : Prop := SetLaws {
  law_insert : forall t x, si_ok I t -> room t ->
    let '(t', b) := si_insert I t x in
    si_ok I t' /\ si_view I t' = ({[x]} ∪ si_view I t) /\ (b = true <-> x ∉ si_view I t);
  law_remove : forall t x, si_ok I t ->
    let '(t', b) := si_remove I t x in
    si_ok I t' /\ si_view I t' = (si_view I t ∖ {[x]}) /\ (b = true <-> x ∈ si_view I t);
  law_contains : forall t x, si_ok I t -> (si_contains I t x = true <-> x ∈ si_view I t);
}.

Definition named_flags_interface : set_interface flags := {|
  si_view := to_set;
  si_ok := flags_ok;
  si_insert := camel_named_flags_insert;
  si_remove := camel_named_flags_remove;
  si_contains := camel_named_flags_contains;
|}.

(** ** Lemmas *)

Lemma find_name_spec arr name ii : 0 <= ii -> ii + Z.of_nat (length arr) < 2 ^ 32 ->
  (find_name arr name ii = NOT_FOUND /\ name ∉ arr) \/
  (exists l r, arr = l ++ name :: r /\ name ∉ l /\
     find_name arr name ii = ii + Z.of_nat (length l) /\ find_name arr name ii <> NOT_FOUND).
Proof.
  revert ii; induction arr as [|nm arr IH]; intros ii H1 H2; simpl.
  - left. split; [done|]. apply not_elem_of_nil.
  - destruct (bytes_eqb nm name) eqn:E.
    + apply bytes_eqb_eq in E as ->. right. exists [], arr. rewrite NOT_FOUND_val. simpl in *.
      split_and!; [done|apply not_elem_of_nil|lia|lia].
    + apply bytes_eqb_neq in E.
      destruct (IH (ii + 1)) as [[F N]|(l & r & F & N & I & D)]; [lia|simpl in H2; lia| |].
      * left. split; [done|]. apply not_elem_of_cons. auto.
      * right. exists (nm :: l), r. subst arr. simpl.
        split_and!; [done|apply not_elem_of_cons; auto|lia|done].
Qed.

Lemma find_spec arr name : flags_ok arr ->
  (camel_named_flags_find arr name = NOT_FOUND /\ name ∉ arr) \/
  (exists l r, arr = l ++ name :: r /\ camel_named_flags_find arr name = Z.of_nat (length l) /\
     camel_named_flags_find arr name <> NOT_FOUND).
Proof.
  intros [_ H]. destruct (find_name_spec arr name 0) as [?|(l & r & ? & _ & ? & ?)];
    [done|lia|by left|]. right. by exists l, r.
Qed.

Lemma elem_to_set arr name : name ∈ to_set arr <-> name ∈ arr.
Proof. unfold to_set. apply elem_of_list_to_set. Qed.

Lemma contains_spec arr name : flags_ok arr ->
  camel_named_flags_contains arr name = true <-> name ∈ arr.
Proof.
  intros H. unfold camel_named_flags_contains.
  destruct (find_spec arr name H) as [[-> N]|(l & r & -> & E & D)].
  - by rewrite Z.eqb_refl.
  - rewrite (proj2 (Z.eqb_neq _ _) D). simpl. split; [|done]. intros _. set_solver.
Qed.

(** The flag operations implement a finite set: insertion adds the name and
    reports whether it was new, removal takes it out and reports whether it was
    there, lookup is membership, and each keeps the names distinct. *)
Theorem named_flags_set :
  set_laws named_flags_interface (fun arr => Z.of_nat (length arr) + 1 < 2 ^ 32).
Proof.
  constructor; cbn [named_flags_interface si_view si_ok si_insert si_remove si_contains].
  - intros arr name H R. unfold camel_named_flags_insert.
    destruct (find_spec arr name H) as [[-> N]|(l & r & -> & E & D)].
    + rewrite Z.eqb_refl. simpl. destruct H as [H1 H2]. unfold to_set. split_and!.
      * split; [|rewrite length_app; simpl; lia]. apply NoDup_app. split_and!; [done|set_solver|].
        apply NoDup_singleton.
      * set_solver.
      * by rewrite elem_of_list_to_set.
    + rewrite (proj2 (Z.eqb_neq _ _) D). simpl. unfold to_set. split_and!; [done|set_solver|].
      split; [done|]. intros X. contradict X. set_solver.
  - intros arr name H. unfold camel_named_flags_remove.
    destruct (find_spec arr name H) as [[-> N]|(l & r & -> & E & D)].
    + rewrite Z.eqb_refl. unfold to_set. split_and!; [done|set_solver|]. split; [done|set_solver].
    + rewrite (proj2 (Z.eqb_neq _ _) D), E, Nat2Z.id, take_app_length.
      replace (S (length l)) with (length l + 1)%nat by lia. rewrite drop_app_add.
      change (drop 1 (name :: r)) with r.
      destruct H as [H1 H2]. apply NoDup_app in H1 as (N1 & N2 & N3).
      apply NoDup_cons in N3 as [N3 N4]. unfold to_set. split_and!.
      * split; [|rewrite length_app in H2 |- *; cbn [length] in H2; lia].
        apply NoDup_app. split_and!; [done|set_solver|done].
      * simpl. set_solver.
      * split; [set_solver|done].
  - intros arr name H. by rewrite contains_spec, elem_to_set.
Qed.

Lemma equal_names_forallb a pre b :
  equal_names a (pre ++ b) (seqZ (Z.of_nat (length pre)) (Z.of_nat (length b))) =
  forallb (camel_named_flags_contains a) b.
Proof.
  revert pre; induction b as [|nm b IH]; intros pre; [done|].
  simpl length. rewrite seqZ_cons by lia. cbn [equal_names forallb].
  unfold camel_named_flags_get, camel_named_flags_get_length.
  replace (Z.of_nat (length pre) >=? _) with false;
    [|symmetry; rewrite Z.geb_leb; apply Z.leb_gt; rewrite length_app; simpl; lia].
  rewrite Nat2Z.id, list_lookup_middle by done.
  replace (pre ++ nm :: b) with ((pre ++ [nm]) ++ b) by (by rewrite <- app_assoc).
  replace (Z.succ (Z.of_nat (length pre))) with (Z.of_nat (length (pre ++ [nm])))
    by (rewrite length_app; simpl; lia).
  replace (Z.pred (Z.of_nat (S (length b)))) with (Z.of_nat (length b)) by lia.
  rewrite IH. by destruct (camel_named_flags_contains a nm).
Qed.

Lemma equal_names_all a b :
  equal_names a b (seqZ 0 (Z.of_nat (length b))) = forallb (camel_named_flags_contains a) b.
Proof. exact (equal_names_forallb a [] b). Qed.

(** Two flag arrays that are well formed compare equal exactly when they
    are the same set of names, whatever the order they were set in. *)
Theorem named_flags_equal_set (a b : flags) :
  flags_ok a -> flags_ok b ->
  camel_named_flags_equal false (Some a) (Some b) = true <-> to_set a = to_set b.
Proof.
  intros Ha Hb. unfold camel_named_flags_equal. cbn [camel_named_flags_get_length].
  split.
  - destruct (Z.eqb_spec (Z.of_nat (length a)) (Z.of_nat (length b))) as [L|]; [|done].
    cbn [negb]. rewrite L, equal_names_all, forallb_forall. intros F.
    assert (S : to_set b ⊆ to_set a).
    { intros x. rewrite !elem_to_set. intros I. apply contains_spec; [done|].
      apply F. by apply list_elem_of_In. }
    symmetry.
    apply leibniz_equiv. apply set_subseteq_size_equiv; [done|]. unfold to_set.
    rewrite !size_list_to_set by (apply Ha || apply Hb). lia.
  - intros S. assert (L : length a = length b).
    { rewrite <- (size_list_to_set (C := gset (list Z)) a), <- (size_list_to_set (C := gset (list Z)) b)
        by (apply Ha || apply Hb). unfold to_set in S. by rewrite S. }
    rewrite L, Z.eqb_refl. cbn [negb]. rewrite equal_names_all, forallb_forall.
    intros x I. apply contains_spec; [done|]. rewrite <- elem_to_set, S, elem_to_set.
    by apply list_elem_of_In.
Qed.

(** ** Witnesses *)

Definition some_flags : flags := [bs "$Label1"; bs "Junk"; bs "work"].

Lemma some_flags_ok : flags_ok some_flags /\ flags_ok (rev some_flags).
Proof.
  split; (split; [|vm_compute; reflexivity]);
    (repeat constructor; intros I; apply list_elem_of_In in I; vm_compute in I;
     repeat (destruct I as [I|I]; [discriminate|]); exact I).
Qed.

Lemma named_flags_equal_set_witness : to_set some_flags = to_set (rev some_flags).
Proof.
  apply (named_flags_equal_set some_flags (rev some_flags));
    [exact (proj1 some_flags_ok)|exact (proj2 some_flags_ok)|vm_compute; reflexivity].
Defined.
