(* ===== verification/StringUtils.v ===== *)
(** * Camel's string helpers and the string pool

    src/src/camel/camel-string-utils.c: case-insensitive comparison, hashing and
    search, and the reference-counted pool of interned strings
    ([camel_pstring_...]).  A NUL-terminated string is the list of its bytes
    before the NUL.  For the pool, where addresses matter, the store maps
    addresses to strings; reading a freed address is [None], the undefined
    behaviour the theorems rule out. *)

From stdpp Require Import base list strings numbers gmap.
From Stdlib Require Import ZArith Lia Ascii.
From S2P Require Import Prelude.

Open Scope Z_scope.

(** ** Case-insensitive strings *)

Definition camel_strcase_equal (a b : list Z) : bool := strcase_eqb a b.

(** One round of the loop of [camel_strcase_hash]; a [gchar] is signed. *)
Definition hash_step (h : Z) (c : Z) : Z :=
  let h := u32 (u32 (Z.shiftl h 4) + schar (toupper c)) in
  let g := Z.land h (15 * 2 ^ 28) in
  if negb (g =? 0) then Z.lxor (Z.lxor h (Z.shiftr g 24)) g else h.

Definition camel_strcase_hash (p : list Z) : Z := fold_left hash_step p 0.

(** [g_ascii_strncasecmp (a, b, n) == 0] on NUL-terminated strings. *)
Fixpoint strncasecmp_eqb (a b : list Z) (n : nat) : bool :=
  match n with
  | O => true
  | S n' =>
      match a, b with
      | [], [] => true
      | x :: a', y :: b' => (tolower x =? tolower y) && strncasecmp_eqb a' b' n'
      | _, _ => false
      end
  end.

(** The loop of [camel_strstrcase] at [ptr], [off] bytes into the haystack;
    [*(ptr + len - 1)] is not NUL while at least [len] bytes are left. *)
Fixpoint strstrcase_loop (ptr needle : list Z) (off : nat) : option nat :=
  if Nat.leb (length needle) (length ptr) then
    if strncasecmp_eqb ptr needle (length needle) then Some off
    else match ptr with
         | [] => None
         | _ :: ptr' => strstrcase_loop ptr' needle (S off)
         end
  else None.

(** The offset of the match. *)
Definition camel_strstrcase (haystack needle : list Z) : option nat :=
  if Nat.ltb (length haystack) (length needle) then None
  else if Nat.eqb (length needle) 0 then Some 0%nat
  else strstrcase_loop haystack needle 0.

Definition camel_strdown (str : list Z) : list Z :=
  map (fun c => if (ch "A" <=? c) && (c <=? ch "Z") then c + 32 else c) str.

(** The loop stops at the first byte that is negative as a [gchar]. *)
Fixpoint all_ascii_loop (str : list Z) : list Z :=
  match str with
  | [] => []
  | c :: str' => if schar c <? 0 then str else all_ascii_loop str'
  end.

Definition camel_string_is_all_ascii (str : option (list Z)) : bool :=
  match str with
  | None | Some [] => true
  | Some s => match all_ascii_loop s with [] => true | _ => false end
  end.

(** ** The pool *)

Abbreviation addr := positive.

(** The static [""] literal. *)
Definition EMPTY : addr := 1%positive.

(** StringPoolNode; [string] is the address of the interned bytes. *)
Record StringPoolNode := Node { node_string : addr; ref_count : Z }.

(** [string_pool] is a hash table whose keys are compared by the bytes at
    [node->string]; [mem] are the live string allocations. *)
Record state := State {
  mem : gmap addr (list Z);
  string_pool : gmap (list Z) StringPoolNode;
}.

Definition u64 (x : Z) : Z := x mod 2 ^ 64.

Definition g_free (p : addr) (st : state) : state := State (delete p (mem st)) (string_pool st).

(** [g_strdup]: a fresh address with the same bytes. *)
Definition g_strdup (s : list Z) (st : state) : addr * state :=
  let p := fresh (dom (mem st)) in (p, State (<[p := s]> (mem st)) (string_pool st)).

Definition string_pool_node_new (string : addr) : StringPoolNode := Node string 1.

Definition camel_pstring_add (string : option addr) (own : bool) (st : state)
    : option (option addr * state) :=
  match string with
  | None => Some (None, st)
  | Some p =>
      match mem st !! p with
      | None => None
      | Some [] => Some (Some EMPTY, if own then g_free p st else st)
      | Some s =>
          match string_pool st !! s with
          | Some node =>
              let node := Node (node_string node) (u64 (ref_count node + 1)) in
              let st := State (mem st) (<[s := node]> (string_pool st)) in
              let st := if own then g_free p st else st in
              Some (Some (node_string node), st)
          | None =>
              let '(p, st) := if negb own then g_strdup s st else (p, st) in
              let node := string_pool_node_new p in
              Some (Some (node_string node), State (mem st) (<[s := node]> (string_pool st)))
          end
      end
  end.

Definition camel_pstring_strdup (string : option addr) (st : state) :=
  camel_pstring_add string false st.

Definition camel_pstring_peek (string : option addr) (st : state) : option (option addr) :=
  match string with
  | None => Some None
  | Some p =>
      match mem st !! p with
      | None => None
      | Some [] => Some (Some EMPTY)
      | Some s => Some (node_string <$> string_pool st !! s)
      end
  end.

Definition camel_pstring_contains (string : option addr) (st : state) : option bool :=
  match string with
  | None => Some false
  | Some p =>
      match mem st !! p with
      | None => None
      | Some [] => Some false
      | Some s => Some (bool_decide (is_Some (string_pool st !! s)))
      end
  end.

(** The three warnings change nothing.  Removing the node frees its string
    ([string_pool_node_free]). *)
Definition camel_pstring_free (string : option addr) (st : state) : option state :=
  match string with
  | None => Some st
  | Some p =>
      match mem st !! p with
      | None => None
      | Some [] => Some st
      | Some s =>
          match string_pool st !! s with
          | None => Some st
          | Some node =>
              if negb (Pos.eqb (node_string node) p) then Some st
              else if ref_count node =? 0 then Some st
              else
                let count := ref_count node - 1 in
                if count =? 0
                then Some (g_free (node_string node) (State (mem st) (delete s (string_pool st))))
                else Some (State (mem st) (<[s := Node (node_string node) count]> (string_pool st)))
          end
      end
  end.

(** ** Programs that use the pool correctly

    [outs] are the references handed out by [camel_pstring_add] and not yet
    given back, with multiplicity; [own] are the client's own allocations. *)
Record world := World { w_st : state; outs : list addr; owned : gset addr }.

Inductive step : world -> world -> Prop :=
  | step_alloc st os ow p s :
      mem st !! p = None ->
      step (World st os ow) (World (State (<[p := s]> (mem st)) (string_pool st)) os ({[p]} ∪ ow))
  | step_dealloc st os ow p :
      p ∈ ow ->
      step (World st os ow) (World (g_free p st) os (ow ∖ {[p]}))
  | step_add st os ow p r st' :
      is_Some (mem st !! p) ->
      Z.of_nat (length os) + 1 < 2 ^ 64 ->
      camel_pstring_add (Some p) false st = Some (Some r, st') ->
      step (World st os ow) (World st' (r :: os) ow)
  | step_add_own st os ow p r st' :
      p ∈ ow ->
      Z.of_nat (length os) + 1 < 2 ^ 64 ->
      camel_pstring_add (Some p) true st = Some (Some r, st') ->
      step (World st os ow) (World st' (r :: os) (ow ∖ {[p]}))
  | step_free st os1 r os2 ow st' :
      camel_pstring_free (Some r) st = Some st' ->
      step (World st (os1 ++ r :: os2) ow) (World st' (os1 ++ os2) ow).

(** Before the first call: only the literal exists. *)
Definition start : world := World (State {[EMPTY := []]} ∅) [] ∅.

Inductive reachable : world -> Prop :=
  | reach_start : reachable start
  | reach_step w w' : reachable w -> step w w' -> reachable w'.

Definition refs (p : addr) (os : list addr) : Z := Z.of_nat (length (filter (eq p) os)).

(** The invariant: a node's string is alive and holds its key, and its count is
    the number of outstanding references, which is never 0; every outstanding
    reference is to a node or to the literal; the client's allocations are
    apart from the pool's. *)
Record pool_inv (w : world) : Prop := PoolInv {
  inv_empty : mem (w_st w) !! EMPTY = Some [];
  inv_node : forall s n, string_pool (w_st w) !! s = Some n ->
    mem (w_st w) !! node_string n = Some s /\ s <> [] /\
    ref_count n = refs (node_string n) (outs w) /\ 0 < ref_count n;
  inv_outs : forall p, p ∈ outs w -> p = EMPTY \/
    exists s n, string_pool (w_st w) !! s = Some n /\ node_string n = p;
  inv_owned : forall p, p ∈ owned w -> is_Some (mem (w_st w) !! p) /\ p <> EMPTY /\
    forall s n, string_pool (w_st w) !! s = Some n -> node_string n <> p;
}.

(** ** Lemmas on the pool *)

Lemma refs_cons p q os : refs p (q :: os) = (if decide (p = q) then 1 else 0) + refs p os.
Proof. unfold refs. rewrite filter_cons. case_decide; simpl; lia. Qed.

Lemma refs_middle p q os1 os2 : refs p (os1 ++ q :: os2) = refs p (q :: os1 ++ os2).
Proof. rewrite refs_cons. unfold refs. rewrite !filter_app, filter_cons, !length_app.
  case_decide; simpl; lia. Qed.

Lemma refs_elem p os : p ∈ os -> 0 < refs p os.
Proof.
  intros H. apply list_elem_of_split in H as (l & r & ->). rewrite refs_middle, refs_cons.
  rewrite decide_True by done. unfold refs. lia.
Qed.

Lemma refs_le p os : refs p os <= Z.of_nat (length os).
Proof. unfold refs. pose proof (length_filter (eq p) os). lia. Qed.

Lemma refs_not_elem p os : p ∉ os -> refs p os = 0.
Proof.
  induction os as [|q os IH]; [done|]. intros H. rewrite refs_cons.
  apply not_elem_of_cons in H as [H1 H2]. rewrite decide_False, IH by done. lia.
Qed.

(** Two nodes with the same address are the same node. *)
Lemma inv_node_inj w s1 n1 s2 n2 : pool_inv w ->
  string_pool (w_st w) !! s1 = Some n1 -> string_pool (w_st w) !! s2 = Some n2 ->
  node_string n1 = node_string n2 -> s1 = s2.
Proof.
  intros I H1 H2 E. destruct (inv_node w I s1 n1 H1) as [M1 _].
  destruct (inv_node w I s2 n2 H2) as [M2 _]. congruence.
Qed.

Lemma inv_node_not_empty w s n : pool_inv w -> string_pool (w_st w) !! s = Some n ->
  node_string n <> EMPTY.
Proof.
  intros I H E. destruct (inv_node w I s n H) as (M & N & _).
  rewrite E, (inv_empty w I) in M. congruence.
Qed.

Lemma inv_start : pool_inv start.
Proof.
  constructor; cbn; [done| | |].
  - intros s n H. by rewrite lookup_empty in H.
  - intros p H. by apply not_elem_of_nil in H.
  - intros p H. by apply not_elem_of_empty in H.
Qed.

Lemma inv_alloc st os ow p s : pool_inv (World st os ow) -> mem st !! p = None ->
  pool_inv (World (State (<[p := s]> (mem st)) (string_pool st)) os ({[p]} ∪ ow)).
Proof.
  intros I H. pose proof (inv_empty _ I) as E. cbn in E.
  constructor; cbn [w_st mem string_pool outs owned].
  - by rewrite lookup_insert_ne by congruence.
  - intros s' n L. destruct (inv_node _ I s' n L) as (M & R). split; [|done].
    cbn in M. by rewrite lookup_insert_ne by congruence.
  - apply (inv_outs _ I).
  - intros q. rewrite elem_of_union, elem_of_singleton. intros [->|Q].
    + rewrite lookup_insert_eq. split_and!; [by eexists|congruence|].
      intros s' n L E'. destruct (inv_node _ I s' n L) as (M & _). cbn in M. congruence.
    + destruct (inv_owned _ I q Q) as (M & N & D). split_and!; [|done|done].
      cbn in M. destruct (decide (p = q)) as [->|]; [by rewrite lookup_insert_eq; eexists|].
      by rewrite lookup_insert_ne.
Qed.

(** Freeing an allocation of the client's. *)
Lemma inv_dealloc st os ow p : pool_inv (World st os ow) -> p ∈ ow ->
  pool_inv (World (g_free p st) os (ow ∖ {[p]})).
Proof.
  intros I H. destruct (inv_owned _ I p H) as (M & N & D). cbn in M, D.
  constructor; cbn [w_st mem string_pool outs owned g_free].
  - rewrite lookup_delete_ne by done. apply (inv_empty _ I).
  - intros s n L. destruct (inv_node _ I s n L) as (M' & R). split; [|done].
    cbn in M'. rewrite lookup_delete_ne; [done|]. intros E. by apply (D s n L).
  - apply (inv_outs _ I).
  - intros q. rewrite elem_of_difference, elem_of_singleton. intros [Q1 Q2].
    destruct (inv_owned _ I q Q1) as (M' & N' & D'). split_and!; [|done|done].
    cbn in M'. by rewrite lookup_delete_ne by congruence.
Qed.

(** A reference more to a node, or to the literal. *)
Lemma inv_ref_node st os ow s n : pool_inv (World st os ow) ->
  string_pool st !! s = Some n -> Z.of_nat (length os) + 1 < 2 ^ 64 ->
  pool_inv (World (State (mem st)
      (<[s := Node (node_string n) (u64 (ref_count n + 1))]> (string_pool st)))
    (node_string n :: os) ow).
Proof.
  intros I L B. destruct (inv_node _ I s n L) as (M & N & R & P). cbn in M, R, P.
  pose proof (refs_le (node_string n) os) as Le.
  assert (U : u64 (ref_count n + 1) = ref_count n + 1) by (unfold u64; apply Z.mod_small; lia).
  rewrite U. constructor; cbn [w_st mem string_pool outs owned].
  - apply (inv_empty _ I).
  - intros s' n'. destruct (decide (s = s')) as [<-|D].
    + rewrite lookup_insert_eq. intros [= <-]. cbn [node_string ref_count].
      rewrite refs_cons, decide_True by done. split_and!; [done|done|lia|lia].
    + rewrite lookup_insert_ne by done. intros L'.
      destruct (inv_node _ I s' n' L') as (M' & N' & R' & P'). split_and!; try done.
      rewrite refs_cons, decide_False; [cbn in R'; lia|]. intros E.
      apply D. exact (inv_node_inj _ s n s' n' I L L' (eq_sym E)).
  - intros q. rewrite elem_of_cons. intros [->|Q].
    + right. exists s. eexists. rewrite lookup_insert_eq. by split.
    + destruct (inv_outs _ I q Q) as [?|(s' & n' & L' & E)]; [by left|]. right. cbn in L'.
      destruct (decide (s = s')) as [<-|D].
      * exists s. eexists. rewrite lookup_insert_eq. split; [done|]. cbn. congruence.
      * exists s', n'. by rewrite lookup_insert_ne.
  - intros q Q. destruct (inv_owned _ I q Q) as (M' & N' & D'). split_and!; [done|done|].
    intros s' n'. destruct (decide (s = s')) as [<-|D].
    + rewrite lookup_insert_eq. intros [= <-]. cbn. by apply (D' s n).
    + rewrite lookup_insert_ne by done. by apply D'.
Qed.

Lemma inv_ref_empty st os ow : pool_inv (World st os ow) -> pool_inv (World st (EMPTY :: os) ow).
Proof.
  intros I. constructor; cbn [w_st mem string_pool outs owned].
  - apply (inv_empty _ I).
  - intros s n L. destruct (inv_node _ I s n L) as (M & N & R & P). split_and!; try done.
    rewrite refs_cons, decide_False; [cbn in R; lia|]. by apply (inv_node_not_empty _ s n I).
  - intros q. rewrite elem_of_cons. intros [->|Q]; [by left|]. by apply (inv_outs _ I).
  - apply (inv_owned _ I).
Qed.

(** A new node takes over an allocation of the client's. *)
Lemma inv_new_node st os ow s p : pool_inv (World st os ow) -> p ∈ ow -> s <> [] ->
  mem st !! p = Some s -> string_pool st !! s = None ->
  pool_inv (World (State (mem st) (<[s := string_pool_node_new p]> (string_pool st)))
    (p :: os) (ow ∖ {[p]})).
Proof.
  intros I H N M L. destruct (inv_owned _ I p H) as (_ & NE & D). cbn in D.
  assert (Z0 : refs p os = 0).
  { apply refs_not_elem. intros Q. destruct (inv_outs _ I p Q) as [?|(s' & n' & L' & E)]; [done|].
    by apply (D s' n'). }
  constructor; cbn [w_st mem string_pool outs owned string_pool_node_new].
  - apply (inv_empty _ I).
  - intros s' n'. destruct (decide (s = s')) as [<-|DS].
    + rewrite lookup_insert_eq. intros [= <-]. unfold string_pool_node_new.
      cbn [node_string ref_count]. rewrite refs_cons, decide_True, Z0 by done. split_and!; [done|done|lia|lia].
    + rewrite lookup_insert_ne by done. intros L'.
      destruct (inv_node _ I s' n' L') as (M' & N' & R' & P'). split_and!; try done.
      rewrite refs_cons, decide_False; [cbn in R'; lia|]. by apply (D s' n').
  - intros q. rewrite elem_of_cons. intros [->|Q].
    + right. exists s. eexists. by rewrite lookup_insert_eq.
    + destruct (inv_outs _ I q Q) as [?|(s' & n' & L' & E)]; [by left|]. right.
      exists s', n'. cbn in L'. by rewrite lookup_insert_ne by congruence.
  - intros q. rewrite elem_of_difference, elem_of_singleton. intros [Q1 Q2].
    destruct (inv_owned _ I q Q1) as (M' & N' & D'). split_and!; [done|done|].
    intros s' n'. destruct (decide (s = s')) as [<-|DS].
    + rewrite lookup_insert_eq. intros [= <-]. cbn. congruence.
    + rewrite lookup_insert_ne by done. by apply D'.
Qed.

(** The order of the references does not matter. *)
Lemma inv_middle st os1 r os2 ow :
  pool_inv (World st (os1 ++ r :: os2) ow) -> pool_inv (World st (r :: os1 ++ os2) ow).
Proof.
  intros I. constructor; [apply (inv_empty _ I)| | |apply (inv_owned _ I)].
  - intros s n L. pose proof (inv_node _ I s n L) as X. cbn [outs] in X |- *.
    by rewrite refs_middle in X.
  - intros q Q. apply (inv_outs _ I). cbn in *. set_solver.
Qed.

Lemma inv_unref_empty st os ow : pool_inv (World st (EMPTY :: os) ow) -> pool_inv (World st os ow).
Proof.
  intros I. constructor; [apply (inv_empty _ I)| | |apply (inv_owned _ I)].
  - intros s n L. destruct (inv_node _ I s n L) as (M' & N & R & P). split_and!; try done.
    cbn in *. rewrite refs_cons, decide_False in R; [lia|]. by apply (inv_node_not_empty _ s n I).
  - intros q Q. apply (inv_outs _ I). cbn in *. set_solver.
Qed.

(** The last reference goes: the node and its string are freed. *)
Lemma inv_unref_last st os ow s n : pool_inv (World st (node_string n :: os) ow) ->
  string_pool st !! s = Some n -> ref_count n - 1 = 0 ->
  pool_inv (World (g_free (node_string n) (State (mem st) (delete s (string_pool st)))) os ow).
Proof.
  intros I L C. destruct (inv_node _ I s n L) as (_ & _ & R & _). cbn [outs] in R.
  rewrite refs_cons, decide_True in R by done.
  constructor; cbn [w_st mem string_pool outs owned g_free].
  - rewrite lookup_delete_ne; [apply (inv_empty _ I)|]. by apply (inv_node_not_empty _ s n I).
  - intros s' n'. destruct (decide (s = s')) as [<-|D]; [by rewrite lookup_delete_eq|].
    rewrite lookup_delete_ne by done. intros L'.
    assert (X : node_string n' <> node_string n).
    { intros X. apply D. apply (inv_node_inj _ s n s' n' I L L'). congruence. }
    destruct (inv_node _ I s' n' L') as (M' & N' & R' & P').
    rewrite lookup_delete_ne by done. split_and!; try done.
    cbn [outs] in R'. rewrite refs_cons, decide_False in R' by done. lia.
  - intros q Q. destruct (inv_outs _ I q) as [?|(s' & n' & L' & E')]; [cbn; set_solver|by left|].
    right. exists s', n'. destruct (decide (s = s')) as [<-|D]; [|by rewrite lookup_delete_ne].
    exfalso. cbn in L'. pose proof (refs_elem _ _ Q). replace n' with n in E' by congruence. subst q. lia.
  - intros q Q. destruct (inv_owned _ I q Q) as (M' & N' & D'). cbn in M', D'.
    split_and!; [|done|].
    + rewrite lookup_delete_ne; [done|]. by apply (D' s n).
    + intros s' n'. destruct (decide (s = s')) as [<-|D]; [by rewrite lookup_delete_eq|].
      rewrite lookup_delete_ne by done. by apply D'.
Qed.

(** A reference goes and others stay. *)
Lemma inv_unref_more st os ow s n : pool_inv (World st (node_string n :: os) ow) ->
  string_pool st !! s = Some n -> ref_count n - 1 <> 0 ->
  pool_inv (World (State (mem st)
    (<[s := Node (node_string n) (ref_count n - 1)]> (string_pool st))) os ow).
Proof.
  intros I L C. destruct (inv_node _ I s n L) as (M & N & R & P). cbn [outs] in R.
  rewrite refs_cons, decide_True in R by done.
  constructor; cbn [w_st mem string_pool outs owned].
  - apply (inv_empty _ I).
  - intros s' n'. destruct (decide (s = s')) as [<-|D].
    + rewrite lookup_insert_eq. intros [= <-]. cbn [node_string ref_count].
      split_and!; [done|done|lia|lia].
    + rewrite lookup_insert_ne by done. intros L'.
      destruct (inv_node _ I s' n' L') as (M' & N' & R' & P'). split_and!; try done.
      cbn [outs] in R'. rewrite refs_cons, decide_False in R'; [lia|].
      intros X. apply D. apply (inv_node_inj _ s n s' n' I L L'). congruence.
  - intros q Q. destruct (inv_outs _ I q) as [?|(s' & n' & L' & E')]; [cbn; set_solver|by left|].
    right. destruct (decide (s = s')) as [<-|D].
    + exists s. eexists. rewrite lookup_insert_eq. split; [done|]. cbn in *. congruence.
    + exists s', n'. by rewrite lookup_insert_ne.
  - intros q Q. destruct (inv_owned _ I q Q) as (M' & N' & D'). split_and!; [done|done|].
    intros s' n'. destruct (decide (s = s')) as [<-|D].
    + rewrite lookup_insert_eq. intros [= <-]. cbn. by apply (D' s n).
    + rewrite lookup_insert_ne by done. by apply D'.
Qed.

(** A reference less. *)
Lemma inv_unref st os1 r os2 ow st' : pool_inv (World st (os1 ++ r :: os2) ow) ->
  camel_pstring_free (Some r) st = Some st' -> pool_inv (World st' (os1 ++ os2) ow).
Proof.
  intros I F. apply inv_middle in I. unfold camel_pstring_free in F.
  destruct (inv_outs _ I r) as [->|(s & n & L & E)]; [cbn; set_solver| |].
  - pose proof (inv_empty _ I) as M. cbn in M. rewrite M in F. injection F as <-.
    by apply inv_unref_empty.
  - destruct (inv_node _ I s n L) as (M & N & _ & P). cbn in L, M. subst r.
    rewrite M in F. destruct s as [|c s]; [done|]. rewrite L, Pos.eqb_refl in F.
    cbn [negb] in F. rewrite (proj2 (Z.eqb_neq (ref_count n) 0)) in F by lia.
    destruct (Z.eqb_spec (ref_count n - 1) 0) as [C|C]; injection F as <-.
    + by apply inv_unref_last.
    + by apply inv_unref_more.
Qed.

(** Handing out a reference, with and without ownership of the argument. *)
Lemma inv_add st os ow p r st' : pool_inv (World st os ow) ->
  Z.of_nat (length os) + 1 < 2 ^ 64 ->
  camel_pstring_add (Some p) false st = Some (Some r, st') -> pool_inv (World st' (r :: os) ow).
Proof.
  intros I B A. unfold camel_pstring_add in A. destruct (mem st !! p) as [[|c s]|] eqn:M; [| |done].
  - injection A as <- <-. by apply inv_ref_empty.
  - destruct (string_pool st !! (c :: s)) as [n|] eqn:L.
    + injection A as <- <-. by apply inv_ref_node.
    + cbn [negb] in A. unfold g_strdup in A. injection A as <- <-.
      set (q := fresh (dom (mem st))). assert (Fq : mem st !! q = None).
      { apply not_elem_of_dom, is_fresh. }
      pose proof (inv_alloc st os ow q (c :: s) I Fq) as I1.
      pose proof (inv_new_node _ _ _ (c :: s) q I1) as I2.
      replace (({[q]} ∪ ow) ∖ {[q]}) with ow in I2.
      * apply I2; [set_solver|done|apply lookup_insert_eq|done].
      * assert (q ∉ ow); [|set_solver]. intros Q. destruct (inv_owned _ I q Q) as ([? X] & _).
        cbn in X. congruence.
Qed.

Lemma inv_add_own st os ow p r st' : pool_inv (World st os ow) -> p ∈ ow ->
  Z.of_nat (length os) + 1 < 2 ^ 64 ->
  camel_pstring_add (Some p) true st = Some (Some r, st') ->
  pool_inv (World st' (r :: os) (ow ∖ {[p]})).
Proof.
  intros I H B A. unfold camel_pstring_add in A. destruct (mem st !! p) as [[|c s]|] eqn:M; [| |done].
  - injection A as <- <-. apply inv_dealloc; [|done]. by apply inv_ref_empty.
  - destruct (string_pool st !! (c :: s)) as [n|] eqn:L.
    + injection A as <- <-. apply (inv_dealloc _ _ _ p); [|done]. by apply inv_ref_node.
    + cbn [negb] in A. injection A as <- <-. by apply inv_new_node.
Qed.

Lemma reach_inv w : reachable w -> pool_inv w.
Proof.
  induction 1 as [|w w' R IH S]; [apply inv_start|].
  destruct S; [by apply inv_alloc|by apply inv_dealloc|by eapply inv_add|by eapply inv_add_own|
    by eapply inv_unref].
Qed.

(** In every state a correct client can bring the pool to, a reference that
    was handed out and not given back points to live memory, and the count of
    its node is exactly the number of such references; when none is left the
    pool is empty.  So no reference dangles, none is freed twice and nothing
    leaks. *)
Theorem pstring_counts (w : world) : reachable w ->
  (forall p, p ∈ outs w -> is_Some (mem (w_st w) !! p)) /\
  (forall s n, string_pool (w_st w) !! s = Some n ->
     ref_count n = refs (node_string n) (outs w)) /\
  (outs w = [] -> string_pool (w_st w) = ∅).
Proof.
  intros R. pose proof (reach_inv w R) as I. split_and!.
  - intros p H. destruct (inv_outs w I p H) as [->|(s & n & L & <-)];
      [by rewrite (inv_empty w I)|].
    destruct (inv_node w I s n L) as (-> & _). done.
  - intros s n L. by destruct (inv_node w I s n L) as (_ & _ & ? & _).
  - intros E. apply map_eq. intros s. rewrite lookup_empty.
    destruct (string_pool (w_st w) !! s) as [n|] eqn:L; [|done].
    destruct (inv_node w I s n L) as (_ & _ & Q & P). rewrite E in Q. unfold refs in Q. simpl in Q. lia.
Qed.

(** Interning: adding a string whose bytes are those of a reference already
    handed out returns that same address, so strings from the pool are equal
    exactly when their addresses are. *)
Theorem pstring_interned (w : world) (p q : addr) (s : list Z) : reachable w ->
  q ∈ outs w -> mem (w_st w) !! q = Some s -> mem (w_st w) !! p = Some s ->
  (exists st', camel_pstring_strdup (Some p) (w_st w) = Some (Some q, st')) /\
  camel_pstring_peek (Some p) (w_st w) = Some (Some q) /\
  (p ∈ outs w -> p = q).
Proof.
  intros R H Mq Mp. pose proof (reach_inv w R) as I.
  unfold camel_pstring_strdup, camel_pstring_add, camel_pstring_peek. rewrite Mp.
  destruct (inv_outs w I q H) as [->|(s' & n & L & E)].
  - rewrite (inv_empty w I) in Mq. injection Mq as <-. split_and!; [by eexists|done|].
    intros P. destruct (inv_outs w I p P) as [?|(s' & n & L & E)]; [done|].
    destruct (inv_node w I s' n L) as (M & N & _). congruence.
  - destruct (inv_node w I s' n L) as (M & N & _). assert (s' = s) as -> by congruence.
    destruct s as [|c s]; [done|]. rewrite L. cbn [fmap option_fmap option_map].
    rewrite E. split_and!; [by eexists|done|]. intros P.
    destruct (inv_outs w I p P) as [->|(s' & n' & L' & E')].
    + rewrite (inv_empty w I) in Mp. congruence.
    + destruct (inv_node w I s' n' L') as (M' & _). congruence.
Qed.

(** ** Case-insensitive strings *)

Lemma toupper_tolower a b : tolower a = tolower b -> toupper a = toupper b.
Proof.
  unfold tolower, toupper, isupper, islower.
  destruct (Z.leb_spec 65 a), (Z.leb_spec a 90), (Z.leb_spec 65 b), (Z.leb_spec b 90),
    (Z.leb_spec 97 a), (Z.leb_spec a 122), (Z.leb_spec 97 b), (Z.leb_spec b 122); simpl; lia.
Qed.

(** Strings that compare equal without case hash to the same value: what a
    hash table keyed by [camel_strcase_hash] and [camel_strcase_equal] needs. *)
Theorem strcase_hash_equal (a b : list Z) :
  camel_strcase_equal a b = true -> camel_strcase_hash a = camel_strcase_hash b.
Proof.
  unfold camel_strcase_equal, strcase_eqb, camel_strcase_hash. intros H.
  apply bytes_eqb_eq in H. generalize 0. revert b H.
  induction a as [|x a IH]; intros [|y b] H h; try done. cbn [map] in H.
  injection H as H1 H2. cbn [fold_left]. unfold hash_step at 2 4.
  rewrite (toupper_tolower x y H1). by apply IH.
Qed.

Lemma strncasecmp_take a b : strncasecmp_eqb a b (length b) =
  strcase_eqb (take (length b) a) b.
Proof.
  unfold strcase_eqb. revert a; induction b as [|y b IH]; intros [|x a]; try done.
  simpl. by rewrite IH.
Qed.

Lemma strstrcase_loop_spec needle ptr off : 
  match strstrcase_loop ptr needle off with
  | Some i => exists l r, ptr = l ++ r /\ i = (off + length l)%nat /\
      (length needle <= length r)%nat /\ strcase_eqb (take (length needle) r) needle = true /\
      (forall l' r', ptr = l' ++ r' -> (length l' < length l)%nat ->
         strcase_eqb (take (length needle) r') needle = false)
  | None => forall l r, ptr = l ++ r -> (length needle <= length r)%nat ->
      strcase_eqb (take (length needle) r) needle = false
  end.
Proof.
  revert off; induction ptr as [|c ptr IH]; intros off; cbn [strstrcase_loop].
  - destruct (Nat.leb_spec (length needle) (length (@nil Z))) as [H|H].
    + rewrite strncasecmp_take. destruct (strcase_eqb _ _) eqn:E.
      * exists [], []. simpl in *. split_and!; try done; intros; lia.
      * intros l r P _. symmetry in P. by apply app_eq_nil in P as [-> ->].
    + intros l r P L. symmetry in P. apply app_eq_nil in P as [-> ->]. simpl in *. lia.
  - destruct (Nat.leb_spec (length needle) (length (c :: ptr))) as [H|H].
    + rewrite strncasecmp_take. destruct (strcase_eqb _ _) eqn:E.
      * exists [], (c :: ptr). split_and!; try done; intros; simpl in *; lia.
      * specialize (IH (S off)). destruct (strstrcase_loop ptr needle (S off)) as [i|].
        -- destruct IH as (l & r & -> & -> & A & B & F). exists (c :: l), r.
           split_and!; try done; [simpl; lia|]. intros [|d l'] r' P L; simpl in P; [by subst r'|].
           injection P as <- P. apply (F l' r' P). simpl in L. lia.
        -- intros [|d l] r P L; simpl in P; [by subst r|]. injection P as <- P. by apply (IH l r).
    + intros l r P L. rewrite P, length_app in H. lia.
Qed.

(** [camel_strstrcase] finds the first place where the needle occurs without
    regard to case, and NULL only when it occurs nowhere. *)
Theorem strstrcase_first (haystack needle : list Z) :
  match camel_strstrcase haystack needle with
  | Some i => exists l r, haystack = l ++ r /\ i = length l /\
      strcase_eqb (take (length needle) r) needle = true /\
      (forall l' r', haystack = l' ++ r' -> (length l' < length l)%nat ->
         strcase_eqb (take (length needle) r') needle = false)
  | None => forall l r, haystack = l ++ r -> (length needle <= length r)%nat ->
      strcase_eqb (take (length needle) r) needle = false
  end.
Proof.
  unfold camel_strstrcase. destruct (Nat.ltb_spec (length haystack) (length needle)) as [H|H].
  - intros l r -> L. rewrite length_app in H. lia.
  - destruct (Nat.eqb_spec (length needle) 0) as [E|E].
    + exists [], haystack. apply nil_length_inv in E as ->. split_and!; try done.
      intros; simpl in *; lia.
    + pose proof (strstrcase_loop_spec needle haystack 0) as S.
      destruct (strstrcase_loop haystack needle 0) as [i|]; [|done].
      destruct S as (l & r & ? & ? & _ & ? & ?). by exists l, r.
Qed.

(** ** Witnesses *)

(** "ab" is interned twice, from two addresses, and given back once. *)
Definition w_alloc : world := World (State {[EMPTY := []; 2%positive := bs "ab"]} ∅) [] {[2%positive]}.

Lemma w_alloc_reachable : reachable w_alloc.
Proof.
  apply (reach_step start); [constructor|].
  exact (eq_ind_r (fun o => step start (World (State o ∅) [] {[2%positive]}))
    (eq_ind_r (fun o => step start (World (State (<[2%positive := bs "ab"]> {[EMPTY := []]}) ∅) [] o))
      (step_alloc (State {[EMPTY := []]} ∅) [] ∅ 2%positive (bs "ab") eq_refl)
      ltac:(vm_compute; reflexivity)) ltac:(vm_compute; reflexivity)).
Qed.

Definition w_added : world :=
  World (State {[EMPTY := []; 2%positive := bs "ab"; 3%positive := bs "ab"]}
               {[bs "ab" := Node 3 1]}) [3%positive] {[2%positive]}.

Lemma w_added_reachable : reachable w_added.
Proof.
  apply (reach_step w_alloc); [apply w_alloc_reachable|].
  apply (step_add (w_st w_alloc) [] {[2%positive]} 2%positive 3%positive);
    [by eexists|vm_compute; reflexivity|vm_compute; reflexivity].
Qed.

Lemma pstring_counts_witness :
  ref_count (Node 3 1) = refs 3%positive (outs w_added).
Proof.
  exact (proj1 (proj2 (pstring_counts w_added w_added_reachable)) (bs "ab") (Node 3 1)
    ltac:(vm_compute; reflexivity)).
Defined.

Lemma pstring_interned_witness :
  camel_pstring_peek (Some 2%positive) (w_st w_added) = Some (Some 3%positive).
Proof.
  apply (pstring_interned w_added 2%positive 3%positive (bs "ab"));
    [exact w_added_reachable|left|vm_compute; reflexivity|vm_compute; reflexivity].
Defined.

Lemma strcase_hash_equal_witness :
  camel_strcase_hash (bs "Message-ID") = camel_strcase_hash (bs "message-id").
Proof. apply strcase_hash_equal. vm_compute. reflexivity. Defined.
