(* ===== verification/Utf8.v ===== *)
(** * UTF-8, modified UTF-7 and UCS-2

    src/src/camel/camel-utf8.c.  A pointer into a buffer is the list of the
    bytes from it on; reading past the end of a buffer is [None].  GLib's
    conversions between UTF-8 and UTF-16 and its validator are not part of the
    program: they are parameters of the functions that call them. *)

From stdpp Require Import base list strings numbers.
From Stdlib Require Import ZArith Lia Ascii.
From S2P Require Import Prelude.

Open Scope Z_scope.

(** ** Characters *)

(** The bytes written at [*ptr]; each is stored in a [guchar]. *)
Definition camel_utf8_putc (c : Z) : list Z :=
  if c <=? 127 then [u8 c]
  else if c <=? 2047 then
    [u8 (Z.lor 192 (Z.shiftr c 6)); Z.lor 128 (Z.land c 63)]
  else if c <=? 65535 then
    [u8 (Z.lor 224 (Z.shiftr c 12)); Z.lor 128 (Z.land (Z.shiftr c 6) 63);
     Z.lor 128 (Z.land c 63)]
  else
    [u8 (Z.lor 240 (Z.shiftr c 18)); Z.lor 128 (Z.land (Z.shiftr c 12) 63);
     Z.lor 128 (Z.land (Z.shiftr c 6) 63); Z.lor 128 (Z.land c 63)].

(** Where [camel_utf8_getc] is: at the label [again], about to read a first
    byte, or in the [do] loop with its variables [v], [r] and [m], about to
    read the next byte. *)
Inductive getc_at := Again | InLoop (v r m : Z).

(** The label [loop] with the byte [r]: the value read, or where to go on. *)
Definition at_loop (r : Z) : Z + getc_at :=
  if r <? 128 then inl r
  else if r <? 248 then inr (InLoop r r 32640)
  else inr Again.

(** One round of the [do] loop on the byte [c]. *)
Definition in_loop (v r m c : Z) : Z + getc_at :=
  if negb (Z.land c 192 =? 128) then at_loop c
  else
    let v := u32 (Z.lor (Z.shiftl v 6) (Z.land c 63)) in
    let r := u8 (Z.shiftl r 1) in
    let m := u32 (Z.shiftl m 5) in
    if negb (Z.land r 64 =? 0) then inr (InLoop v r m)
    else inl (Z.land v (u32 (Z.lnot m))).

Definition getc_step (s : getc_at) (c : Z) : Z + getc_at :=
  match s with Again => at_loop c | InLoop v r m => in_loop v r m c end.

Fixpoint getc_run (s : getc_at) (p : list Z) : option (Z * list Z) :=
  match p with
  | [] => None
  | c :: p' => match getc_step s c with inl v => Some (v, p') | inr s' => getc_run s' p' end
  end.

(** The character and the new [*ptr]; [None] when the array had no NUL. *)
Definition camel_utf8_getc (ptr : list Z) : option (Z * list Z) := getc_run Again ptr.

(** [ptr] holds the bytes up to [end]; on 0xffff [*ptr] is not advanced. *)
Definition camel_utf8_getc_limit (ptr : list Z) : Z * list Z :=
  match getc_run Again ptr with Some r => r | None => (65535, ptr) end.

(** ** Modified UTF-7 *)

Definition utf7_alphabet : list Z :=
  bs "ABCDEFGHIJKLMNOPQRSTUVWXYZabcdefghijklmnopqrstuvwxyz0123456789+,".

Definition alphabet (x : Z) : Z := nth (Z.to_nat x) utf7_alphabet 0.

(** The table [utf7_rank], row by row. *)
Definition utf7_rank_table : list Z :=
  repeat 255 16 ++ repeat 255 16 ++
  repeat 255 11 ++ [62; 63; 255; 255; 255] ++
  [52; 53; 54; 55; 56; 57; 58; 59; 60; 61; 255; 255; 255; 255; 255; 255] ++
  255 :: seqZ 0 15 ++
  seqZ 15 11 ++ repeat 255 5 ++
  255 :: seqZ 26 15 ++
  seqZ 41 11 ++ repeat 255 5 ++
  repeat 255 128.

Definition utf7_rank (c : Z) : Z := nth (Z.to_nat c) utf7_rank_table 255.

(** The local variables [v], [i] and [state] of [camel_utf7_utf8]. *)
Record dec := Dec { d_v : Z; d_i : Z; d_state : Z }.

(** One round of the loop: the units stored at [pos]. *)
Definition utf7_round (s : dec) (c : Z) : list Z * dec :=
  if d_state s =? 0 then
    if c =? ch "&" then ([], Dec (d_v s) (d_i s) 1)
    else ([c], s)
  else if d_state s =? 1 then
    if c =? ch "-" then ([ch "&"], Dec (d_v s) (d_i s) 0)
    else if negb (utf7_rank c =? 255) then ([], Dec (utf7_rank c) 6 2)
    else ([ch "&"; ch "-"], Dec (d_v s) (d_i s) 0)
  else
    if c =? ch "-" then ([], Dec (d_v s) (d_i s) 0)
    else if negb (utf7_rank c =? 255) then
      let v := u32 (Z.lor (Z.shiftl (d_v s) 6) (utf7_rank c)) in
      let i := d_i s + 6 in
      if i >=? 16 then ([Z.land (Z.shiftr v (i - 16)) 65535], Dec v (i - 16) 2)
      else ([], Dec v i 2)
    else ([c], Dec (d_v s) (d_i s) 0).

Fixpoint utf7_loop (s : dec) (p : list Z) : list Z :=
  match p with
  | [] => []
  | c :: p' => let '(o, s') := utf7_round s c in o ++ utf7_loop s' p'
  end.

(** Every unit the loop stores for the string [p]; the last round is the one
    for the terminating NUL. *)
Definition utf7_units (p : list Z) : list Z := utf7_loop (Dec 0 0 0) (p ++ [0]).

(** The string at [utf16]: the units before the first 0, [None] when none was
    stored and reading it runs past what was written. *)
Fixpoint until_nul (us : list Z) : option (list Z) :=
  match us with
  | [] => None
  | u :: us' => if u =? 0 then Some [] else cons u <$> until_nul us'
  end.

(** [utf7_closeb64]: the characters appended to [out]. *)
Definition utf7_closeb64 (v i : Z) : list Z :=
  (if i >? 0 then [alphabet (Z.land (u32 (Z.shiftl v (6 - i))) 63)] else []) ++ [ch "-"].

(** The inner loop of [camel_utf8_utf7]: the characters and the [i] left.  At
    most three rounds are needed, [i] being below 22. *)
Fixpoint b64_groups (fuel : nat) (v i : Z) : list Z * Z :=
  match fuel with
  | O => ([], i)
  | S fuel =>
      if i >=? 6 then
        let x := Z.land (Z.shiftr v (i - 6)) 63 in
        let '(o, i') := b64_groups fuel v (i - 6) in (alphabet x :: o, i')
      else ([], i)
  end.

Record enc := Enc { e_v : Z; e_i : Z; e_state : Z }.

(** One round of the loop of [camel_utf8_utf7] for the unit [c]. *)
Definition utf8_utf7_round (s : enc) (c : Z) : list Z * enc :=
  if (32 <=? c) && (c <=? 126) then
    let '(o, s) := if e_state s =? 1 then (utf7_closeb64 (e_v s) (e_i s), Enc (e_v s) 0 0)
                   else ([], s) in
    (o ++ (if c =? ch "&" then bs "&-" else [c]), s)
  else
    let '(o, s) := if e_state s =? 0 then ([ch "&"], Enc 0 (e_i s) 1) else ([], s) in
    let v := u32 (Z.lor (Z.shiftl (e_v s) 16) c) in
    let '(g, i) := b64_groups 4 v (e_i s + 16) in
    (o ++ g, Enc v i (e_state s)).

Fixpoint utf8_utf7_loop (s : enc) (us : list Z) : list Z :=
  match us with
  | [] => if e_state s =? 1 then utf7_closeb64 (e_v s) (e_i s) else []
  | c :: us' => let '(o, s') := utf8_utf7_round s c in o ++ utf8_utf7_loop s' us'
  end.

(** The characters [camel_utf8_getc] gives up to the NUL: the units of the loop
    when the conversion to UTF-16 failed. *)
Fixpoint getc_all (fuel : nat) (p : list Z) : option (list Z) :=
  match fuel with
  | O => None
  | S fuel =>
      match camel_utf8_getc p with
      | None => None
      | Some (v, p') => if v =? 0 then Some [] else cons v <$> getc_all fuel p'
      end
  end.

Section Conversions.

(** [g_utf8_to_utf16] and [g_utf16_to_utf8] on NUL-terminated strings: the
    result, or NULL. *)
Context (g_utf8_to_utf16 : list Z -> option (list Z)).
Context (g_utf16_to_utf8 : list Z -> option (list Z)).

(** [None] is the read past the units, [Some None] the result NULL. *)
Definition camel_utf7_utf8 (ptr : list Z) : option (option (list Z)) :=
  g_utf16_to_utf8 <$> until_nul (utf7_units ptr).

Definition camel_utf8_utf7 (ptr : list Z) : option (list Z) :=
  match g_utf8_to_utf16 ptr with
  | Some us => Some (utf8_utf7_loop (Enc 0 0 0) us)
  | None => utf8_utf7_loop (Enc 0 0 0) <$> getc_all (S (length ptr)) (ptr ++ [0])
  end.

End Conversions.

(** ** UCS-2 *)

(** A [guint16] stored in network order. *)
Definition htons (c : Z) : list Z := [Z.land (Z.shiftr c 8) 255; Z.land c 255].

Definition camel_utf8_ucs2 (ptr : list Z) : option (list Z) :=
  (fun cs => concat (map htons cs) ++ [0; 0]) <$> getc_all (S (length ptr)) (ptr ++ [0]).

(** The loop of [camel_ucs2_utf8]; [g_string_append_unichar] is GLib's. *)
Fixpoint camel_ucs2_utf8 (append_unichar : Z -> list Z) (ptr : list Z) : option (list Z) :=
  match ptr with
  | h :: l :: ptr' =>
      if (h =? 0) && (l =? 0) then Some []
      else app (append_unichar (h * 256 + l)) <$> camel_ucs2_utf8 append_unichar ptr'
  | _ => None
  end.

(** ** Repairing invalid text *)

Section MakeValid.

(** [g_utf8_validate (s, len, &invalid)]: [None] for TRUE, or the length of the
    valid prefix before [invalid]. *)
Context (g_utf8_validate : list Z -> option nat).

(** U+FFFD, the bytes "\357\277\275". *)
Definition replacement : list Z := [239; 191; 189].

(** The loop of [camel_utf8_make_valid_len]: [string] (NULL at first) and the
    remaining bytes.  Each round consumes a byte. *)
Fixpoint make_valid_loop (fuel : nat) (remainder : list Z) (string : option (list Z))
    : option (list Z) * list Z :=
  match fuel with
  | O => (string, remainder)
  | S fuel =>
      match remainder with
      | [] => (string, [])
      | _ =>
          match g_utf8_validate remainder with
          | None => (string, remainder)
          | Some valid_bytes =>
              let string := match string with Some s => s | None => [] end in
              make_valid_loop fuel (drop (S valid_bytes) remainder)
                (Some (string ++ take valid_bytes remainder ++ replacement))
          end
      end
  end.

(** [text] is the buffer, [text_len] negative for a NUL-terminated one, whose
    length is then that of [text].  [g_strdup] copies up to the first NUL. *)
Fixpoint strdup (text : list Z) : list Z :=
  match text with
  | [] => []
  | c :: text' => if c =? 0 then [] else c :: strdup text'
  end.

Definition camel_utf8_make_valid_len (text : option (list Z)) (text_len : Z) : option (list Z) :=
  match text with
  | None => None
  | Some text =>
      let text_len := if text_len <? 0 then Z.of_nat (length (strdup text)) else text_len in
      if (text_len <=? 0) || (match text with [] => true | c :: _ => c =? 0 end)
      then Some (strdup text)
      else
        let text := take (Z.to_nat text_len) text in
        match make_valid_loop (length text) text None with
        | (None, _) => Some (strdup text)
        | (Some string, remainder) => Some (string ++ remainder)
        end
  end.

Definition camel_utf8_make_valid (text : option (list Z)) : option (list Z) :=
  camel_utf8_make_valid_len text (-1).

End MakeValid.

(** ** Bits as arithmetic *)

Lemma lor_shift_add a b n : 0 <= n -> 0 <= b < 2 ^ n ->
  Z.lor (Z.shiftl a n) b = a * 2 ^ n + b.
Proof.
  intros Hn Hb. rewrite <- Z.shiftl_mul_pow2 by done. symmetry.
  rewrite <- Z.lxor_lor, <- Z.add_nocarry_lxor; [done| |];
  (apply Z.bits_inj'; intros k Hk; rewrite Z.land_spec, Z.bits_0;
   destruct (Z.ltb_spec k n);
   [rewrite Z.shiftl_spec_low by done; done|];
   replace b with (b mod 2 ^ n) by (by apply Z.mod_small);
   rewrite Z.mod_pow2_bits_high by lia; apply andb_false_r).
Qed.

Lemma land63 a : Z.land a 63 = a mod 64.
Proof. exact (Z.land_ones a 6 ltac:(lia)). Qed.

Lemma land16 a : Z.land a 65535 = a mod 65536.
Proof. exact (Z.land_ones a 16 ltac:(lia)). Qed.

(** Clearing the 8 bits from [k] on. *)
Lemma land_lnot_window v k : 0 <= k -> 0 <= v < 2 ^ (k + 8) ->
  Z.land v (Z.lnot (255 * 2 ^ k)) = v mod 2 ^ k.
Proof.
  intros Hk Hv. apply Z.bits_inj'. intros n Hn.
  rewrite Z.land_spec, Z.lnot_spec by done.
  destruct (Z.ltb_spec n k) as [H|H].
  - rewrite Z.mod_pow2_bits_low by done. rewrite Z.mul_pow2_bits_low by done. apply andb_true_r.
  - rewrite Z.mod_pow2_bits_high by lia. destruct (Z.ltb_spec n (k + 8)).
    + rewrite Z.mul_pow2_bits by done. change 255 with (Z.ones 8).
      rewrite Z.ones_spec_low by lia. apply andb_false_r.
    + rewrite <- (Z.mod_small v (2 ^ (k + 8))) by done.
      rewrite Z.mod_pow2_bits_high by lia. done.
Qed.

(** The leading bytes and continuation bytes, as sums. *)
Lemma lead_bytes x : 0 <= x < 64 ->
  Z.lor 128 x = 128 + x /\ (x < 32 -> Z.lor 192 x = 192 + x) /\
  (x < 16 -> Z.lor 224 x = 224 + x) /\ (x < 8 -> Z.lor 240 x = 240 + x).
Proof.
  intros H. assert (B : is_byte x) by (unfold is_byte; lia).
  by_bytes (fun x => (negb (x <? 64) || (Z.lor 128 x =? 128 + x)) &&
    ((negb (x <? 32) || (Z.lor 192 x =? 192 + x)) &&
     ((negb (x <? 16) || (Z.lor 224 x =? 224 + x)) &&
      (negb (x <? 8) || (Z.lor 240 x =? 240 + x))))) x B.
  cbv beta in K. apply andb_true_iff in K as [K1 K]. apply andb_true_iff in K as [K2 K].
  apply andb_true_iff in K as [K3 K4].
  split_and!; intros;
    repeat match goal with K : _ || _ = true |- _ => apply orb_true_iff in K as [K|K]; zb end; lia.
Qed.

Lemma cont_byte x : 0 <= x < 64 ->
  (Z.land (128 + x) 192 =? 128) = true /\ Z.land (128 + x) 63 = x.
Proof.
  intros H. assert (B : is_byte x) by (unfold is_byte; lia).
  by_bytes (fun x => negb (x <? 64) || ((Z.land (128 + x) 192 =? 128) && (Z.land (128 + x) 63 =? x)))
    x B.
  cbv beta in K. apply orb_true_iff in K as [K|K]; zb; [lia|]. split; [by apply Z.eqb_eq|done].
Qed.

(** One continuation byte in the loop. *)
Lemma in_loop_cont v r m x : 0 <= x < 64 -> 0 <= v < 2 ^ 26 ->
  in_loop v r m (128 + x) =
  let v := v * 64 + x in
  let r := u8 (Z.shiftl r 1) in
  let m := u32 (Z.shiftl m 5) in
  if negb (Z.land r 64 =? 0) then inr (InLoop v r m) else inl (Z.land v (u32 (Z.lnot m))).
Proof.
  intros Hx Hv. unfold in_loop. destruct (cont_byte x Hx) as [-> ->]. cbn [negb].
  rewrite (lor_shift_add v x 6) by lia. unfold u32 at 1 3. rewrite Z.mod_small by lia. done.
Qed.

Lemma clear_window v k : 0 <= k -> k + 8 <= 32 -> 0 <= v < 2 ^ (k + 8) ->
  Z.land v (u32 (Z.lnot (255 * 2 ^ k))) = v mod 2 ^ k.
Proof.
  intros Hk Hk' Hv. unfold u32.
  rewrite <- (Z.land_ones (Z.lnot _) 32), Z.land_assoc, land_lnot_window by (done || lia).
  rewrite Z.land_ones by lia. apply Z.mod_small.
  assert (2 ^ k <= 2 ^ 32) by (apply Z.pow_le_mono_r; lia).
  pose proof (Z.mod_pos_bound v (2 ^ k)). lia.
Qed.

(** [r] after the lead bytes of two, three and four byte sequences: bit 6 says
    whether another byte follows. *)
Definition more (r : Z) (n : nat) : bool :=
  negb (Z.land (Nat.iter n (fun r => u8 (Z.shiftl r 1)) r) 64 =? 0).

Lemma lead_rounds x :
  (0 <= x < 32 -> more (192 + x) 1 = false) /\
  (0 <= x < 16 -> more (224 + x) 1 = true /\ more (224 + x) 2 = false) /\
  (0 <= x < 8 -> more (240 + x) 1 = true /\ more (240 + x) 2 = true /\ more (240 + x) 3 = false).
Proof.
  assert (K : is_byte x -> ((negb (x <? 32) || negb (more (192 + x) 1)) &&
      ((negb (x <? 16) || (more (224 + x) 1 && negb (more (224 + x) 2))) &&
       (negb (x <? 8) || (more (240 + x) 1 && (more (240 + x) 2 && negb (more (240 + x) 3)))))) = true).
  { intros B. by_bytes (fun x => (negb (x <? 32) || negb (more (192 + x) 1)) &&
      ((negb (x <? 16) || (more (224 + x) 1 && negb (more (224 + x) 2))) &&
       (negb (x <? 8) || (more (240 + x) 1 && (more (240 + x) 2 && negb (more (240 + x) 3)))))) x B.
    exact K. }
  unfold is_byte in K.
  split_and!; intros H; specialize (K ltac:(lia)); apply andb_true_iff in K as [K1 K];
    apply andb_true_iff in K as [K2 K3];
    repeat match goal with K : _ || _ = true |- _ => apply orb_true_iff in K as [K|K]; zb end;
    first [lia|done|split_and!; done].
Qed.

Lemma at_loop_lead r : 128 <= r < 248 -> at_loop r = inr (InLoop r r 32640).
Proof.
  intros H. unfold at_loop.
  by rewrite (proj2 (Z.ltb_ge r 128)), (proj2 (Z.ltb_lt r 248)) by lia.
Qed.

(** ** Reading back a character that was written *)

Lemma putc_bytes c : 0 <= c < 2 ^ 21 ->
  camel_utf8_putc c =
    if c <=? 127 then [c]
    else if c <=? 2047 then [192 + c / 64; 128 + c mod 64]
    else if c <=? 65535 then [224 + c / 4096; 128 + (c / 64) mod 64; 128 + c mod 64]
    else [240 + c / 262144; 128 + (c / 4096) mod 64; 128 + (c / 64) mod 64; 128 + c mod 64].
Proof.
  intros H. unfold camel_utf8_putc. rewrite !land63.
  rewrite !Z.shiftr_div_pow2 by lia. change (2 ^ 6) with 64. change (2 ^ 12) with 4096.
  change (2 ^ 18) with 262144.
  assert (M : forall y, Z.lor 128 (y mod 64) = 128 + y mod 64)
    by (intros y; apply lead_bytes; apply Z.mod_pos_bound; lia).
  assert (U : forall y, 0 <= y < 256 -> u8 y = y) by (intros; by apply Z.mod_small).
  rewrite !M. clear M. repeat case_match; zb.
  - by rewrite U by lia.
  - rewrite (proj1 (proj2 (lead_bytes (c / 64) ltac:(Z.to_euclidean_division_equations; lia))))
      by (Z.to_euclidean_division_equations; lia).
    by rewrite U by (Z.to_euclidean_division_equations; lia).
  - rewrite (proj1 (proj2 (proj2 (lead_bytes (c / 4096) ltac:(Z.to_euclidean_division_equations; lia)))))
      by (Z.to_euclidean_division_equations; lia).
    by rewrite U by (Z.to_euclidean_division_equations; lia).
  - rewrite (proj2 (proj2 (proj2 (lead_bytes (c / 262144) ltac:(Z.to_euclidean_division_equations; lia)))))
      by (Z.to_euclidean_division_equations; lia).
    by rewrite U by (Z.to_euclidean_division_equations; lia).
Qed.

Lemma getc_run_lead r p : 128 <= r < 248 ->
  getc_run Again (r :: p) = getc_run (InLoop r r 32640) p.
Proof. intros H. simpl. by rewrite at_loop_lead. Qed.

Lemma getc_run_cont v r m x p : 0 <= x < 64 -> 0 <= v < 2 ^ 26 ->
  getc_run (InLoop v r m) (128 + x :: p) =
  if negb (Z.land (u8 (Z.shiftl r 1)) 64 =? 0)
  then getc_run (InLoop (v * 64 + x) (u8 (Z.shiftl r 1)) (u32 (Z.shiftl m 5))) p
  else Some (Z.land (v * 64 + x) (u32 (Z.lnot (u32 (Z.shiftl m 5)))), p).
Proof.
  intros Hx Hv. cbn [getc_run getc_step]. rewrite in_loop_cont by done. cbn zeta.
  by destruct (Z.land (u8 (Z.shiftl r 1)) 64 =? 0).
Qed.

(** The lead byte and the continuation bytes of [camel_utf8_putc] put together
    are the character. *)
Lemma getc_run_putc c rest : 0 <= c < 2 ^ 21 ->
  getc_run Again (camel_utf8_putc c ++ rest) = Some (c, rest).
Proof.
  intros H. rewrite putc_bytes by done.
  assert (M : forall y, 0 <= y mod 64 < 64) by (intros; apply Z.mod_pos_bound; lia).
  repeat case_match; zb; cbn [app].
  - simpl. unfold at_loop. by rewrite (proj2 (Z.ltb_lt c 128)) by lia.
  - assert (0 <= c / 64 < 32) by (Z.to_euclidean_division_equations; lia).
    pose proof (proj1 (lead_rounds (c / 64)) ltac:(done)) as R1. unfold more in R1. simpl in R1.
    pose proof (M c). rewrite getc_run_lead, getc_run_cont, R1 by (done || lia).
    do 2 f_equal. rewrite (clear_window _ 12) by (simpl; lia). Z.to_euclidean_division_equations; lia.
  - assert (0 <= c / 4096 < 16) by (Z.to_euclidean_division_equations; lia).
    destruct (proj1 (proj2 (lead_rounds (c / 4096))) ltac:(done)) as [R1 R2].
    unfold more in R1, R2. simpl in R1, R2. pose proof (M c). pose proof (M (c / 64)).
    rewrite getc_run_lead, getc_run_cont, R1, getc_run_cont, R2 by (done || lia).
    do 2 f_equal. rewrite (clear_window _ 17) by (simpl; lia). Z.to_euclidean_division_equations; lia.
  - assert (0 <= c / 262144 < 8) by (Z.to_euclidean_division_equations; lia).
    destruct (proj2 (proj2 (lead_rounds (c / 262144))) ltac:(done)) as (R1 & R2 & R3).
    unfold more in R1, R2, R3. simpl in R1, R2, R3.
    pose proof (M c). pose proof (M (c / 64)). pose proof (M (c / 4096)).
    rewrite getc_run_lead, getc_run_cont, R1, getc_run_cont, R2, getc_run_cont, R3 by (done || lia).
    do 2 f_equal. rewrite (clear_window _ 22) by (simpl; lia). Z.to_euclidean_division_equations; lia.
Qed.

(** On a NUL-terminated buffer a read stops at the NUL at the latest. *)
Lemma getc_run_nul s p : exists v p',
  getc_run s (p ++ [0]) = Some (v, p') /\
  ((p' = [] /\ v = 0) \/ exists l q, p = l ++ q /\ l <> [] /\ p' = q ++ [0]).
Proof.
  assert (E : forall s, getc_step s 0 = inl 0) by (by intros []).
  revert s; induction p as [|c p IH]; intros s; cbn [app getc_run].
  - rewrite E. exists 0, []. auto.
  - destruct (getc_step s c) as [v|s'].
    + exists v, (p ++ [0]). split; [done|]. right. by exists [c], p.
    + destruct (IH s') as (v & p' & R & [[-> ->]|(l & q & -> & N & ->)]).
      * exists 0, []. auto.
      * exists v, (q ++ [0]). split; [done|]. right. by exists (c :: l), q.
Qed.

Lemma getc_all_nul fuel p : (length p < fuel)%nat ->
  exists cs, getc_all fuel (p ++ [0]) = Some cs /\ (length cs <= length p)%nat.
Proof.
  revert p; induction fuel as [|fuel IH]; intros p H; [lia|]. cbn [getc_all].
  destruct (getc_run_nul Again p) as (v & p' & R & D). unfold camel_utf8_getc. rewrite R.
  destruct (Z.eqb_spec v 0) as [->|N]; [exists []; simpl; split; [done|lia]|].
  destruct D as [[_ ?]|(l & q & -> & L & ->)]; [done|]. rewrite length_app in *.
  assert (length l <> 0%nat) by (by destruct l). destruct (IH q ltac:(lia)) as (cs & -> & B).
  exists (v :: cs). simpl. split; [done|lia].
Qed.

(** Any character of up to 21 bits that is written with [camel_utf8_putc] is
    what [camel_utf8_getc] and [camel_utf8_getc_limit] read back, and they
    leave the pointer just after it. *)
Theorem utf8_char_roundtrip (c : Z) (rest : list Z) : 0 <= c < 2 ^ 21 ->
  camel_utf8_getc (camel_utf8_putc c ++ rest) = Some (c, rest) /\
  camel_utf8_getc_limit (camel_utf8_putc c ++ rest) = (c, rest).
Proof.
  intros H. unfold camel_utf8_getc, camel_utf8_getc_limit. by rewrite getc_run_putc.
Qed.

(** The loop [while ((c = camel_utf8_getc (&p)))] over a NUL-terminated
    buffer of any bytes, valid or not, ends, never reads past the NUL, and
    gives no more characters than there are bytes. *)
Theorem utf8_getc_loop_safe (p : list Z) :
  exists cs, getc_all (S (length p)) (p ++ [0]) = Some cs /\ (length cs <= length p)%nat.
Proof. apply getc_all_nul. lia. Qed.

Lemma putc_length c : 0 <= c < 2 ^ 21 -> (1 <= length (camel_utf8_putc c))%nat.
Proof. intros H. rewrite putc_bytes by done. repeat case_match; simpl; lia. Qed.

Lemma getc_all_putc cs fuel : Forall (fun c => 0 < c < 2 ^ 21) cs -> (length cs < fuel)%nat ->
  getc_all fuel (concat (map camel_utf8_putc cs) ++ [0]) = Some cs.
Proof.
  intros H. revert fuel. induction H as [|c cs Hc H IH]; intros [|fuel] F; simpl in F; try lia;
    [done|].
  cbn [getc_all map concat]. unfold camel_utf8_getc. rewrite <- app_assoc, getc_run_putc by lia.
  rewrite (proj2 (Z.eqb_neq c 0)), IH by lia. done.
Qed.

Lemma concat_putc_length cs : Forall (fun c => 0 < c < 2 ^ 21) cs ->
  (length cs <= length (concat (map camel_utf8_putc cs)))%nat.
Proof.
  induction 1 as [|c cs Hc H IH]; [done|]. simpl. rewrite length_app.
  pose proof (putc_length c ltac:(lia)). lia.
Qed.

(** The UCS-2 form of a text of characters of the basic plane is their
    16-bit codes in network order and a 16-bit NUL, and reading it back gives
    the text, if GLib appends a character as [camel_utf8_putc] writes it. *)
Theorem ucs2_roundtrip (append_unichar : Z -> list Z) (cs : list Z) :
  Forall (fun c => 0 < c < 2 ^ 16) cs ->
  (forall c, 0 < c < 2 ^ 16 -> append_unichar c = camel_utf8_putc c) ->
  let text := concat (map camel_utf8_putc cs) in
  camel_utf8_ucs2 text = Some (concat (map htons cs) ++ [0; 0]) /\
  camel_ucs2_utf8 append_unichar (concat (map htons cs) ++ [0; 0]) = Some text.
Proof.
  intros H A text. split.
  - assert (H' : Forall (fun c => 0 < c < 2 ^ 21) cs).
    { revert H. apply Forall_impl. intros c Hc. cbv beta in *. lia. }
    pose proof (concat_putc_length cs H') as L.
    unfold camel_utf8_ucs2, text. rewrite getc_all_putc; [done|done|lia].
  - unfold text. clear text. induction H as [|c cs Hc H IH]; [done|].
    cbn [map concat htons app camel_ucs2_utf8].
    assert (E : Z.land (Z.shiftr c 8) 255 * 256 + Z.land c 255 = c).
    { change 255 with (Z.ones 8). rewrite !Z.land_ones, Z.shiftr_div_pow2 by lia.
      change (2 ^ 8) with 256. Z.to_euclidean_division_equations; lia. }
    rewrite E. destruct ((Z.land (Z.shiftr c 8) 255 =? 0) && (Z.land c 255 =? 0)) eqn:Z0.
    + zb. lia.
    + rewrite IH, A by done. done.
Qed.

(** ** Modified UTF-7: the units come back *)

Lemma rank_alphabet x : 0 <= x < 64 ->
  utf7_rank (alphabet x) = x /\ alphabet x <> ch "-".
Proof.
  intros H. assert (B : is_byte x) by (unfold is_byte; lia).
  by_bytes (fun x => negb (x <? 64) || ((utf7_rank (alphabet x) =? x) && negb (alphabet x =? ch "-"))) x B.
  cbv beta in K. apply orb_true_iff in K as [K|K]; zb; [lia|done].
Qed.

(** A digit after at least one other in a run. *)
Lemma round_digit v i x y : 0 <= x < 64 -> 0 <= i -> i + 6 <= 32 -> v mod 2 ^ i = y ->
  exists v', v' mod 2 ^ (i + 6) = y * 64 + x /\
  utf7_round (Dec v i 2) (alphabet x) =
    if i + 6 >=? 16 then ([(v' / 2 ^ (i + 6 - 16)) mod 65536], Dec v' (i + 6 - 16) 2)
    else ([], Dec v' (i + 6) 2).
Proof.
  intros Hx Hi Hi' Hy. destruct (rank_alphabet x Hx) as [R N].
  exists (u32 (Z.lor (Z.shiftl v 6) x)). split.
  - rewrite (lor_shift_add v x 6) by lia. unfold u32. subst y.
    assert (D : (2 ^ (i + 6) | 2 ^ 32)).
    { exists (2 ^ (32 - (i + 6))). rewrite <- Z.pow_add_r by lia. f_equal. lia. }
    rewrite <- Znumtheory.Zmod_div_mod; [|apply Z.pow_pos_nonneg; lia|lia|done].
    rewrite Z.pow_add_r by lia. change (2 ^ 6) with 64.
    pose proof (Z.pow_pos_nonneg 2 i ltac:(lia) Hi) as P.
    rewrite (Z.mul_comm (2 ^ i)), Z.rem_mul_r by lia.
    change (2 ^ 6) with 64.
    replace ((v * 64 + x) mod 64) with x by (Z.to_euclidean_division_equations; lia).
    replace ((v * 64 + x) / 64) with v by (Z.to_euclidean_division_equations; lia). lia.
  - unfold utf7_round. cbn [d_state d_v d_i]. change (2 =? 0) with false. change (2 =? 1) with false.
    cbn match. rewrite (proj2 (Z.eqb_neq _ _) N), R, (proj2 (Z.eqb_neq x 255)) by lia. cbn [negb].
    destruct (i + 6 >=? 16) eqn:G; [|done]. zb.
    rewrite land16, Z.shiftr_div_pow2 by lia. done.
Qed.

Lemma round_first v i x : 0 <= x < 64 ->
  utf7_round (Dec v i 1) (alphabet x) = ([], Dec x 6 2).
Proof.
  intros Hx. destruct (rank_alphabet x Hx) as [R N].
  unfold utf7_round. cbn [d_state d_v d_i]. change (1 =? 0) with false. change (1 =? 1) with true.
  cbn match. by rewrite (proj2 (Z.eqb_neq _ _) N), R, (proj2 (Z.eqb_neq x 255)) by lia.
Qed.

(** The decoder has [i] bits of a run, of value [y]. *)
Definition has_bits (d : dec) (i y : Z) : Prop :=
  (d_state d = 1 /\ i = 0 /\ y = 0) \/ (d_state d = 2 /\ d_i d = i /\ d_v d mod 2 ^ i = y).

Lemma has_bits_range d i y : 0 <= i -> has_bits d i y -> 0 <= y < 2 ^ i.
Proof.
  intros Hi [(_ & -> & ->)|(_ & _ & <-)]; [simpl; lia|].
  apply Z.mod_pos_bound. by apply Z.pow_pos_nonneg.
Qed.

(** A digit that does not complete a unit, and one that does. *)
Lemma digit_more d i y x : has_bits d i y -> 0 <= x < 64 -> 0 <= i < 10 ->
  exists d', utf7_round d (alphabet x) = ([], d') /\ has_bits d' (i + 6) (y * 64 + x).
Proof.
  intros [(S & -> & ->)|(S & E & M)] Hx Hi; destruct d as [v di st]; cbn [d_state d_i d_v] in *; subst st.
  - exists (Dec x 6 2). split; [by apply round_first|]. right. cbn. split_and!; try done.
    rewrite Z.mod_small; [done|]. simpl. lia.
  - subst di. destruct (round_digit v i x y) as (v' & M' & ->); try done; try lia.
    exists (Dec v' (i + 6) 2). destruct (i + 6 >=? 16) eqn:G; zb; [lia|]. split; [done|]. by right.
Qed.

Lemma digit_unit d i y x : has_bits d i y -> 0 <= x < 64 -> 10 <= i < 16 ->
  exists d', utf7_round d (alphabet x) = ([(y * 64 + x) / 2 ^ (i - 10)], d') /\
    has_bits d' (i - 10) ((y * 64 + x) mod 2 ^ (i - 10)).
Proof.
  intros [(S & -> & ->)|(S & E & M)] Hx Hi; [lia|].
  destruct d as [v di st]; cbn [d_state d_i d_v] in *; subst st di.
  destruct (round_digit v i x y) as (v' & M' & ->); try done; try lia.
  destruct (i + 6 >=? 16) eqn:G; zb; [|lia]. replace (i + 6 - 16) with (i - 10) by lia.
  exists (Dec v' (i - 10) 2). pose proof (Z.pow_pos_nonneg 2 (i - 10) ltac:(lia) ltac:(lia)) as P.
  replace (2 ^ (i + 6)) with (2 ^ (i - 10) * 65536) in M'
    by (change 65536 with (2 ^ 16); rewrite <- Z.pow_add_r by lia; f_equal; lia).
  rewrite Z.rem_mul_r in M' by lia.
  assert (Q : 0 <= v' mod 2 ^ (i - 10) < 2 ^ (i - 10)) by (apply Z.mod_pos_bound; lia).
  rewrite <- M'. split.
  - do 2 f_equal. rewrite (Z.mul_comm (2 ^ (i - 10))), Z.div_add, (Z.div_small (v' mod _)) by lia. lia.
  - right. cbn. split_and!; try done. rewrite (Z.mul_comm (2 ^ (i - 10))), Z.mod_add by lia.
    symmetry. by apply Z.mod_small.
Qed.

Lemma digit_state d i y x o d' : has_bits d i y -> 0 <= x < 64 ->
  utf7_round d (alphabet x) = (o, d') -> d_state d' = 2.
Proof.
  intros H Hx. destruct (rank_alphabet x Hx) as [R N]. unfold utf7_round.
  assert (S : d_state d = 1 \/ d_state d = 2) by (destruct H as [(?&_)|(?&_)]; auto).
  rewrite R, (proj2 (Z.eqb_neq _ _) N), (proj2 (Z.eqb_neq x 255)) by lia.
  destruct S as [-> | ->]; cbn; [|case_match]; by intros [= <- <-].
Qed.

Lemma group_value V k n b : 0 <= k -> k + 6 <= n -> V mod 2 ^ n = b ->
  Z.land (Z.shiftr V k) 63 = (b / 2 ^ k) mod 64.
Proof.
  intros Hk Hn <-. rewrite land63, Z.shiftr_div_pow2 by done.
  change 64 with (2 ^ 6). apply Z.bits_inj'. intros j Hj.
  destruct (Z.ltb_spec j 6).
  - rewrite !Z.mod_pow2_bits_low by lia. rewrite !Z.div_pow2_bits by lia.
    by rewrite Z.mod_pow2_bits_low by lia.
  - by rewrite !Z.mod_pow2_bits_high by lia.
Qed.

(** The bits the encoder holds after taking in the unit [c]. *)
Lemma enc_bits v i b c : 0 <= i <= 4 -> v mod 2 ^ i = b -> 0 <= c < 65536 ->
  u32 (Z.lor (Z.shiftl v 16) c) mod 2 ^ (i + 16) = b * 65536 + c.
Proof.
  intros Hi <- Hc. rewrite (lor_shift_add v c 16) by lia. unfold u32.
  assert (D : (2 ^ (i + 16) | 2 ^ 32)).
  { exists (2 ^ (32 - (i + 16))). rewrite <- Z.pow_add_r by lia. f_equal. lia. }
  rewrite <- Znumtheory.Zmod_div_mod; [|apply Z.pow_pos_nonneg; lia|lia|done].
  rewrite Z.pow_add_r by lia. pose proof (Z.pow_pos_nonneg 2 i ltac:(lia) ltac:(lia)) as P.
  rewrite (Z.mul_comm (2 ^ i)), Z.rem_mul_r by lia. change (2 ^ 16) with 65536.
  replace ((v * 65536 + c) mod 65536) with c by (Z.to_euclidean_division_equations; lia).
  replace ((v * 65536 + c) / 65536) with v by (Z.to_euclidean_division_equations; lia). lia.
Qed.

(** Encoder and decoder between two units: [pend] is the unit whose bits are
    not all written yet. *)
Definition in_step (e : enc) (d : dec) (pend : list Z) : Prop :=
  (e_state e = 0 /\ e_i e = 0 /\ d_state d = 0 /\ pend = []) \/
  (e_state e = 1 /\
   ((e_i e = 0 /\ has_bits d 0 0 /\ d_state d = 2 /\ pend = []) \/
    exists u, pend = [u] /\ 0 < u < 65536 /\ d_state d = 2 /\
      (e_i e = 2 \/ e_i e = 4) /\
      has_bits d (16 - e_i e) (u / 2 ^ e_i e) /\ e_v e mod 2 ^ e_i e = u mod 2 ^ e_i e)).

(** The decoder goes from [d] to [d'] on [o], storing [out]. *)
Definition decodes_to (d : dec) (o : list Z) (d' : dec) (out : list Z) : Prop :=
  forall rest, utf7_loop d (o ++ rest) = out ++ utf7_loop d' rest.

Lemma decodes_to_nil d : decodes_to d [] d [].
Proof. done. Qed.

Lemma decodes_to_cons d c o d1 d' out1 out : utf7_round d c = (out1, d1) ->
  decodes_to d1 o d' out -> decodes_to d (c :: o) d' (out1 ++ out).
Proof. intros R D rest. cbn [app utf7_loop]. by rewrite R, D, app_assoc. Qed.

Lemma decodes_to_app d o1 d1 o2 d' out1 out2 : decodes_to d o1 d1 out1 ->
  decodes_to d1 o2 d' out2 -> decodes_to d (o1 ++ o2) d' (out1 ++ out2).
Proof. intros H1 H2 rest. by rewrite <- app_assoc, H1, H2, app_assoc. Qed.

(** The three ways a unit is written, by the bits left of the one before. *)
Lemma unit_from_0 d v c : has_bits d 0 0 -> 0 < c < 65536 -> exists V o d',
  V = u32 (Z.lor (Z.shiftl v 16) c) /\ b64_groups 4 V 16 = (o, 4) /\ decodes_to d o d' [] /\
  d_state d' = 2 /\ has_bits d' 12 (c / 2 ^ 4) /\ V mod 2 ^ 4 = c mod 2 ^ 4.
Proof.
  intros H Hc. pose proof (enc_bits v 0 0 c ltac:(lia) (Z.mod_1_r v) ltac:(lia)) as V0.
  set (V := u32 _) in *. change (0 + 16) with 16 in V0.
  assert (G1 : 0 <= (c / 1024) mod 64 < 64) by (apply Z.mod_pos_bound; lia).
  assert (G2 : 0 <= (c / 16) mod 64 < 64) by (apply Z.mod_pos_bound; lia).
  destruct (digit_more d 0 0 _ H G1 ltac:(lia)) as (d1 & R1 & H1).
  destruct (digit_more d1 _ _ _ H1 G2 ltac:(lia)) as (d2 & R2 & H2).
  exists V, [alphabet ((c / 1024) mod 64); alphabet ((c / 16) mod 64)], d2. split_and!; [done| | | | |].
  - cbn [b64_groups]. rewrite (group_value V (16 - 6) 16 (0 * 65536 + c)),
      (group_value V (16 - 6 - 6) 16 (0 * 65536 + c)) by (done || lia). done.
  - apply (decodes_to_cons _ _ _ d1 _ [] []); [done|].
    by apply (decodes_to_cons _ _ _ d2 _ [] []).
  - by destruct H2 as [(_ & ? & _)|(? & _)].
  - replace (c / 2 ^ 4) with ((0 * 64 + (c / 1024) mod 64) * 64 + (c / 16) mod 64); [done|].
    Z.to_euclidean_division_equations; lia.
  - replace (V mod 2 ^ 4) with ((V mod 2 ^ 16) mod 2 ^ 4); [by rewrite V0|].
    Z.to_euclidean_division_equations; lia.
Qed.

Lemma unit_from_4 d v u c : has_bits d 12 (u / 2 ^ 4) -> v mod 2 ^ 4 = u mod 2 ^ 4 ->
  0 < u < 65536 -> 0 < c < 65536 -> exists V o d',
  V = u32 (Z.lor (Z.shiftl v 16) c) /\ b64_groups 4 V 20 = (o, 2) /\ decodes_to d o d' [u] /\
  d_state d' = 2 /\ has_bits d' 14 (c / 2 ^ 2) /\ V mod 2 ^ 2 = c mod 2 ^ 2.
Proof.
  intros H Hv Hu Hc. pose proof (enc_bits v 4 _ c ltac:(lia) Hv ltac:(lia)) as V0.
  set (V := u32 _) in *. change (4 + 16) with 20 in V0. set (b := u mod 2 ^ 4) in *.
  assert (B : 0 <= b < 16) by (apply Z.mod_pos_bound; lia).
  assert (G1 : 0 <= b * 4 + c / 16384 < 64) by (Z.to_euclidean_division_equations; lia).
  assert (G2 : 0 <= (c / 256) mod 64 < 64) by (apply Z.mod_pos_bound; lia).
  assert (G3 : 0 <= (c / 4) mod 64 < 64) by (apply Z.mod_pos_bound; lia).
  destruct (digit_unit d _ _ _ H G1 ltac:(lia)) as (d1 & R1 & H1).
  destruct (digit_more d1 _ _ _ H1 G2 ltac:(lia)) as (d2 & R2 & H2).
  destruct (digit_more d2 _ _ _ H2 G3 ltac:(lia)) as (d3 & R3 & H3).
  exists V, [alphabet (b * 4 + c / 16384); alphabet ((c / 256) mod 64); alphabet ((c / 4) mod 64)], d3.
  split_and!; [done| | | | |].
  - cbn [b64_groups]. rewrite (group_value V (20 - 6) 20 (b * 65536 + c)),
      (group_value V (20 - 6 - 6) 20 (b * 65536 + c)),
      (group_value V (20 - 6 - 6 - 6) 20 (b * 65536 + c)) by (done || lia).
    change (20 >=? 6) with true. change (20 - 6 >=? 6) with true.
    change (20 - 6 - 6 >=? 6) with true. change (20 - 6 - 6 - 6 >=? 6) with false. cbn match.
    replace (((b * 65536 + c) / 2 ^ (20 - 6)) mod 64) with (b * 4 + c / 16384)
      by (Z.to_euclidean_division_equations; lia).
    replace (((b * 65536 + c) / 2 ^ (20 - 6 - 6)) mod 64) with ((c / 256) mod 64)
      by (Z.to_euclidean_division_equations; lia).
    replace (((b * 65536 + c) / 2 ^ (20 - 6 - 6 - 6)) mod 64) with ((c / 4) mod 64)
      by (Z.to_euclidean_division_equations; lia).
    done.
  - assert (EU : (u / 2 ^ 4 * 64 + (b * 4 + c / 16384)) / 2 ^ (12 - 10) = u).
    { unfold b. Z.to_euclidean_division_equations; lia. }
    rewrite EU in R1.
    apply (decodes_to_cons _ _ _ d1 _ [u] []); [done|].
    apply (decodes_to_cons _ _ _ d2 _ [] []); [done|].
    by apply (decodes_to_cons _ _ _ d3 _ [] []).
  - by destruct H3 as [(_ & ? & _)|(? & _)].
  - match type of H3 with has_bits _ _ ?y => replace (c / 2 ^ 2) with y; [done|] end.
    Z.to_euclidean_division_equations; lia.
  - replace (V mod 2 ^ 2) with ((V mod 2 ^ 20) mod 2 ^ 2); [|Z.to_euclidean_division_equations; lia].
    rewrite V0. Z.to_euclidean_division_equations; lia.
Qed.

Lemma unit_from_2 d v u c : has_bits d 14 (u / 2 ^ 2) -> v mod 2 ^ 2 = u mod 2 ^ 2 ->
  0 < u < 65536 -> 0 < c < 65536 -> exists V o d',
  V = u32 (Z.lor (Z.shiftl v 16) c) /\ b64_groups 4 V 18 = (o, 0) /\ decodes_to d o d' [u; c] /\
  d_state d' = 2 /\ has_bits d' 0 0.
Proof.
  intros H Hv Hu Hc. pose proof (enc_bits v 2 _ c ltac:(lia) Hv ltac:(lia)) as V0.
  set (V := u32 _) in *. change (2 + 16) with 18 in V0. set (b := u mod 2 ^ 2) in *.
  assert (B : 0 <= b < 4) by (apply Z.mod_pos_bound; lia).
  assert (G1 : 0 <= b * 16 + c / 4096 < 64) by (Z.to_euclidean_division_equations; lia).
  assert (G2 : 0 <= (c / 64) mod 64 < 64) by (apply Z.mod_pos_bound; lia).
  assert (G3 : 0 <= c mod 64 < 64) by (apply Z.mod_pos_bound; lia).
  destruct (digit_unit d _ _ _ H G1 ltac:(lia)) as (d1 & R1 & H1).
  destruct (digit_more d1 _ _ _ H1 G2 ltac:(lia)) as (d2 & R2 & H2).
  destruct (digit_unit d2 _ _ _ H2 G3 ltac:(lia)) as (d3 & R3 & H3).
  exists V, [alphabet (b * 16 + c / 4096); alphabet ((c / 64) mod 64); alphabet (c mod 64)], d3.
  split_and!; [done| | | |].
  - cbn [b64_groups]. rewrite (group_value V (18 - 6) 18 (b * 65536 + c)),
      (group_value V (18 - 6 - 6) 18 (b * 65536 + c)),
      (group_value V (18 - 6 - 6 - 6) 18 (b * 65536 + c)) by (done || lia).
    change (18 >=? 6) with true. change (18 - 6 >=? 6) with true.
    change (18 - 6 - 6 >=? 6) with true. change (18 - 6 - 6 - 6 >=? 6) with false. cbn match.
    replace (((b * 65536 + c) / 2 ^ (18 - 6)) mod 64) with (b * 16 + c / 4096)
      by (Z.to_euclidean_division_equations; lia).
    replace (((b * 65536 + c) / 2 ^ (18 - 6 - 6)) mod 64) with ((c / 64) mod 64)
      by (Z.to_euclidean_division_equations; lia).
    replace (((b * 65536 + c) / 2 ^ (18 - 6 - 6 - 6)) mod 64) with (c mod 64)
      by (Z.to_euclidean_division_equations; lia).
    done.
  - assert (EU : (u / 2 ^ 2 * 64 + (b * 16 + c / 4096)) / 2 ^ (14 - 10) = u).
    { unfold b. Z.to_euclidean_division_equations; lia. }
    rewrite EU in R1.
    match type of R3 with _ = ([?y], _) => assert (EC : y = c) end.
    { Z.to_euclidean_division_equations; lia. }
    rewrite EC in R3.
    apply (decodes_to_cons _ _ _ d1 _ [u] [c]); [done|].
    apply (decodes_to_cons _ _ _ d2 _ [] [c]); [done|].
    by apply (decodes_to_cons _ _ _ d3 _ [c] []).
  - by apply (digit_state d2 _ _ _ _ _ H2 G3 R3).
  - match type of H3 with has_bits _ _ ?y => replace 0 with y at 2; [done|] end.
    apply Z.mod_1_r.
Qed.

(** Closing a run gives the unit pending. *)
Lemma close_run e d pend : in_step e d pend -> e_state e = 1 ->
  exists d', decodes_to d (utf7_closeb64 (e_v e) (e_i e)) d' pend /\ d_state d' = 0.
Proof.
  intros [(S & _)|(_ & [(I & _ & D & ->)|(u & -> & Hu & D & I & H & V)])] E; [congruence| |];
    unfold utf7_closeb64.
  - rewrite I. exists (Dec (d_v d) (d_i d) 0). split; [|done].
    apply (decodes_to_cons _ _ _ (Dec (d_v d) (d_i d) 0) _ [] []); [|apply decodes_to_nil].
    unfold utf7_round. by rewrite D.
  - assert (G : 0 <= u mod 2 ^ e_i e * 2 ^ (6 - e_i e) < 64).
    { destruct I as [-> | ->]; Z.to_euclidean_division_equations; lia. }
    assert (X : Z.land (u32 (Z.shiftl (e_v e) (6 - e_i e))) 63 = u mod 2 ^ e_i e * 2 ^ (6 - e_i e)).
    { rewrite land63. unfold u32. rewrite Z.shiftl_mul_pow2 by lia. rewrite <- V.
      destruct I as [-> | ->]; Z.to_euclidean_division_equations; lia. }
    rewrite X. destruct (digit_unit d _ _ _ H G) as (d1 & R1 & H1); [lia|].
    replace ((u / 2 ^ e_i e * 64 + u mod 2 ^ e_i e * 2 ^ (6 - e_i e)) / 2 ^ (16 - e_i e - 10))
      with u in R1 by (destruct I as [-> | ->]; Z.to_euclidean_division_equations; lia).
    replace (e_i e >? 0) with true by (destruct I as [-> | ->]; done).
    exists (Dec (d_v d1) (d_i d1) 0). split; [|done].
    apply (decodes_to_cons _ _ _ d1 _ [u] []); [done|].
    apply (decodes_to_cons _ _ _ (Dec (d_v d1) (d_i d1) 0) _ [] []); [|apply decodes_to_nil].
    unfold utf7_round. by rewrite (digit_state d _ _ _ _ _ H G R1).
Qed.

(** A unit written as it is. *)
Lemma plain_unit d c : d_state d = 0 -> 32 <= c <= 126 -> exists d',
  decodes_to d (if c =? ch "&" then bs "&-" else [c]) d' [c] /\ d_state d' = 0.
Proof.
  intros S Hc. destruct (Z.eqb_spec c (ch "&")) as [->|N].
  - exists (Dec (d_v d) (d_i d) 0). split; [|done].
    apply (decodes_to_cons _ _ _ (Dec (d_v d) (d_i d) 1) _ [] [ch "&"]).
    + unfold utf7_round. by rewrite S.
    + by apply (decodes_to_cons _ _ _ (Dec (d_v d) (d_i d) 0) _ [ch "&"] []).
  - exists d. split; [|done]. apply (decodes_to_cons _ _ _ d _ [c] []); [|apply decodes_to_nil].
    unfold utf7_round. rewrite S. cbn. by destruct (Z.eqb_spec c (ch "&")).
Qed.

Lemma round_plain e d pend c : in_step e d pend -> 32 <= c <= 126 ->
  exists d', decodes_to d (fst (utf8_utf7_round e c)) d' (pend ++ [c]) /\
    in_step (snd (utf8_utf7_round e c)) d' [].
Proof.
  intros I Hc. unfold utf8_utf7_round.
  replace ((32 <=? c) && (c <=? 126)) with true by (symmetry; apply andb_true_iff; lia).
  destruct (Z.eqb_spec (e_state e) 1) as [S|S].
  - destruct (close_run e d pend I S) as (d1 & D1 & S1).
    destruct (plain_unit d1 c S1 Hc) as (d2 & D2 & S2). exists d2. cbn [fst snd].
    split; [by eapply decodes_to_app|]. by left.
  - destruct I as [(E & Ei & D & ->)|(E & _)]; [|congruence].
    destruct (plain_unit d c D Hc) as (d2 & D2 & S2). exists d2. cbn [fst snd app]. split; [done|].
    by left.
Qed.

Lemma round_b64 e d pend c : in_step e d pend -> 0 < c < 65536 -> ~ (32 <= c <= 126) ->
  exists d' out pend', decodes_to d (fst (utf8_utf7_round e c)) d' out /\
    in_step (snd (utf8_utf7_round e c)) d' pend' /\ pend ++ [c] = out ++ pend'.
Proof.
  intros I Hc N. unfold utf8_utf7_round.
  replace ((32 <=? c) && (c <=? 126)) with false by (symmetry; apply andb_false_iff; lia).
  destruct I as [(S & Ei & D & ->)|(S & [(Ei & B & D & ->)|(u & -> & Hu & D & [Ei|Ei] & B & V)])];
    rewrite S, Ei in *.
  - change (0 =? 0) with true. cbn [e_v e_i e_state]. change (0 + 16) with 16.
    assert (B : has_bits (Dec (d_v d) (d_i d) 1) 0 0) by (by left).
    destruct (unit_from_0 _ 0 c B Hc) as (V & o & d' & -> & -> & R & S' & B' & V').
    exists d', [], [c]. cbn [fst snd]. split_and!; [| |done].
    + apply (decodes_to_cons _ _ _ (Dec (d_v d) (d_i d) 1) _ [] []); [|done].
      unfold utf7_round. by rewrite D.
    + right. split; [done|]. right. exists c. cbn. split_and!; auto; lia.
  - change (1 =? 0) with false. cbn match. rewrite Ei, S. change (0 + 16) with 16.
    destruct (unit_from_0 _ (e_v e) c B Hc) as (V & o & d' & -> & -> & R & S' & B' & V').
    exists d', [], [c]. cbn [fst snd app]. split_and!; [done| |done].
    right. split; [done|]. right. exists c. cbn. split_and!; auto; lia.
  - change (1 =? 0) with false. cbn match. rewrite Ei, S. change (2 + 16) with 18.
    destruct (unit_from_2 d (e_v e) u c B V Hu Hc) as (V' & o & d' & -> & -> & R & S' & B').
    exists d', [u; c], []. cbn [fst snd app]. split_and!; [done| |done].
    right. split; [done|]. by left.
  - change (1 =? 0) with false. cbn match. rewrite Ei, S. change (4 + 16) with 20.
    destruct (unit_from_4 d (e_v e) u c B V Hu Hc) as (V' & o & d' & -> & -> & R & S' & B' & V2).
    exists d', [u], [c]. cbn [fst snd app]. split_and!; [done| |done].
    right. split; [done|]. right. exists c. cbn. split_and!; auto; lia.
Qed.

Lemma utf8_utf7_loop_units us e d pend : in_step e d pend ->
  Forall (fun u => 0 < u < 65536) us ->
  exists d', decodes_to d (utf8_utf7_loop e us) d' (pend ++ us) /\ d_state d' = 0.
Proof.
  intros I H. revert e d pend I. induction H as [|c us Hc H IH]; intros e d pend I.
  - cbn [utf8_utf7_loop]. destruct (Z.eqb_spec (e_state e) 1) as [S|S].
    + rewrite app_nil_r. by apply close_run.
    + destruct I as [(E & Ei & D & ->)|(E & _)]; [|congruence]. by exists d.
  - cbn [utf8_utf7_loop].
    assert (X : exists d' out pend', decodes_to d (fst (utf8_utf7_round e c)) d' out /\
      in_step (snd (utf8_utf7_round e c)) d' pend' /\ pend ++ [c] = out ++ pend').
    { destruct (decide (32 <= c <= 126)) as [P|P]; [|by apply round_b64].
      destruct (round_plain e d pend c I P) as (d' & D' & I').
      exists d', (pend ++ [c]), []. by rewrite app_nil_r. }
    destruct X as (d1 & out & pend' & D1 & I1 & E1).
    destruct (utf8_utf7_round e c) as [o e1]. cbn [fst snd] in *.
    destruct (IH e1 d1 pend' I1) as (d2 & D2 & S2). exists d2. split; [|done].
    replace (pend ++ c :: us) with (out ++ pend' ++ us); [by eapply decodes_to_app|].
    by rewrite app_assoc, <- E1, <- app_assoc.
Qed.

Lemma utf7_units_roundtrip us : Forall (fun u => 0 < u < 65536) us ->
  utf7_units (utf8_utf7_loop (Enc 0 0 0) us) = us ++ [0].
Proof.
  intros H. assert (I : in_step (Enc 0 0 0) (Dec 0 0 0) []) by (by left).
  destruct (utf8_utf7_loop_units us _ _ _ I H) as (d' & D & S).
  unfold utf7_units. rewrite D. simpl. unfold utf7_round. by rewrite S.
Qed.

Lemma until_nul_app us : Forall (fun u => 0 < u < 65536) us -> until_nul (us ++ [0]) = Some us.
Proof.
  induction 1 as [|u us Hu H IH]; [done|]. simpl.
  by rewrite (proj2 (Z.eqb_neq u 0)), IH by lia.
Qed.

(** A folder name that GLib can convert to UTF-16 and back survives the
    modified UTF-7 of IMAP: decoding its encoding gives the same text, whatever
    characters it has, shifted runs and [&] included. *)
Theorem utf7_roundtrip (to16 from16 : list Z -> option (list Z)) (text us : list Z) :
  to16 text = Some us -> Forall (fun u => 0 < u < 65536) us -> from16 us = Some text ->
  exists encoded, camel_utf8_utf7 to16 text = Some encoded /\
    camel_utf7_utf8 from16 encoded = Some (Some text).
Proof.
  intros T U F. unfold camel_utf8_utf7, camel_utf7_utf8. rewrite T. eexists. split; [done|].
  rewrite utf7_units_roundtrip, until_nul_app by done. simpl. by rewrite F.
Qed.

Lemma utf7_round_length s c :
  (length (fst (utf7_round s c)) + (if (d_state (snd (utf7_round s c)) =? 1)%Z then 1 else 0) <=
   1 + (if (d_state s =? 1)%Z then 1 else 0))%nat.
Proof.
  destruct s as [v i st]. unfold utf7_round; cbn [d_state d_v d_i].
  destruct (Z.eqb_spec st 0) as [->|]; [destruct (c =? ch "&"); simpl; lia|].
  destruct (Z.eqb_spec st 1) as [->|].
  - destruct (c =? ch "-"); [simpl; lia|]. destruct (negb _); simpl; lia.
  - destruct (c =? ch "-"); [simpl; lia|]. destruct (negb _); [|simpl; lia].
    destruct (i + 6 >=? 16); simpl; lia.
Qed.

Lemma utf7_loop_length s p :
  (length (utf7_loop s p) <= length p + (if (d_state s =? 1)%Z then 1 else 0))%nat.
Proof.
  revert s; induction p as [|c p IH]; intros s; cbn [utf7_loop]; [simpl; lia|].
  pose proof (utf7_round_length s c) as R. destruct (utf7_round s c) as [o s']. cbn [fst snd] in R.
  rewrite length_app. specialize (IH s'). simpl length. lia.
Qed.

(** Decoding never stores more UTF-16 units than the buffer of
    [1 + strlen (ptr)] units has, for any input. *)
Theorem utf7_units_fit (p : list Z) : (length (utf7_units p) <= 1 + length p)%nat.
Proof.
  unfold utf7_units. pose proof (utf7_loop_length (Dec 0 0 0) (p ++ [0])) as L.
  rewrite length_app in L. simpl in L. lia.
Qed.

(** ** Repairing invalid text *)

Section MakeValidLaws.

(** What GLib documents of [g_utf8_validate]: the reported end is the end of the
    valid prefix, text made of valid parts is valid, U+FFFD is valid, and no
    valid text of a given length holds a NUL. *)
Context (validate : list Z -> option nat).
Hypothesis validate_prefix : forall s k, validate s = Some k ->
  (k < length s)%nat /\ validate (take k s) = None.
Hypothesis validate_nil : validate [] = None.
Hypothesis validate_app : forall a b, validate a = None -> validate b = None ->
  validate (a ++ b) = None.
Hypothesis validate_fffd : validate replacement = None.
Hypothesis validate_nul : forall s, validate s = None -> Forall (fun c => c <> 0) s.

Lemma strdup_no_nul s : Forall (fun c => c <> 0) s -> strdup s = s.
Proof. induction 1 as [|c s N H IH]; [done|]. simpl. by rewrite (proj2 (Z.eqb_neq c 0)), IH. Qed.

Lemma strdup_idem s : strdup (strdup s) = strdup s.
Proof. induction s as [|c s IH]; [done|]. simpl. destruct (c =? 0) eqn:E; simpl; [done|]. by rewrite E, IH. Qed.

Lemma strdup_take s : take (length (strdup s)) s = strdup s.
Proof. induction s as [|c s IH]; [done|]. simpl. destruct (c =? 0); [done|]. simpl. by rewrite IH. Qed.

Lemma make_valid_loop_some fuel r s : exists s', fst (make_valid_loop validate fuel r (Some s)) = Some s'.
Proof.
  revert r s; induction fuel as [|fuel IH]; intros [|c r] s; try (by exists s).
  cbn [make_valid_loop]. destruct (validate (c :: r)); [apply IH|by exists s].
Qed.

Lemma make_valid_loop_valid fuel r string : (length r <= fuel)%nat ->
  match string with Some s => validate s = None | None => True end ->
  match make_valid_loop validate fuel r string with
  | (None, r') => r' = r /\ validate r = None
  | (Some s, r') => validate (s ++ r') = None
  end.
Proof.
  revert r string; induction fuel as [|fuel IH]; intros [|c r] string L W; simpl in L; try lia.
  - destruct string; simpl; [by rewrite app_nil_r|done].
  - destruct string; simpl; [by rewrite app_nil_r|done].
  - cbn [make_valid_loop]. destruct (validate (c :: r)) as [k|] eqn:E.
    + destruct (validate_prefix _ _ E) as [K V].
      set (s' := (match string with Some s => s | None => [] end ++ _)).
      assert (V' : validate s' = None).
      { unfold s'. apply validate_app; [by destruct string|]. by apply validate_app. }
      assert (L' : (length (drop (S k) (c :: r)) <= fuel)%nat) by (rewrite length_drop; simpl; lia).
      pose proof (IH _ (Some s') L' V') as H.
      destruct (make_valid_loop_some fuel (drop (S k) (c :: r)) s') as [t T].
      destruct (make_valid_loop validate fuel _ (Some s')) as [[s|] r']; [done|discriminate T].
    + destruct string; [by apply validate_app|done].
Qed.

(** What [camel_utf8_make_valid_len] returns for a text is valid UTF-8, the
    text itself when that was valid; a length of 0 aside, for which the
    whole string is copied unchecked. *)
Theorem make_valid_len_valid (text : list Z) (text_len : Z) : text_len <> 0 ->
  exists r, camel_utf8_make_valid_len validate (Some text) text_len = Some r /\
    validate r = None /\
    (validate (if text_len <? 0 then strdup text else take (Z.to_nat text_len) text) = None ->
     r = if text_len <? 0 then strdup text else take (Z.to_nat text_len) text).
Proof.
  intros N. unfold camel_utf8_make_valid_len.
  set (n := if text_len <? 0 then _ else text_len).
  assert (T : take (Z.to_nat n) text =
    if text_len <? 0 then strdup text else take (Z.to_nat text_len) text).
  { unfold n. destruct (text_len <? 0); [|done]. by rewrite Nat2Z.id, strdup_take. }
  rewrite <- T.
  destruct ((n <=? 0) || _) eqn:G.
  - assert (E : strdup text = [] /\ (validate (take (Z.to_nat n) text) = None ->
      take (Z.to_nat n) text = [])).
    { destruct text as [|c text]; [by rewrite take_nil|]. apply orb_true_iff in G as [G|G]; zb.
      - unfold n in G. destruct (text_len <? 0) eqn:L; zb; [|lia].
        destruct (strdup (c :: text)) eqn:D; [|simpl in G; lia].
        by unfold n.
      - subst c. split; [done|]. destruct (Z.to_nat n) as [|k]; [done|]. intros V.
        by apply validate_nul, Forall_cons_iff in V as [? _]. }
    destruct E as [E1 E2]. exists []. rewrite E1. split_and!; [done|done|].
    intros V. symmetry. by apply E2.
  - pose proof (make_valid_loop_valid (length (take (Z.to_nat n) text)) (take (Z.to_nat n) text) None
      (le_n _) I) as H.
    destruct (validate (take (Z.to_nat n) text)) as [k|] eqn:V.
    + destruct (make_valid_loop _ _ _ _) as [[s|] r]; [|by destruct H; congruence].
      exists (s ++ r). by split_and!.
    + exists (take (Z.to_nat n) text). split_and!; [|done|done].
      destruct (take (Z.to_nat n) text) as [|c t] eqn:T'; [done|].
      cbn [length make_valid_loop]. rewrite V. f_equal. rewrite <- T'.
      rewrite T'. by apply strdup_no_nul, validate_nul.
Qed.

End MakeValidLaws.

(** ** Witnesses *)

Lemma utf8_char_roundtrip_witness : 0 <= 8364 < 2 ^ 21 /\
  camel_utf8_getc (camel_utf8_putc 8364 ++ [33]) = Some (8364, [33]).
Proof. split; [done|]. by apply (utf8_char_roundtrip 8364 [33]). Defined.

Lemma ucs2_roundtrip_witness :
  camel_ucs2_utf8 camel_utf8_putc [32; 172; 0; 65; 0; 0] = Some [226; 130; 172; 65].
Proof.
  apply (ucs2_roundtrip camel_utf8_putc [8364; 65]); [|done].
  repeat constructor; lia.
Defined.

(** A conversion of the text "A&é日本" and its UTF-16 units. *)
Definition demo_text : list Z := [65; 38; 195; 169; 230; 151; 165; 230; 156; 172].
Definition demo_units : list Z := [65; 38; 233; 26085; 26412].
Definition demo_to16 (s : list Z) : option (list Z) :=
  if bool_decide (s = demo_text) then Some demo_units else None.
Definition demo_from16 (s : list Z) : option (list Z) :=
  if bool_decide (s = demo_units) then Some demo_text else None.

Lemma utf7_roundtrip_witness : exists encoded,
  camel_utf8_utf7 demo_to16 demo_text = Some encoded /\
  camel_utf7_utf8 demo_from16 encoded = Some (Some demo_text).
Proof.
  apply (utf7_roundtrip demo_to16 demo_from16 demo_text demo_units); [done| |done].
  unfold demo_units. repeat constructor; lia.
Defined.

(** A checker that knows ASCII and U+FFFD. *)
Fixpoint demo_validate (s : list Z) : option nat :=
  match s with
  | [] => None
  | c :: s1 =>
      if (0 <? c) && (c <? 128) then S <$> demo_validate s1
      else match s1 with
           | d :: e :: s3 =>
               if (c =? 239) && (d =? 191) && (e =? 189)
               then (fun k => S (S (S k))) <$> demo_validate s3 else Some 0%nat
           | _ => Some 0%nat
           end
  end.

Lemma demo_cases s : s = [] \/ (exists c s', s = c :: s' /\ 0 < c < 128) \/
  (exists s', s = replacement ++ s') \/ demo_validate s = Some 0%nat.
Proof.
  destruct s as [|c s]; [by left|right]. cbn [demo_validate].
  destruct ((0 <? c) && (c <? 128)) eqn:E; zb; [by left; exists c, s|right].
  destruct s as [|d [|e s]]; [by right|by right|].
  destruct ((c =? 239) && (d =? 191) && (e =? 189)) eqn:E2; zb; [|by right].
  subst. left. by exists s.
Qed.

Lemma demo_ascii c s : 0 < c < 128 -> demo_validate (c :: s) = S <$> demo_validate s.
Proof. intros H. cbn [demo_validate]. by rewrite (proj2 (andb_true_iff _ _)) by (split; apply Z.ltb_lt; lia). Qed.

Lemma demo_fffd s : demo_validate (replacement ++ s) = (fun k => S (S (S k))) <$> demo_validate s.
Proof. done. Qed.

(** Induction along the steps of the checker. *)
Lemma demo_ind (P : list Z -> Prop) : P [] -> (forall c s, 0 < c < 128 -> P s -> P (c :: s)) ->
  (forall s, P s -> P (replacement ++ s)) -> (forall s, demo_validate s = Some 0%nat -> P s) ->
  forall s, P s.
Proof.
  intros H1 H2 H3 H4 s. induction s as [s IH] using (induction_ltof1 _ (@length Z)). unfold ltof in IH.
  destruct (demo_cases s) as [->|[(c & s' & -> & Hc)|[(s' & ->)|H]]]; [done| | |by apply H4].
  - apply H2; [done|]. apply IH. simpl. lia.
  - apply H3, IH. simpl. lia.
Qed.

Lemma demo_prefix s k : demo_validate s = Some k ->
  (k < length s)%nat /\ demo_validate (take k s) = None.
Proof.
  revert k. induction s as [|c s Hc IH|s IH|s H] using demo_ind; intros k E; [done| | |].
  - rewrite demo_ascii in E by done. apply fmap_Some in E as (j & E & ->).
    destruct (IH j E) as [L V]. simpl take. rewrite demo_ascii, V by done. split; [simpl; lia|done].
  - rewrite demo_fffd in E. apply fmap_Some in E as (j & E & ->).
    destruct (IH j E) as [L V]. split; [simpl; lia|].
    change (take (S (S (S j))) (replacement ++ s)) with (replacement ++ take j s).
    by rewrite demo_fffd, V.
  - rewrite H in E. injection E as <-. split; [|done]. destruct s; [done|simpl; lia].
Qed.

Lemma demo_app a b : demo_validate a = None -> demo_validate b = None -> demo_validate (a ++ b) = None.
Proof.
  intros A B. revert A. induction a as [|c s Hc IH|s IH|s H] using demo_ind; intros A; [done| | |congruence].
  - rewrite demo_ascii in A by done. cbn [app]. rewrite demo_ascii by done.
    destruct (demo_validate s); [done|]. by rewrite IH.
  - rewrite demo_fffd in A. rewrite <- app_assoc, demo_fffd.
    destruct (demo_validate s); [done|]. by rewrite IH.
Qed.

Lemma demo_nul s : demo_validate s = None -> Forall (fun c => c <> 0) s.
Proof.
  induction s as [|c s Hc IH|s IH|s H] using demo_ind; intros A; [done| | |congruence].
  - rewrite demo_ascii in A by done. constructor; [lia|]. apply IH. by destruct (demo_validate s).
  - rewrite demo_fffd in A. repeat constructor; try done. apply IH. by destruct (demo_validate s).
Qed.

Lemma make_valid_len_valid_witness : exists r,
  camel_utf8_make_valid_len demo_validate (Some [65; 200; 66]) (-1) = Some r /\
  demo_validate r = None.
Proof.
  destruct (make_valid_len_valid demo_validate demo_prefix eq_refl demo_app eq_refl demo_nul
    [65; 200; 66] (-1) ltac:(done)) as (r & E & V & _).
  by exists r.
Defined.
