(* ===== verification/Civil.v ===== *)
(** * Civil: broken-down time of the C library

    [struct tm], [gmtime_r] and the conversion of UTC fields to a [time_t] in
    the proleptic Gregorian calendar, as POSIX defines them.  The calendar
    utilities (TimeUtil) and the date header parser (DateParse) are stated over
    them. *)

From stdpp Require Import base list numbers.
From Stdlib Require Import ZArith Lia.
From S2P Require Import Prelude.

Record tm := Tm { tm_sec : Z; tm_min : Z; tm_hour : Z; tm_mday : Z; tm_mon : Z; tm_year : Z;
                  tm_wday : Z }.

#[export] Instance tm_eq_dec : EqDecision tm.
Proof. solve_decision. Defined.

Definition is_leap (y : Z) : bool :=
  ((y mod 4 =? 0) && negb (y mod 100 =? 0)) || (y mod 400 =? 0).

(** Days from 1 January of year 1 to 1 January of [y]. *)
Definition days_before_year (y : Z) : Z :=
  365 * (y - 1) + (y - 1) / 4 - (y - 1) / 100 + (y - 1) / 400.

Definition days_before_month (leap : bool) (m : Z) : Z :=
  nth (Z.to_nat m) [0; 31; 59; 90; 120; 151; 181; 212; 243; 273; 304; 334; 365] 0 +
  (if leap && (2 <=? m) then 1 else 0).

Definition days_in_month (leap : bool) (m : Z) : Z :=
  days_before_month leap (m + 1) - days_before_month leap m.

(** Days from 1 January 1970 to day [d] of month [m] (0 is January) of [y]. *)
Definition days_from_civil (y m d : Z) : Z :=
  days_before_year y + days_before_month (is_leap y) m + d - 1 - 719162.

Definition civil_year (n : Z) : Z :=
  let y := n * 400 / 146097 + 1 in
  if days_before_year (y + 1) <=? n then y + 1
  else if n <? days_before_year y then y - 1 else y.

Fixpoint civil_month (leap : bool) (doy : Z) (m : Z) (fuel : nat) : Z :=
  match fuel with
  | O => m
  | S fuel => if doy <? days_before_month leap (m + 1) then m else civil_month leap doy (m + 1) fuel
  end.

(** Year, month (from 0) and day of the month of a day counted from 1970. *)
Definition civil_from_days (n : Z) : Z * Z * Z :=
  let n := n + 719162 in
  let y := civil_year n in
  let doy := n - days_before_year y in
  let m := civil_month (is_leap y) doy 0 11 in
  (y, m, doy - days_before_month (is_leap y) m + 1).

Definition gmtime (t : Z) : tm :=
  let days := t / 86400 in
  let s := t mod 86400 in
  let '(y, m, d) := civil_from_days days in
  Tm (s mod 60) (s / 60 mod 60) (s / 3600) d m (y - 1900) ((days + 4) mod 7).

(** The [time_t] of UTC fields; a day, hour, minute or second out of range is
    carried over. *)
Definition timegm (b : tm) : Z :=
  days_from_civil (tm_year b + 1900 + tm_mon b / 12) (tm_mon b mod 12) (tm_mday b) * 86400 +
  tm_hour b * 3600 + tm_min b * 60 + tm_sec b.

(** A date of the calendar, and a normalised [struct tm]. *)
Definition valid_date (y m d : Z) : Prop := 0 <= m < 12 /\ 1 <= d <= days_in_month (is_leap y) m.

Definition valid_tm (b : tm) : Prop :=
  valid_date (tm_year b + 1900) (tm_mon b) (tm_mday b) /\
  0 <= tm_hour b < 24 /\ 0 <= tm_min b < 60 /\ 0 <= tm_sec b < 60.

(** ** The year of a day *)

Lemma is_leap_next y : days_before_year (y + 1) = days_before_year y + 365 + (if is_leap y then 1 else 0).
Proof.
  unfold days_before_year, is_leap.
  destruct (Z.eqb_spec (y mod 4) 0), (Z.eqb_spec (y mod 100) 0), (Z.eqb_spec (y mod 400) 0);
    cbn [andb orb negb]; Z.to_euclidean_division_equations; lia.
Qed.

Lemma days_before_year_mono a b : a <= b -> days_before_year a <= days_before_year b.
Proof. unfold days_before_year. intros H. Z.to_euclidean_division_equations; lia. Qed.

Lemma civil_year_spec n : days_before_year (civil_year n) <= n < days_before_year (civil_year n + 1).
Proof.
  unfold civil_year. set (y := n * 400 / 146097 + 1).
  assert (L : days_before_year (y - 1) <= n /\ n < days_before_year (y + 2)).
  { unfold days_before_year, y. Z.to_euclidean_division_equations; lia. }
  destruct (Z.leb_spec (days_before_year (y + 1)) n).
  - replace (y + 1 + 1) with (y + 2) by lia. lia.
  - destruct (Z.ltb_spec n (days_before_year y)); [|lia].
    replace (y - 1 + 1) with y by lia. lia.
Qed.

Lemma civil_year_unique n y : days_before_year y <= n < days_before_year (y + 1) -> civil_year n = y.
Proof.
  intros H. pose proof (civil_year_spec n) as S.
  destruct (Z.lt_trichotomy (civil_year n) y) as [L|[->|L]]; [|done|].
  - pose proof (days_before_year_mono (civil_year n + 1) y). lia.
  - pose proof (days_before_year_mono (y + 1) (civil_year n)). lia.
Qed.

(** ** The month of a day *)

(** Cases on a month. *)
Lemma month_cases (P : Z -> Prop) : P 0 -> P 1 -> P 2 -> P 3 -> P 4 -> P 5 -> P 6 -> P 7 -> P 8 ->
  P 9 -> P 10 -> P 11 -> forall m, 0 <= m < 12 -> P m.
Proof.
  intros P0 P1 P2 P3 P4 P5 P6 P7 P8 P9 P10 P11 m H.
  assert (C : m = 0 \/ m = 1 \/ m = 2 \/ m = 3 \/ m = 4 \/ m = 5 \/ m = 6 \/ m = 7 \/ m = 8 \/ m = 9
    \/ m = 10 \/ m = 11) by lia.
  repeat (destruct C as [->|C]; [assumption|]). by subst.
Qed.

Lemma days_before_month_vals (leap : bool) (m : Z) : 0 <= m < 12 ->
  0 <= days_before_month leap m /\ 28 <= days_in_month leap m <= 31 /\
  days_before_month leap m + days_in_month leap m <= 365 + (if leap then 1 else 0).
Proof. revert m. destruct leap; apply month_cases; vm_compute; split_and!; congruence. Qed.

Lemma civil_month_loop leap doy fuel m : 0 <= m -> m + Z.of_nat fuel = 11 ->
  days_before_month leap m <= doy < days_before_month leap 12 ->
  let r := civil_month leap doy m fuel in
  m <= r < 12 /\ days_before_month leap r <= doy < days_before_month leap (r + 1).
Proof.
  revert m; induction fuel as [|fuel IH]; intros m Hm E H; cbn [civil_month].
  - replace m with 11 in * by lia. done.
  - destruct (Z.ltb_spec doy (days_before_month leap (m + 1))); [split; lia|].
    destruct (IH (m + 1)); [lia|lia|lia|]. cbv zeta in *. split; lia.
Qed.

Lemma civil_month_spec (leap : bool) (doy : Z) : 0 <= doy < 365 + (if leap then 1 else 0) ->
  let m := civil_month leap doy 0 11 in
  0 <= m < 12 /\ days_before_month leap m <= doy < days_before_month leap (m + 1).
Proof. intros H. apply civil_month_loop; [lia|done|]. by destruct leap. Qed.

Lemma days_before_month_mono leap a b : 0 <= a -> a <= b -> b <= 12 ->
  days_before_month leap a <= days_before_month leap b.
Proof.
  intros Ha Hab Hb. replace b with (a + Z.of_nat (Z.to_nat (b - a))) in * by lia.
  revert Hb. clear Hab. induction (Z.to_nat (b - a)) as [|k IH]; intros Hb.
  - rewrite Z.add_0_r. lia.
  - pose proof (days_before_month_vals leap (a + Z.of_nat k) ltac:(lia)) as (_ & D & _).
    unfold days_in_month in D. replace (a + Z.of_nat (S k)) with (a + Z.of_nat k + 1) by lia. lia.
Qed.

Lemma civil_month_unique leap doy m : 0 <= m < 12 ->
  days_before_month leap m <= doy < days_before_month leap (m + 1) ->
  civil_month leap doy 0 11 = m.
Proof.
  intros Hm H. pose proof (days_before_month_mono leap 0 m ltac:(lia) ltac:(lia) ltac:(lia)) as L.
  pose proof (days_before_month_mono leap (m + 1) 12 ltac:(lia) ltac:(lia) ltac:(lia)) as U.
  destruct (civil_month_spec leap doy) as [R S].
  { destruct leap; change (days_before_month _ 0) with 0 in L; vm_compute (days_before_month _ 12) in U; lia. }
  cbv zeta in *. set (r := civil_month leap doy 0 11) in *.
  destruct (Z.lt_trichotomy r m) as [C|[C|C]]; [|done|].
  - pose proof (days_before_month_mono leap (r + 1) m ltac:(lia) ltac:(lia) ltac:(lia)). lia.
  - pose proof (days_before_month_mono leap (m + 1) r ltac:(lia) ltac:(lia) ltac:(lia)). lia.
Qed.

(** ** Dates and days *)

Lemma civil_from_days_spec n y m d : civil_from_days n = (y, m, d) ->
  valid_date y m d /\ days_from_civil y m d = n.
Proof.
  unfold civil_from_days, valid_date, days_from_civil, days_in_month. cbv zeta.
  pose proof (civil_year_spec (n + 719162)) as Y. rewrite is_leap_next in Y.
  set (y' := civil_year _) in *.
  destruct (civil_month_spec (is_leap y') (n + 719162 - days_before_year y') ltac:(lia)) as [M D].
  set (m' := civil_month _ _ _ _) in *. clearbody m'. intros [= <- <- <-]. split_and!; lia.
Qed.

Lemma civil_from_days_unique n y m d : valid_date y m d -> days_from_civil y m d = n ->
  civil_from_days n = (y, m, d).
Proof.
  unfold valid_date, days_from_civil, days_in_month. intros [M D] E. unfold civil_from_days.
  pose proof (days_before_month_mono (is_leap y) 0 m ltac:(lia) ltac:(lia) ltac:(lia)) as L.
  pose proof (days_before_month_mono (is_leap y) (m + 1) 12 ltac:(lia) ltac:(lia) ltac:(lia)) as U.
  assert (Y : civil_year (n + 719162) = y).
  { apply civil_year_unique. rewrite is_leap_next.
    destruct (is_leap y); change (days_before_month _ 0) with 0 in L; vm_compute (days_before_month _ 12) in U; lia. }
  rewrite Y. assert (C : civil_month (is_leap y) (n + 719162 - days_before_year y) 0 11 = m).
  { apply civil_month_unique; lia. }
  rewrite C. f_equal. lia.
Qed.

(** ** Times *)

Lemma gmtime_valid t : valid_tm (gmtime t).
Proof.
  unfold valid_tm, gmtime. destruct (civil_from_days _) as [[y m] d] eqn:C.
  apply civil_from_days_spec in C as [V _]. cbn. replace (y - 1900 + 1900) with y by lia.
  split; [done|]. Z.to_euclidean_division_equations; lia.
Qed.

Lemma timegm_gmtime t : timegm (gmtime t) = t.
Proof.
  unfold timegm, gmtime. destruct (civil_from_days _) as [[y m] d] eqn:C.
  apply civil_from_days_spec in C as [[M _] E]. cbn.
  rewrite (Z.div_small m 12), (Z.mod_small m 12) by lia.
  replace (y - 1900 + 1900 + 0) with y by lia. rewrite E.
  Z.to_euclidean_division_equations; lia.
Qed.

(** The fields of a time determine it and are determined by it. *)
Lemma gmtime_timegm b : valid_tm b ->
  gmtime (timegm b) = Tm (tm_sec b) (tm_min b) (tm_hour b) (tm_mday b) (tm_mon b) (tm_year b)
    ((days_from_civil (tm_year b + 1900) (tm_mon b) (tm_mday b) + 4) mod 7).
Proof.
  destruct b as [s mi h d m y w]; unfold valid_tm, timegm, gmtime;
    cbn [tm_sec tm_min tm_hour tm_mday tm_mon tm_year]. intros (V & H & MI & S).
  destruct V as [M D]. rewrite (Z.div_small m 12), (Z.mod_small m 12) by lia.
  rewrite Z.add_0_r. set (n := days_from_civil (y + 1900) m d).
  replace (_ / 86400) with n by (Z.to_euclidean_division_equations; lia).
  rewrite (civil_from_days_unique n (y + 1900) m d) by done.
  f_equal; Z.to_euclidean_division_equations; lia.
Qed.

(** A valid date comes a day after another. *)
Lemma days_from_civil_wday y m d : (days_from_civil y m (d + 1) + 4) mod 7 =
  ((days_from_civil y m d + 4) mod 7 + 1) mod 7.
Proof. unfold days_from_civil. Z.to_euclidean_division_equations; lia. Qed.
