(* ===== verification/TimeUtil.v ===== *)
(** * TimeUtil: the calendar's time functions (libecal/e-cal-time-util.c)

    The pure calendar functions (days in a month, day of the year, day of the
    week, leap years), the ISO 8601 form, and the functions that move a
    [time_t] within a time zone.  libical is an interface: [ICalLib] its
    operations on [ICalTime], [ICalLaws] what its documentation promises of
    them; [utc_lib] is an instance with the UTC zone alone. *)

From stdpp Require Import base list strings numbers.
From Stdlib Require Import ZArith Lia Ascii.
From S2P Require Import Prelude Civil.

Definition REFORMATION_DAY : Z := 639787.
Definition MISSING_DAYS : Z := 11.
Definition THURSDAY : Z := 4.
Definition SATURDAY : Z := 6.
Definition ISODATE_LENGTH : nat := 17.

Definition glob_days_in_month : list Z := [31; 28; 31; 30; 31; 30; 31; 31; 30; 31; 30; 31].

(** ** General time functions *)

Definition time_is_leap_year (year : Z) : bool :=
  if year <=? 1752 then Z.rem year 4 =? 0
  else ((Z.rem year 4 =? 0) && negb (Z.rem year 100 =? 0)) || (Z.rem year 400 =? 0).

Definition time_leap_years_up_to (year : Z) : Z :=
  Z.quot year 4
  - (if year >? 1700 then Z.quot year 100 - 17 else 0)
  + (if year >? 1600 then Z.quot (year - 1600) 400 else 0).

(** 0 for the arguments the checks refuse. *)
Definition time_days_in_month (year month : Z) : Z :=
  if negb (year >=? 1900) then 0
  else if negb ((month >=? 0) && (month <? 12)) then 0
  else
    let days := nth (Z.to_nat month) glob_days_in_month 0 in
    if (month =? 1) && time_is_leap_year year then days + 1 else days.

(** The arithmetic of the following functions is that of [gint].  The loop from
    [i]; [n] rounds are left. *)
Fixpoint day_of_year_loop (n : nat) (i day year : Z) : Z :=
  match n with
  | O => day
  | S n =>
      let day := s32 (day + nth (Z.to_nat i) glob_days_in_month 0) in
      let day := if (i =? 1) && time_is_leap_year year then s32 (day + 1) else day in
      day_of_year_loop n (i + 1) day year
  end.

(** [month] is at most 12, the size of the table. *)
Definition time_day_of_year (day month year : Z) : Z :=
  day_of_year_loop (Z.to_nat month) 0 day year.

(** The day number [n] of [time_day_of_week]. *)
Definition day_number (day month year : Z) : Z :=
  let before := s32 (year - 1) in
  s32 (s32 (s32 (before * 365) + time_leap_years_up_to before) + time_day_of_year day month year).

Definition time_day_of_week (day month year : Z) : Z :=
  let n := day_number day month year in
  if n <? REFORMATION_DAY then Z.rem (s32 (s32 (n - 1) + SATURDAY)) 7
  else if n >=? REFORMATION_DAY + MISSING_DAYS then Z.rem (s32 (s32 (s32 (n - 1) + SATURDAY) - MISSING_DAYS)) 7
  else THURSDAY.

(** ** ISO 8601 *)

(** [g_snprintf] keeps at most [ISODATE_LENGTH - 1] characters. *)
Definition isodate_from_time_t (t : Z) : list Z :=
  let stm := gmtime t in
  take (ISODATE_LENGTH - 1)
    (fmt0 4 (tm_year stm + 1900) ++ fmt0 2 (tm_mon stm + 1) ++ fmt0 2 (tm_mday stm) ++ [ch "T"] ++
     fmt0 2 (tm_hour stm) ++ fmt0 2 (tm_min stm) ++ fmt0 2 (tm_sec stm) ++ [ch "Z"]).

(** ** libical *)

(** The fields of an [ICalTime] the program reads and sets; months from 1. *)
Record ICalTime := ITT { year : Z; month : Z; day : Z; hour : Z; minute : Z; second : Z;
                         is_date : bool }.

Definition set_year (tt : ICalTime) (v : Z) := ITT v (month tt) (day tt) (hour tt) (minute tt) (second tt) (is_date tt).
Definition set_month (tt : ICalTime) (v : Z) := ITT (year tt) v (day tt) (hour tt) (minute tt) (second tt) (is_date tt).
Definition set_day (tt : ICalTime) (v : Z) := ITT (year tt) (month tt) v (hour tt) (minute tt) (second tt) (is_date tt).
Definition set_hour (tt : ICalTime) (v : Z) := ITT (year tt) (month tt) (day tt) v (minute tt) (second tt) (is_date tt).
Definition set_minute (tt : ICalTime) (v : Z) := ITT (year tt) (month tt) (day tt) (hour tt) v (second tt) (is_date tt).
Definition set_second (tt : ICalTime) (v : Z) := ITT (year tt) (month tt) (day tt) (hour tt) (minute tt) v (is_date tt).
Definition set_is_date (tt : ICalTime) (v : bool) := ITT (year tt) (month tt) (day tt) (hour tt) (minute tt) (second tt) v.
Definition null_time : ICalTime := ITT 0 0 0 0 0 0 false.

Class ICalLib (zone : Type) := {
  utc_timezone : zone;
  i_cal_time_new_from_timet_with_zone : Z -> bool -> zone -> ICalTime;
  i_cal_time_as_timet_with_zone : ICalTime -> zone -> Z;
  i_cal_time_adjust : ICalTime -> Z -> Z -> Z -> Z -> ICalTime;
  i_cal_time_normalize : ICalTime -> ICalTime;
  i_cal_time_convert_timezone : ICalTime -> option zone -> option zone -> ICalTime
}.

Section WithZone.

Context {zone : Type} `{ICalLib zone}.

Definition time_from_isodate (str : list Z) : Z :=
  let len := length str in
  if negb ((len =? 8)%nat || (len =? 15)%nat || (len =? 16)%nat) then -1
  else if negb (forallb (fun '(i, c) =>
      (negb (i =? 8)%nat && negb (i =? 15)%nat && isdigit c)
      || ((i =? 8)%nat && (c =? ch "T")) || ((i =? 15)%nat && (c =? ch "Z")))
      (combine (seq 0 len) str)) then -1
  else
    let digit_at y := nth y str 0 - ch "0" in
    let tt := set_year null_time (digit_at 0%nat * 1000 + digit_at 1%nat * 100 + digit_at 2%nat * 10 + digit_at 3%nat) in
    let tt := set_month tt (digit_at 4%nat * 10 + digit_at 5%nat) in
    let tt := set_day tt (digit_at 6%nat * 10 + digit_at 7%nat) in
    let tt :=
      if (8 <? len)%nat then
        let tt := set_hour tt (digit_at 9%nat * 10 + digit_at 10%nat) in
        let tt := set_minute tt (digit_at 11%nat * 10 + digit_at 12%nat) in
        set_second tt (digit_at 13%nat * 10 + digit_at 14%nat)
      else tt in
    i_cal_time_as_timet_with_zone tt utc_timezone.

Definition time_add_day_with_zone (time days : Z) (z : zone) : Z :=
  let tt := i_cal_time_new_from_timet_with_zone time false z in
  let tt := i_cal_time_adjust tt days 0 0 0 in
  i_cal_time_as_timet_with_zone tt z.

Definition time_add_week_with_zone (time weeks : Z) (z : zone) : Z :=
  time_add_day_with_zone time (weeks * 7) z.

Definition time_add_month_with_zone (time months : Z) (z : zone) : Z :=
  let tt := i_cal_time_new_from_timet_with_zone time false z in
  let tt := set_month tt (month tt + months) in
  let d := day tt in
  let tt := set_day tt 1 in
  let tt := i_cal_time_normalize tt in
  let days_in_month := time_days_in_month (year tt) (month tt - 1) in
  let d := if d >? days_in_month then days_in_month else d in
  let tt := set_day tt d in
  i_cal_time_as_timet_with_zone tt z.

Definition set_midnight (tt : ICalTime) : ICalTime :=
  set_second (set_minute (set_hour tt 0) 0) 0.

Definition time_year_begin_with_zone (time : Z) (z : zone) : Z :=
  let tt := i_cal_time_new_from_timet_with_zone time false z in
  let tt := set_month tt 1 in
  let tt := set_day tt 1 in
  let tt := set_midnight tt in
  i_cal_time_as_timet_with_zone tt z.

Definition time_month_begin_with_zone (time : Z) (z : zone) : Z :=
  let tt := i_cal_time_new_from_timet_with_zone time false z in
  let tt := set_day tt 1 in
  let tt := set_midnight tt in
  i_cal_time_as_timet_with_zone tt z.

Definition time_week_begin_with_zone (time week_start_day : Z) (z : zone) : Z :=
  let tt := i_cal_time_new_from_timet_with_zone time false z in
  let weekday := time_day_of_week (day tt) (month tt - 1) (year tt) in
  let offset := Z.rem (weekday + 7 - week_start_day) 7 in
  let tt := set_day tt (day tt - offset) in
  let tt := set_midnight tt in
  let tt := i_cal_time_normalize tt in
  i_cal_time_as_timet_with_zone tt z.

(** The loops of the next two functions; [None] is fuel running out. *)
Fixpoint day_begin_loop (fuel : nat) (tt : ICalTime) (time : Z) (z : zone) : option Z :=
  match fuel with
  | O => None
  | S fuel =>
      let new_time := i_cal_time_as_timet_with_zone tt z in
      if new_time >? time then day_begin_loop fuel (i_cal_time_adjust tt 0 (-1) 0 0) time z
      else Some new_time
  end.

Fixpoint day_end_loop (fuel : nat) (tt : ICalTime) (time : Z) (z : zone) : option Z :=
  match fuel with
  | O => None
  | S fuel =>
      let new_time := i_cal_time_as_timet_with_zone tt z in
      if new_time <=? time then day_end_loop fuel (i_cal_time_adjust tt 0 1 0 0) time z
      else Some new_time
  end.

Definition time_day_begin_with_zone (fuel : nat) (time : Z) (z : zone) : option Z :=
  let tt := i_cal_time_new_from_timet_with_zone time false z in
  day_begin_loop fuel (set_midnight tt) time z.

Definition time_day_end_with_zone (fuel : nat) (time : Z) (z : zone) : option Z :=
  let tt := i_cal_time_new_from_timet_with_zone time false z in
  day_end_loop fuel (i_cal_time_adjust (set_midnight tt) 1 0 0 0) time z.

(** The day, month and year given to [g_date_set_dmy]; [None] when the check
    on [time] fails. *)
Definition time_to_gdate_with_zone (time : Z) (z : option zone) : option (Z * Z * Z) :=
  if time =? -1 then None
  else
    let tt := i_cal_time_new_from_timet_with_zone time false (default utc_timezone z) in
    Some (day tt, month tt, year tt).

(** All of the [struct tm] but [tm_yday] and [tm_isdst], which is -1. *)
Definition e_cal_util_icaltime_to_tm (tt : ICalTime) : tm :=
  let '(s, mi, h) := if is_date tt then (0, 0, 0) else (second tt, minute tt, hour tt) in
  Tm s mi h (day tt) (month tt - 1) (year tt - 1900)
    (time_day_of_week (day tt) (month tt - 1) (year tt)).

Definition e_cal_util_icaltime_to_tm_with_zone (itt : ICalTime) (from_zone to_zone : option zone) : tm :=
  e_cal_util_icaltime_to_tm (i_cal_time_convert_timezone itt from_zone to_zone).

Definition e_cal_util_tm_to_icaltime (b : tm) (date : bool) : ICalTime :=
  let itt := null_time in
  let itt := if date then itt else set_second (set_minute (set_hour itt (tm_hour b)) (tm_min b)) (tm_sec b) in
  let itt := set_day (set_month (set_year itt (tm_year b + 1900)) (tm_mon b + 1)) (tm_mday b) in
  set_is_date itt date.

End WithZone.

(** ** The C library's local time *)

Section Local.

(** [localtime] and [mktime] with [tm_isdst] -1. *)
Context (localtime : Z -> tm) (mktime : tm -> Z).

Definition time_add_day (time days : Z) : Z :=
  let b := localtime time in
  mktime (Tm (tm_sec b) (tm_min b) (tm_hour b) (tm_mday b + days) (tm_mon b) (tm_year b) (tm_wday b)).

Definition time_add_week (time weeks : Z) : Z := time_add_day time (weeks * 7).

Definition time_day_begin (t : Z) : Z :=
  let b := localtime t in
  mktime (Tm 0 0 0 (tm_mday b) (tm_mon b) (tm_year b) (tm_wday b)).

Definition time_day_end (t : Z) : Z :=
  let b := localtime t in
  mktime (Tm 0 0 0 (tm_mday b + 1) (tm_mon b) (tm_year b) (tm_wday b)).

End Local.

(** ** Leap years and days of the year *)

Lemma is_leap_year_modern y : 1753 <= y -> time_is_leap_year y = is_leap y.
Proof.
  intros H. unfold time_is_leap_year, is_leap. rewrite (proj2 (Z.leb_gt y 1752)) by lia.
  by rewrite !Z.rem_mod_nonneg by lia.
Qed.

Lemma is_leap_year_julian y : 0 <= y <= 1752 -> time_is_leap_year y = (y mod 4 =? 0).
Proof.
  intros H. unfold time_is_leap_year. rewrite (proj2 (Z.leb_le y 1752)) by lia.
  by rewrite !Z.rem_mod_nonneg by lia.
Qed.

Lemma leap_years_value y : 0 <= y -> time_leap_years_up_to y =
  if y <=? 1752 then y / 4 else y / 4 - y / 100 + y / 400 + 13.
Proof.
  intros H. unfold time_leap_years_up_to. rewrite !Z.quot_div_nonneg by lia.
  destruct (Z.gtb_spec y 1700), (Z.gtb_spec y 1600), (Z.leb_spec y 1752); try lia;
    rewrite ?(Z.quot_div_nonneg (y - 1600)) by lia; Z.to_euclidean_division_equations; lia.
Qed.

Lemma leap_years_next y : 0 <= y ->
  time_leap_years_up_to (y + 1) = time_leap_years_up_to y + (if time_is_leap_year (y + 1) then 1 else 0).
Proof.
  intros H. rewrite !leap_years_value by lia.
  destruct (Z.leb_spec (y + 1) 1752).
  - rewrite is_leap_year_julian, (proj2 (Z.leb_le y 1752)) by lia.
    destruct (Z.eqb_spec ((y + 1) mod 4) 0); Z.to_euclidean_division_equations; lia.
  - rewrite is_leap_year_modern by lia. unfold is_leap.
    destruct (Z.leb_spec y 1752); [by replace y with 1752 by lia|].
    destruct (Z.eqb_spec ((y + 1) mod 4) 0), (Z.eqb_spec ((y + 1) mod 100) 0),
      (Z.eqb_spec ((y + 1) mod 400) 0); cbn [andb orb negb]; Z.to_euclidean_division_equations; lia.
Qed.

(** The days of a year before month [m], for the rule of leap years [leap]. *)
Lemma gint_id x : - 2 ^ 31 <= x < 2 ^ 31 -> s32 x = x.
Proof. intros H. unfold s32. rewrite Z.mod_small by lia. lia. Qed.

Lemma day_of_year_loop_value n i d y : (Z.of_nat n + i <= 12) -> 0 <= i -> 0 <= d <= 1000 - 32 * (12 - i) ->
  day_of_year_loop n i d y = d + days_before_month (time_is_leap_year y) (i + Z.of_nat n) - days_before_month (time_is_leap_year y) i.
Proof.
  revert i d; induction n as [|n IH]; intros i d Hn Hi Hd; cbn [day_of_year_loop]; [rewrite Z.add_0_r; lia|].
  assert (S : days_before_month (time_is_leap_year y) (i + 1) = days_before_month (time_is_leap_year y) i +
    nth (Z.to_nat i) glob_days_in_month 0 + (if (i =? 1) && time_is_leap_year y then 1 else 0) /\ 0 <= nth (Z.to_nat i) glob_days_in_month 0 <= 31).
  { assert (Ib : 0 <= i < 12) by lia. revert i Ib Hn Hi Hd.
    refine (month_cases _ _ _ _ _ _ _ _ _ _ _ _ _); intros _ _ _; destruct (time_is_leap_year y); vm_compute; split_and!; congruence. }
  destruct S as [Sd B]. rewrite (gint_id (d + _)) by lia.
  assert (E : (if (i =? 1) && time_is_leap_year y then s32 (d + nth (Z.to_nat i) glob_days_in_month 0 + 1) else d + nth (Z.to_nat i) glob_days_in_month 0) =
    d + nth (Z.to_nat i) glob_days_in_month 0 + (if (i =? 1) && time_is_leap_year y then 1 else 0)).
  { destruct (_ && _); [rewrite gint_id by lia|]; lia. }
  rewrite E, IH; [|lia|lia|destruct (_ && _); lia]. replace (i + 1 + Z.of_nat n) with (i + Z.of_nat (S n)) by lia. lia.
Qed.

Lemma day_of_year_value d m y : 0 <= m <= 12 -> 0 <= d <= 366 ->
  time_day_of_year d m y = d + days_before_month (time_is_leap_year y) m.
Proof.
  intros H D. unfold time_day_of_year. rewrite day_of_year_loop_value by lia. rewrite Z2Nat.id by lia.
  replace (days_before_month (time_is_leap_year y) 0) with 0 by (by destruct (time_is_leap_year y)). rewrite Z.add_0_l. lia.
Qed.

(** [time_day_of_year] numbers the days of a year: the dates of a year are
    in bijection with the numbers from 1 to its length, in order. *)
Theorem day_of_year_bijective (y n : Z) : 0 <= y ->
  let leap := time_is_leap_year y in
  1 <= n <= 365 + (if leap then 1 else 0) ->
  exists m d, 0 <= m < 12 /\ 1 <= d <= days_in_month leap m /\ time_day_of_year d m y = n /\
    forall m' d', 0 <= m' < 12 -> 1 <= d' <= days_in_month leap m' ->
      time_day_of_year d' m' y = n -> m' = m /\ d' = d.
Proof.
  intros Hy leap Hn. destruct (civil_month_spec leap (n - 1) ltac:(lia)) as [M D]. cbv zeta in *.
  set (m := civil_month leap (n - 1) 0 11) in *.
  exists m, (n - days_before_month leap m). unfold days_in_month.
  pose proof (days_before_month_vals leap m M) as V. unfold days_in_month in V.
  rewrite day_of_year_value by lia. fold leap. split_and!; try lia.
  intros m' d' M' D' E. pose proof (days_before_month_vals leap m' M') as V'. unfold days_in_month in V'.
  rewrite day_of_year_value in E by lia. fold leap in E.
  assert (EM : civil_month leap (n - 1) 0 11 = m') by (apply civil_month_unique; lia).
  fold m in EM. subst m'. lia.
Qed.

(** [time_leap_years_up_to] counts the leap years of [time_is_leap_year],
    the Julian rule up to 1752 and the Gregorian one after: the count goes up by
    one at each leap year, the year given included, from none at year 0. *)
Theorem leap_years_count (y : nat) :
  time_leap_years_up_to (Z.of_nat y) =
  Z.of_nat (length (List.filter (fun k => time_is_leap_year (Z.of_nat k)) (seq 1 y))).
Proof.
  induction y as [|y IH]; [done|].
  rewrite seq_S, List.filter_app, length_app. replace (Z.of_nat (S y)) with (Z.of_nat y + 1) by lia.
  rewrite leap_years_next, IH by lia. cbn [List.filter Nat.add].
  replace (Z.of_nat (S y)) with (Z.of_nat y + 1) by lia.
  destruct (time_is_leap_year (Z.of_nat y + 1)); simpl; lia.
Qed.

(** ** Days of the week *)

(** The number of a date of the Julian calendar, 1 for 1 January of year 1. *)
Definition julian_days (y m d : Z) : Z :=
  365 * (y - 1) + (y - 1) / 4 + days_before_month (y mod 4 =? 0) m + d.

(** The last year whose days have numbers that fit in a [gint]. *)
Definition LAST_YEAR : Z := 5879610.

Lemma day_number_value y m d : 1 <= y <= LAST_YEAR -> 0 <= m < 12 -> 0 <= d <= 31 ->
  day_number d m y = 365 * (y - 1) + time_leap_years_up_to (y - 1) + d +
    days_before_month (time_is_leap_year y) m.
Proof.
  intros Hy Hm Hd. unfold day_number, LAST_YEAR in *. cbv zeta. rewrite day_of_year_value by lia.
  pose proof (days_before_month_vals (time_is_leap_year y) m Hm) as V.
  assert (L : 0 <= time_leap_years_up_to (y - 1) <= 1425818).
  { rewrite leap_years_value by lia. destruct (Z.leb_spec (y - 1) 1752); Z.to_euclidean_division_equations; lia. }
  assert (B : days_before_month (time_is_leap_year y) m <= 338) by (destruct (time_is_leap_year y); lia).
  rewrite (gint_id (y - 1)), (gint_id ((y - 1) * 365)), (gint_id (_ + time_leap_years_up_to _)), gint_id by lia. lia.
Qed.

Lemma day_number_bounds y m d : 1 <= y <= LAST_YEAR -> 0 <= m < 12 -> 1 <= d <= 31 -> 1 <= day_number d m y <= 2147483500.
Proof.
  intros Hy Hm Hd. rewrite day_number_value by lia. unfold LAST_YEAR in *.
  pose proof (days_before_month_vals (time_is_leap_year y) m Hm) as V.
  assert (L : 0 <= time_leap_years_up_to (y - 1) <= 1425818).
  { rewrite leap_years_value by lia. destruct (Z.leb_spec (y - 1) 1752); Z.to_euclidean_division_equations; lia. }
  destruct (time_is_leap_year y); lia.
Qed.

(** The two sums behind the day of the week. *)
Lemma week_sums n : 1 <= n <= 2147483500 ->
  s32 (s32 (n - 1) + SATURDAY) = n - 1 + SATURDAY /\ s32 (s32 (s32 (n - 1) + SATURDAY) - MISSING_DAYS) = n - 1 + SATURDAY - MISSING_DAYS.
Proof. intros H. unfold SATURDAY, MISSING_DAYS. rewrite (gint_id (n - 1)), (gint_id (n - 1 + 6)), gint_id by lia. done. Qed.

Lemma day_number_julian y m d : 1 <= y <= 1752 -> 0 <= m < 12 -> 0 <= d <= 31 ->
  day_number d m y = julian_days y m d.
Proof.
  intros Hy Hm Hd. assert (Hl : y <= LAST_YEAR) by (unfold LAST_YEAR; lia). rewrite day_number_value, leap_years_value, is_leap_year_julian by lia.
  rewrite (proj2 (Z.leb_le (y - 1) 1752)) by lia. unfold julian_days. lia.
Qed.

Lemma day_number_gregorian y m d : 1753 <= y <= LAST_YEAR -> 0 <= m < 12 -> 0 <= d <= 31 ->
  day_number d m y = days_from_civil y m d + 719162 + 14.
Proof.
  intros Hy Hm Hd. rewrite day_number_value, leap_years_value, is_leap_year_modern by lia.
  unfold days_from_civil, days_before_year.
  destruct (Z.leb_spec (y - 1) 1752); Z.to_euclidean_division_equations; lia.
Qed.

(** The date as a number in the order of the calendar. *)
Definition yyyymmdd (y m d : Z) : Z := y * 10000 + (m + 1) * 100 + d.

Definition valid_day (y m d : Z) : Prop :=
  0 <= m < 12 /\ 1 <= d <= days_in_month (time_is_leap_year y) m.

Lemma valid_day_bounds y m d : valid_day y m d -> 0 <= m < 12 /\ 1 <= d <= 31 /\
  0 <= days_before_month (time_is_leap_year y) m /\
  days_before_month (time_is_leap_year y) m + d <= 365 + (if time_is_leap_year y then 1 else 0).
Proof.
  intros [M D]. pose proof (days_before_month_vals (time_is_leap_year y) m M). split_and!; lia.
Qed.

(** In which of the three periods a date is. *)
Lemma reformation_order y m d : 1 <= y <= LAST_YEAR -> valid_day y m d ->
  let n := day_number d m y in
  (yyyymmdd y m d < 17520822 <-> n < REFORMATION_DAY) /\
  (yyyymmdd y m d < 17520902 <-> n < REFORMATION_DAY + MISSING_DAYS).
Proof.
  intros Hy V. pose proof (valid_day_bounds _ _ _ V) as (M & D & B & U). cbv zeta.
  rewrite day_number_value by lia. unfold yyyymmdd, REFORMATION_DAY, MISSING_DAYS.
  destruct (Z.lt_trichotomy y 1752) as [C|[->|C]].
  - assert (L : time_leap_years_up_to (y - 1) <= 437).
    { rewrite leap_years_value, (proj2 (Z.leb_le (y - 1) 1752)) by lia.
      Z.to_euclidean_division_equations; lia. }
    destruct (time_is_leap_year y); cbv iota in *; lia.
  - assert (T : time_is_leap_year 1752 = true) by done. rewrite T.
    assert (L : time_leap_years_up_to (1752 - 1) = 437) by done. rewrite L.
    clear V B U. revert m M. refine (month_cases _ _ _ _ _ _ _ _ _ _ _ _ _);
      (match goal with |- context [days_before_month ?b ?m] =>
         let v := eval vm_compute in (days_before_month b m) in
         assert (E : days_before_month b m = v) by done; rewrite E end; lia).
  - assert (L : 438 <= time_leap_years_up_to (y - 1)).
    { rewrite leap_years_value by lia.
      destruct (Z.leb_spec (y - 1) 1752); Z.to_euclidean_division_equations; lia. }
    lia.
Qed.

(** C34. For the years up to [LAST_YEAR], the last one whose days have numbers
    that fit in a [gint], [time_day_of_week] is the weekday of the Julian
    calendar, whose first day, 1 January of year 1, was a Saturday, up to 21
    August 1752, and from 2 September 1752 on that of the Gregorian calendar, the
    one [gmtime] gives; from 22 August to 1 September 1752 it is Thursday.  This
    is not what the documentation says, which is that it is Thursday for the days
    that were removed, 3 to 13 September: [REFORMATION_DAY], meant to be the first
    of these, is the number of 22 August.  Later years are not covered:
    [day_of_week_overflow]. *)
Theorem day_of_week_calendar (y m d : Z) : 1 <= y <= LAST_YEAR -> valid_day y m d ->
  time_day_of_week d m y =
    if yyyymmdd y m d <? 17520822 then (julian_days y m d - 1 + SATURDAY) mod 7
    else if yyyymmdd y m d <? 17520902 then THURSDAY
    else tm_wday (gmtime (days_from_civil y m d * 86400)).
Proof.
  intros Hy V. destruct (reformation_order y m d Hy V) as [R1 R2].
  destruct (valid_day_bounds _ _ _ V) as (M & D & _).
  destruct (week_sums (day_number d m y) (day_number_bounds y m d Hy M D)) as [S1 S2].
  unfold time_day_of_week. set (n := day_number d m y) in *. rewrite S2, S1.
  destruct (Z.ltb_spec (yyyymmdd y m d) 17520822) as [C|C];
    destruct (Z.ltb_spec n REFORMATION_DAY) as [N|N]; try (exfalso; lia).
  - assert (Y : y <= 1752) by (unfold yyyymmdd in C; lia).
    unfold n in *. rewrite day_number_julian by lia. apply Z.rem_mod_nonneg; [|done].
    rewrite <- day_number_julian, day_number_value by lia.
    pose proof (days_before_month_vals (time_is_leap_year y) m M).
    assert (0 <= time_leap_years_up_to (y - 1)).
    { rewrite leap_years_value by lia. rewrite (proj2 (Z.leb_le (y - 1) 1752)) by lia. 
      apply Z.div_pos; lia. }
    unfold SATURDAY. lia.
  - destruct (Z.ltb_spec (yyyymmdd y m d) 17520902) as [G|G];
      destruct (Z.geb_spec n (REFORMATION_DAY + MISSING_DAYS)) as [N'|N']; try (exfalso; lia); [done|].
    unfold n in *. rewrite Z.rem_mod_nonneg by (unfold SATURDAY, MISSING_DAYS, REFORMATION_DAY in *; lia).
    assert (E : day_number d m y = days_from_civil y m d + 719162 + 14).
    { destruct (Z.ltb_spec y 1753) as [Y|Y]; [|apply day_number_gregorian; lia].
      assert (y = 1752) as -> by (unfold yyyymmdd in G; lia).
      assert (L : time_leap_years_up_to (1752 - 1) = 437) by done.
      assert (B : days_before_year 1752 = 639539) by done.
      assert (T : time_is_leap_year 1752 = is_leap 1752) by done.
      rewrite day_number_value, L, T by lia. unfold days_from_civil. rewrite B. lia. }
    rewrite E. unfold gmtime. rewrite Z.div_mul by lia.
    destruct (civil_from_days _) as [[y' m'] d']. cbn. unfold SATURDAY, MISSING_DAYS.
    Z.to_euclidean_division_equations; lia.
Qed.

(** ** What libical promises *)

(** The UTC seconds of the fields, and fields in range. *)
Definition fields_seconds (tt : ICalTime) : Z :=
  timegm (Tm (second tt) (minute tt) (hour tt) (day tt) (month tt - 1) (year tt - 1900) 0).

Definition valid_time (tt : ICalTime) : Prop :=
  valid_date (year tt) (month tt - 1) (day tt) /\
  0 <= hour tt < 24 /\ 0 <= minute tt < 60 /\ 0 <= second tt < 60.

Class ICalLaws (zone : Type) `{ICalLib zone} : Prop := {
  from_timet_valid t d z : valid_time (i_cal_time_new_from_timet_with_zone t d z);
  (** the offset of a zone is less than a day *)
  from_timet_offset t d z :
    Z.abs (fields_seconds (i_cal_time_new_from_timet_with_zone t d z) - t) <= 86400;
  as_timet_offset tt z : Z.abs (i_cal_time_as_timet_with_zone tt z - fields_seconds tt) <= 86400;
  from_timet_utc t d : fields_seconds (i_cal_time_new_from_timet_with_zone t d utc_timezone) = t;
  as_timet_utc tt : i_cal_time_as_timet_with_zone tt utc_timezone = fields_seconds tt;
  (** a date that is out of range is carried over *)
  adjust_seconds tt d h m s : fields_seconds (i_cal_time_adjust tt d h m s) =
    fields_seconds tt + d * 86400 + h * 3600 + m * 60 + s;
  normalize_valid tt : valid_time (i_cal_time_normalize tt);
  normalize_seconds tt : fields_seconds (i_cal_time_normalize tt) = fields_seconds tt;
  normalize_is_date tt : is_date (i_cal_time_normalize tt) = is_date tt
}.

(** Fields of a second count. *)
Definition utc_fields (t : Z) (date : bool) : ICalTime :=
  let b := gmtime t in
  ITT (tm_year b + 1900) (tm_mon b + 1) (tm_mday b) (tm_hour b) (tm_min b) (tm_sec b) date.

(** libical with the UTC zone alone. *)
#[export] Instance utc_lib : ICalLib unit := {
  utc_timezone := tt;
  i_cal_time_new_from_timet_with_zone t d _ := utc_fields t d;
  i_cal_time_as_timet_with_zone i _ := fields_seconds i;
  i_cal_time_adjust i d h m s := utc_fields (fields_seconds i + d * 86400 + h * 3600 + m * 60 + s) (is_date i);
  i_cal_time_normalize i := utc_fields (fields_seconds i) (is_date i);
  i_cal_time_convert_timezone i _ _ := i
}.

Lemma utc_fields_seconds t date : fields_seconds (utc_fields t date) = t.
Proof.
  unfold fields_seconds, utc_fields. cbn [second minute hour day month year].
  rewrite <- (timegm_gmtime t) at 7. destruct (gmtime t) as [s mi h d m y w].
  unfold timegm; cbn [tm_sec tm_min tm_hour tm_mday tm_mon tm_year].
  by replace (m + 1 - 1) with m by lia; replace (y + 1900 - 1900) with y by lia.
Qed.

Lemma utc_fields_valid t date : valid_time (utc_fields t date).
Proof.
  pose proof (gmtime_valid t) as V. unfold valid_time, utc_fields, valid_tm in *.
  cbn [second minute hour day month year]. destruct (gmtime t) as [s mi h d m y w]; cbn in *.
  by replace (m + 1 - 1) with m by lia.
Qed.

#[export] Instance utc_laws : ICalLaws unit.
Proof.
  split; intros; cbn; rewrite ?utc_fields_seconds; try done; try lia; apply utc_fields_valid.
Qed.

(** Valid fields are determined by their seconds. *)
Lemma fields_unique a b : valid_time a -> valid_time b -> fields_seconds a = fields_seconds b ->
  year a = year b /\ month a = month b /\ day a = day b /\ hour a = hour b /\ minute a = minute b /\
  second a = second b.
Proof.
  unfold valid_time, fields_seconds. intros (D & H) (D' & H') E. apply (f_equal gmtime) in E.
  destruct a as [y m d h mi s ?], b as [y' m' d' h' mi' s' ?]; cbn [second minute hour day month year] in *.
  rewrite !gmtime_timegm in E;
    [|unfold valid_tm; cbn; replace (y' - 1900 + 1900) with y' by lia; done
     |unfold valid_tm; cbn; replace (y - 1900 + 1900) with y by lia; done].
  cbn in E. injection E. intros. split_and!; lia.
Qed.

Lemma days_in_month_value y m : 1900 <= y -> 0 <= m < 12 ->
  time_days_in_month y m = days_in_month (is_leap y) m.
Proof.
  intros Hy Hm. unfold time_days_in_month. rewrite (proj2 (Z.geb_le y 1900)) by lia.
  rewrite (proj2 (Z.geb_le m 0)), (proj2 (Z.ltb_lt m 12)), is_leap_year_modern by lia.
  cbn [negb andb]. destruct (is_leap y); revert m Hm;
    by refine (month_cases _ _ _ _ _ _ _ _ _ _ _ _ _).
Qed.

Section Zones.

Context {zone : Type} {lib : ICalLib zone} {laws : ICalLaws zone}.

(** The value of two digits. *)
Lemma two_digits n : 0 <= n < 100 -> (48 + n / 10 - 48) * 10 + (48 + n mod 10 - 48) = n.
Proof. intros H. Z.to_euclidean_division_equations; lia. Qed.

Lemma isdigit_digit n : 0 <= n < 10 -> isdigit (48 + n) = true.
Proof. unfold isdigit. intros H. apply andb_true_iff. lia. Qed.

(** A time between the years 0 and 9999 survives the ISO 8601 form:
    [time_from_isodate] of what [isodate_from_time_t] writes, sixteen
    characters, is the time. *)
Theorem isodate_roundtrip (t : Z) : 0 <= tm_year (gmtime t) + 1900 <= 9999 ->
  length (isodate_from_time_t t) = 16%nat /\ time_from_isodate (isodate_from_time_t t) = t.
Proof.
  intros Y. pose proof (gmtime_valid t) as ((M & D) & Hh & Hm & Hs).
  pose proof (days_before_month_vals (is_leap (tm_year (gmtime t) + 1900)) _ M) as (_ & DM & _).
  unfold isodate_from_time_t. rewrite fmt0_4, !fmt0_2 by lia.
  pose proof (timegm_gmtime t) as E. destruct (gmtime t) as [s mi h d m y w].
  cbn [tm_sec tm_min tm_hour tm_mday tm_mon tm_year] in *. split; [done|].
  unfold time_from_isodate. cbn [length app take ISODATE_LENGTH Nat.sub Nat.eqb orb negb combine seq forallb andb].
  rewrite !isdigit_digit by (Z.to_euclidean_division_equations; lia).
  cbn [andb orb negb nth]. change (ch "0") with 48.
  change (ch "T" =? ch "T") with true. change (ch "Z" =? ch "Z") with true. cbn [andb orb negb].
  rewrite !two_digits by lia. change (8 <? 16)%nat with true. cbv iota.
  rewrite as_timet_utc, <- E. unfold fields_seconds, timegm. cbn.
  replace ((48 + (y + 1900) / 1000 - 48) * 1000 + _ + _ + _) with (y + 1900)
    by (Z.to_euclidean_division_equations; lia).
  by replace (m + 1 - 1) with m by lia; replace (y + 1900 - 1900) with y by lia.
Qed.

(** Adding months in a zone keeps the time of the day and moves the date to
    the same day of the month that many months away, or to its last day when
    that month is shorter; for years from 1900 on. *)
Theorem add_month_spec (time months : Z) (z : zone) :
  let tt := i_cal_time_new_from_timet_with_zone time false z in
  let total := year tt * 12 + (month tt - 1) + months in
  1900 <= total / 12 ->
  time_add_month_with_zone time months z =
    i_cal_time_as_timet_with_zone
      (ITT (total / 12) (total mod 12 + 1)
         (Z.min (day tt) (days_in_month (is_leap (total / 12)) (total mod 12)))
         (hour tt) (minute tt) (second tt) (is_date tt)) z.
Proof.
  intros tt total Y. unfold time_add_month_with_zone. fold tt.
  pose proof (from_timet_valid time false z : valid_time tt) as V. clearbody tt.
  set (u := set_day (set_month tt (month tt + months)) 1).
  set (v := ITT (total / 12) (total mod 12 + 1) 1 (hour tt) (minute tt) (second tt) (is_date tt)).
  assert (M : 0 <= total mod 12 < 12) by (apply Z.mod_pos_bound; lia).
  assert (VV : valid_time v).
  { destruct V as (_ & Hh & Hm & Hs). unfold v, valid_time, valid_date. cbn.
    replace (total mod 12 + 1 - 1) with (total mod 12) by lia.
    pose proof (days_before_month_vals (is_leap (total / 12)) _ M). split_and!; lia. }
  assert (S : fields_seconds (i_cal_time_normalize u) = fields_seconds v).
  { rewrite normalize_seconds. unfold fields_seconds, timegm, u, v. cbn [second minute hour day month year
      set_day set_month tm_sec tm_min tm_hour tm_mday tm_mon tm_year].
    do 4 f_equal. f_equal; unfold total; Z.to_euclidean_division_equations; lia. }
  pose proof (normalize_is_date u) as ID.
  destruct (fields_unique _ _ (normalize_valid u) VV S) as (E1 & E2 & E3 & E4 & E5 & E6).
  destruct (i_cal_time_normalize u) as [y m d h mi s b]. cbn [second minute hour day month year is_date v u set_day set_month] in *.
  subst. f_equal. unfold set_day; cbn [second minute hour day month year is_date].
  replace (total mod 12 + 1 - 1) with (total mod 12) by lia. rewrite days_in_month_value by done.
  f_equal. destruct (Z.gtb_spec (day tt) (days_in_month (is_leap (total / 12)) (total mod 12))); lia.
Qed.

(** Each round moves the fields by an hour; a zone is off by a day at most. *)
Lemma day_begin_loop_ends (fuel : nat) tt time (z : zone) :
  fields_seconds tt + 86400 - time <= 3600 * Z.of_nat fuel ->
  exists r, day_begin_loop (S fuel) tt time z = Some r /\ r <= time.
Proof.
  revert tt. induction fuel as [|fuel IH]; intros tt B;
    pose proof (as_timet_offset tt z) as O; rewrite (eq_refl : day_begin_loop (S _) tt time z = if _ >? _ then _ else _);
    destruct (Z.gtb_spec (i_cal_time_as_timet_with_zone tt z) time) as [G|G];
    try (by eexists; split; [done|lia]); [lia|].
  apply IH. rewrite adjust_seconds. lia.
Qed.

Lemma day_end_loop_ends (fuel : nat) tt time (z : zone) :
  time + 86400 - fields_seconds tt < 3600 * Z.of_nat fuel ->
  exists r, day_end_loop (S fuel) tt time z = Some r /\ time < r.
Proof.
  revert tt. induction fuel as [|fuel IH]; intros tt B;
    pose proof (as_timet_offset tt z) as O; rewrite (eq_refl : day_end_loop (S _) tt time z = if _ <=? _ then _ else _);
    destruct (Z.leb_spec (i_cal_time_as_timet_with_zone tt z) time) as [G|G];
    try (by eexists; split; [done|lia]); [lia|].
  apply IH. rewrite adjust_seconds. lia.
Qed.

Lemma fields_seconds_midnight tt : valid_time tt ->
  fields_seconds tt - 86400 < fields_seconds (set_midnight tt) <= fields_seconds tt.
Proof. intros (_ & H). destruct tt; unfold fields_seconds, timegm; cbn in *. lia. Qed.

(** In any zone, whatever its changes of offset, the loops of
    [time_day_begin_with_zone] and [time_day_end_with_zone] end within 73
    rounds, and the begin is not after the time, the end after it. *)
Theorem day_begin_end_total (time : Z) (z : zone) :
  exists b e, time_day_begin_with_zone 73 time z = Some b /\
    time_day_end_with_zone 73 time z = Some e /\ b <= time < e.
Proof.
  unfold time_day_begin_with_zone, time_day_end_with_zone.
  pose proof (fields_seconds_midnight _ (from_timet_valid time false z)) as M.
  pose proof (from_timet_offset time false z) as O.
  set (tt := i_cal_time_new_from_timet_with_zone time false z) in *.
  destruct (day_begin_loop_ends 72 (set_midnight tt) time z) as (b & B & Lb); [lia|].
  destruct (day_end_loop_ends 72 (i_cal_time_adjust (set_midnight tt) 1 0 0 0) time z) as (e & E & Le).
  { rewrite adjust_seconds. lia. }
  exists b, e. split_and!; done.
Qed.

Lemma fields_seconds_midnight_utc tt : valid_time tt ->
  fields_seconds (set_midnight tt) = fields_seconds tt / 86400 * 86400.
Proof.
  intros (_ & H). destruct tt; unfold fields_seconds, timegm; cbn in *.
  set (n := days_from_civil _ _ _). Z.to_euclidean_division_equations; lia.
Qed.

(** In UTC the day of a time begins and ends at the multiples of 86400
    seconds around it, found without correction. *)
Theorem day_begin_end_utc (time : Z) :
  time_day_begin_with_zone 1 time utc_timezone = Some (time / 86400 * 86400) /\
  time_day_end_with_zone 1 time utc_timezone = Some ((time / 86400 + 1) * 86400).
Proof.
  unfold time_day_begin_with_zone, time_day_end_with_zone, day_begin_loop, day_end_loop.
  rewrite !as_timet_utc, adjust_seconds, !fields_seconds_midnight_utc, from_timet_utc
    by apply from_timet_valid.
  destruct (Z.gtb_spec (time / 86400 * 86400) time) as [G|G]; [Z.to_euclidean_division_equations; lia|].
  match goal with |- context [?x <=? time] => destruct (Z.leb_spec x time) as [G'|G'] end.
  - Z.to_euclidean_division_equations; lia.
  - split; [done|]. f_equal. lia.
Qed.

Lemma day_of_week_modern y m d : 1753 <= y <= LAST_YEAR -> 0 <= m < 12 -> 1 <= d <= 31 ->
  time_day_of_week d m y = (days_from_civil y m d + 4) mod 7.
Proof.
  intros Hy Hm Hd. unfold time_day_of_week.
  destruct (week_sums (day_number d m y) (day_number_bounds y m d ltac:(lia) Hm Hd)) as [S1 S2]. rewrite S2, S1.
  rewrite day_number_gregorian by (done || lia).
  assert (B : 639919 <= days_from_civil y m d + 719162 + 14).
  { unfold days_from_civil. pose proof (days_before_year_mono 1753 y ltac:(lia)) as Y.
    assert (E : days_before_year 1753 = 639905) by done.
    pose proof (days_before_month_vals (is_leap y) m Hm). lia. }
  unfold REFORMATION_DAY, MISSING_DAYS, SATURDAY.
  set (n := days_from_civil y m d) in *.
  destruct (Z.ltb_spec (n + 719162 + 14) 639787); [lia|].
  destruct (Z.geb_spec (n + 719162 + 14) (639787 + 11)); [|lia].
  rewrite Z.rem_mod_nonneg by lia. Z.to_euclidean_division_equations; lia.
Qed.

Lemma fields_days tt : valid_time tt ->
  days_from_civil (year tt) (month tt - 1) (day tt) = fields_seconds tt / 86400.
Proof.
  intros ((M & _) & H). unfold fields_seconds, timegm.
  cbn [tm_sec tm_min tm_hour tm_mday tm_mon tm_year].
  rewrite (Z.div_small (month tt - 1) 12), (Z.mod_small (month tt - 1) 12) by lia.
  replace (year tt - 1900 + 1900 + 0) with (year tt) by lia.
  set (n := days_from_civil _ _ _). Z.to_euclidean_division_equations; lia.
Qed.

(** In UTC, from 1753 on, the week of a time begins at a midnight that is a
    [week_start_day] and less than seven days before it. *)
Theorem week_begin_utc (time week_start_day : Z) :
  1753 <= tm_year (gmtime time) + 1900 <= LAST_YEAR -> 0 <= week_start_day < 7 ->
  let b := time_week_begin_with_zone time week_start_day utc_timezone in
  b mod 86400 = 0 /\ b <= time < b + 7 * 86400 /\ tm_wday (gmtime b) = week_start_day.
Proof.
  intros Y W b.
  set (tt := i_cal_time_new_from_timet_with_zone time false utc_timezone).
  pose proof (from_timet_valid time false utc_timezone : valid_time tt) as V.
  pose proof (from_timet_utc time false : fields_seconds tt = time) as S.
  assert (YT : year tt = tm_year (gmtime time) + 1900).
  { destruct (fields_unique tt (utc_fields time false)) as [E _]; [done|apply utc_fields_valid| |done].
    by rewrite utc_fields_seconds. }
  pose proof (fields_days tt V) as D. rewrite S in D.
  assert (E : b = (time / 86400 - ((time / 86400 + 4) mod 7 + 7 - week_start_day) mod 7) * 86400).
  { unfold b, time_week_begin_with_zone. fold tt. destruct V as ((M & Dd) & H).
    pose proof (days_before_month_vals (is_leap (year tt)) (month tt - 1) M) as (_ & D31 & _).
    rewrite as_timet_utc, normalize_seconds, day_of_week_modern, D by lia.
    rewrite Z.rem_mod_nonneg by (Z.to_euclidean_division_equations; lia).
    set (off := (_ mod 7 + 7 - week_start_day) mod 7). clearbody off.
    unfold days_from_civil in D. unfold fields_seconds, timegm, days_from_civil.
    cbn [second minute hour day month year set_midnight set_second set_minute set_hour set_day
      tm_sec tm_min tm_hour tm_mday tm_mon tm_year].
    rewrite (Z.div_small (month tt - 1) 12), (Z.mod_small (month tt - 1) 12) by lia.
    replace (year tt - 1900 + 1900 + 0) with (year tt) by lia. lia. }
  rewrite E. unfold gmtime. rewrite Z.div_mul by lia. 
  destruct (civil_from_days _) as [[y' m'] d']. cbn [tm_wday].
  split; [apply Z.mod_mul; lia|]. Z.to_euclidean_division_equations; lia.
Qed.

End Zones.

(** ** Witnesses *)

(** In the next year the numbers go over: a day of January is the day of the week
    of the calendar still, the last day of the year is none. *)
Lemma day_of_week_overflow : time_day_of_week 1 0 (LAST_YEAR + 1) = tm_wday (gmtime (days_from_civil (LAST_YEAR + 1) 0 1 * 86400)) /\
  time_day_of_week 31 11 (LAST_YEAR + 1) < 0.
Proof. by vm_compute. Qed.

(** What it gives around the reformation: the last days of August, 1 and 2
    September, and the removed days 3 and 13 September. *)
Lemma day_of_week_reformation : map (fun md => time_day_of_week (snd md) (fst md) 1752) [(7, 21); (7, 22); (8, 1); (8, 2); (8, 3); (8, 13); (8, 14)] =
  [5; 4; 4; 6; 0; 3; 4].
Proof. reflexivity. Qed.

Lemma day_of_week_calendar_witness : valid_day 2024 1 29 /\ time_day_of_week 29 1 2024 = 4.
Proof.
  assert (V : valid_day 2024 1 29) by (vm_compute; split_and!; congruence).
  split; [exact V|]. apply (day_of_week_calendar 2024 1 29 ltac:(unfold LAST_YEAR; lia) V).
Defined.

Lemma day_of_year_bijective_witness : exists m d, time_day_of_year d m 2024 = 60 /\ 1 <= d <= 31.
Proof.
  destruct (day_of_year_bijective 2024 60 ltac:(lia) ltac:(vm_compute; split_and!; congruence))
    as (m & d & M & D & E & _).
  exists m, d. split; [exact E|]. pose proof (days_before_month_vals (time_is_leap_year 2024) m M). lia.
Defined.

Lemma isodate_roundtrip_witness : time_from_isodate (zone := unit) (isodate_from_time_t 1709210096) = 1709210096.
Proof. apply (isodate_roundtrip (zone := unit) 1709210096). vm_compute; split_and!; congruence. Defined.

Lemma add_month_spec_witness : (* 31 January to 29 February 2024 *)
  time_add_month_with_zone (zone := unit) 1706702400 1 tt = 1709208000.
Proof.
  etransitivity; [apply (add_month_spec (zone := unit) 1706702400 1 tt)|]; vm_compute; [congruence|done].
Defined.

Lemma week_begin_utc_witness :
  tm_wday (gmtime (time_week_begin_with_zone (zone := unit) 1709210096 1 utc_timezone)) = 1.
Proof.
  destruct (week_begin_utc (zone := unit) 1709210096 1) as (_ & _ & E);
    [vm_compute; split; congruence|lia|exact E].
Defined.

Lemma day_begin_end_total_witness : exists b e,
  time_day_begin_with_zone (zone := unit) 73 1709210096 utc_timezone = Some b /\
  time_day_end_with_zone (zone := unit) 73 1709210096 utc_timezone = Some e /\ b <= 1709210096 < e.
Proof. exact (day_begin_end_total (zone := unit) 1709210096 utc_timezone). Defined.

Lemma day_begin_end_utc_witness :
  time_day_begin_with_zone (zone := unit) 1 1709210096 utc_timezone = Some (1709210096 / 86400 * 86400).
Proof. exact (proj1 (day_begin_end_utc (zone := unit) 1709210096)). Defined.
