(* ===== verification/DateParse.v ===== *)
(** * DateParse: the dates of mail headers (camel/camel-mime-utils.c)

    [camel_header_format_date] writes the Date header of a message;
    [camel_header_decode_date] reads one: the text is split into tokens with a
    mask of character classes, tried as an RFC 822 date, and read word by word
    when that fails.  mktime(3), which depends on the time zone of the system, is
    a parameter. *)

From stdpp Require Import base list strings numbers.
From Stdlib Require Import ZArith Lia Ascii.
From S2P Require Import Prelude Civil.

(** ** Character classes *)

Definition NUMERIC_CHARS := bs "1234567890".
Definition WEEKDAY_CHARS := bs "SundayMondayTuesdayWednesdayThursdayFridaySaturday".
Definition MONTH_CHARS := bs "JanuaryFebruaryMarchAprilMayJuneJulyAugustSeptemberOctoberNovemberDecember".
Definition TIMEZONE_ALPHA_CHARS := bs "UTCGMTESTEDTCSTCDTMSTPSTPDTZAMNY()".
Definition TIMEZONE_NUMERIC_CHARS := bs "-+1234567890".
Definition TIME_CHARS := bs "1234567890:".

Definition DATE_TOKEN_NON_NUMERIC : Z := Z.shiftl 1 0.
Definition DATE_TOKEN_NON_WEEKDAY : Z := Z.shiftl 1 1.
Definition DATE_TOKEN_NON_MONTH : Z := Z.shiftl 1 2.
Definition DATE_TOKEN_NON_TIME : Z := Z.shiftl 1 3.
Definition DATE_TOKEN_HAS_COLON : Z := Z.shiftl 1 4.
Definition DATE_TOKEN_NON_TIMEZONE_ALPHA : Z := Z.shiftl 1 5.
Definition DATE_TOKEN_NON_TIMEZONE_NUMERIC : Z := Z.shiftl 1 6.
Definition DATE_TOKEN_HAS_SIGN : Z := Z.shiftl 1 7.

(** The upper half of the table is 111 throughout. *)
Definition camel_datetok_table : list Z :=
  [128;111;111;111;111;111;111;111;111;111;111;111;111;111;111;111;
   111;111;111;111;111;111;111;111;111;111;111;111;111;111;111;111;
   111;111;111;111;111;111;111;111; 79; 79;111;175;111;175;111;111;
    38; 38; 38; 38; 38; 38; 38; 38; 38; 38;119;111;111;111;111;111;
   111; 75;111; 79; 75; 79;105; 79;111;111;107;111;111; 73; 75;107;
    79;111;111; 73; 77; 79;111;109;111; 79; 79;111;111;111;111;111;
   111;105;107;107;109;105;111;107;105;105;111;111;107;107;105;105;
   107;111;105;105;105;105;107;111;111;105;111;111;111;111;111;111] ++ replicate 128 111.

Definition datetok_class (c : Z) : Z := nth (Z.to_nat c) camel_datetok_table 0.

Definition tz_offsets : list (list Z * Z) :=
  [(bs "UT", 0); (bs "GMT", 0); (bs "EST", -500); (bs "EDT", -400); (bs "CST", -600); (bs "CDT", -500);
   (bs "MST", -700); (bs "MDT", -600); (bs "PST", -800); (bs "PDT", -700); (bs "Z", 0); (bs "A", -100);
   (bs "M", -1200); (bs "N", 100); (bs "Y", 1200)].

Definition tm_months : list (list Z) :=
  map bs ["Jan"; "Feb"; "Mar"; "Apr"; "May"; "Jun"; "Jul"; "Aug"; "Sep"; "Oct"; "Nov"; "Dec"]%string.

Definition tm_days : list (list Z) := map bs ["Sun"; "Mon"; "Tue"; "Wed"; "Thu"; "Fri"; "Sat"]%string.

(** ** Writing *)

(** "%+05d" of an [int]. *)
Definition fmt_sign05 (n : Z) : list Z :=
  let digits := udec 11 (Z.abs n) in
  [if n <? 0 then ch "-" else ch "+"] ++ replicate (4 - length digits) 48 ++ digits.

(** The seconds of an offset written as hours and minutes, HHMM; [/] and [%]
    truncate. *)
Definition offset_seconds (off : Z) : Z := Z.quot off 100 * 60 * 60 + Z.rem off 100 * 60.

Definition camel_header_format_date (date tz_offset : Z) : list Z :=
  let date := date + (Z.quot tz_offset 100 * (60 * 60) + Z.rem tz_offset 100 * 60) in
  let tm := gmtime date in
  nth (Z.to_nat (tm_wday tm)) tm_days [] ++ bs ", " ++ fmt0 2 (tm_mday tm) ++ bs " " ++
  nth (Z.to_nat (tm_mon tm)) tm_months [] ++ bs " " ++ fmt0 4 (tm_year tm + 1900) ++ bs " " ++
  fmt0 2 (tm_hour tm) ++ bs ":" ++ fmt0 2 (tm_min tm) ++ bs ":" ++ fmt0 2 (tm_sec tm) ++ bs " " ++
  fmt_sign05 tz_offset.

(** ** Tokens *)

(** [start] is the text from the token on: the functions below read past
    [len].  Reading at the end gives the NUL. *)
Record date_token := Token { t_mask : Z; t_start : list Z; t_len : nat }.

Definition deref (s : list Z) : Z := hd 0 s.

Fixpoint skip_blanks (s : list Z) : list Z :=
  match s with
  | c :: s' => if (c =? ch " ") || (c =? 9) then skip_blanks s' else s
  | [] => []
  end.

(** [strchr ("-/,\t\r\n ", c)] of a character of the text. *)
Definition ends_token (c : Z) : bool :=
  existsb (Z.eqb c) [ch "-"; ch "/"; ch ","; 9; 13; 10; 32].

(** The characters up to the end of the token, their classes or'd to [mask],
    their number, and what is left. *)
Fixpoint scan_token (s : list Z) (mask : Z) (len : nat) : Z * nat * list Z :=
  match s with
  | c :: s' =>
      if ends_token c then (mask, len, s)
      else scan_token s' (Z.lor mask (datetok_class c)) (S len)
  | [] => (mask, len, [])
  end.

Fixpoint datetok_loop (fuel : nat) (start : list Z) : list date_token :=
  match fuel with
  | O => []
  | S fuel =>
      match skip_blanks start with
      | [] => []
      | c :: s =>
          let '(mask, len, rest) := scan_token s (datetok_class c) 1 in
          Token mask (c :: s) len ::
            match rest with [] => [] | _ :: rest => datetok_loop fuel rest end
      end
  end.

Definition datetok (date : list Z) : list date_token := datetok_loop (S (length date)) date.

(** ** Fields *)

(** The digits of an [int]; signed overflow wraps. *)
Fixpoint decode_digits (s : list Z) (val : Z) : option Z :=
  match s with
  | [] => Some val
  | c :: s' => if isdigit c then decode_digits s' (s32 (val * 10 + (c - ch "0"))) else None
  end.

Definition decode_int (s : list Z) (inlen : nat) : Z :=
  let '(sign, digits) :=
    if deref s =? ch "-" then (-1, tl (take inlen s))
    else if deref s =? ch "+" then (1, tl (take inlen s)) else (1, take inlen s) in
  match decode_digits digits 0 with Some val => s32 (val * sign) | None => -1 end.

(** The first [i] from [i] on whose name the text begins with. *)
Fixpoint name_index (s : list Z) (names : list (list Z)) (i : Z) : Z :=
  match names with
  | [] => -1
  | name :: names => if strncase_prefix s name then i else name_index s names (i + 1)
  end.

Definition get_wday (s : list Z) (inlen : nat) : Z :=
  if (inlen <? 3)%nat then -1 else name_index s tm_days 0.

Definition get_mday (s : list Z) (inlen : nat) : Z :=
  let mday := decode_int s inlen in if (mday <? 0) || (mday >? 31) then -1 else mday.

Definition get_month (s : list Z) (inlen : nat) : Z :=
  if (inlen <? 3)%nat then -1 else name_index s tm_months 0.

Definition get_year (s : list Z) (inlen : nat) : Z :=
  let year := decode_int s inlen in
  if year =? -1 then -1
  else
    let year := if year <? 100 then year + (if year <? 70 then 2000 else 1900) else year in
    if year <? 1969 then -1 else year.

(** The numbers between the colons: [colons] seen, then hour, minute, second. *)
Fixpoint time_loop (s : list Z) (colons hour min sec : Z) : option (Z * Z * Z) :=
  match s with
  | [] => Some (hour, min, sec)
  | c :: s' =>
      if c =? ch ":" then
        if (colons + 1 =? 1) || (colons + 1 =? 2) then time_loop s' (colons + 1) hour min sec else None
      else if negb (isdigit c) then None
      else
        let add v := s32 (v * 10 + (c - ch "0")) in
        if colons =? 0 then time_loop s' colons (add hour) min sec
        else if colons =? 1 then time_loop s' colons hour (add min) sec
        else time_loop s' colons hour min (add sec)
  end.

Definition get_time (s : list Z) (inlen : nat) : option (Z * Z * Z) := time_loop (take inlen s) 0 0 0 0.

(** The entry of [tz_offsets] with this name, of [inlen] characters. *)
Fixpoint find_tz (s : list Z) (inlen : nat) (table : list (list Z * Z)) : option Z :=
  match table with
  | [] => None
  | (name, off) :: table =>
      if (length name =? inlen)%nat && prefix_eqb name s then Some off else find_tz s inlen table
  end.

Fixpoint tzone_loop (i : nat) (tokens : list date_token) : Z :=
  match i, tokens with
  | S i, token :: tokens =>
      let s := t_start token in let inlen := t_len token in
      if (deref s =? ch "+") || (deref s =? ch "-") then decode_int s inlen
      else
        let '(s', inlen') :=
          if deref s =? ch "(" then
            (tl s, if nth (inlen - 1) s 0 =? ch ")" then (inlen - 2)%nat else (inlen - 1)%nat)
          else (s, inlen) in
        match find_tz s' inlen' tz_offsets with Some off => off | None => tzone_loop i tokens end
  | _, _ => -1
  end.

Definition get_tzone (tokens : list date_token) : Z := tzone_loop 2 tokens.

(** ** Masks of tokens *)

Definition unset (mask flag : Z) : bool := Z.land mask flag =? 0.
Definition is_numeric (t : date_token) : bool := unset (t_mask t) DATE_TOKEN_NON_NUMERIC.
Definition is_weekday (t : date_token) : bool := unset (t_mask t) DATE_TOKEN_NON_WEEKDAY.
Definition is_month (t : date_token) : bool := unset (t_mask t) DATE_TOKEN_NON_MONTH.
Definition is_time (t : date_token) : bool :=
  unset (t_mask t) DATE_TOKEN_NON_TIME && negb (unset (t_mask t) DATE_TOKEN_HAS_COLON).
Definition is_tzone_alpha (t : date_token) : bool := unset (t_mask t) DATE_TOKEN_NON_TIMEZONE_ALPHA.
Definition is_tzone_numeric (t : date_token) : bool :=
  unset (t_mask t) DATE_TOKEN_NON_TIMEZONE_NUMERIC && negb (unset (t_mask t) DATE_TOKEN_HAS_SIGN).
Definition is_tzone (t : date_token) : bool := is_tzone_alpha t || is_tzone_numeric t.

Definition is_am (s : list Z) : bool := strncase_prefix s (bs "AM").
Definition is_pm_word (s : list Z) : bool := strncase_prefix s (bs "PM").

Definition zero_tm : tm := Tm 0 0 0 0 0 0 0.
Definition with_wday (n : Z) (b : tm) := Tm (tm_sec b) (tm_min b) (tm_hour b) (tm_mday b) (tm_mon b) (tm_year b) n.
Definition with_mday (n : Z) (b : tm) := Tm (tm_sec b) (tm_min b) (tm_hour b) n (tm_mon b) (tm_year b) (tm_wday b).
Definition with_mon (n : Z) (b : tm) := Tm (tm_sec b) (tm_min b) (tm_hour b) (tm_mday b) n (tm_year b) (tm_wday b).
Definition with_year (n : Z) (b : tm) := Tm (tm_sec b) (tm_min b) (tm_hour b) (tm_mday b) (tm_mon b) n (tm_wday b).
Definition with_time (h m s : Z) (b : tm) := Tm s m h (tm_mday b) (tm_mon b) (tm_year b) (tm_wday b).

(** ** Reading *)

(** The time and tm_gmtoff mktime(3) gives for local fields. *)
Class Mktime := mktime : tm -> Z * Z.

Section Parse.
Context `{Mktime}.

Definition camel_mktime_utc (b : tm) : Z := let '(t, gmtoff) := mktime b in t + gmtoff.

(** The time and the offset; [None] is 0 with the offset left unset. *)
Definition parse_rfc822_date (tokens : list date_token) : option (Z * Z) :=
  let b := zero_tm in
  let '(b, tokens) :=
    match tokens with
    | token :: rest =>
        let n := get_wday (t_start token) (t_len token) in
        if n =? -1 then (b, tokens) else (with_wday n b, rest)
    | [] => (b, tokens)
    end in
  match tokens with
  | [] => None
  | token :: tokens =>
    let n := get_mday (t_start token) (t_len token) in
    if n =? -1 then None else
    let b := with_mday n b in
    match tokens with
    | [] => None
    | token :: tokens =>
      let n := get_month (t_start token) (t_len token) in
      if n =? -1 then None else
      let b := with_mon n b in
      match tokens with
      | [] => None
      | token :: tokens =>
        let n := get_year (t_start token) (t_len token) in
        if n =? -1 then None else
        let b := with_year (n - 1900) b in
        match tokens with
        | [] => None
        | token :: tokens =>
          match get_time (t_start token) (t_len token) with
          | None => None
          | Some (hour, min, sec) =>
            let b := with_time hour min sec b in
            if match tokens with token :: _ => is_am (t_start token) || is_pm_word (t_start token) | [] => false end
            then None
            else
              let n := get_tzone tokens in
              let offset := match tokens with [] => 0 | _ => if n =? -1 then 0 else n end in
              let t := camel_mktime_utc b in
              Some (t - (Z.quot offset 100 * 60 * 60 + Z.rem offset 100 * 60), offset)
          end
        end
      end
    end
  end.

Record broken := Broken { got_wday : bool; got_month : bool; got_tzone : bool; is_pm : bool; b_offset : Z; b_tm : tm }.

(** The branch for a numeric token. *)
Definition broken_numeric (token : date_token) (next : list date_token) (st : broken) : broken :=
  let s := t_start token in let len := t_len token in
  let '(Broken gw gm gt pm off b) := st in
  let set_mday n := Broken gw gm gt pm off (with_mday n b) in
  if (len =? 4)%nat && (tm_year b =? 0) then
    let n := get_year s len in
    if n =? -1 then st else Broken gw gm gt pm off (with_year (n - 1900) b)
  else if negb gm && match next with t :: _ => is_numeric t | [] => false end then
    let n := decode_int s len in
    if n >? 12 then set_mday n
    else if n >? 0 then Broken gw true gt pm off (with_mon (n - 1) b) else st
  else if (tm_mday b =? 0) && negb (get_mday s len =? -1) then set_mday (get_mday s len)
  else if tm_year b =? 0 then
    let n := get_year s len in
    if n =? -1 then st else Broken gw gm gt pm off (with_year (n - 1900) b)
  else st.

(** One round of the loop of [parse_broken_date]. *)
Definition broken_step (token : date_token) (next : list date_token) (st : broken) : broken :=
  let s := t_start token in let len := t_len token in
  let '(Broken gw gm gt pm off b) := st in
  if is_weekday token && negb gw && negb (get_wday s len =? -1)
  then Broken true gm gt pm off (with_wday (get_wday s len) b)
  else if is_month token && negb gm && negb (get_month s len =? -1)
  then Broken gw true gt pm off (with_mon (get_month s len) b)
  else
    match (if is_time token && (tm_hour b =? 0) && (tm_min b =? 0) && (tm_sec b =? 0)
           then get_time s len else None) with
    | Some (hour, min, sec) => Broken gw gm gt pm off (with_time hour min sec b)
    | None =>
        if negb gt && (is_am s || is_pm_word s) then Broken gw gm gt (is_pm_word s) off b
        else if is_tzone token && negb gt && negb (get_tzone (token :: next) =? -1)
        then Broken gw gm true pm (get_tzone (token :: next)) b
        else if is_numeric token then broken_numeric token next st
        else st
    end.

Fixpoint broken_loop (tokens : list date_token) (st : broken) : broken :=
  match tokens with
  | [] => st
  | token :: tokens => broken_loop tokens (broken_step token tokens st)
  end.

Definition parse_broken_date (tokens : list date_token) : Z * Z :=
  let st := broken_loop tokens (Broken false false false false 0 zero_tm) in
  let offset := b_offset st in
  let t := camel_mktime_utc (b_tm st) in
  let t := t - (Z.quot offset 100 * 60 * 60 + Z.rem offset 100 * 60) in
  let t := if is_pm st then t + 12 * 60 * 60 else t in
  (t, offset).

(** The time, and what is stored in [tz_offset]. *)
Definition camel_header_decode_date (str : option (list Z)) : Z * Z :=
  match str with
  | None => (0, 0)
  | Some str =>
      match datetok str with
      | [] => (0, 0)
      | tokens =>
          match parse_rfc822_date tokens with
          | Some (date, offset) => if date =? 0 then parse_broken_date tokens else (date, offset)
          | None => parse_broken_date tokens
          end
      end
  end.

End Parse.

(** ** The table of classes *)

(** The bits the macros ask for. *)
Definition class_of (c : Z) : Z :=
  let bit (b : bool) (flag : Z) := if b then flag else 0 in
  let among s := existsb (Z.eqb c) s in
  bit (negb (among NUMERIC_CHARS)) DATE_TOKEN_NON_NUMERIC +
  bit (negb (among WEEKDAY_CHARS)) DATE_TOKEN_NON_WEEKDAY +
  bit (negb (among MONTH_CHARS)) DATE_TOKEN_NON_MONTH +
  bit (negb (among TIME_CHARS)) DATE_TOKEN_NON_TIME +
  bit (c =? ch ":") DATE_TOKEN_HAS_COLON +
  bit (negb (among TIMEZONE_ALPHA_CHARS)) DATE_TOKEN_NON_TIMEZONE_ALPHA +
  bit (negb (among TIMEZONE_NUMERIC_CHARS)) DATE_TOKEN_NON_TIMEZONE_NUMERIC +
  bit ((c =? ch "+") || (c =? ch "-")) DATE_TOKEN_HAS_SIGN.

(** The table of character classes is the one its macros describe, for every
    byte but the NUL, which ends a string. *)
Theorem datetok_table_macros c : 0 < c < 256 -> datetok_class c = class_of c.
Proof.
  intros B. by_bytes (fun c => (c =? 0) || (datetok_class c =? class_of c)) c (conj (Z.lt_le_incl _ _ (proj1 B)) (proj2 B)).
  apply orb_true_iff in K as [K|K]; zb; lia.
Qed.

(** ** Splitting *)

Definition classes (s : list Z) (mask : Z) : Z := fold_left (fun m c => Z.lor m (datetok_class c)) s mask.

(** What ends a token: nothing, or a separator, which is dropped. *)
Definition at_end (s : list Z) : Prop := match s with [] => True | c :: _ => ends_token c = true end.

Lemma scan_token_app w rest mask len : Forall (fun c => ends_token c = false) w -> at_end rest ->
  scan_token (w ++ rest) mask len = (classes w mask, (length w + len)%nat, rest).
Proof.
  intros F E. revert mask len; induction F as [|c w C F IH]; intros mask len.
  - destruct rest as [|c rest]; [done|]. cbn in *. by rewrite E.
  - cbn [app scan_token]. rewrite C, IH. cbn. repeat f_equal. lia.
Qed.

Lemma scan_token_split s mask len : exists w rest, s = w ++ rest /\ Forall (fun c => ends_token c = false) w /\
  at_end rest /\ scan_token s mask len = (classes w mask, (length w + len)%nat, rest).
Proof.
  assert (E : exists w rest, s = w ++ rest /\ Forall (fun c => ends_token c = false) w /\ at_end rest).
  { induction s as [|c s (w & rest & -> & F & E)]; [by exists [], []; split_and!; [|apply Forall_nil_2|]|].
    destruct (ends_token c) eqn:C.
    - exists [], (c :: w ++ rest). split_and!; [done|apply Forall_nil_2|done].
    - exists (c :: w), rest. split_and!; [done|by constructor|done]. }
  destruct E as (w & rest & -> & F & E). exists w, rest. split_and!; try done. by apply scan_token_app.
Qed.

(** The text of a token. *)
Definition t_text (t : date_token) : list Z := take (t_len t) (t_start t).

(** The tokens lie in [s] one after the other; between them there is at most one
    separator and then blanks. *)
Fixpoint laid_out (tokens : list date_token) (s : list Z) : Prop :=
  exists blanks rest, s = blanks ++ rest /\ Forall (fun c => c = 32 \/ c = 9) blanks /\
    match tokens with
    | [] => rest = []
    | t :: tokens =>
        t_start t = rest /\ (exists c w, t_text t = c :: w /\ c <> 32 /\ c <> 9 /\
          Forall (fun c => ends_token c = false) w /\ t_mask t = classes w (datetok_class c)) /\
        match drop (t_len t) rest with
        | [] => tokens = []
        | sep :: rest => ends_token sep = true /\ laid_out tokens rest
        end
    end.

Lemma skip_blanks_spec s : exists blanks, s = blanks ++ skip_blanks s /\ Forall (fun c => c = 32 \/ c = 9) blanks /\
  match skip_blanks s with c :: _ => c <> 32 /\ c <> 9 | [] => True end.
Proof.
  induction s as [|c s (b & E & F & N)]; [by exists []; split_and!; [|apply Forall_nil_2|]|]. cbn [skip_blanks].
  destruct ((c =? ch " ") || (c =? 9)) eqn:B.
  - exists (c :: b). split_and!; [cbn; by rewrite <- E| |done]. constructor; [|done].
    apply orb_true_iff in B as [B|B]; apply Z.eqb_eq in B; subst; [by left|by right].
  - exists []. split; [done|]. split; [apply Forall_nil_2|]. apply orb_false_iff in B as [B1 B2]. by apply Z.eqb_neq in B1, B2.
Qed.

Lemma datetok_loop_laid_out fuel s : (length s < fuel)%nat -> laid_out (datetok_loop fuel s) s.
Proof.
  revert s; induction fuel as [|fuel IH]; intros s L; [lia|]. cbn [datetok_loop].
  destruct (skip_blanks_spec s) as (b & E & F & N). destruct (skip_blanks s) as [|c s'] eqn:SK.
  { exists b, []. split; [exact E|]. split; [exact F|reflexivity]. }
  destruct (scan_token_split s' (datetok_class c) 1) as (w & rest & -> & FW & AE & ->).
  assert (LE : (length rest + length w + 1 + length b <= length s)%nat).
  { rewrite E. rewrite length_app. cbn. rewrite length_app. lia. }
  cbn [laid_out]. exists b, (c :: w ++ rest). do 2 (split; [done|]). cbn [t_start t_len t_mask t_text]. split; [done|]. split.
  - exists c, w. unfold t_text. cbn [t_start t_len]. rewrite Nat.add_1_r. cbn [take].
    rewrite take_app_length. destruct N. by split_and!.
  - rewrite Nat.add_1_r. cbn [drop]. rewrite drop_app_length. destruct rest as [|sep rest]; [done|].
    split; [done|]. apply IH. cbn in LE. lia.
Qed.

(** The tokens of a text are its words in order: each begins with a
    character that is no blank, has no separator after it, and carries the
    classes of its characters; nothing but separators and blanks is left out. *)
Theorem datetok_laid_out s : laid_out (datetok s) s.
Proof. apply datetok_loop_laid_out. lia. Qed.

(** ** Digits *)

Definition digit (x : Z) : Prop := 0 <= x <= 9.

Lemma digit_classes x : digit x -> isdigit (48 + x) = true /\ ends_token (48 + x) = false /\
  datetok_class (48 + x) = 38 /\ tolower (48 + x) = 48 + x /\ ((48 + x =? ch " ") || (48 + x =? 9)) = false.
Proof.
  unfold digit. intros H. assert (C : x = 0 \/ x = 1 \/ x = 2 \/ x = 3 \/ x = 4 \/ x = 5 \/ x = 6 \/ x = 7 \/ x = 8 \/ x = 9) by lia.
  repeat destruct C as [->|C]; subst; by vm_compute.
Qed.

Definition number (ds : list Z) (v : Z) : Z := fold_left (fun v d => v * 10 + d) ds v.

Lemma s32_id x : - 2 ^ 31 <= x < 2 ^ 31 -> s32 x = x.
Proof. intros H. unfold s32. rewrite Z.mod_small; lia. Qed.

Lemma number_range ds v : Forall digit ds -> 0 <= v ->
  v * 10 ^ Z.of_nat (length ds) <= number ds v < (v + 1) * 10 ^ Z.of_nat (length ds).
Proof.
  unfold digit. intros F; revert v; induction F as [|d ds D F IH]; intros v V; [cbn; lia|].
  cbn [number fold_left length]. specialize (IH (v * 10 + d) ltac:(lia)). rewrite Nat2Z.inj_succ, Z.pow_succ_r by lia.
  unfold number in IH. nia.
Qed.

Lemma decode_digits_number ds v : Forall digit ds -> 0 <= v ->
  (v + 1) * 10 ^ Z.of_nat (length ds) <= 2 ^ 31 ->
  decode_digits (map (Z.add 48) ds) v = Some (number ds v).
Proof.
  intros F; revert v; induction F as [|d ds D F IH]; intros v V L; [done|].
  cbn [map decode_digits number fold_left]. rewrite (proj1 (digit_classes d D)).
  cbn [length] in L. rewrite Nat2Z.inj_succ, Z.pow_succ_r in L by lia.
  assert (P : 1 <= 10 ^ Z.of_nat (length ds)) by lia. assert (D' : 0 <= d <= 9) by exact D.
  replace (48 + d - ch "0") with d by (change (ch "0") with 48; lia).
  rewrite s32_id by nia. apply IH; nia.
Qed.

Lemma decode_unsigned ds s : Forall digit ds -> (0 < length ds <= 9)%nat ->
  decode_int (map (Z.add 48) ds ++ s) (length ds) = number ds 0.
Proof.
  intros F L. pose proof (number_range ds 0 F ltac:(lia)) as R.
  assert (P : 10 ^ Z.of_nat (length ds) <= 10 ^ 9) by (apply Z.pow_le_mono_r; lia).
  unfold decode_int. destruct F as [|d ds D F]; [cbn in L; lia|]. assert (D' : 0 <= d <= 9) by exact D.
  cbn [map app deref hd]. change (ch "-") with 45. change (ch "+") with 43.
  rewrite (proj2 (Z.eqb_neq (48 + d) 45)), (proj2 (Z.eqb_neq (48 + d) 43)) by lia.
  change (48 + d :: map (Z.add 48) ds ++ s) with (map (Z.add 48) (d :: ds) ++ s).
  rewrite take_app_length' by (by rewrite length_map). rewrite decode_digits_number; [|by constructor|lia|lia].
  rewrite s32_id; lia.
Qed.

Lemma decode_signed (neg : bool) ds s : Forall digit ds -> (length ds <= 9)%nat ->
  decode_int ((if neg then 45 else 43) :: map (Z.add 48) ds ++ s) (S (length ds)) =
    if neg then - number ds 0 else number ds 0.
Proof.
  intros F L. pose proof (number_range ds 0 F ltac:(lia)) as R.
  assert (P : 10 ^ Z.of_nat (length ds) <= 10 ^ 9) by (apply Z.pow_le_mono_r; lia).
  assert (T : forall c, tl (take (S (length ds)) (c :: map (Z.add 48) ds ++ s)) = map (Z.add 48) ds).
  { intros c. cbn [take tl]. apply take_app_length'. by rewrite length_map. }
  unfold decode_int. destruct neg; cbn [deref hd]; rewrite T.
  - change (45 =? ch "-") with true. cbv iota. rewrite decode_digits_number by (done || lia). rewrite s32_id; lia.
  - change (43 =? ch "-") with false. change (43 =? ch "+") with true. cbv iota.
    rewrite decode_digits_number by (done || lia). rewrite s32_id; lia.
Qed.

(** ** Names *)

Lemma wday_cases (P : Z -> Prop) : P 0 -> P 1 -> P 2 -> P 3 -> P 4 -> P 5 -> P 6 -> forall w, 0 <= w < 7 -> P w.
Proof.
  intros P0 P1 P2 P3 P4 P5 P6 w H.
  assert (C : w = 0 \/ w = 1 \/ w = 2 \/ w = 3 \/ w = 4 \/ w = 5 \/ w = 6) by lia.
  by repeat destruct C as [->|C]; subst.
Qed.

(** A name that begins a token. *)
Record name3 (s : list Z) (i : Z) (names : list (list Z)) (flag : Z) : Prop := {
  name_len : length s = 3%nat;
  name_word : exists c w, s = c :: w /\ ((c =? ch " ") || (c =? 9)) = false /\ Forall (fun c => ends_token c = false) w;
  name_find : forall r, name_index (s ++ r) names 0 = i;
  name_class : unset (classes (tl s) (datetok_class (hd 0 s))) flag = true;
  name_alpha : unset (classes (tl s) (datetok_class (hd 0 s))) DATE_TOKEN_NON_NUMERIC = false
}.

Lemma wday_name w : 0 <= w < 7 -> name3 (nth (Z.to_nat w) tm_days []) w tm_days DATE_TOKEN_NON_WEEKDAY.
Proof.
  revert w. apply wday_cases; (split; [done| |intros r; reflexivity|done|done]); eexists _, _; (split; [reflexivity|]);
    (split; [done|]); repeat (constructor; [done|]); apply Forall_nil_2.
Qed.

Lemma month_name m : 0 <= m < 12 -> name3 (nth (Z.to_nat m) tm_months []) m tm_months DATE_TOKEN_NON_MONTH.
Proof.
  revert m. apply month_cases; (split; [done| |intros r; reflexivity|done|done]); eexists _, _; (split; [reflexivity|]);
    (split; [done|]); repeat (constructor; [done|]); apply Forall_nil_2.
Qed.

(** ** The standard form *)

Lemma add_digit v x : 0 <= v -> digit x -> v * 10 + 9 < 2 ^ 31 -> s32 (v * 10 + (48 + x - ch "0")) = v * 10 + x.
Proof. unfold digit. change (ch "0") with 48. intros V D L. rewrite s32_id; lia. Qed.

Lemma time_digit s x colons hour min sec : digit x -> time_loop (48 + x :: s) colons hour min sec =
  let add v := s32 (v * 10 + (48 + x - ch "0")) in
  if colons =? 0 then time_loop s colons (add hour) min sec
  else if colons =? 1 then time_loop s colons hour (add min) sec
  else time_loop s colons hour min (add sec).
Proof.
  intros D. cbn [time_loop]. rewrite (proj1 (digit_classes x D)). unfold digit in D.
  rewrite (proj2 (Z.eqb_neq (48 + x) (ch ":"))) by (change (ch ":") with 58; lia). done.
Qed.

Lemma time_hour s x v b c : digit x -> 0 <= v < 1000 -> time_loop (48 + x :: s) 0 v b c = time_loop s 0 (v * 10 + x) b c.
Proof. intros D V. rewrite time_digit by done. cbv zeta. cbn [Z.eqb]. rewrite add_digit by (done || lia). done. Qed.

Lemma time_min s x a v c : digit x -> 0 <= v < 1000 -> time_loop (48 + x :: s) 1 a v c = time_loop s 1 a (v * 10 + x) c.
Proof. intros D V. rewrite time_digit by done. cbv zeta. cbn. rewrite add_digit by (done || lia). done. Qed.

Lemma time_sec s x a b v : digit x -> 0 <= v < 1000 -> time_loop (48 + x :: s) 2 a b v = time_loop s 2 a b (v * 10 + x).
Proof. intros D V. rewrite time_digit by done. cbv zeta. cbn. rewrite add_digit by (done || lia). done. Qed.

Definition clock (h1 h2 m1 m2 s1 s2 : Z) : list Z := [48 + h1; 48 + h2; 58; 48 + m1; 48 + m2; 58; 48 + s1; 48 + s2].

Lemma get_time_std h1 h2 m1 m2 s1 s2 r : Forall digit [h1; h2; m1; m2; s1; s2] ->
  get_time (clock h1 h2 m1 m2 s1 s2 ++ r) 8 = Some (h1 * 10 + h2, m1 * 10 + m2, s1 * 10 + s2).
Proof.
  rewrite !Forall_cons_iff. intros (H1 & H2 & M1 & M2 & S1 & S2 & _). unfold get_time, clock. cbn [app take].
  assert (C : forall s a b c, time_loop (58 :: s) 0 a b c = time_loop s 1 a b c /\
    time_loop (58 :: s) 1 a b c = time_loop s 2 a b c) by done.
  pose proof H1; pose proof M1; pose proof S1. unfold digit in H, H0, H3.
  rewrite !time_hour by (done || lia). rewrite (proj1 (C _ _ _ _)).
  rewrite !time_min by (done || lia). rewrite (proj2 (C _ _ _ _)). rewrite !time_sec by (done || lia). done.
Qed.

(** The six tokens of a date written by [camel_header_format_date]. *)
Section Standard.
Context (w m d1 d2 y1 y2 y3 y4 h1 h2 m1 m2 s1 s2 z1 z2 z3 z4 : Z) (neg : bool).
Context (r1 r2 r3 r4 r5 : list Z).
Let wn := nth (Z.to_nat w) tm_days [].
Let mn := nth (Z.to_nat m) tm_months [].
Let D := number [d1; d2] 0.
Let Y := number [y1; y2; y3; y4] 0.
Let off := if neg then - number [z1; z2; z3; z4] 0 else number [z1; z2; z3; z4] 0.

Definition std_tokens : list date_token :=
  [Token (classes (tl wn) (datetok_class (hd 0 wn))) (wn ++ r1) 3; Token 38 (map (Z.add 48) [d1; d2] ++ r2) 2;
   Token (classes (tl mn) (datetok_class (hd 0 mn))) (mn ++ r3) 3; Token 38 (map (Z.add 48) [y1; y2; y3; y4] ++ r4) 4;
   Token 119 (clock h1 h2 m1 m2 s1 s2 ++ r5) 8;
   Token 175 ((if neg then 45 else 43) :: map (Z.add 48) [z1; z2; z3; z4] ++ []) 5].

Hypothesis (HW : 0 <= w < 7) (HM : 0 <= m < 12).
Hypothesis (HD : Forall digit [d1; d2; y1; y2; y3; y4; h1; h2; m1; m2; s1; s2; z1; z2; z3; z4]).
Hypothesis (HDV : 1 <= D <= 31) (HY : 1969 <= Y) (HO : off <> -1).

Lemma get_mday_std : get_mday (map (Z.add 48) [d1; d2] ++ r2) 2 = D.
Proof.
  unfold get_mday. rewrite (decode_unsigned [d1; d2]); [|revert HD; rewrite !Forall_cons_iff; tauto|cbn; lia].
  fold D. cbv zeta. rewrite (proj2 (Z.ltb_ge D 0)), Z.gtb_ltb, (proj2 (Z.ltb_ge 31 D)) by lia. done.
Qed.

Lemma get_year_std : get_year (map (Z.add 48) [y1; y2; y3; y4] ++ r4) 4 = Y.
Proof.
  unfold get_year. rewrite (decode_unsigned [y1; y2; y3; y4]); [|revert HD; rewrite !Forall_cons_iff; tauto|cbn; lia].
  fold Y. cbv zeta. rewrite (proj2 (Z.eqb_neq Y (-1))), (proj2 (Z.ltb_ge Y 100)), (proj2 (Z.ltb_ge Y 1969)) by lia. done.
Qed.

Lemma get_tzone_std rest : get_tzone (Token 175 ((if neg then 45 else 43) :: map (Z.add 48) [z1; z2; z3; z4] ++ []) 5 :: rest) = off.
Proof.
  unfold get_tzone. cbn [tzone_loop t_start t_len deref hd].
  replace (((if neg then 45 else 43) =? ch "+") || ((if neg then 45 else 43) =? ch "-")) with true by (by destruct neg).
  apply (decode_signed neg [z1; z2; z3; z4]); [revert HD; rewrite !Forall_cons_iff; tauto|cbn; lia].
Qed.

Definition std_tm : tm := Tm (s1 * 10 + s2) (m1 * 10 + m2) (h1 * 10 + h2) D m (Y - 1900) w.

Lemma parse_std `{Mktime} :
  parse_rfc822_date std_tokens = Some (camel_mktime_utc std_tm - (Z.quot off 100 * 60 * 60 + Z.rem off 100 * 60), off).
Proof.
  unfold parse_rfc822_date, std_tokens. cbn [t_start t_len].
  assert (GW : get_wday (wn ++ r1) 3 = w) by (unfold get_wday; cbn; apply (name_find _ _ _ _ (wday_name w HW))).
  assert (GM : get_month (mn ++ r3) 3 = m) by (unfold get_month; cbn; apply (name_find _ _ _ _ (month_name m HM))).
  rewrite GW, (proj2 (Z.eqb_neq w (-1))) by lia. cbn [t_start t_len].
  rewrite get_mday_std, (proj2 (Z.eqb_neq D (-1))) by lia. rewrite GM, (proj2 (Z.eqb_neq m (-1))) by lia.
  rewrite get_year_std, (proj2 (Z.eqb_neq Y (-1))) by lia. rewrite get_time_std by (revert HD; rewrite !Forall_cons_iff; tauto).
  assert (A : is_am ((if neg then 45 else 43) :: map (Z.add 48) [z1; z2; z3; z4] ++ []) ||
    is_pm_word ((if neg then 45 else 43) :: map (Z.add 48) [z1; z2; z3; z4] ++ []) = false) by (by destruct neg).
  rewrite A, get_tzone_std, (proj2 (Z.eqb_neq off (-1))) by done. done.
Qed.

Lemma not_am_pm x s : digit x -> is_am (48 + x :: s) || is_pm_word (48 + x :: s) = false.
Proof.
  intros D'. unfold is_am, is_pm_word, strncase_prefix. cbn [map]. destruct (digit_classes x D') as (_ & _ & _ & -> & _).
  unfold digit in D'. cbn [bs map prefix_eqb]. change (tolower (ch "A")) with 97. change (tolower (ch "P")) with 112.
  rewrite (proj2 (Z.eqb_neq 97 (48 + x))), (proj2 (Z.eqb_neq 112 (48 + x))) by lia. done.
Qed.

(** The number [d] of the month, before a token that is no number. *)
Lemma broken_mday gw gt pm o b t next : is_numeric t = false -> tm_mday b = 0 -> (gw = true) ->
  broken_step (Token 38 (map (Z.add 48) [d1; d2] ++ r2) 2) (t :: next) (Broken gw false gt pm o b) =
    Broken gw false gt pm o (with_mday D b).
Proof.
  intros N Z0 ->. unfold broken_step, is_weekday, is_month, is_time, is_tzone, is_tzone_alpha, is_tzone_numeric. cbn [t_mask t_start t_len].
  cbn [map app]. rewrite not_am_pm by (revert HD; rewrite !Forall_cons_iff; tauto). rewrite (andb_false_r (negb gt)).
  change (48 + d1 :: 48 + d2 :: r2) with (map (Z.add 48) [d1; d2] ++ r2).
  unfold broken_numeric. cbn [t_start t_len]. rewrite N, get_mday_std, Z0, (proj2 (Z.eqb_neq D (-1))) by lia. done.
Qed.

Lemma broken_year gm gt pm o b next : tm_year b = 0 ->
  broken_step (Token 38 (map (Z.add 48) [y1; y2; y3; y4] ++ r4) 4) next (Broken true gm gt pm o b) =
    Broken true gm gt pm o (with_year (Y - 1900) b).
Proof.
  intros Z0. unfold broken_step, is_weekday, is_month, is_time, is_tzone, is_tzone_alpha, is_tzone_numeric. cbn [t_mask t_start t_len].
  cbn [map app]. rewrite not_am_pm by (revert HD; rewrite !Forall_cons_iff; tauto). rewrite (andb_false_r (negb gt)).
  change (48 + y1 :: _) with (map (Z.add 48) [y1; y2; y3; y4] ++ r4).
  unfold broken_numeric. cbn [t_start t_len]. rewrite Z0, get_year_std, (proj2 (Z.eqb_neq Y (-1))) by lia. done.
Qed.

Lemma broken_time gt pm o b next : tm_hour b = 0 -> tm_min b = 0 -> tm_sec b = 0 ->
  broken_step (Token 119 (clock h1 h2 m1 m2 s1 s2 ++ r5) 8) next (Broken true true gt pm o b) =
    Broken true true gt pm o (with_time (h1 * 10 + h2) (m1 * 10 + m2) (s1 * 10 + s2) b).
Proof.
  intros Z1 Z2 Z3. unfold broken_step. cbn [t_start t_len].
  rewrite Z1, Z2, Z3, get_time_std by (revert HD; rewrite !Forall_cons_iff; tauto). done.
Qed.

Lemma broken_tz pm o b :
  broken_step (Token 175 ((if neg then 45 else 43) :: map (Z.add 48) [z1; z2; z3; z4] ++ []) 5) [] (Broken true true false pm o b) =
    Broken true true true pm off b.
Proof.
  unfold broken_step. rewrite get_tzone_std, (proj2 (Z.eqb_neq off (-1))) by done. destruct neg; done.
Qed.

Lemma broken_std `{Mktime} :
  parse_broken_date std_tokens = (camel_mktime_utc std_tm - (Z.quot off 100 * 60 * 60 + Z.rem off 100 * 60), off).
Proof.
  assert (GW : get_wday (wn ++ r1) 3 = w) by (unfold get_wday; cbn; apply (name_find _ _ _ _ (wday_name w HW))).
  assert (GM : get_month (mn ++ r3) 3 = m) by (unfold get_month; cbn; apply (name_find _ _ _ _ (month_name m HM))).
  unfold parse_broken_date, std_tokens. cbn [broken_loop].
  set (tw := Token _ (wn ++ r1) 3). set (tm := Token _ (mn ++ r3) 3).
  assert (E1 : forall next, broken_step tw next (Broken false false false false 0 zero_tm) =
    Broken true false false false 0 (with_wday w zero_tm)).
  { intros next. unfold broken_step, is_weekday, tw. cbn [t_mask t_start t_len].
    pose proof (name_class _ _ _ _ (wday_name w HW)) as C. fold wn in C. rewrite C, GW, (proj2 (Z.eqb_neq w (-1))) by lia. done. }
  assert (E3 : forall next b, broken_step tm next (Broken true false false false 0 b) =
    Broken true true false false 0 (with_mon m b)).
  { intros next b. unfold broken_step, is_month, tm. cbn [t_mask t_start t_len]. rewrite andb_false_r.
    pose proof (name_class _ _ _ _ (month_name m HM)) as C. fold mn in C. rewrite C, GM, (proj2 (Z.eqb_neq m (-1))) by lia. done. }
  rewrite E1, broken_mday; [|exact (name_alpha _ _ _ _ (month_name m HM))|done|done].
  rewrite E3, broken_year, broken_time by done. rewrite broken_tz. done.
Qed.

End Standard.

(** ** The text written and its tokens *)

Lemma tok_word fuel c w sep rest : ((c =? ch " ") || (c =? 9)) = false -> Forall (fun c => ends_token c = false) w ->
  ends_token sep = true ->
  datetok_loop (S fuel) (c :: w ++ sep :: rest) =
    Token (classes w (datetok_class c)) (c :: w ++ sep :: rest) (S (length w)) :: datetok_loop fuel rest.
Proof.
  intros C F E. cbn [datetok_loop skip_blanks]. rewrite C, scan_token_app by done. by rewrite Nat.add_1_r.
Qed.

Lemma tok_last fuel c w : ((c =? ch " ") || (c =? 9)) = false -> Forall (fun c => ends_token c = false) w ->
  datetok_loop (S fuel) (c :: w) = [Token (classes w (datetok_class c)) (c :: w) (S (length w))].
Proof.
  intros C F. cbn [datetok_loop skip_blanks]. rewrite C. rewrite <- (app_nil_r w) at 1.
  rewrite scan_token_app by done. by rewrite Nat.add_1_r.
Qed.

Lemma tok_blank fuel s : datetok_loop (S fuel) (32 :: s) = datetok_loop (S fuel) s.
Proof. done. Qed.

Lemma digits_no_end ds : Forall digit ds -> Forall (fun c => ends_token c = false) (map (Z.add 48) ds).
Proof. induction 1 as [|d ds D F IH]; [apply Forall_nil_2|]. cbn [map]. constructor; [|done]. apply (digit_classes d D). Qed.

Lemma classes_digits ds m : Forall digit ds -> ds <> [] -> classes (map (Z.add 48) ds) m = Z.lor m 38.
Proof.
  unfold classes. intros F. revert m. induction F as [|d ds D F IH]; intros m N; [done|]. cbn [map fold_left].
  destruct (digit_classes d D) as (_ & _ & -> & _). destruct ds as [|d' ds]; [done|].
  rewrite IH by done. by rewrite <- Z.lor_assoc.
Qed.

Lemma fmt_sign05_spec n : -9999 <= n <= 9999 -> fmt_sign05 n = (if n <? 0 then 45 else 43) :: fmt0 4 (Z.abs n).
Proof.
  intros R. unfold fmt_sign05, fmt0. rewrite (proj2 (Z.ltb_ge (Z.abs n) 0)) by lia. rewrite (Z.abs_eq (Z.abs n)) by lia.
  by destruct (n <? 0).
Qed.

Ltac all_digits := repeat (apply Forall_cons_iff; split; [done|]); apply Forall_nil_2.

Lemma clock_token h1 h2 m1 m2 s1 s2 : Forall digit [h1; h2; m1; m2; s1; s2] ->
  exists w, clock h1 h2 m1 m2 s1 s2 = 48 + h1 :: w /\ ((48 + h1 =? ch " ") || (48 + h1 =? 9)) = false /\
    Forall (fun c => ends_token c = false) w /\ classes w (datetok_class (48 + h1)) = 119 /\ length w = 7%nat.
Proof.
  rewrite !Forall_cons_iff. intros (H1 & H2 & M1 & M2 & S1 & S2 & _). eexists. split; [reflexivity|].
  split; [apply (digit_classes h1 H1)|]. split; [|split; [|done]].
  - repeat (apply Forall_cons_iff; split; [first [by apply digit_classes|done]|]). apply Forall_nil_2.
  - unfold classes. cbn [fold_left].
    repeat match goal with D : digit ?x |- context [datetok_class (48 + ?x)] =>
      rewrite (proj1 (proj2 (proj2 (digit_classes x D)))) end. done.
Qed.

(** The tokens of the standard form. *)
Lemma datetok_std w m d1 d2 y1 y2 y3 y4 h1 h2 m1 m2 s1 s2 z1 z2 z3 z4 neg :
  0 <= w < 7 -> 0 <= m < 12 ->
  Forall digit [d1; d2; y1; y2; y3; y4; h1; h2; m1; m2; s1; s2; z1; z2; z3; z4] ->
  let wn := nth (Z.to_nat w) tm_days [] in let mn := nth (Z.to_nat m) tm_months [] in
  let zone := (if (neg : bool) then 45 else 43) :: map (Z.add 48) [z1; z2; z3; z4] in
  let time := clock h1 h2 m1 m2 s1 s2 ++ 32 :: zone in
  let year := map (Z.add 48) [y1; y2; y3; y4] ++ 32 :: time in
  let month := mn ++ 32 :: year in
  let day := map (Z.add 48) [d1; d2] ++ 32 :: month in
  exists r1 r2 r3 r4 r5, datetok (wn ++ 44 :: 32 :: day) =
    std_tokens w m d1 d2 y1 y2 y3 y4 h1 h2 m1 m2 s1 s2 z1 z2 z3 z4 neg r1 r2 r3 r4 r5.
Proof.
  intros HW HM HD wn mn zone time year month day.
  rewrite !Forall_cons_iff in HD. destruct HD as (D1 & D2 & Y1 & Y2 & Y3 & Y4 & H1 & H2 & M1 & M2 & S1 & S2 & Z1 & Z2 & Z3 & Z4 & _).
  assert (NE : forall x, digit x -> ends_token (48 + x) = false) by (intros x X; apply (digit_classes x X)).
  assert (NB : forall x, digit x -> ((48 + x =? ch " ") || (48 + x =? 9)) = false) by (intros x X; apply (digit_classes x X)).
  exists (44 :: 32 :: day), (32 :: month), (32 :: year), (32 :: time), (32 :: zone).
  unfold datetok. set (fuel := length _).
  assert (FU : (5 <= fuel)%nat).
  { unfold fuel. rewrite length_app. cbn [length]. unfold day. rewrite length_app. cbn [length map]. lia. }
  clearbody fuel. do 5 (destruct fuel as [|fuel]; [lia|]). clear FU.
  destruct (wday_name w HW) as [LW (cw & ww & EW & BW & NW) _ _ _]. fold wn in LW, EW.
  destruct (month_name m HM) as [LM (cm & wm & EM & BM & NM) _ _ _]. fold mn in LM, EM.
  unfold std_tokens. fold wn mn. rewrite EW, EM. cbn [app hd].
  rewrite tok_word, tok_blank by done. f_equal; [by rewrite EW in LW; cbn in LW; f_equal|].
  assert (DF : forall ds, Forall digit ds -> ds <> [] -> Forall (fun c => ends_token c = false) (map (Z.add 48) ds) /\
    forall x, digit x -> classes (map (Z.add 48) ds) (datetok_class (48 + x)) = 38).
  { intros ds F N. split; [by apply digits_no_end|]. intros x X. rewrite classes_digits by done.
    by destruct (digit_classes x X) as (_ & _ & -> & _). }
  destruct (DF [d2]) as [NE1 C1]; [all_digits|done|].
  destruct (DF [y2; y3; y4]) as [NE2 C2]; [all_digits|done|].
  destruct (DF [z1; z2; z3; z4]) as [NE3 _]; [all_digits|done|].
  unfold day. change (map (Z.add 48) [d1; d2] ++ 32 :: month) with (48 + d1 :: map (Z.add 48) [d2] ++ 32 :: month).
  rewrite tok_word, C1 by auto. f_equal.
  unfold month. rewrite EM. cbn [app]. rewrite tok_word by done. f_equal; [by rewrite EM in LM; cbn in LM; f_equal|].
  unfold year. change (map (Z.add 48) [y1; y2; y3; y4] ++ 32 :: time) with (48 + y1 :: map (Z.add 48) [y2; y3; y4] ++ 32 :: time).
  rewrite tok_word, C2 by auto. f_equal.
  unfold time. destruct (clock_token h1 h2 m1 m2 s1 s2) as (wt & ET & BT & NT & CT & LT); [all_digits|].
  rewrite ET. cbn [app]. rewrite tok_word by done. f_equal; [rewrite CT; by injection ET as <-|].
  unfold zone. rewrite tok_last; [|by destruct neg|done]. rewrite app_nil_r. do 2 f_equal.
  destruct neg; [change (datetok_class 45) with 175|change (datetok_class 43) with 175]; rewrite classes_digits by (done || all_digits); done.
Qed.

Lemma format_std d off : let b := gmtime (d + offset_seconds off) in
  0 <= tm_year b + 1900 <= 9999 -> -9999 <= off <= 9999 ->
  let y := tm_year b + 1900 in let a := Z.abs off in
  camel_header_format_date d off =
    nth (Z.to_nat (tm_wday b)) tm_days [] ++ 44 :: 32 :: map (Z.add 48) [tm_mday b / 10; tm_mday b mod 10] ++
    32 :: nth (Z.to_nat (tm_mon b)) tm_months [] ++
    32 :: map (Z.add 48) [y / 1000; y / 100 mod 10; y / 10 mod 10; y mod 10] ++
    32 :: clock (tm_hour b / 10) (tm_hour b mod 10) (tm_min b / 10) (tm_min b mod 10) (tm_sec b / 10) (tm_sec b mod 10) ++
    32 :: (if off <? 0 then 45 else 43) :: map (Z.add 48) [a / 1000; a / 100 mod 10; a / 10 mod 10; a mod 10].
Proof.
  intros b HY HO y a. unfold camel_header_format_date.
  replace (d + (Z.quot off 100 * (60 * 60) + Z.rem off 100 * 60)) with (d + offset_seconds off) by (unfold offset_seconds; lia).
  cbv zeta. fold b. destruct (gmtime_valid (d + offset_seconds off)) as ((MO & MD) & HH & MI & SE). fold b in MO, MD, HH, MI, SE.
  pose proof (days_before_month_vals (is_leap (tm_year b + 1900)) (tm_mon b) MO) as (_ & DM & _).
  rewrite !fmt0_2 by lia. rewrite fmt0_4 by lia. rewrite fmt_sign05_spec, fmt0_4 by lia. done.
Qed.

Lemma gmtime_wday t : 0 <= tm_wday (gmtime t) < 7.
Proof. unfold gmtime. destruct (civil_from_days _) as [[y m] d]. cbn. Z.to_euclidean_division_equations; lia. Qed.

Lemma digit_split n : 0 <= n < 100 -> digit (n / 10) /\ digit (n mod 10) /\ n / 10 * 10 + n mod 10 = n.
Proof. unfold digit. intros H. Z.to_euclidean_division_equations; lia. Qed.

Lemma digit_split4 n : 0 <= n < 10000 -> digit (n / 1000) /\ digit (n / 100 mod 10) /\ digit (n / 10 mod 10) /\
  digit (n mod 10) /\ number [n / 1000; n / 100 mod 10; n / 10 mod 10; n mod 10] 0 = n.
Proof. unfold digit, number. cbn [fold_left]. intros H. Z.to_euclidean_division_equations; lia. Qed.

(** C37. A date written by [camel_header_format_date] is read back by
    [camel_header_decode_date], time and offset, in whatever zone the program
    runs: for the years 1969 to 9999 and four-digit offsets, where mktime(3)
    knows the local time with these fields.  The offset -1, written "-0001", is
    the value the parser has for an error. *)
Theorem date_roundtrip `{Mktime} d off : let b := gmtime (d + offset_seconds off) in
  (let '(t, gmtoff) := mktime b in t + gmtoff = timegm b) ->
  1969 <= tm_year b + 1900 <= 9999 -> -9999 <= off <= 9999 -> off <> -1 ->
  camel_header_decode_date (Some (camel_header_format_date d off)) = (d, off).
Proof.
  intros b HL HY HO HN. unfold camel_header_decode_date. rewrite format_std by (fold b; lia). fold b. cbv zeta.
  destruct (gmtime_valid (d + offset_seconds off)) as ((MO & MD) & HH & MI & SE). fold b in MO, MD, HH, MI, SE.
  pose proof (days_before_month_vals (is_leap (tm_year b + 1900)) (tm_mon b) MO) as (_ & DM & _).
  pose proof (gmtime_wday (d + offset_seconds off)) as HW. fold b in HW.
  set (y := tm_year b + 1900) in *. set (a := Z.abs off) in *.
  destruct (digit_split (tm_mday b)) as (A1 & A2 & A3); [lia|]. destruct (digit_split (tm_hour b)) as (B1 & B2 & B3); [lia|].
  destruct (digit_split (tm_min b)) as (C1 & C2 & C3); [lia|]. destruct (digit_split (tm_sec b)) as (D1 & D2 & D3); [lia|].
  destruct (digit_split4 y) as (E1 & E2 & E3 & E4 & E5); [lia|]. destruct (digit_split4 a) as (F1 & F2 & F3 & F4 & F5); [lia|].
  assert (OFF : (if off <? 0 then - a else a) = off) by (unfold a; destruct (Z.ltb_spec off 0); lia).
  edestruct (datetok_std (tm_wday b) (tm_mon b)) as (r1 & r2 & r3 & r4 & r5 & ->); [done|done|all_digits|].
  set (toks := std_tokens _ _ _ _ _ _ _ _ _ _ _ _ _ _ _ _ _ _ _ _ _ _ _ _).
  assert (TM : camel_mktime_utc b - (Z.quot off 100 * 60 * 60 + Z.rem off 100 * 60) = d).
  { unfold camel_mktime_utc. destruct (mktime b) as [t g]. rewrite HL. unfold b. rewrite timegm_gmtime.
    unfold offset_seconds. lia. }
  assert (PB : parse_rfc822_date toks = Some (d, off) /\ parse_broken_date toks = (d, off)).
  { rewrite <- TM at 1 2.
    pose proof (parse_std (tm_wday b) (tm_mon b) (tm_mday b / 10) (tm_mday b mod 10) (y / 1000) (y / 100 mod 10) (y / 10 mod 10) (y mod 10)
      (tm_hour b / 10) (tm_hour b mod 10) (tm_min b / 10) (tm_min b mod 10) (tm_sec b / 10) (tm_sec b mod 10)
      (a / 1000) (a / 100 mod 10) (a / 10 mod 10) (a mod 10) (off <? 0) r1 r2 r3 r4 r5 HW MO) as P.
    pose proof (broken_std (tm_wday b) (tm_mon b) (tm_mday b / 10) (tm_mday b mod 10) (y / 1000) (y / 100 mod 10) (y / 10 mod 10) (y mod 10)
      (tm_hour b / 10) (tm_hour b mod 10) (tm_min b / 10) (tm_min b mod 10) (tm_sec b / 10) (tm_sec b mod 10)
      (a / 1000) (a / 100 mod 10) (a / 10 mod 10) (a mod 10) (off <? 0) r1 r2 r3 r4 r5 HW MO) as B.
    fold toks in P, B. unfold std_tm in P, B. rewrite F5, E5, OFF, B3, C3, D3 in P, B.
    replace (number [tm_mday b / 10; tm_mday b mod 10] 0) with (tm_mday b) in P, B by (unfold number; cbn [fold_left]; lia).
    replace (y - 1900) with (tm_year b) in P, B by (unfold y; lia).
    replace (Tm (tm_sec b) (tm_min b) (tm_hour b) (tm_mday b) (tm_mon b) (tm_year b) (tm_wday b)) with b in P, B by (by destruct b).
    split; [apply P|apply B]; try all_digits; try done; lia. }
  destruct toks as [|t0 ts] eqn:ET; [discriminate|]. destruct PB as [-> ->]. by destruct (d =? 0).
Qed.

(** The zones of the C library that never skip a local time: UTC and a fixed
    offset. *)
Definition mktime_at (gmtoff : Z) : Mktime := fun b => (timegm b - gmtoff, gmtoff).

Lemma date_roundtrip_witness :
  @camel_header_decode_date (mktime_at 3600) (Some (camel_header_format_date 1698853830 (-530))) = (1698853830, -530).
Proof. apply (@date_roundtrip (mktime_at 3600)); [vm_compute; reflexivity| | |]; vm_compute; try split; congruence. Defined.

Lemma datetok_table_macros_witness : datetok_class (ch "o") = class_of (ch "o").
Proof. apply datetok_table_macros. vm_compute. split; reflexivity. Defined.
