(* ===== verification/CamelUrl.v ===== *)
(** * CamelUrl: URLs (camel/camel-url.c)

    [camel_url_new_with_base] parses a URL relative to a base, as RFC 1808 says;
    [camel_url_to_string] writes one.  A C string is the list of its bytes, none
    of them NUL; a pointer into it is an offset.  GLib's keyed data list is an
    association list, a new key at its end. *)

From Stdlib Require Import ZArith Lia Ascii.
From stdpp Require Import base list strings numbers.
From S2P Require Import Prelude.

(** ** Percent-encoding *)

(** The upper half of the table is 1 throughout. *)
Definition url_encoded_char : list Z :=
  [1; 1; 1; 1; 1; 1; 1; 1; 1; 1; 1; 1; 1; 1; 1; 1;
   1; 1; 1; 1; 1; 1; 1; 1; 1; 1; 1; 1; 1; 1; 1; 1;
   1; 0; 1; 1; 0; 1; 0; 0; 0; 0; 0; 0; 0; 0; 0; 0;
   0; 0; 0; 0; 0; 0; 0; 0; 0; 0; 0; 0; 1; 0; 1; 0;
   0; 0; 0; 0; 0; 0; 0; 0; 0; 0; 0; 0; 0; 0; 0; 0;
   0; 0; 0; 0; 0; 0; 0; 0; 0; 0; 0; 1; 1; 1; 1; 0;
   1; 0; 0; 0; 0; 0; 0; 0; 0; 0; 0; 0; 0; 0; 0; 0;
   0; 0; 0; 0; 0; 0; 0; 0; 0; 0; 0; 1; 1; 1; 0; 1] ++ replicate 128 1.

(** "%02x". *)
Definition hex_digit (x : Z) : Z := if x <? 10 then 48 + x else 87 + x.
Definition fmt_02x (c : Z) : list Z := [hex_digit (c / 16); hex_digit (c mod 16)].

Definition must_encode (extra : list Z) (c : Z) : bool :=
  negb (nth (Z.to_nat c) url_encoded_char 0 =? 0) || existsb (Z.eqb c) extra.

(** What is appended; [extra_enc_chars] is empty for NULL. *)
Fixpoint append_url_encoded (s extra_enc_chars : list Z) : list Z :=
  match s with
  | [] => []
  | c :: s' =>
      (if must_encode extra_enc_chars c then ch "%" :: fmt_02x c else [c]) ++
      append_url_encoded s' extra_enc_chars
  end.

Definition camel_url_encode (part : list Z) (escape_extra : option (list Z)) : list Z :=
  append_url_encoded part (default [] escape_extra).

Definition XDIGIT (c : Z) : Z := if c <=? 57 then c - 48 else Z.land c 79 - 65 + 10.

(** The buffer after the loop. *)
Fixpoint decode_loop (s : list Z) : list Z :=
  match s with
  | [] => []
  | c :: s' =>
      match s' with
      | a :: b :: s'' =>
          if (c =? ch "%") && isxdigit a && isxdigit b
          then u8 (u8 (Z.shiftl (XDIGIT a) 4) + XDIGIT b) :: decode_loop s''
          else c :: decode_loop s'
      | _ => c :: decode_loop s'
      end
  end.

(** The string it holds: "%00" ends it. *)
Definition camel_url_decode (part : list Z) : list Z := cstr (decode_loop part).

(** ** URLs *)

Record CamelURL := URL {
  protocol : option (list Z); user : option (list Z); authmech : option (list Z); host : option (list Z);
  port : Z; path : option (list Z); params : list (list Z * list Z); query : option (list Z);
  fragment : option (list Z) }.

Definition url_new0 : CamelURL := URL None None None None 0 None [] None None.

Definition camel_url_set_protocol (u : CamelURL) (x : option (list Z)) := URL x (user u) (authmech u) (host u) (port u) (path u) (params u) (query u) (fragment u).
Definition camel_url_set_user (u : CamelURL) (x : option (list Z)) := URL (protocol u) x (authmech u) (host u) (port u) (path u) (params u) (query u) (fragment u).
Definition camel_url_set_authmech (u : CamelURL) (x : option (list Z)) := URL (protocol u) (user u) x (host u) (port u) (path u) (params u) (query u) (fragment u).
Definition camel_url_set_host (u : CamelURL) (x : option (list Z)) := URL (protocol u) (user u) (authmech u) x (port u) (path u) (params u) (query u) (fragment u).
Definition camel_url_set_port (u : CamelURL) (x : Z) := URL (protocol u) (user u) (authmech u) (host u) x (path u) (params u) (query u) (fragment u).
Definition camel_url_set_path (u : CamelURL) (x : option (list Z)) := URL (protocol u) (user u) (authmech u) (host u) (port u) x (params u) (query u) (fragment u).
Definition set_params (u : CamelURL) (x : list (list Z * list Z)) := URL (protocol u) (user u) (authmech u) (host u) (port u) (path u) x (query u) (fragment u).
Definition camel_url_set_query (u : CamelURL) (x : option (list Z)) := URL (protocol u) (user u) (authmech u) (host u) (port u) (path u) (params u) x (fragment u).
Definition camel_url_set_fragment (u : CamelURL) (x : option (list Z)) := URL (protocol u) (user u) (authmech u) (host u) (port u) (path u) (params u) (query u) x.

(** [g_datalist_set_data_full]: in place, or at the end. *)
Fixpoint datalist_set (l : list (list Z * list Z)) (key value : list Z) : list (list Z * list Z) :=
  match l with
  | [] => [(key, value)]
  | (k, v) :: l' => if bytes_eqb k key then (k, value) :: l' else (k, v) :: datalist_set l' key value
  end.

Definition datalist_remove (l : list (list Z * list Z)) (key : list Z) : list (list Z * list Z) :=
  List.filter (fun kv => negb (bytes_eqb (fst kv) key)) l.

Fixpoint datalist_get (l : list (list Z * list Z)) (key : list Z) : option (list Z) :=
  match l with
  | [] => None
  | (k, v) :: l' => if bytes_eqb k key then Some v else datalist_get l' key
  end.

Definition camel_url_set_param (u : CamelURL) (name : list Z) (value : option (list Z)) : CamelURL :=
  set_params u (match value with Some v => datalist_set (params u) name v | None => datalist_remove (params u) name end).

Definition camel_url_get_param (u : CamelURL) (name : list Z) : option (list Z) := datalist_get (params u) name.

Definition copy_param (copy : list (list Z * list Z)) (kv : list Z * list Z) : list (list Z * list Z) :=
  datalist_set copy (fst kv) (snd kv).

Definition camel_url_copy (u : CamelURL) : CamelURL :=
  URL (protocol u) (user u) (authmech u) (host u) (port u) (path u) (fold_left copy_param (params u) []) (query u) (fragment u).

(** ** Writing *)

Definition CAMEL_URL_HIDE_PARAMS : Z := Z.shiftl 1 0.
Definition CAMEL_URL_HIDE_AUTH : Z := Z.shiftl 1 1.
Definition CAMEL_URL_HIDE_ALL : Z := Z.lor CAMEL_URL_HIDE_PARAMS CAMEL_URL_HIDE_AUTH.
Definition has_flag (flags f : Z) : bool := negb (Z.land flags f =? 0).

Definition output_param (kv : list Z * list Z) : list Z :=
  ch ";" :: append_url_encoded (fst kv) (bs "?=") ++
  match snd kv with [] => [] | v => ch "=" :: append_url_encoded v (bs "?") end.

Definition non_null {A} (o : option A) : bool := match o with Some _ => true | None => false end.
Definition non_empty {A} (l : list A) : bool := match l with [] => false | _ => true end.

Definition camel_url_to_string (u : CamelURL) (flags : Z) : list Z :=
  match protocol u with Some p => p ++ bs ":" | None => [] end ++
  match host u with
  | None => []
  | Some h =>
      bs "//" ++
      match user u with
      | None => []
      | Some usr =>
          append_url_encoded usr (bs ":;@/") ++
          match authmech u with
          | Some a => if non_empty a && negb (has_flag flags CAMEL_URL_HIDE_AUTH)
                      then bs ";auth=" ++ append_url_encoded a (bs ":@/") else []
          | None => []
          end ++ bs "@"
      end ++
      append_url_encoded h (bs ":/") ++
      (if port u =? 0 then [] else ch ":" :: fmt_d (port u)) ++
      (if negb (non_null (path u)) && (non_empty (params u) || non_null (query u) || non_null (fragment u))
       then bs "/" else [])
  end ++
  match path u with Some p => append_url_encoded p (bs ";?") | None => [] end ++
  (if non_empty (params u) && negb (has_flag flags CAMEL_URL_HIDE_PARAMS)
   then concat (map output_param (params u)) else []) ++
  match query u with Some q => ch "?" :: append_url_encoded q [] | None => [] end ++
  match fragment u with Some f => ch "#" :: append_url_encoded f [] | None => [] end.

(** ** Parsing *)

(** [strcspn (s, "/#")]. *)
Definition cspn_slash (s : list Z) : nat :=
  default (length s) (index_where (fun c => (c =? ch "/") || (c =? ch "#")) s).

(** The characters of a protocol. *)
Definition is_proto (c : Z) : bool := isalnum c || (c =? ch ".") || (c =? ch "+") || (c =? ch "-").
Fixpoint proto_length (s : list Z) : nat :=
  match s with c :: s' => if is_proto c then S (proto_length s') else O | [] => O end.

(** The user part before [at]; [s] is the text after "//". *)
Definition parse_user (s : list Z) (at_ : nat) : list Z * option (list Z) :=
  let colon := match strchr s (ch ":") with Some c => if (c <? at_)%nat then c else at_ | None => at_ end in
  let no_auth := (camel_url_decode (take colon s), None) in
  match strchr s (ch ";") with
  | Some semi =>
      if (semi <? colon)%nat && strncase_prefix (drop semi s) (bs ";auth=")
      then (camel_url_decode (take semi s), Some (camel_url_decode (take (colon - semi - 6) (drop (semi + 6) s))))
      else no_auth
  | None => no_auth
  end.

(** The host and port before [slash]. *)
Definition parse_host (s : list Z) (slash : nat) : list Z * Z :=
  match strchr s (ch ":") with
  | Some colon =>
      if (colon <? slash)%nat then (take colon s, s32 (strtoul (drop (S colon) s)))
      else (camel_url_decode (take slash s), 0)
  | None => (camel_url_decode (take slash s), 0)
  end.

(** The authority and what is left. *)
Definition parse_authority (u : CamelURL) (s : list Z) : CamelURL * list Z :=
  let slash := cspn_slash s in
  let '(u, s, slash) :=
    match strchr s (ch "@") with
    | Some at_ =>
        if (at_ <? slash)%nat then
          let '(usr, auth) := parse_user s at_ in
          (camel_url_set_user (camel_url_set_authmech u auth) (Some usr), drop (S at_) s, (slash - S at_)%nat)
        else (u, s, slash)
    | None => (u, s, slash)
    end in
  let '(h, p) := parse_host s slash in
  (camel_url_set_port (camel_url_set_host u (Some h)) p, drop slash s).

Definition parse_param (s : list Z) : list Z * list Z :=
  match strchr s (ch "=") with
  | Some eq => (camel_url_decode (take eq s), camel_url_decode (drop (S eq) s))
  | None => (camel_url_decode s, [])
  end.

(** The parameters from [cur] to [end]. *)
Fixpoint params_loop (fuel : nat) (cur : list Z) (l : list (list Z * list Z)) : list (list Z * list Z) :=
  match fuel with
  | O => l
  | S fuel =>
      match cur with
      | [] => l
      | _ =>
          let p := default (length cur) (strchr cur (ch ";")) in
          let '(name, value) := parse_param (take p cur) in
          params_loop fuel (drop (S p) cur) (datalist_set l name value)
      end
  end.

(** The text before '#' and the fragment. *)
Definition split_fragment (s : list Z) : list Z * option (list Z) :=
  match strchr s (ch "#") with
  | Some hash => (take hash s, match drop (S hash) s with [] => None | f => Some (camel_url_decode f) end)
  | None => (s, None)
  end.

(** The query and the text before it; [more] says that a '#' follows. *)
Definition parse_query (u : CamelURL) (s : list Z) (more : bool) : CamelURL * list Z :=
  match strchr s (ch "?") with
  | Some question =>
      let q := drop (S question) s in
      (if non_empty q || more then camel_url_set_query u (Some (camel_url_decode q)) else u, take question s)
  | None => (u, s)
  end.

(** The parameters and the text before them. *)
Definition parse_params (u : CamelURL) (s : list Z) : CamelURL * list Z :=
  match strchr s (ch ";") with
  | Some semi => let q := drop (S semi) s in (set_params u (params_loop (length q) q []), take semi s)
  | None => (u, s)
  end.

(** Query, parameters and path of the text between the authority and the end. *)
Definition parse_rest (u : CamelURL) (s : list Z) (more : bool) : CamelURL :=
  let '(u, s) := parse_query u s more in
  let '(u, s) := parse_params u s in
  if non_empty s then camel_url_set_path u (Some (camel_url_decode s)) else u.

(** *** Relative to a base *)

(** Remove "./" where "." is a complete segment; [prev] is the character before [p]. *)
Fixpoint remove_dots (prev : Z) (p : list Z) : list Z :=
  match p with
  | [] => []
  | c :: p' =>
      match p' with
      | d :: p'' => if (prev =? ch "/") && (c =? ch ".") && (d =? ch "/") then remove_dots prev p''
                    else c :: remove_dots c p'
      | [] => [c]
      end
  end.

(** Remove "." at the end. *)
Definition remove_last_dot (s : list Z) : list Z :=
  let n := length s in
  if (2 <? n)%nat && (nth (n - 1) s 0 =? ch ".") && (nth (n - 2) s 0 =? ch "/") then take (n - 1) s else s.

(** Remove "<segment>/../" where <segment> is not "..": [first] is the first
    character, [before] what is between it and [p]. *)
Fixpoint remove_dotdots (fuel : nat) (first : list Z) (before p : list Z) : list Z :=
  match fuel with
  | O => first ++ before ++ p
  | S fuel =>
      match p with
      | [] => first ++ before
      | _ =>
          if prefix_eqb (bs "../") p then remove_dotdots fuel first (before ++ take 3 p) (drop 3 p)
          else
            match strchr (drop 1 p) (ch "/") with
            | None => first ++ before ++ p
            | Some i =>
                let q := S i in
                if negb (prefix_eqb (bs "/../") (drop q p))
                then remove_dotdots fuel first (before ++ take (S q) p) (drop (S q) p)
                else remove_dotdots fuel first [] (before ++ drop (q + 4) p)
            end
      end
  end.

(** Enough rounds: each moves on or takes four characters off and starts again. *)
Definition dotdots_fuel (s : list Z) : nat := S (length s) * S (length s).

Definition strrchr_slash (s : list Z) : option nat :=
  (fun i => length s - 1 - i)%nat <$> strchr (rev s) (ch "/").

(** [while (p > newpath && *p != '/') p--;] *)
Fixpoint back_to_slash (s : list Z) (p : nat) : nat :=
  match p with
  | O => O
  | S p' => if nth p s 0 =? ch "/" then p else back_to_slash s p'
  end.

(** Remove "<segment>/.." at the end; [None] when the byte before the buffer is
    read. *)
Definition remove_last_dotdot (s : list Z) : option (list Z) :=
  match strrchr_slash s with
  | Some q =>
      if bytes_eqb (drop q s) (bs "/..") then
        match q with
        | O => None
        | S p =>
            let p := back_to_slash s p in
            Some (if prefix_eqb (bs "/../") (drop p s) then s else take (S p) s)
        end
      else Some s
  | None => Some s
  end.

Definition remove_all_dotdots (s : list Z) : list Z := remove_dotdots (dotdots_fuel s) (take 1 s) [] (drop 1 s).

(** The path of the base up to its last slash with [p], without its "./" and
    "<segment>/../". *)
Definition merge_path (base_path : option (list Z)) (p : list Z) : list Z :=
  let newpath :=
    match base_path ≫= fun b => (fun l => take l b) <$> strrchr_slash b with
    | Some dir => dir ++ bs "/" ++ p
    | None => bs "/" ++ p
    end in
  let newpath := match newpath with c :: s => c :: remove_dots c s | [] => [] end in
  remove_all_dotdots (remove_last_dot newpath).

Definition resolve_path (base_path : option (list Z)) (p : list Z) : option (list Z) :=
  remove_last_dotdot (merge_path base_path p).

Definition apply_base (base u : CamelURL) : option CamelURL :=
  if non_null (protocol u) then Some u
  else if non_null (host u) then Some (camel_url_set_protocol u (protocol base))
  else
    let u :=
      if negb (non_null (user u)) && negb (non_null (authmech u)) && negb (non_null (host u)) && (port u =? 0) &&
         negb (non_null (path u)) && negb (non_empty (params u)) && negb (non_null (query u)) && negb (non_null (fragment u))
      then camel_url_set_fragment u (fragment base) else u in
    let u := URL (protocol base) (user base) (authmech base) (host base) (port base) (path u) (params u) (query u) (fragment u) in
    match path u with
    | None =>
        let u := camel_url_set_path u (path base) in
        Some (if non_empty (params u) then u
              else
                let u := set_params u (fold_left copy_param (params base) (params u)) in
                if non_null (query u) then u else camel_url_set_query u (query base))
    | Some p =>
        if negb (nth 0 p 0 =? ch "/")
        then newpath ← resolve_path (path base) p; Some (camel_url_set_path u (Some newpath))
        else Some u
    end.

(** [None] when a byte outside of a buffer is read. *)
Definition camel_url_new_with_base (base : option CamelURL) (url_string : list Z) : option CamelURL :=
  let '(body, frag) := split_fragment url_string in
  let more := non_null (strchr url_string (ch "#")) in
  let n := proto_length body in
  let '(proto, s) :=
    if (0 <? n)%nat && (nth n url_string 0 =? ch ":") then (Some (map tolower (take n body)), drop (S n) body)
    else (None, body) in
  let u := camel_url_set_fragment (camel_url_set_protocol url_new0 proto) frag in
  if negb (non_empty s) && negb more && negb (non_null base) then Some u
  else
    let '(u, s) := if prefix_eqb (bs "//") s then parse_authority u (drop 2 s) else (u, s) in
    let u := parse_rest u s more in
    match base with Some b => apply_base b u | None => Some u end.

(** The outer option is a read outside of a buffer, the inner one the error. *)
Definition camel_url_new (url_string : option (list Z)) : option (option CamelURL) :=
  match url_string with
  | None | Some [] => Some None
  | Some s =>
      u ← camel_url_new_with_base None s;
      Some (if non_null (protocol u) then Some u else None)
  end.

(** ** Comparing *)

Definition check_equal (a b : option (list Z)) : bool :=
  match a, b with
  | None, None => true
  | Some x, Some y => bytes_eqb x y
  | _, _ => false
  end.

Definition camel_url_equal (u u2 : CamelURL) : bool :=
  check_equal (protocol u) (protocol u2) && check_equal (user u) (user u2) && check_equal (authmech u) (authmech u2) &&
  check_equal (host u) (host u2) && check_equal (path u) (path u2) && check_equal (query u) (query u2) &&
  (port u =? port u2).

(** GLib's hash of a string. *)
Class StrHash := g_str_hash : list Z -> Z.

Definition camel_url_hash `{StrHash} (u : CamelURL) : Z :=
  let add h s := match s with Some x => Z.lxor h (g_str_hash x) | None => h end in
  Z.lxor (add (add (add (add (add (add 0 (protocol u)) (user u)) (authmech u)) (host u)) (path u)) (query u)) (u32 (port u)).

(** ** Decoding a path by its components *)

(** [g_strsplit (s, "/", -1)] of a text that is not empty. *)
Fixpoint strsplit (s cur : list Z) : list (list Z) :=
  match s with
  | [] => [cur]
  | c :: s' => if c =? ch "/" then cur :: strsplit s' [] else strsplit s' (cur ++ [c])
  end.

Definition camel_url_decode_path (p : option (list Z)) : list Z :=
  match p with
  | None | Some [] => []
  | Some s =>
      match strsplit s [] with
      | [] => []
      | comp :: comps =>
          camel_url_decode comp ++ concat (map (fun c => ch "/" :: camel_url_decode c) comps)
      end
  end.

(** ** Percent-encoding and its inverse *)

Definition nonzero_byte (c : Z) : Prop := 0 < c < 256.
Abbreviation text := (Forall nonzero_byte).

Lemma cstr_text s : text s -> cstr s = s.
Proof.
  intros T. apply cstr_id. induction T as [|c s C T IH]; constructor; [unfold nonzero_byte in C; lia|done].
Qed.

(** A character that no escape contains. *)
Definition special (c : Z) : bool := negb (c =? ch "%") && negb (isxdigit c).

Lemma fmt_02x_spec c : is_byte c -> forallb isxdigit (fmt_02x c) = true /\
  u8 (u8 (Z.shiftl (XDIGIT (hex_digit (c / 16))) 4) + XDIGIT (hex_digit (c mod 16))) = c.
Proof.
  intros B.
  by_bytes (fun c => forallb isxdigit (fmt_02x c) &&
    (u8 (u8 (Z.shiftl (XDIGIT (hex_digit (c / 16))) 4) + XDIGIT (hex_digit (c mod 16))) =? c)) c B.
  apply andb_true_iff in K as [K1 K2]. apply Z.eqb_eq in K2. done.
Qed.

Lemma percent_encoded extra : must_encode extra (ch "%") = true.
Proof. done. Qed.

Lemma decode_append s extra r : text s ->
  decode_loop (append_url_encoded s extra ++ r) = s ++ decode_loop r.
Proof.
  induction 1 as [|c s C F IH]; [done|]. cbn [append_url_encoded].
  destruct (must_encode extra c) eqn:E.
  - unfold fmt_02x. rewrite <- app_assoc. cbn [app decode_loop].
    destruct (fmt_02x_spec c) as [X Y]; [unfold nonzero_byte, is_byte in *; lia|].
    cbn [fmt_02x forallb] in X. apply andb_true_iff in X as [X1 X2]. rewrite andb_true_r in X2.
    change (ch "%" =? ch "%") with true. rewrite X1, X2, Y. cbn [andb]. by rewrite IH.
  - cbn [app decode_loop].
    assert (N : (c =? ch "%") = false) by (apply Z.eqb_neq; intros ->; by rewrite percent_encoded in E).
    destruct (append_url_encoded s extra ++ r) as [|a [|b t]] eqn:T; rewrite <- IH; [done|done|].
    by rewrite N.
Qed.

(** What [camel_url_encode] escapes, whatever the extra characters,
    [camel_url_decode] gives back. *)
Theorem url_decode_encode s extra : text s -> camel_url_decode (camel_url_encode s extra) = s.
Proof.
  intros T. unfold camel_url_decode, camel_url_encode. rewrite <- (app_nil_r (append_url_encoded _ _)).
  rewrite decode_append by done. cbn [decode_loop]. rewrite app_nil_r. by apply cstr_text.
Qed.

Lemma decode_encode s extra : text s -> camel_url_decode (append_url_encoded s extra) = s.
Proof.
  intros T. unfold camel_url_decode. rewrite <- (app_nil_r (append_url_encoded _ _)).
  rewrite decode_append by done. cbn [decode_loop]. rewrite app_nil_r. by apply cstr_text.
Qed.

(** The encoded text is free of a character that is escaped, or absent. *)
Abbreviation free c := (Forall (fun x : Z => (c =? x) = false)).

Lemma encoded_free c s extra : special c = true -> text s -> must_encode extra c = true \/ free c s ->
  free c (append_url_encoded s extra).
Proof.
  intros SP T. apply andb_true_iff in SP as [S1 S2]. apply negb_true_iff in S1, S2. apply Z.eqb_neq in S1.
  induction T as [|x s X T IH]; intros D; [apply Forall_nil_2|]. cbn [append_url_encoded].
  apply Forall_app. split.
  - destruct (must_encode extra x) eqn:E.
    + constructor; [by apply Z.eqb_neq|]. destruct (fmt_02x_spec x) as [Y _]; [unfold nonzero_byte, is_byte in *; lia|].
      rewrite forallb_forall in Y. apply Forall_forall. intros y I. apply Z.eqb_neq. intros ->.
      rewrite Y in S2; [done|]. done.
    + apply Forall_cons_iff. split; [|apply Forall_nil_2]. apply Z.eqb_neq. intros ->. destruct D as [D|D]; [congruence|].
      apply Forall_cons_iff in D as [D _]. by rewrite Z.eqb_refl in D.
  - apply IH. destruct D as [D|D]; [by left|]. right. by apply Forall_cons_iff in D as [_ D].
Qed.

(** ** The number of a port *)

Lemma isdigit_of x : 0 <= x <= 9 -> isdigit (48 + x) = true.
Proof. intros H. unfold isdigit. apply andb_true_iff. rewrite !Z.leb_le. lia. Qed.

Lemma digits_udec fuel n s : 0 <= n < 10 ^ Z.of_nat fuel -> digits_value (udec fuel n ++ s) 0 = digits_value s n.
Proof.
  revert n s; induction fuel as [|fuel IH]; intros n s H; [cbn in H; assert (n = 0) as -> by lia; done|].
  rewrite Nat2Z.inj_succ, Z.pow_succ_r in H by lia. cbn [udec]. destruct (Z.ltb_spec n 10).
  - cbn [app digits_value]. rewrite isdigit_of by lia. f_equal. lia.
  - rewrite <- app_assoc, IH by (Z.to_euclidean_division_equations; lia). cbn [app digits_value].
    rewrite isdigit_of by (Z.to_euclidean_division_equations; lia). f_equal. Z.to_euclidean_division_equations; lia.
Qed.

Lemma udec_digits fuel n : 0 <= n < 10 ^ Z.of_nat fuel -> Forall (fun c => isdigit c = true) (udec fuel n) /\
  ((0 < fuel)%nat -> udec fuel n <> []).
Proof.
  revert n; induction fuel as [|fuel IH]; intros n H; [split; [apply Forall_nil_2|lia]|].
  rewrite Nat2Z.inj_succ, Z.pow_succ_r in H by lia. cbn [udec]. destruct (Z.ltb_spec n 10).
  - split; [|done]. apply Forall_cons_iff. split; [apply isdigit_of; lia|apply Forall_nil_2].
  - split; [|by destruct (udec fuel (n / 10))]. apply Forall_app. split; [apply IH; Z.to_euclidean_division_equations; lia|].
    apply Forall_cons_iff. split; [apply isdigit_of; Z.to_euclidean_division_equations; lia|apply Forall_nil_2].
Qed.

Lemma fmt_d_pos n : 0 <= n < 2 ^ 31 -> fmt_d n = udec 11 n.
Proof. intros H. unfold fmt_d. rewrite (proj2 (Z.ltb_ge n 0)), Z.abs_eq by lia. done. Qed.

Lemma strtoul_fmt_d n s : 0 <= n < 2 ^ 31 -> match s with c :: _ => isdigit c = false | [] => True end ->
  strtoul (fmt_d n ++ s) = n.
Proof.
  intros H N. rewrite fmt_d_pos by done. unfold strtoul. pose proof (digits_udec 11 n s ltac:(cbn; lia)) as V.
  destruct (udec_digits 11 n ltac:(cbn; lia)) as [F NE]. destruct (udec 11 n) as [|d ds]; [destruct NE; [lia|done]|].
  apply Forall_cons_iff in F as [D _]. cbn [app skip_space].
  unfold isdigit in D. zb. assert (SP : isspace d = false).
  { unfold isspace. rewrite (proj2 (Z.eqb_neq d 32)) by lia. cbn [orb]. apply andb_false_iff. right. apply Z.leb_gt. lia. }
  rewrite SP. rewrite (proj2 (Z.eqb_neq d (ch "-"))), (proj2 (Z.eqb_neq d (ch "+"))) by (vm_compute; intros ->; lia).
  cbn [app] in V. rewrite V. replace (digits_value s n) with n by (by destruct s as [|c s]; cbn; [|rewrite N]).
  rewrite Z.gtb_ltb, (proj2 (Z.ltb_ge (2 ^ 64 - 1) n)) by lia. done.
Qed.

(** ** A URL written is read back *)

Record writable_param (kv : list Z * list Z) : Prop := {
  wp_name : text (fst kv); wp_some : fst kv <> []; wp_name_free : free (ch ";") (fst kv);
  wp_value : text (snd kv); wp_value_free : free (ch ";") (snd kv) }.

Lemma encoded_nil s extra : append_url_encoded s extra = [] -> s = [].
Proof. destruct s as [|c s]; [done|]. cbn. by destruct (must_encode extra c). Qed.

(** The text of a parameter after its ';'. *)
Definition param_text (kv : list Z * list Z) : list Z :=
  append_url_encoded (fst kv) (bs "?=") ++ match snd kv with [] => [] | v => ch "=" :: append_url_encoded v (bs "?") end.

Lemma param_text_free kv c : writable_param kv -> (c = ch ";" \/ c = ch "?" \/ c = ch "#") -> free c (param_text kv).
Proof.
  intros [K _ KF V VF] C. unfold param_text. apply Forall_app. split.
  - apply encoded_free; [by destruct C as [->|[->| ->]]|done|].
    destruct C as [->|[->| ->]]; [by right|by left|by left].
  - destruct (snd kv) as [|d v] eqn:E; [apply Forall_nil_2|]. constructor; [by destruct C as [->|[->| ->]]|].
    apply encoded_free; [by destruct C as [->|[->| ->]]|done|].
    destruct C as [->|[->| ->]]; [by right|by left|by left].
Qed.

Lemma parse_param_text kv : writable_param kv -> parse_param (param_text kv) = kv.
Proof.
  intros [K _ KF V VF]. unfold parse_param, param_text, strchr. destruct kv as [k v]; cbn [fst snd] in *.
  assert (F : free (ch "=") (append_url_encoded k (bs "?="))) by (apply encoded_free; [done|done|by left]).
  destruct v as [|d v].
  - rewrite app_nil_r, (index_where_none _ _ F), decode_encode; done.
  - rewrite index_where_some by done. rewrite take_app_length, drop_middle. by rewrite !decode_encode.
Qed.

Lemma param_text_nil kv : writable_param kv -> param_text kv <> [].
Proof. intros W E. unfold param_text in E. apply app_eq_nil in E as [E _]. apply encoded_nil in E. by destruct W. Qed.

Lemma output_param_text kv : output_param kv = ch ";" :: param_text kv.
Proof. done. Qed.

Lemma params_loop_text fuel kv ps l : Forall writable_param (kv :: ps) ->
  (length (param_text kv ++ concat (map output_param ps)) <= fuel)%nat ->
  params_loop fuel (param_text kv ++ concat (map output_param ps)) l =
    fold_left (fun l kv => datalist_set l (fst kv) (snd kv)) (kv :: ps) l.
Proof.
  revert kv ps l. induction fuel as [|fuel IH]; intros kv ps l W L; apply Forall_cons_iff in W as [W WS].
  { apply Nat.le_0_r, length_zero_iff_nil, app_eq_nil in L as [L _]. by destruct (param_text_nil kv W). }
  assert (F : free (ch ";") (param_text kv)) by (apply param_text_free; auto).
  destruct ps as [|kv' ps].
  - cbn [map concat] in *. rewrite app_nil_r in *. unfold strchr. cbn [params_loop]. unfold strchr.
    rewrite index_where_none by done. cbn [default from_option id].
    destruct (param_text kv) as [|c t] eqn:T; [by destruct (param_text_nil kv W)|]. rewrite <- T.
    rewrite take_ge by done. rewrite parse_param_text by done. destruct kv as [k v].
    rewrite drop_ge by lia. by destruct fuel.
  - cbn [map concat params_loop]. unfold strchr. rewrite output_param_text. cbn [app].
    rewrite index_where_some by done. cbn [default from_option id].
    destruct (param_text kv ++ _) as [|c t] eqn:T at 1; [by destruct (param_text_nil kv W), (param_text kv)|]. clear T.
    rewrite take_app_length, parse_param_text by done. destruct kv as [k v].
    rewrite drop_middle.
    rewrite IH; [done|done|]. cbn [map concat] in L. rewrite output_param_text, !length_app in L. cbn [app length] in L.
    rewrite ?length_app in *. pose proof (param_text_nil (k, v) W).
    destruct (param_text (k, v)); [done|]. cbn in L. lia.
Qed.

Lemma datalist_set_fresh l k v : k ∉ map fst l -> datalist_set l k v = l ++ [(k, v)].
Proof.
  induction l as [|[k' v'] l IH]; cbn; [done|]. rewrite not_elem_of_cons. intros [N I].
  rewrite (proj2 (bytes_eqb_neq k' k)) by congruence. by rewrite IH.
Qed.

Lemma datalist_set_all ps l : NoDup (map fst (l ++ ps)) ->
  fold_left (fun l kv => datalist_set l (fst kv) (snd kv)) ps l = l ++ ps.
Proof.
  revert l; induction ps as [|[k v] ps IH]; intros l D; cbn; [by rewrite app_nil_r|].
  rewrite datalist_set_fresh.
  - rewrite IH; rewrite <- app_assoc; done.
  - rewrite map_app in D. cbn in D. apply list.NoDup_app in D as (_ & D & _). intros I. apply (D _ I). left.
Qed.

(** The URLs that have a faithful text. *)
Record writable (u : CamelURL) : Prop := {
  w_protocol : exists p, protocol u = Some p /\ p <> [] /\
    Forall (fun c => is_proto c = true /\ tolower c = c) p;
  w_user : match user u with Some x => text x /\ host u <> None | None => authmech u = None end;
  w_auth : match authmech u with Some a => text a /\ a <> [] | None => True end;
  w_host : match host u with
    | Some h => text h /\ free (ch "@") h /\ (port u = 0 \/ Forall (fun c => must_encode (bs ":/") c = false) h)
    | None => port u = 0 end;
  w_port : 0 <= port u < 2 ^ 31;
  w_path : match path u with
    | Some p => text p /\ p <> [] /\ (if host u then exists p', p = ch "/" :: p' else prefix_eqb (bs "//") p = false)
    | None => host u <> None -> params u = [] /\ query u = None /\ fragment u = None end;
  w_params : Forall writable_param (params u) /\ NoDup (map fst (params u));
  w_query : match query u with Some q => text q /\ q <> [] | None => True end;
  w_fragment : match fragment u with Some f => text f /\ f <> [] | None => True end }.

(** The parts of the text. *)
Definition path_text (u : CamelURL) : list Z :=
  match path u with Some p => append_url_encoded p (bs ";?") | None => [] end.
Definition params_text (u : CamelURL) : list Z := concat (map output_param (params u)).
Definition query_text (u : CamelURL) : list Z :=
  match query u with Some q => ch "?" :: append_url_encoded q [] | None => [] end.
Definition fragment_text (u : CamelURL) : list Z :=
  match fragment u with Some f => ch "#" :: append_url_encoded f [] | None => [] end.

Lemma params_text_free u c : writable u -> (c = ch "?" \/ c = ch "#") -> free c (params_text u).
Proof.
  intros W C. destruct (w_params u W) as [P _]. unfold params_text. induction P as [|kv ps K P IH]; [apply Forall_nil_2|].
  cbn [map concat]. apply Forall_app. split; [|done]. rewrite output_param_text.
  constructor; [by destruct C as [-> | ->]|]. apply param_text_free; [done|tauto].
Qed.

Lemma path_text_free u c : writable u -> (c = ch ";" \/ c = ch "?" \/ c = ch "#") -> free c (path_text u).
Proof.
  intros W C. pose proof (w_path u W) as P. unfold path_text. destruct (path u) as [p|]; [|apply Forall_nil_2].
  destruct P as [T _]. apply encoded_free; [by destruct C as [->|[->| ->]]|done|]. left. by destruct C as [->|[->| ->]].
Qed.

(** The path, the parameters and the query. *)
Lemma parse_rest_text u v more : writable u -> path v = None -> params v = [] -> query v = None ->
  parse_rest v (path_text u ++ params_text u ++ query_text u) more =
    camel_url_set_path (set_params (camel_url_set_query v (query u)) (params u)) (path u).
Proof.
  intros W P1 P2 P3.
  set (v1 := camel_url_set_query v (query u)). set (v2 := set_params v1 (params u)).
  assert (E1 : parse_query v (path_text u ++ params_text u ++ query_text u) more = (v1, path_text u ++ params_text u)).
  { assert (F : free (ch "?") (path_text u ++ params_text u)).
    { apply Forall_app. split; [apply path_text_free|apply params_text_free]; auto. }
    unfold parse_query, v1, query_text, strchr. pose proof (w_query u W) as Q. destruct (query u) as [q|].
    - rewrite app_assoc, index_where_some by done. cbv zeta. rewrite drop_middle, take_app_length.
      destruct Q as [TQ NQ]. rewrite decode_encode by done. destruct (append_url_encoded q []) eqn:E; [by apply encoded_nil in E|]. done.
    - rewrite app_nil_r, index_where_none by done. f_equal. destruct v; cbn in *; by subst. }
  unfold parse_rest. rewrite E1. clear P3 E1.
  assert (E2 : parse_params v1 (path_text u ++ params_text u) = (v2, path_text u)).
  { destruct (w_params u W) as [WP ND]. assert (F : free (ch ";") (path_text u)) by (apply path_text_free; auto).
    unfold parse_params, v2, params_text, strchr. destruct (params u) as [|kv ps].
    - cbn [map concat]. rewrite app_nil_r, index_where_none by done. unfold v1. f_equal. destruct v; cbn in *; by subst.
    - cbn [map concat]. rewrite output_param_text. cbn [app]. rewrite index_where_some by done. cbv zeta.
      rewrite drop_middle, take_app_length, params_loop_text by done. by rewrite (datalist_set_all (kv :: ps) []). }
  rewrite E2. pose proof (w_path u W) as P. unfold path_text. destruct (path u) as [p|].
  - destruct P as (T & NP & _). rewrite decode_encode by done. by destruct (append_url_encoded p _) eqn:E; [apply encoded_nil in E|].
  - cbn. unfold v2, v1. destruct v; cbn in *; by subst.
Qed.

Definition auth_text (u : CamelURL) : list Z :=
  match authmech u with Some a => bs ";auth=" ++ append_url_encoded a (bs ":@/") | None => [] end.
Definition user_text (u : CamelURL) : list Z :=
  match user u with Some x => append_url_encoded x (bs ":;@/") ++ auth_text u ++ bs "@" | None => [] end.
Definition port_text (u : CamelURL) : list Z := if port u =? 0 then [] else ch ":" :: fmt_d (port u).

(** The user and the mechanism are free of the characters that end them. *)
Lemma user_free x a c : text x -> (match a with Some a => text a | None => True end) ->
  (c = ch "@" \/ c = ch "/" \/ c = ch ":" \/ c = ch "#") ->
  free c (append_url_encoded x (bs ":;@/") ++ match a with Some a => bs ";auth=" ++ append_url_encoded a (bs ":@/") | None => [] end).
Proof.
  intros X A C. apply Forall_app. split.
  - apply encoded_free; [by destruct C as [->|[->|[->| ->]]]|done|]. left. by destruct C as [->|[->|[->| ->]]].
  - destruct a as [a|]; [|apply Forall_nil_2]. apply Forall_app. split.
    + destruct C as [->|[->|[->| ->]]]; by repeat constructor.
    + apply encoded_free; [by destruct C as [->|[->|[->| ->]]]|done|]. left. by destruct C as [->|[->|[->| ->]]].
Qed.

Lemma parse_user_text u x r : writable u -> user u = Some x ->
  parse_user ((append_url_encoded x (bs ":;@/") ++ auth_text u) ++ ch "@" :: r)
    (length (append_url_encoded x (bs ":;@/") ++ auth_text u)) = (x, authmech u).
Proof.
  intros W X. pose proof (w_user u W) as WU. rewrite X in WU. destruct WU as [TX _]. pose proof (w_auth u W) as WA.
  set (e := append_url_encoded x (bs ":;@/")). set (pre := e ++ auth_text u). unfold parse_user, strchr.
  assert (CF : match index_where (Z.eqb (ch ":")) (pre ++ ch "@" :: r) with
    | Some c => if (c <? length pre)%nat then c else length pre | None => length pre end = length pre).
  { rewrite index_where_app by (apply user_free; [done|by destruct (authmech u); [destruct WA|]|auto]).
    destruct (index_where _ _) as [i|]; cbn [fmap option_fmap option_map]; [|done].
    by rewrite (proj2 (Nat.ltb_ge _ _)) by lia. }
  rewrite CF. cbv zeta. clear CF.
  assert (F : free (ch ";") e) by (apply encoded_free; [done|done|by left]).
  unfold pre, auth_text in *. destruct (authmech u) as [a|].
  - destruct WA as [TA NA]. rewrite <- !app_assoc.
    change (bs ";auth=" ++ append_url_encoded a (bs ":@/") ++ ch "@" :: r) with
      (ch ";" :: bs "auth=" ++ append_url_encoded a (bs ":@/") ++ ch "@" :: r).
    rewrite index_where_some by done. rewrite !length_app.
    rewrite (proj2 (Nat.ltb_lt _ _)) by (cbn; lia).
    rewrite !drop_app_length, take_app_length. cbn [andb].
    replace (length e + (length (bs ";auth=") + length (append_url_encoded a (bs ":@/"))) - length e - 6)%nat
      with (length (append_url_encoded a (bs ":@/"))) by (cbn; lia).
    rewrite <- drop_drop, drop_app_length.
    assert (PX : forall t, strncase_prefix (ch ";" :: bs "auth=" ++ t) (bs ";auth=") = true) by done. rewrite PX.
    change (drop 6 (ch ";" :: bs "auth=" ++ append_url_encoded a (bs ":@/") ++ ch "@" :: r))
      with (append_url_encoded a (bs ":@/") ++ ch "@" :: r).
    rewrite take_app_length. unfold e. by rewrite !decode_encode.
  - rewrite app_nil_r in *. rewrite index_where_app by done.
    assert (D : camel_url_decode (take (length e) (e ++ ch "@" :: r)) = x) by (rewrite take_app_length; by apply decode_encode).
    rewrite D. destruct (index_where _ (_ :: r)) as [i|]; cbn [fmap option_fmap option_map]; [|done].
    rewrite (proj2 (Nat.ltb_ge _ _)) by lia. done.
Qed.

(** A number is free of anything but digits. *)
Lemma fmt_d_free c n : 0 <= n < 2 ^ 31 -> isdigit c = false -> free c (fmt_d n).
Proof.
  intros H D. rewrite fmt_d_pos by done. destruct (udec_digits 11 n ltac:(cbn; lia)) as [F _].
  induction F as [|x l X F IH]; constructor; [|done]. apply Z.eqb_neq. intros ->. congruence.
Qed.

Lemma plain_encoded h extra : Forall (fun c => must_encode extra c = false) h -> append_url_encoded h extra = h.
Proof. induction 1 as [|c h C F IH]; [done|]. cbn. by rewrite C, IH. Qed.

Lemma parse_host_text u h T : writable u -> host u = Some h -> match T with c :: _ => c = ch "/" | [] => True end ->
  let s := append_url_encoded h (bs ":/") ++ port_text u in
  parse_host (s ++ T) (length s) = (h, port u).
Proof.
  intros W H HT s. pose proof (w_host u W) as WH. rewrite H in WH. destruct WH as (TH & _ & PH). pose proof (w_port u W) as WP.
  assert (F : free (ch ":") (append_url_encoded h (bs ":/"))) by (apply encoded_free; [done|done|by left]).
  unfold parse_host, strchr, s, port_text. destruct (Z.eqb_spec (port u) 0) as [E|E].
  - rewrite app_nil_r, index_where_app by done. rewrite take_app_length, decode_encode, E by done.
    destruct (index_where _ T) as [i|]; cbn [fmap option_fmap option_map]; [|done]. by rewrite (proj2 (Nat.ltb_ge _ _)) by lia.
  - destruct PH as [PH|PH]; [done|]. rewrite <- app_assoc. cbn [app]. rewrite index_where_some by done.
    rewrite length_app. cbn [length]. rewrite (proj2 (Nat.ltb_lt _ _)) by lia.
    rewrite take_app_length, drop_middle, strtoul_fmt_d.
    + rewrite plain_encoded by done. f_equal. unfold s32. rewrite Z.mod_small by lia. lia.
    + done.
    + destruct T as [|c T]; [done|]. by rewrite HT.
Qed.

Definition authority_text (u : CamelURL) (h : list Z) : list Z :=
  user_text u ++ append_url_encoded h (bs ":/") ++ port_text u.

Lemma port_text_free u c : writable u -> isdigit c = false -> c <> ch ":" -> free c (port_text u).
Proof.
  intros W D N. unfold port_text. destruct (port u =? 0); [apply Forall_nil_2|].
  constructor; [by apply Z.eqb_neq|]. apply fmt_d_free; [by destruct W|done].
Qed.

Lemma authority_free u h c : writable u -> host u = Some h -> c = ch "/" \/ c = ch "#" -> free c (authority_text u h).
Proof.
  intros W H C. pose proof (w_host u W) as WH. rewrite H in WH. destruct WH as (TH & AH & _).
  unfold authority_text, user_text. apply Forall_app. split; [|apply Forall_app; split].
  - pose proof (w_user u W) as WU. pose proof (w_auth u W) as WA. destruct (user u) as [x|]; [|apply Forall_nil_2].
    rewrite app_assoc. apply Forall_app. split.
    + apply user_free; [tauto| |tauto]. destruct (authmech u); tauto.
    + destruct C as [-> | ->]; by repeat constructor.
  - apply encoded_free; [by destruct C as [-> | ->]|done|]. left. by destruct C as [-> | ->].
  - apply port_text_free; [done|by destruct C as [-> | ->]|by destruct C as [-> | ->]].
Qed.

Lemma parse_authority_text u v h T : writable u -> host u = Some h -> user v = None -> authmech v = None ->
  match T with c :: _ => c = ch "/" | [] => True end ->
  parse_authority v (authority_text u h ++ T) =
    (URL (protocol v) (user u) (authmech u) (Some h) (port u) (path v) (params v) (query v) (fragment v), T).
Proof.
  intros W H VU VA HT.
  assert (SL : cspn_slash (authority_text u h ++ T) = length (authority_text u h)).
  { unfold cspn_slash. rewrite index_where_app.
    - destruct T as [|c T]; [cbn; by rewrite app_nil_r|]. rewrite HT.
      cbn [index_where]. change (ch "/" =? ch "/") with true. cbn [orb fmap option_fmap option_map default from_option id]. lia.
    - pose proof (authority_free u h (ch "/") W H (or_introl eq_refl)) as F1.
      pose proof (authority_free u h (ch "#") W H (or_intror eq_refl)) as F2.
      induction F1 as [|c l E F1 IH]; [apply Forall_nil_2|]. apply Forall_cons_iff in F2 as [E2 F2]. constructor; [|by apply IH].
      by rewrite (Z.eqb_sym c (ch "/")), (Z.eqb_sym c (ch "#")), E, E2. }
  unfold parse_authority. rewrite SL. clear SL.
  pose proof (w_user u W) as WU. pose proof (w_auth u W) as WA.
  pose proof (w_host u W) as WH. rewrite H in WH. destruct WH as (TH & AH & _).
  set (e := append_url_encoded h (bs ":/")). pose proof (parse_host_text u h T W H HT) as PH. cbv zeta in PH. fold e in PH.
  assert (FE : free (ch "@") (e ++ port_text u)).
  { apply Forall_app. split; [apply encoded_free; [done|done|by right]|by apply port_text_free]. }
  unfold authority_text, user_text, strchr. fold e. destruct (user u) as [x|] eqn:X.
  - set (pre := append_url_encoded x (bs ":;@/") ++ auth_text u).
    assert (FP : free (ch "@") pre) by (apply user_free; [tauto|destruct (authmech u); tauto|tauto]).
    replace (((append_url_encoded x (bs ":;@/") ++ auth_text u ++ bs "@") ++ e ++ port_text u) ++ T)
      with (pre ++ ch "@" :: (e ++ port_text u) ++ T) by (unfold pre; rewrite <- !app_assoc; done).
    replace (length ((append_url_encoded x (bs ":;@/") ++ auth_text u ++ bs "@") ++ e ++ port_text u))
      with (length pre + S (length (e ++ port_text u)))%nat by (unfold pre; rewrite !length_app; cbn [bs length]; lia).
    rewrite index_where_some by done. rewrite (proj2 (Nat.ltb_lt _ _)) by lia.
    unfold pre at 1 2. rewrite (parse_user_text u x) by done. fold pre. rewrite drop_middle.
    replace (length pre + S (length (e ++ port_text u)) - S (length pre))%nat with (length (e ++ port_text u)) by lia.
    rewrite PH, drop_app_length. done.
  - cbn [app]. rewrite index_where_app by done.
    destruct (index_where (Z.eqb (ch "@")) T) as [i|]; cbn [fmap option_fmap option_map];
      [rewrite (proj2 (Nat.ltb_ge _ _)) by lia|]; rewrite PH, drop_app_length; destruct v; cbn in *; subst; by rewrite WU.
Qed.

(** The text between the protocol and the fragment. *)
Definition rest_text (u : CamelURL) : list Z :=
  match host u with Some h => bs "//" ++ authority_text u h | None => [] end ++
  path_text u ++ params_text u ++ query_text u.

Lemma to_string_text u pr : writable u -> protocol u = Some pr ->
  camel_url_to_string u 0 = (pr ++ ch ":" :: rest_text u) ++ fragment_text u.
Proof.
  intros W EP. unfold camel_url_to_string. rewrite EP.
  assert (PS : (if non_empty (params u) && negb (has_flag 0 CAMEL_URL_HIDE_PARAMS) then concat (map output_param (params u)) else []) = params_text u)
    by (unfold params_text; by destruct (params u)).
  rewrite PS. clear PS. unfold rest_text. rewrite <- !app_assoc. cbn [bs app]. f_equal. f_equal. rewrite <- !app_assoc.
  change (match path u with Some p => append_url_encoded p (bs ";?") | None => [] end) with (path_text u).
  change (match query u with Some q => ch "?" :: append_url_encoded q [] | None => [] end) with (query_text u).
  change (match fragment u with Some f => ch "#" :: append_url_encoded f [] | None => [] end) with (fragment_text u).
  f_equal. pose proof (w_path u W) as WP. pose proof (w_auth u W) as WA. destruct (host u) as [h|]; [|done].
  unfold authority_text, user_text, auth_text, port_text.
  assert (SL : (if negb (non_null (path u)) && (non_empty (params u) || non_null (query u) || non_null (fragment u)) then [ch "/"] else []) = []).
  { destruct (path u); [done|]. destruct WP as (-> & -> & ->); done. }
  rewrite SL, app_nil_r. cbn [bs app]. do 2 f_equal. rewrite <- ?app_assoc. f_equal.
  destruct (user u); [|done]. destruct (authmech u) as [a|]; [|done]. by destruct WA as [_ NA], a.
Qed.

Lemma split_fragment_text u body : writable u -> free (ch "#") body ->
  split_fragment (body ++ fragment_text u) = (body, fragment u) /\
  non_null (strchr (body ++ fragment_text u) (ch "#")) = non_null (fragment u).
Proof.
  intros W F. pose proof (w_fragment u W) as WF. unfold split_fragment, fragment_text, strchr.
  destruct (fragment u) as [f|].
  - rewrite index_where_some by done. split; [|done]. rewrite take_app_length, drop_middle. destruct WF as [TF NF].
    destruct (append_url_encoded f []) eqn:E; [by apply encoded_nil in E|]. by rewrite <- E, decode_encode.
  - rewrite app_nil_r, index_where_none; done.
Qed.

Lemma proto_length_app pr r : Forall (fun c => is_proto c = true) pr -> proto_length (pr ++ ch ":" :: r) = length pr.
Proof. induction 1 as [|c pr C F IH]; [done|]. cbn. by rewrite C, IH. Qed.

Lemma rest_text_free u : writable u -> free (ch "#") (rest_text u).
Proof.
  intros W. unfold rest_text. apply Forall_app. split; [|apply Forall_app; split; [|apply Forall_app; split]].
  - destruct (host u) as [h|] eqn:H; [|apply Forall_nil_2]. apply Forall_app. split; [by repeat constructor|].
    apply authority_free; auto.
  - apply path_text_free; auto.
  - apply params_text_free; auto.
  - pose proof (w_query u W) as WQ. unfold query_text. destruct (query u) as [q|]; [|apply Forall_nil_2].
    constructor; [done|]. apply encoded_free; [done|tauto|by left].
Qed.

(** The text without a host does not look like an authority. *)
Lemma no_authority u : writable u -> host u = None -> prefix_eqb (bs "//") (path_text u ++ params_text u ++ query_text u) = false.
Proof.
  intros W H. pose proof (w_path u W) as WP. rewrite H in WP.
  assert (SQ : match params_text u ++ query_text u with c :: _ => c <> ch "/" | [] => True end).
  { unfold params_text, query_text. destruct (params u) as [|kv ps]; [by destruct (query u)|done]. }
  unfold path_text. destruct (path u) as [p|].
  - destruct WP as (TP & NP & PX). destruct p as [|c p]; [done|]. cbn [append_url_encoded].
    destruct (must_encode (bs ";?") c) eqn:E.
    + done.
    + cbn [app bs prefix_eqb]. destruct (Z.eqb_spec (ch "/") c) as [<-|]; [|done]. cbn [andb].
      destruct p as [|d p].
      * cbn [append_url_encoded app]. destruct (params_text u ++ query_text u); [done|]. by rewrite (proj2 (Z.eqb_neq _ _)) by congruence.
      * cbn [append_url_encoded]. cbn [bs prefix_eqb] in PX. rewrite Z.eqb_refl in PX. cbn [andb] in PX.
        destruct (must_encode _ d); cbn [app]; [done|exact PX].
  - cbn [app]. destruct (params_text u ++ query_text u) as [|c s]; [done|]. cbn [bs prefix_eqb].
    by rewrite (proj2 (Z.eqb_neq _ _)) by congruence.
Qed.

(** What the parser makes of the text after the protocol. *)
Lemma parse_rest_of u pr more : writable u -> protocol u = Some pr ->
  let v := camel_url_set_fragment (camel_url_set_protocol url_new0 (Some pr)) (fragment u) in
  (let '(u0, s) := if prefix_eqb (bs "//") (rest_text u) then parse_authority v (drop 2 (rest_text u)) else (v, rest_text u) in
   parse_rest u0 s more) = u.
Proof.
  intros W EP v. unfold rest_text. destruct (host u) as [h|] eqn:H.
  - rewrite <- app_assoc. change (prefix_eqb (bs "//") (bs "//" ++ ?x)) with true. cbn iota.
    change (drop 2 (bs "//" ++ authority_text u h ++ path_text u ++ params_text u ++ query_text u))
      with (authority_text u h ++ path_text u ++ params_text u ++ query_text u).
    assert (HT : match path_text u ++ params_text u ++ query_text u with c :: _ => c = ch "/" | [] => True end).
    { pose proof (w_path u W) as WP. rewrite H in WP. unfold path_text, params_text, query_text. destruct (path u) as [p|].
      - destruct WP as (_ & _ & p' & ->). done.
      - destruct WP as (-> & -> & _); done. }
    rewrite (parse_authority_text u v h) by done.
    rewrite parse_rest_text by done. destruct u; cbn in *; by subst.
  - cbn [app]. rewrite no_authority by done. cbn iota. rewrite parse_rest_text by done.
    pose proof (w_user u W) as WU. pose proof (w_host u W) as WH. rewrite H in WU, WH.
    destruct u as [p0 us au h0 po pa ps q f]; cbn in *; subst. by destruct us; [destruct WU|subst].
Qed.

(** C27. A URL that [camel_url_to_string] writes is read back by [camel_url_new],
    field by field: when the host has no '@', and no escaped character if there
    is a port; the names and values of the parameters have no ';'; and the path
    fits the host. *)
Theorem url_roundtrip u : writable u -> camel_url_new (Some (camel_url_to_string u 0)) = Some (Some u).
Proof.
  intros W. destruct (w_protocol u W) as (pr & EP & NP & FP). rewrite (to_string_text u pr) by done.
  assert (FP1 : Forall (fun c => is_proto c = true) pr) by (clear -FP; induction FP as [|c l [? ?] F IH]; constructor; auto).
  assert (LOW : map tolower pr = pr) by (clear -FP; induction FP as [|c l [? E] F IH]; [done|]; cbn; by rewrite E, IH).
  assert (FB : free (ch "#") (pr ++ ch ":" :: rest_text u)).
  { apply Forall_app. split; [|by constructor; [|apply rest_text_free]]. clear -FP1.
    induction FP1 as [|c l C F IH]; constructor; [|done]. apply Z.eqb_neq. by intros <-. }
  destruct (split_fragment_text u _ W FB) as [SF MO].
  unfold camel_url_new, camel_url_new_with_base. rewrite SF, MO.
  rewrite proto_length_app by done.
  replace (nth (length pr) ((pr ++ ch ":" :: rest_text u) ++ fragment_text u) 0) with (ch ":")
    by (rewrite <- app_assoc, app_nth2, Nat.sub_diag by lia; done).
  rewrite (proj2 (Nat.ltb_lt 0 (length pr))) by (destruct pr; [done|cbn; lia]). rewrite Z.eqb_refl. cbn [andb].
  rewrite take_app_length, drop_middle, LOW.
  destruct ((pr ++ ch ":" :: rest_text u) ++ fragment_text u) eqn:ET; [by destruct pr|]. clear ET.
  set (v := camel_url_set_fragment (camel_url_set_protocol url_new0 (Some pr)) (fragment u)).
  assert (C : (let '(u0, s) := if prefix_eqb (bs "//") (rest_text u) then parse_authority v (drop 2 (rest_text u)) else (v, rest_text u) in
    parse_rest u0 s (non_null (fragment u))) = u) by (by apply parse_rest_of).
  destruct (negb (non_empty (rest_text u)) && negb (non_null (fragment u)) && negb (non_null (@None CamelURL))) eqn:Z.
  - apply andb_true_iff in Z as [Z _]. apply andb_true_iff in Z as [Z1 Z2]. apply negb_true_iff in Z1, Z2.
    destruct (rest_text u) eqn:R; [|done]. rewrite Z2 in C. rewrite (C : v = u). cbn. by rewrite EP.
  - destruct (if prefix_eqb (bs "//") (rest_text u) then _ else _) as [u0 s0]. rewrite C. cbn. by rewrite EP.
Qed.

(** ** Paths relative to a base *)

Lemma strchr_split s c i : strchr s c = Some i -> exists a b, s = a ++ c :: b /\ length a = i.
Proof.
  intros (a & x & b & -> & L & _ & E)%index_where_split. apply Z.eqb_eq in E as <-. by exists a, b.
Qed.

(** What is left to do: the square of the length counts the new starts. *)
Definition dotdots_work (before p : list Z) : nat :=
  let l := (length before + length p)%nat in (l * l + length p)%nat.

(** Enough rounds give the result that any more give, which is a fixed point:
    [k] rounds went over [before] without a change. *)
Lemma remove_dotdots_fixed fuel first before p : (dotdots_work before p < fuel)%nat ->
  (exists k, forall f, remove_dotdots (k + f) first [] (before ++ p) = remove_dotdots f first before p) ->
  exists s n, (forall f, (fuel <= f)%nat -> remove_dotdots f first before p = first ++ s) /\
    (length s <= length before + length p)%nat /\ (forall f, (n <= f)%nat -> remove_dotdots f first [] s = first ++ s).
Proof.
  revert before p; induction fuel as [|fuel IH]; intros before p W (k & R); [lia|].
  assert (DONE : (forall f, remove_dotdots (S f) first before p = first ++ before ++ p) ->
    exists s n, (forall f, (S fuel <= f)%nat -> remove_dotdots f first before p = first ++ s) /\
    (length s <= length before + length p)%nat /\ (forall f, (n <= f)%nat -> remove_dotdots f first [] s = first ++ s)).
  { intros D. exists (before ++ p), (k + 1)%nat. split; [|split].
    - intros f F. destruct f as [|f]; [lia|]. apply D.
    - by rewrite length_app.
    - intros f F. replace f with (k + S (f - k - 1))%nat by lia. by rewrite R, D. }
  assert (STEP : forall a b, p = a ++ b -> a <> [] ->
    (forall f, remove_dotdots (S f) first before p = remove_dotdots f first (before ++ a) b) ->
    exists s n, (forall f, (S fuel <= f)%nat -> remove_dotdots f first before p = first ++ s) /\
    (length s <= length before + length p)%nat /\ (forall f, (n <= f)%nat -> remove_dotdots f first [] s = first ++ s)).
  { intros a b -> NA E. unfold dotdots_work in W. rewrite length_app in W.
    assert (1 <= length a)%nat by (destruct a; [done|cbn; lia]).
    destruct (IH (before ++ a) b) as (s & n & A & L & B).
    - unfold dotdots_work. rewrite length_app. replace (length before + length a + length b)%nat
        with (length before + (length a + length b))%nat by lia. lia.
    - exists (k + 1)%nat. intros f. rewrite <- app_assoc. replace (k + 1 + f)%nat with (k + S f)%nat by lia. by rewrite R, E.
    - exists s, n. split; [|split; [rewrite length_app in *; lia|done]].
      intros f F. destruct f as [|f]; [lia|]. rewrite E. apply A. lia. }
  destruct p as [|c p]; [apply DONE; intros; cbn; by rewrite app_nil_r|].
  cbn [remove_dotdots] in DONE, STEP |- *. destruct (prefix_eqb (bs "../") (c :: p)) eqn:PX.
  { apply prefix_eqb_spec in PX as (r & EP). apply (STEP (bs "../") r); [done|done|]. intros f. by rewrite EP. }
  destruct (strchr (drop 1 (c :: p)) (ch "/")) as [i|] eqn:Q; [|by apply DONE].
  pose proof Q as Q'. apply strchr_split in Q as (a & b & EP & LA). change (p = a ++ ch "/" :: b) in EP. subst p.
  assert (EQ : drop (S i) (c :: a ++ ch "/" :: b) = ch "/" :: b) by (cbn; rewrite <- LA; apply drop_app_length).
  rewrite EQ in DONE, STEP. destruct (prefix_eqb (bs "/../") (ch "/" :: b)) eqn:PB; cbn [negb] in DONE, STEP.
  - pose proof PB as PB'. apply prefix_eqb_spec in PB' as (r & EB).
    assert (ED : drop (S i + 4) (c :: a ++ ch "/" :: b) = r).
    { rewrite <- drop_drop, EQ, EB. done. }
    apply (f_equal length) in EB. cbn [length bs] in EB. rewrite length_app in EB. cbn [length bs] in EB.
    unfold dotdots_work in W. cbn [length] in W. rewrite length_app in W. cbn [length] in W.
    destruct (IH [] (before ++ r)) as (s & n & A & L & B).
    + unfold dotdots_work. cbn [length]. rewrite length_app. nia.
    + by exists O.
    + exists s, n. split; [|split; [|done]].
      * intros f F. destruct f as [|f]; [lia|]. cbn [remove_dotdots]. rewrite PX.
        rewrite Q', EQ, PB. cbn [negb]. rewrite ED. apply A. lia.
      * cbn [length] in *. rewrite !length_app in *. cbn [length]. lia.
  - apply (STEP (take (S (S i)) (c :: a ++ ch "/" :: b)) (drop (S (S i)) (c :: a ++ ch "/" :: b))); [by rewrite take_drop|done|done].
Qed.

Lemma dotdots_enough s : (dotdots_work [] (drop 1 s) < dotdots_fuel s)%nat.
Proof. unfold dotdots_work, dotdots_fuel. rewrite length_drop. cbn [length Nat.add]. nia. Qed.

(** The pass over "<segment>/../" ends: it starts again at most as often as
    the path is long, so that many more rounds change nothing; what it leaves
    is not longer, and the pass has nothing to take from it. *)
Theorem remove_dotdots_ends s :
  (forall f, (dotdots_fuel s <= f)%nat -> remove_dotdots f (take 1 s) [] (drop 1 s) = remove_all_dotdots s) /\
  (length (remove_all_dotdots s) <= length s)%nat /\
  remove_all_dotdots (remove_all_dotdots s) = remove_all_dotdots s.
Proof.
  destruct (remove_dotdots_fixed (dotdots_fuel s) (take 1 s) [] (drop 1 s) (dotdots_enough s)) as (r & n & A & L & B).
  { by exists O. }
  assert (E : remove_all_dotdots s = take 1 s ++ r) by (apply A; lia).
  split; [|split]; [intros f F; rewrite E; by apply A| |].
  - rewrite E, length_app. pose proof (f_equal length (take_drop 1 s)) as T. rewrite length_app in T. cbn [length] in L. lia.
  - rewrite E. destruct s as [|c s]; [by destruct r; [|cbn in L; lia]|]. cbn [take app] in *.
    transitivity (remove_dotdots (n + dotdots_fuel (c :: r)) [c] [] r); [|by apply B; lia].
    destruct (remove_dotdots_fixed (dotdots_fuel (c :: r)) [c] [] r) as (r' & _ & A' & _).
    { apply (dotdots_enough (c :: r)). } { by exists O. }
    change (c :: take 0 s ++ r) with (c :: r). unfold remove_all_dotdots. cbn [take drop]. by rewrite !A' by lia.
Qed.

(** Resolving a relative path reads the byte before the buffer exactly when
    the merged path is "/..". *)
Theorem resolve_out_of_bounds base_path p :
  resolve_path base_path p = None <-> merge_path base_path p = bs "/..".
Proof.
  unfold resolve_path. set (s := merge_path base_path p). unfold remove_last_dotdot. split; [|by intros ->].
  destruct (strrchr_slash s) as [[|q]|]; [|by destruct (bytes_eqb _ _)|done].
  destruct (bytes_eqb (drop 0 s) (bs "/..")) eqn:E; [|done]. intros _. by apply bytes_eqb_eq in E.
Qed.

(** ** Parameters, comparing *)

Lemma datalist_get_set l k v m : datalist_get (datalist_set l k v) m = if bytes_eqb k m then Some v else datalist_get l m.
Proof.
  induction l as [|[k' v'] l IH]; [done|]. cbn. destruct (bytes_eqb k' k) eqn:E; cbn.
  - apply bytes_eqb_eq in E as ->. by destruct (bytes_eqb k m).
  - rewrite IH. destruct (bytes_eqb k' m) eqn:E'; [|done]. apply bytes_eqb_eq in E' as ->.
    destruct (bytes_eqb k m) eqn:E2; [|done]. apply bytes_eqb_eq in E2 as ->. by rewrite bytes_eqb_refl in E.
Qed.

Lemma datalist_get_remove l k m : datalist_get (datalist_remove l k) m = if bytes_eqb k m then None else datalist_get l m.
Proof.
  induction l as [|[k' v'] l IH]; [by destruct (bytes_eqb k m)|]. unfold datalist_remove. cbn.
  destruct (bytes_eqb k' k) eqn:E; cbn; fold (datalist_remove l k); rewrite IH.
  - apply bytes_eqb_eq in E as ->. by destruct (bytes_eqb k m).
  - destruct (bytes_eqb k' m) eqn:E'; [|done]. apply bytes_eqb_eq in E' as ->.
    destruct (bytes_eqb k m) eqn:E2; [|done]. apply bytes_eqb_eq in E2 as ->. by rewrite bytes_eqb_refl in E.
Qed.

(** Setting a parameter sets that one and no other, a null value removes it;
    the other parts of the URL stay, so that it still compares equal and hashes
    the same. *)
Theorem url_param_set `{StrHash} u name value m :
  camel_url_get_param (camel_url_set_param u name value) m =
    (if bytes_eqb name m then value else camel_url_get_param u m) /\
  camel_url_equal u (camel_url_set_param u name value) = true /\
  camel_url_hash (camel_url_set_param u name value) = camel_url_hash u.
Proof.
  assert (C : forall x, check_equal x x = true) by (intros [x|]; [apply bytes_eqb_refl|done]).
  split; [|split]; [|by unfold camel_url_equal; cbn; rewrite !C, Z.eqb_refl|done].
  unfold camel_url_get_param, camel_url_set_param. destruct value; cbn [params set_params]; [apply datalist_get_set|apply datalist_get_remove].
Qed.

(** URLs that compare equal have the same hash, as a hash table needs. *)
Theorem url_equal_hash `{StrHash} u u2 : camel_url_equal u u2 = true -> camel_url_hash u = camel_url_hash u2.
Proof.
  assert (C : forall x y, check_equal x y = true -> x = y).
  { intros [x|] [y|]; cbn; try done. by intros ->%bytes_eqb_eq. }
  unfold camel_url_equal. rewrite !andb_true_iff. intros [[[[[[?%C ?%C] ?%C] ?%C] ?%C] ?%C] P].
  apply Z.eqb_eq in P. destruct u, u2; cbn in *. by subst.
Qed.

(** ** Witnesses *)

Definition sample_url : CamelURL :=
  URL (Some (bs "imap")) (Some (bs "a;b@c")) (Some (bs "+PLAIN")) (Some (bs "mail.example")) 993
    (Some (bs "/in box")) [(bs "use?", bs "a=b"); (bs "flag", [])] (Some (bs "x#y")) (Some (bs "100%")).

Lemma text_check s : forallb (fun c => (0 <? c) && (c <? 256)) s = true -> text s.
Proof.
  rewrite forallb_forall, list.Forall_forall. intros H c C. apply list_elem_of_In in C. specialize (H c C).
  unfold nonzero_byte. lia.
Qed.

Lemma free_check c s : forallb (fun d => negb (c =? d)) s = true -> free c s.
Proof.
  rewrite forallb_forall, list.Forall_forall. intros H d D. apply list_elem_of_In in D. apply negb_true_iff. by apply H.
Qed.

Lemma sample_url_writable : writable sample_url.
Proof.
  constructor; cbn [protocol user authmech host port path params query fragment sample_url].
  - exists (bs "imap"). split; [done|]. split; [done|]. by repeat constructor.
  - split; [by apply text_check|done].
  - split; [by apply text_check|done].
  - split; [by apply text_check|]. split; [by apply free_check|]. right. by repeat constructor.
  - lia.
  - split; [by apply text_check|]. split; [done|]. by eexists.
  - split; [|apply (bool_decide_unpack (NoDup [bs "use?"; bs "flag"])); reflexivity].
    repeat (constructor; [constructor; cbn [fst snd]; first [by apply text_check|by apply free_check|done]|]). constructor.
  - split; [by apply text_check|done].
  - split; [by apply text_check|done].
Qed.

Lemma url_decode_encode_witness :
  text (bs "50% of a/b") /\ camel_url_decode (camel_url_encode (bs "50% of a/b") (Some (bs "/"))) = bs "50% of a/b".
Proof.
  assert (T : text (bs "50% of a/b")) by (by apply text_check).
  split; [exact T|]. apply url_decode_encode. exact T.
Defined.

Lemma url_roundtrip_witness :
  camel_url_to_string sample_url 0 =
    bs "imap://a%3bb%40c;auth=+PLAIN@mail.example:993/in%20box;use%3f=a=b;flag?x%23y#100%25" /\
  camel_url_new (Some (camel_url_to_string sample_url 0)) = Some (Some sample_url).
Proof. split; [vm_compute; reflexivity|]. apply url_roundtrip. exact sample_url_writable. Defined.

(** A copy compares equal, and so has the same hash. *)
Lemma url_equal_hash_witness : let H : StrHash := fun s => fold_left Z.add s 5381 in
  camel_url_equal sample_url (camel_url_copy sample_url) = true /\
  camel_url_hash sample_url = camel_url_hash (camel_url_copy sample_url).
Proof. intros H. split; [reflexivity|]. apply url_equal_hash. reflexivity. Defined.

(** ** Examples of relative URLs *)

Example resolve_up : resolve_path (Some (bs "/a/b/c")) (bs "../x/./y") = Some (bs "/a/x/y").
Proof. reflexivity. Qed.
Example resolve_up_end : resolve_path (Some (bs "/a/b/c")) (bs "..") = Some (bs "/a/").
Proof. reflexivity. Qed.
(** "/." stays, the end of "/a/." does not. *)
Example resolve_dot : resolve_path (Some (bs "/a")) (bs ".") = Some (bs "/.") /\
  resolve_path (Some (bs "/a/b")) (bs ".") = Some (bs "/a/").
Proof. done. Qed.
(** Going up from the first level reads before the buffer. *)
Example resolve_above : resolve_path (Some (bs "/a")) (bs "..") = None.
Proof. reflexivity. Qed.
(** A parameter with a ';' is split, and an escaped host with a port stays escaped. *)
Example param_split :
  camel_url_new (Some (camel_url_to_string (URL (Some (bs "x")) None None None 0 None [(bs "a", bs "1;2")] None None) 0)) =
    Some (Some (URL (Some (bs "x")) None None None 0 None [(bs "a", bs "1"); (bs "2", [])] None None)).
Proof. reflexivity. Qed.
Example host_not_decoded :
  camel_url_new (Some (camel_url_to_string (URL (Some (bs "x")) None None (Some (bs "a b")) 5 None [] None None) 0)) =
    Some (Some (URL (Some (bs "x")) None None (Some (bs "a%20b")) 5 None [] None None)).
Proof. reflexivity. Qed.
