(* ===== verification/ObjectBag.v ===== *)
(** * ObjectBag: keyed objects with reservations (camel/camel-object-bag.c)

    Threads share a bag of objects; a thread reserves a key, makes the object
    and adds it, while others that ask for the key wait.  What runs between
    [g_mutex_lock] and [g_mutex_unlock] or [g_cond_wait] is one operation; a
    call that waits is two, before and after the condition variable.

    An operation is a function of the bag that answers [None] when it reads a
    freed key or reservation.  A key that the bag owns is an address ([kptr])
    in the store [keys]; objects are addresses, those of a [GWeakRef] and of the
    registered weak notifications; the threads and the objects alive are in
    [ObjectBagInv]. *)

From Stdlib Require Import ZArith Lia.
From stdpp Require Import base gmap sets list fin_maps.
From S2P Require Import Prelude.

Abbreviation addr := positive (only parsing).
Abbreviation tid := positive (only parsing).
Abbreviation kptr := positive (only parsing).
Abbreviation rid := positive (only parsing).

Section bag.
Context {K : Type} `{Countable K}.

Record KeyReservation := Reservation { r_key : K; waiters : nat; owner : option tid }.

(** [weak] is what [g_weak_ref_get] answers. *)
Record ObjRef := Ref { weak : option addr; obj : addr }.

(** An entry of [object_table] holds the address of its key. *)
Record CamelObjectBag := Bag {
  key_table : gmap addr kptr;
  object_table : gmap K (kptr * ObjRef);
  keys : gmap kptr K;
  reserved : list (rid * KeyReservation);
  notifies : list addr }.

Definition set_tables (bag : CamelObjectBag) (kt : gmap addr kptr) (ot : gmap K (kptr * ObjRef)) (ks : gmap kptr K)
    (ns : list addr) : CamelObjectBag := Bag kt ot ks (reserved bag) ns.
Definition set_reserved (bag : CamelObjectBag) (rs : list (rid * KeyReservation)) : CamelObjectBag :=
  Bag (key_table bag) (object_table bag) (keys bag) rs (notifies bag).

Definition camel_object_bag_new : CamelObjectBag := Bag empty empty empty [] [].

(** ** Reservations *)

Definition key_reservation_new (t : tid) (bag : CamelObjectBag) (key : K) : CamelObjectBag :=
  let r := fresh (list_to_set (map fst (reserved bag)) : gset rid) in
  set_reserved bag ((r, Reservation key 0 (Some t)) :: reserved bag).

(** The first reservation of the key. *)
Fixpoint find_reservation (l : list (rid * KeyReservation)) (key : K) : option (rid * KeyReservation) :=
  match l with
  | [] => None
  | (i, r) :: l => if decide (r_key r = key) then Some (i, r) else find_reservation l key
  end.
Definition key_reservation_lookup (bag : CamelObjectBag) (key : K) : option (rid * KeyReservation) :=
  find_reservation (reserved bag) key.

(** The reservation at an address; [None] when it has been freed. *)
Fixpoint at_rid (l : list (rid * KeyReservation)) (i : rid) : option KeyReservation :=
  match l with
  | [] => None
  | (j, r) :: l => if decide (j = i) then Some r else at_rid l i
  end.

(** Store through the address of a reservation. *)
Fixpoint put_rid (l : list (rid * KeyReservation)) (i : rid) (r : KeyReservation) : list (rid * KeyReservation) :=
  match l with
  | [] => []
  | (j, r') :: l => if decide (j = i) then (j, r) :: l else (j, r') :: put_rid l i r
  end.

Fixpoint remove_rid (l : list (rid * KeyReservation)) (i : rid) : list (rid * KeyReservation) :=
  match l with
  | [] => []
  | (j, r) :: l => if decide (j = i) then l else (j, r) :: remove_rid l i
  end.

Definition key_reservation_free (bag : CamelObjectBag) (i : rid) : CamelObjectBag :=
  set_reserved bag (remove_rid (reserved bag) i).

(** The bag, and the reservation whose condition is signalled. *)
Definition object_bag_unreserve (t : tid) (bag : CamelObjectBag) (key : K) : CamelObjectBag * option rid :=
  match key_reservation_lookup bag key with
  | None => (bag, None)
  | Some (i, r) =>
      if decide (owner r = Some t) then
        if (0 <? waiters r)%nat
        then (set_reserved bag (put_rid (reserved bag) i (Reservation (r_key r) (waiters r) None)), Some i)
        else (key_reservation_free bag i, None)
      else (bag, None)
  end.

(** ** The tables *)

(** Take one registration away. *)
Fixpoint weak_unref (l : list addr) (a : addr) : list addr :=
  match l with [] => [] | b :: l => if decide (b = a) then l else b :: weak_unref l a end.

Definition wref_free_func (ns : list addr) (ref : ObjRef) : list addr :=
  match weak ref with Some a => weak_unref ns a | None => ns end.

(** [g_hash_table_remove (bag->object_table, key)] frees the key and the reference. *)
Definition object_table_remove (bag : CamelObjectBag) (key : K) : CamelObjectBag :=
  match object_table bag !! key with
  | Some (p, ref) =>
      set_tables bag (key_table bag) (delete key (object_table bag)) (delete p (keys bag)) (wref_free_func (notifies bag) ref)
  | None => bag
  end.

(** [g_hash_table_insert (bag->object_table, key, ref)]: when the key is there,
    the one that is passed is freed, and the value that was there. *)
Definition object_table_insert (bag : CamelObjectBag) (key : K) (p : kptr) (ref : ObjRef) : CamelObjectBag :=
  match object_table bag !! key with
  | Some (p0, ref0) =>
      set_tables bag (key_table bag) (<[key := (p0, ref)]> (object_table bag)) (delete p (keys bag)) (wref_free_func (notifies bag) ref0)
  | None => set_tables bag (key_table bag) (<[key := (p, ref)]> (object_table bag)) (keys bag) (notifies bag)
  end.

Definition key_table_remove (bag : CamelObjectBag) (o : addr) : CamelObjectBag :=
  set_tables bag (delete o (key_table bag)) (object_table bag) (keys bag) (notifies bag).
Definition key_table_insert (bag : CamelObjectBag) (o : addr) (p : kptr) : CamelObjectBag :=
  set_tables bag (<[o := p]> (key_table bag)) (object_table bag) (keys bag) (notifies bag).
Definition key_copy (bag : CamelObjectBag) (key : K) : CamelObjectBag * kptr :=
  let p := fresh (dom (keys bag)) in
  (set_tables bag (key_table bag) (object_table bag) (<[p := key]> (keys bag)) (notifies bag), p).

(** The object of the key; a stale reference to a dead object is taken out. *)
Definition lookup_object (bag : CamelObjectBag) (key : K) : option addr * CamelObjectBag :=
  match object_table bag !! key with
  | Some (_, ref) =>
      match weak ref with
      | Some o => (Some o, bag)
      | None => (None, object_table_remove (key_table_remove bag (obj ref)) key)
      end
  | None => (None, bag)
  end.

(** What an object's key is; [Some None] for none, [None] for a freed key. *)
Definition key_of (bag : CamelObjectBag) (o : addr) : option (option K) :=
  match key_table bag !! o with
  | None => Some None
  | Some p => Some <$> keys bag !! p
  end.

(** Take the object and its key out. *)
Definition bag_forget (bag : CamelObjectBag) (o : addr) : option CamelObjectBag :=
  key ← key_of bag o;
  Some (match key with Some k => object_table_remove (key_table_remove bag o) k | None => bag end).

(** ** Operations *)

(** A call answers, or waits on a reservation. *)
Inductive answer := Return (o : option addr) | Wait (i : rid).

(** [reservation->waiters++], before the wait. *)
Definition begin_wait (bag : CamelObjectBag) (i : rid) (r : KeyReservation) : CamelObjectBag :=
  set_reserved bag (put_rid (reserved bag) i (Reservation (r_key r) (S (waiters r)) (owner r))).

Definition camel_object_bag_get (bag : CamelObjectBag) (key : K) : answer * CamelObjectBag :=
  match lookup_object bag key with
  | (Some o, bag) => (Return (Some o), bag)
  | (None, bag) =>
      match key_reservation_lookup bag key with
      | None => (Return None, bag)
      | Some (i, r) => (Wait i, begin_wait bag i r)
      end
  end.

(** After the wait, when the reservation has no owner. *)
Definition get_resume (t : tid) (bag : CamelObjectBag) (key : K) (i : rid) (r : KeyReservation) :
    option addr * CamelObjectBag * option rid :=
  let bag := set_reserved bag (put_rid (reserved bag) i (Reservation (r_key r) (pred (waiters r)) (owner r))) in
  let '(object, bag) := lookup_object bag key in
  let bag := set_reserved bag (put_rid (reserved bag) i (Reservation (r_key r) (pred (waiters r)) (Some t))) in
  let '(bag, signal) := object_bag_unreserve t bag key in
  (object, bag, signal).

Definition camel_object_bag_peek (bag : CamelObjectBag) (key : K) : option addr :=
  match object_table bag !! key with Some (_, ref) => weak ref | None => None end.

Definition camel_object_bag_reserve (t : tid) (bag : CamelObjectBag) (key : K) : answer * CamelObjectBag :=
  match lookup_object bag key with
  | (Some o, bag) => (Return (Some o), bag)
  | (None, bag) =>
      match key_reservation_lookup bag key with
      | None => (Return None, key_reservation_new t bag key)
      | Some (i, r) => (Wait i, begin_wait bag i r)
      end
  end.

Definition reserve_resume (t : tid) (bag : CamelObjectBag) (key : K) (i : rid) (r : KeyReservation) :
    option addr * CamelObjectBag * option rid :=
  let bag := set_reserved bag (put_rid (reserved bag) i (Reservation (r_key r) (pred (waiters r)) (Some t))) in
  let '(object, bag) := lookup_object bag key in
  match object with
  | Some o => let '(bag, signal) := object_bag_unreserve t bag key in (Some o, bag, signal)
  | None => (None, bag, None)
  end.

(** Is it the same object?  A stale reference is taken out. *)
Definition object_in_bag (bag : CamelObjectBag) (object : addr) : option (bool * CamelObjectBag) :=
  key ← key_of bag object;
  Some (match key with
        | None => (false, bag)
        | Some k =>
            match object_table bag !! k with
            | None => (false, bag)
            | Some (_, ref) =>
                match weak ref with
                | None => (false, object_table_remove (key_table_remove bag object) k)
                | Some o => (bool_decide (o = object), bag)
                end
            end
        end).

Definition camel_object_bag_add (t : tid) (bag : CamelObjectBag) (key : K) (object : addr) :
    option (CamelObjectBag * option rid) :=
  '(there, bag) ← object_in_bag bag object;
  if there : bool then Some (bag, None)
  else
    let '(bag, p) := key_copy bag key in
    let bag := key_table_insert bag object p in
    let bag := object_table_insert bag key p (Ref (Some object) object) in
    let '(bag, signal) := object_bag_unreserve t bag key in
    Some (set_tables bag (key_table bag) (object_table bag) (keys bag) (object :: notifies bag), signal).

Definition camel_object_bag_abort (t : tid) (bag : CamelObjectBag) (key : K) : CamelObjectBag * option rid :=
  object_bag_unreserve t bag key.

(** [None] also when a null reference would be stored. *)
Definition camel_object_bag_rekey (bag : CamelObjectBag) (object : addr) (new_key : K) : option CamelObjectBag :=
  key ← key_of bag object;
  match key with
  | None => Some bag
  | Some k =>
      '(_, ref) ← object_table bag !! k;
      let bag := set_tables bag (key_table bag) (delete k (object_table bag)) (keys bag) (notifies bag) in
      let bag := key_table_remove bag object in
      let '(bag, p) := key_copy bag new_key in
      let bag := object_table_insert bag new_key p ref in
      Some (key_table_insert bag object p)
  end.

Definition camel_object_bag_list (bag : CamelObjectBag) : list addr :=
  omap (fun e : K * (kptr * ObjRef) => weak (snd (snd e))) (map_to_list (object_table bag)).

Definition camel_object_bag_remove (bag : CamelObjectBag) (object : addr) : option CamelObjectBag := bag_forget bag object.

Definition object_bag_notify (bag : CamelObjectBag) (where_the_object_was : addr) : option CamelObjectBag :=
  bag_forget bag where_the_object_was.

(** The objects whose notification is left; [None] when the bag is kept. *)
Definition camel_object_bag_destroy (bag : CamelObjectBag) : option (list addr) :=
  match reserved bag with
  | [] => Some (fold_left (fun ns (e : K * (kptr * ObjRef)) => wref_free_func ns (snd (snd e))) (map_to_list (object_table bag)) (notifies bag))
  | _ => None
  end.

(** An object dies: its weak references answer NULL. *)
Definition clear_weak (a : addr) (bag : CamelObjectBag) : CamelObjectBag :=
  set_tables bag (key_table bag)
    ((fun e : kptr * ObjRef => (fst e, Ref (if decide (weak (snd e) = Some a) then None else weak (snd e)) (obj (snd e)))) <$> object_table bag)
    (keys bag) (filter (fun b => b <> a) (notifies bag)).

(** ** The system: threads, objects and the bag *)

Inductive call := CallGet | CallReserve.

(** A thread inside [g_cond_wait]; [awake] once it only waits for the mutex. *)
Record Waiter := Waiting { w_call : call; w_key : K; w_rid : rid; awake : bool }.

(** [held] are the keys that [camel_object_bag_reserve] answered NULL for, with
    the thread; [dying] the objects whose notification has not run. *)
Record System := Sys {
  bag : CamelObjectBag; threads : gmap tid Waiter; held : list (tid * K); alive : gset addr; dying : list addr }.

Definition system_init : System := Sys camel_object_bag_new empty [] empty [].

(** [g_cond_signal]: threads blocked on it wake up, so that at least one is awake
    when any waits. *)
Definition signalled (i : rid) (ws ws' : gmap tid Waiter) : Prop :=
  (forall t, match ws !! t with
             | Some w => exists b, ws' !! t = Some (Waiting (w_call w) (w_key w) (w_rid w) b) /\
                         (awake w = true -> b = true) /\ (b = true -> awake w = true \/ w_rid w = i)
             | None => ws' !! t = None end) /\
  ((exists t w, ws !! t = Some w /\ w_rid w = i) -> exists t w, ws' !! t = Some w /\ w_rid w = i /\ awake w = true).
Definition cond_signal (s : option rid) (ws ws' : gmap tid Waiter) : Prop :=
  match s with Some i => signalled i ws ws' | None => ws' = ws end.

(** The wait is over: the thread is served. *)
Definition resume (t : tid) (w : Waiter) (b : CamelObjectBag) (r : KeyReservation) : option addr * CamelObjectBag * option rid :=
  match w_call w with
  | CallGet => get_resume t b (w_key w) (w_rid w) r
  | CallReserve => reserve_resume t b (w_key w) (w_rid w) r
  end.

(** The keys held after a call to reserve that answered. *)
Definition now_held (c : call) (t : tid) (key : K) (o : option addr) (h : list (tid * K)) : list (tid * K) :=
  match c, o with CallReserve, None => (t, key) :: h | _, _ => h end.

Definition start (c : call) (t : tid) (b : CamelObjectBag) (key : K) : answer * CamelObjectBag :=
  match c with CallGet => camel_object_bag_get b key | CallReserve => camel_object_bag_reserve t b key end.

(** A thread in [g_cond_wait] does nothing else, and may wake up for no reason.
    The contract of the callers: a key is added or aborted by the thread that
    reserved it, with an object that is not in the bag, and an object gets a new
    key that is in use neither by an object nor by a reservation. *)
Inductive step : System -> System -> Prop :=
| StepReturn c t key o b' b ws h al dy :
    ws !! t = None -> start c t b key = (Return o, b') ->
    step (Sys b ws h al dy) (Sys b' ws (now_held c t key o h) al dy)
| StepWait c t key i r b' b ws h al dy :
    ws !! t = None -> start c t b key = (Wait i, b') -> at_rid (reserved b') i = Some r -> owner r <> None ->
    step (Sys b ws h al dy) (Sys b' (<[t := Waiting c key i false]> ws) h al dy)
| StepNoWait c t key i r b1 o b' sg ws' b ws h al dy :
    ws !! t = None -> start c t b key = (Wait i, b1) -> at_rid (reserved b1) i = Some r -> owner r = None ->
    resume t (Waiting c key i true) b1 r = (o, b', sg) -> cond_signal sg ws ws' ->
    step (Sys b ws h al dy) (Sys b' ws' (now_held c t key o h) al dy)
| StepBlock t w r b ws h al dy :
    ws !! t = Some w -> awake w = true -> at_rid (reserved b) (w_rid w) = Some r -> owner r <> None ->
    step (Sys b ws h al dy) (Sys b (<[t := Waiting (w_call w) (w_key w) (w_rid w) false]> ws) h al dy)
| StepResume t w r o b' sg ws' b ws h al dy :
    ws !! t = Some w -> awake w = true -> at_rid (reserved b) (w_rid w) = Some r -> owner r = None ->
    resume t w b r = (o, b', sg) -> cond_signal sg (delete t ws) ws' ->
    step (Sys b ws h al dy) (Sys b' ws' (now_held (w_call w) t (w_key w) o h) al dy)
| StepSpurious t w b ws h al dy :
    ws !! t = Some w ->
    step (Sys b ws h al dy) (Sys b (<[t := Waiting (w_call w) (w_key w) (w_rid w) true]> ws) h al dy)
| StepAdd t key object b' sg ws' b ws h al dy :
    ws !! t = None -> (t, key) ∈ h -> object ∈ al -> key_table b !! object = None ->
    camel_object_bag_add t b key object = Some (b', sg) -> cond_signal sg ws ws' ->
    step (Sys b ws h al dy) (Sys b' ws' (filter (fun p => p <> (t, key)) h) al dy)
| StepAbort t key b' sg ws' b ws h al dy :
    ws !! t = None -> (t, key) ∈ h -> camel_object_bag_abort t b key = (b', sg) -> cond_signal sg ws ws' ->
    step (Sys b ws h al dy) (Sys b' ws' (filter (fun p => p <> (t, key)) h) al dy)
| StepRekey object key b' b ws h al dy :
    object ∈ al -> object_table b !! key = None -> key_reservation_lookup b key = None ->
    camel_object_bag_rekey b object key = Some b' ->
    step (Sys b ws h al dy) (Sys b' ws h al dy)
| StepRemove object b' b ws h al dy :
    object ∈ al -> camel_object_bag_remove b object = Some b' ->
    step (Sys b ws h al dy) (Sys b' ws h al dy)
| StepNew a b ws h al dy :
    a ∉ al -> a ∉ dy -> step (Sys b ws h al dy) (Sys b ws h ({[a]} ∪ al) dy)
| StepDie a b ws h al dy :
    a ∈ al ->
    step (Sys b ws h al dy) (Sys (clear_weak a b) ws h (al ∖ {[a]}) (filter (fun x => x = a) (notifies b) ++ dy))
| StepNotify a dy1 dy2 b' b ws h al :
    object_bag_notify b a = Some b' ->
    step (Sys b ws h al (dy1 ++ a :: dy2)) (Sys b' ws h al (dy1 ++ dy2)).
End bag.
