(* ===== verification/ObjectBagInv.v ===== *)
(** * ObjectBagInv: what holds of a bag and its threads at every step *)

From Stdlib Require Import ZArith Lia.
From stdpp Require Import base gmap sets list fin_maps.
From S2P Require Import Prelude ObjectBag.

#[export] Instance call_eq_dec : EqDecision call.
Proof. solve_decision. Defined.

Section inv.
Context {K : Type} `{Countable K}.
Implicit Types (l : list (rid * KeyReservation (K := K))) (r : KeyReservation (K := K)) (ws : gmap tid (Waiter (K := K))).

(** ** The list of reservations *)

Lemma at_rid_In l i r : at_rid l i = Some r -> i ∈ map fst l.
Proof. induction l as [|[j r'] l IH]; [done|]. cbn. case_decide; [subst; intros _; left|intros ?%IH; by right]. Qed.

Lemma at_rid_none l i : i ∉ map fst l -> at_rid l i = None.
Proof. destruct (at_rid l i) eqn:E; [|done]. by apply at_rid_In in E. Qed.

Lemma map_fst_put l i r : map fst (put_rid l i r) = map fst l.
Proof. induction l as [|[j r'] l IH]; [done|]. cbn. case_decide; [done|]. cbn. by rewrite IH. Qed.

Lemma at_rid_put l i j r : at_rid (put_rid l i r) j = if decide (i = j) then (fun _ => r) <$> at_rid l j else at_rid l j.
Proof.
  induction l as [|[a r'] l IH]; [by case_decide|]. cbn. destruct (decide (a = i)) as [->|N]; cbn.
  - by repeat case_decide.
  - rewrite IH. repeat case_decide; by simplify_eq.
Qed.

Lemma remove_rid_sub l i : map fst (remove_rid l i) `sublist_of` map fst l.
Proof.
  induction l as [|[j r] l IH]; [done|]. cbn. case_decide; [by apply sublist_cons|]. cbn. by apply sublist_skip.
Qed.

Lemma at_rid_remove l i j : NoDup (map fst l) ->
  at_rid (remove_rid l i) j = if decide (i = j) then None else at_rid l j.
Proof.
  induction l as [|[a r] l IH]; [by case_decide|]. cbn [map fst remove_rid]. intros [NI ND]%NoDup_cons.
  destruct (decide (a = i)) as [->|A]; cbn [at_rid].
  - case_decide; [subst; by apply at_rid_none|done].
  - rewrite IH by done. repeat case_decide; by simplify_eq.
Qed.

Lemma find_reservation_some l k i r : NoDup (map fst l) -> find_reservation l k = Some (i, r) ->
  at_rid l i = Some r /\ r_key r = k.
Proof.
  induction l as [|[j r'] l IH]; [done|]. cbn [map fst find_reservation at_rid]. intros [NI ND]%NoDup_cons.
  case_decide; [intros [= -> ->]; by rewrite decide_True|]. intros F. destruct (IH ND F) as [A E].
  rewrite decide_False; [done|]. intros ->. by apply at_rid_In in A.
Qed.

Lemma find_reservation_none l k i r : find_reservation l k = None -> at_rid l i = Some r -> r_key r <> k.
Proof.
  induction l as [|[j r'] l IH]; [done|]. cbn. case_decide; [done|]. intros F. case_decide; [by intros [= <-]|]. by apply IH.
Qed.

(** ** The threads *)

(** How many wait on a reservation. *)
Definition waiting ws (i : rid) : nat := size (filter (fun tw : tid * Waiter => w_rid (snd tw) = i) ws).

Lemma waiting_insert ws t w i : ws !! t = None ->
  waiting (<[t := w]> ws) i = (if decide (w_rid w = i) then S (waiting ws i) else waiting ws i).
Proof.
  intros N. unfold waiting. rewrite map_filter_insert. cbn [snd].
  case_decide; [|by rewrite delete_id by done]. apply map_size_insert_None. by apply map_lookup_filter_None; left.
Qed.

Lemma waiting_delete ws t w i : ws !! t = Some w ->
  waiting ws i = (if decide (w_rid w = i) then S (waiting (delete t ws) i) else waiting (delete t ws) i).
Proof.
  intros S. rewrite <- (insert_delete_id ws t w S) at 1. apply waiting_insert. apply lookup_delete_eq.
Qed.

Lemma waiting_some ws i : (0 < waiting ws i)%nat -> exists t w, ws !! t = Some w /\ w_rid w = i.
Proof.
  intros P. unfold waiting in P. destruct (map_choose (filter (fun tw : tid * Waiter => w_rid (snd tw) = i) ws)) as (t & w & S).
  - intros E. rewrite E, map_size_empty in P. lia.
  - apply map_lookup_filter_Some in S as [S E]. by exists t, w.
Qed.

Lemma waiting_pos ws t w i : ws !! t = Some w -> w_rid w = i -> (0 < waiting ws i)%nat.
Proof. intros S E. rewrite (waiting_delete _ _ _ _ S), decide_True by done. lia. Qed.

(** What the threads have in common before and after a signal. *)
Definition same_waits ws ws' : Prop := forall t, (fun w => (w_call w, w_key w, w_rid w)) <$> ws !! t = (fun w => (w_call w, w_key w, w_rid w)) <$> ws' !! t.

Lemma same_waits_size ws ws' i : same_waits ws ws' -> waiting ws i = waiting ws' i.
Proof.
  intros S. unfold waiting.
  assert (E : dom (filter (fun tw : tid * Waiter => w_rid (snd tw) = i) ws) = dom (filter (fun tw : tid * Waiter => w_rid (snd tw) = i) ws')).
  { apply set_eq. intros t. rewrite !elem_of_dom. unfold is_Some. setoid_rewrite map_lookup_filter_Some. specialize (S t). cbn.
    destruct (ws !! t) as [w|], (ws' !! t) as [w'|]; cbn in S; try done.
    injection S as _ _ E. split; intros (x & [= <-] & <-); eauto. }
  by rewrite <- !size_dom, E.
Qed.

Lemma signalled_same i ws ws' : signalled i ws ws' -> same_waits ws ws'.
Proof.
  intros [S _] t. specialize (S t). destruct (ws !! t) as [w|]; [|by rewrite S]. destruct S as (b & -> & _). done.
Qed.

Lemma signalled_awake i ws ws' t w : signalled i ws ws' -> ws !! t = Some w -> awake w = true ->
  exists w', ws' !! t = Some w' /\ w_rid w' = w_rid w /\ awake w' = true.
Proof.
  intros [S _] L A. specialize (S t). rewrite L in S. destruct S as (b & E & B & _). exists (Waiting (w_call w) (w_key w) (w_rid w) b).
  cbn. auto.
Qed.

(** ** Reservations and threads *)

(** The reservations against the threads that wait and the keys that are held. *)
Record Reservations l ws (h : list (tid * K)) : Prop := {
  rs_nodup : NoDup (map fst l);
  rs_keys : forall i j r r', at_rid l i = Some r -> at_rid l j = Some r' -> r_key r = r_key r' -> i = j;
  rs_wait : forall t w, ws !! t = Some w -> exists r, at_rid l (w_rid w) = Some r /\ r_key r = w_key w;
  rs_count : forall i r, at_rid l i = Some r -> waiters r = waiting ws i;
  rs_awake : forall i r, at_rid l i = Some r -> owner r = None ->
    exists t w, ws !! t = Some w /\ w_rid w = i /\ awake w = true;
  rs_held : forall t k, (t, k) ∈ h <-> exists i r, at_rid l i = Some r /\ r_key r = k /\ owner r = Some t;
  rs_held_nodup : NoDup h }.

Lemma reservations_new t l ws h k i : Reservations l ws h -> find_reservation l k = None -> i ∉ map fst l ->
  Reservations ((i, Reservation k 0 (Some t)) :: l) ws ((t, k) :: h).
Proof.
  intros I F NI. pose proof (fun j r => find_reservation_none l k j r F) as NK.
  assert (W0 : waiting ws i = O).
  { destruct (waiting ws i) eqn:E; [done|]. destruct (waiting_some ws i) as (t' & w & S & R); [lia|].
    destruct (rs_wait _ _ _ I t' w S) as (r & A & _). rewrite R in A. by apply at_rid_In in A. }
  constructor; cbn [map fst at_rid].
  - apply NoDup_cons. split; [done|apply I].
  - intros a b ra rb A B E. destruct (decide (i = a)) as [<-|], (decide (i = b)) as [<-|]; [done| | |by eapply I].
    + injection A as <-. by destruct (NK _ _ B).
    + injection B as <-. by destruct (NK _ _ A).
  - intros t' w S. destruct (rs_wait _ _ _ I t' w S) as (r & A & E). exists r. case_decide; [|done].
    subst. by apply at_rid_In in A.
  - intros a r A. case_decide; [|by apply I]. injection A as <-. by subst.
  - intros a r A. case_decide; [by injection A as <-|]. by apply I.
  - intros t' k'. rewrite elem_of_cons, (rs_held _ _ _ I). split.
    + intros [[= -> ->]|(a & r & A & E & O)]; [exists i, (Reservation k 0 (Some t)); by rewrite decide_True|].
      exists a, r. rewrite decide_False; [done|]. intros ->. by apply at_rid_In in A.
    + intros (a & r & A & E & O). case_decide; [injection A as <-; left; cbn in *; congruence|]. right. by exists a, r.
  - apply NoDup_cons. split; [|apply I]. intros (a & r & A & E & _)%I. by destruct (NK _ _ A).
Qed.

(** The keys, owners and numbers of waiters do not move when a flag does. *)
Lemma reservations_same l ws ws' h : Reservations l ws h -> same_waits ws ws' ->
  (forall i r, at_rid l i = Some r -> owner r = None -> exists t w, ws' !! t = Some w /\ w_rid w = i /\ awake w = true) ->
  Reservations l ws' h.
Proof.
  intros I S A. constructor; try apply I; [| |done].
  - intros t w L. specialize (S t). rewrite L in S. destruct (ws !! t) as [w0|] eqn:L0; [|done].
    injection S as _ <- <-. by apply (rs_wait _ _ _ I t).
  - intros i r R. rewrite <- (same_waits_size ws) by done. by apply I.
Qed.

Lemma same_waits_flag ws t w b : ws !! t = Some w -> same_waits ws (<[t := Waiting (w_call w) (w_key w) (w_rid w) b]> ws).
Proof.
  intros S t'. destruct (decide (t = t')) as [<-|N]; [by rewrite lookup_insert_eq, S|by rewrite lookup_insert_ne].
Qed.

Lemma reservations_flag l ws h t w b : Reservations l ws h -> ws !! t = Some w ->
  (b = true \/ forall r, at_rid l (w_rid w) = Some r -> owner r <> None) ->
  Reservations l (<[t := Waiting (w_call w) (w_key w) (w_rid w) b]> ws) h.
Proof.
  intros I S B. eapply reservations_same; [done|by apply same_waits_flag|]. intros i r R O.
  destruct (rs_awake _ _ _ I i r R O) as (t' & w' & S' & R' & A). destruct (decide (t = t')) as [<-|N].
  - exists t, (Waiting (w_call w) (w_key w) (w_rid w) b). rewrite lookup_insert_eq. simplify_eq. split; [done|]. split; [done|].
    destruct B as [->|B]; [done|]. by destruct (B _ R).
  - exists t', w'. by rewrite lookup_insert_ne.
Qed.

Lemma reservations_begin_wait l ws h t c b i r : Reservations l ws h -> ws !! t = None -> at_rid l i = Some r ->
  Reservations (put_rid l i (Reservation (r_key r) (S (waiters r)) (owner r))) (<[t := Waiting c (r_key r) i b]> ws) h.
Proof.
  intros I N A.
  assert (P : forall j x, at_rid (put_rid l i (Reservation (r_key r) (S (waiters r)) (owner r))) j = Some x ->
    exists x0, at_rid l j = Some x0 /\ r_key x = r_key x0 /\ owner x = owner x0 /\
      waiters x = if decide (i = j) then S (waiters x0) else waiters x0).
  { intros j x. rewrite at_rid_put. destruct (decide (i = j)) as [<-|]; [|by exists x].
    rewrite A. intros [= <-]. by exists r. }
  constructor.
  - rewrite map_fst_put. apply I.
  - intros a b' ra rb (xa & A1 & K1 & _)%P (xb & B1 & K2 & _)%P E. eapply (rs_keys _ _ _ I); [done..|congruence].
  - intros t' w. rewrite at_rid_put. destruct (decide (t = t')) as [<-|NT].
    + rewrite lookup_insert_eq. intros [= <-]. cbn. rewrite decide_True, A by done. by eexists.
    + rewrite lookup_insert_ne by done. intros (x & R & E)%(rs_wait _ _ _ I). rewrite R.
      case_decide as D; [|by exists x]. rewrite <- D, A in R. injection R as ->. by eexists.
  - intros j x (x0 & R & _ & _ & ->)%P. rewrite waiting_insert by done. cbn. by rewrite (rs_count _ _ _ I _ _ R).
  - intros j x (x0 & R & _ & -> & _)%P O. destruct (rs_awake _ _ _ I _ _ R O) as (t' & w & S & E & W).
    exists t', w. rewrite lookup_insert_ne by congruence. done.
  - intros t' k. rewrite (rs_held _ _ _ I). split.
    + intros (j & x & R & E & O). destruct (at_rid (put_rid l i (Reservation (r_key r) (S (waiters r)) (owner r))) j) as [y|] eqn:Y.
      * exists j, y. destruct (P _ _ Y) as (y0 & R' & E1 & E2 & _). simplify_eq. by rewrite E1, E2.
      * rewrite at_rid_put, R in Y. by case_decide.
    + intros (j & x & (x0 & R & -> & -> & _)%P & E & O). by exists j, x0.
  - apply I.
Qed.

(** A thread that is served owns the reservation. *)
Lemma reservations_take l ws h t w r : Reservations l ws h -> ws !! t = Some w -> at_rid l (w_rid w) = Some r ->
  owner r = None ->
  Reservations (put_rid l (w_rid w) (Reservation (r_key r) (pred (waiters r)) (Some t))) (delete t ws) ((t, w_key w) :: h).
Proof.
  intros I S A O. set (i := w_rid w) in *. set (r' := Reservation (r_key r) (pred (waiters r)) (Some t)).
  assert (KW : r_key r = w_key w) by (destruct (rs_wait _ _ _ I t w S) as (x & X & E); fold i in X; congruence).
  assert (P : forall j x, at_rid (put_rid l i r') j = Some x ->
    (j = i /\ x = r') \/ (j <> i /\ at_rid l j = Some x)).
  { intros j x. rewrite at_rid_put. destruct (decide (i = j)) as [<-|]; [|right; done]. rewrite A. intros [= <-]. by left. }
  assert (Q : forall j x, at_rid l j = Some x -> exists y, at_rid (put_rid l i r') j = Some y /\ r_key y = r_key x).
  { intros j x R. rewrite at_rid_put. destruct (decide (i = j)) as [<-|]; [|by exists x]. rewrite A. exists r'. split; [done|].
    rewrite A in R. by injection R as <-. }
  constructor.
  - rewrite map_fst_put. apply I.
  - intros a b ra rb [[-> ->]|[NA R1]]%P [[-> ->]|[NB R2]]%P E; [done| | |by eapply I]; cbn in E.
    + destruct NB. by apply (rs_keys _ _ _ I _ _ _ _ R2 A).
    + destruct NA. by apply (rs_keys _ _ _ I _ _ _ _ R1 A).
  - intros t' w' [N L]%lookup_delete_Some. destruct (rs_wait _ _ _ I _ _ L) as (x & R & <-). by apply Q.
  - intros j x X. pose proof (waiting_delete ws t w j S) as D. fold i in D. destruct (P _ _ X) as [[-> ->]|[N R]].
    + rewrite decide_True in D by done. cbn. rewrite (rs_count _ _ _ I _ _ A), D. done.
    + rewrite decide_False in D by done. by rewrite (rs_count _ _ _ I _ _ R).
  - intros j x [[-> ->]|[N R]]%P O'; [done|]. destruct (rs_awake _ _ _ I _ _ R O') as (t' & w' & L & E & W).
    exists t', w'. rewrite lookup_delete_ne; [done|]. intros <-. by simplify_eq.
  - intros t' k. rewrite elem_of_cons, (rs_held _ _ _ I). split.
    + intros [[= -> ->]|(j & x & R & E & O')]; [exists i, r'; rewrite at_rid_put, decide_True, A; done|].
      exists j, x. rewrite at_rid_put, decide_False; [done|]. intros <-. congruence.
    + intros (j & x & [[-> ->]|[N R]]%P & E & O'); [left; cbn in *; congruence|right; by exists j, x].
  - apply NoDup_cons. split; [|apply I]. intros (j & x & R & E & O')%(rs_held _ _ _ I).
    assert (j = i) by (eapply (rs_keys _ _ _ I); [done..|congruence]). congruence.
Qed.

(** Who holds a key has its reservation. *)
Lemma held_reservation l ws h t k : Reservations l ws h -> (t, k) ∈ h ->
  exists i r, find_reservation l k = Some (i, r) /\ at_rid l i = Some r /\ r_key r = k /\ owner r = Some t.
Proof.
  intros I (i & r & A & E & O)%(rs_held _ _ _ I). destruct (find_reservation l k) as [[j x]|] eqn:F.
  - destruct (find_reservation_some _ _ _ _ (rs_nodup _ _ _ I) F) as [B E']. exists j, x. split; [done|].
    assert (i = j) as <- by (eapply (rs_keys _ _ _ I); [done..|congruence]). by simplify_eq.
  - by destruct (find_reservation_none _ _ _ _ F A).
Qed.

(** Two reservations that agree but for the owner of one. *)
Lemma reservations_disown l ws h t i r : Reservations l ws h -> at_rid l i = Some r -> owner r = Some t ->
  (exists t' w, ws !! t' = Some w /\ w_rid w = i /\ awake w = true) ->
  Reservations (put_rid l i (Reservation (r_key r) (waiters r) None)) ws (filter (fun p => p <> (t, r_key r)) h).
Proof.
  intros I A O W. set (r' := Reservation (r_key r) (waiters r) None).
  assert (P : forall j x, at_rid (put_rid l i r') j = Some x -> exists y, at_rid l j = Some y /\ r_key x = r_key y /\
    waiters x = waiters y /\ (j = i /\ owner x = None \/ j <> i /\ owner x = owner y)).
  { intros j x. rewrite at_rid_put. destruct (decide (i = j)) as [<-|N]; [rewrite A; intros [= <-]; exists r; split_and!; [done..|by left]|].
    intros R. exists x. split_and!; [done..|by right]. }
  assert (Q : forall j x, at_rid l j = Some x -> exists y, at_rid (put_rid l i r') j = Some y /\ r_key y = r_key x).
  { intros j x R. rewrite at_rid_put. destruct (decide (i = j)) as [<-|]; [|by exists x]. rewrite A in *. exists r'. split; [done|].
    by injection R as <-. }
  constructor.
  - rewrite map_fst_put. apply I.
  - intros a b ra rb (xa & A1 & K1 & _)%P (xb & B1 & K2 & _)%P E. eapply (rs_keys _ _ _ I); [done..|congruence].
  - intros t' w (x & R & <-)%(rs_wait _ _ _ I). by apply Q.
  - intros j x (y & R & _ & -> & _)%P. by apply I.
  - intros j x (y & R & _ & _ & [[-> _]|[_ E]])%P O'; [done|]. apply (rs_awake _ _ _ I _ _ R). congruence.
  - intros t' k. rewrite list_elem_of_filter, (rs_held _ _ _ I). split.
    + intros [N (j & x & R & E & O')]. exists j, x. rewrite at_rid_put, decide_False; [done|]. intros <-. congruence.
    + intros (j & x & (y & R & E1 & _ & [[-> E2]|[N E2]])%P & E & O'); [congruence|]. split; [|exists j, y; split; [done|split; congruence]].
      intros [= -> ->]. destruct N. eapply (rs_keys _ _ _ I); [done..|congruence].
  - apply NoDup_filter, I.
Qed.

Lemma reservations_free l ws h t i r : Reservations l ws h -> at_rid l i = Some r -> owner r = Some t -> waiters r = O ->
  Reservations (remove_rid l i) ws (filter (fun p => p <> (t, r_key r)) h).
Proof.
  intros I A O W.
  assert (P : forall j x, at_rid (remove_rid l i) j = Some x <-> j <> i /\ at_rid l j = Some x).
  { intros j x. rewrite at_rid_remove by apply I. destruct (decide (i = j)) as [->|]; naive_solver. }
  constructor.
  - eapply sublist_NoDup; [apply I|apply remove_rid_sub].
  - intros a b ra rb [_ R1]%P [_ R2]%P. by eapply I.
  - intros t' w L. destruct (rs_wait _ _ _ I _ _ L) as (x & R & E). exists x. split; [|done]. apply P. split; [|done].
    intros N. pose proof (waiting_pos _ _ _ _ L N) as Z. rewrite <- (rs_count _ _ _ I _ _ A) in Z. lia.
  - intros j x [_ R]%P. by apply I.
  - intros j x [_ R]%P. by apply I.
  - intros t' k. rewrite list_elem_of_filter, (rs_held _ _ _ I). split.
    + intros [N (j & x & R & E & O')]. exists j, x. split; [|done]. apply P. split; [|done]. intros ->. congruence.
    + intros (j & x & [N R]%P & E & O'). split; [|by exists j, x]. intros [= -> ->]. destruct N.
      eapply (rs_keys _ _ _ I); [done..|congruence].
  - apply NoDup_filter, I.
Qed.

(** The holder of a key gives it back: no reservation of the key has an owner. *)
Lemma unreserve_ok t b k b' sg ws ws' h : Reservations (reserved b) ws h -> (t, k) ∈ h ->
  object_bag_unreserve t b k = (b', sg) -> cond_signal sg ws ws' ->
  Reservations (reserved b') ws' (filter (fun p => p <> (t, k)) h) /\ b' = set_reserved b (reserved b') /\
  (forall i r, at_rid (reserved b') i = Some r -> r_key r = k -> owner r = None).
Proof.
  intros I H1 U S. destruct (held_reservation _ _ _ _ _ I H1) as (i & r & F & A & <- & O).
  unfold object_bag_unreserve, key_reservation_lookup in U. rewrite F, decide_True in U by done.
  destruct (0 <? waiters r)%nat eqn:W; injection U as <- <-; cbn [set_reserved reserved key_reservation_free].
  - apply Nat.ltb_lt in W. pose proof (signalled_same _ _ _ S) as SW. split; [|split; [done|]].
    + apply reservations_disown; [|done|done|].
      * eapply reservations_same; [done|done|]. intros j x R O'. destruct (rs_awake _ _ _ I _ _ R O') as (t' & w & L & <- & AW).
        destruct (signalled_awake _ _ _ _ _ S L AW) as (w' & ?). by exists t', w'.
      * apply S. apply waiting_some. by rewrite <- (rs_count _ _ _ I _ _ A).
    + intros j x. rewrite at_rid_put. case_decide; [subst; rewrite A; by intros [= <-]|]. intros R E. destruct (decide (j = i)); [done|].
      by destruct (rs_keys _ _ _ I _ _ _ _ R A E).
  - apply Nat.ltb_ge in W. cbn in S. subst ws'. split; [|split; [done|]].
    + apply reservations_free; [done..|lia].
    + intros j x. rewrite at_rid_remove by apply I. case_decide; [done|]. intros R E. by destruct (rs_keys _ _ _ I _ _ _ _ R A E).
Qed.

(** ** The two tables *)

(** An object's key is the address of the key of its entry, and the other way round. *)
Record Links (kt : gmap addr kptr) (ot : gmap K (kptr * ObjRef)) (ks : gmap kptr K) : Prop := {
  ln_key : forall o p, kt !! o = Some p -> exists k ref, ks !! p = Some k /\ ot !! k = Some (p, ref) /\ obj ref = o;
  ln_obj : forall k p ref, ot !! k = Some (p, ref) -> ks !! p = Some k /\ kt !! obj ref = Some p }.

(** A reference is to an object alive that has the bag's notification, or it is
    cleared and the notification is on its way. *)
Record Refs (ot : gmap K (kptr * ObjRef)) (ns : list addr) (al : gset addr) (dy : list addr) : Prop := {
  rf_weak : forall k p ref, ot !! k = Some (p, ref) ->
    match weak ref with Some a => a = obj ref /\ a ∈ al /\ a ∈ ns | None => obj ref ∈ dy end;
  rf_notifies : forall a, a ∈ ns -> exists k p ref, ot !! k = Some (p, ref) /\ weak ref = Some a;
  rf_nodup : NoDup ns;
  rf_dying : NoDup dy /\ forall a, a ∈ dy -> a ∉ al }.

Lemma links_inj kt ot ks k k' p p' ref ref' : Links kt ot ks -> ot !! k = Some (p, ref) -> ot !! k' = Some (p', ref') ->
  (p = p' \/ obj ref = obj ref') -> k = k'.
Proof.
  intros L [A1 A2]%(ln_obj _ _ _ L) [B1 B2]%(ln_obj _ _ _ L) [->|E]; [congruence|]. rewrite E in A2. congruence.
Qed.

Lemma links_delete kt ot ks k p ref : Links kt ot ks -> ot !! k = Some (p, ref) ->
  Links (delete (obj ref) kt) (delete k ot) ks /\ Links (delete (obj ref) kt) (delete k ot) (delete p ks).
Proof.
  intros L E.
  assert (A : forall o q, delete (obj ref) kt !! o = Some q -> exists k' ref', q <> p /\ ks !! q = Some k' /\
    delete k ot !! k' = Some (q, ref') /\ obj ref' = o).
  { intros o q [N (k' & ref' & X & Y & Z)%(ln_key _ _ _ L)]%lookup_delete_Some. exists k', ref'.
    assert (NK : k <> k') by (intros <-; simplify_eq). split; [intros ->|by rewrite lookup_delete_ne].
    destruct NK. by apply (links_inj _ _ _ _ _ _ _ _ _ L E Y); left. }
  assert (B : forall k' q ref', delete k ot !! k' = Some (q, ref') -> ks !! q = Some k' /\ q <> p /\ delete (obj ref) kt !! obj ref' = Some q).
  { intros k' q ref' [N Y]%lookup_delete_Some. destruct (ln_obj _ _ _ L _ _ _ Y) as [X Z]. split; [done|].
    assert (q <> p /\ obj ref <> obj ref') as [? ?]; [|by rewrite lookup_delete_ne].
    split; intros C; destruct N; apply (links_inj _ _ _ _ _ _ _ _ _ L E Y); [left|right]; congruence. }
  split; constructor; intros.
  - destruct (A _ _ H0) as (k' & ref' & _ & ?). eauto.
  - destruct (B _ _ _ H0) as (? & _ & ?). done.
  - destruct (A _ _ H0) as (k' & ref' & N & ?). exists k', ref'. by rewrite lookup_delete_ne.
  - destruct (B _ _ _ H0) as (? & N & ?). by rewrite lookup_delete_ne.
Qed.

Lemma links_insert kt ot ks k p ref : Links kt ot ks -> kt !! obj ref = None -> ot !! k = None -> ks !! p = None ->
  Links (<[obj ref := p]> kt) (<[k := (p, ref)]> ot) (<[p := k]> ks).
Proof.
  intros L NK NO NP. constructor.
  - intros o q [[<- <-]|[N (k' & ref' & X & Y & Z)%(ln_key _ _ _ L)]]%lookup_insert_Some.
    + exists k, ref. by rewrite !lookup_insert_eq.
    + exists k', ref'. rewrite !lookup_insert_ne by congruence. done.
  - intros k' q ref' [[<- [= <- <-]]|[N Y]]%lookup_insert_Some; [by rewrite !lookup_insert_eq|].
    destruct (ln_obj _ _ _ L _ _ _ Y) as [X Z]. rewrite !lookup_insert_ne by congruence. done.
Qed.

Lemma elem_of_weak_unref (l : list addr) a x : NoDup l -> x ∈ weak_unref l a <-> x ∈ l /\ x <> a.
Proof.
  induction 1 as [|y l N ND IH]; [split; [by intros ?%elem_of_nil|by intros [?%elem_of_nil _]]|]. cbn. case_decide.
  - subst. rewrite elem_of_cons. naive_solver.
  - rewrite !elem_of_cons, IH. naive_solver.
Qed.

Lemma weak_unref_nodup (l : list addr) a : NoDup l -> NoDup (weak_unref l a).
Proof.
  induction 1 as [|y l N ND IH]; [constructor|]. cbn. case_decide; [done|]. apply NoDup_cons. split; [|done].
  rewrite elem_of_weak_unref by done. tauto.
Qed.

Lemma refs_delete kt ot ks ns al dy k p ref : Links kt ot ks -> Refs ot ns al dy -> ot !! k = Some (p, ref) ->
  Refs (delete k ot) (wref_free_func ns ref) al dy.
Proof.
  intros L R E. pose proof (rf_weak _ _ _ _ R _ _ _ E) as W. unfold wref_free_func. constructor.
  - intros k' p' ref' [N E']%lookup_delete_Some. pose proof (rf_weak _ _ _ _ R _ _ _ E') as W'.
    destruct (weak ref') as [a'|]; [|done]. destruct W' as (-> & ? & ?). split_and!; [done..|].
    destruct (weak ref) as [a|]; [|done]. destruct W as (-> & _). rewrite elem_of_weak_unref by apply R. split; [done|].
    intros C. destruct N. by apply (links_inj _ _ _ _ _ _ _ _ _ L E E'); right.
  - intros a IN. assert (IN' : a ∈ ns /\ weak ref <> Some a).
    { destruct (weak ref) as [b|]; [|done]. rewrite elem_of_weak_unref in IN by apply R. destruct IN. split; [done|congruence]. }
    destruct IN' as [(k' & p' & ref' & E' & W')%(rf_notifies _ _ _ _ R) N]. exists k', p', ref'. split; [|done].
    rewrite lookup_delete_ne; [done|]. intros <-. by simplify_eq.
  - destruct (weak ref); [apply weak_unref_nodup|]; apply R.
  - apply R.
Qed.

Lemma refs_insert ot ns al dy k p o : Refs ot ns al dy -> ot !! k = None -> o ∈ al -> o ∉ ns ->
  Refs (<[k := (p, Ref (Some o) o)]> ot) (o :: ns) al dy.
Proof.
  intros R N A NN. constructor.
  - intros k' p' ref' [[<- [= <- <-]]|[NK E]]%lookup_insert_Some; cbn; [split_and!; [done..|by left]|].
    pose proof (rf_weak _ _ _ _ R _ _ _ E) as W. destruct (weak ref'); [|done]. destruct W as (? & ? & ?). split_and!; [done..|by right].
  - intros a [->|(k' & p' & ref' & E & W)%(rf_notifies _ _ _ _ R)]%elem_of_cons; [exists k, p, (Ref (Some o) o); by rewrite lookup_insert_eq|].
    exists k', p', ref'. rewrite lookup_insert_ne by congruence. done.
  - apply NoDup_cons. split; [done|apply R].
  - apply R.
Qed.

(** The tables of a bag. *)
Definition Tables (b : CamelObjectBag (K := K)) (al : gset addr) (dy : list addr) : Prop :=
  Links (key_table b) (object_table b) (keys b) /\ Refs (object_table b) (notifies b) al dy.

Lemma tables_reserved b rs al dy : Tables (set_reserved b rs) al dy <-> Tables b al dy.
Proof. done. Qed.

(** Taking an entry out. *)
Lemma tables_remove b al dy k p ref : Tables b al dy -> object_table b !! k = Some (p, ref) ->
  Tables (object_table_remove (key_table_remove b (obj ref)) k) al dy.
Proof.
  intros [L R] E. unfold object_table_remove, key_table_remove. cbn [object_table set_tables]. rewrite E.
  split; cbn; [by eapply links_delete|by eapply refs_delete].
Qed.

(** What an operation that only takes entries out does. *)
Definition shrinks (b b' : CamelObjectBag (K := K)) : Prop :=
  reserved b' = reserved b /\ forall k e, object_table b' !! k = Some e -> object_table b !! k = Some e.

Lemma shrinks_remove b o k : shrinks b (object_table_remove (key_table_remove b o) k).
Proof.
  unfold shrinks, object_table_remove, key_table_remove. cbn. destruct (object_table b !! k) as [[p ref]|]; [|done]. cbn.
  split; [done|]. intros k' e. by intros [_ ?]%lookup_delete_Some.
Qed.

Lemma lookup_object_ok b al dy k o b' : Tables b al dy -> lookup_object b k = (o, b') ->
  Tables b' al dy /\ shrinks b b' /\
  match o with Some a => b' = b /\ a ∈ al /\ camel_object_bag_peek b k = Some a | None => object_table b' !! k = None end.
Proof.
  intros T. unfold lookup_object, camel_object_bag_peek. destruct (object_table b !! k) as [[p ref]|] eqn:E; [|by intros [= <- <-]].
  pose proof (rf_weak _ _ _ _ (proj2 T) _ _ _ E) as W. destruct (weak ref) as [a|] eqn:WR; intros [= <- <-].
  - split_and!; try done. by destruct W as (_ & ? & _).
  - split_and!; [by eapply tables_remove|apply shrinks_remove|].
    unfold object_table_remove, key_table_remove. cbn. rewrite E. cbn. apply lookup_delete_eq.
Qed.

Lemma key_of_spec b al dy o : Tables b al dy ->
  match key_table b !! o with
  | None => key_of b o = Some None
  | Some p => exists k ref, key_of b o = Some (Some k) /\ object_table b !! k = Some (p, ref) /\ obj ref = o
  end.
Proof.
  intros [L _]. unfold key_of. destruct (key_table b !! o) as [p|] eqn:E; [|done].
  destruct (ln_key _ _ _ L _ _ E) as (k & ref & -> & ? & ?). by exists k, ref.
Qed.

Lemma forget_ok b al dy o : Tables b al dy ->
  exists b', bag_forget b o = Some b' /\ Tables b' al dy /\ shrinks b b' /\ key_table b' !! o = None.
Proof.
  intros T. pose proof (key_of_spec _ _ _ o T) as KO. unfold bag_forget. destruct (key_table b !! o) as [p|] eqn:E.
  - destruct KO as (k & ref & -> & EO & <-). eexists. split; [done|]. split; [by eapply tables_remove|].
    split; [apply shrinks_remove|]. unfold object_table_remove, key_table_remove. cbn. rewrite EO. cbn. apply lookup_delete_eq.
  - rewrite KO. by exists b.
Qed.

(** Handing a key back looks at the reservations only. *)
Lemma unreserve_reserved t (b1 b2 : CamelObjectBag (K := K)) k : reserved b1 = reserved b2 ->
  exists rs sg, object_bag_unreserve t b1 k = (set_reserved b1 rs, sg) /\ object_bag_unreserve t b2 k = (set_reserved b2 rs, sg).
Proof.
  intros E. destruct b1 as [kt1 ot1 ks1 rs ns1], b2 as [kt2 ot2 ks2 rs2 ns2]. cbn in E. subst rs2.
  unfold object_bag_unreserve, key_reservation_lookup, key_reservation_free, set_reserved. cbn.
  destruct (find_reservation rs k) as [[i r]|]; [|by eexists _, _]. case_decide; [|by eexists _, _].
  destruct (waiters r); by eexists _, _.
Qed.

Lemma no_notification b al dy o : Tables b al dy -> key_table b !! o = None -> o ∉ notifies b.
Proof.
  intros [L R] N (k & p & ref & E & W)%(rf_notifies _ _ _ _ R). pose proof (rf_weak _ _ _ _ R _ _ _ E) as X.
  rewrite W in X. destruct X as (-> & _). destruct (ln_obj _ _ _ L _ _ _ E) as [_ F]. congruence.
Qed.

Lemma add_ok t b al dy k o : Tables b al dy -> o ∈ al -> key_table b !! o = None -> object_table b !! k = None ->
  exists b' p rs sg, camel_object_bag_add t b k o = Some (b', sg) /\ object_bag_unreserve t b k = (set_reserved b rs, sg) /\
    reserved b' = rs /\ Tables b' al dy /\ object_table b' = <[k := (p, Ref (Some o) o)]> (object_table b).
Proof.
  intros T A NK NO. unfold camel_object_bag_add, object_in_bag, key_of. rewrite NK. cbn [mbind option_bind].
  unfold key_copy. set (p := fresh (dom (keys b))). unfold object_table_insert, key_table_insert, set_tables.
  cbn [key_table object_table keys notifies reserved]. rewrite NO.
  match goal with |- context [object_bag_unreserve t ?b _] => set (b1 := b) end.
  destruct (unreserve_reserved t b1 b k eq_refl) as (rs & sg & E1 & E2). rewrite E1, E2.
  eexists _, p, rs, sg. split_and!; [done..| |done]. destruct T as [L R]. split; cbn.
  - apply (links_insert _ _ _ k p (Ref (Some o) o)); [done..|]. apply not_elem_of_dom, is_fresh.
  - apply refs_insert; [done..|]. by apply (no_notification b al dy).
Qed.

Lemma alive_entry b al dy o p k ref : Tables b al dy -> o ∈ al -> object_table b !! k = Some (p, ref) -> obj ref = o ->
  weak ref = Some o.
Proof.
  intros [_ R] A E <-. pose proof (rf_weak _ _ _ _ R _ _ _ E) as W. destruct (weak ref); [by destruct W as [-> _]|].
  by apply (rf_dying _ _ _ _ R) in W.
Qed.

Lemma rekey_ok b al dy o k : Tables b al dy -> o ∈ al -> object_table b !! k = None ->
  exists b', camel_object_bag_rekey b o k = Some b' /\ reserved b' = reserved b /\ Tables b' al dy /\
  match key_table b !! o with
  | None => b' = b
  | Some q => exists k0 p, object_table b !! k0 = Some (q, Ref (Some o) o) /\
                object_table b' = <[k := (p, Ref (Some o) o)]> (delete k0 (object_table b))
  end.
Proof.
  intros T A NO. pose proof (key_of_spec _ _ _ o T) as KO. unfold camel_object_bag_rekey.
  destruct (key_table b !! o) as [q|]; [|rewrite KO; by exists b].
  destruct KO as (k0 & ref & -> & E & OE). pose proof (alive_entry _ _ _ _ _ _ _ T A E OE) as WE.
  destruct ref as [w o']. cbn in OE, WE. subst o' w. cbn [mbind option_bind]. rewrite E. cbn [mbind option_bind].
  unfold key_copy, key_table_remove, object_table_insert, set_tables. cbn [key_table object_table keys notifies reserved].
  set (p := fresh (dom (keys b))).
  assert (ND : delete k0 (object_table b) !! k = None) by (apply lookup_delete_None; by right).
  rewrite ND. eexists. split; [done|]. split; [done|]. split; [|by exists k0, p].
  destruct T as [L R]. split; cbn.
  - apply (links_insert _ _ _ k p (Ref (Some o) o)); [by apply (links_delete _ _ _ _ _ _ L E)|apply lookup_delete_eq|done|].
    apply not_elem_of_dom, is_fresh.
  - assert (IN : o ∈ notifies b) by (by destruct (rf_weak _ _ _ _ R _ _ _ E) as (_ & _ & ?)). constructor; [| |apply R..].
    + intros k' p' ref' [[<- [= <- <-]]|[_ [_ E']%lookup_delete_Some]]%lookup_insert_Some; [done|by eapply R].
    + intros a (k' & p' & ref' & E' & W)%(rf_notifies _ _ _ _ R). destruct (decide (k0 = k')) as [<-|N].
      * rewrite E in E'. injection E' as <- <-. exists k, p, (Ref (Some o) o). by rewrite lookup_insert_eq.
      * exists k', p', ref'. rewrite lookup_insert_ne, lookup_delete_ne by congruence. done.
Qed.

Lemma die_ok b al dy a : Tables b al dy -> a ∈ al ->
  Tables (clear_weak a b) (al ∖ {[a]}) (filter (fun x => x = a) (notifies b) ++ dy).
Proof.
  intros [L R] A. destruct (rf_dying _ _ _ _ R) as [ND NA]. unfold clear_weak.
  split; cbn; constructor.
  - intros o p (k & ref & X & Y & Z)%(ln_key _ _ _ L). exists k. eexists. split; [done|]. rewrite lookup_fmap, Y. by cbn.
  - intros k p ref. rewrite lookup_fmap. intros ([p' ref'] & E & [= -> ->])%fmap_Some. cbn. by apply L.
  - intros k p ref. rewrite lookup_fmap. intros ([p' ref'] & E & [= -> ->])%fmap_Some. cbn [fst snd weak obj].
    pose proof (rf_weak _ _ _ _ R _ _ _ E) as W. case_decide as D.
    + rewrite D in W. destruct W as (<- & _ & ?). apply elem_of_app. left. by apply list_elem_of_filter.
    + destruct (weak ref') as [x|]; [|apply elem_of_app; by right]. destruct W as (? & ? & ?). rewrite list_elem_of_filter. set_solver.
  - intros x [N (k & p & ref & E & W)%(rf_notifies _ _ _ _ R)]%list_elem_of_filter. exists k, p. eexists.
    rewrite lookup_fmap, E. split; [by cbn|]. cbn. rewrite decide_False; [done|]. congruence.
  - apply NoDup_filter, R.
  - split.
    + apply NoDup_app. split; [apply NoDup_filter, R|]. split; [|done]. intros x [-> _]%list_elem_of_filter I. by apply NA in I.
    + intros x [[-> _]%list_elem_of_filter|I]%elem_of_app; [set_solver|]. apply NA in I. set_solver.
Qed.

Lemma notify_ok b al dy1 dy2 a b' : Tables b al (dy1 ++ a :: dy2) -> object_bag_notify b a = Some b' ->
  Tables b' al (dy1 ++ dy2) /\ shrinks b b'.
Proof.
  intros T N. destruct (forget_ok _ _ _ a T) as (b0 & F & [L R] & S & KN). unfold object_bag_notify in N. simplify_eq.
  split; [|done]. split; [done|]. constructor; try apply R.
  - intros k p ref E. pose proof (rf_weak _ _ _ _ R _ _ _ E) as W. destruct (weak ref); [done|].
    destruct (ln_obj _ _ _ L _ _ _ E) as [_ X]. assert (obj ref <> a) by congruence.
    rewrite elem_of_app, elem_of_cons in W. rewrite elem_of_app. tauto.
  - destruct (rf_dying _ _ _ _ R) as [ND NA]. split.
    + eapply sublist_NoDup; [done|]. apply sublist_app; [done|]. by apply sublist_cons.
    + intros x I. apply NA. set_solver.
Qed.

(** ** The invariant *)

(** A key that is held is no object's. *)
Definition Free (b : CamelObjectBag (K := K)) (h : list (tid * K)) : Prop := forall t k, (t, k) ∈ h -> object_table b !! k = None.

Record Inv (s : System (K := K)) : Prop := {
  iv_res : Reservations (reserved (bag s)) (threads s) (held s);
  iv_tab : Tables (bag s) (alive s) (dying s);
  iv_free : Free (bag s) (held s) }.

Lemma free_shrinks b b' h : shrinks b b' -> Free b h -> Free b' h.
Proof.
  intros [_ S] F t k I. destruct (object_table b' !! k) eqn:E; [|done]. apply S in E. by rewrite (F t k I) in E.
Qed.

Lemma inv_init : Inv system_init.
Proof.
  split; cbn.
  - constructor; cbn; try done; [constructor| |constructor]. intros t k. split; [by intros ?%elem_of_nil|by intros (? & ? & ? & _)].
  - split; constructor; cbn; try done; try constructor; [by intros a ?%elem_of_nil|constructor|by intros a ?%elem_of_nil].
  - by intros t k ?%elem_of_nil.
Qed.

(** A call that starts answers, or finds the reservation of its key. *)
Lemma start_ok c t b ws h al dy k a b' : Inv (Sys b ws h al dy) -> start c t b k = (a, b') ->
  match a with
  | Return o => Inv (Sys b' ws (now_held c t k o h) al dy) /\ (forall x, o = Some x -> x ∈ al /\ camel_object_bag_peek b k = Some x)
  | Wait i => exists r, at_rid (reserved b) i = Some r /\ r_key r = k /\ object_table b' !! k = None /\
      reserved b' = put_rid (reserved b) i (Reservation (r_key r) (S (waiters r)) (owner r)) /\ Tables b' al dy /\ Free b' h
  end.
Proof.
  intros [R T F] E; cbn in R, T, F.
  assert (X : exists o b1, lookup_object b k = (o, b1)) by (destruct (lookup_object b k); eauto). destruct X as (o & b1 & L).
  destruct (lookup_object_ok _ _ _ _ _ _ T L) as (T1 & S1 & O). pose proof (free_shrinks _ _ _ S1 F) as F1.
  assert (X : match o with Some x => (a, b') = (Return (Some x), b1) | None =>
    match key_reservation_lookup b1 k with
    | Some (i, r) => (a, b') = (Wait i, begin_wait b1 i r)
    | None => (a, b') = (Return None, match c with CallGet => b1 | CallReserve => key_reservation_new t b1 k end) end end).
  { destruct c; cbn in E; unfold camel_object_bag_get, camel_object_bag_reserve in E; rewrite L in E; destruct o; try done;
      destruct (key_reservation_lookup b1 k) as [[i r]|]; done. }
  clear E. destruct o as [x|].
  - injection X as -> ->. destruct O as (-> & A & P). split; [destruct c; split; done|]. by intros y [= <-].
  - unfold key_reservation_lookup in X. pose proof S1 as [SR _]. rewrite SR in X.
    destruct (find_reservation (reserved b) k) as [[i r]|] eqn:FR; injection X as -> ->.
    + destruct (find_reservation_some _ _ _ _ (rs_nodup _ _ _ R) FR) as [A E]. exists r. unfold begin_wait. cbn. by rewrite SR.
    + split; [|done]. destruct c; cbn [now_held]; [split; cbn; [by rewrite SR|done..]|].
      split; cbn; [|done|by intros t' k' [[= -> ->]|I]%elem_of_cons; [|eapply F1]]. rewrite SR.
      apply reservations_new; [done..|]. pose proof (is_fresh (list_to_set (map fst (reserved b)) : gset rid)) as N.
      by rewrite elem_of_list_to_set in N.
Qed.

Lemma put_put l i r r' : put_rid (put_rid l i r) i r' = put_rid l i r'.
Proof.
  induction l as [|[j x] l IH]; [done|]. cbn. case_decide as D; cbn; [by rewrite decide_True|]. rewrite decide_False by done. by rewrite IH.
Qed.

Lemma filter_held (t : tid) (k : K) h : NoDup ((t, k) :: h) -> filter (fun p => p <> (t, k)) ((t, k) :: h) = h.
Proof.
  intros [N _]%NoDup_cons. rewrite filter_cons_False by tauto. clear -N. induction h as [|p h IH]; [done|].
  rewrite filter_cons_True, IH; [done|set_solver|set_solver].
Qed.

(** The thread that is served. *)
Lemma resume_ok t w r b ws h al dy o b' sg ws' : Inv (Sys b ws h al dy) -> ws !! t = Some w ->
  at_rid (reserved b) (w_rid w) = Some r -> owner r = None -> resume t w b r = (o, b', sg) -> cond_signal sg (delete t ws) ws' ->
  Inv (Sys b' ws' (now_held (w_call w) t (w_key w) o h) al dy) /\
  (forall x, o = Some x -> x ∈ al /\ camel_object_bag_peek b (w_key w) = Some x).
Proof.
  intros [R T F] L A O E S; cbn in R, T, F. pose proof (reservations_take _ _ _ _ _ _ R L A O) as R1.
  set (k := w_key w) in *. set (l1 := put_rid _ _ _) in R1.
  assert (X : exists o2 b2 b3 rs sg3, lookup_object (set_reserved b rs) k = (o2, b2) /\ b3 = set_reserved b2 l1 /\
    o = o2 /\ (if decide (w_call w = CallReserve /\ o = None) then b' = b3 /\ sg = None else object_bag_unreserve t b3 k = (b', sg3) /\ sg = sg3)).
  { unfold resume, get_resume, reserve_resume in E. fold k l1 in E. destruct (w_call w).
    - destruct (lookup_object (set_reserved b (put_rid (reserved b) (w_rid w) (Reservation (r_key r) (pred (waiters r)) (owner r)))) k) as [o2 b2] eqn:LO.
      destruct (lookup_object_ok _ _ _ _ _ _ (proj2 (tables_reserved b _ al dy) T) LO) as (_ & [SR _] & _).
      rewrite SR in E. cbn [reserved set_reserved] in E. rewrite put_put in E. fold l1 in E.
      destruct (object_bag_unreserve t (set_reserved b2 l1) k) as [b4 sg4] eqn:U. injection E as <- <- <-.
      exists o2, b2, (set_reserved b2 l1). eexists _, sg4. split; [done|]. split; [done|]. split; [done|].
      rewrite decide_False by naive_solver. done.
    - destruct (lookup_object (set_reserved b l1) k) as [o2 b2] eqn:LO.
      destruct (lookup_object_ok _ _ _ _ _ _ (proj2 (tables_reserved b _ al dy) T) LO) as (_ & [SR _] & _).
      assert (EB : set_reserved b2 l1 = b2) by (destruct b2; cbn in *; by subst). destruct o2 as [x|].
      + destruct (object_bag_unreserve t b2 k) as [b4 sg4] eqn:U. injection E as <- <- <-.
        exists (Some x), b2, (set_reserved b2 l1). eexists _, sg4. split; [done|]. split; [done|]. split; [done|].
        rewrite decide_False by naive_solver. by rewrite EB.
      + injection E as <- <- <-. exists None, b2, (set_reserved b2 l1). eexists _, None. split; [done|]. split; [done|]. split; [done|].
        rewrite decide_True by done. by rewrite EB. }
  destruct X as (o2 & b2 & b3 & rs & sg3 & LO & -> & <- & X).
  destruct (lookup_object_ok _ _ _ _ _ _ (proj2 (tables_reserved b rs al dy) T) LO) as (T2 & S2 & OO).
  pose proof (free_shrinks _ _ _ S2 F) as F2. split; [|intros x ->; by destruct OO as (_ & ? & ?)].
  case_decide as D.
  - destruct D as [-> ->], X as [-> ->]. cbn in S. subst ws'. split; cbn; [done|done|].
    intros t' k' [[= -> ->]|I]%elem_of_cons; [done|by eapply F2].
  - destruct X as [U ->]. destruct (unreserve_ok t (set_reserved b2 l1) k _ _ _ _ _ R1 (list_elem_of_here _ _) U S) as (R3 & EB & _).
    rewrite filter_held in R3 by apply R1. replace (now_held (w_call w) t k o h) with h by (destruct (w_call w), o; naive_solver).
    split; cbn; [done|by rewrite EB|by rewrite EB].
Qed.

(** The state of a call that has begun to wait. *)
Lemma wait_ok c t b ws h al dy k i b' fl : Inv (Sys b ws h al dy) -> ws !! t = None -> start c t b k = (Wait i, b') ->
  Inv (Sys b' (<[t := Waiting c k i fl]> ws) h al dy).
Proof.
  intros I N E. destruct (start_ok _ _ _ _ _ _ _ _ _ _ I E) as (r & A & KR & _ & RE & T & F). split; cbn; [|done..].
  rewrite RE, <- KR. apply reservations_begin_wait; [apply I|done..].
Qed.

Lemma step_inv s s' : Inv s -> step s s' -> Inv s'.
Proof.
  intros I S. destruct S.
  - by destruct (start_ok _ _ _ _ _ _ _ _ _ _ I H1) as [? _].
  - eapply wait_ok; done.
  - eapply (resume_ok t (Waiting c key i true)); [by eapply wait_ok|apply lookup_insert_eq|done..|]. by rewrite delete_insert_id.
  - destruct I as [R T F]; cbn in *. split; cbn; [|done..]. apply reservations_flag; [done..|]. right. congruence.
  - by eapply resume_ok.
  - destruct I as [R T F]; cbn in *. split; cbn; [|done..]. apply reservations_flag; [done..|]. by left.
  - destruct I as [R T F]; cbn in *.
    destruct (add_ok t _ _ _ key object T H2 H3 (F _ _ H1)) as (b2 & p & rs & sg2 & E & U & RE & T2 & OT). simplify_eq.
    destruct (unreserve_ok _ _ _ _ _ _ _ _ R H1 U H5) as (R2 & _ & _). split; cbn; [done|done|].
    intros t' k' [N I]%list_elem_of_filter. rewrite OT, lookup_insert_ne; [by eapply F|]. intros <-.
    destruct (held_reservation _ _ _ _ _ R I) as (i & r & F1 & _ & _ & O1), (held_reservation _ _ _ _ _ R H1) as (i' & r' & F2 & _ & _ & O2).
    congruence.
  - destruct I as [R T F]; cbn in *. destruct (unreserve_ok _ _ _ _ _ _ _ _ R H1 H2 H3) as (R2 & E & _).
    split; cbn; [done|by rewrite E|]. rewrite E. intros t' k' [_ I]%list_elem_of_filter. by eapply F.
  - destruct I as [R T F]; cbn in *. destruct (rekey_ok _ _ _ object key T H0 H1) as (b2 & E & RE & T2 & X). simplify_eq.
    split; cbn; [by rewrite RE|done|]. intros t' k' I. destruct (key_table b !! object) as [q|]; [|subst b'; by eapply F].
    destruct X as (k0 & p & _ & ->). destruct (held_reservation _ _ _ _ _ R I) as (i & r & F1 & _).
    rewrite lookup_insert_ne by (intros <-; unfold key_reservation_lookup in H2; congruence).
    apply lookup_delete_None. right. by eapply F.
  - destruct I as [R T F]; cbn in *. destruct (forget_ok _ _ _ object T) as (b2 & E & T2 & S2 & _). unfold camel_object_bag_remove in H1. simplify_eq.
    pose proof S2 as [SR _]. split; cbn; [by rewrite SR|done|by eapply free_shrinks].
  - destruct I as [R [L RF] F]; cbn in *. split; cbn; [done| |done]. split; [done|]. constructor; try apply RF.
    + intros k p ref E. pose proof (rf_weak _ _ _ _ RF _ _ _ E) as W. destruct (weak ref); [|done]. destruct W as (? & ? & ?). set_solver.
    + split; [apply RF|]. intros x X. pose proof (proj2 (rf_dying _ _ _ _ RF) x X). set_solver.
  - destruct I as [R T F]; cbn in *. split; cbn; [done|by apply die_ok|]. intros t' k' I.
    unfold clear_weak. cbn [object_table set_tables bag]. rewrite lookup_fmap. by rewrite (F _ _ I).
  - destruct I as [R T F]; cbn in *. destruct (notify_ok _ _ _ _ _ _ T H0) as [T2 S2]. pose proof S2 as [SR _].
    split; cbn; [by rewrite SR|done|by eapply free_shrinks].
Qed.

Definition reachable : System (K := K) -> Prop := rtc step system_init.

Lemma reachable_inv s : reachable s -> Inv s.
Proof.
  intros R. unfold reachable in R. pose proof inv_init as I. revert I. induction R as [|s1 s2 s3 S _ IH]; [done|].
  intros I. apply IH. by eapply step_inv.
Qed.
End inv.
