(* ===== verification/ObjectBagSpec.v ===== *)
(** * ObjectBagSpec: what the threads that share a bag can rely on *)

From Stdlib Require Import ZArith Lia.
From stdpp Require Import base gmap sets list fin_maps relations.
From S2P Require Import Prelude ObjectBag ObjectBagInv.

Section spec.
Context {K : Type} `{Countable K}.
Implicit Types (b : CamelObjectBag (K := K)) (ws : gmap tid (Waiter (K := K))).

(** ** Safety *)

(** C26. While callers keep to the contract that [step] states, no operation
    reads a freed key or reservation: the tables agree with each other, and a
    reservation stays until its last waiter is served.  The contract: a key is
    added or aborted by the thread that reserved it, an object that is added is
    not in the bag, and the new key of [camel_object_bag_rekey] is neither that
    of an object in the bag nor reserved.  The last condition is documented
    nowhere and cannot be left out: after an object was given the key of another
    one, its entry of [key_table] is a freed key, which the next call for the
    object reads ([rekey_used_key_freed]). *)
Theorem bag_memory_safe (s : System (K := K)) : reachable s ->
  (forall t w, threads s !! t = Some w -> exists r, at_rid (reserved (bag s)) (w_rid w) = Some r /\ r_key r = w_key w) /\
  (forall a, is_Some (object_bag_notify (bag s) a) /\ is_Some (camel_object_bag_remove (bag s) a)) /\
  (forall t k o, (t, k) ∈ held s -> o ∈ alive s -> key_table (bag s) !! o = None -> is_Some (camel_object_bag_add t (bag s) k o)) /\
  (forall o k, o ∈ alive s -> object_table (bag s) !! k = None -> is_Some (camel_object_bag_rekey (bag s) o k)).
Proof.
  intros [R T F]%reachable_inv. split_and!.
  - apply R.
  - intros a. destruct (forget_ok _ _ _ a T) as (b' & E & _). split; by exists b'.
  - intros t k o I A N. destruct (add_ok t _ _ _ k o T A N (F _ _ I)) as (b' & p & rs & sg & E & _). by eexists.
  - intros o k A N. destruct (rekey_ok _ _ _ o k T A N) as (b' & E & _). by exists b'.
Qed.

(** C25. A key is reserved by one thread at a time: while it holds the key there
    is no object, and whoever asks for the key waits. *)
Theorem bag_reservation_exclusive (s : System (K := K)) t k : reachable s -> (t, k) ∈ held s ->
  (forall t', (t', k) ∈ held s -> t' = t) /\ camel_object_bag_peek (bag s) k = None /\
  (forall c t', exists i b', start c t' (bag s) k = (Wait i, b')).
Proof.
  intros [R T F]%reachable_inv I. destruct (held_reservation _ _ _ _ _ R I) as (i & r & E & _ & _ & O). split_and!.
  - intros t' I'. destruct (held_reservation _ _ _ _ _ R I') as (i' & r' & E' & _ & _ & O'). congruence.
  - unfold camel_object_bag_peek. by rewrite (F _ _ I).
  - intros c t'. unfold start, camel_object_bag_get, camel_object_bag_reserve, lookup_object. rewrite (F _ _ I).
    unfold key_reservation_lookup. rewrite E. destruct c; by eexists _, _.
Qed.

(** ** Liveness *)

(** Waking all that wait is a signal. *)
Definition wake_all (i : rid) ws : gmap tid Waiter :=
  (fun w => Waiting (w_call w) (w_key w) (w_rid w) (awake w || bool_decide (w_rid w = i))) <$> ws.

Lemma signal_exists sg ws : exists ws', cond_signal sg ws ws'.
Proof.
  destruct sg as [i|]; [|by exists ws]. exists (wake_all i ws). unfold wake_all. split.
  - intros t. rewrite lookup_fmap. destruct (ws !! t) as [w|]; [|done]. eexists. split; [done|].
    split; [by intros ->|]. intros [?|?%bool_decide_eq_true]%orb_true_iff; tauto.
  - intros (t & w & L & E). exists t. eexists. rewrite lookup_fmap, L. split; [done|]. split; [done|]. cbn.
    rewrite bool_decide_true by done. apply orb_true_r.
Qed.

(** No call starts: threads that are awake run, holders give their keys back. *)
Inductive closing : System (K := K) -> System (K := K) -> Prop :=
| CloseBlock t w r b ws h al dy :
    ws !! t = Some w -> awake w = true -> at_rid (reserved b) (w_rid w) = Some r -> owner r <> None ->
    closing (Sys b ws h al dy) (Sys b (<[t := Waiting (w_call w) (w_key w) (w_rid w) false]> ws) h al dy)
| CloseResume t w r o b' sg ws' b ws h al dy :
    ws !! t = Some w -> awake w = true -> at_rid (reserved b) (w_rid w) = Some r -> owner r = None ->
    resume t w b r = (o, b', sg) -> cond_signal sg (delete t ws) ws' ->
    closing (Sys b ws h al dy) (Sys b' ws' (now_held (w_call w) t (w_key w) o h) al dy)
| CloseAdd t key object b' sg ws' b ws h al dy :
    ws !! t = None -> (t, key) ∈ h -> object ∈ al -> key_table b !! object = None ->
    camel_object_bag_add t b key object = Some (b', sg) -> cond_signal sg ws ws' ->
    closing (Sys b ws h al dy) (Sys b' ws' (filter (fun p => p <> (t, key)) h) al dy)
| CloseAbort t key b' sg ws' b ws h al dy :
    ws !! t = None -> (t, key) ∈ h -> camel_object_bag_abort t b key = (b', sg) -> cond_signal sg ws ws' ->
    closing (Sys b ws h al dy) (Sys b' ws' (filter (fun p => p <> (t, key)) h) al dy).

Lemma closing_step s s' : closing s s' -> step s s'.
Proof. intros [ ]; [by eapply StepBlock|by eapply StepResume|by eapply StepAdd|by eapply StepAbort]. Qed.

Definition awake_count ws : nat := size (filter (fun tw : tid * Waiter => awake (snd tw) = true) ws).

(** What is left of a closing run. *)
Definition work (s : System (K := K)) : nat :=
  let W := size (threads s) in (length (held s) * S W + awake_count (threads s) + W * W)%nat.

(** A thread that holds a key does not wait for another. *)
Definition no_hold_and_wait (s : System (K := K)) : Prop := forall t k, (t, k) ∈ held s -> threads s !! t = None.

Lemma awake_count_le ws : (awake_count ws <= size ws)%nat.
Proof. unfold awake_count. rewrite <- !size_dom. apply subseteq_size, dom_filter_subseteq. Qed.

Lemma awake_count_pos ws t w : ws !! t = Some w -> awake w = true -> (0 < awake_count ws)%nat.
Proof.
  intros L A. unfold awake_count. assert (N : size (filter (fun tw : tid * Waiter => awake (snd tw) = true) ws) <> O); [|lia].
  apply map_size_ne_0_lookup. exists t. exists w. by apply map_lookup_filter_Some.
Qed.

Lemma awake_count_block ws t w : ws !! t = Some w -> awake w = true ->
  (awake_count (<[t := Waiting (w_call w) (w_key w) (w_rid w) false]> ws) < awake_count ws)%nat.
Proof.
  intros L A. unfold awake_count. rewrite <- !size_dom. apply subset_size. apply strict_spec_alt. split.
  - intros t'. rewrite !elem_of_dom. intros [x [X Y]%map_lookup_filter_Some]. destruct (decide (t = t')) as [<-|N].
    + rewrite lookup_insert_eq in X. injection X as <-. done.
    + rewrite lookup_insert_ne in X by done. exists x. by apply map_lookup_filter_Some.
  - intros E. assert (I : t ∈ dom (filter (fun tw : tid * Waiter => awake (snd tw) = true) ws)).
    { apply elem_of_dom. exists w. by apply map_lookup_filter_Some. }
    rewrite <- E, elem_of_dom in I. destruct I as [x [X Y]%map_lookup_filter_Some]. rewrite lookup_insert_eq in X. by injection X as <-.
Qed.

Lemma same_waits_dom ws ws' : same_waits ws ws' -> dom ws = dom ws'.
Proof.
  intros S. apply set_eq. intros t. rewrite !elem_of_dom. specialize (S t). by destruct (ws !! t), (ws' !! t).
Qed.

Lemma cond_signal_dom sg ws ws' : cond_signal sg ws ws' -> dom ws = dom ws'.
Proof. destruct sg as [i|]; [intros S%signalled_same; by apply same_waits_dom|by intros ->]. Qed.

Lemma filter_held_length (h : list (tid * K)) p : p ∈ h -> (length (filter (fun q => q <> p) h) < length h)%nat.
Proof.
  induction h as [|q h IH]; [by intros ?%elem_of_nil|]. destruct (decide (q = p)) as [->|N].
  - rewrite filter_cons_False by tauto. intros _. pose proof (length_filter (fun q => q <> p) h). cbn. lia.
  - rewrite filter_cons_True by done. intros [->|I]%elem_of_cons; [done|]. cbn. specialize (IH I). lia.
Qed.

Lemma closing_work s s' : closing s s' -> (work s' < work s)%nat.
Proof.
  intros [t w r b ws h al dy L A _ _|t w r o b' sg ws' b ws h al dy L A _ _ E CS|t k o b' sg ws' b ws h al dy _ I _ _ E CS|t k b' sg ws' b ws h al dy _ I E CS];
    unfold work; cbn [threads held].
  - rewrite map_size_insert_Some by (by eexists). pose proof (awake_count_block _ _ _ L A). lia.
  - pose proof (awake_count_pos _ _ _ L A). pose proof (awake_count_le ws').
    assert (SZ : S (size ws') = size ws).
    { rewrite <- !size_dom, <- (cond_signal_dom _ _ _ CS), !size_dom.
      rewrite <- (insert_delete_id ws t w L) at 2. by rewrite map_size_insert_None by apply lookup_delete_eq. }
    assert (length (now_held (w_call w) t (w_key w) o h) <= S (length h))%nat by (destruct (w_call w), o; cbn; lia).
    rewrite <- SZ. nia.
  - pose proof (filter_held_length _ _ I). pose proof (awake_count_le ws'). pose proof (cond_signal_dom _ _ _ CS) as D.
    assert (SZ : size ws' = size ws) by (by rewrite <- !size_dom, D). rewrite SZ in *. nia.
  - pose proof (filter_held_length _ _ I). pose proof (awake_count_le ws'). pose proof (cond_signal_dom _ _ _ CS) as D.
    assert (SZ : size ws' = size ws) by (by rewrite <- !size_dom, D). rewrite SZ in *. nia.
Qed.

Lemma closing_no_wait s s' : Inv s -> closing s s' -> no_hold_and_wait s -> no_hold_and_wait s'.
Proof.
  assert (D : forall sg ws ws' t, cond_signal sg ws ws' -> ws !! t = None -> ws' !! t = None).
  { intros sg ws ws' t S N. apply not_elem_of_dom. rewrite <- (cond_signal_dom _ _ _ S). by apply not_elem_of_dom. }
  intros I C NW. destruct C as [t w r b ws h al dy L A _ _|t w r o b' sg ws' b ws h al dy L A R O E CS|t k o b' sg ws' b ws h al dy _ HI _ _ E CS|t k b' sg ws' b ws h al dy _ HI E CS];
    intros t' k' I'; cbn [threads held] in *.
  - pose proof (NW t' k' I') as N. cbn in N. rewrite lookup_insert_ne; [done|]. intros <-. congruence.
  - apply (D _ _ _ _ CS). destruct (decide (t = t')) as [<-|N]; [apply lookup_delete_eq|]. rewrite lookup_delete_ne by done.
    apply (NW t' k'). cbn. destruct (w_call w), o; try done. apply elem_of_cons in I' as [[= -> ->]|I']; done.
  - apply list_elem_of_filter in I' as [_ I']. apply (D _ _ _ _ CS). by apply (NW t' k').
  - apply list_elem_of_filter in I' as [_ I']. apply (D _ _ _ _ CS). by apply (NW t' k').
Qed.

Lemma closing_progress s : Inv s -> no_hold_and_wait s -> threads s <> empty -> exists s', closing s s'.
Proof.
  intros [R T F] NW NE. destruct s as [b ws h al dy]; cbn in *. apply map_choose in NE as (t & w & L).
  destruct (rs_wait _ _ _ R _ _ L) as (r & A & _). destruct (owner r) as [t0|] eqn:O.
  - assert (I : (t0, r_key r) ∈ h) by (apply R; by eexists _, _). destruct (camel_object_bag_abort t0 b (r_key r)) as [b' sg] eqn:E.
    destruct (signal_exists sg ws) as [ws' S]. eexists. eapply (CloseAbort t0); [by apply (NW _ _ I)|done..].
  - destruct (rs_awake _ _ _ R _ _ A O) as (t' & w' & L' & E' & A'). destruct (resume t' w' b r) as [[o b'] sg] eqn:E.
    destruct (signal_exists sg (delete t' ws)) as [ws' S]. eexists. eapply (CloseResume t'); try done. by rewrite E'.
Qed.

(** C24. Nobody waits for ever: when no thread that holds a key waits itself and
    no call starts any more, every run in which the threads that are awake
    proceed and holders give their keys back is finite, with a bound, and does
    not end before the last waiting thread is served.  So no signal is lost. *)
Theorem bag_waiters_served (s : System (K := K)) n s' : reachable s -> no_hold_and_wait s -> nsteps closing n s s' ->
  (n <= work s)%nat /\ (threads s' = empty \/ exists s'', closing s' s'').
Proof.
  intros I%reachable_inv NW C. revert I NW. induction C as [s|n s1 s2 s3 C _ IH]; intros I NW.
  - split; [lia|]. destruct (decide (threads s = empty)); [by left|]. right. by apply closing_progress.
  - destruct IH as [L E]; [by eapply step_inv, closing_step|by eapply closing_no_wait|]. split; [|done].
    pose proof (closing_work _ _ C). lia.
Qed.

(** ** What the operations answer and change *)

Lemma lookup_object_peek b k : fst (lookup_object b k) = camel_object_bag_peek b k.
Proof.
  unfold lookup_object, camel_object_bag_peek. destruct (object_table b !! k) as [[p ref]|]; [|done]. by destruct (weak ref).
Qed.

Lemma NoDup_omap_inj {A B} (f : A -> option B) (l : list A) :
  (forall x y z, x ∈ l -> y ∈ l -> f x = Some z -> f y = Some z -> x = y) -> NoDup l -> NoDup (omap f l).
Proof.
  induction l as [|x l IH]; [by intros _ _; constructor|]. intros I [NI ND]%NoDup_cons.
  assert (NoDup (omap f l)) by (apply IH; [|done]; intros; eapply I; try done; by right).
  cbn. destruct (f x) as [z|] eqn:E; [|done]. apply NoDup_cons. split; [|done]. intros (y & Y & E')%list_elem_of_omap.
  destruct NI. rewrite (I x y z); [done|left|by right|done..].
Qed.

(** A call answers the object that the key has at that moment, whether it
    had to wait or not; the object is alive. *)
Theorem bag_answers (s : System (K := K)) : reachable s ->
  (forall c t k o b', start c t (bag s) k = (Return o, b') -> o = camel_object_bag_peek (bag s) k) /\
  (forall t w r o b' sg, threads s !! t = Some w -> resume t w (bag s) r = (o, b', sg) -> o = camel_object_bag_peek (bag s) (w_key w)) /\
  (forall k o, camel_object_bag_peek (bag s) k = Some o -> o ∈ alive s) /\
  NoDup (camel_object_bag_list (bag s)) /\
  (forall o, o ∈ camel_object_bag_list (bag s) <-> exists k, camel_object_bag_peek (bag s) k = Some o).
Proof.
  intros [R [L RF] F]%reachable_inv. set (b := bag s) in *. split_and!.
  - intros c t k o b'. rewrite <- lookup_object_peek. unfold start, camel_object_bag_get, camel_object_bag_reserve.
    destruct (lookup_object b k) as [[x|] b1], c; cbn; try (by intros [= <- _]);
      destruct (key_reservation_lookup b1 k) as [[i r]|]; try done; by intros [= <- _].
  - intros t w r o b' sg _. rewrite <- lookup_object_peek. unfold resume, get_resume, reserve_resume, lookup_object.
    cbn [object_table set_reserved]. destruct (w_call w), (object_table b !! w_key w) as [[p ref]|]; cbn; try destruct (weak ref);
      repeat (destruct (object_bag_unreserve _ _ _)); by intros [= <- _ _].
  - intros k o. unfold camel_object_bag_peek. destruct (object_table b !! k) as [[p ref]|] eqn:E; [|done]. intros W.
    pose proof (rf_weak _ _ _ _ RF _ _ _ E) as X. rewrite W in X. by destruct X as (_ & ? & _).
  - unfold camel_object_bag_list. apply NoDup_omap_inj; [|apply NoDup_map_to_list].
    intros [k [p ref]] [k' [p' ref']] o. rewrite !elem_of_map_to_list. cbn. intros E E' W W'.
    pose proof (rf_weak _ _ _ _ RF _ _ _ E) as X. pose proof (rf_weak _ _ _ _ RF _ _ _ E') as X'. rewrite W in X. rewrite W' in X'.
    destruct X as (X & _), X' as (X' & _). assert (k = k') as <- by (apply (links_inj _ _ _ _ _ _ _ _ _ L E E'); right; congruence).
    congruence.
  - intros o. unfold camel_object_bag_list, camel_object_bag_peek. rewrite list_elem_of_omap. split.
    + intros ([k [p ref]] & E%elem_of_map_to_list & W). exists k. by rewrite E.
    + intros (k & W). destruct (object_table b !! k) as [[p ref]|] eqn:E; [|done]. exists (k, (p, ref)).
      by rewrite elem_of_map_to_list.
Qed.




Lemma destroy_fold (l : list (K * (kptr * ObjRef))) (ns : list addr) : NoDup ns ->
  forall x, x ∈ fold_left (fun ns (e : K * (kptr * ObjRef)) => wref_free_func ns (snd (snd e))) l ns ->
  x ∈ ns /\ forall e, e ∈ l -> weak (snd (snd e)) <> Some x.
Proof.
  revert ns; induction l as [|e l IH]; intros ns ND x X; [split; [done|by intros e ?%elem_of_nil]|]. cbn in X.
  assert (W : NoDup (wref_free_func ns (snd (snd e))) /\ forall y, y ∈ wref_free_func ns (snd (snd e)) -> y ∈ ns /\ weak (snd (snd e)) <> Some y).
  { unfold wref_free_func. destruct (weak (snd (snd e))) as [a|]; [|done]. split; [by apply weak_unref_nodup|].
    intros y. rewrite elem_of_weak_unref by done. naive_solver. }
  destruct W as [ND' W]. destruct (IH _ ND' _ X) as [I A]. apply W in I as [I WE]. split; [done|].
  intros e' [->|I']%elem_of_cons; [done|by apply A].
Qed.

(** When nobody holds a key or waits, the bag can be destroyed, and no
    object keeps the notification of a bag that is gone. *)
Theorem bag_destroy_clean (s : System (K := K)) : reachable s -> held s = [] -> threads s = empty ->
  camel_object_bag_destroy (bag s) = Some [].
Proof.
  intros [R T F]%reachable_inv HN TN. unfold camel_object_bag_destroy. destruct (reserved (bag s)) as [|[i r] l] eqn:E.
  - f_equal. apply elem_of_nil_inv. intros x X. destruct (destroy_fold _ _ (rf_nodup _ _ _ _ (proj2 T)) _ X) as [I A].
    destruct (rf_notifies _ _ _ _ (proj2 T) _ I) as (k & p & ref & EO & W). by apply (A (k, (p, ref))); [apply elem_of_map_to_list|].
  - assert (A : at_rid ((i, r) :: l) i = Some r) by (cbn; by rewrite decide_True). destruct (owner r) as [t|] eqn:O.
    + assert (I : (t, r_key r) ∈ held s) by (apply R; by eexists _, _). rewrite HN in I. by apply elem_of_nil in I.
    + destruct (rs_awake _ _ _ R _ _ A O) as (t & w & L & _). rewrite TN in L. done.
Qed.
End spec.

(** ** Witnesses: one thread reserves, one waits, the first adds the object *)

Definition sample_reserved : System (K := Z) :=
  Sys (snd (camel_object_bag_reserve 1 camel_object_bag_new 7)) empty [(1%positive, 7)] {[5%positive]} [].
Definition sample_waiting : System (K := Z) :=
  Sys (snd (camel_object_bag_get (bag sample_reserved) 7)) {[2%positive := Waiting CallGet 7 1 false]} [(1%positive, 7)] {[5%positive]} [].
Definition sample_added : System (K := Z) :=
  Sys (default (bag sample_waiting) (fst <$> camel_object_bag_add 1 (bag sample_waiting) 7 5))
    {[2%positive := Waiting CallGet 7 1 true]} [] {[5%positive]} [].

Lemma sample_reserved_reachable : reachable sample_reserved.
Proof.
  eapply rtc_l; [apply (StepNew 5%positive); [set_solver|by intros ?%elem_of_nil]|].
  eapply rtc_l; [|apply rtc_refl]. unfold sample_reserved. rewrite (right_id_L _ union).
  apply (StepReturn CallReserve 1 7 None); [done|vm_compute; reflexivity].
Qed.

Lemma sample_waiting_reachable : reachable sample_waiting.
Proof.
  eapply rtc_r; [exact sample_reserved_reachable|].
  eapply (StepWait CallGet 2 7 1); [done|vm_compute; reflexivity|vm_compute; reflexivity|done].
Qed.

Lemma sample_signal : cond_signal (Some 1%positive) (threads sample_waiting) (threads sample_added).
Proof.
  unfold sample_waiting, sample_added. cbn [threads]. split.
  - intros t. destruct (decide (t = 2%positive)) as [->|N].
    + rewrite !lookup_singleton_eq. exists true. split; [done|]. split; [done|by right].
    + by rewrite !lookup_singleton_ne.
  - intros _. exists 2%positive, (Waiting CallGet 7 1 true). by rewrite lookup_singleton_eq.
Qed.

Lemma sample_added_reachable : reachable sample_added.
Proof.
  eapply rtc_r; [exact sample_waiting_reachable|].
  apply (StepAdd 1 7 5 (bag sample_added) (Some 1%positive)); [done|left|set_solver|done|vm_compute; reflexivity|apply sample_signal].
Qed.

(** The thread that waited gets the object. *)
Example sample_served : resume 2 (Waiting CallGet 7 1 true) (bag sample_added) (Reservation 7 1 None) =
  (Some 5%positive, set_reserved (bag sample_added) [], None).
Proof. vm_compute. reflexivity. Qed.

Lemma bag_memory_safe_witness : reachable sample_waiting /\
  exists r, at_rid (reserved (bag sample_waiting)) 1 = Some r /\ r_key r = 7.
Proof.
  split; [exact sample_waiting_reachable|].
  exact (proj1 (bag_memory_safe sample_waiting sample_waiting_reachable) 2%positive (Waiting CallGet 7 1 false) eq_refl).
Defined.

Lemma bag_reservation_exclusive_witness : (1%positive, 7) ∈ held sample_waiting /\
  camel_object_bag_peek (bag sample_waiting) 7 = None /\ exists i b', start CallReserve 3 (bag sample_waiting) 7 = (Wait i, b').
Proof.
  assert (I : (1%positive, 7) ∈ held sample_waiting) by left. split; [exact I|].
  destruct (bag_reservation_exclusive sample_waiting 1 7 sample_waiting_reachable I) as (_ & P & W).
  split; [exact P|exact (W CallReserve 3%positive)].
Defined.

Lemma bag_waiters_served_witness : no_hold_and_wait sample_waiting /\ nsteps closing 1 sample_waiting sample_added /\
  (threads sample_added = empty \/ exists s'', closing sample_added s'').
Proof.
  assert (W : no_hold_and_wait sample_waiting).
  { intros t k [[= -> ->]|I]%elem_of_cons; [done|by apply elem_of_nil in I]. }
  assert (N : nsteps closing 1 sample_waiting sample_added).
  { apply nsteps_once. apply (CloseAdd 1 7 5 (bag sample_added) (Some 1%positive));
      [done|left|set_solver|done|vm_compute; reflexivity|apply sample_signal]. }
  split; [exact W|]. split; [exact N|]. exact (proj2 (bag_waiters_served _ _ _ sample_waiting_reachable W N)).
Defined.

Lemma bag_answers_witness : camel_object_bag_peek (bag sample_added) 7 = Some 5%positive /\ 5%positive ∈ alive sample_added.
Proof.
  assert (P : camel_object_bag_peek (bag sample_added) 7 = Some 5%positive) by (vm_compute; reflexivity). split; [exact P|].
  destruct (bag_answers sample_added sample_added_reachable) as (_ & _ & A & _). exact (A 7 5%positive P).
Defined.


Lemma bag_destroy_clean_witness : reachable (system_init (K := Z)) /\ camel_object_bag_destroy (bag (system_init (K := Z))) = Some [].
Proof.
  assert (R : reachable (system_init (K := Z))) by apply rtc_refl.
  split; [exact R|]. exact (bag_destroy_clean system_init R eq_refl eq_refl).
Defined.

(** ** What the contract leaves out *)

(** Two objects with the keys 7 and 8, and the first one is given the key 8:
    [g_hash_table_insert] frees the new copy of the key, which [key_table] keeps,
    so that to remove the object, or to notify the bag of its end, reads it. *)
Definition sample_two : option (CamelObjectBag (K := Z)) :=
  '(b, _) ← camel_object_bag_add 1 (snd (camel_object_bag_reserve 1 camel_object_bag_new 7)) 7 5;
  '(b, _) ← camel_object_bag_add 1 (snd (camel_object_bag_reserve 1 b 8)) 8 6;
  Some b.

Lemma rekey_used_key_freed : exists b b', sample_two = Some b /\ camel_object_bag_rekey b 5 8 = Some b' /\
  (exists p, key_table b' !! 5%positive = Some p /\ keys b' !! p = None) /\
  camel_object_bag_remove b' 5 = None /\ object_bag_notify b' 5 = None.
Proof. do 2 eexists. split; [vm_compute; reflexivity|]. split; [vm_compute; reflexivity|]. split; [eexists; split; vm_compute; reflexivity|]. by split; vm_compute. Qed.
