(* ===== verification/HostnameUtils.v ===== *)
(** * HostnameUtils: host names that look like others (camel/camel-hostname-utils.c)

    Which non-ASCII host names are to be shown in their ASCII form, the rules of
    some Cyrillic top level domains, and the conversion of the host name of a URL
    (camel/camel-net-utils.c).  ICU is the class [ICU]: the script codes, the
    character properties, the UTF-16 iteration and the conversions; what the
    theorems use of it is the class [ICUSpec].  A buffer of [UChar]s is a list of
    16-bit values. *)

From Stdlib Require Import ZArith Lia Ascii.
From stdpp Require Import base list strings numbers option.
From S2P Require Import Prelude StringUtils CamelUrl.

Class ICU := {
  USCRIPT_COMMON : Z;
  USCRIPT_INHERITED : Z;
  USCRIPT_ARABIC : Z;
  USCRIPT_ARMENIAN : Z;
  USCRIPT_BOPOMOFO : Z;
  USCRIPT_CANADIAN_ABORIGINAL : Z;
  USCRIPT_DEVANAGARI : Z;
  USCRIPT_DESERET : Z;
  USCRIPT_GUJARATI : Z;
  USCRIPT_GURMUKHI : Z;
  USCRIPT_HANGUL : Z;
  USCRIPT_HAN : Z;
  USCRIPT_HEBREW : Z;
  USCRIPT_HIRAGANA : Z;
  USCRIPT_KATAKANA_OR_HIRAGANA : Z;
  USCRIPT_KATAKANA : Z;
  USCRIPT_LATIN : Z;
  USCRIPT_TAMIL : Z;
  USCRIPT_THAI : Z;
  USCRIPT_YI : Z;
  (** None when the error is set. *)
  uscript_getScript : Z -> option Z;
  u_isprint : Z -> bool;
  u_isUWhiteSpace : Z -> bool;
  u_default_ignorable : Z -> bool;
  (** The code point at the start of a non-empty buffer, and the rest. *)
  U16_NEXT : list Z -> Z * list Z;
  (** The length that the first call stores, and the result of the second. *)
  u_strFromUTF8_length : list Z -> Z;
  u_strFromUTF8 : list Z -> Z -> option (list Z);
  uidna_openUTS46 : bool;
  (** The length, when the first call reports U_BUFFER_OVERFLOW_ERROR. *)
  uidna_nameToASCII_length : list Z -> option Z;
  uidna_nameToASCII_UTF8 : list Z -> Z -> option (list Z) }.

(** ** The scripts *)

Definition SCRIPT_CODE_LIMIT : Z := 256.

Section icu.
Context `{ICU}.

Definition scripts : list Z :=
  [USCRIPT_COMMON; USCRIPT_INHERITED; USCRIPT_ARABIC; USCRIPT_ARMENIAN; USCRIPT_BOPOMOFO; USCRIPT_CANADIAN_ABORIGINAL; USCRIPT_DEVANAGARI; USCRIPT_DESERET; USCRIPT_GUJARATI; USCRIPT_GURMUKHI; USCRIPT_HANGUL; USCRIPT_HAN; USCRIPT_HEBREW; USCRIPT_HIRAGANA; USCRIPT_KATAKANA_OR_HIRAGANA; USCRIPT_KATAKANA; USCRIPT_LATIN; USCRIPT_TAMIL; USCRIPT_THAI; USCRIPT_YI].

(** [bits[script / 32] |= 1 << (script % 32)]. *)
Definition set_script_bit (bits : list Z) (script : Z) : list Z :=
  if (0 <=? script) && (script <? SCRIPT_CODE_LIMIT) then
    let index := Z.to_nat (script / 32) in
    let mask := u32 (Z.shiftl 1 (script mod 32)) in
    alter (fun w => Z.lor w mask) index bits
  else bits.

(** [allowed_idn_script_bits] after [camel_hostname_utils_init_global_memory]. *)
Definition allowed_idn_script_bits : list Z := fold_left set_script_bit scripts (replicate 8 0).

Definition script_bit (bits : list Z) (script : Z) : bool :=
  negb (Z.land (nth (Z.to_nat (script / 32)) bits 0) (u32 (Z.shiftl 1 (script mod 32))) =? 0).

(** ** Characters that look like others *)

Definition is_lookalike_character_for_script (expected_script code_point : Z) : bool :=
  if existsb (Z.eqb code_point) [1352; 1357; 1361; 1365; 1400; 1405; 1409; 1413] then expected_script =? USCRIPT_ARMENIAN
  else if code_point =? 3046 then expected_script =? USCRIPT_TAMIL
  else false.

Definition is_of_script_type (expected_script code_point : Z) : bool :=
  match uscript_getScript code_point with None => false | Some script => script =? expected_script end.

Definition is_ascii_digit_or_punctuation (c : Z) : bool :=
  ((33 <=? c) && (c <=? 64)) || ((91 <=? c) && (c <=? 96)) || ((123 <=? c) && (c <=? 126)).

Definition is_ascii_digit_or_valid_host_character (c : Z) : bool :=
  if negb (is_ascii_digit_or_punctuation c) then false
  else negb (existsb (Z.eqb c) (bs "#%/:?@[\]")).

Definition is_lookalike_sequence (expected_script previous_code_point code_point : Z) : bool :=
  if (previous_code_point =? 0) || (previous_code_point =? ch "/") then false
  else
    (is_lookalike_character_for_script expected_script code_point &&
      negb (is_of_script_type expected_script previous_code_point || is_ascii_digit_or_valid_host_character previous_code_point)) ||
    (is_lookalike_character_for_script expected_script previous_code_point &&
      negb (is_of_script_type expected_script code_point || is_ascii_digit_or_valid_host_character code_point)).

Definition lookalikes : list Z := [
    188; 189; 190; 237; 448; 451; 567; 593; 609; 628; 638; 720; 821; 823; 824; 1417; 1460; 1468; 1475; 1524;
    1545; 1546; 1616; 1632; 1642; 1748; 1776; 1793; 1794; 1795; 1796; 5941; 7428; 7439; 7452; 7456; 7457;
    7458; 7885; 8208; 8209; 8228; 8231; 8249; 8250; 8257; 8260; 8274; 8531; 8532; 8533; 8534; 8535; 8536;
    8537; 8538; 8539; 8540; 8541; 8542; 8543; 8722; 8725; 8726; 8758; 9023; 9134; 9290; 9585; 9586; 10742;
    10744; 11003; 11005; 12272; 12273; 12274; 12275; 12276; 12277; 12278; 12279; 12280; 12281; 12282; 12283;
    12290; 12296; 12308; 12309; 12339; 12341; 12829; 12830; 13230; 13231; 13254; 13279; 1465; 1466; 1473;
    1474; 1476; 42801; 42865; 42889; 65044; 65045; 65087; 65117; 65118; 65294; 65295; 65377; 65532; 65533;
    128271; 128272; 128273; 128274; 128275].

Definition is_lookalike_character (previous_code_point code_point : Z) : bool :=
  if negb (u_isprint code_point) || u_isUWhiteSpace code_point || u_default_ignorable code_point then true
  else if existsb (Z.eqb code_point) lookalikes then true
  else if code_point =? 775 then existsb (Z.eqb previous_code_point) [567; 305; 1493]
  else if code_point =? ch "." then false
  else is_lookalike_sequence USCRIPT_ARMENIAN previous_code_point code_point ||
       is_lookalike_sequence USCRIPT_TAMIL previous_code_point code_point.

(** The loop; each round reads a unit at least. *)
Fixpoint idn_script_loop (fuel : nat) (buffer : list Z) (previous_code_point : Z) : bool :=
  match fuel, buffer with
  | _, [] => true
  | O, _ => false
  | S fuel, _ =>
      let '(cc, rest) := U16_NEXT buffer in
      match uscript_getScript cc with
      | None => false
      | Some script =>
          if script <? 0 then false
          else if script >=? SCRIPT_CODE_LIMIT then false
          else if negb (script_bit allowed_idn_script_bits script) then false
          else if is_lookalike_character previous_code_point cc then false
          else idn_script_loop fuel rest cc
      end
  end.

Definition all_characters_in_allowed_idn_script_list (buffer : list Z) : bool := idn_script_loop (length buffer) buffer 0.
End icu.

(** ** The rules of the top level domains *)

(** The macro looks the low byte up. *)
Definition g_ascii_isdigit (ch : Z) : bool := isdigit (u8 ch).

Definition in_range (ch a b : Z) : bool := (a <=? ch) && (ch <=? b).

Definition is_russian_domain_name_character (ch : Z) : bool :=
  in_range ch 1072 1103 || (ch =? 1105) || g_ascii_isdigit ch || (ch =? 45).
Definition is_russian_and_byelorussian_domain_name_character (ch : Z) : bool :=
  in_range ch 1072 1103 || (ch =? 1105) || (ch =? 1110) || (ch =? 1118) || (ch =? 8217) || g_ascii_isdigit ch || (ch =? 45).
Definition is_kazakh_domain_name_character (ch : Z) : bool :=
  in_range ch 1072 1103 || (ch =? 1105) || (ch =? 1241) || (ch =? 1171) || (ch =? 1179) || (ch =? 1187) || (ch =? 1257) || (ch =? 1201) || (ch =? 1199) || (ch =? 1211) || (ch =? 1110) || g_ascii_isdigit ch || (ch =? 45).
Definition is_russian_and_ukrainian_domain_name_character (ch : Z) : bool :=
  in_range ch 1072 1103 || (ch =? 1105) || (ch =? 1169) || (ch =? 1028) || (ch =? 1110) || (ch =? 1111) || g_ascii_isdigit ch || (ch =? 45).
Definition is_serbian_domain_name_character (ch : Z) : bool :=
  in_range ch 1072 1080 || in_range ch 1082 1096 || (ch =? 1106) || (ch =? 1112) || (ch =? 1113) || (ch =? 1114) || (ch =? 1115) || (ch =? 1119) || g_ascii_isdigit ch || (ch =? 45).
Definition is_macedonian_domain_name_character (ch : Z) : bool :=
  in_range ch 1072 1080 || in_range ch 1082 1096 || (ch =? 1107) || (ch =? 1109) || (ch =? 1112) || (ch =? 1113) || (ch =? 1114) || (ch =? 1116) || (ch =? 1119) || g_ascii_isdigit ch || (ch =? 45).
Definition is_mongolian_domain_name_character (ch : Z) : bool :=
  in_range ch 1072 1103 || (ch =? 1105) || (ch =? 1257) || (ch =? 1199) || g_ascii_isdigit ch || (ch =? 45).
Definition is_bulgarian_domain_name_character (ch : Z) : bool :=
  in_range ch 1072 1098 || (ch =? 1100) || in_range ch 1102 1104 || (ch =? 1117) || g_ascii_isdigit ch || (ch =? 45).

(** [for (ii = length - 1; ii >= 0; ii--)], on the reversed buffer. *)
Fixpoint second_level_loop (character_is_allowed : Z -> bool) (reversed : list Z) : bool :=
  match reversed with
  | [] => true
  | c :: reversed =>
      if character_is_allowed c then second_level_loop character_is_allowed reversed
      else if c =? 46 then true
      else false
  end.

Definition is_second_level_domain_name_allowed_by_tld_rules (buffer : list Z) (character_is_allowed : Z -> bool) : bool :=
  match buffer with [] => false | _ => second_level_loop character_is_allowed (reverse buffer) end.

(** The result, when the suffix matches. *)
Definition check_rules_if_suffix_matches (buffer suffix : list Z) (func : Z -> bool) : option bool :=
  let n := (length buffer - length suffix)%nat in
  if (length suffix <? length buffer)%nat && bytes_eqb (drop n buffer) suffix
  then Some (is_second_level_domain_name_allowed_by_tld_rules (take n buffer) func) else None.

Definition cyrillic_RF : list Z := [46; 1088; 1092].
Definition cyrillic_RUS : list Z := [46; 1088; 1091; 1089].
Definition cyrillic_MOSKVA : list Z := [46; 1084; 1086; 1089; 1082; 1074; 1072].
Definition cyrillic_DETI : list Z := [46; 1076; 1077; 1090; 1080].
Definition cyrillic_ONLAYN : list Z := [46; 1086; 1085; 1083; 1072; 1081; 1085].
Definition cyrillic_SAYT : list Z := [46; 1089; 1072; 1081; 1090].
Definition cyrillic_ORG : list Z := [46; 1086; 1088; 1075].
Definition cyrillic_BEL : list Z := [46; 1073; 1077; 1083].
Definition cyrillic_KAZ : list Z := [46; 1179; 1072; 1079].
Definition cyrillic_UKR : list Z := [46; 1091; 1082; 1088].
Definition cyrillic_SRB : list Z := [46; 1089; 1088; 1073].
Definition cyrillic_MKD : list Z := [46; 1084; 1082; 1076].
Definition cyrillic_MON : list Z := [46; 1084; 1086; 1085].
Definition cyrillic_BG : list Z := [46; 1073; 1075].

Definition tld_rules : list (list Z * (Z -> bool)) :=
  [(cyrillic_RF, is_russian_domain_name_character);
   (cyrillic_RUS, is_russian_domain_name_character);
   (cyrillic_MOSKVA, is_russian_domain_name_character);
   (cyrillic_DETI, is_russian_domain_name_character);
   (cyrillic_ONLAYN, is_russian_domain_name_character);
   (cyrillic_SAYT, is_russian_domain_name_character);
   (cyrillic_ORG, is_russian_domain_name_character);
   (cyrillic_BEL, is_russian_and_byelorussian_domain_name_character);
   (cyrillic_KAZ, is_kazakh_domain_name_character);
   (cyrillic_UKR, is_russian_and_ukrainian_domain_name_character);
   (cyrillic_SRB, is_serbian_domain_name_character);
   (cyrillic_MKD, is_macedonian_domain_name_character);
   (cyrillic_MON, is_mongolian_domain_name_character);
   (cyrillic_BG, is_bulgarian_domain_name_character)].

Fixpoint check_rules (rules : list (list Z * (Z -> bool))) (buffer : list Z) : bool :=
  match rules with
  | [] => false
  | (suffix, func) :: rules =>
      match check_rules_if_suffix_matches buffer suffix func with Some result => result | None => check_rules rules buffer end
  end.

Definition all_characters_allowed_by_tld_rules (buffer : list Z) : bool :=
  let buffer := if nth (length buffer - 1) buffer 0 =? 46 then take (length buffer - 1) buffer else buffer in
  check_rules tld_rules buffer.

(** ** Host names *)

Section hosts.
Context `{ICU}.

Definition camel_hostname_utils_requires_ascii (hostname : option (list Z)) : bool :=
  if camel_string_is_all_ascii hostname then false
  else
    let hostname := default [] hostname in
    let uhost_len := u_strFromUTF8_length hostname in
    if uhost_len >? 0 then
      match u_strFromUTF8 hostname (uhost_len + 1) with
      | Some uhost =>
          if (0 <? length uhost)%nat
          then negb (all_characters_in_allowed_idn_script_list uhost) || negb (all_characters_allowed_by_tld_rules uhost)
          else false
      | None => true
      end
    else true.

(** camel-net-utils.c *)
Definition camel_host_idna_to_ascii (host : option (list Z)) : option (list Z) :=
  match host with
  | None => None
  | Some host =>
      Some (if forallb (fun c => c <? 128) host then host
            else if negb uidna_openUTS46 then host
            else match uidna_nameToASCII_length host with
                 | Some len => match uidna_nameToASCII_UTF8 host len with Some ascii_host => ascii_host | None => host end
                 | None => host
                 end)
  end.

Definition is_mailto (p : option (list Z)) : bool := match p with Some p => strcase_eqb p (bs "mailto") | None => false end.

Definition camel_utils_sanitize_ascii_domain_in_url (url : CamelURL) : bool * CamelURL :=
  match host url, path url with
  | None, Some p =>
      if is_mailto (protocol url) then
        let whole :=
          if camel_hostname_utils_requires_ascii (Some p)
          then (true, camel_url_set_path url (camel_host_idna_to_ascii (Some p))) else (false, url) in
        match strchr p (ch "@") with
        | Some at_pos =>
            let domain := Some (drop (S at_pos) p) in
            if camel_hostname_utils_requires_ascii domain
            then (true, camel_url_set_path url (Some (take at_pos p ++ bs "@" ++ default [] (camel_host_idna_to_ascii domain))))
            else whole
        | None => whole
        end
      else (false, url)
  | h, _ =>
      if camel_hostname_utils_requires_ascii h then (true, camel_url_set_host url (camel_host_idna_to_ascii h)) else (false, url)
  end.

Definition camel_utils_sanitize_ascii_domain_in_url_str (url_str : option (list Z)) : option (option (list Z)) :=
  if camel_string_is_all_ascii url_str then Some None
  else
    url ← camel_url_new url_str;
    Some (match url with
          | None => None
          | Some url => match camel_utils_sanitize_ascii_domain_in_url url with
                        | (true, url) => Some (camel_url_to_string url 0)
                        | (false, _) => None
                        end
          end).
End hosts.

Section domain.
(** [g_hostname_to_ascii]: NULL for what is no host name. *)
Context (g_hostname_to_ascii : list Z -> option (list Z)).

Definition has_suffix (str suffix : list Z) : bool :=
  (length suffix <=? length str)%nat && bytes_eqb (drop (length str - length suffix) str) suffix.

Definition camel_hostname_utils_host_is_in_domain (host domain : option (list Z)) : bool :=
  match host, domain with
  | Some host, Some domain =>
      match g_hostname_to_ascii host with
      | None => false
      | Some norm_host =>
          match g_hostname_to_ascii domain with
          | None => false
          | Some norm_domain => has_suffix host (bs "." ++ norm_domain) || bytes_eqb host norm_domain
          end
      end
  | _, _ => false
  end.
End domain.

(** ** What ICU promises *)

Class ICUSpec `{ICU} := {
  (** A unit that is no surrogate is its own code point; a surrogate takes the
      trail surrogate that follows along at most. *)
  next_plain : forall u r, ~ (55296 <= u <= 57343) -> U16_NEXT (u :: r) = (u, r);
  next_surrogate : forall u r, 55296 <= u <= 57343 ->
    snd (U16_NEXT (u :: r)) = r \/ exists v, 56320 <= v <= 57343 /\ r = v :: snd (U16_NEXT (u :: r));
  (** The Cyrillic letters of the domain suffixes are of a script of their own. *)
  cyrillic : exists USCRIPT_CYRILLIC, USCRIPT_CYRILLIC ∉ scripts /\
    forall c, 1072 <= c <= 1119 \/ 1162 <= c <= 1279 -> uscript_getScript c = Some USCRIPT_CYRILLIC;
  (** The two calls agree on whether there is anything. *)
  strFromUTF8_length : forall s n, u_strFromUTF8 s n = Some [] -> u_strFromUTF8_length s <= 0 }.

(** ** The bitmap of scripts *)

Lemma land_bit w k : 0 <= k < 32 -> negb (Z.land w (u32 (Z.shiftl 1 k)) =? 0) = Z.testbit w k.
Proof.
  intros H. rewrite Z.shiftl_1_l. unfold u32. rewrite Z.mod_small by (split; [lia|apply Z.pow_lt_mono_r; lia]).
  destruct (Z.testbit w k) eqn:E.
  - apply negb_true_iff, Z.eqb_neq. intros A. apply (f_equal (fun x => Z.testbit x k)) in A.
    rewrite Z.land_spec, E, Z.pow2_bits_true, Z.bits_0 in A by lia. done.
  - apply negb_false_iff, Z.eqb_eq, Z.bits_inj. intros j. rewrite Z.land_spec, Z.bits_0.
    destruct (decide (j = k)) as [->|D]; [by rewrite E|]. rewrite Z.pow2_bits_false by lia. apply andb_false_r.
Qed.

Lemma script_place s : 0 <= s < SCRIPT_CODE_LIMIT -> 0 <= s / 32 < 8 /\ 0 <= s mod 32 < 32.
Proof. unfold SCRIPT_CODE_LIMIT. intros. Z.to_euclidean_division_equations. lia. Qed.

Lemma set_script_bit_length bits a : length (set_script_bit bits a) = length bits.
Proof. unfold set_script_bit. destruct (_ && _); [apply length_alter|done]. Qed.

Lemma set_script_bit_spec bits a s : length bits = 8%nat -> 0 <= s < SCRIPT_CODE_LIMIT ->
  script_bit (set_script_bit bits a) s = script_bit bits s || (a =? s).
Proof.
  intros L Hs. pose proof (script_place s Hs) as [Hi Hk]. unfold set_script_bit. destruct ((0 <=? a) && (a <? SCRIPT_CODE_LIMIT)) eqn:E.
  - zb. pose proof (script_place a ltac:(lia)) as [Hai Hak]. unfold script_bit. rewrite !land_bit by done.
    rewrite !nth_lookup. destruct (decide (a / 32 = s / 32)) as [D|D].
    + rewrite D, list_lookup_alter_eq. destruct (lookup_lt_is_Some_2 bits (Z.to_nat (s / 32))) as [w Hw]; [lia|]. rewrite Hw. cbn.
      unfold u32. rewrite Z.shiftl_1_l, Z.mod_small by (split; [lia|apply Z.pow_lt_mono_r; lia]).
      rewrite Z.lor_spec, Z.pow2_bits_eqb by lia. f_equal. apply eq_true_iff_eq. rewrite !Z.eqb_eq.
      pose proof (Z.div_mod a 32). pose proof (Z.div_mod s 32). lia.
    + rewrite list_lookup_alter_ne by lia. rewrite (proj2 (Z.eqb_neq a s)) by congruence. by rewrite orb_false_r.
  - rewrite (proj2 (Z.eqb_neq a s)); [by rewrite orb_false_r|]. intros ->. unfold SCRIPT_CODE_LIMIT in *. lia.
Qed.

Section proofs.
Context `{ICUSpec}.

Lemma script_bits_fold l bits s : length bits = 8%nat -> 0 <= s < SCRIPT_CODE_LIMIT ->
  script_bit (fold_left set_script_bit l bits) s = script_bit bits s || existsb (fun a => a =? s) l.
Proof.
  intros L Hs. revert bits L; induction l as [|a l IH]; intros bits L; cbn; [by rewrite orb_false_r|].
  rewrite IH, set_script_bit_spec by (rewrite ?set_script_bit_length; done). by rewrite orb_assoc.
Qed.

Lemma allowed_bit s : 0 <= s < SCRIPT_CODE_LIMIT -> script_bit allowed_idn_script_bits s = true <-> s ∈ scripts.
Proof.
  intros Hs. unfold allowed_idn_script_bits. rewrite script_bits_fold by done.
  assert (script_bit (replicate 8 0) s = false) as ->.
  { unfold script_bit. rewrite land_bit by (by apply script_place). rewrite nth_lookup. destruct (replicate 8 0 !! Z.to_nat (s / 32)) as [w|] eqn:E; cbn; [apply lookup_replicate in E as [-> _]|]; apply Z.bits_0. }
  rewrite orb_false_l, existsb_exists. split.
  - intros (a & Ha & E). zb. subst. by apply list_elem_of_In.
  - intros Ha. exists s. split; [by apply list_elem_of_In|apply Z.eqb_refl].
Qed.

(** ** No host name with a Cyrillic suffix has allowed scripts only *)

Definition cyrillic_letter (c : Z) : Prop := 1072 <= c <= 1119 \/ 1162 <= c <= 1279.

Lemma next_reaches u r c : cyrillic_letter c -> c ∈ u :: r -> (U16_NEXT (u :: r) = (c, r)) \/ c ∈ snd (U16_NEXT (u :: r)).
Proof.
  intros Hc Hin. destruct (decide (55296 <= u <= 57343)) as [Su|Su].
  - right. apply elem_of_cons in Hin as [->|Hin]; [unfold cyrillic_letter in Hc; lia|].
    destruct (next_surrogate u r Su) as [->|(v & Hv & E)]; [done|]. rewrite E in Hin.
    apply elem_of_cons in Hin as [->|Hin]; [unfold cyrillic_letter in Hc; lia|done].
  - rewrite next_plain by done. apply elem_of_cons in Hin as [->|Hin]; [by left|by right].
Qed.

Lemma idn_loop_cyrillic fuel buffer prev c : cyrillic_letter c -> c ∈ buffer -> idn_script_loop fuel buffer prev = false.
Proof.
  intros Hc. revert buffer prev; induction fuel as [|fuel IH]; intros [|u r] prev Hin; cbn [idn_script_loop]; [by apply not_elem_of_nil in Hin|done|by apply not_elem_of_nil in Hin|].
  destruct (next_reaches u r c Hc Hin) as [E|E].
  - rewrite E. destruct cyrillic as (code & Nc & Hs). rewrite (Hs c Hc).
    destruct (Z.ltb_spec code 0); [done|]. rewrite Z.geb_leb. destruct (Z.leb_spec SCRIPT_CODE_LIMIT code); [done|].
    destruct (script_bit allowed_idn_script_bits code) eqn:B; [|done]. apply allowed_bit in B; [done|lia].
  - destruct (U16_NEXT (u :: r)) as [cc rest]. destruct (uscript_getScript cc) as [script|]; [|done].
    repeat match goal with |- (if ?b then _ else _) = _ => destruct b; [done|] end. by apply IH.
Qed.
End proofs.

Lemma check_rules_suffix rules buffer : check_rules rules buffer = true ->
  exists suffix func pre, (suffix, func) ∈ rules /\ buffer = pre ++ suffix.
Proof.
  induction rules as [|[suffix func] rules IH]; cbn; [done|]. unfold check_rules_if_suffix_matches.
  destruct (_ && _) eqn:E.
  - intros _. zb. apply bytes_eqb_eq in H0. exists suffix, func, (take (length buffer - length suffix) buffer).
    split; [left|]. rewrite <- (take_drop (length buffer - length suffix) buffer) at 1. by rewrite H0.
  - intros (s & f & pre & Hin & ->)%IH. exists s, f, pre. split; [by right|done].
Qed.

(** Every suffix of the rules has a Cyrillic letter. *)
Lemma tld_rules_cyrillic suffix func : (suffix, func) ∈ tld_rules -> exists c, c ∈ suffix /\ cyrillic_letter c.
Proof.
  intros Hin. assert (Forall (fun '(s, _) => exists c, c ∈ (s : list Z) /\ cyrillic_letter c) tld_rules) as F.
  { repeat constructor; eexists; (split; [right; left|unfold cyrillic_letter; lia]). }
  rewrite list.Forall_forall in F. exact (F _ Hin).
Qed.

Lemma tld_allowed_cyrillic buffer : all_characters_allowed_by_tld_rules buffer = true -> exists c, c ∈ buffer /\ cyrillic_letter c.
Proof.
  unfold all_characters_allowed_by_tld_rules. intros (suffix & func & pre & Hin & E)%check_rules_suffix.
  destruct (tld_rules_cyrillic _ _ Hin) as (c & Hc & L). exists c. split; [|done].
  assert (c ∈ pre ++ suffix) as K by (apply elem_of_app; by right). rewrite <- E in K.
  destruct (nth _ _ _ =? 46); [|done]. rewrite <- (take_drop (length buffer - 1) buffer). apply elem_of_app. by left.
Qed.

Lemma all_ascii_loop_forallb s : bytes_ok s -> all_ascii_loop s = [] <-> forallb (fun c => c <? 128) s = true.
Proof.
  induction 1 as [|c s Hc F IH]; cbn; [done|]. unfold schar, is_byte in *. destruct (Z.ltb_spec c 128); cbn.
  - by rewrite (proj2 (Z.ltb_ge c 0)) by lia.
  - by rewrite (proj2 (Z.ltb_lt (c - 256) 0)) by lia.
Qed.

Lemma all_ascii_forallb s : bytes_ok s -> camel_string_is_all_ascii (Some s) = forallb (fun c => c <? 128) s.
Proof.
  intros F. pose proof (all_ascii_loop_forallb s F) as K. destruct s as [|c s]; [done|]. unfold camel_string_is_all_ascii.
  apply eq_true_iff_eq. rewrite <- K. by destruct (all_ascii_loop (c :: s)).
Qed.

Lemma has_suffix_spec str suffix : has_suffix str suffix = true <-> suffix `suffix_of` str.
Proof.
  unfold has_suffix. rewrite andb_true_iff, Nat.leb_le, bytes_eqb_eq. split.
  - intros [L E]. exists (take (length str - length suffix) str). rewrite <- E at 2. by rewrite take_drop.
  - intros [k ->]. rewrite length_app. split; [lia|]. by rewrite drop_app_length' by lia.
Qed.

Section claims.
Context `{ICUSpec}.

Lemma hostname_required (hostname : list Z) :
  camel_hostname_utils_requires_ascii (Some hostname) = negb (camel_string_is_all_ascii (Some hostname)).
Proof.
  unfold camel_hostname_utils_requires_ascii. destruct (camel_string_is_all_ascii (Some hostname)); [done|].
  change (default [] (Some hostname)) with hostname. cbv zeta. cbn [negb].
  rewrite Z.gtb_ltb. destruct (Z.ltb_spec 0 (u_strFromUTF8_length hostname)) as [L|L]; [|done].
  destruct (u_strFromUTF8 hostname _) as [uhost|] eqn:E; [|done]. destruct uhost as [|u uhost]; [apply strFromUTF8_length in E; lia|]. cbn [length Nat.ltb Nat.leb].
  destruct (all_characters_allowed_by_tld_rules (u :: uhost)) eqn:T; [|apply orb_true_r].
  apply tld_allowed_cyrillic in T as (c & Hc & Lc). unfold all_characters_in_allowed_idn_script_list. by rewrite (idn_loop_cyrillic _ _ _ c).
Qed.

(** A host name that is not all ASCII always requires its ASCII form: the scripts of the
    allowed list leave Cyrillic out, while the rules of the top level domains allow
    nothing but names with a Cyrillic suffix, and both are asked for. *)
Theorem hostname_non_ascii_required (hostname : list Z) :
  camel_hostname_utils_requires_ascii (Some hostname) = negb (camel_string_is_all_ascii (Some hostname)).
Proof. apply hostname_required. Qed.

(** Converting a URL by its host name: the answer says whether the host is not ASCII;
    the host is ASCII afterwards and nothing else changes, when IDNA has an ASCII form
    of the name. *)
Theorem sanitize_url_host (url : CamelURL) (h a : list Z) (len : Z) :
  host url = Some h -> bytes_ok h -> bytes_ok a -> forallb (fun c => c <? 128) a = true ->
  uidna_openUTS46 = true -> uidna_nameToASCII_length h = Some len -> uidna_nameToASCII_UTF8 h len = Some a ->
  let '(converted, url') := camel_utils_sanitize_ascii_domain_in_url url in
  converted = negb (camel_string_is_all_ascii (Some h)) /\
  camel_string_is_all_ascii (host url') = true /\
  url' = camel_url_set_host url (if converted then Some a else Some h).
Proof.
  intros Hh Bh Ba Aa Ho Hl Hn. unfold camel_utils_sanitize_ascii_domain_in_url. rewrite Hh, hostname_required.
  destruct (camel_string_is_all_ascii (Some h)) eqn:A; cbn [negb].
  - rewrite Hh. split_and!; try done. destruct url. cbn in *. by subst.
  - rewrite all_ascii_forallb in A by done. cbn [host camel_url_set_host]. unfold camel_host_idna_to_ascii. rewrite A, Ho, Hl, Hn. cbn [negb].
    split_and!; try done. by rewrite all_ascii_forallb.
Qed.
End claims.

Section domain_claims.
Context (g_hostname_to_ascii : list Z -> option (list Z)).

(** A host name that is in its normal form already is in a domain exactly when it is the
    normal form of the domain or ends with a dot and that. *)
Theorem host_is_in_domain_spec (host domain norm_domain : list Z) :
  g_hostname_to_ascii host = Some host -> g_hostname_to_ascii domain = Some norm_domain ->
  camel_hostname_utils_host_is_in_domain g_hostname_to_ascii (Some host) (Some domain) = true <->
  host = norm_domain \/ exists sub, host = sub ++ bs "." ++ norm_domain.
Proof.
  intros Hh Hd. unfold camel_hostname_utils_host_is_in_domain. rewrite Hh, Hd, orb_true_iff, has_suffix_spec, bytes_eqb_eq.
  split; (intros [K|K]; [right|left]); done.
Qed.
End domain_claims.

(** ** Examples and witnesses *)

(** The macro takes the low byte: the letter U+0439, which the Serbian rule leaves
    out, counts as the digit 9. *)
Example serbian_short_i : is_serbian_domain_name_character 1081 = true.
Proof. reflexivity. Qed.

(** The host is compared as it is given, not normalized. *)
Definition lower_host (s : list Z) : option (list Z) := Some (map tolower s).

Example host_not_normalized :
  camel_hostname_utils_host_is_in_domain lower_host (Some (bs "mail.Example.com")) (Some (bs "example.com")) = false.
Proof. reflexivity. Qed.

Lemma host_is_in_domain_spec_witness :
  camel_hostname_utils_host_is_in_domain lower_host (Some (bs "mail.example.com")) (Some (bs "Example.com")) = true.
Proof.
  apply (host_is_in_domain_spec lower_host (bs "mail.example.com") (bs "Example.com") (bs "example.com") eq_refl eq_refl).
  right. by exists (bs "mail").
Defined.

(** An ICU that knows the basic plane, Latin and Cyrillic. *)
Definition demo_script (c : Z) : option Z := if (1024 <=? c) && (c <=? 1327) then Some 8 else Some 25.
Definition demo_next (us : list Z) : Z * list Z := match us with [] => (0, []) | u :: us => (u, us) end.
Definition demo_idna (h : list Z) (len : Z) : option (list Z) := Some (bs "xn--" ++ List.filter (fun c => c <? 128) h).

#[export] Instance demo_icu : ICU := {|
  USCRIPT_COMMON := 0; USCRIPT_INHERITED := 1; USCRIPT_ARABIC := 2; USCRIPT_ARMENIAN := 3; USCRIPT_BOPOMOFO := 5;
  USCRIPT_CANADIAN_ABORIGINAL := 40; USCRIPT_DEVANAGARI := 10; USCRIPT_DESERET := 9; USCRIPT_GUJARATI := 15;
  USCRIPT_GURMUKHI := 16; USCRIPT_HANGUL := 18; USCRIPT_HAN := 17; USCRIPT_HEBREW := 19; USCRIPT_HIRAGANA := 20;
  USCRIPT_KATAKANA_OR_HIRAGANA := 54; USCRIPT_KATAKANA := 22; USCRIPT_LATIN := 25; USCRIPT_TAMIL := 35; USCRIPT_THAI := 38; USCRIPT_YI := 41;
  uscript_getScript := demo_script; u_isprint _ := true; u_isUWhiteSpace _ := false; u_default_ignorable _ := false;
  U16_NEXT := demo_next; u_strFromUTF8_length s := Z.of_nat (length s); u_strFromUTF8 s _ := Some s;
  uidna_openUTS46 := true; uidna_nameToASCII_length h := Some (Z.of_nat (length h)); uidna_nameToASCII_UTF8 := demo_idna |}.

#[export] Instance demo_icu_spec : ICUSpec.
Proof.
  constructor; cbn.
  - done.
  - intros u r _. by left.
  - exists 8. split.
    + intros Hin. repeat (apply elem_of_cons in Hin as [E|Hin]; [discriminate E|]). by apply not_elem_of_nil in Hin.
    + intros c Hc. unfold demo_script. destruct (Z.leb_spec 1024 c), (Z.leb_spec c 1327); cbn; done || lia.
  - by intros s _ [= ->].
Defined.

Definition demo_host : list Z := bs "b" ++ [195; 188] ++ bs "cher.example".

Lemma hostname_non_ascii_required_witness :
  camel_hostname_utils_requires_ascii (Some demo_host) = negb (camel_string_is_all_ascii (Some demo_host)).
Proof. apply (hostname_non_ascii_required demo_host). Defined.

Lemma sanitize_url_host_witness :
  let '(converted, url') := camel_utils_sanitize_ascii_domain_in_url (camel_url_set_host sample_url (Some demo_host)) in
  converted = negb (camel_string_is_all_ascii (Some demo_host)) /\
  camel_string_is_all_ascii (host url') = true /\
  url' = camel_url_set_host (camel_url_set_host sample_url (Some demo_host)) (if converted then Some (bs "xn--bcher.example") else Some demo_host).
Proof.
  apply (sanitize_url_host _ demo_host (bs "xn--bcher.example") (Z.of_nat (length demo_host))); try reflexivity.
  - by apply bytes_okb.
  - by apply bytes_okb.
Defined.
