(* ===== verification/Trie.v ===== *)
(** * Trie: matching several patterns (camel/camel-trie.c)

    The states are records in a store, at an address each; a state's list of
    [_trie_match] is the association list of its characters and states, the
    newest first.  [fail_states] holds, for each depth, the list of the states
    that were inserted there.  [g_unichar_tolower] is GLib's.

    The file ends with what the matcher is to compute: the characters of a
    string ([decode]), the naive search for the patterns, and runs of the model
    that show two oddities of the code. *)

From Stdlib Require Import ZArith Lia Ascii.
From stdpp Require Import base list strings gmap numbers option.
From S2P Require Import Prelude.

(** ** Characters *)

(** The loop of [trie_utf8_getc]: the character and the rest; [r], [u] and [m]
    are its variables. *)
Inductive getc_result := GetcChar (u : Z) (rest : list Z) | GetcError | GetcEnd.

Fixpoint getc_loop (r u m : Z) (inptr : list Z) : getc_result :=
  match inptr with
  | [] => GetcEnd
  | c :: inptr =>
      if negb (Z.land c 192 =? 128) then GetcError
      else
        let u := u32 (Z.lor (Z.shiftl u 6) (Z.land c 63)) in
        let r := u8 (Z.shiftl r 1) in
        let m := u32 (Z.shiftl m 5) in
        if negb (Z.land r 64 =? 0) then getc_loop r u m inptr
        else GetcChar (Z.land u (u32 (Z.lnot m))) inptr
  end.

(** The character, 0 at the end, and where [*in] is then. *)
Definition trie_utf8_getc (inp : list Z) : Z * list Z :=
  match inp with
  | [] => (0, inp)
  | r :: inptr =>
      if r <? 128 then (r, inptr)
      else if r <? 254 then
        match getc_loop r r 32640 inptr with
        | GetcChar u rest => (u, rest)
        | GetcError => (65534, inptr)
        | GetcEnd => (0, inp)
        end
      else (65534, inptr)
  end.

(** ** States *)

Abbreviation loc := positive (only parsing).

Record trie_state := State { fail : option loc; match_ : list (Z * loc); final : Z; id : Z }.

Record CamelTrie := Trie {
  states : gmap loc trie_state; fail_states : list (list loc); icase : bool; next_loc : loc }.

Definition ROOT : loc := 1%positive.

Definition camel_trie_new (icase : bool) : CamelTrie := Trie {[ROOT := State None [] 0 0]} [] icase 2.

Fixpoint find_match (m : list (Z * loc)) (c : Z) : option loc :=
  match m with [] => None | (c', s) :: m => if c' =? c then Some s else find_match m c end.
Definition g (s : trie_state) (c : Z) : option loc := find_match (match_ s) c.

(** [g_ptr_array_set_size] when the depth is new. *)
Definition grow (l : list (list loc)) (depth : nat) : list (list loc) :=
  if (length l <? depth + 1)%nat then l ++ replicate (Nat.max (length l + 64) (depth + 1) - length l) [] else l.

Definition set_states (t : CamelTrie) (s : gmap loc trie_state) : CamelTrie := Trie s (fail_states t) (icase t) (next_loc t).

(** [None] in this and the functions below is a bad address. *)
Definition trie_insert (t : CamelTrie) (depth : nat) (q : loc) (c : Z) : option (CamelTrie * loc) :=
  s ← states t !! q;
  let q' := next_loc t in
  let st := <[q' := State (Some ROOT) [] 0 (-1)]> (<[q := State (fail s) ((c, q') :: match_ s) (final s) (id s)]> (states t)) in
  let fs := grow (fail_states t) depth in
  fs' ← (l ← fs !! depth; Some (<[depth := q' :: l]> fs));
  Some (Trie st fs' (icase t) (Pos.succ q'), q').

(** ** Adding a pattern *)

Section lower.
(** [g_unichar_tolower]. *)
Context (g_unichar_tolower : Z -> Z).

Definition fold_case (t : CamelTrie) (c : Z) : Z := if icase t then g_unichar_tolower c else c.

(** Step 1: the state of the pattern and its depth. *)
Fixpoint add_chars (fuel : nat) (t : CamelTrie) (inptr : list Z) (q : loc) (depth : nat) : option (CamelTrie * loc * nat) :=
  match fuel with
  | O => None
  | S fuel =>
      let '(c, inptr) := trie_utf8_getc inptr in
      if c =? 0 then Some (t, q, depth)
      else
        let c := fold_case t c in
        s ← states t !! q;
        '(t, q) ← match g s c with None => trie_insert t depth q c | Some q => Some (t, q) end;
        add_chars fuel t inptr q (S depth)
  end.

(** [while (r && (n = g (r, c)) == NULL) r = r->fail;]: the last [r] and its [n]. *)
Fixpoint chase (fuel : nat) (t : CamelTrie) (r : option loc) (c : Z) : option (option (loc * loc)) :=
  match fuel with
  | O => None
  | S fuel =>
      match r with
      | None => Some None
      | Some r =>
          s ← states t !! r;
          match g s c with
          | Some n => Some (Some (r, n))
          | None => chase fuel t (fail s) c
          end
      end
  end.

(** A chain of failures gets shorter by a level each time. *)
Definition chase_fuel (t : CamelTrie) : nat := (length (fail_states t) + 3)%nat.

(** Step 2 for the state [q1] after [q] with [c]. *)
Definition fail_match (t : CamelTrie) (q : trie_state) (c : Z) (q1 : loc) : option CamelTrie :=
  s1 ← states t !! q1;
  r ← chase (chase_fuel t) t (fail q) c;
  match r with
  | Some (_, n) =>
      f ← states t !! n;
      (* [q1] may be its own [n] only if it is not in the tree *)
      Some (set_states t (<[q1 := State (Some n) (match_ s1) (if final f >? final s1 then final f else final s1) (id s1)]> (states t)))
  | None =>
      root ← states t !! ROOT;
      let n := default ROOT (g root c) in
      Some (set_states t (<[q1 := State (Some n) (match_ s1) (final s1) (id s1)]> (states t)))
  end.

Fixpoint fail_matches (t : CamelTrie) (q : trie_state) (m : list (Z * loc)) : option CamelTrie :=
  match m with
  | [] => Some t
  | (c, q1) :: m => t ← fail_match t q c q1; fail_matches t q m
  end.

Fixpoint fail_level (t : CamelTrie) (l : list loc) : option CamelTrie :=
  match l with
  | [] => Some t
  | q :: l => s ← states t !! q; t ← fail_matches t s (match_ s); fail_level t l
  end.

Fixpoint fail_levels (t : CamelTrie) (ls : list (list loc)) : option CamelTrie :=
  match ls with
  | [] => Some t
  | l :: ls => t ← fail_level t l; fail_levels t ls
  end.

Definition camel_trie_add (t : CamelTrie) (pattern : list Z) (pattern_id : Z) : option CamelTrie :=
  '(t, q, depth) ← add_chars (S (length pattern)) t pattern ROOT 0;
  s ← states t !! q;
  let t := set_states t (<[q := State (fail s) (match_ s) (Z.of_nat depth) pattern_id]> (states t)) in
  fail_levels t (fail_states t).

(** ** Searching *)

(** The pattern found and its identifier; a pointer into the buffer is what is
    left of it. *)
Fixpoint trie_loop (fuel : nat) (t : CamelTrie) (inptr pat prev : list Z) (q : loc) : option (option (list Z * Z)) :=
  match fuel with
  | O => None
  | S fuel =>
      let '(c, inptr) := trie_utf8_getc inptr in
      if c =? 0 then Some None
      else if negb (c =? 65534) then
        let c := fold_case t c in
        r ← chase (chase_fuel t) t (Some q) c;
        match r with
        | None => trie_loop fuel t inptr inptr inptr ROOT
        | Some (r, n) =>
            let pat := if decide (r = ROOT) then prev else pat in
            s ← states t !! n;
            if negb (final s =? 0) then Some (Some (pat, id s))
            else trie_loop fuel t inptr pat inptr n
        end
      else trie_loop fuel t inptr pat inptr q
  end.

Definition camel_trie_search (t : CamelTrie) (buffer : list Z) : option (option (list Z * Z)) :=
  trie_loop (S (length buffer)) t buffer buffer buffer ROOT.

(** ** The reference *)

(** The characters of a string: up to its end, or to what reads as 0. *)
Fixpoint decode (fuel : nat) (inp : list Z) : list Z :=
  match fuel with
  | O => []
  | S fuel => let '(c, inp) := trie_utf8_getc inp in if c =? 0 then [] else c :: decode fuel inp
  end.

Definition fold_char (icase : bool) (c : Z) : Z := if icase then g_unichar_tolower c else c.

(** A pattern's characters; a text's, where the invalid bytes are left out. *)
Definition word (icase : bool) (pattern : list Z) : list Z := map (fold_char icase) (decode (S (length pattern)) pattern).
Definition text (icase : bool) (buffer : list Z) : list Z :=
  map (fold_char icase) (List.filter (fun c => negb (c =? 65534)) (decode (S (length buffer)) buffer)).

(** A trie of these patterns, added in this order. *)
Fixpoint add_all (t : CamelTrie) (ps : list (list Z * Z)) : option CamelTrie :=
  match ps with
  | [] => Some t
  | (p, pid) :: ps => t ← camel_trie_add t p pid; add_all t ps
  end.

(** The identifiers: that of the last pattern with the word. *)
Fixpoint ids_of (icase : bool) (ids : gmap (list Z) Z) (ps : list (list Z * Z)) : gmap (list Z) Z :=
  match ps with [] => ids | (p, pid) :: ps => ids_of icase (<[word icase p := pid]> ids) ps end.

(** Whether one of the patterns is somewhere in the text. *)
Fixpoint occurs (p x : list Z) : bool :=
  prefix_eqb p x || match x with [] => false | _ :: x => occurs p x end.
Definition naive_search (icase : bool) (ps : list (list Z * Z)) (buffer : list Z) : bool :=
  existsb (fun '(p, _) => match word icase p with [] => false | w => occurs w (text icase buffer) end) ps.
End lower.

(** A text that goes back to the middle of a pattern: the answer is the start of
    the longer attempt, not of "bce". *)
Definition same (c : Z) : Z := c.

Example trie_wrong_start :
  (t ← add_all same (camel_trie_new false) [(bs "abcd", 0); (bs "bce", 1)]; camel_trie_search same t (bs "xabce")) = Some (Some (bs "abce", 1)).
Proof. vm_compute. reflexivity. Qed.

(** A pattern inside of a longer one is found without its identifier. *)
Example trie_no_id :
  (t ← add_all same (camel_trie_new false) [(bs "abcd", 0); (bs "bc", 1)]; camel_trie_search same t (bs "abc")) = Some (Some (bs "abc", -1)).
Proof. vm_compute. reflexivity. Qed.

