(* ===== verification/TrieInv.v ===== *)
(** * TrieInv: the invariants of the pattern matcher

    Every state of the trie stands for a word (its characters from the root), by
    a map from addresses to words that the proofs carry along.  [Struct] ties the
    store to it; [weak_state] holds of the states all the time, [good_state] of
    those that step 2 of [camel_trie_add] has been at: the failure link is the
    longest proper suffix in the trie, and [final] the length of the longest
    pattern that is a suffix.  The file shows what [chase] finds. *)

From Stdlib Require Import ZArith Lia.
From stdpp Require Import base list strings gmap numbers option.
From S2P Require Import Prelude Trie.

(** ** Suffixes *)

Lemma suffix_snoc_iff {A} (u w : list A) c : u `suffix_of` w ++ [c] <-> u = [] \/ exists v, u = v ++ [c] /\ v `suffix_of` w.
Proof.
  split.
  - destruct u as [|d v _] using rev_ind; [by left|]. intros H. right.
    pose proof (suffix_snoc_inv_1 _ _ _ _ H) as ->. exists v. split; [done|]. by eapply suffix_snoc_inv_2.
  - intros [->|(v & -> & H)]; [apply suffix_nil|]. by apply suffix_snoc.
Qed.

Lemma suffix_linear {A} (u v w : list A) : u `suffix_of` w -> v `suffix_of` w -> (length u <= length v)%nat -> u `suffix_of` v.
Proof.
  intros H1 H2 L. destruct (suffix_weak_total u v w H1 H2) as [H|H]; [done|].
  rewrite (suffix_length_eq v u H L). done.
Qed.

Lemma suffix_proper_length {A} (u w : list A) : u `suffix_of` w -> u <> w -> (length u < length w)%nat.
Proof.
  intros H N. destruct (decide (length w <= length u)%nat) as [L|L]; [|lia]. by destruct N; apply suffix_length_eq.
Qed.

Lemma prefix_snoc_iff {A} (u w : list A) c : u `prefix_of` w ++ [c] <-> u = w ++ [c] \/ u `prefix_of` w.
Proof.
  split.
  - intros [k E]. destruct k as [|d k _] using rev_ind.
    + left. by rewrite app_nil_r in E.
    + right. rewrite app_assoc in E. apply app_inj_tail in E as [-> ->]. by exists k.
  - intros [->|H]; [done|]. by apply prefix_app_r.
Qed.

(** ** Words *)

Section words.
Context (W : gmap loc (list Z)).

Definition nd (w : list Z) : Prop := exists l, W !! l = Some w.

(** The longest proper suffix in the trie. *)
Definition lfail (w v : list Z) : Prop :=
  nd v /\ v `suffix_of` w /\ v <> w /\ forall u, nd u -> u `suffix_of` w -> u <> w -> u `suffix_of` v.

(** The longest suffix that goes on with [c]. *)
Definition lstep (v : list Z) (c : Z) (u : list Z) : Prop :=
  u `suffix_of` v /\ nd (u ++ [c]) /\ forall u', u' `suffix_of` v -> nd (u' ++ [c]) -> u' `suffix_of` u.

Record Struct (t : CamelTrie) : Prop := {
  st_root : W !! ROOT = Some [];
  st_inj : forall l1 l2 w, W !! l1 = Some w -> W !! l2 = Some w -> l1 = l2;
  st_dom : forall l, is_Some (W !! l) <-> is_Some (states t !! l);
  st_child : forall l s w c n, states t !! l = Some s -> W !! l = Some w -> ((c, n) ∈ match_ s <-> W !! n = Some (w ++ [c]));
  st_parent : forall n w c, W !! n = Some (w ++ [c]) -> nd w;
  st_next : forall l, is_Some (W !! l) -> (l < next_loc t)%positive;
  st_levels : forall i ls l, fail_states t !! i = Some ls -> l ∈ ls -> exists w, W !! l = Some w /\ length w = S i;
  st_level_of : forall l w, W !! l = Some w -> w <> [] -> exists ls, fail_states t !! (length w - 1)%nat = Some ls /\ l ∈ ls }.

Context (P : gmap (list Z) Z).

(** [k] is the length of a pattern that is a suffix. *)
Definition pat_len (w : list Z) (k : Z) : Prop := k = 0 \/ exists p, is_Some (P !! p) /\ p `suffix_of` w /\ k = Z.of_nat (length p).
Definition longest (w : list Z) (k : Z) : Prop := forall p, is_Some (P !! p) -> p `suffix_of` w -> Z.of_nat (length p) <= k.

Record weak_state (w : list Z) (s : trie_state) : Prop := {
  ws_root : w = [] -> fail s = None;
  ws_one : length w = 1%nat -> fail s = Some ROOT;
  ws_own : is_Some (P !! w) -> Z.of_nat (length w) <= final s;
  ws_final : pat_len w (final s);
  ws_id : w <> [] -> id s = default (-1) (P !! w) }.

Record good_state (w : list Z) (s : trie_state) : Prop := {
  gs_fail : w <> [] -> exists f v, fail s = Some f /\ W !! f = Some v /\ lfail w v;
  gs_final : longest w (final s) }.

Definition all_weak (t : CamelTrie) : Prop := forall l s w, states t !! l = Some s -> W !! l = Some w -> weak_state w s.
Definition good_upto (t : CamelTrie) (k : nat) : Prop :=
  forall l s w, states t !! l = Some s -> W !! l = Some w -> (length w <= k)%nat -> good_state w s.

(** Every pattern is in the trie. *)
Definition pats_in : Prop := forall p, is_Some (P !! p) -> nd p.

(** ** The store *)

Lemma struct_lookup t l w : Struct t -> W !! l = Some w -> exists s, states t !! l = Some s.
Proof. intros S H. apply (st_dom t S). by exists w. Qed.

Lemma struct_word t l s : Struct t -> states t !! l = Some s -> exists w, W !! l = Some w.
Proof. intros S H. apply (st_dom t S). by exists s. Qed.

Lemma find_match_elem m c n : find_match m c = Some n -> (c, n) ∈ m.
Proof.
  induction m as [|[c' s] m IH]; cbn; [done|]. destruct (Z.eqb_spec c' c) as [->|]; intros H.
  - injection H as ->. left.
  - right. by apply IH.
Qed.

Lemma find_match_none m c n : find_match m c = None -> (c, n) ∉ m.
Proof.
  induction m as [|[c' s] m IH]; cbn; [by intros _ ?%not_elem_of_nil|].
  destruct (Z.eqb_spec c' c) as [->|]; [done|]. intros H [[= -> ->]|E]%elem_of_cons; [done|]. by apply IH.
Qed.

Lemma g_some t l s w c n : Struct t -> states t !! l = Some s -> W !! l = Some w -> g s c = Some n <-> W !! n = Some (w ++ [c]).
Proof.
  intros S Hs Hw. split.
  - intros H%find_match_elem. by eapply (st_child t S).
  - intros H. unfold g. destruct (find_match (match_ s) c) as [n'|] eqn:E.
    + apply find_match_elem, (st_child t S _ _ _ _ _ Hs Hw) in E. f_equal. by eapply (st_inj t S).
    + exfalso. eapply find_match_none; [exact E|]. by apply (st_child t S _ _ _ _ _ Hs Hw).
Qed.

Lemma g_none t l s w c : Struct t -> states t !! l = Some s -> W !! l = Some w -> g s c = None -> ~ nd (w ++ [c]).
Proof. intros S Hs Hw H [n Hn]. apply (g_some _ _ _ _ _ _ S Hs Hw) in Hn. congruence. Qed.

Lemma depth_bound t l w : Struct t -> W !! l = Some w -> (length w <= length (fail_states t))%nat.
Proof.
  intros S H. destruct w as [|c w]; [cbn; lia|]. destruct (st_level_of t S _ _ H) as (ls & L & _); [done|].
  apply lookup_lt_Some in L. cbn in L |- *. lia.
Qed.

Lemma nd_snoc_parent t w c : Struct t -> nd (w ++ [c]) -> nd w.
Proof. intros S [n H]. by eapply (st_parent t S). Qed.

(** ** The chain of failures *)

(** From the word [v], the longest suffix that goes on with [c], if one does. *)
Lemma chase_spec t k r v c fuel : Struct t -> all_weak t -> good_upto t k -> W !! r = Some v -> (length v <= k)%nat ->
  (length v + 2 <= fuel)%nat ->
  (exists r' u n, chase fuel t (Some r) c = Some (Some (r', n)) /\ W !! r' = Some u /\ W !! n = Some (u ++ [c]) /\ lstep v c u) \/
  (chase fuel t (Some r) c = Some None /\ forall u, u `suffix_of` v -> ~ nd (u ++ [c])).
Proof.
  intros S Wk G. revert r v; induction fuel as [|fuel IH]; intros r v Hr Lk Lf; [lia|].
  destruct (struct_lookup _ _ _ S Hr) as [s Hs]. cbn [chase]. rewrite Hs. cbn.
  destruct (g s c) as [n|] eqn:Eg.
  - left. pose proof (proj1 (g_some _ _ _ _ _ _ S Hs Hr) Eg) as Hn. exists r, v, n. split_and!; try done.
    unfold lstep. split_and!; [done|by exists n|done].
  - pose proof (g_none _ _ _ _ _ S Hs Hr Eg) as Nv.
    destruct (decide (v = [])) as [->|Nn].
    { rewrite (ws_root _ _ (Wk _ _ _ Hs Hr) eq_refl). right. destruct fuel as [|fuel]; [cbn in Lf; lia|].
      split; [done|]. intros u ->%suffix_nil_inv. done. }
    destruct (gs_fail _ _ (G _ _ _ Hs Hr Lk) Nn) as (f & vf & -> & Hf & Nf & Sf & Df & Mf).
    pose proof (suffix_proper_length _ _ Sf Df) as Ll.
    assert (K : forall u, u `suffix_of` v -> nd (u ++ [c]) -> u `suffix_of` vf).
    { intros u Su Nu. apply Mf; [by eapply nd_snoc_parent|done|]. intros ->. done. }
    destruct (IH f vf Hf) as [(r' & u & n & E & H1 & H2 & Su & Nu & Mu)|[E H]]; [lia..| |].
    + left. exists r', u, n. split_and!; try done. split_and!; [by etrans|done|]. intros u' S' N'. apply Mu; [by apply K|done].
    + right. split; [done|]. intros u Su Nu. by apply (H u (K u Su Nu)).
Qed.

(** ** Step 2 *)

Section step2.
Context (closed : forall w c, nd (w ++ [c]) -> nd w) (pats : pats_in).

Lemma lfail_step w v c u : lfail w v -> lstep v c u -> lfail (w ++ [c]) (u ++ [c]).
Proof.
  intros (_ & Sv & Dv & Mv) (Su & Nu & Mu). pose proof (suffix_proper_length _ _ Sv Dv). pose proof (suffix_length _ _ Su).
  unfold lfail. split_and!; [done| |intros E%app_inj_tail; destruct E as [-> _]; lia|].
  { apply suffix_snoc. by etrans. }
  intros x Nx [->|(y & -> & Sy)]%suffix_snoc_iff Dx; [apply suffix_nil|]. apply suffix_snoc, Mu; [|done].
  apply Mv; [by eapply closed|done|congruence].
Qed.

Lemma lfail_none w v c : nd [] -> lfail w v -> (forall u, u `suffix_of` v -> ~ nd (u ++ [c])) -> lfail (w ++ [c]) [].
Proof.
  intros N0 (_ & Sv & Dv & Mv) H. unfold lfail. split_and!; [done|apply suffix_nil|by destruct w|].
  intros x Nx [->|(y & -> & Sy)]%suffix_snoc_iff Dx; [done|]. exfalso. apply (H y); [|done].
  apply Mv; [by eapply closed|done|congruence].
Qed.

Lemma longest_lfail w v k k' : lfail w v -> (is_Some (P !! w) -> Z.of_nat (length w) <= k) -> longest v k' -> k' <= k -> longest w k.
Proof.
  intros (_ & _ & _ & M) O L Lk p Hp Sp. destruct (decide (p = w)) as [->|D]; [by apply O|].
  etrans; [|exact Lk]. apply L; [done|]. apply M; [by apply pats|done|done].
Qed.

Lemma pat_len_nonneg w k : pat_len w k -> 0 <= k.
Proof. intros [->|(p & _ & _ & ->)]; lia. Qed.

Lemma pat_len_suffix v w k : v `suffix_of` w -> pat_len v k -> pat_len w k.
Proof. intros S [->|(p & Hp & Sp & ->)]; [by left|right]. exists p. split_and!; [done|by etrans|done]. Qed.

Lemma longest_nil k : 0 <= k -> longest [] k.
Proof. intros H p _ ->%suffix_nil_inv. done. Qed.

(** *** What changes *)

Definition goodl (t : CamelTrie) (l : loc) : Prop := forall s w, states t !! l = Some s -> W !! l = Some w -> good_state w s.

Record improves (t t' : CamelTrie) : Prop := {
  im_levels : fail_states t' = fail_states t;
  im_icase : icase t' = icase t;
  im_next : next_loc t' = next_loc t;
  im_match : forall l, match_ <$> states t' !! l = match_ <$> states t !! l;
  im_weak : all_weak t';
  im_good : forall l, goodl t l -> goodl t' l }.

Lemma improves_refl t : all_weak t -> improves t t.
Proof. by constructor. Qed.

Lemma improves_trans t1 t2 t3 : improves t1 t2 -> improves t2 t3 -> improves t1 t3.
Proof. intros [] []. constructor; try congruence; auto; intros l; congruence. Qed.

Lemma improves_struct t t' : improves t t' -> Struct t -> Struct t'.
Proof.
  intros [I1 I2 I3 I4 _ _] [S1 S2 S3 S4 S5 S6 S7 S8]. constructor; rewrite ?I1, ?I3; try done.
  - intros l. rewrite S3. specialize (I4 l). destruct (states t' !! l), (states t !! l); try done; by split; intros [].
  - intros l s w c n Hs Hw. specialize (I4 l). rewrite Hs in I4. destruct (states t !! l) as [s0|] eqn:E; [|done].
    injection I4 as ->. by apply S4 with l.
Qed.

Lemma improves_upto t t' k : improves t t' -> good_upto t k -> good_upto t' k.
Proof. intros I G l s w Hs Hw L. apply (im_good _ _ I l); [|done..]. intros s' w' ? ?. apply (G l); [done..|]. congruence. Qed.

(** One state's failure link and final length. *)
Lemma improves_update t q1 s1 s' w1 : all_weak t -> states t !! q1 = Some s1 -> W !! q1 = Some w1 -> match_ s' = match_ s1 ->
  weak_state w1 s' -> good_state w1 s' -> improves t (set_states t (<[q1 := s']> (states t))) /\ goodl (set_states t (<[q1 := s']> (states t))) q1.
Proof.
  intros Wk H1 Hw E Ws Gs. split; [constructor; cbn; try done|].
  - intros l. destruct (decide (l = q1)) as [->|D]; [rewrite lookup_insert_eq, H1|rewrite lookup_insert_ne by done; done].
    cbn. by rewrite E.
  - intros l s w Hs Hl. cbn in Hs. apply lookup_insert_Some in Hs as [[<- <-]|[_ Hs]]; [congruence|]. by apply (Wk l).
  - intros l G s w Hs Hl. cbn in Hs. apply lookup_insert_Some in Hs as [[<- <-]|[_ Hs]]; [congruence|]. by apply G.
  - intros s w Hs Hl. cbn in Hs. rewrite lookup_insert_eq in Hs. congruence.
Qed.

Lemma fail_match_spec t q w f v c q1 : Struct t -> all_weak t -> good_upto t (length w) -> w <> [] ->
  (length w <= length (fail_states t))%nat -> fail q = Some f -> W !! f = Some v -> lfail w v -> W !! q1 = Some (w ++ [c]) ->
  exists t', fail_match t q c q1 = Some t' /\ improves t t' /\ goodl t' q1.
Proof.
  intros S Wk G Nw Lw Ef Hf Lf H1. destruct (struct_lookup _ _ _ S H1) as [s1 Hs1]. unfold fail_match. rewrite Hs1. cbn [mbind option_bind].
  pose proof (Wk _ _ _ Hs1 H1) as Wq. rewrite Ef. pose proof Lf as (_ & Sf & Df & _). pose proof (suffix_proper_length _ _ Sf Df) as Lv.
  assert (L2 : (2 <= length (w ++ [c]))%nat) by (rewrite length_app; destruct w; [done|cbn; lia]).
  destruct (chase_spec t (length w) f v c (chase_fuel t) S Wk G Hf) as [(r & u & n & -> & Hr & Hn & Lu)|[-> No]]; [lia|unfold chase_fuel; lia|..].
  - cbn. destruct (struct_lookup _ _ _ S Hn) as [sn Hsn]. rewrite Hsn. cbn. pose proof (lfail_step _ _ _ _ Lf Lu) as L'.
    set (k := if final sn >? final s1 then final sn else final s1).
    assert (Kn : final sn <= k /\ final s1 <= k) by (subst k; destruct (Z.gtb_spec (final sn) (final s1)); lia).
    pose proof (Wk _ _ _ Hsn Hn) as Wn. pose proof Lu as (Su & _ & _). pose proof (suffix_length _ _ Su).
    assert (Gn : good_state (u ++ [c]) sn) by (apply (G n); [done..|rewrite length_app; cbn; lia]).
    eexists. split; [done|]. apply (improves_update t q1 s1 _ (w ++ [c])); try done; constructor; cbn.
    + by destruct w.
    + lia.
    + intros O. etrans; [by apply (ws_own _ _ Wq)|lia].
    + subst k. destruct (final sn >? final s1); [|apply (ws_final _ _ Wq)].
      eapply pat_len_suffix; [|apply (ws_final _ _ Wn)]. by destruct L' as (_ & ? & _).
    + apply (ws_id _ _ Wq).
    + intros _. by exists n, (u ++ [c]).
    + eapply longest_lfail; [exact L'| |apply (gs_final _ _ Gn)|lia]. intros O. etrans; [by apply (ws_own _ _ Wq)|lia].
  - cbn. destruct (struct_lookup _ _ _ S (st_root t S)) as [s0 Hs0]. rewrite Hs0. cbn.
    assert (g s0 c = None) as ->.
    { destruct (g s0 c) as [n|] eqn:E; [|done]. apply (g_some _ _ _ _ _ _ S Hs0 (st_root t S)) in E.
      destruct (No []); [apply suffix_nil|by exists n]. }
    pose proof (lfail_none _ _ _ (ex_intro _ ROOT (st_root t S)) Lf No) as L'.
    eexists. split; [done|]. apply (improves_update t q1 s1 _ (w ++ [c])); try done; constructor; cbn.
    + by destruct w.
    + lia.
    + apply (ws_own _ _ Wq).
    + apply (ws_final _ _ Wq).
    + apply (ws_id _ _ Wq).
    + intros _. exists ROOT, []. split_and!; [done|apply (st_root t S)|done].
    + eapply longest_lfail; [exact L'|apply (ws_own _ _ Wq)|apply longest_nil, pat_len_nonneg with (w ++ [c]), (ws_final _ _ Wq)|done].
Qed.

Lemma fail_matches_spec t q w f v m : Struct t -> all_weak t -> good_upto t (length w) -> w <> [] ->
  (length w <= length (fail_states t))%nat -> fail q = Some f -> W !! f = Some v -> lfail w v ->
  (forall c q1, (c, q1) ∈ m -> W !! q1 = Some (w ++ [c])) ->
  exists t', fail_matches t q m = Some t' /\ improves t t' /\ forall c q1, (c, q1) ∈ m -> goodl t' q1.
Proof.
  intros S Wk G Nw Lw Ef Hf Lf. revert t S Wk G Lw; induction m as [|[c q1] m IH]; intros t S Wk G Lw Hm; cbn.
  { exists t. split_and!; [done|by apply improves_refl|]. by intros c q1 ?%not_elem_of_nil. }
  destruct (fail_match_spec t q w f v c q1) as (t1 & -> & I1 & G1); try done; [apply Hm; left|]. cbn.
  destruct (IH t1) as (t2 & -> & I2 & G2); [by eapply improves_struct|by apply (im_weak _ _ I1)|by eapply improves_upto|..].
  { by rewrite (im_levels _ _ I1). }
  { intros c' q' H. apply Hm. by right. }
  exists t2. split_and!; [done|by eapply improves_trans|]. intros c' q' [[= -> ->]|H]%elem_of_cons; [by apply (im_good _ _ I2)|by eapply G2].
Qed.

Lemma fail_level_spec t l k : Struct t -> all_weak t -> good_upto t (S k) ->
  (forall q, q ∈ l -> exists w, W !! q = Some w /\ length w = S k) ->
  exists t', fail_level t l = Some t' /\ improves t t' /\ forall q w c n, q ∈ l -> W !! q = Some w -> W !! n = Some (w ++ [c]) -> goodl t' n.
Proof.
  revert t; induction l as [|q l IH]; intros t S Wk G Hl; cbn.
  { exists t. split_and!; [done|by apply improves_refl|]. by intros q w c n ?%not_elem_of_nil. }
  destruct (Hl q) as (w & Hw & Lw); [left|]. destruct (struct_lookup _ _ _ S Hw) as [s Hs]. rewrite Hs. cbn.
  assert (Nw : w <> []) by (by intros ->).
  destruct (gs_fail _ _ (G _ _ _ Hs Hw ltac:(lia)) Nw) as (f & v & Ef & Hf & Lf).
  destruct (fail_matches_spec t s w f v (match_ s)) as (t1 & -> & I1 & G1); try done; [by rewrite Lw|by eapply depth_bound|..].
  { intros c q1 H. by apply (st_child t S _ _ _ _ _ Hs Hw). }
  cbn. destruct (IH t1) as (t2 & -> & I2 & G2); [by eapply improves_struct|by apply (im_weak _ _ I1)|by eapply improves_upto|..].
  { intros q' H. apply Hl. by right. }
  exists t2. split_and!; [done|by eapply improves_trans|]. intros q' w' c n [->|H]%elem_of_cons Hw' Hn; [|by eapply G2].
  apply (im_good _ _ I2), (G1 c). apply (st_child t S _ _ _ _ _ Hs Hw). congruence.
Qed.

Lemma fail_levels_spec t i : Struct t -> all_weak t -> good_upto t (S i) ->
  exists t', fail_levels t (drop i (fail_states t)) = Some t' /\ improves t t' /\ good_upto t' (S (length (fail_states t))).
Proof.
  remember (length (fail_states t) - i)%nat as d eqn:D. revert t i D; induction d as [|d IH]; intros t i D S Wk G.
  { rewrite drop_ge by lia. exists t. split_and!; [done|by apply improves_refl|]. intros l s w Hs Hw L. apply (G l); [done..|lia]. }
  destruct (lookup_lt_is_Some_2 (fail_states t) i ltac:(lia)) as [l Hl]. rewrite (drop_S _ _ _ Hl). cbn.
  destruct (fail_level_spec t l i S Wk G) as (t1 & -> & I1 & G1); [intros q; by apply (st_levels t S)|]. cbn.
  pose proof (improves_struct _ _ I1 S) as S1. destruct (IH t1 (Datatypes.S i)) as (t2 & E & I2 & G2).
  - rewrite (im_levels _ _ I1). lia.
  - done.
  - apply (im_weak _ _ I1).
  - intros n s w Hs Hw L. destruct (decide (length w <= Datatypes.S i)%nat) as [L'|L'].
    { by apply (improves_upto _ _ _ I1 G n). }
    destruct w as [|c w _] using rev_ind; [cbn in L'; lia|]. rewrite length_app in L, L'. cbn in L, L'.
    destruct (st_parent t S _ _ _ Hw) as [q Hq].
    destruct (st_level_of t S q w Hq) as (ls & H1 & H2); [intros ->; cbn in L'; lia|].
    replace (length w - 1)%nat with i in H1 by lia. apply (G1 q w c n); try done. congruence.
  - rewrite (im_levels _ _ I1) in E, G2. exists t2. split_and!; [done|by eapply improves_trans|done].
Qed.

End step2.
End words.
