(* ===== verification/TrieSpec.v ===== *)
(** * TrieSpec: the pattern matcher finds what a naive search finds

    [camel_trie_add] keeps the invariant [trie_inv] of a trie and its patterns
    and returns; on such a trie [camel_trie_search] stops at the first place of
    the text where a pattern ends.  The theorems are about tries made by
    [camel_trie_new] and any calls of [camel_trie_add]. *)

From Stdlib Require Import ZArith Lia.
From stdpp Require Import base list strings gmap numbers option.
From S2P Require Import Prelude Trie TrieInv.

(** ** Characters *)

Lemma getc_loop_rest r u m inp c rest : getc_loop r u m inp = GetcChar c rest -> (length rest < length inp)%nat.
Proof.
  revert r u m; induction inp as [|b inp IH]; intros r u m; cbn; [done|]. destruct (negb (Z.land b 192 =? 128)); [done|].
  destruct (negb _); [intros H%IH; lia|intros [= _ <-]; lia].
Qed.

Lemma getc_progress inp c rest : trie_utf8_getc inp = (c, rest) -> c <> 0 -> (length rest < length inp)%nat.
Proof.
  destruct inp as [|r inp]; cbn; [by intros [= <- <-]|]. destruct (r <? 128); [intros [= <- <-] _; lia|].
  destruct (r <? 254); [|intros [= <- <-] _; lia]. destruct (getc_loop r r 32640 inp) as [u rest'| |] eqn:E.
  - intros [= <- <-] _. apply getc_loop_rest in E. lia.
  - intros [= <- <-] _. lia.
  - by intros [= <- <-].
Qed.

(** ** Inserting *)

Lemma grow_length l d : (d < length (grow l d))%nat.
Proof. unfold grow. destruct (Nat.ltb_spec (length l) (d + 1)); [rewrite length_app, length_replicate|]; lia. Qed.

Lemma grow_lookup l d i ls : grow l d !! i = Some ls -> l !! i = Some ls \/ ls = [].
Proof.
  unfold grow. destruct (length l <? d + 1)%nat; [|by left]. intros [H|[_ H]]%lookup_app_Some; [by left|].
  apply lookup_replicate in H as [-> _]. by right.
Qed.

Lemma grow_prefix l d i ls : l !! i = Some ls -> grow l d !! i = Some ls.
Proof. unfold grow. destruct (length l <? d + 1)%nat; [|done]. intros H. by apply lookup_app_l_Some. Qed.

Section insert.
Context (W : gmap loc (list Z)) (t : CamelTrie) (q : loc) (w : list Z) (c : Z) (s : trie_state).
Context (S : Struct W t) (Hq : W !! q = Some w) (Hs : states t !! q = Some s) (Hg : g s c = None).

Let W' := <[next_loc t := w ++ [c]]> W.

Lemma insert_fresh : W !! next_loc t = None.
Proof. apply eq_None_not_Some. intros H%(st_next W t S). lia. Qed.

Lemma insert_new : ~ nd W (w ++ [c]).
Proof. by eapply g_none. Qed.

Lemma insert_old l v : W !! l = Some v -> l <> next_loc t /\ W' !! l = Some v.
Proof.
  intros H. assert (l <> next_loc t) as D by (intros ->; rewrite insert_fresh in H; done).
  split; [done|]. unfold W'. by rewrite lookup_insert_ne.
Qed.

Lemma insert_word l v : W' !! l = Some v -> (l = next_loc t /\ v = w ++ [c]) \/ W !! l = Some v.
Proof. unfold W'. intros [[<- <-]|[_ H]]%lookup_insert_Some; [by left|by right]. Qed.

(** What [trie_insert] makes. *)
Definition insert_states : gmap loc trie_state :=
  <[next_loc t := State (Some ROOT) [] 0 (-1)]> (<[q := State (fail s) ((c, next_loc t) :: match_ s) (final s) (id s)]> (states t)).

Lemma insert_states_lookup l s' : insert_states !! l = Some s' ->
  (l = next_loc t /\ s' = State (Some ROOT) [] 0 (-1)) \/
  (l = q /\ s' = State (fail s) ((c, next_loc t) :: match_ s) (final s) (id s)) \/ (l <> q /\ l <> next_loc t /\ states t !! l = Some s').
Proof.
  unfold insert_states. intros [[<- <-]|[D H]]%lookup_insert_Some; [by left|right].
  apply lookup_insert_Some in H as [[<- <-]|[D' H]]; [by left|by right].
Qed.

Lemma insert_child l s' v d n : insert_states !! l = Some s' -> W' !! l = Some v -> ((d, n) ∈ match_ s' <-> W' !! n = Some (v ++ [d])).
Proof.
  destruct (insert_old _ _ Hq) as [Dq _].
  intros [[-> ->]|[[-> ->]|(D1 & D2 & H)]]%insert_states_lookup Hv; apply insert_word in Hv.
  - destruct Hv as [[_ ->]|Hv]; [|rewrite insert_fresh in Hv; done]. cbn. split; [by intros ?%not_elem_of_nil|].
    intros [[_ E]|H]%insert_word; [apply (f_equal length) in E; rewrite !length_app in E; cbn in E; lia|].
    exfalso. apply insert_new. by eapply (st_parent W t S).
  - destruct Hv as [[-> _]|Hv]; [done|]. assert (v = w) as -> by congruence. cbn. rewrite elem_of_cons, (st_child W t S _ _ _ _ _ Hs Hq). split.
    + intros [[= -> ->]|H]; [unfold W'; by rewrite lookup_insert_eq|]. by apply insert_old.
    + intros [[-> E]|H]%insert_word; [|by right]. apply app_inj_tail in E as [_ ->]. by left.
  - destruct Hv as [[-> _]|Hv]; [done|]. rewrite (st_child W t S _ _ _ _ _ H Hv). split; [apply insert_old|].
    intros [[-> E]|K]%insert_word; [|done]. apply app_inj_tail in E as [-> _]. destruct D1. by eapply (st_inj W t S).
Qed.

Lemma trie_insert_spec : exists t', trie_insert t (length w) q c = Some (t', next_loc t) /\ states t' = insert_states /\
  icase t' = icase t /\ Struct W' t'.
Proof.
  unfold trie_insert. rewrite Hs. cbn.
  destruct (lookup_lt_is_Some_2 _ _ (grow_length (fail_states t) (length w))) as [lw Hl]. rewrite Hl. cbn.
  eexists. split_and!; [done..|]. constructor; cbn.
  - by apply insert_old, (st_root W t S).
  - intros l1 l2 v [[-> ->]|H1]%insert_word [[-> E]|H2]%insert_word; try done.
    + destruct insert_new. by exists l2.
    + subst v. destruct insert_new. by exists l1.
    + by eapply (st_inj W t S).
  - intros l. unfold W'. rewrite !lookup_insert_is_Some, (st_dom W t S). destruct (decide (q = l)) as [<-|]; [|tauto].
    rewrite Hs. split; [intros [|[? _]]; [by left|right; split; [done|by left]]|intros [|[? _]]; [by left|by right]].
  - apply insert_child.
  - intros n v d [[-> E]|H]%insert_word; [apply app_inj_tail in E as [-> ->]; exists q; by apply insert_old|].
    destruct (st_parent W t S _ _ _ H) as [l Hl']. exists l. by apply insert_old.
  - intros l [v [[-> _]|H]%insert_word]; [lia|]. etrans; [apply (st_next W t S); by exists v|lia].
  - intros i ls l. destruct (decide (i = length w)) as [->|D].
    + rewrite list_lookup_insert_eq by apply grow_length. intros [= <-] [-> |H]%elem_of_cons.
      * exists (w ++ [c]). split; [unfold W'; by rewrite lookup_insert_eq|]. rewrite length_app. cbn. lia.
      * destruct (grow_lookup _ _ _ _ Hl) as [Hl'| ->]; [|by apply not_elem_of_nil in H].
        destruct (st_levels W t S _ _ _ Hl' H) as (v & Hv & L). exists v. split; [by apply insert_old|done].
    + rewrite list_lookup_insert_ne by done. intros [Hl'| ->]%grow_lookup H; [|by apply not_elem_of_nil in H].
      destruct (st_levels W t S _ _ _ Hl' H) as (v & Hv & L). exists v. split; [by apply insert_old|done].
  - intros l v [[-> ->]|H]%insert_word Nv.
    + rewrite length_app. cbn. replace (length w + 1 - 1)%nat with (length w) by lia.
      rewrite list_lookup_insert_eq by apply grow_length. eexists. split; [done|left].
    + destruct (st_level_of W t S _ _ H Nv) as (ls & H1 & H2). apply (grow_prefix _ (length w)) in H1.
      destruct (decide ((length v - 1)%nat = length w)) as [E|D].
      * rewrite E in H1 |- *. rewrite list_lookup_insert_eq by apply grow_length. eexists. split; [done|]. right. congruence.
      * rewrite list_lookup_insert_ne by done. by exists ls.
Qed.

Lemma trie_insert_weak P t' : states t' = insert_states -> P !! (w ++ [c]) = None -> all_weak W P t -> all_weak W' P t'.
Proof.
  intros E N Wk l s' v. rewrite E. intros [[-> ->]|[[-> ->]|(D1 & D2 & H)]]%insert_states_lookup Hv; apply insert_word in Hv.
  - destruct Hv as [[_ ->]|Hv]; [|rewrite insert_fresh in Hv; done]. constructor; cbn; [by destruct w|done|..].
    + by intros [? ?]; simplify_eq.
    + by left.
    + by rewrite N.
  - destruct Hv as [[E' _]|Hv]; [by destruct (insert_old _ _ Hq)|]. destruct (Wk _ _ _ Hs Hv). by constructor.
  - destruct Hv as [[-> _]|Hv]; [done|]. by eapply Wk.
Qed.

End insert.

(** ** Adding *)

Section lower.
Context (tl : Z -> Z).
Abbreviation foldm ic := (map (fold_char tl ic)).

Lemma add_chars_spec P fuel W t inp q w : Struct W t -> all_weak W P t -> pats_in W P -> W !! q = Some w -> (length inp < fuel)%nat ->
  let u := w ++ foldm (icase t) (decode fuel inp) in
  exists W' t' q', add_chars tl fuel t inp q (length w) = Some (t', q', length u) /\ Struct W' t' /\ all_weak W' P t' /\ W ⊆ W' /\
    W' !! q' = Some u /\ icase t' = icase t /\ forall v, nd W' v -> nd W v \/ v `prefix_of` u.
Proof.
  revert W t inp q w; induction fuel as [|fuel IH]; intros W t inp q w S Wk Pi Hq Lf; [lia|].
  cbn [add_chars decode]. destruct (trie_utf8_getc inp) as [c rest] eqn:Ec.
  destruct (Z.eqb_spec c 0) as [->|Nc].
  { cbn. rewrite app_nil_r. exists W, t, q. split_and!; try done. intros v Hv. by left. }
  pose proof (getc_progress _ _ _ Ec Nc) as Lr. destruct (struct_lookup _ _ _ _ S Hq) as [s Hs]. rewrite Hs. cbn [mbind option_bind map].
  change (fold_case tl t c) with (fold_char tl (icase t) c). set (d := fold_char tl (icase t) c).
  assert (Step : exists W1 t1 q1, match g s d with None => trie_insert t (length w) q d | Some q => Some (t, q) end = Some (t1, q1) /\
    Struct W1 t1 /\ all_weak W1 P t1 /\ W ⊆ W1 /\ W1 !! q1 = Some (w ++ [d]) /\ icase t1 = icase t /\
    forall v, nd W1 v -> nd W v \/ v = w ++ [d]).
  { destruct (g s d) as [n|] eqn:Eg.
    - exists W, t, n. split_and!; try done; [by apply (g_some _ _ _ _ _ _ _ S Hs Hq)|]. intros v Hv. by left.
    - destruct (trie_insert_spec W t q w d s S Hq Hs Eg) as (t1 & -> & Est & Eic & S1).
      pose proof (insert_new W t q w d s S Hq Hs Eg) as Nd. pose proof (insert_fresh W t S) as Nf.
      exists (<[next_loc t := w ++ [d]]> W), t1, (next_loc t). split_and!; try done.
      + eapply trie_insert_weak; try done. apply eq_None_not_Some. intros Hp. by apply Nd, Pi.
      + by apply insert_subseteq.
      + by rewrite lookup_insert_eq.
      + intros v [l [[<- <-]|[_ Hl]]%lookup_insert_Some]; [by right|left; by exists l]. }
  destruct Step as (W1 & t1 & q1 & -> & S1 & Wk1 & Sub & Hq1 & Ei & Nd1). cbn [mbind option_bind].
  destruct (IH W1 t1 rest q1 (w ++ [d]) S1 Wk1) as (W2 & t2 & q2 & E & S2 & Wk2 & Sub2 & Hq2 & Ei2 & Nd2); try done; [|lia|].
  { intros p Hp. destruct (Pi p Hp) as [l Hl]. exists l. by eapply lookup_weaken. }
  rewrite Ei in *. rewrite <- app_assoc in E, Hq2, Nd2. cbn [app] in E, Hq2, Nd2.
  exists W2, t2, q2. split_and!; try done; [|by etrans|].
  - rewrite <- E, length_app. cbn. by replace (length w + 1)%nat with (Datatypes.S (length w)) by lia.
  - intros v Hv. destruct (Nd2 v Hv) as [Hv'|Hv']; [|by right]. destruct (Nd1 v Hv') as [| ->]; [by left|].
    right. exists (foldm (icase t) (decode fuel rest)). by rewrite <- app_assoc.
Qed.

(** The invariant between the calls. *)
Record trie_inv (W : gmap loc (list Z)) (P : gmap (list Z) Z) (t : CamelTrie) : Prop := {
  ti_struct : Struct W t;
  ti_weak : all_weak W P t;
  ti_good : forall k, good_upto W P t k;
  ti_pats : pats_in W P;
  ti_nodes : forall w, nd W w -> w = [] \/ exists p, is_Some (P !! p) /\ w `prefix_of` p }.

Lemma trie_new_inv ic : trie_inv {[ROOT := []]} ∅ (camel_trie_new ic).
Proof.
  assert (H : forall l w, {[ROOT := []]} !! l = Some w -> l = ROOT /\ w = ([] : list Z)) by (by intros l w [-> ->]%lookup_singleton_Some).
  assert (Hs : forall l s, states (camel_trie_new ic) !! l = Some s -> l = ROOT /\ s = State None [] 0 0) by (intros l s E; cbn in E; by apply lookup_singleton_Some in E as [<- <-]).
  constructor.
  - constructor.
    + by rewrite lookup_singleton_eq.
    + intros l1 l2 w [-> ->]%H [-> _]%H. done.
    + intros l. split; intros [x Hx]; [apply H in Hx as [-> _]|apply Hs in Hx as [-> _]]; eexists; apply lookup_singleton_eq.
    + intros l s w c n [-> ->]%Hs [_ ->]%H. cbn. split; [by intros ?%not_elem_of_nil|]. by intros [_ ?]%H.
    + intros n w c [_ E]%H. by destruct w.
    + intros l [w [-> _]%H]. cbn. unfold ROOT. lia.
    + intros i ls l. cbn. by rewrite lookup_nil.
    + by intros l w [_ ->]%H.
  - intros l s w [-> ->]%Hs [_ ->]%H. constructor; cbn; try done. by left.
  - intros k l s w [-> ->]%Hs [_ ->]%H _. constructor; cbn; [done|]. intros p [? E]. by rewrite lookup_empty in E.
  - intros p [? E]. by rewrite lookup_empty in E.
  - intros w [l [_ ->]%H]. by left.
Qed.

(** Making the state of the word a pattern. *)
Lemma weak_add P w pid v s : weak_state P v s -> v <> w -> weak_state (<[w := pid]> P) v s.
Proof.
  intros [A B C D E] N. constructor; rewrite ?lookup_insert_ne by done; try done.
  destruct D as [->|(p & Hp & Sp & ->)]; [by left|right]. exists p. split_and!; [|done..]. apply lookup_insert_is_Some'. tauto.
Qed.

Lemma weak_mark P w pid s : weak_state P w s -> weak_state (<[w := pid]> P) w (State (fail s) (match_ s) (Z.of_nat (length w)) pid).
Proof.
  intros [A B C D E]. constructor; cbn; try done.
  - right. exists w. rewrite lookup_insert_eq. split_and!; [by eexists|done..].
  - by rewrite lookup_insert_eq.
Qed.

Lemma all_weak_good1 W P t : Struct W t -> all_weak W P t -> good_upto W P t 1.
Proof.
  intros S Wk l s w Hs Hw L. pose proof (Wk _ _ _ Hs Hw) as Ws. pose proof (pat_len_nonneg P _ _ (ws_final _ _ _ Ws)) as N0.
  destruct w as [|c [|]]; cbn in L; [|constructor|lia].
  - constructor; [done|by apply longest_nil].
  - intros _. exists ROOT, []. split_and!; [by apply (ws_one _ _ _ Ws)|apply (st_root _ _ S)|].
    split_and!; [exists ROOT; apply (st_root _ _ S)|apply suffix_nil|done|].
    intros u _ Su Du. apply suffix_proper_length in Su; [|done]. by destruct u; [|cbn in Su; lia].
  - intros p Hp Sp. destruct (decide (p = [c])) as [->|D]; [by apply (ws_own _ _ _ Ws)|].
    apply suffix_proper_length in Sp; [|done]. destruct p; [done|cbn in Sp; lia].
Qed.

Lemma trie_add_inv W P t pattern pid : trie_inv W P t ->
  exists W' t', camel_trie_add tl t pattern pid = Some t' /\ icase t' = icase t /\ trie_inv W' (<[word tl (icase t) pattern := pid]> P) t'.
Proof.
  intros [S Wk _ Pi Nd]. unfold camel_trie_add.
  destruct (add_chars_spec P (Datatypes.S (length pattern)) W t pattern ROOT [] S Wk Pi (st_root _ _ S)) as
    (W1 & t1 & q & E & S1 & Wk1 & Sub & Hq & Ei & Nd1); [lia|]. cbn [app length] in E, Hq, Nd1. fold (word tl (icase t) pattern) in E, Hq, Nd1.
  set (w := word tl (icase t) pattern) in *. rewrite E. cbn [mbind option_bind].
  destruct (struct_lookup _ _ _ _ S1 Hq) as [s Hs]. rewrite Hs. cbn [mbind option_bind].
  set (P' := <[w := pid]> P). set (s' := State _ _ _ _). set (t2 := set_states t1 (<[q := s']> (states t1))).
  assert (Pi1 : pats_in W1 P').
  { intros p [<-|[_ Hp]]%lookup_insert_is_Some; [by exists q|]. destruct (Pi p Hp) as [l Hl]. exists l. by eapply lookup_weaken. }
  assert (S2 : Struct W1 t2).
  { destruct S1 as [A1 A2 A3 A4 A5 A6 A7 A8]. constructor; try done.
    - intros l. unfold t2; cbn. rewrite lookup_insert_is_Some', <- A3. destruct (decide (q = l)) as [<-|]; [|tauto].
      split; [by left|]. intros _. by exists w.
    - intros l u v c n Hl Hv. unfold t2 in Hl; cbn in Hl. apply lookup_insert_Some in Hl as [[<- <-]|[_ Hl]]; [by apply (A4 q s)|by eapply A4]. }
  assert (Wk2 : all_weak W1 P' t2).
  { intros l u v Hl Hv. unfold t2 in Hl; cbn in Hl. apply lookup_insert_Some in Hl as [[<- <-]|[D Hl]].
    - assert (v = w) as -> by congruence. apply weak_mark. by apply (Wk1 q).
    - apply weak_add; [by apply (Wk1 l)|]. intros ->. apply D. by eapply (st_inj _ _ S1). }
  destruct (fail_levels_spec W1 P' (fun w c => nd_snoc_parent W1 t2 w c S2) Pi1 t2 0 S2 Wk2) as (t3 & E3 & I3 & G3); [by apply all_weak_good1|].
  exists W1, t3. pose proof (improves_struct _ _ _ _ I3 S2) as S3. split_and!.
  - exact E3.
  - by rewrite (im_icase _ _ _ _ I3).
  - constructor; [done|by apply (im_weak _ _ _ _ I3)| |done|].
    + intros k l u v Hl Hv _. apply (G3 l); [done..|]. etrans; [by apply (depth_bound W1 t2 l)|lia].
    + intros v Hv. destruct (Nd1 v Hv) as [Hv'|Hp]; [|right; exists w; split; [apply lookup_insert_is_Some'; by left|done]].
      destruct (Nd v Hv') as [|(p & Hp & Pp)]; [by left|right]. exists p. split; [|done]. apply lookup_insert_is_Some'. tauto.
Qed.

Lemma add_all_inv W P t ps : trie_inv W P t ->
  exists W' t', add_all tl t ps = Some t' /\ icase t' = icase t /\ trie_inv W' (ids_of tl (icase t) P ps) t'.
Proof.
  revert W P t; induction ps as [|[p pid] ps IH]; intros W P t I; cbn [add_all ids_of]; [by exists W, t|].
  destruct (trie_add_inv W P t p pid I) as (W1 & t1 & -> & Ei & I1). cbn.
  destruct (IH _ _ _ I1) as (W2 & t2 & E & Ei2 & I2). rewrite Ei in *. exists W2, t2. split_and!; done.
Qed.

(** ** Searching *)

Lemma decode_fuel f1 f2 inp : (length inp < f1)%nat -> (length inp < f2)%nat -> decode f1 inp = decode f2 inp.
Proof.
  revert f2 inp; induction f1 as [|f1 IH]; intros [|f2] inp L1 L2; try lia. cbn [decode].
  destruct (trie_utf8_getc inp) as [c rest] eqn:E. destruct (Z.eqb_spec c 0); [done|]. f_equal.
  apply getc_progress in E; [|done]. apply IH; lia.
Qed.

(** The text by its first character. *)
Lemma text_step ic inp c rest : trie_utf8_getc inp = (c, rest) -> c <> 0 ->
  text tl ic inp = if c =? 65534 then text tl ic rest else fold_char tl ic c :: text tl ic rest.
Proof.
  intros E N. unfold text at 1. cbn [decode]. rewrite E, (proj2 (Z.eqb_neq c 0) N). cbn [List.filter].
  rewrite (decode_fuel _ (Datatypes.S (length rest))) by (apply getc_progress in E; [lia..|done]).
  by destruct (c =? 65534).
Qed.

Lemma text_end ic inp rest : trie_utf8_getc inp = (0, rest) -> text tl ic inp = [].
Proof. intros E. unfold text. cbn [decode]. by rewrite E. Qed.

Lemma getc_loop_suffix r u m inp c rest : getc_loop r u m inp = GetcChar c rest -> rest `suffix_of` inp.
Proof.
  revert r u m; induction inp as [|b inp IH]; intros r u m; cbn; [done|]. destruct (negb (Z.land b 192 =? 128)); [done|].
  destruct (negb _); [intros H%IH|intros [= _ <-]]; by apply suffix_cons_r.
Qed.

Lemma getc_suffix inp c rest : trie_utf8_getc inp = (c, rest) -> rest `suffix_of` inp.
Proof.
  destruct inp as [|r inp]; cbn; [by intros [= _ <-]|]. destruct (r <? 128); [intros [= _ <-]; by apply suffix_cons_r|].
  destruct (r <? 254); [|intros [= _ <-]; by apply suffix_cons_r]. destruct (getc_loop r r 32640 inp) eqn:E; intros [= _ <-]; [|by apply suffix_cons_r|done].
  apply suffix_cons_r. by eapply getc_loop_suffix.
Qed.

(** A pattern somewhere in the text. *)
Definition infix (p x : list Z) : Prop := exists a b, x = a ++ p ++ b.

Lemma infix_snoc p x c : infix p (x ++ [c]) -> infix p x \/ p `suffix_of` x ++ [c].
Proof.
  intros (a & b & E). destruct b as [|d b _] using rev_ind; [right; exists a; by rewrite E, app_nil_r|left].
  rewrite !app_assoc in E. apply app_inj_tail in E as [-> _]. exists a, b. by rewrite app_assoc.
Qed.

Lemma suffix_infix p x y : p `suffix_of` x -> infix p (x ++ y).
Proof. intros [a ->]. exists a, y. by rewrite <- app_assoc. Qed.

Section search.
Context (W : gmap loc (list Z)) (P : gmap (list Z) Z) (t : CamelTrie) (TI : trie_inv W P t) (buffer : list Z).

Definition no_pattern (x : list Z) : Prop := forall p, is_Some (P !! p) -> p <> [] -> ~ infix p x.

(** The state stands for the longest suffix of what was read. *)
Definition longest_node (x v : list Z) : Prop := v `suffix_of` x /\ nd W v /\ forall u, nd W u -> u `suffix_of` x -> u `suffix_of` v.

Lemma longest_node_step x v c u : longest_node x v -> lstep W v c u -> longest_node (x ++ [c]) (u ++ [c]).
Proof.
  intros (Sv & Nv & Mv) (Su & Nu & Mu). split_and!; [apply suffix_snoc; by etrans|done|].
  intros y Ny [->|(z & -> & Sz)]%suffix_snoc_iff; [apply suffix_nil|]. pose proof (nd_snoc_parent _ _ _ _ (ti_struct _ _ _ TI) Ny).
  apply suffix_snoc, Mu; [|done]. by apply Mv.
Qed.

Lemma longest_node_none x v c : longest_node x v -> (forall u, u `suffix_of` v -> ~ nd W (u ++ [c])) -> longest_node (x ++ [c]) [].
Proof.
  intros (Sv & Nv & Mv) No. split_and!; [apply suffix_nil|exists ROOT; apply (st_root _ _ (ti_struct _ _ _ TI))|].
  intros y Ny [->|(z & -> & Sz)]%suffix_snoc_iff; [done|]. pose proof (nd_snoc_parent _ _ _ _ (ti_struct _ _ _ TI) Ny).
  exfalso. apply (No z); [by apply Mv|done].
Qed.

(** Whether a pattern ends here is what [final] says. *)
Lemma no_pattern_step x v c s n : no_pattern x -> longest_node (x ++ [c]) v -> W !! n = Some v -> states t !! n = Some s ->
  final s = 0 -> no_pattern (x ++ [c]).
Proof.
  intros N (Sv & Nv & Mv) Hn Hs F p Hp Np [H|H]%infix_snoc; [by apply (N p)|].
  pose proof (gs_final _ _ _ _ (ti_good _ _ _ TI (length v) _ _ _ Hs Hn ltac:(done)) p Hp (Mv p (ti_pats _ _ _ TI p Hp) H)).
  destruct p; [done|cbn in *; lia].
Qed.

Lemma final_pattern v s n : W !! n = Some v -> states t !! n = Some s -> final s <> 0 -> exists p, is_Some (P !! p) /\ p <> [] /\ p `suffix_of` v.
Proof.
  intros Hn Hs F. destruct (ws_final _ _ _ (ti_weak _ _ _ TI _ _ _ Hs Hn)) as [|(p & Hp & Sp & E)]; [done|].
  exists p. split_and!; [done| |done]. intros ->. by apply F.
Qed.

Definition search_spec (x : list Z) (inptr : list Z) (res : option (list Z * Z)) : Prop :=
  match res with
  | None => no_pattern (x ++ text tl (icase t) inptr)
  | Some (pat, pid) => exists x0 c y v z, x ++ text tl (icase t) inptr = (x0 ++ [c]) ++ y /\ no_pattern x0 /\
      longest_node (x0 ++ [c]) v /\ (exists p, is_Some (P !! p) /\ p <> [] /\ p `suffix_of` v) /\ pid = default (-1) (P !! v) /\
      pat `suffix_of` buffer /\ text tl (icase t) pat = z ++ y /\ v `suffix_of` z
  end.

Lemma trie_loop_spec fuel inptr pat q x v z : (length inptr < fuel)%nat -> W !! q = Some v -> longest_node x v -> no_pattern x ->
  inptr `suffix_of` buffer -> pat `suffix_of` buffer -> text tl (icase t) pat = z ++ text tl (icase t) inptr -> v `suffix_of` z ->
  exists res, trie_loop tl fuel t inptr pat inptr q = Some res /\ search_spec x inptr res.
Proof.
  revert inptr pat q x v z; induction fuel as [|fuel IH]; intros inptr pat q x v z Lf Hq Lv No Si Sp Ep Sz; [lia|].
  cbn [trie_loop]. destruct (trie_utf8_getc inptr) as [c rest] eqn:E.
  destruct (Z.eqb_spec c 0) as [->|N0]; [exists None; split; [done|]; unfold search_spec; by rewrite (text_end _ _ _ E), app_nil_r|].
  pose proof (getc_progress _ _ _ E N0) as Lr. assert (Sr : rest `suffix_of` buffer) by (etrans; [by eapply getc_suffix|done]).
  pose proof (text_step (icase t) _ _ _ E N0) as Et.
  destruct (Z.eqb_spec c 65534) as [->|Nf]; cbn [negb].
  { destruct (IH rest pat q x v z) as (res & -> & R); try done; [lia|by rewrite Ep, Et|]. exists res. split; [done|].
    unfold search_spec in *. by rewrite Et. }
  cbv iota in Et. change (fold_case tl t c) with (fold_char tl (icase t) c). set (d := fold_char tl (icase t) c) in *.
  assert (Shift : forall res, search_spec (x ++ [d]) rest res -> search_spec x inptr res).
  { intros res. unfold search_spec. by rewrite Et, <- app_assoc. }
  pose proof (ti_struct _ _ _ TI) as S. pose proof (depth_bound _ _ _ _ S Hq) as Lb.
  destruct (chase_spec W P t (length v) q v d (chase_fuel t) S (ti_weak _ _ _ TI) (ti_good _ _ _ TI _) Hq) as
    [(r & u & n & -> & Hr & Hn & Lu)|[-> Nn]]; [done|unfold chase_fuel; lia|..]; cbn [mbind option_bind].
  - destruct (struct_lookup _ _ _ _ S Hn) as [s Hs]. rewrite Hs. cbn [mbind option_bind].
    pose proof (longest_node_step _ _ _ _ Lv Lu) as L'.
    set (pat' := if decide (r = ROOT) then inptr else pat).
    assert (exists z', text tl (icase t) pat' = z' ++ text tl (icase t) rest /\ u ++ [d] `suffix_of` z' /\ pat' `suffix_of` buffer) as (z' & Ez & Sz' & Sp').
    { unfold pat'. destruct (decide (r = ROOT)) as [->|].
      - exists [d]. split_and!; [done| |done]. rewrite (st_root _ _ S) in Hr. injection Hr as <-. done.
      - exists (z ++ [d]). split_and!; [by rewrite Ep, Et, <- app_assoc| |done]. apply suffix_snoc. destruct Lu as (Su & _ & _). by repeat (etrans; [eassumption|]). }
    destruct (Z.eqb_spec (final s) 0) as [F|F]; cbn [negb].
    + destruct (IH rest pat' n (x ++ [d]) (u ++ [d]) z') as (res & -> & R); try done; [lia|by eapply no_pattern_step|]. exists res. split; [done|by apply Shift].
    + exists (Some (pat', id s)). split; [done|]. exists x, d, (text tl (icase t) rest), (u ++ [d]), z'. split_and!; try done.
      * by rewrite Et, <- app_assoc.
      * by eapply final_pattern.
      * apply (ws_id _ _ _ (ti_weak _ _ _ TI _ _ _ Hs Hn)). by destruct u.
  - destruct (struct_lookup _ _ _ _ S (st_root _ _ S)) as [s0 Hs0]. pose proof (longest_node_none _ _ _ Lv Nn) as L'.
    destruct (IH rest rest ROOT (x ++ [d]) [] []) as (res & -> & R); try done; [lia|apply (st_root _ _ S)| |].
    { intros p Hp Np [H|H]%infix_snoc; [by apply (No p)|]. destruct L' as (_ & _ & M).
      specialize (M p (ti_pats _ _ _ TI p Hp) H). by apply suffix_nil_inv in M. }
    exists res. split; [done|by apply Shift].
Qed.

Lemma search_total : exists res, camel_trie_search tl t buffer = Some res /\ search_spec [] buffer res.
Proof.
  pose proof (st_root _ _ (ti_struct _ _ _ TI)) as R. unfold camel_trie_search.
  apply (trie_loop_spec _ buffer buffer ROOT [] [] []); try done; [lia| |].
  - unfold longest_node. split_and!; [done|by exists ROOT|]. intros u _ Su. apply suffix_nil_inv in Su. by subst u.
  - intros p _ Np (a & b & E). destruct a; [destruct p; done|done].
Qed.
End search.

(** ** The patterns by their words *)

Lemma ids_of_some ic ps ids w : is_Some (ids_of tl ic ids ps !! w) <-> is_Some (ids !! w) \/ exists p pid, (p, pid) ∈ ps /\ word tl ic p = w.
Proof.
  revert ids; induction ps as [|[p pid] ps IH]; intros ids; cbn.
  { split; [by left|]. intros [H|(p & pid & H%not_elem_of_nil & _)]; done. }
  rewrite IH, lookup_insert_is_Some'. split.
  - intros [[E|H]|(p' & pid' & H & E)]; [right|by left|right]; eexists _, _; split; [left|done|by right|done].
  - intros [H|(p' & pid' & [[= -> ->]|H]%elem_of_cons & E)]; [left; by right|left; by left|right; eauto].
Qed.

Lemma patterns_some ic ps w : is_Some (ids_of tl ic ∅ ps !! w) <-> exists p pid, (p, pid) ∈ ps /\ word tl ic p = w.
Proof. rewrite ids_of_some, lookup_empty. split; [intros [[? ?]|]; done|by right]. Qed.

Lemma occurs_infix p x : occurs p x = true <-> infix p x.
Proof.
  induction x as [|c x IH]; cbn; rewrite orb_true_iff, prefix_eqb_spec.
  - split; [intros [[r E]|]; [by exists [], r|done]|]. intros ([|] & b & E); [left; by exists b|done].
  - rewrite IH. split; [intros [[r E]|(a & b & ->)]; [by exists [], r|by exists (c :: a), b]|].
    intros ([|d a] & b & E); [left; by exists b|right]. injection E as _ ->. by exists a, b.
Qed.

Lemma naive_search_spec ic ps buffer : naive_search tl ic ps buffer = true <->
  exists w, is_Some (ids_of tl ic ∅ ps !! w) /\ w <> [] /\ infix w (text tl ic buffer).
Proof.
  unfold naive_search. rewrite existsb_exists. split.
  - intros ([p pid] & H%list_elem_of_In & E). destruct (word tl ic p) as [|c w] eqn:Ew; [done|]. exists (c :: w).
    split_and!; [apply patterns_some; eauto|done|by apply occurs_infix].
  - intros (w & (p & pid & H & <-)%patterns_some & N & I). exists (p, pid). split; [by apply list_elem_of_In|].
    destruct (word tl ic p); [done|]. by apply occurs_infix.
Qed.

(** What begins a pattern. *)
Definition begins (ic : bool) (ps : list (list Z * Z)) (v : list Z) : Prop :=
  v = [] \/ exists p pid, (p, pid) ∈ ps /\ v `prefix_of` word tl ic p.

Lemma nd_begins W ic ps t v : trie_inv W (ids_of tl ic ∅ ps) t -> nd W v <-> begins ic ps v.
Proof.
  intros I. split.
  - intros [->|(w & (p & pid & H & <-)%patterns_some & Pv)]%(ti_nodes _ _ _ I); [by left|right; eauto].
  - intros [->|(p & pid & H & [k E])]; [exists ROOT; apply (st_root _ _ (ti_struct _ _ _ I))|].
    assert (nd W (v ++ k)) as K by (apply (ti_pats _ _ _ I), patterns_some; eauto).
    clear E. induction k as [|c k IH] using rev_ind; [by rewrite app_nil_r in K|]. apply IH.
    rewrite app_assoc in K. by eapply (nd_snoc_parent _ _ _ _ (ti_struct _ _ _ I)).
Qed.

(** ** The theorems *)

(** C35. Building a trie of any patterns (either case mode) and searching any buffer with it
    always returns, on valid addresses; the search answers exactly when the naive
    search finds one of the non-empty patterns among the characters of the buffer. *)
Theorem trie_search_finds (ic : bool) (ps : list (list Z * Z)) :
  exists t, add_all tl (camel_trie_new ic) ps = Some t /\
    forall buffer, exists r, camel_trie_search tl t buffer = Some r /\ (r <> None <-> naive_search tl ic ps buffer = true).
Proof.
  destruct (add_all_inv _ _ (camel_trie_new ic) ps (trie_new_inv ic)) as (W & t & -> & Ei & I). cbn [icase camel_trie_new] in Ei, I.
  exists t. split; [done|]. intros buffer. destruct (search_total W _ t I buffer) as (r & -> & Sp). exists r. split; [done|].
  rewrite naive_search_spec. unfold search_spec in Sp. rewrite Ei in Sp. cbn [app] in Sp. destruct r as [[pat pid]|].
  - split; [intros _|done]. destruct Sp as (x0 & c & y & v & z & -> & _ & (Sv & _) & (p & Hp & Np & Pv) & _).
    exists p. split_and!; [done..|]. apply suffix_infix. by etrans.
  - split; [done|]. intros (w & Hw & Nw & Iw). by destruct (Sp w Hw Nw).
Qed.

(** What the search answers: the text splits at [c] so that no pattern is in what comes
    before it; the state stands for the longest [v] that ends there and begins a
    pattern; a pattern is a suffix of [v]; the identifier is that of the pattern [v], or
    -1 when [v] is only the start of one; the pointer is into the buffer, at or before
    where [v] starts. *)
Theorem trie_search_answer (ic : bool) (ps : list (list Z * Z)) (t : CamelTrie) (buffer pat : list Z) (pid : Z) :
  add_all tl (camel_trie_new ic) ps = Some t -> camel_trie_search tl t buffer = Some (Some (pat, pid)) ->
  exists x c y v z, text tl ic buffer = (x ++ [c]) ++ y /\
    (forall p i, (p, i) ∈ ps -> word tl ic p <> [] -> occurs (word tl ic p) x = false) /\
    (v `suffix_of` x ++ [c] /\ begins ic ps v /\ forall u, begins ic ps u -> u `suffix_of` x ++ [c] -> u `suffix_of` v) /\
    (exists p i, (p, i) ∈ ps /\ word tl ic p <> [] /\ word tl ic p `suffix_of` v) /\
    pid = default (-1) (ids_of tl ic ∅ ps !! v) /\
    pat `suffix_of` buffer /\ text tl ic pat = z ++ y /\ v `suffix_of` z.
Proof.
  intros Ea Es. destruct (add_all_inv _ _ (camel_trie_new ic) ps (trie_new_inv ic)) as (W & t' & Ea' & Ei & I). cbn [icase camel_trie_new] in Ea', Ei, I.
  assert (t' = t) as -> by congruence. destruct (search_total W _ t I buffer) as (r & Er & Sp). rewrite Es in Er. injection Er as <-.
  unfold search_spec in Sp. rewrite Ei in Sp. cbn [app] in Sp. destruct Sp as (x & c & y & v & z & Et & No & (Sv & Nv & Mv) & (w & Hw & Nw & Pw) & Ep & Sp & Tp & Vz).
  exists x, c, y, v, z. split_and!; try done.
  - intros p i H N. apply not_true_iff_false. rewrite occurs_infix. apply No; [apply patterns_some; eauto|done].
  - by apply (nd_begins W ic ps t).
  - intros u Hu. apply Mv. by apply (nd_begins W ic ps t).
  - apply patterns_some in Hw as (p & i & H & <-). eauto.
Qed.
End lower.

Lemma trie_search_answer_witness :
  exists x c y v z, text same true (bs "xabce") = (x ++ [c]) ++ y /\
    (forall p i, (p, i) ∈ [(bs "abcd", 0); (bs "bce", 1)] -> word same true p <> [] -> occurs (word same true p) x = false) /\
    (v `suffix_of` x ++ [c] /\ begins same true [(bs "abcd", 0); (bs "bce", 1)] v /\
      forall u, begins same true [(bs "abcd", 0); (bs "bce", 1)] u -> u `suffix_of` x ++ [c] -> u `suffix_of` v) /\
    (exists p i, (p, i) ∈ [(bs "abcd", 0); (bs "bce", 1)] /\ word same true p <> [] /\ word same true p `suffix_of` v) /\
    1 = default (-1) (ids_of same true ∅ [(bs "abcd", 0); (bs "bce", 1)] !! v) /\
    bs "abce" `suffix_of` bs "xabce" /\ text same true (bs "abce") = z ++ y /\ v `suffix_of` z.
Proof.
  refine (trie_search_answer same true [(bs "abcd", 0); (bs "bce", 1)] _ (bs "xabce") (bs "abce") 1 _ _); [vm_compute; reflexivity|].
  vm_compute. reflexivity.
Defined.
