(* ===== verification/UrlScanner.v ===== *)
(** * UrlScanner: finding URLs and addresses in a text (camel/camel-url-scanner.c)

    The memory from [in] on is a list of bytes that may be longer than the text;
    pointers into it are positions.  [None] is a read outside of that memory, or
    of an array.  GRegex is a parameter: [regex_match pattern subject] is the
    place of the whole match, if the pattern compiles and matches. *)

From Stdlib Require Import ZArith Lia Ascii.
From stdpp Require Import base list strings gmap numbers option.
From S2P Require Import Prelude Utf8 Trie TrieInv TrieSpec.

(** ** Character classes *)

Definition url_scanner_table : list Z := [
   1; 1; 1; 1; 1; 1; 1; 1; 1; 9; 9; 1; 1; 9; 1; 1;
   1; 1; 1; 1; 1; 1; 1; 1; 1; 1; 1; 1; 1; 1; 1; 1;
   24; 128; 160; 128; 128; 128; 128; 128; 160; 160; 128; 128; 160; 192; 160; 160;
   68; 68; 68; 68; 68; 68; 68; 68; 68; 68; 160; 160; 32; 128; 32; 128;
   160; 66; 66; 66; 66; 66; 66; 66; 66; 66; 66; 66; 66; 66; 66; 66;
   66; 66; 66; 66; 66; 66; 66; 66; 66; 66; 66; 160; 160; 160; 128; 128;
   128; 66; 66; 66; 66; 66; 66; 66; 66; 66; 66; 66; 66; 66; 66; 66;
   66; 66; 66; 66; 66; 66; 66; 66; 66; 66; 66; 128; 128; 128; 128; 1;
   1; 1; 1; 1; 1; 1; 1; 1; 1; 1; 1; 1; 1; 1; 1; 1;
   1; 1; 1; 1; 1; 1; 1; 1; 1; 1; 1; 1; 1; 1; 1; 1;
   1; 1; 1; 1; 1; 1; 1; 1; 1; 1; 1; 1; 1; 1; 1; 1;
   1; 1; 1; 1; 1; 1; 1; 1; 1; 1; 1; 1; 1; 1; 1; 1;
   1; 1; 1; 1; 1; 1; 1; 1; 1; 1; 1; 1; 1; 1; 1; 1;
   1; 1; 1; 1; 1; 1; 1; 1; 1; 1; 1; 1; 1; 1; 1; 1;
   1; 1; 1; 1; 1; 1; 1; 1; 1; 1; 1; 1; 1; 1; 1; 1;
   1; 1; 1; 1; 1; 1; 1; 1; 1; 1; 1; 1; 1; 1; 1; 1].

Definition IS_CTRL : Z := Z.shiftl 1 0.
Definition IS_ALPHA : Z := Z.shiftl 1 1.
Definition IS_DIGIT : Z := Z.shiftl 1 2.
Definition IS_LWSP : Z := Z.shiftl 1 3.
Definition IS_SPACE : Z := Z.shiftl 1 4.
Definition IS_SPECIAL : Z := Z.shiftl 1 5.
Definition IS_DOMAIN : Z := Z.shiftl 1 6.
Definition IS_URLSAFE : Z := Z.shiftl 1 7.

Definition url_class (x mask : Z) : Z := Z.land (nth (Z.to_nat (u8 x)) url_scanner_table 0) mask.
Definition is_atom (x : Z) : bool := url_class x (Z.lor (Z.lor IS_SPECIAL IS_SPACE) IS_CTRL) =? 0.
Definition is_digit (x : Z) : bool := negb (url_class x IS_DIGIT =? 0).
Definition is_domain (x : Z) : bool := negb (url_class x IS_DOMAIN =? 0).

Definition is_open_brace (c : Z) : bool := existsb (Z.eqb c) (bs "({[<|'").

(** The program that makes the table ([BUILD_TABLE]). *)
Definition CHARS_LWSP : list Z := [32; 9; 10; 13].
Definition CHARS_SPECIAL : list Z := bs "()<>@,;:\" ++ [34] ++ bs ".[]".
Definition CHARS_URLSAFE : list Z := bs "$-_.+!*'(),{}|\^~[]`#%" ++ [34] ++ bs ";/?:@&=".

Definition or_at (table : list Z) (i : Z) (mask : Z) : list Z := alter (fun w => Z.lor w mask) (Z.to_nat i) table.
Definition table_init_bits (mask : Z) (vals table : list Z) : list Z := fold_left (fun table v => or_at table v mask) vals table.

Definition table_entry (i : Z) : Z :=
  let w := 0 in
  let w := if i <? 32 then Z.lor w IS_CTRL else w in
  let w := if (48 <=? i) && (i <=? 57) then Z.lor w (Z.lor IS_DIGIT IS_DOMAIN) else w in
  let w := if ((97 <=? i) && (i <=? 122)) || ((65 <=? i) && (i <=? 90)) then Z.lor w (Z.lor IS_ALPHA IS_DOMAIN) else w in
  if i >=? 127 then Z.lor w IS_CTRL else w.

Definition url_scanner_table_init : list Z :=
  let table := map table_entry (seqZ 0 256) in
  let table := or_at table (ch " ") IS_SPACE in
  let table := or_at table (ch "-") IS_DOMAIN in
  let table := or_at table (ch "/") IS_SPECIAL in
  let table := table_init_bits IS_LWSP CHARS_LWSP table in
  let table := table_init_bits IS_SPECIAL CHARS_SPECIAL table in
  table_init_bits IS_URLSAFE CHARS_URLSAFE table.

(** ** Matches *)

Record CamelUrlMatch := Match { m_pattern : list Z; m_prefix : list Z; um_so : Z; um_eo : Z }.
Definition set_um_so (m : CamelUrlMatch) (x : nat) := Match (m_pattern m) (m_prefix m) (Z.of_nat x) (um_eo m).
Definition set_um_eo (m : CamelUrlMatch) (x : nat) := Match (m_pattern m) (m_prefix m) (um_so m) (Z.of_nat x).

(** [in], [pos], [inend] and [match]: the answer and the new match. *)
Abbreviation CamelUrlScanFunc := (list Z -> nat -> nat -> CamelUrlMatch -> option (bool * CamelUrlMatch)).

Record CamelUrlPattern := Pattern { pattern : list Z; prefix_ : list Z; start : CamelUrlScanFunc; end_ : CamelUrlScanFunc }.

Section regex.
Context (regex_match : list Z -> list Z -> option (Z * Z)).

(** *** URLs *)

(** The end of the candidate moves to the first angle bracket. *)
Fixpoint cut_angle (t : list Z) : list Z :=
  match t with
  | [] => []
  | c :: t => if (c =? ch "<") || (c =? ch ">") then [] else c :: cut_angle t
  end.

Definition closing_of (c : Z) : Z :=
  if c =? ch ")" then ch "(" else if c =? ch "}" then ch "{" else if c =? ch "]" then ch "["
  else if c =? ch ">" then ch "<" else 0.

Definition count (c : Z) (t : list Z) : nat := length (List.filter (Z.eqb c) t).

(** [strchr] in the string of trailing characters; its terminator counts. *)
Definition trailing_bad_char (c : Z) : bool := existsb (Z.eqb c) (bs ",.:;?!-|}])" ++ [34; 62; 0]).

(** The bytes between [pos] and [inptr], last first. *)
Fixpoint strip_trailing (rev_t : list Z) : list Z :=
  match rev_t with
  | [] => []
  | c :: rest =>
      if trailing_bad_char c then
        let open_bracket := closing_of c in
        if negb (open_bracket =? 0) && (0 <? count open_bracket rev_t)%nat && (count c rev_t <=? count open_bracket rev_t)%nat
        then rev_t
        else strip_trailing rest
      else rev_t
  end.

Definition camel_url_pattern_end (inb : list Z) (pos inend : nat) (m : CamelUrlMatch) (pattern : list Z)
    (remove_trailing_bad_chars : bool) : bool * CamelUrlMatch :=
  let subject := take (inend - pos) (drop pos inb) in
  match regex_match pattern subject with
  | None => (false, m)
  | Some (start_pos, end_pos) =>
      if (start_pos =? 0) && (end_pos >? 0) && (end_pos <=? Z.of_nat (inend - pos)) then
        let t := cut_angle (take (Z.to_nat end_pos) subject) in
        let success := (0 <? length t)%nat in
        let t := if remove_trailing_bad_chars && success then reverse (strip_trailing (reverse t)) else t in
        (success, set_um_eo m (pos + length t))
      else (false, m)
  end.

Definition URL_PROTOCOLS : list Z := bs "news|telnet|nntp|file|https?|s?ftp|webcals?|localhost|ssh".
Definition URL_PATTERN : list Z :=
  bs "((?:(?:(?:" ++ URL_PROTOCOLS ++ bs ")\:\/\/)|(?:www\.|ftp\.))[^\s\/\$\.\?#].[^\s]*+)".
Definition FILE_PATTERN : list Z := bs "((?:(?:(?:file)\:\/\/)|(?:(?:file)\:\/\/\/))[^\s\/\$\.\?#].[^\s]*+)".

Definition camel_url_file_start : CamelUrlScanFunc := fun inb pos inend m => Some (true, set_um_so m pos).

Definition camel_url_file_end : CamelUrlScanFunc := fun inb pos inend m =>
  Some (camel_url_pattern_end inb pos inend m FILE_PATTERN false).

(** [strncmp (pos, "www", 3)] reads up to a difference. *)
Fixpoint strncmp_eq (lit mem : list Z) : option bool :=
  match lit with
  | [] => Some true
  | a :: lit =>
      match mem with
      | [] => None
      | c :: mem => if c =? a then strncmp_eq lit mem else Some false
      end
  end.

Definition camel_url_web_start : CamelUrlScanFunc := fun inb pos inend m =>
  www ← if (0 <? pos)%nat then strncmp_eq (bs "www") (drop pos inb) else Some false;
  part ← if www : bool then c ← inb !! (pos - 1)%nat; Some (negb (is_open_brace c) && negb (isspace c)) else Some false;
  if part : bool then Some (false, m) else Some (true, set_um_so m pos).

Definition camel_url_web_end : CamelUrlScanFunc := fun inb pos inend m =>
  Some (camel_url_pattern_end inb pos inend m URL_PATTERN true).
End regex.

(** *** Addresses *)

(** [while (inptr > in && is_atom ( *inptr)) inptr--]. *)
Fixpoint back_atoms (inb : list Z) (inptr : nat) : option nat :=
  match inptr with
  | O => Some O
  | S p => c ← inb !! inptr; if is_atom c then back_atoms inb p else Some inptr
  end.

(** The outer loop; each round goes back by a byte at least. *)
Fixpoint back_local (fuel : nat) (inb : list Z) (inptr : nat) : option nat :=
  match fuel with
  | O => Some inptr
  | S fuel =>
      if (0 <? inptr)%nat then
        c ← inb !! inptr;
        if is_atom c then
          p ← back_atoms inb (inptr - 1);
          dot ← if (0 <? p)%nat then c ← inb !! p; Some (c =? ch ".") else Some false;
          back_local fuel inb (if dot : bool then (p - 1)%nat else p)
        else Some inptr
      else Some inptr
  end.

(** [while (!is_atom ( *inptr) || is_open_brace ( *inptr)) inptr++], up to the end of the memory. *)
Fixpoint skip_non_atoms (mem : list Z) (inptr : nat) : option nat :=
  match mem with
  | [] => None
  | c :: mem => if negb (is_atom c) || is_open_brace c then skip_non_atoms mem (S inptr) else Some inptr
  end.

Definition camel_url_addrspec_start : CamelUrlScanFunc := fun inb pos inend m =>
  c ← inb !! pos;
  if negb (c =? ch "@") then Some (false, m)
  else
    let inptr := if (0 <? pos)%nat then (pos - 1)%nat else pos in
    inptr ← back_local pos inb inptr;
    inptr ← skip_non_atoms (drop inptr inb) inptr;
    if (pos <=? inptr)%nat then Some (false, m) else Some (true, set_um_so m inptr).

(** [while (inptr < inend && is_digit ( *inptr) && digits < 3)]: what is left of the three digits. *)
Fixpoint skip_digits (n : nat) (inb : list Z) (inptr inend : nat) : option nat :=
  match n with
  | O => Some inptr
  | S n =>
      if (inptr <? inend)%nat then c ← inb !! inptr; if is_digit c then skip_digits n inb (S inptr) inend else Some inptr
      else Some inptr
  end.

(** [parts] rounds are left; None inside: return FALSE. *)
Fixpoint domain_literal (parts : nat) (inb : list Z) (inptr inend : nat) : option (option nat) :=
  match parts with
  | O => Some (Some inptr)
  | S parts =>
      inptr ← skip_digits 3 inb (S inptr) inend;
      c ← inb !! inptr;
      if negb (c =? ch ".") && negb (parts =? 0)%nat then Some None
      else domain_literal parts inb inptr inend
  end.

Fixpoint skip_domain (fuel : nat) (inb : list Z) (inptr inend : nat) : option nat :=
  match fuel with
  | O => Some inptr
  | S fuel =>
      if (inptr <? inend)%nat then c ← inb !! inptr; if is_domain c then skip_domain fuel inb (S inptr) inend else Some inptr
      else Some inptr
  end.

Fixpoint domain_loop (fuel : nat) (inb : list Z) (inptr inend : nat) (got_dot : bool) : option (nat * bool) :=
  match fuel with
  | O => Some (inptr, got_dot)
  | S fuel =>
      if (inptr <? inend)%nat then
        c ← inb !! inptr;
        if is_domain c then
          p ← skip_domain fuel inb (S inptr) inend;
          dot ← if (p <? inend)%nat then c ← inb !! p; (if c =? ch "." then d ← inb !! (S p); Some (is_domain d) else Some false) else Some false;
          if dot : bool then domain_loop fuel inb (S p) inend true else domain_loop fuel inb p inend got_dot
        else Some (inptr, got_dot)
      else Some (inptr, got_dot)
  end.

Definition camel_url_addrspec_end : CamelUrlScanFunc := fun inb pos inend m =>
  c ← inb !! pos;
  if negb (c =? ch "@") then Some (false, m)
  else
    c ← inb !! S pos;
    r ← (if c =? ch "[" then
           r ← domain_literal 4 inb (S pos) inend;
           match r with
           | None => Some None
           | Some inptr => c ← inb !! inptr; if c =? ch "]" then Some (Some (S inptr, true)) else Some None
           end
         else r ← domain_loop (inend - pos) inb (S pos) inend false; Some (Some r));
    match r with
    | None => Some (false, m)
    | Some (inptr, got_dot) =>
        if (inptr =? pos + 1)%nat || negb got_dot then Some (false, m) else Some (true, set_um_eo m inptr)
    end.

(** ** The scanner *)

Record CamelUrlScanner := Scanner { patterns : list CamelUrlPattern; trie : CamelTrie }.

Definition camel_url_scanner_new : CamelUrlScanner := Scanner [] (camel_trie_new true).

Section scan.
Context (g_unichar_tolower : Z -> Z) (g_utf8_validate : list Z -> bool).

Definition camel_url_scanner_add (scanner : CamelUrlScanner) (p : CamelUrlPattern) : option CamelUrlScanner :=
  t ← camel_trie_add g_unichar_tolower (trie scanner) (pattern p) (Z.of_nat (length (patterns scanner)));
  Some (Scanner (patterns scanner ++ [p]) t).

(** [g_ptr_array_index]. *)
Definition ptr_array_index {A} (l : list A) (i : Z) : option A := if i <? 0 then None else l !! Z.to_nat i.

(** The loop, with [inptr] as a position; each round goes on by a byte at least. *)
Fixpoint scan_loop (fuel : nat) (scanner : CamelUrlScanner) (inb : list Z) (inptr inend : nat) (m : CamelUrlMatch)
    : option (bool * CamelUrlMatch) :=
  match fuel with
  | O => None
  | S fuel =>
      found ← camel_trie_search g_unichar_tolower (trie scanner) (take (inend - inptr) (drop inptr inb));
      match found with
      | None => Some (false, m)
      | Some (rest, i) =>
          let pos := (inend - length rest)%nat in
          pat ← ptr_array_index (patterns scanner) i;
          let m := Match (pattern pat) (prefix_ pat) (um_so m) (um_eo m) in
          '(ok, m) ← start pat inb pos inend m;
          '(ok, m) ← if ok : bool then end_ pat inb pos inend m else Some (false, m);
          if ok : bool then Some (true, m)
          else
            let '(u, rest) := camel_utf8_getc_limit rest in
            if u =? 65535 then Some (false, m)
            else
              let inptr := (inend - length rest)%nat in
              if (inptr <? inend)%nat then scan_loop fuel scanner inb inptr inend m else Some (false, m)
      end
  end.

Definition camel_url_scanner_scan (scanner : CamelUrlScanner) (inb : list Z) (inlen : nat) (m : CamelUrlMatch)
    : option (bool * CamelUrlMatch) :=
  if negb (g_utf8_validate (take inlen inb)) then Some (false, m)
  else scan_loop (S inlen) scanner inb 0 inlen m.
End scan.
