(* ===== verification/UrlScannerSpec.v ===== *)
(** * UrlScannerSpec: the scanner finds matches inside of a line

    [loc] says of a computation on the memory that starts with a line that it is
    defined, and has the same result, whatever comes after the line, as long as
    that starts with a line feed or NUL.  The search for the start of an address
    is not bounded by the text: [good_after] asks for a character of an atom that
    stops it, behind every "@" of the line ([at_bounded]) or in the memory behind.
    The functions of UrlScanner.v are; a match is not empty and is inside of the
    line.  At the end is the table of character classes. *)

From Stdlib Require Import ZArith Lia Ascii.
From stdpp Require Import base list strings gmap numbers option.
From S2P Require Import Prelude Utf8 Trie TrieInv TrieSpec UrlScanner.

(** What stops the search for the start of an address. *)
Definition stops (c : Z) : bool := is_atom c && negb (is_open_brace c).

(** Behind every "@" is a character that stops it. *)
Fixpoint at_bounded (line : list Z) : bool :=
  match line with [] => true | c :: l => (negb (c =? ch "@") || existsb stops l) && at_bounded l end.

(** The byte behind a text that is no string. *)
Definition ended (after : list Z) : Prop := exists c r, after = c :: r /\ (c = cLF \/ c = 0).

(** What may be behind a line; [addresses] says that addresses are looked for. *)
Definition good_after (addresses : bool) (line after : list Z) : Prop :=
  ended after /\ (addresses = true -> at_bounded line = true \/ existsb stops after = true).

Lemma at_bounded_drop k line : at_bounded line = true -> at_bounded (drop k line) = true.
Proof. revert line; induction k as [|k IH]; intros [|c line]; cbn; try done. intros [_ E]%andb_true_iff. by apply IH. Qed.

Lemma at_bounded_snoc line : at_bounded (line ++ [0]) = true -> at_bounded line = true.
Proof.
  induction line as [|c line IH]; cbn; [done|]. rewrite existsb_app. change (existsb stops [0]) with false. rewrite orb_false_r.
  intros [-> E]%andb_true_iff. by apply IH.
Qed.

Lemma at_bounded_stops line pos : at_bounded line = true -> line !! pos = Some (ch "@") -> existsb stops line = true.
Proof.
  revert pos; induction line as [|c line IH]; intros [|pos]; cbn; try done.
  - intros E [= ->]. apply andb_true_iff in E as [E _]. rewrite Z.eqb_refl in E. cbn in E. by rewrite E, orb_true_r.
  - intros [_ E]%andb_true_iff H. by rewrite (IH pos E H), orb_true_r.
Qed.

(** ** Computations that do not depend on what is behind *)

Section line.
Context (addresses : bool) (line : list Z).
Abbreviation n := (length line).

Definition loc {A} (f : list Z -> option A) (Q : A -> Prop) : Prop :=
  exists r, Q r /\ forall after, good_after addresses line after -> f (line ++ after) = Some r.

Lemma loc_ret {A} (x : A) (Q : A -> Prop) : Q x -> loc (fun _ => Some x) Q.
Proof. intros H. by exists x. Qed.

Lemma loc_weaken {A} (f : list Z -> option A) (Q Q' : A -> Prop) : (forall x, Q x -> Q' x) -> loc f Q -> loc f Q'.
Proof. intros H (r & Hr & E). exists r. auto. Qed.

Lemma loc_bind {A B} (f : list Z -> option A) (g : A -> list Z -> option B) (Q : A -> Prop) (R : B -> Prop) :
  loc f Q -> (forall x, Q x -> loc (g x) R) -> loc (fun m => x ← f m; g x m) R.
Proof.
  intros (x & Hx & Ex) H. destruct (H x Hx) as (r & Hr & Er). exists r. split; [done|]. intros after G. rewrite Ex by done. by apply Er.
Qed.

(** A byte of the line. *)
Lemma loc_read {B} i (g : Z -> list Z -> option B) (R : B -> Prop) :
  (i < n)%nat -> (forall c, line !! i = Some c -> loc (g c) R) -> loc (fun m => c ← m !! i; g c m) R.
Proof.
  intros L H. destruct (lookup_lt_is_Some_2 line i L) as [c Hc]. destruct (H c Hc) as (r & Hr & Er). exists r. split; [done|].
  intros after G. rewrite lookup_app_l, Hc by done. by apply Er.
Qed.

(** The byte behind the line, when a line feed and NUL make no difference. *)
Lemma loc_read_end {B} (g : Z -> list Z -> option B) (R : B -> Prop) r :
  R r -> (forall m, g cLF m = Some r) -> (forall m, g 0 m = Some r) -> loc (fun m => c ← m !! n; g c m) R.
Proof.
  intros Hr E1 E2. exists r. split; [done|]. intros after [(c & s & -> & C) _]. rewrite lookup_app_r, Nat.sub_diag by lia. cbn.
  destruct C as [->| ->]; [apply E1|apply E2].
Qed.

(** ** Addresses *)

Lemma back_atoms_loc p : (p < n)%nat -> loc (fun m => back_atoms m p) (fun q => (q <= p)%nat).
Proof.
  induction p as [|p IH]; intros L; cbn [back_atoms]; [by apply loc_ret|]. apply loc_read; [done|]. intros c Hc.
  destruct (is_atom c); [|by apply loc_ret]. eapply loc_weaken; [|apply IH; lia]. cbn. intros q Hq. lia.
Qed.

Lemma back_local_loc fuel p : (p < n)%nat -> loc (fun m => back_local fuel m p) (fun q => (q <= p)%nat).
Proof.
  revert p; induction fuel as [|fuel IH]; intros p L; cbn [back_local]; [by apply loc_ret|]. destruct (0 <? p)%nat eqn:Ep; [|by apply loc_ret].
  apply loc_read; [done|]. intros c Hc. destruct (is_atom c); [|by apply loc_ret].
  eapply loc_bind; [apply back_atoms_loc; lia|]. cbn beta. intros q Hq.
  eapply (loc_bind (fun m => if (0 <? q)%nat then c ← m !! q; Some (c =? ch ".") else Some false) _ (fun _ => True)).
  { destruct (0 <? q)%nat; [|by apply loc_ret]. apply loc_read; [lia|]. intros. by apply loc_ret. }
  intros [|] _; (eapply loc_weaken; [|apply IH; lia]); cbn; intros; lia.
Qed.

Lemma skip_non_atoms_stops mem p : existsb stops mem = true -> exists q, skip_non_atoms mem p = Some q /\ (p <= q)%nat.
Proof.
  revert p; induction mem as [|c mem IH]; intros p; [done|]. cbn [skip_non_atoms existsb]. unfold stops at 1.
  destruct (is_atom c), (is_open_brace c); cbn; intros E; try (destruct (IH (S p) E) as (q & -> & L); exists q; split; [done|lia]).
  by exists p.
Qed.

(** The place in the line, or one behind it. *)
Lemma skip_non_atoms_loc pos p s : (pos < p + length s)%nat ->
  exists r, forall after, existsb stops s = true \/ existsb stops after = true -> exists q, skip_non_atoms (s ++ after) p = Some q /\
    (if (pos <=? q)%nat then None else Some q) = r /\ (p <= q)%nat.
Proof.
  revert p; induction s as [|c s IH]; intros p L; cbn in L.
  - exists None. intros after [E|E]; [done|]. destruct (skip_non_atoms_stops after p E) as (q & Eq & Lq). exists q. cbn [app].
    by rewrite Eq, (proj2 (Nat.leb_le _ _)) by lia.
  - destruct (negb (is_atom c) || is_open_brace c) eqn:C.
    + destruct (IH (S p) ltac:(lia)) as [r Hr]. exists r. intros after G. destruct (Hr after) as (q & E & Eq & Lq).
      { destruct G as [G|G]; [left|by right]. cbn [existsb] in G. unfold stops at 1 in G. by destruct (is_atom c), (is_open_brace c). }
      exists q. cbn [app skip_non_atoms]. rewrite C. split_and!; [done|done|lia].
    + exists (if (pos <=? p)%nat then None else Some p). intros after G. exists p. cbn [app skip_non_atoms]. by rewrite C.
Qed.

(** What the start functions promise. *)
Definition start_ok (f : CamelUrlScanFunc) : Prop :=
  forall pos m, (pos < n)%nat -> loc (fun mem => f mem pos n m)
    (fun r => fst r = true -> exists so, snd r = set_um_so m so /\ (so <= pos)%nat).
Definition end_ok (f : CamelUrlScanFunc) : Prop :=
  forall pos m, (pos < n)%nat -> loc (fun mem => f mem pos n m)
    (fun r => fst r = true -> exists eo, snd r = set_um_eo m eo /\ (pos < eo <= n)%nat).

Lemma addrspec_start_ok : addresses = true -> start_ok camel_url_addrspec_start.
Proof.
  intros Ad pos m L. unfold camel_url_addrspec_start. apply loc_read; [done|]. intros c Hc. destruct (c =? ch "@") eqn:Ec; [|by apply loc_ret].
  apply Z.eqb_eq in Ec as ->. cbn [negb].
  cbv zeta. set (p0 := if (0 <? pos)%nat then (pos - 1)%nat else pos). assert (p0 <= pos)%nat as L0 by (subst p0; destruct (0 <? pos)%nat; lia).
  eapply loc_bind; [apply back_local_loc; lia|]. cbn beta. intros p Lp. assert (p <= pos)%nat by lia.
  destruct (skip_non_atoms_loc pos p (drop p line)) as [r Hr]; [rewrite length_drop; lia|].
  exists (match r with None => (false, m) | Some q => (true, set_um_so m q) end). split.
  - destruct r as [q|]; cbn; [|done]. intros _. exists q. split; [done|]. destruct (Hr [ch "a"]) as (q' & _ & E & _); [by right|].
    destruct (Nat.leb_spec pos q'); [done|]. injection E as <-. lia.
  - intros after [_ G]. rewrite drop_app_le by lia. destruct (Hr after) as (q & -> & <- & _); [|cbn; by destruct (pos <=? q)%nat].
    destruct (G Ad) as [B|B]; [left|by right]. apply (at_bounded_stops _ (pos - p)); [by apply at_bounded_drop|].
    rewrite lookup_drop. by replace (p + (pos - p))%nat with pos by lia.
Qed.

Lemma skip_digits_loc k p : (p <= n)%nat -> loc (fun m => skip_digits k m p n) (fun q => (p <= q <= n)%nat).
Proof.
  revert p; induction k as [|k IH]; intros p L; cbn [skip_digits]; [apply loc_ret; lia|]. destruct (Nat.ltb_spec p n); [|apply loc_ret; lia].
  apply loc_read; [done|]. intros c Hc. destruct (is_digit c); [|apply loc_ret; lia]. eapply loc_weaken; [|apply IH; lia]. cbn. intros; lia.
Qed.

Lemma domain_literal_loc k p : (p < n)%nat ->
  loc (fun m => domain_literal k m p n) (fun r => match r with Some q => (p <= q <= n)%nat | None => True end).
Proof.
  revert p; induction k as [|k IH]; intros p L; cbn [domain_literal]; [apply loc_ret; lia|].
  eapply loc_bind; [apply skip_digits_loc; lia|]. cbn. intros q Lq. destruct (decide (q = n)) as [->|Dq].
  - destruct k as [|k].
    + by apply (loc_read_end _ _ (Some n)); [lia|..].
    + by apply (loc_read_end _ _ None).
  - apply loc_read; [lia|]. intros c Hc. destruct (_ && _); [by apply loc_ret|]. eapply loc_weaken; [|apply IH; lia]. intros [x|]; [lia|done].
Qed.

Lemma skip_domain_loc k p : (p <= n)%nat -> loc (fun m => skip_domain k m p n) (fun q => (p <= q <= n)%nat).
Proof.
  revert p; induction k as [|k IH]; intros p L; cbn [skip_domain]; [apply loc_ret; lia|]. destruct (Nat.ltb_spec p n); [|apply loc_ret; lia].
  apply loc_read; [done|]. intros c Hc. destruct (is_domain c); [|apply loc_ret; lia]. eapply loc_weaken; [|apply IH; lia]. cbn. intros; lia.
Qed.

Lemma domain_loop_loc k p g : (p <= n)%nat -> loc (fun m => domain_loop k m p n g) (fun r => (p <= fst r <= n)%nat).
Proof.
  revert p g; induction k as [|k IH]; intros p g L; cbn [domain_loop]; [apply loc_ret; cbn; lia|]. destruct (Nat.ltb_spec p n); [|apply loc_ret; cbn; lia].
  apply loc_read; [done|]. intros c Hc. destruct (is_domain c); [|apply loc_ret; cbn; lia].
  eapply loc_bind; [apply skip_domain_loc; lia|]. cbn. intros q Lq.
  apply (loc_bind (fun m => if (q <? n)%nat then c ← m !! q; (if c =? ch "." then d ← m !! S q; Some (is_domain d) else Some false) else Some false) _
    (fun dot => dot = true -> (q < n)%nat)).
  { destruct (Nat.ltb_spec q n); [|by apply loc_ret]. apply loc_read; [done|]. intros d Hd. destruct (d =? ch "."); [|by apply loc_ret].
    destruct (decide (S q = n)) as [E|N]; [rewrite E; by apply (loc_read_end (fun d _ => Some (is_domain d)) _ false)|].
    apply (loc_read _ (fun d _ => Some (is_domain d))); [lia|]. intros. by apply loc_ret. }
  intros [|] Hd; (eapply loc_weaken; [|apply IH]); cbn; try lia; specialize (Hd eq_refl); lia.
Qed.

Lemma domain_loop_end k m g : domain_loop k m n n g = Some (n, g).
Proof. destruct k; cbn [domain_loop]; [done|]. by rewrite Nat.ltb_irrefl. Qed.

Lemma addrspec_end_ok : end_ok camel_url_addrspec_end.
Proof.
  intros pos m L. unfold camel_url_addrspec_end. apply loc_read; [done|]. intros c Hc. destruct (negb (c =? ch "@")); [by apply loc_ret|].
  destruct (decide (S pos = n)) as [E|N].
  { rewrite E. apply (loc_read_end _ _ (false, m)); [done| |]; intros mem; cbn beta.
    - change (cLF =? ch "[") with false. cbv iota. rewrite domain_loop_end. cbn [mbind option_bind negb]. by rewrite orb_true_r.
    - change (0 =? ch "[") with false. cbv iota. rewrite domain_loop_end. cbn [mbind option_bind negb]. by rewrite orb_true_r. }
  apply loc_read; [lia|]. intros c2 Hc2.
  apply (loc_bind (fun mem => if c2 =? ch "[" then r ← domain_literal 4 mem (S pos) n;
      match r with None => Some None | Some inptr => c ← mem !! inptr; if c =? ch "]" then Some (Some (S inptr, true)) else Some None end
    else r ← domain_loop (n - pos) mem (S pos) n false; Some (Some r)) _
    (fun r => match r with Some (q, _) => (S pos <= q <= n)%nat | None => True end)).
  { destruct (c2 =? ch "[").
    - eapply loc_bind; [apply domain_literal_loc; lia|]. intros [q|] Lq; [|by apply loc_ret]. destruct (decide (q = n)) as [->|Dq].
      + by apply (loc_read_end _ _ None).
      + apply loc_read; [lia|]. intros c3 _. destruct (c3 =? ch "]"); apply loc_ret; [lia|done].
    - eapply loc_bind; [apply domain_loop_loc; lia|]. cbn. intros [q g] Lq. apply loc_ret. cbn in Lq. lia. }
  intros [[q g]|] Lq; [|by apply loc_ret]. destruct (Nat.eqb_spec q (pos + 1)); cbn [orb]; [by apply loc_ret|].
  destruct (negb g); apply loc_ret; [done|]. intros _. exists q. split; [done|lia].
Qed.

(** ** URLs *)

Section regex.
Context (regex_match : list Z -> list Z -> option (Z * Z)).

(** The patterns match a letter first. *)
Definition starts_with_letter (pattern : list Z) : Prop :=
  forall s e, regex_match pattern s = Some (0, e) -> exists c r, s = c :: r /\ isalpha c = true.

Lemma strip_trailing_first c l : trailing_bad_char c = false -> exists k, strip_trailing (l ++ [c]) = k ++ [c].
Proof.
  intros Hc. induction l as [|d l IH]; cbn [app strip_trailing]; [rewrite Hc; by exists []|].
  destruct (trailing_bad_char d); [|by exists (d :: l)]. destruct (_ && _); [by exists (d :: l)|exact IH].
Qed.

Lemma strip_trailing_length l : (length (strip_trailing l) <= length l)%nat.
Proof.
  induction l as [|d l IH]; cbn [strip_trailing]; [done|]. destruct (trailing_bad_char d); [|done]. destruct (_ && _); [done|cbn; lia].
Qed.

Lemma cut_angle_length t : (length (cut_angle t) <= length t)%nat.
Proof. induction t as [|c t IH]; cbn; [done|]. destruct (_ || _); cbn; lia. Qed.

Lemma alpha_not_bad c : isalpha c = true -> trailing_bad_char c = false /\ c <> ch "<" /\ c <> ch ">".
Proof.
  intros H. assert (65 <= c <= 122 /\ c <> 93 /\ c <> 124 /\ c <> 125) as (R & N1 & N2 & N3).
  { unfold isalpha, isupper, islower in H. apply orb_true_iff in H as [H|H]; zb; lia. }
  change (ch "<") with 60. change (ch ">") with 62. split; [|lia]. unfold trailing_bad_char. apply not_true_iff_false. intros (x & Hx & E)%existsb_exists. apply Z.eqb_eq in E as <-. vm_compute in Hx. lia.
Qed.

Lemma pattern_end_ok pattern strip : starts_with_letter pattern ->
  end_ok (fun inb pos inend m => Some (camel_url_pattern_end regex_match inb pos inend m pattern strip)).
Proof.
  intros Sl pos m L. set (subject := drop pos line).
  exists (camel_url_pattern_end regex_match line pos n m pattern strip). split.
  - unfold camel_url_pattern_end. rewrite (take_ge (drop pos line)) by (rewrite length_drop; lia). fold subject.
    destruct (regex_match pattern subject) as [[s e]|] eqn:E; [|done]. destruct ((s =? 0) && _ && _) eqn:B; [|done].
    apply andb_true_iff in B as [[S0%Z.eqb_eq E0]%andb_true_iff E1]. zb. subst s. destruct (Sl _ _ E) as (c & r & Es & Ac).
    destruct (alpha_not_bad c Ac) as (Nb & N1 & N2). cbn. intros _.
    set (t := cut_angle (take (Z.to_nat e) subject)).
    assert (exists t', t = c :: t') as [t' Et].
    { subst t. rewrite Es. destruct (Z.to_nat e) eqn:Ee; [lia|]. cbn. rewrite (proj2 (Z.eqb_neq _ _) N1), (proj2 (Z.eqb_neq _ _) N2). by eexists. }
    assert (Lt : (length t <= n - pos)%nat).
    { subst t. etrans; [apply cut_angle_length|]. rewrite length_take. lia. }
    eexists. split; [done|]. rewrite Et in *. cbn [length Nat.ltb Nat.leb]. rewrite andb_true_r. destruct strip; [|cbn in *; lia].
    rewrite length_reverse. rewrite reverse_cons. destruct (strip_trailing_first c (reverse t') Nb) as [k Ek].
    pose proof (strip_trailing_length (reverse t' ++ [c])) as Lk. rewrite Ek in Lk |- *. rewrite !length_app, length_reverse in *. cbn in *. lia.
  - intros after G. apply (f_equal Some). unfold camel_url_pattern_end. rewrite drop_app_le by lia. rewrite take_app_le by (rewrite length_drop; lia). done.
Qed.

Lemma file_start_ok : start_ok camel_url_file_start.
Proof. intros pos m L. apply loc_ret. intros _. by exists pos. Qed.

Lemma strncmp_www_loc k lit s : Forall (fun c => c <> cLF /\ c <> 0) lit -> (length lit <= k)%nat ->
  exists b, forall after, ended after -> strncmp_eq lit (s ++ after) = Some b.
Proof.
  intros F. revert lit s F; induction k as [|k IH]; intros [|a lit] s F L; cbn in L; try lia; try (by exists true).
  apply list.Forall_cons in F as [[A1 A2] F]. destruct s as [|c s].
  - exists false. intros after (c & r & -> & C). cbn. destruct (Z.eqb_spec c a) as [->|]; [|done]. by destruct C.
  - cbn. destruct (c =? a); [apply IH; [done|lia]|by exists false].
Qed.

Lemma web_start_ok : start_ok camel_url_web_start.
Proof.
  intros pos m L. unfold camel_url_web_start. eapply (loc_bind _ _ (fun www => www = true -> (0 < pos)%nat)).
  - destruct (Nat.ltb_spec 0 pos); [|by apply loc_ret]. destruct (strncmp_www_loc 3 (bs "www") (drop pos line)) as [b Hb]; [|done|].
    { repeat (apply list.Forall_cons_2; [split; discriminate|]). constructor. }
    exists b. split; [done|]. intros after [G _]. rewrite drop_app_le by lia. by apply Hb.
  - intros www Hp. eapply (loc_bind _ _ (fun _ => True)).
    + destruct www; [|by apply loc_ret]. specialize (Hp eq_refl). apply loc_read; [lia|]. intros. by apply loc_ret.
    + intros [|] _; apply loc_ret; [done|]. intros _. by exists pos.
Qed.
End regex.
End line.

(** ** The scanner *)

Lemma getc_run_shorter s p u p' : getc_run s p = Some (u, p') -> (length p' < length p)%nat.
Proof.
  revert s; induction p as [|c p IH]; intros s; cbn; [done|]. destruct (getc_step s c) as [v|s']; [intros [= _ <-]; lia|].
  intros E%IH. lia.
Qed.

Lemma getc_limit_shorter p u p' : camel_utf8_getc_limit p = (u, p') -> u <> 65535 -> (length p' < length p)%nat.
Proof.
  unfold camel_utf8_getc_limit. destruct (getc_run Again p) as [[v q]|] eqn:E; intros [= <- <-]; [|done]. intros _. by eapply getc_run_shorter.
Qed.

Section scan.
Context (tl : Z -> Z) (sc : CamelUrlScanner).

(** Whatever the search finds has the identifier of a pattern. *)
Definition ids_ok (W : gmap positive (list Z)) (P : gmap (list Z) Z) : Prop :=
  forall v, nd W v -> (exists p, is_Some (P !! p) /\ p <> [] /\ p `suffix_of` v) ->
    exists i, P !! v = Some i /\ 0 <= i < Z.of_nat (length (patterns sc)).

Definition scanner_ok : Prop := exists W P, trie_inv W P (trie sc) /\ ids_ok W P.

Lemma search_found buffer : scanner_ok -> exists r, camel_trie_search tl (trie sc) buffer = Some r /\
  match r with
  | None => True
  | Some (rest, i) => rest `suffix_of` buffer /\ rest <> [] /\ exists pat, ptr_array_index (patterns sc) i = Some pat /\ pat ∈ patterns sc
  end.
Proof.
  intros (W & P & TI & Ids). destruct (search_total tl W P (trie sc) TI buffer) as (r & Er & Sp). exists r. split; [done|].
  destruct r as [[rest i]|]; [|done]. destruct Sp as (x0 & c & y & v & z & _ & _ & (_ & Nv & _) & Pv & Ei & Sr & Et & Vz).
  destruct (Ids v Nv Pv) as (j & Ej & Lj). rewrite Ej in Ei. cbn in Ei. subst j. split_and!; [done| |].
  - intros ->. destruct Pv as (p & _ & Np & Sp). assert (z = []) as -> by (by destruct z).
    apply suffix_nil_inv in Vz as ->. by apply suffix_nil_inv in Sp.
  - unfold ptr_array_index. rewrite (proj2 (Z.ltb_ge i 0)) by lia. destruct (lookup_lt_is_Some_2 (patterns sc) (Z.to_nat i)) as [pat Hp]; [lia|].
    exists pat. split; [done|]. by eapply list_elem_of_lookup_2.
Qed.

Context (addresses : bool) (line : list Z).
Abbreviation n := (length line).

Definition patterns_ok : Prop := forall pat, pat ∈ patterns sc -> start_ok addresses line (start pat) /\ end_ok addresses line (end_ pat).

(** What a match promises. *)
Definition match_ok (r : bool * CamelUrlMatch) : Prop :=
  fst r = true -> 0 <= um_so (snd r) < um_eo (snd r) /\ um_eo (snd r) <= Z.of_nat n /\
    exists pat, pat ∈ patterns sc /\ m_prefix (snd r) = prefix_ pat.

Lemma scan_loop_loc fuel inptr m : scanner_ok -> patterns_ok -> (inptr <= n)%nat -> (n - inptr < fuel)%nat ->
  loc addresses line (fun mem => scan_loop tl fuel sc mem inptr n m) match_ok.
Proof.
  intros So Po. revert inptr m; induction fuel as [|fuel IH]; intros inptr m L Lf; [lia|]. cbn [scan_loop].
  destruct (search_found (drop inptr line) So) as (r & Er & Hr).
  apply (loc_bind addresses line _ _ (fun x => x = r)).
  { exists r. split; [done|]. intros after G. rewrite drop_app_le by lia. by rewrite take_app_length' by (rewrite length_drop; lia). }
  intros x ->. destruct r as [[rest i]|]; [|by apply loc_ret]. destruct Hr as (Sr & Nr & pat & Ep & Hp).
  apply suffix_length in Sr. rewrite length_drop in Sr. assert (0 < length rest)%nat as Lr by (destruct rest; cbn; [done|lia]).
  set (pos := (n - length rest)%nat). rewrite Ep. cbn [mbind option_bind]. set (m' := Match _ _ _ _).
  destruct (Po pat Hp) as [Sok Eok].
  eapply loc_bind; [apply (Sok pos m'); lia|]. intros [ok m1] H1. cbn in H1.
  eapply (loc_bind addresses line _ _ (fun r => fst r = true -> match_ok r)).
  { destruct ok; [|by apply loc_ret]. destruct (H1 eq_refl) as (so & -> & Lso). eapply loc_weaken; [|apply (Eok pos); lia].
    intros [ok2 m2] H2 Hok. cbn in H2, Hok. destruct (H2 Hok) as (eo & -> & Leo). intros _. cbn. split_and!; [lia..|]. by exists pat. }
  intros [[|] m2] H2; [by apply loc_ret; apply H2|]. destruct (camel_utf8_getc_limit rest) as [u rest'] eqn:Eu.
  destruct (Z.eqb_spec u 65535) as [|Nu]; [by apply loc_ret|]. pose proof (getc_limit_shorter _ _ _ Eu ltac:(done)).
  destruct (Nat.ltb_spec (n - length rest') n); [|by apply loc_ret]. apply IH; lia.
Qed.

Lemma scanner_scan_loc validate m : scanner_ok -> patterns_ok -> loc addresses line (fun mem => camel_url_scanner_scan tl validate sc mem n m) match_ok.
Proof.
  intros So Po. destruct (scan_loop_loc (S n) 0 m So Po ltac:(lia) ltac:(lia)) as (r & Hr & E).
  exists (if negb (validate line) then (false, m) else r). split; [by destruct (validate line)|].
  intros after G. unfold camel_url_scanner_scan. rewrite take_app_length. destruct (negb (validate line)); [done|by apply E].
Qed.
End scan.

(** The table of character classes is what the program that was to make it makes. *)
Theorem url_scanner_table_built : url_scanner_table = url_scanner_table_init.
Proof. vm_compute. reflexivity. Qed.

(** An "@" with no atom around it, the case that [at_bounded] excludes: the loop
    that looks for the start of the address goes past the terminator. *)
Example addrspec_reads_on : at_bounded (bs "(@)") = false /\ camel_url_addrspec_start (bs "(@)" ++ [0]) 1 3 (Match [] [] 0 0) = None.
Proof. by split. Qed.
