(* ===== verification/ToHtml.v ===== *)
(** * ToHtml: from plain text to HTML (camel/camel-mime-filter-tohtml.c)

    The filter keeps its state between the chunks of a text: the open tags, the
    column, and the start of a line whose end has not come yet ([backup]).  A
    chunk is a list of bytes; [after] is the memory behind it, or behind the
    terminator of a line that was put together from the backup: the scanner may
    look at it.  The scanner of URLs is the class [UrlScan], so that the theorems
    need only its interface; the one of UrlScanner.v is an instance.  The output
    buffer and its growth are the list of the bytes written. *)

From Stdlib Require Import ZArith Lia Ascii.
From stdpp Require Import base list strings numbers option.
From S2P Require Import Prelude Utf8 UrlScanner.

Definition TOHTML_PRE : Z := Z.shiftl 1 0.
Definition TOHTML_CONVERT_NL : Z := Z.shiftl 1 1.
Definition TOHTML_CONVERT_SPACES : Z := Z.shiftl 1 2.
Definition TOHTML_CONVERT_URLS : Z := Z.shiftl 1 3.
Definition TOHTML_MARK_CITATION : Z := Z.shiftl 1 4.
Definition TOHTML_CONVERT_ADDRESSES : Z := Z.shiftl 1 5.
Definition TOHTML_ESCAPE_8BIT : Z := Z.shiftl 1 6.
Definition TOHTML_CITE : Z := Z.shiftl 1 7.
Definition TOHTML_QUOTE_CITATION : Z := Z.shiftl 1 10.
Definition TOHTML_DIV : Z := Z.shiftl 1 11.
Definition TOHTML_PRESERVE_TABS : Z := Z.shiftl 1 12.

(** [CamelMimeFilterToHTMLPrivate] without the scanner. *)
Record ToHTML := HTML {
  flags : Z; color : Z; column : Z; blockquote_depth : nat; pre_open : bool; div_open : bool; backup : option (list Z) }.

(** [guint32 column : 31]. *)
Definition u31 (x : Z) : Z := x mod 2 ^ 31.
Definition column_next (column : Z) : Z := u31 (column + 1).

Definition set_column (p : ToHTML) (x : Z) := HTML (flags p) (color p) (u31 x) (blockquote_depth p) (pre_open p) (div_open p) (backup p).
Definition set_depth (p : ToHTML) x := HTML (flags p) (color p) (column p) x (pre_open p) (div_open p) (backup p).
Definition set_pre (p : ToHTML) x := HTML (flags p) (color p) (column p) (blockquote_depth p) x (div_open p) (backup p).
Definition set_div (p : ToHTML) x := HTML (flags p) (color p) (column p) (blockquote_depth p) (pre_open p) x (backup p).
Definition set_backup (p : ToHTML) x := HTML (flags p) (color p) (column p) (blockquote_depth p) (pre_open p) (div_open p) x.

Definition has (p : ToHTML) (f : Z) : bool := negb (Z.land (flags p) f =? 0).

(** Strings with quotes. *)
Definition quoted (a b c : string) : list Z := bs a ++ [34] ++ bs b ++ [34] ++ bs c.

Definition TAG_BLOCKQUOTE : list Z := quoted "<blockquote type=" "cite" ">".
Definition TAB_SPAN : list Z := quoted "<span class=" "Apple-tab-span" " style=" ++ [34] ++ bs "white-space:pre" ++ [34] ++ bs ">" ++ [9] ++ bs "</span>".

(** "%06x" of a 24-bit number. *)
Definition hexdigit (x : Z) : Z := if x <? 10 then 48 + x else 87 + x.
Definition fmt_06x (x : Z) : list Z := map (fun i => hexdigit (Z.land (Z.shiftr x (4 * i)) 15)) [5; 4; 3; 2; 1; 0].
Definition TAG_FONT (color : Z) : list Z := bs "<font color=" ++ [34] ++ bs "#" ++ fmt_06x (Z.land color 16777215) ++ [34] ++ bs ">".

(** ** Citations *)

(** [strchr (">|", c)]: NUL is found, too. *)
Definition citation_char (c : Z) : bool := (c =? ch ">") || (c =? ch "|") || (c =? 0).

Fixpoint citation_loop (inptr : list Z) (depth skip : nat) : nat * nat :=
  match inptr with
  | [] => (depth, skip)
  | c :: r =>
      if c =? cLF then (depth, skip)
      else if c =? ch " " then
        match r with
        | [] => (depth, S skip)
        | d :: r => if citation_char d then citation_loop r (S depth) (S (S skip)) else (depth, S skip)
        end
      else if citation_char c then citation_loop r (S depth) (S skip)
      else (depth, skip)
  end.

(** The depth and [*out_skip]; the text is not empty. *)
Definition citation_depth (inb : list Z) : option (nat * nat) :=
  match inb with
  | [] => None
  | c :: inptr => Some (if citation_char c then citation_loop inptr 1 1 else (O, O))
  end.

(** ** Escaping *)

Section convert.
(** [g_utf8_validate]: None for valid bytes, else how many are at the start. *)
Context (g_utf8_validate : list Z -> option nat).

(** [do { ... } while (priv->column % 8)]. *)
Fixpoint tab_loop (fuel : nat) (column : Z) : list Z * Z :=
  let column := column_next column in
  match fuel with
  | O => (bs "&nbsp;", column)
  | S fuel =>
      if column mod 8 =? 0 then (bs "&nbsp;", column)
      else let '(out, column) := tab_loop fuel column in (bs "&nbsp;" ++ out, column)
  end.

(** The text of one character and the new column, by the cases of the [switch];
    [first] is [inptr == inbegin + 1], [rest] what comes after the character. *)
Definition write_default (p : ToHTML) (column u : Z) (rest : list Z) : list Z * Z :=
  if (u =? cCR) && (match rest with [] => true | _ => false end)
  then ((if has p TOHTML_CONVERT_NL then [] else [u]), column_next column)
  else if (32 <=? u) && (u <? 128) then ([u], column_next column)
  else ((if has p TOHTML_ESCAPE_8BIT then [ch "?"] else bs "&#" ++ udec 11 (u32 u) ++ bs ";"), column_next column).

Definition write_space (p : ToHTML) (column u : Z) (first : bool) (rest : list Z) : list Z * Z :=
  if has p TOHTML_CONVERT_SPACES && (first || match rest with c :: _ => (c =? ch " ") || (c =? cTAB) | [] => false end)
  then (bs "&nbsp;", column_next column) else write_default p column u rest.

Definition write_char (p : ToHTML) (column u : Z) (first : bool) (rest : list Z) : list Z * Z :=
  if u =? ch "<" then (bs "&lt;", column_next column)
  else if u =? ch ">" then (bs "&gt;", column_next column)
  else if u =? ch "&" then (bs "&amp;", column_next column)
  else if u =? 34 then (bs "&quot;", column_next column)
  else if u =? cTAB then
    if has p TOHTML_CONVERT_SPACES then
      if has p TOHTML_PRESERVE_TABS then (TAB_SPAN, column) else tab_loop 8 column
    else write_space p column u first rest
  else if u =? ch " " then write_space p column u first rest
  else write_default p column u rest.

Fixpoint write_loop (fuel : nat) (p : ToHTML) (total : nat) (inptr : list Z) (column : Z) : list Z * Z :=
  match fuel, inptr with
  | O, _ | _, [] => ([], column)
  | S fuel, _ =>
      let '(u, rest) := camel_utf8_getc_limit inptr in
      if u =? 65535 then ([], column)
      else
        let '(out, column) := write_char p column u (length rest + 1 =? total)%nat rest in
        let '(out', column) := write_loop fuel p total rest column in
        (out ++ out', column)
  end.

Definition writeln (p : ToHTML) (in_anycharset : list Z) : list Z * ToHTML :=
  let text :=
    match g_utf8_validate in_anycharset with
    | None => in_anycharset
    | Some _ => match camel_utf8_make_valid_len g_utf8_validate (Some in_anycharset) (Z.of_nat (length in_anycharset)) with
                | Some in_utf8 => cstr in_utf8
                | None => []
                end
    end in
  let '(out, column) := write_loop (length text) p (length text) text (column p) in
  (out, set_column p column).
End convert.

(** ** Tags *)

Definition open_div (p : ToHTML) : list Z * ToHTML :=
  if has p TOHTML_DIV && negb (div_open p) then (bs "<div>", set_div p true) else ([], p).
Definition close_div (p : ToHTML) : list Z * ToHTML :=
  if div_open p then (bs "</div>", set_div p false) else ([], p).
Definition close_pre (p : ToHTML) : list Z * ToHTML :=
  if pre_open p then (bs "</pre>", set_pre p false) else ([], p).

(** [n] rounds of the two loops. *)
Fixpoint open_quotes (n : nat) (p : ToHTML) : list Z * ToHTML :=
  match n with
  | O => ([], p)
  | S n => let '(out, p) := open_quotes n (set_depth p (S (blockquote_depth p))) in (TAG_BLOCKQUOTE ++ out, p)
  end.
Fixpoint close_quotes (n : nat) (p : ToHTML) : list Z * ToHTML :=
  match n with
  | O => ([], p)
  | S n => let '(out, p) := close_quotes n (set_depth p (blockquote_depth p - 1)) in (bs "</blockquote>" ++ out, p)
  end.

(** [</div>], the [</blockquote>]s and [</pre>] at the end. *)
Definition close_all (p : ToHTML) : list Z * ToHTML :=
  let '(a, p) := close_div p in
  let '(b, p) := close_quotes (blockquote_depth p) p in
  let '(c, p) := close_pre p in
  (a ++ b ++ c, p).

(** ** Lines *)

Class UrlScan := {
  (** [camel_url_scanner_scan] of the first bytes of a memory. *)
  url_scan : list Z -> nat -> option (bool * CamelUrlMatch);
  sanitize : list Z -> option (option (list Z)) }.

Section lines.
Context (g_utf8_validate : list Z -> option nat) `{UrlScan}.

(** What comes before the text of a line: the output, the depth of MARK_CITATION,
    and how much of the line it stands for. *)
Definition line_prefix (p : ToHTML) (start : list Z) : option (list Z * nat * nat * ToHTML) :=
  if has p TOHTML_MARK_CITATION then
    '(depth, _) ← citation_depth start;
    if (0 <? depth)%nat then let '(out, p) := open_div p in Some (out ++ TAG_FONT (color p), depth, O, p)
    else Some ([], depth, O, p)
  else if has p TOHTML_QUOTE_CITATION then
    '(depth, skip) ← citation_depth start;
    let '(a, p) := if div_open p && negb (depth =? blockquote_depth p)%nat then close_div p else ([], p) in
    let '(b, p) := open_quotes (depth - blockquote_depth p) p in
    let '(c, p) := close_quotes (blockquote_depth p - depth) p in
    Some (a ++ b ++ c, depth, skip, p)
  else if has p TOHTML_CITE then
    let '(a, p) := open_div p in
    Some (a ++ bs "&gt; ", O, O, set_column p (column p + 2))
  else Some ([], O, O, p).

(** The text of a link: the prefix and the match, with its host name in ASCII if that
    is needed. *)
Definition link_url (start : list Z) (m : CamelUrlMatch) : option (list Z) :=
  let matchlen := Z.to_nat (um_eo m - um_so m) in
  let url_str := cstr (m_prefix m ++ take matchlen (drop (Z.to_nat (um_so m)) start)) in
  sanitized_url ← sanitize url_str;
  Some (match sanitized_url with Some s => s | None => url_str end).

(** One link, at [um_so] of the memory. *)
Definition write_link (p : ToHTML) (start : list Z) (m : CamelUrlMatch) : option (list Z * ToHTML) :=
  url_str ← link_url start m;
  if (length url_str <? length (m_prefix m))%nat then None
  else
    let shown := drop (length (m_prefix m)) url_str in
    let '(a, p) := writeln g_utf8_validate p url_str in
    let '(b, p) := writeln g_utf8_validate p shown in
    Some (bs "<a href=" ++ [34] ++ a ++ [34] ++ bs ">" ++ b ++ bs "</a>",
          set_column p (column p + Z.of_nat (length shown))).

(** The loop over the matches of a line, with the bytes that are left of it. *)
Fixpoint links_loop (fuel : nat) (p : ToHTML) (start : list Z) (len : nat) : option (list Z * nat * ToHTML) :=
  match fuel with
  | O => None
  | S fuel =>
      let inlen := if (0 <? len)%nat && (nth (len - 1) start 1 =? 0) then (len - 1)%nat else len in
      '(found, m) ← url_scan start inlen;
      if found : bool then
        let '(a, p) := writeln g_utf8_validate p (take (Z.to_nat (um_so m)) start) in
        '(b, p) ← write_link p start m;
        let start := drop (Z.to_nat (um_eo m)) start in
        let len := (len - Z.to_nat (um_eo m))%nat in
        if (0 <? len)%nat then '(c, len, p) ← links_loop fuel p start len; Some (a ++ b ++ c, len, p)
        else Some (a ++ b, len, p)
      else
        let '(a, p) := writeln g_utf8_validate p (take len start) in
        Some (a, len, p)
  end.

Definition CONVERT_URLS : Z := Z.lor TOHTML_CONVERT_URLS TOHTML_CONVERT_ADDRESSES.

Definition line_text (p : ToHTML) (start : list Z) (len : nat) : option (list Z * nat * ToHTML) :=
  if has p CONVERT_URLS then links_loop (S len) p start len
  else let '(a, p) := writeln g_utf8_validate p (take len start) in Some (a, len, p).

(** The end of a line that ends with a line feed; [remaining] is what [start] is short of it. *)
Definition line_end (p : ToHTML) (c : Z) (remaining : nat) : list Z * ToHTML :=
  let a := if has p TOHTML_CONVERT_NL then bs "<br>" else [] in
  let '(b, p) :=
    if div_open p then
      let br := if (remaining =? 0)%nat && ((negb (c =? cCR) && negb (c =? cLF)) || negb (has p TOHTML_CONVERT_NL)) then bs "<br>" else [] in
      let '(d, p) := close_div p in (br ++ d, p)
    else ([], p) in
  (a ++ b ++ [cLF], p).

(** The line of [len] bytes at the start of the buffer, and the memory after the buffer. *)
Definition convert_line (p : ToHTML) (buf : list Z) (len : nat) (after : list Z) : option (list Z * ToHTML) :=
  let p := set_column p 0 in
  '(a, depth, skip, p) ← line_prefix p buf;
  let '(b, p) := open_div p in
  '(c, remaining, p) ← line_text p (drop skip (buf ++ after)) (len - skip);
  let d := if has p TOHTML_MARK_CITATION && (0 <? depth)%nat then bs "</font>" else [] in
  let '(e, p) := match buf !! len with Some x => line_end p x remaining | None => ([], p) end in
  Some (a ++ b ++ c ++ d ++ e, p).

(** Where the next line feed is, or the end. *)
Definition next_lf (buf : list Z) : nat := match index_where (Z.eqb cLF) buf with Some i => i | None => length buf end.

(** The loop over the lines: [buf] is what is left from [start] on, [ahead] how far
    [inptr] is; the last result is what is left from [start] on at the end. *)
Fixpoint convert_lines (fuel : nat) (p : ToHTML) (buf : list Z) (ahead : nat) (after : list Z) (flush : bool)
    : option (list Z * list Z * ToHTML) :=
  match fuel with
  | O => None
  | S fuel =>
      let len := (ahead + next_lf (drop ahead buf))%nat in
      if (length buf <=? len)%nat && negb flush then Some ([], buf, p)
      else
        let '(p, buf, len, after) :=
          match backup p with
          | Some b => (set_backup p None, b ++ buf, (length b + len)%nat, 0 :: after)
          | None => (p, buf, len, after)
          end in
        '(a, p) ← convert_line p buf len after;
        if (S len <? length buf)%nat then
          '(b, rest, p) ← convert_lines fuel p (drop (S len) buf) 0 after flush;
          Some (a ++ b, rest, p)
        else Some (a, drop (S len) buf, p)
  end.

Definition html_convert (p : ToHTML) (inb after : list Z) (flush : bool) : option (list Z * ToHTML) :=
  match inb, backup p with
  | [], None =>
      if negb (pre_open p) && negb (div_open p) && (blockquote_depth p =? 0)%nat then Some ([], p) else Some (close_all p)
  | _, _ =>
      let '(p, buf, ahead, after) :=
        match inb, backup p with
        | [], Some b => (set_backup p None, b, length b, 0 :: after)
        | _, _ => (p, inb, O, after)
        end in
      let '(a, p) := if has p TOHTML_PRE && negb (pre_open p) then (bs "<pre>", set_pre p true) else ([], p) in
      '(b, rest, p) ← convert_lines (S (length buf)) p buf ahead after flush;
      if flush then
        let '(c, p) := match rest with [] => ([], p) | _ => writeln g_utf8_validate p rest end in
        let '(d, p) := close_all p in
        Some (a ++ b ++ c ++ d, p)
      else
        Some (a ++ b, match rest with [] => p | _ => set_backup p (Some (default [] (backup p) ++ rest)) end)
  end.

Definition mime_filter_tohtml_filter (p : ToHTML) (inb after : list Z) := html_convert p inb after false.
Definition mime_filter_tohtml_complete (p : ToHTML) (inb after : list Z) := html_convert p inb after true.
End lines.

Definition mime_filter_tohtml_reset (p : ToHTML) : ToHTML := set_backup (set_pre (set_column p 0) false) None.

(** The new filter, without its scanner. *)
Definition tohtml_new (flags color : Z) : ToHTML :=
  let both := Z.lor TOHTML_PRE TOHTML_DIV in
  let flags := if Z.land flags both =? both then Z.land flags (Z.lnot TOHTML_DIV) else flags in
  HTML flags color 0 0 false false None.

(** A whole text: the chunks, each with the memory behind it, and the last one. *)
Section text.
Context (g_utf8_validate : list Z -> option nat) `{UrlScan}.

Fixpoint filter_all (p : ToHTML) (chunks : list (list Z * list Z)) : option (list Z * ToHTML) :=
  match chunks with
  | [] => Some ([], p)
  | (c, after) :: chunks =>
      '(a, p) ← mime_filter_tohtml_filter g_utf8_validate p c after;
      '(b, p) ← filter_all p chunks;
      Some (a ++ b, p)
  end.

Definition convert_text (p : ToHTML) (chunks : list (list Z * list Z)) (last after : list Z) : option (list Z * ToHTML) :=
  '(a, p) ← filter_all p chunks;
  '(b, p) ← mime_filter_tohtml_complete g_utf8_validate p last after;
  Some (a ++ b, p).

(** The bytes of a string and what is behind its terminator. *)
Definition camel_text_to_html (inb : list Z) (flags color : Z) (behind : list Z) : option (list Z) :=
  '(out, _) ← mime_filter_tohtml_complete g_utf8_validate (tohtml_new flags color) inb (0 :: behind);
  Some (cstr out).
End text.
