(* ===== verification/ToHtmlSpec.v ===== *)
(** * ToHtmlSpec: the HTML that the filter writes

    The output of [html_convert] is a sequence of [item]s: escaped text, and a
    fixed set of tags with escaped attributes ([item_ok]); the elements nest
    ([nest] runs the items over the stack of the open ones), and [stack] says
    which are open in a state of the filter. *)

From Stdlib Require Import ZArith Lia Ascii.
From stdpp Require Import base list strings numbers option.
From S2P Require Import Prelude Utf8 UrlScanner ToHtml.

(** ** Items *)

Inductive elem := EPre | EDiv | EQuote | EFont | EA.
#[export] Instance elem_dec : EqDecision elem.
Proof. solve_decision. Defined.

Inductive item := Text (s : list Z) | Open (e : elem) (attr : list Z) | Close (e : elem) | Br.

Definition name_of (e : elem) : list Z :=
  match e with EPre => bs "pre" | EDiv => bs "div" | EQuote => bs "blockquote" | EFont => bs "font" | EA => bs "a" end.
Definition attr_of (e : elem) (attr : list Z) : list Z :=
  match e with
  | EPre | EDiv => []
  | EQuote => quoted " type=" "cite" ""
  | EFont => bs " color=" ++ [34] ++ bs "#" ++ attr ++ [34]
  | EA => bs " href=" ++ [34] ++ attr ++ [34]
  end.
Definition render (i : item) : list Z :=
  match i with
  | Text s => s
  | Open e attr => bs "<" ++ name_of e ++ attr_of e attr ++ bs ">"
  | Close e => bs "</" ++ name_of e ++ bs ">"
  | Br => bs "<br>"
  end.

(** What escaped text is made of; the span of PRESERVE_TABS only with that flag. *)
Definition plain (c : Z) : Prop := c <> ch "<" /\ c <> ch ">" /\ c <> ch "&" /\ c <> 34.
Inductive piece (spans : bool) : list Z -> Prop :=
  | PieceChar c : plain c -> piece spans [c]
  | PieceEntity s : s ∈ [bs "&lt;"; bs "&gt;"; bs "&amp;"; bs "&quot;"; bs "&nbsp;"] -> piece spans s
  | PieceNumber ds : Forall (fun c => isdigit c = true) ds -> piece spans (bs "&#" ++ ds ++ bs ";")
  | PieceSpan : spans = true -> piece spans TAB_SPAN.
Definition escaped (spans : bool) (s : list Z) : Prop := exists l, s = concat l /\ Forall (piece spans) l.

Definition item_ok (spans : bool) (i : item) : Prop :=
  match i with
  | Text s => escaped spans s
  | Open EFont attr => length attr = 6%nat /\ Forall (fun c => isxdigit c = true) attr
  | Open EA attr => escaped spans attr
  | _ => True
  end.

(** The stack of the open elements. *)
Fixpoint nest (items : list item) (open : list elem) : option (list elem) :=
  match items with
  | [] => Some open
  | Open e _ :: items => nest items (e :: open)
  | Close e :: items => match open with e' :: open => if decide (e = e') then nest items open else None | [] => None end
  | _ :: items => nest items open
  end.

(** Output that takes the open elements from [s] to [s']. *)
Definition emits (spans : bool) (s s' : list elem) (out : list Z) : Prop :=
  exists items, out = concat (map render items) /\ Forall (item_ok spans) items /\ nest items s = Some s'.

Lemma nest_app a b s : nest (a ++ b) s = s ← nest a s; nest b s.
Proof.
  revert s; induction a as [|i a IH]; intros s; cbn; [done|]. destruct i; try apply IH.
  destruct s as [|e' s]; [done|]. destruct (decide (e = e')); [apply IH|done].
Qed.

Lemma emits_nil b s : emits b s s [].
Proof. by exists []. Qed.

Lemma emits_app b s1 s2 s3 x y : emits b s1 s2 x -> emits b s2 s3 y -> emits b s1 s3 (x ++ y).
Proof.
  intros (i & -> & Fi & Ni) (j & -> & Fj & Nj). exists (i ++ j). split_and!.
  - by rewrite map_app, concat_app.
  - by apply Forall_app.
  - by rewrite nest_app, Ni.
Qed.

Lemma emits_item b s s' i : item_ok b i -> nest [i] s = Some s' -> emits b s s' (render i).
Proof. intros H N. exists [i]. split_and!; [cbn; by rewrite app_nil_r|by apply list.Forall_singleton|done]. Qed.

Lemma emits_text b s x : escaped b x -> emits b s s x.
Proof. intros H. by apply (emits_item b s s (Text x)). Qed.

Lemma escaped_nil b : escaped b [].
Proof. by exists []. Qed.

Lemma escaped_app b x y : escaped b x -> escaped b y -> escaped b (x ++ y).
Proof. intros (l & -> & F) (k & -> & G). exists (l ++ k). split; [by rewrite concat_app|by apply Forall_app]. Qed.

Lemma escaped_piece b x : piece b x -> escaped b x.
Proof. intros H. exists [x]. split; [cbn; by rewrite app_nil_r|by apply list.Forall_singleton]. Qed.

(** ** Escaping *)

Lemma udec_isdigit k n : 0 <= n -> Forall (fun c => isdigit c = true) (udec k n).
Proof.
  revert n; induction k as [|k IH]; intros n Hn; cbn; [constructor|]. destruct (Z.ltb_spec n 10).
  - repeat constructor. unfold isdigit. apply andb_true_iff. lia.
  - apply Forall_app. split; [apply IH; apply Z.div_pos; lia|]. repeat constructor. pose proof (Z.mod_pos_bound n 10).
    unfold isdigit. apply andb_true_iff. lia.
Qed.

Lemma tab_loop_escaped b k column : escaped b (fst (tab_loop k column)).
Proof.
  assert (N : escaped b (bs "&nbsp;")) by (apply escaped_piece, PieceEntity; do 4 right; left).
  revert column; induction k as [|k IH]; intros column; cbn [tab_loop]; [done|]. destruct (_ =? 0); [done|].
  specialize (IH (column_next column)). destruct (tab_loop k _). by apply escaped_app.
Qed.

(** Whether there are spans. *)
Definition spans_of (p : ToHTML) : bool := has p TOHTML_CONVERT_SPACES && has p TOHTML_PRESERVE_TABS.

Lemma entity_escaped b x : x ∈ [bs "&lt;"; bs "&gt;"; bs "&amp;"; bs "&quot;"; bs "&nbsp;"] -> escaped b x.
Proof. intros. by apply escaped_piece, PieceEntity. Qed.

Lemma write_default_escaped b p column u rest : plain u -> escaped b (fst (write_default p column u rest)).
Proof.
  intros C%(PieceChar b)%escaped_piece. unfold write_default.
  destruct (_ && _); [destruct (has p TOHTML_CONVERT_NL); [apply escaped_nil|done]|]. destruct (_ && _); [done|].
  apply escaped_piece. destruct (has p TOHTML_ESCAPE_8BIT); [by apply PieceChar|].
  apply PieceNumber, udec_isdigit. unfold u32. by apply Z.mod_pos_bound.
Qed.

Lemma write_space_escaped b p column u first rest : plain u -> escaped b (fst (write_space p column u first rest)).
Proof.
  intros C. unfold write_space. destruct (_ && _); [apply entity_escaped; do 4 right; left|by apply write_default_escaped].
Qed.

Lemma write_char_escaped p column u first rest : escaped (spans_of p) (fst (write_char p column u first rest)).
Proof.
  unfold write_char.
  destruct (Z.eqb_spec u (ch "<")); [apply entity_escaped; left|]. destruct (Z.eqb_spec u (ch ">")); [apply entity_escaped; right; left|].
  destruct (Z.eqb_spec u (ch "&")); [apply entity_escaped; do 2 right; left|]. destruct (Z.eqb_spec u 34); [apply entity_escaped; do 3 right; left|].
  assert (C : plain u) by done.
  destruct (u =? cTAB); [|destruct (u =? ch " "); [by apply write_space_escaped|by apply write_default_escaped]].
  destruct (has p TOHTML_CONVERT_SPACES) eqn:E1; [|by apply write_space_escaped].
  destruct (has p TOHTML_PRESERVE_TABS) eqn:E2; [|apply tab_loop_escaped].
  apply escaped_piece, PieceSpan. unfold spans_of. by rewrite E1, E2.
Qed.

Lemma write_loop_escaped fuel p total inptr column : escaped (spans_of p) (fst (write_loop fuel p total inptr column)).
Proof.
  revert inptr column; induction fuel as [|fuel IH]; intros [|c inptr] column; cbn [write_loop]; try apply escaped_nil.
  destruct (camel_utf8_getc_limit (c :: inptr)) as [u rest]. destruct (u =? 65535); [apply escaped_nil|].
  pose proof (write_char_escaped p column u (length rest + 1 =? total)%nat rest) as E. destruct (write_char _ _ _ _ _) as [out col].
  specialize (IH rest col). destruct (write_loop fuel p total rest col). by apply escaped_app.
Qed.

Section convert.
Context (g_utf8_validate : list Z -> option nat).
Abbreviation writeln := (writeln g_utf8_validate).

(** The states differ in nothing but the column. *)
Definition text_step (p p' : ToHTML) : Prop := exists x, p' = set_column p x.

Lemma writeln_spec p text out p' : writeln p text = (out, p') -> escaped (spans_of p) out /\ text_step p p'.
Proof.
  unfold ToHtml.writeln. set (t := match g_utf8_validate text with None => _ | Some _ => _ end).
  pose proof (write_loop_escaped (length t) p (length t) t (column p)) as E. destruct (write_loop _ _ _ _ _) as [o col].
  intros [= <- <-]. split; [done|by exists col].
Qed.

Lemma text_step_refl p : column p = u31 (column p) -> text_step p p.
Proof. intros E. exists (column p). destruct p; cbn in *. unfold set_column; cbn. by rewrite <- E. Qed.

Lemma text_step_trans p q r : text_step p q -> text_step q r -> text_step p r.
Proof. intros [x ->] [y ->]. by exists y. Qed.

(** *** The open elements of a state *)

Definition stack (p : ToHTML) : list elem :=
  (if div_open p then [EDiv] else []) ++ replicate (blockquote_depth p) EQuote ++ (if pre_open p then [EPre] else []).

(** What no operation inside of a line changes. *)
Definition same_setup (p p' : ToHTML) : Prop := flags p' = flags p /\ color p' = color p /\ pre_open p' = pre_open p /\ backup p' = backup p.

Lemma same_setup_refl p : same_setup p p.
Proof. done. Qed.
Lemma same_setup_trans p q r : same_setup p q -> same_setup q r -> same_setup p r.
Proof. intros (A & B & C & D) (E & F & G & H). repeat split; congruence. Qed.
Lemma same_spans p p' : same_setup p p' -> spans_of p' = spans_of p.
Proof. intros (F & _). unfold spans_of, has. by rewrite F. Qed.
Lemma text_step_same p p' : text_step p p' -> same_setup p p' /\ stack p' = stack p.
Proof. by intros [x ->]. Qed.

Lemma open_div_spec p b out p' : open_div p = (out, p') -> emits b (stack p) (stack p') out /\ same_setup p p'.
Proof.
  unfold open_div. destruct (has p TOHTML_DIV && negb (div_open p)) eqn:E; intros [= <- <-]; [|split; [apply emits_nil|done]].
  zb. split; [|done]. apply (emits_item b _ _ (Open EDiv [])); [done|]. unfold stack. cbn. by rewrite H0.
Qed.

Lemma close_div_spec p b out p' : close_div p = (out, p') -> emits b (stack p) (stack p') out /\ same_setup p p' /\ div_open p' = false /\ blockquote_depth p' = blockquote_depth p.
Proof.
  unfold close_div. destruct (div_open p) eqn:E; intros [= <- <-]; [|split_and!; [apply emits_nil|done..]].
  split_and!; [|done..]. apply (emits_item b _ _ (Close EDiv)); [done|]. unfold stack. rewrite E. done.
Qed.

Lemma open_quotes_spec n p b out p' : div_open p = false -> open_quotes n p = (out, p') ->
  emits b (stack p) (stack p') out /\ same_setup p p' /\ div_open p' = false /\ blockquote_depth p' = (n + blockquote_depth p)%nat.
Proof.
  revert p out; induction n as [|n IH]; intros p out D; cbn [open_quotes]; [intros [= <- <-]; split_and!; [apply emits_nil|done..]|].
  destruct (open_quotes n _) as [o q] eqn:E. intros [= <- <-]. apply IH in E as (Em & Sm & Dv & Dp); [|done]. cbn in Dp.
  split_and!; [|by eapply same_setup_trans; [|exact Sm]|done|lia]. eapply (emits_app _ _ _ _ TAG_BLOCKQUOTE o); [|exact Em].
  apply (emits_item b _ _ (Open EQuote [])); [done|]. unfold stack. cbn. by rewrite D.
Qed.

Lemma close_quotes_spec n p b out p' : div_open p = false -> (n <= blockquote_depth p)%nat -> close_quotes n p = (out, p') ->
  emits b (stack p) (stack p') out /\ same_setup p p' /\ div_open p' = false /\ blockquote_depth p' = (blockquote_depth p - n)%nat.
Proof.
  revert p out; induction n as [|n IH]; intros p out D L; cbn [close_quotes]; [intros [= <- <-]; split_and!; [apply emits_nil|done..|lia]|].
  destruct (close_quotes n _) as [o q] eqn:E. intros [= <- <-]. apply IH in E as (Em & Sm & Dv & Dp); [|done|cbn; lia]. cbn in Dp.
  split_and!; [|by eapply same_setup_trans; [|exact Sm]|done|lia]. eapply (emits_app _ _ _ _ (bs "</blockquote>") o); [|exact Em].
  apply (emits_item b _ _ (Close EQuote)); [done|]. unfold stack. cbn. rewrite D.
  destruct (blockquote_depth p) as [|d]; [lia|]. cbn. by rewrite Nat.sub_0_r.
Qed.

Lemma close_all_spec p b out p' : close_all p = (out, p') ->
  emits b (stack p) [] out /\ stack p' = [] /\ flags p' = flags p /\ color p' = color p /\ backup p' = backup p /\ pre_open p' = false.
Proof.
  unfold close_all. destruct (close_div p) as [o1 p1] eqn:E1. pose proof (close_div_spec p b _ _ E1) as (M1 & S1 & D1 & _).
  destruct (close_quotes (blockquote_depth p1) p1) as [o2 p2] eqn:E2. pose proof (close_quotes_spec _ p1 b _ _ D1 ltac:(done) E2) as (M2 & S2 & D2 & B2).
  destruct (close_pre p2) as [o3 p3] eqn:E3. intros [= <- <-]. pose proof (same_setup_trans _ _ _ S1 S2) as (F1 & F2 & F3 & F4).
  unfold close_pre in E3. destruct (pre_open p2) eqn:P; injection E3 as <- <-.
  - assert (stack p2 = [EPre]) as K by (unfold stack; by rewrite D2, B2, Nat.sub_diag, P).
    split_and!; try done; [|unfold stack; cbn; by rewrite D2, B2, Nat.sub_diag].
    eapply emits_app; [exact M1|]. eapply emits_app; [exact M2|]. rewrite K. by apply (emits_item b _ _ (Close EPre)).
  - assert (stack p2 = []) as K by (unfold stack; by rewrite D2, B2, Nat.sub_diag, P). rewrite K in M2.
    split_and!; try done. eapply emits_app; [exact M1|]. eapply emits_app; [exact M2|apply emits_nil].
Qed.

(** *** Lines *)

Lemma hexdigit_ok x : 0 <= x <= 15 -> isxdigit (hexdigit x) = true.
Proof.
  intros H. unfold hexdigit, isxdigit, isdigit. destruct (Z.ltb_spec x 10); zb.
  - rewrite (proj2 (Z.leb_le 48 (48 + x))), (proj2 (Z.leb_le (48 + x) 57)) by lia. done.
  - rewrite (proj2 (Z.leb_le 97 (87 + x))), (proj2 (Z.leb_le (87 + x) 102)) by lia. by rewrite orb_true_r.
Qed.

Lemma font_tag b c s : emits b s (EFont :: s) (TAG_FONT c).
Proof.
  assert (TAG_FONT c = render (Open EFont (fmt_06x (Z.land c 16777215)))) as -> by done.
  apply emits_item; [|done]. split; [done|]. apply list.Forall_forall. intros x (i & -> & _)%list_elem_of_fmap.
  apply hexdigit_ok. set (y := Z.shiftr _ _).
  assert (Z.land y 15 = y mod 16) as -> by (by apply (Z.land_ones y 4)). pose proof (Z.mod_pos_bound y 16). lia.
Qed.

Definition fonts (p : ToHTML) (depth : nat) : list elem := if has p TOHTML_MARK_CITATION && (0 <? depth)%nat then [EFont] else [].

(** The start of a line: its prefix and the div. *)
Lemma line_open_spec p buf a depth skip p1 b p2 : line_prefix p buf = Some (a, depth, skip, p1) -> open_div p1 = (b, p2) ->
  emits (spans_of p) (stack p) (fonts p depth ++ stack p2) (a ++ b) /\ same_setup p p2.
Proof.
  unfold line_prefix, fonts. destruct (has p TOHTML_MARK_CITATION) eqn:EM; [|destruct (has p TOHTML_QUOTE_CITATION); [|destruct (has p TOHTML_CITE)]].
  - destruct (citation_depth buf) as [[d sk]|]; cbn [mbind option_bind]; [|done]. destruct (0 <? d)%nat eqn:Ed.
    + destruct (open_div p) as [o q] eqn:E1. intros [= <- <- <- <-] E2. rewrite Ed. cbn [andb app].
      destruct (open_div_spec p (spans_of p) _ _ E1) as [M1 S1].
      assert (b = [] /\ p2 = q) as [-> ->].
      { assert (has q TOHTML_DIV && negb (div_open q) = false) as N.
        { unfold open_div in E1. destruct (has p TOHTML_DIV && negb (div_open p)) eqn:C; injection E1 as <- <-; [by rewrite andb_false_r|done]. }
        unfold open_div in E2. rewrite N in E2. by injection E2 as <- <-. }
      rewrite app_nil_r. split; [|done]. eapply emits_app; [exact M1|apply font_tag].
    + intros [= <- <- <- <-] E2. rewrite Ed. by apply open_div_spec.
  - destruct (citation_depth buf) as [[d sk]|]; cbn [mbind option_bind]; [|done].
    destruct (if div_open p && _ then close_div p else ([], p)) as [o1 q1] eqn:E1.
    destruct (open_quotes _ q1) as [o2 q2] eqn:E2. destruct (close_quotes _ q2) as [o3 q3] eqn:E3. intros [= <- <- <- <-] E4. cbn [andb app].
    destruct (open_div_spec q3 (spans_of p) _ _ E4) as [M4 S4].
    enough (emits (spans_of p) (stack p) (stack q3) (o1 ++ o2 ++ o3) /\ same_setup p q3) as [M S].
    { split; [|by eapply same_setup_trans]. by eapply emits_app. }
    destruct (Nat.eqb_spec d (blockquote_depth p)) as [Q|Q].
    { rewrite andb_false_r in E1. injection E1 as <- <-. rewrite Q, Nat.sub_diag in E2. injection E2 as <- <-.
      rewrite Q, Nat.sub_diag in E3. injection E3 as <- <-. split; [apply emits_nil|done]. }
    rewrite andb_true_r in E1. assert (E1' : close_div p = (o1, q1)) by (destruct (div_open p) eqn:D; [done|unfold close_div; by rewrite D]).
    destruct (close_div_spec p (spans_of p) _ _ E1') as (M1 & S1 & D1 & B1).
    destruct (open_quotes_spec _ q1 (spans_of p) _ _ D1 E2) as (M2 & S2 & D2 & B2).
    destruct (close_quotes_spec (blockquote_depth q2 - d) q2 (spans_of p) _ _ D2 ltac:(lia) E3) as (M3 & S3 & _).
    split; [by do 2 (eapply emits_app; [eassumption|])|]. by do 2 (eapply same_setup_trans; [eassumption|]).
  - destruct (open_div p) as [o q] eqn:E1. intros [= <- <- <- <-] E2. cbn [andb app].
    destruct (open_div_spec p (spans_of p) _ _ E1) as [M1 S1]. destruct (open_div_spec _ (spans_of p) _ _ E2) as [M2 S2].
    split; [|by eapply same_setup_trans]. eapply emits_app; [|exact M2]. eapply emits_app; [exact M1|]. apply emits_text.
    apply (escaped_app _ (bs "&gt;") [32]); [apply entity_escaped; right; left|by apply escaped_piece, PieceChar].
  - intros [= <- <- <- <-] E2. cbn [andb app]. by apply open_div_spec.
Qed.

Context {US : UrlScan}.

Lemma write_link_spec p start m out p' s : write_link g_utf8_validate p start m = Some (out, p') ->
  emits (spans_of p) s s out /\ text_step p p'.
Proof.
  unfold write_link. destruct (link_url start m) as [u|]; cbn [mbind option_bind]; [|done]. destruct (_ <? _)%nat; [done|].
  destruct (writeln p u) as [a q] eqn:E1. destruct (writeln q _) as [b r] eqn:E2. intros [= <- <-].
  destruct (writeln_spec _ _ _ _ E1) as [W1 T1]. destruct (writeln_spec _ _ _ _ E2) as [W2 T2].
  rewrite (same_spans p q) in W2 by (by apply text_step_same).
  split; [|eapply text_step_trans; [exact T1|]; eapply text_step_trans; [exact T2|by eexists]].
  match goal with |- emits _ _ _ ?o => replace o with (render (Open EA a) ++ b ++ render (Close EA)) by (cbn; by rewrite <- !app_assoc) end.
  eapply emits_app; [by apply (emits_item _ _ (EA :: s))|]. eapply emits_app; [by apply emits_text|by apply emits_item].
Qed.

Lemma links_loop_spec fuel p start len out n p' s : links_loop g_utf8_validate fuel p start len = Some (out, n, p') ->
  emits (spans_of p) s s out /\ text_step p p'.
Proof.
  revert p start len out; induction fuel as [|fuel IH]; intros p start len out; cbn [links_loop]; [done|].
  destruct (url_scan start _) as [[[|] m]|]; cbn [mbind option_bind]; [| |done].
  - destruct (writeln p _) as [a q] eqn:E1. destruct (writeln_spec _ _ _ _ E1) as [W1 T1].
    destruct (write_link g_utf8_validate q start m) as [[b r]|] eqn:E2; cbn [mbind option_bind]; [|done].
    destruct (write_link_spec _ _ _ _ _ s E2) as [M2 T2]. rewrite (same_spans p q) in M2 by (by apply text_step_same).
    pose proof (emits_app _ _ _ _ _ _ (emits_text (spans_of p) s a W1) M2) as M12. pose proof (text_step_trans _ _ _ T1 T2) as T12.
    destruct (0 <? _)%nat; [|by intros [= <- <- <-]].
    destruct (links_loop _ fuel r _ _) as [[[c k] t]|] eqn:E3; cbn [mbind option_bind]; [|done]. intros [= <- <- <-].
    destruct (IH _ _ _ _ E3) as [M3 T3]. rewrite (same_spans p r) in M3 by (by apply text_step_same).
    split; [|by eapply text_step_trans]. rewrite app_assoc. by eapply emits_app.
  - destruct (writeln p _) as [a q] eqn:E1. intros [= <- <- <-]. destruct (writeln_spec _ _ _ _ E1) as [W1 T1].
    split; [by apply emits_text|done].
Qed.

Lemma line_text_spec p start len out n p' s : line_text g_utf8_validate p start len = Some (out, n, p') ->
  emits (spans_of p) s s out /\ text_step p p'.
Proof.
  unfold line_text. destruct (has p CONVERT_URLS); [apply links_loop_spec|].
  destruct (writeln p _) as [a q] eqn:E1. intros [= <- <- <-]. destruct (writeln_spec _ _ _ _ E1) as [W1 T1].
  split; [by apply emits_text|done].
Qed.

Lemma line_end_spec p c n out p' b : line_end p c n = (out, p') -> emits b (stack p) (stack p') out /\ same_setup p p'.
Proof.
  unfold line_end. assert (Br_ : forall (f : bool) s, emits b s s (if f then bs "<br>" else [])).
  { intros [|] s; [by apply (emits_item b s s Br)|apply emits_nil]. }
  assert (Lf : forall s, emits b s s [cLF]) by (intros s; by apply emits_text, escaped_piece, PieceChar).
  destruct (div_open p) eqn:D.
  - destruct (close_div p) as [o q] eqn:E. destruct (close_div_spec p b _ _ E) as (M & S & _). intros [= <- <-].
    split; [|done]. eapply emits_app; [apply Br_|]. eapply emits_app; [eapply emits_app; [apply Br_|exact M]|apply Lf].
  - intros [= <- <-]. split; [|done]. eapply emits_app; [apply Br_|apply Lf].
Qed.

Lemma convert_line_spec p buf len after out p' : convert_line g_utf8_validate p buf len after = Some (out, p') ->
  emits (spans_of p) (stack p) (stack p') out /\ same_setup p p'.
Proof.
  unfold convert_line. set (q := set_column p 0). destruct (line_prefix q buf) as [[[[a depth] skip] p1]|] eqn:E1; cbn [mbind option_bind]; [|done].
  destruct (open_div p1) as [b p2] eqn:E2. destruct (line_open_spec _ _ _ _ _ _ _ _ E1 E2) as [M2 S2].
  destruct (line_text _ p2 _ _) as [[[c n] p3]|] eqn:E3; cbn [mbind option_bind]; [|done].
  destruct (line_text_spec _ _ _ _ _ _ (fonts q depth ++ stack p2) E3) as [M3 T3]. rewrite (same_spans q p2 S2) in M3.
  destruct (text_step_same _ _ T3) as [S3 St3]. pose proof (same_setup_trans _ _ _ S2 S3) as S23.
  set (d := if has p3 _ && _ then bs "</font>" else []).
  assert (M4 : emits (spans_of q) (fonts q depth ++ stack p3) (stack p3) d).
  { subst d. assert (has p3 TOHTML_MARK_CITATION = has q TOHTML_MARK_CITATION) as -> by (unfold has; destruct S23 as (F & _); by rewrite F).
    unfold fonts. destruct (_ && _); [by apply (emits_item _ _ _ (Close EFont))|apply emits_nil]. }
  destruct (match buf !! len with Some x => line_end p3 x n | None => ([], p3) end) as [e p4] eqn:E4. intros [= <- <-].
  assert (emits (spans_of q) (stack p3) (stack p4) e /\ same_setup p3 p4) as [M5 S5].
  { destruct (buf !! len); [by eapply line_end_spec|]. injection E4 as <- <-. split; [apply emits_nil|done]. }
  split; [|by eapply same_setup_trans; [|exact S5]]. change (spans_of p) with (spans_of q). change (stack p) with (stack q).
  rewrite <- St3 in M3. rewrite app_assoc. eapply emits_app; [exact M2|]. rewrite <- St3. eapply emits_app; [exact M3|]. by eapply emits_app.
Qed.

(** *** Chunks *)

(** What the lines of a chunk keep. *)
Definition same_tags (p p' : ToHTML) : Prop := flags p' = flags p /\ color p' = color p /\ pre_open p' = pre_open p.

Lemma same_setup_tags p p' : same_setup p p' -> same_tags p p'.
Proof. by intros (A & B & C & _). Qed.
Lemma same_tags_trans p q r : same_tags p q -> same_tags q r -> same_tags p r.
Proof. intros (A & B & C) (D & E & F). repeat split; congruence. Qed.
Lemma same_tags_spans p p' : same_tags p p' -> spans_of p' = spans_of p.
Proof. intros (F & _). unfold spans_of, has. by rewrite F. Qed.

Lemma convert_lines_spec fuel p buf ahead after flush out rest p' :
  convert_lines g_utf8_validate fuel p buf ahead after flush = Some (out, rest, p') ->
  emits (spans_of p) (stack p) (stack p') out /\ same_tags p p'.
Proof.
  revert p buf ahead after out; induction fuel as [|fuel IH]; intros p buf ahead after out; cbn [convert_lines]; [done|].
  destruct (_ && _); [intros [= <- <- <-]; split; [apply emits_nil|done]|].
  set (len := (ahead + _)%nat). destruct (match backup p with Some b => _ | None => _ end) as [[[q buf'] len'] after'] eqn:Eq.
  assert (stack q = stack p /\ same_tags p q) as [Sq Tq] by (destruct (backup p); by injection Eq as <- <- <- <-).
  destruct (convert_line _ q buf' len' after') as [[a r]|] eqn:E1; cbn [mbind option_bind]; [|done].
  destruct (convert_line_spec _ _ _ _ _ _ E1) as [M1 S1]. rewrite (same_tags_spans p q Tq), Sq in M1.
  pose proof (same_tags_trans _ _ _ Tq (same_setup_tags _ _ S1)) as Tr.
  destruct (_ <? _)%nat; [|by intros [= <- <- <-]].
  destruct (convert_lines _ fuel r _ _ _ _) as [[[b rest'] t]|] eqn:E2; cbn [mbind option_bind]; [|done]. intros [= <- <- <-].
  destruct (IH _ _ _ _ _ E2) as [M2 T2]. rewrite (same_tags_spans p r Tr) in M2.
  split; [by eapply emits_app|by eapply same_tags_trans].
Qed.

(** PRE is opened before anything else is. *)
Definition pre_first (p : ToHTML) : Prop := has p TOHTML_PRE = true -> pre_open p = false -> stack p = [].

Lemma pre_first_same p p' : has p' TOHTML_PRE = has p TOHTML_PRE -> pre_open p' = pre_open p ->
  (has p TOHTML_PRE = true -> pre_open p = true) -> pre_first p'.
Proof. intros Eh Ep H. unfold pre_first. rewrite Eh, Ep. intros A B. rewrite H in B by done. done. Qed.

Lemma pre_open_spec p a q : pre_first p -> (if has p TOHTML_PRE && negb (pre_open p) then (bs "<pre>", set_pre p true) else ([], p)) = (a, q) ->
  emits (spans_of p) (stack p) (stack q) a /\ flags q = flags p /\ (has p TOHTML_PRE = true -> pre_open q = true).
Proof.
  intros Pf. destruct (has p TOHTML_PRE) eqn:H; [destruct (pre_open p) eqn:O|]; cbn [andb negb]; intros [= <- <-].
  - split_and!; [apply emits_nil|done..].
  - pose proof (Pf H O) as St. unfold stack in St. apply app_eq_nil in St as [St1 St2]. apply app_eq_nil in St2 as [St2 _].
    split_and!; [|done..]. unfold stack. cbn. rewrite O, St1, St2. by apply (emits_item _ _ _ (Open EPre [])).
  - split_and!; [apply emits_nil|done..].
Qed.

Lemma html_convert_spec p inb after flush out p' : pre_first p -> html_convert g_utf8_validate p inb after flush = Some (out, p') ->
  emits (spans_of p) (stack p) (stack p') out /\ flags p' = flags p /\ pre_first p' /\ (flush = true -> stack p' = []).
Proof.
  intros Pf. unfold html_convert.
  set (body := let '(q, buf, ahead, after') := match inb, backup p with [], Some b => _ | _, _ => (p, inb, O, after) end in _).
  assert (B : body = Some (out, p') -> emits (spans_of p) (stack p) (stack p') out /\ flags p' = flags p /\ pre_first p' /\ (flush = true -> stack p' = [])).
  { subst body. destruct (match inb, backup p with [], Some b => _ | _, _ => (p, inb, O, after) end) as [[[q buf] ahead] after'] eqn:Eq.
    assert (stack q = stack p /\ flags q = flags p /\ pre_open q = pre_open p) as (Sq & Fq & Oq).
    { destruct inb; [destruct (backup p)|]; by injection Eq as <- <- <- <-. }
    assert (pre_first q) as Pq by (unfold pre_first, has; rewrite Fq, Oq, Sq; exact Pf).
    assert (Spq : spans_of q = spans_of p) by (unfold spans_of, has; by rewrite Fq).
    destruct (if _ && _ then _ else _) as [a r] eqn:Ea. destruct (pre_open_spec q a r Pq Ea) as (M1 & Fr & Pr).
    destruct (convert_lines _ _ r _ _ _ _) as [[[b rest] t]|] eqn:Eb; cbn [mbind option_bind]; [|done].
    destruct (convert_lines_spec _ _ _ _ _ _ _ _ _ Eb) as (M2 & T2). pose proof T2 as (Ft & _ & Ot).
    assert (spans_of r = spans_of q) as Sr by (unfold spans_of, has; by rewrite Fr). rewrite Sr in M2. rewrite Spq, Sq in *.
    pose proof (emits_app _ _ _ _ _ _ M1 M2) as M12. destruct flush.
    - destruct (match rest with [] => ([], t) | _ => writeln t rest end) as [c v] eqn:Ec. destruct (close_all v) as [d w] eqn:Ed. intros [= <- <-].
      destruct (close_all_spec v (spans_of p) d w Ed) as (M4 & S4 & F4 & _ & _ & O4).
      assert (emits (spans_of p) (stack t) (stack v) c /\ flags v = flags t) as [M3 F3].
      { destruct rest; [injection Ec as <- <-; split; [apply emits_nil|done]|]. destruct (writeln_spec _ _ _ _ Ec) as [W T3].
        destruct (text_step_same _ _ T3) as [(F & _) ->]. rewrite (same_tags_spans r t T2), Sr in W. split; [|done]. by apply emits_text. }
      split_and!; [|congruence|unfold pre_first; by rewrite S4|done]. rewrite app_assoc. eapply emits_app; [exact M12|]. rewrite S4. by eapply emits_app.
    - assert (pre_first t) as Pt by (apply (pre_first_same r t); [unfold has; by rewrite Ft|done|]; unfold has; rewrite Fr; exact Pr).
      destruct rest; intros [= <- <-]; split_and!; try done; cbn; congruence. }
  destruct inb as [|x inb]; [|exact B]. destruct (backup p) as [bk|] eqn:Ebk; [exact B|].
  destruct (negb (pre_open p) && negb (div_open p) && (blockquote_depth p =? 0)%nat) eqn:N.
  - intros [= <- <-]. split_and!; [apply emits_nil|done..|]. intros _. zb. apply Nat.eqb_eq in H0. unfold stack. by rewrite H0, H1, H.
  - intros E. injection E as E. destruct (close_all_spec p (spans_of p) _ _ E) as (M & S4 & F4 & _ & _ & O4).
    split_and!; [by rewrite S4|done|unfold pre_first; by rewrite S4|done].
Qed.

Lemma filter_all_spec p chunks out p' : pre_first p -> filter_all g_utf8_validate p chunks = Some (out, p') ->
  emits (spans_of p) (stack p) (stack p') out /\ flags p' = flags p /\ pre_first p'.
Proof.
  revert p out; induction chunks as [|[c after] chunks IH]; intros p out Pf; cbn [filter_all]; [intros [= <- <-]; split_and!; [apply emits_nil|done..]|].
  destruct (mime_filter_tohtml_filter _ p c after) as [[a q]|] eqn:E1; cbn [mbind option_bind]; [|done].
  destruct (html_convert_spec _ _ _ _ _ _ Pf E1) as (M1 & F1 & P1 & _).
  destruct (filter_all _ q chunks) as [[b r]|] eqn:E2; cbn [mbind option_bind]; [|done]. intros [= <- <-].
  destruct (IH _ _ P1 E2) as (M2 & F2 & P2). replace (spans_of q) with (spans_of p) in M2 by (unfold spans_of, has; by rewrite F1).
  split_and!; [by eapply emits_app|congruence|done].
Qed.

(** C30. A text that is converted in any chunks gives a sequence of items: escaped text, in
    which no "<", ">" or double quote is left and every ampersand starts an entity, and
    the filter's own tags, with escaped attributes; every element that is opened is
    closed, in the right order. *)
Theorem html_output_well_formed (f c : Z) (chunks : list (list Z * list Z)) (last after out : list Z) (p' : ToHTML) :
  convert_text g_utf8_validate (tohtml_new f c) chunks last after = Some (out, p') ->
  exists items, out = concat (map render items) /\
    Forall (item_ok (has (tohtml_new f c) TOHTML_CONVERT_SPACES && has (tohtml_new f c) TOHTML_PRESERVE_TABS)) items /\
    nest items [] = Some [].
Proof.
  unfold convert_text. assert (pre_first (tohtml_new f c)) as Pf by done.
  destruct (filter_all _ _ chunks) as [[a q]|] eqn:E1; cbn [mbind option_bind]; [|done]. destruct (filter_all_spec _ _ _ _ Pf E1) as (M1 & F1 & P1).
  destruct (mime_filter_tohtml_complete _ q last after) as [[b r]|] eqn:E2; cbn [mbind option_bind]; [|done]. intros [= <- <-].
  destruct (html_convert_spec _ _ _ _ _ _ P1 E2) as (M2 & _ & _ & S2). rewrite S2 in M2 by done.
  replace (spans_of q) with (spans_of (tohtml_new f c)) in M2 by (unfold spans_of, has; by rewrite F1).
  exact (emits_app _ _ _ _ _ _ M1 M2).
Qed.
End convert.
