(* ===== verification/ToHtmlStream.v ===== *)
(** * ToHtmlStream: the chunks of a text do not matter

    What the scanner of URLs promises is the class [UrlScanSpec]: on a line, what
    comes after it in memory makes no difference, as long as it starts with a line
    feed or NUL and, when addresses are looked for, something stops the search for
    the start of an address ([good_after]); matches are not empty and inside of
    the line; links are at least as long as their prefix.  With it a text is converted
    line by line ([run_lines]), and converting it in chunks is the same as
    converting it at once. *)

From Stdlib Require Import ZArith Lia Ascii.
From stdpp Require Import base list strings numbers option.
From S2P Require Import Prelude Utf8 UrlScanner UrlScannerSpec ToHtml ToHtmlSpec.

(** ** The interface *)

Class UrlScanSpec `{UrlScan} := {
  finds_addresses : bool;
  line_scan : list Z -> bool * CamelUrlMatch;
  url_scan_line : forall line after, good_after finds_addresses line after -> url_scan (line ++ after) (length line) = Some (line_scan line);
  line_scan_bounds : forall line m, line_scan line = (true, m) -> 0 <= um_so m < um_eo m /\ um_eo m <= Z.of_nat (length line);
  link_url_ok : forall line m, line_scan line = (true, m) -> exists u, link_url line m = Some u /\ (length (m_prefix m) <= length u)%nat }.

Lemma good_after_drop ad k line after : good_after ad line after -> good_after ad (drop k line) after.
Proof. intros [E B]. split; [done|]. intros A. destruct (B A) as [C|C]; [left; by apply at_bounded_drop|by right]. Qed.

Lemma good_after_nul ad line after : good_after ad (line ++ [0]) after -> good_after ad line (0 :: after).
Proof.
  intros [E B]. split; [exists 0, after; auto|]. intros A. destruct (B A) as [C|C]; [left; by apply at_bounded_snoc|right].
  cbn [existsb]. by rewrite C, orb_true_r.
Qed.

Lemma ended_cons c after : c = cLF \/ c = 0 -> ended (c :: after).
Proof. intros C. by exists c, after. Qed.

(** ** Lines *)

Definition no_lf (s : list Z) : Prop := Forall (fun c => c <> cLF) s.

Fixpoint split_lines (t : list Z) : list (list Z) * list Z :=
  match t with
  | [] => ([], [])
  | c :: t =>
      let '(ls, r) := split_lines t in
      if c =? cLF then ([] :: ls, r)
      else match ls with [] => ([], c :: r) | l :: ls => ((c :: l) :: ls, r) end
  end.

Definition join (ls : list (list Z)) (r : list Z) : list Z := concat (map (fun l => l ++ [cLF]) ls) ++ r.

Lemma join_cons l ls r : join (l :: ls) r = l ++ cLF :: join ls r.
Proof. unfold join. cbn. by rewrite <- !app_assoc. Qed.

Lemma join_app ls1 ls2 r : join (ls1 ++ ls2) r = join ls1 (join ls2 r).
Proof. unfold join. by rewrite map_app, concat_app, <- app_assoc. Qed.

Lemma split_lines_spec t ls r : split_lines t = (ls, r) -> t = join ls r /\ Forall no_lf ls /\ no_lf r.
Proof.
  revert ls r; induction t as [|c t IH]; intros ls r; cbn; [intros [= <- <-]; split_and!; [done|constructor|constructor]|].
  destruct (split_lines t) as [ls' r'] eqn:E. destruct (IH _ _ eq_refl) as (-> & F & G). destruct (Z.eqb_spec c cLF) as [->|N].
  - intros [= <- <-]. split_and!; [by rewrite join_cons|constructor; [constructor|done]|done].
  - destruct ls' as [|l ls']; intros [= <- <-]; [split_and!; [done..|constructor; done]|].
    apply list.Forall_cons in F as [F1 F2]. split_and!; [by rewrite !join_cons|constructor; [by constructor|done]|done].
Qed.

Lemma split_lines_tail r : no_lf r -> split_lines r = ([], r).
Proof. induction 1 as [|c r C F IH]; cbn; [done|]. by rewrite IH, (proj2 (Z.eqb_neq c cLF) C). Qed.

Lemma split_lines_join ls r : Forall no_lf ls -> no_lf r -> split_lines (join ls r) = (ls, r).
Proof.
  intros F G. induction F as [|l ls L F IH]; [by apply split_lines_tail|]. rewrite join_cons.
  induction L as [|c l C L IHl]; cbn; [by rewrite IH|]. cbn in IHl. by rewrite IHl, (proj2 (Z.eqb_neq c cLF) C).
Qed.

Lemma split_lines_app t u ls1 r1 ls2 r2 : split_lines t = (ls1, r1) -> split_lines (r1 ++ u) = (ls2, r2) ->
  split_lines (t ++ u) = (ls1 ++ ls2, r2).
Proof.
  intros (-> & F1 & G1)%split_lines_spec (E & F2 & G2)%split_lines_spec.
  assert (join ls1 r1 ++ u = join (ls1 ++ ls2) r2) as ->.
  { rewrite join_app. unfold join at 1 2. by rewrite <- app_assoc, E. }
  apply split_lines_join; [by apply Forall_app|done].
Qed.

Lemma no_lf_tests l : no_lf l -> Forall (fun c => (cLF =? c) = false) l.
Proof. induction 1 as [|c l C F IH]; constructor; [apply Z.eqb_neq; lia|done]. Qed.

Lemma next_lf_line l rest : no_lf l -> next_lf (l ++ cLF :: rest) = length l.
Proof.
  intros F. unfold next_lf. rewrite (index_where_some _ l cLF rest); [done|by apply no_lf_tests|done].
Qed.

Lemma next_lf_tail r : no_lf r -> next_lf r = length r.
Proof.
  intros F. unfold next_lf. rewrite index_where_none; [done|by apply no_lf_tests].
Qed.

Lemma next_lf_app b t : no_lf b -> next_lf (b ++ t) = (length b + next_lf t)%nat.
Proof.
  intros F. unfold next_lf. rewrite index_where_app; [destruct (index_where _ t); cbn; [done|apply length_app]|by apply no_lf_tests].
Qed.

(** Citations end with the line. *)
Lemma citation_loop_line n line rest depth skip : (length line <= n)%nat -> no_lf line ->
  citation_loop (line ++ cLF :: rest) depth skip = citation_loop line depth skip.
Proof.
  revert line depth skip; induction n as [|n IH]; intros [|c line] depth skip L F; cbn in L; try lia; cbn; try done.
  apply list.Forall_cons in F as [C F]. rewrite (proj2 (Z.eqb_neq c cLF) C). destruct (c =? ch " ").
  - destruct line as [|d line]; cbn; [done|]. apply list.Forall_cons in F as [_ F]. destruct (citation_char d); [|done]. apply IH; [cbn in L; lia|done].
  - destruct (citation_char c); [|done]. apply IH; [lia|done].
Qed.

Lemma citation_loop_skip n line depth skip : (length line <= n)%nat -> (snd (citation_loop line depth skip) <= skip + length line)%nat.
Proof.
  revert line depth skip; induction n as [|n IH]; intros [|c line] depth skip L; cbn in L; try lia; cbn; try lia.
  destruct (c =? 10); [cbn; lia|]. destruct (c =? ch " ").
  - destruct line as [|d line]; cbn; [lia|]. destruct (citation_char d); [|cbn; lia].
    etrans; [apply IH; cbn in L; lia|cbn; lia].
  - destruct (citation_char c); [|cbn; lia]. etrans; [apply IH; lia|cbn; lia].
Qed.

Lemma citation_depth_line line rest : no_lf line -> citation_depth (line ++ cLF :: rest) = citation_depth (line ++ [cLF]).
Proof.
  intros F. destruct F as [|c line C F]; [done|]. cbn. destruct (citation_char c); [|done].
  by rewrite !(citation_loop_line (length line)).
Qed.

Lemma citation_depth_skip line tail depth skip : no_lf line -> (exists rest, tail = cLF :: rest) \/ tail = [] ->
  citation_depth (line ++ tail) = Some (depth, skip) -> (skip <= length line)%nat.
Proof.
  intros F T. destruct F as [|c line C F]; cbn.
  { destruct T as [[rest ->]| ->]; cbn; [by intros [= _ <-]|done]. }
  destruct (citation_char c); [|intros [= _ <-]; lia]. intros [= E].
  assert (citation_loop (line ++ tail) 1 1 = citation_loop line 1 1) as E'.
  { destruct T as [[rest ->]| ->]; [by apply (citation_loop_line (length line))|by rewrite app_nil_r]. }
  rewrite E' in E. pose proof (citation_loop_skip (length line) line 1 1 ltac:(done)). rewrite E in H. cbn in H. lia.
Qed.

Section stream.
Context (g_utf8_validate : list Z -> option nat) `{USp : UrlScanSpec}.
Abbreviation writeln := (writeln g_utf8_validate).
Abbreviation links_loop := (links_loop g_utf8_validate).
Abbreviation convert_line := (convert_line g_utf8_validate).

(** ** A line does not depend on what is behind it *)

(** The lines that are scanned inside of their memory. *)
Definition clean (line : list Z) : Prop := finds_addresses = true -> at_bounded line = true.

Lemma good_after_clean line after : clean line -> ended after -> good_after finds_addresses line after.
Proof. intros C E. split; [done|]. intros A. left. by apply C. Qed.

Lemma good_after_demo line tail : tail = [] \/ tail = [cLF] -> good_after finds_addresses line (tail ++ [0; ch "a"]).
Proof. intros [-> | ->]; (split; [apply ended_cons; tauto|]); intros _; by right. Qed.

Lemma link_url_line line after m : line_scan line = (true, m) -> link_url (line ++ after) m = link_url line m.
Proof.
  intros E. apply line_scan_bounds in E as [B1 B2]. unfold link_url.
  rewrite drop_app_le by lia. rewrite take_app_le; [done|]. rewrite length_drop. lia.
Qed.

Lemma write_link_line p line after m : line_scan line = (true, m) ->
  exists r, write_link g_utf8_validate p (line ++ after) m = Some r /\ write_link g_utf8_validate p line m = Some r.
Proof.
  intros E. unfold write_link. rewrite (link_url_line line after m E). destruct (link_url_ok _ _ E) as (u & -> & L). cbn [mbind option_bind].
  rewrite (proj2 (Nat.ltb_ge _ _) L). destruct (writeln p u) as [a q]. destruct (writeln q _) as [b r]. by eexists.
Qed.

(** The scanner leaves a last NUL out. *)
Definition scanned (line : list Z) : list Z := if (0 <? length line)%nat && (nth (length line - 1) line 1 =? 0) then take (length line - 1) line else line.

Lemma scan_step line after : good_after finds_addresses line after ->
  url_scan (line ++ after) (if (0 <? length line)%nat && (nth (length line - 1) (line ++ after) 1 =? 0) then (length line - 1)%nat else length line)
    = Some (line_scan (scanned line)).
Proof.
  intros G. unfold scanned. destruct line as [|x l _] using rev_ind; [by apply (url_scan_line [])|].
  rewrite length_app. cbn [length]. replace (length l + 1 - 1)%nat with (length l) by lia. rewrite (proj2 (Nat.ltb_lt 0 (length l + 1))) by lia.
  rewrite <- app_assoc. cbn [app]. rewrite !nth_middle. cbn [andb]. destruct (Z.eqb_spec x 0) as [->|N].
  - rewrite take_app_length. apply (url_scan_line l (0 :: after)). by apply good_after_nul.
  - rewrite cons_middle, app_assoc. replace (length l + 1)%nat with (length (l ++ [x])) by (rewrite length_app; done). by apply url_scan_line.
Qed.

Lemma scanned_prefix line : exists k, line = scanned line ++ k.
Proof.
  unfold scanned. destruct (_ && _); [|exists []; by rewrite app_nil_r]. eexists. symmetry. apply take_drop.
Qed.

Lemma links_loop_line p line :
  exists r, forall fuel2 after2, good_after finds_addresses line after2 -> (length line < fuel2)%nat -> links_loop fuel2 p (line ++ after2) (length line) = Some r.
Proof.
  remember (length line) as n eqn:En. revert p line En; induction n as [n IH] using lt_wf_ind; intros p line En.
  destruct (line_scan (scanned line)) as [[|] m] eqn:Es.
  - destruct (scanned_prefix line) as [k Ek]. pose proof (line_scan_bounds _ _ Es) as [B1 B2].
    assert (Lk : length line = (length (scanned line) + length k)%nat) by (rewrite Ek at 1; apply length_app).
    destruct (writeln p (take (Z.to_nat (um_so m)) line)) as [a q] eqn:Ea.
    destruct (write_link_line q (scanned line) k m Es) as ([b r] & Eb & Eb').
    assert (Step : forall fuel2 after2, good_after finds_addresses line after2 -> links_loop (S fuel2) p (line ++ after2) n =
      if (0 <? n - Z.to_nat (um_eo m))%nat
      then '(c, len, p) ← links_loop fuel2 r (drop (Z.to_nat (um_eo m)) line ++ after2) (n - Z.to_nat (um_eo m)); Some (a ++ b ++ c, len, p)
      else Some (a ++ b, (n - Z.to_nat (um_eo m))%nat, r)).
    { intros fuel2 after2 G2. cbn [ToHtml.links_loop]. rewrite En, (scan_step line after2 G2), Es. cbn [mbind option_bind].
      rewrite take_app_le by lia. rewrite Ea.
      destruct (write_link_line q (scanned line) (k ++ after2) m Es) as (r' & E1 & E2). rewrite Eb' in E2. injection E2 as <-.
      rewrite app_assoc, <- Ek in E1. rewrite E1. cbn [mbind option_bind]. by rewrite drop_app_le by lia. }
    destruct (Nat.ltb_spec 0 (n - Z.to_nat (um_eo m))) as [L|L].
    + destruct (IH (n - Z.to_nat (um_eo m))%nat ltac:(lia) r (drop (Z.to_nat (um_eo m)) line)) as ([[c len] t] & Hr); [rewrite length_drop; lia|].
      exists (a ++ b ++ c, len, t). intros [|fuel2] after2 G2 L2; [lia|]. rewrite Step by done.
      rewrite (Hr fuel2 after2) by (by apply good_after_drop || lia). done.
    + exists (a ++ b, (n - Z.to_nat (um_eo m))%nat, r). intros [|fuel2] after2 G2 L2; [lia|]. by rewrite Step by done.
  - destruct (writeln p (take n line)) as [a q] eqn:Ea. exists (a, n, q). intros [|fuel2] after2 G2 L2; [lia|].
    cbn [ToHtml.links_loop]. rewrite En, (scan_step line after2 G2), Es. cbn [mbind option_bind].
    rewrite take_app_le by lia. rewrite <- En, Ea. done.
Qed.

Lemma line_text_line p line after after2 : good_after finds_addresses line after -> good_after finds_addresses line after2 ->
  exists r, line_text g_utf8_validate p (line ++ after) (length line) = Some r /\ line_text g_utf8_validate p (line ++ after2) (length line) = Some r.
Proof.
  intros G G2. unfold line_text. destruct (has p CONVERT_URLS).
  - destruct (links_loop_line p line) as (r & Hr). exists r. split; apply Hr; done || lia.
  - rewrite !take_app_length. destruct (writeln p line) as [a q]. by eexists.
Qed.

(** The line with its line feed, or the last line. *)
Definition line1 (p : ToHTML) (line : list Z) (nl : bool) : option (list Z * ToHTML) :=
  convert_line p (line ++ if nl then [cLF] else []) (length line) [0; ch "a"].

Lemma line_prefix_line p line rest nl : no_lf line -> (nl = false -> line <> []) ->
  line_prefix p (line ++ if nl : bool then cLF :: rest else []) = line_prefix p (line ++ if nl then [cLF] else []) /\
  exists out depth skip p', line_prefix p (line ++ if nl then [cLF] else []) = Some (out, depth, skip, p') /\ (skip <= length line)%nat.
Proof.
  intros F Nn. assert (E : citation_depth (line ++ if nl then cLF :: rest else []) = citation_depth (line ++ if nl then [cLF] else [])).
  { destruct nl; [by apply citation_depth_line|done]. }
  split; [unfold line_prefix; by rewrite E|]. clear E.
  assert (exists d s, citation_depth (line ++ if nl then [cLF] else []) = Some (d, s) /\ (s <= length line)%nat) as (d & s & E & L).
  { destruct (citation_depth (line ++ if nl then [cLF] else [])) as [[d s]|] eqn:E.
    - exists d, s. split; [done|]. apply (citation_depth_skip _ _ _ _ F) in E; [done|]. destruct nl; [left; by eexists|by right].
    - exfalso. destruct line; [destruct nl; [done|by apply Nn]|done]. }
  unfold line_prefix. rewrite E. cbn [mbind option_bind].
  destruct (has p TOHTML_MARK_CITATION); [|destruct (has p TOHTML_QUOTE_CITATION); [|destruct (has p TOHTML_CITE)]].
  - destruct (0 <? d)%nat; [destruct (open_div p)|]; do 4 eexists; (split; [done|lia]).
  - destruct (if div_open p && _ then _ else _) as [a1 q1]. destruct (open_quotes _ q1) as [a2 q2]. destruct (close_quotes _ q2). do 4 eexists. split; [done|lia].
  - destruct (open_div p). do 4 eexists. split; [done|lia].
  - do 4 eexists. split; [done|lia].
Qed.

Lemma convert_line_line p line rest nl after : no_lf line -> (nl = false -> line <> []) ->
  good_after finds_addresses line ((if nl then cLF :: rest else []) ++ after) ->
  exists r, convert_line p (line ++ if nl : bool then cLF :: rest else []) (length line) after = Some r /\ line1 p line nl = Some r.
Proof.
  intros F Nn G. unfold line1, ToHtml.convert_line. set (q := set_column p 0).
  destruct (line_prefix_line q line rest nl F Nn) as [-> (out & depth & skip & p' & -> & Ls)]. cbn [mbind option_bind].
  destruct (open_div p') as [b p2].
  assert (Lk : (line ++ if nl then cLF :: rest else []) !! length line = (line ++ if nl then [cLF] else []) !! length line).
  { rewrite !lookup_app_r, Nat.sub_diag by lia. by destruct nl. }
  rewrite Lk. rewrite <- !app_assoc, !drop_app_le by lia.
  destruct (line_text_line p2 (drop skip line) ((if nl then cLF :: rest else []) ++ after) ((if nl then [cLF] else []) ++ [0; ch "a"])) as (r & E1 & E2).
  { by apply good_after_drop. }
  { apply good_after_demo. destruct nl; tauto. }
  rewrite length_drop in E1, E2. rewrite E1, E2. destruct r as [[c n] p3]. cbn [mbind option_bind].
  destruct (match (line ++ if nl then [cLF] else []) !! length line with Some x => line_end p3 x n | None => ([], p3) end). by eexists.
Qed.

Lemma line1_total p line nl : no_lf line -> (nl = false -> line <> []) -> exists a q, line1 p line nl = Some (a, q) /\ same_setup p q.
Proof.
  intros F Nn. assert (T : (if nl then [cLF] else []) = [] \/ (if nl then [cLF] else []) = [cLF]) by (destruct nl; tauto).
  destruct (convert_line_line p line [] nl [0; ch "a"] F Nn (good_after_demo line _ T)) as ([a q] & _ & E).
  exists a, q. split; [done|]. unfold line1 in E. by apply convert_line_spec in E as [_ S].
Qed.

(** ** A text line by line *)

Fixpoint run_lines (p : ToHTML) (ls : list (list Z)) : option (list Z * ToHTML) :=
  match ls with
  | [] => Some ([], p)
  | l :: ls => '(a, p) ← line1 p l true; '(b, p) ← run_lines p ls; Some (a ++ b, p)
  end.

(** The last line, when the text does not end with a line feed. *)
Definition last_line (p : ToHTML) (r : list Z) : option (list Z * ToHTML) :=
  match r with [] => Some ([], p) | _ => line1 p r false end.

Lemma run_lines_total p ls : Forall no_lf ls -> exists a q, run_lines p ls = Some (a, q) /\ same_setup p q.
Proof.
  intros F. revert p; induction F as [|l ls Fl F IH]; intros p; cbn [run_lines]; [by exists [], p|].
  destruct (line1_total p l true Fl) as (a & q & -> & S1); [done|]. cbn [mbind option_bind].
  destruct (IH q) as (b & r & -> & S2). exists (a ++ b), r. split; [done|by eapply same_setup_trans].
Qed.

Lemma run_lines_app p ls1 ls2 : run_lines p (ls1 ++ ls2) = '(a, p) ← run_lines p ls1; '(b, p) ← run_lines p ls2; Some (a ++ b, p).
Proof.
  revert p; induction ls1 as [|l ls1 IH]; intros p; cbn [app run_lines mbind option_bind].
  { destruct (run_lines p ls2) as [[b q]|]; done. }
  destruct (line1 p l true) as [[a q]|]; cbn [mbind option_bind]; [|done]. rewrite IH.
  destruct (run_lines q ls1) as [[b r]|]; cbn [mbind option_bind]; [|done]. destruct (run_lines r ls2) as [[c t]|]; cbn [mbind option_bind]; [|done].
  by rewrite app_assoc.
Qed.

Lemma last_line_total p r : no_lf r -> exists a q, last_line p r = Some (a, q) /\ same_setup p q.
Proof. intros F. destruct r as [|c r]; [by exists [], p|]. by apply line1_total. Qed.

Lemma length_join ls r : (length ls + length r <= length (join ls r))%nat.
Proof. induction ls as [|l ls IH]; [done|]. rewrite join_cons, length_app. cbn. lia. Qed.

(** The loop over the lines, without a backup. *)
Lemma convert_lines_run ls r p after flush fuel : Forall no_lf ls -> no_lf r -> join ls r <> [] -> backup p = None ->
  Forall clean ls -> (flush = true -> r <> [] -> clean r /\ ended after) -> (length ls < fuel)%nat ->
  convert_lines g_utf8_validate fuel p (join ls r) 0 after flush =
    '(a, p) ← run_lines p ls;
    if flush then '(b, p) ← last_line p r; Some (a ++ b, [], p) else Some (a, r, p).
Proof.
  intros F G Nn Bk Cl Ga. revert p fuel Bk Nn Cl; induction F as [|l ls Fl F IH]; intros p [|fuel] Bk Nn Cl Lf; cbn in Lf; try lia; cbn [convert_lines Nat.add]; rewrite drop_0.
  - change (join [] r) with r in *. rewrite (next_lf_tail r G), Nat.leb_refl. cbn [andb run_lines mbind option_bind].
    destruct flush; cbn [negb]; [|done]. rewrite Bk. unfold last_line. destruct r as [|c r]; [done|]. set (t := c :: r) in *.
    destruct (Ga eq_refl ltac:(done)) as [Cr Ea].
    destruct (convert_line_line p t [] false after G ltac:(done) (good_after_clean _ _ Cr Ea)) as ([a q] & E1 & ->). rewrite app_nil_r in E1. rewrite E1. cbn [mbind option_bind].
    rewrite (proj2 (Nat.ltb_ge _ _)) by lia. by rewrite drop_ge by lia.
  - rewrite join_cons, (next_lf_line l _ Fl). rewrite (proj2 (Nat.leb_gt _ _)) by (rewrite length_app; cbn; lia). cbn [andb]. rewrite Bk.
    apply list.Forall_cons in Cl as [Cl1 Cl].
    destruct (convert_line_line p l (join ls r) true after Fl ltac:(done) (good_after_clean _ _ Cl1 (ended_cons cLF _ (or_introl eq_refl)))) as ([a q] & -> & E1). cbn [run_lines]. rewrite E1. cbn [mbind option_bind].
    assert (S1 : same_setup p q) by (unfold line1 in E1; by apply convert_line_spec in E1 as [_ S]).
    rewrite drop_middle, length_app. cbn [length]. destruct (Nat.ltb_spec (S (length l)) (length l + S (length (join ls r)))) as [L|L].
    + rewrite IH; [|destruct S1 as (_ & _ & _ & ->); done|intros E; rewrite E in L; cbn in L; lia|done|lia].
      destruct (run_lines q ls) as [[b t]|]; cbn [mbind option_bind]; [|done]. destruct flush; [|done].
      destruct (last_line t r) as [[c v]|]; cbn [mbind option_bind]; [|done]. by rewrite app_assoc.
    + pose proof (length_join ls r). destruct ls; [|cbn in *; lia]. destruct r; [|cbn in *; lia]. destruct flush; cbn; by rewrite !app_nil_r.
Qed.

(** With a backup, which the first line takes. *)
Lemma convert_lines_backup p b buf after flush fuel : no_lf b -> backup p = None ->
  convert_lines g_utf8_validate (S fuel) (set_backup p (Some b)) buf 0 after flush =
    if (length buf <=? next_lf buf)%nat && negb flush then Some ([], buf, set_backup p (Some b))
    else convert_lines g_utf8_validate (S fuel) p (b ++ buf) 0 (0 :: after) flush.
Proof.
  intros F Bk. cbn [convert_lines Nat.add backup set_backup]. rewrite !drop_0, (next_lf_app b buf F).
  destruct (_ && _) eqn:E; [done|]. assert ((length (b ++ buf) <=? length b + next_lf buf)%nat && negb flush = false) as ->.
  { apply andb_false_iff in E as [E|E]; [|by rewrite E, andb_false_r]. apply Nat.leb_gt in E. rewrite (proj2 (Nat.leb_gt _ _)); [done|]. rewrite length_app. lia. }
  rewrite Bk. replace (set_backup (set_backup p (Some b)) None) with p; [done|]. destruct p; cbn in *; by subst.
Qed.

(** ** Chunks *)

(** A state with the start of a line. *)
Definition pending (b : list Z) (p : ToHTML) : ToHTML := match b with [] => p | _ => set_backup p (Some b) end.

Definition pre_step (p : ToHTML) : list Z * ToHTML :=
  if has p TOHTML_PRE && negb (pre_open p) then (bs "<pre>", set_pre p true) else ([], p).

Lemma pre_step_pending b p : pre_step (pending b p) = (fst (pre_step p), pending b (snd (pre_step p))).
Proof.
  unfold pre_step. destruct b as [|c b]; cbn [pending]; [by destruct (_ && _)|].
  change (has (set_backup p (Some (c :: b))) TOHTML_PRE) with (has p TOHTML_PRE). change (pre_open (set_backup p (Some (c :: b)))) with (pre_open p).
  by destruct (_ && _).
Qed.

Lemma pre_step_backup p : backup (snd (pre_step p)) = backup p.
Proof. unfold pre_step. by destruct (_ && _). Qed.

(** The loop on the bytes that came before and the new ones. *)
Lemma convert_lines_pending b p buf after flush ls r : no_lf b -> backup p = None -> Forall clean ls ->
  (flush = true -> r <> [] -> clean r /\ ended after) -> buf <> [] -> split_lines (b ++ buf) = (ls, r) ->
  convert_lines g_utf8_validate (S (length buf)) (pending b p) buf 0 after flush =
    match ls with
    | [] => if flush then '(a, p) ← last_line p r; Some (a, [], p) else Some ([], buf, pending b p)
    | _ => '(a, p) ← run_lines p ls; if flush then '(b, p) ← last_line p r; Some (a ++ b, [], p) else Some (a, r, p)
    end.
Proof.
  intros F Bk Cl Ga Nn Es. pose proof (split_lines_spec _ _ _ Es) as (Ej & Fl & Fr).
  assert (Ls : (length ls < S (length buf))%nat).
  { destruct (split_lines buf) as [ls2 r2] eqn:E2. pose proof (split_lines_spec _ _ _ E2) as (Ej2 & Fl2 & Fr2).
    assert (ls = [] \/ length ls = length ls2) as [->| ->]; [|cbn; lia|].
    { rewrite <- (app_nil_r b) in Es. destruct ls2 as [|l2 ls2]; [left|right].
      - rewrite Ej2 in Es. change (join [] r2) with r2 in Es. rewrite split_lines_tail in Es; [by injection Es as <- _|].
        apply Forall_app. split; [by rewrite app_nil_r|done].
      - rewrite app_nil_r, Ej2, join_cons, app_assoc, <- join_cons in Es. rewrite split_lines_join in Es; [|constructor|done].
        + by injection Es as <- _.
        + apply list.Forall_cons in Fl2 as [A _]. by apply Forall_app.
        + by apply list.Forall_cons in Fl2 as [_ A]. }
    rewrite Ej2. pose proof (length_join ls2 r2). lia. }
  assert (R : forall after, (flush = true -> r <> [] -> clean r /\ ended after) -> convert_lines g_utf8_validate (S (length buf)) p (b ++ buf) 0 after flush =
    '(a, p) ← run_lines p ls; if flush then '(b, p) ← last_line p r; Some (a ++ b, [], p) else Some (a, r, p)).
  { intros af Gaf. rewrite Ej. apply convert_lines_run; try done. rewrite <- Ej. by destruct b, buf. }
  destruct b as [|c b]; cbn [pending].
  - specialize (R after Ga). cbn [app] in R. rewrite R. cbn [app] in Ej. destruct ls; [|done]. cbn [run_lines mbind option_bind].
    destruct flush; [|by rewrite Ej]. by destruct (last_line p r) as [[a q]|].
  - rewrite convert_lines_backup by done. rewrite R by (intros E Nr; split; [by apply Ga|by apply ended_cons; right]).
    destruct ls as [|l ls].
    + change (join [] r) with r in Ej. rewrite (next_lf_tail buf), Nat.leb_refl by (rewrite <- Ej in Fr; by apply Forall_app in Fr as [_ ?]).
      destruct flush; cbn [andb negb]; [|done]. cbn [run_lines mbind option_bind]. by destruct (last_line p r) as [[a q]|].
    + assert (length buf <=? next_lf buf = false)%nat as ->; [|done]. apply Nat.leb_gt. rewrite join_cons in Ej.
      pose proof (next_lf_app (c :: b) buf F) as K. rewrite Ej in K. apply list.Forall_cons in Fl as [Fl _]. rewrite (next_lf_line l _ Fl) in K.
      apply (f_equal length) in Ej. rewrite !length_app in Ej. cbn in Ej, K. lia.
Qed.

Lemma html_convert_body p inb after flush : inb <> [] ->
  html_convert g_utf8_validate p inb after flush =
    let '(a, p) := pre_step p in
    '(b, rest, p) ← convert_lines g_utf8_validate (S (length inb)) p inb 0 after flush;
    if flush then
      let '(c, p) := match rest with [] => ([], p) | _ => writeln p rest end in
      let '(d, p) := close_all p in
      Some (a ++ b ++ c ++ d, p)
    else Some (a ++ b, match rest with [] => p | _ => set_backup p (Some (default [] (backup p) ++ rest)) end).
Proof. by destruct inb. Qed.

Lemma pending_more b c buf p : backup p = None ->
  set_backup (pending b p) (Some (default [] (backup (pending b p)) ++ c :: buf)) = pending (b ++ c :: buf) p.
Proof. intros Bk. destruct b; cbn [pending backup set_backup]; [by rewrite Bk|done]. Qed.

Lemma filter_step b p inb after ls r : no_lf b -> backup p = None -> inb <> [] -> Forall clean ls -> split_lines (b ++ inb) = (ls, r) ->
  html_convert g_utf8_validate (pending b p) inb after false =
    let '(a, q) := pre_step p in '(o, q) ← run_lines q ls; Some (a ++ o, pending r q).
Proof.
  intros F Bk Nn Cl Es. rewrite html_convert_body by done. rewrite pre_step_pending. pose proof (pre_step_backup p) as Bq.
  destruct (pre_step p) as [a q]. cbn [fst snd] in *. rewrite Bk in Bq.
  rewrite (convert_lines_pending b q inb after false ls r) by done. destruct ls as [|l ls].
  - cbn [mbind option_bind run_lines]. apply split_lines_spec in Es as (E & _). change (join [] r) with r in E.
    destruct inb as [|c inb]; [done|]. by rewrite pending_more, E by done.
  - destruct (run_lines_total q (l :: ls)) as (o & t & -> & (_ & _ & _ & Bt)); [by apply split_lines_spec in Es as (_ & Fl & _)|]. cbn [mbind option_bind].
    destruct r as [|c r]; [done|]. cbn [pending]. by rewrite Bt, Bq.
Qed.

(** The whole text at once. *)
Definition convert_whole (p : ToHTML) (t : list Z) : option (list Z * ToHTML) :=
  let '(a, p) := pre_step p in
  let '(ls, r) := split_lines t in
  '(b, p) ← run_lines p ls;
  '(c, p) ← last_line p r;
  let '(d, p) := close_all p in
  Some (a ++ (b ++ c) ++ d, p).

(** All lines of a text are. *)
Definition clean_text (t : list Z) : Prop := let '(ls, r) := split_lines t in Forall clean ls /\ clean r.

Lemma clean_text_app t u ls r : split_lines t = (ls, r) -> clean_text (t ++ u) -> Forall clean ls /\ clean_text (r ++ u).
Proof.
  intros E. unfold clean_text. destruct (split_lines (r ++ u)) as [ls2 r2] eqn:E2. rewrite (split_lines_app _ _ _ _ _ _ E E2).
  rewrite Forall_app. tauto.
Qed.

Lemma convert_lines_ahead b p after flush fuel : no_lf b ->
  convert_lines g_utf8_validate (S fuel) p b (length b) after flush = convert_lines g_utf8_validate (S fuel) p b 0 after flush.
Proof.
  intros F. cbn [convert_lines Nat.add]. rewrite drop_0, (next_lf_tail b F), drop_all. cbn [next_lf index_where length]. by rewrite Nat.add_0_r.
Qed.

Lemma complete_step b p last after : no_lf b -> backup p = None -> clean_text (b ++ last) -> last = [] \/ ended after ->
  b ++ last <> [] \/ (has p TOHTML_PRE = true -> pre_open p = true) ->
  html_convert g_utf8_validate (pending b p) last after true = convert_whole p (b ++ last).
Proof.
  intros F Bk Ct Ea C. unfold convert_whole. unfold clean_text in Ct. destruct (split_lines (b ++ last)) as [ls r] eqn:Es. destruct Ct as [Cl Cr]. destruct last as [|x last]; [destruct b as [|c b]|].
  - destruct C as [C|C]; [done|]. injection Es as <- <-. unfold html_convert, pre_step. cbn [pending]. rewrite Bk.
    assert (has p TOHTML_PRE && negb (pre_open p) = false) as ->.
    { destruct (has p TOHTML_PRE); [|done]. by rewrite C. }
    cbn [run_lines last_line mbind option_bind app]. destruct (negb (pre_open p) && negb (div_open p) && (blockquote_depth p =? 0)%nat) eqn:N; [|by destruct (close_all p)].
    apply andb_true_iff in N as [[N1%negb_true_iff N2%negb_true_iff]%andb_true_iff N3%Nat.eqb_eq].
    unfold close_all, close_div. rewrite N2, N3. cbn [close_quotes]. unfold close_pre. by rewrite N1.
  - rewrite app_nil_r in Es. pose proof (split_lines_tail _ F) as E'. rewrite Es in E'. injection E' as -> ->.
    unfold html_convert. change (backup (pending (c :: b) p)) with (Some (c :: b)). cbv beta iota.
    replace (set_backup (pending (c :: b) p) None) with p by (destruct p; cbn in *; by subst).
    fold (pre_step p). pose proof (pre_step_backup p) as Bq. destruct (pre_step p) as [a q]. cbn [fst snd] in *. rewrite Bk in Bq.
    rewrite convert_lines_ahead by done. pose proof (convert_lines_run [] (c :: b) q (0 :: after) true (S (length (c :: b)))) as R.
    change (join [] (c :: b)) with (c :: b) in R. rewrite R; [|done..| |intros _ _; split; [done|by apply ended_cons; right]|cbn; lia]; [|constructor]. cbn [run_lines mbind option_bind].
    destruct (last_line q (c :: b)) as [[o t]|]; cbn [mbind option_bind app]; [|done]. by destruct (close_all t).
  - rewrite html_convert_body by done. rewrite pre_step_pending. pose proof (pre_step_backup p) as Bq.
    destruct (pre_step p) as [a q]. cbn [fst snd] in *. rewrite Bk in Bq.
    destruct Ea as [Ea|Ea]; [done|]. rewrite (convert_lines_pending b q (x :: last) after true ls r) by done.
    destruct ls as [|l ls]; [|destruct (run_lines q (l :: ls)) as [[o t]|]]; cbn [run_lines mbind option_bind]; try done.
    + destruct (last_line q r) as [[o t]|]; cbn [mbind option_bind app]; [|done]. by destruct (close_all t).
    + destruct (last_line t r) as [[o2 t2]|]; cbn [mbind option_bind app]; [|done]. by destruct (close_all t2).
Qed.

Definition chunk_ok (ca : list Z * list Z) : Prop := fst ca <> [].

Lemma convert_text_cons p c af chunks last after : convert_text g_utf8_validate p ((c, af) :: chunks) last after =
  '(a, q) ← html_convert g_utf8_validate p c af false; '(b, q) ← convert_text g_utf8_validate q chunks last after; Some (a ++ b, q).
Proof.
  unfold convert_text. cbn [filter_all]. unfold mime_filter_tohtml_filter. destruct (html_convert _ p c af false) as [[a q]|]; [|done]. cbn [mbind option_bind].
  destruct (filter_all _ q chunks) as [[b t]|]; [|done]. cbn [mbind option_bind]. destruct (mime_filter_tohtml_complete _ t last after) as [[d v]|]; [|done].
  cbn [mbind option_bind]. by rewrite app_assoc.
Qed.

(** PRE is open after the first lines. *)
Lemma pre_step_opened p a q t : pre_step p = (a, q) -> same_setup q t -> has t TOHTML_PRE = true -> pre_open t = true.
Proof.
  intros Ep (Ft & _ & Ot & _). unfold has. rewrite Ft, Ot. unfold pre_step in Ep.
  destruct (has p TOHTML_PRE && negb (pre_open p)) eqn:E; injection Ep as <- <-; [done|]. intros Hp. unfold has in E. rewrite Hp in E. by destruct (pre_open p).
Qed.

Lemma convert_whole_split p a q b c u ls r o t : pre_step p = (a, q) -> split_lines (b ++ c) = (ls, r) -> run_lines q ls = Some (o, t) -> same_setup q t ->
  convert_whole p (b ++ c ++ u) = '(x, v) ← convert_whole t (r ++ u); Some ((a ++ o) ++ x, v).
Proof.
  intros Ep Es Eo St. unfold convert_whole. rewrite Ep. destruct (split_lines (r ++ u)) as [ls2 r2] eqn:E2.
  rewrite app_assoc, (split_lines_app _ _ _ _ _ _ Es E2), run_lines_app, Eo. cbn [mbind option_bind].
  assert (pre_step t = ([], t)) as ->.
  { unfold pre_step. destruct (has t TOHTML_PRE) eqn:Hp; [|done]. by rewrite (pre_step_opened p a q t Ep St Hp). }
  destruct (run_lines t ls2) as [[y1 w]|]; [|done]. cbn [mbind option_bind]. destruct (last_line w r2) as [[y2 w2]|]; [|done]. cbn [mbind option_bind].
  destruct (close_all w2) as [d w3]. cbn [mbind option_bind app]. by rewrite <- !app_assoc.
Qed.

Lemma convert_text_whole chunks b p last after : no_lf b -> backup p = None -> Forall chunk_ok chunks -> clean_text (b ++ concat (map fst chunks) ++ last) -> last = [] \/ ended after ->
  b ++ concat (map fst chunks) ++ last <> [] \/ (has p TOHTML_PRE = true -> pre_open p = true) ->
  convert_text g_utf8_validate (pending b p) chunks last after = convert_whole p (b ++ concat (map fst chunks) ++ last).
Proof.
  intros F Bk Fc Ct Ga. revert b p F Bk Ct; induction Fc as [|[c af] chunks Nc Fc IH]; intros b p F Bk Ct C; cbn [map concat fst app].
  { unfold convert_text, mime_filter_tohtml_complete. cbn [filter_all mbind option_bind]. rewrite complete_step by done.
    by destruct (convert_whole p (b ++ last)) as [[o t]|]. }
  destruct (split_lines (b ++ c)) as [ls r] eqn:Es. pose proof (split_lines_spec _ _ _ Es) as (_ & Fl & Fr).
  cbn [map concat fst] in Ct. rewrite <- app_assoc, app_assoc in Ct. destruct (clean_text_app _ _ _ _ Es Ct) as [Cl Cr].
  rewrite convert_text_cons, (filter_step b p c af ls r) by done. destruct (pre_step p) as [a q] eqn:Ep.
  destruct (run_lines_total q ls Fl) as (o & t & Eo & St). rewrite Eo. cbn [mbind option_bind].
  rewrite <- app_assoc, (convert_whole_split p a q b c _ ls r o t Ep Es Eo St), IH; [done|done| |done|right; by eapply pre_step_opened].
  destruct St as (_ & _ & _ & ->). pose proof (pre_step_backup p) as Bq. rewrite Ep, Bk in Bq. done.
Qed.

Lemma convert_whole_total p t : exists r, convert_whole p t = Some r.
Proof.
  unfold convert_whole. destruct (pre_step p) as [a q]. destruct (split_lines t) as [ls r] eqn:E. apply split_lines_spec in E as (_ & Fl & Fr).
  destruct (run_lines_total q ls Fl) as (o & v & -> & _). cbn [mbind option_bind]. destruct (last_line_total v r Fr) as (o2 & w & -> & _). cbn [mbind option_bind].
  destruct (close_all w). by eexists.
Qed.

(** Converting a text in chunks that are not empty gives the bytes and the state that
    converting it at once gives, whatever is in memory behind the chunks, when the
    lines are [clean] and a line feed or NUL is behind the last chunk; and it is then
    always defined: no loop runs on for ever and nothing else outside of the text is
    read. *)
Lemma html_chunks (f c : Z) (chunks : list (list Z * list Z)) (last after after2 : list Z) :
  Forall chunk_ok chunks -> clean_text (concat (map fst chunks) ++ last) -> last = [] \/ ended after -> ended after2 ->
  exists r, convert_text g_utf8_validate (tohtml_new f c) chunks last after = Some r /\
            convert_text g_utf8_validate (tohtml_new f c) [] (concat (map fst chunks) ++ last) after2 = Some r.
Proof.
  intros Fc Ct Ga Ga2. destruct (decide (concat (map fst chunks) ++ last = [])) as [E|N].
  - rewrite E. apply app_eq_nil in E as [E ->]. destruct chunks as [|[x af] chunks].
    + by eexists.
    + apply list.Forall_cons in Fc as [Nx _]. cbn in E. unfold chunk_ok in Nx. cbn in Nx. by destruct x.
  - destruct (convert_whole_total (tohtml_new f c) (concat (map fst chunks) ++ last)) as [r Er]. exists r. split.
    + rewrite (convert_text_whole chunks [] (tohtml_new f c)); [done|constructor|done..|by left].
    + rewrite (convert_text_whole [] [] (tohtml_new f c)); [done|constructor|done|constructor|done|by right|by left].
Qed.
End stream.
