(* ===== verification/ToHtmlUrls.v ===== *)
(** * ToHtmlUrls: the filter with its scanner of URLs

    The patterns of camel-mime-filter-tohtml.c, the scanner that
    [camel_mime_filter_tohtml_new] builds from them, and the proof that this
    scanner is what the filter needs ([UrlScanSpec]): the words of the patterns
    are closed, so that a search never ends without the identifier of a pattern,
    and converting a host name to ASCII keeps a link as long as its prefix. *)

From Stdlib Require Import ZArith Lia Ascii.
From stdpp Require Import base list strings gmap numbers option.
From S2P Require Import Prelude Utf8 StringUtils CamelUrl HostnameUtils Trie TrieInv TrieSpec UrlScanner UrlScannerSpec ToHtml ToHtmlSpec ToHtmlStream.

(** ** The patterns *)

Section patterns.
Context (regex_match : list Z -> list Z -> option (Z * Z)).

Definition web (p pre : string) : Z * CamelUrlPattern :=
  (TOHTML_CONVERT_URLS, Pattern (bs p) (bs pre) camel_url_web_start (camel_url_web_end regex_match)).

Definition tohtml_patterns : list (Z * CamelUrlPattern) := [
  (TOHTML_CONVERT_URLS, Pattern (bs "file://") [] camel_url_file_start (camel_url_file_end regex_match));
  web "ftp://" ""; web "sftp://" ""; web "http://" ""; web "https://" ""; web "news://" ""; web "nntp://" "";
  web "telnet://" ""; web "webcal://" ""; web "webcals://" ""; web "mailto:" ""; web "callto:" ""; web "h323:" "";
  web "sip:" ""; web "www." "http://"; web "ftp." "ftp://";
  (TOHTML_CONVERT_ADDRESSES, Pattern (bs "@") (bs "mailto:") camel_url_addrspec_start camel_url_addrspec_end)].

Definition wanted (flags : Z) (mp : Z * CamelUrlPattern) : bool := negb (Z.land (fst mp) flags =? 0).

Section scanner.
Context (tl : Z -> Z).

(** The loop of [camel_mime_filter_tohtml_new]. *)
Fixpoint add_patterns (flags : Z) (sc : CamelUrlScanner) (l : list (Z * CamelUrlPattern)) : option CamelUrlScanner :=
  match l with
  | [] => Some sc
  | mp :: l => sc ← if wanted flags mp then camel_url_scanner_add tl sc (snd mp) else Some sc; add_patterns flags sc l
  end.

Definition tohtml_scanner (flags : Z) : option CamelUrlScanner := add_patterns flags camel_url_scanner_new tohtml_patterns.

(** The scanner of a filter, as the filter calls it. *)
Definition scanner_of (validate : list Z -> option nat) `{ICU} (sc : CamelUrlScanner) : UrlScan := {|
  url_scan mem n := camel_url_scanner_scan tl (fun s => match validate s with None => true | Some _ => false end) sc mem n (Match [] [] 0 0);
  sanitize s := camel_utils_sanitize_ascii_domain_in_url_str (Some s) |}.

(** ** The identifiers *)

(** The words are those of the patterns, the identifiers their places. *)
Definition scanner_inv (sc : CamelUrlScanner) : Prop := exists W P, trie_inv W P (trie sc) /\ icase (trie sc) = true /\
  (forall w, is_Some (P !! w) <-> exists p, p ∈ patterns sc /\ w = word tl true (pattern p)) /\
  forall w i, P !! w = Some i -> 0 <= i < Z.of_nat (length (patterns sc)).

Lemma scanner_add_inv sc p : scanner_inv sc -> exists sc', camel_url_scanner_add tl sc p = Some sc' /\ scanner_inv sc' /\ patterns sc' = patterns sc ++ [p].
Proof.
  intros (W & P & TI & Ei & Hd & Hr). unfold camel_url_scanner_add.
  destruct (trie_add_inv tl W P (trie sc) (pattern p) (Z.of_nat (length (patterns sc))) TI) as (W' & t' & -> & Ei' & TI').
  eexists. split_and!; [done| |done]. rewrite Ei in *. exists W', (<[word tl true (pattern p) := Z.of_nat (length (patterns sc))]> P). cbn. split_and!; [done|congruence|..].
  - intros w. rewrite lookup_insert_is_Some', Hd. split.
    + intros [<-|(q & Hq & ->)]; [exists p|exists q]; (split; [apply elem_of_app|done]); [right; by left|by left].
    + intros (q & [Hq|Hq]%elem_of_app & ->); [right; by exists q|]. apply list_elem_of_singleton in Hq as ->. by left.
  - intros w i Hi. rewrite length_app. cbn. apply lookup_insert_Some in Hi as [[_ <-]|[_ Hi]]; [lia|]. apply Hr in Hi. lia.
Qed.

Lemma scanner_new_inv : scanner_inv camel_url_scanner_new.
Proof.
  exists {[ROOT := []]}, ∅. split_and!; [apply trie_new_inv|done|..].
  - intros w. rewrite lookup_empty. split; [by intros [? ?]|]. by intros (q & Hq%not_elem_of_nil & _).
  - intros w i Hi. by rewrite lookup_empty in Hi.
Qed.

Lemma add_patterns_inv flags sc l : scanner_inv sc -> exists sc', add_patterns flags sc l = Some sc' /\ scanner_inv sc' /\
  patterns sc' = patterns sc ++ map snd (List.filter (wanted flags) l).
Proof.
  revert sc; induction l as [|mp l IH]; intros sc I; cbn [add_patterns List.filter map]; [exists sc; by rewrite app_nil_r|].
  destruct (wanted flags mp); cbn [mbind option_bind map]; [|by apply IH].
  destruct (scanner_add_inv sc (snd mp) I) as (sc1 & -> & I1 & E1). cbn [mbind option_bind].
  destruct (IH sc1 I1) as (sc2 & -> & I2 & E2). exists sc2. split_and!; [done..|]. by rewrite E2, E1, <- app_assoc.
Qed.

(** Every start of a word that a word is a suffix of is a word. *)
Definition prefixes (w : list Z) : list (list Z) := map (fun k => take k w) (seq 0 (S (length w))).
Definition suffix_eqb (p v : list Z) : bool := (length p <=? length v)%nat && bytes_eqb (drop (length v - length p) v) p.
Definition closed_words (ws : list (list Z)) : bool :=
  forallb (fun w => forallb (fun v =>
    negb (existsb (fun p => (0 <? length p)%nat && suffix_eqb p v) ws) || existsb (bytes_eqb v) ws) (prefixes w)) ws.

Lemma prefixes_spec v w : v `prefix_of` w -> v ∈ prefixes w.
Proof.
  intros [k ->]. apply list_elem_of_fmap. exists (length v). split; [by rewrite take_app_length|].
  apply elem_of_seq. rewrite length_app. lia.
Qed.

Lemma suffix_eqb_spec p v : p `suffix_of` v -> suffix_eqb p v = true.
Proof.
  intros [k ->]. unfold suffix_eqb. rewrite length_app. rewrite (proj2 (Nat.leb_le _ _)) by lia.
  apply bytes_eqb_eq. by rewrite drop_app_length' by lia.
Qed.

Lemma closed_words_ok sc : scanner_inv sc -> closed_words (map (fun p => word tl true (pattern p)) (patterns sc)) = true -> scanner_ok sc.
Proof.
  intros (W & P & TI & Ei & Hd & Hr) C. exists W, P. split; [done|]. intros v Nv (p & Hp & Np & Sp).
  set (ws := map _ _) in C. assert (In_ws : forall w, is_Some (P !! w) -> In w ws).
  { intros w (q & Hq & ->)%Hd. apply in_map_iff. exists q. split; [done|by apply list_elem_of_In]. }
  assert (exists w, In w ws /\ v `prefix_of` w) as (w & Hw & Pv).
  { destruct (ti_nodes _ _ _ TI v Nv) as [->|(w & Hw & Pv)]; [exists p; split; [by apply In_ws|apply prefix_nil]|]. exists w. split; [by apply In_ws|done]. }
  unfold closed_words in C. rewrite forallb_forall in C. specialize (C w Hw). rewrite forallb_forall in C.
  specialize (C v ltac:(by apply list_elem_of_In, prefixes_spec)).
  apply orb_true_iff in C as [C|C].
  - apply negb_true_iff in C. exfalso. eapply eq_true_false_abs; [|exact C]. apply existsb_exists. exists p. split; [by apply In_ws|].
    rewrite suffix_eqb_spec by done. by destruct p.
  - apply existsb_exists in C as (x & Hx & E%bytes_eqb_eq). subst x. apply in_map_iff in Hx as (q & E & Hq).
    assert (is_Some (P !! v)) as [i Hi] by (apply Hd; exists q; split; [by apply list_elem_of_In|done]). exists i. split; [done|by eapply Hr].
Qed.

(** [g_unichar_tolower] leaves small letters, digits and punctuation alone. *)
Definition lower_char (c : Z) : bool := ((33 <=? c) && (c <=? 64)) || ((97 <=? c) && (c <=? 122)).
Context (tl_lower : forall c, lower_char c = true -> tl c = c).

Lemma word_lower s : decode (S (length s)) s = s -> forallb lower_char s = true -> word tl true s = s.
Proof.
  intros D F. unfold word. rewrite D. clear D. induction s as [|c s IH]; [done|]. cbn in F |- *. apply andb_true_iff in F as [C F].
  by rewrite tl_lower, IH.
Qed.

(** The words of the chosen patterns, by the two flags. *)
Definition chosen (urls addresses : bool) : list CamelUrlPattern :=
  (if urls then map snd (take 16 tohtml_patterns) else []) ++ (if addresses then map snd (drop 16 tohtml_patterns) else []).

Lemma chosen_filter flags : map snd (List.filter (wanted flags) tohtml_patterns) =
  chosen (negb (Z.land TOHTML_CONVERT_URLS flags =? 0)) (negb (Z.land TOHTML_CONVERT_ADDRESSES flags =? 0)).
Proof.
  unfold tohtml_patterns, wanted, chosen, web. cbn [List.filter fst].
  destruct (negb (Z.land TOHTML_CONVERT_URLS flags =? 0)), (negb (Z.land TOHTML_CONVERT_ADDRESSES flags =? 0)); reflexivity.
Qed.

Lemma chosen_words u a : map (fun p => word tl true (pattern p)) (chosen u a) = map pattern (chosen u a).
Proof.
  apply map_ext_in. intros p Hp.
  assert (Hp' : In p (chosen true true)).
  { unfold chosen in *. rewrite in_app_iff in Hp |- *. destruct u, a; cbn [In] in Hp; tauto. }
  assert (F : forallb (fun p => bytes_eqb (decode (S (length (pattern p))) (pattern p)) (pattern p) && forallb lower_char (pattern p)) (chosen true true) = true) by (vm_compute; reflexivity).
  rewrite forallb_forall in F. specialize (F p Hp'). apply andb_true_iff in F as [D%bytes_eqb_eq L]. by apply word_lower.
Qed.

Lemma chosen_closed u a : closed_words (map pattern (chosen u a)) = true.
Proof. destruct u, a; vm_compute; reflexivity. Qed.

Lemma tohtml_scanner_ok flags : exists sc, tohtml_scanner flags = Some sc /\ scanner_ok sc /\
  forall pat, pat ∈ patterns sc -> pat ∈ chosen true (negb (Z.land TOHTML_CONVERT_ADDRESSES flags =? 0)).
Proof.
  destruct (add_patterns_inv flags camel_url_scanner_new tohtml_patterns scanner_new_inv) as (sc & E & I & Ep).
  exists sc. cbn [patterns camel_url_scanner_new app] in Ep. rewrite chosen_filter in Ep. split_and!; [done|..].
  - apply closed_words_ok; [done|]. rewrite Ep, chosen_words. apply chosen_closed.
  - rewrite Ep. intros pat. unfold chosen. rewrite !elem_of_app. intros [H|H]; [left; destruct (negb _) in H; [done|by apply not_elem_of_nil in H]|by right].
Qed.

(** ** The functions of the patterns *)

Context (url_law : starts_with_letter regex_match URL_PATTERN) (file_law : starts_with_letter regex_match FILE_PATTERN).

Lemma chosen_funcs a line pat : pat ∈ chosen true a -> start_ok a line (start pat) /\ end_ok a line (end_ pat).
Proof.
  intros H. apply list_elem_of_In in H. unfold chosen in H. destruct a; cbn in H.
  all: repeat (destruct H as [<-|H]; [cbn; split; first [apply web_start_ok|apply file_start_ok|by apply addrspec_start_ok|apply pattern_end_ok; assumption|apply addrspec_end_ok]|]).
  all: destruct H.
Qed.

(** The prefixes: nothing, or a protocol. *)
Definition link_prefix (pre : list Z) : Prop := pre ∈ [[]; bs "http://"; bs "ftp://"; bs "mailto:"].

Lemma chosen_prefix a pat : pat ∈ chosen true a -> link_prefix (prefix_ pat).
Proof.
  intros H'. assert (H : pat ∈ chosen true true) by (unfold chosen in *; rewrite elem_of_app in *; destruct a; [done|]; destruct H' as [?|E]; [by left|by apply not_elem_of_nil in E]). assert (F : forallb (fun pat => existsb (bytes_eqb (prefix_ pat)) [[]; bs "http://"; bs "ftp://"; bs "mailto:"]) (chosen true true) = true) by (vm_compute; reflexivity).
  rewrite forallb_forall in F. specialize (F pat ltac:(by apply list_elem_of_In)). apply existsb_exists in F as (x & Hx & E%bytes_eqb_eq).
  unfold link_prefix. rewrite E. by apply list_elem_of_In.
Qed.
End scanner.
End patterns.

(** ** Links keep their prefix *)

Section links.
Context `{ICU}.

Lemma url_new_total s : exists r, camel_url_new (Some s) = Some r.
Proof.
  destruct s as [|c s]; [by eexists|]. unfold camel_url_new, camel_url_new_with_base.
  destruct (split_fragment (c :: s)) as [body frag]. destruct (if _ && _ then _ else _) as [proto rest].
  destruct (_ && _ && _); [by eexists|]. destruct (if prefix_eqb _ _ then _ else _) as [u rest']. by eexists.
Qed.

Lemma parse_authority_protocol u s : protocol (fst (parse_authority u s)) = protocol u.
Proof.
  unfold parse_authority. destruct (match strchr s (ch "@") with Some a => _ | None => _ end) as [[v t] k] eqn:E.
  assert (protocol v = protocol u) as <-.
  { destruct (strchr s (ch "@")) as [a|]; [destruct (a <? cspn_slash s)%nat; [destruct (parse_user s a)|]|]; by injection E as <- _ _. }
  by destruct (parse_host t k).
Qed.

Lemma parse_rest_protocol u s more : protocol (parse_rest u s more) = protocol u.
Proof.
  unfold parse_rest, parse_query, parse_params. destruct (strchr s (ch "?")) as [q|]; [destruct (non_empty _ || more)|];
    match goal with |- context [strchr ?t (ch ";")] => destruct (strchr t (ch ";")) end; by destruct (non_empty _).
Qed.

(** The protocol of a text that starts with one. *)
Lemma url_new_protocol p x u : p <> [] -> Forall (fun c => is_proto c = true /\ c <> ch "#") p -> map tolower p = p ->
  camel_url_new (Some (p ++ ch ":" :: x)) = Some (Some u) -> protocol u = Some p.
Proof.
  intros Np F Lo. set (s := p ++ ch ":" :: x).
  assert (Es : fst (split_fragment s) = p ++ ch ":" :: fst (split_fragment x)).
  { unfold split_fragment, strchr, s. rewrite (index_where_app _ p).
    - cbn [index_where]. change (ch "#" =? ch ":") with false. cbv iota. destruct (index_where (Z.eqb (ch "#")) x) as [i|]; cbn; [|done].
      rewrite take_app_ge by lia. f_equal. by replace (length p + S i - length p)%nat with (S i) by lia.
    - apply list.Forall_forall. intros c Hc. rewrite list.Forall_forall in F. apply Z.eqb_neq. intros E. by apply (F c Hc). }
  assert (Lp : forall y, proto_length (p ++ ch ":" :: y) = length p).
  { intros y. clear -F. induction F as [|c p [C _] F IH]; [done|]. cbn [app proto_length length]. by rewrite C, IH. }
  assert (Hu : forall w, camel_url_new_with_base None s = Some w -> protocol w = Some p).
  { intros w. unfold camel_url_new_with_base. destruct (split_fragment s) as [body frag]. cbn in Es. subst body. rewrite Lp.
    assert (0 <? length p = true)%nat as -> by (apply Nat.ltb_lt; destruct p; [done|cbn; lia]).
    assert (nth (length p) s 0 = ch ":") as -> by (unfold s; by rewrite nth_middle). rewrite Z.eqb_refl. cbn [andb].
    rewrite take_app_length, Lo. destruct (_ && _ && _); [by intros [= <-]|].
    destruct (prefix_eqb (bs "//") _).
    - match goal with |- context [parse_authority ?v ?t] => pose proof (parse_authority_protocol v t) as Ea; destruct (parse_authority v t) as [w' r] end.
      intros [= <-]. rewrite parse_rest_protocol. exact Ea.
    - intros [= <-]. by rewrite parse_rest_protocol. }
  unfold camel_url_new. destruct s as [|c s'] eqn:E; [done|]. destruct (camel_url_new_with_base None (c :: s')) as [w|]; cbn [mbind option_bind]; [|done].
  specialize (Hu w eq_refl). rewrite Hu. cbn [non_null]. by intros [= <-].
Qed.

Lemma to_string_length u p : protocol u = Some p ->
  (length p + 1 + (if non_null (host u) then 2 else 0) <= length (camel_url_to_string u 0))%nat.
Proof.
  intros E. unfold camel_url_to_string. rewrite E. rewrite !length_app. destruct (host u); cbn [non_null]; rewrite ?length_app; cbn [length bs]; lia.
Qed.

(** The conversion keeps the protocol, and a URL that is no mailto: has a host. *)
Lemma sanitize_converted u u' : camel_utils_sanitize_ascii_domain_in_url u = (true, u') ->
  protocol u' = protocol u /\ (is_mailto (protocol u) = true \/ non_null (host u') = true).
Proof.
  unfold camel_utils_sanitize_ascii_domain_in_url.
  destruct (host u) as [h|] eqn:Eh; [destruct (camel_hostname_utils_requires_ascii (Some h)); [intros [= <-]; split; [done|by right]|done]|].
  destruct (path u) as [pa|]; [|done]. destruct (is_mailto (protocol u)); [|done].
  destruct (strchr pa (ch "@")); [destruct (camel_hostname_utils_requires_ascii _); [intros [= <-]; split; [done|by left]|]|];
    (destruct (camel_hostname_utils_requires_ascii _); [intros [= <-]; split; [done|by left]|done]).
Qed.

Lemma sanitize_total s : exists r, camel_utils_sanitize_ascii_domain_in_url_str (Some s) = Some r.
Proof.
  unfold camel_utils_sanitize_ascii_domain_in_url_str. destruct (camel_string_is_all_ascii _); [by eexists|].
  destruct (url_new_total s) as [r ->]. by eexists.
Qed.

Lemma sanitize_length pre x s' : link_prefix pre -> camel_utils_sanitize_ascii_domain_in_url_str (Some (pre ++ x)) = Some (Some s') ->
  (length pre <= length s')%nat.
Proof.
  intros Hp. unfold camel_utils_sanitize_ascii_domain_in_url_str. destruct (camel_string_is_all_ascii _); [done|].
  destruct (camel_url_new (Some (pre ++ x))) as [[u|]|] eqn:Eu; cbn [mbind option_bind]; [|done..].
  destruct (camel_utils_sanitize_ascii_domain_in_url u) as [[|] u'] eqn:Es; [|done]. intros [= <-].
  destruct (sanitize_converted _ _ Es) as [Ep Hm]. unfold link_prefix in Hp.
  assert (K : forall p, p <> [] -> Forall (fun c => is_proto c = true /\ c <> ch "#") p -> map tolower p = p ->
    (exists y, pre ++ x = p ++ ch ":" :: y) -> protocol u' = Some p).
  { intros p Np F Lo [y E]. rewrite Ep. rewrite E in Eu. by eapply url_new_protocol. }
  apply elem_of_cons in Hp as [->|Hp]; [cbn; lia|]. apply elem_of_cons in Hp as [->|Hp].
  { specialize (K (bs "http") ltac:(done) ltac:(repeat (apply list.Forall_cons_2; [split; [reflexivity|discriminate]|]); constructor) eq_refl ltac:(by eexists)).
    pose proof (to_string_length u' _ K) as L. rewrite <- Ep, K in Hm. destruct Hm as [Hm|Hm]; [done|]. rewrite Hm in L. exact L. }
  apply elem_of_cons in Hp as [->|Hp].
  { specialize (K (bs "ftp") ltac:(done) ltac:(repeat (apply list.Forall_cons_2; [split; [reflexivity|discriminate]|]); constructor) eq_refl ltac:(by eexists)).
    pose proof (to_string_length u' _ K) as L. rewrite <- Ep, K in Hm. destruct Hm as [Hm|Hm]; [done|]. rewrite Hm in L. exact L. }
  apply list_elem_of_singleton in Hp as ->.
  specialize (K (bs "mailto") ltac:(done) ltac:(repeat (apply list.Forall_cons_2; [split; [reflexivity|discriminate]|]); constructor) eq_refl ltac:(by eexists)).
  pose proof (to_string_length u' _ K) as L. etrans; [|exact L]. cbn. lia.
Qed.
End links.

(** ** The whole filter *)

Section filter.
Context (regex_match : list Z -> list Z -> option (Z * Z)) (tl : Z -> Z) (validate : list Z -> option nat) `{ICU}.

Lemma link_url_text line m pre : m_prefix m = pre -> link_prefix pre -> exists x,
  cstr (m_prefix m ++ take (Z.to_nat (um_eo m - um_so m)) (drop (Z.to_nat (um_so m)) line)) = pre ++ x.
Proof.
  intros -> Hp. unfold link_prefix in Hp.
  repeat (apply elem_of_cons in Hp as [->|Hp]; [eexists; reflexivity|]). by apply not_elem_of_nil in Hp.
Qed.

(** The scanner keeps the promises of the interface. *)
Definition scanner_spec (sc : CamelUrlScanner) (ad : bool) (So : scanner_ok sc)
    (Po : forall line, patterns_ok sc ad line) (Pp : forall pat, pat ∈ patterns sc -> link_prefix (prefix_ pat)) :
  @UrlScanSpec (scanner_of tl validate sc).
Proof.
  set (v := fun s => match validate s with None => true | Some _ => false end).
  set (scan := fun line : list Z => default (false, Match [] [] 0 0) (camel_url_scanner_scan tl v sc (line ++ [0; ch "a"]) (length line) (Match [] [] 0 0))).
  assert (E : forall line, match_ok sc line (scan line) /\ forall after, good_after ad line after ->
    camel_url_scanner_scan tl v sc (line ++ after) (length line) (Match [] [] 0 0) = Some (scan line)).
  { intros line. destruct (scanner_scan_loc tl sc ad line v (Match [] [] 0 0) So (Po line)) as (r & Hr & Er).
    assert (scan line = r) as -> by (unfold scan; rewrite Er; [done|split; [by exists 0, [ch "a"]; auto|by right]]). done. }
  refine (@Build_UrlScanSpec (scanner_of tl validate sc) ad scan _ _ _).
  - intros line after G. by apply E.
  - intros line m Em. destruct (proj1 (E line)) as (B1 & B2 & _); [by rewrite Em|]. by rewrite Em in B1, B2.
  - intros line m Em. destruct (proj1 (E line)) as (_ & _ & pat & Hp & Epre); [by rewrite Em|]. rewrite Em in Epre. cbn in Epre.
    pose proof (Pp pat Hp) as Lp. rewrite <- Epre in Lp. destruct (link_url_text line m _ eq_refl Lp) as [x Ex].
    unfold link_url. rewrite Ex. cbn [sanitize scanner_of]. destruct (sanitize_total (m_prefix m ++ x)) as [[s'|] Es]; rewrite Es; cbn [mbind option_bind].
    + eexists. split; [done|]. by eapply sanitize_length.
    + eexists. split; [done|]. rewrite length_app. lia.
Defined.

(** Every line of the text is scanned without a search that leaves it. *)
Definition bounded_text (t : list Z) : bool := let '(ls, r) := split_lines t in forallb at_bounded ls && at_bounded r.

(** C29. The filter builds its scanner for any flags.  A text that is converted in
    chunks that are not empty gives the bytes and the state that it gives at once,
    and that is always defined: no loop runs on for ever, no array index is wrong,
    and no byte is read but those of the text and the one behind the last chunk,
    whatever is in memory behind the others.

    The conditions: the byte behind the last chunk, unless that is empty, is NUL or
    a line feed; and unless the flag to convert addresses is off, every "@" of the
    text is followed in its line by a character of an atom that is no opening
    bracket ([at_bounded]).  Without one the search for the start of an address
    reads on behind the text ([addrspec_reads_on], for "(@)"). *)
Theorem html_chunks_irrelevant (f c : Z) (chunks : list (list Z * list Z)) (last after after2 : list Z) :
  (forall c, lower_char c = true -> tl c = c) ->
  starts_with_letter regex_match URL_PATTERN -> starts_with_letter regex_match FILE_PATTERN ->
  Forall chunk_ok chunks -> last = [] \/ ended after -> ended after2 ->
  Z.land TOHTML_CONVERT_ADDRESSES f = 0 \/ bounded_text (concat (map fst chunks) ++ last) = true ->
  exists sc r, tohtml_scanner regex_match tl f = Some sc /\
    @convert_text validate (scanner_of tl validate sc) (tohtml_new f c) chunks last after = Some r /\
    @convert_text validate (scanner_of tl validate sc) (tohtml_new f c) [] (concat (map fst chunks) ++ last) after2 = Some r.
Proof.
  intros Ht Hu Hf Fc Ga Ga2 Bt. destruct (tohtml_scanner_ok regex_match tl Ht f) as (sc & E & So & Hp).
  set (ad := negb (Z.land TOHTML_CONVERT_ADDRESSES f =? 0)) in Hp.
  assert (Po : forall line, patterns_ok sc ad line) by (intros line pat Hpat; by apply (chosen_funcs regex_match Hu Hf ad line pat), Hp).
  assert (Pp : forall pat, pat ∈ patterns sc -> link_prefix (prefix_ pat)) by (intros pat Hpat; by eapply chosen_prefix, Hp).
  assert (Ct : @clean_text _ (scanner_spec sc ad So Po Pp) (concat (map fst chunks) ++ last)).
  { unfold clean_text, bounded_text, clean in *. destruct (split_lines _) as [ls r]. cbn. destruct Bt as [Bt|[B1 B2]%andb_true_iff].
    - unfold ad. rewrite Bt. split; [by apply list.Forall_forall|done].
    - split; [|done]. apply list.Forall_forall. intros l Hl _. rewrite forallb_forall in B1. by apply B1, list_elem_of_In. }
  destruct (@html_chunks validate (scanner_of tl validate sc) (scanner_spec sc ad So Po Pp) f c chunks last after after2 Fc Ct Ga Ga2) as (r & E1 & E2).
  by exists sc, r.
Qed.
End filter.

(** ** Witnesses *)

(** A regular expression that matches from a letter up to a blank. *)
Fixpoint non_blanks (s : list Z) : nat := match s with c :: s => if isspace c then O else S (non_blanks s) | [] => O end.
Definition demo_regex (pattern s : list Z) : option (Z * Z) :=
  match s with c :: _ => if isalpha c then Some (0, Z.of_nat (non_blanks s)) else None | [] => None end.

Lemma demo_regex_law pattern : starts_with_letter demo_regex pattern.
Proof. intros [|c s] e; cbn; [done|]. destruct (isalpha c) eqn:A; [|done]. intros _. by exists c, s. Qed.

Definition ascii_only (s : list Z) : option nat := index_where (fun c => (c <=? 0) || (127 <? c)) s.

Definition demo_flags : Z := Z.lor (Z.lor TOHTML_CONVERT_URLS TOHTML_CONVERT_ADDRESSES) (Z.lor TOHTML_PRE TOHTML_QUOTE_CITATION).

Lemma html_chunks_irrelevant_witness : exists sc r, tohtml_scanner demo_regex same demo_flags = Some sc /\
  @convert_text ascii_only (scanner_of same ascii_only sc) (tohtml_new demo_flags 0) [(bs "> see ww", []); (bs "w.gnome.org, <me@gn", [])] (bs "ome.org>") [0] = Some r /\
  @convert_text ascii_only (scanner_of same ascii_only sc) (tohtml_new demo_flags 0) [] (bs "> see www.gnome.org, <me@gnome.org>") [cLF] = Some r.
Proof.
  apply (html_chunks_irrelevant demo_regex same ascii_only demo_flags 0 [(bs "> see ww", []); (bs "w.gnome.org, <me@gn", [])] (bs "ome.org>") [0] [cLF]); try apply demo_regex_law.
  - done.
  - repeat constructor; discriminate.
  - right. exists 0, []. auto.
  - exists cLF, []. auto.
  - right. vm_compute. reflexivity.
Defined.

(** What the filter makes of that text. *)
Definition demo_out : list Z :=
  quoted "<pre><blockquote type=" "cite" ">see " ++ quoted "<a href=" "http://www.gnome.org" ">www.gnome.org</a>, &lt;" ++
  quoted "<a href=" "mailto:me@gnome.org" ">me@gnome.org</a>&gt;</blockquote></pre>".

Definition demo_scanner : CamelUrlScanner := default camel_url_scanner_new (tohtml_scanner demo_regex same demo_flags).

Lemma html_output_well_formed_witness : exists items, demo_out = concat (map render items) /\
  Forall (item_ok (has (tohtml_new demo_flags 0) TOHTML_CONVERT_SPACES && has (tohtml_new demo_flags 0) TOHTML_PRESERVE_TABS)) items /\
  nest items [] = Some [].
Proof.
  refine (@html_output_well_formed ascii_only (scanner_of same ascii_only demo_scanner) demo_flags 0
    [(bs "> see www.gnome.org, <me@gn", [0; ch "a"])] (bs "ome.org>") [0; ch "a"] demo_out _ _). vm_compute. reflexivity.
Defined.
