(* ===== verification/ToHtmlEscape.v ===== *)
(** * ToHtmlEscape: escaping loses nothing

    [unescape] is what a reader of HTML makes of text without tags: entities and
    the numbers of characters.  It gives back the characters of a text that
    [writeln] escaped, when spaces and 8-bit characters are not to be replaced. *)

From Stdlib Require Import ZArith Lia Ascii.
From stdpp Require Import base list strings numbers option.
From S2P Require Import Prelude Utf8 CamelUrl UrlScanner ToHtml ToHtmlSpec.

(** The entities by their names. *)
Definition entities : list (list Z * Z) := [(bs "lt;", ch "<"); (bs "gt;", ch ">"); (bs "amp;", ch "&"); (bs "quot;", 34)].

Fixpoint entity (l : list (list Z * Z)) (s : list Z) : option (Z * list Z) :=
  match l with
  | [] => None
  | (name, c) :: l => if prefix_eqb name s then Some (c, drop (length name) s) else entity l s
  end.

(** The number up to the semicolon. *)
Definition numeric (s : list Z) : option (Z * list Z) :=
  match s with
  | c :: s => if c =? ch "#" then i ← strchr s (ch ";"); Some (digits_value s 0, drop (S i) s) else None
  | [] => None
  end.

Fixpoint unescape (fuel : nat) (s : list Z) : list Z :=
  match fuel, s with
  | O, _ | _, [] => []
  | S fuel, c :: s =>
      if c =? ch "&" then
        match entity entities s, numeric s with
        | Some (u, s), _ | None, Some (u, s) => u :: unescape fuel s
        | None, None => c :: unescape fuel s
        end
      else c :: unescape fuel s
  end.

(** ** One character *)

Lemma numeric_udec n rest : 0 <= n < 10 ^ 11 -> numeric (bs "#" ++ udec 11 n ++ bs ";" ++ rest) = Some (n, rest).
Proof.
  intros H. unfold numeric. cbn [bs app]. change (ch "#" =? ch "#") with true. cbv iota. unfold strchr.
  destruct (udec_digits 11 n H) as [F _].
  rewrite index_where_app by (eapply list.Forall_impl; [exact F|]; intros c C; apply Z.eqb_neq; intros <-; done).
  cbn [index_where]. change (ch ";" =? ch ";") with true. cbn [fmap option_fmap option_map mbind option_bind]. rewrite Nat.add_0_r, drop_middle, digits_udec by done.
  cbn [digits_value]. done.
Qed.

(** Escaping only: the flags that replace characters are off. *)
Definition keeps_text (p : ToHTML) : Prop := has p TOHTML_CONVERT_SPACES = false /\ has p TOHTML_ESCAPE_8BIT = false.

(** A piece of text that stands for the character [u], in any context. *)
Definition stands_for (x : list Z) (u : Z) : Prop :=
  (0 < length x)%nat /\ forall fuel rest, unescape (S fuel) (x ++ rest) = u :: unescape fuel rest.

Lemma stands_for_plain u : u <> ch "&" -> stands_for [u] u.
Proof. intros N. split; [cbn; lia|]. intros fuel rest. cbn. by rewrite (proj2 (Z.eqb_neq _ _) N). Qed.

Lemma stands_for_number u : 0 <= u < 2 ^ 32 -> stands_for (bs "&#" ++ udec 11 u ++ bs ";") u.
Proof.
  intros H. split; [rewrite length_app; cbn; lia|]. intros fuel rest. rewrite <- !app_assoc.
  change (bs "&#" ++ ?s) with (ch "&" :: bs "#" ++ s). cbn [unescape]. change (ch "&" =? ch "&") with true. cbv iota.
  rewrite numeric_udec by lia. reflexivity.
Qed.

Lemma write_char_stands p column u first rest : keeps_text p -> 0 <= u < 2 ^ 32 ->
  (has p TOHTML_CONVERT_NL = true -> rest = [] -> u <> cCR) -> stands_for (fst (write_char p column u first rest)) u.
Proof.
  intros [K1 K2] Hu Hcr. unfold write_char.
  assert (D : u <> ch "&" -> stands_for (fst (write_default p column u rest)) u).
  { intros Na. unfold write_default, u32. rewrite Z.mod_small by lia. rewrite K2.
    destruct rest as [|r0 rest]; rewrite ?andb_true_r, ?andb_false_r.
    - destruct (Z.eqb_spec u cCR) as [E|].
      + destruct (has p TOHTML_CONVERT_NL); [by destruct (Hcr eq_refl eq_refl)|by apply stands_for_plain].
      + destruct (_ && _); [by apply stands_for_plain|by apply stands_for_number].
    - destruct (_ && _); [by apply stands_for_plain|by apply stands_for_number]. }
  destruct (Z.eqb_spec u (ch "<")) as [->|]; [split; [cbn; lia|done]|]. destruct (Z.eqb_spec u (ch ">")) as [->|]; [split; [cbn; lia|done]|].
  destruct (Z.eqb_spec u (ch "&")) as [->|Na]; [split; [cbn; lia|done]|]. destruct (Z.eqb_spec u 34) as [->|]; [split; [cbn; lia|done]|].
  unfold write_space. rewrite K1. cbn [andb]. specialize (D Na). by destruct (u =? cTAB), (u =? ch " ").
Qed.

(** ** Texts *)

Definition utf8 (cs : list Z) : list Z := concat (map camel_utf8_putc cs).

(** What the text may hold: characters but NUL, and not U+FFFF, which the loop takes for
    the end of the buffer. *)
Definition text_char (c : Z) : Prop := 0 < c < 2 ^ 21 /\ c <> 65535.

Lemma getc_limit_putc c rest : 0 <= c < 2 ^ 21 -> camel_utf8_getc_limit (camel_utf8_putc c ++ rest) = (c, rest).
Proof. intros H. unfold camel_utf8_getc_limit. by rewrite getc_run_putc. Qed.

Lemma utf8_nil cs : Forall text_char cs -> utf8 cs = [] -> cs = [].
Proof.
  intros F E. destruct F as [|c cs [C _] F]; [done|]. unfold utf8 in E. cbn in E. apply (f_equal length) in E. rewrite length_app in E.
  pose proof (putc_length c ltac:(lia)). cbn in E. lia.
Qed.

Lemma write_loop_unescape fuel p total cs column : keeps_text p -> Forall text_char cs -> (length (utf8 cs) <= fuel)%nat ->
  (has p TOHTML_CONVERT_NL = true -> list.last cs <> Some cCR) ->
  forall k, (length cs <= k)%nat -> unescape k (fst (write_loop fuel p total (utf8 cs) column)) = cs.
Proof.
  intros K F. revert fuel column; induction F as [|c cs [C Nc] F IH]; intros fuel column L Hcr k Lk.
  - destruct fuel; cbn; by destruct k.
  - unfold utf8 in *. cbn [map concat] in *. pose proof (putc_length c ltac:(lia)) as Lc. rewrite length_app in L.
    destruct fuel as [|fuel]; [lia|]. cbn [write_loop].
    destruct (camel_utf8_putc c ++ concat (map camel_utf8_putc cs)) as [|x s] eqn:E; [apply (f_equal length) in E; rewrite length_app in E; cbn in E; lia|].
    rewrite <- E, getc_limit_putc by lia. rewrite (proj2 (Z.eqb_neq _ _) Nc).
    set (first := (length (concat (map camel_utf8_putc cs)) + 1 =? total)%nat).
    assert (St : stands_for (fst (write_char p column c first (concat (map camel_utf8_putc cs)))) c).
    { apply write_char_stands; [done|lia|]. intros Hn Er. apply (utf8_nil cs F) in Er. subst cs. intros ->. by apply (Hcr Hn). }
    destruct (write_char p column c first _) as [out col]. cbn [fst] in St. destruct St as [_ St].
    specialize (IH fuel col ltac:(lia)). destruct (write_loop fuel p total _ col) as [out' col'] eqn:Ew. cbn [fst] in *.
    destruct k as [|k]; [cbn in Lk; lia|]. rewrite St. f_equal. apply IH; [|cbn in Lk; lia].
    intros Hn El. apply (Hcr Hn). destruct cs; [done|]. exact El.
Qed.

(** Escaping loses nothing: for a valid text of any characters but NUL and U+FFFF, written
    without the flags that replace spaces and 8-bit characters (and not ending in a
    carriage return when line feeds are converted), unescaping what [writeln] writes
    gives the characters back. *)
Theorem html_escape_roundtrip (validate : list Z -> option nat) (p : ToHTML) (cs : list Z) :
  keeps_text p -> Forall text_char cs -> validate (utf8 cs) = None ->
  (has p TOHTML_CONVERT_NL = true -> list.last cs <> Some cCR) ->
  unescape (length cs) (fst (writeln validate p (utf8 cs))) = cs.
Proof.
  intros K F V Hcr. unfold writeln. rewrite V.
  pose proof (write_loop_unescape (length (utf8 cs)) p (length (utf8 cs)) cs (column p) K F ltac:(done) Hcr (length cs) ltac:(done)) as E.
  destruct (write_loop _ _ _ _ _) as [out col]. exact E.
Qed.

Lemma html_escape_roundtrip_witness :
  unescape 6 (fst (writeln (fun _ => None) (tohtml_new 0 0) (utf8 [60; 97; 38; 98; 8364; 34]))) = [60; 97; 38; 98; 8364; 34].
Proof.
  apply (html_escape_roundtrip (fun _ => None) (tohtml_new 0 0) [60; 97; 38; 98; 8364; 34]); [done| |done|done].
  repeat (apply list.Forall_cons_2; [split; [lia|discriminate]|]). constructor.
Defined.
