(* ===== verification/Thread.v ===== *)
(** * Thread: message threads (camel/camel-folder-thread.c)

    The nodes are records in a store; [next], [parent] and [child] are addresses
    or NULL.  A [CamelFolderThreadNode *] that stands before a list is the cast
    of the address of a pointer: it is a [place] here, the variable [head], or
    the field [next] or [child] of a node.  Reading a node that is not allocated
    is a failure.  Items are addresses; what the functions of the caller read of
    them, the order of [g_hash_table_foreach] and GLib's sort are parameters. *)

From Stdlib Require Import ZArith Lia Ascii.
From stdpp Require Import base list strings numbers gmap option.
From S2P Require Import Prelude.

(** ** The store *)

Abbreviation loc := positive (only parsing).
Abbreviation gpointer := positive (only parsing).

Record ThreadNode := Node {
  n_next : option loc; n_parent : option loc; n_child : option loc; n_item : option gpointer;
  n_subject : option (list Z); n_order : Z; n_re : bool }.

Definition alloc0_node : ThreadNode := Node None None None None None 0 false.

Definition with_next (v : option loc) (n : ThreadNode) := Node v (n_parent n) (n_child n) (n_item n) (n_subject n) (n_order n) (n_re n).
Definition with_parent (v : option loc) (n : ThreadNode) := Node (n_next n) v (n_child n) (n_item n) (n_subject n) (n_order n) (n_re n).
Definition with_child (v : option loc) (n : ThreadNode) := Node (n_next n) (n_parent n) v (n_item n) (n_subject n) (n_order n) (n_re n).
Definition with_item (v : option gpointer) (n : ThreadNode) := Node (n_next n) (n_parent n) (n_child n) v (n_subject n) (n_order n) (n_re n).
Definition with_subject (v : option (list Z)) (n : ThreadNode) := Node (n_next n) (n_parent n) (n_child n) (n_item n) v (n_order n) (n_re n).
(** [guint32 order : 31]. *)
Definition with_order (v : Z) (n : ThreadNode) := Node (n_next n) (n_parent n) (n_child n) (n_item n) (n_subject n) (v mod 2 ^ 31) (n_re n).
Definition with_re (v : bool) (n : ThreadNode) := Node (n_next n) (n_parent n) (n_child n) (n_item n) (n_subject n) (n_order n) v.

(** The nodes, and the local variable [head]. *)
Record store := Store { nodes : gmap loc ThreadNode; head : option loc }.

Definition M (A : Type) : Type := store -> option (A * store).
#[export] Instance ThreadM_ret : MRet M := fun A a s => Some (a, s).
#[export] Instance ThreadM_bind : MBind M := fun A B f m s => match m s with Some (a, s') => f a s' | None => None end.
Definition fail {A} : M A := fun _ => None.

Definition rd {A} (p : loc) (f : ThreadNode -> A) : M A := fun s => n ← nodes s !! p; Some (f n, s).
Definition wr (p : loc) (f : ThreadNode -> ThreadNode) : M unit := fun s =>
  n ← nodes s !! p; Some (tt, Store (<[p := f n]> (nodes s)) (head s)).

(** What a pointer to a node may be the cast of: [c->next] is then this pointer. *)
Inductive place := Head | Next (c : loc) | Child (c : loc).
#[export] Instance place_eq_dec : EqDecision place. Proof. solve_decision. Defined.

Definition rdp (pl : place) : M (option loc) :=
  match pl with Head => fun s => Some (head s, s) | Next c => rd c n_next | Child c => rd c n_child end.
Definition wrp (pl : place) (v : option loc) : M unit :=
  match pl with
  | Head => fun s => Some (tt, Store (nodes s) v)
  | Next c => wr c (with_next v)
  | Child c => wr c (with_child v)
  end.

(** Memory from [camel_memchunk_alloc0] is at an address that is not in use. *)
Definition alloc0 : M loc := fun s =>
  let l := fresh (dom (nodes s)) in Some (l, Store (<[l := alloc0_node]> (nodes s)) (head s)).
Definition memchunk_free (p : loc) : M unit := fun s => _ ← nodes s !! p; Some (tt, Store (delete p (nodes s)) (head s)).

(** Enough rounds for a walk that meets no node twice. *)
Definition all_nodes : M nat := fun s => Some (S (size (nodes s)), s).

(** The functions that read a node, or NULL. *)
Definition node_get {A} (f : ThreadNode -> option A) (self : option loc) : M (option A) :=
  match self with Some self => rd self f | None => mret None end.
Definition camel_folder_thread_node_get_next : option loc -> M (option loc) := node_get n_next.
Definition camel_folder_thread_node_get_parent : option loc -> M (option loc) := node_get n_parent.
Definition camel_folder_thread_node_get_child : option loc -> M (option loc) := node_get n_child.
Definition camel_folder_thread_node_get_item : option loc -> M (option gpointer) := node_get n_item.

(** ** Parents and children *)

Definition container_add_child (node child : loc) : M unit :=
  c ← rd node n_child;
  wr child (with_next c);;
  wr node (with_child (Some child));;
  wr child (with_parent (Some node)).

(** [while (node)]: is [child] among the ancestors? *)
Fixpoint is_above (fuel : nat) (child : loc) (node : option loc) : M bool :=
  match fuel, node with
  | O, _ => fail
  | _, None => mret false
  | S fuel, Some node => if decide (node = child) then mret true else p ← rd node n_parent; is_above fuel child p
  end.

(** [while (c->next)] up to the node; the place before it, if there is one. *)
Fixpoint find_before (fuel : nat) (c : place) (node : loc) : M (option place) :=
  match fuel with
  | O => fail
  | S fuel =>
      n ← rdp c;
      match n with
      | None => mret None
      | Some l => if decide (l = node) then mret (Some c) else find_before fuel (Next l) node
      end
  end.

Definition container_parent_child (parent child : loc) : M unit :=
  cp ← rd child n_parent;
  if decide (cp = Some parent) then mret tt
  else
    fuel ← all_nodes;
    node ← rd parent n_parent;
    loop ← is_above fuel child node;
    if loop : bool then mret tt
    else
      match cp with
      | None => container_add_child parent child
      | Some old =>
          before ← find_before fuel (Child old) child;
          match before with
          | Some c =>
              next ← rd child n_next;
              wrp c next;;
              wr child (with_parent None);;
              container_add_child parent child
          | None => mret tt
          end
      end.

(** [while (child)]: promote the children; [c->parent] is read again in each round. *)
Fixpoint promote (fuel : nat) (c : loc) (lastc : place) (child : option loc) : M unit :=
  match fuel, child with
  | O, _ => fail
  | _, None => mret tt
  | S fuel, Some child =>
      next ← rd child n_next;
      p ← rd c n_parent;
      wr child (with_parent p);;
      ln ← rdp lastc;
      wr child (with_next ln);;
      wrp lastc (Some child);;
      promote fuel c lastc next
  end.

(** The loop of [prune_empty], which calls itself on the children. *)
Fixpoint prune_empty (fuel : nat) (lastc : place) : M unit :=
  match fuel with
  | O => fail
  | S fuel =>
      ln ← rdp lastc;
      match ln with
      | None => mret tt
      | Some c =>
          prune_empty fuel (Child c);;
          item ← rd c n_item;
          match item with
          | Some _ => prune_empty fuel (Next c)
          | None =>
              child ← rd c n_child;
              match child with
              | None =>
                  next ← rd c n_next;
                  wrp lastc next;;
                  memchunk_free c;;
                  prune_empty fuel lastc
              | Some ch =>
                  parent ← rd c n_parent;
                  only ← (match parent with Some _ => mret true | None => cn ← rd ch n_next; mret (bool_decide (cn = None)) end);
                  if only : bool then
                    next ← rd c n_next;
                    wrp lastc next;;
                    rounds ← all_nodes;
                    promote rounds c lastc (Some ch);;
                    prune_empty fuel lastc
                  else prune_empty fuel (Next c)
              end
          end
      end
  end.

(** [hashloop], for the values of a table in the order of the iteration. *)
Definition hashloop (c : loc) : M unit :=
  p ← rd c n_parent;
  match p with
  | Some _ => mret tt
  | None => t ← rdp Head; wr c (with_next t);; wrp Head (Some c)
  end.

Fixpoint foreach_hashloop (l : list loc) : M unit :=
  match l with [] => mret tt | c :: l => hashloop c;; foreach_hashloop l end.

(** ** Subjects *)

Definition ispunct (c : Z) : bool := (33 <=? c) && (c <=? 126) && negb (isalnum c).

Fixpoint skip_spaces (s : list Z) : list Z :=
  match s with c :: r => if isspace c then skip_spaces r else s | [] => [] end.

(** [while ( *p && *p != ']' && !isspace ( *p)) p++]. *)
Fixpoint skip_id (p : list Z) : list Z :=
  match p with c :: r => if (c =? ch "]") || isspace c then p else skip_id r | [] => [] end.

Fixpoint list_ids_loop (fuel : nat) (s : list Z) : list Z :=
  match fuel with
  | O => s
  | S fuel =>
      match s with
      | c :: p =>
          if c =? ch "[" then
            match skip_id p with
            | d :: s =>
                if d =? ch "]" then
                  let s := skip_spaces s in
                  let s := match s with a :: b :: r => if (a =? ch "-") && isspace b then r else s | _ => s end in
                  list_ids_loop fuel (skip_spaces s)
                else c :: p
            | [] => c :: p
            end
          else s
      | [] => []
      end
  end.

Definition skip_list_ids (s : list Z) : list Z := list_ids_loop (length s) (skip_spaces s).

(** [while (isdigit ( *p) || (ispunct ( *p) && ( *p != ':')))]. *)
Fixpoint skip_count (p : list Z) : list Z :=
  match p with c :: r => if isdigit c || (ispunct c && negb (c =? ch ":")) then skip_count r else p | [] => [] end.

Definition letter (a b c : Z) : bool := (c =? a) || (c =? b).

(** The loop over the "Re:"s: what is left and whether there was one. *)
Fixpoint re_loop (fuel : nat) (s : list Z) (re : bool) : list Z * bool :=
  match fuel with
  | O => (s, re)
  | S fuel =>
      match skip_spaces s with
      | r :: e :: p =>
          if letter (ch "r") (ch "R") r && letter (ch "e") (ch "E") e then
            match skip_count p with
            | c :: s' => if c =? ch ":" then re_loop fuel (skip_list_ids s') true else (r :: e :: p, re)
            | [] => (r :: e :: p, re)
            end
          else (r :: e :: p, re)
      | s => (s, re)
      end
  end.

(** What [get_root_subject] makes of a subject: the root, if it is not empty, and [c->re]. *)
Definition root_of (subject : list Z) : option (list Z) * bool :=
  let s := skip_list_ids subject in
  let '(s, re) := re_loop (S (length s)) s false in
  (match s with [] => None | _ => Some s end, re).

(** The functions of the items. *)
Record ItemFunctions := Functions {
  get_subject_func : gpointer -> option (list Z);
  get_message_id_func : gpointer -> Z;
  get_references_func : gpointer -> option (list Z);
  get_date_sent_func : option (gpointer -> Z);
  get_date_received_func : option (gpointer -> Z) }.

Section thread.
Context (fns : ItemFunctions).

(** The first of the children that has an item. *)
Fixpoint scan_children (fuel : nat) (scan : option loc) : M (option gpointer) :=
  match fuel, scan with
  | O, _ => fail
  | _, None => mret None
  | S fuel, Some scan =>
      item ← rd scan n_item;
      match item with
      | Some i => mret (Some i)
      | None => next ← rd scan n_next; scan_children fuel next
      end
  end.

Definition get_root_subject (c : loc) : M (option (list Z)) :=
  wr c (with_re false);;
  item ← rd c n_item;
  item ← (match item with
          | Some i => mret (Some i)
          | None => fuel ← all_nodes; scan ← rd c n_child; scan_children fuel scan
          end);
  match item with
  | None => mret None
  | Some i =>
      match get_subject_func fns i with
      | None => mret None
      | Some s => let '(root, re) := root_of s in wr c (with_re re);; mret root
      end
  end.

(** The list that [node] is in is the one of its parent or [*list]; the new [*clast]. *)
Definition remove_node (node : loc) (clast : place) : M place :=
  parent ← rd node n_parent;
  fuel ← all_nodes;
  before ← find_before fuel (match parent with Some p => Child p | None => Head end) node;
  match before with
  | Some c =>
      let clast := if decide (clast = Next node) then c else clast in
      next ← rd node n_next;
      wrp c next;;
      mret clast
  | None => mret clast
  end.

Abbreviation table := (gmap (list Z) loc) (only parsing).

(** The first loop: [c] goes over the list. *)
Fixpoint gather_subjects (fuel : nat) (subject_table : table) (c : option loc) : M table :=
  match fuel, c with
  | O, _ => fail
  | _, None => mret subject_table
  | S fuel, Some c =>
      root ← get_root_subject c;
      wr c (with_subject root);;
      subject_table ←
        match root with
        | None => mret subject_table
        | Some s =>
            match subject_table !! s with
            | None => mret (<[s := c]> subject_table)
            | Some container =>
                ci ← rd container n_item; i ← rd c n_item; cre ← rd container n_re; re ← rd c n_re;
                mret (if (bool_decide (ci = None) && negb (bool_decide (i = None))) || (cre && negb re)
                      then <[s := c]> subject_table else subject_table)
            end
        end;
      next ← rd c n_next;
      gather_subjects fuel subject_table next
  end.

(** [while (scan->next) scan = scan->next]: the place of the end. *)
Fixpoint last_place (fuel : nat) (scan : place) : M place :=
  match fuel with
  | O => fail
  | S fuel => n ← rdp scan; match n with None => mret scan | Some l => last_place fuel (Next l) end
  end.

(** The cases of a node [c] with another one for its subject: the new [clast] and
    whether the loop goes on with what is behind that ([continue]). *)
Definition merge_subject (c container : loc) (clast : place) (subject_table : table) (s : list Z)
    : M (place * bool * table) :=
  i ← rd c n_item; ci ← rd container n_item; re ← rd c n_re; cre ← rd container n_re;
  match i, ci with
  | None, None =>
      fuel ← all_nodes;
      scan ← last_place fuel (Child container);
      child ← rd c n_child; wrp scan child;;
      next ← rd c n_next; wrp clast next;;
      memchunk_free c;;
      mret (clast, true, subject_table)
  | None, Some _ =>
      clast ← remove_node container clast;
      container_add_child c container;;
      mret (clast, false, subject_table)
  | Some _, None =>
      next ← rd c n_next; wrp clast next;;
      container_add_child container c;;
      mret (clast, true, subject_table)
  | Some _, Some _ =>
      if re && negb cre then
        next ← rd c n_next; wrp clast next;;
        container_add_child container c;;
        mret (clast, true, subject_table)
      else if negb re && cre then
        clast ← remove_node container clast;
        container_add_child c container;;
        mret (clast, false, subject_table)
      else
        clast ← remove_node container clast;
        clast ← remove_node c clast;
        scan ← alloc0;
        cs ← rd c n_subject; wr scan (with_subject cs);;
        wr scan (with_re (re && cre));;
        next ← rd c n_next; wr scan (with_next next);;
        wrp clast (Some scan);;
        container_add_child scan c;;
        container_add_child scan container;;
        mret (Next scan, true, <[s := scan]> subject_table)
  end.

Fixpoint merge_subjects (fuel : nat) (subject_table : table) (clast : place) : M unit :=
  match fuel with
  | O => fail
  | S fuel =>
      cn ← rdp clast;
      match cn with
      | None => mret tt
      | Some c =>
          subject ← rd c n_subject;
          match subject with
          | None => merge_subjects fuel subject_table (Next c)
          | Some s =>
              match subject_table !! s with
              | None => merge_subjects fuel subject_table (Next c)
              | Some container =>
                  if decide (container = c) then merge_subjects fuel subject_table (Next c)
                  else
                    '(clast, continue, subject_table) ← merge_subject c container clast subject_table s;
                    merge_subjects fuel subject_table (if continue : bool then clast else Next c)
              end
          end
      end
  end.

Definition group_root_set : M unit :=
  fuel ← all_nodes;
  c ← rdp Head;
  subject_table ← gather_subjects fuel ∅ c;
  merge_subjects fuel subject_table Head.

(** ** Sorting *)

(** [g_qsort_with_data]: an array of values sorted by a comparison. *)
Context (qsort : forall A : Type, (A -> A -> Z) -> list A -> list A).

(** What [sort_node_cb] compares of a node; its date is only computed once, in
    [times_cache]. *)
Definition sort_key (c : loc) : M (option Z * Z) :=
  item ← rd c n_item;
  ch ← rd c n_child;
  a ← (match item, ch with Some _, _ => mret c | None, Some ch => mret ch | None, None => fail end);
  item ← rd a n_item;
  order ← rd a n_order;
  match item, get_date_sent_func fns, get_date_received_func fns with
  | Some i, Some sent, Some received => let t := sent i in mret (Some (if t <=? 0 then received i else t), order)
  | Some _, _, _ => fail
  | None, _, _ => mret (None, order)
  end.

Definition sort_node_cb (a b : loc * (option Z * Z)) : Z :=
  let '(_, (t1, o1)) := a in
  let '(_, (t2, o2)) := b in
  let by_order := if o1 =? o2 then 0 else if o1 <? o2 then -1 else 1 in
  match t1, t2 with
  | Some t1, Some t2 => if negb (t1 =? t2) then (if t1 <? t2 then -1 else 1) else by_order
  | _, _ => by_order
  end.

Fixpoint sort_keys (carray : list loc) : M (list (loc * (option Z * Z))) :=
  match carray with
  | [] => mret []
  | c :: carray => k ← sort_key c; r ← sort_keys carray; mret ((c, k) :: r)
  end.

(** The nodes of the array one after the other, the last one first. *)
Fixpoint relink (carray : list loc) : M (option loc) :=
  match carray with
  | [] => mret None
  | c :: carray => next ← relink carray; wr c (with_next next);; mret (Some c)
  end.

(** What [sort_thread] does with the nodes of the list at [cp]. *)
Definition sort_array (cp : place) (carray : list loc) : M unit :=
  if (length carray <? 2)%nat then mret tt
  else
    keys ← sort_keys carray;
    h ← relink (map fst (qsort _ sort_node_cb keys));
    wrp cp h.

(** [sort_children fuel c] is the first loop, from [c] on: it sorts the children and
    gathers the nodes. *)
Fixpoint sort_children (fuel : nat) (c : option loc) : M (list loc) :=
  match fuel, c with
  | O, _ => fail
  | _, None => mret []
  | S fuel, Some c =>
      child ← rd c n_child;
      (match child with
       | None => mret tt
       | Some _ =>
           carray ← sort_children fuel child;
           sort_array (Child c) carray
       end);;
      next ← rd c n_next;
      r ← sort_children fuel next;
      mret (c :: r)
  end.

Definition sort_thread : M unit :=
  fuel ← all_nodes;
  c ← rdp Head;
  carray ← sort_children fuel c;
  sort_array Head carray.

(** ** The threads *)

(** Both tables of [thread_items]. *)
Record tables := Tables { id_table : gmap Z loc; no_id_table : gmap gpointer loc }.

(** A node for the message with this identifier that was not seen before. *)
Definition new_id_node (t : tables) (id : Z) : M (loc * tables) :=
  c ← alloc0; mret (c, Tables (<[id := c]> (id_table t)) (no_id_table t)).
Definition new_no_id_node (t : tables) (item : gpointer) : M (loc * tables) :=
  c ← alloc0; mret (c, Tables (id_table t) (<[item := c]> (no_id_table t))).

Definition item_node (t : tables) (item : gpointer) (id : Z) : M (loc * tables) :=
  if id =? 0 then new_no_id_node t item
  else
    match id_table t !! id with
    | Some c =>
        order ← rd c n_order;
        if negb (order =? 0) then new_no_id_node t item else mret (c, t)
    | None => new_id_node t id
    end.

Fixpoint link_references (t : tables) (child : loc) (references : list Z) : M tables :=
  match references with
  | [] => mret t
  | id :: references =>
      if id =? 0 then link_references t child references
      else
        '(c, t, found) ← match id_table t !! id with
                         | Some c => mret (c, t, true)
                         | None => '(c, t) ← new_id_node t id; mret (c, t, false)
                         end;
        if decide (c = child) then link_references t c references
        else
          container_parent_child c child;;
          if found : bool then mret t else link_references t c references
  end.

Definition thread_item (t : tables) (item : gpointer) (i : nat) : M tables :=
  '(c, t) ← item_node t item (get_message_id_func fns item);
  wr c (with_item (Some item));;
  wr c (with_order (Z.of_nat i + 1));;
  match get_references_func fns item with
  | Some references => link_references t c references
  | None => mret t
  end.

Fixpoint link_items (t : tables) (items : list gpointer) (i : nat) : M tables :=
  match items with
  | [] => mret t
  | item :: items => t ← thread_item t item i; link_items t items (S i)
  end.

(** The date by which the oldest message of a set is picked; -1 and 0 are unknown dates. *)
Definition unknown (d : Z) : bool := (d =? 0) || (d =? -1).
Definition sent_received (sent received : gpointer -> Z) (item : gpointer) : Z :=
  if unknown (sent item) then received item else sent item.

(** [swap] of the two nodes' messages. *)
Definition swap_items (newtop node : loc) : M unit :=
  i ← rd newtop n_item; j ← rd node n_item; wr newtop (with_item j);; wr node (with_item i);;
  s ← rd newtop n_subject; u ← rd node n_subject; wr newtop (with_subject u);; wr node (with_subject s);;
  o ← rd newtop n_order; q ← rd node n_order; wr newtop (with_order q);; wr node (with_order o);;
  r ← rd newtop n_re; e ← rd node n_re; wr newtop (with_re e);; wr node (with_re r).

Fixpoint pick_oldest (fuel : nat) (sent received : gpointer -> Z) (newtop : loc) (curr : Z) (node : option loc) : M unit :=
  match fuel, node with
  | O, _ => fail
  | _, None => mret tt
  | S fuel, Some node =>
      item ← rd node n_item;
      curr ← match item with
             | None => mret curr
             | Some i =>
                 let d := sent_received sent received i in
                 if negb (unknown d) && ((d <? curr) || unknown curr) then swap_items newtop node;; mret d else mret curr
             end;
      next ← rd node n_next;
      pick_oldest fuel sent received newtop curr next
  end.

(** [while (scan->next) { scan = scan->next; scan->parent = newtop; }]. *)
Fixpoint adopt (fuel : nat) (newtop : loc) (scan : option loc) : M unit :=
  match fuel, scan with
  | O, _ => fail
  | _, None => mret tt
  | S fuel, Some scan => wr scan (with_parent (Some newtop));; next ← rd scan n_next; adopt fuel newtop next
  end.

(** The children of the empty root [child], which stands behind [c], under the first one. *)
Definition replace_phantom (sort : bool) (c : place) (child : loc) : M loc :=
  nt ← rd child n_child;
  match nt with
  | None => fail
  | Some newtop =>
      wr newtop (with_parent None);;
      wrp c (Some newtop);;
      fuel ← all_nodes;
      (match sort, get_date_sent_func fns, get_date_received_func fns with
       | false, Some sent, Some received =>
           item ← rd newtop n_item;
           node ← rd newtop n_next;
           pick_oldest fuel sent received newtop (match item with Some i => sent_received sent received i | None => 0 end) node
       | _, _, _ => mret tt
       end);;
      scan ← last_place fuel (Child newtop);
      siblings ← rd newtop n_next;
      wrp scan siblings;;
      adopt fuel newtop siblings;;
      next ← rd child n_next;
      wr newtop (with_next next);;
      memchunk_free child;;
      mret newtop
  end.

Fixpoint remove_phantoms (fuel : nat) (sort : bool) (c : place) : M unit :=
  match fuel with
  | O => fail
  | S fuel =>
      cn ← rdp c;
      match cn with
      | None => mret tt
      | Some child =>
          item ← rd child n_item;
          match item with
          | None => newtop ← replace_phantom sort c child; remove_phantoms fuel sort (Next newtop)
          | Some _ => remove_phantoms fuel sort (Next child)
          end
      end
  end.

Definition FLAG_SUBJECT : Z := Z.shiftl 1 0.
Definition FLAG_SORT : Z := Z.shiftl 1 1.
Definition flag (flags f : Z) : bool := negb (Z.land flags f =? 0).

(** The order of [g_hash_table_foreach]. *)
Context (foreach_id : gmap Z loc -> list loc) (foreach_no_id : gmap gpointer loc -> list loc).

Definition thread_items (flags : Z) (items : list gpointer) : M unit :=
  t ← link_items (Tables ∅ ∅) items 0;
  foreach_hashloop (foreach_id (id_table t));;
  foreach_hashloop (foreach_no_id (no_id_table t));;
  fuel ← all_nodes;
  prune_empty fuel Head;;
  (if flag flags FLAG_SUBJECT then group_root_set else mret tt);;
  (if flag flags FLAG_SORT then sort_thread else mret tt);;
  fuel ← all_nodes;
  remove_phantoms fuel (flag flags FLAG_SORT) Head.

(** The thread: the nodes and [tree], or NULL when [g_return_val_if_fail] does so. *)
Definition camel_folder_thread_new_items (items : list gpointer) (flags : Z) : option (option store) :=
  if flag flags FLAG_SORT && (bool_decide (get_date_sent_func fns = None) || bool_decide (get_date_received_func fns = None))
  then Some None
  else '(_, s) ← thread_items flags items (Store ∅ None); Some (Some s).

(** The items are the messages that the folder has of the identifiers. *)
Definition camel_folder_thread_new {uid : Type} (get_message_info : uid -> option gpointer) (uids : list uid) (flags : Z) : option (option store) :=
  '(_, s) ← thread_items flags (omap get_message_info uids) (Store ∅ None); Some (Some s).
End thread.

Definition camel_folder_thread_get_tree (self : store) : option loc := head self.

(** The messages that are printed; the table of visited nodes is only for a warning. *)
Fixpoint dump_tree_rec (fuel : nat) (c : option loc) (depth : Z) : M Z :=
  match fuel, c with
  | O, _ => fail
  | _, None => mret 0
  | S fuel, Some c =>
      item ← rd c n_item;
      let count := match item with Some _ => 1 | None => 0 end in
      child ← rd c n_child;
      below ← match child with Some _ => dump_tree_rec fuel child (depth + 1) | None => mret 0 end;
      next ← rd c n_next;
      rest ← dump_tree_rec fuel next depth;
      mret (count + below + rest)
  end.

Definition camel_folder_thread_dump (self : store) : option Z :=
  '(count, _) ← dump_tree_rec (S (size (nodes self))) (camel_folder_thread_get_tree self) 0 self; Some count.

(** ** Runs *)

(** A stable sort, and tables that are walked in the order of their keys. *)
Fixpoint insert_by {A} (cmp : A -> A -> Z) (a : A) (l : list A) : list A :=
  match l with [] => [a] | b :: l => if cmp a b <=? 0 then a :: b :: l else b :: insert_by cmp a l end.
Definition insertion_sort (A : Type) (cmp : A -> A -> Z) (l : list A) : list A := foldr (insert_by cmp) [] l.
Definition values {K} `{Countable K} (m : gmap K loc) : list loc := map snd (map_to_list m).

(** The tree of items; an empty node has none. *)
Inductive shown := Shown (item : option gpointer) (children : list shown).
Fixpoint show (fuel : nat) (s : store) (c : option loc) : list shown :=
  match fuel, c with
  | S fuel, Some c =>
      match nodes s !! c with
      | Some n => Shown (n_item n) (show fuel s (n_child n)) :: show fuel s (n_next n)
      | None => []
      end
  | _, _ => []
  end.

Definition run (fns : ItemFunctions) (flags : Z) (items : list gpointer) : option (list shown) :=
  r ← camel_folder_thread_new_items fns insertion_sort values values items flags;
  s ← r; Some (show (S (size (nodes s))) s (head s)).

(** Messages 1 and 3 refer to 9, which is not there; 2 answers 1 and 4 answers 3.  The swap of [remove_phantoms] exchanges 1 and 3 when 3 is older, but not
    their children: without sorting, 4 is then below 1 and 2 below 3. *)
Definition two_pairs (d1 d3 : Z) : ItemFunctions := Functions (fun _ => None) (fun i => Z.pos i)
  (fun i => match i with 1%positive => Some [9] | 2%positive => Some [1; 9] | 3%positive => Some [9] | 4%positive => Some [3; 9] | _ => None end)
  (Some (fun i => match i with 1%positive => d1 | 3%positive => d3 | _ => 60 end)) (Some (fun _ => 0)).

Example two_pairs_unsorted : run (two_pairs 30 40) 0 [1; 2; 3; 4]%positive =
  Some [Shown (Some 1%positive) [Shown (Some 4%positive) []; Shown (Some 3%positive) [Shown (Some 2%positive) []]]].
Proof. vm_compute. reflexivity. Qed.

Example two_pairs_sorted : run (two_pairs 30 40) 2 [1; 2; 3; 4]%positive =
  Some [Shown (Some 1%positive) [Shown (Some 2%positive) []; Shown (Some 3%positive) [Shown (Some 4%positive) []]]].
Proof. vm_compute. reflexivity. Qed.
