(* ===== verification/ThreadSubject.v ===== *)
(** * ThreadSubject: the root of a subject

    [get_root_subject] drops the identifiers of lists and the marks of replies
    in front of a subject.  An answer has the root of what it answers, and the
    root of a root is the root. *)

From Stdlib Require Import ZArith Lia Ascii.
From stdpp Require Import base list strings numbers option.
From S2P Require Import Prelude Thread.

(** ** Lengths *)

Lemma skip_spaces_length s : (length (skip_spaces s) <= length s)%nat.
Proof. induction s as [|c s IH]; cbn; [done|]. destruct (isspace c); cbn; lia. Qed.
Lemma skip_id_length s : (length (skip_id s) <= length s)%nat.
Proof. induction s as [|c s IH]; cbn; [done|]. destruct (_ || _); cbn; lia. Qed.
Lemma skip_count_length s : (length (skip_count s) <= length s)%nat.
Proof. induction s as [|c s IH]; cbn; [done|]. destruct (_ || _); cbn; lia. Qed.

Lemma skip_spaces_twice s : skip_spaces (skip_spaces s) = skip_spaces s.
Proof. induction s as [|c s IH]; cbn; [done|]. destruct (isspace c) eqn:E; [done|]. cbn. by rewrite E. Qed.

(** What is behind one identifier, with the dash after it. *)
Definition after_id (s : list Z) : list Z :=
  let s := skip_spaces s in skip_spaces (match s with a :: b :: r => if (a =? ch "-") && isspace b then r else s | _ => s end).

Lemma after_id_length s : (length (after_id s) <= length s)%nat.
Proof.
  unfold after_id. pose proof (skip_spaces_length s). etransitivity; [apply skip_spaces_length|]. destruct (skip_spaces s) as [|a [|b r]]; cbn in *; try lia. destruct (_ && _); cbn in *; lia.
Qed.

(** One round of the loop: what is left, or None at its end. *)
Definition ids_step (s : list Z) : option (list Z) :=
  match s with
  | c :: p => if c =? ch "[" then match skip_id p with d :: s => if d =? ch "]" then Some (after_id s) else None | [] => None end else None
  | [] => None
  end.

Lemma list_ids_step fuel s : list_ids_loop (S fuel) s = match ids_step s with Some s' => list_ids_loop fuel s' | None => s end.
Proof.
  destruct s as [|c p]; cbn; [done|]. destruct (c =? ch "["); [|done]. destruct (skip_id p) as [|d s]; [done|]. destruct (d =? ch "]"); [|done]. by unfold after_id.
Qed.

Lemma ids_step_length s s' : ids_step s = Some s' -> (length s' < length s)%nat.
Proof.
  destruct s as [|c p]; cbn; [done|]. destruct (c =? ch "["); [|done]. pose proof (skip_id_length p). destruct (skip_id p) as [|d s]; [done|]. destruct (d =? ch "]"); [|done].
  intros [= <-]. pose proof (after_id_length s). cbn in *. lia.
Qed.

Lemma list_ids_end fuel s : (length s <= fuel)%nat -> ids_step (list_ids_loop fuel s) = None.
Proof.
  revert s. induction fuel as [|fuel IH]; intros s L; [destruct s; [done|cbn in L; lia]|]. rewrite list_ids_step. destruct (ids_step s) as [s'|] eqn:E; [|done]. apply IH. apply ids_step_length in E. lia.
Qed.

Lemma list_ids_fuel fuel fuel' s : (length s <= fuel)%nat -> (length s <= fuel')%nat -> list_ids_loop fuel s = list_ids_loop fuel' s.
Proof.
  revert fuel' s. induction fuel as [|fuel IH]; intros fuel' s L L'.
  - destruct s; [|cbn in L; lia]. by destruct fuel'.
  - destruct fuel' as [|fuel']; [destruct s; [done|cbn in L'; lia]|]. rewrite !list_ids_step. destruct (ids_step s) as [s'|] eqn:E; [|done]. apply ids_step_length in E. apply IH; lia.
Qed.

Lemma list_ids_length fuel s : (length (list_ids_loop fuel s) <= length s)%nat.
Proof.
  revert s. induction fuel as [|fuel IH]; intros s; [done|]. rewrite list_ids_step. destruct (ids_step s) as [s'|] eqn:E; [|done]. apply ids_step_length in E. specialize (IH s'). lia.
Qed.

Lemma skip_list_ids_length s : (length (skip_list_ids s) <= length s)%nat.
Proof. unfold skip_list_ids. etransitivity; [apply list_ids_length|apply skip_spaces_length]. Qed.

(** No space in front. *)
Definition trimmed (s : list Z) : Prop := skip_spaces s = s.

Lemma list_ids_trimmed fuel s : trimmed s -> trimmed (list_ids_loop fuel s).
Proof.
  revert s. induction fuel as [|fuel IH]; intros s T; [done|]. rewrite list_ids_step. destruct (ids_step s) as [s'|] eqn:E; [|done]. apply IH. clear T.
  destruct s as [|c p]; cbn in E; [done|]. destruct (c =? ch "["); [|done]. destruct (skip_id p) as [|d s]; [done|]. destruct (d =? ch "]"); [|done]. injection E as <-. apply skip_spaces_twice.
Qed.

Lemma skip_list_ids_trimmed s : trimmed (skip_list_ids s).
Proof. apply list_ids_trimmed, skip_spaces_twice. Qed.

Lemma skip_list_ids_twice s : skip_list_ids (skip_list_ids s) = skip_list_ids s.
Proof.
  pose proof (skip_list_ids_trimmed s) as T. set (r := skip_list_ids s) in *. unfold skip_list_ids. rewrite T. assert (E : ids_step r = None) by apply list_ids_end, skip_spaces_length.
  destruct (length r); [done|]. by rewrite list_ids_step, E.
Qed.

Lemma skip_list_ids_space c s : isspace c = true -> skip_list_ids (c :: s) = skip_list_ids s.
Proof.
  intros E. unfold skip_list_ids. cbn [skip_spaces length]. rewrite E. apply list_ids_fuel; pose proof (skip_spaces_length s); lia.
Qed.

(** ** The marks of replies *)

(** What is behind one mark. *)
Definition re_step (s : list Z) : option (list Z) :=
  match s with
  | r :: e :: p => if letter (ch "r") (ch "R") r && letter (ch "e") (ch "E") e then match skip_count p with c :: s' => if c =? ch ":" then Some (skip_list_ids s') else None | [] => None end else None
  | _ => None
  end.

Lemma re_loop_step fuel s re : re_loop (S fuel) s re = match re_step (skip_spaces s) with Some s' => re_loop fuel s' true | None => (skip_spaces s, re) end.
Proof.
  cbn [re_loop]. destruct (skip_spaces s) as [|r [|e p]]; [done..|]. cbn [re_step]. destruct (letter _ _ r && _); [|done]. destruct (skip_count p) as [|c s']; [done|]. by destruct (c =? ch ":").
Qed.

Lemma re_step_length s s' : re_step s = Some s' -> (length s' < length s)%nat.
Proof.
  destruct s as [|r [|e p]]; [done..|]. cbn [re_step]. destruct (letter _ _ r && _); [|done]. pose proof (skip_count_length p). destruct (skip_count p) as [|c s2]; [done|]. destruct (c =? ch ":"); [|done].
  intros [= <-]. pose proof (skip_list_ids_length s2). cbn in *. lia.
Qed.

Lemma re_step_fixed s s' : re_step s = Some s' -> skip_list_ids s' = s'.
Proof.
  destruct s as [|r [|e p]]; [done..|]. cbn [re_step]. destruct (letter _ _ r && _); [|done]. destruct (skip_count p) as [|c s2]; [done|]. destruct (c =? ch ":"); [|done].
  intros [= <-]. apply skip_list_ids_twice.
Qed.

Lemma re_loop_fuel fuel fuel' s re : (length s < fuel)%nat -> (length s < fuel')%nat -> re_loop fuel s re = re_loop fuel' s re.
Proof.
  revert fuel' s re. induction fuel as [|fuel IH]; intros fuel' s re L L'; [lia|]. destruct fuel' as [|fuel']; [lia|]. rewrite !re_loop_step.
  destruct (re_step (skip_spaces s)) as [s'|] eqn:E; [|done]. apply re_step_length in E. pose proof (skip_spaces_length s). apply IH; lia.
Qed.

Lemma re_loop_flag fuel s re : re_loop fuel s re = (fst (re_loop fuel s false), re || snd (re_loop fuel s false)).
Proof.
  revert s re. induction fuel as [|fuel IH]; intros s re; [cbn; by rewrite orb_false_r|]. rewrite !re_loop_step. destruct (re_step (skip_spaces s)) as [s'|]; [|cbn; by rewrite orb_false_r].
  rewrite IH. cbn. by rewrite orb_true_r.
Qed.

(** Nothing more to drop. *)
Lemma re_loop_end fuel s re : (length s < fuel)%nat -> skip_list_ids s = s -> let r := fst (re_loop fuel s re) in skip_list_ids r = r /\ re_step r = None.
Proof.
  revert s re. induction fuel as [|fuel IH]; intros s re L T; [lia|]. assert (Ts : skip_spaces s = s) by (rewrite <- T; apply skip_list_ids_trimmed).
  rewrite re_loop_step, Ts. destruct (re_step s) as [s'|] eqn:E; [|done]. pose proof (re_step_length _ _ E). apply IH; [lia|by apply (re_step_fixed s)].
Qed.

(** ** The root *)

Lemma root_of_fst subject : fst (root_of subject) = match fst (re_loop (S (length (skip_list_ids subject))) (skip_list_ids subject) false) with [] => None | r => Some r end.
Proof. unfold root_of. by destruct (re_loop _ _ _) as [[|c s] re]. Qed.

(** C38. A subject with "Re: " in front has the root of the subject, whatever identifiers of lists and marks of replies the subject has itself,
    and is the one of an answer. *)
Theorem subject_of_reply subject : root_of (bs "Re: " ++ subject) = (fst (root_of subject), true).
Proof.
  assert (E : skip_list_ids (bs "Re: " ++ subject) = bs "Re: " ++ subject) by done. unfold root_of at 1. rewrite E. rewrite re_loop_step. change (skip_spaces (bs "Re: " ++ subject)) with (bs "Re: " ++ subject).
  change (re_step (bs "Re: " ++ subject)) with (Some (skip_list_ids (32 :: subject))). rewrite (skip_list_ids_space 32) by done. cbv iota. rewrite re_loop_flag. cbn [orb].
  rewrite root_of_fst. pose proof (skip_list_ids_length subject). rewrite (re_loop_fuel _ (S (length (skip_list_ids subject)))); [by destruct (fst (re_loop (S (length (skip_list_ids subject))) (skip_list_ids subject) false))|rewrite length_app; cbn; lia|lia].
Qed.

(** The root of a subject is its own root, and is not the subject of an answer. *)
Theorem subject_root_is_root subject root : fst (root_of subject) = Some root -> root_of root = (Some root, false).
Proof.
  rewrite root_of_fst. set (s := skip_list_ids subject). pose proof (re_loop_end (S (length s)) s false ltac:(lia) (skip_list_ids_twice subject)) as [E1 E2]. cbv zeta in E1, E2.
  intros H. destruct (fst (re_loop (S (length s)) s false)) as [|c r]; [done|]. injection H as <-. unfold root_of. rewrite E1, re_loop_step.
  assert (Ts : skip_spaces (c :: r) = c :: r) by (rewrite <- E1; apply skip_list_ids_trimmed). by rewrite Ts, E2.
Qed.

Lemma subject_root_is_root_witness : fst (root_of (bs "[evo] RE[2]: re: hello")) = Some (bs "hello") /\ root_of (bs "hello") = (Some (bs "hello"), false).
Proof. split; [reflexivity|]. apply (subject_root_is_root (bs "[evo] RE[2]: re: hello")). reflexivity. Defined.
