(* ===== verification/ThreadRep.v ===== *)
(** * ThreadRep: the forests that the store of Thread holds

    [wp m Q s]: the run of [m] from [s] has a result, and [Q] holds of it.  A list
    of siblings with all that is below them is a list of [tree]s; [seg] says that
    a store holds it between two pointers, [lst] that it starts at a place.  A
    tree keeps of a node its address, its item and its order. *)

From Stdlib Require Import ZArith Lia.
From stdpp Require Import base list numbers gmap option.
From S2P Require Import Prelude Thread.

(** ** Runs *)

Definition wp {A} (m : M A) (Q : A -> store -> Prop) (s : store) : Prop :=
  match m s with Some (a, s') => Q a s' | None => False end.

Lemma wp_ret {A} (a : A) Q s : Q a s -> wp (mret a) Q s.
Proof. done. Qed.

Lemma wp_bind {A B} (m : M A) (f : A -> M B) Q s : wp m (fun a => wp (f a) Q) s -> wp (m ≫= f) Q s.
Proof. unfold wp, mbind, ThreadM_bind. by destruct (m s) as [[a s']|]. Qed.

Lemma wp_mono {A} (m : M A) (Q R : A -> store -> Prop) s : wp m Q s -> (forall a s', Q a s' -> R a s') -> wp m R s.
Proof. unfold wp. destruct (m s) as [[a s']|]; [|done]. auto. Qed.

Definition upd (s : store) (p : loc) (n : ThreadNode) : store := Store (<[p := n]> (nodes s)) (head s).

Lemma wp_rd {A} p (f : ThreadNode -> A) Q s n : nodes s !! p = Some n -> Q (f n) s -> wp (rd p f) Q s.
Proof. intros E H. unfold wp, rd. by rewrite E. Qed.

Lemma wp_wr p f Q s n : nodes s !! p = Some n -> Q tt (upd s p (f n)) -> wp (wr p f) Q s.
Proof. intros E H. unfold wp, wr. by rewrite E. Qed.

Lemma wp_free p Q s n : nodes s !! p = Some n -> Q tt (Store (delete p (nodes s)) (head s)) -> wp (memchunk_free p) Q s.
Proof. intros E H. unfold wp, memchunk_free. by rewrite E. Qed.

Lemma wp_alloc Q s : (forall l, nodes s !! l = None -> Q l (upd s l alloc0_node)) -> wp alloc0 Q s.
Proof.
  intros H. unfold wp, alloc0. cbn. apply H. apply not_elem_of_dom. apply (is_fresh (dom (nodes s))).
Qed.

Lemma wp_all_nodes Q s : Q (S (size (nodes s))) s -> wp all_nodes Q s.
Proof. done. Qed.

Lemma container_add_child_wp s parent child np nc (Q : unit -> store -> Prop) : parent <> child -> nodes s !! parent = Some np -> nodes s !! child = Some nc ->
  Q () (Store (<[child := with_parent (Some parent) (with_next (n_child np) nc)]> (<[parent := with_child (Some child) np]> (nodes s))) (head s)) ->
  wp (container_add_child parent child) Q s.
Proof.
  intros D Gp Gc HQ. unfold container_add_child.
  apply wp_bind, (wp_rd _ _ _ _ np Gp), wp_bind, (wp_wr _ _ _ _ nc Gc), wp_bind.
  apply (wp_wr _ _ _ _ np); [unfold upd; cbn; by rewrite lookup_insert_ne|].
  apply (wp_wr _ _ _ _ (with_next (n_child np) nc)); [unfold upd; cbn; rewrite lookup_insert_ne by done; by rewrite lookup_insert_eq|].
  replace (upd _ child _) with (Store (<[child := with_parent (Some parent) (with_next (n_child np) nc)]> (<[parent := with_child (Some child) np]> (nodes s))) (head s)); [done|].
  unfold upd. cbn. f_equal. apply map_eq. intros l.
  destruct (decide (l = child)) as [->|]; [by rewrite !lookup_insert_eq|]. rewrite !(lookup_insert_ne _ child) by done.
  destruct (decide (l = parent)) as [->|]; [by rewrite !lookup_insert_eq|]. by rewrite !lookup_insert_ne.
Qed.

Definition pl_owner (pl : place) : option loc := match pl with Head => None | Next c | Child c => Some c end.

Definition pl_val (s : store) (pl : place) : option (option loc) :=
  match pl with Head => Some (head s) | Next c => n_next <$> nodes s !! c | Child c => n_child <$> nodes s !! c end.

Definition pl_with (pl : place) (v : option loc) : ThreadNode -> ThreadNode :=
  match pl with Child _ => with_child v | _ => with_next v end.

Definition pl_set (s : store) (pl : place) (v : option loc) : store :=
  match pl with Head => Store (nodes s) v | Next c => Store (alter (with_next v) c (nodes s)) (head s)
  | Child c => Store (alter (with_child v) c (nodes s)) (head s) end.

Lemma wp_rdp pl Q s v : pl_val s pl = Some v -> Q v s -> wp (rdp pl) Q s.
Proof.
  destruct pl; cbn; intros E H; [by injection E as <-| |]; apply fmap_Some in E as (n & E & ->); by apply (wp_rd _ _ _ _ n).
Qed.

Lemma alter_at (f : ThreadNode -> ThreadNode) (g : gmap loc ThreadNode) c n : g !! c = Some n -> alter f c g = <[c := f n]> g.
Proof.
  intros E. apply map_eq. intros i. destruct (decide (i = c)) as [->|]; [by rewrite lookup_alter_eq, lookup_insert_eq, E|].
  by rewrite lookup_alter_ne, lookup_insert_ne.
Qed.

Lemma wp_wrp pl v Q s : is_Some (pl_val s pl) -> Q tt (pl_set s pl v) -> wp (wrp pl v) Q s.
Proof.
  intros [x E] H. destruct pl; [done| |]; cbn in *; apply fmap_Some in E as (n & E & ->); apply (wp_wr _ _ _ _ n E);
  unfold upd; by rewrite (alter_at _ _ _ _ E) in H.
Qed.

Lemma pl_set_val s pl v : is_Some (pl_val s pl) -> pl_val (pl_set s pl v) pl = Some v.
Proof. intros [x E]. destruct pl; cbn in *; [done| |]; apply fmap_Some in E as (n & E & ->); by rewrite lookup_alter_eq, E. Qed.

Lemma pl_set_ne s pl v l : pl_owner pl <> Some l -> nodes (pl_set s pl v) !! l = nodes s !! l.
Proof. destruct pl; cbn; intros N; [done| |]; rewrite lookup_alter_ne; congruence. Qed.

Lemma pl_set_owner s pl v c : pl_owner pl = Some c -> nodes (pl_set s pl v) !! c = pl_with pl v <$> nodes s !! c.
Proof. destruct pl; cbn; intros [= ->]; by rewrite lookup_alter_eq. Qed.

(** ** Forests *)

Abbreviation data := (option gpointer * Z)%type (only parsing).
Inductive tree := T (l : loc) (d : data) (kids : list tree).
Definition t_root (t : tree) : loc := match t with T l _ _ => l end.
Definition t_data (t : tree) : data := match t with T _ d _ => d end.
Definition t_kids (t : tree) : list tree := match t with T _ _ k => k end.

Fixpoint t_locs (t : tree) : list loc := match t with T l _ kids => l :: flat_map t_locs kids end.
Abbreviation f_locs := (flat_map t_locs).

(** The messages, with their orders. *)
Definition d_items (d : data) : list (gpointer * Z) := match d with (Some i, o) => [(i, o)] | _ => [] end.
Fixpoint t_items (t : tree) : list (gpointer * Z) := match t with T _ d kids => d_items d ++ flat_map t_items kids end.
Abbreviation f_items := (flat_map t_items).

Definition d_of (n : ThreadNode) : data := (n_item n, n_order n).

(** What [parent] has to be; None does not say. *)
Definition parent_ok (par : option (option loc)) (n : ThreadNode) : Prop :=
  match par with Some p => n_parent n = p | None => True end.

(** While the subjects are grouped, the children of an empty node need not know it. *)
Definition kid_parent (loose : bool) (l : loc) (d : data) : option (option loc) :=
  if loose then match fst d with Some _ => Some (Some l) | None => None end else Some (Some l).

Inductive seg (loose : bool) (g : gmap loc ThreadNode) : option (option loc) -> option loc -> list tree -> option loc -> Prop :=
| seg_nil par p : seg loose g par p [] p
| seg_cons par l n kids f q : g !! l = Some n -> parent_ok par n ->
    seg loose g (kid_parent loose l (d_of n)) (n_child n) kids None -> seg loose g par (n_next n) f q ->
    seg loose g par (Some l) (T l (d_of n) kids :: f) q.

Lemma flat_map_cons {A B} (f : A -> list B) a l : flat_map f (a :: l) = f a ++ flat_map f l.
Proof. done. Qed.
Lemma flat_map_app' {A B} (f : A -> list B) a b : flat_map f (a ++ b) = flat_map f a ++ flat_map f b.
Proof. apply flat_map_app. Qed.

Lemma seg_app lo g par p f1 f2 q : seg lo g par p (f1 ++ f2) q <-> exists m, seg lo g par p f1 m /\ seg lo g par m f2 q.
Proof.
  split.
  - revert p. induction f1 as [|t f1 IH]; intros p H; [exists p; split; [constructor|done]|].
    inversion H; subst. edestruct IH as (m & A1 & A2); [eassumption|]. exists m. split; [by econstructor|done].
  - intros (m & H1 & H2). induction H1 as [|par l n kids f m G P K _ H IH]; [done|]. cbn. econstructor; eauto.
Qed.

Lemma seg_snoc_root lo g par p f q : seg lo g par p f q -> f <> [] -> exists l, p = Some l /\ l ∈ f_locs f.
Proof. intros H N. inversion H; subst; [done|]. eexists. split; [done|]. cbn. by left. Qed.

Lemma seg_end lo g par p f q : seg lo g par p f q -> f = [] -> p = q.
Proof. intros H ->. by inversion H. Qed.

Lemma seg_frame lo g g' par p f q : seg lo g par p f q -> (forall l, l ∈ f_locs f -> g' !! l = g !! l) -> seg lo g' par p f q.
Proof.
  intros H. induction H as [|par l n kids f q G P K IH1 H IH2]; intros E; [constructor|].
  cbn in E. econstructor; [rewrite E; [done|left]|done| |].
  - apply IH1. intros x I. apply E. right. apply elem_of_app. by left.
  - apply IH2. intros x I. apply E. right. apply elem_of_app. by right.
Qed.

Lemma seg_dom lo g par p f q l : seg lo g par p f q -> l ∈ f_locs f -> is_Some (g !! l).
Proof.
  intros H. induction H as [|par l' n kids f q G P K IH1 H IH2]; intros I; [by apply elem_of_nil in I|].
  cbn in I. apply elem_of_cons in I as [->|I]; [eauto|]. apply elem_of_app in I as [I|I]; auto.
Qed.

Lemma seg_weaken lo g par p f q : seg lo g par p f q -> seg lo g None p f q.
Proof. intros H. induction H as [|par l n kids f q G P K _ H IH]; [constructor|]. by econstructor. Qed.

Lemma seg_loose g par p f q : seg false g par p f q -> seg true g par p f q.
Proof.
  intros H. induction H as [|par l n kids f q G P K IH1 H IH2]; [constructor|]. econstructor; [done|done| |done].
  unfold kid_parent, d_of. cbn. destruct (n_item n); [done|]. by apply seg_weaken in IH1.
Qed.

(** Another parent for a list: the [parent] of its nodes may change. *)
Lemma seg_parents lo g g' par par' p f q : seg lo g par p f q -> NoDup (f_locs f) ->
  (forall t, t ∈ f -> exists n, g' !! t_root t = Some n /\ parent_ok par' n /\ exists n0, g !! t_root t = Some n0 /\
     n_next n = n_next n0 /\ n_child n = n_child n0 /\ d_of n = d_of n0) ->
  (forall l, l ∈ flat_map (fun t => f_locs (t_kids t)) f -> g' !! l = g !! l) -> seg lo g' par' p f q.
Proof.
  intros H. induction H as [|par l n kids f q G P K _ H IH]; intros D E1 E2; [constructor|].
  destruct (E1 (T l (d_of n) kids) ltac:(left)) as (n' & G' & P' & n0 & G0 & En & Ec & Ed). cbn in *. assert (n0 = n) as -> by congruence.
  rewrite <- Ed. apply list.NoDup_cons in D as [_ D]. apply list.NoDup_app in D as (D1 & _ & D2). econstructor; [done|done| |].
  - rewrite Ed, Ec. apply (seg_frame _ g); [done|]. intros x I. apply E2. apply elem_of_app. by left.
  - rewrite En. apply IH; [done| |].
    + intros t I. apply E1. by right.
    + intros x I. apply E2. apply elem_of_app. by right.
Qed.

(** ** Lists at a place *)

Definition pos (pl : place) (f : list tree) : place := match list.last f with Some t => Next (t_root t) | None => pl end.

Lemma pos_nil pl : pos pl [] = pl.
Proof. done. Qed.
Lemma pos_snoc pl f t : pos pl (f ++ [t]) = Next (t_root t).
Proof. unfold pos. by rewrite last_snoc. Qed.
Lemma pos_app pl f1 f2 : pos pl (f1 ++ f2) = pos (pos pl f1) f2.
Proof. unfold pos. rewrite last_app. by destruct (list.last f2). Qed.

Definition lst (lo : bool) (s : store) (par : option (option loc)) (pl : place) (f : list tree) (q : option loc) : Prop :=
  exists p, pl_val s pl = Some p /\ seg lo (nodes s) par p f q.

(** The owner of the place is not in the list. *)
Definition apart (pl : place) (f : list tree) : Prop := match pl_owner pl with Some c => c ∉ f_locs f | None => True end.

Lemma apart_app pl f1 f2 : apart pl (f1 ++ f2) <-> apart pl f1 /\ apart pl f2.
Proof. unfold apart. destruct (pl_owner pl); [|done]. rewrite flat_map_app', elem_of_app. tauto. Qed.

Lemma t_root_in t : t_root t ∈ t_locs t.
Proof. destruct t. cbn. by left. Qed.

Lemma t_root_in_list t f : t ∈ f -> t_root t ∈ f_locs f.
Proof. intros I. apply list_elem_of_In, in_flat_map. exists t. split; [by apply list_elem_of_In|]. apply list_elem_of_In, t_root_in. Qed.

Lemma lst_at lo s par pl f1 f2 q : lst lo s par pl (f1 ++ f2) q ->
  lst lo s par (pos pl f1) f2 q /\ exists m, pl_val s (pos pl f1) = Some m /\ lst lo s par pl f1 m.
Proof.
  intros (p & E & H). apply seg_app in H as (m & H1 & H2).
  assert (V : pl_val s (pos pl f1) = Some m).
  { destruct f1 as [|t f1 _] using rev_ind; [rewrite pos_nil; by rewrite E, (seg_end _ _ _ _ _ _ H1 eq_refl)|].
    rewrite pos_snoc. apply seg_app in H1 as (m' & _ & H1). inversion H1 as [|? ? ? ? ? ? G ? ? H]; subst. cbn. rewrite G. cbn.
    by rewrite (seg_end _ _ _ _ _ _ H eq_refl). }
  split; [by exists m|]. exists m. split; [done|]. by exists p.
Qed.

(** Setting the place behind [f1]. *)
Lemma lst_set lo s par pl f1 m x : lst lo s par pl f1 m -> NoDup (f_locs f1) -> apart pl f1 ->
  lst lo (pl_set s (pos pl f1) x) par pl f1 x.
Proof.
  intros (p & E & H) D A. destruct f1 as [|t f1 _] using rev_ind.
  - rewrite pos_nil. exists x. split; [by apply pl_set_val|constructor].
  - rewrite pos_snoc. rewrite flat_map_app' in D. apply list.NoDup_app in D as (_ & D & D').
    assert (O : pl_owner pl <> Some (t_root t)).
    { intros O. unfold apart in A. rewrite O in A. apply A, t_root_in_list, elem_of_app. right. by left. }
    exists p. split; [rewrite <- E; clear -O; destruct pl; cbn in *; [done|..]; rewrite lookup_alter_ne by congruence; done|].
    apply seg_app in H as (m' & H1 & H2). apply seg_app. exists m'. split.
    + apply (seg_frame _ (nodes s)); [done|]. intros l I. apply pl_set_ne. cbn. intros [= <-].
      apply (D (t_root t) I). rewrite flat_map_cons. apply elem_of_app. left. apply t_root_in.
    + inversion H2 as [|? l n kids ? ? G P K F]; subst. cbn [t_root] in *. cbn in D'. rewrite app_nil_r in D'. apply list.NoDup_cons in D' as [D' _].
      change (d_of n) with (d_of (with_next x n)). econstructor; [cbn; by rewrite lookup_alter_eq, G|done| |constructor].
      apply (seg_frame _ (nodes s)); [done|]. intros l' I. apply pl_set_ne. cbn. congruence.
Qed.

Lemma lst_cons lo s par pl c d K f q : lst lo s par pl (T c d K :: f) q <->
  pl_val s pl = Some (Some c) /\ exists n, nodes s !! c = Some n /\ d = d_of n /\ parent_ok par n /\
    lst lo s (kid_parent lo c d) (Child c) K None /\ lst lo s par (Next c) f q.
Proof.
  split.
  - intros (p & E & H). inversion H as [|? l n kids ? ? G P K' F]; subst. split; [done|]. exists n. split; [done|]. split; [done|].
    split; [done|]. split; [exists (n_child n)|exists (n_next n)]; cbn; by rewrite G.
  - intros (E & n & G & -> & P & (p1 & E1 & H1) & (p2 & E2 & H2)). cbn in E1, E2. rewrite G in E1, E2. cbn in E1, E2. exists (Some c).
    split; [done|]. injection E1 as <-. injection E2 as <-. by econstructor.
Qed.

Lemma lst_nil lo s par pl q : lst lo s par pl [] q <-> pl_val s pl = Some q.
Proof. split; [intros (p & E & H); by inversion H; subst|]. intros E. exists q. split; [done|constructor]. Qed.

Lemma lst_frame lo s s' par pl f q : lst lo s par pl f q -> pl_val s' pl = pl_val s pl ->
  (forall l, l ∈ f_locs f -> nodes s' !! l = nodes s !! l) -> lst lo s' par pl f q.
Proof. intros (p & E & H) V F. exists p. split; [by rewrite V|]. by apply (seg_frame _ (nodes s)). Qed.

Lemma lst_val lo s par pl f q : lst lo s par pl f q -> is_Some (pl_val s pl).
Proof. intros (p & E & _). eauto. Qed.

Lemma lst_dom lo s par pl f q l : lst lo s par pl f q -> l ∈ f_locs f -> is_Some (nodes s !! l).
Proof. intros (p & _ & H). by apply (seg_dom _ _ _ _ _ _ _ H). Qed.

(** The nodes of a list are no more than those of the store. *)
Lemma lst_size lo s par pl f q : lst lo s par pl f q -> NoDup (f_locs f) -> (length (f_locs f) <= size (nodes s))%nat.
Proof.
  intros H D. rewrite <- size_dom. replace (length (f_locs f)) with (size (list_to_set (f_locs f) : gset loc)).
  - apply subseteq_size. intros l. rewrite elem_of_list_to_set. intros I. apply elem_of_dom. by apply (lst_dom _ _ _ _ _ _ _ H).
  - by apply size_list_to_set.
Qed.

(** ** What a run changes *)

(** Outside of [L], only the pointer at [pl]. *)
Definition changed (s s' : store) (pl : place) (L : list loc) : Prop := exists v,
  (forall l, l ∉ L -> nodes s' !! l = nodes (pl_set s pl v) !! l) /\ head s' = head (pl_set s pl v).

Lemma pl_set_id s pl v : pl_val s pl = Some v -> pl_set s pl v = s.
Proof.
  destruct s as [g h], pl; cbn; [congruence|..]; intros E; f_equal; apply fmap_Some in E as (n & E & ->); rewrite (alter_at _ _ _ _ E);
  apply insert_id; rewrite E; f_equal; by destruct n.
Qed.

Lemma pl_with_twice pl v w n : pl_with pl v (pl_with pl w n) = pl_with pl v n.
Proof. by destruct pl. Qed.

Lemma pl_set_twice s pl v w l : nodes (pl_set (pl_set s pl v) pl w) !! l = nodes (pl_set s pl w) !! l.
Proof.
  destruct (decide (pl_owner pl = Some l)) as [E|N]; [|by rewrite !pl_set_ne].
  rewrite !(pl_set_owner _ _ _ _ E). destruct (nodes s !! l); [|done]. cbn. by rewrite pl_with_twice.
Qed.

Lemma changed_refl s pl L : is_Some (pl_val s pl) -> changed s s pl L.
Proof. intros [v E]. exists v. by rewrite (pl_set_id _ _ _ E). Qed.

Lemma changed_set s pl v L : changed s (pl_set s pl v) pl L.
Proof. by exists v. Qed.

Lemma changed_trans s s1 s2 pl L1 L2 L : changed s s1 pl L1 -> changed s1 s2 pl L2 -> (forall l, l ∈ L1 \/ l ∈ L2 -> l ∈ L) -> changed s s2 pl L.
Proof.
  intros (v & E1 & H1) (w & E2 & H2) I. exists w. split.
  - intros l N. rewrite E2 by (intros ?; apply N; auto). rewrite <- (pl_set_twice s pl v w).
    destruct (decide (pl_owner pl = Some l)) as [E|]; [|rewrite !pl_set_ne by done; rewrite E1 by (intros ?; apply N; auto); by rewrite pl_set_ne].
    rewrite !(pl_set_owner _ _ _ _ E). f_equal. rewrite E1 by (intros ?; apply N; auto). by rewrite (pl_set_owner _ _ _ _ E).
  - rewrite H2. destruct pl; cbn in *; done.
Qed.

Lemma changed_inner s s' pl pl' L L' : is_Some (pl_val s pl) -> changed s s' pl' L' -> (exists c, pl_owner pl' = Some c /\ c ∈ L) ->
  (forall l, l ∈ L' -> l ∈ L) -> changed s s' pl L.
Proof.
  intros [v E] (w & E1 & H1) (c & O & I) S. exists v. rewrite (pl_set_id _ _ _ E). split.
  - intros l N. rewrite E1 by auto. apply pl_set_ne. rewrite O. congruence.
  - rewrite H1. by destruct pl'.
Qed.

Lemma changed_ne s s' pl L l : changed s s' pl L -> l ∉ L -> pl_owner pl <> Some l -> nodes s' !! l = nodes s !! l.
Proof. intros (v & E & _) N O. rewrite E by done. by apply pl_set_ne. Qed.

Lemma changed_owner s s' pl L c : changed s s' pl L -> pl_owner pl = Some c -> c ∉ L -> exists v, nodes s' !! c = pl_with pl v <$> nodes s !! c.
Proof. intros (v & E & _) O N. exists v. rewrite E by done. by apply pl_set_owner. Qed.

Lemma changed_pl_val s s' pl pl' L : changed s s' pl' L -> pl_owner pl' <> None -> (forall c, pl_owner pl = Some c -> c ∉ L /\ pl_owner pl' <> Some c) ->
  pl_val s' pl = pl_val s pl.
Proof.
  intros (v & E & H) O D. destruct pl; cbn.
  - f_equal. rewrite H. by destruct pl'.
  - destruct (D c eq_refl) as [D1 D2]. by rewrite E, pl_set_ne.
  - destruct (D c eq_refl) as [D1 D2]. by rewrite E, pl_set_ne.
Qed.

(** ** The order of a list does not matter for what is in it *)

#[export] Instance flat_map_perm {A B} (f : A -> list B) : Proper ((≡ₚ) ==> (≡ₚ)) (flat_map f).
Proof.
  intros l l' P. induction P as [|x l l' P IH|x y l|l l' l'' P1 IH1 P2 IH2]; cbn.
  - done.
  - by rewrite IH.
  - by rewrite !app_assoc, (Permutation_app_comm (f y)).
  - by rewrite IH1.
Qed.

Lemma apart_perm pl f f' : f ≡ₚ f' -> apart pl f -> apart pl f'.
Proof. intros P. unfold apart. destruct (pl_owner pl); [|done]. by rewrite P. Qed.
