(* ===== verification/ThreadPrune.v ===== *)
(** * ThreadPrune: the empty nodes go

    [prune_empty] leaves a forest without empty nodes, but for roots with two
    children or more; no message is lost, and a child of a message stays one. *)

From Stdlib Require Import ZArith Lia.
From stdpp Require Import base list numbers gmap option.
From S2P Require Import Prelude Thread ThreadRep.

(** ** What holds of the forest *)

(** Every node has an item. *)
Inductive full : tree -> Prop :=
| full_T l i o kids : Forall full kids -> full (T l (Some i, o) kids).

Definition phantom (t : tree) : Prop := fst (t_data t) = None /\ Forall full (t_kids t) /\ (2 <= length (t_kids t))%nat.

(** A list below the parent [pp], after the pruning. *)
Definition pruned (pp : option loc) (f : list tree) : Prop :=
  Forall (fun t => full t \/ (pp = None /\ phantom t)) f.

(** Messages and the messages under them. *)
Definition d_edges (d e : data) : list (gpointer * gpointer) := match fst d, fst e with Some i, Some j => [(i, j)] | _, _ => [] end.
Fixpoint t_edges (t : tree) : list (gpointer * gpointer) :=
  match t with T _ d kids => flat_map (fun k => d_edges d (t_data k)) kids ++ flat_map t_edges kids end.
Abbreviation f_edges := (flat_map t_edges).

Record pruning (pp : option loc) (f f' : list tree) : Prop := {
  pr_items : f_items f' ≡ₚ f_items f;
  pr_edges : forall e, e ∈ f_edges f -> e ∈ f_edges f';
  pr_locs : forall l, l ∈ f_locs f' -> l ∈ f_locs f;
  pr_nodup : NoDup (f_locs f');
  pr_pruned : pruned pp f';
  (** The children with items that the parent had are still there. *)
  pr_kids : forall i, Some i ∈ map (fun t => fst (t_data t)) f -> Some i ∈ map (fun t => fst (t_data t)) f' }.

(** ** Promoting children *)

Lemma rev_step {A} (t : A) k f : reverse (t :: k) ++ f = reverse k ++ t :: f.
Proof. by rewrite reverse_cons, <- app_assoc. Qed.

Lemma promote_spec fuel pp s c nc pl k f ch : (length k < fuel)%nat -> nodes s !! c = Some nc -> n_parent nc = pp ->
  seg false (nodes s) (Some (Some c)) ch k None -> lst false s (Some pp) pl f None ->
  NoDup (f_locs (k ++ f)) -> c ∉ f_locs (k ++ f) -> apart pl (k ++ f) -> pl_owner pl <> Some c ->
  wp (promote fuel c pl ch) (fun _ s' => lst false s' (Some pp) pl (reverse k ++ f) None /\ changed s s' pl (f_locs k)) s.
Proof.
  revert s k f ch. induction fuel as [|fuel IH]; intros s k f ch L; [lia|]. intros C P H F D NC A O.
  inversion H as [|? l n kids k' ? G PO K Hk]; subst; cbn [promote].
  { apply wp_ret. split; [done|]. apply changed_refl. by apply (lst_val _ _ _ _ _ _ F). }
  cbn [length] in L. rewrite <- app_comm_cons in D, NC, A. cbn in D, NC. apply list.NoDup_cons in D as [D1 D]. apply not_elem_of_cons in NC as [NC1 NC].
  assert (AO : pl_owner pl <> Some l) by (intros E; unfold apart in A; rewrite E in A; cbn in A; set_solver).
  apply wp_bind, (wp_rd _ _ _ _ n G), wp_bind, (wp_rd _ _ _ _ nc C), wp_bind, (wp_wr _ _ _ _ n G).
  set (s1 := upd s l _). destruct F as (p & V & F). assert (V1 : pl_val s1 pl = Some p).
  { rewrite <- V. destruct pl; cbn in *; [done|..]; by rewrite lookup_insert_ne by congruence. }
  apply wp_bind, (wp_rdp _ _ _ _ V1), wp_bind. assert (G1 : nodes s1 !! l = Some (with_parent (n_parent nc) n)) by (cbn; by rewrite lookup_insert_eq).
  apply (wp_wr _ _ _ _ _ G1). set (s2 := upd s1 l _). assert (V2 : pl_val s2 pl = Some p).
  { rewrite <- V1. destruct pl; cbn in *; [done|..]; by rewrite !lookup_insert_ne by congruence. }
  apply wp_bind, wp_wrp; [by eexists|]. set (s3 := pl_set s2 pl (Some l)).
  assert (E3 : forall x, x <> l -> pl_owner pl <> Some x -> nodes s3 !! x = nodes s !! x).
  { intros x N1 N2. unfold s3. rewrite pl_set_ne by done. cbn. by rewrite !lookup_insert_ne. }
  assert (PM : (T l (d_of n) kids :: k') ++ f ≡ₚ k' ++ T l (d_of n) kids :: f) by (cbn; apply Permutation_middle).
  rewrite flat_map_app' in D, D1. rewrite app_assoc in D. apply list.NoDup_app in D as (Dk & D2 & D3).
  assert (AF : forall x, x ∈ f_locs kids ++ f_locs k' ++ f_locs f -> x <> l /\ pl_owner pl <> Some x).
  { intros x I. split; [set_solver|]. intros E. unfold apart in A. rewrite E in A. apply A. cbn. right. by rewrite flat_map_app'. }
  eapply wp_mono; [apply (IH s3 k' (T l (d_of n) kids :: f) (n_next n)); [lia| |done| | | | | |done]|].
  - rewrite E3; [done| |done]. congruence.
  - apply (seg_frame _ (nodes s)); [done|]. intros x I. apply E3; apply AF; set_solver.
  - apply lst_cons. split; [apply pl_set_val; by eexists|]. eexists. split; [unfold s3; rewrite pl_set_ne by done; cbn; by rewrite lookup_insert_eq|].
    split; [done|]. split; [done|]. split.
    + exists (n_child n). split; [unfold s3; cbn [pl_val]; rewrite pl_set_ne by done; cbn; by rewrite lookup_insert_eq|].
      apply (seg_frame _ (nodes s)); [done|]. intros x I. apply E3; apply AF; set_solver.
    + exists p. split; [unfold s3; cbn [pl_val]; rewrite pl_set_ne by done; cbn; by rewrite lookup_insert_eq|].
      apply (seg_frame _ (nodes s)); [done|]. intros x I. apply E3; apply AF; set_solver.
  - rewrite <- PM. cbn. apply list.NoDup_cons. split; [by rewrite flat_map_app'|]. rewrite flat_map_app', app_assoc. by apply list.NoDup_app.
  - rewrite <- PM. cbn. set_solver.
  - by apply (apart_perm _ _ _ PM).
  - intros _ s' [R1 R2]. split; [by rewrite rev_step|].
    apply (changed_trans s s3 s' pl [l] (f_locs k')); [|done|cbn; set_solver].
    exists (Some l). split; [|by destruct pl].
    intros x N. assert (x <> l) as N' by set_solver. unfold s3. destruct (decide (pl_owner pl = Some x)) as [E|E].
    + rewrite !(pl_set_owner _ _ _ _ E). cbn. by rewrite !lookup_insert_ne.
    + rewrite !pl_set_ne by done. cbn. by rewrite !lookup_insert_ne.
Qed.

(** ** The steps of the pruning *)

Lemma pruning_nil pp : pruning pp [] [].
Proof. split; [done|done|done|constructor|constructor|done]. Qed.

Lemma edges_of (d : data) (e : gpointer * gpointer) k : e ∈ flat_map (fun t => d_edges d (t_data t)) k <->
  exists i j, e = (i, j) /\ fst d = Some i /\ Some j ∈ map (fun t => fst (t_data t)) k.
Proof.
  induction k as [|t k IH]; cbn.
  - split; [by intros I%elem_of_nil|]. intros (i & j & _ & _ & I). by apply elem_of_nil in I.
  - rewrite elem_of_app, IH. unfold d_edges. split.
    + intros [I|(i & j & -> & E & I)]; [|exists i, j; by rewrite elem_of_cons; auto].
      destruct (fst d) as [i|] eqn:E1, (fst (t_data t)) as [j|] eqn:E2; try (by apply elem_of_nil in I).
      apply list_elem_of_singleton in I as ->. exists i, j. split; [done|]. split; [done|]. rewrite elem_of_cons. auto.
    + intros (i & j & -> & E & I). apply elem_of_cons in I as [I|I]; [left; rewrite E, <- I; by left|right; eauto].
Qed.

Lemma pruning_keep pp c d k k' f f' : pruning (Some c) k k' -> pruning pp f f' -> NoDup (f_locs (T c d k :: f)) ->
  full (T c d k') \/ (pp = None /\ phantom (T c d k')) -> pruning pp (T c d k :: f) (T c d k' :: f').
Proof.
  intros [I1 E1 L1 N1 P1 K1] [I2 E2 L2 N2 P2 K2] D F. cbn in D. apply list.NoDup_cons in D as [D1 D]. apply list.NoDup_app in D as (_ & D2 & _). split.
  - cbn. by rewrite I1, I2.
  - cbn [flat_map t_edges]. intros e. rewrite !elem_of_app, !edges_of. intros [[(i & j & -> & E & I)|I]|I]; [|auto..]. left. left. exists i, j. auto.
  - cbn. intros l. rewrite !elem_of_cons, !elem_of_app. intros [->|[I|I]]; auto.
  - cbn. rewrite list.NoDup_cons, list.NoDup_app, elem_of_app. split; [intros [I|I]; apply D1, elem_of_app; auto|].
    split; [done|]. split; [|done]. intros x I J. apply (D2 x); auto.
  - by constructor.
  - cbn. intros i. rewrite !elem_of_cons. intros [->|I]; auto.
Qed.

Lemma pruning_promote pp c o k k' f f' : pruning (Some c) k k' -> pruning pp (reverse k' ++ f) f' -> pruning pp (T c (None, o) k :: f) f'.
Proof.
  intros [I1 E1 L1 N1 P1 K1] [I2 E2 L2 N2 P2 K2]. rewrite !flat_map_app', reverse_Permutation in I2. split.
  - cbn. by rewrite I2, I1.
  - cbn [flat_map t_edges]. intros e. rewrite !elem_of_app, edges_of. intros [[(i & j & _ & E & _)|I]|I]; [done|..]; apply E2; rewrite flat_map_app', elem_of_app; [left|by right].
    rewrite (flat_map_perm _ _ _ (reverse_Permutation k')). auto.
  - intros l I. apply L2 in I. rewrite flat_map_app', elem_of_app, reverse_Permutation in I. cbn. rewrite elem_of_cons, elem_of_app. destruct I; auto.
  - done.
  - done.
  - cbn. intros i I. apply elem_of_cons in I as [I|I]; [done|]. apply K2. rewrite map_app, elem_of_app. by right.
Qed.

Lemma pruning_drop pp c o k f f' : pruning (Some c) k [] -> pruning pp f f' -> pruning pp (T c (None, o) k :: f) f'.
Proof. intros P1 P2. by apply (pruning_promote pp c o k []). Qed.

Lemma pruned_full c f : pruned (Some c) f -> Forall full f.
Proof. intros H. eapply list.Forall_impl; [exact H|]. cbn. intros t [?|[? ?]]; done. Qed.

(** ** The loop *)

Definition prune_post (pp : option loc) (pl : place) (f : list tree) (s s' : store) : Prop :=
  exists f', lst false s' (Some pp) pl f' None /\ pruning pp f f' /\ changed s s' pl (f_locs f).

(** A list at [pl] that starts with [c], after the pruning of what is below [c]. *)
Lemma pruned_kids s s1 pp pl c d k f : lst false s (Some pp) pl (T c d k :: f) None -> NoDup (f_locs (T c d k :: f)) ->
  apart pl (T c d k :: f) -> prune_post (Some c) (Child c) k s s1 ->
  exists k', pruning (Some c) k k' /\ lst false s1 (Some pp) pl (T c d k' :: f) None /\ changed s s1 pl (f_locs (T c d k :: f)).
Proof.
  intros H D A (k' & H1 & P & C). exists k'. split; [done|]. apply lst_cons in H as (V & n & G & E & PO & HK & HF). cbn in D.
  apply list.NoDup_cons in D as [D1 D]. apply list.NoDup_app in D as (D2 & D3 & D4).
  assert (Fr : forall l, l <> c -> l ∉ f_locs k -> nodes s1 !! l = nodes s !! l) by (intros l N1 N2; apply (changed_ne _ _ _ _ _ C); cbn; congruence).
  assert (Vl : forall pl', (forall x, pl_owner pl' = Some x -> x ∉ f_locs k /\ x <> c) -> pl_val s1 pl' = pl_val s pl').
  { intros pl' N. apply (changed_pl_val _ _ _ _ _ C); [done|]. intros x O. cbn. split; [by apply N|]. intros [= ->]. by apply (N x O). }
  split.
  - apply lst_cons. split.
    + rewrite Vl; [done|]. intros x O. unfold apart in A. rewrite O in A. cbn in A. set_solver.
    + destruct (changed_owner _ _ _ _ c C eq_refl) as [v Ev]; [set_solver|]. rewrite G in Ev. cbn in Ev. eexists. split; [exact Ev|].
      split; [done|]. split; [done|]. split; [done|]. apply (lst_frame _ s); [done| |intros l I; apply Fr; [set_solver|intros J; by apply (D3 l)]].
      cbn. by rewrite Ev, G.
  - apply (changed_inner _ _ _ _ _ _ (ex_intro _ _ V) C); [exists c; cbn; split; [done|by left]|]. cbn. set_solver.
Qed.

(** The rest of the list, behind [c]. *)
Lemma pruned_rest s s1 pp pl c d k f : lst false s (Some pp) pl (T c d k :: f) None -> NoDup (f_locs (T c d k :: f)) ->
  apart pl (T c d k :: f) -> prune_post pp (Next c) f s s1 ->
  exists f', pruning pp f f' /\ lst false s1 (Some pp) pl (T c d k :: f') None /\ changed s s1 pl (f_locs (T c d k :: f)).
Proof.
  intros H D A (f' & H1 & P & C). exists f'. split; [done|]. apply lst_cons in H as (V & n & G & -> & PO & HK & HF). cbn in D.
  apply list.NoDup_cons in D as [D1 D]. apply list.NoDup_app in D as (D2 & D3 & D4).
  assert (Fr : forall l, l <> c -> l ∉ f_locs f -> nodes s1 !! l = nodes s !! l) by (intros l N1 N2; apply (changed_ne _ _ _ _ _ C); cbn; congruence).
  destruct (changed_owner _ _ _ _ c C eq_refl) as [v Ev]; [set_solver|]. rewrite G in Ev. cbn in Ev. split.
  - apply lst_cons. split.
    + rewrite (changed_pl_val _ _ pl _ _ C); [done|done|]. intros x O. unfold apart in A. rewrite O in A. cbn in *. split; [set_solver|]. intros [= ->]. set_solver.
    + eexists. split; [exact Ev|]. split; [done|]. split; [done|]. split; [|done].
      apply (lst_frame _ s); [done|cbn; by rewrite Ev, G|]. intros l I. apply Fr; [set_solver|]. intros J. by apply (D3 l).
  - apply (changed_inner _ _ _ _ _ _ (ex_intro _ _ V) C); [exists c; cbn; split; [done|by left]|]. cbn. set_solver.
Qed.

Lemma pruning_disjoint pp c d k k' f pl : pruning pp k k' -> NoDup (f_locs (T c d k :: f)) -> apart pl (T c d k :: f) ->
  NoDup (f_locs (T c d k' :: f)) /\ apart pl (T c d k' :: f) /\ (length (f_locs k') <= length (f_locs k))%nat /\
  (forall l, l ∈ f_locs (T c d k' :: f) -> l ∈ f_locs (T c d k :: f)).
Proof.
  intros [_ _ L N _ _] D A. cbn in D. apply list.NoDup_cons in D as [D1 D]. apply list.NoDup_app in D as (D2 & D3 & D4).
  assert (S : forall l, l ∈ f_locs (T c d k' :: f) -> l ∈ f_locs (T c d k :: f)).
  { intros l. cbn. rewrite !elem_of_cons, !elem_of_app. intros [->|[I|I]]; auto. }
  split; [cbn; apply list.NoDup_cons; split; [intros I; apply D1; revert I; rewrite !elem_of_app; intros [I|I]; auto|apply list.NoDup_app; auto]|].
  split; [unfold apart in *; destruct (pl_owner pl); auto|]. split; [|done]. apply submseteq_length, NoDup_submseteq; auto.
Qed.

(** [lastc->next = c->next]: the list without [c]. *)
Lemma lst_unlink s par pl c d k f n : lst false s par pl (T c d k :: f) None -> NoDup (f_locs (T c d k :: f)) -> apart pl (T c d k :: f) ->
  nodes s !! c = Some n -> let s1 := pl_set s pl (n_next n) in
  lst false s1 par pl f None /\ changed s s1 pl [] /\ (forall l, l ∈ f_locs (T c d k :: f) -> nodes s1 !! l = nodes s !! l).
Proof.
  intros H D A G s1. apply lst_cons in H as (V & n' & G' & _ & _ & _ & HF). assert (n' = n) as -> by congruence.
  assert (Fr : forall l, l ∈ f_locs (T c d k :: f) -> nodes s1 !! l = nodes s !! l).
  { intros l I. apply pl_set_ne. intros O. unfold apart in A. by rewrite O in A. }
  split; [|split; [by exists (n_next n)|done]]. exists (n_next n). split; [apply pl_set_val; eauto|].
  destruct HF as (q & Vq & HF). cbn in Vq. rewrite G in Vq. cbn in Vq. injection Vq as <-. apply (seg_frame _ (nodes s)); [done|].
  intros l I. apply Fr. cbn. set_solver.
Qed.

(** An empty node without children goes. *)
Lemma drop_step s pp pl c n k' f (Q : unit -> M unit) : lst false s (Some pp) pl (T c (d_of n) k' :: f) None -> NoDup (f_locs (T c (d_of n) k' :: f)) ->
  apart pl (T c (d_of n) k' :: f) -> nodes s !! c = Some n ->
  (forall s3, lst false s3 (Some pp) pl f None -> changed s s3 pl [c] -> wp (Q ()) (fun _ => prune_post pp pl f s3) s3) ->
  wp (next ← rd c n_next; wrp pl next;; memchunk_free c;; Q ()) (fun _ s' => exists s3, changed s s3 pl [c] /\ prune_post pp pl f s3 s') s.
Proof.
  intros H D A G HQ. destruct (lst_unlink _ _ _ _ _ _ _ _ H D A G) as (H2 & C2 & F2). pose proof (lst_val _ _ _ _ _ _ H) as V.
  apply wp_bind, (wp_rd _ _ _ _ n G), wp_bind, wp_wrp; [done|]. set (s2 := pl_set s pl (n_next n)) in *.
  assert (G2 : nodes s2 !! c = Some n) by (rewrite F2; [done|by left]).
  assert (O : pl_owner pl <> Some c) by (intros O; unfold apart in A; rewrite O in A; apply A; by left).
  apply wp_bind, (wp_free _ _ _ _ G2). set (s3 := Store _ _). cbn in D. apply list.NoDup_cons in D as [D1 D].
  assert (C3 : changed s s3 pl [c]).
  { exists (n_next n). split; [|done]. intros l N. cbn. rewrite lookup_delete_ne by set_solver. done. }
  eapply wp_mono; [apply HQ; [|done]|intros u s' P; exists s3; done].
  apply (lst_frame _ s2); [done| |].
  - destruct pl; cbn in *; [done|..]; rewrite lookup_delete_ne; congruence.
  - intros l I. cbn. rewrite lookup_delete_ne; [done|]. intros ->. set_solver.
Qed.

(** The children of an empty node are promoted. *)
Lemma promote_step s pp pl c n ch k' f (Q : unit -> M unit) : lst false s (Some pp) pl (T c (d_of n) k' :: f) None -> NoDup (f_locs (T c (d_of n) k' :: f)) ->
  apart pl (T c (d_of n) k' :: f) -> nodes s !! c = Some n -> n_child n = Some ch ->
  (forall s3, lst false s3 (Some pp) pl (reverse k' ++ f) None -> changed s s3 pl (f_locs k') -> wp (Q ()) (fun _ => prune_post pp pl (reverse k' ++ f) s3) s3) ->
  wp (next ← rd c n_next; wrp pl next;; rounds ← all_nodes; promote rounds c pl (Some ch);; Q ())
    (fun _ s' => exists s3, changed s s3 pl (f_locs k') /\ prune_post pp pl (reverse k' ++ f) s3 s') s.
Proof.
  intros H D A G Ch HQ. destruct (lst_unlink _ _ _ _ _ _ _ _ H D A G) as (H2 & C2 & F2). pose proof (lst_val _ _ _ _ _ _ H) as V.
  apply lst_cons in H as (_ & n' & G' & _ & PO & HK & _). assert (n' = n) as -> by congruence.
  apply wp_bind, (wp_rd _ _ _ _ n G), wp_bind, wp_wrp; [done|]. set (s2 := pl_set s pl (n_next n)) in *.
  assert (O : pl_owner pl <> Some c) by (intros O; unfold apart in A; rewrite O in A; apply A; by left).
  assert (A3 : apart pl (k' ++ f)).
  { unfold apart in *. destruct (pl_owner pl); [|done]. rewrite flat_map_app'. cbn in A. set_solver. }
  cbn in D, F2. apply list.NoDup_cons in D as [D1 D]. rewrite <- flat_map_app' in D1, D.
  assert (HK2 : lst false s2 (Some (Some c)) (Child c) k' None).
  { apply (lst_frame _ s); [done|cbn; rewrite F2; [done|by left]|]. intros l I. apply F2. set_solver. }
  apply wp_bind, wp_all_nodes, wp_bind. eapply wp_mono; [apply (promote_spec _ pp s2 c n pl k' f (Some ch))|].
  - apply Nat.lt_succ_r. rewrite flat_map_app' in D. apply list.NoDup_app in D as (Dk & _). etransitivity; [|apply (lst_size _ _ _ _ _ _ HK2 Dk)].
    clear. induction k' as [|t k IH]; cbn; [done|]. rewrite length_app. destruct t. cbn. lia.
  - rewrite F2; [done|by left].
  - done.
  - destruct HK2 as (p & E & S2). cbn in E. rewrite F2, G in E by (by left). cbn in E. congruence.
  - done.
  - done.
  - done.
  - done.
  - done.
  - intros u s3 [H3 C3]. assert (changed s s3 pl (f_locs k')) as C by (apply (changed_trans _ _ _ _ _ _ _ C2 C3); set_solver).
    eapply wp_mono; [apply HQ; [done|done]|]. intros v s' P. exists s3. done.
Qed.

Lemma promoted_disjoint pl c d k f : NoDup (f_locs (T c d k :: f)) -> apart pl (T c d k :: f) ->
  NoDup (f_locs (reverse k ++ f)) /\ apart pl (reverse k ++ f) /\ length (f_locs (reverse k ++ f)) = (length (f_locs k) + length (f_locs f))%nat.
Proof.
  intros D A. cbn in D. apply list.NoDup_cons in D as [D1 D].
  assert (P : f_locs (reverse k ++ f) ≡ₚ f_locs k ++ f_locs f) by by rewrite flat_map_app', reverse_Permutation.
  split; [by rewrite P|]. split; [|by rewrite P, length_app]. unfold apart in *. destruct (pl_owner pl); [|done]. rewrite P. cbn in A. set_solver.
Qed.

Lemma prune_empty_spec fuel pp s pl f : (length (f_locs f) < fuel)%nat -> lst false s (Some pp) pl f None -> NoDup (f_locs f) -> apart pl f ->
  wp (prune_empty fuel pl) (fun _ => prune_post pp pl f s) s.
Proof.
  revert pp s pl f. induction fuel as [|fuel IH]; intros pp s pl f L H D A; [lia|]. cbn [prune_empty].
  destruct f as [|[c d k] f].
  { apply lst_nil in H as V. apply wp_bind, (wp_rdp _ _ _ _ V), wp_ret. exists []. split; [done|]. split; [apply pruning_nil|]. apply changed_refl. eauto. }
  pose proof H as H0. apply lst_cons in H0 as (V & _ & _ & _ & _ & HK & _). cbn in L. rewrite length_app in L. pose proof D as D0. cbn in D0.
  apply list.NoDup_cons in D0 as [D1 D0]. apply list.NoDup_app in D0 as (D2 & D3 & D4).
  apply wp_bind, (wp_rdp _ _ _ _ V), wp_bind. eapply wp_mono; [apply (IH (Some c) s (Child c) k); [lia|done|done|cbn; set_solver]|].
  intros u1 s1 R0. cbn beta in R0. destruct (pruned_kids _ _ _ _ _ _ _ _ H D A R0) as (k' & P & H1 & C1). clear R0 HK V H.
  destruct (pruning_disjoint _ _ _ _ _ _ _ P D A) as (D' & A' & Lk & Sub). pose proof H1 as H2. apply lst_cons in H2 as (V & n & G & -> & PO & HK & HF).
  apply wp_bind, (wp_rd _ _ _ _ n G).
  assert (KEEP : full (T c (d_of n) k') \/ (pp = None /\ phantom (T c (d_of n) k')) -> wp (prune_empty fuel (Next c)) (fun _ => prune_post pp pl (T c (d_of n) k :: f) s) s1).
  { intros F. eapply wp_mono; [apply (IH pp s1 (Next c) f); [lia|done|done|cbn; set_solver]|]. intros u2 s2 R. cbn beta in R.
    destruct (pruned_rest _ _ _ _ _ _ _ _ H1 D' A' R) as (f' & P' & H2 & C2). exists (T c (d_of n) k' :: f'). split; [done|].
    split; [by apply pruning_keep|]. apply (changed_trans _ _ _ _ _ _ _ C1 C2). intros l [?|?]; auto. }
  pose proof (pruned_full _ _ (pr_pruned _ _ _ P)) as FK. destruct HK as (cp & Ec & SK). cbn in Ec. rewrite G in Ec. cbn in Ec. injection Ec as Ec.
  assert (Ed : d_of n = (n_item n, n_order n)) by done.
  destruct (n_item n) as [i|] eqn:EI; [apply KEEP; left; rewrite Ed; by constructor|].
  apply wp_bind, (wp_rd _ _ _ _ n G). destruct (n_child n) as [ch|] eqn:ECh.
  - apply wp_bind, (wp_rd _ _ _ _ n G), wp_bind. cbn in PO. rewrite PO.
    set (only := if pp then true else bool_decide (length k' = 1)%nat).
    assert (HO : forall R, R only s1 -> wp (match pp with Some _ => mret true | None => cn ← rd ch n_next; mret (bool_decide (cn = None)) end) R s1).
    { intros R HR. unfold only in HR. destruct pp; [done|]. rewrite <- Ec in SK. inversion SK as [|? l n1 ? k2 ? G1 ? ? SK2]; subst. apply wp_bind, (wp_rd _ _ _ _ n1 G1), wp_ret.
      replace (bool_decide (n_next n1 = None)) with (bool_decide (length (T ch (d_of n1) kids :: k2) = 1)%nat); [done|].
      apply bool_decide_ext. cbn. inversion SK2; subst; cbn; split; try done; lia. }
    apply HO. clear HO. destruct only eqn:EO.
    + eapply wp_mono; [apply (promote_step s1 pp pl c n ch k' f (fun _ => prune_empty fuel pl) H1 D' A' G ECh)|].
      * intros s3 H3 C3. destruct (promoted_disjoint pl c (d_of n) k' f D' A') as (DR & AR & LR). apply IH; [lia|done|done|done].
      * intros v s' (s3 & C3 & f' & H' & P' & C'). exists f'. split; [done|]. split; [rewrite Ed; by apply (pruning_promote _ _ _ _ k')|].
        assert (S2 : forall l, l ∈ f_locs k' \/ l ∈ f_locs (reverse k' ++ f) -> l ∈ f_locs (T c (d_of n) k :: f)).
        { intros l I. apply Sub. cbn. rewrite flat_map_app', elem_of_app, reverse_Permutation in I. set_solver. }
        apply (changed_trans _ s1 _ _ _ _ _ C1 (changed_trans _ _ _ _ _ _ _ C3 C' S2)). tauto.
    + apply KEEP. right. unfold only in EO. destruct pp; [done|]. split; [done|]. apply bool_decide_eq_false in EO. split; [by rewrite Ed|].
      split; [done|]. cbn. destruct k' as [|? [|]]; cbn in *; [|done|lia]. inversion SK. congruence.
  - inversion SK as [? ? E1 E2 E3 E4|]; [|congruence]. subst k'.
    eapply wp_mono; [apply (drop_step s1 pp pl c n [] f (fun _ => prune_empty fuel pl) H1 D' A' G)|].
    + intros s3 H3 C3. apply IH; [lia|done|done|]. revert A'. unfold apart. destruct (pl_owner pl); [|done]. cbn. set_solver.
    + intros v s' (s3 & C3 & f' & H' & P' & C'). exists f'. split; [done|]. split; [rewrite Ed; by apply pruning_drop|].
      assert (S2 : forall l, l ∈ [c] \/ l ∈ f_locs f -> l ∈ f_locs (T c (d_of n) k :: f)) by (cbn; set_solver).
      apply (changed_trans _ s1 _ _ _ _ _ C1 (changed_trans _ _ _ _ _ _ _ C3 C' S2)). tauto.
Qed.
