(* ===== verification/ThreadLink.v ===== *)
(** * ThreadLink: linking messages by their references

    While references are looked at, the nodes are not in one list yet: [linked]
    says which children each node has, that [child] and [next] spell them out,
    and that every node has a root above it.  [container_parent_child] keeps that
    and moves the child unless it is above its new parent. *)

From Stdlib Require Import ZArith Lia.
From stdpp Require Import base list numbers gmap option functions.
From S2P Require Import Prelude Thread ThreadRep.

(** ** Following a pointer *)

Abbreviation graph := (gmap loc ThreadNode) (only parsing).

Fixpoint path (f : ThreadNode -> option loc) (g : graph) (o : option loc) (l : list loc) : Prop :=
  match l with [] => o = None | x :: l => o = Some x /\ exists n, g !! x = Some n /\ path f g (f n) l end.

Lemma path_fun f g o l l' : path f g o l -> path f g o l' -> l = l'.
Proof.
  revert o l'. induction l as [|x l IH]; intros o [|y l'] H1 H2; cbn in *; try done.
  - by destruct H2 as [-> _].
  - by destruct H1 as [-> _].
  - destruct H1 as (-> & n & G & H1), H2 as ([= <-] & n' & G' & H2). assert (n' = n) as -> by congruence. f_equal. eauto.
Qed.

Lemma path_suffix f g o a x b : path f g o (a ++ x :: b) -> exists n, g !! x = Some n /\ path f g (f n) b.
Proof.
  revert o. induction a as [|y a IH]; intros o H; cbn in H; [by destruct H as (_ & n & G & H); exists n|].
  destruct H as (_ & n & _ & H). eauto.
Qed.

Lemma path_nodup f g o l : path f g o l -> NoDup l.
Proof.
  revert o. induction l as [|x l IH]; intros o H; [constructor|]. destruct H as (-> & n & G & H). apply list.NoDup_cons. split; [|eauto].
  intros (a & b & ->)%list_elem_of_split. destruct (path_suffix _ _ _ _ _ _ H) as (n' & G' & H'). assert (n' = n) as -> by congruence.
  pose proof (f_equal length (path_fun _ _ _ _ _ H H')) as E. rewrite length_app in E. cbn in E. lia.
Qed.

Lemma path_dom f g o l x : path f g o l -> x ∈ l -> is_Some (g !! x).
Proof. intros H (a & b & ->)%list_elem_of_split. destruct (path_suffix _ _ _ _ _ _ H) as (n & G & _). eauto. Qed.

Lemma path_size f g o l : path f g o l -> (length l <= size g)%nat.
Proof.
  intros H. rewrite <- size_dom, <- (size_list_to_set (C := gset loc) l) by by eapply path_nodup.
  apply subseteq_size. intros x I. rewrite elem_of_list_to_set in I. apply elem_of_dom. by eapply path_dom.
Qed.

Lemma path_frame f g g' o l : path f g o l -> (forall x, x ∈ l -> f <$> g' !! x = f <$> g !! x) -> path f g' o l.
Proof.
  revert o. induction l as [|x l IH]; intros o H E; [done|]. destruct H as (-> & n & G & H). split; [done|].
  pose proof (E x ltac:(left)) as Ex. rewrite G in Ex. apply fmap_Some in Ex as (n' & G' & Ef). exists n'. split; [done|]. rewrite <- Ef. apply IH; [done|].
  intros y I. apply E. by right.
Qed.

(** What is above a node. *)
Definition above (g : graph) (c : loc) (l : list loc) : Prop := exists n, g !! c = Some n /\ path n_parent g (n_parent n) l.

Lemma above_path g c l : above g c l <-> path n_parent g (Some c) (c :: l).
Proof. cbn. unfold above. naive_solver. Qed.

Lemma above_fun g c l l' : above g c l -> above g c l' -> l = l'.
Proof. rewrite !above_path. intros H1 H2. by injection (path_fun _ _ _ _ _ H1 H2). Qed.

Lemma above_nodup g c l : above g c l -> NoDup (c :: l).
Proof. rewrite above_path. apply path_nodup. Qed.

Lemma above_suffix g c a x b : above g c (a ++ x :: b) -> above g x b.
Proof. rewrite above_path, app_comm_cons. intros H. destruct (path_suffix _ _ _ _ _ _ H) as (n & G & H'). by exists n. Qed.

Lemma above_size g c l : above g c l -> (length l < size g)%nat.
Proof. rewrite above_path. intros H%path_size. done. Qed.

(** ** Linked nodes *)

(** [x]: a node that is between two parents, whose [next] is not reset yet. *)
Record linked (x : option loc) (g : graph) (kids : loc -> list loc) : Prop := {
  lk_chain : forall p n, g !! p = Some n -> path n_next g (n_child n) (kids p);
  lk_kid : forall p c, c ∈ kids p <-> exists n, g !! c = Some n /\ n_parent n = Some p;
  lk_root : forall c n, g !! c = Some n -> n_parent n = None -> Some c <> x -> n_next n = None;
  lk_above : forall c, is_Some (g !! c) -> exists l, above g c l }.

Lemma linked_parent x g kids c n p : linked x g kids -> g !! c = Some n -> n_parent n = Some p -> is_Some (g !! p).
Proof.
  intros H G P. destruct (lk_above _ _ _ H c) as (l & n' & G' & A); [eauto|]. assert (n' = n) as -> by congruence. rewrite P in A.
  destruct l as [|y l]; [done|]. destruct A as ([= <-] & m & Gm & _). eauto.
Qed.

Lemma is_above_spec fuel s child o l Q : path n_parent (nodes s) o l -> (length l < fuel)%nat -> Q (bool_decide (child ∈ l)) s -> wp (is_above fuel child o) Q s.
Proof.
  revert o l. induction fuel as [|fuel IH]; intros o l H L HQ; [lia|]. destruct l as [|x l].
  - cbn in H. subst o. cbn. apply wp_ret. rewrite bool_decide_eq_false_2 in HQ by apply not_elem_of_nil. done.
  - destruct H as (-> & n & G & H). cbn [is_above]. destruct (decide (x = child)) as [->|N].
    + apply wp_ret. rewrite bool_decide_eq_true_2 in HQ by left. done.
    + apply wp_bind, (wp_rd _ _ _ _ n G), (IH _ l); [done|cbn in L; lia|].
      rewrite (bool_decide_ext _ (child ∈ x :: l)); [done|]. rewrite elem_of_cons. naive_solver.
Qed.

(** The place behind the nodes [a] of a list. *)
Definition lpos (pl : place) (a : list loc) : place := match list.last a with Some l => Next l | None => pl end.

Lemma find_before_spec fuel s pl o a c b Q : pl_val s pl = Some o -> path n_next (nodes s) o (a ++ c :: b) -> (length a < fuel)%nat ->
  Q (Some (lpos pl a)) s -> wp (find_before fuel pl c) Q s.
Proof.
  revert pl o a. induction fuel as [|fuel IH]; intros pl o a V H L HQ; [lia|]. cbn [find_before]. apply wp_bind, (wp_rdp _ _ _ _ V).
  pose proof (path_nodup _ _ _ _ H) as D. destruct a as [|x a].
  - destruct H as (-> & _). by rewrite decide_True.
  - destruct H as (-> & n & G & H). cbn in D. apply list.NoDup_cons in D as [D _]. rewrite decide_False by set_solver.
    apply (IH _ (n_next n) a); [cbn; by rewrite G|done|cbn in L; lia|].
    replace (lpos (Next x) a) with (lpos pl (x :: a)); [done|]. unfold lpos. rewrite last_cons. by destruct (list.last a).
Qed.

(** ** Taking a child out of its list *)

(** The same messages, and the same parents but for [c]. *)
Definition same_data (g g' : graph) : Prop := forall l, d_of <$> g' !! l = d_of <$> g !! l.
Definition parents_but (c : loc) (g g' : graph) : Prop := forall l, l <> c -> n_parent <$> g' !! l = n_parent <$> g !! l.

Lemma chain_remove g g' o a c n b : path n_next g o (a ++ c :: b) -> g !! c = Some n ->
  (forall x, x ∈ a ++ b -> n_next <$> g' !! x = (if decide (list.last a = Some x) then Some (n_next n) else n_next <$> g !! x)) ->
  path n_next g' (match a with [] => n_next n | _ => o end) (a ++ b).
Proof.
  intros H G. pose proof (path_nodup _ _ _ _ H) as D. revert o H D. induction a as [|x a IH]; intros o H D E.
  - destruct H as (-> & n' & G' & H). assert (n' = n) as -> by congruence. apply (path_frame _ g); [done|]. intros x I. rewrite (E x I). by rewrite decide_False.
  - destruct H as (-> & m & Gm & H). split; [done|]. cbn in D. apply list.NoDup_cons in D as [D1 D].
    pose proof (E x ltac:(left)) as Ex. rewrite last_cons in Ex.
    assert (E' : forall y, y ∈ a ++ b -> n_next <$> g' !! y = if decide (list.last a = Some y) then Some (n_next n) else n_next <$> g !! y).
    { intros y I. rewrite (E y) by (by right). rewrite last_cons. destruct (list.last a) as [z|] eqn:La; [done|].
      destruct a; [|rewrite last_cons in La; destruct (list.last a); done]. rewrite decide_False by (intros [= ->]; apply D1; cbn; by right). by rewrite decide_False. }
    specialize (IH _ H D E'). destruct a as [|y a].
    + cbn in Ex. rewrite decide_True in Ex by done. apply fmap_Some in Ex as (m' & Gm' & En). exists m'. split; [done|]. by rewrite <- En.
    + assert (Lx : list.last (y :: a) <> Some x) by (intros La; apply D1, elem_of_app; left; apply last_Some_elem_of in La; done).
      destruct (list.last (y :: a)) as [z|] eqn:La; [|rewrite last_cons in La; by destruct (list.last a)].
      rewrite decide_False in Ex by congruence. rewrite Gm in Ex. apply fmap_Some in Ex as (m' & Gm' & En). exists m'. split; [done|]. by rewrite <- En.
Qed.

Section unlink.
Context (s : store) (kids : loc -> list loc) (child old : loc) (nc : ThreadNode) (a b : list loc).
Context (L : linked None (nodes s) kids) (G : nodes s !! child = Some nc) (P : n_parent nc = Some old) (K : kids old = a ++ child :: b).
Let s1 := pl_set s (lpos (Child old) a) (n_next nc).
Let s2 := upd s1 child (with_parent None nc).

Lemma unlink_facts : NoDup (a ++ child :: b) /\ child <> old /\ (forall x, list.last a = Some x -> x <> child /\ exists n, nodes s !! x = Some n /\ n_parent n = Some old) /\
  exists no, nodes s !! old = Some no /\ path n_next (nodes s) (n_child no) (a ++ child :: b).
Proof using All.
  destruct (linked_parent _ _ _ _ _ _ L G P) as [no Go]. pose proof (lk_chain _ _ _ L _ _ Go) as C. rewrite K in C.
  pose proof (path_nodup _ _ _ _ C) as D. split; [done|]. split.
  - intros ->. destruct (lk_above _ _ _ L old) as (l & A); [eauto|]. pose proof (above_nodup _ _ _ A) as N. destruct A as (n & G' & A).
    assert (n = nc) as -> by congruence. rewrite P in A. destruct l as [|y l]; [done|]. destruct A as ([= <-] & _). apply list.NoDup_cons in N as [N _]. apply N. by left.
  - split; [|eauto]. intros x La. apply last_Some_elem_of in La. split.
    + intros ->. apply list.NoDup_app in D as (_ & D & _). apply (D child La). by left.
    + apply (lk_kid _ _ _ L). rewrite K. apply elem_of_app. by left.
Qed.

Lemma unlink_val : is_Some (pl_val s (lpos (Child old) a)).
Proof using All.
  destruct unlink_facts as (_ & _ & F & no & Go & _). unfold lpos. destruct (list.last a) as [x|]; cbn; [|rewrite Go; cbn; eauto].
  destruct (F x eq_refl) as (_ & n & Gn & _). rewrite Gn. cbn. eauto.
Qed.

Lemma unlink_child : nodes s1 !! child = Some nc.
Proof using All.
  destruct unlink_facts as (_ & N & F & _). unfold s1. rewrite pl_set_ne; [done|]. unfold lpos.
  destruct (list.last a) as [x|]; cbn; [|congruence]. intros [= ->]. by destruct (F child eq_refl).
Qed.

(** What each node becomes. *)
Lemma unlink_node l : nodes s2 !! l = (if decide (l = child) then Some (with_parent None nc) else
  (if decide (list.last a = Some l) then with_next (n_next nc) else if decide (a = [] /\ l = old) then with_child (n_next nc) else id) <$> nodes s !! l).
Proof using All.
  unfold s2, upd. cbn. destruct (decide (l = child)) as [->|N]; [by rewrite lookup_insert_eq|]. rewrite lookup_insert_ne by done.
  unfold s1, lpos. destruct (list.last a) as [x|] eqn:La; cbn.
  - destruct (decide (l = x)) as [->|N2].
    + rewrite lookup_alter_eq, decide_True by done. done.
    + rewrite lookup_alter_ne by done. rewrite decide_False by congruence. rewrite decide_False; [by rewrite option_fmap_id|].
      intros [-> _]. done.
  - assert (a = []) as -> by (destruct a as [|y a']; [done|]; rewrite last_cons in La; by destruct (list.last a')).
    rewrite decide_False by done. destruct (decide (l = old)) as [->|N2].
    + by rewrite lookup_alter_eq, decide_True.
    + rewrite lookup_alter_ne by done. rewrite decide_False by tauto. by rewrite option_fmap_id.
Qed.

Lemma unlink_same : same_data (nodes s) (nodes s2) /\ parents_but child (nodes s) (nodes s2).
Proof using All.
  split.
  - intros l. rewrite unlink_node. destruct (decide (l = child)) as [->|N]; [by rewrite G|].
    destruct (nodes s !! l); [|done]. cbn. by repeat case_decide.
  - intros l N. rewrite unlink_node, decide_False by done. destruct (nodes s !! l); [|done]. cbn. by repeat case_decide.
Qed.

Lemma unlink_above c l : above (nodes s) c l -> exists l', above (nodes s2) c l' /\ (child ∉ c :: l -> l' = l).
Proof using All.
  revert c. induction l as [|p l IH]; intros c (n & Gn & A).
  - exists []. split; [|done]. cbn in A. unfold above. rewrite unlink_node. destruct (decide (c = child)) as [->|N]; [by eexists|].
    rewrite Gn. eexists. split; [done|]. cbn. by repeat case_decide.
  - destruct (decide (c = child)) as [->|N].
    { exists []. split; [|set_solver]. unfold above. rewrite unlink_node, decide_True by done. eexists. done. }
    destruct A as (E & np & Gp & A). destruct (IH p) as (l' & A' & F'); [by exists np|]. exists (p :: l'). split.
    + unfold above. rewrite unlink_node, decide_False, Gn by done. eexists. split; [done|].
      destruct A' as (np' & Gp' & A'). cbn. split; [by repeat case_decide|]. exists np'. done.
    + intros I. f_equal. apply F'. set_solver.
Qed.

Lemma unlink_linked : linked (Some child) (nodes s2) (<[old := a ++ b]> kids).
Proof using All.
  destruct unlink_facts as (D & N & F & no & Go & C). split.
  - intros p n. rewrite unlink_node. intros Gp.
    assert (NX : forall x, x <> child -> n_next <$> nodes s2 !! x = if decide (list.last a = Some x) then Some (n_next nc) else n_next <$> nodes s !! x).
    { intros x Nx. rewrite unlink_node, decide_False by done. destruct (decide (list.last a = Some x)) as [La|La].
      - destruct (F x La) as (_ & m & Gm & _). by rewrite Gm.
      - destruct (nodes s !! x); [|done]. cbn. by repeat case_decide. }
    destruct (decide (p = old)) as [->|Np].
    + rewrite fn_lookup_insert. replace (n_child n) with (match a with [] => n_next nc | _ => n_child no end).
      * apply (chain_remove (nodes s) _ _ a child nc b C G). intros x I. apply NX. intros ->. apply list.NoDup_app in D as (_ & D1 & D2).
        apply list.NoDup_cons in D2 as [D2 _]. apply elem_of_app in I as [I|I]; [|done]. apply (D1 child I). by left.
      * rewrite decide_False, Go in Gp by done. cbn in Gp. injection Gp as <-. destruct a as [|y a'].
        -- rewrite decide_False by done. by rewrite decide_True.
        -- destruct (decide (list.last (y :: a') = Some old)); [done|]. by rewrite decide_False by naive_solver.
    + rewrite fn_lookup_insert_ne by done. assert (Gp' : exists n0, nodes s !! p = Some n0 /\ n_child n = n_child n0).
      { destruct (decide (p = child)) as [->|]; [exists nc; by injection Gp as <-|]. destruct (nodes s !! p) as [n1|]; [|done]. exists n1. split; [done|].
        cbn in Gp. injection Gp as <-. by repeat case_decide; try naive_solver. }
      destruct Gp' as (n0 & G0 & ->). apply (path_frame _ (nodes s)); [by apply (lk_chain _ _ _ L)|]. intros x I. apply (lk_kid _ _ _ L) in I as (m & Gm & Pm).
      destruct (decide (x = child)) as [->|Nx]; [congruence|]. rewrite NX by done. rewrite decide_False; [done|]. intros La. destruct (F x La) as (_ & m' & Gm' & Pm'). congruence.
  - intros p c. assert (U : (exists n, nodes s2 !! c = Some n /\ n_parent n = Some p) <-> c <> child /\ c ∈ kids p).
    { rewrite (lk_kid _ _ _ L). rewrite unlink_node. destruct (decide (c = child)) as [->|Nc]; [naive_solver|].
      destruct (nodes s !! c) as [m|]; cbn; [|naive_solver]. split.
      - intros (n & [= <-] & E). split; [done|]. exists m. split; [done|]. by repeat case_decide.
      - intros (_ & n & [= <-] & E). eexists. split; [done|]. by repeat case_decide. }
    rewrite U. destruct (decide (p = old)) as [->|Np]; [rewrite fn_lookup_insert|rewrite fn_lookup_insert_ne by done].
    + rewrite K. apply list.NoDup_app in D as (_ & D1 & D2). apply list.NoDup_cons in D2 as [D2 _]. rewrite !elem_of_app, elem_of_cons. split.
      * intros [I|I]; (split; [|tauto]); intros ->; [|done]. apply (D1 child I). by left.
      * naive_solver.
    + split; [|tauto]. intros I. split; [|done]. intros ->. apply (lk_kid _ _ _ L) in I as (m & Gm & Pm). congruence.
  - intros c n. rewrite unlink_node. destruct (decide (c = child)) as [->|Nc]; [done|]. destruct (nodes s !! c) as [m|] eqn:Gc; [|done]. cbn. intros [= <-] Pn _.
    destruct (decide (list.last a = Some c)) as [La|La].
    + destruct (F c La) as (_ & m' & Gm' & Pm'). cbn in Pn. congruence.
    + case_decide; cbn in *; by apply (lk_root _ _ _ L c m).
  - intros c [n Gc]. destruct (lk_above _ _ _ L c) as (l & A).
    + rewrite unlink_node in Gc. destruct (decide (c = child)) as [->|]; [eauto|]. destruct (nodes s !! c); [eauto|done].
    + destruct (unlink_above _ _ A) as (l' & A' & _). eauto.
Qed.
End unlink.

(** ** A new first child *)

Section add.
Context (s : store) (kids : loc -> list loc) (parent child : loc) (np nc : ThreadNode) (x : option loc) (lp : list loc).
Context (L : linked x (nodes s) kids) (X : x = None \/ x = Some child) (Gp : nodes s !! parent = Some np) (Gc : nodes s !! child = Some nc)
  (R : n_parent nc = None) (A : above (nodes s) parent lp) (N : child ∉ parent :: lp).
Let g : graph := <[child := with_parent (Some parent) (with_next (n_child np) nc)]> (<[parent := with_child (Some child) np]> (nodes s)).

Lemma add_child_wp (Q : unit -> store -> Prop) : Q () (Store g (head s)) -> wp (container_add_child parent child) Q s.
Proof using All.
  intros HQ. by apply (container_add_child_wp _ _ _ np nc); [set_solver| | |].
Qed.

Lemma add_node l : g !! l = (if decide (l = child) then Some (with_parent (Some parent) (with_next (n_child np) nc))
  else if decide (l = parent) then Some (with_child (Some child) np) else nodes s !! l).
Proof using All. unfold g. repeat case_decide; subst; rewrite ?lookup_insert_eq, ?lookup_insert_ne by done; rewrite ?lookup_insert_eq, ?lookup_insert_ne by done; done. Qed.

Lemma add_same : same_data (nodes s) g /\ parents_but child (nodes s) g /\ n_parent <$> g !! child = Some (Some parent).
Proof using All.
  split; [|split].
  - intros l. rewrite add_node. repeat case_decide; subst; rewrite ?Gc, ?Gp; done.
  - intros l D. rewrite add_node, decide_False by done. case_decide; subst; by rewrite ?Gp.
  - by rewrite add_node, decide_True.
Qed.

Lemma add_above_frame c l : above (nodes s) c l -> child ∉ c :: l -> above g c l.
Proof using All.
  revert c. induction l as [|p l IH]; intros c (n & Gn & H) D.
  - unfold above. rewrite add_node, decide_False by set_solver. case_decide; subst; [|eauto]. exists (with_child (Some child) np). split; [done|]. cbn. congruence.
  - destruct H as (E & m & Gm & H). unfold above. rewrite add_node, decide_False by set_solver.
    destruct (IH p) as (m' & Gm' & H'); [by exists m|set_solver|].
    case_decide; subst; [exists (with_child (Some child) np)|exists n]; (split; [done|]); cbn; (split; [congruence|]); exists m'; done.
Qed.

Lemma add_above c l : above (nodes s) c l -> exists l', above g c l'.
Proof using All.
  revert c. induction l as [|p l IH]; intros c (n & Gn & H).
  - destruct (decide (c = child)) as [->|D].
    + exists (parent :: lp). unfold above. rewrite add_node, decide_True by done. eexists. split; [done|]. split; [done|].
      destruct (add_above_frame _ _ A N) as (m & Gm & H'). eauto.
    + exists []. apply add_above_frame; [by exists n|set_solver].
  - destruct H as (E & m & Gm & H). destruct (decide (c = child)) as [->|D]; [congruence|]. destruct (IH p) as (l' & m' & Gm' & H'); [by exists m|].
    exists (p :: l'). unfold above. rewrite add_node, decide_False by done.
    case_decide; subst; [exists (with_child (Some child) np)|exists n]; (split; [done|]); cbn; (split; [congruence|]); exists m'; done.
Qed.

Lemma add_linked : linked None g (<[parent := child :: kids parent]> kids).
Proof using All.
  assert (parent <> child) as D by set_solver.
  assert (NX : forall y, y <> child -> n_next <$> g !! y = n_next <$> nodes s !! y).
  { intros y Ny. rewrite add_node, decide_False by done. case_decide; subst; by rewrite ?Gp. }
  assert (NK : forall p, child ∉ kids p) by (intros p I; apply (lk_kid _ _ _ L) in I as (m & Gm & Pm); congruence).
  assert (CH : forall p n, nodes s !! p = Some n -> path n_next g (n_child n) (kids p)).
  { intros p n G. apply (path_frame _ (nodes s)); [by apply (lk_chain _ _ _ L)|]. intros y I. apply NX. intros ->. by apply (NK p). }
  split.
  - intros p n. rewrite add_node. destruct (decide (p = child)) as [->|Np].
    + intros [= <-]. rewrite fn_lookup_insert_ne by done. by apply (CH child nc).
    + destruct (decide (p = parent)) as [->|Np2].
      * intros [= <-]. rewrite fn_lookup_insert. split; [done|]. rewrite add_node, decide_True by done. eexists. split; [done|]. by apply CH.
      * intros G. rewrite fn_lookup_insert_ne by done. by apply CH.
  - intros p c. rewrite add_node. assert (U : (exists n, nodes s !! c = Some n /\ n_parent n = Some p) <-> c ∈ kids p) by by rewrite (lk_kid _ _ _ L).
    destruct (decide (c = child)) as [->|Nc].
    + destruct (decide (p = parent)) as [->|Np]; [rewrite fn_lookup_insert|rewrite fn_lookup_insert_ne by done].
      * split; [|intros; by left]. intros _. eexists. done.
      * split; [intros I; by apply NK in I|]. intros (n & [= <-] & [= E]). done.
    + destruct (decide (c = parent)) as [->|Nc2].
      * destruct (decide (p = parent)) as [->|Np]; [rewrite fn_lookup_insert|rewrite fn_lookup_insert_ne by done]; rewrite ?elem_of_cons, <- U; naive_solver.
      * destruct (decide (p = parent)) as [->|Np]; [rewrite fn_lookup_insert|rewrite fn_lookup_insert_ne by done]; rewrite ?elem_of_cons, U; naive_solver.
  - intros c n. rewrite add_node. destruct (decide (c = child)) as [->|Nc]; [by intros [= <-]|].
    assert (Xc : Some c <> x) by (destruct X; congruence).
    destruct (decide (c = parent)) as [->|Np]; [intros [= <-]; cbn; intros P _; by apply (lk_root _ _ _ L parent)|].
    intros G P _. by apply (lk_root _ _ _ L c).
  - intros c [n G]. destruct (lk_above _ _ _ L c) as (l & H); [|by eapply add_above].
    rewrite add_node in G. repeat case_decide; subst; eauto.
Qed.
End add.

(** ** [container_parent_child] *)

Record moved (parent child : loc) (s s' : store) : Prop := {
  mv_linked : exists kids, linked None (nodes s') kids;
  mv_head : head s' = head s;
  mv_data : same_data (nodes s) (nodes s');
  mv_parents : parents_but child (nodes s) (nodes s');
  (** The child has its new parent, unless it is above that. *)
  mv_child : n_parent <$> nodes s' !! child = Some (Some parent) \/ (exists l, above (nodes s) parent l /\ child ∈ l) }.

Lemma container_parent_child_spec s kids parent child : linked None (nodes s) kids -> is_Some (nodes s !! parent) -> is_Some (nodes s !! child) ->
  parent <> child -> wp (container_parent_child parent child) (fun _ => moved parent child s) s.
Proof.
  intros L [np Gp] [nc Gc] D. unfold container_parent_child. apply wp_bind, (wp_rd _ _ _ _ nc Gc).
  assert (SAME : forall P : Prop, P -> P) by done.
  destruct (decide (n_parent nc = Some parent)) as [E|NE].
  { apply wp_ret. split; [eauto|done|done|done|]. left. by rewrite Gc, <- E. }
  destruct (lk_above _ _ _ L parent) as (l & A); [eauto|]. apply wp_bind, wp_all_nodes, wp_bind, (wp_rd _ _ _ _ np Gp), wp_bind.
  pose proof A as A'. destruct A' as (np' & Gp' & A'). assert (np' = np) as -> by congruence.
  apply (is_above_spec _ _ _ _ l); [done|pose proof (above_size _ _ _ A); lia|]. destruct (bool_decide_reflect (child ∈ l)) as [I|NI].
  { apply wp_ret. split; [eauto|done|done|done|]. eauto. }
  destruct (n_parent nc) as [old|] eqn:Po.
  - assert (child ∈ kids old) as (a & b & K)%list_elem_of_split by (apply (lk_kid _ _ _ L); eauto).
    destruct (unlink_facts s kids child old nc a b L Gc Po K) as (_ & _ & _ & no & Go & C).
    apply wp_bind, (find_before_spec _ _ _ (n_child no) a child b); [cbn; by rewrite Go|done| |].
    { pose proof (path_size _ _ _ _ C) as Sz. rewrite length_app in Sz. lia. }
    apply wp_bind, (wp_rd _ _ _ _ nc Gc), wp_bind, wp_wrp; [by apply (unlink_val s kids child old nc a b L Gc Po K)|].
    pose proof (unlink_child s kids child old nc a b L Gc Po K) as G1. apply wp_bind, (wp_wr _ _ _ _ nc G1).
    pose proof (unlink_linked s kids child old nc a b L Gc Po K) as L2. pose proof (unlink_same s kids child old nc a b L Gc Po K) as [S2 P2].
    destruct (unlink_above s kids child old nc a b L Gc Po K _ _ A) as (l' & A2 & El). rewrite El in A2 by set_solver.
    set (s2 := upd _ child _) in *. assert (G2 : nodes s2 !! child = Some (with_parent None nc)) by (cbn; by rewrite lookup_insert_eq).
    destruct (nodes s2 !! parent) as [np2|] eqn:Gp2; [|destruct A2 as (? & ? & _); congruence].
    apply (add_child_wp s2 _ parent child np2 _ (Some child) l L2 (or_intror eq_refl) Gp2 G2 eq_refl A2); [set_solver|].
    pose proof (add_same s2 _ parent child np2 _ (Some child) l L2 (or_intror eq_refl) Gp2 G2 eq_refl A2 ltac:(set_solver)) as (S3 & P3 & C3).
    split; [eexists; by apply (add_linked s2 _ parent child np2 _ (Some child) l L2 (or_intror eq_refl) Gp2 G2 eq_refl A2 ltac:(set_solver))| | | |by left].
    + cbn. unfold lpos. destruct (list.last a); done.
    + intros y. by rewrite S3, S2.
    + intros y Ny. by rewrite P3, P2.
  - apply (add_child_wp s _ parent child np nc None l L (or_introl eq_refl) Gp Gc Po A); [set_solver|].
    pose proof (add_same s _ parent child np nc None l L (or_introl eq_refl) Gp Gc Po A ltac:(set_solver)) as (S3 & P3 & C3).
    split; [eexists; by apply (add_linked s _ parent child np nc None l L (or_introl eq_refl) Gp Gc Po A ltac:(set_solver))|done|done|done|by left].
Qed.
