(* ===== verification/ThreadItems.v ===== *)
(** * ThreadItems: the tables and the nodes of the messages

    [inv] holds while the messages are added one by one: every node is in one of
    the two tables, once, and the messages so far are those of the nodes.
    [ranked] is what holds in addition when references go from newer to older
    messages: then no link is refused. *)

From Stdlib Require Import ZArith Lia.
From stdpp Require Import base list numbers gmap option functions.
From S2P Require Import Prelude Thread ThreadRep ThreadLink.

(** ** Linked stores that only differ in their data, or by a new node *)

Definition ptrs (n : ThreadNode) := (n_next n, n_parent n, n_child n).

Lemma linked_frame x g g' kids : linked x g kids -> (forall l, ptrs <$> g' !! l = ptrs <$> g !! l) -> linked x g' kids.
Proof.
  intros L E. assert (E' : forall l n, g' !! l = Some n -> exists n0, g !! l = Some n0 /\ n_next n = n_next n0 /\ n_parent n = n_parent n0 /\ n_child n = n_child n0).
  { intros l n G. specialize (E l). rewrite G in E. destruct (g !! l) as [n0|]; [|done]. exists n0. injection E as ? ? ?. done. }
  assert (PX : forall f o l, (forall n n0, ptrs n = ptrs n0 -> f n = f n0) -> path f g o l -> path f g' o l).
  { intros f o l Hf H. apply (path_frame _ g); [done|]. intros y _. specialize (E y). destruct (g' !! y), (g !! y); try done. cbn in *. injection E as ? ? ?.
    f_equal. apply Hf. unfold ptrs. congruence. }
  split.
  - intros p n G. destruct (E' _ _ G) as (n0 & G0 & _ & _ & ->). apply PX; [by intros ? ? [= ? ? ?]|]. by apply (lk_chain _ _ _ L).
  - intros p c. rewrite (lk_kid _ _ _ L). specialize (E c). destruct (g' !! c) as [n|], (g !! c) as [n0|]; [|done|done|].
    + injection E as E1 E2 E3. split; intros (m & [= <-] & P); eexists; (split; [done|]); congruence.
    + split; by intros (m & ? & _).
  - intros c n G P N. destruct (E' _ _ G) as (n0 & G0 & -> & E2 & _). apply (lk_root _ _ _ L c n0); congruence.
  - intros c [n G]. destruct (E' _ _ G) as (n0 & G0 & _ & E2 & _). destruct (lk_above _ _ _ L c) as (l & n1 & G1 & H); [eauto|].
    exists l, n. split; [done|]. assert (n1 = n0) as -> by congruence. rewrite E2. apply PX; [by intros ? ? [= ? ? ?]|done].
Qed.

Lemma linked_alloc g kids l : linked None g kids -> g !! l = None -> linked None (<[l := alloc0_node]> g) kids.
Proof.
  intros L Gl. assert (PX : forall f o k, path f g o k -> path f (<[l := alloc0_node]> g) o k).
  { intros f o k H. apply (path_frame _ g); [done|]. intros y I. rewrite lookup_insert_ne; [done|]. intros <-. destruct (path_dom _ _ _ _ _ H I). congruence. }
  assert (KN : kids l = []).
  { destruct (kids l) as [|c k] eqn:K; [done|]. assert (c ∈ kids l) as I by (rewrite K; left). apply (lk_kid _ _ _ L) in I as (n & Gc & P).
    destruct (linked_parent _ _ _ _ _ _ L Gc P). congruence. }
  split.
  - intros p n. destruct (decide (p = l)) as [->|]; [rewrite lookup_insert_eq; intros [= <-]; by rewrite KN|].
    rewrite lookup_insert_ne by done. intros G. by apply PX, (lk_chain _ _ _ L).
  - intros p c. rewrite (lk_kid _ _ _ L). destruct (decide (c = l)) as [->|]; [|by rewrite lookup_insert_ne]. rewrite lookup_insert_eq, Gl. naive_solver.
  - intros c n. destruct (decide (c = l)) as [->|]; [rewrite lookup_insert_eq; by intros [= <-]|]. rewrite lookup_insert_ne by done. apply (lk_root _ _ _ L).
  - intros c. destruct (decide (c = l)) as [->|]; [intros _; exists []; eexists; rewrite lookup_insert_eq; done|].
    rewrite lookup_insert_ne by done. intros I. destruct (lk_above _ _ _ L c I) as (k & m & G & H). exists k, m. rewrite lookup_insert_ne by done. auto.
Qed.

(** ** The messages of the nodes *)

Definition node_items (g : graph) (l : loc) : list (gpointer * Z) := match g !! l with Some n => d_items (d_of n) | None => [] end.
Definition g_items (g : graph) : list (gpointer * Z) := flat_map (node_items g) (elements (dom g)).

Lemma flat_map_ext_in {A B} (f h : A -> list B) l : (forall a, a ∈ l -> f a = h a) -> flat_map f l = flat_map h l.
Proof. induction l as [|a l IH]; intros E; cbn; [done|]. rewrite (E a) by left. f_equal. apply IH. intros b I. apply E. by right. Qed.

Lemma same_data_dom g g' : same_data g g' -> dom g' = dom g.
Proof. intros E. apply set_eq. intros l. rewrite !elem_of_dom. specialize (E l). destruct (g !! l), (g' !! l); try done; split; eauto. Qed.

Lemma same_data_items g g' : same_data g g' -> g_items g' = g_items g.
Proof.
  intros E. unfold g_items. rewrite (same_data_dom _ _ E). apply flat_map_ext_in. intros l _. unfold node_items. specialize (E l).
  destruct (g !! l) as [n|], (g' !! l) as [n'|]; try done. cbn in E. injection E as E1 E2. unfold d_of. by rewrite E1, E2.
Qed.

Lemma elements_dom_insert (g : graph) l n : g !! l = None -> elements (dom (<[l := n]> g)) ≡ₚ l :: elements (dom g).
Proof. intros N. rewrite dom_insert_L. apply elements_union_singleton. by apply not_elem_of_dom. Qed.

Lemma items_alloc g l : g !! l = None -> g_items (<[l := alloc0_node]> g) ≡ₚ g_items g.
Proof.
  intros N. unfold g_items. rewrite (elements_dom_insert _ _ _ N). cbn. unfold node_items at 1. rewrite lookup_insert_eq. cbn.
  erewrite flat_map_ext_in; [done|]. intros x I. unfold node_items. rewrite lookup_insert_ne; [done|]. intros <-. apply elem_of_elements, elem_of_dom in I as [? I]. congruence.
Qed.

Lemma items_set (g : graph) l n n' i o : g !! l = Some n -> n_item n = None -> d_of n' = (Some i, o) -> g_items (<[l := n']> g) ≡ₚ g_items g ++ [(i, o)].
Proof.
  intros G In D. assert (G' : g = <[l := n]> (delete l g)) by by rewrite insert_delete_id.
  assert (Nl : delete l g !! l = None) by apply lookup_delete_eq.
  assert (H : forall m, g_items (<[l := m]> (delete l g)) ≡ₚ d_items (d_of m) ++ g_items (delete l g)).
  { intros m. unfold g_items. rewrite (elements_dom_insert _ _ _ Nl). cbn. unfold node_items at 1. rewrite lookup_insert_eq.
    erewrite flat_map_ext_in; [done|]. intros x I. unfold node_items. rewrite lookup_insert_ne; [done|]. intros <-. apply elem_of_elements, elem_of_dom in I as [? I]. congruence. }
  rewrite G' at 2. rewrite <- insert_delete_eq, !H, D. unfold d_of. rewrite In. cbn. by rewrite Permutation_cons_append.
Qed.

Lemma node_items_in g l n : g !! l = Some n -> forall i o, d_of n = (Some i, o) -> (i, o) ∈ g_items g.
Proof.
  intros G i o D. unfold g_items. apply list_elem_of_In, in_flat_map. exists l. rewrite <- !list_elem_of_In. split; [apply elem_of_elements, elem_of_dom; eauto|].
  unfold node_items. rewrite G, D. by left.
Qed.

(** ** The invariant *)

Record inv (seen : list gpointer) (added : list (gpointer * Z)) (t : tables) (s : store) : Prop := {
  in_linked : exists kids, linked None (nodes s) kids;
  in_values : values (id_table t) ++ values (no_id_table t) ≡ₚ elements (dom (nodes s));
  in_items : g_items (nodes s) ≡ₚ added;
  in_keys : forall i, is_Some (no_id_table t !! i) -> i ∈ seen;
  in_order : forall l n, nodes s !! l = Some n -> (n_order n = 0 <-> n_item n = None);
  in_head : head s = None }.

Lemma thread_inv_init : inv [] [] (Tables ∅ ∅) (Store ∅ None).
Proof.
  split; cbn; try done.
  - exists (fun _ => []). split; try done. + intros p c. split; [by intros ?%elem_of_nil|]. intros (n & G & _). done. + intros c [n G]. done.
  - intros i [l H]. done.
Qed.

Lemma values_insert {K} `{Countable K} (m : gmap K loc) k l : m !! k = None -> values (<[k := l]> m) ≡ₚ l :: values m.
Proof. intros N. unfold values. by rewrite (map_to_list_insert _ _ _ N). Qed.

Lemma id_dom seen added t s m c : inv seen added t s -> id_table t !! m = Some c -> is_Some (nodes s !! c).
Proof.
  intros I E. apply elem_of_dom, elem_of_elements. rewrite <- (in_values _ _ _ _ I). apply elem_of_app. left.
  unfold values. apply list_elem_of_fmap. exists (m, c). split; [done|]. by apply elem_of_map_to_list.
Qed.

Lemma id_inj seen added t s m1 m2 c : inv seen added t s -> id_table t !! m1 = Some c -> id_table t !! m2 = Some c -> m1 = m2.
Proof.
  intros I E1 E2. destruct (decide (m1 = m2)) as [|N]; [done|]. exfalso.
  assert (D : NoDup (values (id_table t) ++ values (no_id_table t))) by (rewrite (in_values _ _ _ _ I); apply NoDup_elements).
  apply list.NoDup_app in D as [D _]. rewrite <- (insert_delete_id _ _ _ E1), values_insert in D by apply lookup_delete_eq.
  apply list.NoDup_cons in D as [D _]. apply D. unfold values. apply list_elem_of_fmap. exists (m2, c). split; [done|].
  apply elem_of_map_to_list. by rewrite lookup_delete_ne.
Qed.

Lemma thread_inv_alloc seen seen' added t t' s l : inv seen added t s -> nodes s !! l = None ->
  values (id_table t') ++ values (no_id_table t') ≡ₚ l :: values (id_table t) ++ values (no_id_table t) ->
  (forall i, is_Some (no_id_table t' !! i) -> i ∈ seen') -> inv seen' added t' (upd s l alloc0_node).
Proof.
  intros [(kids & L) V I K O H] N V' K'. split; cbn.
  - exists kids. by apply linked_alloc.
  - by rewrite V', V, elements_dom_insert.
  - by rewrite items_alloc.
  - done.
  - intros x n. destruct (decide (x = l)) as [->|]; [rewrite lookup_insert_eq; by intros [= <-]|]. rewrite lookup_insert_ne by done. apply O.
  - done.
Qed.

(** A message for a node without one. *)
Lemma inv_set seen added t s c n item o : inv seen added t s -> nodes s !! c = Some n -> n_item n = None -> 0 < o < 2 ^ 31 ->
  inv seen (added ++ [(item, o)]) t (upd (upd s c (with_item (Some item) n)) c (with_order o (with_item (Some item) n))).
Proof.
  intros [(kids & L) V I K O H] G N Ho. assert (E : o mod 2 ^ 31 = o) by (apply Z.mod_small; lia).
  assert (EU : nodes (upd (upd s c (with_item (Some item) n)) c (with_order o (with_item (Some item) n))) = <[c := with_order o (with_item (Some item) n)]> (nodes s)).
  { cbn. by rewrite insert_insert_eq. }
  split; rewrite ?EU.
  - exists kids. apply (linked_frame _ (nodes s)); [done|]. intros l. destruct (decide (l = c)) as [->|]; [by rewrite lookup_insert_eq, G|by rewrite lookup_insert_ne].
  - rewrite dom_insert_lookup_L; [done|eauto].
  - rewrite (items_set _ _ n _ item o G N); [by rewrite I|]. unfold d_of. cbn. by rewrite E.
  - done.
  - intros l m. destruct (decide (l = c)) as [->|]; [rewrite lookup_insert_eq; intros [= <-]; cbn; rewrite E; split; [lia|done]|].
    rewrite lookup_insert_ne by done. apply O.
  - done.
Qed.

Lemma inv_moved seen added t s s' parent child : inv seen added t s -> moved parent child s s' -> inv seen added t s'.
Proof.
  intros [_ V I K O H] [L Hd D P _]. split.
  - done.
  - by rewrite (same_data_dom _ _ D).
  - by rewrite (same_data_items _ _ D).
  - done.
  - intros l n G. specialize (D l). rewrite G in D. destruct (nodes s !! l) as [n0|] eqn:G0; [|done]. cbn in D. injection D as E1 E2. rewrite E1, E2. by apply (O l).
  - congruence.
Qed.

(** ** References that go back *)

(** [rank] falls from a message to its first reference, and from one reference to the next. *)
Fixpoint descends (rank : Z -> nat) (m : Z) (references : list Z) : Prop :=
  match references with
  | [] => True
  | r :: references => if r =? 0 then descends rank m references else (rank r < rank m)%nat /\ descends rank r references
  end.

Fixpoint first_reference (references : list Z) : option Z :=
  match references with [] => None | r :: references => if r =? 0 then first_reference references else Some r end.

Section items.
Context (fns : ItemFunctions).

Record ranked (rank : Z -> nat) (t : tables) (s : store) : Prop := {
  rk_parent : forall m c n p, id_table t !! m = Some c -> nodes s !! c = Some n -> n_parent n = Some p ->
    exists r, id_table t !! r = Some p /\ (rank r < rank m)%nat;
  rk_item : forall m c n i, id_table t !! m = Some c -> nodes s !! c = Some n -> n_item n = Some i -> get_message_id_func fns i = m;
  rk_ids : no_id_table t = ∅ }.

Lemma ranked_above rank t s m c l x : ranked rank t s -> id_table t !! m = Some c -> above (nodes s) c l -> x ∈ l ->
  exists r, id_table t !! r = Some x /\ (rank r < rank m)%nat.
Proof.
  intros R. revert m c. induction l as [|p l IH]; intros m c E (n & G & H) I; [by apply elem_of_nil in I|].
  destruct H as (P & np & Gp & H). destruct (rk_parent _ _ _ R m c n p E G P) as (r & Er & Lr).
  apply elem_of_cons in I as [->|I]; [eauto|]. destruct (IH r p Er) as (q & Eq & Lq); [by exists np|done|]. exists q. split; [done|lia].
Qed.

Lemma ranked_alloc seen added rank t s l id : inv seen added t s -> ranked rank t s -> nodes s !! l = None -> id_table t !! id = None ->
  ranked rank (Tables (<[id := l]> (id_table t)) (no_id_table t)) (upd s l alloc0_node).
Proof.
  intros I R N Ni. assert (NL : forall m c, id_table t !! m = Some c -> c <> l) by (intros m c E ->; destruct (id_dom _ _ _ _ _ _ I E); congruence).
  split; cbn.
  - intros m c n p. destruct (decide (m = id)) as [->|Nm].
    + rewrite lookup_insert_eq. intros [= <-]. rewrite lookup_insert_eq. by intros [= <-].
    + rewrite lookup_insert_ne by done. intros E. pose proof (NL _ _ E). rewrite lookup_insert_ne by done. intros G P.
      destruct (rk_parent _ _ _ R _ _ _ _ E G P) as (r & Er & Lr). exists r. split; [|done]. rewrite lookup_insert_ne; [done|]. congruence.
  - intros m c n i. destruct (decide (m = id)) as [->|Nm].
    + rewrite lookup_insert_eq. intros [= <-]. rewrite lookup_insert_eq. by intros [= <-].
    + rewrite lookup_insert_ne by done. intros E. pose proof (NL _ _ E). rewrite lookup_insert_ne by done. by apply (rk_item _ _ _ R).
  - apply (rk_ids _ _ _ R).
Qed.

Lemma same_data_at g g' l n : same_data g g' -> g !! l = Some n -> exists n', g' !! l = Some n' /\ d_of n' = d_of n.
Proof. intros E G. specialize (E l). rewrite G in E. apply fmap_Some in E as (n' & G' & E). eauto. Qed.

Lemma parents_but_at c g g' l n : parents_but c g g' -> l <> c -> g' !! l = Some n -> exists n0, g !! l = Some n0 /\ n_parent n = n_parent n0.
Proof. intros E N G. specialize (E l N). rewrite G in E. symmetry in E. apply fmap_Some in E as (n' & G' & E). eauto. Qed.

Lemma ranked_moved seen added rank t s s' r m c child : inv seen added t s -> ranked rank t s -> id_table t !! r = Some c -> id_table t !! m = Some child ->
  (rank r < rank m)%nat -> moved c child s s' -> ranked rank t s' /\ exists n, nodes s' !! child = Some n /\ n_parent n = Some c.
Proof.
  intros I R Er Em Lr [_ _ D P C]. assert (C' : exists n, nodes s' !! child = Some n /\ n_parent n = Some c).
  { destruct C as [C|(l & A & J)]; [apply fmap_Some in C as (n & G & E); eauto|]. exfalso.
    destruct (ranked_above _ _ _ _ _ _ _ R Er A J) as (q & Eq & Lq). rewrite (id_inj _ _ _ _ _ _ _ I Eq Em) in Lq. lia. }
  split; [|done]. split.
  - intros m' x n p Ex G Pn. destruct (decide (x = child)) as [->|Nx].
    + rewrite (id_inj _ _ _ _ _ _ _ I Ex Em). destruct C' as (n' & G' & Pn'). exists r. split; [congruence|done].
    + destruct (parents_but_at _ _ _ _ _ P Nx G) as (n0 & G0 & E0). apply (rk_parent _ _ _ R m' x n0 p); congruence.
  - intros m' x n i Ex G In. specialize (D x). rewrite G in D. symmetry in D. apply fmap_Some in D as (n0 & G0 & E0).
    apply (rk_item _ _ _ R m' x n0 i Ex G0). injection E0 as E1 _. congruence.
  - apply (rk_ids _ _ _ R).
Qed.

(** What adding references does to the nodes that were there. *)
Record grown (t : tables) (s : store) (t' : tables) (s' : store) (child : loc) : Prop := {
  gr_table : id_table t ⊆ id_table t';
  gr_old : forall l n, nodes s !! l = Some n -> exists n', nodes s' !! l = Some n' /\ d_of n' = d_of n /\ (l <> child -> n_parent n' = n_parent n) }.

Lemma grown_refl t s child : grown t s t s child.
Proof. split; [done|]. intros l n G. eauto. Qed.

Lemma grown_moved t s s' parent child : moved parent child s s' -> grown t s t s' child.
Proof.
  intros [_ _ D P _]. split; [done|]. intros l n G. destruct (same_data_at _ _ _ _ D G) as (n' & G' & E). exists n'. split; [done|]. split; [done|].
  intros N. destruct (parents_but_at _ _ _ _ _ P N G') as (n0 & G0 & E0). congruence.
Qed.

Lemma grown_alloc t s l id child : nodes s !! l = None -> id_table t !! id = None ->
  grown t s (Tables (<[id := l]> (id_table t)) (no_id_table t)) (upd s l alloc0_node) child.
Proof.
  intros N Ni. split; [by apply insert_subseteq|]. intros x n G. exists n. cbn. rewrite lookup_insert_ne; [done|]. congruence.
Qed.

(** A second step may move a node that was not there at first. *)
Lemma grown_trans t s t1 s1 t2 s2 child c : grown t s t1 s1 child -> grown t1 s1 t2 s2 c -> c = child \/ nodes s !! c = None -> grown t s t2 s2 child.
Proof.
  intros [T1 O1] [T2 O2] C. split; [by etransitivity|]. intros l n G. destruct (O1 _ _ G) as (n1 & G1 & D1 & P1).
  destruct (O2 _ _ G1) as (n2 & G2 & D2 & P2). exists n2. split; [done|]. split; [congruence|]. intros N. rewrite P2; [auto|]. destruct C; congruence.
Qed.

Definition answered (t : tables) (s : store) (child : loc) (references : list Z) : Prop :=
  forall r, first_reference references = Some r -> exists p n, id_table t !! r = Some p /\ nodes s !! child = Some n /\ n_parent n = Some p.

Definition link_post (seen : list gpointer) (added : list (gpointer * Z)) (t : tables) (s : store) (child : loc) (references : list Z) (t' : tables) (s' : store) : Prop :=
  inv seen added t' s' /\ grown t s t' s' child /\
  forall rank m, ranked rank t s -> id_table t !! m = Some child -> descends rank m references -> ranked rank t' s' /\ answered t' s' child references.

Lemma link_references_spec references seen added t s child : inv seen added t s -> is_Some (nodes s !! child) ->
  wp (link_references t child references) (link_post seen added t s child references) s.
Proof.
  revert t s child. induction references as [|r references IH]; intros t s child I C; cbn [link_references].
  { apply wp_ret. split; [done|]. split; [apply grown_refl|]. intros rank m R _ _. split; [done|]. by intros r. }
  destruct (Z.eqb_spec r 0) as [->|Nr].
  { eapply wp_mono; [by apply IH|]. intros t' s' (I' & G' & R'). split; [done|]. split; [done|]. intros rank m R E D. apply (R' rank m); done. }
  set (POST := link_post seen added t s child (r :: references)).
  (* the node of the reference *)
  assert (STEP : forall c t1 s1 (found : bool), inv seen added t1 s1 -> grown t s t1 s1 child -> id_table t1 !! r = Some c ->
    (found = false -> nodes s !! c = None) -> (forall rank, ranked rank t s -> ranked rank t1 s1) ->
    wp (if decide (c = child) then link_references t1 c references else container_parent_child c child;;
        if found then mret t1 else link_references t1 c references) POST s1).
  { intros c t1 s1 found I1 G1 E1 Nf R1. pose proof (id_dom _ _ _ _ _ _ I1 E1) as Dc.
    assert (C1 : is_Some (nodes s1 !! child)) by (destruct C as [n Gn]; destruct (gr_old _ _ _ _ _ G1 _ _ Gn) as (n' & Gn' & _); eauto).
    assert (E1' : forall m, id_table t !! m = Some child -> id_table t1 !! m = Some child) by (intros m Em; apply (lookup_weaken _ _ _ _ Em), G1).
    destruct (decide (c = child)) as [->|Nc].
    - eapply wp_mono; [by apply IH|]. intros t' s' (I' & G' & _). split; [done|]. split; [by apply (grown_trans _ _ _ _ _ _ _ _ G1 G'); left|].
      intros rank m R E D. cbn in D. rewrite (proj2 (Z.eqb_neq _ _) Nr) in D. rewrite (id_inj _ _ _ _ _ _ _ I1 E1 (E1' m E)) in D. lia.
    - destruct (in_linked _ _ _ _ I1) as [kids L1]. apply wp_bind. eapply wp_mono; [by apply (container_parent_child_spec _ kids)|].
      intros u s2 MV. cbn beta in MV. pose proof (inv_moved _ _ _ _ _ _ _ I1 MV) as I2. pose proof (grown_moved t1 _ _ _ _ MV) as G2.
      pose proof (grown_trans _ _ _ _ _ _ _ _ G1 G2 (or_introl eq_refl)) as G3.
      assert (RM : forall rank m, ranked rank t s -> id_table t !! m = Some child -> descends rank m (r :: references) ->
        ranked rank t1 s2 /\ (exists n, nodes s2 !! child = Some n /\ n_parent n = Some c) /\ descends rank r references).
      { intros rank m R E D. cbn in D. rewrite (proj2 (Z.eqb_neq _ _) Nr) in D. destruct D as [Lr D].
        destruct (ranked_moved _ _ _ _ _ _ _ _ _ _ I1 (R1 _ R) E1 (E1' _ E) Lr MV) as [R2 C2]. done. }
      destruct found.
      + apply wp_ret. split; [done|]. split; [done|]. intros rank m R E D. destruct (RM _ _ R E D) as (R2 & (n & Gn & Pn) & _). split; [done|].
        intros q. cbn. rewrite (proj2 (Z.eqb_neq _ _) Nr). intros [= <-]. eauto.
      + destruct Dc as [n0 Gc0]. destruct (same_data_at _ _ c n0 (mv_data _ _ _ _ MV) Gc0) as (nc & Gc & _).
        eapply wp_mono; [apply (IH t1 s2 c I2); eauto|]. intros t' s' (I' & G' & R'). split; [done|].
        split; [apply (grown_trans _ _ _ _ _ _ _ _ G3 G'); right; auto|]. intros rank m R E D.
        destruct (RM _ _ R E D) as (R2 & (n & Gn & Pn) & D2). destruct (R' rank r R2 E1 D2) as [R3 _]. split; [done|].
        intros q. cbn. rewrite (proj2 (Z.eqb_neq _ _) Nr). intros [= <-]. destruct (gr_old _ _ _ _ _ G' _ _ Gn) as (n' & Gn' & _ & Pn').
        exists c, n'. split; [by apply (lookup_weaken _ _ _ _ E1), G'|]. split; [done|]. rewrite Pn' by done. done. }
  destruct (id_table t !! r) as [c|] eqn:E.
  - apply wp_bind, wp_ret. apply (STEP c t s true); try done. apply grown_refl.
  - unfold new_id_node. apply wp_bind, wp_bind, wp_bind, wp_alloc. intros l N. apply wp_ret, wp_ret. apply (STEP l _ _ false).
    + apply (thread_inv_alloc seen _ _ t); [done|done|cbn; by rewrite values_insert|apply (in_keys _ _ _ _ I)].
    + by apply grown_alloc.
    + cbn. by rewrite lookup_insert_eq.
    + done.
    + intros rank R. by apply (ranked_alloc seen added).
Qed.

(** ** Adding the messages *)

Abbreviation mid := (get_message_id_func fns) (only parsing).

(** Every message has its node, which is under that of its first reference. *)
Definition filed (added : list (gpointer * Z)) (t : tables) (s : store) : Prop :=
  forall j, j ∈ map fst added -> exists c n, id_table t !! mid j = Some c /\ nodes s !! c = Some n /\ n_item n = Some j /\
    forall references, get_references_func fns j = Some references -> answered t s c references.

Lemma filed_grown added t s t' s' child : filed added t s -> grown t s t' s' child ->
  (forall n, nodes s !! child = Some n -> forall j, n_item n = Some j -> j ∉ map fst added) -> filed added t' s'.
Proof.
  intros F G N j J. destruct (F j J) as (c & n & Ec & Gc & In & A). destruct (gr_old _ _ _ _ _ G _ _ Gc) as (n' & Gn' & D & P).
  assert (c <> child) as Nc by (intros ->; by apply (N n Gc j)). exists c, n'. split; [by apply (lookup_weaken _ _ _ _ Ec), G|]. split; [done|].
  split; [injection D as D1 _; congruence|]. intros references R r Fr. destruct (A references R r Fr) as (p & m & Ep & Gm & Pm).
  exists p, n'. split; [by apply (lookup_weaken _ _ _ _ Ep), G|]. split; [done|]. rewrite P by done. congruence.
Qed.

Definition node_post (seen : list gpointer) (added : list (gpointer * Z)) (t : tables) (s : store) (item : gpointer) (id : Z) (r : loc * tables) (s' : store) : Prop :=
  let '(c, t') := r in
  inv (item :: seen) added t' s' /\ (exists n, nodes s' !! c = Some n /\ n_item n = None) /\ grown t s t' s' c /\
  forall rank, ranked rank t s -> id <> 0 -> (forall j, j ∈ map fst added -> mid j <> id) -> ranked rank t' s' /\ id_table t' !! id = Some c.

Lemma inv_seen seen seen' added t s : inv seen added t s -> (forall i, i ∈ seen -> i ∈ seen') -> inv seen' added t s.
Proof. intros [L V I K O H] S. split; auto. Qed.

Lemma new_no_id_spec seen added t s item id : inv seen added t s -> item ∉ seen ->
  (forall rank, ranked rank t s -> id <> 0 -> (forall j, j ∈ map fst added -> mid j <> id) -> False) ->
  wp (new_no_id_node t item) (node_post seen added t s item id) s.
Proof.
  intros I N Abs. unfold new_no_id_node. apply wp_bind, wp_alloc. intros l Nl. apply wp_ret.
  assert (Nt : no_id_table t !! item = None) by (destruct (no_id_table t !! item) eqn:E; [|done]; exfalso; apply N, (in_keys _ _ _ _ I); eauto).
  split; [|split; [|split]].
  - apply (thread_inv_alloc seen _ _ t); [done|done| |].
    + cbn. rewrite values_insert by done. by rewrite <- Permutation_middle.
    + cbn. intros i [x E]. destruct (decide (i = item)) as [->|Ni]; [left|]. rewrite lookup_insert_ne in E by done. right. apply (in_keys _ _ _ _ I). eauto.
  - exists alloc0_node. cbn. by rewrite lookup_insert_eq.
  - split; [done|]. intros x n G. exists n. cbn. rewrite lookup_insert_ne; [done|]. congruence.
  - intros rank R Ni D. by destruct (Abs rank R Ni D).
Qed.

Lemma item_node_spec seen added t s item id : inv seen added t s -> item ∉ seen ->
  wp (item_node t item id) (node_post seen added t s item id) s.
Proof.
  intros I N. unfold item_node. destruct (Z.eqb_spec id 0) as [->|Ni]; [by apply new_no_id_spec|].
  destruct (id_table t !! id) as [c|] eqn:E.
  - destruct (id_dom _ _ _ _ _ _ I E) as [n G]. apply wp_bind, (wp_rd _ _ _ _ n G). destruct (Z.eqb_spec (n_order n) 0) as [Eo|No].
    + apply wp_ret. split; [apply (inv_seen seen); [done|by right]|]. split; [exists n; split; [done|by apply (in_order _ _ _ _ I c)]|].
      split; [apply grown_refl|]. done.
    + apply new_no_id_spec; [done|done|]. intros rank R _ D. destruct (n_item n) as [j|] eqn:Ej.
      * assert ((j, n_order n) ∈ added) as J by (rewrite <- (in_items _ _ _ _ I); apply (node_items_in _ c n G); unfold d_of; by rewrite Ej).
        apply (D j); [apply list_elem_of_fmap; by exists (j, n_order n)|]. by apply (rk_item _ _ _ R id c n).
      * apply No. by apply (in_order _ _ _ _ I c).
  - unfold new_id_node. apply wp_bind, wp_alloc. intros l Nl. apply wp_ret. split; [|split; [|split]].
    + apply (thread_inv_alloc seen _ _ t); [done|done|cbn; by rewrite values_insert|]. intros i J. right. by apply (in_keys _ _ _ _ I).
    + exists alloc0_node. cbn. by rewrite lookup_insert_eq.
    + by apply grown_alloc.
    + intros rank R _ _. split; [by apply (ranked_alloc seen added)|]. cbn. by rewrite lookup_insert_eq.
Qed.

(** The hypothesis on the messages that makes every link possible. *)
Definition proper (rank : Z -> nat) (item : gpointer) : Prop :=
  mid item <> 0 /\ forall references, get_references_func fns item = Some references -> descends rank (mid item) references.

Definition item_post (seen : list gpointer) (added : list (gpointer * Z)) (t : tables) (s : store) (item : gpointer) (o : Z) (t' : tables) (s' : store) : Prop :=
  inv (item :: seen) (added ++ [(item, o)]) t' s' /\
  forall rank, ranked rank t s -> filed added t s -> proper rank item -> (forall j, j ∈ map fst added -> mid j <> mid item) ->
    ranked rank t' s' /\ filed (added ++ [(item, o)]) t' s'.

(** Setting the message of the node keeps what holds of the others. *)
Lemma set_filed seen added rank t s c n item n' : inv seen added t s -> nodes s !! c = Some n -> n_item n = None -> n_parent n' = n_parent n -> n_item n' = Some item ->
  id_table t !! mid item = Some c -> ranked rank t s -> filed added t s -> ranked rank t (upd s c n') /\ filed added t (upd s c n').
Proof.
  intros I G In P In' E R F. split; [split|].
  - intros m x k p Ex. cbn. destruct (decide (x = c)) as [->|Nx]; [rewrite lookup_insert_eq; intros [= <-]; rewrite P; intros Pp; by apply (rk_parent _ _ _ R m c n p)|].
    rewrite lookup_insert_ne by done. intros Gx Pp. by apply (rk_parent _ _ _ R m x k p).
  - intros m x k i Ex. cbn. destruct (decide (x = c)) as [->|Nx].
    + rewrite lookup_insert_eq. intros [= <-]. rewrite In'. intros [= <-]. by apply (id_inj seen added t s (mid item) m c I E Ex).
    + rewrite lookup_insert_ne by done. intros Gx Ix. by apply (rk_item _ _ _ R m x k i).
  - apply (rk_ids _ _ _ R).
  - intros j J. destruct (F j J) as (x & k & Ex & Gx & Ix & A). assert (x <> c) as Nx by congruence. exists x, k. cbn. rewrite lookup_insert_ne by done.
    split; [done|]. split; [done|]. split; [done|]. intros references Rf r Fr. destruct (A references Rf r Fr) as (p & m & Ep & Gm & Pm).
    exists p, m. cbn. by rewrite lookup_insert_ne.
Qed.

Lemma thread_item_spec seen added t s item i : inv seen added t s -> item ∉ seen -> Z.of_nat i + 1 < 2 ^ 31 ->
  wp (thread_item fns t item i) (item_post seen added t s item (Z.of_nat i + 1)) s.
Proof.
  intros I N Hi. unfold thread_item. set (o := Z.of_nat i + 1) in *. apply wp_bind. eapply wp_mono; [by apply item_node_spec|].
  intros [c t1] s1 (I1 & (n & Gn & In) & G1 & R1). apply wp_bind, (wp_wr _ _ _ _ n Gn), wp_bind.
  apply (wp_wr _ _ _ _ (with_item (Some item) n)); [cbn; by rewrite lookup_insert_eq|].
  pose proof (inv_set _ _ _ _ _ _ item o I1 Gn In ltac:(lia)) as I2. set (n' := with_order o (with_item (Some item) n)) in *.
  replace (upd (upd s1 c (with_item (Some item) n)) c n') with (upd s1 c n') in * by (unfold upd; cbn; by rewrite insert_insert_eq).
  assert (G2 : nodes (upd s1 c n') !! c = Some n') by (cbn; by rewrite lookup_insert_eq).
  assert (B2 : forall rank, ranked rank t s -> filed added t s -> proper rank item -> (forall j, j ∈ map fst added -> mid j <> mid item) ->
    id_table t1 !! mid item = Some c /\ ranked rank t1 (upd s1 c n') /\ filed added t1 (upd s1 c n')).
  { intros rank R F [Ni _] D. destruct (R1 rank R Ni D) as [R1' E1]. split; [done|]. eapply (set_filed _ _ rank t1 s1 c n item); try done.
    apply (filed_grown _ _ _ _ _ _ F G1). intros m Gm j Ij. destruct (gr_old _ _ _ _ _ G1 _ _ Gm) as (n1 & Gn1 & D1 & _). injection D1 as D1 _. congruence. }
  assert (NEW : forall rank t' s', proper rank item -> (forall j, j ∈ map fst added -> mid j <> mid item) -> filed added t1 (upd s1 c n') ->
    id_table t1 !! mid item = Some c -> grown t1 (upd s1 c n') t' s' c ->
    (forall references, get_references_func fns item = Some references -> answered t' s' c references) -> filed (added ++ [(item, o)]) t' s').
  { intros rank t' s' _ D F E G A j J. rewrite map_app in J. apply elem_of_app in J as [J|J].
    - apply (filed_grown _ _ _ _ _ _ F G); [|done]. rewrite G2. intros m [= <-] k [= <-]. intros K. by apply (D item K).
    - apply list_elem_of_singleton in J as ->. destruct (gr_old _ _ _ _ _ G _ _ G2) as (m & Gm & Dm & _). exists c, m.
      split; [by apply (lookup_weaken _ _ _ _ E), G|]. split; [done|]. injection Dm as Dm _. done. }
  destruct (get_references_func fns item) as [references|] eqn:Rf.
  - eapply wp_mono; [by apply link_references_spec|]. intros t' s' (I' & G' & R'). split; [done|]. intros rank R F Pr D.
    destruct (B2 rank R F Pr D) as (E & R2 & F2). destruct (R' rank (mid item) R2 E) as [R3 A3]; [by apply Pr|]. split; [done|].
    apply (NEW rank); try done.  by intros ? [= <-].
  - apply wp_ret. split; [done|]. intros rank R F Pr D. destruct (B2 rank R F Pr D) as (E & R2 & F2). split; [done|].
    apply (NEW rank); try done. apply grown_refl.
Qed.

(** The messages with their orders. *)
Fixpoint numbered (i : nat) (items : list gpointer) : list (gpointer * Z) :=
  match items with [] => [] | item :: items => (item, Z.of_nat i + 1) :: numbered (S i) items end.

Definition items_post (seen : list gpointer) (added : list (gpointer * Z)) (t : tables) (s : store) (items : list gpointer) (i : nat) (t' : tables) (s' : store) : Prop :=
  inv (reverse items ++ seen) (added ++ numbered i items) t' s' /\
  forall rank, ranked rank t s -> filed added t s -> Forall (proper rank) items -> NoDup (map mid (map fst added ++ items)) ->
    ranked rank t' s' /\ filed (added ++ numbered i items) t' s'.

Lemma link_items_spec items seen added t s i : inv seen added t s -> NoDup items -> (forall x, x ∈ items -> x ∉ seen) ->
  Z.of_nat i + Z.of_nat (length items) < 2 ^ 31 -> wp (link_items fns t items i) (items_post seen added t s items i) s.
Proof.
  revert seen added t s i. induction items as [|item items IH]; intros seen added t s i I D N H; cbn [link_items].
  - apply wp_ret. unfold items_post. cbn. rewrite !app_nil_r. auto.
  - cbn in H. apply list.NoDup_cons in D as [D1 D]. apply wp_bind. eapply wp_mono; [apply thread_item_spec; [done|apply N; left|lia]|].
    intros t1 s1 [I1 R1]. eapply wp_mono; [apply (IH _ _ _ _ _ I1 D); [|lia]|].
    + intros x Ix. rewrite not_elem_of_cons. split; [congruence|]. apply N. by right.
    + intros t' s' [I' R']. unfold items_post in *. cbn [numbered]. rewrite cons_middle, app_assoc. split; [rewrite reverse_cons, <- app_assoc; done|].
      intros rank R F Pr Dm. apply list.Forall_cons in Pr as [Pr1 Pr]. assert (Dj : forall j, j ∈ map fst added -> mid j <> mid item).
      { intros j J E. rewrite map_app in Dm. apply list.NoDup_app in Dm as (_ & Dm & _). apply (Dm (mid j)); [by apply list_elem_of_fmap; exists j|].
        cbn. rewrite E. by left. }
      destruct (R1 rank R F Pr1 Dj) as [R2 F2]. apply (R' rank R2 F2 Pr). by rewrite (map_app fst), <- app_assoc.
Qed.
End items.
