(* ===== verification/ThreadRoots.v ===== *)
(** * ThreadRoots: from linked nodes to a forest

    [hashloop] puts the roots in a list; the store then holds a forest with all
    the nodes, and with the messages that they had. *)

From Stdlib Require Import ZArith Lia.
From stdpp Require Import base list numbers gmap option functions.
From S2P Require Import Prelude Thread ThreadRep ThreadPrune ThreadLink ThreadItems.

(** ** The list of roots *)

Record roots_inv (s0 s : store) (r : list loc) : Prop := {
  ri_path : path n_next (nodes s) (head s) r;
  ri_other : forall x, x ∉ r -> nodes s !! x = nodes s0 !! x;
  ri_root : forall x, x ∈ r -> exists n v, nodes s0 !! x = Some n /\ n_parent n = None /\ nodes s !! x = Some (with_next v n) }.

Lemma hashloop_spec l s0 s r : roots_inv s0 s r -> NoDup (l ++ r) -> (forall x, x ∈ l -> is_Some (nodes s0 !! x)) ->
  wp (foreach_hashloop l) (fun _ s' => exists r', roots_inv s0 s' (r' ++ r) /\ forall x, x ∈ r' <-> x ∈ l /\ n_parent <$> nodes s0 !! x = Some None) s.
Proof.
  revert s r. induction l as [|c l IH]; intros s r I D H; cbn [foreach_hashloop].
  { apply wp_ret. exists []. split; [done|]. intros x. split; [by intros ?%elem_of_nil|]. by intros [?%elem_of_nil _]. }
  destruct (H c ltac:(left)) as [n G]. cbn in D. apply list.NoDup_cons in D as [D1 D]. assert (c ∉ r) as Nr by set_solver.
  pose proof (ri_other _ _ _ I c Nr) as Gc. rewrite G in Gc. unfold hashloop. apply wp_bind, wp_bind, (wp_rd _ _ _ _ n Gc).
  destruct (n_parent n) as [p|] eqn:P.
  - apply wp_ret. eapply wp_mono; [apply (IH s r I D); intros x J; apply H; by right|]. intros u s' (r' & I' & E). exists r'. split; [done|].
    intros x. rewrite E, elem_of_cons. split; [tauto|]. intros [[->|J] Q]; [|done]. rewrite G in Q. cbn in Q. congruence.
  - apply wp_bind. apply (wp_rdp Head _ _ (head s) eq_refl). apply wp_bind, (wp_wr _ _ _ _ n Gc), wp_wrp; [cbn; by eexists|]. cbn [pl_set].
    set (s1 := Store _ _). assert (I1 : roots_inv s0 s1 (c :: r)).
    { split.
      - split; [done|]. eexists. cbn. rewrite lookup_insert_eq. split; [done|]. cbn. apply (path_frame _ (nodes s)); [apply (ri_path _ _ _ I)|].
        intros x J. rewrite lookup_insert_ne; [done|]. intros ->. done.
      - intros x J. cbn. apply not_elem_of_cons in J as [J1 J2]. rewrite lookup_insert_ne by done. by apply (ri_other _ _ _ I).
      - intros x J. cbn. destruct (decide (x = c)) as [->|Nx]; [exists n, (head s); by rewrite lookup_insert_eq|]. rewrite lookup_insert_ne by done.
        apply (ri_root _ _ _ I). set_solver. }
    eapply wp_mono; [apply (IH s1 (c :: r) I1); [by rewrite <- Permutation_middle; apply list.NoDup_cons|intros x J; apply H; by right]|].
    intros u s' (r' & I' & E). exists (r' ++ [c]). split; [by rewrite <- app_assoc|]. intros x. rewrite elem_of_app, E, list_elem_of_singleton, elem_of_cons.
    split; [intros [[J Q]| ->]; [tauto|]; rewrite G; split; [by left|cbn; by rewrite P]|]. tauto.
Qed.

(** ** Trees of linked nodes *)

Section forest.
Context (s0 s : store) (kids : loc -> list loc) (r : list loc).
Context (L : linked None (nodes s0) kids) (I : roots_inv s0 s r) (R : forall x, x ∈ r <-> n_parent <$> nodes s0 !! x = Some None).

(** [x] is [c] or below it. *)
Definition under (c x : loc) : Prop := exists b, above (nodes s0) x b /\ c ∈ x :: b.

Lemma under_siblings c1 c2 n1 n2 x : nodes s0 !! c1 = Some n1 -> nodes s0 !! c2 = Some n2 -> n_parent n1 = n_parent n2 ->
  under c1 x -> under c2 x -> c1 = c2.
Proof using Type.
  intros G1 G2 P (b & A & I1) (b' & A' & I2). rewrite <- (above_fun _ _ _ _ A A') in I2. clear A'.
  assert (SUF : forall c, c ∈ x :: b -> exists a k, x :: b = a ++ c :: k /\ above (nodes s0) c k).
  { intros c (a & k & E)%list_elem_of_split. exists a, k. split; [done|]. apply above_path in A. rewrite E in A. destruct (path_suffix _ _ _ _ _ _ A) as (n & G & H). by exists n. }
  destruct (SUF _ I1) as (a1 & k1 & E1 & A1), (SUF _ I2) as (a2 & k2 & E2 & A2). assert (k1 = k2) as <-.
  { destruct A1 as (m1 & Gm1 & H1), A2 as (m2 & Gm2 & H2). assert (m1 = n1) as -> by congruence. assert (m2 = n2) as -> by congruence.
    rewrite P in H1. by apply (path_fun _ _ _ _ _ H1 H2). }
  rewrite E1 in E2. assert (length a1 = length a2) as La by (apply (f_equal length) in E2; rewrite !length_app in E2; cbn in E2; lia).
  by destruct (app_inj_1 _ _ _ _ La E2) as [_ [= ?]].
Qed.

Lemma node_now c n : nodes s0 !! c = Some n -> exists n', nodes s !! c = Some n' /\ n_child n' = n_child n /\ n_parent n' = n_parent n /\ d_of n' = d_of n.
Proof using All.
  intros G. destruct (decide (c ∈ r)) as [J|J]; [|exists n; rewrite (ri_other _ _ _ I c J); done].
  destruct (ri_root _ _ _ I c J) as (m & v & Gm & _ & G'). assert (m = n) as -> by congruence. exists (with_next v n). done.
Qed.

(** A list of nodes with the trees below each of them. *)
Lemma build_list o cs par : path n_next (nodes s) o cs ->
  (forall c, c ∈ cs -> exists n k, nodes s !! c = Some n /\ parent_ok par n /\ seg false (nodes s) (Some (Some c)) (n_child n) k None /\
     NoDup (f_locs k) /\ (forall x, x ∈ f_locs k <-> under c x /\ x <> c) /\ under c c) ->
  (forall c1 c2 x, c1 ∈ cs -> c2 ∈ cs -> under c1 x -> under c2 x -> c1 = c2) ->
  exists f, map t_root f = cs /\ seg false (nodes s) par o f None /\ NoDup (f_locs f) /\ (forall x, x ∈ f_locs f <-> exists c, c ∈ cs /\ under c x).
Proof using Type.
  intros H K S. pose proof (path_nodup _ _ _ _ H) as D. revert o H K S D. induction cs as [|c cs IH]; intros o H K S D.
  - cbn in H. subst o. exists []. split; [done|]. split; [constructor|]. split; [constructor|]. intros x. split; [by intros ?%elem_of_nil|]. by intros (c & ?%elem_of_nil & _).
  - destruct H as (-> & n & G & H). apply list.NoDup_cons in D as [D1 D].
    destruct (IH (n_next n)) as (f & Ef & Sf & Df & Lf); [done|intros; apply K; by right|intros c1 c2 x J1 J2; apply S; by right|done|].
    destruct (K c ltac:(left)) as (n' & k & G' & P & Sk & Dk & Lk & U). assert (n' = n) as -> by congruence.
    assert (IN : forall x, x ∈ f_locs (T c (d_of n) k :: f) <-> exists c', c' ∈ c :: cs /\ under c' x).
    { intros x. cbn. rewrite elem_of_cons, elem_of_app, Lk, Lf. split.
      - intros [->|[[Ux _]|(c' & J & Ux)]]; [exists c; split; [left|done]|exists c; split; [left|done]|exists c'; split; [by right|done]].
      - intros (c' & J & Ux). apply elem_of_cons in J as [->|J]; [|eauto]. destruct (decide (x = c)); auto. }
    exists (T c (d_of n) k :: f). split; [cbn; by rewrite Ef|]. split; [by econstructor|]. split; [|done].
    cbn. apply list.NoDup_cons. split.
    + rewrite elem_of_app, Lk, Lf. intros [[_ ?]|(c' & J & Ux)]; [done|]. apply D1. by rewrite (S c c' c ltac:(left) ltac:(by right) U Ux).
    + apply list.NoDup_app. split; [done|]. split; [|done]. intros x J J2. apply Lk in J as [Ux _]. apply Lf in J2 as (c' & J2 & Ux2).
      apply D1. by rewrite (S c c' x ltac:(left) ltac:(by right) Ux Ux2).
Qed.

Lemma under_refl c n : nodes s0 !! c = Some n -> under c c.
Proof using L. intros G. destruct (lk_above _ _ _ L c) as (b & A); [eauto|]. exists b. split; [done|left]. Qed.

Lemma build_tree k c a n : above (nodes s0) c a -> (size (nodes s0) <= k + length a)%nat -> nodes s0 !! c = Some n ->
  exists f, seg false (nodes s) (Some (Some c)) (n_child n) f None /\ NoDup (f_locs f) /\ (forall x, x ∈ f_locs f <-> under c x /\ x <> c).
Proof using All.
  revert c a n. induction k as [|k IH]; intros c a n A Sz G; [pose proof (above_size _ _ _ A); lia|].
  assert (KP : forall x, x ∈ kids c -> exists m, nodes s0 !! x = Some m /\ n_parent m = Some c /\ x ∉ r).
  { intros x (m & Gm & Pm)%(lk_kid _ _ _ L). exists m. split; [done|]. split; [done|]. intros J%R. rewrite Gm in J. cbn in J. congruence. }
  destruct (build_list (n_child n) (kids c) (Some (Some c))) as (f & Ef & Sf & Df & Lf).
  - apply (path_frame _ (nodes s0)); [by apply (lk_chain _ _ _ L)|]. intros x (m & _ & _ & J)%KP. by rewrite (ri_other _ _ _ I x J).
  - intros x J. destruct (KP x J) as (m & Gm & Pm & _). destruct (node_now x m Gm) as (m' & Gm' & Cm & Pm' & _).
    destruct (IH x (c :: a) m) as (t & St & Dt & Lt); [|cbn; lia|done|].
    { exists m. split; [done|]. rewrite Pm. split; [done|]. done. }
    exists m', t. split; [done|]. split; [cbn; congruence|]. split; [by rewrite Cm|]. split; [done|]. split; [done|]. by apply (under_refl x m).
  - intros c1 c2 x J1 J2. destruct (KP c1 J1) as (m1 & G1 & P1 & _), (KP c2 J2) as (m2 & G2 & P2 & _). apply (under_siblings c1 c2 m1 m2); congruence.
  - exists f. split; [done|]. split; [done|]. intros x. rewrite Lf. split.
    + intros (y & J & b & Ab & Jb). destruct (KP y J) as (m & Gm & Pm & _).
      assert (Ay : above (nodes s0) y (c :: a)) by (exists m; split; [done|]; rewrite Pm; split; [done|]; done).
      destruct (list_elem_of_split _ _ Jb) as (b1 & b2 & E). pose proof Ab as Ab'. apply above_path in Ab'. rewrite E in Ab'.
      destruct (path_suffix _ _ _ _ _ _ Ab') as (m' & Gm' & H'). assert (m' = m) as -> by congruence. assert (b2 = c :: a) as ->.
      { apply (above_fun (nodes s0) y); [by exists m|done]. }
      pose proof (above_nodup _ _ _ Ab) as D. split.
      * exists b. split; [done|]. rewrite E. apply elem_of_app. right. right. left.
      * intros ->. rewrite E in D. destruct b1 as [|z b1]; cbn in E; injection E as E1 E2; [subst y|subst z].
        -- apply list.NoDup_cons in D as [D _]. apply D. by left.
        -- cbn in D. apply list.NoDup_cons in D as [D _]. apply D. apply elem_of_app. right. right. by left.
    + intros [(b & Ab & Jb) Nx]. apply elem_of_cons in Jb as [->|Jb]; [done|]. apply list_elem_of_split in Jb as (b1 & b2 & ->).
      destruct b1 as [|y b1 _] using rev_ind.
      * exists x. destruct Ab as (m & Gm & [E _]). split; [apply (lk_kid _ _ _ L); exists m; split; [done|]; done|by apply (under_refl x m)].
      * rewrite <- app_assoc in Ab. pose proof (above_suffix _ _ _ _ _ Ab) as (m & Gm & [E _]). exists y. split; [apply (lk_kid _ _ _ L); exists m; done|].
        eexists. split; [exact Ab|]. right. apply elem_of_app. right. left.
Qed.

Lemma linked_forest : exists f, lst false s (Some None) Head f None /\ NoDup (f_locs f) /\ (forall x, x ∈ f_locs f <-> is_Some (nodes s0 !! x)).
Proof using All.
  assert (KP : forall x, x ∈ r -> exists m, nodes s0 !! x = Some m /\ n_parent m = None) by (intros x J%R; by apply fmap_Some in J as (m & Gm & E); eauto).
  destruct (build_list (head s) r (Some None)) as (f & Ef & Sf & Df & Lf).
  - apply (ri_path _ _ _ I).
  - intros x J. destruct (KP x J) as (m & Gm & Pm). destruct (node_now x m Gm) as (m' & Gm' & Cm & Pm' & _).
    destruct (build_tree (size (nodes s0)) x [] m) as (t & St & Dt & Lt); [exists m; split; [done|]; by rewrite Pm|cbn; lia|done|].
    exists m', t. split; [done|]. split; [cbn; congruence|]. split; [by rewrite Cm|]. split; [done|]. split; [done|]. by apply (under_refl x m).
  - intros c1 c2 x J1 J2. destruct (KP c1 J1) as (m1 & G1 & P1), (KP c2 J2) as (m2 & G2 & P2). apply (under_siblings c1 c2 m1 m2); congruence.
  - exists f. split; [by exists (head s)|]. split; [done|]. intros x. rewrite Lf. split.
    + intros (c & _ & b & (n & G & _) & _). eauto.
    + intros Hx. destruct (lk_above _ _ _ L x Hx) as (b & Ab). destruct b as [|y b _] using rev_ind.
      * exists x. destruct Ab as (m & Gm & E). cbn in E. split; [apply R; rewrite Gm; cbn; congruence|by apply (under_refl x m)].
      * exists y. pose proof (above_suffix _ _ _ _ _ Ab) as (m & Gm & E). cbn in E. split; [apply R; rewrite Gm; cbn; congruence|].
        eexists. split; [exact Ab|]. right. apply elem_of_app. right. left.
Qed.
End forest.

(** ** What is in the forest *)

Lemma seg_items lo g par p f q : seg lo g par p f q -> f_items f = flat_map (node_items g) (f_locs f).
Proof.
  intros H. induction H as [|par l n kids f q G P _ IH1 _ IH2]; [done|]. cbn. unfold node_items at 1. rewrite G, IH1, IH2, flat_map_app'. by rewrite app_assoc.
Qed.

(** A node of the forest is a root, or its parent is there, with the edge between them. *)
Lemma seg_edges g par p f q x : seg false g par p f q -> x ∈ f_locs f -> exists n, g !! x = Some n /\
  ((parent_ok par n /\ n_item n ∈ map (fun t => fst (t_data t)) f) \/
   exists y m, n_parent n = Some y /\ g !! y = Some m /\ forall i j, n_item m = Some i -> n_item n = Some j -> (i, j) ∈ f_edges f).
Proof.
  intros H. induction H as [|par l n kids f q G P K IH1 H IH2]; intros J; [by apply elem_of_nil in J|].
  cbn in J. apply elem_of_cons in J as [->|J]; [exists n; split; [done|]; left; split; [done|by left]|]. apply elem_of_app in J as [J|J].
  - destruct (IH1 J) as (m & Gm & [[Pm Em]|(y & m' & Pm & Gm' & Em)]); exists m; (split; [done|]); right.
    + exists l, n. split; [done|]. split; [done|]. intros i j Ei Ej. cbn [flat_map t_edges]. rewrite !elem_of_app, edges_of. left. left. exists i, j.
      split; [done|]. split; [done|]. by rewrite <- Ej.
    + exists y, m'. split; [done|]. split; [done|]. intros i j Ei Ej. cbn [flat_map t_edges]. rewrite !elem_of_app. auto.
  - destruct (IH2 J) as (m & Gm & [[Pm Em]|(y & m' & Pm & Gm' & Em)]); exists m; (split; [done|]).
    + left. split; [done|]. cbn. by right.
    + right. exists y, m'. split; [done|]. split; [done|]. intros i j Ei Ej. cbn [flat_map t_edges]. rewrite !elem_of_app. auto.
Qed.

Section roots.
Context (fns : ItemFunctions) (foreach_id : gmap Z loc -> list loc) (foreach_no_id : gmap gpointer loc -> list loc).
Context (ID : forall m, foreach_id m ≡ₚ values m) (NOID : forall m, foreach_no_id m ≡ₚ values m).

(** The message with the identifier of the first reference, and the message that refers to it. *)
Definition replies (added : list (gpointer * Z)) (e : gpointer * gpointer) : Prop := exists references,
  fst e ∈ map fst added /\ snd e ∈ map fst added /\ get_references_func fns (snd e) = Some references /\
  first_reference references = Some (get_message_id_func fns (fst e)).

Lemma foreach_app l1 l2 Q s : wp (foreach_hashloop (l1 ++ l2)) Q s -> wp (foreach_hashloop l1;; foreach_hashloop l2) Q s.
Proof.
  unfold wp. revert s. induction l1 as [|c l1 IH]; intros s; [intros H; exact H|]. cbn [app foreach_hashloop]. unfold mbind, ThreadM_bind in *. destruct (hashloop c s) as [[u s1]|]; [|done].
  apply IH.
Qed.

Lemma roots_spec seen added t s : inv seen added t s ->
  wp (foreach_hashloop (foreach_id (id_table t));; foreach_hashloop (foreach_no_id (no_id_table t)))
    (fun _ s' => exists f, lst false s' (Some None) Head f None /\ NoDup (f_locs f) /\ f_items f ≡ₚ added /\
       forall rank, ranked fns rank t s -> filed fns added t s -> forall e, replies added e -> e ∈ f_edges f) s.
Proof using ID NOID.
  intros I. destruct (in_linked _ _ _ _ I) as [kids L]. apply foreach_app.
  assert (PM : foreach_id (id_table t) ++ foreach_no_id (no_id_table t) ≡ₚ elements (dom (nodes s))) by by rewrite ID, NOID, (in_values _ _ _ _ I).
  eapply wp_mono; [apply (hashloop_spec _ s s [])|].
  - split; [cbn; apply (in_head _ _ _ _ I)|done|by intros x ?%elem_of_nil].
  - rewrite app_nil_r, PM. apply NoDup_elements.
  - intros x J. rewrite PM in J. by apply elem_of_elements, elem_of_dom in J.
  - intros u s' (r & RI & Er). rewrite app_nil_r in RI. assert (Er' : forall x, x ∈ r <-> n_parent <$> nodes s !! x = Some None).
    { intros x. rewrite Er, PM, elem_of_elements, elem_of_dom. split; [tauto|]. intros E. split; [|done]. apply fmap_Some in E as (n & G & _). eauto. }
    destruct (linked_forest s s' kids r L RI Er') as (f & Hf & Df & Lf). exists f. split; [done|]. split; [done|].
    assert (Now : forall c n, nodes s !! c = Some n -> exists n', nodes s' !! c = Some n' /\ n_parent n' = n_parent n /\ d_of n' = d_of n).
    { intros c n G. destruct (node_now s s' kids r L RI Er' c n G) as (n' & ? & _ & ? & ?). eauto. }
    split.
    + destruct Hf as (p & _ & Sf). rewrite (seg_items _ _ _ _ _ _ Sf), <- (in_items _ _ _ _ I). unfold g_items.
      rewrite (NoDup_Permutation (f_locs f) (elements (dom (nodes s)))); [|done|apply NoDup_elements|intros x; by rewrite Lf, elem_of_elements, elem_of_dom].
      erewrite flat_map_ext_in; [done|]. intros x J. unfold node_items. apply elem_of_elements, elem_of_dom in J as [n G].
      destruct (Now x n G) as (n' & -> & _ & E). by rewrite G, E.
    + intros rank _ F [i j] (refs & Ji & Jj & Rf & Fr). cbn in *. destruct (F i Ji) as (ci & ni & Ei & Gi & Ii & _), (F j Jj) as (cj & nj & Ej & Gj & Ij & A).
      destruct (A refs Rf _ Fr) as (p & n & Ep & Gn & Pn). assert (p = ci) as -> by congruence. assert (n = nj) as -> by congruence.
      destruct Hf as (h & _ & Sf). destruct (Now cj nj Gj) as (nj' & Gj' & Pj & Dj), (Now ci ni Gi) as (ni' & Gi' & _ & Di).
      destruct (seg_edges _ _ _ _ _ cj Sf) as (m & Gm & [[Pm _]|(y & m' & Pm & Gm' & E)]); [apply Lf; eauto|cbn in Pm; congruence|].
      injection Di as Di _. injection Dj as Dj _. apply E; congruence.
Qed.
End roots.
