(* ===== verification/ThreadMove.v ===== *)
(** * ThreadMove: taking trees out of a forest and putting them under nodes

    What [group_root_set] does with the roots of the same subject, on the forest:
    [remove_node] takes out a root or a child of a root ([pulled]),
    [container_add_child] makes a tree the first child of a node ([pushed]). *)

From Stdlib Require Import ZArith Lia.
From stdpp Require Import base list numbers gmap option.
From S2P Require Import Prelude Thread ThreadRep ThreadPrune ThreadLink.

(** ** Lists in parts *)

Lemma lst_pos lo s par pl a m : lst lo s par pl a m -> pl_val s (pos pl a) = Some m.
Proof.
  intros H. rewrite <- (app_nil_r a) in H. destruct (lst_at _ _ _ _ _ _ _ H) as ([p [E S]] & _). inversion S; subst. done.
Qed.

Lemma lst_app lo s par pl a b q : lst lo s par pl (a ++ b) q <-> exists m, lst lo s par pl a m /\ lst lo s par (pos pl a) b q.
Proof.
  split.
  - intros H. destruct (lst_at _ _ _ _ _ _ _ H) as (H1 & m & _ & H2). eauto.
  - intros (m & H1 & (p & E & H2)). rewrite (lst_pos _ _ _ _ _ _ H1) in E. injection E as <-. destruct H1 as (o & V & H1).
    exists o. split; [done|]. apply seg_app. eauto.
Qed.

Lemma seg_path lo g par p f : seg lo g par p f None -> path n_next g p (map t_root f).
Proof.
  remember None as q eqn:Eq. intros H. induction H as [|par l n kids f q G P _ _ H IH]; [by subst|].
  split; [done|]. exists n. split; [done|]. by apply IH.
Qed.

Lemma pos_lpos pl a : pos pl a = lpos pl (map t_root a).
Proof. unfold pos, lpos. rewrite fmap_last. by destruct (list.last a). Qed.

Lemma pos_in pl a : pos pl a = pl \/ exists t, t ∈ a /\ pos pl a = Next (t_root t).
Proof. unfold pos. destruct (list.last a) as [t|] eqn:E; [|by left]. right. exists t. split; [by apply last_Some_elem_of|done]. Qed.

(** The owner of the place behind [a] is not in what comes after. *)
Lemma pos_apart pl a b : NoDup (f_locs (a ++ b)) -> apart pl (a ++ b) -> apart (pos pl a) b.
Proof.
  intros D A. apply apart_app in A as [A1 A2]. destruct (pos_in pl a) as [->|(t & J & ->)]; [done|]. unfold apart. cbn.
  rewrite flat_map_app' in D. apply list.NoDup_app in D as (_ & D & _). apply D. by apply t_root_in_list.
Qed.

(** A tree whose root is in no list. *)
Definition tree_at (s : store) (t : tree) : Prop := exists n, nodes s !! t_root t = Some n /\ t_data t = d_of n /\
  seg true (nodes s) (kid_parent true (t_root t) (t_data t)) (n_child n) (t_kids t) None.

Lemma tree_at_frame s s' t : tree_at s t -> (forall l, l ∈ t_locs t -> nodes s' !! l = nodes s !! l) -> tree_at s' t.
Proof.
  intros (n & G & D & K) E. destruct t as [l d k]. cbn in *. exists n. split; [rewrite E; [done|left]|]. split; [done|].
  apply (seg_frame _ (nodes s)); [done|]. intros x J. apply E. by right.
Qed.

Lemma lst_tree s par pl t b q : lst true s par pl (t :: b) q -> tree_at s t.
Proof.
  destruct t as [l d k]. intros (V & n & G & D & P & K & _)%lst_cons. exists n. split; [done|]. split; [done|]. cbn.
  destruct K as (p & E & K). cbn in E. rewrite G in E. cbn in E. by injection E as ->.
Qed.

(** A write of [next] or [child] at a place only. *)
Definition linked_only (g g' : gmap loc ThreadNode) : Prop := forall l n, g !! l = Some n -> exists n', g' !! l = Some n' /\
  d_of n' = d_of n /\ n_parent n' = n_parent n /\ n_subject n' = n_subject n /\ n_re n' = n_re n.

Lemma linked_only_refl g : linked_only g g.
Proof. intros l n G. by exists n. Qed.
Lemma linked_only_trans g g1 g2 : linked_only g g1 -> linked_only g1 g2 -> linked_only g g2.
Proof.
  intros H1 H2 l n G. destruct (H1 l n G) as (n1 & G1 & ? & ? & ? & ?). destruct (H2 l n1 G1) as (n2 & G2 & ? & ? & ? & ?). exists n2. repeat split; congruence.
Qed.

Lemma pl_set_only s pl v : linked_only (nodes s) (nodes (pl_set s pl v)).
Proof.
  intros l n G. destruct (decide (pl_owner pl = Some l)) as [E|N]; [|rewrite pl_set_ne by done; by exists n].
  rewrite (pl_set_owner _ _ _ _ E), G. cbn. eexists. split; [done|]. by destruct pl.
Qed.

(** ** Taking out *)

Lemma lst_remove s par pl a t b q n : lst true s par pl (a ++ t :: b) q -> NoDup (f_locs (a ++ t :: b)) -> apart pl (a ++ t :: b) ->
  nodes s !! t_root t = Some n -> let s' := pl_set s (pos pl a) (n_next n) in
  lst true s' par pl (a ++ b) q /\ tree_at s' t /\ (forall l, l ∈ f_locs (t :: b) -> nodes s' !! l = nodes s !! l).
Proof.
  intros H D A G s'. pose proof (pos_apart _ _ _ D A) as AP. apply lst_app in H as (m & Ha & Hb). pose proof (lst_tree _ _ _ _ _ _ Hb) as TA.
  destruct t as [l d k]. apply lst_cons in Hb as (V & n' & G' & E & P & K & Hb). cbn in G. assert (n' = n) as -> by congruence.
  rewrite flat_map_app' in D. apply list.NoDup_app in D as (Da & Dab & Db). apply apart_app in A as [A1 A2].
  assert (Fr : forall x, x ∈ f_locs (T l d k :: b) -> nodes s' !! x = nodes s !! x).
  { intros x J. apply pl_set_ne. intros O. unfold apart in AP. by rewrite O in AP. }
  split; [|split; [|done]].
  - apply lst_app. exists (n_next n). split; [by apply (lst_set _ _ _ _ _ m)|]. destruct Hb as (p & Vp & Hb). cbn in Vp. rewrite G in Vp. injection Vp as <-.
    exists (n_next n). split; [apply pl_set_val; rewrite V; eauto|]. apply (seg_frame _ (nodes s)); [done|]. intros x J. apply Fr. cbn. set_solver.
  - apply (tree_at_frame s); [done|]. intros x J. apply Fr. rewrite flat_map_cons. apply elem_of_app. by left.
Qed.

(** The list of the children of a root, in its forest. *)
Lemma lst_kids s s' par pl a l d k k' b q : lst true s par pl (a ++ T l d k :: b) q -> NoDup (f_locs (a ++ T l d k :: b)) -> apart pl (a ++ T l d k :: b) ->
  lst true s' (kid_parent true l d) (Child l) k' None -> head s' = head s -> (forall x, x ∈ f_locs (a ++ b) \/ pl_owner pl = Some x -> nodes s' !! x = nodes s !! x) ->
  (exists n, nodes s !! l = Some n /\ exists v, nodes s' !! l = Some (with_child v n)) -> lst true s' par pl (a ++ T l d k' :: b) q.
Proof.
  intros H D A K Hd Fr (n & G & v & G'). apply lst_app in H as (m & (p & V & Ha) & Hb). apply lst_cons in Hb as (Vc & n' & Gn & -> & P & Hk & Hb).
  assert (n' = n) as -> by congruence. assert (Vs : forall x pl', (pl' = pl \/ pl' = Next x /\ x ∈ f_locs (a ++ b)) -> pl_val s' pl' = pl_val s pl').
  { intros x pl' [->|[-> J]]; [destruct pl; cbn; [by rewrite Hd|..]; rewrite Fr; auto|]. cbn. by rewrite Fr by auto. }
  apply lst_app. exists m. split.
  - exists p. split; [by rewrite (Vs l) by auto|]. apply (seg_frame _ (nodes s)); [done|]. intros x J. apply Fr. left. rewrite flat_map_app', elem_of_app. auto.
  - apply lst_cons. split.
    + destruct (pos_in pl a) as [E|(t & J & E)]; rewrite E in *; [by rewrite (Vs l) by auto|]. rewrite (Vs (t_root t)); [done|]. right. split; [done|].
      rewrite flat_map_app', elem_of_app. left. by apply t_root_in_list.
    + exists (with_child v n). split; [done|]. split; [done|]. split; [done|]. split; [done|]. destruct Hb as (h & Vh & Hb). exists h. split.
      * cbn in *. rewrite G in Vh. by rewrite G'.
      * apply (seg_frame _ (nodes s)); [done|]. intros x J. apply Fr. left. rewrite flat_map_app', elem_of_app. auto.
Qed.

(** ** Spots *)

(** Where a tree is, when a walk over the roots has come to the second part of the
    list: a root of either part, or a child of a root of the first part. *)
Inductive spot :=
  | In1 (a b rt : list tree)
  | In2 (lf a b : list tree)
  | Kid (a : list tree) (r : loc) (d : data) (k1 k2 b rt : list tree).

Definition left_part (sp : spot) (ts : list tree) : list tree :=
  match sp with In1 a b _ => a ++ ts ++ b | In2 lf _ _ => lf | Kid a r d k1 k2 b _ => a ++ T r d (k1 ++ ts ++ k2) :: b end.
Definition right_part (sp : spot) (ts : list tree) : list tree :=
  match sp with In1 _ _ rt => rt | In2 _ a b => a ++ ts ++ b | Kid _ _ _ _ _ _ rt => rt end.
Definition whole (sp : spot) (ts : list tree) : list tree := left_part sp ts ++ right_part sp ts.
Definition spot_parent (sp : spot) : option loc := match sp with Kid _ r _ _ _ _ _ => Some r | _ => None end.

Lemma whole_perm {A} (f : tree -> list A) (own : loc -> data -> list A) sp ts : (forall r d k, f (T r d k) = own r d ++ flat_map f k) ->
  flat_map f (whole sp ts) ≡ₚ flat_map f ts ++ flat_map f (whole sp []).
Proof.
  intros E. unfold whole. destruct sp as [a b w|l a b|a r d k1 k2 b w]; cbn [left_part right_part]; rewrite !flat_map_app', ?flat_map_cons, ?E, ?flat_map_app'; cbn [flat_map app].
  - rewrite (Permutation_app_swap_app (flat_map f a)). by rewrite <- !app_assoc.
  - rewrite (Permutation_app_swap_app (flat_map f a)). by rewrite (Permutation_app_swap_app (flat_map f l)).
  - rewrite (Permutation_app_swap_app (flat_map f k1)), (Permutation_app_swap_app (own r d)), <- !app_assoc. by rewrite (Permutation_app_swap_app (flat_map f a)).
Qed.

Lemma whole_locs sp ts : f_locs (whole sp ts) ≡ₚ f_locs ts ++ f_locs (whole sp []).
Proof. by apply (whole_perm t_locs (fun r _ => [r])). Qed.
Lemma whole_items sp ts : f_items (whole sp ts) ≡ₚ f_items ts ++ f_items (whole sp []).
Proof. by apply (whole_perm t_items (fun _ d => d_items d)). Qed.

Lemma whole_edges sp t e : e ∈ f_edges (whole sp [t]) -> e ∈ t_edges t \/ e ∈ f_edges (whole sp []) \/ fst (t_data t) = Some (snd e).
Proof.
  unfold whole. destruct sp as [a b w|l a b|a r d k1 k2 b w]; cbn [left_part right_part]; rewrite !flat_map_app', ?flat_map_cons; cbn [flat_map app t_edges];
  rewrite ?flat_map_app', ?flat_map_cons; cbn [flat_map app]; rewrite !elem_of_app, ?edges_of; rewrite ?elem_of_nil; try tauto.
  intros I; repeat match goal with H : _ \/ _ |- _ => destruct H as [H|H] end; try tauto.
  unfold d_edges in I. destruct (fst d) as [i|]; [|by apply elem_of_nil in I]. destruct (fst (t_data t)) as [j|]; [|by apply elem_of_nil in I].
  apply list_elem_of_singleton in I as ->. auto.
Qed.

(** A tree that is as the other one, but for more edges. *)
Lemma whole_edges_mono sp t t' : fst (t_data t') = fst (t_data t) -> (forall e, e ∈ t_edges t -> e ∈ t_edges t') ->
  forall e, e ∈ f_edges (whole sp [t]) -> e ∈ f_edges (whole sp [t']).
Proof.
  intros D E e. unfold whole. destruct sp as [a b w|l a b|a r d k1 k2 b w]; cbn [left_part right_part]; rewrite !flat_map_app', ?flat_map_cons; cbn [flat_map app t_edges];
  rewrite ?flat_map_app', ?flat_map_cons; cbn [flat_map app]; rewrite !elem_of_app, ?edges_of, ?elem_of_nil; try (specialize (E e); tauto).
  assert (D' : d_edges d (t_data t') = d_edges d (t_data t)) by (unfold d_edges; by rewrite D). rewrite D'. specialize (E e). tauto.
Qed.

Lemma whole_edges_drop sp t e : e ∈ f_edges (whole sp []) -> e ∈ f_edges (whole sp [t]).
Proof.
  unfold whole. destruct sp as [a b w|l a b|a r d k1 k2 b w]; cbn [left_part right_part]; rewrite !flat_map_app', ?flat_map_cons; cbn [flat_map app t_edges];
  rewrite ?flat_map_app', ?flat_map_cons; cbn [flat_map app]; rewrite !elem_of_app, ?edges_of, ?elem_of_nil; try tauto.
Qed.

(** ** [remove_node] *)

(** Only [next], [child] and the parent of [x] differ. *)
Definition same_but (x : option loc) (g g' : gmap loc ThreadNode) : Prop := forall l n, g !! l = Some n -> exists n', g' !! l = Some n' /\
  d_of n' = d_of n /\ n_subject n' = n_subject n /\ n_re n' = n_re n /\ (Some l <> x -> n_parent n' = n_parent n).

Lemma linked_only_but g g' x : linked_only g g' -> same_but x g g'.
Proof. intros H l n G. destruct (H l n G) as (n' & ? & ? & ? & ? & ?). by exists n'. Qed.

Lemma find_before_lst lo s par pl a t b fuel Q : lst lo s par pl (a ++ t :: b) None -> (length (f_locs (a ++ t :: b)) <= fuel)%nat ->
  Q (Some (pos pl a)) s -> wp (find_before fuel pl (t_root t)) Q s.
Proof.
  intros (o & V & S) L HQ. apply (find_before_spec _ _ _ o (map t_root a) (t_root t) (map t_root b)); [done| | |by rewrite <- pos_lpos].
  - apply seg_path in S. by rewrite map_app in S.
  - rewrite length_map, flat_map_app', length_app in *. rewrite flat_map_cons, length_app in L. assert (length a <= length (f_locs a))%nat.
    { clear. induction a as [|[l d k] a IH]; cbn; [done|]. rewrite length_app. lia. }
    destruct t. cbn in L. lia.
Qed.

Lemma with_child_id n : with_child (n_child n) n = n.
Proof. by destruct n. Qed.

Section remove.
Context (s : store) (sp : spot) (t : tree) (n : ThreadNode).
Context (H : lst true s (Some None) Head (whole sp [t]) None) (D : NoDup (f_locs (whole sp [t]))).
Context (G : nodes s !! t_root t = Some n) (P : n_parent n = spot_parent sp).

Definition removed (cl : place) (s' : store) : Prop :=
  cl = pos Head (left_part sp []) /\ lst true s' (Some None) Head (whole sp []) None /\ tree_at s' t /\
  linked_only (nodes s) (nodes s') /\ nodes s' !! t_root t = Some n /\
  forall l, l ∉ f_locs (whole sp []) -> nodes s' !! l = nodes s !! l.

(** The new [clast]: the same place, unless that was behind the node. *)
Lemma clast_root a b f : NoDup (f_locs (a ++ t :: b ++ f)) ->
  (if decide (pos Head (a ++ t :: b) = Next (t_root t)) then pos Head a else pos Head (a ++ t :: b)) = pos Head (a ++ b).
Proof using Type.
  intros N. destruct b as [|u b _] using rev_ind; [rewrite app_nil_r, pos_snoc; by rewrite decide_True|].
  rewrite app_comm_cons, !app_assoc, !pos_snoc. rewrite decide_False; [done|]. intros [= E].
  rewrite flat_map_app', flat_map_cons in N. apply list.NoDup_app in N as (_ & _ & N). apply list.NoDup_app in N as (_ & N & _).
  apply (N (t_root t)); [apply t_root_in|]. rewrite <- E. apply t_root_in_list. rewrite !elem_of_app. left. right. by left.
Qed.

Lemma clast_other (a : list tree) x : x ∉ map t_root a -> pos Head a <> Next x.
Proof using Type. intros N E. destruct (pos_in Head a) as [F|(u & J & F)]; rewrite F in E; [done|]. injection E as <-. apply N, list_elem_of_fmap. eauto. Qed.

Lemma remove_root a b cl cl' : whole sp [t] = a ++ t :: b -> spot_parent sp = None -> whole sp [] = a ++ b ->
  (if decide (cl = Next (t_root t)) then pos Head a else cl) = cl' -> cl' = pos Head (left_part sp []) -> wp (remove_node (t_root t) cl) removed s.
Proof using All.
  intros W SP W' C C'. unfold remove_node. apply wp_bind, (wp_rd _ _ _ _ n G), wp_bind, wp_all_nodes, wp_bind. rewrite P, SP.
  pose proof H as H1. pose proof D as D1. rewrite W in H1, D1. assert (A : apart Head (a ++ t :: b)) by done.
  apply (find_before_lst _ _ _ _ _ _ _ _ _ H1); [pose proof (lst_size _ _ _ _ _ _ H1 D1); lia|]. cbv zeta. rewrite C.
  destruct (lst_remove _ _ _ _ _ _ _ _ H1 D1 A G) as (H2 & T2 & F2). apply wp_bind, (wp_rd _ _ _ _ n G), wp_bind.
  apply wp_wrp; [destruct (lst_at _ _ _ _ _ _ _ H1) as (? & m & V & _); rewrite V; eauto|]. apply wp_ret. split; [done|].
  split; [by rewrite W'|]. split; [done|]. split; [apply pl_set_only|]. split.
  - rewrite F2; [done|]. rewrite flat_map_cons. apply elem_of_app. left. apply t_root_in.
  - intros l N. apply pl_set_ne. rewrite W', flat_map_app', elem_of_app in N. destruct (pos_in Head a) as [->|(u & J & ->)]; [done|]. intros [= <-].
    apply N. left. by apply t_root_in_list.
Qed.

Lemma remove_kid a r d k1 k2 b w : sp = Kid a r d k1 k2 b w -> wp (remove_node (t_root t) (pos Head (left_part sp [t]))) removed s.
Proof using All.
  intros Esp. unfold removed. rewrite Esp in *. cbn in P. unfold whole in *. cbn [left_part right_part app] in *. rewrite <- app_assoc, <- app_comm_cons in H, D.
  pose proof H as H1. apply lst_app in H1 as (m & _ & H1). apply lst_cons in H1 as (_ & nr & Gr & Er & _ & HK & _).
  pose proof D as D1. rewrite flat_map_app', flat_map_cons in D1. cbn [t_locs] in D1. apply list.NoDup_app in D1 as (D2 & D3 & D4).
  apply list.NoDup_app in D4 as (D4 & D5 & _). apply list.NoDup_cons in D4 as [Dr Dk].
  assert (A : apart (Child r) (k1 ++ t :: k2)) by done. assert (J : t_root t ∈ f_locs (k1 ++ t :: k2)) by (apply t_root_in_list, elem_of_app; right; by left).
  unfold remove_node. apply wp_bind, (wp_rd _ _ _ _ n G), wp_bind, wp_all_nodes, wp_bind. rewrite P.
  apply (find_before_lst _ _ _ _ _ _ _ _ _ HK); [pose proof (lst_size _ _ _ _ _ _ HK Dk); lia|]. cbv zeta.
  assert (Nr : r <> t_root t) by (intros ->; done).
  rewrite decide_False.
  2:{ apply clast_other. rewrite map_app. cbn [map t_root]. rewrite elem_of_app, elem_of_cons. intros [I|[I|I]]; [|done|]; apply list_elem_of_fmap in I as (u & E & I).
      - apply (D3 (t_root t)); [rewrite E; by apply t_root_in_list|]. set_solver.
      - apply (D5 (t_root t)); [set_solver|]. rewrite flat_map_app', elem_of_app. left. rewrite E. by apply t_root_in_list. }
  destruct (lst_remove _ _ _ _ _ _ _ _ HK Dk A G) as (H2 & T2 & F2). apply wp_bind, (wp_rd _ _ _ _ n G), wp_bind.
  apply wp_wrp; [destruct (lst_at _ _ _ _ _ _ _ HK) as (? & m' & V & _); rewrite V; eauto|]. apply wp_ret.
  set (s' := pl_set s (pos (Child r) k1) (n_next n)) in *.
  assert (OW : pl_owner (pos (Child r) k1) = Some r \/ exists x, x ∈ f_locs k1 /\ pl_owner (pos (Child r) k1) = Some x).
  { destruct (pos_in (Child r) k1) as [->|(u & J' & ->)]; [by left|right]. exists (t_root u). split; [by apply t_root_in_list|done]. }
  split.
  { by rewrite !pos_lpos, !map_app. }
  split.
  - rewrite <- app_assoc, <- app_comm_cons.
    apply (lst_kids s s' _ _ a r d (k1 ++ t :: k2) (k1 ++ k2) (b ++ w) None H D); [done|done|unfold s'; destruct OW as [OW|(? & _ & OW)]; by destruct (pos (Child r) k1)| |].
    + intros x [J'|J']; [|done]. apply pl_set_ne. rewrite flat_map_app', elem_of_app in J'.
      assert (x ∉ r :: f_locs (k1 ++ t :: k2)) as Nx.
      { destruct J' as [J'|J']; [intros I; apply (D3 x J'); set_solver|]. intros I. apply (D5 x); [done|done]. }
      rewrite flat_map_app' in Nx. destruct OW as [->|(y & Jy & ->)]; set_solver.
    + exists nr. split; [done|]. destruct (pos_in (Child r) k1) as [E|(u & J' & E)]; unfold s'; rewrite E; cbn.
      * rewrite lookup_alter_eq, Gr. eauto.
      * exists (n_child nr). rewrite lookup_alter_ne; [by rewrite with_child_id|]. intros E'. apply Dr. rewrite flat_map_app', elem_of_app. left. rewrite <- E'. by apply t_root_in_list.
  - split; [done|]. split; [apply pl_set_only|]. split.
    + rewrite F2; [done|]. rewrite flat_map_cons. apply elem_of_app. left. apply t_root_in.
    + intros l N. apply pl_set_ne. rewrite <- app_assoc, <- app_comm_cons, flat_map_app', flat_map_cons, !elem_of_app in N. cbn [t_locs] in N.
      rewrite elem_of_cons, flat_map_app', elem_of_app in N. destruct OW as [->|(y & Jy & ->)]; intros [= <-]; tauto.
Qed.
End remove.

Lemma thread_remove_node_spec s sp t n : lst true s (Some None) Head (whole sp [t]) None -> NoDup (f_locs (whole sp [t])) ->
  nodes s !! t_root t = Some n -> n_parent n = spot_parent sp ->
  wp (remove_node (t_root t) (pos Head (left_part sp [t]))) (removed s sp t n) s.
Proof.
  intros H D G P. destruct sp as [a b w|lf a b|a r d k1 k2 b w].
  - eapply (remove_root s (In1 a b w) t n H D G P a (b ++ w)); [unfold whole; cbn; by rewrite <- app_assoc|done|unfold whole; cbn; by rewrite <- app_assoc|done|].
    apply (clast_root t a b w). unfold whole in D. cbn in D. by rewrite <- app_assoc in D.
  - eapply (remove_root s (In2 lf a b) t n H D G P (lf ++ a) b); [unfold whole; cbn; by rewrite <- app_assoc|done|unfold whole; cbn; by rewrite <- app_assoc|done|].
    cbn. rewrite decide_False; [done|]. apply clast_other. intros (u & Eu & J)%list_elem_of_fmap. unfold whole in D. cbn in D. rewrite flat_map_app' in D.
    apply list.NoDup_app in D as (_ & D1 & _). apply (D1 (t_root t)); [rewrite Eu; by apply t_root_in_list|]. apply t_root_in_list, elem_of_app. right. by left.
  - by apply (remove_kid s (Kid a r d k1 k2 b w) t n H D G P a r d k1 k2 b w).
Qed.

(** ** [container_add_child] *)

Section push.
Context (s : store) (c : loc) (d : data) (k : list tree) (x : tree).
Context (TX : tree_at s x).

Definition pushed (s' : store) : Prop := same_but (Some (t_root x)) (nodes s) (nodes s') /\ head s' = head s /\
  (exists n, nodes s' !! t_root x = Some n /\ n_parent n = Some c) /\
  forall l, l <> c -> l <> t_root x -> nodes s' !! l = nodes s !! l.

Lemma push_list par pl a b q : lst true s par pl (a ++ T c d k :: b) q -> NoDup (t_locs x ++ f_locs (a ++ T c d k :: b)) ->
  apart pl (a ++ T c d k :: b) -> (forall l, pl_owner pl = Some l -> l <> t_root x) ->
  wp (container_add_child c (t_root x)) (fun _ s' => lst true s' par pl (a ++ T c d (x :: k) :: b) q /\ pushed s' /\
    exists n v, nodes s !! c = Some n /\ nodes s' !! c = Some (with_child v n)) s.
Proof using TX.
  intros H D A O. destruct TX as (nx & Gx & Dx & Kx). pose proof H as H1. apply lst_app in H1 as (m & _ & H1).
  apply lst_cons in H1 as (_ & nc & Gc & Ec & _ & Hk & _). apply list.NoDup_app in D as (D1 & D2 & D3).
  assert (Nc : c <> t_root x). { intros ->. apply (D2 (t_root x)); [apply t_root_in|]. rewrite flat_map_app', elem_of_app, flat_map_cons. right. by left. }
  apply (container_add_child_wp _ _ _ nc nx); [done..|]. set (s' := Store _ _).
  assert (Fr : forall l, l <> c -> l <> t_root x -> nodes s' !! l = nodes s !! l) by (intros l N1 N2; cbn; by rewrite !lookup_insert_ne).
  assert (Gc' : nodes s' !! c = Some (with_child (Some (t_root x)) nc)) by (cbn; rewrite lookup_insert_ne by done; by rewrite lookup_insert_eq).
  assert (Gx' : nodes s' !! t_root x = Some (with_parent (Some c) (with_next (n_child nc) nx))) by (cbn; by rewrite lookup_insert_eq).
  assert (FX : forall l, l ∈ f_locs (a ++ T c d k :: b) -> l <> t_root x) by (intros l J ->; apply (D2 (t_root x)); [apply t_root_in|done]).
  pose proof D3 as D3'. rewrite flat_map_app', flat_map_cons in D3'. cbn [t_locs] in D3'. apply list.NoDup_app in D3' as (Da & Dab & Db).
  apply list.NoDup_app in Db as (Dc & Dcb & _). apply list.NoDup_cons in Dc as [Dc Dk].
  split; [|split; [split; [|split; [done|split; [by eexists|done]]]|by exists nc, (Some (t_root x))]].
  - apply (lst_kids s s' par pl a c d k (x :: k) b q H D3 A); [|done| |by exists nc; split; [done|eexists]].
    + destruct x as [l dx kx]. cbn [t_root t_data t_kids] in *. apply lst_cons. split; [cbn [pl_val]; by rewrite Gc'|]. eexists. split; [exact Gx'|].
      split; [by rewrite Dx|]. split; [unfold kid_parent; by destruct (fst d)|]. cbn in D1. apply list.NoDup_cons in D1 as [D1 _]. split.
      * exists (n_child nx). split; [cbn [pl_val]; by rewrite Gx'|]. apply (seg_frame _ (nodes s)); [done|]. intros y J. apply Fr; [|congruence].
        intros ->. apply (D2 c); [cbn; by right|]. rewrite flat_map_app', elem_of_app, flat_map_cons. right. by left.
      * destruct Hk as (p & V & Sk). cbn in V. rewrite Gc in V. injection V as <-. exists (n_child nc). split; [cbn [pl_val]; by rewrite Gx'|].
        apply (seg_frame _ (nodes s)); [done|]. intros y J. apply Fr; [congruence|]. apply FX. rewrite flat_map_app', elem_of_app, flat_map_cons. cbn. set_solver.
    + intros y J. apply Fr.
      * intros ->. destruct J as [J|J]; [rewrite flat_map_app', elem_of_app in J; destruct J as [J|J]; [apply (Dab c J)|apply (Dcb c)]; set_solver|].
        unfold apart in A. rewrite J in A. apply A. rewrite flat_map_app', elem_of_app, flat_map_cons. right. by left.
      * destruct J as [J|J]; [|by apply O]. apply FX. rewrite flat_map_app', elem_of_app in *. rewrite flat_map_cons. set_solver.
  - intros l n G. destruct (decide (l = t_root x)) as [->|N1].
    + assert (n = nx) as -> by congruence. eexists. split; [exact Gx'|]. by repeat split.
    + destruct (decide (l = c)) as [->|N2]; [|exists n; by rewrite Fr].
      assert (n = nc) as -> by congruence. eexists. split; [exact Gc'|]. by repeat split.
Qed.
End push.

Lemma push_spec s sp c d k x : tree_at s x -> lst true s (Some None) Head (whole sp [T c d k]) None -> NoDup (t_locs x ++ f_locs (whole sp [T c d k])) ->
  wp (container_add_child c (t_root x)) (fun _ s' => lst true s' (Some None) Head (whole sp [T c d (x :: k)]) None /\ pushed s c x s') s.
Proof.
  intros TX H D. destruct sp as [a b w|lf a b|a r dr k1 k2 b w]; unfold whole in *; cbn [left_part right_part app] in *.
  - rewrite <- app_assoc, <- app_comm_cons in *. eapply wp_mono; [by apply (push_list s c d k x TX)|]. intros u s' (H' & P & _). done.
  - rewrite app_assoc in *. eapply wp_mono; [by apply (push_list s c d k x TX)|]. intros u s' (H' & P & _). done.
  - rewrite <- app_assoc, <- app_comm_cons in *. pose proof D as D0. apply list.NoDup_app in D0 as (D1 & D2 & D3).
    pose proof H as H1. apply lst_app in H1 as (m & _ & H1). apply lst_cons in H1 as (_ & nr & Gr & Er & _ & HK & _).
    pose proof D3 as D3'. rewrite flat_map_app', flat_map_cons in D3'. cbn [t_locs] in D3'. apply list.NoDup_app in D3' as (Da & Dab & Db).
    apply list.NoDup_app in Db as (Dr & Drb & _). apply list.NoDup_cons in Dr as [Dr Dk].
    assert (IN : forall y, y ∈ r :: f_locs (k1 ++ T c d k :: k2) -> y ∈ f_locs (a ++ T r dr (k1 ++ T c d k :: k2) :: b ++ w)).
    { intros y J. rewrite flat_map_app', elem_of_app, flat_map_cons, elem_of_app. auto. }
    eapply wp_mono; [apply (push_list s c d k x TX _ _ _ _ _ HK)|].
    + apply list.NoDup_app. split; [done|]. split; [|done]. intros y J J'. apply (D2 y J), IN. by right.
    + done.
    + cbn. intros l [= <-] E. apply (D2 (t_root x)); [apply t_root_in|]. rewrite <- E. apply IN. by left.
    + intros u s' (H' & P & (n & v & Gn & Gn')). destruct P as (P1 & P2 & P3 & Fr). split; [|done]. assert (Cin : c ∈ f_locs (k1 ++ T c d k :: k2)) by (rewrite flat_map_app', elem_of_app, flat_map_cons; right; by left).
      apply (lst_kids s s' _ _ a r dr (k1 ++ T c d k :: k2) _ (b ++ w) None H D3); [done|done|done| |].
      * intros y [J|J]; [|done]. apply Fr.
        -- intros ->. rewrite flat_map_app', elem_of_app in J. destruct J as [J|J]; [apply (Dab c J), elem_of_app; left; by right|apply (Drb c); [by right|done]].
        -- intros ->. apply (D2 (t_root x)); [apply t_root_in|]. rewrite flat_map_app', elem_of_app in *. rewrite flat_map_cons, elem_of_app. destruct J as [J|J]; auto.
      * exists nr. split; [done|]. exists (n_child nr). rewrite with_child_id, Fr; [done|by intros ->|]. intros E. apply (D2 (t_root x)); [apply t_root_in|]. rewrite <- E. apply IN. by left.
Qed.
