(* ===== verification/ThreadGroup.v ===== *)
(** * ThreadGroup: the table of subjects

    [group_root_set] first fills the table of subjects, and then merges each root
    with the node that the table has for its subject.  That may be a root, or a
    child of an earlier root that it was put under ([located]). *)

From Stdlib Require Import ZArith Lia.
From stdpp Require Import base list numbers gmap option.
From S2P Require Import Prelude Thread ThreadRep ThreadPrune ThreadLink ThreadMove.

(** ** Changes of the subjects only *)

Definition shape (n : ThreadNode) := (n_next n, n_parent n, n_child n, d_of n).
Definition same_shape (g g' : gmap loc ThreadNode) : Prop := forall l, shape <$> g' !! l = shape <$> g !! l.

Lemma shape_at g g' l n : same_shape g g' -> g !! l = Some n -> exists n', g' !! l = Some n' /\ shape n' = shape n.
Proof. intros E G. specialize (E l). rewrite G in E. by apply fmap_Some in E as (n' & G' & E'); eauto. Qed.

Lemma same_shape_trans g g1 g2 : same_shape g g1 -> same_shape g1 g2 -> same_shape g g2.
Proof. intros H1 H2 l. by rewrite H2. Qed.

Lemma same_shape_set (g : gmap loc ThreadNode) l n n' : g !! l = Some n -> shape n' = shape n -> same_shape g (<[l := n']> g).
Proof. intros G E x. destruct (decide (x = l)) as [->|]; [by rewrite lookup_insert_eq, G; cbn; rewrite E|by rewrite lookup_insert_ne]. Qed.

Lemma seg_shape lo g g' par p f q : same_shape g g' -> seg lo g par p f q -> seg lo g' par p f q.
Proof.
  intros S H. induction H as [|par l n kids f q G P K IH1 H IH2]; [constructor|]. destruct (shape_at _ _ _ _ S G) as (n' & G' & E).
  unfold shape in E. injection E as E1 E2 E3 E4 E5. assert (d_of n' = d_of n) as Ed by (unfold d_of; congruence). rewrite <- Ed in *. econstructor; [done| | |].
  - destruct par as [p|]; [|done]. cbn in *. congruence.
  - by rewrite E3.
  - by rewrite E1.
Qed.

Lemma lst_shape lo s s' par pl f q : same_shape (nodes s) (nodes s') -> head s' = head s -> lst lo s par pl f q -> lst lo s' par pl f q.
Proof.
  intros S Hd (p & V & H). exists p. split; [|by apply (seg_shape _ (nodes s))]. rewrite <- V. destruct pl as [|c|c]; cbn; [by rewrite Hd|..]; specialize (S c);
  destruct (nodes s !! c), (nodes s' !! c); try done; cbn in *; injection S as E1 E2 E3 E4; congruence.
Qed.

(** ** Roots *)

Abbreviation ok := (fun t => full t \/ phantom t).

Lemma full_kids t : full t -> Forall full (t_kids t) /\ is_Some (fst (t_data t)).
Proof. intros H. inversion H; subst. cbn. eauto. Qed.

Lemma full_intro l d k : is_Some (fst d) -> Forall full k -> full (T l d k).
Proof. destruct d as [[i|] o]; intros [x E]; [|done]. by constructor. Qed.

Lemma ok_kids t : ok t -> Forall full (t_kids t).
Proof. intros [H|(_ & H & _)]; [by apply full_kids|done]. Qed.

(** More children. *)
Lemma ok_push c d k x : ok (T c d k) -> full x -> ok (T c d (x :: k)).
Proof.
  intros [H|(E & F & L)] X.
  - left. apply full_kids in H as [Hk Hd]. apply full_intro; [done|]. by constructor.
  - right. split; [done|]. split; [by constructor|cbn in *; lia].
Qed.

Definition kid_ok (sp : spot) (t : tree) : Prop :=
  match sp with Kid _ _ d k1 k2 _ _ => (fst d = None -> (2 <= length (k1 ++ k2))%nat) /\ is_Some (fst (t_data t)) | _ => True end.

Definition is_kid (sp : spot) : Prop := match sp with Kid _ _ _ _ _ _ _ => True | _ => False end.

Lemma spot_ok sp t : Forall ok (whole sp [t]) -> ok t /\ (is_kid sp -> full t).
Proof.
  unfold whole. destruct sp as [a b w|lf a b|a r d k1 k2 b w]; cbn [left_part right_part app]; rewrite !list.Forall_app, list.Forall_cons, ?list.Forall_app.
  - intros [(_ & H & _) _]. done.
  - intros (_ & _ & H & _). done.
  - intros [(_ & H & _) _]. apply ok_kids in H. cbn in H. rewrite list.Forall_app, list.Forall_cons in H. destruct H as (_ & H & _). split; [by left|done].
Qed.

Lemma spot_remove sp t : kid_ok sp t -> Forall ok (whole sp [t]) -> Forall ok (whole sp []).
Proof.
  unfold whole. destruct sp as [a b w|lf a b|a r d k1 k2 b w]; cbn [left_part right_part app]; rewrite !list.Forall_app, ?list.Forall_cons, ?list.Forall_app; [tauto|tauto|].
  intros [K _] [(Ha & H & Hb) Hw]. split; [|done]. split; [done|]. split; [|done]. destruct H as [H|(E & F & L)].
  - left. apply full_kids in H as [Hk Hd]. apply full_intro; [done|]. cbn in Hk. rewrite !list.Forall_app, list.Forall_cons in *. tauto.
  - right. split; [done|]. cbn in *. rewrite !list.Forall_app, list.Forall_cons in *. split; [tauto|]. by apply K.
Qed.

Lemma spot_replace sp t t' : Forall ok (whole sp [t]) -> ok t' -> (is_kid sp -> full t') -> Forall ok (whole sp [t']).
Proof.
  unfold whole. destruct sp as [a b w|lf a b|a r d k1 k2 b w]; cbn [left_part right_part app]; rewrite !list.Forall_app, ?list.Forall_cons, ?list.Forall_app; [tauto|tauto|].
  intros [(Ha & H & Hb) Hw] _ K. split; [|done]. split; [done|]. split; [|done]. specialize (K I). destruct H as [H|(E & F & L)].
  - left. apply full_kids in H as [Hk Hd]. apply full_intro; [done|]. cbn in Hk. rewrite !list.Forall_app, list.Forall_cons in *. tauto.
  - right. split; [done|]. cbn in *. rewrite !list.Forall_app, list.Forall_cons in *. split; [tauto|]. rewrite length_app in *. cbn in *. lia.
Qed.

(** ** The table of subjects *)

Definition subj (s : store) (l : loc) : option (list Z) := nodes s !! l ≫= n_subject.

Definition located (s : store) (sb : list Z) (l : loc) (f1 f2 : list tree) : Prop := exists sp t,
  left_part sp [t] = f1 /\ right_part sp [t] = f2 /\ t_root t = l /\ kid_ok sp t /\ subj s l = Some sb /\
  (exists n, nodes s !! l = Some n /\ n_parent n = spot_parent sp) /\
  match sp with Kid _ r _ _ _ _ _ => subj s r = Some sb | _ => True end.

(** Trees and nodes of another subject stay. *)
Definition nodes_stay (sb : list Z) (s s' : store) : Prop := forall l n, nodes s !! l = Some n -> n_subject n <> Some sb ->
  exists n', nodes s' !! l = Some n' /\ n_subject n' = n_subject n /\ n_parent n' = n_parent n /\ d_of n' = d_of n.

Definition others_stay (sb : list Z) (s s' : store) (f1 f2 f1' f2' : list tree) : Prop :=
  (forall t, t ∈ f1 -> subj s (t_root t) <> Some sb -> t ∈ f1') /\
  (forall t, t ∈ f2 -> subj s (t_root t) <> Some sb -> t ∈ f2') /\
  nodes_stay sb s s'.

Lemma located_stay s s' sb sb' l f1 f2 f1' f2' : others_stay sb s s' f1 f2 f1' f2' -> sb' <> sb -> located s sb' l f1 f2 -> located s' sb' l f1' f2'.
Proof.
  intros (S1 & S2 & SN) N (sp & t & E1 & E2 & R & K & Sl & (n & G & P) & X).
  assert (SUB : forall x, subj s x = Some sb' -> subj s' x = Some sb' /\ subj s x <> Some sb).
  { intros x E. split; [|congruence]. unfold subj in *. destruct (nodes s !! x) as [m|] eqn:Gm; [|done]. cbn in E. destruct (SN x m Gm) as (m' & Gm' & Em & _); [congruence|].
    rewrite Gm'. cbn. congruence. }
  destruct (SUB l Sl) as [Sl' Nl]. assert (NX : exists n', nodes s' !! l = Some n' /\ n_parent n' = spot_parent sp).
  { unfold subj in Sl. rewrite G in Sl. cbn in Sl. destruct (SN l n G) as (n' & G' & _ & P' & _); [congruence|]. exists n'. split; [done|congruence]. }
  destruct sp as [a b w|lf a b|a r d k1 k2 b w]; cbn in E1, E2.
  - assert (t ∈ f1') as J by (apply S1; [rewrite <- E1; apply elem_of_app; right; left|by rewrite R]). apply list_elem_of_split in J as (a' & b' & ->).
    by exists (In1 a' b' f2'), t.
  - assert (t ∈ f2') as J by (apply S2; [rewrite <- E2; apply elem_of_app; right; left|by rewrite R]). apply list_elem_of_split in J as (a' & b' & ->).
    by exists (In2 f1' a' b'), t.
  - destruct (SUB r X) as [Sr' Nr]. assert (T r d (k1 ++ t :: k2) ∈ f1') as J by (apply S1; [rewrite <- E1; apply elem_of_app; right; left|done]).
    apply list_elem_of_split in J as (a' & b' & ->). by exists (Kid a' r d k1 k2 b' f2'), t.
Qed.

(** The walk goes on by one root. *)
Lemma located_pass s sb l f1 c f2 : located s sb l f1 (c :: f2) -> located s sb l (f1 ++ [c]) f2.
Proof.
  intros (sp & t & E1 & E2 & R & K & Sl & NX & X). destruct sp as [a b w|lf a b|a r d k1 k2 b w]; cbn in E1, E2.
  - exists (In1 a (b ++ [c]) f2), t. cbn. split; [rewrite <- E1; cbn; by rewrite <- app_assoc|done].
  - destruct a as [|u a]; cbn in E2; injection E2 as <- <-.
    + exists (In1 lf [] b), t. cbn. by subst.
    + exists (In2 (lf ++ [u]) a b), t. cbn. by subst.
  - exists (Kid a r d k1 k2 (b ++ [c]) f2), t. cbn. split; [rewrite <- E1; cbn; by rewrite <- app_assoc|done].
Qed.

(** ** Filling the table *)

Section group.
Context (fns : ItemFunctions).

Lemma scan_children_spec fuel s lo par p f Q : seg lo (nodes s) par p f None -> (length f < fuel)%nat -> (forall r, Q r s) -> wp (scan_children fuel p) Q s.
Proof.
  revert p f. induction fuel as [|fuel IH]; intros p f H L HQ; [lia|]. inversion H as [|? l n k f' ? G P K Hf]; subst; cbn [scan_children].
  - by apply wp_ret.
  - apply wp_bind, (wp_rd _ _ _ _ n G). destruct (n_item n); [by apply wp_ret|]. apply wp_bind, (wp_rd _ _ _ _ n G). apply (IH _ f'); [done|cbn in L; lia|done].
Qed.

Lemma length_locs f : (length f <= length (f_locs f))%nat.
Proof. induction f as [|[l d k] f IH]; cbn; [done|]. rewrite length_app. lia. Qed.

Lemma get_root_subject_spec s c n k lo par : nodes s !! c = Some n -> seg lo (nodes s) par (n_child n) k None -> NoDup (f_locs k) ->
  wp (get_root_subject fns c) (fun _ s' => head s' = head s /\ exists re, nodes s' = <[c := with_re re n]> (nodes s)) s.
Proof.
  intros G K D. unfold get_root_subject. apply wp_bind, (wp_wr _ _ _ _ n G). set (s1 := upd _ _ _).
  assert (G1 : nodes s1 !! c = Some (with_re false n)) by (cbn; by rewrite lookup_insert_eq).
  assert (S1 : same_shape (nodes s) (nodes s1)) by by apply (same_shape_set _ _ n).
  assert (K1 : seg lo (nodes s1) par (n_child n) k None) by by apply (seg_shape _ (nodes s)).
  assert (FIN : forall i : option gpointer, wp (match i with None => mret None | Some i => match get_subject_func fns i with None => mret None
    | Some sb => let '(root, re) := root_of sb in wr c (with_re re);; mret root end end) (fun _ s' => head s' = head s /\ exists re, nodes s' = <[c := with_re re n]> (nodes s)) s1).
  { assert (R1 : forall r : option (list Z), wp (mret r) (fun _ s' => head s' = head s /\ exists re, nodes s' = <[c := with_re re n]> (nodes s)) s1) by (intros r; apply wp_ret; split; [done|by exists false]).
    intros [i|]; [|done]. destruct (get_subject_func fns i) as [sb|]; [|done]. destruct (root_of sb) as [root re]. apply wp_bind, (wp_wr _ _ _ _ _ G1), wp_ret.
    split; [done|]. exists re. cbn. by rewrite insert_insert_eq. }
  apply wp_bind, (wp_rd _ _ _ _ _ G1). cbn [n_item with_re]. apply wp_bind. destruct (n_item n) as [i|]; [apply wp_ret, (FIN (Some i))|].
  apply wp_bind, wp_all_nodes, wp_bind, (wp_rd _ _ _ _ _ G1). cbn [n_child with_re]. apply (scan_children_spec _ _ _ _ _ _ _ K1); [|intros r; apply (FIN r)].
  assert (LS : lst lo (Store (nodes s1) (n_child n)) par Head k None) by by exists (n_child n).
  pose proof (lst_size _ _ _ _ _ _ LS D). pose proof (length_locs k). cbn in *. lia.
Qed.

Lemma gather_spec f2 fuel tbl s f1 c : lst true s (Some None) Head (f1 ++ f2) None -> seg true (nodes s) (Some None) c f2 None -> NoDup (f_locs (f1 ++ f2)) ->
  (length f2 < fuel)%nat -> (forall sb l, tbl !! sb = Some l -> (exists t, t ∈ f1 /\ t_root t = l) /\ subj s l = Some sb) ->
  wp (gather_subjects fns fuel tbl c) (fun tbl' s' => same_shape (nodes s) (nodes s') /\ head s' = head s /\
     forall sb l, tbl' !! sb = Some l -> (exists t, t ∈ f1 ++ f2 /\ t_root t = l) /\ subj s' l = Some sb) s.
Proof.
  revert fuel tbl s f1 c. induction f2 as [|t f2 IH]; intros fuel tbl s f1 c H S D L TB; (destruct fuel as [|fuel]; [cbn in L; lia|]).
  { inversion S; subst. cbn [gather_subjects]. apply wp_ret. split; [done|]. split; [done|]. by rewrite app_nil_r. }
  inversion S as [|? l n k ? ? G P K Hf]; subst. cbn [gather_subjects]. pose proof D as D0. rewrite flat_map_app', flat_map_cons in D0. cbn [t_locs] in D0.
  apply list.NoDup_app in D0 as (_ & D1 & D2). apply list.NoDup_app in D2 as (D2 & D3 & _). apply list.NoDup_cons in D2 as [D2 Dk].
  apply wp_bind. eapply wp_mono; [by apply (get_root_subject_spec s l n k _ _ G K)|]. intros root s1 (Hd & re & E1).
  assert (G1 : nodes s1 !! l = Some (with_re re n)) by (rewrite E1; by rewrite lookup_insert_eq). apply wp_bind, (wp_wr _ _ _ _ _ G1).
  set (n' := with_subject root (with_re re n)). set (s2 := upd s1 l n'). assert (E2 : nodes s2 = <[l := n']> (nodes s)) by (unfold s2, upd; cbn; by rewrite E1, insert_insert_eq).
  assert (S2 : same_shape (nodes s) (nodes s2)) by (rewrite E2; by apply (same_shape_set _ _ n)).
  assert (G2 : nodes s2 !! l = Some n') by (by rewrite E2, lookup_insert_eq).
  assert (TB2 : forall sb x, tbl !! sb = Some x -> (exists t, t ∈ f1 ++ [T l (d_of n) k] /\ t_root t = x) /\ subj s2 x = Some sb).
  { intros sb x E. destruct (TB sb x E) as [(t & J & R) Sx]. split; [exists t; split; [apply elem_of_app; by left|done]|]. unfold subj in *. rewrite E2, lookup_insert_ne; [done|].
    intros <-. apply (D1 l); [rewrite <- R; by apply t_root_in_list|]. apply elem_of_app. left. by left. }
  assert (NEW : forall tbl', (tbl' = tbl \/ exists sb, root = Some sb /\ tbl' = <[sb := l]> tbl) ->
    wp (next ← rd l n_next; gather_subjects fns fuel tbl' next) (fun tbl' s' => same_shape (nodes s) (nodes s') /\ head s' = head s /\
     forall sb x, tbl' !! sb = Some x -> (exists t, t ∈ f1 ++ T l (d_of n) k :: f2 /\ t_root t = x) /\ subj s' x = Some sb) s2).
  { intros tbl' HT. apply wp_bind, (wp_rd _ _ _ _ _ G2). cbn [n_next n' with_subject with_re]. rewrite cons_middle, app_assoc in H, D. eapply wp_mono.
    - apply (IH fuel tbl' s2 (f1 ++ [T l (d_of n) k]) (n_next n)); [by apply (lst_shape _ s)|by apply (seg_shape _ (nodes s))|done|cbn in L; lia|].
      intros sb x E. destruct HT as [->|(sb' & Er & ->)]; [by apply TB2|]. destruct (decide (sb = sb')) as [->|N].
      + rewrite lookup_insert_eq in E. injection E as <-. split; [eexists; split; [apply elem_of_app; right; by left|done]|]. unfold subj. rewrite G2. cbn. done.
      + rewrite lookup_insert_ne in E by done. by apply TB2.
    - intros tbl2 s3 (S3 & H3 & T3). split; [by apply (same_shape_trans _ (nodes s2))|]. split; [unfold s2, upd in H3; cbn in H3; congruence|].
      rewrite <- app_assoc in T3. exact T3. }
  apply wp_bind. destruct root as [sb|]; [|apply wp_ret, NEW; by left]. destruct (tbl !! sb) as [x|] eqn:Ex; [|apply wp_ret, NEW; right; eauto].
  destruct (TB2 sb x Ex) as [_ Sx]. unfold subj in Sx. destruct (nodes s2 !! x) as [nx|] eqn:Gx; [|done].
  apply wp_bind, (wp_rd _ _ _ _ _ Gx), wp_bind, (wp_rd _ _ _ _ _ G2), wp_bind, (wp_rd _ _ _ _ _ Gx), wp_bind, (wp_rd _ _ _ _ _ G2), wp_ret.
  apply NEW. destruct (_ || _); [right; eauto|by left].
Qed.
End group.
