(* ===== verification/ThreadMerge.v ===== *)
(** * ThreadMerge: roots with the same subject

    The walk of [group_root_set] over the roots: each case of [merge_subject] keeps
    the invariant [grouped].  No message is lost, no edge from a reference is
    cut, and an empty root keeps two children. *)

From Stdlib Require Import ZArith Lia.
From stdpp Require Import base list numbers gmap option.
From S2P Require Import Prelude Thread ThreadRep ThreadPrune ThreadLink ThreadMove ThreadGroup.

Section group.
Context (fns : ItemFunctions).

(** ** Merging *)

(** [edges]: those from references; [messages]: all of the forest. *)
Context (edges : list (gpointer * gpointer)) (messages : list (gpointer * Z)).

Definition no_reply (s : store) (l : loc) : Prop := forall n i, nodes s !! l = Some n -> n_item n = Some i -> i ∉ map snd edges.

Record grouped (s : store) (tbl : gmap (list Z) loc) (f1 f2 : list tree) : Prop := {
  gp_lst : lst true s (Some None) Head (f1 ++ f2) None;
  gp_nodup : NoDup (f_locs (f1 ++ f2));
  gp_ok : Forall ok (f1 ++ f2);
  gp_items : f_items (f1 ++ f2) ≡ₚ messages;
  gp_edges : forall e, e ∈ edges -> e ∈ f_edges (f1 ++ f2);
  gp_table : forall sb l, tbl !! sb = Some l -> located s sb l f1 f2 /\ no_reply s l }.

Lemma grouped_step s s' tbl tbl' sb f1 f2 f1' f2' : grouped s tbl f1 f2 -> lst true s' (Some None) Head (f1' ++ f2') None ->
  NoDup (f_locs (f1' ++ f2')) -> Forall ok (f1' ++ f2') -> f_items (f1' ++ f2') ≡ₚ f_items (f1 ++ f2) ->
  (forall e, e ∈ edges -> e ∈ f_edges (f1 ++ f2) -> e ∈ f_edges (f1' ++ f2')) -> others_stay sb s s' f1 f2 f1' f2' ->
  (forall sb', sb' <> sb -> tbl' !! sb' = tbl !! sb') -> (forall l, tbl' !! sb = Some l -> located s' sb l f1' f2' /\ no_reply s' l) ->
  grouped s' tbl' f1' f2'.
Proof using Type.
  intros [Hl Hn Ho Hi He Ht] L N O I E S T1 T2. split; [done|done|done|by rewrite I|by auto|]. intros sb' l El. destruct (decide (sb' = sb)) as [->|Ns]; [auto|].
  rewrite T1 in El by done. destruct (Ht _ _ El) as [LC NR]. split; [by apply (located_stay s s' sb sb' l f1 f2)|].
  intros n i G Ni. destruct LC as (_ & _ & _ & _ & _ & _ & Sl & (m & Gm & _) & _). destruct S as (_ & _ & SN). unfold subj in Sl. rewrite Gm in Sl. cbn in Sl.
  destruct (SN l m Gm) as (m' & Gm' & _ & _ & Dm); [congruence|]. apply (NR m); [done|]. injection Dm as Dm _. congruence.
Qed.

Lemma grouped_pass s tbl f1 c f2 : grouped s tbl f1 (c :: f2) -> grouped s tbl (f1 ++ [c]) f2.
Proof using Type.
  intros [Hl Hn Ho Hi He Ht]. split; rewrite <- ?app_assoc; try done. intros sb l E. destruct (Ht sb l E) as [LC NR]. split; [by apply located_pass|done].
Qed.

Lemma parts_keep sp t ts : (forall tr, tr ∈ left_part sp [t] -> tr ∈ left_part sp ts \/ tr = t \/ (exists r, t_root tr = r /\ spot_parent sp = Some r)) /\
  (forall tr, tr ∈ right_part sp [t] -> tr ∈ right_part sp ts \/ tr = t).
Proof using Type.
  destruct sp as [a b w|lf a b|a r d k1 k2 b w]; cbn; (split; [|try by auto]); intros tr; rewrite ?elem_of_app, ?elem_of_cons, ?elem_of_app; try naive_solver.
Qed.

(** Nodes that are moved or changed have the subject. *)
Lemma stay_nodes s s' sb l : same_but (Some l) (nodes s) (nodes s') -> subj s l = Some sb -> nodes_stay sb s s'.
Proof using Type.
  intros H X x n G N. destruct (H x n G) as (n' & G' & D & S & _ & P). exists n'. split; [done|]. split; [done|]. split; [|done]. apply P. intros [= <-].
  unfold subj in X. rewrite G in X. done.
Qed.

Lemma stay_trans s s1 s2 sb : nodes_stay sb s s1 -> nodes_stay sb s1 s2 -> nodes_stay sb s s2.
Proof using Type.
  intros H1 H2 l n G N. destruct (H1 l n G N) as (n1 & G1 & E1 & P1 & D1). destruct (H2 l n1 G1) as (n2 & G2 & E2 & P2 & D2); [congruence|].
  exists n2. repeat split; congruence.
Qed.

Lemma stay_linked s s' sb : linked_only (nodes s) (nodes s') -> nodes_stay sb s s'.
Proof using Type. intros H l n G _. destruct (H l n G) as (n' & ? & ? & ? & ? & _). by exists n'. Qed.

Lemma subj_but s s' x l : same_but x (nodes s) (nodes s') -> is_Some (nodes s !! l) -> subj s' l = subj s l.
Proof using Type. intros H [n G]. destruct (H l n G) as (n' & G' & _ & S & _). unfold subj. rewrite G, G'. done. Qed.

Lemma same_but_trans x g g1 g2 : same_but x g g1 -> same_but x g1 g2 -> same_but x g g2.
Proof using Type.
  intros H1 H2 l n G. destruct (H1 l n G) as (n1 & G1 & ? & ? & ? & P1). destruct (H2 l n1 G1) as (n2 & G2 & ? & ? & ? & P2). exists n2.
  split; [done|]. split; [congruence|]. split; [congruence|]. split; [congruence|]. intros N. rewrite P2, P1; done.
Qed.

(** The spot in the list without the root [c] at which the walk is. *)
Lemma spot_without sp t c f2 : right_part sp [t] = c :: f2 -> t <> c -> exists spc,
  (forall ts, left_part spc ts = left_part sp ts) /\ (forall ts, right_part sp ts = c :: right_part spc ts) /\ spot_parent spc = spot_parent sp /\
  (forall t', fst (t_data t') = fst (t_data t) -> kid_ok sp t -> kid_ok spc t') /\ (is_kid spc <-> is_kid sp) /\
  (forall s sb, match sp with Kid _ r _ _ _ _ _ => subj s r = Some sb | _ => True end -> match spc with Kid _ r _ _ _ _ _ => subj s r = Some sb | _ => True end).
Proof using Type.
  destruct sp as [a b w|lf a b|a r d k1 k2 b w]; cbn; intros E N.
  - exists (In1 a b f2). subst w. done.
  - destruct a as [|u a]; cbn in E; [congruence|]. injection E as <- E. exists (In2 lf a b). done.
  - exists (Kid a r d k1 k2 b f2). subst w. split; [done|]. split; [done|]. split; [done|]. split; [|done]. cbn. intros t' <-. done.
Qed.

Lemma pos_roots pl a b : map t_root a = map t_root b -> pos pl a = pos pl b.
Proof using Type. intros E. by rewrite !pos_lpos, E. Qed.

Lemma left_roots sp t t' : t_root t = t_root t' -> map t_root (left_part sp [t]) = map t_root (left_part sp [t']).
Proof using Type. destruct sp as [a b w|lf a b|a r d k1 k2 b w]; cbn; intros E; rewrite ?map_app; cbn; [by rewrite E|done|done]. Qed.

(** What is known when a root [c] and another node [t] have the same subject. *)
Record meeting (s : store) (tbl : gmap (list Z) loc) (sb : list Z) (f1 r : list tree) (c : tree) (sp : spot) (t : tree) : Prop := {
  mt_grouped : grouped s tbl f1 (c :: r);
  mt_left : left_part sp [t] = f1;
  mt_right : right_part sp [t] = c :: r;
  mt_diff : t_root t <> t_root c;
  mt_subj : subj s (t_root c) = Some sb;
  mt_table : tbl !! sb = Some (t_root t);
  mt_subj' : subj s (t_root t) = Some sb;
  mt_ok : kid_ok sp t;
  mt_parent : exists n, nodes s !! t_root t = Some n /\ n_parent n = spot_parent sp;
  mt_kid : match sp with Kid _ r _ _ _ _ _ => subj s r = Some sb | _ => True end }.

Definition step_post (r : list tree) (cl : place) (tbl' : gmap (list Z) loc) (s' : store) : Prop :=
  exists f1' f2', grouped s' tbl' f1' f2' /\ (length f2' <= length r)%nat /\ cl = pos Head f1'.

Lemma meeting_whole s tbl sb f1 r c sp t : meeting s tbl sb f1 r c sp t -> f1 ++ c :: r = whole sp [t].
Proof using Type. intros M. unfold whole. by rewrite (mt_left _ _ _ _ _ _ _ _ M), (mt_right _ _ _ _ _ _ _ _ M). Qed.

Lemma spot_parent_subj s sp sb r : match sp with Kid _ r _ _ _ _ _ => subj s r = Some sb | _ => True end -> spot_parent sp = Some r -> subj s r = Some sb.
Proof using Type. destruct sp; cbn; [done..|]. by intros ? [= <-]. Qed.

(** The trees with another subject, after [t] was taken out or changed at its spot and [c] moved. *)
Lemma others_parts s s' tbl sb f1 r c sp t spc ts f1' f2' : meeting s tbl sb f1 r c sp t ->
  (forall ts, left_part spc ts = left_part sp ts) -> (forall ts, right_part sp ts = c :: right_part spc ts) -> spot_parent spc = spot_parent sp ->
  (forall x, x ∈ left_part spc ts -> x ∈ f1') -> (forall x, x ∈ right_part spc ts -> x ∈ f2') ->
  nodes_stay sb s s' -> others_stay sb s s' f1 (c :: r) f1' f2'.
Proof using Type.
  intros M L R P S1 S2 B. pose proof (mt_subj _ _ _ _ _ _ _ _ M) as Sc. pose proof (mt_subj' _ _ _ _ _ _ _ _ M) as St.
  destruct (parts_keep spc t ts) as [K1 K2]. split; [|split; [|done]].
  - intros x J N. rewrite <- (mt_left _ _ _ _ _ _ _ _ M), <- L in J. destruct (K1 x J) as [H|[->|(q & Eq & Pq)]]; [by apply S1|done|].
    exfalso. apply N. rewrite Eq. rewrite P in Pq. by apply (spot_parent_subj s sp sb q (mt_kid _ _ _ _ _ _ _ _ M)).
  - intros x J N. apply elem_of_cons in J as [->|J]; [done|]. assert (r = right_part spc [t]) as Er by (pose proof (mt_right _ _ _ _ _ _ _ _ M) as E; rewrite R in E; by injection E).
    rewrite Er in J. destruct (K2 x J) as [H| ->]; [by apply S2|done].
Qed.

Lemma push_locs sp c d k x : f_locs (whole sp [T c d (x :: k)]) ≡ₚ t_locs x ++ f_locs (whole sp [T c d k]).
Proof using Type.
  rewrite whole_locs, (whole_locs sp [T c d k]). cbn. rewrite !app_nil_r, <- app_assoc. by rewrite (Permutation_middle (t_locs x)).
Qed.
Lemma push_items sp c d k x : f_items (whole sp [T c d (x :: k)]) ≡ₚ t_items x ++ f_items (whole sp [T c d k]).
Proof using Type.
  rewrite whole_items, (whole_items sp [T c d k]). cbn. rewrite !app_nil_r, <- !app_assoc. by rewrite (Permutation_app_swap_app (d_items d)).
Qed.
Lemma push_edges sp c d k x e : e ∈ t_edges x \/ e ∈ f_edges (whole sp [T c d k]) -> e ∈ f_edges (whole sp [T c d (x :: k)]).
Proof using Type.
  intros [I|I]; [|apply (whole_edges_mono sp (T c d k)); [done| |done]; intros e'; cbn; rewrite !elem_of_app; tauto].
  revert I. unfold whole. destruct sp as [a b w|lf a b|a r dr k1 k2 b w]; cbn [left_part right_part]; rewrite !flat_map_app', ?flat_map_cons; cbn [flat_map app t_edges];
  rewrite ?flat_map_app', ?flat_map_cons; cbn [flat_map app t_edges]; rewrite !elem_of_app; tauto.
Qed.

(** The node of the table goes under [c]. *)
Lemma merge_under s tbl sb f1 r c d k sp t : meeting s tbl sb f1 r (T c d k) sp t -> full t -> (fst d = None -> (2 <= length k)%nat) ->
  wp (clast ← remove_node (t_root t) (pos Head f1); container_add_child c (t_root t);; mret (clast, false, tbl))
    (fun '(cl, cont, tbl') s' => step_post r (if cont : bool then cl else Next c) tbl' s') s.
Proof using Type.
  intros M Ft Kd. pose proof (meeting_whole _ _ _ _ _ _ _ _ M) as W. destruct (mt_grouped _ _ _ _ _ _ _ _ M) as [Hl Hn Ho Hi He Ht].
  pose proof (mt_parent _ _ _ _ _ _ _ _ M) as (n & G & P). destruct (spot_without sp t (T c d k) r (mt_right _ _ _ _ _ _ _ _ M)) as (spc & L & R & SP & _ & _ & _).
  { intros ->. by apply (mt_diff _ _ _ _ _ _ _ _ M). }
  rewrite W in Hl, Hn, Ho. pose proof (whole_locs sp [t]) as PL. cbn [flat_map] in PL. rewrite app_nil_r in PL. rewrite PL in Hn.
  apply wp_bind. rewrite <- (mt_left _ _ _ _ _ _ _ _ M). eapply wp_mono; [apply (thread_remove_node_spec s sp t n Hl); [by rewrite PL|done|done]|].
  intros cl s1 (_ & H1 & T1 & LO & G1 & F1). apply wp_bind.
  assert (W1 : whole sp [] = whole (In2 (left_part sp []) [] (right_part spc [])) [T c d k]) by (unfold whole; cbn; by rewrite R).
  rewrite W1 in H1. eapply wp_mono; [apply (push_spec s1 _ c d k t T1 H1); by rewrite <- W1|].
  intros u s2 (H2 & B2 & Hd2 & (n2 & G2 & P2) & F2). apply wp_ret. cbn [whole] in H2. unfold whole in H2. cbn [left_part right_part app] in H2.
  set (S0 := In2 (left_part sp []) [] (right_part spc [])) in *.
  set (f1' := left_part sp []) in *. set (f2' := right_part spc []) in *. exists (f1' ++ [T c d (t :: k)]), f2'.
  assert (B : same_but (Some (t_root t)) (nodes s) (nodes s2)) by (apply (same_but_trans _ _ (nodes s1)); [by apply linked_only_but|done]).
  assert (RL : (length f2' <= length r)%nat).
  { pose proof (mt_right _ _ _ _ _ _ _ _ M) as E. rewrite R in E. injection E as E. rewrite <- E. unfold f2'. destruct spc; cbn; rewrite ?length_app; cbn; lia. }
  assert (WN : (f1' ++ [T c d (t :: k)]) ++ f2' = whole S0 [T c d (t :: k)]) by (unfold whole; cbn; by rewrite <- app_assoc).
  split; [|split; [done|by rewrite pos_snoc]].
  eapply (grouped_step s s2 tbl tbl sb f1 (T c d k :: r)); [by apply M|by rewrite WN| | | | | |done|].
  - rewrite WN. by rewrite (push_locs S0), <- W1.
  - rewrite WN. apply (spot_replace S0 (T c d k)); [rewrite <- W1; by apply (spot_remove _ t), Ho; apply M| |done].
    apply ok_push; [|done]. apply (spot_ok S0). rewrite <- W1. by apply (spot_remove _ t), Ho; apply M.
  - rewrite WN. rewrite (push_items S0), <- W1, W, (whole_items sp [t]). cbn. by rewrite app_nil_r.
  - intros e E0 E. rewrite WN. apply (push_edges S0). rewrite W in E. destruct (whole_edges sp t e E) as [J|[J|J]]; [by left|right; by rewrite <- W1|].
    exfalso. apply (proj2 (Ht sb _ (mt_table _ _ _ _ _ _ _ _ M)) n (snd e) G).
    + destruct T1 as (m & Gm & Dm & _). rewrite G1 in Gm. injection Gm as <-. rewrite Dm in J. exact J.
    + apply list_elem_of_fmap. eauto.
  - eapply (others_parts s s2 tbl sb f1 r (T c d k) sp t spc []); [done|done|done|done| |done|apply (stay_nodes s s2 sb _ B), M].
    intros x J. rewrite L in J. apply elem_of_app. by left.
  - intros l El. rewrite (mt_table _ _ _ _ _ _ _ _ M) in El. injection El as <-. split.
    + exists (Kid f1' c d [] k [] f2'), t. split; [done|]. split; [done|]. split; [done|]. split; [split; [done|by apply full_kids]|].
      split; [rewrite (subj_but s s2 _ _ B); [by apply M|eauto]|]. split; [by exists n2|]. rewrite (subj_but s s2 _ _ B); [by apply M|].
      apply (lst_dom _ _ _ _ _ _ c Hl). rewrite <- W, flat_map_app', elem_of_app, flat_map_cons. right. by left.
    + intros m i Gm Ei. destruct (B _ _ G) as (m' & Gm' & Dm & _). apply (proj2 (Ht sb _ (mt_table _ _ _ _ _ _ _ _ M)) n i G). injection Dm as Dm _. congruence.
Qed.


Lemma no_reply_but s s' x l : same_but x (nodes s) (nodes s') -> is_Some (nodes s !! l) -> no_reply s l -> no_reply s' l.
Proof using Type. intros B [n G] N m i Gm Ei. destruct (B _ _ G) as (m' & Gm' & Dm & _). apply (N n i G). injection Dm as Dm _. congruence. Qed.

Definition kid_subj (s : store) (sb : list Z) (sp : spot) : Prop := match sp with Kid _ r _ _ _ _ _ => subj s r = Some sb | _ => True end.

Lemma subj_stays s s' x sb l : same_but x (nodes s) (nodes s') -> subj s l = Some sb -> subj s' l = Some sb.
Proof using Type. intros B E. rewrite (subj_but s s' x l B); [done|]. unfold subj in E. destruct (nodes s !! l); [eauto|done]. Qed.

Lemma kid_subj_but s s' x sb sp : same_but x (nodes s) (nodes s') -> kid_subj s sb sp -> kid_subj s' sb sp.
Proof using Type. intros B. destruct sp; cbn; [done..|]. by apply (subj_stays s s' x). Qed.

Lemma right_length sp ts ts' : length ts = length ts' -> length (right_part sp ts) = length (right_part sp ts').
Proof using Type. destruct sp; cbn; [done| |done]. rewrite !length_app. lia. Qed.

(** The spot beside [C], and what is left when [C] goes from the list. *)
Record beside (s : store) (f1 r : list tree) (C : tree) (sp : spot) (t : tree) (spc : spot) : Prop := {
  bs_left : forall ts, left_part spc ts = left_part sp ts;
  bs_right : forall ts, right_part sp ts = C :: right_part spc ts;
  bs_parent : spot_parent spc = spot_parent sp;
  bs_kid_ok : forall t', fst (t_data t') = fst (t_data t) -> kid_ok sp t -> kid_ok spc t';
  bs_kid : is_kid spc <-> is_kid sp;
  bs_subj : forall s sb, kid_subj s sb sp -> kid_subj s sb spc;
  bs_whole : f1 ++ r = whole spc [t];
  bs_ok : Forall ok (whole spc [t]);
  bs_okC : ok C;
  bs_locs : f_locs (f1 ++ C :: r) ≡ₚ t_locs C ++ f_locs (whole spc [t]);
  bs_here : is_Some (nodes s !! t_root C) }.

Lemma meeting_beside s tbl sb f1 r C sp t : meeting s tbl sb f1 r C sp t -> exists spc, beside s f1 r C sp t spc.
Proof using Type.
  intros M. destruct (mt_grouped _ _ _ _ _ _ _ _ M) as [Hl Hn Ho _ _ _].
  destruct (spot_without sp t C r (mt_right _ _ _ _ _ _ _ _ M)) as (spc & L & R & SP & KO & KK & KS); [intros <-; by apply (mt_diff _ _ _ _ _ _ _ _ M)|].
  assert (W : f1 ++ r = whole spc [t]).
  { unfold whole. rewrite L, (mt_left _ _ _ _ _ _ _ _ M). pose proof (mt_right _ _ _ _ _ _ _ _ M) as E. rewrite R in E. by injection E as ->. }
  rewrite list.Forall_app, list.Forall_cons in Ho. exists spc. split; try done.
  - rewrite <- W, list.Forall_app. tauto.
  - tauto.
  - by rewrite <- W, <- Permutation_middle.
  - apply (lst_dom _ _ _ _ _ _ _ Hl), t_root_in_list, elem_of_app. right. by left.
Qed.

Definition keeps_but (c : loc) (s s' : store) : Prop := forall x n, x <> c -> nodes s !! x = Some n ->
  exists n', nodes s' !! x = Some n' /\ d_of n' = d_of n /\ n_parent n' = n_parent n /\ n_subject n' = n_subject n.

Lemma same_but_keeps c s s' : same_but (Some c) (nodes s) (nodes s') -> keeps_but c s s'.
Proof using Type. intros B x n N G. destruct (B x n G) as (n' & G' & D & S & _ & P). exists n'. repeat split; auto. apply P. congruence. Qed.

(** The node of the table gets more children, [C] goes. *)
Lemma meeting_replace s s' tbl sb f1 r C sp l d k k' spc : meeting s tbl sb f1 r C sp (T l d k) -> beside s f1 r C sp (T l d k) spc ->
  lst true s' (Some None) Head (whole spc [T l d k']) None -> NoDup (f_locs (whole spc [T l d k'])) -> ok (T l d k') ->
  f_items (whole spc [T l d k']) ≡ₚ t_items C ++ f_items (whole spc [T l d k]) ->
  (forall e, e ∈ t_edges C \/ e ∈ f_edges (whole spc [T l d k]) -> e ∈ f_edges (whole spc [T l d k'])) -> keeps_but (t_root C) s s' ->
  step_post r (pos Head f1) tbl s'.
Proof using Type.
  intros M [L R SP KO KK KS W Os _ _ _] Hl' Hn' Ok' It Ed B. destruct (mt_grouped _ _ _ _ _ _ _ _ M) as [Hl Hn Ho Hi He Ht].
  pose proof (mt_parent _ _ _ _ _ _ _ _ M) as (n & G & P). cbn [t_root] in G.
  assert (Er : r = right_part spc [T l d k]) by (pose proof (mt_right _ _ _ _ _ _ _ _ M) as E; rewrite R in E; by injection E).
  assert (Ef : f1 = left_part spc [T l d k]) by (rewrite L; by rewrite (mt_left _ _ _ _ _ _ _ _ M)).
  set (f1' := left_part spc [T l d k']). set (f2' := right_part spc [T l d k']). destruct (B l n) as (n' & G' & D' & P' & S'); [apply (mt_diff _ _ _ _ _ _ _ _ M)|done|].
  assert (SS : forall x, subj s x = Some sb -> x <> t_root C -> subj s' x = Some sb).
  { intros x E N. unfold subj in *. destruct (nodes s !! x) as [m|] eqn:Gm; [|done]. destruct (B x m N Gm) as (m' & -> & _ & _ & Em). cbn in *. congruence. }
  exists f1', f2'. split; [|split; [unfold f2'; rewrite Er; by rewrite (right_length spc [T l d k'] [T l d k])|rewrite Ef; apply pos_roots, left_roots; done]].
  eapply (grouped_step s s' tbl tbl sb f1 (C :: r)); [by apply M|done|done| | | | |done|].
  - apply (spot_replace spc (T l d k)); [done|done|]. intros K. destruct Ok' as [F|F]; [done|]. apply (spot_ok spc) in Os as [_ Os]. specialize (Os K). apply full_kids in Os as [_ [x Ex]].
    destruct F as [F _]. cbn in *. congruence.
  - change (f1' ++ f2') with (whole spc [T l d k']). by rewrite It, <- W, !flat_map_app', flat_map_cons, (Permutation_app_swap_app (t_items C)).
  - intros e _ E. apply Ed. rewrite <- W. rewrite flat_map_app', flat_map_cons, !elem_of_app in *. tauto.
  - eapply (others_parts s s' tbl sb f1 r C sp (T l d k) spc [T l d k']); [done..|]. intros x m Gm N. destruct (B x m) as (m' & Gm' & ? & ? & ?); [|done|by exists m'].
    intros ->. apply N. pose proof (mt_subj _ _ _ _ _ _ _ _ M) as E. unfold subj in E. by rewrite Gm in E.
  - intros x El. rewrite (mt_table _ _ _ _ _ _ _ _ M) in El. injection El as <-. cbn [t_root]. split.
    + exists spc, (T l d k'). split; [done|]. split; [done|]. split; [done|]. split; [by apply KO, M|]. split; [by apply SS; apply M|].
      split; [exists n'; split; [done|by rewrite SP, P']|]. assert (kid_subj s sb spc) as K1 by apply KS, M.
      destruct spc as [| |a0 r0 d0 k1 k2 b0 w0]; cbn in K1 |- *; [done..|]. apply SS; [done|]. intros ->. unfold f1' in *. cbn in Ef. rewrite Ef in Hn.
      rewrite flat_map_app' in Hn. apply list.NoDup_app in Hn as (_ & Hn & _). apply (Hn (t_root C)); [|rewrite flat_map_cons, elem_of_app; left; apply t_root_in].
      rewrite flat_map_app', elem_of_app, flat_map_cons. right. by left.
    + intros m i Gm Ei. assert (m = n') as -> by congruence. injection D' as D' _. apply (proj2 (Ht sb l (mt_table _ _ _ _ _ _ _ _ M)) n i G). congruence.
Qed.

(** [c] goes under the node of the table. *)
Lemma merge_over s tbl sb f1 r C sp l d k : meeting s tbl sb f1 r C sp (T l d k) -> full C ->
  wp (next ← rd (t_root C) n_next; wrp (pos Head f1) next;; container_add_child l (t_root C);; mret (pos Head f1, true, tbl))
    (fun '(cl, cont, tbl') s' => step_post r (if cont : bool then cl else Next (t_root C)) tbl' s') s.
Proof using Type.
  intros M FC. destruct (mt_grouped _ _ _ _ _ _ _ _ M) as [Hl Hn _ _ _ _]. destruct (meeting_beside _ _ _ _ _ _ _ _ M) as (spc & BS).
  destruct (bs_here _ _ _ _ _ _ _ BS) as [nc Gc]. pose proof (bs_locs _ _ _ _ _ _ _ BS) as PN.
  destruct (lst_remove s (Some None) Head f1 C r None nc Hl Hn I Gc) as (H1 & T1 & F1). rewrite (bs_whole _ _ _ _ _ _ _ BS) in H1. set (s1 := pl_set s (pos Head f1) (n_next nc)) in *.
  apply wp_bind, (wp_rd _ _ _ _ _ Gc), wp_bind, wp_wrp; [destruct (lst_at _ _ _ _ _ _ _ Hl) as (? & m & V & _); rewrite V; eauto|]. fold s1. apply wp_bind.
  eapply wp_mono; [apply (push_spec s1 spc l d k C T1 H1); by rewrite <- PN|]. intros u s2 (H2 & B2 & _). apply wp_ret.
  apply (meeting_replace s s2 tbl sb f1 r C sp l d k (C :: k) spc M BS H2).
  - by rewrite (push_locs spc), <- PN.
  - apply ok_push; [|done]. apply (spot_ok spc), BS.
  - by rewrite (push_items spc).
  - intros e E. by apply (push_edges spc).
  - apply same_but_keeps, (same_but_trans _ _ (nodes s1)); [apply linked_only_but, pl_set_only|done].
Qed.

(** *** Both empty *)

Lemma whole_edges_in sp t e : e ∈ t_edges t -> e ∈ f_edges (whole sp [t]).
Proof using Type.
  intros I. unfold whole. destruct sp as [a b w|lf a b|a r dr k1 k2 b w]; cbn [left_part right_part]; rewrite !flat_map_app', ?flat_map_cons; cbn [flat_map app t_edges];
  rewrite ?flat_map_app', ?flat_map_cons; cbn [flat_map app t_edges]; rewrite !elem_of_app; tauto.
Qed.

Lemma root_spot sp : ~ is_kid sp -> exists a b, forall ts, whole sp ts = a ++ ts ++ b.
Proof using Type.
  destruct sp as [a b w|lf a b|a r dr k1 k2 b w]; unfold whole; cbn; [intros _|intros _|done].
  - exists a, (b ++ w). intros ts. by rewrite <- !app_assoc.
  - exists (lf ++ a), b. intros ts. by rewrite <- !app_assoc.
Qed.

Lemma last_place_spec lo fuel s par pl k Q : lst lo s par pl k None -> (length k < fuel)%nat -> Q (pos pl k) s -> wp (last_place fuel pl) Q s.
Proof using Type.
  revert pl k par. induction fuel as [|fuel IH]; intros pl k par H L HQ; [lia|]. cbn [last_place]. destruct k as [|[l d kk] k].
  - apply lst_nil in H. apply wp_bind, (wp_rdp _ _ _ _ H), wp_ret. done.
  - apply lst_cons in H as (V & n & _ & _ & _ & _ & H). apply wp_bind, (wp_rdp _ _ _ _ V), (IH _ k par H); [cbn in L; lia|].
    change (T l d kk :: k) with ([T l d kk] ++ k) in HQ. by rewrite pos_app in HQ.
Qed.

Lemma pl_set_comm s pl1 pl2 v1 v2 : pl_owner pl1 <> pl_owner pl2 -> pl_set (pl_set s pl1 v1) pl2 v2 = pl_set (pl_set s pl2 v2) pl1 v1.
Proof using Type.
  destruct pl1, pl2; cbn; intros N; try done; f_equal; rewrite alter_alter, decide_False by congruence; done.
Qed.

(** The kids of [c] go behind those of [l]. *)
Lemma append_kids s a b l d k c kc w : lst true s (Some None) Head (a ++ T l d k :: b) None -> fst d = None -> k <> [] ->
  tree_at s (T c w kc) -> fst w = None -> NoDup (c :: f_locs kc ++ f_locs (a ++ T l d k :: b)) ->
  exists nc, nodes s !! c = Some nc /\ lst true (pl_set s (pos (Child l) k) (n_child nc)) (Some None) Head (a ++ T l d (k ++ kc) :: b) None.
Proof using Type.
  intros H E NK (nc & Gc & Dc & Kc) Ew D. cbn [t_root t_data t_kids] in *. exists nc. split; [done|]. set (s' := pl_set s _ _).
  apply list.NoDup_cons in D as [D1 D]. apply list.NoDup_app in D as (D2 & D3 & D4).
  pose proof H as H1. apply lst_app in H1 as (m & _ & H1). apply lst_cons in H1 as (_ & n & G & -> & _ & K & _).
  pose proof D4 as D5. rewrite flat_map_app', flat_map_cons in D5. cbn [t_locs] in D5. apply list.NoDup_app in D5 as (D5 & D6 & D7).
  apply list.NoDup_app in D7 as (D7 & D8 & _). apply list.NoDup_cons in D7 as [D7 Dk].
  assert (Ow : exists t, t ∈ k /\ pos (Child l) k = Next (t_root t)) by (unfold pos; destruct (list.last k) as [t|] eqn:El; [exists t; split; [by apply last_Some_elem_of|done]|by apply last_None in El]).
  destruct Ow as (t & J & Ow). apply t_root_in_list in J. assert (Fr : forall x, x ∉ f_locs k -> nodes s' !! x = nodes s !! x).
  { intros x N. apply pl_set_ne. rewrite Ow. cbn. intros [= <-]. done. }
  apply (lst_kids s s' _ _ a l (d_of n) k (k ++ kc) b None H D4); [done| |by unfold s'; rewrite Ow| |].
  - unfold kid_parent in *. rewrite E in *. rewrite Ew in Kc. apply lst_app. exists (n_child nc). split; [by apply (lst_set _ _ _ _ _ None)|].
    exists (n_child nc). split; [apply pl_set_val; rewrite (lst_pos _ _ _ _ _ _ K); eauto|]. apply (seg_frame _ (nodes s)); [done|]. intros x Jx. apply Fr. intros Jk.
    apply (D3 x Jx). rewrite flat_map_app', flat_map_cons, !elem_of_app. cbn [t_locs]. rewrite elem_of_cons. auto.
  - intros x [Jx|Jx]; [|done]. apply Fr. intros Jk. rewrite flat_map_app', elem_of_app in Jx. destruct Jx as [Jx|Jx].
    + apply (D6 x Jx), elem_of_app. left. by right.
    + apply (D8 x); [by right|done].
  - exists n. split; [done|]. exists (n_child n). rewrite with_child_id, Fr; done.
Qed.

Lemma pl_set_some s pl v pl' : is_Some (pl_val s pl') -> is_Some (pl_val (pl_set s pl v) pl').
Proof using Type.
  assert (E : forall c, is_Some (nodes s !! c) -> is_Some (nodes (pl_set s pl v) !! c)) by (intros c [n G]; destruct (pl_set_only s pl v c n G) as (n' & G' & _); eauto).
  destruct pl' as [|c|c]; cbn; [done|..]; rewrite !fmap_is_Some; apply E.
Qed.

Lemma append_locs sp l d k kc : f_locs (whole sp [T l d (k ++ kc)]) ≡ₚ f_locs kc ++ f_locs (whole sp [T l d k]).
Proof using Type.
  rewrite whole_locs, (whole_locs sp [T l d k]). cbn. rewrite !app_nil_r, flat_map_app', (Permutation_app_comm (f_locs k)).
  by rewrite <- app_assoc, Permutation_middle.
Qed.
Lemma append_items sp l d k kc : f_items (whole sp [T l d (k ++ kc)]) ≡ₚ f_items kc ++ f_items (whole sp [T l d k]).
Proof using Type.
  rewrite whole_items, (whole_items sp [T l d k]). cbn. rewrite !app_nil_r, flat_map_app'.
  by rewrite (Permutation_app_comm (f_items k)), (Permutation_app_swap_app (d_items d)), <- !app_assoc.
Qed.
Lemma append_edges sp l d k kc e : e ∈ f_edges kc \/ e ∈ f_edges (whole sp [T l d k]) -> e ∈ f_edges (whole sp [T l d (k ++ kc)]).
Proof using Type.
  intros [J|J]; [apply whole_edges_in|apply (whole_edges_mono sp (T l d k)); [done| |done]; intros e']; cbn [t_edges]; rewrite !flat_map_app', !elem_of_app; tauto.
Qed.

Lemma phantom_of t : ok t -> fst (t_data t) = None -> phantom t.
Proof using Type. intros [F|P] E; [|done]. apply full_kids in F as [_ [i F]]. congruence. Qed.

Lemma join_list s f1 r C l d k a b nc : lst true s (Some None) Head (f1 ++ C :: r) None -> NoDup (f_locs (f1 ++ C :: r)) -> f1 ++ r = a ++ T l d k :: b ->
  fst d = None -> k <> [] -> fst (t_data C) = None -> nodes s !! t_root C = Some nc ->
  lst true (pl_set (pl_set s (pos (Child l) k) (n_child nc)) (pos Head f1) (n_next nc)) (Some None) Head (a ++ T l d (k ++ t_kids C) :: b) None /\
  nodes (pl_set s (pos (Child l) k) (n_child nc)) !! t_root C = Some nc.
Proof using Type.
  intros H D W Ed NK EC Gc. destruct (lst_remove s (Some None) Head f1 C r None nc H D I Gc) as (H1 & T1 & F1).
  rewrite W in H1. assert (PN : f_locs (f1 ++ C :: r) ≡ₚ t_locs C ++ f_locs (a ++ T l d k :: b)) by (by rewrite <- W, <- Permutation_middle).
  rewrite PN in D. destruct C as [c w kc]. cbn [t_root t_data t_kids t_locs] in *.
  destruct (append_kids _ a b l d k c kc w H1 Ed NK T1 EC D) as (nc' & Gc' & H2). rewrite F1 in Gc' by (cbn; by left). assert (nc' = nc) as -> by congruence.
  apply list.NoDup_cons in D as [Dc D]. apply list.NoDup_app in D as (_ & _ & D). pose proof D as D5. rewrite flat_map_app', flat_map_cons in D5. cbn [t_locs] in D5.
  apply list.NoDup_app in D5 as (_ & D6 & D7). apply list.NoDup_app in D7 as (D7 & D8 & _). apply list.NoDup_cons in D7 as [D7 _].
  assert (Ow : exists t, t ∈ k /\ pos (Child l) k = Next (t_root t)) by (unfold pos; destruct (list.last k) as [t|] eqn:El; [exists t; split; [by apply last_Some_elem_of|done]|by apply last_None in El]).
  destruct Ow as (t & J & Ow). apply t_root_in_list in J. rewrite Ow in *. split.
  - rewrite pl_set_comm; [done|]. destruct (pos_in Head f1) as [E|(u & Ju & E)]; rewrite E; [done|]. cbn. intros [= Et]. rewrite Et in J.
    assert (u ∈ a ++ T l d k :: b) as Jw by (rewrite <- W; apply elem_of_app; by left). apply elem_of_app in Jw as [Jw|Jw].
    + apply (D6 (t_root u)); [by apply t_root_in_list|]. apply elem_of_app. left. by right.
    + apply elem_of_cons in Jw as [->|Jw]; [done|]. apply (D8 (t_root u)); [by right|by apply t_root_in_list].
  - rewrite pl_set_ne; [done|]. cbn. intros [= <-]. apply Dc. rewrite elem_of_app, flat_map_app', elem_of_app, flat_map_cons, elem_of_app. cbn [t_locs]. rewrite elem_of_cons. auto.
Qed.

Lemma merge_empty s tbl sb f1 r C sp l d k : meeting s tbl sb f1 r C sp (T l d k) -> fst (t_data C) = None -> fst d = None ->
  wp (fuel ← all_nodes; scan ← last_place fuel (Child l); child ← rd (t_root C) n_child; wrp scan child;;
      next ← rd (t_root C) n_next; wrp (pos Head f1) next;; memchunk_free (t_root C);; mret (pos Head f1, true, tbl))
    (fun '(cl, cont, tbl') s' => step_post r (if cont : bool then cl else Next (t_root C)) tbl' s') s.
Proof using Type.
  intros M EC Ed. pose proof (meeting_whole _ _ _ _ _ _ _ _ M) as W0. destruct (mt_grouped _ _ _ _ _ _ _ _ M) as [Hl Hn _ _ _ _].
  destruct (meeting_beside _ _ _ _ _ _ _ _ M) as (spc & BS). destruct (bs_here _ _ _ _ _ _ _ BS) as [nc Gc]. pose proof (bs_locs _ _ _ _ _ _ _ BS) as PN.
  assert (NKid : ~ is_kid sp) by (intros K; pose proof (mt_ok _ _ _ _ _ _ _ _ M) as KOK; destruct sp; cbn in *; [done..|]; destruct KOK as [_ [x E]]; congruence).
  destruct (root_spot spc) as (a & b & Wab); [by rewrite (bs_kid _ _ _ _ _ _ _ BS)|]. pose proof (bs_whole _ _ _ _ _ _ _ BS) as W'. rewrite Wab in W'. cbn [app] in W'.
  destruct (phantom_of C (bs_okC _ _ _ _ _ _ _ BS) EC) as (_ & FkC & _).
  destruct (phantom_of (T l d k)) as (_ & Fk & Lk); [apply (spot_ok spc), BS|done|]. cbn [t_kids] in *. assert (NK : k <> []) by (intros ->; cbn in Lk; lia).
  destruct (join_list s f1 r C l d k a b nc Hl Hn W' Ed NK EC Gc) as [H2 G2]. set (s1 := pl_set s (pos (Child l) k) (n_child nc)) in *.
  assert (exists v, pl_val s (pos Head f1) = Some v) as [v Vc] by (destruct (lst_at _ _ _ _ _ _ _ Hl) as (? & m & V & _); eauto).
  assert (exists par, lst true s par (Child l) k None) as (par & Hk).
  { destruct (root_spot sp NKid) as (a0 & b0 & Wab0). rewrite W0, Wab0 in Hl. cbn [app] in Hl. apply lst_app in Hl as (m & _ & Hl). apply lst_cons in Hl as (_ & ? & _ & _ & _ & K & _). eauto. }
  assert (Dk : NoDup (f_locs k)). { rewrite W0, whole_locs in Hn. cbn [flat_map] in Hn. rewrite app_nil_r in Hn. apply list.NoDup_app in Hn as (Hn & _). cbn in Hn. by apply list.NoDup_cons in Hn as [_ Hn]. }
  rewrite PN in Hn. destruct C as [c w kc]. cbn [t_root t_data t_kids t_locs] in *. apply list.NoDup_cons in Hn as [Dc Hn].
  assert (Pk : f_locs (whole spc [T l d (k ++ kc)]) ≡ₚ f_locs kc ++ f_locs (whole spc [T l d k])) by apply append_locs. rewrite <- Pk in Dc, Hn.
  apply wp_bind, wp_all_nodes, wp_bind, (last_place_spec true _ _ par (Child l) k _ Hk); [pose proof (lst_size _ _ _ _ _ _ Hk Dk); pose proof (length_locs k); lia|].
  apply wp_bind, (wp_rd _ _ _ _ _ Gc), wp_bind, wp_wrp; [rewrite (lst_pos _ _ _ _ _ _ Hk); eauto|]. fold s1.
  apply wp_bind, (wp_rd _ _ _ _ _ G2), wp_bind, wp_wrp; [apply pl_set_some; eauto|]. set (s2 := pl_set s1 (pos Head f1) (n_next nc)) in *.
  assert (LO : linked_only (nodes s) (nodes s2)) by (apply (linked_only_trans _ (nodes s1)); apply pl_set_only).
  destruct (LO _ _ Gc) as (nc2 & Gc2 & _). apply wp_bind, (wp_free _ _ _ _ Gc2), wp_ret. set (s3 := Store _ _).
  assert (Fr : forall x, x <> c -> nodes s3 !! x = nodes s2 !! x) by (intros x N; cbn; by rewrite lookup_delete_ne).
  apply (meeting_replace s s3 tbl sb f1 r (T c w kc) sp l d k (k ++ kc) spc M BS).
  - rewrite Wab in *. apply (lst_frame _ s2); [done|done|]. intros x J. apply Fr. intros ->. done.
  - done.
  - right. split; [done|]. cbn. split; [by apply list.Forall_app|rewrite length_app; lia].
  - rewrite append_items. cbn. by destruct w as [[|] ?].
  - intros e [E|E]; apply append_edges; [left|by right]. cbn in E. rewrite elem_of_app, edges_of in E. destruct E as [(? & ? & _ & E & _)|E]; [congruence|done].
  - intros x m N Gm. destruct (LO x m Gm) as (m' & Gm' & ? & ? & ? & _). exists m'. by rewrite Fr.
Qed.

(** *** Both messages *)

Lemma seg_start lo g par p f : seg lo g par p f None -> p = list.head (map t_root f).
Proof using Type. intros H. inversion H; by subst. Qed.

Lemma pl_val_frame s s' pl v : pl_val s pl = Some v -> (forall c, is_Some (nodes s !! c) -> nodes s' !! c = nodes s !! c) -> head s' = head s -> pl_val s' pl = Some v.
Proof using Type.
  intros V F Hd. destruct pl as [|c|c]; cbn in *; [by rewrite Hd|..]; (rewrite F; [done|]); by destruct (nodes s !! c).
Qed.

(** A new node behind [a]. *)
Lemma lst_insert s s' pl a b l n : lst true s (Some None) pl (a ++ b) None -> NoDup (f_locs (a ++ b)) -> apart pl (a ++ b) -> nodes s !! l = None ->
  nodes s' !! l = Some n -> (forall x, x <> l -> nodes s' !! x = nodes (pl_set s (pos pl a) (Some l)) !! x) -> head s' = head (pl_set s (pos pl a) (Some l)) ->
  n_next n = list.head (map t_root b) -> n_parent n = None -> n_child n = None -> n_item n = None ->
  lst true s' (Some None) pl (a ++ T l (d_of n) [] :: b) None.
Proof using Type.
  intros H D A G Gl E Hd N1 N2 N3 N4. pose proof (pos_apart _ _ _ D A) as AP. set (s1 := pl_set s (pos pl a) (Some l)) in *.
  assert (G1 : nodes s1 !! l = None).
  { unfold s1. destruct (decide (pl_owner (pos pl a) = Some l)) as [O|O]; [by rewrite (pl_set_owner _ _ _ _ O), G|]. by rewrite pl_set_ne. }
  assert (Fr : forall x, is_Some (nodes s1 !! x) -> nodes s' !! x = nodes s1 !! x) by (intros x [m Gm]; apply E; congruence).
  pose proof D as Da. rewrite flat_map_app' in Da. apply list.NoDup_app in Da as [Da _].
  pose proof H as H1. apply lst_app in H1 as (m & Ha & (p & V & Hb)). pose proof (lst_set _ _ _ _ _ _ (Some l) Ha Da (proj1 (proj1 (apart_app _ _ _) A))) as Ha1. fold s1 in Ha1.
  apply lst_app. exists (Some l). split.
  - apply (lst_frame _ s1); [done| |intros x J; apply Fr; by apply (lst_dom _ _ _ _ _ _ _ Ha1)].
    destruct (lst_val _ _ _ _ _ _ Ha1) as [v Vp]. rewrite Vp. by apply (pl_val_frame s1).
  - apply lst_cons. split.
    + apply (pl_val_frame s1); [by apply (lst_pos _ _ _ _ _ _ Ha1)|done|done].
    + exists n. split; [done|]. split; [done|]. split; [done|]. split; [apply lst_nil; cbn; by rewrite Gl, <- N3|].
      exists (list.head (map t_root b)). split; [cbn; by rewrite Gl, <- N1|]. rewrite (seg_start _ _ _ _ _ Hb) in Hb. apply (seg_frame _ (nodes s)); [done|].
      intros x J. assert (nodes s1 !! x = nodes s !! x) as Ex by (apply pl_set_ne; intros O; unfold apart in AP; by rewrite O in AP).
      rewrite <- Ex. apply Fr. rewrite Ex. by apply (seg_dom _ _ _ _ _ _ _ Hb).
Qed.

(** Both are taken out. *)
Record taken (s s' : store) (C t : tree) (f1 r : list tree) (cl : place) : Prop := {
  tk_place : cl = pos Head f1;
  tk_lst : lst true s' (Some None) Head (f1 ++ r) None;
  tk_nodup : NoDup (t_locs t ++ t_locs C ++ f_locs (f1 ++ r));
  tk_C : tree_at s' C;
  tk_t : tree_at s' t;
  tk_linked : linked_only (nodes s) (nodes s');
  tk_next : n_next <$> nodes s' !! t_root C = Some (list.head (map t_root r)) }.

Lemma take_both s tbl sb f1 r C sp t spc : meeting s tbl sb f1 r C sp t -> beside s f1 r C sp t spc ->
  wp (clast ← remove_node (t_root t) (pos Head f1); remove_node (t_root C) clast) (fun cl s' => taken s s' C t (left_part sp []) (right_part spc []) cl) s.
Proof using Type.
  intros M BS. pose proof (meeting_whole _ _ _ _ _ _ _ _ M) as W. destruct (mt_grouped _ _ _ _ _ _ _ _ M) as [Hl Hn _ _ _ _].
  pose proof (mt_parent _ _ _ _ _ _ _ _ M) as (n & G & P). rewrite W in Hl, Hn. pose proof Hn as Hn'. rewrite whole_locs in Hn'. cbn [flat_map] in Hn'. rewrite app_nil_r in Hn'.
  apply wp_bind. rewrite <- (mt_left _ _ _ _ _ _ _ _ M). eapply wp_mono; [by apply (thread_remove_node_spec s sp t n Hl)|]. intros cl s1 (-> & H1 & T1 & LO & G1 & F1). cbn beta.
  set (f1' := left_part sp []) in *. set (r' := right_part spc []).
  assert (W1 : whole sp [] = f1' ++ C :: r') by (unfold whole, f1', r'; by rewrite (bs_right _ _ _ _ _ _ _ BS)). rewrite W1 in *.
  pose proof H1 as H1'. apply lst_app in H1' as (m & _ & HC). assert (exists nc, nodes s1 !! t_root C = Some nc /\ n_parent nc = None /\ n_next nc = list.head (map t_root r')) as (nc & Gc & Pc & Nc).
  { destruct C as [c w kc]. apply lst_cons in HC as (_ & nc & Gc & _ & Pc & _ & (p & V & S)). exists nc. split; [done|]. split; [done|]. cbn in V. rewrite Gc in V. injection V as <-. by apply seg_start in S. }
  apply list.NoDup_app in Hn' as (D1 & D2 & D3). assert (PC : f_locs (f1' ++ C :: r') ≡ₚ t_locs C ++ f_locs (f1' ++ r')) by by rewrite <- Permutation_middle.
  eapply wp_mono; [apply (thread_remove_node_spec s1 (In2 f1' [] r') C nc H1 D3 Gc Pc)|]. intros cl s2 (-> & H2 & T2 & LO2 & G2 & F2). unfold whole in H2, F2. cbn [left_part right_part app] in *.
  split; [done|done| |done| | |by rewrite G2; cbn; rewrite Nc].
  - apply list.NoDup_app. split; [done|]. split; [intros x J; by rewrite <- PC; apply D2|by rewrite <- PC].
  - apply (tree_at_frame s1); [done|]. intros x J. apply F2. intros J'. apply (D2 x J). rewrite PC, elem_of_app. by right.
  - by apply (linked_only_trans _ (nodes s1)).
Qed.

Lemma tree_at_dom s t l : tree_at s t -> l ∈ t_locs t -> is_Some (nodes s !! l).
Proof using Type.
  destruct t as [c d k]. intros (n & G & _ & K) J. cbn in *. apply elem_of_cons in J as [->|J]; [eauto|]. by apply (seg_dom _ _ _ _ _ _ _ K).
Qed.

(** The new node in the list, before it gets its children. *)
Lemma new_scan {A} (s : store) (f1 r : list tree) (C : tree) (nc : ThreadNode) (re : bool) (Q : loc -> M A) (R : A -> store -> Prop) : lst true s (Some None) Head (f1 ++ r) None -> NoDup (f_locs (f1 ++ r)) ->
  nodes s !! t_root C = Some nc -> n_next nc = list.head (map t_root r) ->
  (forall scan n s', nodes s !! scan = None -> nodes s' !! scan = Some n -> n_parent n = None -> n_item n = None -> n_subject n = n_subject nc ->
     lst true s' (Some None) Head (f1 ++ T scan (None, 0) [] :: r) None -> (forall x, x <> scan -> nodes s' !! x = nodes (pl_set s (pos Head f1) (Some scan)) !! x) -> wp (Q scan) R s') ->
  wp (scan ← alloc0; cs ← rd (t_root C) n_subject; wr scan (with_subject cs);; wr scan (with_re re);;
      next ← rd (t_root C) n_next; wr scan (with_next next);; wrp (pos Head f1) (Some scan);; Q scan) R s.
Proof using Type.
  intros H D Gc Nc HQ. apply wp_bind, wp_alloc. intros scan Gs. assert (Ns : scan <> t_root C) by congruence.
  assert (G : forall n, nodes (upd s scan n) !! t_root C = Some nc) by (intros n; cbn; by rewrite lookup_insert_ne).
  assert (U : forall m n n', upd (upd m scan n) scan n' = upd m scan n') by (intros; unfold upd; cbn; by rewrite insert_insert_eq).
  assert (Gu : forall n, nodes (upd s scan n) !! scan = Some n) by (intros n; cbn; by rewrite lookup_insert_eq).
  apply wp_bind, (wp_rd _ _ _ _ _ (G _)), wp_bind, (wp_wr _ _ _ _ _ (Gu _)). rewrite U. apply wp_bind, (wp_wr _ _ _ _ _ (Gu _)). rewrite U.
  apply wp_bind, (wp_rd _ _ _ _ _ (G _)), wp_bind, (wp_wr _ _ _ _ _ (Gu _)). rewrite U. set (n := with_next _ _). set (s3 := upd s scan n).
  assert (exists v, pl_val s (pos Head f1) = Some v) as [v Vc] by (destruct (lst_at _ _ _ _ _ _ _ H) as (? & m & V & _); eauto).
  assert (Ow : pl_owner (pos Head f1) <> Some scan) by (intros O; destruct (pos Head f1); cbn in *; simplify_eq; by rewrite Gs in Vc).
  apply wp_bind, wp_wrp.
  { destruct (pos Head f1) as [|c|c]; cbn in *; [done|..]; rewrite lookup_insert_ne by congruence; rewrite Vc; eauto. }
  set (s4 := pl_set s3 (pos Head f1) (Some scan)).
  assert (G4 : nodes s4 !! scan = Some n) by (unfold s4; rewrite pl_set_ne by done; apply Gu).
  assert (F4 : forall x, x <> scan -> nodes s4 !! x = nodes (pl_set s (pos Head f1) (Some scan)) !! x).
  { intros x N. unfold s4. destruct (decide (pl_owner (pos Head f1) = Some x)) as [O|O]; [rewrite !(pl_set_owner _ _ _ _ O)|rewrite !pl_set_ne by done]; cbn; by rewrite lookup_insert_ne. }
  apply (HQ scan n s4); try done. apply (lst_insert s s4 Head f1 r scan n H D I Gs G4 F4); try done. unfold s4. by destruct (pos Head f1).
Qed.

Lemma wp_bind2 {A B D} (m : M A) (f : A -> M B) (g : B -> M D) Q s : wp (a ← m; f a) (fun b => wp (g b) Q) s -> wp (a ← m; b ← f a; g b) Q s.
Proof using Type. unfold wp. cbv [mbind ThreadM_bind]. destruct (m s) as [[a s']|]; [|done]. by destruct (f a s') as [[b s2]|]. Qed.

(** The new node [scan] gets both, and no other node is changed. *)
Lemma adopt_both s f1 r C t scan : lst true s (Some None) Head (f1 ++ T scan (None, 0) [] :: r) None -> tree_at s C -> tree_at s t ->
  NoDup (scan :: t_locs t ++ t_locs C ++ f_locs (f1 ++ r)) ->
  wp (container_add_child scan (t_root C);; container_add_child scan (t_root t)) (fun _ s' => let f := f1 ++ T scan (None, 0) [t; C] :: r in
    lst true s' (Some None) Head f None /\ f_locs f ≡ₚ scan :: t_locs t ++ t_locs C ++ f_locs (f1 ++ r) /\
    (forall sb, subj s (t_root C) = Some sb -> subj s (t_root t) = Some sb -> nodes_stay sb s s' /\ forall l, subj s l = Some sb -> subj s' l = Some sb) /\
    exists n, nodes s' !! t_root t = Some n /\ n_parent n = Some scan /\ forall m, nodes s !! scan = Some m -> exists m', nodes s' !! scan = Some m' /\ n_parent m' = n_parent m /\ n_item m' = n_item m) s.
Proof using Type.
  intros H TC Tt D. set (S0 := In2 f1 [] r). apply list.NoDup_cons in D as [Dx D]. pose proof D as D0. apply list.NoDup_app in D0 as (Dt & DtC & DC).
  assert (P0 : f_locs (whole S0 [T scan (None, 0) []]) ≡ₚ scan :: f_locs (f1 ++ r)) by (by rewrite whole_locs).
  assert (D1 : NoDup (t_locs C ++ f_locs (whole S0 [T scan (None, 0) []]))).
  { rewrite P0, <- Permutation_middle. apply list.NoDup_cons. split; [|done]. rewrite !elem_of_app in *. tauto. }
  apply wp_bind. eapply wp_mono; [apply (push_spec s S0 scan (None, 0) [] C TC H D1)|]. intros u s1 (H1 & B1 & _ & _ & F1).
  assert (T1 : tree_at s1 t).
  { apply (tree_at_frame s); [done|]. intros x J. apply F1; [intros ->; apply Dx, elem_of_app; by left|]. intros ->. apply (DtC (t_root C) J), elem_of_app. left. apply t_root_in. }
  assert (P1 : f_locs (whole S0 [T scan (None, 0) [C]]) ≡ₚ scan :: t_locs C ++ f_locs (f1 ++ r)) by (rewrite (push_locs S0 scan (None, 0) [] C), P0; by rewrite Permutation_middle).
  assert (D2 : NoDup (t_locs t ++ f_locs (whole S0 [T scan (None, 0) [C]]))) by (rewrite P1, <- Permutation_middle; by apply list.NoDup_cons).
  eapply wp_mono; [apply (push_spec s1 S0 scan (None, 0) [C] t T1 H1 D2)|]. intros v s2 (H2 & B2 & _ & (n & G & P) & F2). cbn zeta. split; [done|]. split.
  { change (f1 ++ T scan (None, 0) [t; C] :: r) with (whole S0 [T scan (None, 0) [t; C]]). rewrite (push_locs S0 scan (None, 0) [C] t), P1. symmetry; apply Permutation_middle. }
  split.
  - intros sb Sc St. assert (subj s1 (t_root t) = Some sb) as St1 by by apply (subj_stays s s1 _ _ _ B1). split.
    + apply (stay_trans s s1); [by apply (stay_nodes s s1 sb (t_root C))|by apply (stay_nodes s1 s2 sb (t_root t))].
    + intros l E. apply (subj_stays s1 s2 _ _ _ B2). by apply (subj_stays s s1 _ _ _ B1).
  - exists n. split; [done|]. split; [done|]. intros m Gm. destruct (B1 scan m Gm) as (m1 & G1 & E1 & _ & _ & Q1). destruct (B2 scan m1 G1) as (m2 & G2 & E2 & _ & _ & Q2).
    exists m2. split; [done|]. injection E1 as E1 _. injection E2 as E2 _. split; [|congruence]. rewrite Q2, Q1; [done|..]; intros [= E]; apply Dx; rewrite !elem_of_app, E; [right; left|left]; apply t_root_in.
Qed.

Lemma spot_tree s sp t : lst true s (Some None) Head (whole sp [t]) None -> tree_at s t.
Proof using Type.
  intros Hl. destruct sp as [a b w|lf a b|a r0 d k1 k2 b w]; unfold whole in Hl; cbn [left_part right_part app] in Hl.
  - rewrite <- app_assoc in Hl. apply lst_app in Hl as (q & _ & Hl). by apply lst_tree in Hl.
  - apply lst_app in Hl as (q & _ & Hl). apply lst_app in Hl as (q' & _ & Hl). by apply lst_tree in Hl.
  - rewrite <- app_assoc in Hl. apply lst_app in Hl as (q & _ & Hl). apply lst_cons in Hl as (_ & ? & _ & _ & _ & Hl & _). apply lst_app in Hl as (q' & _ & Hl). by apply lst_tree in Hl.
Qed.

Lemma pair_post s s' tbl sb f1 r C sp t spc scan n : meeting s tbl sb f1 r C sp t -> beside s f1 r C sp t spc -> full C -> full t ->
  let f1' := left_part sp [] in let r' := right_part spc [] in let f := f1' ++ T scan (None, 0) [t; C] :: r' in
  lst true s' (Some None) Head f None -> NoDup (f_locs f) -> nodes s' !! scan = Some n -> n_parent n = None -> n_item n = None ->
  nodes_stay sb s s' -> subj s' scan = Some sb -> step_post r (Next scan) (<[sb := scan]> tbl) s'.
Proof using Type.
  intros M BS FC Ft f1' r' f H D G P Ni NS Ss. pose proof (meeting_whole _ _ _ _ _ _ _ _ M) as W. destruct (mt_grouped _ _ _ _ _ _ _ _ M) as [Hl Hn Ho Hi He Ht].
  assert (W1 : whole sp [] = f1' ++ C :: r') by (unfold whole, f1', r'; by rewrite (bs_right _ _ _ _ _ _ _ BS)).
  assert (RL : (length r' <= length r)%nat).
  { pose proof (mt_right _ _ _ _ _ _ _ _ M) as E. rewrite (bs_right _ _ _ _ _ _ _ BS) in E. injection E as E. rewrite <- E. unfold r'. destruct spc; cbn; rewrite ?length_app; cbn; lia. }
  exists (f1' ++ [T scan (None, 0) [t; C]]), r'. split; [|split; [done|by rewrite pos_snoc]].
  assert (WN : (f1' ++ [T scan (None, 0) [t; C]]) ++ r' = f) by (unfold f; by rewrite <- app_assoc).
  eapply (grouped_step s s' tbl _ sb f1 (C :: r)); [by apply M|by rewrite WN|by rewrite WN|rewrite WN..| | |].
  - rewrite W in Ho. apply spot_remove in Ho; [|by apply M]. rewrite W1 in Ho. unfold f. rewrite !list.Forall_app, !list.Forall_cons in *. split; [tauto|]. split; [|tauto].
    right. split; [done|]. split; [|cbn; lia]. cbn. by repeat constructor.
  - rewrite W, (whole_items sp [t]), W1. unfold f. rewrite !flat_map_app', !flat_map_cons. cbn [flat_map t_items d_items fst app]. rewrite !app_nil_r, <- !app_assoc.
    by rewrite (Permutation_app_swap_app (f_items f1') (t_items t)).
  - intros e E0 E. rewrite W in E. assert (e ∈ t_edges t \/ e ∈ f_edges (f1' ++ C :: r')) as J.
    { rewrite <- W1. destruct (whole_edges sp t e E) as [J|[J|J]]; [by left|by right|]. exfalso. destruct (mt_parent _ _ _ _ _ _ _ _ M) as (m & Gm & _).
      apply (proj2 (Ht sb _ (mt_table _ _ _ _ _ _ _ _ M)) m (snd e) Gm); [|apply list_elem_of_fmap; eauto]. rewrite W in Hl. rewrite <- J.
      destruct (spot_tree s sp t Hl) as (m' & Gm' & Dm & _).
      assert (m' = m) as -> by congruence. by rewrite Dm. }
    unfold f. rewrite !flat_map_app', !flat_map_cons in *. cbn [flat_map t_edges app] in *. rewrite !elem_of_app in *. rewrite elem_of_nil. tauto.
  - eapply (others_parts s s' tbl sb f1 r C sp t spc []); [done|apply BS..| |done|done]. intros x J. rewrite (bs_left _ _ _ _ _ _ _ BS) in J. apply elem_of_app. by left.
  - intros sb' N. by rewrite lookup_insert_ne.
  - intros x E. rewrite lookup_insert_eq in E. injection E as <-. split; [|intros m i Gm Ei; congruence].
    exists (In1 f1' [] r'), (T scan (None, 0) [t; C]). split; [done|]. split; [done|]. split; [done|]. split; [done|]. split; [done|]. split; [by exists n|done].
Qed.

Lemma merge_both s tbl sb f1 r C sp t (re : bool) : meeting s tbl sb f1 r C sp t -> full C -> full t ->
  wp (clast ← remove_node (t_root t) (pos Head f1); clast ← remove_node (t_root C) clast;
      scan ← alloc0; cs ← rd (t_root C) n_subject; wr scan (with_subject cs);; wr scan (with_re re);;
      next ← rd (t_root C) n_next; wr scan (with_next next);; wrp clast (Some scan);;
      container_add_child scan (t_root C);; container_add_child scan (t_root t);; mret (Next scan, true, <[sb := scan]> tbl))
    (fun '(cl, cont, tbl') s' => step_post r (if cont : bool then cl else Next (t_root C)) tbl' s') s.
Proof using Type.
  intros M FC Ft. pose proof (meeting_whole _ _ _ _ _ _ _ _ M) as W. destruct (mt_grouped _ _ _ _ _ _ _ _ M) as [Hl Hn Ho Hi He Ht].
  destruct (meeting_beside _ _ _ _ _ _ _ _ M) as (spc & BS). apply wp_bind2. eapply wp_mono; [by apply (take_both s tbl sb f1 r C sp t spc)|].
  intros cl s2 [-> H2 D2 TC Tt LO Nx]. set (f1' := left_part sp []) in *. set (r' := right_part spc []) in *. apply fmap_Some in Nx as (nc & Gc & Nc).
  apply list.NoDup_app in D2 as D2'. destruct D2' as (_ & D3 & D2'). apply list.NoDup_app in D2' as (_ & D4 & D5).
  eapply new_scan; [done|done|done|done|]. intros scan n s4 Gs Gn Pn In Sn H4 F4. cbn beta.
  assert (FR : forall x, is_Some (nodes s2 !! x) -> x ∉ f_locs (f1' ++ r') -> nodes s4 !! x = nodes s2 !! x).
  { intros x [m Gm] N. rewrite F4 by congruence. apply pl_set_ne. destruct (pos_in Head f1') as [->|(w & J & ->)]; [done|]. cbn. intros [= <-]. apply N. rewrite flat_map_app', elem_of_app. left. by apply t_root_in_list. }
  assert (LO4 : linked_only (nodes s2) (nodes s4)).
  { intros x m Gm. rewrite F4 by congruence. by apply (pl_set_only s2 (pos Head f1') (Some scan)). }
  assert (DX : NoDup (scan :: t_locs t ++ t_locs C ++ f_locs (f1' ++ r'))).
  { apply list.NoDup_cons. split; [|done]. rewrite !elem_of_app. intros [J|[J|J]].
    - destruct (tree_at_dom _ _ _ Tt J). congruence.
    - destruct (tree_at_dom _ _ _ TC J). congruence.
    - destruct (lst_dom _ _ _ _ _ _ _ H2 J). congruence. }
  assert (TF : forall u, tree_at s2 u -> (forall x, x ∈ t_locs u -> x ∉ f_locs (f1' ++ r')) -> tree_at s4 u).
  { intros u Tu N. apply (tree_at_frame s2); [done|]. intros x J. apply FR; [by apply (tree_at_dom _ _ _ Tu)|by apply N]. }
  apply wp_bind2. eapply wp_mono; [apply (adopt_both s4 f1' r' C t scan H4); [by apply TF|apply TF; [done|]; intros x J J'; apply (D3 x J), elem_of_app; by right|done]|].
  intros u s6 (H6 & P6 & SS & _ & _ & _ & KK). apply wp_ret. destruct (KK n Gn) as (m6 & Gm6 & Pm6 & Im6). rewrite <- P6 in DX.
  assert (B4 : same_but None (nodes s) (nodes s4)) by (apply linked_only_but; by apply (linked_only_trans _ (nodes s2))).
  destruct (SS sb) as [NS SS']; [apply (subj_stays s s4 _ _ _ B4), M..|].
  assert (Ssc : subj s4 scan = Some sb).
  { unfold subj. rewrite Gn. cbn. rewrite Sn. assert (subj s2 (t_root C) = Some sb) as E by (apply (subj_stays s s2 None); [by apply linked_only_but|apply M]). unfold subj in E. by rewrite Gc in E. }
  apply (pair_post s s6 tbl sb f1 r C sp t spc scan m6 M BS FC Ft); try done; [congruence..| |by apply SS'].
  apply (stay_trans s s4); [|done]. apply stay_linked. by apply (linked_only_trans _ (nodes s2)).
Qed.

(** ** The loop *)

Lemma full_of t i : ok t -> fst (t_data t) = Some i -> full t.
Proof using Type. intros [F|[E _]] H; [done|congruence]. Qed.

Lemma merge_subject_spec s tbl sb f1 r C sp t : meeting s tbl sb f1 r C sp t ->
  wp (merge_subject (t_root C) (t_root t) (pos Head f1) tbl sb) (fun '(cl, cont, tbl') s' => step_post r (if cont : bool then cl else Next (t_root C)) tbl' s') s.
Proof using Type.
  intros M. destruct (meeting_beside _ _ _ _ _ _ _ _ M) as (spc & BS). pose proof (bs_okC _ _ _ _ _ _ _ BS) as OC.
  assert (Ot : ok t) by apply (spot_ok spc), BS. pose proof (gp_lst _ _ _ _ (mt_grouped _ _ _ _ _ _ _ _ M)) as Hl. pose proof Hl as Hl'. rewrite (meeting_whole _ _ _ _ _ _ _ _ M) in Hl'.
  destruct (spot_tree s sp t Hl') as (n & G & Dn & _). apply lst_app in Hl as (m & _ & Hl). destruct (lst_tree _ _ _ _ _ _ Hl) as (nc & Gc & Dc & _).
  assert (Ec : n_item nc = fst (t_data C)) by (by rewrite Dc). assert (En : n_item n = fst (t_data t)) by (by rewrite Dn).
  unfold merge_subject. apply wp_bind, (wp_rd _ _ _ _ _ Gc), wp_bind, (wp_rd _ _ _ _ _ G), wp_bind, (wp_rd _ _ _ _ _ Gc), wp_bind, (wp_rd _ _ _ _ _ G).
  rewrite Ec, En. generalize (n_re nc), (n_re n). intros re cre. clear nc n Gc G Dc Dn Ec En Hl Hl' m.
  destruct (fst (t_data C)) as [i|] eqn:EC, (fst (t_data t)) as [j|] eqn:Et.
  - pose proof (full_of _ _ OC EC) as FC. pose proof (full_of _ _ Ot Et) as Ft. destruct t as [l d k]. destruct C as [c w kc]. cbn [t_root t_data] in *.
    destruct re, cre; cbn [andb negb]; [by apply (merge_both s tbl sb f1 r (T c w kc) sp (T l d k))|by apply (merge_over s tbl sb f1 r (T c w kc) sp l d k)| |by apply (merge_both s tbl sb f1 r (T c w kc) sp (T l d k))].
    apply (merge_under s tbl sb f1 r c w kc sp (T l d k)); [done|done|congruence].
  - pose proof (full_of _ _ OC EC) as FC. destruct t as [l d k]. by apply (merge_over s tbl sb f1 r C sp l d k).
  - pose proof (full_of _ _ Ot Et) as Ft. pose proof (phantom_of _ OC EC) as (_ & _ & L). destruct C as [c w kc]. by apply (merge_under s tbl sb f1 r c w kc sp t).
  - destruct t as [l d k]. by apply (merge_empty s tbl sb f1 r C sp l d k).
Qed.

Lemma merge_subjects_spec fuel s tbl f1 f2 : grouped s tbl f1 f2 -> (length f2 < fuel)%nat ->
  wp (merge_subjects fuel tbl (pos Head f1)) (fun _ s' => exists tbl' f, grouped s' tbl' f []) s.
Proof using Type.
  revert s tbl f1 f2. induction fuel as [|fuel IH]; intros s tbl f1 f2 GP L; [lia|]. cbn [merge_subjects].
  pose proof (gp_lst _ _ _ _ GP) as Hl. apply lst_app in Hl as (m & _ & Hl). destruct f2 as [|C r].
  { apply lst_nil in Hl. apply wp_bind, (wp_rdp _ _ _ _ Hl), wp_ret. eauto. }
  pose proof Hl as Hc. destruct C as [c w kc]. apply lst_cons in Hl as (V & nc & Gc & _ & _ & _ & _). cbn in L.
  assert (PASS : wp (merge_subjects fuel tbl (Next c)) (fun _ s' => exists tbl' f, grouped s' tbl' f []) s).
  { pose proof (IH s tbl (f1 ++ [T c w kc]) r (grouped_pass _ _ _ _ _ GP)) as IH'. rewrite pos_snoc in IH'. apply IH'. lia. }
  apply wp_bind, (wp_rdp _ _ _ _ V), wp_bind, (wp_rd _ _ _ _ _ Gc). destruct (n_subject nc) as [sb|] eqn:Es; [|done].
  destruct (tbl !! sb) as [l|] eqn:El; [|done]. destruct (decide (l = c)) as [|N]; [done|].
  destruct (gp_table _ _ _ _ GP sb l El) as [(sp & t & E1 & E2 & <- & K & Sl & P & X) _].
  assert (M : meeting s tbl sb f1 r (T c w kc) sp t) by (split; try done; cbn [t_root]; unfold subj; rewrite Gc; exact Es).
  apply wp_bind. eapply wp_mono; [by apply (merge_subject_spec s tbl sb f1 r (T c w kc) sp t)|]. intros [[cl cont] tbl'] s' (f1' & f2' & GP' & L' & Ec). cbn [t_root] in Ec. rewrite Ec.
  apply (IH s' tbl' f1' f2' GP'). lia.
Qed.

(** A message that is filed under another one is not at a root. *)
Lemma edge_target f e : e ∈ f_edges f -> snd e ∈ map fst (f_items (flat_map t_kids f)).
Proof using Type.
  assert (KID : forall d k e, e ∈ flat_map (fun t => d_edges d (t_data t)) k -> snd e ∈ map fst (f_items k)).
  { intros d k e' J. apply edges_of in J as (i & j & -> & _ & J). cbn. apply list_elem_of_fmap in J as ([l [v o] kk] & E & J). cbn in E. subst v.
    apply list_elem_of_fmap. exists (j, o). split; [done|]. apply list_elem_of_In, in_flat_map. exists (T l (Some j, o) kk). split; [by apply list_elem_of_In|]. by left. }
  assert (ALL : forall t e, e ∈ t_edges t -> snd e ∈ map fst (f_items (t_kids t))).
  { fix IH 1. intros [l d k] e' J. cbn in J. apply elem_of_app in J as [J|J]; [by apply (KID d k)|]. cbn [t_kids]. revert J. induction k as [|t k IHk]; cbn [flat_map]; [by intros ?%elem_of_nil|].
    rewrite elem_of_app, map_app, elem_of_app. intros [J|J]; [left|by right; apply IHk]. specialize (IH t e' J). destruct t as [l' d' k']. cbn in *. rewrite map_app, elem_of_app. by right. }
  intros J. apply list_elem_of_In, in_flat_map in J as (t & Jt & J). apply list_elem_of_In in J. apply ALL in J. apply list_elem_of_In in Jt.
  apply list_elem_of_split in Jt as (a & b & ->). rewrite flat_map_app', flat_map_cons, !flat_map_app', !map_app, !elem_of_app. auto.
Qed.

Lemma root_no_reply f t i : NoDup (map fst (f_items f)) -> t ∈ f -> fst (t_data t) = Some i -> forall e, e ∈ f_edges f -> snd e <> i.
Proof using Type.
  intros D J E e Je <-. apply edge_target in Je. assert (P : f_items f ≡ₚ flat_map (fun t => d_items (t_data t)) f ++ f_items (flat_map t_kids f)).
  { clear. induction f as [|[l d k] f IH]; cbn; [done|]. rewrite IH, flat_map_app', <- !app_assoc. by rewrite (Permutation_app_swap_app (f_items k)). }
  rewrite P, map_app in D. apply list.NoDup_app in D as (_ & D & _). apply (D (snd e)); [|done]. apply list_elem_of_split in J as (a & b & ->).
  rewrite flat_map_app', flat_map_cons, !map_app, !elem_of_app. right. left. destruct t as [l [v o] k]. cbn in *. subst v. by left.
Qed.

Lemma group_root_set_spec s f : lst false s (Some None) Head f None -> NoDup (f_locs f) -> Forall ok f -> f_items f ≡ₚ messages -> NoDup (map fst messages) ->
  (forall e, e ∈ edges -> e ∈ f_edges f) ->
  wp (group_root_set fns) (fun _ s' => exists f', lst true s' (Some None) Head f' None /\ NoDup (f_locs f') /\ Forall ok f' /\ f_items f' ≡ₚ messages /\
    forall e, e ∈ edges -> e ∈ f_edges f') s.
Proof using Type.
  intros H D O I DI E. unfold group_root_set. apply wp_bind, wp_all_nodes, wp_bind. destruct H as (p & V & S). apply (wp_rdp _ _ _ _ V), wp_bind. apply seg_loose in S.
  assert (H : lst true s (Some None) Head f None) by by exists p. pose proof (lst_size _ _ _ _ _ _ H D) as Sz. pose proof (length_locs f) as Lf.
  eapply wp_mono; [apply (gather_spec fns f _ ∅ s [] p H S D)|].
  - lia.
  - intros sb l El. by rewrite lookup_empty in El.
  - intros tbl s1 (SH & Hd & TB). cbn [app] in TB.
    assert (H1 : lst true s1 (Some None) Head f None) by by apply (lst_shape _ s).
    eapply wp_mono; [apply (merge_subjects_spec _ s1 tbl [] f)|].
    + split; try done. intros sb l El. destruct (TB sb l El) as [(t & Jt & <-) Sl]. pose proof Jt as J0. apply list_elem_of_split in Jt as (a & b & Ef). rewrite Ef in H1.
      cbn [app] in H1. apply lst_app in H1 as (m & _ & H1). pose proof (lst_tree _ _ _ _ _ _ H1) as (n & G & Dn & _). destruct t as [l d k]. cbn [t_root] in *.
      apply lst_cons in H1 as (_ & n' & G' & _ & P & _). assert (n' = n) as -> by congruence. split.
      * exists (In2 [] a b), (T l d k). split; [done|]. split; [done|]. split; [done|]. split; [done|]. split; [done|]. split; [by exists n|done].
      * intros n2 i G2 Ei J. assert (n2 = n) as -> by congruence. apply list_elem_of_fmap in J as (e & -> & J). cbn in Dn. apply (root_no_reply f (T l d k) (snd e)) with (e := e); [by rewrite I|done|by rewrite <- Ei; cbn; rewrite Dn|by apply E|done].
    + lia.
    + intros u s2 (tbl' & f' & GP). exists f'. destruct GP as [G1 G2 G3 G4 G5 _]. rewrite !app_nil_r in *. done.
Qed.
End group.
