(* ===== verification/ThreadSort.v ===== *)
(** * ThreadSort: sorting the forest

    [sort_thread] arranges the children of every node, and then the roots, by the
    time of their message and its number; an empty root stands where its first
    child would.  The sort of GLib is a parameter that permutes a list and leaves
    it in the order of the comparison, if that is one on the elements of the list. *)

From Stdlib Require Import ZArith Lia.
From stdpp Require Import base list numbers gmap option sorting.
From S2P Require Import Prelude Thread ThreadRep ThreadPrune ThreadLink ThreadMove ThreadGroup ThreadMerge.

(** ** Trees of a list by themselves *)

Definition node_at (g : gmap loc ThreadNode) (par : option (option loc)) (t : tree) : Prop := exists n, g !! t_root t = Some n /\ t_data t = d_of n /\ parent_ok par n /\
  seg true g (kid_parent true (t_root t) (t_data t)) (n_child n) (t_kids t) None.

Lemma seg_nodes g par p f q t : seg true g par p f q -> t ∈ f -> node_at g par t.
Proof.
  intros H J. apply list_elem_of_split in J as (a & b & ->). apply seg_app in H as (m & _ & H). inversion H as [|? l n k ? ? G P K _]; subst. by exists n.
Qed.

Lemma node_at_frame g g' par t : node_at g par t -> (forall l, l ∈ t_locs t -> g' !! l = g !! l) -> node_at g' par t.
Proof.
  intros (n & G & D & P & K) E. destruct t as [l d k]. cbn in *. exists n. split; [rewrite E; [done|left]|]. split; [done|]. split; [done|].
  apply (seg_frame _ g); [done|]. intros x J. apply E. by right.
Qed.

(** Only [next] and [child] of the nodes of [L] are written. *)
Record relinked (L : list loc) (g g' : gmap loc ThreadNode) : Prop := {
  rl_only : linked_only g g';
  rl_frame : forall l, l ∉ L -> g' !! l = g !! l }.

Lemma relinked_refl L g : relinked L g g.
Proof. split; [apply linked_only_refl|done]. Qed.
Lemma relinked_trans L1 L2 L g g1 g2 : relinked L1 g g1 -> relinked L2 g1 g2 -> (forall l, l ∈ L1 \/ l ∈ L2 -> l ∈ L) -> relinked L g g2.
Proof.
  intros [O1 F1] [O2 F2] S. split; [by apply (linked_only_trans _ g1)|]. intros l N. rewrite F2, F1; [done|..]; intros J; apply N, S; auto.
Qed.

Lemma relinked_set L (g : gmap loc ThreadNode) l n n' : g !! l = Some n -> l ∈ L -> d_of n' = d_of n -> n_parent n' = n_parent n -> n_subject n' = n_subject n -> n_re n' = n_re n ->
  relinked L g (<[l := n']> g).
Proof.
  intros G J E1 E2 E3 E4. split.
  - intros x m Gm. destruct (decide (x = l)) as [->|N]; [|exists m; by rewrite lookup_insert_ne]. assert (m = n) as -> by congruence. exists n'. by rewrite lookup_insert_eq.
  - intros x N. rewrite lookup_insert_ne; [done|]. intros <-. done.
Qed.

(** [carray] is linked up again. *)
Lemma relink_spec s par k : (forall t, t ∈ k -> node_at (nodes s) par t) -> NoDup (f_locs k) ->
  wp (relink (map t_root k)) (fun h s' => seg true (nodes s') par h k None /\ relinked (map t_root k) (nodes s) (nodes s') /\ head s' = head s) s.
Proof.
  induction k as [|t k IH]; intros N D; cbn [relink map].
  { apply wp_ret. split; [constructor|]. split; [apply relinked_refl|done]. }
  cbn in D. apply list.NoDup_app in D as (D1 & D2 & D3). apply wp_bind. eapply wp_mono; [apply IH; [intros u J; apply N; by right|done]|]. intros h s1 (S1 & R1 & H1).
  destruct (N t ltac:(left)) as (n & G & Dn & P & K). assert (R0 : t_root t ∉ map t_root k).
  { intros (u & E & J)%list_elem_of_fmap. apply (D2 (t_root t)); [apply t_root_in|]. rewrite E. by apply t_root_in_list. }
  assert (G1 : nodes s1 !! t_root t = Some n) by (by rewrite (rl_frame _ _ _ R1)). apply wp_bind, (wp_wr _ _ _ _ _ G1), wp_ret. cbn [upd nodes head].
  split; [|split; [|done]].
  - destruct t as [l d kk]. cbn [t_root t_data t_kids t_locs] in *. rewrite Dn. change (d_of n) with (d_of (with_next h n)).
    apply list.NoDup_cons in D1 as [D0 D1]. econstructor; [by rewrite lookup_insert_eq|done| |].
    + change (d_of (with_next h n)) with (d_of n). rewrite <- Dn. apply (seg_frame _ (nodes s)); [done|]. intros x J. rewrite lookup_insert_ne by (intros <-; done).
      apply (rl_frame _ _ _ R1). intros (u & -> & Ju)%list_elem_of_fmap. apply (D2 (t_root u)); [by right|by apply t_root_in_list].
    + apply (seg_frame _ (nodes s1)); [done|]. intros x J. rewrite lookup_insert_ne; [done|]. intros <-. apply (D2 l); [by left|done].
  - apply (relinked_trans (map t_root k) [t_root t] _ _ (nodes s1)); [done|by apply (relinked_set _ _ _ n); [|left|..]|]. intros l [J|J]; [by right|]. apply list_elem_of_singleton in J as ->. by left.
Qed.

(** ** The order *)

Section sort.
Context (fns : ItemFunctions) (sent received : gpointer -> Z).
Context (Sent : get_date_sent_func fns = Some sent) (Received : get_date_received_func fns = Some received).
Context (qsort : forall A : Type, (A -> A -> Z) -> list A -> list A).

Definition item_time (i : gpointer) : Z := if sent i <=? 0 then received i else sent i.
Definition key_data (t : tree) : option gpointer * Z :=
  match t with T _ (Some i, o) _ => (Some i, o) | T _ (None, _) (c :: _) => t_data c | T _ (None, o) [] => (None, o) end.
Definition key_of (t : tree) : option Z * Z := let '(i, o) := key_data t in (item_time <$> i, o).
Definition keyed (t : tree) : loc * (option Z * Z) := (t_root t, key_of t).

Definition before (a b : tree) : Prop := sort_node_cb (keyed a) (keyed b) <= 0.
Definition in_order (f : list tree) : Prop := StronglySorted before f.

(** The comparison is an order on [l]. *)
Definition total_on {A} (cmp : A -> A -> Z) (l : list A) : Prop :=
  (forall a b, a ∈ l -> b ∈ l -> cmp a b <= 0 \/ cmp b a <= 0) /\ (forall a b c, a ∈ l -> b ∈ l -> c ∈ l -> cmp a b <= 0 -> cmp b c <= 0 -> cmp a c <= 0).

Context (Perm : forall A cmp (l : list A), qsort A cmp l ≡ₚ l).
Context (Sorts : forall A cmp (l : list A), total_on cmp l -> StronglySorted (fun a b => cmp a b <= 0) (qsort A cmp l)).

Lemma ok_key t : ok t -> exists i, fst (key_data t) = Some i.
Proof using Type.
  destruct t as [l [[i|] o] k]; intros O; [by exists i|]. destruct (phantom_of _ O eq_refl) as (_ & F & L). cbn in *. destruct k as [|c k]; cbn in *; [lia|].
  apply list.Forall_cons in F as [F _]. apply full_kids in F as [_ [i E]]. by exists i.
Qed.

Lemma total_keys f : Forall ok f -> total_on sort_node_cb (map keyed f).
Proof using Type.
  intros O. assert (K : forall x, x ∈ map keyed f -> exists l t o, x = (l, (Some t, o))).
  { intros x (u & -> & J)%list_elem_of_fmap. rewrite list.Forall_forall in O. destruct (ok_key u (O u J)) as [i E]. unfold keyed, key_of. destruct (key_data u) as [d o]. cbn in E. subst d. cbn. eauto. }
  split.
  - intros a b Ja Jb. destruct (K a Ja) as (? & t1 & o1 & ->), (K b Jb) as (? & t2 & o2 & ->). cbn. repeat case_match; lia.
  - intros a b c Ja Jb Jc. destruct (K a Ja) as (? & t1 & o1 & ->), (K b Jb) as (? & t2 & o2 & ->), (K c Jc) as (? & t3 & o3 & ->). cbn. repeat case_match; lia.
Qed.

Lemma sorted_map {A B} (f : A -> B) (R : B -> B -> Prop) l : StronglySorted R (map f l) -> StronglySorted (fun a b => R (f a) (f b)) l.
Proof using Type.
  induction l as [|a l IH]; cbn; intros H; [constructor|]. apply StronglySorted_inv in H as [H1 H2]. constructor; [by apply IH|]. exact (proj1 (List.Forall_map _ _ _) H2).
Qed.

(** What the sort makes of the keys of a list of trees. *)
Lemma qsort_keys f : Forall ok f -> exists f', qsort _ sort_node_cb (map keyed f) = map keyed f' /\ f' ≡ₚ f /\ in_order f'.
Proof using Perm Sorts.
  intros O. destruct (Permutation_map_inv keyed f (Perm _ sort_node_cb (map keyed f))) as (f' & E & P).
  exists f'. split; [done|]. split; [done|]. apply (sorted_map keyed (fun a b => sort_node_cb a b <= 0)). rewrite <- E. by apply Sorts, total_keys.
Qed.

(** ** The arranged forest *)

Inductive arranged : tree -> tree -> Prop :=
| arranged_T l d k k1 k' : Forall2 arranged k k1 -> k' ≡ₚ k1 -> in_order k' -> arranged (T l d k) (T l d k').

Lemma arranged_ind' (P : tree -> tree -> Prop) : (forall l d k k1 k', Forall2 arranged k k1 -> Forall2 P k k1 -> k' ≡ₚ k1 -> in_order k' -> P (T l d k) (T l d k')) ->
  forall t t', arranged t t' -> P t t'.
Proof using Type.
  intros H. fix IH 3. intros t t' [l d k k1 k' F E O]. apply (H l d k k1 k' F); [|done|done]. clear E O. induction F as [|u u' k k1 A F IHF]; constructor; [by apply IH|done].
Qed.

Lemma arranged_root t t' : arranged t t' -> t_root t' = t_root t /\ t_data t' = t_data t.
Proof using Type. intros H. by inversion H. Qed.

Lemma flat_map_arranged {A} (h : tree -> list A) f f1 : Forall2 (fun t t' => h t' ≡ₚ h t) f f1 -> flat_map h f1 ≡ₚ flat_map h f.
Proof using Type. induction 1 as [|t t' f f1 E F IH]; cbn; [done|]. by rewrite E, IH. Qed.

Lemma arranged_data {A} (h : loc -> data -> list A) (g : tree -> list A) : (forall l d k, g (T l d k) = h l d ++ flat_map g k) ->
  forall t t', arranged t t' -> g t' ≡ₚ g t.
Proof using Type.
  intros E. apply (arranged_ind' (fun t t' => g t' ≡ₚ g t)). intros l d k k1 k' _ IH P _. rewrite !E, P. by rewrite (flat_map_arranged g k k1 IH).
Qed.

Lemma arranged_locs t t' : arranged t t' -> t_locs t' ≡ₚ t_locs t.
Proof using Type. by apply (arranged_data (fun l _ => [l]) t_locs). Qed.
Lemma arranged_items t t' : arranged t t' -> t_items t' ≡ₚ t_items t.
Proof using Type. by apply (arranged_data (fun _ d => d_items d) t_items). Qed.

Lemma arranged_edges t t' : arranged t t' -> t_edges t' ≡ₚ t_edges t.
Proof using Type.
  revert t t'. apply (arranged_ind' (fun t t' => t_edges t' ≡ₚ t_edges t)). intros l d k k1 k' F IH P _. cbn [t_edges]. rewrite P.
  rewrite (flat_map_arranged t_edges k k1 IH). apply Permutation_app_tail. apply (flat_map_arranged (fun c => d_edges d (t_data c))).
  eapply Forall2_impl; [exact F|]. intros u u' A. by destruct (arranged_root _ _ A) as [_ ->].
Qed.

Lemma arranged_full t t' : arranged t t' -> full t -> full t'.
Proof using Type.
  revert t t'. apply (arranged_ind' (fun t t' => full t -> full t')). intros l d k k1 k' F IH P _ [Fk [i E]]%full_kids. cbn in *. apply full_intro; [by exists i|]. rewrite P. clear P.
  induction IH as [|u u' k k1 U IH IHk]; [constructor|]. apply list.Forall_cons in Fk as [Fu Fk]. inversion F; subst. constructor; auto.
Qed.

Lemma arranged_fulls k k1 : Forall2 arranged k k1 -> Forall full k -> Forall full k1.
Proof using Type. induction 1 as [|t t' k k1 A F IH]; [done|]. rewrite !list.Forall_cons. intros [? ?]. split; [by apply (arranged_full t)|auto]. Qed.

Lemma arranged_ok t t' : arranged t t' -> ok t -> ok t'.
Proof using Type.
  intros A [F|(E & F & L)]; [left; by apply (arranged_full t)|]. right. destruct A as [l d k k1 k' A P _]. cbn in *. split; [done|].
  split; [cbn; rewrite P; by apply (arranged_fulls k)|]. cbn. rewrite P. by rewrite <- (Forall2_length _ _ _ A).
Qed.

Lemma arranged_oks f f1 : Forall2 arranged f f1 -> Forall ok f -> Forall ok f1.
Proof using Type. induction 1 as [|t t' k k1 A F IH]; [done|]. rewrite !list.Forall_cons. intros [? ?]. split; [by apply (arranged_ok t)|auto]. Qed.

Lemma arranged_list {A} (h : tree -> list A) f f1 : (forall t t', arranged t t' -> h t' ≡ₚ h t) -> Forall2 arranged f f1 -> flat_map h f1 ≡ₚ flat_map h f.
Proof using Type. intros H F. apply flat_map_arranged. eapply Forall2_impl; [exact F|]. auto. Qed.

(** ** The sort *)

Lemma sort_key_spec s par t Q : node_at (nodes s) par t -> ok t -> Q (key_of t) s -> wp (sort_key fns (t_root t)) Q s.
Proof using Sent Received.
  intros (n & G & Dn & _ & K) O HQ. unfold sort_key. apply wp_bind, (wp_rd _ _ _ _ _ G), wp_bind, (wp_rd _ _ _ _ _ G), wp_bind.
  assert (FIN : forall x m i, nodes s !! x = Some m -> n_item m = Some i -> key_of t = (Some (item_time i), n_order m) -> wp (item ← rd x n_item; order ← rd x n_order;
    match item, get_date_sent_func fns, get_date_received_func fns with Some i, Some sent, Some received => let t := sent i in mret (Some (if t <=? 0 then received i else t), order)
    | Some _, _, _ => fail | None, _, _ => mret (None, order) end) Q s).
  { intros x m i Gx Ei E. apply wp_bind, (wp_rd _ _ _ _ _ Gx), wp_bind, (wp_rd _ _ _ _ _ Gx). rewrite Ei, Sent, Received. apply wp_ret. by rewrite E in HQ. }
  destruct t as [l d k]. cbn [t_root t_data t_kids] in *. subst d. destruct (n_item n) as [i|] eqn:Ei.
  - apply wp_ret. apply (FIN l n i G Ei). unfold key_of, key_data, d_of. by rewrite Ei.
  - destruct (phantom_of _ O) as (_ & F & L); [cbn; by rewrite Ei|]. cbn in F, L. inversion K as [|? c nc kc k' ? Gc _ _ _]; subst; [cbn in L; lia|].
    apply wp_ret. apply list.Forall_cons in F as [F _]. apply full_kids in F as [_ [i Ei']]. cbn in Ei'. apply (FIN c nc i Gc Ei'). unfold key_of, key_data, d_of. rewrite Ei. cbn. by rewrite Ei'.
Qed.

Lemma sort_keys_spec s par f Q : (forall t, t ∈ f -> node_at (nodes s) par t) -> Forall ok f -> Q (map keyed f) s -> wp (sort_keys fns (map t_root f)) Q s.
Proof using Sent Received.
  revert Q. induction f as [|t f IH]; intros Q N O HQ; cbn [sort_keys map]; [by apply wp_ret|]. apply list.Forall_cons in O as [O1 O2].
  apply wp_bind, (sort_key_spec s par t); [apply N; by left|done|]. apply wp_bind, IH; [intros u J; apply N; by right|done|]. by apply wp_ret.
Qed.

Lemma in_order_short f : (length f < 2)%nat -> in_order f.
Proof using Type. destruct f as [|t [|]]; cbn; intros L; [constructor|by repeat constructor|lia]. Qed.

Lemma roots_in_locs f x : x ∈ map t_root f -> x ∈ f_locs f.
Proof using Type. intros (u & -> & J)%list_elem_of_fmap. by apply t_root_in_list. Qed.

Lemma sort_array_spec s par pl f : lst true s par pl f None -> NoDup (f_locs f) -> apart pl f -> Forall ok f ->
  wp (sort_array fns qsort pl (map t_root f)) (fun _ s' => exists f', f' ≡ₚ f /\ in_order f' /\ lst true s' par pl f' None /\
    changed s s' pl (f_locs f) /\ linked_only (nodes s) (nodes s')) s.
Proof using All.
  intros H D A O. unfold sort_array. destruct (_ <? 2)%nat eqn:E.
  { apply Nat.ltb_lt in E. rewrite length_map in E. apply wp_ret. exists f. split; [done|]. split; [by apply in_order_short|]. split; [done|].
    split; [by apply changed_refl, (lst_val _ _ _ _ _ _ H)|apply linked_only_refl]. }
  destruct H as (p & V & H). assert (N : forall t, t ∈ f -> node_at (nodes s) par t) by (intros t J; by apply (seg_nodes _ _ _ _ _ _ H)).
  apply wp_bind, (sort_keys_spec s par f); [done|done|]. destruct (qsort_keys f O) as (f' & -> & P & IO). rewrite map_map. cbn [fst keyed].
  assert (Pr : map t_root f' ≡ₚ map t_root f) by by rewrite P. change (map (fun x => t_root x) f') with (map t_root f').
  apply wp_bind. eapply wp_mono; [apply (relink_spec s par f'); [intros t J; apply N; by rewrite <- P|by rewrite P]|]. intros h s1 (S1 & R1 & H1).
  assert (Ow : forall c, pl_owner pl = Some c -> nodes s1 !! c = nodes s !! c).
  { intros c Ec. apply (rl_frame _ _ _ R1). intros J. unfold apart in A. rewrite Ec in A. apply A, roots_in_locs. by rewrite <- Pr. }
  assert (V1 : pl_val s1 pl = Some p) by (rewrite <- V; destruct pl; cbn; [by rewrite H1|..]; by rewrite Ow).
  apply wp_wrp; [by eexists|]. exists f'. split; [done|]. split; [done|]. split; [|split].
  - exists h. split; [apply pl_set_val; by eexists|]. apply (seg_frame _ (nodes s1)); [done|]. intros x J. apply pl_set_ne. intros Ec. unfold apart in A. rewrite Ec in A. apply A. by rewrite <- P.
  - exists h. split; [|by destruct pl]. intros x Nx. destruct (decide (pl_owner pl = Some x)) as [Ec|Ec]; [by rewrite !(pl_set_owner _ _ _ _ Ec), Ow|].
    rewrite !pl_set_ne by done. apply (rl_frame _ _ _ R1). intros J. apply Nx, roots_in_locs. by rewrite <- Pr.
  - apply (linked_only_trans _ (nodes s1)); [apply R1|apply pl_set_only].
Qed.

Lemma arranged_roots f f1 : Forall2 arranged f f1 -> map t_root f1 = map t_root f.
Proof using Type. induction 1 as [|t t' f f1 A F IH]; cbn; [done|]. rewrite IH. by destruct (arranged_root _ _ A) as [-> _]. Qed.

(** A list, with what is below it arranged. *)
Definition children_post (s : store) (par : option (option loc)) (c : option loc) (f : list tree) (arr : list loc) (s' : store) : Prop :=
  arr = map t_root f /\ (exists f1, Forall2 arranged f f1 /\ seg true (nodes s') par c f1 None) /\ relinked (f_locs f) (nodes s) (nodes s') /\ head s' = head s.

(** The children of a node, once those below are arranged. *)
Definition node_post (s : store) (l : loc) (n : ThreadNode) (k : list tree) (s' : store) : Prop := exists k' v,
  arranged (T l (d_of n) k) (T l (d_of n) k') /\ nodes s' !! l = Some (with_child v n) /\ seg true (nodes s') (kid_parent true l (d_of n)) v k' None /\
  relinked (l :: f_locs k) (nodes s) (nodes s') /\ head s' = head s.

Lemma sort_node s l n k fuel : nodes s !! l = Some n -> seg true (nodes s) (kid_parent true l (d_of n)) (n_child n) k None -> NoDup (l :: f_locs k) -> Forall ok k ->
  (forall c, n_child n = Some c -> wp (sort_children fns qsort fuel (Some c)) (children_post s (kid_parent true l (d_of n)) (Some c) k) s) ->
  wp (match n_child n with None => mret tt | Some _ => carray ← sort_children fns qsort fuel (n_child n); sort_array fns qsort (Child l) carray end) (fun _ => node_post s l n k) s.
Proof using All.
  intros G K D O IH. apply list.NoDup_cons in D as [D1 D]. destruct (n_child n) as [c|] eqn:Ec.
  - apply wp_bind. eapply wp_mono; [by apply IH|]. intros arr s1 (-> & (k1 & A1 & S1) & R1 & H1). assert (P1 : f_locs k1 ≡ₚ f_locs k) by (apply (arranged_list t_locs); [by apply arranged_locs|done]).
    assert (G1 : nodes s1 !! l = Some n) by by rewrite (rl_frame _ _ _ R1). rewrite <- (arranged_roots _ _ A1).
    eapply wp_mono; [apply (sort_array_spec s1 (kid_parent true l (d_of n)) (Child l) k1)|].
    + exists (Some c). split; [cbn; rewrite G1; cbn; by rewrite Ec|done].
    + by rewrite P1.
    + cbn. by rewrite P1.
    + by apply (arranged_oks k).
    + intros u s2 (k' & P2 & IO & (v & V & S2) & C2 & LO2). destruct (changed_owner _ _ _ _ l C2 eq_refl) as [w Ew]; [by rewrite P1|]. rewrite G1 in Ew. cbn in Ew.
      exists k', v. split; [by apply (arranged_T _ _ _ k1)|]. cbn in V. rewrite Ew in V. cbn in V. injection V as <-. split; [done|]. split; [done|]. split.
      * split; [by apply (linked_only_trans _ (nodes s1)); [apply R1|]|]. intros x N. rewrite (changed_ne _ _ _ _ x C2), (rl_frame _ _ _ R1); [done|set_solver|rewrite P1; set_solver|cbn; set_solver].
      * rewrite <- H1. destruct C2 as (z & _ & ->). done.
  - apply wp_ret. inversion K; subst. exists [], None. split; [apply (arranged_T _ _ _ []); [constructor|done|constructor]|].
    split; [rewrite <- Ec; by rewrite with_child_id|]. split; [constructor|]. split; [apply relinked_refl|done].
Qed.

Lemma sort_children_spec fuel s par c f : seg true (nodes s) par c f None -> NoDup (f_locs f) -> Forall ok f -> (length (f_locs f) < fuel)%nat ->
  wp (sort_children fns qsort fuel c) (children_post s par c f) s.
Proof using All.
  revert s par c f. induction fuel as [|fuel IH]; intros s par c f S D O L; [lia|]. inversion S as [|? l n k f' ? G P K Sf]; subst; cbn [sort_children].
  { apply wp_ret. split; [done|]. split; [exists []; split; [constructor|done]|]. split; [apply relinked_refl|done]. }
  cbn in L. rewrite length_app in L. pose proof D as D0. cbn in D0. rewrite app_comm_cons in D0. apply list.NoDup_app in D0 as (D1 & D2 & D3).
  apply list.Forall_cons in O as [O1 O2]. pose proof (ok_kids _ O1) as Ok. cbn in Ok.
  apply wp_bind, (wp_rd _ _ _ _ _ G), wp_bind. eapply wp_mono; [apply (sort_node s l n k fuel G K D1)|].
  - eapply list.Forall_impl; [exact Ok|]. intros t F. by left.
  - intros ch Ec. rewrite <- Ec. apply IH; [done|by apply list.NoDup_cons in D1 as [_ D1]|eapply list.Forall_impl; [exact Ok|intros t F; by left]|lia].
  - intros u s1 (k' & v & A1 & G1 & S1 & R1 & H1). apply wp_bind, (wp_rd _ _ _ _ _ G1). cbn [n_next with_child].
    assert (PK : f_locs k' ≡ₚ f_locs k) by (pose proof (arranged_locs _ _ A1) as E; cbn in E; by apply Permutation_cons_inv in E).
    apply wp_bind. eapply wp_mono; [apply (IH s1 par (n_next n) f'); [|done|done|lia]|].
    + apply (seg_frame _ (nodes s)); [done|]. intros x J. apply (rl_frame _ _ _ R1). intros J'. by apply (D2 x J').
    + intros r s2 (-> & (f1 & A2 & S2) & R2 & H2). apply wp_ret. split; [done|]. split; [|split].
      * exists (T l (d_of n) k' :: f1). split; [by constructor|]. change (d_of n) with (d_of (with_child v n)). econstructor; [rewrite (rl_frame _ _ _ R2); [done|apply D2; left]|done| |done].
        apply (seg_frame _ (nodes s1)); [done|]. intros x J. apply (rl_frame _ _ _ R2), D2. right. by rewrite <- PK.
      * apply (relinked_trans (l :: f_locs k) (f_locs f') _ _ (nodes s1)); [done|done|]. intros x. cbn. rewrite !elem_of_cons, elem_of_app. tauto.
      * congruence.
Qed.

Lemma sort_thread_spec s f : lst true s (Some None) Head f None -> NoDup (f_locs f) -> Forall ok f ->
  wp (sort_thread fns qsort) (fun _ s' => exists f1 f', Forall2 arranged f f1 /\ f' ≡ₚ f1 /\ in_order f' /\ lst true s' (Some None) Head f' None /\ linked_only (nodes s) (nodes s')) s.
Proof using All.
  intros H D O. unfold sort_thread. apply wp_bind, wp_all_nodes, wp_bind. pose proof (lst_size _ _ _ _ _ _ H D) as Sz. destruct H as (p & V & S). apply (wp_rdp _ _ _ _ V), wp_bind.
  eapply wp_mono; [apply (sort_children_spec _ s (Some None) p f S D O); lia|]. intros arr s1 (-> & (f1 & A1 & S1) & R1 & H1). rewrite <- (arranged_roots _ _ A1).
  eapply wp_mono; [apply (sort_array_spec s1 (Some None) Head f1)|].
  - exists p. split; [|done]. cbn in *. by rewrite H1.
  - by rewrite (arranged_list t_locs f f1 arranged_locs A1).
  - done.
  - by apply (arranged_oks f).
  - intros u s2 (f' & P & IO & Hl & _ & LO). exists f1, f'. split; [done|]. split; [done|]. split; [done|]. split; [done|]. apply (linked_only_trans _ (nodes s1)); [apply R1|done].
Qed.
End sort.
