(* ===== verification/ThreadPhantoms.v ===== *)
(** * ThreadPhantoms: the empty roots go

    [remove_phantoms] puts the first child of an empty root, or the message of
    the oldest one, at its place, and the others under that.  Afterwards every
    node has a message, and every node knows its parent. *)

From Stdlib Require Import ZArith Lia.
From stdpp Require Import base list numbers gmap option.
From S2P Require Import Prelude Thread ThreadRep ThreadPrune ThreadLink ThreadItems ThreadMove ThreadGroup ThreadMerge ThreadSort.

(** ** Swapping messages *)

(** Nothing but the messages of the nodes of [L] differs. *)
Record redata (L : list loc) (g g' : gmap loc ThreadNode) : Prop := {
  rd_ptrs : forall l, ptrs <$> g' !! l = ptrs <$> g !! l;
  rd_frame : forall l, l ∉ L -> g' !! l = g !! l;
  rd_data : map (fun l => d_of <$> g' !! l) L ≡ₚ map (fun l => d_of <$> g !! l) L }.

Lemma redata_refl L g : redata L g g.
Proof. by split. Qed.
Lemma redata_trans L g g1 g2 : redata L g g1 -> redata L g1 g2 -> redata L g g2.
Proof. intros [P1 F1 D1] [P2 F2 D2]. split; [intros l; by rewrite P2|intros l N; by rewrite F2, F1|by rewrite D2]. Qed.

Lemma redata_at L g g' l n : redata L g g' -> g !! l = Some n -> exists n', g' !! l = Some n' /\ n_next n' = n_next n /\ n_parent n' = n_parent n /\ n_child n' = n_child n.
Proof. intros R G. pose proof (rd_ptrs _ _ _ R l) as E. rewrite G in E. apply fmap_Some in E as (n' & G' & E). injection E as E1 E2 E3. by exists n'. Qed.

Ltac at_node := cbn [upd nodes head]; repeat first [rewrite lookup_insert_eq | rewrite lookup_insert_ne by congruence]; first [reflexivity | eassumption].
Ltac read_node := apply wp_bind; eapply wp_rd; [at_node|]; cbn [n_item n_subject n_order n_re with_item with_subject with_order with_re].
Ltac write_node := apply wp_bind; eapply wp_wr; [at_node|].

(** The numbers fit into the field. *)
Definition small (n : ThreadNode) : Prop := 0 <= n_order n < 2 ^ 31.

Lemma swap_nodes s x y nx ny : nodes s !! x = Some nx -> nodes s !! y = Some ny -> x <> y -> small nx -> small ny ->
  wp (swap_items x y) (fun _ s' => head s' = head s /\ (forall l, l <> x -> l <> y -> nodes s' !! l = nodes s !! l) /\
    (exists nx', nodes s' !! x = Some nx' /\ ptrs nx' = ptrs nx /\ d_of nx' = d_of ny) /\
    (exists ny', nodes s' !! y = Some ny' /\ ptrs ny' = ptrs ny /\ d_of ny' = d_of nx)) s.
Proof.
  intros Gx Gy N Sx Sy. unfold swap_items. do 3 (do 2 read_node; do 2 write_node). do 2 read_node; write_node. eapply wp_wr; [at_node|].
  split; [done|]. split; [intros l N1 N2; cbn [upd nodes]; by rewrite !lookup_insert_ne by congruence|].
  split; eexists; (split; [at_node|]); (split; [done|]); unfold d_of; cbn; rewrite Z.mod_small; done.
Qed.

Lemma swap_spec s x y a b nx ny : nodes s !! x = Some nx -> nodes s !! y = Some ny -> small nx -> small ny -> NoDup (x :: a ++ y :: b) ->
  wp (swap_items x y) (fun _ s' => redata (x :: a ++ y :: b) (nodes s) (nodes s') /\ head s' = head s) s.
Proof.
  intros Gx Gy Sx Sy D. pose proof D as D0. rewrite <- Permutation_middle in D0. apply list.NoDup_cons in D0 as [Dx D0]. apply list.NoDup_cons in D0 as [Dy D0].
  rewrite elem_of_cons, elem_of_app in Dx. rewrite elem_of_app in Dy.
  eapply wp_mono; [apply (swap_nodes s x y nx ny Gx Gy); [intros ->; tauto|done|done]|]. intros u s' (Hd & Fr & (nx' & Gx' & Px & Dx') & (ny' & Gy' & Py & Dy')). split; [|done].
  assert (SAME : forall k, (forall l, l ∈ k -> l ∈ a \/ l ∈ b) -> map (fun l => d_of <$> nodes s' !! l) k = map (fun l => d_of <$> nodes s !! l) k).
  { intros k K. apply map_ext_in. intros l J. apply list_elem_of_In, K in J. rewrite Fr; [done|..]; intros ->; tauto. }
  split.
  - intros l. destruct (decide (l = x)) as [->|N1]; [rewrite Gx, Gx'; cbn; by rewrite Px|]. destruct (decide (l = y)) as [->|N2]; [rewrite Gy, Gy'; cbn; by rewrite Py|by rewrite Fr].
  - intros l N. rewrite elem_of_cons, elem_of_app, elem_of_cons in N. apply Fr; intros ->; tauto.
  - cbn [map]. rewrite !map_app. cbn [map]. rewrite (SAME a), (SAME b) by tauto. rewrite Gx, Gx', Gy, Gy'. cbn [fmap option_fmap option_map]. rewrite Dx', Dy'.
    rewrite <- !Permutation_middle. apply perm_swap.
Qed.

(** ** The oldest message *)

Section oldest.
Context (sent received : gpointer -> Z).

Lemma pick_oldest_spec fuel s x a b curr node : path n_next (nodes s) node b -> NoDup (x :: a ++ b) -> (length b < fuel)%nat ->
  (forall l, l ∈ x :: a ++ b -> exists n, nodes s !! l = Some n /\ small n) ->
  wp (pick_oldest fuel sent received x curr node) (fun _ s' => redata (x :: a ++ b) (nodes s) (nodes s') /\ head s' = head s) s.
Proof using Type.
  revert s a b curr node. induction fuel as [|fuel IH]; intros s a b curr node P D L SM; [lia|]. destruct b as [|y b]; cbn in P.
  { subst node. apply wp_ret. split; [apply redata_refl|done]. }
  destruct P as [-> (n & G & P)]. cbn [pick_oldest]. apply wp_bind, (wp_rd _ _ _ _ _ G), wp_bind.
  assert (GO : forall curr s', redata (x :: a ++ y :: b) (nodes s) (nodes s') -> head s' = head s ->
    wp (next ← rd y n_next; pick_oldest fuel sent received x curr next) (fun _ s' => redata (x :: a ++ y :: b) (nodes s) (nodes s') /\ head s' = head s) s').
  { intros c s' R H'. destruct (redata_at _ _ _ _ _ R G) as (n' & G' & En & _). apply wp_bind, (wp_rd _ _ _ _ _ G'). rewrite En.
    pose proof D as D'. rewrite cons_middle, app_assoc in D', R, SM |- *. eapply wp_mono; [apply (IH s' (a ++ [y]) b c (n_next n))|].
    - apply (path_frame _ (nodes s)); [done|]. intros l _. pose proof (rd_ptrs _ _ _ R l) as E. destruct (nodes s' !! l), (nodes s !! l); try done. cbn in *. injection E as E _ _. by rewrite E.
    - done.
    - cbn in L. lia.
    - intros l J. destruct (SM l J) as (m & Gm & _). destruct (redata_at _ _ _ _ _ R Gm) as (m' & Gm' & _). exists m'. split; [done|].
      assert (d_of <$> nodes s' !! l ∈ map (fun l => d_of <$> nodes s !! l) (x :: (a ++ [y]) ++ b)) as Jd by (rewrite <- (rd_data _ _ _ R); apply list_elem_of_fmap; eauto).
      apply list_elem_of_fmap in Jd as (z & Ez & Jz). destruct (SM z Jz) as (mz & Gz & Sz). rewrite Gm', Gz in Ez. unfold small in *. injection Ez as _ ->. done.
    - intros u s2 [R2 H2]. split; [by apply (redata_trans _ _ (nodes s'))|congruence]. }
  destruct (n_item n) as [i|]; [|apply wp_ret, GO; [apply redata_refl|done]].
  cbv zeta. destruct (_ && _); [|apply wp_ret, GO; [apply redata_refl|done]].
  destruct (SM x ltac:(left)) as (nx & Gx & Sx). destruct (SM y) as (ny & Gy & Sy); [rewrite elem_of_cons, elem_of_app, elem_of_cons; auto|].
  apply wp_bind. eapply wp_mono; [by apply (swap_spec s x y a b nx ny)|]. intros u s' [R H']. apply wp_ret. by apply GO.
Qed.
End oldest.

(** A list of messages after the swaps. *)
Lemma seg_redata L g g' p f q : seg true g None p f q -> NoDup (f_locs f) -> redata L g g' -> (forall l, l ∈ map t_root f -> l ∈ L) -> (forall l, l ∈ L -> l ∉ flat_map (fun t => f_locs (t_kids t)) f) ->
  (forall l, l ∈ L -> exists n i, g !! l = Some n /\ n_item n = Some i) ->
  exists f', seg true g' None p f' q /\ map t_root f' = map t_root f /\ map t_kids f' = map t_kids f /\ map (fun t => Some (t_data t)) f' = map (fun l => d_of <$> g' !! l) (map t_root f).
Proof.
  intros H D R S K I. remember None as par eqn:Ep. revert S K D. induction H as [|par l n kids f q G P Kd _ H IH]; intros S K D; subst; [exists []; split; [constructor|done]|].
  cbn in D. apply list.NoDup_cons in D as [D0 D]. apply list.NoDup_app in D as (D1 & D2 & D3).
  destruct (redata_at _ _ _ _ _ R G) as (n' & G' & E1 & E2 & E3). assert (Ll : l ∈ L) by (apply S; left). destruct IH as (f' & S' & E4 & E5 & E6).
  - done.
  - intros x J. apply S. by right.
  - intros x J J'. apply (K x J). cbn. apply elem_of_app. by right.
  - done.
  - assert (exists i i', n_item n = Some i /\ n_item n' = Some i') as (i & i' & Ei & Ei').
    { destruct (I l Ll) as (m & i & Gm & Ei). exists i. assert (m = n) as -> by congruence.
      assert (d_of <$> g' !! l ∈ map (fun l => d_of <$> g !! l) L) as J by (rewrite <- (rd_data _ _ _ R); apply list_elem_of_fmap; eauto).
      apply list_elem_of_fmap in J as (z & Ez & Jz). destruct (I z Jz) as (mz & j & Gz & Ej). rewrite G', Gz in Ez. injection Ez as Ez _. exists j. split; [done|congruence]. }
    exists (T l (d_of n') kids :: f'). split; [|split; [cbn; by rewrite E4|split; [cbn; by rewrite E5|cbn; by rewrite E6, G']]].
    econstructor; [done|done| |by rewrite E1]. unfold kid_parent, d_of in *. cbn in *. rewrite Ei in Kd. rewrite Ei', E3. apply (seg_frame _ g); [done|].
    intros x J. apply (rd_frame _ _ _ R). intros J'. apply (K x J'). apply elem_of_app. by left.
Qed.

(** ** The siblings get a parent *)

Lemma adopt_spec fuel s nt rs o : path n_next (nodes s) o rs -> NoDup rs -> (length rs < fuel)%nat ->
  wp (adopt fuel nt o) (fun _ s' => head s' = head s /\ (forall l, l ∉ rs -> nodes s' !! l = nodes s !! l) /\
    forall l, l ∈ rs -> exists n, nodes s !! l = Some n /\ nodes s' !! l = Some (with_parent (Some nt) n)) s.
Proof.
  revert s rs o. induction fuel as [|fuel IH]; intros s rs o P D L; [lia|]. destruct rs as [|l rs]; cbn in P.
  { subst o. apply wp_ret. split; [done|]. split; [done|]. by intros l ?%elem_of_nil. }
  destruct P as [-> (n & G & P)]. cbn [adopt]. apply list.NoDup_cons in D as [D1 D]. apply wp_bind, (wp_wr _ _ _ _ _ G). set (s1 := upd _ _ _).
  assert (G1 : nodes s1 !! l = Some (with_parent (Some nt) n)) by (cbn; by rewrite lookup_insert_eq). apply wp_bind, (wp_rd _ _ _ _ _ G1).
  assert (F1 : forall x, x <> l -> nodes s1 !! x = nodes s !! x) by (intros x N; cbn; by rewrite lookup_insert_ne).
  eapply wp_mono; [apply (IH s1 rs (n_next n)); [|done|cbn in L; lia]|].
  - apply (path_frame _ (nodes s)); [done|]. intros x J. rewrite F1; [done|]. intros ->. done.
  - intros u s2 (H2 & F2 & A2). split; [done|]. split.
    + intros x N. rewrite elem_of_cons in N. rewrite F2, F1; tauto.
    + intros x J. apply elem_of_cons in J as [->|J]; [exists n; by rewrite F2|]. destruct (A2 x J) as (m & Gm & Gm'). exists m. split; [|done]. rewrite <- F1; [done|]. intros ->. done.
Qed.

(** ** The parts of a list with an empty root *)

Section parts.
Context (L R kt : list tree) (nt ph : loc) (nx sib : option loc).

(** [L]; the first child [nt] with its children [kt]; its siblings [ks]; the empty root [ph]; [R]. *)
Record pieces (s : store) (m : option loc) (d : data) (p y e : option loc) (par : option (option loc)) (ks : list tree) : Prop := {
  pc_left : lst true s (Some None) Head L m;
  pc_node : exists n, nodes s !! nt = Some n /\ d_of n = d /\ n_parent n = p /\ n_next n = y;
  pc_kids : lst true s (Some (Some nt)) (Child nt) kt e;
  pc_siblings : seg true (nodes s) par sib ks None;
  pc_right : seg true (nodes s) (Some None) nx R None;
  pc_phantom : exists n, nodes s !! ph = Some n /\ n_next n = nx }.

Definition disjoint_parts (ks : list tree) : Prop := NoDup (ph :: nt :: f_locs L ++ f_locs kt ++ f_locs ks ++ f_locs R).

(** What the parts need of a step. *)
Definition same_on (l : list loc) (s s' : store) : Prop := forall x, x ∈ l -> nodes s' !! x = nodes s !! x.

Lemma disjoint_use ks : disjoint_parts ks -> ph <> nt /\ (NoDup (f_locs L) /\ NoDup (f_locs kt) /\ NoDup (f_locs ks) /\ NoDup (f_locs R)) /\
  (forall x, x ∈ f_locs L -> x <> ph /\ x <> nt /\ x ∉ f_locs kt /\ x ∉ f_locs ks /\ x ∉ f_locs R) /\
  (forall x, x ∈ f_locs kt -> x <> ph /\ x <> nt /\ x ∉ f_locs L /\ x ∉ f_locs ks /\ x ∉ f_locs R) /\
  (forall x, x ∈ f_locs ks -> x <> ph /\ x <> nt /\ x ∉ f_locs L /\ x ∉ f_locs kt /\ x ∉ f_locs R) /\
  (forall x, x ∈ f_locs R -> x <> ph /\ x <> nt /\ x ∉ f_locs L /\ x ∉ f_locs kt /\ x ∉ f_locs ks).
Proof using Type.
  unfold disjoint_parts. generalize (f_locs L), (f_locs kt), (f_locs ks), (f_locs R). clear. intros a b c e D.
  apply list.NoDup_cons in D as [D1 D]. apply list.NoDup_cons in D as [D2 D]. rewrite elem_of_cons, !elem_of_app in D1. rewrite !elem_of_app in D2.
  apply list.NoDup_app in D as (Na & Da & D). apply list.NoDup_app in D as (Nb & Db & D). apply list.NoDup_app in D as (Nc & Dc & Ne).
  assert (Da' : forall x, x ∈ a -> x ∉ b /\ x ∉ c /\ x ∉ e) by (intros x J; specialize (Da x J); rewrite !elem_of_app in Da; tauto).
  assert (Db' : forall x, x ∈ b -> x ∉ c /\ x ∉ e) by (intros x J; specialize (Db x J); rewrite elem_of_app in Db; tauto).
  split; [tauto|]. split; [done|]. repeat split; intros ?; subst; try tauto; try (intros ?); naive_solver.
Qed.

(** The parts, put together. *)
Lemma pieces_list s d i ks : pieces s (Some nt) d None nx sib (Some (Some nt)) ks -> fst d = Some i ->
  lst true s (Some None) Head (L ++ T nt d (kt ++ ks) :: R) None.
Proof using Type.
  intros [PL (n & G & Dn & Pn & Yn) PK PS PR _] E. apply lst_app. exists (Some nt). split; [done|]. apply lst_cons. split; [by apply (lst_pos _ _ _ _ _ _ PL)|].
  exists n. split; [done|]. split; [done|]. split; [done|]. split.
  - unfold kid_parent. rewrite E. apply lst_app. exists sib. split; [done|]. exists sib. split; [by apply (lst_pos _ _ _ _ _ _ PK)|done].
  - exists nx. split; [cbn; by rewrite G, <- Yn|done].
Qed.

(** And apart. *)
Lemma list_pieces s d o ks : lst true s (Some None) Head (L ++ T ph (None, o) (T nt d kt :: ks) :: R) None -> is_Some (fst d) ->
  (exists n, nodes s !! ph = Some n /\ n_next n = nx) -> (exists n, nodes s !! nt = Some n /\ n_next n = sib) ->
  exists p, pieces s (Some ph) d p sib None None ks /\ exists nph, nodes s !! ph = Some nph /\ n_child nph = Some nt.
Proof using Type.
  intros H [i E] (nph & Gph & Eph) (n & G & En). apply lst_app in H as (m & HL & H). pose proof (lst_pos _ _ _ _ _ _ HL) as Vm.
  apply lst_cons in H as (V & nph' & Gph' & _ & _ & K & HR). assert (m = Some ph) as -> by congruence. assert (nph' = nph) as -> by congruence.
  apply lst_cons in K as (Vk & n' & G' & Ed & _ & Kt & Ks). assert (n' = n) as -> by congruence. exists (n_parent n). split.
  - split; [done|by exists n|by unfold kid_parent in Kt; rewrite E in Kt| | |by exists nph].
    + destruct Ks as (q & V' & S). cbn in V'. rewrite G in V'. injection V' as <-. by rewrite <- En.
    + destruct HR as (q & V' & S). cbn in V'. rewrite Gph in V'. injection V' as <-. by rewrite <- Eph.
  - exists nph. split; [done|]. cbn in Vk. rewrite Gph in Vk. by injection Vk as ->.
Qed.

Lemma lst_same lo s s' par pl f q : lst lo s par pl f q -> head s' = head s -> (forall x, x ∈ f_locs f \/ pl_owner pl = Some x -> nodes s' !! x = nodes s !! x) -> lst lo s' par pl f q.
Proof using Type.
  intros H Hd F. apply (lst_frame _ s); [done| |intros l J; apply F; by left]. destruct pl; cbn in *; [by rewrite Hd|..]; rewrite F; auto.
Qed.

(** A write to [nt]. *)
Lemma pieces_nt s m d p y e par ks n n' : pieces s m d p y e par ks -> disjoint_parts ks -> nodes s !! nt = Some n -> n_child n' = n_child n -> d_of n' = d ->
  pieces (upd s nt n') m d (n_parent n') (n_next n') e par ks.
Proof using Type.
  intros [PL (n0 & G & Dn & Pn & Yn) PK PS PR (nph & Gph & Eph)] D G' E1 E2. assert (n0 = n) as -> by congruence. destruct (disjoint_use ks D) as (N & _ & UL & UK & US & UR).
  assert (F : forall x, x <> nt -> nodes (upd s nt n') !! x = nodes s !! x) by (intros x Nx; cbn; by rewrite lookup_insert_ne).
  split.
  - apply (lst_same _ s); [done|done|]. intros x [J|J]; [|done]. apply F. by apply UL.
  - exists n'. split; [cbn; by rewrite lookup_insert_eq|done].
  - apply (lst_frame _ s); [done|cbn; rewrite lookup_insert_eq, G; cbn; by rewrite E1|]. intros x J. apply F. by apply UK.
  - apply (seg_frame _ (nodes s)); [done|]. intros x J. apply F. by apply US.
  - apply (seg_frame _ (nodes s)); [done|]. intros x J. apply F. by apply UR.
  - exists nph. by rewrite F.
Qed.

(** [c->next = newtop]. *)
Lemma pieces_place s m d p y e par ks v : pieces s m d p y e par ks -> disjoint_parts ks -> pieces (pl_set s (pos Head L) v) v d p y e par ks.
Proof using Type.
  intros [PL (n & G & Dn & Pn & Yn) PK PS PR (nph & Gph & Eph)] D. destruct (disjoint_use ks D) as (N & (NL & _) & UL & UK & US & UR). set (s' := pl_set _ _ _).
  assert (F : forall x, x ∉ f_locs L -> nodes s' !! x = nodes s !! x).
  { intros x Nx. apply pl_set_ne. destruct (pos_in Head L) as [->|(u & J & ->)]; [done|]. cbn. intros [= <-]. by apply Nx, t_root_in_list. }
  split.
  - by apply (lst_set _ _ _ _ _ m).
  - exists n. rewrite F; [done|]. intros J. by destruct (UL _ J) as (? & ? & ? & ? & ?).
  - apply (lst_frame _ s); [done| |intros x J; apply F; by apply UK]. cbn. rewrite F; [done|]. intros J. by destruct (UL _ J) as (? & ? & ? & ? & ?).
  - apply (seg_frame _ (nodes s)); [done|]. intros x J. apply F. by apply US.
  - apply (seg_frame _ (nodes s)); [done|]. intros x J. apply F. by apply UR.
  - exists nph. rewrite F; [done|]. intros J. by destruct (UL _ J) as (? & ? & ? & ? & ?).
Qed.

(** [scan->next = siblings]. *)
Lemma pieces_scan s m d p y e par ks v : pieces s m d p y e par ks -> disjoint_parts ks -> pieces (pl_set s (pos (Child nt) kt) v) m d p y v par ks.
Proof using Type.
  intros [PL (n & G & Dn & Pn & Yn) PK PS PR (nph & Gph & Eph)] D. destruct (disjoint_use ks D) as (N & (_ & NK & _) & UL & UK & US & UR). set (s' := pl_set _ _ _).
  assert (Ow : pos (Child nt) kt = Child nt \/ exists x, x ∈ f_locs kt /\ pos (Child nt) kt = Next x).
  { destruct (pos_in (Child nt) kt) as [->|(u & J & ->)]; [by left|]. right. exists (t_root u). split; [by apply t_root_in_list|done]. }
  assert (F : forall x, x <> nt -> x ∉ f_locs kt -> nodes s' !! x = nodes s !! x).
  { intros x N1 N2. apply pl_set_ne. destruct Ow as [->|(z & J & ->)]; cbn; congruence. }
  assert (Hd : head s' = head s) by (unfold s'; by destruct Ow as [->|(z & J & ->)]).
  split.
  - apply (lst_same _ s); [done|done|]. intros x [J|J]; [|done]. apply F; by apply UL.
  - destruct (pl_set_only s (pos (Child nt) kt) v nt n G) as (n' & G' & E1 & E2 & _). exists n'. split; [done|]. split; [congruence|]. split; [congruence|].
    rewrite <- Yn. fold s' in G'. unfold s' in G'. destruct Ow as [E|(z & J & E)]; rewrite E in G'; cbn in G'.
    + rewrite lookup_alter_eq, G in G'. by injection G' as <-.
    + rewrite lookup_alter_ne, G in G'; [by injection G' as <-|]. intros ->. by destruct (UK _ J) as (? & ? & ? & ? & ?).
  - apply (lst_set _ _ _ _ _ e); [done|done|]. cbn. intros J. by destruct (UK _ J) as (? & ? & ? & ? & ?).
  - apply (seg_frame _ (nodes s)); [done|]. intros x J. apply F; by apply US.
  - apply (seg_frame _ (nodes s)); [done|]. intros x J. apply F; by apply UR.
  - exists nph. rewrite F; [done|done|]. intros J. by destruct (UK _ J) as (? & ? & ? & ? & ?).
Qed.

(** The siblings are changed, and the message of [nt]. *)
Lemma pieces_siblings s s' m d d' p y e par par' ks ks' : pieces s m d p y e par ks -> disjoint_parts ks -> head s' = head s ->
  (forall x, x <> nt -> x ∉ f_locs ks -> nodes s' !! x = nodes s !! x) ->
  (forall n, nodes s !! nt = Some n -> exists n', nodes s' !! nt = Some n' /\ ptrs n' = ptrs n /\ d_of n' = d') ->
  seg true (nodes s') par' sib ks' None -> pieces s' m d' p y e par' ks'.
Proof using Type.
  intros [PL (n & G & Dn & Pn & Yn) PK PS PR (nph & Gph & Eph)] D Hd F HN S. destruct (disjoint_use ks D) as (N & _ & UL & UK & US & UR).
  destruct (HN n G) as (n' & G' & E & Ed). injection E as E1 E2 E3. split.
  - apply (lst_same _ s); [done|done|]. intros x [J|J]; [|done]. apply F; by apply UL.
  - exists n'. split; [done|]. split; [done|]. split; congruence.
  - apply (lst_frame _ s); [done|cbn; rewrite G, G'; cbn; by rewrite E3|]. intros x J. apply F; by apply UK.
  - done.
  - apply (seg_frame _ (nodes s)); [done|]. intros x J. apply F; by apply UR.
  - exists nph. rewrite F; [done|done|]. intros J. by destruct (US _ J) as (? & ? & ? & ? & ?).
Qed.

(** The empty root goes. *)
Lemma pieces_free s m d p y e par ks : pieces s m d p y e par ks -> disjoint_parts ks -> fst d <> None ->
  forall i, fst d = Some i -> m = Some nt -> p = None -> y = nx -> e = sib -> par = Some (Some nt) ->
  lst true (Store (delete ph (nodes s)) (head s)) (Some None) Head (L ++ T nt d (kt ++ ks) :: R) None.
Proof using Type.
  intros PC D _ i E -> -> -> -> ->. destruct (disjoint_use ks D) as (N & _ & UL & UK & US & UR). apply (lst_frame _ s); [by apply (pieces_list s d i ks)|done|].
  intros x J. cbn. rewrite lookup_delete_ne; [done|]. intros ->. rewrite flat_map_app', flat_map_cons in J. cbn [t_locs] in J. rewrite flat_map_app' in J.
  rewrite elem_of_app, elem_of_app, elem_of_cons, elem_of_app in J.
  destruct J as [J|[[J|[J|J]]|J]]; [by destruct (UL _ J) as (? & ? & ? & ? & ?)|done|by destruct (UK _ J) as (? & ? & ? & ? & ?)|by destruct (US _ J) as (? & ? & ? & ? & ?)|by destruct (UR _ J) as (? & ? & ? & ? & ?)].
Qed.

Lemma ks_path g par ks : seg true g par sib ks None -> path n_next g sib (map t_root ks).
Proof using Type. apply seg_path. Qed.

Lemma roots_nodup f : NoDup (f_locs f) -> NoDup (map t_root f).
Proof using Type.
  induction f as [|t f IH]; cbn; [constructor|]. intros D. apply list.NoDup_app in D as (_ & D1 & D2). constructor; [|by apply IH].
  intros J. apply (D1 (t_root t)); [apply t_root_in|by apply roots_in_locs].
Qed.

Lemma root_not_below f l : NoDup (f_locs f) -> l ∈ map t_root f -> l ∉ flat_map (fun t => f_locs (t_kids t)) f.
Proof using Type.
  intros NS (t & -> & Jt)%list_elem_of_fmap J. apply list_elem_of_In, in_flat_map in J as (u & Ju & J). apply list_elem_of_In in Ju, J.
  apply list_elem_of_split in Jt as (a & b & ->). rewrite flat_map_app', flat_map_cons in NS. destruct t as [l d k]. cbn [t_locs t_root] in *.
  apply list.NoDup_app in NS as (_ & N1 & N2). apply list.NoDup_app in N2 as (N2 & N3 & _). apply list.NoDup_cons in N2 as [N2 _].
  assert (K : forall f, u ∈ f -> l ∈ f_locs f). { intros f Jf. apply list_elem_of_In, in_flat_map. exists u. split; [by apply list_elem_of_In|]. destruct u as [x dx kx]. cbn in *. right. by apply list_elem_of_In. }
  apply elem_of_app in Ju as [Ju|Ju]; [apply (N1 l (K a Ju)), elem_of_app; left; left|]. apply elem_of_cons in Ju as [->|Ju]; [done|]. apply (N3 l); [by left|by apply K].
Qed.

(** The siblings after [adopt]. *)
Lemma adopt_pieces s m d p y e ks : pieces s m d p y e None ks -> disjoint_parts ks -> forall fuel, (length ks < fuel)%nat ->
  wp (adopt fuel nt sib) (fun _ s' => pieces s' m d p y e (Some (Some nt)) ks) s.
Proof using Type.
  intros PC D fuel Lf. destruct (disjoint_use ks D) as (N & (_ & _ & NS & _) & UL & UK & US & UR). pose proof (pc_siblings _ _ _ _ _ _ _ _ PC) as S.
  assert (DR : NoDup (map t_root ks)) by by apply roots_nodup.
  eapply wp_mono; [apply (adopt_spec fuel s nt (map t_root ks) sib); [by apply (ks_path _ None)|done|by rewrite length_map]|]. intros u s' (Hd & F & A).
  assert (NT : nt ∉ map t_root ks) by (intros J; apply roots_in_locs in J; by destruct (US _ J) as (? & ? & ? & ? & ?)).
  apply (pieces_siblings s s' m d d p y e None _ ks ks); [done|done|done|intros x _ Nx; apply F; intros J; by apply Nx, roots_in_locs| |].
  - intros n G. exists n. rewrite F by done. destruct (pc_node _ _ _ _ _ _ _ _ PC) as (n0 & G0 & Dn & _). assert (n0 = n) as -> by congruence. done.
  - apply (seg_parents _ (nodes s) _ None); [done|done| |].
    + intros t J. destruct (A (t_root t)) as (n & G & G'); [apply list_elem_of_fmap; eauto|]. exists (with_parent (Some nt) n). split; [done|]. split; [done|]. by exists n.
    + intros l J. apply F. intros Jr. by apply (root_not_below ks l).
Qed.

(** The same nodes with the same children; the messages of the nodes themselves may have been exchanged. *)
Definition exchanged (d : data) (ks : list tree) (d' : data) (ks' : list tree) : Prop :=
  map t_root ks' = map t_root ks /\ map t_kids ks' = map t_kids ks /\ d' :: map t_data ks' ≡ₚ d :: map t_data ks.

Lemma some_perm {A} (l l' : list A) : map Some l ≡ₚ map Some l' -> l ≡ₚ l'.
Proof using Type.
  intros (l3 & E & P)%Permutation_map_inv. assert (l = l3) as -> by (clear P; revert l3 E; induction l as [|a l IH]; intros [|b l3] E; cbn in E; try done; injection E as -> E; by rewrite (IH l3 E)). done.
Qed.

Lemma roots_data g par p f q : seg true g par p f q -> map (fun l => d_of <$> g !! l) (map t_root f) = map Some (map t_data f).
Proof using Type. induction 1 as [|par l n kids f q G P _ _ H IH]; cbn; [done|]. by rewrite IH, G. Qed.

Lemma full_item t : full t -> exists i, fst (t_data t) = Some i.
Proof using Type. intros [_ [i E]]%full_kids. eauto. Qed.

Lemma root_item g par p f q l : seg true g par p f q -> l ∈ map t_root f -> Forall full f -> exists n i, g !! l = Some n /\ n_item n = Some i /\ (i, n_order n) ∈ f_items f.
Proof using Type.
  intros S (t & -> & J)%list_elem_of_fmap F. destruct (seg_nodes _ _ _ _ _ _ S J) as (n & G & D & _). rewrite list.Forall_forall in F. destruct (full_item t (F t J)) as [i E].
  exists n, i. split; [done|]. rewrite D in E. split; [done|]. apply list_elem_of_In, in_flat_map. exists t. split; [by apply list_elem_of_In|]. apply list_elem_of_In.
  destruct t as [l d k]. cbn in *. subst d. unfold d_of. rewrite E. by left.
Qed.

Lemma pick_pieces sent received curr s m d p e ks fuel i : pieces s m d p sib e None ks -> disjoint_parts ks -> fst d = Some i -> Forall full ks -> 0 <= snd d < 2 ^ 31 ->
  (forall x, x ∈ f_items ks -> 0 <= snd x < 2 ^ 31) -> (length ks < fuel)%nat ->
  wp (pick_oldest fuel sent received nt curr sib) (fun _ s' => exists d' ks', pieces s' m d' p sib e None ks' /\ exchanged d ks d' ks') s.
Proof using Type.
  intros PC D Ei Fk Sd Sk Lf. destruct (disjoint_use ks D) as (N & (_ & _ & NS & _) & UL & UK & US & UR). pose proof (pc_siblings _ _ _ _ _ _ _ _ PC) as S.
  destruct (pc_node _ _ _ _ _ _ _ _ PC) as (n & G & Dn & _).
  assert (NT : nt ∉ f_locs ks) by (intros J; by destruct (US _ J) as (? & ? & ? & ? & ?)).
  assert (I : forall l, l ∈ nt :: map t_root ks -> exists n i, nodes s !! l = Some n /\ n_item n = Some i /\ small n).
  { intros l [->|J]%elem_of_cons.
    - exists n, i. split; [done|]. subst d. split; [done|]. exact Sd.
    - destruct (root_item _ _ _ _ _ l S J Fk) as (x & j & Gx & Ex & Jx). exists x, j. split; [done|]. split; [done|]. exact (Sk _ Jx). }
  eapply wp_mono; [apply (pick_oldest_spec sent received fuel s nt [] (map t_root ks) curr sib); [by apply (ks_path _ None)| |by rewrite length_map|]|].
  - cbn. apply list.NoDup_cons. split; [intros J; by apply NT, roots_in_locs|by apply roots_nodup].
  - intros l J. destruct (I l J) as (x & _ & Gx & _ & Sx). eauto.
  - intros u s' [RD Hd]. cbn [app] in RD. destruct (seg_redata _ _ _ _ _ _ S NS RD) as (ks' & S' & E1 & E2 & E3).
    + intros l J. by right.
    + intros l [->|J]%elem_of_cons; [|by apply root_not_below]. intros J. apply NT. apply list_elem_of_In, in_flat_map in J as (t & Jt & J). apply list_elem_of_In, in_flat_map.
      exists t. split; [done|]. destruct t. cbn in *. by right.
    + intros l J. destruct (I l J) as (x & j & Gx & Ex & _). eauto.
    + destruct (redata_at _ _ _ _ _ RD G) as (n' & G' & En & Ep & Ec). exists (d_of n'), ks'. split.
      * apply (pieces_siblings s s' m d (d_of n') p sib e None None ks ks' PC D Hd); [| |done].
        -- intros x N1 N2. apply (rd_frame _ _ _ RD). intros [->|J]%elem_of_cons; [done|]. by apply N2, roots_in_locs.
        -- intros n0 G0. assert (n0 = n) as -> by congruence. exists n'. split; [done|]. split; [unfold ptrs; congruence|done].
      * split; [done|]. split; [done|]. apply some_perm. pose proof (rd_data _ _ _ RD) as P. cbn [map] in P |- *. rewrite G, G', (roots_data _ _ _ _ _ S), <- E3 in P. cbn in P. rewrite Dn in P.
        by rewrite map_map.
Qed.
End parts.

(** ** An empty root *)

Section phantoms.
Context (fns : ItemFunctions) (sort : bool).

(** No messages are exchanged. *)
Definition keeps_items : Prop := sort = true \/ get_date_sent_func fns = None \/ get_date_received_func fns = None.

Lemma parts_disjoint L R kt nt ph d o ks : NoDup (f_locs (L ++ T ph (None, o) (T nt d kt :: ks) :: R)) -> disjoint_parts L R kt nt ph ks.
Proof using Type.
  unfold disjoint_parts. rewrite flat_map_app', flat_map_cons. cbn [t_locs]. rewrite flat_map_cons. cbn [t_locs]. intros D.
  assert (P : f_locs L ++ (ph :: (nt :: f_locs kt) ++ f_locs ks) ++ f_locs R ≡ₚ ph :: nt :: f_locs L ++ f_locs kt ++ f_locs ks ++ f_locs R); [|by rewrite <- P].
  cbn [app]. by rewrite <- !Permutation_middle, <- !app_assoc.
Qed.

Definition phantom_post (L R kt : list tree) (nt : loc) (d : data) (ks : list tree) (r : loc) (s' : store) : Prop := r = nt /\ exists d' ks', exchanged d ks d' ks' /\
  (keeps_items -> d' = d /\ ks' = ks) /\ lst true s' (Some None) Head (L ++ T nt d' (kt ++ ks') :: R) None.

(** From [scan] on. *)
Lemma finish_phantom L R kt nt ph nx sib s d i e ks fuel : pieces L R kt nt ph nx sib s (Some nt) d None sib e None ks -> e = None -> disjoint_parts L R kt nt ph ks ->
  fst d = Some i -> (length kt < fuel)%nat -> (length ks < fuel)%nat ->
  wp (scan ← last_place fuel (Child nt); siblings ← rd nt n_next; wrp scan siblings;; adopt fuel nt siblings;;
      next ← rd ph n_next; wr nt (with_next next);; memchunk_free ph;; mret nt)
    (fun r s' => r = nt /\ lst true s' (Some None) Head (L ++ T nt d (kt ++ ks) :: R) None) s.
Proof using Type.
  intros PC -> D Ei Lt Ls. apply wp_bind, (last_place_spec true _ _ (Some (Some nt)) (Child nt) kt); [by apply (pc_kids _ _ _ _ _ _ _ _ _ _ _ _ _ _ _ PC)|done|].
  destruct (pc_node _ _ _ _ _ _ _ _ _ _ _ _ _ _ _ PC) as (n & G & _ & _ & En). apply wp_bind, (wp_rd _ _ _ _ _ G). rewrite En.
  apply wp_bind, wp_wrp; [rewrite (lst_pos _ _ _ _ _ _ (pc_kids _ _ _ _ _ _ _ _ _ _ _ _ _ _ _ PC)); eauto|].
  pose proof (pieces_scan _ _ _ _ _ _ _ _ _ _ _ _ _ _ _ sib PC D) as PC2. apply wp_bind. eapply wp_mono; [by apply (adopt_pieces _ _ _ _ _ _ _ _ _ _ _ _ _ _ PC2 D)|].
  intros u s3 PC3. cbn beta in PC3. destruct (pc_phantom _ _ _ _ _ _ _ _ _ _ _ _ _ _ _ PC3) as (nph & Gph & Eph). apply wp_bind, (wp_rd _ _ _ _ _ Gph). rewrite Eph.
  destruct (pc_node _ _ _ _ _ _ _ _ _ _ _ _ _ _ _ PC3) as (n3 & G3 & D3 & P3 & _). apply wp_bind, (wp_wr _ _ _ _ _ G3).
  pose proof (pieces_nt _ _ _ _ _ _ _ _ _ _ _ _ _ _ _ n3 (with_next nx n3) PC3 D G3 eq_refl D3) as PC4. cbn [n_parent n_next with_next] in PC4. set (s4 := upd _ _ _) in *.
  destruct (pc_phantom _ _ _ _ _ _ _ _ _ _ _ _ _ _ _ PC4) as (nph' & Gph' & _). apply wp_bind, (wp_free _ _ _ _ Gph'), wp_ret. split; [done|].
  eapply pieces_free; [exact PC4|done|congruence|done|done|done|done|done|done].
Qed.

(** Up to [newtop] in the place of the empty root. *)
Lemma open_phantom L R kt nt ph o d ks s Q : lst true s (Some None) Head (L ++ T ph (None, o) (T nt d kt :: ks) :: R) None ->
  NoDup (f_locs (L ++ T ph (None, o) (T nt d kt :: ks) :: R)) -> is_Some (fst d) ->
  (forall s2 nx sib, pieces L R kt nt ph nx sib s2 (Some nt) d None sib None None ks -> size (nodes s2) = size (nodes s) -> wp Q (phantom_post L R kt nt d ks) s2) ->
  (exists nph, nodes s !! ph = Some nph /\ n_child nph = Some nt) /\ wp (wr nt (with_parent None);; wrp (pos Head L) (Some nt);; Q) (phantom_post L R kt nt d ks) s.
Proof using Type.
  intros H DN Ei HQ. pose proof (parts_disjoint _ _ _ _ _ _ _ _ DN) as D.
  assert (exists nph, nodes s !! ph = Some nph) as [nph Gph] by (apply (lst_dom _ _ _ _ _ _ _ H); rewrite flat_map_app', elem_of_app, flat_map_cons; right; by left).
  assert (exists n, nodes s !! nt = Some n) as [n G] by (apply (lst_dom _ _ _ _ _ _ _ H); rewrite flat_map_app', elem_of_app, flat_map_cons; right; cbn; right; by left).
  destruct (list_pieces L R kt nt ph (n_next nph) (n_next n) s d o ks H) as (p & PC & nph' & Gph' & Ec); [done|by exists nph|by exists n|].
  split; [by exists nph'|]. set (nx := n_next nph) in *. set (sib := n_next n) in *. apply wp_bind, (wp_wr _ _ _ _ _ G).
  pose proof (pc_node _ _ _ _ _ _ _ _ _ _ _ _ _ _ _ PC) as (n0 & G0 & Dn & _ & _). assert (n0 = n) as -> by congruence.
  pose proof (pieces_nt _ _ _ _ _ _ _ _ _ _ _ _ _ _ _ n (with_parent None n) PC D G eq_refl Dn) as PC1. cbn [n_parent n_next with_parent] in PC1. fold sib in PC1.
  pose proof (pieces_place _ _ _ _ _ _ _ _ _ _ _ _ _ _ _ (Some nt) PC1 D) as PC2. apply wp_bind, wp_wrp; [rewrite (lst_pos _ _ _ _ _ _ (pc_left _ _ _ _ _ _ _ _ _ _ _ _ _ _ _ PC1)); eauto|].
  apply (HQ _ nx sib PC2). rewrite <- !size_dom. f_equal. unfold upd, pl_set. destruct (pos Head L); cbn; rewrite ?dom_alter_L, dom_insert_L; apply elem_of_dom_2 in G; set_solver.
Qed.

Lemma replace_phantom_spec L R kt nt ph o d ks s i : lst true s (Some None) Head (L ++ T ph (None, o) (T nt d kt :: ks) :: R) None ->
  NoDup (f_locs (L ++ T ph (None, o) (T nt d kt :: ks) :: R)) -> fst d = Some i -> Forall full ks ->
  (forall x, x ∈ f_items (L ++ T ph (None, o) (T nt d kt :: ks) :: R) -> 0 <= snd x < 2 ^ 31) ->
  wp (replace_phantom fns sort (pos Head L) ph) (phantom_post L R kt nt d ks) s.
Proof using Type.
  intros H DN Ei Fk Sm. pose proof (parts_disjoint _ _ _ _ _ _ _ _ DN) as D. pose proof (lst_size _ _ _ _ _ _ H DN) as Sz.
  assert (LL : (length kt < S (size (nodes s)))%nat /\ (length ks < S (size (nodes s)))%nat).
  { pose proof (length_locs kt). pose proof (length_locs ks). rewrite flat_map_app', length_app, flat_map_cons in Sz. cbn in Sz. rewrite !length_app in Sz. cbn in Sz. rewrite ?length_app in Sz. lia. }
  destruct LL as [L1 L2].
  assert (Sd : 0 <= snd d < 2 ^ 31).
  { destruct d as [v z]. cbn in Ei. subst v. apply (Sm (i, z)). rewrite flat_map_app', elem_of_app, flat_map_cons. right. cbn. by left. }
  assert (Sk : forall x, x ∈ f_items ks -> 0 <= snd x < 2 ^ 31).
  { intros x J. apply Sm. rewrite flat_map_app', elem_of_app, flat_map_cons. right. cbn. rewrite !elem_of_app. auto. }
  unfold replace_phantom. edestruct open_phantom as [(nph & Gph & Ec) RUN]; [exact H|exact DN|by exists i| |apply wp_bind, (wp_rd _ _ _ _ _ Gph); rewrite Ec; exact RUN].
  intros s2 nx sib PC Z. apply wp_bind, wp_all_nodes. rewrite Z.
  assert (FIN : forall d' ks' s3, pieces L R kt nt ph nx sib s3 (Some nt) d' None sib None None ks' -> exchanged d ks d' ks' -> is_Some (fst d') -> (keeps_items -> d' = d /\ ks' = ks) ->
    wp (scan ← last_place (S (size (nodes s))) (Child nt); siblings ← rd nt n_next; wrp scan siblings;; adopt (S (size (nodes s))) nt siblings;;
      next ← rd ph n_next; wr nt (with_next next);; memchunk_free ph;; mret nt) (phantom_post L R kt nt d ks) s3).
  { intros d' ks' s3 PC3 X [i' Ei'] KI. assert (E : f_locs ks' = f_locs ks /\ length ks' = length ks).
    { destruct X as (X1 & X2 & _). clear -X1 X2. revert ks X1 X2. induction ks' as [|[l x k] ks' IH]; intros [|[l' x' k'] ks]; cbn; try done. intros [= -> E1] [= -> E2]. by destruct (IH ks E1 E2) as [-> ->]. }
    destruct E as [E1 E2]. eapply wp_mono; [apply (finish_phantom L R kt nt ph nx sib s3 d' i' None ks' _ PC3 eq_refl); [unfold disjoint_parts in *; by rewrite E1|done|done|by rewrite E2]|].
    intros r s4 [-> H4]. split; [done|]. exists d', ks'. done. }
  assert (KEEP : keeps_items -> wp (mret ()) (fun _ s3 => exists d' ks', pieces L R kt nt ph nx sib s3 (Some nt) d' None sib None None ks' /\ exchanged d ks d' ks' /\ (keeps_items -> d' = d /\ ks' = ks)) s2).
  { intros _. apply wp_ret. exists d, ks. done. }
  apply wp_bind. eapply wp_mono with (Q := fun _ s3 => exists d' ks', pieces L R kt nt ph nx sib s3 (Some nt) d' None sib None None ks' /\ exchanged d ks d' ks' /\ (keeps_items -> d' = d /\ ks' = ks)).
  - unfold keeps_items in *. destruct sort eqn:Es; [apply KEEP; by left|]. destruct (get_date_sent_func fns) as [sent|] eqn:E1; [|apply KEEP; auto].
    destruct (get_date_received_func fns) as [received|] eqn:E2; [|apply KEEP; auto].
    destruct (pc_node _ _ _ _ _ _ _ _ _ _ _ _ _ _ _ PC) as (n2 & G2 & D2 & _ & En). apply wp_bind, (wp_rd _ _ _ _ _ G2), wp_bind, (wp_rd _ _ _ _ _ G2). rewrite En.
    eapply wp_mono; [by eapply (pick_pieces L R kt nt ph nx sib sent received _ s2 (Some nt) d)|]. intros u s3 (d' & ks' & PC3 & X). exists d', ks'. split; [done|]. split; [done|].
    intros [?|[?|?]]; done.
  - intros u s3 (d' & ks' & PC3 & X & KI). apply (FIN d' ks' s3 PC3 X); [|done]. destruct X as (_ & _ & X).
    assert (d' ∈ d :: map t_data ks) as J by (rewrite <- X; left). apply elem_of_cons in J as [->|J]; [by exists i|]. apply list_elem_of_fmap in J as (t & -> & J).
    rewrite list.Forall_forall in Fk. destruct (full_item t (Fk t J)) as [j Ej]. by exists j.
Qed.

Lemma items_parts f : f_items f ≡ₚ flat_map d_items (map t_data f) ++ flat_map (fun k => f_items k) (map t_kids f).
Proof using Type.
  induction f as [|[l d k] f IH]; cbn; [done|]. rewrite IH, <- !app_assoc. by rewrite (Permutation_app_swap_app (f_items k)).
Qed.

Lemma exchanged_locs d ks d' ks' : exchanged d ks d' ks' -> f_locs ks' = f_locs ks.
Proof using Type.
  intros (X1 & X2 & _). revert ks X1 X2. induction ks' as [|[l x k] ks' IH]; intros [|[l' x' k'] ks]; cbn; try done. intros [= -> E1] [= -> E2]. by rewrite (IH ks E1 E2).
Qed.

Lemma exchanged_items d ks d' ks' : exchanged d ks d' ks' -> d_items d' ++ f_items ks' ≡ₚ d_items d ++ f_items ks.
Proof using Type.
  intros (_ & X2 & X3). rewrite (items_parts ks), (items_parts ks'), X2, !app_assoc. apply Permutation_app_tail. by apply (flat_map_perm d_items) in X3.
Qed.

Lemma fulls_parts f : Forall full f <-> Forall (fun d => is_Some (fst d)) (map t_data f) /\ Forall (Forall full) (map t_kids f).
Proof using Type.
  induction f as [|[l d k] f IH]; cbn; [split; [intros _; split; constructor|constructor]|]. rewrite !list.Forall_cons, IH. split.
  - intros [[? ?]%full_kids [? ?]]. done.
  - intros [[? ?] [? ?]]. split; [by apply full_intro|done].
Qed.

Lemma exchanged_full d ks d' ks' : exchanged d ks d' ks' -> is_Some (fst d) -> Forall full ks -> is_Some (fst d') /\ Forall full ks'.
Proof using Type.
  intros (_ & X2 & X3) Sd F. apply fulls_parts in F as [F1 F2]. assert (Forall (fun d => is_Some (fst d)) (d' :: map t_data ks')) as F by (rewrite X3; by constructor).
  apply list.Forall_cons in F as [F3 F4]. split; [done|]. apply fulls_parts. by rewrite X2.
Qed.

Definition phantoms_post (f : list tree) (s' : store) : Prop := exists f', lst true s' (Some None) Head f' None /\ NoDup (f_locs f') /\ Forall full f' /\ f_items f' ≡ₚ f_items f /\
  (keeps_items -> (forall e, e ∈ f_edges f -> e ∈ f_edges f') /\ map key_data f' = map key_data f).

Lemma remove_phantoms_spec fuel s L R : lst true s (Some None) Head (L ++ R) None -> NoDup (f_locs (L ++ R)) -> Forall full L -> Forall ok R ->
  (forall x, x ∈ f_items (L ++ R) -> 0 <= snd x < 2 ^ 31) -> (length R < fuel)%nat ->
  wp (remove_phantoms fns fuel sort (pos Head L)) (fun _ => phantoms_post (L ++ R)) s.
Proof using Type.
  revert s L R. induction fuel as [|fuel IH]; intros s L R H D FL OR Sm Lf; [lia|]. cbn [remove_phantoms]. pose proof H as H0. apply lst_app in H0 as (m & HL & HR).
  destruct R as [|[c d k] R].
  { apply lst_nil in HR. apply wp_bind, (wp_rdp _ _ _ _ HR), wp_ret. exists L. rewrite !app_nil_r in *. done. }
  apply lst_cons in HR as (V & n & G & Ed & _ & _ & _). apply wp_bind, (wp_rdp _ _ _ _ V), wp_bind, (wp_rd _ _ _ _ _ G). cbn in Lf. apply list.Forall_cons in OR as [OC OR].
  destruct (n_item n) as [i|] eqn:Ei.
  - rewrite cons_middle, app_assoc in H, D, Sm |- *. pose proof (IH s (L ++ [T c d k]) R) as IH'. rewrite pos_snoc in IH'. apply IH'; [done|done| |done|done|lia].
    apply list.Forall_app. split; [done|]. constructor; [|constructor]. destruct OC as [F|[E _]]; [done|]. rewrite Ed in E. cbn in E. congruence.
  - destruct (phantom_of _ OC) as (_ & Fk & Lk); [rewrite Ed; exact Ei|]. cbn in Fk, Lk. destruct d as [v o]. assert (v = None) as -> by (injection Ed as -> _; done). clear Ed.
    destruct k as [|[nt dt kt] ks]; [cbn in Lk; lia|]. apply list.Forall_cons in Fk as [Ft Fk]. destruct (full_item _ Ft) as [j Ej]. cbn in Ej. apply full_kids in Ft as [Fkt _]. cbn in Fkt.
    apply wp_bind. eapply wp_mono; [by apply (replace_phantom_spec L R kt nt c o dt ks s j)|]. intros r s' (-> & d' & ks' & X & KI & H').
    destruct (exchanged_full _ _ _ _ X) as [Fd' Fks']; [by exists j|done|]. set (t' := T nt d' (kt ++ ks')) in *.
    assert (Ft' : full t') by (apply full_intro; [done|by apply list.Forall_app]).
    assert (PI : f_items (L ++ t' :: R) ≡ₚ f_items (L ++ T c (None, o) (T nt dt kt :: ks) :: R)).
    { rewrite !flat_map_app', !flat_map_cons. apply Permutation_app_head, Permutation_app_tail. unfold t'. cbn. rewrite flat_map_app', (Permutation_app_comm (f_items kt)), app_assoc, (exchanged_items _ _ _ _ X).
      by rewrite <- !app_assoc, (Permutation_app_comm (f_items ks)). }
    rewrite cons_middle, app_assoc in H'. pose proof (IH s' (L ++ [t']) R H') as IH'. rewrite pos_snoc in IH'. eapply wp_mono; [apply IH'|].
    + pose proof (parts_disjoint _ _ _ _ _ _ _ _ D) as DD. unfold disjoint_parts in DD. apply list.NoDup_cons in DD as [_ DD]. rewrite <- (exchanged_locs _ _ _ _ X) in DD.
      rewrite !flat_map_app'. cbn. rewrite app_nil_r, flat_map_app', <- !app_assoc. cbn [app]. by rewrite <- Permutation_middle, <- app_assoc.
    + apply list.Forall_app. split; [done|]. by constructor.
    + done.
    + intros x J. apply Sm. rewrite <- PI. by rewrite <- app_assoc in J.
    + lia.
    + intros u s2 (f' & H2 & D2 & F2 & I2 & E2). exists f'. rewrite <- app_assoc in I2, E2. split; [done|]. split; [done|]. split; [done|]. split; [by rewrite I2|].
      intros K. destruct (E2 K) as [E3 ->]. destruct (KI K) as [-> ->]. split; [|rewrite !map_app; cbn; destruct dt as [v z]; cbn in Ej; by subst v].
      intros e J. apply E3. clear E2 E3. rewrite !flat_map_app', !flat_map_cons in *. unfold t'. cbn [t_edges t_data] in *. rewrite !flat_map_app' in *. cbn [flat_map t_edges app] in *. rewrite !elem_of_app in *.
      destruct J as [J|[[J|[[J|J]|J]]|J]]; try tauto. unfold d_edges in J. cbn in J. destruct J as [J|J]; [by apply elem_of_nil in J|]. exfalso. clear -J. induction ks; cbn in J; [by apply elem_of_nil in J|auto].
Qed.
End phantoms.

(** Children of messages know their parents. *)
Lemma seg_strict g par p f q : seg true g par p f q -> Forall full f -> seg false g par p f q.
Proof.
  intros H. induction H as [|par l n kids f q G P K IH1 H IH2]; intros F; [constructor|]. apply list.Forall_cons in F as [F1 F2]. apply full_kids in F1 as [Fk [i E]]. cbn in *.
  econstructor; [done|done| |by apply IH2]. specialize (IH1 Fk). unfold kid_parent in *. cbn in *. by rewrite E in IH1.
Qed.

Lemma lst_strict s par pl f q : lst true s par pl f q -> Forall full f -> lst false s par pl f q.
Proof. intros (p & V & S) F. exists p. split; [done|]. by apply seg_strict. Qed.
