(* ===== verification/ThreadSpec.v ===== *)
(** * ThreadSpec: what the threads are

    The stages of [thread_items] together: threading always ends, never reads a
    node that was freed, and leaves a forest with exactly the messages it was
    given; replies stand under the message they refer to first; sorted roots are
    in the order of their dates. *)

From Stdlib Require Import ZArith Lia Ascii Sorting.Sorted.
From stdpp Require Import base list strings numbers gmap option sorting.
From S2P Require Import Prelude Thread ThreadRep ThreadPrune ThreadLink ThreadItems ThreadRoots ThreadMove ThreadGroup ThreadMerge ThreadSort ThreadPhantoms.

(** ** The stages *)

Lemma numbered_items i items : map fst (numbered i items) = items.
Proof. revert i. induction items as [|item items IH]; intros i; cbn; [done|]. by rewrite IH. Qed.

Lemma numbered_small i items x : x ∈ numbered i items -> 0 < snd x <= Z.of_nat i + Z.of_nat (length items).
Proof.
  revert i. induction items as [|item items IH]; intros i; cbn [numbered length]; [by intros ?%elem_of_nil|]. intros [->|J]%elem_of_cons; [cbn; lia|]. specialize (IH _ J). lia.
Qed.

(** What GLib's functions do. *)
Record glib (qsort : forall A : Type, (A -> A -> Z) -> list A -> list A) (foreach_id : gmap Z loc -> list loc) (foreach_no_id : gmap gpointer loc -> list loc) : Prop := {
  gl_perm : forall A cmp (l : list A), qsort A cmp l ≡ₚ l;
  gl_sorts : forall A cmp (l : list A), total_on cmp l -> StronglySorted (fun a b => cmp a b <= 0) (qsort A cmp l);
  gl_id : forall m, foreach_id m ≡ₚ values m;
  gl_no_id : forall m, foreach_no_id m ≡ₚ values m }.

Section spec.
Context (fns : ItemFunctions) (qsort : forall A : Type, (A -> A -> Z) -> list A -> list A).
Context (foreach_id : gmap Z loc -> list loc) (foreach_no_id : gmap gpointer loc -> list loc).

Record forest (s : store) (f : list tree) (messages : list (gpointer * Z)) (edges : list (gpointer * gpointer)) : Prop := {
  fo_lst : lst true s (Some None) Head f None;
  fo_nodup : NoDup (f_locs f);
  fo_ok : Forall ok f;
  fo_items : f_items f ≡ₚ messages;
  fo_edges : forall e, e ∈ edges -> e ∈ f_edges f }.

Lemma pruned_ok f : pruned None f -> Forall ok f.
Proof using Type. intros H. eapply list.Forall_impl; [exact H|]. intros t [F|[_ P]]; auto. Qed.

(** The tables are walked and the empty nodes go. *)
Lemma prune_stage s f messages : lst false s (Some None) Head f None -> NoDup (f_locs f) -> f_items f ≡ₚ messages ->
  wp (fuel ← all_nodes; prune_empty fuel Head) (fun _ s' => exists f', lst false s' (Some None) Head f' None /\ NoDup (f_locs f') /\ Forall ok f' /\ f_items f' ≡ₚ messages /\
    forall e, e ∈ f_edges f -> e ∈ f_edges f') s.
Proof using Type.
  intros H D I. apply wp_bind, wp_all_nodes. pose proof (lst_size _ _ _ _ _ _ H D). eapply wp_mono; [apply (prune_empty_spec _ None s Head f); [lia|done|done|done]|].
  intros u s' (f' & H' & [P1 P2 P3 P4 P5 _] & _). exists f'. split; [done|]. split; [done|]. split; [by apply pruned_ok|]. split; [by rewrite P1|done].
Qed.

Lemma group_stage (b : bool) s f messages : lst false s (Some None) Head f None -> NoDup (f_locs f) -> Forall ok f -> f_items f ≡ₚ messages -> NoDup (map fst messages) ->
  wp (if b then group_root_set fns else mret tt) (fun _ s' => exists f', forest s' f' messages (f_edges f)) s.
Proof using Type.
  intros H D O I N. destruct b.
  - eapply wp_mono; [by apply (group_root_set_spec fns (f_edges f) messages s f)|]. intros u s' (f' & ? & ? & ? & ? & ?). by exists f'.
  - apply wp_ret. exists f. split; try done. destruct H as (p & V & S). exists p. split; [done|]. by apply seg_loose.
Qed.

Context (GL : glib qsort foreach_id foreach_no_id).

(** The dates of the roots. *)
Definition roots_in_order (f : list tree) : Prop := forall sent received, get_date_sent_func fns = Some sent -> get_date_received_func fns = Some received ->
  in_order sent received f.

Lemma sort_stage (b : bool) s f messages edges : forest s f messages edges -> (b = true -> get_date_sent_func fns <> None /\ get_date_received_func fns <> None) ->
  wp (if b then sort_thread fns qsort else mret tt) (fun _ s' => exists f', forest s' f' messages edges /\ (b = true -> roots_in_order f')) s.
Proof using GL.
  intros [H D O I E] B. destruct b; [|apply wp_ret; by exists f]. destruct (B eq_refl) as [B1 B2]. destruct (get_date_sent_func fns) as [sent|] eqn:Es; [|done]. destruct (get_date_received_func fns) as [received|] eqn:Er; [|done].
  eapply wp_mono; [by apply (sort_thread_spec fns sent received Es Er qsort (gl_perm _ _ _ GL) (gl_sorts _ _ _ GL) s f)|].
  intros u s' (f1 & f' & A & P & IO & H' & _). exists f'. split.
  - split; [done| | | |].
    + rewrite P, (arranged_list sent received t_locs f f1); [done|apply arranged_locs|done].
    + rewrite P. by apply (arranged_oks sent received f).
    + rewrite P, (arranged_list sent received t_items f f1); [done|apply arranged_items|done].
    + intros e J. rewrite P, (arranged_list sent received t_edges f f1); [by apply E|apply arranged_edges|done].
  - intros _ se re E1 E2. congruence.
Qed.

Lemma order_by_data sent received f f' : map key_data f' = map key_data f -> in_order sent received f -> in_order sent received f'.
Proof using Type.
  intros E H. unfold in_order in *. revert f' E. induction H as [|a f H IH Fa]; intros [|b f'] E; cbn in E; try done; [constructor|]. injection E as Ea E. constructor; [by apply IH|].
  clear -Fa Ea E. revert f' E. induction Fa as [|c f C Fa IHf]; intros [|c' f'] E; cbn in E; try done. injection E as Ec E. constructor; [|by apply IHf].
  unfold before, keyed, key_of in *. by rewrite Ea, Ec.
Qed.

(** All of it. *)
Definition thread_post (flags : Z) (items : list gpointer) (s' : store) : Prop := exists f, lst false s' (Some None) Head f None /\ NoDup (f_locs f) /\ Forall full f /\
  f_items f ≡ₚ numbered 0 items /\
  (forall rank, Forall (proper fns rank) items -> NoDup (map (get_message_id_func fns) items) -> keeps_items fns (flag flags FLAG_SORT) ->
     forall e, replies fns (numbered 0 items) e -> e ∈ f_edges f) /\
  (flag flags FLAG_SORT = true -> roots_in_order f).

Definition dated (flags : Z) : Prop := flag flags FLAG_SORT = true -> get_date_sent_func fns <> None /\ get_date_received_func fns <> None.

Lemma thread_items_spec flags items : NoDup items -> Z.of_nat (length items) < 2 ^ 31 -> dated flags ->
  wp (thread_items fns qsort foreach_id foreach_no_id flags items) (fun _ => thread_post flags items) (Store ∅ None).
Proof using GL.
  intros D L B. unfold thread_items. assert (SM : forall x, x ∈ numbered 0 items -> 0 <= snd x < 2 ^ 31) by (intros x J; apply numbered_small in J; lia).
  apply wp_bind. eapply wp_mono; [apply (link_items_spec fns items [] [] _ _ 0 thread_inv_init D); [by intros x _ ?%elem_of_nil|lia]|]. intros t s1 [I1 R1]. cbn [app] in I1, R1.
  apply wp_bind2. eapply wp_mono; [apply (roots_spec fns foreach_id foreach_no_id (gl_id _ _ _ GL) (gl_no_id _ _ _ GL) _ _ t s1 I1)|]. intros u s2 (f2 & H2 & D2 & P2 & E2).
  apply wp_bind2. eapply wp_mono; [by apply (prune_stage s2 f2 (numbered 0 items))|]. intros u3 s3 (f3 & H3 & D3 & O3 & P3 & E3).
  apply wp_bind. eapply wp_mono; [apply (group_stage _ s3 f3 (numbered 0 items) H3 D3 O3 P3); by rewrite numbered_items|]. intros u4 s4 (f4 & F4).
  apply wp_bind. eapply wp_mono; [by apply (sort_stage _ s4 f4 (numbered 0 items) (f_edges f3) F4)|]. intros u5 s5 (f5 & [H5 D5 O5 P5 E5] & S5).
  apply wp_bind, wp_all_nodes. pose proof (lst_size _ _ _ _ _ _ H5 D5). pose proof (length_locs f5).
  eapply wp_mono; [apply (remove_phantoms_spec fns (flag flags FLAG_SORT) _ s5 [] f5); [done|done|constructor|done|intros x J; apply SM; by rewrite <- P5|lia]|].
  intros u6 s6 (f6 & H6 & D6 & F6 & P6 & K6). cbn [app] in *. exists f6. split; [by apply lst_strict|]. split; [done|]. split; [done|]. split; [by rewrite P6|]. split.
  - intros rank Pr Nm K e Re. apply (proj1 (K6 K)), E5, E3. destruct (R1 rank) as [RK FI]; [|by intros j ?%elem_of_nil|done|done|by apply (E2 rank)].
    split; [intros m c n p E; cbn in E; by rewrite lookup_empty in E|intros m c n i E; cbn in E; by rewrite lookup_empty in E|done].
  - intros Sf sent received Es Er. destruct (K6 (or_introl Sf)) as [_ K]. apply (order_by_data sent received f5); [done|]. by apply S5.
Qed.
End spec.

(** ** Runs with a sort and tables *)

Lemma insert_by_perm {A} (cmp : A -> A -> Z) a l : insert_by cmp a l ≡ₚ a :: l.
Proof. induction l as [|b l IH]; cbn; [done|]. destruct (cmp a b <=? 0); [done|]. by rewrite IH, Permutation_swap. Qed.

Lemma insertion_sort_perm A (cmp : A -> A -> Z) l : insertion_sort A cmp l ≡ₚ l.
Proof. induction l as [|a l IH]; cbn; [done|]. unfold insertion_sort in IH. by rewrite insert_by_perm, IH. Qed.

Lemma insert_by_sorted {A} (cmp : A -> A -> Z) a l : (forall x, x ∈ l -> cmp a x <= 0 \/ cmp x a <= 0) -> (forall x y, x ∈ l -> y ∈ l -> cmp a x <= 0 -> cmp x y <= 0 -> cmp a y <= 0) ->
  StronglySorted (fun x y => cmp x y <= 0) l -> StronglySorted (fun x y => cmp x y <= 0) (insert_by cmp a l).
Proof.
  intros T R H. induction H as [|b l H IH F]; cbn; [repeat constructor|]. destruct (cmp a b <=? 0) eqn:E.
  - apply Z.leb_le in E. constructor; [by constructor|]. constructor; [done|]. rewrite list.Forall_forall in *. intros x J. apply (R b x); [by left|by right|done|by apply F].
  - apply Z.leb_gt in E. constructor.
    + apply IH; [intros x J; apply T; by right|]. intros x y Jx Jy. apply R; by right.
    + rewrite insert_by_perm. constructor; [|done]. destruct (T b); [left|lia|done].
Qed.

Lemma insertion_sort_sorts A (cmp : A -> A -> Z) l : total_on cmp l -> StronglySorted (fun x y => cmp x y <= 0) (insertion_sort A cmp l).
Proof.
  induction l as [|a l IH]; cbn; intros [T R]; [constructor|]. pose proof (insertion_sort_perm A cmp l) as P. unfold insertion_sort in *. apply insert_by_sorted.
  - intros x J. rewrite P in J. apply T; [by left|by right].
  - intros x y Jx Jy. rewrite P in Jx, Jy. apply R; [by left|by right..].
  - apply IH. split; [intros x y ? ?; apply T; by right|intros x y z ? ? ?; apply R; by right].
Qed.

Lemma glib_instance : glib insertion_sort values values.
Proof. split; [apply insertion_sort_perm|apply insertion_sort_sorts|done|done]. Qed.

(** Five messages: 2 and 3 answer 1, 4 and 5 answer messages that are not there. *)
Definition five : ItemFunctions := Functions (fun i => Some (bs "x")) (fun i => Z.pos i)
  (fun i => match i with 2%positive => Some [1] | 3%positive => Some [2; 1] | 4%positive => Some [9] | 5%positive => Some [9; 7] | _ => None end)
  (Some (fun i => 100 - Z.pos i)) (Some (fun _ => 0)).
Definition five_items : list gpointer := [1; 2; 3; 4; 5]%positive.
Definition five_rank (m : Z) : nat := match m with 7 => 0 | 9 => 1 | 1 => 1 | 2 => 2 | 3 => 3 | _ => 4 end.

(** ** Reading the threads *)

Lemma dump_spec fuel s lo par c f depth : seg lo (nodes s) par c f None -> (length (f_locs f) < fuel)%nat ->
  wp (dump_tree_rec fuel c depth) (fun n s' => n = Z.of_nat (length (f_items f)) /\ s' = s) s.
Proof.
  revert par c f depth. induction fuel as [|fuel IH]; intros par c f depth S L; [lia|]. inversion S as [|? l n k f' ? G P K Sf]; subst; cbn [dump_tree_rec]; [by apply wp_ret|].
  cbn in L. rewrite length_app in L. apply wp_bind, (wp_rd _ _ _ _ _ G), wp_bind, (wp_rd _ _ _ _ _ G), wp_bind.
  assert (B : forall Q, Q (Z.of_nat (length (f_items k))) s -> wp (match n_child n with Some _ => dump_tree_rec fuel (n_child n) (depth + 1) | None => mret 0 end) Q s).
  { intros Q HQ. destruct (n_child n) eqn:E; [|inversion K; subst; by apply wp_ret]. eapply wp_mono; [eapply (IH _ _ k); [exact K|lia]|]. by intros a s' [-> ->]. }
  apply B, wp_bind, (wp_rd _ _ _ _ _ G), wp_bind. eapply wp_mono; [eapply (IH _ _ f'); [exact Sf|lia]|]. intros a s' [-> ->]. apply wp_ret. split; [|done].
  cbn. rewrite !length_app. unfold d_of. cbn. destruct (n_item n); cbn; lia.
Qed.

Lemma dump_forest s lo f : lst lo s (Some None) Head f None -> NoDup (f_locs f) -> camel_folder_thread_dump s = Some (Z.of_nat (length (f_items f))).
Proof.
  intros H D. pose proof (lst_size _ _ _ _ _ _ H D) as Sz. destruct H as (p & V & S). cbn in V. injection V as V. unfold camel_folder_thread_dump, camel_folder_thread_get_tree. rewrite V.
  pose proof (dump_spec (Datatypes.S (size (nodes s))) s lo (Some None) p f 0 S ltac:(lia)) as W. unfold wp in W. destruct (dump_tree_rec _ _ _ _) as [[n s']|]; [|done]. destruct W as [-> _]. done.
Qed.

Lemma numbered_length i items : length (numbered i items) = length items.
Proof. revert i. induction items as [|item items IH]; intros i; cbn; [done|]. by rewrite IH. Qed.

(** ** The theorems *)

Lemma new_items_run fns qsort foreach_id foreach_no_id flags items : glib qsort foreach_id foreach_no_id -> NoDup items -> Z.of_nat (length items) < 2 ^ 31 -> dated fns flags ->
  exists s, camel_folder_thread_new_items fns qsort foreach_id foreach_no_id items flags = Some (Some s) /\ thread_post fns flags items s.
Proof.
  intros GL D L B. pose proof (thread_items_spec fns qsort foreach_id foreach_no_id GL flags items D L B) as W. unfold wp in W. unfold camel_folder_thread_new_items.
  destruct (flag flags FLAG_SORT && _) eqn:E.
  { apply andb_true_iff in E as [E1 E2]. destruct (B E1) as [B1 B2]. apply orb_true_iff in E2 as [E2|E2]; by apply bool_decide_eq_true in E2. }
  cbn [mbind option_bind]. destruct (thread_items _ _ _ _ _ _ _) as [[u s]|]; [|done]. by exists s.
Qed.

(** C6. Threading the messages of a folder, with whatever flags, references and identifiers, comes to an end without using a freed node, and leaves a forest
    of nodes that each have a message and know their parent; the messages in it are the given ones, each once, with their numbers, and
    dumping the threads counts them. *)
Theorem thread_complete fns qsort foreach_id foreach_no_id flags items : glib qsort foreach_id foreach_no_id -> NoDup items -> Z.of_nat (length items) < 2 ^ 31 -> dated fns flags ->
  exists s f, camel_folder_thread_new_items fns qsort foreach_id foreach_no_id items flags = Some (Some s) /\
    lst false s (Some None) Head f None /\ NoDup (f_locs f) /\ Forall full f /\ f_items f ≡ₚ numbered 0 items /\
    camel_folder_thread_dump s = Some (Z.of_nat (length items)).
Proof.
  intros GL D L B. destruct (new_items_run _ _ _ _ flags items GL D L B) as (s & R & f & H1 & H2 & H3 & H4 & _). exists s, f. split; [done|].
  split; [done|]. split; [done|]. split; [done|]. split; [done|]. by rewrite (dump_forest s false f H1 H2), H4, numbered_length.
Qed.

Lemma thread_complete_witness : exists s f, camel_folder_thread_new_items five insertion_sort values values five_items 3 = Some (Some s) /\
    lst false s (Some None) Head f None /\ NoDup (f_locs f) /\ Forall full f /\ f_items f ≡ₚ numbered 0 five_items /\
    camel_folder_thread_dump s = Some 5.
Proof.
  apply (thread_complete five insertion_sort values values 3 five_items); [apply glib_instance|by apply (bool_decide_unpack _); vm_compute|reflexivity|done].
Defined.

(** C8. With proper references (identifiers without repetition, and references that never go in a circle), every message is in the end a child of the message that
    it refers to first, if that is there, also when subjects are grouped; provided that no messages are exchanged, which is so when threads are sorted or there are no
    functions for dates. *)
Theorem thread_replies fns qsort foreach_id foreach_no_id flags items rank : glib qsort foreach_id foreach_no_id -> NoDup items -> Z.of_nat (length items) < 2 ^ 31 -> dated fns flags ->
  Forall (proper fns rank) items -> NoDup (map (get_message_id_func fns) items) -> keeps_items fns (flag flags FLAG_SORT) ->
  exists s f, camel_folder_thread_new_items fns qsort foreach_id foreach_no_id items flags = Some (Some s) /\ lst false s (Some None) Head f None /\
    forall i j references, i ∈ items -> j ∈ items -> get_references_func fns j = Some references -> first_reference references = Some (get_message_id_func fns i) -> (i, j) ∈ f_edges f.
Proof.
  intros GL D L B P N K. destruct (new_items_run _ _ _ _ flags items GL D L B) as (s & Run & f & H1 & _ & _ & _ & H5 & _). exists s, f. split; [done|]. split; [done|].
  intros i j references Ji Jj R F. apply (H5 rank P N K). exists references. rewrite numbered_items. done.
Qed.

Lemma thread_replies_witness : exists s f, camel_folder_thread_new_items five insertion_sort values values five_items 3 = Some (Some s) /\ lst false s (Some None) Head f None /\
    forall i j references, i ∈ five_items -> j ∈ five_items -> get_references_func five j = Some references -> first_reference references = Some (get_message_id_func five i) -> (i, j) ∈ f_edges f.
Proof.
  apply (thread_replies five insertion_sort values values 3 five_items five_rank); [apply glib_instance|by apply (bool_decide_unpack _); vm_compute|reflexivity|done| |by apply (bool_decide_unpack _); vm_compute|by left].
  repeat constructor; cbn; try discriminate; intros references [= <-]; cbn; lia.
Defined.

(** The date of a message, which is the one it was received at if it was never sent; then its number. *)
Definition earlier (sent received : gpointer -> Z) (a b : tree) : Prop :=
  match fst (t_data a), fst (t_data b) with
  | Some i, Some j => item_time sent received i < item_time sent received j \/ item_time sent received i = item_time sent received j /\ snd (t_data a) <= snd (t_data b)
  | _, _ => False
  end.

Lemma before_earlier sent received a b : full a -> full b -> before sent received a b -> earlier sent received a b.
Proof.
  intros Fa Fb. destruct Fa as [la i oa ka _], Fb as [lb j ob kb _]. unfold before, earlier, keyed, key_of. cbn. destruct (item_time sent received i =? item_time sent received j) eqn:E; cbn.
  - apply Z.eqb_eq in E. intros H. right. split; [done|]. destruct (oa =? ob) eqn:E1; [lia|]. destruct (oa <? ob) eqn:E2; lia.
  - apply Z.eqb_neq in E. destruct (_ <? _) eqn:E2; lia.
Qed.

(** C18. Sorted threads are in the order of the dates of their first messages, those of the same date in the order of the messages. *)
Theorem thread_sorted fns qsort foreach_id foreach_no_id flags items sent received : glib qsort foreach_id foreach_no_id -> NoDup items -> Z.of_nat (length items) < 2 ^ 31 ->
  flag flags FLAG_SORT = true -> get_date_sent_func fns = Some sent -> get_date_received_func fns = Some received ->
  exists s f, camel_folder_thread_new_items fns qsort foreach_id foreach_no_id items flags = Some (Some s) /\ lst false s (Some None) Head f None /\ StronglySorted (earlier sent received) f.
Proof.
  intros GL D L S Es Er. assert (B : dated fns flags) by (intros _; by rewrite Es, Er).
  destruct (new_items_run _ _ _ _ flags items GL D L B) as (s & R & f & H1 & _ & H3 & _ & _ & H6). exists s, f. split; [done|]. split; [done|]. specialize (H6 S sent received Es Er).
  clear -H3 H6. induction H6 as [|a f H IH F]; [constructor|]. apply list.Forall_cons in H3 as [Fa Ff]. constructor; [by apply IH|]. rewrite list.Forall_forall in *. intros b J.
  apply before_earlier; [done|by apply Ff|by apply F].
Qed.

Lemma thread_sorted_witness : exists s f, camel_folder_thread_new_items five insertion_sort values values five_items 2 = Some (Some s) /\ lst false s (Some None) Head f None /\
  StronglySorted (earlier (fun i => 100 - Z.pos i) (fun _ => 0)) f.
Proof.
  apply (thread_sorted five insertion_sort values values 2 five_items); [apply glib_instance|by apply (bool_decide_unpack _); vm_compute|reflexivity..].
Defined.

(** C32. Linking two nodes of a forest never fails and leaves a forest: the child is moved under the parent with all that is below it, unless it is above the parent,
    and the parents of all other nodes and the messages stay. *)
Theorem container_parent_child_forest s kids parent child : linked None (nodes s) kids -> is_Some (nodes s !! parent) -> is_Some (nodes s !! child) -> parent <> child ->
  exists s', container_parent_child parent child s = Some (tt, s') /\ (exists kids', linked None (nodes s') kids') /\ same_data (nodes s) (nodes s') /\
    (forall l, l <> child -> n_parent <$> nodes s' !! l = n_parent <$> nodes s !! l) /\
    (n_parent <$> nodes s' !! child = Some (Some parent) \/ exists l, above (nodes s) parent l /\ child ∈ l).
Proof.
  intros L P C N. pose proof (container_parent_child_spec s kids parent child L P C N) as W. unfold wp in W. destruct (container_parent_child parent child s) as [[[] s']|]; [|done].
  exists s'. split; [done|]. by destruct W as [M1 M2 M3 M4 M5].
Qed.

Lemma container_parent_child_forest_witness : let s := Store {[ 1%positive := alloc0_node; 2%positive := alloc0_node ]} None in
  exists s', container_parent_child 1%positive 2%positive s = Some (tt, s') /\ (exists kids', linked None (nodes s') kids') /\ same_data (nodes s) (nodes s') /\
    (forall l, l <> 2%positive -> n_parent <$> nodes s' !! l = n_parent <$> nodes s !! l) /\
    (n_parent <$> nodes s' !! 2%positive = Some (Some 1%positive) \/ exists l, above (nodes s) 1%positive l /\ 2%positive ∈ l).
Proof.
  intros s. apply (container_parent_child_forest s (fun _ => [])); [|by eexists|by eexists|done]. apply (linked_alloc {[ 2%positive := alloc0_node ]} (fun _ => []) 1%positive); [|done].
  apply (linked_alloc ∅ (fun _ => []) 2%positive); [|done]. split; [by intros p n ?|intros p c; split; [by intros ?%elem_of_nil|by intros (n & ? & _)]|by intros c n ?|by intros c [n ?]].
Defined.

(** C33. Pruning the forest always ends; it leaves no empty node but roots with two messages or more below them, loses no message, and a child of a message stays one. *)
Theorem prune_empty_minimal fuel s f : lst false s (Some None) Head f None -> NoDup (f_locs f) -> (length (f_locs f) < fuel)%nat ->
  exists s' f', prune_empty fuel Head s = Some (tt, s') /\ lst false s' (Some None) Head f' None /\ Forall (fun t => full t \/ phantom t) f' /\
    f_items f' ≡ₚ f_items f /\ forall e, e ∈ f_edges f -> e ∈ f_edges f'.
Proof.
  intros H D L. pose proof (prune_empty_spec fuel None s Head f L H D I) as W. unfold wp in W. destruct (prune_empty fuel Head s) as [[[] s']|]; [|done].
  destruct W as (f' & H' & [P1 P2 _ _ P5 _] & _). exists s', f'. split; [done|]. split; [done|]. split; [|done]. by apply pruned_ok.
Qed.

(** An empty node with one message below it. *)
Lemma prune_empty_minimal_witness : let s := Store {[ 1%positive := Node None None (Some 2%positive) None None 0 false; 2%positive := Node None (Some 1%positive) None (Some 7%positive) None 1 false ]} (Some 1%positive) in
  let f := [T 1%positive (None, 0) [T 2%positive (Some 7%positive, 1) []]] in
  exists s' f', prune_empty 3 Head s = Some (tt, s') /\ lst false s' (Some None) Head f' None /\ Forall (fun t => full t \/ phantom t) f' /\
    f_items f' ≡ₚ f_items f /\ forall e, e ∈ f_edges f -> e ∈ f_edges f'.
Proof.
  intros s f. apply (prune_empty_minimal 3 s f); [|by apply (bool_decide_unpack _); vm_compute|cbn; lia].
  exists (Some 1%positive). split; [reflexivity|]. apply (seg_cons false (nodes s) (Some None) 1%positive (Node None None (Some 2%positive) None None 0 false)); [reflexivity|reflexivity| |constructor].
  apply (seg_cons false (nodes s) (Some (Some 1%positive)) 2%positive (Node None (Some 1%positive) None (Some 7%positive) None 1 false)); [reflexivity|reflexivity|constructor|constructor].
Defined.
