(* ===== verification/IntervalTree.v ===== *)
(** * IntervalTree: the interval tree of the calendar backends
    (libedata-cal/e-cal-backend-intervaltree.c)

    The red-black tree of (start, end, component) nodes the cache of recurrences
    is searched with.  The model is the pointer program itself: a store of
    nodes, the two sentinels [nil] and [root] among them, every field read and
    written in the order of the code; reading a node that is not allocated is a
    failure.  The recursive mutex makes an operation one step. *)

From stdpp Require Import base list strings numbers gmap.
From Stdlib Require Import ZArith Lia Ascii.
From S2P Require Import Prelude.

Definition TIME_MIN : Z := 0.
Definition TIME_MAX : Z := 2147483647.

(** ** The store *)

Abbreviation loc := positive (only parsing).

(** [tree->priv->nil] and [tree->priv->root], allocated by
    [e_intervaltree_init]. *)
Definition NIL : loc := 1%positive.
Definition ROOT : loc := 2%positive.

(** What is read of an [ECalComponent], and the object. *)
Record comp := Comp { c_uid : list Z; c_rid : option (list Z); c_obj : Z }.

Record EIntervalNode := Node {
  n_start : Z; n_end : Z; n_max : Z; n_min : Z; n_red : bool; n_comp : comp;
  n_left : loc; n_right : loc; n_parent : loc }.

Definition with_max (v : Z) (n : EIntervalNode) := Node (n_start n) (n_end n) v (n_min n) (n_red n) (n_comp n) (n_left n) (n_right n) (n_parent n).
Definition with_min (v : Z) (n : EIntervalNode) := Node (n_start n) (n_end n) (n_max n) v (n_red n) (n_comp n) (n_left n) (n_right n) (n_parent n).
Definition with_red (v : bool) (n : EIntervalNode) := Node (n_start n) (n_end n) (n_max n) (n_min n) v (n_comp n) (n_left n) (n_right n) (n_parent n).
Definition with_left (v : loc) (n : EIntervalNode) := Node (n_start n) (n_end n) (n_max n) (n_min n) (n_red n) (n_comp n) v (n_right n) (n_parent n).
Definition with_right (v : loc) (n : EIntervalNode) := Node (n_start n) (n_end n) (n_max n) (n_min n) (n_red n) (n_comp n) (n_left n) v (n_parent n).
Definition with_parent (v : loc) (n : EIntervalNode) := Node (n_start n) (n_end n) (n_max n) (n_min n) (n_red n) (n_comp n) (n_left n) (n_right n) v.

Abbreviation heap := (gmap loc EIntervalNode) (only parsing).

(** Programs over the store; [None] is a bad pointer or fuel running out. *)
Definition M (A : Type) : Type := heap -> option (A * heap).
#[export] Instance M_ret : MRet M := fun A a h => Some (a, h).
#[export] Instance M_bind : MBind M := fun A B f m h =>
  match m h with Some (a, h') => f a h' | None => None end.
Definition fail {A} : M A := fun _ => None.

(** [p->f], and an assignment to a field of [p]. *)
Definition rd {A} (p : loc) (f : EIntervalNode -> A) : M A := fun h =>
  match h !! p with Some n => Some (f n, h) | None => None end.
Definition wr (p : loc) (f : EIntervalNode -> EIntervalNode) : M unit := fun h =>
  match h !! p with Some n => Some (tt, <[p := f n]> h) | None => None end.

(** ** Directions and comparisons *)

Definition DIRECTION_GO_LEFT : Z := 0.
Definition DIRECTION_GO_RIGHT : Z := 1.

Definition get_direction (x : EIntervalNode) (z_start z_end : Z) : Z :=
  if n_start x =? z_start then (if n_end x >? z_end then 1 else 0)
  else if n_start x >? z_start then DIRECTION_GO_LEFT else DIRECTION_GO_RIGHT.

Definition component_key (uid : list Z) (rid : option (list Z)) : list Z :=
  match rid with Some rid => uid ++ bs "_" ++ rid | None => uid end.

Definition compare_intervals (x_start x_end y_start y_end : Z) : Z :=
  if x_end <? y_start then -1 else if y_end <? x_start then 1 else 0.

(** ** Rotations *)

(** [x->max = MAX (x->left->max, MAX (x->end, x->right->max))] and
    [x->min = MIN (x->left->min, x->start)]. *)
Definition update_max (x : loc) : M unit :=
  l ← rd x n_left; lm ← rd l n_max; e ← rd x n_end; r ← rd x n_right; rm ← rd r n_max;
  wr x (with_max (Z.max lm (Z.max e rm))).

Definition update_min (x : loc) : M unit :=
  l ← rd x n_left; lm ← rd l n_min; s ← rd x n_start;
  wr x (with_min (Z.min lm s)).

Definition left_rotate (x : loc) : M unit :=
  y ← rd x n_right;
  yl ← rd y n_left;
  wr x (with_right yl);;
  (if decide (yl = NIL) then mret tt else wr yl (with_parent x));;
  xp ← rd x n_parent;
  wr y (with_parent xp);;
  xpl ← rd xp n_left;
  (if decide (x = xpl) then wr xp (with_left y) else wr xp (with_right y));;
  wr y (with_left x);;
  wr x (with_parent y);;
  update_max x;;
  xm ← rd x n_max; ye ← rd y n_end; yr ← rd y n_right; yrm ← rd yr n_max;
  wr y (with_max (Z.max xm (Z.max ye yrm)));;
  update_min x;;
  xmin ← rd x n_min; ys ← rd y n_start;
  wr y (with_min (Z.min xmin ys)).

Definition right_rotate (y : loc) : M unit :=
  x ← rd y n_left;
  xr ← rd x n_right;
  wr y (with_left xr);;
  (if decide (xr = NIL) then mret tt else wr xr (with_parent y));;
  yp ← rd y n_parent;
  wr x (with_parent yp);;
  ypl ← rd yp n_left;
  (if decide (y = ypl) then wr yp (with_left x) else wr yp (with_right x));;
  wr x (with_right y);;
  wr y (with_parent x);;
  yl ← rd y n_left; ylm ← rd yl n_max; yr ← rd y n_right; yrm ← rd yr n_max; ye ← rd y n_end;
  wr y (with_max (Z.max ylm (Z.max yrm ye)));;
  xl ← rd x n_left; xlm ← rd xl n_max; ym ← rd y n_max; xe ← rd x n_end;
  wr x (with_max (Z.max xlm (Z.max ym xe)));;
  update_min y;;
  update_min x.

(** ** The bounds on the way to the root *)

Fixpoint fixup_min_max_fields (fuel : nat) (node : loc) : M unit :=
  match fuel with
  | O => fail
  | S fuel =>
      if decide (node = ROOT) then mret tt
      else
        e ← rd node n_end; l ← rd node n_left; lm ← rd l n_max; r ← rd node n_right; rm ← rd r n_max;
        wr node (with_max (Z.max e (Z.max lm rm)));;
        s ← rd node n_start; l ← rd node n_left; lm ← rd l n_min;
        wr node (with_min (Z.min s lm));;
        p ← rd node n_parent;
        fixup_min_max_fields fuel p
  end.

(** ** Insertion as a leaf *)

(** The descent from [x] with parent [y]; gives the last node. *)
Fixpoint insert_descend (fuel : nat) (z_start z_end : Z) (x y : loc) : M loc :=
  match fuel with
  | O => fail
  | S fuel =>
      if decide (x = NIL) then mret y
      else
        n ← rd x id;
        if get_direction n z_start z_end =? DIRECTION_GO_LEFT
        then insert_descend fuel z_start z_end (n_left n) x
        else insert_descend fuel z_start z_end (n_right n) x
  end.

Definition binary_tree_insert (fuel : nat) (z : loc) : M unit :=
  wr z (with_right NIL);; wr z (with_left NIL);;
  top ← rd ROOT n_left;
  z_start ← rd z n_start; z_end ← rd z n_end;
  y ← insert_descend fuel z_start z_end top ROOT;
  wr z (with_parent y);;
  yn ← rd y id;
  (if bool_decide (y = ROOT) || (get_direction yn z_start z_end =? DIRECTION_GO_LEFT)
   then wr y (with_left z) else wr y (with_right z));;
  l ← rd y n_left; lm ← rd l n_min; s ← rd y n_start;
  wr y (with_min (Z.min lm s));;
  l ← rd y n_left; lm ← rd l n_max; e ← rd y n_end; r ← rd y n_right; rm ← rd r n_max;
  wr y (with_max (Z.max lm (Z.max e rm))).

(** The node after [x] in order. *)
Fixpoint leftmost (fuel : nat) (y : loc) : M loc :=
  match fuel with
  | O => fail
  | S fuel => l ← rd y n_left; if decide (l = NIL) then mret y else leftmost fuel l
  end.

Fixpoint climb_right (fuel : nat) (x y : loc) : M loc :=
  match fuel with
  | O => fail
  | S fuel =>
      yr ← rd y n_right;
      if decide (x = yr) then yp ← rd y n_parent; climb_right fuel y yp else mret y
  end.

Definition intervaltree_node_next (fuel : nat) (x : loc) : M loc :=
  xr ← rd x n_right;
  if decide (xr = NIL) then
    xp ← rd x n_parent;
    y ← climb_right fuel x xp;
    mret (if decide (y = ROOT) then NIL else y)
  else leftmost fuel xr.

(** ** Rebalancing *)

(** The loop of [e_intervaltree_insert]. *)
Fixpoint insert_fixup (fuel : nat) (x : loc) : M unit :=
  match fuel with
  | O => fail
  | S fuel =>
      p ← rd x n_parent; pred ← rd p n_red;
      if negb pred then mret tt
      else
        g ← rd p n_parent; gl ← rd g n_left;
        if decide (p = gl) then
          y ← rd g n_right; yred ← rd y n_red;
          if (yred : bool) then
            wr p (with_red false);; wr y (with_red false);; wr g (with_red true);;
            insert_fixup fuel g
          else
            pr ← rd p n_right;
            x ← (if decide (x = pr) then left_rotate p;; mret p else mret x);
            p ← rd x n_parent; wr p (with_red false);;
            g ← rd p n_parent; wr g (with_red true);;
            right_rotate g;;
            insert_fixup fuel x
        else
          y ← rd g n_left; yred ← rd y n_red;
          if (yred : bool) then
            wr p (with_red false);; wr y (with_red false);; wr g (with_red true);;
            insert_fixup fuel g
          else
            pl ← rd p n_left;
            x ← (if decide (x = pl) then right_rotate p;; mret p else mret x);
            p ← rd x n_parent; wr p (with_red false);;
            g ← rd p n_parent; wr g (with_red true);;
            left_rotate g;;
            insert_fixup fuel x
  end.

(** A round of [intervaltree_fixup_deletion] for [x] a left child: the next
    [x]; and the same for a right child. *)
Definition fixup_deletion_left (root x p : loc) : M loc :=
  w ← rd p n_right; wred ← rd w n_red;
  w ← (if (wred : bool) then
         wr w (with_red false);; wr p (with_red true);; left_rotate p;;
         xp ← rd x n_parent; rd xp n_right
       else mret w);
  wr_ ← rd w n_right; wrr ← rd wr_ n_red; wl ← rd w n_left; wlr ← rd wl n_red;
  if negb wrr && negb wlr then wr w (with_red true);; rd x n_parent
  else
    w ← (if negb wrr then
           wl ← rd w n_left; wr wl (with_red false);; wr w (with_red true);; right_rotate w;;
           xp ← rd x n_parent; rd xp n_right
         else mret w);
    xp ← rd x n_parent; c ← rd xp n_red; wr w (with_red c);;
    wr xp (with_red false);;
    wrt ← rd w n_right; wr wrt (with_red false);;
    left_rotate xp;;
    mret root.

Definition fixup_deletion_right (root x p : loc) : M loc :=
  w ← rd p n_left; wred ← rd w n_red;
  w ← (if (wred : bool) then
         wr w (with_red false);; wr p (with_red true);; right_rotate p;;
         xp ← rd x n_parent; rd xp n_left
       else mret w);
  wr_ ← rd w n_right; wrr ← rd wr_ n_red; wl ← rd w n_left; wlr ← rd wl n_red;
  if negb wrr && negb wlr then wr w (with_red true);; rd x n_parent
  else
    w ← (if negb wlr then
           wr_ ← rd w n_right; wr wr_ (with_red false);; wr w (with_red true);; left_rotate w;;
           xp ← rd x n_parent; rd xp n_left
         else mret w);
    xp ← rd x n_parent; c ← rd xp n_red; wr w (with_red c);;
    wr xp (with_red false);;
    wlt ← rd w n_left; wr wlt (with_red false);;
    right_rotate xp;;
    mret root.

(** No parent pointer is NULL, so the [break] is never taken. *)
Fixpoint fixup_deletion_loop (fuel : nat) (root x : loc) : M loc :=
  match fuel with
  | O => fail
  | S fuel =>
      xred ← rd x n_red;
      if xred || bool_decide (root = x) then mret x
      else
        p ← rd x n_parent; pl ← rd p n_left;
        x ← (if decide (x = pl) then fixup_deletion_left root x p else fixup_deletion_right root x p);
        fixup_deletion_loop fuel root x
  end.

Definition intervaltree_fixup_deletion (fuel : nat) (x : loc) : M unit :=
  root ← rd ROOT n_left;
  x ← fixup_deletion_loop fuel root x;
  wr x (with_red false).

(** ** The operations *)

(** [id_node_hash] with its string keys, and the next address of [g_new]. *)
Record EIntervalTree := Tree { nodes : heap; id_node_hash : gmap (list Z) loc; fresh_loc : loc }.

(** Memory of [g_new] before it is set. *)
Definition no_comp : comp := Comp [] None 0.

Definition e_intervaltree_init : EIntervalTree :=
  let nil := Node TIME_MIN TIME_MIN TIME_MIN TIME_MAX false no_comp NIL NIL NIL in
  let root := Node TIME_MAX 0 TIME_MAX TIME_MIN false no_comp NIL NIL NIL in
  Tree {[ NIL := nil; ROOT := root ]} ∅ 3.

Definition intervaltree_search_component (t : EIntervalTree) (searched_uid : list Z)
    (searched_rid : option (list Z)) : option loc :=
  id_node_hash t !! component_key searched_uid searched_rid.

(** A loop goes through each node at most twice. *)
Definition tree_fuel (t : EIntervalTree) : nat := S (S (2 * size (nodes t))).

(** [y] is spliced out; its only child [x] is the result. *)
Definition splice_out (y : loc) : M loc :=
  yl ← rd y n_left; x ← (if decide (yl = NIL) then rd y n_right else mret yl);
  yp ← rd y n_parent; wr x (with_parent yp);;
  xp ← rd x n_parent;
  (if decide (ROOT = xp) then wr ROOT (with_left x)
   else ypl ← rd yp n_left;
        if decide (y = ypl) then wr yp (with_left x) else wr yp (with_right x));;
  mret x.

(** [y] takes the place of [z]. *)
Definition take_place (y z : loc) : M unit :=
  wr y (with_max TIME_MIN);; wr y (with_min TIME_MAX);;
  zl ← rd z n_left; wr y (with_left zl);;
  zr ← rd z n_right; wr y (with_right zr);;
  zp ← rd z n_parent; wr y (with_parent zp);;
  wr zr (with_parent y);; wr zl (with_parent y);;
  zpl ← rd zp n_left;
  if decide (z = zpl) then wr zp (with_left y) else wr zp (with_right y).

(** The part of [e_intervaltree_remove] on the store, for the node [z] found. *)
Definition remove_node (fuel : nat) (z : loc) : M unit :=
  zl ← rd z n_left; zr ← rd z n_right;
  y ← (if bool_decide (zl = NIL) || bool_decide (zr = NIL) then mret z
       else intervaltree_node_next fuel z);
  x ← splice_out y;
  if decide (y = z) then
    xp ← rd x n_parent; fixup_min_max_fields fuel xp;;
    yred ← rd y n_red;
    if negb yred then intervaltree_fixup_deletion fuel x else mret tt
  else
    take_place y z;;
    xp ← rd x n_parent; fixup_min_max_fields fuel xp;;
    yred ← rd y n_red; zred ← rd z n_red; wr y (with_red zred);;
    if negb yred then intervaltree_fixup_deletion fuel x else mret tt.

Definition e_intervaltree_remove (t : EIntervalTree) (uid : list Z) (rid : option (list Z))
    : option (bool * EIntervalTree) :=
  match intervaltree_search_component t uid rid with
  | None => Some (false, t)
  | Some z =>
      if decide (z = NIL) then Some (false, t)
      else
        '(_, h) ← remove_node (tree_fuel t) z (nodes t);
        Some (true, Tree (delete z h) (delete (component_key uid rid) (id_node_hash t)) (fresh_loc t))
  end.

(** The part of [e_intervaltree_insert] on the store for the new node [x]. *)
Definition insert_node (fuel : nat) (x : loc) : M unit :=
  binary_tree_insert fuel x;;
  wr x (with_red true);;
  xp ← rd x n_parent; fixup_min_max_fields fuel xp;;
  insert_fixup fuel x;;
  top ← rd ROOT n_left; wr top (with_red false).

Definition e_intervaltree_insert (t : EIntervalTree) (start end_ : Z) (c : comp)
    : option (bool * EIntervalTree) :=
  '(_, t) ← e_intervaltree_remove t (c_uid c) (c_rid c);
  let x := fresh_loc t in
  (* g_new leaves the links and the colour unset *)
  let h := <[x := Node start end_ end_ start false c NIL NIL NIL]> (nodes t) in
  let t := Tree h (id_node_hash t) (Pos.succ x) in
  '(_, h) ← insert_node (tree_fuel t) x h;
  Some (true, Tree h (<[component_key (c_uid c) (c_rid c) := x]> (id_node_hash t)) (fresh_loc t)).

(** The list walked with [pos], from [pos] on, and the components found. *)
Fixpoint search_loop (fuel : nat) (pos : list loc) (start end_ : Z) (found : list comp)
    : M (list comp) :=
  match fuel with
  | O => fail
  | S fuel =>
      match pos with
      | [] => mret found
      | node :: pos =>
          if decide (node = NIL) then search_loop fuel pos start end_ found
          else
            n ← rd node id;
            let found := if compare_intervals (n_start n) (n_end n) start end_ =? 0
                         then found ++ [n_comp n] else found in
            l ← rd (n_left n) id;
            let pos := if compare_intervals (n_min l) (n_max l) start end_ =? 0
                       then pos ++ [n_left n] else pos in
            r ← rd (n_right n) id;
            let pos := if compare_intervals (n_min r) (n_max r) start end_ =? 0
                       then pos ++ [n_right n] else pos in
            search_loop fuel pos start end_ found
      end
  end.

Definition e_intervaltree_search (t : EIntervalTree) (start end_ : Z) : option (list comp) :=
  '(found, _) ← (top ← rd ROOT n_left; search_loop (tree_fuel t) [top] start end_ []) (nodes t);
  Some found.

(** The nodes freed by [e_intervaltree_destroy]. *)
Fixpoint destroy_loop (fuel : nat) (pos : list loc) : M unit :=
  match fuel with
  | O => fail
  | S fuel =>
      match pos with
      | [] => mret tt
      | node :: pos =>
          if decide (node = NIL) then destroy_loop fuel pos
          else
            n ← rd node id;
            (fun h => Some (tt, delete node h));;
            destroy_loop fuel (pos ++ [n_left n; n_right n])
      end
  end.

Definition e_intervaltree_destroy (t : EIntervalTree) : option heap :=
  '(_, h) ← (top ← rd ROOT n_left; destroy_loop (tree_fuel t) [top]) (nodes t);
  Some h.
