(* ===== verification/IntervalTreeRep.v ===== *)
(** * IntervalTreeRep: the trees that the store of IntervalTree holds

    A tree with its addresses, a context (the path from a subtree up to the
    sentinel [root]) and the relation [conf] between a store and a subtree in
    its context; the effect of the rotations on it.  The loops of the program
    are verified over these in IntervalTreeInsert, IntervalTreeRemove and
    IntervalTreeSearch. *)

From stdpp Require Import base list strings numbers gmap sorting.
From Stdlib Require Import ZArith Lia.
From S2P Require Import Prelude IntervalTree.

(** The fields of a node but its links. *)
Record val := Val { v_start : Z; v_end : Z; v_max : Z; v_min : Z; v_red : bool; v_comp : comp }.

Definition mk (v : val) (l r p : loc) : EIntervalNode :=
  Node (v_start v) (v_end v) (v_max v) (v_min v) (v_red v) (v_comp v) l r p.

Inductive tree := L | T (a : loc) (v : val) (l r : tree).

Definition addr (t : tree) : loc := match t with L => NIL | T a _ _ _ => a end.
Definition red (t : tree) : bool := match t with L => false | T _ v _ _ => v_red v end.
Definition max_of (t : tree) : Z := match t with L => TIME_MIN | T _ v _ _ => v_max v end.
Definition min_of (t : tree) : Z := match t with L => TIME_MAX | T _ v _ _ => v_min v end.

(** An interval stored, with the address of its node. *)
Record entry := Entry { e_loc : loc; e_start : Z; e_end : Z; e_comp : comp }.

Definition entry_of (a : loc) (v : val) : entry := Entry a (v_start v) (v_end v) (v_comp v).

Fixpoint elems (t : tree) : list entry :=
  match t with L => [] | T a v l r => elems l ++ entry_of a v :: elems r end.

(** A step from a subtree to its parent: the parent's node, whether the subtree
    is its left child, and the other child. *)
Record frame := Frame { f_left : bool; f_loc : loc; f_val : val; f_sib : tree }.

Definition plug1 (f : frame) (t : tree) : tree :=
  if f_left f then T (f_loc f) (f_val f) t (f_sib f) else T (f_loc f) (f_val f) (f_sib f) t.
Fixpoint plug (ctx : list frame) (t : tree) : tree :=
  match ctx with [] => t | f :: ctx => plug ctx (plug1 f t) end.

Definition celems1 (f : frame) (es : list entry) : list entry :=
  if f_left f then es ++ entry_of (f_loc f) (f_val f) :: elems (f_sib f)
  else elems (f_sib f) ++ entry_of (f_loc f) (f_val f) :: es.
Fixpoint celems (ctx : list frame) (es : list entry) : list entry :=
  match ctx with [] => es | f :: ctx => celems ctx (celems1 f es) end.

Definition caddr (ctx : list frame) : loc := match ctx with [] => ROOT | f :: _ => f_loc f end.

Fixpoint rep (h : heap) (p : loc) (t : tree) : Prop :=
  match t with
  | L => True
  | T a v l r => h !! a = Some (mk v (addr l) (addr r) p) /\ rep h a l /\ rep h a r
  end.

(** The sentinel [root] over the tree at [hole]. *)
Definition is_root (n : EIntervalNode) (hole : loc) : Prop :=
  n_left n = hole /\ n_right n = NIL /\ n_parent n = NIL /\ n_red n = false.

Fixpoint repc (h : heap) (ctx : list frame) (hole : loc) : Prop :=
  match ctx with
  | [] => exists n, h !! ROOT = Some n /\ is_root n hole
  | f :: ctx =>
      h !! f_loc f = Some (if f_left f then mk (f_val f) hole (addr (f_sib f)) (caddr ctx)
                           else mk (f_val f) (addr (f_sib f)) hole (caddr ctx)) /\
      rep h (f_loc f) (f_sib f) /\ repc h ctx (f_loc f)
  end.

(** The sentinel [nil], whose parent is whatever was stored last. *)
Definition nil_node (p : loc) : EIntervalNode :=
  Node TIME_MIN TIME_MIN TIME_MIN TIME_MAX false no_comp NIL NIL p.

Abbreviation locs es := (map e_loc es) (only parsing).

(** The store [h] holds the subtree [t] in the context [ctx], and the parent of
    [nil] is [np]. *)
Record conf (h : heap) (np : loc) (ctx : list frame) (t : tree) : Prop := {
  conf_rep : rep h (caddr ctx) t;
  conf_ctx : repc h ctx (addr t);
  conf_nil : h !! NIL = Some (nil_node np);
  conf_nodup : NoDup (NIL :: ROOT :: locs (celems ctx (elems t)))
}.

(** ** Contexts *)

Lemma elems_plug1 f t : elems (plug1 f t) = celems1 f (elems t).
Proof. by destruct f as [[] ? ? ?]. Qed.

Lemma elems_plug ctx t : elems (plug ctx t) = celems ctx (elems t).
Proof. revert t; induction ctx as [|f ctx IH]; intros t; [done|]. simpl. by rewrite IH, elems_plug1. Qed.

Lemma addr_plug1 f t : addr (plug1 f t) = f_loc f.
Proof. by destruct f as [[] ? ? ?]. Qed.

(** Entering and leaving a child. *)
Lemma conf_plug1 h np f ctx t : conf h np (f :: ctx) t <-> conf h np ctx (plug1 f t).
Proof.
  split; intros [R C N D].
  - destruct C as (F & S & C). destruct f as [[] a v s]; cbn in *; split; try done.
  - destruct f as [[] a v s]; destruct R as (F & R1 & R2); split; cbn in *; try done.
Qed.

(** The entries outside the subtree. *)
Lemma celems_perm ctx : exists out, forall es', celems ctx es' ≡ₚ es' ++ out.
Proof.
  induction ctx as [|f ctx [out IH]]; [exists []; intros; by rewrite app_nil_r|].
  exists (entry_of (f_loc f) (f_val f) :: elems (f_sib f) ++ out). intros es'. simpl. rewrite IH.
  destruct f as [[] a v s]; cbn [celems1 f_left f_loc f_val f_sib]; solve_Permutation.
Qed.

Definition couts (ctx : list frame) : list entry := celems ctx [].

Lemma celems_couts ctx es : celems ctx es ≡ₚ es ++ couts ctx.
Proof. unfold couts. destruct (celems_perm ctx) as [out H]. by rewrite (H es), (H []). Qed.

Lemma couts_cons f ctx : couts (f :: ctx) ≡ₚ entry_of (f_loc f) (f_val f) :: elems (f_sib f) ++ couts ctx.
Proof.
  unfold couts at 1. simpl. rewrite celems_couts. destruct f as [[] a v s]; cbn; solve_Permutation.
Qed.

(** ** Frame properties of the store *)

Lemma addr_elem t : addr t = NIL \/ addr t ∈ locs (elems t).
Proof.
  destruct t as [|a v l r]; [by left|right]. cbn. rewrite map_app, elem_of_app. right. left.
Qed.

Lemma rep_frame h h' p t : rep h p t -> (forall a, a ∈ locs (elems t) -> h' !! a = h !! a) -> rep h' p t.
Proof.
  revert p; induction t as [|a v l IHl r IHr]; intros p; [done|]. cbn. intros (E & Rl & Rr) F.
  rewrite map_app in F. cbn in F. split_and!.
  - rewrite F; [done|]. rewrite elem_of_app. right. left.
  - apply IHl; [done|]. intros b B. apply F. rewrite elem_of_app. by left.
  - apply IHr; [done|]. intros b B. apply F. rewrite elem_of_app. right. by right.
Qed.

(** The root of a subtree gets another parent. *)
Lemma rep_parent h h' p p' t : rep h p t -> NoDup (locs (elems t)) ->
  (forall a, a ∈ locs (elems t) -> a <> addr t -> h' !! a = h !! a) ->
  (forall n, t <> L -> h !! addr t = Some n -> h' !! addr t = Some (with_parent p' n)) -> rep h' p' t.
Proof.
  destruct t as [|a v l r]; [done|]. cbn. intros (E & Rl & Rr) D F P.
  rewrite map_app in *. cbn in *. apply NoDup_app in D as (D1 & D2 & D3). apply NoDup_cons in D3 as [D3 D4].
  split_and!.
  - by rewrite (P _ ltac:(done) E).
  - apply (rep_frame h); [done|]. intros b B. apply F; [rewrite elem_of_app; by left|].
    intros ->. destruct (D2 _ B). left.
  - apply (rep_frame h); [done|]. intros b B. apply F; [rewrite elem_of_app; right; by right|].
    by intros ->.
Qed.

Lemma caddr_outs ctx : caddr ctx ∈ ROOT :: locs (couts ctx).
Proof.
  destruct ctx as [|f ctx]; [left|right]. cbn [caddr]. rewrite couts_cons. left.
Qed.

Lemma repc_frame h h' ctx x : repc h ctx x ->
  (forall a, a ∈ ROOT :: locs (couts ctx) -> h' !! a = h !! a) -> repc h' ctx x.
Proof.
  revert x; induction ctx as [|f ctx IH]; intros x; cbn [repc].
  - intros (n & E & R) F. exists n. split; [|done]. rewrite F; [done|left].
  - intros (E & S & C) F. split_and!.
    + rewrite F; [done|]. right. rewrite couts_cons. left.
    + apply (rep_frame h); [done|]. intros a A. apply F. right. rewrite couts_cons. cbn. right.
      rewrite map_app, elem_of_app. by left.
    + apply IH; [done|]. intros a A. apply F. apply elem_of_cons in A as [->|A]; [left|right].
      rewrite couts_cons. cbn. right. rewrite map_app, elem_of_app. by right.
Qed.

(** The assignment to the child link of the parent of [x]. *)
Definition set_child (x y : loc) (n : EIntervalNode) : EIntervalNode :=
  if decide (x = n_left n) then with_left y n else with_right y n.

(** The context gets another subtree. *)
Lemma repc_hole h h' ctx x y n : repc h ctx x -> NoDup (ROOT :: locs (couts ctx)) ->
  x <> NIL -> x ∉ locs (couts ctx) ->
  (forall a, a ∈ ROOT :: locs (couts ctx) -> a <> caddr ctx -> h' !! a = h !! a) ->
  h !! caddr ctx = Some n -> h' !! caddr ctx = Some (set_child x y n) -> repc h' ctx y.
Proof.
  destruct ctx as [|f ctx]; cbn [repc caddr].
  - intros (n' & E & R) D N X F E1 E2. assert (n' = n) as -> by congruence.
    exists (set_child x y n). split; [done|]. unfold set_child. destruct R as (<- & R).
    by rewrite decide_True.
  - intros (E & S & C) D N X F E1 E2. rewrite E1 in E. injection E as ->.
    rewrite couts_cons in D, X. setoid_rewrite couts_cons in F. cbn in D, X, F. rewrite map_app in *.
    apply NoDup_cons in D as [D0 D]. apply NoDup_cons in D as [D1 D]. apply NoDup_app in D as (D2 & D3 & D4).
    assert (XS : x <> addr (f_sib f)).
    { intros ->. destruct (addr_elem (f_sib f)) as [|A]; [done|]. apply X. right. rewrite elem_of_app. by left. }
    split_and!.
    + rewrite E2. unfold set_child. destruct f as [[] a v s]; cbn in *; [by rewrite decide_True|].
      by rewrite decide_False.
    + apply (rep_frame h); [done|]. intros a A. apply F.
      * right. right. rewrite elem_of_app. by left.
      * intros ->. apply D1. rewrite elem_of_app. by left.
    + apply (repc_frame h); [done|]. intros a A. apply F.
      * apply elem_of_cons in A as [->|A]; [left|]. right. right. rewrite elem_of_app. by right.
      * intros ->. apply elem_of_cons in A as [A|A]; [|apply D1; rewrite elem_of_app; by right].
        apply D0. rewrite A. left.
Qed.

(** ** Running programs *)

Lemma run_rd {A B} (p : loc) (f : EIntervalNode -> A) (k : A -> M B) h n :
  h !! p = Some n -> (rd p f ≫= k) h = k (f n) h.
Proof. intros E. unfold mbind, M_bind, rd. by rewrite E. Qed.

Lemma run_wr {B} (p : loc) f (k : unit -> M B) h n :
  h !! p = Some n -> (wr p f ≫= k) h = k tt (<[p := f n]> h).
Proof. intros E. unfold mbind, M_bind, wr. by rewrite E. Qed.

Lemma run_wr_last (p : loc) f h n : h !! p = Some n -> wr p f h = Some (tt, <[p := f n]> h).
Proof. intros E. unfold wr. by rewrite E. Qed.

Lemma run_ret {A B} (a : A) (k : A -> M B) h : (mret a ≫= k) h = k a h.
Proof. done. Qed.

Lemma run_bind {A B} (m : M A) (k : A -> M B) h a h' : m h = Some (a, h') -> (m ≫= k) h = k a h'.
Proof. intros E. unfold mbind, M_bind. by rewrite E. Qed.

Lemma run_assoc {A B C} (m : M A) (f : A -> M B) (g : B -> M C) h :
  ((m ≫= f) ≫= g) h = (m ≫= (fun a => f a ≫= g)) h.
Proof. unfold mbind, M_bind. destruct (m h) as [[a h']|]; done. Qed.

Lemma run_child {B} x y p (k : unit -> M B) h n : h !! p = Some n ->
  ((if decide (x = n_left n) then wr p (with_left y) else wr p (with_right y)) ≫= k) h =
    k tt (<[p := set_child x y n]> h).
Proof. intros E. unfold set_child. case_decide; by rewrite (run_wr _ _ _ _ _ E). Qed.

(** Reads a cell of a store with updates. *)
Ltac cell := repeat first [rewrite lookup_insert_eq | rewrite lookup_insert_ne by congruence]; eassumption || reflexivity.

(** One statement of a program. *)
Ltac step := first
  [ rewrite run_assoc | rewrite run_ret | erewrite run_child by cell
  | erewrite run_rd by cell | erewrite run_wr by cell | erewrite run_wr_last by cell ];
  cbn [n_left n_right n_parent n_max n_min n_start n_end n_red n_comp mk with_left with_right with_parent
       with_max with_min with_red].

Definition re_min_max (v : val) (l r : tree) : val :=
  Val (v_start v) (v_end v) (Z.max (max_of l) (Z.max (v_end v) (max_of r))) (Z.min (min_of l) (v_start v))
    (v_red v) (v_comp v).

Definition rotl_val (vx vy : val) (a b c : tree) : val := re_min_max vy (T 1 (re_min_max vx a b) a b) c.

Lemma left_rotate_exec h x vx la y vy lb lc p np na nb nc :
  h !! x = Some (mk vx la y p) -> h !! y = Some (mk vy lb lc x) -> h !! p = Some np ->
  h !! la = Some na -> h !! lb = Some nb -> h !! lc = Some nc ->
  NoDup [x; y; p] -> la ∉ [x; y; p] -> lb ∉ [x; y; p] -> lc ∉ [x; y; p] ->
  (lb <> NIL -> la <> lb /\ lc <> lb) ->
  let vx' := Val (v_start vx) (v_end vx) (Z.max (n_max na) (Z.max (v_end vx) (n_max nb)))
    (Z.min (n_min na) (v_start vx)) (v_red vx) (v_comp vx) in
  let vy' := Val (v_start vy) (v_end vy) (Z.max (v_max vx') (Z.max (v_end vy) (n_max nc)))
    (Z.min (v_min vx') (v_start vy)) (v_red vy) (v_comp vy) in
  exists h', left_rotate x h = Some (tt, h') /\
    h' !! x = Some (mk vx' la lb y) /\ h' !! y = Some (mk vy' x lc p) /\
    h' !! p = Some (set_child x y np) /\
    (lb <> NIL -> h' !! lb = Some (with_parent x nb)) /\
    (forall q, q ∉ [x; y; p] -> (q <> lb \/ lb = NIL) -> h' !! q = h !! q).
Proof.
  intros X Y P A B C D NA NB NC BN vx' vy'.
  rewrite !NoDup_cons, !elem_of_cons in D. rewrite !elem_of_cons in NA, NB, NC.
  assert (x <> y /\ x <> p /\ y <> p) as (? & ? & ?) by set_solver.
  assert (la <> x /\ la <> y /\ la <> p) as (? & ? & ?) by set_solver.
  assert (lb <> x /\ lb <> y /\ lb <> p) as (? & ? & ?) by set_solver.
  assert (lc <> x /\ lc <> y /\ lc <> p) as (? & ? & ?) by set_solver.
  clear D NA NB NC.
  unfold left_rotate, update_max, update_min. step. step. step.
  destruct (decide (lb = NIL)) as [EB|EB].
  - repeat step. eexists. split; [done|]. split_and!; try cell; try done.
    intros q Q _. rewrite !elem_of_cons in Q. assert (q <> x /\ q <> y /\ q <> p) as (? & ? & ?) by set_solver.
    cell.
  - destruct (BN EB) as [? ?]. repeat step. eexists. split; [done|]. split_and!; try cell.
    intros q Q [Q'|]; [|done]. rewrite !elem_of_cons in Q.
    assert (q <> x /\ q <> y /\ q <> p) as (? & ? & ?) by set_solver. cell.
Qed.

Lemma right_rotate_exec h y vy x vx la lb lc p np na nb nc :
  h !! y = Some (mk vy x lc p) -> h !! x = Some (mk vx la lb y) -> h !! p = Some np ->
  h !! la = Some na -> h !! lb = Some nb -> h !! lc = Some nc ->
  NoDup [x; y; p] -> la ∉ [x; y; p] -> lb ∉ [x; y; p] -> lc ∉ [x; y; p] ->
  (lb <> NIL -> la <> lb /\ lc <> lb) ->
  let vy' := Val (v_start vy) (v_end vy) (Z.max (n_max nb) (Z.max (n_max nc) (v_end vy)))
    (Z.min (n_min nb) (v_start vy)) (v_red vy) (v_comp vy) in
  let vx' := Val (v_start vx) (v_end vx) (Z.max (n_max na) (Z.max (v_max vy') (v_end vx)))
    (Z.min (n_min na) (v_start vx)) (v_red vx) (v_comp vx) in
  exists h', right_rotate y h = Some (tt, h') /\
    h' !! y = Some (mk vy' lb lc x) /\ h' !! x = Some (mk vx' la y p) /\
    h' !! p = Some (set_child y x np) /\
    (lb <> NIL -> h' !! lb = Some (with_parent y nb)) /\
    (forall q, q ∉ [x; y; p] -> (q <> lb \/ lb = NIL) -> h' !! q = h !! q).
Proof.
  intros Y X P A B C D NA NB NC BN vy' vx'.
  rewrite !NoDup_cons, !elem_of_cons in D. rewrite !elem_of_cons in NA, NB, NC.
  assert (x <> y /\ x <> p /\ y <> p) as (? & ? & ?) by set_solver.
  assert (la <> x /\ la <> y /\ la <> p) as (? & ? & ?) by set_solver.
  assert (lb <> x /\ lb <> y /\ lb <> p) as (? & ? & ?) by set_solver.
  assert (lc <> x /\ lc <> y /\ lc <> p) as (? & ? & ?) by set_solver.
  clear D NA NB NC.
  unfold right_rotate, update_max, update_min. step. step. step.
  destruct (decide (lb = NIL)) as [EB|EB].
  - repeat step. eexists. split; [done|]. split_and!; try cell; try done.
    intros q Q _. rewrite !elem_of_cons in Q. assert (q <> x /\ q <> y /\ q <> p) as (? & ? & ?) by set_solver.
    cell.
  - destruct (BN EB) as [? ?]. repeat step. eexists. split; [done|]. split_and!; try cell.
    intros q Q [Q'|]; [|done]. rewrite !elem_of_cons in Q.
    assert (q <> x /\ q <> y /\ q <> p) as (? & ? & ?) by set_solver. cell.
Qed.
