(* ===== verification/IntervalTreeRotate.v ===== *)
(** * IntervalTreeRotate: rotations of the tree in the store

    [left_rotate] and [right_rotate] carry a store that holds a subtree in its
    context to one that holds the rotated subtree in the same context. *)

From stdpp Require Import base list strings numbers gmap sorting.
From Stdlib Require Import ZArith Lia.
From S2P Require Import Prelude IntervalTree IntervalTreeRep.

Lemma nodup_perm {A} (l k : list A) : l ≡ₚ k -> NoDup l -> NoDup k.
Proof. intros P. by rewrite P. Qed.


Lemma rep_addr h np p t : rep h p t -> h !! NIL = Some (nil_node np) ->
  exists n, h !! addr t = Some n /\ n_max n = max_of t /\ n_min n = min_of t /\ n_red n = red t.
Proof. destruct t as [|a v l r]; cbn; [by eauto|]. intros (E & _) _. by eauto. Qed.

Lemma repc_caddr h ctx x : repc h ctx x -> exists n, h !! caddr ctx = Some n.
Proof. destruct ctx as [|f ctx]; cbn; [intros (n & E & _)|intros (E & _)]; eauto. Qed.

Lemma conf_nodup' h np ctx t : conf h np ctx t ->
  NoDup (NIL :: (ROOT :: locs (couts ctx)) ++ locs (elems t)).
Proof.
  intros [_ _ _ D]. revert D. apply nodup_perm. rewrite celems_couts, map_app. cbn. solve_Permutation.
Qed.

Definition rotl (x : loc) (vx : val) (a : tree) (y : loc) (vy : val) (b c : tree) : tree :=
  let tx := T x (re_min_max vx a b) a b in T y (re_min_max vy tx c) tx c.
Definition rotr (y : loc) (vy : val) (x : loc) (vx : val) (a b c : tree) : tree :=
  let ty := T y (re_min_max vy b c) b c in T x (re_min_max vx a ty) a ty.

Lemma elems_rotl x vx a y vy b c : elems (rotl x vx a y vy b c) = elems (T x vx a (T y vy b c)).
Proof. cbn. by rewrite <- app_assoc. Qed.

Lemma elems_rotr y vy x vx a b c : elems (rotr y vy x vx a b c) = elems (T y vy (T x vx a b) c).
Proof. cbn. by rewrite <- app_assoc. Qed.

(** The addresses of two nodes [x] and [y], the three trees below them and the
    context around them are apart. *)
Lemma apart_nodup (x y : loc) (O A B C : list loc) : NoDup (NIL :: x :: y :: O ++ A ++ B ++ C) ->
  x <> NIL /\ y <> NIL /\ x <> y /\ NIL ∉ O /\ x ∉ O /\ y ∉ O /\
  (forall q, q ∈ A -> q <> NIL /\ q <> x /\ q <> y /\ q ∉ O /\ q ∉ B /\ q ∉ C) /\
  (forall q, q ∈ B -> q <> NIL /\ q <> x /\ q <> y /\ q ∉ O /\ q ∉ C) /\
  (forall q, q ∈ C -> q <> NIL /\ q <> x /\ q <> y /\ q ∉ O).
Proof.
  rewrite !NoDup_cons, !NoDup_app. intros (N & X & Y & DO & O1 & DA & A1 & DB & B1 & DC). set_solver.
Qed.

Lemma not_in3 {A} (q x y p : A) : q <> x -> q <> y -> q <> p -> q ∉ [x; y; p].
Proof. intros. rewrite !elem_of_cons. intros [?|[?|[?|I]]]; try done. inversion I. Qed.

Lemma nodup3 (x y p : loc) (O : list loc) : x <> y -> x ∉ O -> y ∉ O -> p ∈ O -> NoDup [x; y; p].
Proof.
  intros XY XO YO PO. rewrite !NoDup_cons, !elem_of_cons. split_and!; [| | |apply NoDup_nil_2].
  - intros [?|[->|I]]; [done|done|inversion I].
  - intros [->|I]; [done|inversion I].
  - intros I. inversion I.
Qed.

(** The root of a subtree is neither node and not in the context. *)
Lemma far (x y : loc) (O A : list loc) (q : loc) : NIL <> x -> NIL <> y -> NIL ∉ O -> q = NIL \/ q ∈ A ->
  (forall q, q ∈ A -> q <> NIL /\ q <> x /\ q <> y /\ q ∉ O) ->
  forall p, p ∈ O -> q ∉ [x; y; p].
Proof.
  intros NX NY NO [->|H] F p P; [|destruct (F q H) as (? & ? & ? & ?)]; apply not_in3; try done; congruence.
Qed.

Lemma nodup_couts h np ctx t : conf h np ctx t -> NoDup (ROOT :: locs (couts ctx)).
Proof. intros K. apply conf_nodup' in K. apply NoDup_cons in K as [_ K]. by apply NoDup_app in K as [? _]. Qed.

(** What a rotation that writes the nodes [x] and [y], the child link of the
    parent and the parent link of the middle subtree leaves of the rest. *)
Lemma rotate_rest (h h' : heap) np ctx x y a b c n hole new bp bp' nb :
  NoDup (NIL :: x :: y :: (ROOT :: locs (couts ctx)) ++ locs (elems a) ++ locs (elems b) ++ locs (elems c)) ->
  repc h ctx hole -> hole = x \/ hole = y -> h !! NIL = Some (nil_node np) ->
  rep h x a -> rep h bp b -> rep h y c ->
  h !! caddr ctx = Some n -> h' !! caddr ctx = Some (set_child hole new n) ->
  h !! addr b = Some nb -> (addr b <> NIL -> h' !! addr b = Some (with_parent bp' nb)) ->
  (forall q, q ∉ [x; y; caddr ctx] -> (q <> addr b \/ addr b = NIL) -> h' !! q = h !! q) ->
  rep h' x a /\ rep h' bp' b /\ rep h' y c /\ repc h' ctx new /\ h' !! NIL = Some (nil_node np).
Proof.
  intros D C HO N Ra Rb Rc P P' Eb B' F.
  pose proof (caddr_outs ctx) as PO. pose proof (addr_elem b) as Ab.
  destruct (apart_nodup _ _ _ _ _ _ D) as (NX & NY & XY & NO & XO & YO & A1 & B1 & C1).
  assert (CB : forall q, q ∉ locs (elems b) -> q <> addr b \/ addr b = NIL).
  { intros q Q. destruct Ab as [|Ab]; [by right|left]. by intros ->. }
  split_and!.
  - apply (rep_frame h); [done|]. intros q Q. destruct (A1 q Q) as (? & ? & ? & ? & ? & _).
    apply F; [apply not_in3; try done; congruence|by apply CB].
  - apply (rep_parent h h' bp); [done| | |].
    + apply NoDup_cons in D as [_ D]. apply NoDup_cons in D as [_ D]. apply NoDup_cons in D as [_ D].
      by do 2 apply NoDup_app in D as (_ & _ & D); apply NoDup_app in D as (D & _).
    + intros q Q NQ. destruct (B1 q Q) as (? & ? & ? & ? & _).
      apply F; [apply not_in3; try done; congruence|by left].
    + intros m NL E. destruct Ab as [Z0|Ab].
      * destruct b as [|q v l r]; [done|]. cbn in *. subst q. destruct (B1 NIL) as (? & _); [|done].
        rewrite map_app, elem_of_app. right. left.
      * assert (m = nb) as -> by congruence. apply B'. by destruct (B1 _ Ab) as (? & _).
  - apply (rep_frame h); [done|]. intros q Q. destruct (C1 q Q) as (? & ? & ? & ?).
    apply F; [apply not_in3; try done; congruence|]. apply CB. intros QB. by destruct (B1 q QB) as (_ & _ & _ & _ & ?).
  - apply (repc_hole h h' ctx hole new n C); try done.
    + do 3 apply NoDup_cons in D as [_ D]. by apply NoDup_app in D as [? _].
    + destruct HO; congruence.
    + intros I. destruct HO as [-> | ->]; [apply XO|apply YO]; by right.
    + intros q Q NQ. apply F; [apply not_in3; congruence|]. apply CB. intros QB.
      by destruct (B1 q QB) as (_ & _ & _ & ? & _).
  - rewrite F; [done|apply not_in3; congruence|]. destruct Ab as [|Ab]; [by right|left].
    by destruct (B1 _ Ab) as (? & _).
Qed.

Lemma left_rotate_conf h np ctx x vx a y vy b c : conf h np ctx (T x vx a (T y vy b c)) ->
  exists h', left_rotate x h = Some (tt, h') /\ conf h' np ctx (rotl x vx a y vy b c).
Proof.
  intros K. pose proof (conf_nodup' _ _ _ _ K) as D. destruct K as [R C N D0].
  destruct R as (X & Ra & Y & Rb & Rc). cbn [addr] in *.
  set (O := ROOT :: locs (couts ctx)) in *.
  assert (D' : NoDup (NIL :: x :: y :: O ++ locs (elems a) ++ locs (elems b) ++ locs (elems c))).
  { revert D. apply nodup_perm. cbn [elems]. rewrite !map_app. cbn. rewrite !map_app. cbn.
    unfold O. solve_Permutation. }
  pose proof (caddr_outs ctx) as PO. fold O in PO.
  destruct (apart_nodup _ _ _ _ _ _ D') as (NX & NY & XY & NO & XO & YO & A1 & B1 & C1).
  destruct (rep_addr _ _ _ _ Ra N) as (na & Ea & Ma & Mi & _).
  destruct (rep_addr _ _ _ _ Rb N) as (nb & Eb & Mb & _).
  destruct (rep_addr _ _ _ _ Rc N) as (nc & Ec & Mc & _).
  destruct (repc_caddr _ _ _ C) as (n & P).
  pose proof (addr_elem a) as Aa. pose proof (addr_elem b) as Ab. pose proof (addr_elem c) as Ac.
  assert (HA : addr a ∉ [x; y; caddr ctx]).
  { apply (far x y O (locs (elems a))); try done. intros q Q. by destruct (A1 q Q) as (? & ? & ? & ? & _). }
  assert (HB : addr b ∉ [x; y; caddr ctx]).
  { apply (far x y O (locs (elems b))); try done. intros q Q. by destruct (B1 q Q) as (? & ? & ? & ? & _). }
  assert (HC : addr c ∉ [x; y; caddr ctx]) by (by apply (far x y O (locs (elems c)))).
  destruct (left_rotate_exec h x vx (addr a) y vy (addr b) (addr c) (caddr ctx) n na nb nc)
    as (h' & E & X' & Y' & P' & B' & F); try done.
  - by apply (nodup3 x y _ O).
  - intros NB. destruct Ab as [|Ab]; [done|]. destruct (B1 _ Ab) as (_ & _ & _ & _ & BC). split.
    + intros EQ. destruct Aa as [|Aa]; [congruence|]. destruct (A1 _ Aa) as (_ & _ & _ & _ & ? & _). congruence.
    + intros EQ. destruct Ac as [|Ac]; congruence.
  - destruct (rotate_rest h h' np ctx x y a b c n x y y x nb) as (Ra' & Rb' & Rc' & C' & N'); auto.
    exists h'. split; [done|]. split; [|done|done|by rewrite elems_rotl].
    unfold rotl, re_min_max. cbn. rewrite Ma, Mb, Mc, Mi in *. by split_and!.
Qed.

Lemma right_rotate_conf h np ctx y vy x vx a b c : conf h np ctx (T y vy (T x vx a b) c) ->
  exists h', right_rotate y h = Some (tt, h') /\ conf h' np ctx (rotr y vy x vx a b c).
Proof.
  intros K. pose proof (conf_nodup' _ _ _ _ K) as D. destruct K as [R C N D0].
  destruct R as (Y & (X & Ra & Rb) & Rc). cbn [addr] in *.
  set (O := ROOT :: locs (couts ctx)) in *.
  assert (D' : NoDup (NIL :: x :: y :: O ++ locs (elems a) ++ locs (elems b) ++ locs (elems c))).
  { revert D. apply nodup_perm. cbn [elems]. rewrite !map_app. cbn.
    unfold O. solve_Permutation. }
  pose proof (caddr_outs ctx) as PO. fold O in PO.
  destruct (apart_nodup _ _ _ _ _ _ D') as (NX & NY & XY & NO & XO & YO & A1 & B1 & C1).
  destruct (rep_addr _ _ _ _ Ra N) as (na & Ea & Ma & Mi & _).
  destruct (rep_addr _ _ _ _ Rb N) as (nb & Eb & Mb & Mib & _).
  destruct (rep_addr _ _ _ _ Rc N) as (nc & Ec & Mc & _).
  destruct (repc_caddr _ _ _ C) as (n & P).
  pose proof (addr_elem a) as Aa. pose proof (addr_elem b) as Ab. pose proof (addr_elem c) as Ac.
  assert (HA : addr a ∉ [x; y; caddr ctx]).
  { apply (far x y O (locs (elems a))); try done. intros q Q. by destruct (A1 q Q) as (? & ? & ? & ? & _). }
  assert (HB : addr b ∉ [x; y; caddr ctx]).
  { apply (far x y O (locs (elems b))); try done. intros q Q. by destruct (B1 q Q) as (? & ? & ? & ? & _). }
  assert (HC : addr c ∉ [x; y; caddr ctx]) by (by apply (far x y O (locs (elems c)))).
  destruct (right_rotate_exec h y vy x vx (addr a) (addr b) (addr c) (caddr ctx) n na nb nc)
    as (h' & E & Y' & X' & P' & B' & F); try done.
  - by apply (nodup3 x y _ O).
  - intros NB. destruct Ab as [|Ab]; [done|]. destruct (B1 _ Ab) as (_ & _ & _ & _ & BC). split.
    + intros EQ. destruct Aa as [|Aa]; [congruence|]. destruct (A1 _ Aa) as (_ & _ & _ & _ & ? & _). congruence.
    + intros EQ. destruct Ac as [|Ac]; congruence.
  - destruct (rotate_rest h h' np ctx x y a b c n y x x y nb) as (Ra' & Rb' & Rc' & C' & N'); auto.
    exists h'. split; [done|]. split; [|done|done|by rewrite elems_rotr].
    rewrite Ma, Mb, Mc, Mi, Mib in *. unfold rotr.
    match type of Y' with _ = Some (mk ?v _ _ _) =>
      replace (re_min_max vy b c) with v by (unfold re_min_max; f_equal; lia) end.
    match type of X' with _ = Some (mk ?v _ _ _) =>
      match goal with |- context [T x ?w] => replace w with v by (unfold re_min_max; cbn; f_equal; lia) end end.
    cbn. by split_and!.
Qed.
