(* ===== verification/IntervalTreeSearch.v ===== *)
(** * IntervalTreeSearch: what a search finds

    The list walked by [e_intervaltree_search] skips a subtree by its bounds
    alone; with correct bounds it finds the overlapping intervals, each once. *)

From stdpp Require Import base list strings numbers gmap sorting.
From Stdlib Require Import ZArith Lia.
From S2P Require Import Prelude IntervalTree IntervalTreeRep IntervalTreeRotate.

(** The bounds of a node hold for the intervals below it. *)
Definition within (v : val) (e : entry) : Prop := e_end e <= v_max v /\ v_min v <= e_start e.

Fixpoint bounded (t : tree) : Prop :=
  match t with
  | L => True
  | T a v l r => Forall (within v) (elems (T a v l r)) /\ bounded l /\ bounded r
  end.

Definition overlapb (start end_ : Z) (e : entry) : bool :=
  compare_intervals (e_start e) (e_end e) start end_ =? 0.

Definition matches (start end_ : Z) (es : list entry) : list comp :=
  map e_comp (List.filter (overlapb start end_) es).

Lemma overlapb_spec start end_ e : overlapb start end_ e = true <-> start <= e_end e /\ e_start e <= end_.
Proof.
  unfold overlapb, compare_intervals.
  destruct (Z.ltb_spec (e_end e) start), (Z.ltb_spec end_ (e_start e)); split; intros H'; try done; lia.
Qed.

Lemma matches_app start end_ a b : matches start end_ (a ++ b) = matches start end_ a ++ matches start end_ b.
Proof. unfold matches. by rewrite List.filter_app, map_app. Qed.

Lemma matches_perm start end_ a b : a ≡ₚ b -> matches start end_ a ≡ₚ matches start end_ b.
Proof.
  intros P. unfold matches. apply Permutation_map. induction P; cbn.
  - done.
  - destruct (overlapb start end_ x); [by f_equiv|done].
  - destruct (overlapb start end_ x), (overlapb start end_ y); done || apply Permutation_swap.
  - by etransitivity.
Qed.

(** A subtree out of the bounds has no match. *)
Lemma matches_pruned start end_ t : bounded t ->
  (compare_intervals (min_of t) (max_of t) start end_ =? 0) = false -> matches start end_ (elems t) = [].
Proof.
  destruct t as [|a v l r]; [done|]. intros [W _] C. unfold matches.
  assert (N : forall e, e ∈ elems (T a v l r) -> overlapb start end_ e = false).
  { intros e E. rewrite Forall_forall in W. destruct (W e E) as [W1 W2].
    destruct (overlapb start end_ e) eqn:O; [|done]. apply overlapb_spec in O.
    unfold compare_intervals in C. cbn [min_of max_of] in C.
    destruct (Z.ltb_spec (v_max v) start), (Z.ltb_spec end_ (v_min v)); try done; lia. }
  clear W C. induction (elems (T a v l r)) as [|e es IH]; [done|]. cbn.
  rewrite (N e) by left. apply IH. intros e' E'. apply N. by right.
Qed.

Fixpoint tsize (t : tree) : nat := match t with L => 0 | T _ _ l r => S (tsize l + tsize r) end.

Lemma tsize_elems t : tsize t = length (elems t).
Proof. induction t as [|a v l IHl r IHr]; [done|]. cbn. rewrite length_app. simpl. lia. Qed.

Definition work (ts : list tree) : nat := sum_list_with (fun t => S (2 * tsize t)) ts.

Lemma work_cons t ts : work (t :: ts) = (S (2 * tsize t) + work ts)%nat.
Proof. done. Qed.

Lemma work_app ts us : work (ts ++ us) = (work ts + work us)%nat.
Proof. induction ts as [|t ts IH]; [done|]. cbn [app]. rewrite !work_cons. lia. Qed.

(** A child is put in the list when its bounds allow a match. *)
Definition pushed (start end_ : Z) (t : tree) : list tree :=
  if compare_intervals (min_of t) (max_of t) start end_ =? 0 then [t] else [].

Lemma matches_pushed start end_ t : bounded t ->
  matches start end_ (concat (map elems (pushed start end_ t))) = matches start end_ (elems t).
Proof.
  intros B. unfold pushed. destruct (_ =? 0) eqn:C; cbn; [by rewrite app_nil_r|].
  by rewrite (matches_pruned _ _ _ B C).
Qed.

Lemma Forall_if {A} (P : A -> Prop) (b : bool) x : P x -> Forall P (if b then [x] else []).
Proof. intros H. destruct b; [by constructor; [|apply Forall_nil_2]|apply Forall_nil_2]. Qed.

Lemma work_pushed start end_ t : (work (pushed start end_ t) <= S (2 * tsize t))%nat.
Proof. unfold pushed. destruct (_ =? 0); rewrite ?work_cons; cbn; lia. Qed.

Lemma search_loop_spec fuel ts start end_ found (h : heap) np :
  h !! NIL = Some (nil_node np) ->
  Forall (fun t => (exists p, rep h p t) /\ bounded t /\ NIL ∉ locs (elems t)) ts ->
  (work ts < fuel)%nat ->
  exists out, search_loop fuel (map addr ts) start end_ found h = Some (out, h) /\
    out ≡ₚ found ++ matches start end_ (concat (map elems ts)).
Proof.
  intros N. revert ts found; induction fuel as [|fuel IH]; intros ts found F W; [lia|].
  destruct ts as [|t ts]; cbn [map search_loop].
  { exists found. split; [done|]. by rewrite app_nil_r. }
  apply Forall_cons_iff in F as ((( p & R) & B & NI) & F). destruct t as [|a v l r]; cbn [addr].
  - destruct (IH ts found F) as (out & E & P); [rewrite work_cons in W; lia|].
    exists out. by rewrite decide_True.
  - destruct R as (E & Rl & Rr). destruct B as (Wv & Bl & Br). cbn in NI. rewrite map_app, elem_of_app in NI.
    cbn in NI. rewrite elem_of_cons in NI.
    rewrite decide_False by (intros ->; apply NI; auto).
    erewrite run_rd by eassumption. cbn [id n_start n_end n_comp n_left n_right mk].
    destruct (rep_addr _ _ _ _ Rl N) as (nl & El & Ml & Il & _).
    destruct (rep_addr _ _ _ _ Rr N) as (nr & Er & Mr & Ir & _).
    erewrite run_rd by eassumption. erewrite run_rd by eassumption.
    cbn [id]. rewrite Ml, Il, Mr, Ir.
    set (ql := pushed start end_ l). set (qr := pushed start end_ r).
    assert (Q : (let pos := if compare_intervals (min_of l) (max_of l) start end_ =? 0
        then map addr ts ++ [addr l] else map addr ts in
        if compare_intervals (min_of r) (max_of r) start end_ =? 0 then pos ++ [addr r] else pos) =
        map addr (ts ++ ql ++ qr)).
    { unfold ql, qr, pushed.
      destruct (_ =? 0), (_ =? 0); rewrite ?map_app; cbn; by rewrite ?app_nil_r, <- ?app_assoc. }
    cbv zeta in *. rewrite Q.
    set (found' := if _ =? 0 then found ++ [v_comp v] else found).
    assert (F' : Forall (fun t => (exists p, rep h p t) /\ bounded t /\ NIL ∉ locs (elems t)) (ts ++ ql ++ qr)).
    { rewrite !Forall_app. split_and!; [done| |]; apply Forall_if; split_and!; eauto; intros I; apply NI; auto. }
    assert (W' : (work (ts ++ ql ++ qr) < fuel)%nat).
    { rewrite !work_app. rewrite work_cons in W. cbn [tsize] in W.
      pose proof (work_pushed start end_ l). pose proof (work_pushed start end_ r). unfold ql, qr. lia. }
    destruct (IH (ts ++ ql ++ qr) found' F' W') as (out & Eo & Po). exists out. split; [done|].
    rewrite Po. cbn [map concat elems]. rewrite !map_app, !concat_app, !matches_app.
    unfold ql, qr. rewrite !matches_pushed by done.
    change (entry_of a v :: elems r) with ([entry_of a v] ++ elems r). rewrite matches_app.
    assert (EF : found' = found ++ matches start end_ [entry_of a v]).
    { unfold found', matches, overlapb. cbn [List.filter entry_of e_start e_end].
      destruct (compare_intervals (v_start v) (v_end v) start end_ =? 0); cbn; [done|by rewrite app_nil_r]. }
    rewrite EF. solve_Permutation.
Qed.
