(* ===== verification/IntervalTreeZip.v ===== *)
(** * IntervalTreeZip: invariants of the interval tree and their contexts

    Order, bounds, colours and black heights of a tree, each with its counterpart
    for a context, so that the loops that walk towards the root carry them; and
    the reads and writes of one node in its context. *)

From stdpp Require Import base list strings numbers gmap sorting.
From Stdlib Require Import ZArith Lia.
From S2P Require Import Prelude IntervalTree IntervalTreeRep IntervalTreeRotate IntervalTreeSearch.

(** ** Moving the focus, reading and writing a node *)

Lemma conf_up h np f ctx t : conf h np (f :: ctx) t -> conf h np ctx (plug1 f t).
Proof. apply (proj1 (conf_plug1 h np f ctx t)). Qed.

Lemma conf_up_left h np ctx a v l r : conf h np (Frame true a v r :: ctx) l -> conf h np ctx (T a v l r).
Proof. apply (proj1 (conf_plug1 h np (Frame true a v r) ctx l)). Qed.

Lemma conf_up_right h np ctx a v l r : conf h np (Frame false a v l :: ctx) r -> conf h np ctx (T a v l r).
Proof. apply (proj1 (conf_plug1 h np (Frame false a v l) ctx r)). Qed.

Lemma conf_left h np ctx a v l r : conf h np ctx (T a v l r) -> conf h np (Frame true a v r :: ctx) l.
Proof. apply (proj2 (conf_plug1 h np (Frame true a v r) ctx l)). Qed.

Lemma conf_right h np ctx a v l r : conf h np ctx (T a v l r) -> conf h np (Frame false a v l :: ctx) r.
Proof. apply (proj2 (conf_plug1 h np (Frame false a v l) ctx r)). Qed.

Lemma conf_node h np ctx a v l r : conf h np ctx (T a v l r) ->
  h !! a = Some (mk v (addr l) (addr r) (caddr ctx)).
Proof. intros [(E & _) _ _ _]. done. Qed.

Lemma conf_parent h np f ctx t : conf h np (f :: ctx) t ->
  h !! f_loc f = Some (if f_left f then mk (f_val f) (addr t) (addr (f_sib f)) (caddr ctx)
                       else mk (f_val f) (addr (f_sib f)) (addr t) (caddr ctx)).
Proof. intros [_ (E & _) _ _]. done. Qed.

Lemma conf_addr h np ctx t : conf h np ctx t -> exists n, h !! addr t = Some n /\
  n_max n = max_of t /\ n_min n = min_of t /\ n_red n = red t.
Proof. intros [R _ N _]. by eapply rep_addr. Qed.

Lemma conf_root h np t : conf h np [] t -> exists n, h !! ROOT = Some n /\ is_root n (addr t).
Proof. by intros [_ C _ _]. Qed.

Lemma conf_locs h np ctx a v l r : conf h np ctx (T a v l r) -> a <> NIL /\ a <> ROOT /\ a <> caddr ctx /\
  a <> addr l /\ a <> addr r /\ a ∉ locs (elems l) /\ a ∉ locs (elems r) /\ a ∉ locs (couts ctx).
Proof.
  intros K. apply conf_nodup' in K. pose proof (caddr_outs ctx) as PO.
  assert (D : NoDup (NIL :: a :: (ROOT :: locs (couts ctx)) ++ locs (elems l) ++ locs (elems r))).
  { revert K. apply nodup_perm. cbn [elems]. rewrite !map_app. cbn. solve_Permutation. }
  apply NoDup_cons in D as [NI D]. apply NoDup_cons in D as [AI D].
  rewrite !elem_of_app in AI. assert (NA : a <> NIL) by (intros ->; apply NI; left).
  split_and!; try (intros I; apply AI; auto; fail); try done.
  - intros ->. apply AI. left. left.
  - intros ->. apply AI. by left.
  - intros ->. destruct (addr_elem l); [done|]. apply AI; auto.
  - intros ->. destruct (addr_elem r); [done|]. apply AI; auto.
  - intros I. apply AI. left. by right.
Qed.

(** A write that keeps the links and the entry of the node in focus. *)
Lemma conf_set h np ctx a v v' l r : conf h np ctx (T a v l r) -> entry_of a v' = entry_of a v ->
  conf (<[a := mk v' (addr l) (addr r) (caddr ctx)]> h) np ctx (T a v' l r).
Proof.
  intros K E. destruct (conf_locs _ _ _ _ _ _ _ K) as (N1 & N2 & N3 & _ & _ & N4 & N5 & N6).
  destruct K as [(A & Rl & Rr) C N D]. split.
  - cbn. rewrite lookup_insert_eq. split_and!; [done| |].
    + apply (rep_frame h); [done|]. intros b B. rewrite lookup_insert_ne; [done|]. by intros ->.
    + apply (rep_frame h); [done|]. intros b B. rewrite lookup_insert_ne; [done|]. by intros ->.
  - apply (repc_frame h); [done|]. intros b B. rewrite lookup_insert_ne; [done|]. intros ->.
    apply elem_of_cons in B as [B|B]; [done|by apply N6].
  - by rewrite lookup_insert_ne.
  - cbn in *. by rewrite E.
Qed.

Lemma conf_wr {B} h np ctx a v v' l r f (k : unit -> M B) : conf h np ctx (T a v l r) ->
  (forall l r p, f (mk v l r p) = mk v' l r p) -> entry_of a v' = entry_of a v ->
  exists h', conf h' np ctx (T a v' l r) /\ (wr a f ≫= k) h = k tt h'.
Proof.
  intros K F E. exists (<[a := mk v' (addr l) (addr r) (caddr ctx)]> h).
  split; [by apply (conf_set _ _ _ _ v)|].
  rewrite (run_wr _ _ _ _ _ (conf_node _ _ _ _ _ _ _ K)). by rewrite F.
Qed.

(** ** Invariants *)

Definition starts_before (a b : entry) : Prop := e_start a <= e_start b.
Definition ordered (es : list entry) : Prop := StronglySorted starts_before es.

Fixpoint bht (t : tree) (n : nat) : Prop :=
  match t with
  | L => n = 0%nat
  | T _ v l r => if v_red v then bht l n /\ bht r n else exists m, n = S m /\ bht l m /\ bht r m
  end.

Fixpoint norr (t : tree) : Prop :=
  match t with
  | L => True
  | T _ v l r => (v_red v = true -> red l = false /\ red r = false) /\ norr l /\ norr r
  end.

Fixpoint cbounded (ctx : list frame) (es : list entry) : Prop :=
  match ctx with
  | [] => True
  | f :: ctx => Forall (within (f_val f)) (celems1 f es) /\ bounded (f_sib f) /\ cbounded ctx (celems1 f es)
  end.

(** [n] is the black height expected of the subtree. *)
Fixpoint cbh (ctx : list frame) (n : nat) : Prop :=
  match ctx with
  | [] => True
  | f :: ctx => bht (f_sib f) n /\ cbh ctx (if v_red (f_val f) then n else S n)
  end.

(** [c] is the colour of the subtree. *)
Fixpoint cnorr (ctx : list frame) (c : bool) : Prop :=
  match ctx with
  | [] => True
  | f :: ctx => (v_red (f_val f) = true -> c = false /\ red (f_sib f) = false) /\ norr (f_sib f) /\
      cnorr ctx (v_red (f_val f))
  end.

Lemma bounded_plug ctx t : bounded t -> cbounded ctx (elems t) -> bounded (plug ctx t).
Proof.
  revert t; induction ctx as [|f ctx IH]; intros t; [done|]. cbn. intros B (W & S & C).
  apply IH; [|by rewrite elems_plug1]. destruct f as [[] a v s]; cbn in *; auto.
Qed.

Lemma norr_plug ctx t : norr t -> cnorr ctx (red t) -> norr (plug ctx t).
Proof.
  revert t; induction ctx as [|f ctx IH]; intros t; [done|]. cbn. intros N (C & S & CC).
  apply IH; destruct f as [[] a v s]; cbn in *; naive_solver.
Qed.

Lemma bht_plug ctx t n : bht t n -> cbh ctx n -> exists m, bht (plug ctx t) m.
Proof.
  revert t n; induction ctx as [|f ctx IH]; intros t n; [by eauto|]. cbn. intros B (Bs & C).
  apply (IH _ (if v_red (f_val f) then n else S n)); [|done].
  destruct f as [[] a v s]; cbn in *; destruct (v_red v); eauto.
Qed.

(** An entry of a bounded tree is within its root's bounds. *)
Lemma bounded_elem t e : bounded t -> e ∈ elems t -> e_end e <= max_of t /\ min_of t <= e_start e.
Proof.
  destruct t as [|a v l r]; [intros _ I; inversion I|]. intros [W _] I.
  rewrite Forall_forall in W. apply (W e I).
Qed.

Lemma ordered_app a b : ordered (a ++ b) <-> ordered a /\ ordered b /\
  forall x y, x ∈ a -> y ∈ b -> e_start x <= e_start y.
Proof.
  unfold ordered. induction a as [|x a IH]; cbn.
  - split; [|tauto]. intros H. split_and!; [constructor|done|]. intros x y I. inversion I.
  - split.
    + intros H. apply StronglySorted_inv in H as [S F]. apply IH in S as (S1 & S2 & S3).
      rewrite Forall_forall in F. split_and!; [|done|].
      * constructor; [done|]. rewrite Forall_forall. intros y I. apply F. rewrite elem_of_app. by left.
      * intros y z [->|I]%elem_of_cons J; [|by apply S3]. apply F. rewrite elem_of_app. by right.
    + intros (S1 & S2 & S3). apply StronglySorted_inv in S1 as [S F]. constructor.
      * apply IH. split_and!; try done. intros y z I J. apply S3; [by right|done].
      * rewrite Forall_forall in *. intros y [I|I]%elem_of_app; [by apply F|]. apply S3; [left|done].
Qed.

(** The bounds recomputed at a node of an ordered tree are right. *)
Lemma bounded_re a v l r : bounded l -> bounded r -> ordered (elems (T a v l r)) ->
  bounded (T a (re_min_max v l r) l r).
Proof.
  intros Bl Br O. cbn. split_and!; [|done|done]. cbn [elems] in O.
  apply ordered_app in O as (_ & O & X). apply StronglySorted_inv in O as [_ O].
  rewrite Forall_forall in *. intros e. rewrite elem_of_app, elem_of_cons.
  unfold within, re_min_max; cbn. intros [I|[->|I]].
  - destruct (bounded_elem _ _ Bl I). lia.
  - cbn. lia.
  - destruct (bounded_elem _ _ Br I). specialize (O e I). unfold starts_before in O. cbn in O. lia.
Qed.

(** The entries before and after a subtree. *)
Fixpoint cpre (ctx : list frame) : list entry :=
  match ctx with
  | [] => []
  | f :: ctx => cpre ctx ++ if f_left f then [] else elems (f_sib f) ++ [entry_of (f_loc f) (f_val f)]
  end.
Fixpoint cpost (ctx : list frame) : list entry :=
  match ctx with
  | [] => []
  | f :: ctx => (if f_left f then entry_of (f_loc f) (f_val f) :: elems (f_sib f) else []) ++ cpost ctx
  end.

Lemma celems_split ctx es : celems ctx es = cpre ctx ++ es ++ cpost ctx.
Proof.
  revert es; induction ctx as [|f ctx IH]; intros es; cbn; [by rewrite app_nil_r|].
  rewrite IH. destruct f as [[] a v s]; cbn; rewrite <- ?app_assoc; cbn; by rewrite <- ?app_assoc.
Qed.

Lemma ordered_sub ctx es : ordered (celems ctx es) -> ordered es.
Proof. rewrite celems_split. intros (_ & O & _)%ordered_app. by apply ordered_app in O as (O & _). Qed.
