(* ===== verification/IntervalTreeInsert.v ===== *)
(** * IntervalTreeInsert: insertion into the interval tree

    The loop that restores the colours after an insertion, the descent to the
    leaf, the recomputation of the bounds, and together the effect of
    [insert_node]. *)

From stdpp Require Import base list strings numbers gmap sorting.
From Stdlib Require Import ZArith Lia.
From S2P Require Import Prelude IntervalTree IntervalTreeRep IntervalTreeRotate IntervalTreeSearch.
From S2P Require Import IntervalTreeZip.

Lemma conf_plug h np ctx t : conf h np ctx t <-> conf h np [] (plug ctx t).
Proof. revert t; induction ctx as [|f ctx IH]; intros t; [done|]. cbn. by rewrite conf_plug1. Qed.

(** A store that holds a whole tree with the invariants but the root's colour. *)
Record holds (h : heap) (np : loc) (tr : tree) (es : list entry) : Prop := {
  holds_conf : conf h np [] tr;
  holds_elems : elems tr = es;
  holds_norr : norr tr;
  holds_bht : exists n, bht tr n;
  holds_bounded : bounded tr
}.

(** A subtree in its context with the invariants; [c] is the colour the context
    may take the subtree to have and [n] the black height it expects. *)
Record zip (ctx : list frame) (t : tree) (c : bool) (n : nat) : Prop := {
  zip_norr : norr t;
  zip_cnorr : cnorr ctx c;
  zip_bht : bht t n;
  zip_cbh : cbh ctx n;
  zip_bounded : bounded t;
  zip_cbounded : cbounded ctx (elems t);
  zip_ordered : ordered (celems ctx (elems t))
}.

Lemma holds_plug h np ctx t n : conf h np ctx t -> zip ctx t (red t) n ->
  holds h np (plug ctx t) (celems ctx (elems t)).
Proof.
  intros K [N CN B CB Bd CBd O]. split.
  - exact (proj1 (conf_plug _ _ _ _) K).
  - apply elems_plug.
  - exact (norr_plug _ _ N CN).
  - exact (bht_plug _ _ _ B CB).
  - by apply bounded_plug.
Qed.

Definition paint (c : bool) (v : val) : val :=
  Val (v_start v) (v_end v) (v_max v) (v_min v) c (v_comp v).

(** The last node below the sentinel is black. *)
Fixpoint ctop (ctx : list frame) : Prop :=
  match ctx with
  | [] => True
  | f :: ctx' => match ctx' with [] => v_red (f_val f) = false | _ => ctop ctx' end
  end.

(** The parent is black or the sentinel: the loop ends. *)
Lemma insert_fixup_done fuel h np ctx x v l r : conf h np ctx (T x v l r) ->
  match ctx with [] => True | f :: _ => v_red (f_val f) = false end ->
  insert_fixup (S fuel) x h = Some (tt, h).
Proof.
  intros K P. cbn [insert_fixup]. rewrite (run_rd _ _ _ _ _ (conf_node _ _ _ _ _ _ _ K)).
  cbn [n_parent mk]. destruct ctx as [|f ctx].
  - destruct (repc_caddr _ _ _ (conf_ctx _ _ _ _ K)) as (n & E). destruct (conf_ctx _ _ _ _ K) as (n' & E' & _ & _ & _ & R).
    cbn [caddr] in *. by rewrite (run_rd _ _ _ _ _ E'), R.
  - cbn [caddr]. rewrite (run_rd _ _ _ _ _ (conf_parent _ _ _ _ _ K)).
    destruct f as [[] a w s]; cbn in *; by rewrite P.
Qed.

(** The end of a round, for an outer grandchild. *)
Definition rotate_end_left (fuel : nat) (x : loc) : M unit :=
  p ← rd x n_parent; wr p (with_red false);;
  g ← rd p n_parent; wr g (with_red true);;
  right_rotate g;;
  insert_fixup fuel x.

Lemma rotate_end_left_spec fuel h np ctx p vp s g vg u x v l r n :
  let t := T x v l r in
  conf h np (Frame true p vp s :: Frame true g vg u :: ctx) t ->
  zip (Frame true p vp s :: Frame true g vg u :: ctx) t false n ->
  v_red v = true -> v_red vp = true -> red u = false ->
  exists h' tr, rotate_end_left (S fuel) x h = Some (tt, h') /\
    holds h' np tr (celems (Frame true p vp s :: Frame true g vg u :: ctx) (elems t)).
Proof.
  intros t K [N (CN1 & CN2 & CN3 & CN4 & CN5) B (CB1 & CB2 & CB3) Bd (CBd1 & CBd2 & CBd3 & CBd4 & CBd5) O] RX RP RU.
  cbn [f_val f_sib f_left f_loc] in *. rewrite RP in *. destruct (CN1 eq_refl) as [_ RS].
  assert (RG : v_red vg = false) by (destruct (v_red vg); [by destruct CN3|done]). rewrite RG in *.
  unfold rotate_end_left. rewrite (run_rd _ _ _ _ _ (conf_node _ _ _ _ _ _ _ K)). cbn [n_parent mk caddr f_loc].
  apply conf_up_left in K.
  destruct (conf_wr h np _ p vp (paint false vp) t s (with_red false)
    (fun _ => g ← rd p n_parent; wr g (with_red true);; right_rotate g;; insert_fixup (S fuel) x) K)
    as (h1 & K1 & ->); [done|done|].
  rewrite (run_rd _ _ _ _ _ (conf_node _ _ _ _ _ _ _ K1)). cbn [n_parent mk caddr f_loc].
  apply conf_up_left in K1.
  destruct (conf_wr h1 np _ g vg (paint true vg) (T p (paint false vp) t s) u (with_red true)
    (fun _ => right_rotate g;; insert_fixup (S fuel) x) K1) as (h2 & K2 & ->); [done|done|].
  destruct (right_rotate_conf _ _ _ _ _ _ _ _ _ _ K2) as (h3 & E3 & K3). rewrite (run_bind _ _ _ _ _ E3).
  unfold rotr in K3. set (ty := T g _ s u) in K3. set (tx := T p _ t ty) in K3.
  exists h3, (plug ctx tx). rewrite (insert_fixup_done fuel h3 np (Frame true p (re_min_max (paint false vp) t ty) ty :: ctx) x v l r);
    [|by apply conf_left|done].
  split; [done|]. cbn [celems celems1 f_left f_loc f_val f_sib] in *.
  assert (EE : elems tx = (elems t ++ entry_of p vp :: elems s) ++ entry_of g vg :: elems u).
  { cbn. by rewrite <- !app_assoc. }
  pose proof (ordered_sub _ _ O) as O'. rewrite <- EE in *.
  assert (Bty : bounded ty).
  { apply bounded_re; [done|done|]. change (elems tx) with (elems t ++ entry_of p vp :: elems ty) in O'.
    apply ordered_app in O' as (_ & O' & _). by apply StronglySorted_inv in O' as [O' _]. }
  apply (holds_plug _ _ _ _ (S n)); [done|]. split; try done.
  - by exists n.
  - by apply bounded_re.
Qed.

Definition rotate_end_right (fuel : nat) (x : loc) : M unit :=
  p ← rd x n_parent; wr p (with_red false);;
  g ← rd p n_parent; wr g (with_red true);;
  left_rotate g;;
  insert_fixup fuel x.

Lemma rotate_end_right_spec fuel h np ctx p vp s g vg u x v l r n :
  let t := T x v l r in
  conf h np (Frame false p vp s :: Frame false g vg u :: ctx) t ->
  zip (Frame false p vp s :: Frame false g vg u :: ctx) t false n ->
  v_red v = true -> v_red vp = true -> red u = false ->
  exists h' tr, rotate_end_right (S fuel) x h = Some (tt, h') /\
    holds h' np tr (celems (Frame false p vp s :: Frame false g vg u :: ctx) (elems t)).
Proof.
  intros t K [N (CN1 & CN2 & CN3 & CN4 & CN5) B (CB1 & CB2 & CB3) Bd (CBd1 & CBd2 & CBd3 & CBd4 & CBd5) O] RX RP RU.
  cbn [f_val f_sib f_left f_loc] in *. rewrite RP in *. destruct (CN1 eq_refl) as [_ RS].
  assert (RG : v_red vg = false) by (destruct (v_red vg); [by destruct CN3|done]). rewrite RG in *.
  unfold rotate_end_right. rewrite (run_rd _ _ _ _ _ (conf_node _ _ _ _ _ _ _ K)). cbn [n_parent mk caddr f_loc].
  apply conf_up_right in K.
  destruct (conf_wr h np _ p vp (paint false vp) s t (with_red false)
    (fun _ => g ← rd p n_parent; wr g (with_red true);; left_rotate g;; insert_fixup (S fuel) x) K)
    as (h1 & K1 & ->); [done|done|].
  rewrite (run_rd _ _ _ _ _ (conf_node _ _ _ _ _ _ _ K1)). cbn [n_parent mk caddr f_loc].
  apply conf_up_right in K1.
  destruct (conf_wr h1 np _ g vg (paint true vg) u (T p (paint false vp) s t) (with_red true)
    (fun _ => left_rotate g;; insert_fixup (S fuel) x) K1) as (h2 & K2 & ->); [done|done|].
  destruct (left_rotate_conf _ _ _ _ _ _ _ _ _ _ K2) as (h3 & E3 & K3). rewrite (run_bind _ _ _ _ _ E3).
  unfold rotl in K3. set (ty := T g _ u s) in K3. set (tx := T p _ ty t) in K3.
  exists h3, (plug ctx tx). rewrite (insert_fixup_done fuel h3 np (Frame false p (re_min_max (paint false vp) ty t) ty :: ctx) x v l r);
    [|by apply conf_right|done].
  split; [done|]. cbn [celems celems1 f_left f_loc f_val f_sib] in *.
  assert (EE : elems tx = elems u ++ entry_of g vg :: elems s ++ entry_of p vp :: elems t).
  { cbn. by rewrite <- !app_assoc. }
  pose proof (ordered_sub _ _ O) as O'. rewrite <- EE in *.
  assert (Bty : bounded ty).
  { apply bounded_re; [done|done|]. change (elems tx) with (elems ty ++ entry_of p vp :: elems t) in O'.
    by apply ordered_app in O' as (O' & _ & _). }
  apply (holds_plug _ _ _ _ (S n)); [done|]. split; try done.
  - by exists n.
  - by apply bounded_re.
Qed.

(** ** Painting a parent and a sibling *)

Definition paint_t (c : bool) (t : tree) : tree :=
  match t with L => L | T a v l r => T a (paint c v) l r end.
Definition paint_f (c : bool) (f : frame) : frame :=
  Frame (f_left f) (f_loc f) (paint c (f_val f)) (f_sib f).
Definition paint_s (c : bool) (f : frame) : frame :=
  Frame (f_left f) (f_loc f) (f_val f) (paint_t c (f_sib f)).

Lemma conf_wr_frame {B} h np f ctx t c (k : unit -> M B) : conf h np (f :: ctx) t ->
  exists h', conf h' np (paint_f c f :: ctx) t /\ (wr (f_loc f) (with_red c) ≫= k) h = k tt h'.
Proof.
  intros K. destruct f as [[] a v s]; cbn [f_loc].
  - apply conf_up_left in K.
    destruct (conf_wr h np ctx a v (paint c v) t s (with_red c) k K) as (h' & K' & E); [done|done|].
    exists h'. split; [|done]. by apply conf_left.
  - apply conf_up_right in K.
    destruct (conf_wr h np ctx a v (paint c v) s t (with_red c) k K) as (h' & K' & E); [done|done|].
    exists h'. split; [|done]. by apply conf_right.
Qed.

Lemma conf_wr_sib {B} h np f ctx t c (k : unit -> M B) : conf h np (f :: ctx) t -> f_sib f <> L ->
  exists h', conf h' np (paint_s c f :: ctx) t /\ (wr (addr (f_sib f)) (with_red c) ≫= k) h = k tt h'.
Proof.
  intros K N. destruct f as [[] a v s]; cbn [f_sib] in *; destruct s as [|b w l r]; try done; cbn [addr].
  - apply conf_up_left, conf_right in K.
    destruct (conf_wr h np _ b w (paint c w) l r (with_red c) k K) as (h' & K' & E); [done|done|].
    exists h'. split; [|done]. by apply conf_left, conf_up_right.
  - apply conf_up_right, conf_left in K.
    destruct (conf_wr h np _ b w (paint c w) l r (with_red c) k K) as (h' & K' & E); [done|done|].
    exists h'. split; [|done]. by apply conf_right, conf_up_left.
Qed.

Lemma elems_paint c t : elems (paint_t c t) = elems t.
Proof. by destruct t. Qed.

Lemma bounded_paint c t : bounded t -> bounded (paint_t c t).
Proof. by destruct t. Qed.

Lemma norr_black t : norr t -> norr (paint_t false t).
Proof. destruct t as [|a v l r]; [done|]. cbn. intros (_ & Nl & Nr). by split_and!. Qed.

Lemma bht_black t n : bht t n -> red t = true -> bht (paint_t false t) (S n).
Proof. destruct t as [|a v l r]; [done|]. cbn. intros B R. rewrite R in B. by exists n. Qed.

Lemma bounded_plug1 f t : bounded t -> bounded (f_sib f) -> Forall (within (f_val f)) (celems1 f (elems t)) ->
  bounded (plug1 f t).
Proof. destruct f as [[] a v s]; cbn; auto. Qed.

(** A red uncle: the parent and the uncle become black, the grandparent red. *)
Lemma recolor_spec {B} h np fp fg ctx t n (k : unit -> M B) : conf h np (fp :: fg :: ctx) t ->
  zip (fp :: fg :: ctx) t false n -> v_red (f_val fp) = true -> red (f_sib fg) = true ->
  exists h' t', (wr (f_loc fp) (with_red false);; wr (addr (f_sib fg)) (with_red false);;
      wr (f_loc fg) (with_red true) ≫= k) h = k tt h' /\
    conf h' np ctx t' /\ zip ctx t' false (S n) /\ red t' = true /\ addr t' = f_loc fg /\
    elems t' = celems1 fg (celems1 fp (elems t)).
Proof.
  intros K [N (CN1 & CN2 & CN3 & CN4 & CN5) Bh (CB1 & CB2 & CB3) Bd (CBd1 & CBd2 & CBd3 & CBd4 & CBd5) O] RP RU.
  rewrite RP in *. destruct (CN1 eq_refl) as [_ RS].
  assert (RG : v_red (f_val fg) = false) by (destruct (v_red (f_val fg)); [by destruct CN3|done]). rewrite RG in *.
  set (k2 := fun _ : unit => wr (f_loc fg) (with_red true) ≫= k).
  set (k1 := fun _ : unit => wr (addr (f_sib fg)) (with_red false) ≫= k2).
  destruct (conf_wr_frame h np fp _ t false k1 K) as (h1 & K1 & ->). unfold k1. cbv beta.
  apply conf_up in K1. set (t1 := plug1 (paint_f false fp) t) in *.
  destruct (conf_wr_sib h1 np fg ctx t1 false k2 K1) as (h2 & K2 & ->).
  { by destruct (f_sib fg). }
  unfold k2. cbv beta. change (f_loc fg) with (f_loc (paint_s false fg)).
  destruct (conf_wr_frame h2 np _ ctx t1 true k K2) as (h3 & K3 & ->).
  apply conf_up in K3. set (fg' := paint_f true (paint_s false fg)) in *.
  assert (E1 : elems t1 = celems1 fp (elems t)) by (unfold t1; by rewrite elems_plug1; destruct fp as [[] ? ? ?]).
  assert (E2 : elems (plug1 fg' t1) = celems1 fg (celems1 fp (elems t))).
  { rewrite elems_plug1, E1. unfold fg'. destruct fg as [[] ? ? ?]; cbn; by rewrite elems_paint. }
  assert (RT : red (plug1 fg' t1) = true) by (unfold fg'; by destruct fg as [[] ? ? ?]).
  exists h3, (plug1 fg' t1). split; [done|]. split; [done|].
  split; [|split; [done|split; [by rewrite addr_plug1|done]]].
  pose proof (bht_black _ _ CB2 RU) as BU. pose proof (norr_black _ CN4) as NU.
  assert (RU' : red (paint_t false (f_sib fg)) = false) by (by destruct (f_sib fg)).
  split; rewrite ?E2; try done.
  - unfold fg', t1. destruct fp as [[] p vp s], fg as [[] g vg u]; cbn in *; rewrite ?RU'; by split_and!.
  - unfold fg', t1. destruct fp as [[] p vp s], fg as [[] g vg u]; cbn in *; split; try done; by exists n.
  - apply bounded_plug1; [apply bounded_plug1; [done|by destruct fp|by destruct fp as [[] ? ? ?]]| |].
    + unfold fg'. cbn. by apply bounded_paint.
    + rewrite E1. unfold fg'. destruct fg as [[] ? ? ?]; cbn in *; by rewrite elems_paint.
Qed.

(** ** Inner grandchildren *)

Lemma rotate_inner_left h np p vp s fg ctx x v l r n :
  conf h np (Frame false p vp s :: fg :: ctx) (T x v l r) ->
  zip (Frame false p vp s :: fg :: ctx) (T x v l r) false n -> v_red v = true -> v_red vp = true ->
  exists h' v' vp', left_rotate p h = Some (tt, h') /\
    conf h' np (Frame true x v' r :: fg :: ctx) (T p vp' s l) /\
    zip (Frame true x v' r :: fg :: ctx) (T p vp' s l) false n /\ v_red v' = true /\ v_red vp' = true /\
    celems1 (Frame true x v' r) (elems (T p vp' s l)) = celems1 (Frame false p vp s) (elems (T x v l r)).
Proof.
  intros K [(N1 & N2 & N3) (CN1 & CN2 & CN3) Bh (CB1 & CB2) (Bd1 & Bd2 & Bd3) (CBd1 & CBd2 & CBd3) O] RX RP.
  cbn [f_val f_sib f_left f_loc] in *. cbn [bht] in Bh. rewrite RX, RP in *.
  destruct (CN1 eq_refl) as [_ RS]. destruct (N1 eq_refl) as [RL RR]. destruct Bh as [Bl Br].
  apply conf_up_right in K. destruct (left_rotate_conf _ _ _ _ _ _ _ _ _ _ K) as (h' & E & K').
  set (tp := T p (re_min_max vp s l) s l). set (v' := re_min_max v tp r).
  assert (EE : celems1 (Frame true x v' r) (elems tp) = celems1 (Frame false p vp s) (elems (T x v l r))).
  { cbn. by rewrite <- !app_assoc. }
  cbn [celems] in *. rewrite <- EE in *.
  pose proof (ordered_sub (fg :: ctx) _ O) as O'.
  assert (Btp : bounded tp).
  { apply bounded_re; [done|done|]. cbn in O'. apply ordered_app in O' as (O' & _ & _). exact O'. }
  assert (Bx : bounded (T x v' tp r)) by (by apply bounded_re).
  exists h', v', (re_min_max vp s l). split; [done|]. split; [by apply conf_left|].
  split; [|by split_and!]. split; cbn [cnorr cbh cbounded f_val f_sib f_left f_loc celems].
  - cbn. by rewrite RS, RL.
  - cbn. by rewrite RX, RR.
  - cbn. by rewrite RP.
  - cbn. by rewrite RX.
  - done.
  - destruct Bx as (? & _ & ?). split; [done|split; [done|exact CBd3]].
  - exact O.
Qed.

Lemma rotate_inner_right h np p vp s fg ctx x v l r n :
  conf h np (Frame true p vp s :: fg :: ctx) (T x v l r) ->
  zip (Frame true p vp s :: fg :: ctx) (T x v l r) false n -> v_red v = true -> v_red vp = true ->
  exists h' v' vp', right_rotate p h = Some (tt, h') /\
    conf h' np (Frame false x v' l :: fg :: ctx) (T p vp' r s) /\
    zip (Frame false x v' l :: fg :: ctx) (T p vp' r s) false n /\ v_red v' = true /\ v_red vp' = true /\
    celems1 (Frame false x v' l) (elems (T p vp' r s)) = celems1 (Frame true p vp s) (elems (T x v l r)).
Proof.
  intros K [(N1 & N2 & N3) (CN1 & CN2 & CN3) Bh (CB1 & CB2) (Bd1 & Bd2 & Bd3) (CBd1 & CBd2 & CBd3) O] RX RP.
  cbn [f_val f_sib f_left f_loc] in *. cbn [bht] in Bh. rewrite RX, RP in *.
  destruct (CN1 eq_refl) as [_ RS]. destruct (N1 eq_refl) as [RL RR]. destruct Bh as [Bl Br].
  apply conf_up_left in K. destruct (right_rotate_conf _ _ _ _ _ _ _ _ _ _ K) as (h' & E & K').
  set (tp := T p (re_min_max vp r s) r s). set (v' := re_min_max v l tp).
  assert (EE : celems1 (Frame false x v' l) (elems tp) = celems1 (Frame true p vp s) (elems (T x v l r))).
  { cbn. by rewrite <- !app_assoc. }
  cbn [celems] in *. rewrite <- EE in *.
  pose proof (ordered_sub (fg :: ctx) _ O) as O'.
  assert (Btp : bounded tp).
  { apply bounded_re; [done|done|]. cbn in O'. apply ordered_app in O' as (_ & O' & _).
    apply StronglySorted_inv in O' as [O' _]. exact O'. }
  assert (Bx : bounded (T x v' l tp)) by (by apply bounded_re).
  exists h', v', (re_min_max vp r s). split; [done|]. split; [by apply conf_right|].
  split; [|by split_and!]. split; cbn [cnorr cbh cbounded f_val f_sib f_left f_loc celems].
  - cbn. by rewrite RS, RR.
  - cbn. by rewrite RX, RL.
  - cbn. by rewrite RP.
  - cbn. by rewrite RX.
  - done.
  - destruct Bx as (? & ? & _). split; [done|split; [done|exact CBd3]].
  - exact O.
Qed.

(** ** The loop *)

Lemma conf_ne_sib h np f ctx a v l r : conf h np (f :: ctx) (T a v l r) -> a <> addr (f_sib f).
Proof.
  intros K. destruct (conf_locs _ _ _ _ _ _ _ K) as (N1 & _ & _ & _ & _ & _ & _ & N2).
  intros ->. destruct (addr_elem (f_sib f)) as [|I]; [done|]. apply N2.
  rewrite couts_cons. cbn. right. rewrite map_app, elem_of_app. by left.
Qed.

Lemma conf_sib h np f ctx t : conf h np (f :: ctx) t -> exists n, h !! addr (f_sib f) = Some n /\
  n_red n = red (f_sib f).
Proof.
  intros K. destruct f as [[] a v s]; [apply conf_up_left, conf_right in K|apply conf_up_right, conf_left in K];
    destruct (conf_addr _ _ _ _ K) as (n & E & _ & _ & R); eauto.
Qed.

(** Which child the parent is of the grandparent. *)
Lemma read_grandparent h np fp fg ctx a v l r : conf h np (fp :: fg :: ctx) (T a v l r) ->
  exists ng, h !! f_loc fg = Some ng /\
    n_left ng = (if f_left fg then f_loc fp else addr (f_sib fg)) /\
    n_right ng = (if f_left fg then addr (f_sib fg) else f_loc fp) /\
    (f_left fg = false -> f_loc fp <> addr (f_sib fg)).
Proof.
  intros K. apply conf_up in K. pose proof (conf_parent _ _ _ _ _ K) as E. rewrite addr_plug1 in E.
  eexists. split; [exact E|]. split_and!; try (by destruct (f_left fg)).
  intros _. destruct fp as [[] p vp s]; by apply conf_ne_sib in K.
Qed.

Lemma zip_true ctx t n : zip ctx t false n ->
  match ctx with [] => True | f :: _ => v_red (f_val f) = false end -> zip ctx t true n.
Proof.
  intros [N CN B CB Bd CBd O] P. split; try done. destruct ctx as [|f ctx]; [done|].
  destruct CN as (_ & CN). split; [|done]. rewrite P. done.
Qed.

(** A black uncle: one or two rotations end the loop. *)
Lemma black_uncle_left fuel h np fp g vg u ctx x v l r n :
  conf h np (fp :: Frame true g vg u :: ctx) (T x v l r) ->
  zip (fp :: Frame true g vg u :: ctx) (T x v l r) false n ->
  v_red v = true -> v_red (f_val fp) = true -> red u = false ->
  exists h' tr, (pr ← rd (f_loc fp) n_right;
      x ← (if decide (x = pr) then left_rotate (f_loc fp);; mret (f_loc fp) else mret x);
      rotate_end_left (S fuel) x) h = Some (tt, h') /\
    holds h' np tr (celems (fp :: Frame true g vg u :: ctx) (elems (T x v l r))).
Proof.
  intros K Z RX RP RU. pose proof (conf_ne_sib _ _ _ _ _ _ _ _ K) as NS.
  rewrite (run_rd _ _ _ _ _ (conf_parent _ _ _ _ _ K)).
  destruct fp as [[] p vp s]; cbn [n_right mk f_left f_loc f_val f_sib] in *.
  - rewrite decide_False, run_ret by done. by eapply rotate_end_left_spec.
  - rewrite decide_True by done.
    destruct (rotate_inner_left _ _ _ _ _ _ _ _ _ _ _ _ K Z RX RP) as (h' & v' & vp' & E & K' & Z' & RX' & RP' & EE).
    rewrite run_assoc, (run_bind _ _ _ _ _ E), run_ret. cbn [celems]. rewrite <- EE.
    by eapply rotate_end_left_spec.
Qed.

Lemma black_uncle_right fuel h np fp g vg u ctx x v l r n :
  conf h np (fp :: Frame false g vg u :: ctx) (T x v l r) ->
  zip (fp :: Frame false g vg u :: ctx) (T x v l r) false n ->
  v_red v = true -> v_red (f_val fp) = true -> red u = false ->
  exists h' tr, (pl ← rd (f_loc fp) n_left;
      x ← (if decide (x = pl) then right_rotate (f_loc fp);; mret (f_loc fp) else mret x);
      rotate_end_right (S fuel) x) h = Some (tt, h') /\
    holds h' np tr (celems (fp :: Frame false g vg u :: ctx) (elems (T x v l r))).
Proof.
  intros K Z RX RP RU. pose proof (conf_ne_sib _ _ _ _ _ _ _ _ K) as NS.
  rewrite (run_rd _ _ _ _ _ (conf_parent _ _ _ _ _ K)).
  destruct fp as [[] p vp s]; cbn [n_left mk f_left f_loc f_val f_sib] in *.
  - rewrite decide_True by done.
    destruct (rotate_inner_right _ _ _ _ _ _ _ _ _ _ _ _ K Z RX RP) as (h' & v' & vp' & E & K' & Z' & RX' & RP' & EE).
    rewrite run_assoc, (run_bind _ _ _ _ _ E), run_ret. cbn [celems]. rewrite <- EE.
    by eapply rotate_end_right_spec.
  - rewrite decide_False, run_ret by done. by eapply rotate_end_right_spec.
Qed.

Lemma ctop_tail f g ctx : ctop (f :: g :: ctx) -> ctop ctx.
Proof. destruct ctx; done. Qed.

Lemma insert_fixup_spec fuel h np ctx x v l r n : (S (length ctx) < fuel)%nat ->
  conf h np ctx (T x v l r) -> zip ctx (T x v l r) false n -> v_red v = true -> ctop ctx ->
  exists h' tr, insert_fixup fuel x h = Some (tt, h') /\
    holds h' np tr (celems ctx (elems (T x v l r))).
Proof.
  revert h ctx x v l r n. induction fuel as [|fuel IH]; intros h ctx x v l r n F K Z RX CT; [lia|].
  assert (D : match ctx with [] => True | f :: _ => v_red (f_val f) = false end ->
    exists h' tr, insert_fixup (S fuel) x h = Some (tt, h') /\ holds h' np tr (celems ctx (elems (T x v l r)))).
  { intros P. exists h, (plug ctx (T x v l r)). split; [by eapply insert_fixup_done|].
    apply (holds_plug _ _ _ _ n K). cbn [red]. rewrite RX. by apply zip_true. }
  destruct ctx as [|fp ctx]; [by apply D|].
  destruct (v_red (f_val fp)) eqn:RP; [|by apply D].
  destruct ctx as [|fg ctx]; [cbn in CT; congruence|]. clear D.
  cbn [insert_fixup]. rewrite (run_rd _ _ _ _ _ (conf_node _ _ _ _ _ _ _ K)). cbn [n_parent mk caddr].
  rewrite (run_rd _ _ _ _ _ (conf_parent _ _ _ _ _ K)).
  replace (n_red _) with true by (destruct (f_left fp); done). cbn [negb]. cbv iota.
  rewrite (run_rd _ _ _ _ _ (conf_parent _ _ _ _ _ K)).
  replace (n_parent _) with (f_loc fg) by (destruct (f_left fp); done).
  destruct (read_grandparent _ _ _ _ _ _ _ _ _ K) as (ng & EG & GL & GR & GN).
  rewrite (run_rd _ _ _ _ _ EG), GL.
  destruct (conf_sib _ _ _ _ _ (conf_up _ _ _ _ _ K)) as (nu & EU & RU).
  assert (REC : red (f_sib fg) = true -> exists h' tr, (wr (f_loc fp) (with_red false);;
      wr (addr (f_sib fg)) (with_red false);; wr (f_loc fg) (with_red true);; insert_fixup fuel (f_loc fg)) h =
      Some (tt, h') /\ holds h' np tr (celems (fp :: fg :: ctx) (elems (T x v l r)))).
  { intros R. destruct (recolor_spec _ _ _ _ _ _ _ (fun _ => insert_fixup fuel (f_loc fg)) K Z RP R)
      as (h1 & t1 & -> & K1 & Z1 & R1 & A1 & E1).
    destruct t1 as [|g v1 l1 r1]; [done|]. cbn in A1. subst g. cbn [celems]. rewrite <- E1.
    apply (IH h1 ctx _ v1 l1 r1 (S n)); try done; [cbn in F; lia|by eapply ctop_tail]. }
  destruct fuel as [|fuel]; [cbn in F; lia|].
  destruct fg as [[] g vg u]; cbn [f_left f_loc f_sib f_val] in *.
  - rewrite decide_True, (run_rd _ _ _ _ _ EG), GR, (run_rd _ _ _ _ _ EU), RU by done.
    destruct (red u) eqn:U; [by apply REC|]. by eapply black_uncle_left.
  - rewrite decide_False by auto. rewrite (run_rd _ _ _ _ _ EG), GL, (run_rd _ _ _ _ _ EU), RU.
    destruct (red u) eqn:U; [by apply REC|]. by eapply black_uncle_right.
Qed.
