(* ===== verification/IntervalTreeLeaf.v ===== *)
(** * IntervalTreeLeaf: the descent to a leaf and the recomputed bounds

    [fixup_min_max_fields] recomputes the bounds on the way to the root,
    [binary_tree_insert] hangs the new node below the last node of the descent;
    with the loop of IntervalTreeInsert they make [insert_node]. *)

From stdpp Require Import base list strings numbers gmap sorting.
From Stdlib Require Import ZArith Lia.
From S2P Require Import Prelude IntervalTree IntervalTreeRep IntervalTreeRotate IntervalTreeSearch.
From S2P Require Import IntervalTreeZip IntervalTreeInsert.

(** ** The bounds *)

Lemma refit_node {B} h np ctx a v l r (k : unit -> M B) : conf h np ctx (T a v l r) ->
  exists h', conf h' np ctx (T a (re_min_max v l r) l r) /\
  (forall q, q <> a -> h' !! q = h !! q) /\
  (e ← rd a n_end; l ← rd a n_left; lm ← rd l n_max; r ← rd a n_right; rm ← rd r n_max;
   wr a (with_max (Z.max e (Z.max lm rm)));;
   s ← rd a n_start; l ← rd a n_left; lm ← rd l n_min;
   wr a (with_min (Z.min s lm)) ≫= k) h = k tt h'.
Proof.
  intros K. pose proof (conf_node _ _ _ _ _ _ _ K) as E.
  destruct (conf_addr _ _ _ _ (conf_left _ _ _ _ _ _ _ K)) as (nl & El & Ml & Il & _).
  destruct (conf_addr _ _ _ _ (conf_right _ _ _ _ _ _ _ K)) as (nr & Er & Mr & Ir & _).
  rewrite (run_rd _ _ _ _ _ E), (run_rd _ _ _ _ _ E). cbn [n_left mk].
  rewrite (run_rd _ _ _ _ _ El), (run_rd _ _ _ _ _ E). cbn [n_right n_end mk].
  rewrite (run_rd _ _ _ _ _ Er), Ml, Mr.
  set (m := Z.max (v_end v) (Z.max (max_of l) (max_of r))).
  set (v1 := Val (v_start v) (v_end v) m (v_min v) (v_red v) (v_comp v)).
  rewrite (run_wr _ _ _ _ _ E).
  pose proof (conf_set h np ctx a v v1 l r K eq_refl) as K1.
  change (with_max m (mk v (addr l) (addr r) (caddr ctx))) with (mk v1 (addr l) (addr r) (caddr ctx)).
  set (h1 := <[a := _]> h) in *.
  pose proof (conf_node _ _ _ _ _ _ _ K1) as E1.
  destruct (conf_addr _ _ _ _ (conf_left _ _ _ _ _ _ _ K1)) as (nl1 & El1 & _ & Il1 & _).
  rewrite (run_rd _ _ _ _ _ E1), (run_rd _ _ _ _ _ E1). cbn [n_left n_start mk v_start v1].
  rewrite (run_rd _ _ _ _ _ El1), Il1.
  set (i := Z.min (v_start v) (min_of l)).
  rewrite (run_wr _ _ _ _ _ E1).
  pose proof (conf_set h1 np ctx a v1 (re_min_max v l r) l r K1 eq_refl) as K2.
  replace (with_min i (mk v1 (addr l) (addr r) (caddr ctx)))
    with (mk (re_min_max v l r) (addr l) (addr r) (caddr ctx)).
  { eexists. split; [exact K2|]. split; [|done]. intros q Q. unfold h1. by rewrite !lookup_insert_ne. }
  unfold mk, with_min, v1, i, m, re_min_max. cbn. f_equal; lia.
Qed.

Definition refit (f : frame) (t : tree) : frame :=
  Frame (f_left f) (f_loc f)
    (if f_left f then re_min_max (f_val f) t (f_sib f) else re_min_max (f_val f) (f_sib f) t) (f_sib f).

Fixpoint crefit (ctx : list frame) (t : tree) : list frame :=
  match ctx with
  | [] => []
  | f :: ctx => refit f t :: crefit ctx (plug1 (refit f t) t)
  end.

Lemma fixup_min_max_spec fuel h np ctx t : (length ctx < fuel)%nat -> conf h np ctx t ->
  exists h', fixup_min_max_fields fuel (caddr ctx) h = Some (tt, h') /\ conf h' np (crefit ctx t) t /\
    (forall q, q ∉ map f_loc ctx -> h' !! q = h !! q).
Proof.
  revert h ctx t; induction fuel as [|fuel IH]; intros h ctx t F K; [lia|].
  destruct ctx as [|f ctx]; cbn [caddr fixup_min_max_fields].
  { exists h. by rewrite decide_True. }
  assert (NR : f_loc f <> ROOT).
  { apply conf_up in K. destruct f as [[] a v s]; by apply conf_locs in K as (_ & ? & _). }
  rewrite decide_False by done.
  set (k := fun _ : unit => p ← rd (f_loc f) n_parent; fixup_min_max_fields fuel p).
  assert (S1 : exists h1, conf h1 np (refit f t :: ctx) t /\ (forall q, q <> f_loc f -> h1 !! q = h !! q) /\
    (e ← rd (f_loc f) n_end; l ← rd (f_loc f) n_left; lm ← rd l n_max; r ← rd (f_loc f) n_right; rm ← rd r n_max;
     wr (f_loc f) (with_max (Z.max e (Z.max lm rm)));;
     s ← rd (f_loc f) n_start; l ← rd (f_loc f) n_left; lm ← rd l n_min;
     wr (f_loc f) (with_min (Z.min s lm)) ≫= k) h = k tt h1).
  { destruct f as [[] a v s]; cbn [f_loc].
    - apply conf_up_left in K. destruct (refit_node _ _ _ _ _ _ _ k K) as (h1 & K1 & Q1 & E1).
      exists h1. split; [by apply conf_left|done].
    - apply conf_up_right in K. destruct (refit_node _ _ _ _ _ _ _ k K) as (h1 & K1 & Q1 & E1).
      exists h1. split; [by apply conf_right|done]. }
  destruct S1 as (h1 & K1 & Q1 & ->). unfold k.
  pose proof (conf_parent _ _ _ _ _ K1) as P. cbn [refit f_loc] in P. rewrite (run_rd _ _ _ _ _ P).
  replace (n_parent _) with (caddr ctx) by (destruct (f_left _); done).
  apply conf_up in K1. destruct (IH h1 ctx _ ltac:(cbn in F; lia) K1) as (h2 & E2 & K2 & Q2).
  exists h2. split; [done|]. split.
  - cbn [crefit]. destruct f as [[] a v s]; [by apply conf_left|by apply conf_right].
  - intros q Q. cbn in Q. rewrite elem_of_cons in Q. rewrite Q2, Q1; tauto.
Qed.

Lemma crefit_length ctx t : length (crefit ctx t) = length ctx.
Proof. revert t; induction ctx as [|f ctx IH]; intros t; [done|]. cbn. by rewrite IH. Qed.

Lemma celems1_refit f t es : celems1 (refit f t) es = celems1 f es.
Proof. by destruct f as [[] a v s]. Qed.

Lemma celems_crefit ctx t es : celems (crefit ctx t) es = celems ctx es.
Proof.
  revert t es; induction ctx as [|f ctx IH]; intros t es; [done|]. cbn. by rewrite IH, celems1_refit.
Qed.

Lemma refit_red f t : v_red (f_val (refit f t)) = v_red (f_val f).
Proof. by destruct f as [[] a v s]. Qed.

Lemma ctop_crefit ctx t : ctop ctx -> ctop (crefit ctx t).
Proof.
  revert t; induction ctx as [|f ctx IH]; intros t; [done|].
  destruct ctx as [|g ctx]; cbn [crefit ctop]; [by rewrite refit_red|]. intros C. by apply (IH (plug1 (refit f t) t)).
Qed.

Lemma cnorr_crefit ctx t c : cnorr ctx c -> cnorr (crefit ctx t) c.
Proof.
  revert t c; induction ctx as [|f ctx IH]; intros t c; [done|]. cbn [crefit cnorr].
  rewrite refit_red. intros (C1 & C2 & C3). split_and!; [done|done|by apply IH].
Qed.

Lemma cbh_crefit ctx t n : cbh ctx n -> cbh (crefit ctx t) n.
Proof.
  revert t n; induction ctx as [|f ctx IH]; intros t n; [done|]. cbn [crefit cbh].
  rewrite refit_red. intros (C1 & C2). split; [done|by apply IH].
Qed.

(** The other children on the way up have right bounds. *)
Definition cbsibs (ctx : list frame) : Prop := Forall (fun f => bounded (f_sib f)) ctx.

Lemma bounded_refit f t : bounded t -> bounded (f_sib f) -> ordered (celems1 f (elems t)) ->
  bounded (plug1 (refit f t) t).
Proof.
  destruct f as [[] a v s]; unfold refit, plug1; cbn [f_left f_loc f_val f_sib]; intros; by apply bounded_re.
Qed.

Lemma cbounded_crefit ctx t : bounded t -> cbsibs ctx -> ordered (celems ctx (elems t)) ->
  cbounded (crefit ctx t) (elems t).
Proof.
  revert t; induction ctx as [|f ctx IH]; intros t B S O; [done|].
  apply Forall_cons_iff in S as [S1 S]. cbn [celems] in O.
  pose proof (ordered_sub _ _ O) as O1. pose proof (bounded_refit f t B S1 O1) as B1.
  cbn [crefit cbounded]. rewrite celems1_refit.
  assert (E : elems (plug1 (refit f t) t) = celems1 f (elems t)) by (by rewrite elems_plug1, celems1_refit).
  split_and!.
  - revert B1. destruct f as [[] a v s]; cbn; tauto.
  - done.
  - rewrite <- E. apply IH; [done|done|by rewrite E].
Qed.

(** What the invariants of a whole tree say of a subtree and its context. *)
Lemma bounded_unplug ctx t : bounded (plug ctx t) -> bounded t /\ cbsibs ctx.
Proof.
  revert t; induction ctx as [|f ctx IH]; intros t; [by split; [|apply Forall_nil_2]|]. cbn. intros B.
  apply IH in B as [B S]. destruct f as [[] a v s]; cbn in B; destruct B as (_ & B1 & B2);
    (split; [done|by constructor]).
Qed.

Lemma norr_unplug ctx t : norr (plug ctx t) -> norr t /\ cnorr ctx (red t).
Proof.
  revert t; induction ctx as [|f ctx IH]; intros t; [done|]. cbn. intros N.
  apply IH in N as [N C]. destruct f as [[] a v s]; cbn in *; destruct N as (? & ? & ?);
    (split; [done|split_and!; [tauto|done|done]]).
Qed.

Lemma bht_unplug ctx t m : bht (plug ctx t) m -> exists n, bht t n /\ cbh ctx n.
Proof.
  revert t; induction ctx as [|f ctx IH]; intros t; [intros B; by exists m|]. cbn. intros B.
  apply IH in B as (n & B & C). destruct f as [[] a v s]; cbn in *; destruct (v_red v);
    [destruct B as [B1 B2]; by exists n|destruct B as (n' & -> & B1 & B2); by exists n'
    |destruct B as [B1 B2]; by exists n|destruct B as (n' & -> & B1 & B2); by exists n'].
Qed.

Lemma ctop_unplug ctx t : red (plug ctx t) = false -> ctop ctx.
Proof.
  revert t; induction ctx as [|f ctx IH]; intros t; [done|]. cbn. intros R.
  destruct ctx as [|g ctx]; [destruct f as [[] a v s]; exact R|exact (IH (plug1 f t) R)].
Qed.

(** ** The descent *)

Definition goes_left (v : val) (zs ze : Z) : bool :=
  get_direction (mk v NIL NIL NIL) zs ze =? DIRECTION_GO_LEFT.

Lemma goes_left_mk v l r p zs ze : (get_direction (mk v l r p) zs ze =? DIRECTION_GO_LEFT) = goes_left v zs ze.
Proof. done. Qed.

Lemma goes_left_start v zs ze : if goes_left v zs ze then zs <= v_start v else v_start v <= zs.
Proof.
  unfold goes_left, get_direction, DIRECTION_GO_LEFT, DIRECTION_GO_RIGHT. cbn.
  destruct (Z.eqb_spec (v_start v) zs); [destruct (v_end v >? ze); cbn; lia|].
  destruct (Z.gtb_spec (v_start v) zs); cbn; lia.
Qed.

(** Where the interval belongs, and on which side of its parent. *)
Record fits (ctx : list frame) (zs ze : Z) : Prop := {
  fits_pre : Forall (fun e => e_start e <= zs) (cpre ctx);
  fits_post : Forall (fun e => zs <= e_start e) (cpost ctx);
  fits_side : match ctx with [] => True | f :: _ => goes_left (f_val f) zs ze = f_left f end
}.

Lemma insert_descend_spec fuel h np ctx t zs ze : (tsize t < fuel)%nat -> conf h np ctx t ->
  ordered (celems ctx (elems t)) -> fits ctx zs ze ->
  exists ctx', insert_descend fuel zs ze (addr t) (caddr ctx) h = Some (caddr ctx', h) /\
    plug ctx' L = plug ctx t /\ fits ctx' zs ze.
Proof.
  revert ctx t; induction fuel as [|fuel IH]; intros ctx t F K O [P1 P2 P3]; [lia|].
  cbn [insert_descend]. destruct t as [|a v l r]; cbn [addr].
  { exists ctx. rewrite decide_True by done. by split_and!. }
  destruct (conf_locs _ _ _ _ _ _ _ K) as (NN & _). rewrite decide_False by done.
  rewrite (run_rd _ _ _ _ _ (conf_node _ _ _ _ _ _ _ K)). cbn [id].
  rewrite goes_left_mk. pose proof (goes_left_start v zs ze) as G.
  pose proof (ordered_sub _ _ O) as O'. cbn [elems] in O'. apply ordered_app in O' as (_ & O' & X).
  apply StronglySorted_inv in O' as [_ Y]. rewrite Forall_forall in Y.
  destruct (goes_left v zs ze) eqn:D.
  - apply conf_left in K. destruct (IH _ l ltac:(cbn in F; lia) K O) as (ctx' & E & Pl & Fi); [|by exists ctx'].
    split; cbn [cpre cpost f_left f_loc f_val f_sib]; [by rewrite app_nil_r| |done].
    constructor; [done|]. apply Forall_app. split; [|done]. apply Forall_forall. intros e I.
    specialize (Y e I). unfold starts_before in Y. cbn in Y. lia.
  - apply conf_right in K. destruct (IH _ r ltac:(cbn in F; lia) K O) as (ctx' & E & Pl & Fi); [|by exists ctx'].
    split; cbn [cpre cpost f_left f_loc f_val f_sib app]; [|done|done].
    rewrite !Forall_app. split_and!; [done| |by repeat constructor]. apply Forall_forall. intros e I.
    specialize (X e (entry_of a v) I ltac:(left)). cbn in X. lia.
Qed.

(** The order is kept when the interval is put where it fits. *)
Lemma fits_ordered ctx e : ordered (celems ctx []) -> fits ctx (e_start e) (e_end e) ->
  ordered (celems ctx [e]).
Proof.
  rewrite !celems_split. cbn. intros (O1 & O2 & X)%ordered_app [P1 P2 _]. rewrite Forall_forall in *.
  apply ordered_app. split_and!; [done| |].
  - constructor; [done|]. apply Forall_forall. exact P2.
  - intros x y I [->|J]%elem_of_cons; [by apply P1|by apply X].
Qed.

(** ** Hanging the node *)

Lemma conf_hang h np ctx a v n : conf h np ctx L -> a <> NIL -> a <> ROOT -> a ∉ locs (couts ctx) ->
  h !! caddr ctx = Some n ->
  conf (<[caddr ctx := if match ctx with [] => true | f :: _ => f_left f end
                       then with_left a n else with_right a n]>
       (<[a := mk v NIL NIL (caddr ctx)]> h)) np ctx (T a v L L).
Proof.
  intros K N1 N2 N3 P. pose proof (conf_nodup' _ _ _ _ K) as D. pose proof (caddr_outs ctx) as PO.
  assert (AP : a <> caddr ctx).
  { intros ->. apply elem_of_cons in PO as [PO|PO]; done. }
  assert (FR : forall q, q ∈ ROOT :: locs (couts ctx) -> q <> caddr ctx ->
    <[caddr ctx := if match ctx with [] => true | f :: _ => f_left f end
                       then with_left a n else with_right a n]> (<[a := mk v NIL NIL (caddr ctx)]> h) !! q = h !! q).
  { intros q Q NQ. rewrite !lookup_insert_ne; try done. intros ->. apply elem_of_cons in Q as [Q|Q]; done. }
  destruct K as [_ C N _]. split.
  - cbn. by rewrite lookup_insert_ne, lookup_insert_eq by done.
  - cbn [addr]. cbn in D. rewrite app_nil_r in D. apply NoDup_cons in D as [D0 D].
    destruct ctx as [|f ctx]; cbn [repc caddr addr] in *.
    + destruct C as (n' & E & R1 & R2). exists (with_left a n). rewrite lookup_insert_eq. split; [done|].
      assert (n' = n) as -> by congruence. split; [done|exact R2].
    + destruct C as (E & Rs & C). rewrite E in P. injection P as <-.
      apply NoDup_cons in D as [D0' D]. rewrite couts_cons in D, D0'. cbn in D, D0'.
      apply NoDup_cons in D as [D1 D].
      split_and!.
      * rewrite lookup_insert_eq. f_equal. by destruct (f_left f).
      * apply (rep_frame h); [done|]. intros q Q. apply FR.
        -- right. rewrite couts_cons. cbn. right. rewrite map_app, elem_of_app. by left.
        -- intros ->. apply D1. rewrite map_app, elem_of_app. by left.
      * apply (repc_frame h); [done|]. intros q Q. apply FR.
        -- apply elem_of_cons in Q as [->|Q]; [left|right]. rewrite couts_cons. cbn. right.
           rewrite map_app, elem_of_app. by right.
        -- intros ->. apply elem_of_cons in Q as [Q|Q].
           ++ apply D0'. rewrite Q. left.
           ++ apply D1. rewrite map_app, elem_of_app. by right.
  - rewrite lookup_insert_ne; [by rewrite lookup_insert_ne|]. intros E. rewrite E in PO. apply NoDup_cons in D as [D0 D].
    apply D0. rewrite elem_of_app. by left.
  - rewrite celems_couts. cbn in *. rewrite app_nil_r in D. apply NoDup_cons in D as [D0 D].
    apply NoDup_cons in D as [D1 D]. rewrite elem_of_cons in D0.
    rewrite !NoDup_cons, !elem_of_cons. split_and!; [|by intros [E|]|done|done].
    intros [?|[E|?]]; auto.
Qed.

(** [y->min] and [y->max] of [binary_tree_insert], in this order. *)
Lemma refit_node_min_max h np ctx a v l r : conf h np ctx (T a v l r) ->
  exists h', conf h' np ctx (T a (re_min_max v l r) l r) /\
  (l ← rd a n_left; lm ← rd l n_min; s ← rd a n_start;
   wr a (with_min (Z.min lm s));;
   l ← rd a n_left; lm ← rd l n_max; e ← rd a n_end; r ← rd a n_right; rm ← rd r n_max;
   wr a (with_max (Z.max lm (Z.max e rm)))) h = Some (tt, h').
Proof.
  intros K. pose proof (conf_node _ _ _ _ _ _ _ K) as E.
  destruct (conf_addr _ _ _ _ (conf_left _ _ _ _ _ _ _ K)) as (nl & El & _ & Il & _).
  rewrite (run_rd _ _ _ _ _ E). cbn [n_left mk].
  rewrite (run_rd _ _ _ _ _ El), (run_rd _ _ _ _ _ E), Il. cbn [n_start mk].
  set (i := Z.min (min_of l) (v_start v)).
  set (v1 := Val (v_start v) (v_end v) (v_max v) i (v_red v) (v_comp v)).
  rewrite (run_wr _ _ _ _ _ E).
  pose proof (conf_set h np ctx a v v1 l r K eq_refl) as K1.
  change (with_min i (mk v (addr l) (addr r) (caddr ctx))) with (mk v1 (addr l) (addr r) (caddr ctx)).
  set (h1 := <[a := _]> h) in *.
  pose proof (conf_node _ _ _ _ _ _ _ K1) as E1.
  destruct (conf_addr _ _ _ _ (conf_left _ _ _ _ _ _ _ K1)) as (nl1 & El1 & Ml1 & _).
  destruct (conf_addr _ _ _ _ (conf_right _ _ _ _ _ _ _ K1)) as (nr1 & Er1 & Mr1 & _).
  rewrite (run_rd _ _ _ _ _ E1). cbn [n_left mk].
  rewrite (run_rd _ _ _ _ _ El1), (run_rd _ _ _ _ _ E1), (run_rd _ _ _ _ _ E1). cbn [n_end n_right mk v_end v1].
  rewrite (run_rd _ _ _ _ _ Er1), Ml1, Mr1, (run_wr_last _ _ _ _ E1).
  eexists. split; [|done].
  apply (conf_set h1 np ctx a v1 (re_min_max v l r) l r K1 eq_refl).
Qed.

(** The same at the sentinel [root]: nothing of the tree changes. *)
Lemma refit_root h np t : conf h np [] t -> exists h', conf h' np [] t /\
  (l ← rd ROOT n_left; lm ← rd l n_min; s ← rd ROOT n_start;
   wr ROOT (with_min (Z.min lm s));;
   l ← rd ROOT n_left; lm ← rd l n_max; e ← rd ROOT n_end; r ← rd ROOT n_right; rm ← rd r n_max;
   wr ROOT (with_max (Z.max lm (Z.max e rm)))) h = Some (tt, h').
Proof.
  assert (W : forall h f n, conf h np [] t -> h !! ROOT = Some n ->
    (forall x, is_root n x -> is_root (f n) x) -> conf (<[ROOT := f n]> h) np [] t).
  { intros h0 f n K E F. pose proof (conf_nodup' _ _ _ _ K) as D. cbn in D.
    apply NoDup_cons in D as [D0 D]. apply NoDup_cons in D as [D1 D].
    destruct K as [R (n' & E' & C) N D']. assert (n' = n) as -> by congruence. split; [| | |done].
    - apply (rep_frame h0); [done|]. intros q Q. rewrite lookup_insert_ne; [done|]. by intros <-.
    - exists (f n). rewrite lookup_insert_eq. split; [done|by apply F].
    - by rewrite lookup_insert_ne. }
  intros K. destruct (conf_root _ _ _ K) as (n & E & R & R2).
  destruct (conf_addr _ _ _ _ K) as (na & Ea & _).
  rewrite (run_rd _ _ _ _ _ E), R, (run_rd _ _ _ _ _ Ea), (run_rd _ _ _ _ _ E), (run_wr _ _ _ _ _ E).
  pose proof (W h (with_min (Z.min (n_min na) (n_start n))) n K E (fun x X => X)) as K1. clear K E Ea.
  set (h1 := <[ROOT := _]> h) in *.
  destruct (conf_root _ _ _ K1) as (n1 & E1 & R1 & R1' & _).
  destruct (conf_addr _ _ _ _ K1) as (na1 & Ea1 & _).
  rewrite (run_rd _ _ _ _ _ E1), R1, (run_rd _ _ _ _ _ Ea1), (run_rd _ _ _ _ _ E1), (run_rd _ _ _ _ _ E1), R1'.
  rewrite (run_rd _ _ _ _ _ (conf_nil _ _ _ _ K1)), (run_wr_last _ _ _ _ E1).
  eexists. split; [|done]. by apply W.
Qed.

(** ** The whole insertion *)

Definition hung (ctx : list frame) (t : tree) : list frame :=
  match ctx with [] => [] | f :: ctx => refit f t :: ctx end.

Lemma crefit_hung ctx t : crefit (hung ctx t) t = crefit ctx t.
Proof. destruct ctx as [|f ctx]; [done|]. by destruct f as [[] a v s]. Qed.

Lemma binary_tree_insert_spec fuel h np tr a v : conf h np [] tr -> (tsize tr < fuel)%nat ->
  ordered (elems tr) -> h !! a = Some (mk v NIL NIL NIL) -> a <> NIL -> a <> ROOT -> a ∉ locs (elems tr) ->
  exists h' ctx, binary_tree_insert fuel a h = Some (tt, h') /\
    conf h' np (hung ctx (T a v L L)) (T a v L L) /\ plug ctx L = tr /\ fits ctx (v_start v) (v_end v).
Proof.
  intros K F O E N1 N2 N3. unfold binary_tree_insert.
  rewrite (run_wr _ _ _ _ _ E). change (with_right NIL (mk v NIL NIL NIL)) with (mk v NIL NIL NIL).
  rewrite (insert_id _ _ _ E), (run_wr _ _ _ _ _ E).
  change (with_left NIL (mk v NIL NIL NIL)) with (mk v NIL NIL NIL). rewrite (insert_id _ _ _ E).
  destruct (conf_root _ _ _ K) as (n & ER & RL & _). rewrite (run_rd _ _ _ _ _ ER), RL.
  rewrite (run_rd _ _ _ _ _ E), (run_rd _ _ _ _ _ E). cbn [n_start n_end mk].
  destruct (insert_descend_spec fuel h np [] tr (v_start v) (v_end v) F K O) as (ctx & ED & Pl & Fi).
  { split; try done; apply Forall_nil_2. }
  cbn [caddr] in ED. rewrite (run_bind _ _ _ _ _ ED). cbn [plug] in Pl.
  assert (KL : conf h np ctx L) by (apply conf_plug; by rewrite Pl).
  destruct (repc_caddr _ _ _ (conf_ctx _ _ _ _ KL)) as (ny & EY).
  assert (NC : a ∉ locs (couts ctx)).
  { intros I. apply N3. rewrite <- Pl, elems_plug, celems_couts. done. }
  pose proof (conf_hang h np ctx a v ny KL N1 N2 NC EY) as K1.
  assert (AP : a <> caddr ctx).
  { intros ->. destruct (elem_of_cons (locs (couts ctx)) (caddr ctx) ROOT) as [X _].
    destruct (X (caddr_outs ctx)); done. }
  rewrite (run_wr _ _ _ _ _ E). change (with_parent (caddr ctx) (mk v NIL NIL NIL)) with (mk v NIL NIL (caddr ctx)).
  rewrite (run_rd _ _ _ _ ny) by (by rewrite lookup_insert_ne). cbn [id].
  assert (SIDE : bool_decide (caddr ctx = ROOT) || (get_direction ny (v_start v) (v_end v) =? DIRECTION_GO_LEFT) =
    match ctx with [] => true | f :: _ => f_left f end).
  { destruct ctx as [|f ctx]; [done|]. cbn [caddr] in *. rewrite bool_decide_false.
    - rewrite (conf_parent _ _ _ _ _ KL) in EY. injection EY as <-. cbn [orb].
      destruct Fi as [_ _ FS]. destruct (f_left f); exact FS.
    - apply conf_up in KL. destruct f as [[] b w s]; by apply conf_locs in KL as (_ & ? & _). }
  rewrite SIDE.
  set (left := match ctx with [] => true | f :: _ => f_left f end) in *.
  set (h1 := <[a := mk v NIL NIL (caddr ctx)]> h) in *.
  assert (EW : (if left then wr (caddr ctx) (with_left a) else wr (caddr ctx) (with_right a)) h1 =
    Some (tt, <[caddr ctx := if left then with_left a ny else with_right a ny]> h1)).
  { unfold h1. destruct left; apply run_wr_last; by rewrite lookup_insert_ne. }
  rewrite (run_bind _ _ _ _ _ EW). unfold left in *. clear EW SIDE.
  destruct ctx as [|[[] b w s] ctx]; cbn [caddr f_loc f_left hung] in *.
  - destruct (refit_root _ _ _ K1) as (h2 & K2 & E2). exists h2, []. by split_and!.
  - apply conf_up_left in K1. destruct (refit_node_min_max _ _ _ _ _ _ _ K1) as (h2 & K2 & E2).
    exists h2, (Frame true b w s :: ctx). split_and!; [done| |done|done]. by apply conf_left.
  - apply conf_up_right in K1. destruct (refit_node_min_max _ _ _ _ _ _ _ K1) as (h2 & K2 & E2).
    exists h2, (Frame false b w s :: ctx). split_and!; [done| |done|done]. by apply conf_right.
Qed.

(** The invariants of a whole tree. *)
Record good (tr : tree) : Prop := {
  good_ordered : ordered (elems tr);
  good_bounded : bounded tr;
  good_norr : norr tr;
  good_black : red tr = false;
  good_bht : exists n, bht tr n
}.

Lemma tsize_plug ctx t : (length ctx + tsize t <= tsize (plug ctx t))%nat.
Proof.
  revert t; induction ctx as [|f ctx IH]; intros t; [done|]. cbn.
  specialize (IH (plug1 f t)). destruct f as [[] a v s]; cbn in *; lia.
Qed.

Lemma holds_black h np tr es : holds h np tr es -> ordered es -> es <> [] ->
  exists h' tr', (top ← rd ROOT n_left; wr top (with_red false)) h = Some (tt, h') /\
    conf h' np [] tr' /\ elems tr' = es /\ good tr'.
Proof.
  intros [K E N (n & B) Bd] O NE. destruct (conf_root _ _ _ K) as (nr & ER & RL & _).
  rewrite (run_rd _ _ _ _ _ ER), RL. destruct tr as [|a v l r]; [by subst|]. cbn [addr].
  rewrite (run_wr_last _ _ _ _ (conf_node _ _ _ _ _ _ _ K)).
  eexists _, (T a (paint false v) l r). split; [done|].
  split; [by apply (conf_set h np [] a v (paint false v) l r)|]. split; [done|].
  destruct N as (N1 & N2 & N3). split; cbn.
  - by rewrite <- E in O.
  - exact Bd.
  - by split_and!.
  - done.
  - cbn in B. destruct (v_red v); [destruct B as [B1 B2]; by exists (S n), n|].
    destruct B as (m & -> & B1 & B2). by exists (S m), m.
Qed.

Lemma insert_node_spec fuel h np tr a s e c : conf h np [] tr -> good tr -> (S (S (tsize tr)) < fuel)%nat ->
  h !! a = Some (Node s e e s false c NIL NIL NIL) -> a <> NIL -> a <> ROOT -> a ∉ locs (elems tr) ->
  exists h' tr' pre post, insert_node fuel a h = Some (tt, h') /\ conf h' np [] tr' /\ good tr' /\
    elems tr = pre ++ post /\ elems tr' = pre ++ Entry a s e c :: post.
Proof.
  intros K [O Bd N R (n & B)] F E N1 N2 N3. unfold insert_node.
  set (v := Val s e e s false c). change (Node s e e s false c NIL NIL NIL) with (mk v NIL NIL NIL) in E.
  destruct (binary_tree_insert_spec fuel h np tr a v) as (h1 & ctx & E1 & K1 & Pl & Fi); try done; [lia|].
  rewrite (run_bind _ _ _ _ _ E1). set (w := paint true v).
  set (k := fun _ : unit => xp ← rd a n_parent; fixup_min_max_fields fuel xp;; insert_fixup fuel a;;
    top ← rd ROOT n_left; wr top (with_red false)).
  destruct (conf_wr h1 np _ a v w L L (with_red true) k K1) as (h2 & K2 & ->); [done|done|]. unfold k.
  rewrite (run_rd _ _ _ _ _ (conf_node _ _ _ _ _ _ _ K2)). cbn [n_parent mk].
  pose proof (tsize_plug ctx L) as TS. rewrite Pl in TS. cbn in TS.
  destruct (fixup_min_max_spec fuel h2 np (hung ctx (T a v L L)) (T a w L L)
    ltac:(destruct ctx; cbn in *; lia) K2) as (h3 & E3 & K3 & _).
  rewrite (run_bind _ _ _ _ _ E3).
  replace (crefit (hung ctx (T a v L L)) (T a w L L)) with (crefit ctx (T a w L L)) in K3
    by (rewrite <- (crefit_hung ctx); by destruct ctx).
  subst tr. apply bounded_unplug in Bd as [_ BS]. apply norr_unplug in N as [_ CN].
  apply bht_unplug in B as (m & -> & CB). apply ctop_unplug in R. rewrite elems_plug in O.
  pose proof (fits_ordered ctx (Entry a s e c) O Fi) as O1.
  assert (Z0 : zip (crefit ctx (T a w L L)) (T a w L L) false 0).
  { assert (BB : bounded (T a w L L)).
    { split; [|done]. constructor; [|apply Forall_nil_2]. unfold within. cbn. lia. }
    split; try done; [by apply cnorr_crefit|by apply cbh_crefit|by apply cbounded_crefit|].
    by rewrite celems_crefit. }
  destruct (insert_fixup_spec fuel h3 np (crefit ctx (T a w L L)) a w L L 0) as (h4 & tr & E4 & H4); try done.
  { rewrite crefit_length. lia. }
  { by apply ctop_crefit. }
  rewrite (run_bind _ _ _ _ _ E4). rewrite celems_crefit in H4.
  destruct (holds_black _ _ _ _ H4) as (h5 & tr' & E5 & K5 & EE & G5); [done|by destruct ctx; rewrite celems_split; destruct (cpre _)|].
  exists h5, tr', (cpre ctx), (cpost ctx). rewrite EE, elems_plug, !celems_split. by split_and!.
Qed.
