(* ===== verification/IntervalTreeDelete.v ===== *)
(** * IntervalTreeDelete: the colours after a removal

    The loop of [intervaltree_fixup_deletion]: the subtree in focus is one
    black node short; each round moves the deficit up or removes it. *)

From stdpp Require Import base list strings numbers gmap sorting.
From Stdlib Require Import ZArith Lia.
From S2P Require Import Prelude IntervalTree IntervalTreeRep IntervalTreeRotate IntervalTreeSearch.
From S2P Require Import IntervalTreeZip IntervalTreeInsert IntervalTreeLeaf.

(** The subtree is one black node short of what the context expects; its root,
    when red, may have a red child or parent, for it will be painted black. *)
Record short (ctx : list frame) (t : tree) (n : nat) : Prop := {
  short_norr : norr (paint_t false t);
  short_cnorr : cnorr ctx false;
  short_bht : bht t n;
  short_cbh : cbh ctx (S n);
  short_bounded : bounded t;
  short_cbounded : cbounded ctx (elems t);
  short_ordered : ordered (celems ctx (elems t))
}.

(** What the loop leaves: a whole tree with its invariants. *)
Definition whole (h : heap) (np : loc) (es : list entry) : Prop :=
  exists tr, conf h np [] tr /\ elems tr = es /\ good tr.

Lemma cnorr_false ctx c : cnorr ctx c -> cnorr ctx false.
Proof. destruct ctx as [|f ctx]; [done|]. cbn. intros (A & B & C). split_and!; [|done|done]. intros R. by destruct (A R). Qed.

Lemma ctop_red ctx t : ctop ctx -> (ctx = [] -> red t = false) -> red (plug ctx t) = false.
Proof.
  revert t; induction ctx as [|f ctx IH]; intros t C N; [by apply N|]. cbn [plug].
  apply IH; [by destruct ctx|]. intros ->. cbn in C. by destruct f as [[] a v s].
Qed.

Lemma whole_plug h np ctx t n : conf h np ctx t -> norr t -> cnorr ctx (red t) -> bht t n -> cbh ctx n ->
  bounded t -> cbounded ctx (elems t) -> ordered (celems ctx (elems t)) -> ctop ctx ->
  (ctx = [] -> red t = false) -> whole h np (celems ctx (elems t)).
Proof.
  intros K N CN B CB Bd CBd O CT R. exists (plug ctx t). split; [exact (proj1 (conf_plug _ _ _ _) K)|].
  split; [apply elems_plug|]. split.
  - by rewrite elems_plug.
  - by apply bounded_plug.
  - exact (norr_plug _ _ N CN).
  - by apply ctop_red.
  - exact (bht_plug _ _ _ B CB).
Qed.

(** The parent read from the node in focus, or from [nil]. *)
Lemma read_focus h np ctx t : conf h np ctx t -> (t = L -> np = caddr ctx) ->
  exists n, h !! addr t = Some n /\ n_parent n = caddr ctx /\ n_red n = red t.
Proof.
  intros K P. destruct t as [|a v l r].
  - exists (nil_node np). split; [by destruct K|]. split; [by rewrite P|done].
  - exists (mk v (addr l) (addr r) (caddr ctx)). split; [by apply conf_node in K|done].
Qed.

(** ** Outcomes of a round *)

(** Either the next subtree to look at, at [p] and of colour [cp], or a whole
    tree and the address of a black node, [root]. *)
Definition outcome (root p : loc) (cp : bool) (x : loc) (h : heap) (np : loc) (ctx : list frame)
    (es : list entry) : Prop :=
  (exists t' n', x = p /\ addr t' = p /\ t' <> L /\ red t' = cp /\ conf h np ctx t' /\
     short ctx t' n' /\ ctop ctx /\ celems ctx (elems t') = es) \/
  (exists nr, x = root /\ whole h np es /\ h !! root = Some nr /\ n_red nr = false).

(** The node whose address was the top's is still the top or the node below. *)
Lemma root_black h np ctx root t : conf h np ctx t -> ctop ctx -> (ctx = [] -> red t = false) ->
  root = addr (plug ctx t) -> exists nr, h !! root = Some nr /\ n_red nr = false.
Proof.
  intros K C R ->. pose proof (proj1 (conf_plug _ _ _ _) K) as K'.
  destruct (conf_addr _ _ _ _ K') as (nr & E & _ & _ & RR). exists nr. split; [done|].
  rewrite RR. by apply ctop_red.
Qed.

Lemma addr_plug ctx t t' : ctx <> [] -> addr (plug ctx t) = addr (plug ctx t').
Proof.
  revert t t'. induction ctx as [|f ctx IH]; intros t t' N; [done|]. cbn.
  destruct ctx as [|g ctx]; [cbn; by rewrite !addr_plug1|by apply IH].
Qed.

(** The last rotation on the left: the sibling's right child is red. *)
Lemma deletion_left_last h np p vp w vw c d ctx t n root :
  conf h np (Frame true p vp (T w vw c d) :: ctx) t ->
  short (Frame true p vp (T w vw c d) :: ctx) t n -> red t = false ->
  v_red vw = false -> red d = true -> ctop (Frame true p vp (T w vw c d) :: ctx) ->
  (t = L -> np = p) -> root = p \/ (ctx <> [] /\ root = addr (plug ctx t)) ->
  exists h', (xp ← rd (addr t) n_parent; cl ← rd xp n_red; wr w (with_red cl);;
      wr xp (with_red false);;
      wrt ← rd w n_right; wr wrt (with_red false);;
      left_rotate xp;; mret root) h = Some (root, h') /\
    outcome root p (v_red vp) root h' np ctx (celems (Frame true p vp (T w vw c d) :: ctx) (elems t)).
Proof.
  intros K [N (CN1 & (CS1 & CS2 & CS3) & CN3) B (CB1 & CB2) Bd (CBd1 & (CBw & CBc & CBd') & CBd3) O] RT RW RD CT NP RO.
  cbn [f_val f_sib f_left f_loc caddr] in *.
  destruct (read_focus _ _ _ _ K NP) as (nx & EX & PX & _). rewrite (run_rd _ _ _ _ _ EX), PX. cbn [caddr f_loc].
  rewrite (run_rd _ _ _ _ _ (conf_parent _ _ _ _ _ K)). cbn [n_red mk f_left f_val].
  pose proof (conf_wr_sib h np _ ctx t (v_red vp)
    (fun _ => wr p (with_red false);; wrt ← rd w n_right; wr wrt (with_red false);; left_rotate p;; mret root) K) as S1.
  destruct S1 as (h1 & K1 & E1); [done|]. cbn [f_sib addr] in E1. rewrite E1. clear E1.
  unfold paint_s in K1. cbn [f_left f_loc f_val f_sib paint_t] in K1.
  destruct (conf_wr_frame h1 np _ ctx t false
    (fun _ => wrt ← rd w n_right; wr wrt (with_red false);; left_rotate p;; mret root) K1) as (h2 & K2 & E2).
  cbn [f_loc] in E2. rewrite E2. clear E2. unfold paint_f in K2. cbn [f_left f_loc f_val f_sib] in K2.
  apply conf_up_left, conf_right in K2.
  rewrite (run_rd _ _ _ _ _ (conf_node _ _ _ _ _ _ _ K2)). cbn [n_right mk].
  apply conf_right in K2. destruct d as [|dd vd d1 d2]; [done|]. cbn [addr].
  destruct (conf_wr h2 np _ dd vd (paint false vd) d1 d2 (with_red false)
    (fun _ => left_rotate p;; mret root) K2) as (h3 & K3 & ->); [done|done|].
  apply conf_up_right, conf_up_right in K3.
  destruct (left_rotate_conf _ _ _ _ _ _ _ _ _ _ K3) as (h4 & E4 & K4). rewrite (run_bind _ _ _ _ _ E4).
  exists h4. split; [done|]. unfold rotl in K4. set (d' := T dd (paint false vd) d1 d2) in *.
  set (tp := T p _ t c) in K4. set (tn := T w _ tp d') in K4.
  assert (EE : celems1 (Frame true p vp (T w vw c (T dd vd d1 d2))) (elems t) = elems tn).
  { cbn. by rewrite <- !app_assoc. }
  cbn [celems] in *. rewrite EE in *. pose proof (ordered_sub _ _ O) as O'.
  assert (Btp : bounded tp).
  { apply bounded_re; [done|done|]. apply ordered_app in O' as (O' & _ & _). exact O'. }
  assert (Btn : bounded tn) by (by apply bounded_re).
  cbn in CB1, RD. rewrite RW, RD in CB1. destruct CB1 as (m & [= <-] & Bc & B1 & B2).
  assert (BN : bht tn (if v_red vp then S n else S (S n))).
  { cbn. destruct (v_red vp); [split|exists (S n); split_and!]; try done; eexists; by split_and!. }
  assert (NT : norr t) by (destruct t; [done|]; cbn in N, RT |- *; rewrite RT; tauto).
  destruct CS3 as (_ & CS3 & CS4).
  assert (NN : norr tn) by (cbn; split_and!; done || tauto).
  assert (TOP : ctx = [] -> red tn = false) by (intros ->; exact CT).
  assert (CT' : ctop ctx) by (destruct ctx; done).
  right. assert (W : whole h4 np (celems ctx (elems tn))) 
    by (exact (whole_plug h4 np ctx tn _ K4 NN CN3 BN CB2 Btn CBd3 O CT' TOP)).
  destruct RO as [->|[NE ->]].
  - apply conf_left in K4. eexists. split; [done|]. split; [done|].
    split; [exact (conf_node _ _ _ _ _ _ _ K4)|done].
  - destruct (root_black h4 np ctx (addr (plug ctx t)) tn K4 CT' TOP (addr_plug _ _ _ NE)) as (nr & E & R).
    by exists nr.
Qed.

(** The rotation at the sibling whose left child alone is red. *)
Lemma deletion_left_inner h np p vp w vw cc vc c1 c2 d ctx t n :
  let f := Frame true p vp (T w vw (T cc vc c1 c2) d) in
  conf h np (f :: ctx) t -> short (f :: ctx) t n -> v_red vw = false -> v_red vc = true -> red d = false ->
  (t = L -> np = p) ->
  exists h' vc' vw', (wl ← rd w n_left; wr wl (with_red false);; wr w (with_red true);; right_rotate w;;
      xp ← rd (addr t) n_parent; rd xp n_right) h = Some (cc, h') /\
    let f' := Frame true p vp (T cc vc' c1 (T w vw' c2 d)) in
    conf h' np (f' :: ctx) t /\ short (f' :: ctx) t n /\ v_red vc' = false /\ v_red vw' = true /\
    celems1 f' (elems t) = celems1 f (elems t).
Proof.
  intros f K [N (CN1 & (CS1 & (CS2 & CS2' & CS2'') & CS3) & CN3) B (CB1 & CB2) Bd
    (CBd1 & (CBw & (CBc & CBc1 & CBc2) & CBd') & CBd3) O] RW RC RD NP.
  subst f. cbn [f_val f_sib f_left f_loc caddr] in *. rewrite RC in CS2. destruct (CS2 eq_refl) as [RC1 RC2].
  apply conf_up_left, conf_right in K. rewrite (run_rd _ _ _ _ _ (conf_node _ _ _ _ _ _ _ K)). cbn [n_left mk addr].
  apply conf_left in K.
  destruct (conf_wr h np _ cc vc (paint false vc) c1 c2 (with_red false)
    (fun _ => wr w (with_red true);; right_rotate w;; xp ← rd (addr t) n_parent; rd xp n_right) K)
    as (h1 & K1 & ->); [done|done|].
  apply conf_up_left in K1.
  destruct (conf_wr h1 np _ w vw (paint true vw) (T cc (paint false vc) c1 c2) d (with_red true)
    (fun _ => right_rotate w;; xp ← rd (addr t) n_parent; rd xp n_right) K1) as (h2 & K2 & ->); [done|done|].
  destruct (right_rotate_conf _ _ _ _ _ _ _ _ _ _ K2) as (h3 & E3 & K3). rewrite (run_bind _ _ _ _ _ E3).
  unfold rotr in K3. set (tw := T w _ c2 d) in K3. set (tc := T cc _ c1 tw) in K3.
  apply conf_up_right, conf_left in K3.
  destruct (read_focus _ _ _ _ K3 NP) as (nx & EX & PX & _).
  rewrite (run_rd _ _ _ _ _ EX), PX. cbn [caddr f_loc].
  pose proof (conf_parent _ _ _ _ _ K3) as EP. cbn [f_loc f_left] in EP.
  exists h3, (re_min_max (paint false vc) c1 tw), (re_min_max (paint true vw) c2 d).
  split; [unfold rd; by rewrite EP|]. cbv zeta.
  assert (EE : celems1 (Frame true p vp tc) (elems t) = celems1 (Frame true p vp (T w vw (T cc vc c1 c2) d)) (elems t)).
  { cbn. by rewrite <- !app_assoc. }
  split; [done|]. split; [|by split_and!].
  cbn [celems] in *. rewrite <- EE in *. pose proof (ordered_sub _ _ O) as O'.
  assert (OC : ordered (elems tc)).
  { cbn in O'. apply ordered_app in O' as (_ & O' & _). apply StronglySorted_inv in O' as [O' _]. exact O'. }
  assert (Btw : bounded tw).
  { apply bounded_re; [done|done|]. apply ordered_app in OC as (_ & OC & _).
    apply StronglySorted_inv in OC as [OC _]. exact OC. }
  assert (Btc : bounded tc) by (by apply bounded_re).
  cbn in CB1. rewrite RW, RC in CB1. destruct CB1 as (m & [= <-] & (B1 & B2) & B3).
  split; cbn [cnorr cbh cbounded f_val f_sib f_left f_loc celems]; try done.
  split; [|done]. cbn. exists n. by split_and!.
Qed.

(** The round for a black sibling. *)
Definition fixup_black_left (root x w : loc) : M loc :=
  wr_ ← rd w n_right; wrr ← rd wr_ n_red; wl ← rd w n_left; wlr ← rd wl n_red;
  if negb wrr && negb wlr then wr w (with_red true);; rd x n_parent
  else
    w ← (if negb wrr then
           wl ← rd w n_left; wr wl (with_red false);; wr w (with_red true);; right_rotate w;;
           xp ← rd x n_parent; rd xp n_right
         else mret w);
    xp ← rd x n_parent; c ← rd xp n_red; wr w (with_red c);;
    wr xp (with_red false);;
    wrt ← rd w n_right; wr wrt (with_red false);;
    left_rotate xp;;
    mret root.

Lemma deletion_left_black h np p vp w vw c d ctx t n root :
  let f := Frame true p vp (T w vw c d) in
  conf h np (f :: ctx) t -> short (f :: ctx) t n -> red t = false -> v_red vw = false -> ctop (f :: ctx) ->
  (t = L -> np = p) -> root = p \/ (ctx <> [] /\ root = addr (plug ctx t)) ->
  exists h' x, fixup_black_left root (addr t) w h = Some (x, h') /\
    outcome root p (v_red vp) x h' np ctx (celems (f :: ctx) (elems t)).
Proof.
  intros f K S RT RW CT NP RO. subst f. unfold fixup_black_left.
  pose proof (conf_right _ _ _ _ _ _ _ (conf_up_left _ _ _ _ _ _ _ K)) as KW.
  pose proof (conf_node _ _ _ _ _ _ _ KW) as EW.
  destruct (conf_addr _ _ _ _ (conf_left _ _ _ _ _ _ _ KW)) as (nc & EC & _ & _ & RC).
  destruct (conf_addr _ _ _ _ (conf_right _ _ _ _ _ _ _ KW)) as (nd & ED & _ & _ & RD).
  rewrite (run_rd _ _ _ _ _ EW). cbn [n_right mk]. rewrite (run_rd _ _ _ _ _ ED), (run_rd _ _ _ _ _ EW).
  cbn [n_left mk]. rewrite (run_rd _ _ _ _ _ EC), RC, RD.
  destruct (red d) eqn:D; cbn [negb andb].
  { rewrite run_ret. destruct (deletion_left_last h np p vp w vw c d ctx t n root) as (h' & E & O); try done.
    by exists h', root. }
  destruct (red c) eqn:C; cbn [negb andb].
  - destruct c as [|cc vc c1 c2]; [done|].
    destruct (deletion_left_inner h np p vp w vw cc vc c1 c2 d ctx t n) as (h1 & vc' & vw' & E1 & K1 & S1 & RC1 & RW1 & EE); try done.
    rewrite (run_bind _ _ _ _ _ E1).
    destruct (deletion_left_last h1 np p vp cc vc' c1 (T w vw' c2 d) ctx t n root) as (h' & E & O); try done.
    exists h', root. split; [done|]. cbn [celems] in *. rewrite <- EE. exact O.
  - destruct (conf_wr_sib h np _ ctx t true (fun _ => rd (addr t) n_parent) K
      ltac:(discriminate)) as (h1 & K1 & E1).
    cbn [f_sib addr] in E1. rewrite E1. clear E1. unfold paint_s in K1. cbn [f_left f_loc f_val f_sib paint_t] in K1.
    destruct (read_focus _ _ _ _ K1 NP) as (nx & EX & PX & _).
    exists h1, p. split; [unfold rd; by rewrite EX, PX|]. apply conf_up_left in K1.
    destruct S as [N (CN1 & (CS1 & CS2 & CS3) & CN3) B (CB1 & CB2) Bd (CBd1 & CBd2 & CBd3) O].
    cbn [f_val f_sib f_left f_loc] in *. left.
    exists (T p vp t (T w (paint true vw) c d)), (if v_red vp then n else Datatypes.S n). do 4 (split; [done|]).
    split; [exact K1|].
    assert (NT : norr t) by (destruct t; [done|]; cbn in N, RT |- *; rewrite RT; tauto).
    cbn in CB1. rewrite RW in CB1. destruct CB1 as (m & [= <-] & B1 & B2).
    assert (CT' : ctop ctx) by (destruct ctx; done).
    split; [|split; [done|done]]. split; try done.
    + exact (cnorr_false _ _ CN3).
    + cbn. destruct (v_red vp); [by split_and!|exists n; by split_and!].
    + by destruct (v_red vp).
Qed.

(** ** A round, for a left child *)

Lemma ctop_cons f ctx : ctop (f :: ctx) -> ctx <> [] -> ctop ctx.
Proof. by destruct ctx. Qed.

(** A red sibling: after a rotation the sibling is black. *)
Lemma deletion_left_red h np p vp w vw c d ctx t n :
  let f := Frame true p vp (T w vw c d) in
  conf h np (f :: ctx) t -> short (f :: ctx) t n -> v_red vw = true -> ctop (f :: ctx) -> (t = L -> np = p) ->
  exists h' vp' vw', (wr w (with_red false);; wr p (with_red true);; left_rotate p;;
      xp ← rd (addr t) n_parent; rd xp n_right) h = Some (addr c, h') /\
    let ctx' := Frame true p vp' c :: Frame true w vw' d :: ctx in
    conf h' np ctx' t /\ short ctx' t n /\ v_red vp' = true /\ ctop ctx' /\ red c = false /\ c <> L /\
    celems ctx' (elems t) = celems (f :: ctx) (elems t).
Proof.
  intros f K [N (CN1 & (CS1 & CS2 & CS3) & CN3) B (CB1 & CB2) Bd
    (CBd1 & (CBw & CBc & CBd') & CBd3) O] RW CT NP.
  subst f. cbn [f_val f_sib f_left f_loc caddr red] in *. rewrite RW in *. destruct (CS1 eq_refl) as [RC RD].
  assert (RP : v_red vp = false) by (destruct (v_red vp); [by destruct CN1|done]). rewrite RP in *.
  cbn in CB1. rewrite RW in CB1. destruct CB1 as [B1 B2].
  destruct (conf_wr_sib h np _ ctx t false (fun _ => wr p (with_red true);; left_rotate p;;
      xp ← rd (addr t) n_parent; rd xp n_right) K ltac:(discriminate)) as (h1 & K1 & E1).
  cbn [f_sib addr] in E1. rewrite E1. clear E1. unfold paint_s in K1. cbn [f_left f_loc f_val f_sib paint_t] in K1.
  destruct (conf_wr_frame h1 np _ ctx t true (fun _ => left_rotate p;;
      xp ← rd (addr t) n_parent; rd xp n_right) K1) as (h2 & K2 & E2).
  cbn [f_loc] in E2. rewrite E2. clear E2. unfold paint_f in K2. cbn [f_left f_loc f_val f_sib] in K2.
  apply conf_up_left in K2.
  destruct (left_rotate_conf _ _ _ _ _ _ _ _ _ _ K2) as (h3 & E3 & K3). rewrite (run_bind _ _ _ _ _ E3).
  unfold rotl in K3. set (tp := T p _ t c) in K3. set (tn := T w _ tp d) in K3.
  assert (EE : elems tn = celems1 (Frame true p vp (T w vw c d)) (elems t)).
  { cbn. by rewrite <- !app_assoc. }
  cbn [celems] in *. rewrite <- EE in *. pose proof (ordered_sub _ _ O) as O'.
  assert (Btp : bounded tp).
  { apply bounded_re; [done|done|]. apply ordered_app in O' as (O' & _ & _). exact O'. }
  assert (Btn : bounded tn) by (by apply bounded_re).
  do 2 apply conf_left in K3.
  destruct (read_focus _ _ _ _ K3 NP) as (nx & EX & PX & _).
  rewrite (run_rd _ _ _ _ _ EX), PX. cbn [caddr f_loc].
  pose proof (conf_parent _ _ _ _ _ K3) as EP. cbn [f_loc f_left] in EP.
  exists h3, (re_min_max (paint true vp) t c), (re_min_max (paint false vw) tp d).
  split; [unfold rd; by rewrite EP|]. cbv zeta. split; [done|].
  split; [|split; [done|split; [by destruct ctx|split; [done|split; [by intros ->|done]]]]].
  split; cbn [cnorr cbh cbounded f_val f_sib f_left f_loc celems]; try done.
  destruct Btp as (W1 & _), Btn as (W2 & _).
  split; [exact W1|split; [done|split; [exact W2|split; [done|exact CBd3]]]].
Qed.

(** What the loop goes on with: a subtree nearer to the root or a red one, or the
    address of the old root when all is done. *)
Definition progress (root x : loc) (h : heap) (np : loc) (len : nat) (es : list entry) : Prop :=
  (exists ctx t n, x = addr t /\ t <> L /\ conf h np ctx t /\ short ctx t n /\ ctop ctx /\
     celems ctx (elems t) = es /\
     (red t = true \/ ((length ctx <= len)%nat /\ root = addr (plug ctx t)))) \/
  (exists nr, x = root /\ whole h np es /\ h !! root = Some nr /\ n_red nr = false).

(** The address of the top, from a node and its parent. *)
Lemma root_at f ctx t t' : addr t' = f_loc f -> addr (plug (f :: ctx) t) = addr (plug ctx t').
Proof.
  intros A. cbn. destruct ctx as [|g ctx]; [cbn; by rewrite addr_plug1|by apply (addr_plug (g :: ctx))].
Qed.

Lemma fixup_deletion_left_spec h np p vp s ctx t n root :
  conf h np (Frame true p vp s :: ctx) t -> short (Frame true p vp s :: ctx) t n -> red t = false ->
  ctop (Frame true p vp s :: ctx) -> (t = L -> np = p) ->
  root = addr (plug (Frame true p vp s :: ctx) t) ->
  exists h' x, fixup_deletion_left root (addr t) p h = Some (x, h') /\
    progress root x h' np (length ctx) (celems (Frame true p vp s :: ctx) (elems t)).
Proof.
  intros K S RT CT NP RO. unfold fixup_deletion_left.
  rewrite (run_rd _ _ _ _ _ (conf_parent _ _ _ _ _ K)). cbn [n_right mk f_left f_sib].
  destruct s as [|w vw c d]; [by destruct S as [_ _ _ (X & _)]|]. cbn [addr].
  pose proof (conf_right _ _ _ _ _ _ _ (conf_up_left _ _ _ _ _ _ _ K)) as KW.
  rewrite (run_rd _ _ _ _ _ (conf_node _ _ _ _ _ _ _ KW)). cbn [n_red mk].
  destruct (v_red vw) eqn:RW.
  - destruct (deletion_left_red h np p vp w vw c d ctx t n)
      as (h1 & vp' & vw' & E1 & K1 & S1 & RP1 & CT1 & RC & NC & EE); try done.
    rewrite (run_bind _ _ _ _ _ E1). destruct c as [|cc vc c1 c2]; [done|]. cbn [addr].
    destruct (deletion_left_black h1 np p vp' cc vc c1 c2 (Frame true w vw' d :: ctx) t n root) as (h' & x & E & O);
      try done.
    { destruct ctx as [|g ctx]; [left; by subst root|right]. split; [done|]. subst root. cbn [plug].
      apply (addr_plug (g :: ctx)). done. }
    exists h', x. split; [exact E|]. rewrite <- EE. destruct O as [(t' & n' & -> & A & NL & R & K' & S' & CT' & EE')|O];
      [left|by right]. exists (Frame true w vw' d :: ctx), t', n'. rewrite R. split_and!; auto.
  - rewrite run_ret. destruct (deletion_left_black h np p vp w vw c d ctx t n root) as (h' & x & E & O); try done.
    { subst root. destruct ctx as [|g ctx]; [by left|right]. split; [done|]. by apply (addr_plug (g :: ctx)). }
    exists h', x. split; [exact E|].
    destruct O as [(t' & n' & -> & A & NL & R & K' & S' & CT' & EE')|O]; [left|by right].
    exists ctx, t', n'. split_and!; auto. right. split; [done|]. subst root. by apply root_at.
Qed.

(** ** The same for a right child *)

(** The last rotation: the sibling's left child is red. *)
Lemma deletion_right_last h np p vp w vw c d ctx t n root :
  conf h np (Frame false p vp (T w vw d c) :: ctx) t ->
  short (Frame false p vp (T w vw d c) :: ctx) t n -> red t = false ->
  v_red vw = false -> red d = true -> ctop (Frame false p vp (T w vw d c) :: ctx) ->
  (t = L -> np = p) -> root = p \/ (ctx <> [] /\ root = addr (plug ctx t)) ->
  exists h', (xp ← rd (addr t) n_parent; cl ← rd xp n_red; wr w (with_red cl);;
      wr xp (with_red false);;
      wrt ← rd w n_left; wr wrt (with_red false);;
      right_rotate xp;; mret root) h = Some (root, h') /\
    outcome root p (v_red vp) root h' np ctx (celems (Frame false p vp (T w vw d c) :: ctx) (elems t)).
Proof.
  intros K [N (CN1 & (CS1 & CS3 & CS2) & CN3) B (CB1 & CB2) Bd (CBd1 & (CBw & CBd' & CBc) & CBd3) O] RT RW RD CT NP RO.
  cbn [f_val f_sib f_left f_loc caddr] in *.
  destruct (read_focus _ _ _ _ K NP) as (nx & EX & PX & _). rewrite (run_rd _ _ _ _ _ EX), PX. cbn [caddr f_loc].
  rewrite (run_rd _ _ _ _ _ (conf_parent _ _ _ _ _ K)). cbn [n_red mk f_left f_val].
  pose proof (conf_wr_sib h np _ ctx t (v_red vp)
    (fun _ => wr p (with_red false);; wrt ← rd w n_left; wr wrt (with_red false);; right_rotate p;; mret root) K) as S1.
  destruct S1 as (h1 & K1 & E1); [done|]. cbn [f_sib addr] in E1. rewrite E1. clear E1.
  unfold paint_s in K1. cbn [f_left f_loc f_val f_sib paint_t] in K1.
  destruct (conf_wr_frame h1 np _ ctx t false
    (fun _ => wrt ← rd w n_left; wr wrt (with_red false);; right_rotate p;; mret root) K1) as (h2 & K2 & E2).
  cbn [f_loc] in E2. rewrite E2. clear E2. unfold paint_f in K2. cbn [f_left f_loc f_val f_sib] in K2.
  apply conf_up_right, conf_left in K2.
  rewrite (run_rd _ _ _ _ _ (conf_node _ _ _ _ _ _ _ K2)). cbn [n_left mk].
  apply conf_left in K2. destruct d as [|dd vd d2 d1]; [done|]. cbn [addr].
  destruct (conf_wr h2 np _ dd vd (paint false vd) d2 d1 (with_red false)
    (fun _ => right_rotate p;; mret root) K2) as (h3 & K3 & ->); [done|done|].
  apply conf_up_left, conf_up_left in K3.
  destruct (right_rotate_conf _ _ _ _ _ _ _ _ _ _ K3) as (h4 & E4 & K4). rewrite (run_bind _ _ _ _ _ E4).
  exists h4. split; [done|]. unfold rotr in K4. set (d' := T dd (paint false vd) d2 d1) in *.
  set (tp := T p _ c t) in K4. set (tn := T w _ d' tp) in K4.
  assert (EE : celems1 (Frame false p vp (T w vw (T dd vd d2 d1) c)) (elems t) = elems tn).
  { cbn. rewrite <- ?app_assoc. cbn. by rewrite <- ?app_assoc. }
  cbn [celems] in *. rewrite EE in *. pose proof (ordered_sub _ _ O) as O'.
  assert (Btp : bounded tp).
  { apply bounded_re; [done|done|]. apply ordered_app in O' as (_ & O' & _).
    apply StronglySorted_inv in O' as [O' _]. exact O'. }
  assert (Btn : bounded tn) by (by apply bounded_re).
  cbn in CB1, RD. rewrite RW, RD in CB1. destruct CB1 as (m & [= <-] & (B1 & B2) & Bc).
  assert (BN : bht tn (if v_red vp then S n else S (S n))).
  { cbn. destruct (v_red vp); [split|exists (S n); split_and!]; try done; eexists; by split_and!. }
  assert (NT : norr t) by (destruct t; [done|]; cbn in N, RT |- *; rewrite RT; tauto).
  destruct CS3 as (_ & CS3 & CS4).
  assert (NN : norr tn) by (cbn; split_and!; done || tauto).
  assert (TOP : ctx = [] -> red tn = false) by (intros ->; exact CT).
  assert (CT' : ctop ctx) by (destruct ctx; done).
  right. assert (W : whole h4 np (celems ctx (elems tn))) 
    by (exact (whole_plug h4 np ctx tn _ K4 NN CN3 BN CB2 Btn CBd3 O CT' TOP)).
  destruct RO as [->|[NE ->]].
  - apply conf_right in K4. eexists. split; [done|]. split; [done|].
    split; [exact (conf_node _ _ _ _ _ _ _ K4)|done].
  - destruct (root_black h4 np ctx (addr (plug ctx t)) tn K4 CT' TOP (addr_plug _ _ _ NE)) as (nr & E & R).
    by exists nr.
Qed.

(** The rotation at the sibling whose right child alone is red. *)
Lemma deletion_right_inner h np p vp w vw cc vc c1 c2 d ctx t n :
  let f := Frame false p vp (T w vw d (T cc vc c2 c1)) in
  conf h np (f :: ctx) t -> short (f :: ctx) t n -> v_red vw = false -> v_red vc = true -> red d = false ->
  (t = L -> np = p) ->
  exists h' vc' vw', (wl ← rd w n_right; wr wl (with_red false);; wr w (with_red true);; left_rotate w;;
      xp ← rd (addr t) n_parent; rd xp n_left) h = Some (cc, h') /\
    let f' := Frame false p vp (T cc vc' (T w vw' d c2) c1) in
    conf h' np (f' :: ctx) t /\ short (f' :: ctx) t n /\ v_red vc' = false /\ v_red vw' = true /\
    celems1 f' (elems t) = celems1 f (elems t).
Proof.
  intros f K [N (CN1 & (CS1 & CS3 & (CS2 & CS2' & CS2'')) & CN3) B (CB1 & CB2) Bd
    (CBd1 & (CBw & CBd' & (CBc & CBc2 & CBc1)) & CBd3) O] RW RC RD NP.
  subst f. cbn [f_val f_sib f_left f_loc caddr] in *. rewrite RC in CS2. destruct (CS2 eq_refl) as [RC2 RC1].
  apply conf_up_right, conf_left in K. rewrite (run_rd _ _ _ _ _ (conf_node _ _ _ _ _ _ _ K)). cbn [n_right mk addr].
  apply conf_right in K.
  destruct (conf_wr h np _ cc vc (paint false vc) c2 c1 (with_red false)
    (fun _ => wr w (with_red true);; left_rotate w;; xp ← rd (addr t) n_parent; rd xp n_left) K)
    as (h1 & K1 & ->); [done|done|].
  apply conf_up_right in K1.
  destruct (conf_wr h1 np _ w vw (paint true vw) d (T cc (paint false vc) c2 c1) (with_red true)
    (fun _ => left_rotate w;; xp ← rd (addr t) n_parent; rd xp n_left) K1) as (h2 & K2 & ->); [done|done|].
  destruct (left_rotate_conf _ _ _ _ _ _ _ _ _ _ K2) as (h3 & E3 & K3). rewrite (run_bind _ _ _ _ _ E3).
  unfold rotl in K3. set (tw := T w _ d c2) in K3. set (tc := T cc _ tw c1) in K3.
  apply conf_up_left, conf_right in K3.
  destruct (read_focus _ _ _ _ K3 NP) as (nx & EX & PX & _).
  rewrite (run_rd _ _ _ _ _ EX), PX. cbn [caddr f_loc].
  pose proof (conf_parent _ _ _ _ _ K3) as EP. cbn [f_loc f_left] in EP.
  exists h3, (re_min_max (paint false vc) tw c1), (re_min_max (paint true vw) d c2).
  split; [unfold rd; by rewrite EP|]. cbv zeta.
  assert (EE : celems1 (Frame false p vp tc) (elems t) = celems1 (Frame false p vp (T w vw d (T cc vc c2 c1))) (elems t)).
  { cbn. rewrite <- ?app_assoc. cbn. by rewrite <- ?app_assoc. }
  split; [done|]. split; [|by split_and!].
  cbn [celems] in *. rewrite <- EE in *. pose proof (ordered_sub _ _ O) as O'.
  assert (OC : ordered (elems tc)).
  { cbn in O'. apply ordered_app in O' as (O' & _ & _). exact O'. }
  assert (Btw : bounded tw).
  { apply bounded_re; [done|done|]. apply ordered_app in OC as (OC & _ & _). exact OC. }
  assert (Btc : bounded tc) by (by apply bounded_re).
  cbn in CB1. rewrite RW, RC in CB1. destruct CB1 as (m & [= <-] & B3 & (B1 & B2)).
  split; cbn [cnorr cbh cbounded f_val f_sib f_left f_loc celems]; try done.
  split; [|done]. cbn. exists n. by split_and!.
Qed.

(** The round for a black sibling; the children are still read right first. *)
Definition fixup_black_right (root x w : loc) : M loc :=
  wr_ ← rd w n_right; wrr ← rd wr_ n_red; wl ← rd w n_left; wlr ← rd wl n_red;
  if negb wrr && negb wlr then wr w (with_red true);; rd x n_parent
  else
    w ← (if negb wlr then
           wr_ ← rd w n_right; wr wr_ (with_red false);; wr w (with_red true);; left_rotate w;;
           xp ← rd x n_parent; rd xp n_left
         else mret w);
    xp ← rd x n_parent; c ← rd xp n_red; wr w (with_red c);;
    wr xp (with_red false);;
    wlt ← rd w n_left; wr wlt (with_red false);;
    right_rotate xp;;
    mret root.

Lemma deletion_right_black h np p vp w vw c d ctx t n root :
  let f := Frame false p vp (T w vw d c) in
  conf h np (f :: ctx) t -> short (f :: ctx) t n -> red t = false -> v_red vw = false -> ctop (f :: ctx) ->
  (t = L -> np = p) -> root = p \/ (ctx <> [] /\ root = addr (plug ctx t)) ->
  exists h' x, fixup_black_right root (addr t) w h = Some (x, h') /\
    outcome root p (v_red vp) x h' np ctx (celems (f :: ctx) (elems t)).
Proof.
  intros f K S RT RW CT NP RO. subst f. unfold fixup_black_right.
  pose proof (conf_left _ _ _ _ _ _ _ (conf_up_right _ _ _ _ _ _ _ K)) as KW.
  pose proof (conf_node _ _ _ _ _ _ _ KW) as EW.
  destruct (conf_addr _ _ _ _ (conf_right _ _ _ _ _ _ _ KW)) as (nc & EC & _ & _ & RC).
  destruct (conf_addr _ _ _ _ (conf_left _ _ _ _ _ _ _ KW)) as (nd & ED & _ & _ & RD).
  rewrite (run_rd _ _ _ _ _ EW). cbn [n_right mk]. rewrite (run_rd _ _ _ _ _ EC), (run_rd _ _ _ _ _ EW).
  cbn [n_left mk]. rewrite (run_rd _ _ _ _ _ ED), RC, RD, andb_comm.
  destruct (red d) eqn:D; cbn [negb andb].
  { rewrite run_ret. destruct (deletion_right_last h np p vp w vw c d ctx t n root) as (h' & E & O); try done.
    by exists h', root. }
  destruct (red c) eqn:C; cbn [negb andb].
  - destruct c as [|cc vc c2 c1]; [done|].
    destruct (deletion_right_inner h np p vp w vw cc vc c1 c2 d ctx t n) as (h1 & vc' & vw' & E1 & K1 & S1 & RC1 & RW1 & EE); try done.
    rewrite (run_bind _ _ _ _ _ E1).
    destruct (deletion_right_last h1 np p vp cc vc' c1 (T w vw' d c2) ctx t n root) as (h' & E & O); try done.
    exists h', root. split; [done|]. cbn [celems] in *. rewrite <- EE. exact O.
  - destruct (conf_wr_sib h np _ ctx t true (fun _ => rd (addr t) n_parent) K
      ltac:(discriminate)) as (h1 & K1 & E1).
    cbn [f_sib addr] in E1. rewrite E1. clear E1. unfold paint_s in K1. cbn [f_left f_loc f_val f_sib paint_t] in K1.
    destruct (read_focus _ _ _ _ K1 NP) as (nx & EX & PX & _).
    exists h1, p. split; [unfold rd; by rewrite EX, PX|]. apply conf_up_right in K1.
    destruct S as [N (CN1 & (CS1 & CS2 & CS3) & CN3) B (CB1 & CB2) Bd (CBd1 & CBd2 & CBd3) O].
    cbn [f_val f_sib f_left f_loc] in *. left.
    exists (T p vp (T w (paint true vw) d c) t), (if v_red vp then n else Datatypes.S n). do 4 (split; [done|]).
    split; [exact K1|].
    assert (NT : norr t) by (destruct t; [done|]; cbn in N, RT |- *; rewrite RT; tauto).
    cbn in CB1. rewrite RW in CB1. destruct CB1 as (m & [= <-] & B1 & B2).
    assert (CT' : ctop ctx) by (destruct ctx; done).
    split; [|split; [done|done]]. split; try done.
    + exact (cnorr_false _ _ CN3).
    + cbn. destruct (v_red vp); [by split_and!|exists n; by split_and!].
    + by destruct (v_red vp).
Qed.


(** A red sibling: after a rotation the sibling is black. *)
Lemma deletion_right_red h np p vp w vw c d ctx t n :
  let f := Frame false p vp (T w vw d c) in
  conf h np (f :: ctx) t -> short (f :: ctx) t n -> v_red vw = true -> ctop (f :: ctx) -> (t = L -> np = p) ->
  exists h' vp' vw', (wr w (with_red false);; wr p (with_red true);; right_rotate p;;
      xp ← rd (addr t) n_parent; rd xp n_left) h = Some (addr c, h') /\
    let ctx' := Frame false p vp' c :: Frame false w vw' d :: ctx in
    conf h' np ctx' t /\ short ctx' t n /\ v_red vp' = true /\ ctop ctx' /\ red c = false /\ c <> L /\
    celems ctx' (elems t) = celems (f :: ctx) (elems t).
Proof.
  intros f K [N (CN1 & (CS1 & CS3 & CS2) & CN3) B (CB1 & CB2) Bd
    (CBd1 & (CBw & CBd' & CBc) & CBd3) O] RW CT NP.
  subst f. cbn [f_val f_sib f_left f_loc caddr red] in *. rewrite RW in *. destruct (CS1 eq_refl) as [RD RC].
  assert (RP : v_red vp = false) by (destruct (v_red vp); [by destruct CN1|done]). rewrite RP in *.
  cbn in CB1. rewrite RW in CB1. destruct CB1 as [B2 B1].
  destruct (conf_wr_sib h np _ ctx t false (fun _ => wr p (with_red true);; right_rotate p;;
      xp ← rd (addr t) n_parent; rd xp n_left) K ltac:(discriminate)) as (h1 & K1 & E1).
  cbn [f_sib addr] in E1. rewrite E1. clear E1. unfold paint_s in K1. cbn [f_left f_loc f_val f_sib paint_t] in K1.
  destruct (conf_wr_frame h1 np _ ctx t true (fun _ => right_rotate p;;
      xp ← rd (addr t) n_parent; rd xp n_left) K1) as (h2 & K2 & E2).
  cbn [f_loc] in E2. rewrite E2. clear E2. unfold paint_f in K2. cbn [f_left f_loc f_val f_sib] in K2.
  apply conf_up_right in K2.
  destruct (right_rotate_conf _ _ _ _ _ _ _ _ _ _ K2) as (h3 & E3 & K3). rewrite (run_bind _ _ _ _ _ E3).
  unfold rotr in K3. set (tp := T p _ c t) in K3. set (tn := T w _ d tp) in K3.
  assert (EE : elems tn = celems1 (Frame false p vp (T w vw d c)) (elems t)).
  { cbn. rewrite <- ?app_assoc. cbn. by rewrite <- ?app_assoc. }
  cbn [celems] in *. rewrite <- EE in *. pose proof (ordered_sub _ _ O) as O'.
  assert (Btp : bounded tp).
  { apply bounded_re; [done|done|]. apply ordered_app in O' as (_ & O' & _).
    apply StronglySorted_inv in O' as [O' _]. exact O'. }
  assert (Btn : bounded tn) by (by apply bounded_re).
  do 2 apply conf_right in K3.
  destruct (read_focus _ _ _ _ K3 NP) as (nx & EX & PX & _).
  rewrite (run_rd _ _ _ _ _ EX), PX. cbn [caddr f_loc].
  pose proof (conf_parent _ _ _ _ _ K3) as EP. cbn [f_loc f_left] in EP.
  exists h3, (re_min_max (paint true vp) c t), (re_min_max (paint false vw) d tp).
  split; [unfold rd; by rewrite EP|]. cbv zeta. split; [done|].
  split; [|split; [done|split; [by destruct ctx|split; [done|split; [by intros ->|done]]]]].
  split; cbn [cnorr cbh cbounded f_val f_sib f_left f_loc celems]; try done.
  destruct Btp as (W1 & _), Btn as (W2 & _).
  split; [exact W1|split; [done|split; [exact W2|split; [done|exact CBd3]]]].
Qed.

Lemma fixup_deletion_right_spec h np p vp s ctx t n root :
  conf h np (Frame false p vp s :: ctx) t -> short (Frame false p vp s :: ctx) t n -> red t = false ->
  ctop (Frame false p vp s :: ctx) -> (t = L -> np = p) ->
  root = addr (plug (Frame false p vp s :: ctx) t) ->
  exists h' x, fixup_deletion_right root (addr t) p h = Some (x, h') /\
    progress root x h' np (length ctx) (celems (Frame false p vp s :: ctx) (elems t)).
Proof.
  intros K S RT CT NP RO. unfold fixup_deletion_right.
  rewrite (run_rd _ _ _ _ _ (conf_parent _ _ _ _ _ K)). cbn [n_left mk f_left f_sib].
  destruct s as [|w vw d c]; [by destruct S as [_ _ _ (X & _)]|]. cbn [addr].
  pose proof (conf_left _ _ _ _ _ _ _ (conf_up_right _ _ _ _ _ _ _ K)) as KW.
  rewrite (run_rd _ _ _ _ _ (conf_node _ _ _ _ _ _ _ KW)). cbn [n_red mk].
  destruct (v_red vw) eqn:RW.
  - destruct (deletion_right_red h np p vp w vw c d ctx t n)
      as (h1 & vp' & vw' & E1 & K1 & S1 & RP1 & CT1 & RC & NC & EE); try done.
    rewrite (run_bind _ _ _ _ _ E1). destruct c as [|cc vc c2 c1]; [done|]. cbn [addr].
    destruct (deletion_right_black h1 np p vp' cc vc c1 c2 (Frame false w vw' d :: ctx) t n root) as (h' & x & E & O);
      try done.
    { destruct ctx as [|g ctx]; [left; by subst root|right]. split; [done|]. subst root. cbn [plug].
      apply (addr_plug (g :: ctx)). done. }
    exists h', x. split; [exact E|]. rewrite <- EE. destruct O as [(t' & n' & -> & A & NL & R & K' & S' & CT' & EE')|O];
      [left|by right]. exists (Frame false w vw' d :: ctx), t', n'. rewrite R. split_and!; auto.
  - rewrite run_ret. destruct (deletion_right_black h np p vp w vw c d ctx t n root) as (h' & x & E & O); try done.
    { subst root. destruct ctx as [|g ctx]; [by left|right]. split; [done|]. by apply (addr_plug (g :: ctx)). }
    exists h', x. split; [exact E|].
    destruct O as [(t' & n' & -> & A & NL & R & K' & S' & CT' & EE')|O]; [left|by right].
    exists ctx, t', n'. split_and!; auto. right. split; [done|]. subst root. by apply root_at.
Qed.

(** ** The loop *)

Lemma top_outs ctx t : ctx <> [] -> addr (plug ctx t) ∈ locs (couts ctx).
Proof.
  revert t; induction ctx as [|f ctx IH]; intros t N; [done|]. rewrite couts_cons. cbn.
  destruct ctx as [|g ctx]; [cbn; rewrite addr_plug1; left|].
  right. rewrite map_app, elem_of_app. right. by apply IH.
Qed.

Lemma top_ne h np ctx t : conf h np ctx t -> ctx <> [] -> addr (plug ctx t) <> addr t.
Proof.
  intros K N E. pose proof (top_outs ctx t N) as I. rewrite E in I.
  destruct t as [|a v l r]; cbn [addr] in I.
  - apply conf_nodup' in K. apply NoDup_cons in K as [NI _]. apply NI. rewrite elem_of_app. left. by right.
  - by apply conf_locs in K as (_ & _ & _ & _ & _ & _ & _ & NI).
Qed.

(** The end of the loop at [x]: the node is painted black. *)
Lemma fixup_deletion_end h np ctx t n : conf h np ctx t -> short ctx t n -> ctop ctx ->
  red t = true \/ ctx = [] ->
  exists h', wr (addr t) (with_red false) h = Some (tt, h') /\ whole h' np (celems ctx (elems t)).
Proof.
  intros K [N CN B CB Bd CBd O] CT R.
  assert (H : exists h', wr (addr t) (with_red false) h = Some (tt, h') /\ conf h' np ctx (paint_t false t)).
  { destruct t as [|a v l r]; cbn [addr paint_t].
    - pose proof (conf_nil _ _ _ _ K) as E. rewrite (run_wr_last _ _ _ _ E). eexists. split; [done|].
      change (with_red false (nil_node np)) with (nil_node np). by rewrite insert_id.
    - rewrite (run_wr_last _ _ _ _ (conf_node _ _ _ _ _ _ _ K)). eexists. split; [done|].
      by apply (conf_set h np ctx a v (paint false v) l r). }
  destruct H as (h' & E & K'). exists h'. split; [done|]. rewrite <- (elems_paint false t) in *.
  assert (RP : red (paint_t false t) = false) by (by destruct t).
  destruct (red t) eqn:RT.
  - apply (whole_plug _ _ _ _ (S n)); try done; [by rewrite RP|by apply bht_black|by apply bounded_paint].
  - destruct R as [R| ->]; [done|]. assert (PT : bht (paint_t false t) n).
    { destruct t as [|a v l r]; [done|]. cbn in *. by rewrite RT in B. }
    apply (whole_plug _ _ _ _ n); try done. by apply bounded_paint.
Qed.

Lemma fixup_deletion_loop_root fuel (h : heap) root nr : h !! root = Some nr -> n_red nr = false ->
  (x ← fixup_deletion_loop (S fuel) root root; wr x (with_red false)) h = Some (tt, h).
Proof.
  intros E R. cbn [fixup_deletion_loop]. rewrite run_assoc, (run_rd _ _ _ _ _ E), R.
  rewrite bool_decide_true by done. cbn [orb]. rewrite run_ret, (run_wr_last _ _ _ _ E).
  replace (with_red false nr) with nr by (destruct nr; cbn in *; by subst). by rewrite insert_id.
Qed.

Lemma fixup_deletion_spec fuel h np ctx t n root : (S (length ctx) < fuel)%nat ->
  conf h np ctx t -> short ctx t n -> ctop ctx -> (t = L -> np = caddr ctx) -> root = addr (plug ctx t) ->
  exists h', (x ← fixup_deletion_loop fuel root (addr t); wr x (with_red false)) h = Some (tt, h') /\
    whole h' np (celems ctx (elems t)).
Proof.
  revert h ctx t n. induction fuel as [|fuel IH]; intros h ctx t n F K S CT NP RO; [lia|].
  cbn [fixup_deletion_loop]. destruct (read_focus _ _ _ _ K NP) as (nx & EX & PX & RX).
  rewrite run_assoc, (run_rd _ _ _ _ _ EX), RX.
  destruct (red t) eqn:RT; cbn [orb].
  { rewrite run_ret. apply (fixup_deletion_end _ _ _ _ n); auto. }
  destruct ctx as [|f ctx].
  { rewrite bool_decide_true by done. rewrite run_ret. apply (fixup_deletion_end _ _ _ _ n); auto. }
  rewrite bool_decide_false by (subst root; by eapply top_ne).
  rewrite run_assoc, (run_rd _ _ _ _ _ EX), PX. cbn [caddr] in *.
  rewrite run_assoc, (run_rd _ _ _ _ _ (conf_parent _ _ _ _ _ K)).
  assert (P : exists h' x, (if decide (addr t = n_left (if f_left f
        then mk (f_val f) (addr t) (addr (f_sib f)) (caddr ctx)
        else mk (f_val f) (addr (f_sib f)) (addr t) (caddr ctx)))
      then fixup_deletion_left root (addr t) (f_loc f) else fixup_deletion_right root (addr t) (f_loc f)) h =
        Some (x, h') /\ progress root x h' np (length ctx) (celems (f :: ctx) (elems t))).
  { destruct f as [[] p vp s]; cbn [f_left f_loc f_val f_sib n_left mk] in *.
    - rewrite decide_True by done. by apply (fixup_deletion_left_spec _ _ _ _ _ _ _ n).
    - rewrite decide_False; [by apply (fixup_deletion_right_spec _ _ _ _ _ _ _ n)|].
      destruct t as [|a v l r]; [|by eapply conf_ne_sib in K].
      destruct s as [|w vw c d]; [by destruct S as [_ _ _ (X & _)]|].
      apply conf_up_right, conf_left, conf_locs in K as (NN & _). cbn. congruence. }
  destruct P as (h1 & x & E1 & P). rewrite run_assoc, (run_bind _ _ _ _ _ E1).
  destruct fuel as [|fuel]; [cbn in F; lia|].
  destruct P as [(ctx' & t' & n' & -> & NL & K' & S' & CT' & EE & PR)|(nr & -> & W & ER & RR)].
  - rewrite <- EE. destruct PR as [RT'|[LE RO']].
    + destruct (read_focus _ _ _ _ K' ltac:(done)) as (ny & EY & _ & RY).
      cbn [fixup_deletion_loop]. rewrite run_assoc, (run_rd _ _ _ _ _ EY), RY, RT'. cbn [orb].
      rewrite run_ret. apply (fixup_deletion_end _ _ _ _ n'); auto.
    + apply (IH h1 ctx' t' n'); try done. cbn in F. lia.
  - exists h1. split; [|done]. by apply (fixup_deletion_loop_root fuel h1 root nr).
Qed.
