(* ===== verification/IntervalTreeRemove.v ===== *)
(** * IntervalTreeRemove: removal from the interval tree

    Splicing a node out, the successor that takes the place of the node removed,
    and with the loop of IntervalTreeDelete the effect of [remove_node]. *)

From stdpp Require Import base list strings numbers gmap sorting.
From Stdlib Require Import ZArith Lia.
From S2P Require Import Prelude IntervalTree IntervalTreeRep IntervalTreeRotate IntervalTreeSearch.
From S2P Require Import IntervalTreeZip IntervalTreeInsert IntervalTreeLeaf IntervalTreeDelete.

(** ** Contexts put together *)

Lemma plug_app c1 c2 t : plug (c1 ++ c2) t = plug c2 (plug c1 t).
Proof. revert t; induction c1 as [|f c1 IH]; intros t; [done|]. apply IH. Qed.

Lemma celems_app c1 c2 es : celems (c1 ++ c2) es = celems c2 (celems c1 es).
Proof. revert es; induction c1 as [|f c1 IH]; intros es; [done|]. apply IH. Qed.

Lemma crefit_app c1 c2 t : crefit (c1 ++ c2) t = crefit c1 t ++ crefit c2 (plug (crefit c1 t) t).
Proof. revert t; induction c1 as [|f c1 IH]; intros t; [done|]. cbn. by rewrite IH. Qed.

Lemma conf_enter h np c1 c2 t : conf h np c2 (plug c1 t) -> conf h np (c1 ++ c2) t.
Proof.
  revert t; induction c1 as [|f c1 IH]; intros t K; [done|]. cbn in *.
  apply (proj2 (conf_plug1 h np f (c1 ++ c2) t)). by apply IH.
Qed.

Lemma conf_leave h np c1 c2 t : conf h np (c1 ++ c2) t -> conf h np c2 (plug c1 t).
Proof.
  revert t; induction c1 as [|f c1 IH]; intros t K; [done|]. cbn in *. apply conf_up in K. by apply IH.
Qed.

Lemma find_node t z : z ∈ locs (elems t) -> exists ctx v l r, t = plug ctx (T z v l r).
Proof.
  induction t as [|a v l IHl r IHr]; cbn; [intros I; inversion I|].
  rewrite map_app, elem_of_app. cbn. rewrite elem_of_cons. intros [I|[->|I]].
  - destruct (IHl I) as (ctx & w & l' & r' & ->). exists (ctx ++ [Frame true a v r]), w, l', r'. by rewrite plug_app.
  - by exists [], v, l, r.
  - destruct (IHr I) as (ctx & w & l' & r' & ->). exists (ctx ++ [Frame false a v l]), w, l', r'. by rewrite plug_app.
Qed.

Lemma leftmost_spec fuel h np ctx t : (tsize t < fuel)%nat -> t <> L -> conf h np ctx t ->
  exists c y v x, leftmost fuel (addr t) h = Some (y, h) /\ t = plug c (T y v L x) /\
    Forall (fun f => f_left f = true) c.
Proof.
  revert ctx t; induction fuel as [|fuel IH]; intros ctx t F N K; [lia|].
  destruct t as [|a v l r]; [done|]. cbn [leftmost addr].
  rewrite (run_rd _ _ _ _ _ (conf_node _ _ _ _ _ _ _ K)). cbn [n_left mk].
  destruct l as [|b w l1 l2]; cbn [addr].
  - rewrite decide_True by done. by exists [], a, v, r.
  - apply conf_left in K. pose proof (conf_locs _ _ _ _ _ _ _ K) as (NN & _). rewrite decide_False by done.
    destruct (IH _ (T b w l1 l2) ltac:(cbn in *; lia) ltac:(done) K) as (c & y & v' & x & E & EQ & FL).
    exists (c ++ [Frame true a v r]), y, v', x. split; [done|]. split; [by rewrite plug_app, <- EQ|].
    apply Forall_app. split; [done|]. by repeat constructor.
Qed.

(** ** Splicing out *)

(** The only child. *)
Definition only (l r : tree) : tree := match l with L => r | _ => l end.

(** The nodes around the node in focus are apart. *)
Lemma conf_apart h np ctx a v l r : conf h np ctx (T a v l r) ->
  NoDup (NIL :: a :: ROOT :: locs (couts ctx) ++ locs (elems l) ++ locs (elems r)).
Proof.
  intros K. apply conf_nodup' in K. revert K. apply nodup_perm. cbn [elems]. rewrite !map_app. cbn. solve_Permutation.
Qed.

Lemma caddr_not_in h np ctx a v l r X : conf h np ctx (T a v l r) -> (forall e, e ∈ locs (elems X) -> e ∈ locs (elems l) ++ locs (elems r)) ->
  caddr ctx ∉ locs (elems X) /\ caddr ctx <> NIL /\ NIL ∉ locs (elems X) /\ ROOT ∉ locs (elems X) /\ a ∉ locs (elems X).
Proof.
  intros K S. apply conf_apart in K. pose proof (caddr_outs ctx) as PO.
  apply NoDup_cons in K as [K1 K]. apply NoDup_cons in K as [K2 K].
  change (NoDup ((ROOT :: locs (couts ctx)) ++ locs (elems l) ++ locs (elems r))) in K.
  change (a ∉ (ROOT :: locs (couts ctx)) ++ locs (elems l) ++ locs (elems r)) in K2.
  apply NoDup_app in K as (_ & K & _).
  rewrite !elem_of_cons, elem_of_app in K1. rewrite elem_of_app in K2. rewrite elem_of_cons in PO.
  split_and!.
  - intros I. refine (K _ _ (S _ I)). by apply elem_of_cons.
  - intros E. rewrite E in PO. destruct PO as [PO|PO]; [by apply K1; auto|]. apply K1. auto.
  - intros I. apply K1. right. right. right. exact (S _ I).
  - intros I. refine (K ROOT _ (S _ I)). left.
  - intros I. apply K2. right. exact (S _ I).
Qed.

Lemma only_elems l r : l = L \/ r = L -> elems l ++ elems r = elems (only l r).
Proof. intros [-> | ->]; [done|]. rewrite app_nil_r. by destruct l. Qed.

Lemma frame_not_root h np f ctx t : conf h np (f :: ctx) t -> f_loc f <> ROOT.
Proof.
  intros K E. apply nodup_couts in K. rewrite couts_cons in K. cbn in K.
  apply NoDup_cons in K as [K _]. apply K. rewrite E. left.
Qed.

(** The program of [splice_out] from the write of the parent on. *)
Lemma splice_run h np ctx y v l r nx nc : conf h np ctx (T y v l r) -> l = L \/ r = L ->
  h !! addr (only l r) = Some nx -> h !! caddr ctx = Some nc ->
  splice_out y h = Some (addr (only l r),
    <[caddr ctx := set_child y (addr (only l r)) nc]> (<[addr (only l r) := with_parent (caddr ctx) nx]> h)).
Proof.
  intros K LR EX EC. set (X := only l r) in *.
  pose proof (conf_node _ _ _ _ _ _ _ K) as EY. pose proof (conf_locs _ _ _ _ _ _ _ K) as (NY & NR & NC & NL & NRr & _ & _ & YC).
  assert (YX : y <> addr X) by (unfold X; destruct l; done).
  assert (CX : caddr ctx <> addr X).
  { assert (S : forall e, e ∈ locs (elems X) -> e ∈ locs (elems l) ++ locs (elems r)).
    { intros e. unfold X. rewrite <- map_app, only_elems by done. done. }
    destruct (caddr_not_in _ _ _ _ _ _ _ _ K S) as (NI & NN & _). intros E.
    destruct (addr_elem X) as [F|F]; [congruence|]. by rewrite <- E in F. }
  unfold splice_out. rewrite (run_rd _ _ _ _ _ EY). cbn [n_left mk].
  assert (AX : (if decide (addr l = NIL) then rd y n_right else mret (addr l)) h = Some (addr X, h)).
  { unfold X. destruct l as [|a w l1 l2]; cbn [addr only].
    - rewrite decide_True by done. unfold rd. by rewrite EY.
    - apply conf_left, conf_locs in K as (N & _). by rewrite decide_False. }
  rewrite (run_bind _ _ _ _ _ AX), (run_rd _ _ _ _ _ EY). cbn [n_parent mk].
  rewrite (run_wr _ _ _ _ _ EX). erewrite run_rd by (apply lookup_insert_eq). cbn [n_parent with_parent].
  set (h1 := <[addr X := with_parent (caddr ctx) nx]> h).
  assert (EC1 : h1 !! caddr ctx = Some nc) by (unfold h1; by rewrite lookup_insert_ne).
  destruct ctx as [|f ctx].
  - cbn [caddr] in *. rewrite decide_True by done. rewrite (run_wr _ _ _ _ _ EC1).
    destruct K as [_ (n & E & (EL & _)) _ _]. assert (n = nc) as -> by congruence. cbn [addr] in EL.
    unfold set_child. by rewrite decide_True.
  - rewrite decide_False by (intros E; by apply frame_not_root in K).
    rewrite run_assoc, (run_rd _ _ _ _ _ EC1). by rewrite (run_child _ _ _ _ _ _ EC1).
Qed.

Lemma splice_out_spec h np ctx y v l r : conf h np ctx (T y v l r) -> l = L \/ r = L ->
  exists h' np', splice_out y h = Some (addr (only l r), h') /\ conf h' np' ctx (only l r) /\
    (only l r = L -> np' = caddr ctx) /\ (only l r <> L -> np' = np) /\ h' !! y = h !! y.
Proof.
  intros K LR. set (X := only l r).
  assert (SX : forall e, e ∈ locs (elems X) -> e ∈ locs (elems l) ++ locs (elems r)).
  { intros e. unfold X. by rewrite <- map_app, only_elems. }
  destruct (caddr_not_in _ _ _ _ _ _ _ _ K SX) as (CX & CN & NX & RX & YX).
  assert (RP : rep h y X) by (destruct K as [(_ & Rl & Rr) _ _ _]; unfold X; destruct l; done).
  pose proof (conf_locs _ _ _ _ _ _ _ K) as (NY & NR & NC & _ & _ & _ & _ & YC).
  destruct (rep_addr _ _ _ _ RP (conf_nil _ _ _ _ K)) as (nx & EX & _).
  destruct (repc_caddr _ _ _ (conf_ctx _ _ _ _ K)) as (nc & EC).
  pose proof (splice_run _ _ _ _ _ _ _ _ _ K LR EX EC) as RUN. fold X in RUN.
  set (h1 := <[addr X := with_parent (caddr ctx) nx]> h) in RUN.
  set (h2 := <[caddr ctx := set_child y (addr X) nc]> h1) in RUN.
  pose proof (conf_apart _ _ _ _ _ _ _ K) as D. rewrite <- map_app, only_elems in D by done. fold X in D.
  assert (CA : caddr ctx <> addr X) by (intros E; destruct (addr_elem X) as [F|F]; [congruence|by rewrite <- E in F]).
  assert (D2 : NoDup (NIL :: ROOT :: locs (celems ctx (elems X)))).
  { apply (nodup_perm _ (y :: NIL :: ROOT :: locs (celems ctx (elems X)))) in D; [by apply NoDup_cons in D as [_ D]|].
    rewrite celems_couts, map_app. solve_Permutation. }
  assert (AX : forall a, a ∈ ROOT :: locs (couts ctx) -> a <> addr X).
  { intros a A ->. apply NoDup_cons in D as [D0 D]. apply NoDup_cons in D as [_ D].
    change (NoDup ((ROOT :: locs (couts ctx)) ++ locs (elems X))) in D. apply NoDup_app in D as (_ & D & _).
    destruct (addr_elem X) as [F|F]; [|exact (D _ A F)]. rewrite F in A. apply D0. right.
    apply elem_of_cons in A as [A|A]; [by rewrite A; left|right; rewrite elem_of_app; by left]. }
  assert (YA : y <> addr X) by (intros E; destruct (addr_elem X) as [F|F]; [congruence|by rewrite <- E in F]).
  assert (LX : addr X = NIL <-> X = L).
  { split; [|by intros ->]. intros E. destruct X as [|a w x1 x2]; [done|]. destruct NX. rewrite <- E.
    cbn. rewrite map_app, elem_of_app. right. left. }
  exists h2, (if decide (addr X = NIL) then caddr ctx else np).
  split; [done|]. split; [split|split_and!].
  - apply (rep_parent h _ y); [done| | |].
    + apply NoDup_cons in D as [_ D]. apply NoDup_cons in D as [_ D]. apply NoDup_cons in D as [_ D].
      by apply NoDup_app in D as (_ & _ & D).
    + intros a A NA. unfold h2, h1. rewrite !lookup_insert_ne; [done|done|]. by intros <-.
    + intros n _ E. assert (n = nx) as -> by congruence. unfold h2, h1. rewrite lookup_insert_ne by done.
      by rewrite lookup_insert_eq.
  - apply (repc_hole h _ ctx y _ nc); [by destruct K|by eapply nodup_couts|done|done| |done|by unfold h2; rewrite lookup_insert_eq].
    intros a A NA. unfold h2, h1. rewrite !lookup_insert_ne; [done| |done]. intros E. by apply (AX a).
  - unfold h2, h1. rewrite lookup_insert_ne by done. pose proof (conf_nil _ _ _ _ K) as EN.
    case_decide as E; [rewrite E in *|by rewrite lookup_insert_ne].
    rewrite lookup_insert_eq. by assert (nx = nil_node np) as -> by congruence.
  - done.
  - intros E. rewrite decide_True; tauto.
  - intros E. rewrite decide_False; tauto.
  - unfold h2, h1. rewrite !lookup_insert_ne; done.
Qed.

(** ** Taking the place of the node removed *)

Definition unbounded (v : val) : val := Val (v_start v) (v_end v) TIME_MIN TIME_MAX (v_red v) (v_comp v).

Lemma take_place_exec h y vy a b c z vz la lb p na nb np :
  h !! y = Some (mk vy a b c) -> h !! z = Some (mk vz la lb p) -> h !! p = Some np ->
  h !! la = Some na -> h !! lb = Some nb -> NoDup [y; z; p; la; lb] ->
  exists h', take_place y z h = Some (tt, h') /\
    h' !! y = Some (mk (unbounded vy) la lb p) /\ h' !! p = Some (set_child z y np) /\
    h' !! la = Some (with_parent y na) /\ h' !! lb = Some (with_parent y nb) /\
    (forall q, q ∉ [y; p; la; lb] -> h' !! q = h !! q).
Proof.
  intros Y Z P A B D.
  assert (y <> z /\ y <> p /\ y <> la /\ y <> lb /\ z <> p /\ z <> la /\ z <> lb /\ p <> la /\ p <> lb /\ la <> lb)
    as (? & ? & ? & ? & ? & ? & ? & ? & ? & ?).
  { repeat (apply NoDup_cons in D as [? D]). rewrite !elem_of_cons in *. clear -H H0 H1 H2. naive_solver. }
  clear D. unfold take_place. repeat step. unfold set_child.
  case_decide; (erewrite run_wr_last by cell); eexists; (split; [done|]).
  all: split_and!; try cell.
  all: intros q Q; rewrite !not_elem_of_cons in Q; destruct Q as (? & ? & ? & ? & _); cell.
Qed.

Lemma apart_parts (z : loc) (O A B : list loc) : NoDup (NIL :: z :: ROOT :: O ++ A ++ B) ->
  NoDup A /\ NoDup B /\ (forall q, q ∈ A -> q ∉ B) /\ (forall q, q ∈ ROOT :: O -> q ∉ A /\ q ∉ B /\ q <> NIL).
Proof.
  intros D. apply NoDup_cons in D as [D1 D]. apply NoDup_cons in D as [_ D].
  change (NoDup ((ROOT :: O) ++ A ++ B)) in D. apply NoDup_app in D as (_ & D2 & D).
  apply NoDup_app in D as (DA & D3 & DB). split_and!; [done|done|done|].
  intros q Q. specialize (D2 q Q). rewrite elem_of_app in D2. split_and!; [tauto|tauto|].
  intros ->. apply D1. right. apply elem_of_cons in Q as [Q|Q]; [by rewrite Q; left|].
  right. rewrite elem_of_app. by left.
Qed.

Lemma take_place_spec h np ctx z vz l R y vy a b c : conf h np ctx (T z vz l R) -> l <> L ->
  h !! y = Some (mk vy a b c) -> y ∉ NIL :: ROOT :: locs (celems ctx (elems (T z vz l R))) ->
  exists h' np', take_place y z h = Some (tt, h') /\ conf h' np' ctx (T y (unbounded vy) l R) /\
    (R = L -> np' = y) /\ (R <> L -> np' = np) /\ h' !! z = h !! z.
Proof.
  intros K LN EY YO.
  pose proof (conf_node _ _ _ _ _ _ _ K) as EZ.
  pose proof (conf_locs _ _ _ _ _ _ _ K) as (NZ & NR & NC & NL & NRr & ZL & ZR & ZC).
  destruct (caddr_not_in _ _ _ _ _ _ _ l K) as (CL & CN & NiL & RoL & _); [intros; apply elem_of_app; by left|].
  destruct (caddr_not_in _ _ _ _ _ _ _ R K) as (CR & _ & NiR & RoR & _); [intros; apply elem_of_app; by right|].
  destruct (conf_addr _ _ _ _ (conf_left _ _ _ _ _ _ _ K)) as (nl & EL & _).
  destruct (conf_addr _ _ _ _ (conf_right _ _ _ _ _ _ _ K)) as (nr & ER & _).
  destruct (repc_caddr _ _ _ (conf_ctx _ _ _ _ K)) as (nc & EC).
  assert (PE : locs (celems ctx (elems (T z vz l R))) ≡ₚ z :: locs (couts ctx) ++ locs (elems l) ++ locs (elems R)).
  { rewrite celems_couts. cbn [elems]. rewrite !map_app. cbn. solve_Permutation. }
  rewrite PE in YO. pose proof (conf_apart _ _ _ _ _ _ _ K) as D.
  assert (AL : addr l ∈ locs (elems l)) by (destruct l; [done|]; cbn; rewrite map_app, elem_of_app; right; left).
  destruct (apart_parts _ _ _ _ D) as (DA & DB & AB & OAB). pose proof (caddr_outs ctx) as CO.
  rewrite !elem_of_cons, !elem_of_app in YO.
  assert (AR : addr R = NIL \/ addr R ∈ locs (elems R)) by apply addr_elem.
  assert (YL : y <> addr l) by (intros ->; tauto). assert (YR : y <> addr R) by (intros ->; tauto).
  assert (YC : y <> caddr ctx) by (intros ->; apply elem_of_cons in CO; tauto).
  assert (YZ : y <> z) by (intros ->; tauto).
  assert (LR : addr l <> addr R) by (intros E; destruct AR as [AR|AR]; [congruence|by apply (AB _ AL); rewrite E]).
  assert (CaL : caddr ctx <> addr l) by (intros E; by rewrite <- E in AL).
  assert (CaR : caddr ctx <> addr R) by (intros E; destruct AR as [AR|AR]; [congruence|by rewrite <- E in AR]).
  assert (D3 : NoDup [y; z; caddr ctx; addr l; addr R]).
  { repeat (apply NoDup_cons; split; [rewrite ?not_elem_of_cons; split_and?; try done; apply not_elem_of_nil|]).
    apply NoDup_nil_2. }
  destruct (take_place_exec _ _ _ _ _ _ _ _ _ _ _ _ _ _ EY EZ EC EL ER D3) as (h' & RUN & HY & HP & HL & HR & FR).
  assert (FR' : forall q, q <> y -> q <> caddr ctx -> q <> addr l -> q <> addr R -> h' !! q = h !! q).
  { intros q Q1 Q2 Q3 Q4. apply FR. rewrite !not_elem_of_cons. split_and!; try done. apply not_elem_of_nil. }
  assert (LX : addr R = NIL <-> R = L).
  { split; [|by intros ->]. intros E. destruct R as [|q w x1 x2]; [done|]. destruct NiR. rewrite <- E.
    cbn. rewrite map_app, elem_of_app. right. left. }
  exists h', (if decide (addr R = NIL) then y else np).
  split; [done|]. split; [split|].
  - cbn [rep]. split; [done|]. split.
    + apply (rep_parent h _ z); [by destruct K as [(_ & ? & _) _ _ _]|done| |by intros n _ E; congruence].
      intros q Q NQ. apply FR'; [by intros ->; tauto|by intros ->|done|].
      intros ->. destruct AR as [AR|AR]; [by rewrite AR in Q|by apply (AB _ Q)].
    + apply (rep_parent h _ z); [by destruct K as [(_ & _ & ?) _ _ _]|done| |by intros n _ E; congruence].
      intros q Q NQ. apply FR'; [by intros ->; tauto|by intros ->| |done]. intros ->. by apply (AB _ AL).
  - cbn [addr]. apply (repc_hole h _ ctx z y nc); try done; [by destruct K|by eapply nodup_couts|].
    intros q Q NQ. destruct (OAB q Q) as (QA & QB & QN). apply FR'; try done.
    + intros ->. apply elem_of_cons in Q. tauto.
    + by intros ->.
    + intros ->. by destruct AR as [AR|AR].
  - pose proof (conf_nil _ _ _ _ K) as EN. case_decide as E.
    + rewrite E in *. rewrite HR. by assert (nr = nil_node np) as -> by congruence.
    + rewrite FR'; [done| | |by intros F; rewrite <- F in AL|done]; intros F; [symmetry in F; tauto|by rewrite <- F in CN].
  - apply (nodup_perm (y :: NIL :: ROOT :: locs (couts ctx) ++ locs (elems l) ++ locs (elems R))).
    + cbn [elems]. rewrite celems_couts, !map_app. cbn. solve_Permutation.
    + apply NoDup_cons. split; [rewrite !elem_of_cons, !elem_of_app; tauto|].
      apply (nodup_perm _ (z :: NIL :: ROOT :: locs (couts ctx) ++ locs (elems l) ++ locs (elems R))) in D; [|solve_Permutation].
      by apply NoDup_cons in D as [_ D].
  - split; [intros E; by rewrite decide_True by tauto|]. split; [intros E; by rewrite decide_False by tauto|].
    apply FR'; done.
Qed.

(** ** Contexts that differ in entries and bounds only *)

Definition alike (f g : frame) : Prop := v_red (f_val f) = v_red (f_val g) /\ f_sib f = f_sib g.

Lemma alike_cnorr c1 c2 c : Forall2 alike c1 c2 -> cnorr c1 c -> cnorr c2 c.
Proof.
  intros F; revert c; induction F as [|f g c1 c2 [E1 E2] F IH]; intros c; [done|]. cbn.
  rewrite E1, E2. intros (A & B & C). split_and!; auto.
Qed.

Lemma alike_cbh c1 c2 n : Forall2 alike c1 c2 -> cbh c1 n -> cbh c2 n.
Proof.
  intros F; revert n; induction F as [|f g c1 c2 [E1 E2] F IH]; intros n; [done|]. cbn.
  rewrite E1, E2. intros (A & B). split; auto.
Qed.

Lemma alike_ctop c1 c2 : Forall2 alike c1 c2 -> ctop c1 -> ctop c2.
Proof.
  induction 1 as [|f g c1 c2 [E1 _] F IH]; [done|]. cbn. destruct F; [by rewrite E1|done].
Qed.

Lemma alike_refl c : Forall2 alike c c.
Proof. by induction c as [|f c IH]; repeat constructor. Qed.

Lemma alike_crefit c t : Forall2 alike c (crefit c t).
Proof. revert t; induction c as [|f c IH]; intros t; [done|]. constructor; [by destruct f as [[] ? ? ?]|apply IH]. Qed.

(** ** The end of a removal *)

(** The node spliced out was red, or the loop repairs the black height. *)
Lemma removal_end fuel h np ctx t n c : (S (length ctx) < fuel)%nat ->
  conf h np ctx t -> (t = L -> np = caddr ctx) -> ctop ctx -> norr t -> cnorr ctx c -> (ctx = [] -> c = false) ->
  (c = true -> red t = false) -> bht t n -> cbh ctx (if c then n else S n) -> bounded t -> cbounded ctx (elems t) ->
  ordered (celems ctx (elems t)) ->
  exists h', (if negb c then intervaltree_fixup_deletion fuel (addr t) else mret tt) h = Some (tt, h') /\
    whole h' np (celems ctx (elems t)).
Proof.
  intros F K NP CT N CN TC RT B CB Bd CBd O. destruct c; cbn [negb].
  - exists h. split; [done|]. apply (whole_plug h np ctx t n); try done; [rewrite RT by done; by eapply cnorr_false|].
    intros E. by specialize (TC E).
  - unfold intervaltree_fixup_deletion. pose proof (proj1 (conf_plug _ _ _ _) K) as K'.
    destruct (conf_root _ _ _ K') as (nr & ER & (EL & _)). rewrite (run_rd _ _ _ _ _ ER), EL.
    apply (fixup_deletion_spec fuel h np ctx t n); try done. split; try done. by apply norr_black.
Qed.

Lemma ordered_drop a e b : ordered (a ++ e :: b) -> ordered (a ++ b).
Proof.
  rewrite !ordered_app. intros (A & B & X). apply StronglySorted_inv in B as [B _]. split_and!; try done.
  intros x y I J. apply X; [done|by right].
Qed.

(** What a red-black tree says of a node with one child. *)
Lemma bht_only y v l r n : bht (T y v l r) n -> l = L \/ r = L ->
  exists m, bht (only l r) m /\ n = if v_red v then m else S m.
Proof.
  cbn. intros B LR. destruct (v_red v); [destruct B as [Bl Br]; exists n|destruct B as (m & -> & Bl & Br); exists m];
    (destruct LR as [-> | ->]; [done|by destruct l]).
Qed.

Lemma norr_only y v l r : norr (T y v l r) -> l = L \/ r = L ->
  norr (only l r) /\ (v_red v = true -> red (only l r) = false).
Proof. cbn. intros (C & Nl & Nr) [-> | ->]; [|destruct l]; cbn in *; tauto. Qed.

Lemma bounded_only y v l r : bounded (T y v l r) -> bounded (only l r).
Proof. cbn. intros (_ & Bl & Br). by destruct l. Qed.

(** What the invariants of the tree say at a node with one child. *)
Lemma good_at ctx y v l r : good (plug ctx (T y v l r)) -> l = L \/ r = L ->
  let X := only l r in
  norr X /\ (v_red v = true -> red X = false) /\ cnorr ctx (v_red v) /\ bounded X /\ cbsibs ctx /\ ctop ctx /\
  (ctx = [] -> v_red v = false) /\ (exists m, bht X m /\ cbh ctx (if v_red v then m else S m)) /\
  ordered (celems ctx (elems (T y v l r))) /\ ordered (celems ctx (elems X)).
Proof.
  intros [O B N R (n & BH)] LR X. apply bounded_unplug in B as [B BS]. apply norr_unplug in N as [N CN].
  pose proof (ctop_unplug _ _ R) as CT. apply bht_unplug in BH as (k & BH & CB). rewrite elems_plug in O.
  destruct (norr_only _ _ _ _ N LR) as [NX RX]. destruct (bht_only _ _ _ _ _ BH LR) as (m & BX & ->).
  apply bounded_only in B. split_and!; try done; [by intros ->|by exists m|].
  rewrite !celems_split in *. cbn [elems] in O. unfold X. rewrite <- only_elems by done.
  rewrite <- app_assoc in O |- *. cbn in O. rewrite app_assoc in O |- *. by apply ordered_drop in O.
Qed.

Lemma frames_couts q ctx : q ∈ map f_loc ctx -> q ∈ locs (couts ctx).
Proof.
  induction ctx as [|f ctx IH]; [done|]. rewrite couts_cons. cbn. rewrite !elem_of_cons, map_app, elem_of_app. intros [I|I]; auto.
Qed.

(** [z] has at most one child. *)
Lemma remove_leaf fuel h np ctx z vz l r : conf h np ctx (T z vz l r) -> good (plug ctx (T z vz l r)) ->
  (S (tsize (plug ctx (T z vz l r))) < fuel)%nat -> l = L \/ r = L ->
  exists h' np', remove_node fuel z h = Some (tt, h') /\ whole h' np' (celems ctx (elems (only l r))).
Proof.
  intros K G F LR. destruct (good_at _ _ _ _ _ G LR) as (NX & RX & CN & BX & BS & CT & TC & (m & BH & CB) & _ & O).
  pose proof (tsize_plug ctx (T z vz l r)) as TS. cbn [tsize] in TS.
  unfold remove_node. rewrite (run_rd _ _ _ _ _ (conf_node _ _ _ _ _ _ _ K)).
  rewrite (run_rd _ _ _ _ _ (conf_node _ _ _ _ _ _ _ K)). cbn [n_left n_right mk].
  assert (C : bool_decide (addr l = NIL) || bool_decide (addr r = NIL) = true)
    by (destruct LR as [-> | ->]; [done|apply orb_true_r]).
  rewrite C, run_ret. clear C.
  destruct (splice_out_spec _ _ _ _ _ _ _ K LR) as (h1 & np1 & E1 & K1 & P1 & _ & Z1).
  rewrite (run_bind _ _ _ _ _ E1), decide_True by done.
  destruct (read_focus _ _ _ _ K1 P1) as (nx & EX & PX & _). rewrite (run_rd _ _ _ _ _ EX), PX.
  destruct (fixup_min_max_spec fuel h1 np1 ctx _ ltac:(lia) K1) as (h2 & E2 & K2 & Q2).
  rewrite (run_bind _ _ _ _ _ E2).
  assert (Z2 : h2 !! z = Some (mk vz (addr l) (addr r) (caddr ctx))).
  { rewrite Q2, Z1; [by apply conf_node in K|]. apply conf_locs in K as (_ & _ & _ & _ & _ & _ & _ & NI).
    intros I. by apply NI, frames_couts. }
  rewrite (run_rd _ _ _ _ _ Z2). cbn [n_red mk].
  destruct (removal_end fuel h2 np1 (crefit ctx (only l r)) (only l r) m (v_red vz)) as (h3 & E3 & W); try done.
  - rewrite crefit_length. lia.
  - intros E. rewrite P1 by done. by destruct ctx.
  - by apply ctop_crefit.
  - by apply cnorr_crefit.
  - intros E. apply TC. by destruct ctx.
  - by apply cbh_crefit.
  - by apply cbounded_crefit.
  - by rewrite celems_crefit.
  - rewrite celems_crefit in W. by exists h3, np1.
Qed.

(** ** The node after [z] takes its place *)

Lemma run_bind3 {A B D} (m : M A) (f : M B) (g : B -> M unit) (k : M D) h h' :
  (m;; (x ← f; g x)) h = Some (tt, h') -> (m;; (x ← f; g x;; k)) h = k h'.
Proof.
  unfold mbind, M_bind. destruct (m h) as [[a h1]|]; [|done]. destruct (f h1) as [[b h2]|]; [|done].
  by intros ->.
Qed.

Lemma left_spine c es : Forall (fun f => f_left f = true) c -> celems c es = es ++ cpost c.
Proof.
  intros FL. rewrite celems_split. replace (cpre c) with (@nil entry); [done|].
  induction FL as [|f c E FL IH]; [done|]. cbn. by rewrite <- IH, E.
Qed.

(** From the store where [y] is spliced out to the one where it has the place
    of [z], with the bounds refitted. *)
Lemma place_and_fix fuel h np ctx z vz l c x y vy a b d : 
  conf h np (c ++ Frame false z vz l :: ctx) x -> l <> L -> (x = L -> np = caddr (c ++ Frame false z vz l :: ctx)) ->
  h !! y = Some (mk vy a b d) ->
  y ∉ NIL :: ROOT :: locs (celems (c ++ Frame false z vz l :: ctx) (elems x)) ->
  (length c + S (length ctx) < fuel)%nat -> 
  exists h' np', (take_place y z;; xp ← rd (addr x) n_parent; fixup_min_max_fields fuel xp) h = Some (tt, h') /\
    let F := Frame false y (unbounded vy) l in
    conf h' np' (crefit (c ++ F :: ctx) x) x /\ (x = L -> np' = caddr (c ++ F :: ctx)) /\
    h' !! z = h !! z.
Proof.
  intros K LN NP EY YO FU. pose proof (conf_leave _ _ _ _ _ K) as K1. cbn [plug1] in K1. apply conf_up in K1.
  cbn [plug1 f_left f_loc f_val f_sib] in K1.
  assert (EE : celems (c ++ Frame false z vz l :: ctx) (elems x) = celems ctx (elems (T z vz l (plug c x)))).
  { rewrite celems_app. cbn. by rewrite elems_plug. }
  rewrite EE in YO.
  destruct (take_place_spec _ _ _ _ _ _ _ _ _ _ _ _ K1 LN EY YO) as (h1 & np1 & E1 & K2 & PL & PN & Z1).
  rewrite (run_bind _ _ _ _ _ E1). set (F := Frame false y (unbounded vy) l).
  apply conf_right in K2. apply (conf_enter h1 np1 c (F :: ctx) x) in K2.
  assert (P1 : x = L -> np1 = caddr (c ++ F :: ctx)).
  { intros ->. destruct c as [|f c]; [by apply PL|]. cbn in NP |- *. rewrite PN, NP; [done|done|].
    clear. intros E. assert (A : f_loc f ∈ locs (elems (plug (f :: c) L))); [|rewrite E in A; by inversion A].
    rewrite elems_plug, celems_couts. rewrite map_app, elem_of_app. right. apply frames_couts. left. }
  destruct (read_focus _ _ _ _ K2 P1) as (nx & EX & PX & _). rewrite (run_rd _ _ _ _ _ EX), PX.
  destruct (fixup_min_max_spec fuel h1 np1 (c ++ F :: ctx) x ltac:(rewrite length_app; cbn; lia) K2) as (h2 & E2 & K3 & Q2).
  exists h2, np1. split; [done|]. cbv zeta. split; [done|]. split; [done|]. rewrite Q2; [done|].
  destruct (conf_locs _ _ _ _ _ _ _ K1) as (_ & _ & _ & _ & _ & _ & ZP & ZC).
  rewrite elems_plug, celems_couts, map_app, elem_of_app in ZP.
  rewrite map_app, elem_of_app. cbn. rewrite elem_of_cons. intros [I|[I|I]].
  - apply ZP. right. by apply frames_couts.
  - apply YO. rewrite <- I, celems_couts. cbn [elems]. rewrite !map_app. cbn.
    rewrite !elem_of_cons, !elem_of_app, elem_of_cons. tauto.
  - by apply ZC, frames_couts.
Qed.

Lemma celems_paint c1 b f c2 es : celems (c1 ++ paint_f b f :: c2) es = celems (c1 ++ f :: c2) es.
Proof. rewrite !celems_app. by destruct f as [[] ? ? ?]. Qed.

Lemma cbounded_paint c1 b f c2 es : cbounded (c1 ++ f :: c2) es -> cbounded (c1 ++ paint_f b f :: c2) es.
Proof.
  revert es; induction c1 as [|g c1 IH]; intros es; cbn [app cbounded].
  - by destruct f as [[] ? ? ?].
  - intros (A & B & C). split_and!; try done. by apply IH.
Qed.

(** [y] gets the colour of [z], and the black height is repaired. *)
Lemma place_end fuel h np c z vz l ctx x y vy m : 
  let F := Frame false y (unbounded vy) l in let ctx0 := c ++ Frame false z vz l :: ctx in
  conf h np (crefit (c ++ F :: ctx) x) x -> (x = L -> np = caddr (c ++ F :: ctx)) ->
  (exists n, h !! z = Some n /\ n_red n = v_red vz) -> (S (length c + S (length ctx)) < fuel)%nat ->
  norr x -> (v_red vy = true -> red x = false) -> cnorr ctx0 (v_red vy) -> bounded x -> cbsibs ctx0 -> ctop ctx0 ->
  bht x m -> cbh ctx0 (if v_red vy then m else S m) -> ordered (celems (c ++ F :: ctx) (elems x)) ->
  exists h', (yred ← rd y n_red; zred ← rd z n_red; wr y (with_red zred);;
      if negb yred then intervaltree_fixup_deletion fuel (addr x) else mret tt) h = Some (tt, h') /\
    whole h' np (celems (c ++ F :: ctx) (elems x)).
Proof.
  intros F ctx0 K NP (nz & EZ & RZ) FU NX RX CN BX BS CT BH CB O.
  assert (BS' : cbsibs (c ++ F :: ctx)).
  { unfold cbsibs, ctx0 in *. apply Forall_app in BS as [B1 B2]. apply Forall_cons_iff in B2 as [B2 B3].
    apply Forall_app. split; [done|]. by constructor. }
  pose proof (cbounded_crefit _ x BX BS' O) as CBd.
  rewrite crefit_app in K, CBd. cbn [crefit] in K, CBd. 
  set (t1 := plug (crefit c x) x) in *. set (C2 := crefit ctx _) in *. set (G := refit F t1) in *.
  pose proof (conf_leave _ _ _ _ _ K) as K1. fold t1 in K1.
  pose proof (conf_parent _ _ _ _ _ K1) as EY. change (f_loc G) with y in EY.
  rewrite (run_rd _ _ _ _ _ EY). change (f_left G) with false. cbn iota.
  change (n_red (mk (f_val G) (addr (f_sib G)) (addr t1) (caddr C2))) with (v_red vy).
  rewrite (run_rd _ _ _ _ _ EZ), RZ.
  destruct (conf_wr_frame h np G C2 t1 (v_red vz)
    (fun _ => if negb (v_red vy) then intervaltree_fixup_deletion fuel (addr x) else mret tt) K1) as (h1 & K2 & E2).
  change (f_loc G) with y in E2. rewrite E2. clear E2.
  apply conf_enter in K2. set (ctx' := crefit c x ++ paint_f (v_red vz) G :: C2) in *.
  assert (AL : Forall2 alike ctx0 ctx').
  { apply Forall2_app; [apply alike_crefit|]. constructor; [done|apply alike_crefit]. }
  assert (EE : celems ctx' (elems x) = celems (c ++ F :: ctx) (elems x)).
  { unfold ctx'. rewrite celems_paint, <- (celems_crefit (c ++ F :: ctx) x), crefit_app. done. }
  destruct (removal_end fuel h1 np ctx' x m (v_red vy)) as (h2 & E3 & W); try done.
  - unfold ctx', C2. rewrite length_app. cbn. rewrite !crefit_length. lia.
  - intros E. rewrite NP by done. unfold ctx'. by destruct c.
  - by eapply alike_ctop.
  - by eapply alike_cnorr.
  - unfold ctx'. by destruct (crefit c x).
  - by eapply alike_cbh.
  - by apply cbounded_paint.
  - by rewrite EE.
  - exists h2. split; [done|]. by rewrite <- EE.
Qed.

Lemma remove_inner fuel h np ctx z vz l r : conf h np ctx (T z vz l r) -> good (plug ctx (T z vz l r)) ->
  (S (tsize (plug ctx (T z vz l r))) < fuel)%nat -> l <> L -> r <> L ->
  exists h' np', remove_node fuel z h = Some (tt, h') /\ whole h' np' (celems ctx (elems l ++ elems r)).
Proof.
  intros K G FU LN RN. pose proof (conf_node _ _ _ _ _ _ _ K) as EZ.
  pose proof (tsize_plug ctx (T z vz l r)) as TS. cbn [tsize] in TS.
  pose proof (conf_right _ _ _ _ _ _ _ K) as KR.
  destruct (leftmost_spec fuel h np _ r ltac:(lia) RN KR) as (c & y & vy & x & E1 & ER & FL).
  set (ctx0 := c ++ Frame false z vz l :: ctx).
  assert (PE : plug ctx (T z vz l r) = plug ctx0 (T y vy L x)) by (unfold ctx0; by rewrite plug_app, ER).
  rewrite PE in G. destruct (good_at _ _ _ _ _ G (or_introl eq_refl)) as (NX & RX & CN & BX & BS & CT & TC & (m & BH & CB) & O & O').
  cbn [only] in *.
  rewrite ER in KR. apply conf_enter in KR. fold ctx0 in KR.
  unfold remove_node. rewrite !(run_rd _ _ _ _ _ EZ). cbn [n_left n_right mk].
  assert (AL : addr l <> NIL /\ addr r <> NIL).
  { split; [destruct l as [|b w l1 l2]|destruct r as [|b w l1 l2]]; try done; cbn [addr];
      [apply conf_left in K|apply conf_right in K]; by apply conf_locs in K as (? & _). }
  rewrite !bool_decide_false by tauto. cbn [orb].
  assert (NX' : intervaltree_node_next fuel z h = Some (y, h)).
  { unfold intervaltree_node_next. rewrite (run_rd _ _ _ _ _ EZ). cbn [n_right mk]. by rewrite decide_False by tauto. }
  rewrite (run_bind _ _ _ _ _ NX').
  destruct (splice_out_spec _ _ _ _ _ _ _ KR (or_introl eq_refl)) as (h1 & np1 & E2 & K1 & P1 & _ & Y1). cbn [only] in *.
  rewrite (run_bind _ _ _ _ _ E2).
  rewrite (conf_node _ _ _ _ _ _ _ KR) in Y1.
  destruct (conf_locs _ _ _ _ _ _ _ KR) as (Y2 & Y3 & _ & _ & _ & _ & Y4 & Y5).
  assert (YO : y ∉ NIL :: ROOT :: locs (celems ctx0 (elems x))).
  { rewrite !elem_of_cons, celems_couts, map_app, elem_of_app. tauto. }
  assert (YZ : y <> z).
  { intros ->. apply YO. right. right. rewrite celems_couts, map_app, elem_of_app. right. apply frames_couts.
    unfold ctx0. rewrite map_app, elem_of_app. right. left. }
  rewrite decide_False by done.
  assert (LE : (length c + S (length ctx) + S (tsize x) <= tsize (plug ctx (T z vz l r)))%nat).
  { rewrite PE. pose proof (tsize_plug ctx0 (T y vy L x)) as A. cbn [tsize] in A.
    assert (LC : length ctx0 = (length c + S (length ctx))%nat) by (unfold ctx0; by rewrite length_app). lia. }
  destruct (place_and_fix fuel h1 np1 ctx z vz l c x y vy _ _ _ K1 LN P1 Y1 YO ltac:(lia)) as (h2 & np2 & E3 & K2 & P2 & Z2).
  assert (EZ1 : exists n, h2 !! z = Some n /\ n_red n = v_red vz).
  { rewrite Z2. apply conf_leave, conf_up, conf_node in K1. eexists. split; [exact K1|done]. }
  set (F := Frame false y (unbounded vy) l) in *.
  assert (EE : celems (c ++ F :: ctx) (elems x) = celems ctx (elems l ++ elems r)).
  { rewrite ER, elems_plug, celems_app, !(left_spine c) by done. done. }
  destruct (place_end fuel h2 np2 c z vz l ctx x y vy m K2 P2 EZ1) as (h3 & E4 & W); try done; [lia| |].
  - fold F. rewrite EE. rewrite <- elems_plug, <- PE, elems_plug in O. cbn [elems] in O.
    rewrite !celems_split in *. rewrite <- app_assoc in O |- *. cbn in O. rewrite app_assoc in O |- *.
    by apply ordered_drop in O.
  - fold F in W. rewrite EE in W. exists h3, np2. split; [|done]. rewrite <- E4.
    exact (run_bind3 _ _ _ _ _ _ E3).
Qed.

(** ** Removal *)

Lemma remove_node_spec fuel h np tr z : conf h np [] tr -> good tr -> (S (tsize tr) < fuel)%nat ->
  z ∈ locs (elems tr) ->
  exists h' np' pre e post, remove_node fuel z h = Some (tt, h') /\ whole h' np' (pre ++ post) /\
    elems tr = pre ++ e :: post /\ e_loc e = z.
Proof.
  intros K G F (ctx & v & l & r & ->)%find_node. apply (proj2 (conf_plug _ _ _ _)) in K.
  assert (R : exists h' np', remove_node fuel z h = Some (tt, h') /\ whole h' np' (celems ctx (elems l ++ elems r))).
  { destruct l as [|a w l1 l2].
    - by apply (remove_leaf fuel h np ctx z v L r); [| | |left].
    - destruct r as [|b u r1 r2]; [|by apply (remove_inner fuel h np ctx z v)].
      rewrite app_nil_r. by apply (remove_leaf fuel h np ctx z v (T a w l1 l2) L); [| | |right]. }
  destruct R as (h' & np' & E & W). exists h', np', (cpre ctx ++ elems l), (entry_of z v), (elems r ++ cpost ctx).
  split; [done|]. rewrite elems_plug, celems_split in *. cbn [elems]. rewrite <- !app_assoc in *. by split_and!.
Qed.
