(* ===== verification/IntervalTreeSpec.v ===== *)
(** * IntervalTreeSpec: the interval tree as a finite map

    What the operations of e-cal-backend-intervaltree.c promise: the tree is a
    map from the key of a component to its interval and the component;
    [e_intervaltree_insert] sets a key, [e_intervaltree_remove] deletes one and
    [e_intervaltree_search] gives the components of the overlapping intervals.
    The invariant [valid] ties the store to a red-black tree with right bounds
    and the hash table to its nodes. *)

From stdpp Require Import base list strings numbers gmap sorting.
From Stdlib Require Import ZArith Lia.
From S2P Require Import Prelude IntervalTree IntervalTreeRep IntervalTreeRotate IntervalTreeSearch.
From S2P Require Import IntervalTreeZip IntervalTreeInsert IntervalTreeLeaf IntervalTreeDelete IntervalTreeRemove.

(** ** The abstract state *)

Definition ckey (c : comp) : list Z := component_key (c_uid c) (c_rid c).

(** What is stored for each key: the interval and the component. *)
Definition abs (t : EIntervalTree) : gmap (list Z) (Z * Z * comp) :=
  omap (fun a => n ← nodes t !! a; Some (n_start n, n_end n, n_comp n)) (id_node_hash t).

Definition e_key (e : entry) : list Z := ckey (e_comp e).
Definition e_data (e : entry) : Z * Z * comp := (e_start e, e_end e, e_comp e).

(** The tables of a list of entries. *)
Definition keyed {A} (f : entry -> A) (es : list entry) : gmap (list Z) A :=
  list_to_map (map (fun e => (e_key e, f e)) es).

Record valid_for (t : EIntervalTree) (np : loc) (tr : tree) : Prop := {
  valid_conf : conf (nodes t) np [] tr;
  valid_good : good tr;
  valid_dom : dom (nodes t) = {[ NIL; ROOT ]} ∪ list_to_set (locs (elems tr));
  valid_keys : NoDup (map e_key (elems tr));
  valid_hash : id_node_hash t = keyed e_loc (elems tr);
  valid_fresh : forall a, a ∈ NIL :: ROOT :: locs (elems tr) -> (a < fresh_loc t)%positive
}.

Definition valid (t : EIntervalTree) : Prop := exists np tr, valid_for t np tr.

(** ** Tables of entries *)

Lemma keyed_fst {A} (f : entry -> A) es : (map (fun e => (e_key e, f e)) es).*1 = map e_key es.
Proof. induction es as [|e es IH]; [done|]. cbn. by rewrite IH. Qed.

Lemma keyed_perm {A} (f : entry -> A) es es' : es ≡ₚ es' -> NoDup (map e_key es) -> keyed f es = keyed f es'.
Proof.
  intros P D. unfold keyed. apply list_to_map_proper; [by rewrite keyed_fst|]. by apply Permutation_map.
Qed.

Lemma keyed_cons {A} (f : entry -> A) e es : keyed f (e :: es) = <[e_key e := f e]> (keyed f es).
Proof. done. Qed.

Lemma keyed_none {A} (f : entry -> A) k es : k ∉ map e_key es -> keyed f es !! k = None.
Proof. intros N. apply not_elem_of_list_to_map_1. by rewrite keyed_fst. Qed.

Lemma keyed_some {A} (f : entry -> A) k a es : keyed f es !! k = Some a -> exists e, e ∈ es /\ e_key e = k /\ f e = a.
Proof.
  intros E%elem_of_list_to_map_2. apply list_elem_of_fmap in E as (e & E & I). by injection E as -> ->; exists e.
Qed.

Lemma keyed_in {A} (f : entry -> A) e es : NoDup (map e_key es) -> e ∈ es -> keyed f es !! e_key e = Some (f e).
Proof.
  intros D I. apply elem_of_list_to_map_1; [by rewrite keyed_fst|]. apply list_elem_of_fmap. by exists e.
Qed.

Lemma omap_keyed {A} (f : loc -> option A) (g : entry -> A) es : (forall e, e ∈ es -> f (e_loc e) = Some (g e)) ->
  omap f (keyed e_loc es) = keyed g es.
Proof.
  induction es as [|e es IH]; intros F; [apply omap_empty|]. rewrite !keyed_cons.
  rewrite (omap_insert_Some f _ _ _ (g e)) by (apply F; left). rewrite IH; [done|]. intros e' I. apply F. by right.
Qed.

(** The cell of an entry. *)
Lemma rep_elem h p t e : rep h p t -> e ∈ elems t -> exists n, h !! e_loc e = Some n /\
  n_start n = e_start e /\ n_end n = e_end e /\ n_comp n = e_comp e.
Proof.
  revert p; induction t as [|a v l IHl r IHr]; intros p; [intros _ I; inversion I|]. cbn.
  intros (E & Rl & Rr). rewrite elem_of_app, elem_of_cons. intros [I|[->|I]]; eauto.
Qed.

Lemma abs_keyed t np tr : valid_for t np tr -> abs t = keyed e_data (elems tr).
Proof.
  intros V. unfold abs. rewrite (valid_hash _ _ _ V). apply omap_keyed. intros e I.
  destruct (valid_conf _ _ _ V) as [R _ _ _]. destruct (rep_elem _ _ _ _ R I) as (n & E & ES & EE & EC).
  rewrite E. cbn. unfold e_data. by rewrite ES, EE, EC.
Qed.

(** ** No program allocates or frees *)

Definition keeps {A} (m : M A) : Prop := forall h a h', m h = Some (a, h') -> dom h' = dom h.

Lemma keeps_ret {A} (a : A) : keeps (mret a).
Proof. intros h b h' E. injection E as _ ->. done. Qed.

Lemma keeps_rd {A} p (f : EIntervalNode -> A) : keeps (rd p f).
Proof. intros h b h'. unfold rd. destruct (h !! p); [|done]. intros E. by injection E as _ ->. Qed.

Lemma keeps_wr p f : keeps (wr p f).
Proof.
  intros h b h'. unfold wr. destruct (h !! p) eqn:E; [|done]. intros [= _ <-]. apply dom_insert_lookup_L. by eexists.
Qed.

Lemma keeps_bind {A B} (m : M A) (f : A -> M B) : keeps m -> (forall a, keeps (f a)) -> keeps (m ≫= f).
Proof.
  intros Km Kf h b h'. unfold mbind, M_bind. destruct (m h) as [[a h1]|] eqn:E; [|done].
  intros E'. by rewrite (Kf _ _ _ _ E'), (Km _ _ _ E).
Qed.

Lemma keeps_fail {A} : keeps (@fail A).
Proof. done. Qed.

Create HintDb keeps discriminated.
#[export] Hint Resolve keeps_ret keeps_rd keeps_wr keeps_fail : keeps.
#[export] Hint Extern 0 (keeps (_ ≫= _)) => apply keeps_bind; [|intros] : keeps.
#[export] Hint Extern 0 (keeps (if ?b then _ else _)) => destruct b : keeps.
#[export] Hint Extern 0 (keeps (let _ := _ in _)) => cbv zeta : keeps.

Lemma keeps_left_rotate x : keeps (left_rotate x).
Proof. unfold left_rotate, update_max, update_min. auto 100 with keeps. Qed.
Lemma keeps_right_rotate x : keeps (right_rotate x).
Proof. unfold right_rotate, update_max, update_min. auto 100 with keeps. Qed.
#[export] Hint Resolve keeps_left_rotate keeps_right_rotate : keeps.

Lemma keeps_fixup_min_max fuel x : keeps (fixup_min_max_fields fuel x).
Proof. revert x; induction fuel as [|fuel IH]; intros x; cbn [fixup_min_max_fields]; auto 100 with keeps. Qed.
Lemma keeps_descend fuel zs ze x y : keeps (insert_descend fuel zs ze x y).
Proof. revert x y; induction fuel as [|fuel IH]; intros x y; cbn [insert_descend]; auto 100 with keeps. Qed.
Lemma keeps_leftmost fuel x : keeps (leftmost fuel x).
Proof. revert x; induction fuel as [|fuel IH]; intros x; cbn [leftmost]; auto 100 with keeps. Qed.
Lemma keeps_climb fuel x y : keeps (climb_right fuel x y).
Proof. revert x y; induction fuel as [|fuel IH]; intros x y; cbn [climb_right]; auto 100 with keeps. Qed.
Lemma keeps_insert_fixup fuel x : keeps (insert_fixup fuel x).
Proof. revert x; induction fuel as [|fuel IH]; intros x; cbn [insert_fixup]; auto 100 with keeps. Qed.
#[export] Hint Resolve keeps_fixup_min_max keeps_descend keeps_leftmost keeps_climb keeps_insert_fixup : keeps.

Lemma keeps_round_left root x p : keeps (fixup_deletion_left root x p).
Proof. unfold fixup_deletion_left. auto 100 with keeps. Qed.
Lemma keeps_round_right root x p : keeps (fixup_deletion_right root x p).
Proof. unfold fixup_deletion_right. auto 100 with keeps. Qed.
#[export] Hint Resolve keeps_round_left keeps_round_right : keeps.

Lemma keeps_fixup_deletion fuel root x : keeps (fixup_deletion_loop fuel root x).
Proof. revert x; induction fuel as [|fuel IH]; intros x; cbn [fixup_deletion_loop]; auto 100 with keeps. Qed.
#[export] Hint Resolve keeps_fixup_deletion : keeps.

Lemma keeps_insert_node fuel x : keeps (insert_node fuel x).
Proof. unfold insert_node, binary_tree_insert. auto 100 with keeps. Qed.

Lemma keeps_remove_node fuel z : keeps (remove_node fuel z).
Proof.
  unfold remove_node, intervaltree_node_next, splice_out, take_place, intervaltree_fixup_deletion. auto 100 with keeps.
Qed.

(** ** The operations on a valid tree *)

Lemma conf_same h h' np tr : conf h np [] tr ->
  (forall a, a ∈ NIL :: ROOT :: locs (elems tr) -> h' !! a = h !! a) -> conf h' np [] tr.
Proof.
  intros [R C N D] F. split; [| | |done].
  - apply (rep_frame h); [done|]. intros a A. apply F. right. by right.
  - apply (repc_frame h); [done|]. intros a A. apply F. apply elem_of_cons in A as [->|A]; [right; left|inversion A].
  - rewrite F; [done|left].
Qed.

Lemma dom_list (es : list entry) : {[ NIL; ROOT ]} ∪ list_to_set (locs es) =@{gset loc} list_to_set (NIL :: ROOT :: locs es).
Proof. cbn. by rewrite <- (assoc_L _). Qed.

Lemma valid_size t np tr : valid_for t np tr -> size (nodes t) = S (S (tsize tr)).
Proof.
  intros V. rewrite <- size_dom, (valid_dom _ _ _ V), dom_list, size_list_to_set by apply (conf_nodup _ _ _ _ (valid_conf _ _ _ V)).
  cbn. by rewrite length_map, tsize_elems.
Qed.

Lemma add_spec t np tr s e c : valid_for t np tr -> ckey c ∉ map e_key (elems tr) ->
  let x := fresh_loc t in
  let h := <[x := Node s e e s false c NIL NIL NIL]> (nodes t) in
  exists h' tr', insert_node (tree_fuel (Tree h (id_node_hash t) (Pos.succ x))) x h = Some (tt, h') /\
    let t' := Tree h' (<[ckey c := x]> (id_node_hash t)) (Pos.succ x) in
    valid_for t' np tr' /\ abs t' = <[ckey c := (s, e, c)]> (abs t).
Proof.
  intros V KN x h.
  assert (XN : x ∉ NIL :: ROOT :: locs (elems tr)) by (intros I; apply (valid_fresh _ _ _ V) in I; lia).
  assert (SZ : size h = S (S (S (tsize tr)))).
  { unfold h. rewrite map_size_insert_None; [by rewrite (valid_size _ _ _ V)|].
    apply not_elem_of_dom. by rewrite (valid_dom _ _ _ V), dom_list, elem_of_list_to_set. }
  assert (K : conf h np [] tr).
  { apply (conf_same (nodes t)); [by apply valid_conf|]. intros a A. unfold h. apply lookup_insert_ne. by intros <-. }
  rewrite !not_elem_of_cons in XN. destruct XN as (X1 & X2 & X3).
  destruct (insert_node_spec (tree_fuel (Tree h (id_node_hash t) (Pos.succ x))) h np tr x s e c) as
    (h' & tr' & pre & post & E & K' & G' & E1 & E2); try done; [by apply valid_good in V| |unfold h; by rewrite lookup_insert_eq|].
  { unfold tree_fuel. cbn [nodes]. rewrite SZ. lia. }
  assert (P : elems tr' ≡ₚ Entry x s e c :: elems tr) by (rewrite E1, E2; solve_Permutation).
  assert (KD : NoDup (map e_key (Entry x s e c :: elems tr))) by (cbn; constructor; [done|by eapply valid_keys]).
  assert (KD' : NoDup (map e_key (elems tr'))) by (by rewrite P).
  exists h', tr'. split; [done|]. cbv zeta.
  assert (V' : valid_for (Tree h' (<[ckey c := x]> (id_node_hash t)) (Pos.succ x)) np tr').
  { split; try done.
    - cbn [nodes]. rewrite (keeps_insert_node _ _ _ _ _ E). unfold h. rewrite dom_insert_L, (valid_dom _ _ _ V).
      rewrite !dom_list. apply set_eq. intros a. rewrite elem_of_union, !elem_of_list_to_set, !elem_of_cons, P. cbn.
      rewrite elem_of_cons, elem_of_singleton. tauto.
    - cbn [id_node_hash]. rewrite (keyed_perm _ _ _ P KD'), keyed_cons, (valid_hash _ _ _ V). done.
    - cbn [fresh_loc]. intros a A. rewrite !elem_of_cons, P in A. cbn in A. rewrite elem_of_cons in A.
      assert (B : a = x \/ a ∈ NIL :: ROOT :: locs (elems tr)) by (rewrite !elem_of_cons; tauto).
      destruct B as [->|B]; [lia|]. apply (valid_fresh _ _ _ V) in B. unfold x. lia. }
  split; [done|]. rewrite (abs_keyed _ _ _ V'), (abs_keyed _ _ _ V), (keyed_perm _ _ _ P KD'), keyed_cons. done.
Qed.

(** The entry [e] left out. *)
Lemma drop_valid t np tr np' tr' e h' : valid_for t np tr -> conf h' np' [] tr' -> good tr' ->
  elems tr ≡ₚ e :: elems tr' -> dom h' = dom (nodes t) ->
  let t' := Tree (delete (e_loc e) h') (delete (e_key e) (id_node_hash t)) (fresh_loc t) in
  valid_for t' np' tr' /\ abs t' = delete (e_key e) (abs t).
Proof.
  intros V K G P DH t'. pose proof (valid_keys _ _ _ V) as KD.
  pose proof (conf_nodup _ _ _ _ (valid_conf _ _ _ V)) as D. cbn [celems] in D.
  assert (D' : NoDup (e_loc e :: NIL :: ROOT :: locs (elems tr'))).
  { revert D. apply nodup_perm. rewrite P. cbn. solve_Permutation. }
  apply NoDup_cons in D' as [ZN D'].
  assert (KD' : NoDup (map e_key (e :: elems tr'))) by (by rewrite <- P).
  assert (KE : forall A (f : entry -> A), delete (e_key e) (keyed f (elems tr)) = keyed f (elems tr')).
  { intros A f. rewrite (keyed_perm f _ _ P KD), keyed_cons, delete_insert_id; [done|].
    apply keyed_none. by apply NoDup_cons in KD' as [? _]. }
  assert (V' : valid_for t' np' tr').
  { split; try done.
    - apply (conf_same h'); [done|]. intros a A. apply lookup_delete_ne. by intros <-.
    - unfold t'. cbn [nodes]. rewrite dom_delete_L, DH, (valid_dom _ _ _ V), !dom_list. apply set_eq. intros a.
      rewrite elem_of_difference, elem_of_singleton, !elem_of_list_to_set, !elem_of_cons, P. cbn.
      rewrite elem_of_cons. rewrite !not_elem_of_cons in ZN. split; [tauto|]. intros [-> |[-> |I]]; split; try tauto; naive_solver.
    - by apply NoDup_cons in KD' as [_ ?].
    - unfold t'. cbn [id_node_hash]. by rewrite (valid_hash _ _ _ V).
    - intros a A. apply (valid_fresh _ _ _ V). rewrite !elem_of_cons, P in *. cbn. rewrite elem_of_cons. tauto. }
  split; [done|]. by rewrite (abs_keyed _ _ _ V'), (abs_keyed _ _ _ V), KE.
Qed.

Lemma remove_spec t np tr uid rid : valid_for t np tr ->
  exists t' np' tr', e_intervaltree_remove t uid rid = Some (bool_decide (is_Some (abs t !! component_key uid rid)), t') /\
    valid_for t' np' tr' /\ abs t' = delete (component_key uid rid) (abs t).
Proof.
  intros V. set (k := component_key uid rid). unfold e_intervaltree_remove, intervaltree_search_component. fold k.
  rewrite (valid_hash _ _ _ V), (abs_keyed _ _ _ V). pose proof (valid_keys _ _ _ V) as KD.
  destruct (keyed e_loc (elems tr) !! k) as [z|] eqn:Z.
  - apply keyed_some in Z as (e & I & EK & EZ). rewrite <- EK, (keyed_in e_data e) by done.
    rewrite bool_decide_true by (by eexists).
    assert (ZI : z ∈ locs (elems tr)) by (rewrite <- EZ; apply list_elem_of_fmap; by exists e).
    pose proof (conf_nodup _ _ _ _ (valid_conf _ _ _ V)) as D. cbn [celems] in D.
    assert (NZ : z <> NIL) by (intros ->; apply NoDup_cons in D as [D _]; apply D; by right).
    rewrite decide_False by done.
    destruct (remove_node_spec (tree_fuel t) (nodes t) np tr z) as (h' & np' & pre & e' & post & E & W & ET & EL); try done.
    { by apply valid_conf. } { by eapply valid_good. }
    { unfold tree_fuel. rewrite (valid_size _ _ _ V). lia. }
    destruct W as (tr' & K' & ET' & G').
    assert (P : elems tr ≡ₚ e' :: elems tr') by (rewrite ET, ET'; solve_Permutation).
    assert (D' : NoDup (z :: NIL :: ROOT :: locs (elems tr'))).
    { revert D. apply nodup_perm. rewrite P. cbn. rewrite EL. solve_Permutation. }
    apply NoDup_cons in D' as [ZN D'].
    assert (e' = e) as ->.
    { rewrite P in I. apply elem_of_cons in I as [->|I]; [done|]. destruct ZN. right. right.
      apply list_elem_of_fmap. by exists e. }
    destruct (drop_valid t np tr np' tr' e h') as [V' A']; try done; [by eapply keeps_remove_node|].
    rewrite EL, EK, (abs_keyed _ _ _ V), (valid_hash _ _ _ V) in *.
    eexists _, np', tr'. split; [|split; [exact V'|exact A']]. unfold mbind, option_bind. by rewrite E.
  - assert (KN : k ∉ map e_key (elems tr)).
    { intros (e & -> & I)%list_elem_of_fmap. by rewrite keyed_in in Z. }
    rewrite keyed_none by done. exists t, np, tr. rewrite bool_decide_false by apply is_Some_None.
    split; [done|]. split; [done|]. rewrite (abs_keyed _ _ _ V), delete_id; [done|by apply keyed_none].
Qed.

(** A valid tree is searched for what is in its map. *)
Definition overlaps (start end_ : Z) (x : Z * Z * comp) : bool :=
  let '(s, e, _) := x in (start <=? e) && (s <=? end_).

Definition found_in (start end_ : Z) (m : gmap (list Z) (Z * Z * comp)) : list comp :=
  map snd (List.filter (overlaps start end_) (map_to_list m).*2).

Lemma matches_data start end_ es : map snd (List.filter (overlaps start end_) (map e_data es)) = matches start end_ es.
Proof.
  unfold matches. induction es as [|e es IH]; [done|]. cbn [map List.filter].
  assert (O : overlaps start end_ (e_data e) = overlapb start end_ e).
  { apply eq_true_iff_eq. rewrite overlapb_spec. unfold overlaps, e_data. rewrite andb_true_iff, !Z.leb_le. lia. }
  rewrite O. destruct (overlapb start end_ e); cbn; by rewrite IH.
Qed.

Lemma filter_map_perm {A B} (p : A -> bool) (f : A -> B) l k : l ≡ₚ k -> map f (List.filter p l) ≡ₚ map f (List.filter p k).
Proof.
  intros P. apply Permutation_map. induction P as [|x l k P IH|x y l|l1 l2 l3 _ IH1 _ IH2]; cbn; [done| | |by rewrite IH1].
  - destruct (p x); [by f_equiv|done].
  - destruct (p x), (p y); try done. apply Permutation_swap.
Qed.

Lemma found_in_valid t np tr start end_ : valid_for t np tr ->
  found_in start end_ (abs t) ≡ₚ matches start end_ (elems tr).
Proof.
  intros V. rewrite (abs_keyed _ _ _ V). unfold found_in. rewrite <- matches_data. apply filter_map_perm.
  unfold keyed. rewrite map_to_list_to_map by (rewrite keyed_fst; by eapply valid_keys).
  clear. induction (elems tr) as [|e es IH]; [done|]. cbn. by rewrite IH.
Qed.

Lemma search_spec t np tr start end_ : valid_for t np tr ->
  exists found, e_intervaltree_search t start end_ = Some found /\ found ≡ₚ found_in start end_ (abs t).
Proof.
  intros V. pose proof (valid_conf _ _ _ V) as K. destruct (conf_root _ _ _ K) as (nr & ER & (EL & _)).
  destruct (search_loop_spec (tree_fuel t) [tr] start end_ [] (nodes t) np) as (out & E & P).
  - by destruct K.
  - constructor; [|apply Forall_nil_2]. split_and!; [|by apply valid_good in V as [_ ? _ _ _]|].
    + destruct K as [R _ _ _]. by eexists.
    + intros I. pose proof (conf_nodup _ _ _ _ K) as D. apply NoDup_cons in D as [D _]. apply D. by right.
  - unfold tree_fuel. rewrite (valid_size _ _ _ V), work_cons. change (work []) with 0%nat. lia.
  - exists out. split; [|by rewrite P, (found_in_valid _ _ _ _ _ V); cbn; rewrite app_nil_r].
    unfold e_intervaltree_search. rewrite (run_rd _ _ _ _ _ ER), EL. cbn [map] in E. unfold mbind, option_bind. by rewrite E.
Qed.

(** ** Balance *)

(** A descent to a leaf meets at most two nodes for each black one. *)
Lemma descend_rep h p t n zs ze x fuel : rep h p t -> NIL ∉ locs (elems t) -> norr t -> bht t n ->
  (2 * n + (if red t then 1 else 0) < fuel)%nat -> exists y, insert_descend fuel zs ze (addr t) x h = Some (y, h).
Proof.
  revert p n x fuel; induction t as [|b v l IHl r IHr]; intros p n x [|fuel]; try (intros; lia); cbn [rep norr bht addr red insert_descend].
  { intros _ _ _ _ _. rewrite decide_True by done. by exists x. }
  intros (E & Rl & Rr) NI (C & Nl & Nr) B F. cbn in NI. rewrite map_app, elem_of_app in NI. cbn in NI. rewrite elem_of_cons in NI.
  rewrite decide_False by (intros ->; tauto). rewrite (run_rd _ _ _ _ _ E). unfold id. cbn [mk n_left n_right].
  assert (BM : exists m, bht l m /\ bht r m /\ n = if v_red v then m else S m)
    by (destruct (v_red v); [destruct B; by exists n|destruct B as (m & -> & ? & ?); by exists m]).
  destruct BM as (m & Bl & Br & ->).
  assert (FL : (2 * m + (if red l then 1 else 0) < fuel)%nat) by (destruct (v_red v); [destruct (C eq_refl) as [-> _]; lia|destruct (red l); lia]).
  assert (FR : (2 * m + (if red r then 1 else 0) < fuel)%nat) by (destruct (v_red v); [destruct (C eq_refl) as [_ ->]; lia|destruct (red r); lia]).
  destruct (_ =? DIRECTION_GO_LEFT); [apply (IHl b m)|apply (IHr b m)]; tauto.
Qed.

Lemma bht_size t n : bht t n -> (2 ^ n <= S (tsize t))%nat.
Proof.
  revert n; induction t as [|a v l IHl r IHr]; intros n; cbn; [by intros ->|].
  destruct (v_red v).
  - intros [Bl Br]. specialize (IHl n Bl). lia.
  - intros (m & -> & Bl & Br). specialize (IHl m Bl). specialize (IHr m Br). cbn. lia.
Qed.

Lemma abs_size t np tr : valid_for t np tr -> size (abs t) = tsize tr.
Proof.
  intros V. rewrite (abs_keyed _ _ _ V). unfold keyed.
  rewrite <- length_map_to_list, map_to_list_to_map by (rewrite keyed_fst; by eapply valid_keys).
  by rewrite length_map, tsize_elems.
Qed.

(** ** Freeing *)

Lemma rep_delete h b p t : b ∉ locs (elems t) -> rep h p t -> rep (delete b h) p t.
Proof.
  intros N R. apply (rep_frame h); [done|]. intros a A. apply lookup_delete_ne. by intros ->.
Qed.

Lemma elem_concat e t ts : t ∈ ts -> e ∈ elems t -> e ∈ concat (map elems ts).
Proof.
  induction 1 as [t ts|t u ts _ IH]; intros I; cbn; rewrite elem_of_app; [by left|right; by apply IH].
Qed.

Lemma destroy_loop_spec fuel ts h : (work ts < fuel)%nat -> Forall (fun t => exists p, rep h p t) ts ->
  NoDup (NIL :: locs (concat (map elems ts))) ->
  exists h', destroy_loop fuel (map addr ts) h = Some (tt, h') /\
    dom h' = dom h ∖ list_to_set (locs (concat (map elems ts))).
Proof.
  revert ts h; induction fuel as [|fuel IH]; intros ts h W R D; [lia|].
  destruct ts as [|t ts]; cbn [map destroy_loop].
  { exists h. split; [done|]. cbn. set_solver. }
  apply Forall_cons_iff in R as ((p & R) & RS). rewrite work_cons in W. destruct t as [|a v l r]; cbn [addr].
  - rewrite decide_True by done. apply IH; [lia|done|done].
  - assert (P : locs (concat (map elems (T a v l r :: ts))) ≡ₚ a :: locs (concat (map elems (ts ++ [l; r])))).
    { cbn. rewrite !map_app, concat_app, !map_app. cbn. rewrite !map_app. cbn. solve_Permutation. }
    rewrite P in D. apply NoDup_cons in D as [D1 D]. apply NoDup_cons in D as [D2 D].
    rewrite decide_False by (intros ->; apply D1; left). destruct R as (E & Rl & Rr).
    rewrite (run_rd _ _ _ _ _ E). cbn [id n_left n_right mk]. unfold mbind at 1, M_bind.
    assert (RA : Forall (fun t => exists p, rep (delete a h) p t) (ts ++ [l; r])).
    { assert (RS' : Forall (fun t => exists p, rep h p t) (ts ++ [l; r])).
      { apply Forall_app. split; [done|]. repeat (constructor; [by eexists|]). apply Forall_nil_2. }
      rewrite Forall_forall in *. intros t I. destruct (RS' t I) as [q Q]. exists q. apply rep_delete; [|done].
      intros J. apply D2. apply list_elem_of_fmap in J as (e & -> & J). apply list_elem_of_fmap. exists e. split; [done|].
      by eapply elem_concat. }
    destruct (IH (ts ++ [l; r]) (delete a h)) as (h' & E' & DH); [|done| |].
    + rewrite work_app, !work_cons. cbn [tsize] in W. change (work []) with 0%nat. lia.
    + apply NoDup_cons. split; [|done]. intros I. apply D1. by right.
    + rewrite map_app in E'. exists h'. split; [done|]. rewrite DH, dom_delete_L, P. cbn. set_solver.
Qed.

(** ** Properties *)

(** A sequence of calls of the interface, and its effect on a finite map. *)
Inductive call := CallInsert (start end_ : Z) (c : comp) | CallRemove (uid : list Z) (rid : option (list Z)).

Definition run_call (t : EIntervalTree) (c : call) : option EIntervalTree :=
  match c with
  | CallInsert s e c => snd <$> e_intervaltree_insert t s e c
  | CallRemove uid rid => snd <$> e_intervaltree_remove t uid rid
  end.

Fixpoint run_calls (t : EIntervalTree) (cs : list call) : option EIntervalTree :=
  match cs with [] => Some t | c :: cs => t ← run_call t c; run_calls t cs end.

Definition map_call (m : gmap (list Z) (Z * Z * comp)) (c : call) : gmap (list Z) (Z * Z * comp) :=
  match c with
  | CallInsert s e c => <[ckey c := (s, e, c)]> m
  | CallRemove uid rid => delete (component_key uid rid) m
  end.

Lemma init_valid_for : valid_for e_intervaltree_init NIL L.
Proof.
  split; try done.
  - split; [done| |done|]; [by eexists|]. repeat (constructor; [set_solver|]). constructor.
  - split; try done; [constructor|by exists 0%nat].
  - constructor.
  - intros a. rewrite !elem_of_cons. intros [->|[->|I]]; [done|done|inversion I].
Qed.

Lemma insert_spec t np tr s e c : valid_for t np tr ->
  exists t' np' tr', e_intervaltree_insert t s e c = Some (true, t') /\ valid_for t' np' tr' /\
    abs t' = <[ckey c := (s, e, c)]> (abs t).
Proof.
  intros V. destruct (remove_spec t np tr (c_uid c) (c_rid c) V) as (t1 & np1 & tr1 & E1 & V1 & A1).
  fold (ckey c) in A1.
  assert (KN : ckey c ∉ map e_key (elems tr1)).
  { intros (x & EK & I)%list_elem_of_fmap. pose proof (abs_keyed _ _ _ V1) as AK.
    assert (C : abs t1 !! ckey c = None) by (rewrite A1; apply lookup_delete_eq).
    rewrite AK, EK, keyed_in in C; [done|by eapply valid_keys|done]. }
  destruct (add_spec t1 np1 tr1 s e c V1 KN) as (h' & tr' & E & V' & A').
  eexists _, np1, tr'. split; [|split; [exact V'|]].
  - unfold e_intervaltree_insert. rewrite E1. cbn [mbind option_bind nodes id_node_hash fresh_loc]. by rewrite E.
  - rewrite A', A1. apply insert_delete_eq.
Qed.

Lemma run_calls_spec cs t : valid t -> exists t', run_calls t cs = Some t' /\ valid t' /\
  abs t' = fold_left map_call cs (abs t).
Proof.
  revert t; induction cs as [|c cs IH]; intros t V; [by exists t|]. destruct V as (np & tr & V).
  assert (R : exists t1, run_call t c = Some t1 /\ valid t1 /\ abs t1 = map_call (abs t) c).
  { destruct c as [s e c|uid rid]; cbn [run_call map_call].
    - destruct (insert_spec t np tr s e c V) as (t1 & np1 & tr1 & E & V1 & A). exists t1. rewrite E.
      split; [done|]. split; [by exists np1, tr1|done].
    - destruct (remove_spec t np tr uid rid V) as (t1 & np1 & tr1 & E & V1 & A). exists t1. rewrite E.
      split; [done|]. split; [by exists np1, tr1|done]. }
  destruct R as (t1 & E & V1 & A). destruct (IH t1 V1) as (t' & E' & V' & A'). exists t'. cbn. rewrite E. cbn.
  by rewrite E', A', A.
Qed.

(** C1. Any sequence of insertions and removals on a fresh tree runs to its end,
    without a bad pointer, leaves a red-black tree with the right bounds and the
    hash table of its nodes, and has the effect of the same sequence on a finite
    map from component keys to intervals. *)
Theorem intervaltree_refines_map cs : exists t,
  run_calls e_intervaltree_init cs = Some t /\ valid t /\ abs t = fold_left map_call cs ∅.
Proof.
  assert (V : valid e_intervaltree_init) by (exists NIL, L; exact init_valid_for).
  destruct (run_calls_spec cs _ V) as (t & E & V' & A). exists t. by split_and!.
Qed.

(** C2. A search of a tree gives the components of exactly the stored intervals
    that meet [start, end], each once. *)
Theorem intervaltree_search_exact t start end_ : valid t ->
  exists found, e_intervaltree_search t start end_ = Some found /\
    found ≡ₚ map snd (List.filter (overlaps start end_) (map_to_list (abs t)).*2).
Proof. intros (np & tr & V). exact (search_spec t np tr start end_ V). Qed.

(** C4. [e_intervaltree_insert] replaces what the key of the component had, and
    keeps the invariants. *)
Theorem intervaltree_insert_replaces t start end_ c : valid t ->
  exists t', e_intervaltree_insert t start end_ c = Some (true, t') /\ valid t' /\
    abs t' = <[ckey c := (start, end_, c)]> (abs t) /\
    is_Some (intervaltree_search_component t' (c_uid c) (c_rid c)).
Proof.
  intros (np & tr & V). destruct (insert_spec t np tr start end_ c V) as (t' & np' & tr' & E & V' & A).
  exists t'. split; [done|]. split; [by exists np', tr'|]. split; [done|].
  assert (I : abs t' !! ckey c = Some (start, end_, c)) by (rewrite A; apply lookup_insert_eq).
  unfold abs in I. rewrite lookup_omap in I. unfold intervaltree_search_component. fold (ckey c).
  destruct (id_node_hash t' !! ckey c); [by eexists|done].
Qed.

(** C3. [e_intervaltree_remove] says whether the key was stored, deletes it, keeps
    every other key and the invariants. *)
Theorem intervaltree_remove_deletes t uid rid : valid t ->
  exists t', e_intervaltree_remove t uid rid = Some (bool_decide (is_Some (abs t !! component_key uid rid)), t') /\
    valid t' /\ abs t' = delete (component_key uid rid) (abs t).
Proof.
  intros (np & tr & V). destruct (remove_spec t np tr uid rid V) as (t' & np' & tr' & E & V' & A).
  exists t'. split; [done|]. split; [by exists np', tr'|done].
Qed.

(** C5. Whatever was inserted and removed, the loop of [e_intervaltree_insert]
    that looks for the place of a new interval ends in a tree of n components
    after at most 2 log2 (n + 1) nodes: the rotations and colours of the
    insertions and removals before it keep the tree balanced. *)
Theorem intervaltree_balanced cs start end_ : exists t top y, run_calls e_intervaltree_init cs = Some t /\
  rd ROOT n_left (nodes t) = Some (top, nodes t) /\
  insert_descend (S (2 * Nat.log2 (S (size (fold_left map_call cs ∅))))) start end_ top ROOT (nodes t) = Some (y, nodes t).
Proof.
  destruct (run_calls_spec cs e_intervaltree_init) as (t & E & (np & tr & V) & A); [exists NIL, L; exact init_valid_for|].
  replace (abs e_intervaltree_init) with (∅ : gmap (list Z) (Z * Z * comp)) in A by done.
  pose proof (valid_conf _ _ _ V) as K. destruct (conf_root _ _ _ K) as (nr & ER & (EL & _)).
  destruct (valid_good _ _ _ V) as [_ _ N R (m & B)].
  pose proof (conf_nodup _ _ _ _ K) as D. apply NoDup_cons in D as [D _]. destruct K as [RE _ _ _].
  assert (NI : NIL ∉ locs (elems tr)) by (intros I; apply D; by right).
  pose proof (Nat.log2_le_pow2 (S (tsize tr)) m ltac:(lia)) as [LG _]. specialize (LG (bht_size _ _ B)).
  destruct (descend_rep _ _ _ m start end_ ROOT (S (2 * Nat.log2 (S (tsize tr)))) RE NI N B) as (y & Y); [rewrite R; lia|].
  exists t, (addr tr), y. split; [exact E|]. split; [unfold rd; by rewrite ER, EL|]. by rewrite <- A, (abs_size _ _ _ V).
Qed.

(** [e_intervaltree_destroy] frees every node of the tree once, and nothing
    but the two sentinels is left. *)
Theorem intervaltree_destroy_frees t : valid t ->
  exists h, e_intervaltree_destroy t = Some h /\ dom h = {[ NIL; ROOT ]}.
Proof.
  intros (np & tr & V). pose proof (valid_conf _ _ _ V) as K. destruct (conf_root _ _ _ K) as (nr & ER & (EL & _)).
  pose proof (conf_nodup _ _ _ _ K) as D. cbn [celems] in D. apply NoDup_cons in D as [D1 D]. apply NoDup_cons in D as [D2 D].
  destruct (destroy_loop_spec (tree_fuel t) [tr] (nodes t)) as (h & E & DH).
  - unfold tree_fuel. rewrite (valid_size _ _ _ V), work_cons. change (work []) with 0%nat. lia.
  - constructor; [|apply Forall_nil_2]. destruct K as [R _ _ _]. by eexists.
  - cbn. rewrite app_nil_r. apply NoDup_cons. split; [|done]. intros I. apply D1. by right.
  - exists h. unfold e_intervaltree_destroy. rewrite (run_rd _ _ _ _ _ ER), EL. cbn [map] in E.
    unfold mbind, option_bind. rewrite E. split; [done|]. rewrite DH, (valid_dom _ _ _ V). cbn. rewrite app_nil_r.
    apply set_eq. intros a. rewrite elem_of_difference, elem_of_union, !elem_of_list_to_set, elem_of_union, !elem_of_singleton.
    rewrite elem_of_cons in D1. split; [tauto|]. intros [-> | ->]; tauto.
Qed.

(** A tree after four insertions, one of a key already there, and a removal. *)
Definition sample_comp (u : string) : comp := Comp (bs u) None 0.
Definition sample_calls : list call :=
  [CallInsert 10 20 (sample_comp "a"); CallInsert 15 30 (sample_comp "b"); CallInsert 40 50 (sample_comp "c");
   CallInsert 12 14 (sample_comp "a"); CallRemove (bs "c") None].

Lemma sample_valid : exists t, run_calls e_intervaltree_init sample_calls = Some t /\ valid t /\
  abs t = <[bs "a" := (12, 14, sample_comp "a")]> {[ bs "b" := (15, 30, sample_comp "b") ]}.
Proof.
  destruct (run_calls_spec sample_calls e_intervaltree_init) as (t & E & V & A).
  - exists NIL, L. exact init_valid_for.
  - exists t. split; [done|]. split; [done|]. rewrite A. by vm_compute.
Qed.

Lemma intervaltree_search_exact_witness : exists t found, run_calls e_intervaltree_init sample_calls = Some t /\
  e_intervaltree_search t 11 14 = Some found /\ found = [sample_comp "a"].
Proof.
  destruct sample_valid as (t & E & V & A). destruct (intervaltree_search_exact t 11 14 V) as (found & S & P).
  exists t, found. split; [exact E|]. split; [exact S|]. rewrite A in P. vm_compute in P. by apply Permutation_singleton_r in P.
Defined.

Lemma intervaltree_insert_replaces_witness : exists t t', run_calls e_intervaltree_init sample_calls = Some t /\
  e_intervaltree_insert t 1 2 (sample_comp "b") = Some (true, t') /\
  abs t' !! bs "b" = Some (1, 2, sample_comp "b") /\ abs t' !! bs "a" = Some (12, 14, sample_comp "a").
Proof.
  destruct sample_valid as (t & E & V & A). destruct (intervaltree_insert_replaces t 1 2 (sample_comp "b") V) as (t' & I & _ & A' & _).
  exists t, t'. split; [exact E|]. split; [exact I|]. rewrite A', A.
  split; [exact (lookup_insert_eq _ (bs "b") _)|].
  rewrite lookup_insert_ne by (vm_compute; discriminate). exact (lookup_insert_eq _ (bs "a") _).
Defined.

Lemma intervaltree_remove_deletes_witness : exists t t', run_calls e_intervaltree_init sample_calls = Some t /\
  e_intervaltree_remove t (bs "a") None = Some (true, t') /\ abs t' = {[ bs "b" := (15, 30, sample_comp "b") ]}.
Proof.
  destruct sample_valid as (t & E & V & A). destruct (intervaltree_remove_deletes t (bs "a") None V) as (t' & I & _ & A').
  exists t, t'. rewrite A in A', I. split; [exact E|]. split; [exact I|]. rewrite A'. by vm_compute.
Defined.

Lemma intervaltree_destroy_frees_witness : exists t h, run_calls e_intervaltree_init sample_calls = Some t /\
  e_intervaltree_destroy t = Some h /\ dom h = {[ NIL; ROOT ]}.
Proof.
  destruct sample_valid as (t & E & V & A). destruct (intervaltree_destroy_frees t V) as (h & D & DH).
  exists t, h. split; [exact E|]. split; [exact D|exact DH].
Defined.
