(* ===== verification/ESexp.v ===== *)
(** * ESexp: S-expressions (libedataserver/e-sexp.c)

    The queries of the calendar and the address book.  [e_sexp_parse] makes a
    tree of the tokens of GLib's scanner, [e_sexp_eval] evaluates it, and
    [e_sexp_evaluate_occur_times] finds the window of time that a query is
    about.  [e_sexp_fatal_error] leaves by [longjmp]: a function answers a
    [Fatal] outcome, and what it did to [priv->operators] stays.

    The functions that callers add are parameters.  GLib's scanner is not
    modelled: the parser reads its tokens.  The memory of terms and results and
    the freeing of symbols are left out, but for [priv->tree]. *)

From Stdlib Require Import ZArith Lia Ascii.
From stdpp Require Import base list strings gmap numbers option.
From S2P Require Import Prelude.

(** ** Outcomes *)

(** [Crash] is a read through a bad pointer. *)
Inductive outcome (A : Type) :=
| Done (a : A)
| Fatal (why : list Z)
| Crash
| OutOfFuel.
Arguments Done {A} a.
Arguments Fatal {A} why.
Arguments Crash {A}.
Arguments OutOfFuel {A}.

(** [priv->operators]. *)
Inductive oper := AND | OR.
#[export] Instance oper_eq_dec : EqDecision oper.
Proof. solve_decision. Defined.

(** Computations with a state that stays when they fail. *)
Definition M (S A : Type) : Type := S -> outcome A * S.
Definition ret {S A} (a : A) : M S A := fun s => (Done a, s).
Definition e_sexp_fatal_error {S A} (why : list Z) : M S A := fun s => (Fatal why, s).
Definition crash {S A} : M S A := fun s => (Crash, s).
Definition no_fuel {S A} : M S A := fun s => (OutOfFuel, s).
Definition lift {S A} (o : outcome A) : M S A := fun s => (o, s).
Definition bind {S A B} (m : M S A) (f : A -> M S B) : M S B := fun s =>
  match m s with
  | (Done a, s) => f a s
  | (Fatal w, s) => (Fatal w, s)
  | (Crash, s) => (Crash, s)
  | (OutOfFuel, s) => (OutOfFuel, s)
  end.
Declare Scope sexp_scope.
Notation "x <- m ;; k" := (bind m (fun x => k)) (at level 100, m at next level, right associativity) : sexp_scope.
Open Scope sexp_scope.

(** [g_slist_remove]: the first one. *)
Fixpoint slist_remove (o : oper) (l : list oper) : list oper :=
  match l with [] => [] | x :: l => if decide (x = o) then l else x :: slist_remove o l end.
Abbreviation ME := (M (list oper)).
Definition push_oper (o : oper) : ME unit := fun ops => (Done tt, o :: ops).
Definition pop_oper (o : oper) : ME unit := fun ops => (Done tt, slist_remove o ops).

(** ** Results *)

Inductive ESExpResultType :=
| ESEXP_RES_ARRAY_PTR | ESEXP_RES_INT | ESEXP_RES_STRING | ESEXP_RES_BOOL | ESEXP_RES_TIME | ESEXP_RES_UNDEFINED.
#[export] Instance ESExpResultType_eq_dec : EqDecision ESExpResultType.
Proof. solve_decision. Defined.

(** The tag and the union; booleans are a [gint]. *)
Inductive value :=
| ArrayPtr (l : list (list Z)) | Number (n : Z) | String_ (s : list Z) | Boolean (b : Z) | Time (t : Z) | Undefined.

Definition type_of (v : value) : ESExpResultType :=
  match v with
  | ArrayPtr _ => ESEXP_RES_ARRAY_PTR | Number _ => ESEXP_RES_INT | String_ _ => ESEXP_RES_STRING
  | Boolean _ => ESEXP_RES_BOOL | Time _ => ESEXP_RES_TIME | Undefined => ESEXP_RES_UNDEFINED
  end.

Record ESExpResult := Result { val : value; time_generator : bool; occuring_start : Z; occuring_end : Z }.

(** [(time_t) INT_MAX]. *)
Definition TIME_T_MAX : Z := 2 ^ 31 - 1.

Definition e_sexp_result_new (v : value) : ESExpResult := Result v false 0 TIME_T_MAX.
Definition undefined : ESExpResult := e_sexp_result_new Undefined.
Definition boolean (b : bool) : value := Boolean (if b then 1 else 0).

Definition s64 (x : Z) : Z := (x + 2 ^ 63) mod 2 ^ 64 - 2 ^ 63.

(** [strcmp]: the sign of the first difference. *)
Fixpoint strcmp (a b : list Z) : Z :=
  match a, b with
  | [], [] => 0
  | [], _ => -1
  | _, [] => 1
  | x :: a, y :: b => if x =? y then strcmp a b else if x <? y then -1 else 1
  end.

(** The pairs in the order of [g_hash_table_foreach]. *)
Class HashOrder := ht_foreach : gmap (list Z) Z -> list (list Z * Z).

Section sexp.
(** The functions that callers add: [UF] with evaluated arguments, [UI] with
    their terms. *)
Context {UF UI : Type}.

(** ** Terms *)

Inductive func := FNot | FPlus | FSub | FCastInt | FCastString | FUser (u : UF).
Inductive ifunc := IAnd | IOr | ILt | IGt | IEq | IIf | IBegin | IUser (u : UI).

(** A call holds the name and the function of its symbol; the function may be
    NULL.  A variable's value may be too. *)
Inductive ESExpTerm :=
| TermInt (n : Z)
| TermBool (b : Z)
| TermString (s : list Z)
| TermTime (t : Z)
| TermFunc (name : list Z) (f : option func) (terms : list ESExpTerm)
| TermIFunc (name : list Z) (f : option ifunc) (terms : list ESExpTerm)
| TermVar (sym : ESExpSymbol)
with ESExpSymbol :=
| SymFunc (name : list Z) (f : option func)
| SymIFunc (name : list Z) (f : option ifunc)
| SymVar (name : list Z) (value : option ESExpTerm).

(** What a caller's function answers, NULL or a result, or its error. *)
Context (call_user : UF -> list ESExpResult -> outcome (option ESExpResult)).
Context (call_iuser : UI -> (ESExpTerm -> ME ESExpResult) -> list ESExpTerm -> ME (option ESExpResult)).
Context `{HashOrder}.

(** ** Builtin functions *)

Section builtin.
Variable ev : ESExpTerm -> ME ESExpResult.

(** [ht] counts in how many lists a string was seen. *)
Definition count_list (ht : gmap (list Z) Z) (l : list (list Z)) : gmap (list Z) Z :=
  fold_left (fun ht s => <[s := default 0 (ht !! s) + 1]> ht) l ht.

Fixpoint and_loop (argv : list ESExpTerm) (type : option ESExpResultType) (v : bool) (ht : gmap (list Z) Z) :
    ME (option ESExpResultType * bool * gmap (list Z) Z) :=
  match argv with
  | [] => ret (type, v, ht)
  | t :: argv =>
      if negb v then ret (type, v, ht)
      else
        r1 <- ev t;;
        let ty := default (type_of (val r1)) type in
        if decide (ty = type_of (val r1)) then
          let '(v, ht) :=
            match val r1 with
            | ArrayPtr l => (v, count_list ht l)
            | Boolean b => (v && negb (b =? 0), ht)
            | _ => (v, ht)
            end in
          and_loop argv (Some ty) v ht
        else e_sexp_fatal_error (bs "Invalid types in AND")
  end.

(** [htand]. *)
Definition htand (count : Z) (l : list (list Z * Z)) : list (list Z) :=
  omap (fun kv : list Z * Z => if snd kv =? count then Some (fst kv) else None) l.

Definition term_eval_and (argv : list ESExpTerm) : ME ESExpResult :=
  _ <- push_oper AND;;
  x <- and_loop argv None true empty;;
  let '(type, v, ht) := x in
  _ <- pop_oper AND;;
  ret (match type with
       | Some ESEXP_RES_ARRAY_PTR => e_sexp_result_new (ArrayPtr (htand (Z.of_nat (length argv)) (ht_foreach ht)))
       | Some ESEXP_RES_BOOL => e_sexp_result_new (boolean v)
       | _ => undefined
       end).

Definition see_list (ht : gmap (list Z) Z) (l : list (list Z)) : gmap (list Z) Z :=
  fold_left (fun ht s => <[s := 1]> ht) l ht.

Fixpoint or_loop (argv : list ESExpTerm) (type : option ESExpResultType) (v : Z) (ht : gmap (list Z) Z) :
    ME (option ESExpResultType * Z * gmap (list Z) Z) :=
  match argv with
  | [] => ret (type, v, ht)
  | t :: argv =>
      if negb (v =? 0) then ret (type, v, ht)
      else
        r1 <- ev t;;
        let ty := default (type_of (val r1)) type in
        if decide (type_of (val r1) = ty) then
          let '(v, ht) :=
            match val r1 with
            | ArrayPtr l => (v, see_list ht l)
            | Boolean b => (Z.lor v b, ht)
            | _ => (v, ht)
            end in
          or_loop argv (Some ty) v ht
        else e_sexp_fatal_error (bs "Invalid types in OR")
  end.

Definition term_eval_or (argv : list ESExpTerm) : ME ESExpResult :=
  _ <- push_oper OR;;
  x <- or_loop argv None 0 empty;;
  let '(type, v, ht) := x in
  _ <- pop_oper OR;;
  ret (match type with
       | Some ESEXP_RES_ARRAY_PTR => e_sexp_result_new (ArrayPtr (map fst (ht_foreach ht)))
       | Some ESEXP_RES_BOOL => e_sexp_result_new (Boolean v)
       | _ => undefined
       end).

Definition term_eval_lt (argv : list ESExpTerm) : ME ESExpResult :=
  match argv with
  | [t1; t2] =>
      r1 <- ev t1;;
      r2 <- ev t2;;
      match val r1, val r2 with
      | Number a, Number b => ret (e_sexp_result_new (boolean (a <? b)))
      | Time a, Time b => ret (e_sexp_result_new (boolean (a <? b)))
      | String_ a, String_ b => ret (e_sexp_result_new (boolean (strcmp a b <? 0)))
      | a, b => if decide (type_of a = type_of b) then ret undefined
                else e_sexp_fatal_error (bs "Incompatible types in compare <")
      end
  | _ => ret undefined
  end.

Definition term_eval_gt (argv : list ESExpTerm) : ME ESExpResult :=
  match argv with
  | [t1; t2] =>
      r1 <- ev t1;;
      r2 <- ev t2;;
      match val r1, val r2 with
      | Number a, Number b => ret (e_sexp_result_new (boolean (a >? b)))
      | Time a, Time b => ret (e_sexp_result_new (boolean (a >? b)))
      | String_ a, String_ b => ret (e_sexp_result_new (boolean (strcmp a b >? 0)))
      | a, b => if decide (type_of a = type_of b) then ret undefined
                else e_sexp_fatal_error (bs "Incompatible types in compare >")
      end
  | _ => ret undefined
  end.

Definition term_eval_eq (argv : list ESExpTerm) : ME ESExpResult :=
  match argv with
  | [t1; t2] =>
      r1 <- ev t1;;
      r2 <- ev t2;;
      ret (e_sexp_result_new (boolean
        match val r1, val r2 with
        | Number a, Number b => a =? b
        | Boolean a, Boolean b => a =? b
        | Time a, Time b => a =? b
        | String_ a, String_ b => strcmp a b =? 0
        | _, _ => false
        end))
  | _ => ret (e_sexp_result_new (boolean false))
  end.

Definition is_true (r : ESExpResult) : bool := match val r with Boolean b => negb (b =? 0) | _ => false end.

Definition term_eval_if (argv : list ESExpTerm) : ME ESExpResult :=
  match argv with
  | [c; t1] => r <- ev c;; if is_true r then ev t1 else ret undefined
  | [c; t1; t2] => r <- ev c;; if is_true r then ev t1 else ev t2
  | _ => ret undefined
  end.

(** [r] is the result so far. *)
Fixpoint begin_loop (argv : list ESExpTerm) (r : option ESExpResult) : ME ESExpResult :=
  match argv with
  | [] => ret (default undefined r)
  | t :: argv => r <- ev t;; begin_loop argv (Some r)
  end.
Definition term_eval_begin (argv : list ESExpTerm) : ME ESExpResult := begin_loop argv None.

Definition call_ifunc (f : ifunc) (argv : list ESExpTerm) : ME (option ESExpResult) :=
  match f with
  | IAnd => r <- term_eval_and argv;; ret (Some r)
  | IOr => r <- term_eval_or argv;; ret (Some r)
  | ILt => r <- term_eval_lt argv;; ret (Some r)
  | IGt => r <- term_eval_gt argv;; ret (Some r)
  | IEq => r <- term_eval_eq argv;; ret (Some r)
  | IIf => r <- term_eval_if argv;; ret (Some r)
  | IBegin => r <- term_eval_begin argv;; ret (Some r)
  | IUser u => call_iuser u ev argv
  end.
End builtin.

Definition term_eval_not (argv : list ESExpResult) : ESExpResult :=
  e_sexp_result_new (boolean (negb (match argv with r :: _ => is_true r | [] => false end))).

(** The sums go on while the types fit. *)
Fixpoint sum_numbers (op : Z -> Z -> Z) (total : Z) (argv : list ESExpResult) : option Z :=
  match argv with
  | [] => Some total
  | r :: argv => match val r with Number n => sum_numbers op (s32 (op total n)) argv | _ => None end
  end.
Fixpoint sum_times (op : Z -> Z -> Z) (total : Z) (argv : list ESExpResult) : option Z :=
  match argv with
  | [] => Some total
  | r :: argv => match val r with Time n => sum_times op (s64 (op total n)) argv | _ => None end
  end.
Fixpoint sum_strings (total : list Z) (argv : list ESExpResult) : option (list Z) :=
  match argv with
  | [] => Some total
  | r :: argv => match val r with String_ s => sum_strings (total ++ s) argv | _ => None end
  end.

Definition or_fatal {A} (o : option A) (f : A -> value) (why : list Z) : ME ESExpResult :=
  match o with Some a => ret (e_sexp_result_new (f a)) | None => e_sexp_fatal_error why end.

Definition term_eval_plus (argv : list ESExpResult) : ME ESExpResult :=
  match argv with
  | [] => ret (e_sexp_result_new (Number 0))
  | r :: argv =>
      match val r with
      | Number n => or_fatal (sum_numbers Z.add n argv) Number (bs "Invalid types in (+ ints)")
      | String_ s => or_fatal (sum_strings s argv) String_ (bs "Invalid types in (+ strings)")
      | Time t => or_fatal (sum_times Z.add t argv) Time (bs "Invalid types in (+ time_t)")
      | _ => ret (e_sexp_result_new (Number 0))
      end
  end.

Definition term_eval_sub (argv : list ESExpResult) : ME ESExpResult :=
  match argv with
  | [] => ret (e_sexp_result_new (Number 0))
  | r :: argv =>
      match val r with
      | Number n => or_fatal (sum_numbers Z.sub n argv) Number (bs "Invalid types in -")
      | Time t => or_fatal (sum_times Z.sub t argv) Time (bs "Invalid types in (- time_t)")
      | _ => ret (e_sexp_result_new (Number 0))
      end
  end.

Definition term_eval_castint (argv : list ESExpResult) : ME ESExpResult :=
  match argv with
  | [r] =>
      match val r with
      | Number n => ret (e_sexp_result_new (Number n))
      | Boolean b => ret (e_sexp_result_new (Number (if b =? 0 then 0 else 1)))
      | String_ s => ret (e_sexp_result_new (Number (s32 (strtoul s))))
      | _ => e_sexp_fatal_error (bs "Invalid type in (cast-int )")
      end
  | _ => e_sexp_fatal_error (bs "Incorrect argument count to (gint )")
  end.

Definition term_eval_caststring (argv : list ESExpResult) : ME ESExpResult :=
  match argv with
  | [r] =>
      match val r with
      | Number n => ret (e_sexp_result_new (String_ (fmt_d n)))
      | Boolean b => ret (e_sexp_result_new (String_ (fmt_d (if b =? 0 then 0 else 1))))
      | String_ s => ret (e_sexp_result_new (String_ s))
      | _ => e_sexp_fatal_error (bs "Invalid type in (gint )")
      end
  | _ => e_sexp_fatal_error (bs "Incorrect argument count to (cast-string )")
  end.

Definition call_func (f : func) (argv : list ESExpResult) : ME (option ESExpResult) :=
  match f with
  | FNot => ret (Some (term_eval_not argv))
  | FPlus => r <- term_eval_plus argv;; ret (Some r)
  | FSub => r <- term_eval_sub argv;; ret (Some r)
  | FCastInt => r <- term_eval_castint argv;; ret (Some r)
  | FCastString => r <- term_eval_caststring argv;; ret (Some r)
  | FUser u => lift (call_user u argv)
  end.

(** ** Evaluation *)

Fixpoint eval_args (ev : ESExpTerm -> ME ESExpResult) (terms : list ESExpTerm) : ME (list ESExpResult) :=
  match terms with
  | [] => ret []
  | t :: terms => r <- ev t;; rs <- eval_args ev terms;; ret (r :: rs)
  end.

(** [fuel] bounds the depth of the tree. *)
Fixpoint e_sexp_term_eval (fuel : nat) (t : ESExpTerm) : ME ESExpResult :=
  match fuel with
  | O => no_fuel
  | S fuel =>
      match t with
      | TermString s => ret (e_sexp_result_new (String_ s))
      | TermInt n => ret (e_sexp_result_new (Number n))
      | TermBool b => ret (e_sexp_result_new (Boolean b))
      | TermTime t => ret (e_sexp_result_new (Time t))
      | TermIFunc _ (Some f) terms =>
          r <- call_ifunc (e_sexp_term_eval fuel) f terms;; ret (default undefined r)
      | TermIFunc _ None _ => ret undefined
      | TermFunc _ f terms =>
          argv <- eval_args (e_sexp_term_eval fuel) terms;;
          match f with
          | Some f => r <- call_func f argv;; ret (default undefined r)
          | None => ret undefined
          end
      | TermVar _ => e_sexp_fatal_error (bs "Unknown type in parse tree: 6")
      end
  end.

(** ** The window of time of a query *)

Definition time_functions : list (list Z) :=
  [bs "time-now"; bs "make-time"; bs "time-add-day"; bs "time-day-begin"; bs "time-day-end"].
Definition is_time_function (fname : list Z) : bool := existsb (bytes_eqb fname) time_functions.

Definition set_window (r : ESExpResult) (s e : Z) : ESExpResult := Result (val r) (time_generator r) s e.

(** A generator and an operator answer whether they succeed, with the result changed. *)
Definition occur_in_time_range_generator (argv : list ESExpResult) (r : ESExpResult) : bool * ESExpResult :=
  match argv with
  | [a; b] | [a; b; _] =>
      match val a, val b with Time s, Time e => (true, set_window r s e) | _, _ => (false, r) end
  | _ => (false, r)
  end.
Definition binary_generator (argv : list ESExpResult) (r : ESExpResult) : bool * ESExpResult :=
  match argv with
  | [a; b] => match val a, val b with Time s, Time e => (true, set_window r s e) | _, _ => (false, r) end
  | _ => (false, r)
  end.
Definition unary_generator (argv : list ESExpResult) (r : ESExpResult) : bool * ESExpResult :=
  match argv with
  | [a] => match val a with Time e => (true, set_window r 0 e) | _ => (false, r) end
  | _ => (false, r)
  end.

Abbreviation modifier := (list ESExpResult -> ESExpResult -> bool * ESExpResult).

Definition generators : list (list Z * modifier) :=
  [(bs "occur-in-time-range?", occur_in_time_range_generator); (bs "due-in-time-range?", binary_generator);
   (bs "has-alarms-in-range?", binary_generator); (bs "completed-before?", unary_generator)].

Definition set_generator (r : ESExpResult) (g : bool) : ESExpResult := Result (val r) g (occuring_start r) (occuring_end r).

Definition or_operator (argv : list ESExpResult) (r : ESExpResult) : bool * ESExpResult :=
  match argv with
  | [] => (false, r)
  | a :: argv' =>
      let r := set_generator r (forallb time_generator argv) in
      (true, if time_generator r
             then set_window r (fold_left (fun m x => Z.min m (occuring_start x)) argv' (occuring_start a))
                    (fold_left (fun m x => Z.max m (occuring_end x)) argv' (occuring_end a))
             else r)
  end.
Definition and_operator (argv : list ESExpResult) (r : ESExpResult) : bool * ESExpResult :=
  match argv with
  | [] => (false, r)
  | a :: argv' =>
      let r := set_generator r (existsb time_generator argv) in
      (true, if time_generator r
             then set_window r (fold_left (fun m x => Z.max m (occuring_start x)) argv' (occuring_start a))
                    (fold_left (fun m x => Z.min m (occuring_end x)) argv' (occuring_end a))
             else r)
  end.

Definition operators : list (list Z * modifier) := [(bs "or", or_operator); (bs "and", and_operator)].

Fixpoint find_modifier (l : list (list Z * modifier)) (fname : list Z) : option modifier :=
  match l with [] => None | (n, f) :: l => if bytes_eqb n fname then Some f else find_modifier l fname end.
Definition get_operator_function := find_modifier operators.
Definition get_generator_function := find_modifier generators.

(** The result of a call, from those of the arguments; [f] is [sym->f.func], an
    [ifunc] there is called with the wrong arguments. *)
Definition occur_call (name : list Z) (f : ME (option (list ESExpResult -> ME (option ESExpResult)))) (argv : list ESExpResult) :
    ME ESExpResult :=
  if is_time_function name then
    f <- f;;
    match f with
    | Some f => r <- f argv;; ret (default undefined r)
    | None => ret undefined
    end
  else
    let '(ok, r) :=
      match get_generator_function name with
      | Some generator => generator argv (set_generator undefined true)
      | None =>
          match get_operator_function name with
          | Some operator => operator argv undefined
          | None => (true, undefined)
          end
      end in
    if ok : bool then ret r else e_sexp_fatal_error (bs "Error in parse tree").

Fixpoint e_sexp_term_evaluate_occur_times (fuel : nat) (t : ESExpTerm) : ME ESExpResult :=
  match fuel with
  | O => no_fuel
  | S fuel =>
      match t with
      | TermString s => ret (e_sexp_result_new (String_ s))
      | TermFunc name f terms =>
          argv <- eval_args (e_sexp_term_evaluate_occur_times fuel) terms;;
          occur_call name (ret (call_func <$> f)) argv
      | TermIFunc name f terms =>
          argv <- eval_args (e_sexp_term_evaluate_occur_times fuel) terms;;
          occur_call name (match f with Some _ => crash | None => ret None end) argv
      | TermInt _ | TermBool _ | TermTime _ => ret undefined
      | TermVar _ => e_sexp_fatal_error (bs "Error in parse tree")
      end
  end.

(** ** The parser *)

Inductive token :=
| TokLeftParen | TokRightParen | TokMinus | TokHash | TokString (s : list Z) | TokInt (n : Z)
| TokIdentifier (s : list Z) | TokSymbol (sym : ESExpSymbol) | TokOther (c : Z).

(** The number of a token, 0 at the end. *)
Context (token_code : option token -> Z).

Abbreviation MP := (M (list token)).

(** [g_scanner_get_next_token]: NULL at the end. *)
Definition get_next_token : MP (option token) := fun ts =>
  match ts with [] => (Done None, []) | t :: ts => (Done (Some t), ts) end.
Definition peek_next_token : MP (option token) := fun ts => (Done (head ts), ts).

(** The symbol that a variable stands for, read as [value.var] of its value. *)
Fixpoint base_symbol (sym : ESExpSymbol) : option ESExpSymbol :=
  match sym with
  | SymVar _ (Some (TermVar s)) => base_symbol s
  | SymVar _ (Some (TermFunc n f _)) => Some (SymFunc n f)
  | SymVar _ (Some (TermIFunc n f _)) => Some (SymIFunc n f)
  | SymVar _ _ => None
  | _ => Some sym
  end.

Definition unexpected (t : option token) : list Z := bs "Unexpected token encountered: " ++ fmt_d (token_code t).

Section parse.
Variable parse_value : MP (option ESExpTerm).

(** The terms up to [')'] or the end; each takes a token. *)
Fixpoint values_loop (fuel : nat) (acc : list (option ESExpTerm)) : MP (list (option ESExpTerm)) :=
  match fuel with
  | O => no_fuel
  | S fuel =>
      t <- peek_next_token;;
      match t with
      | None | Some TokRightParen => ret acc
      | Some _ => x <- parse_value;; values_loop fuel (acc ++ [x])
      end
  end.

(** NULL terms make the list empty. *)
Definition parse_values (fuel : nat) : MP (list ESExpTerm) :=
  l <- values_loop fuel [];; ret (default [] (mapM id l)).
End parse.

Definition symbol_term (sym : ESExpSymbol) (terms : list ESExpTerm) : ESExpTerm :=
  match sym with
  | SymFunc n f => TermFunc n f terms
  | SymIFunc n f => TermIFunc n f terms
  | SymVar _ _ => TermVar sym
  end.

(** After ['(']: [parse_list (sexp, TRUE)].  A variable that is called leaves a
    term with the type of a variable. *)
Fixpoint parse_list (fuel : nat) (parse_values : MP (list ESExpTerm)) : MP (option ESExpTerm) :=
  match fuel with
  | O => no_fuel
  | S fuel =>
      t <- get_next_token;;
      match t with
      | Some (TokSymbol sym) =>
          match base_symbol sym with
          | None => crash
          | Some base =>
              terms <- parse_values;;
              c <- get_next_token;;
              match c with
              | Some TokRightParen =>
                  ret (Some (match sym with SymVar _ _ => TermVar base | _ => symbol_term base terms end))
              | _ => e_sexp_fatal_error (bs "Missing ')'")
              end
          end
      | Some (TokIdentifier s) => e_sexp_fatal_error (bs "Unknown identifier: " ++ s)
      | Some TokLeftParen => parse_list fuel parse_values
      | t => e_sexp_fatal_error (unexpected t)
      end
  end.

Definition is_bool_name (s : list Z) : bool := bytes_eqb s (bs "t") || bytes_eqb s (bs "f").

(** [fuel] bounds the number of tokens. *)
Fixpoint parse_value (fuel : nat) : MP (option ESExpTerm) :=
  match fuel with
  | O => no_fuel
  | S fuel =>
      let parse_values := parse_values (parse_value fuel) fuel in
      t <- get_next_token;;
      match t with
      | None => ret None
      | Some TokLeftParen => parse_list fuel parse_values
      | Some (TokString s) => ret (Some (TermString s))
      | Some TokMinus =>
          t <- get_next_token;;
          match t with
          | Some (TokInt n) => ret (Some (TermInt (s32 (- s32 n))))
          | _ => e_sexp_fatal_error (bs "Invalid format for a integer value")
          end
      | Some (TokInt n) => ret (Some (TermInt (s32 n)))
      | Some TokHash =>
          t <- get_next_token;;
          match t with
          | Some (TokIdentifier s) =>
              if is_bool_name s then ret (Some (TermBool (if bytes_eqb s (bs "t") then 1 else 0)))
              else e_sexp_fatal_error (bs "Invalid format for a boolean value")
          | _ => e_sexp_fatal_error (bs "Invalid format for a boolean value")
          end
      | Some (TokSymbol sym) =>
          match sym with
          | SymVar _ _ => ret (Some (TermVar sym))
          | _ => terms <- parse_values;; ret (Some (symbol_term sym terms))
          end
      | Some (TokIdentifier s) => e_sexp_fatal_error (bs "Unknown identifier: " ++ s)
      | Some t => e_sexp_fatal_error (unexpected (Some t))
      end
  end.

(** ** The object *)

(** [priv->tree]: NULL, a tree, or one that has been freed. *)
Inductive tree_ptr := NoTree | Tree (t : ESExpTerm) | Freed.

(** [input] is what the scanner has left; the symbols are by scope and name, in
    lower case as the scanner is not case sensitive. *)
Record ESExp := Sexp {
  tree : tree_ptr; error : option (list Z); operators_ : list oper; input : list token;
  symbols : gmap (Z * list Z) ESExpSymbol; scope : Z }.

Definition e_sexp_remove_symbol (e : ESExp) (sc : Z) (name : list Z) : ESExp :=
  Sexp (tree e) (error e) (operators_ e) (input e) (delete (sc, map tolower name) (symbols e)) (scope e).
Definition scope_add_symbol (e : ESExp) (sc : Z) (name : list Z) (sym : ESExpSymbol) : ESExp :=
  Sexp (tree e) (error e) (operators_ e) (input e) (<[(sc, map tolower name) := sym]> (symbols e)) (scope e).
Definition e_sexp_add_function (e : ESExp) (sc : Z) (name : list Z) (f : option func) : ESExp :=
  scope_add_symbol (e_sexp_remove_symbol e sc name) sc name (SymFunc name f).
Definition e_sexp_add_ifunction (e : ESExp) (sc : Z) (name : list Z) (f : option ifunc) : ESExp :=
  scope_add_symbol (e_sexp_remove_symbol e sc name) sc name (SymIFunc name f).
Definition e_sexp_add_variable (e : ESExp) (sc : Z) (name : list Z) (value : option ESExpTerm) : ESExp :=
  scope_add_symbol e sc name (SymVar name value).
Definition e_sexp_set_scope (e : ESExp) (sc : Z) : Z * ESExp :=
  (scope e, Sexp (tree e) (error e) (operators_ e) (input e) (symbols e) sc).

(** The builtin functions, and which get their terms. *)
Definition builtin_symbols : list (list Z * (func + ifunc)) :=
  [(bs "and", inr IAnd); (bs "or", inr IOr); (bs "not", inl FNot); (bs "<", inr ILt); (bs ">", inr IGt); (bs "=", inr IEq);
   (bs "+", inl FPlus); (bs "-", inl FSub); (bs "cast-int", inl FCastInt); (bs "cast-string", inl FCastString);
   (bs "if", inr IIf); (bs "begin", inr IBegin)].
Definition e_sexp_init : ESExp :=
  fold_left (fun e (b : list Z * (func + ifunc)) =>
    match snd b with inr f => e_sexp_add_ifunction e 0 (fst b) (Some f) | inl f => e_sexp_add_function e 0 (fst b) (Some f) end)
  builtin_symbols (Sexp NoTree None [] [] empty 0).

(** The answer 0 or -1; [None] when the freed tree is freed again or the parser
    reads through a bad pointer. *)
Definition e_sexp_parse (e : ESExp) : option (Z * ESExp) :=
  match tree e with
  | Freed => None
  | old =>
      match parse_value (S (length (input e))) (input e) with
      | (Done t, ts) => Some (0, Sexp (match t with Some t => Tree t | None => NoTree end) (error e) (operators_ e) ts (symbols e) (scope e))
      | (Fatal why, ts) =>
          Some (-1, Sexp (match old with NoTree => NoTree | _ => Freed end) (Some why) (operators_ e) ts (symbols e) (scope e))
      | _ => None
      end
  end.

(** The depth of a term. *)
Fixpoint height (t : ESExpTerm) : nat :=
  match t with
  | TermFunc _ _ ts | TermIFunc _ _ ts => S (list_max (map height ts))
  | _ => 1
  end.

Definition with_error (e : ESExp) (why : list Z) (ops : list oper) : ESExp :=
  Sexp (tree e) (Some why) ops (input e) (symbols e) (scope e).
Definition with_operators (e : ESExp) (ops : list oper) : ESExp :=
  Sexp (tree e) (error e) ops (input e) (symbols e) (scope e).

(** The inner option is NULL; the outer [None] a bad pointer, or a caller's
    function that evaluates deeper terms than its arguments. *)
Definition e_sexp_eval (e : ESExp) : option (option ESExpResult * ESExp) :=
  match tree e with
  | NoTree => Some (None, e)
  | Freed => None
  | Tree t =>
      match e_sexp_term_eval (height t) t (operators_ e) with
      | (Done r, ops) => Some (Some r, with_operators e ops)
      | (Fatal why, ops) => Some (None, with_error e why ops)
      | _ => None
      end
  end.

(** The answer, and what [*start] and [*end] are set to. *)
Definition e_sexp_evaluate_occur_times (e : ESExp) : option (bool * option (Z * Z) * ESExp) :=
  match tree e with
  | NoTree => Some (false, None, e)
  | Freed => None
  | Tree t =>
      match e_sexp_term_evaluate_occur_times (height t) t (operators_ e) with
      | (Done r, ops) =>
          Some (time_generator r, Some (if time_generator r then (occuring_start r, occuring_end r) else (-1, -1)), with_operators e ops)
      | (Fatal why, ops) => Some (false, Some (-1, -1), with_error e why ops)
      | _ => None
      end
  end.
End sexp.

(** ** Writing *)

Definition e_sexp_encode_bool (s : list Z) (state : bool) : list Z := s ++ if state then bs " #t" else bs " #f".

Fixpoint escape_loop (p : list Z) : list Z :=
  match p with
  | [] => []
  | c :: p => (if (c =? 92) || (c =? 34) || (c =? 39) then [92] else []) ++ c :: escape_loop p
  end.
Definition e_sexp_encode_string (s : list Z) (string : option (list Z)) : list Z :=
  s ++ [32; 34] ++ escape_loop (default [] string) ++ [34].
