(* ===== verification/ESexpEval.v ===== *)
(** * ESexpEval: evaluating S-expressions

    The types that the header of e-sexp.c gives the builtin functions, and that
    a term with a type evaluates to a result of that type; AND and OR; the
    window of time of a query. *)

From Stdlib Require Import ZArith Lia Ascii.
From stdpp Require Import base list strings gmap numbers option.
From S2P Require Import Prelude IntervalTree ESexp.

Section eval.
Context {UF UI : Type}.
Context (call_user : UF -> list ESExpResult -> outcome (option ESExpResult)).
Abbreviation term := (ESExpTerm (UF := UF) (UI := UI)).
Context (call_iuser : UI -> (term -> M (list oper) ESExpResult) -> list term -> M (list oper) (option ESExpResult)).
Context `{HashOrder}.
Abbreviation eval := (e_sexp_term_eval call_user call_iuser).

(** A computation that succeeds and leaves the operators as they were. *)
Definition yields {A} (m : M (list oper) A) (a : A) : Prop := forall ops, m ops = (Done a, ops).

Lemma yields_bind {A B} (m : M (list oper) A) a (f : A -> M (list oper) B) b : yields m a -> yields (f a) b -> yields (bind m f) b.
Proof. intros X Y ops. unfold bind. by rewrite X. Qed.

Lemma yields_ret {A} (a : A) : yields (ret a) a.
Proof. done. Qed.

Lemma eval_args_yields (ev : term -> M (list oper) ESExpResult) ts rs : Forall2 (fun t r => yields (ev t) r) ts rs ->
  yields (eval_args ev ts) rs.
Proof.
  induction 1 as [|t r ts rs E _ IH]; [apply yields_ret|]. cbn. eapply yields_bind; [done|]. eapply yields_bind; [done|apply yields_ret].
Qed.

(** ** AND and OR *)

Lemma and_loop_bools (ev : term -> M (list oper) ESExpResult) ts vs type ht : Forall2 (fun t b => exists r, yields (ev t) r /\ val r = Boolean b) ts vs ->
  (type = None \/ type = Some ESEXP_RES_BOOL) ->
  yields (and_loop ev ts type true ht) (match ts with [] => type | _ => Some ESEXP_RES_BOOL end, forallb (fun b => negb (b =? 0)) vs, ht).
Proof.
  intros F. revert type ht. induction F as [|t b ts vs (r & E & V) F IH]; intros type ht T; [apply yields_ret|].
  cbn. eapply yields_bind; [done|]. rewrite V. cbn [type_of]. rewrite decide_True by (destruct T as [-> | ->]; done).
  replace (default ESEXP_RES_BOOL type) with ESEXP_RES_BOOL by (destruct T as [-> | ->]; done).
  destruct (b =? 0); cbn [negb andb].
  - destruct ts; apply yields_ret.
  - specialize (IH (Some ESEXP_RES_BOOL) ht (or_intror eq_refl)). destruct ts; exact IH.
Qed.

Lemma or_loop_bools (ev : term -> M (list oper) ESExpResult) ts vs type ht : Forall2 (fun t b => exists r, yields (ev t) r /\ val r = Boolean b) ts vs ->
  (type = None \/ type = Some ESEXP_RES_BOOL) ->
  exists v, yields (or_loop ev ts type 0 ht) (match ts with [] => type | _ => Some ESEXP_RES_BOOL end, v, ht) /\
    negb (v =? 0) = existsb (fun b => negb (b =? 0)) vs.
Proof.
  intros F. revert type ht. induction F as [|t b ts vs (r & E & V) F IH]; intros type ht T; [exists 0; split; [apply yields_ret|done]|].
  cbn. destruct (b =? 0) eqn:B; cbn [negb orb].
  - apply Z.eqb_eq in B as ->. destruct (IH (Some ESEXP_RES_BOOL) ht (or_intror eq_refl)) as (v & Y & EX). exists v. split; [|done].
    eapply yields_bind; [done|]. rewrite V. cbn [type_of]. rewrite decide_True by (destruct T as [-> | ->]; done).
    replace (default ESEXP_RES_BOOL type) with ESEXP_RES_BOOL by (destruct T as [-> | ->]; done). cbn. destruct ts; exact Y.
  - exists b. rewrite B. split; [|done]. eapply yields_bind; [done|]. rewrite V. cbn [type_of].
    rewrite decide_True by (destruct T as [-> | ->]; done).
    replace (default ESEXP_RES_BOOL type) with ESEXP_RES_BOOL by (destruct T as [-> | ->]; done).
    change (Z.lor 0 b) with b. destruct ts; cbn; [apply yields_ret|]. rewrite B. apply yields_ret.
Qed.

Lemma and_loop_arrays (ev : term -> M (list oper) ESExpResult) ts ls type ht : Forall2 (fun t l => exists r, yields (ev t) r /\ val r = ArrayPtr l) ts ls ->
  (type = None \/ type = Some ESEXP_RES_ARRAY_PTR) ->
  yields (and_loop ev ts type true ht) (match ts with [] => type | _ => Some ESEXP_RES_ARRAY_PTR end, true, fold_left count_list ls ht).
Proof.
  intros F. revert type ht. induction F as [|t l ts ls (r & E & V) F IH]; intros type ht T; [apply yields_ret|].
  cbn. eapply yields_bind; [done|]. rewrite V. cbn [type_of]. rewrite decide_True by (destruct T as [-> | ->]; done).
  replace (default ESEXP_RES_ARRAY_PTR type) with ESEXP_RES_ARRAY_PTR by (destruct T as [-> | ->]; done).
  specialize (IH (Some ESEXP_RES_ARRAY_PTR) (count_list ht l) (or_intror eq_refl)). destruct ts; exact IH.
Qed.

Lemma or_loop_arrays (ev : term -> M (list oper) ESExpResult) ts ls type ht : Forall2 (fun t l => exists r, yields (ev t) r /\ val r = ArrayPtr l) ts ls ->
  (type = None \/ type = Some ESEXP_RES_ARRAY_PTR) ->
  yields (or_loop ev ts type 0 ht) (match ts with [] => type | _ => Some ESEXP_RES_ARRAY_PTR end, 0, fold_left see_list ls ht).
Proof.
  intros F. revert type ht. induction F as [|t l ts ls (r & E & V) F IH]; intros type ht T; [apply yields_ret|].
  cbn. eapply yields_bind; [done|]. rewrite V. cbn [type_of]. rewrite decide_True by (destruct T as [-> | ->]; done).
  replace (default ESEXP_RES_ARRAY_PTR type) with ESEXP_RES_ARRAY_PTR by (destruct T as [-> | ->]; done).
  specialize (IH (Some ESEXP_RES_ARRAY_PTR) (see_list ht l) (or_intror eq_refl)). destruct ts; exact IH.
Qed.

Lemma push_pop {A} o (m : M (list oper) A) x (f : A -> M (list oper) ESExpResult) r : yields m x -> (forall ops, f x (o :: ops) = (Done r, ops)) ->
  yields (bind (push_oper o) (fun _ => bind m f)) r.
Proof. intros Y F ops. unfold bind, push_oper. cbn. by rewrite Y. Qed.

Lemma pop_ret o {A} (a : A) ops : bind (pop_oper o) (fun _ => ret a) (o :: ops) = (Done a, ops).
Proof. unfold bind, pop_oper. cbn. by rewrite decide_True. Qed.

Lemma eval_and_yields ts x r (ev : term -> M (list oper) ESExpResult) : yields (and_loop ev ts None true empty) x ->
  r = (match fst (fst x) with
       | Some ESEXP_RES_ARRAY_PTR => e_sexp_result_new (ArrayPtr (htand (Z.of_nat (length ts)) (ht_foreach (snd x))))
       | Some ESEXP_RES_BOOL => e_sexp_result_new (boolean (snd (fst x)))
       | _ => undefined end) -> yields (term_eval_and ev ts) r.
Proof.
  intros Y ->. unfold term_eval_and. eapply push_pop; [exact Y|]. intros ops. destruct x as [[ty v] ht]. apply pop_ret.
Qed.

Lemma eval_or_yields ts x r (ev : term -> M (list oper) ESExpResult) : yields (or_loop ev ts None 0 empty) x ->
  r = (match fst (fst x) with
       | Some ESEXP_RES_ARRAY_PTR => e_sexp_result_new (ArrayPtr (map fst (ht_foreach (snd x))))
       | Some ESEXP_RES_BOOL => e_sexp_result_new (Boolean (snd (fst x)))
       | _ => undefined end) -> yields (term_eval_or ev ts) r.
Proof.
  intros Y ->. unfold term_eval_or. eapply push_pop; [exact Y|]. intros ops. destruct x as [[ty v] ht]. apply pop_ret.
Qed.

(** *** Lists as sets *)

(** In how many of the lists a string is. *)
Definition in_lists (s : list Z) (ls : list (list (list Z))) : Z := Z.of_nat (length (filter (fun l => s ∈ l) ls)).

Lemma count_list_lookup ht l s : NoDup l ->
  count_list ht l !! s = if decide (s ∈ l) then Some (default 0 (ht !! s) + 1) else ht !! s.
Proof.
  intros ND. revert ht. induction ND as [|x l NI ND IH]; intros ht.
  - rewrite decide_False by apply not_elem_of_nil. done.
  - cbn. change (fold_left _ l ?h) with (count_list h l). rewrite IH. destruct (decide (s = x)) as [->|N].
    + rewrite decide_False, lookup_insert_eq, decide_True by (done || left). done.
    + rewrite !lookup_insert_ne by done. repeat case_decide; set_solver.
Qed.

Lemma count_lists_lookup ls ht s : Forall NoDup ls ->
  fold_left count_list ls ht !! s = if decide (in_lists s ls = 0) then ht !! s else Some (default 0 (ht !! s) + in_lists s ls).
Proof.
  unfold in_lists. intros F. revert ht. induction F as [|l ls ND F IH]; intros ht; [done|]. cbn [fold_left]. rewrite IH, count_list_lookup by done.
  destruct (decide (s ∈ l)) as [I|I].
  - rewrite filter_cons_True by done. cbn [length]. rewrite (decide_False (P := Z.of_nat (S _) = 0)) by lia. case_decide; cbn; f_equal; lia.
  - by rewrite filter_cons_False.
Qed.

Lemma in_lists_all ls s : in_lists s ls = Z.of_nat (length ls) <-> Forall (fun l => s ∈ l) ls.
Proof.
  unfold in_lists. rewrite Nat2Z.inj_iff. split.
  - induction ls as [|l ls IH]; [constructor|]. destruct (decide (s ∈ l)) as [I|I].
    + rewrite filter_cons_True by done. cbn. intros [= E]. constructor; [done|by apply IH].
    + rewrite filter_cons_False by done. cbn. pose proof (length_filter (fun l => s ∈ l) ls). lia.
  - induction 1 as [|l ls I F IH]; [done|]. rewrite filter_cons_True by done. cbn. by rewrite IH.
Qed.

Lemma see_lists_lookup ls ht s : fold_left see_list ls ht !! s = if decide (Exists (fun l => s ∈ l) ls) then Some 1 else ht !! s.
Proof.
  assert (S1 : forall l ht, see_list ht l !! s = if decide (s ∈ l) then Some 1 else ht !! s).
  { induction l as [|x l IH]; intros h; [by rewrite decide_False by apply not_elem_of_nil|]. cbn. change (fold_left _ l ?h) with (see_list h l).
    rewrite IH. destruct (decide (s = x)) as [->|N]; [rewrite lookup_insert_eq, (decide_True (P := x ∈ x :: l)) by left; by case_decide|].
    rewrite lookup_insert_ne by done. repeat case_decide; set_solver. }
  revert ht. induction ls as [|l ls IH]; intros ht; [by rewrite decide_False by (by intros ?%Exists_nil)|]. cbn. rewrite IH, S1.
  repeat case_decide; try done; rewrite Exists_cons in *; tauto.
Qed.

Section hash_order.
Hypothesis ht_foreach_perm : forall m, ht_foreach m ≡ₚ map_to_list m.

Lemma elem_of_htand n m s : s ∈ htand n (ht_foreach m) <-> m !! s = Some n.
Proof.
  unfold htand. rewrite list_elem_of_omap. setoid_rewrite ht_foreach_perm. split.
  - intros ([k v] & I%elem_of_map_to_list & E). cbn in E. destruct (v =? n) eqn:V; [|done]. apply Z.eqb_eq in V. congruence.
  - intros E. exists (s, n). rewrite elem_of_map_to_list. split; [done|]. cbn. by rewrite Z.eqb_refl.
Qed.

Lemma elem_of_keys m s : s ∈ map fst (ht_foreach m) <-> is_Some (m !! s).
Proof.
  rewrite list_elem_of_fmap. setoid_rewrite ht_foreach_perm. split.
  - intros ([k v] & -> & I%elem_of_map_to_list). by exists v.
  - intros [v E]. exists (s, v). by rewrite elem_of_map_to_list.
Qed.

(** C28. AND and OR of boolean arguments are conjunction and disjunction, and of
    lists without repetition intersection and union. *)
Theorem sexp_and_or (ev : term -> M (list oper) ESExpResult) ts : ts <> [] ->
  (forall vs, Forall2 (fun t b => exists r, yields (ev t) r /\ val r = Boolean b) ts vs ->
    yields (term_eval_and ev ts) (e_sexp_result_new (boolean (forallb (fun b => negb (b =? 0)) vs))) /\
    exists v, yields (term_eval_or ev ts) (e_sexp_result_new (Boolean v)) /\
      negb (v =? 0) = existsb (fun b => negb (b =? 0)) vs) /\
  (forall ls, Forall2 (fun t l => exists r, yields (ev t) r /\ val r = ArrayPtr l) ts ls -> Forall NoDup ls ->
    (exists l, yields (term_eval_and ev ts) (e_sexp_result_new (ArrayPtr l)) /\
      forall s, s ∈ l <-> forall l', l' ∈ ls -> s ∈ l') /\
    (exists l, yields (term_eval_or ev ts) (e_sexp_result_new (ArrayPtr l)) /\
      forall s, s ∈ l <-> exists l', l' ∈ ls /\ s ∈ l')).
Proof.
  intros NE. split.
  - intros vs F. destruct (or_loop_bools ev ts vs None empty F (or_introl eq_refl)) as (v & Y & E). split.
    + eapply eval_and_yields; [by apply and_loop_bools; [|left]|]. by destruct ts.
    + exists v. split; [|done]. eapply eval_or_yields; [exact Y|]. by destruct ts.
  - intros ls F ND. split; eexists; split.
    + eapply eval_and_yields; [by apply and_loop_arrays; [|left]|]. by destruct ts.
    + intros s. pose proof (Forall2_length F) as LF. rewrite LF. cbn [fst snd]. rewrite elem_of_htand, count_lists_lookup by done. rewrite lookup_empty. cbn.
      rewrite <- list.Forall_forall, <- in_lists_all. destruct ts; [done|]. inversion F; subst. cbn [length].
      case_decide as D; [rewrite D; split; [done|lia]|]. split; [intros [= E2]; lia|intros; f_equal; lia].
    + eapply eval_or_yields; [by apply or_loop_arrays; [|left]|]. by destruct ts.
    + intros s. cbn. rewrite elem_of_keys, see_lists_lookup, lookup_empty. rewrite <- list.Exists_exists. case_decide as D; [by split; [|eexists]|]. split; [by intros []|done].
Qed.

End hash_order.

(** An argument of AND or OR that has another type than the first stops the
    evaluation with an error, unless the result was known before; the operator
    is then left on the list. *)
Theorem sexp_and_or_type_error (ev : term -> M (list oper) ESExpResult) ts t ts' vs r : ts <> [] ->
  Forall2 (fun t b => exists r, yields (ev t) r /\ val r = Boolean b) ts vs -> yields (ev t) r -> type_of (val r) <> ESEXP_RES_BOOL ->
  (forall ops, term_eval_and ev (ts ++ t :: ts') ops =
    if forallb (fun b => negb (b =? 0)) vs then (Fatal (bs "Invalid types in AND"), AND :: ops)
    else (Done (e_sexp_result_new (Boolean 0)), ops)) /\
  (forall ops, exists v, term_eval_or ev (ts ++ t :: ts') ops =
    if existsb (fun b => negb (b =? 0)) vs then (Done (e_sexp_result_new (Boolean v)), ops)
    else (Fatal (bs "Invalid types in OR"), OR :: ops)).
Proof.
  intros NE F E NB.
  assert (A : forall ts vs type ht ops, Forall2 (fun t b => exists r, yields (ev t) r /\ val r = Boolean b) ts vs ->
    (ts <> [] /\ type = None \/ type = Some ESEXP_RES_BOOL) -> and_loop ev (ts ++ t :: ts') type true ht ops =
      if forallb (fun b => negb (b =? 0)) vs then (Fatal (bs "Invalid types in AND"), ops) else (Done (Some ESEXP_RES_BOOL, false, ht), ops)).
  { clear -E NB. intros ts vs type ht ops F. revert type ht. induction F as [|x b ts vs (rx & Ex & V) F IH]; intros type ht T.
    - destruct T as [[? _]| ->]; [done|]. cbn. unfold bind. rewrite E. cbn. by rewrite decide_False by congruence.
    - cbn. unfold bind. rewrite Ex, V. cbn [type_of]. rewrite decide_True by (destruct T as [[_ ->]| ->]; done).
      replace (default ESEXP_RES_BOOL type) with ESEXP_RES_BOOL by (destruct T as [[_ ->]| ->]; done).
      destruct (b =? 0); cbn [negb andb]; [|apply IH; by right]. by destruct ts. }
  assert (O : forall ts vs type ht ops, Forall2 (fun t b => exists r, yields (ev t) r /\ val r = Boolean b) ts vs ->
    (ts <> [] /\ type = None \/ type = Some ESEXP_RES_BOOL) -> exists v, or_loop ev (ts ++ t :: ts') type 0 ht ops =
      if existsb (fun b => negb (b =? 0)) vs then (Done (Some ESEXP_RES_BOOL, v, ht), ops) else (Fatal (bs "Invalid types in OR"), ops)).
  { clear -E NB. intros ts vs type ht ops F. revert type ht. induction F as [|x b ts vs (rx & Ex & V) F IH]; intros type ht T.
    - destruct T as [[? _]| ->]; [done|]. exists 0. cbn. unfold bind. rewrite E. cbn. by rewrite decide_False by congruence.
    - cbn. unfold bind. rewrite Ex, V. cbn [type_of]. rewrite decide_True by (destruct T as [[_ ->]| ->]; done).
      replace (default ESEXP_RES_BOOL type) with ESEXP_RES_BOOL by (destruct T as [[_ ->]| ->]; done).
      change (Z.lor 0 b) with b. destruct (b =? 0) eqn:B; cbn [negb orb]; [apply Z.eqb_eq in B as ->; apply IH; by right|].
      exists b. destruct ts; cbn; by rewrite B. }
  split; intros ops.
  - unfold term_eval_and, bind at 1, push_oper. cbn [fst snd]. unfold bind at 1. rewrite (A _ _ _ _ _ F) by (left; done).
    destruct (forallb _ vs); [done|]. unfold bind, pop_oper. cbn. by rewrite decide_True.
  - unfold term_eval_or, bind at 1, push_oper. destruct (O _ _ None empty (OR :: ops) F) as (v & X); [left; done|]. exists v.
    unfold bind at 1. rewrite X. destruct (existsb _ vs); [|done]. unfold bind, pop_oper. cbn. by rewrite decide_True.
Qed.

(** ** Types *)

(** The types that callers promise for their functions. *)
Context (utype : UF -> list ESExpResultType -> ESExpResultType -> Prop).
Hypothesis user_typed : forall u argv ty, utype u (map (fun r => type_of (val r)) argv) ty ->
  exists r, call_user u argv = Done (Some r) /\ type_of (val r) = ty.

(** The types in the comment at the head of e-sexp.c. *)
Inductive typed : term -> ESExpResultType -> Prop :=
| TypInt n : typed (TermInt n) ESEXP_RES_INT
| TypBool b : typed (TermBool b) ESEXP_RES_BOOL
| TypString s : typed (TermString s) ESEXP_RES_STRING
| TypTime t : typed (TermTime t) ESEXP_RES_TIME
| TypAndOr n f ts ty : f = IAnd \/ f = IOr -> ts <> [] -> Forall (fun t => typed t ty) ts ->
    ty = ESEXP_RES_BOOL \/ ty = ESEXP_RES_ARRAY_PTR -> typed (TermIFunc n (Some f) ts) ty
| TypCompare n f t1 t2 ty : f = ILt \/ f = IGt -> typed t1 ty -> typed t2 ty ->
    ty = ESEXP_RES_INT \/ ty = ESEXP_RES_STRING \/ ty = ESEXP_RES_TIME -> typed (TermIFunc n (Some f) [t1; t2]) ESEXP_RES_BOOL
| TypEq n t1 t2 ty1 ty2 : typed t1 ty1 -> typed t2 ty2 -> typed (TermIFunc n (Some IEq) [t1; t2]) ESEXP_RES_BOOL
| TypIf n c t1 t2 ty : typed c ESEXP_RES_BOOL -> typed t1 ty -> typed t2 ty -> typed (TermIFunc n (Some IIf) [c; t1; t2]) ty
| TypBegin n ts tys t ty : Forall2 typed ts tys -> typed t ty -> typed (TermIFunc n (Some IBegin) (ts ++ [t])) ty
| TypNot n ts tys : Forall2 typed ts tys -> typed (TermFunc n (Some FNot) ts) ESEXP_RES_BOOL
| TypPlus n t ts ty : Forall (fun t => typed t ty) (t :: ts) ->
    ty = ESEXP_RES_INT \/ ty = ESEXP_RES_STRING \/ ty = ESEXP_RES_TIME -> typed (TermFunc n (Some FPlus) (t :: ts)) ty
| TypSub n t ts ty : Forall (fun t => typed t ty) (t :: ts) ->
    ty = ESEXP_RES_INT \/ ty = ESEXP_RES_TIME -> typed (TermFunc n (Some FSub) (t :: ts)) ty
| TypCastInt n t ty : typed t ty -> ty = ESEXP_RES_INT \/ ty = ESEXP_RES_STRING \/ ty = ESEXP_RES_BOOL ->
    typed (TermFunc n (Some FCastInt) [t]) ESEXP_RES_INT
| TypCastString n t ty : typed t ty -> ty = ESEXP_RES_INT \/ ty = ESEXP_RES_STRING \/ ty = ESEXP_RES_BOOL ->
    typed (TermFunc n (Some FCastString) [t]) ESEXP_RES_STRING
| TypUser n u ts tys ty : Forall2 typed ts tys -> utype u tys ty -> typed (TermFunc n (Some (FUser u)) ts) ty.

(** Evaluates to a result of the type. *)
Definition sound (ev : term -> M (list oper) ESExpResult) (t : term) (ty : ESExpResultType) : Prop :=
  exists r, yields (ev t) r /\ type_of (val r) = ty.

Lemma sound_args ev ts tys : Forall2 (sound ev) ts tys ->
  exists rs, yields (eval_args ev ts) rs /\ map (fun r => type_of (val r)) rs = tys.
Proof.
  intros F. assert (X : exists rs, Forall2 (fun t r => yields (ev t) r) ts rs /\ map (fun r => type_of (val r)) rs = tys).
  { induction F as [|t ty ts tys (r & E & T) F (rs & F' & M')]; [by exists []|]. exists (r :: rs). split; [by constructor|]. cbn. congruence. }
  destruct X as (rs & F' & E). exists rs. split; [by apply eval_args_yields|done].
Qed.

Lemma sound_same ev ts ty : Forall (fun t => sound ev t ty) ts -> Forall2 (sound ev) ts (replicate (length ts) ty).
Proof. induction 1; cbn; by constructor. Qed.

Lemma typed_bool ev t : sound ev t ESEXP_RES_BOOL -> exists b r, yields (ev t) r /\ val r = Boolean b.
Proof. intros (r & E & T). destruct (val r) eqn:V; try done. by exists b, r. Qed.
Lemma typed_array ev t : sound ev t ESEXP_RES_ARRAY_PTR -> exists l r, yields (ev t) r /\ val r = ArrayPtr l.
Proof. intros (r & E & T). destruct (val r) eqn:V; try done. by exists l, r. Qed.

Lemma forall_forall2 {A B} (P : A -> B -> Prop) (l : list A) : Forall (fun a => exists b, P a b) l -> exists k, Forall2 P l k.
Proof. induction 1 as [|a l (b & Hb) F (k & Hk)]; [by exists []|]. exists (b :: k). by constructor. Qed.

Lemma and_or_sound ev f ts ty : f = IAnd \/ f = IOr -> ts <> [] -> Forall (fun t => sound ev t ty) ts ->
  ty = ESEXP_RES_BOOL \/ ty = ESEXP_RES_ARRAY_PTR ->
  exists r, yields (call_ifunc call_iuser ev f ts) (Some r) /\ type_of (val r) = ty.
Proof.
  intros HF NE F [-> | ->].
  - destruct (forall_forall2 (fun t b => exists r, yields (ev t) r /\ val r = Boolean b) ts) as (vs & V).
    { eapply Forall_impl; [apply typed_bool|exact F]. }
    destruct HF as [-> | ->].
    + eexists. split; [eapply yields_bind; [|apply yields_ret]; eapply eval_and_yields; [apply and_loop_bools; [exact V|by left]|done]|].
      by destruct ts.
    + destruct (or_loop_bools _ _ _ None empty V (or_introl eq_refl)) as (v & Y & _).
      eexists. split; [eapply yields_bind; [|apply yields_ret]; eapply eval_or_yields; [exact Y|done]|]. by destruct ts.
  - destruct (forall_forall2 (fun t b => exists r, yields (ev t) r /\ val r = ArrayPtr b) ts) as (vs & V).
    { eapply Forall_impl; [apply typed_array|exact F]. }
    destruct HF as [-> | ->].
    + eexists. split; [eapply yields_bind; [|apply yields_ret]; eapply eval_and_yields; [apply and_loop_arrays; [exact V|by left]|done]|].
      by destruct ts.
    + eexists. split; [eapply yields_bind; [|apply yields_ret]; eapply eval_or_yields; [apply or_loop_arrays; [exact V|by left]|done]|].
      by destruct ts.
Qed.

Lemma begin_sound ev ts tys t ty r0 : Forall2 (sound ev) ts tys -> sound ev t ty ->
  exists r, yields (begin_loop ev (ts ++ [t]) r0) r /\ type_of (val r) = ty.
Proof.
  intros F (r & E & T). revert r0. induction F as [|x tx ts tys (rx & Ex & _) F IH]; intros r0.
  - exists r. split; [|done]. cbn. eapply yields_bind; [done|apply yields_ret].
  - destruct (IH (Some rx)) as (r' & Y & T'). exists r'. split; [|done]. cbn. by eapply yields_bind.
Qed.

Lemma sums_sound op rs ty : Forall (fun r => type_of (val r) = ty) rs ->
  (ty = ESEXP_RES_INT -> forall n, exists m, sum_numbers op n rs = Some m) /\
  (ty = ESEXP_RES_STRING -> forall n, exists m, sum_strings n rs = Some m) /\
  (ty = ESEXP_RES_TIME -> forall n, exists m, sum_times op n rs = Some m).
Proof.
  induction 1 as [|r rs T F (I1 & I2 & I3)]; [split_and!; intros _ n; by eexists|].
  split_and!; intros -> n; cbn; destruct (val r); try done; auto.
Qed.

Lemma plus_sub_sound f r rs ty : Forall (fun r => type_of (val r) = ty) (r :: rs) ->
  f = FPlus /\ (ty = ESEXP_RES_INT \/ ty = ESEXP_RES_STRING \/ ty = ESEXP_RES_TIME) \/ f = FSub /\ (ty = ESEXP_RES_INT \/ ty = ESEXP_RES_TIME) ->
  exists x, yields (call_func (UF := UF) call_user f (r :: rs)) (Some x) /\ type_of (val x) = ty.
Proof.
  intros [T F]%Forall_cons_iff HF. destruct (sums_sound Z.add rs ty F) as (A1 & A2 & A3), (sums_sound Z.sub rs ty F) as (B1 & _ & B3).
  assert (X : forall (m : M (list oper) ESExpResult) y, yields m y -> type_of (val y) = ty ->
    exists x, yields (bind m (fun r => ret (Some r))) (Some x) /\ type_of (val x) = ty).
  { intros m y Y E. exists y. split; [|done]. eapply yields_bind; [done|apply yields_ret]. }
  destruct HF as [[-> [-> | [-> | ->]]]|[-> [-> | ->]]]; cbn; unfold term_eval_plus, term_eval_sub; destruct (val r) as [| | | |t|]; try done.
  - destruct (A1 eq_refl n) as (m & ->). by eapply X.
  - destruct (A2 eq_refl s) as (m & ->). by eapply X.
  - destruct (A3 eq_refl t) as (m & ->). by eapply X.
  - destruct (B1 eq_refl n) as (m & ->). by eapply X.
  - destruct (B3 eq_refl t) as (m & ->). by eapply X.
Qed.

Lemma cast_sound f r : type_of (val r) = ESEXP_RES_INT \/ type_of (val r) = ESEXP_RES_STRING \/ type_of (val r) = ESEXP_RES_BOOL ->
  f = FCastInt \/ f = FCastString -> exists x, yields (call_func (UF := UF) call_user f [r]) (Some x) /\
    type_of (val x) = match f with FCastInt => ESEXP_RES_INT | _ => ESEXP_RES_STRING end.
Proof.
  intros T [-> | ->]; cbn; unfold term_eval_castint, term_eval_caststring; destruct (val r); cbn in T; try naive_solver; by eexists.
Qed.

Lemma height_args (ts : list term) t : t ∈ ts -> (height t <= list_max (map height ts))%nat.
Proof.
  intros I. pose proof (proj1 (list_max_le (map height ts) (list_max (map height ts))) (le_n _)) as F.
  rewrite list.Forall_forall in F. apply F. by apply (list_elem_of_fmap_2 height).
Qed.

(** The induction over the arguments. *)
Lemma sound_arguments fuel (ts : list term) : (forall t ty, typed t ty -> (height t <= fuel)%nat -> sound (eval fuel) t ty) ->
  (list_max (map height ts) <= fuel)%nat ->
  (forall ty, Forall (fun t => typed t ty) ts -> Forall (fun t => sound (eval fuel) t ty) ts) /\
  (forall tys, Forall2 typed ts tys -> Forall2 (sound (eval fuel)) ts tys).
Proof.
  intros IH L. assert (S : forall t ty, t ∈ ts -> typed t ty -> sound (eval fuel) t ty).
  { intros t ty I T. apply IH; [done|]. pose proof (height_args ts t I). lia. }
  clear L. split.
  - intros ty F. induction F as [|t ts T F IHF]; constructor; [apply S; [left|done]|]. apply IHF. intros; apply S; [by right|done].
  - intros tys F. induction F as [|t ty ts tys T F IHF]; constructor; [apply S; [left|done]|]. apply IHF. intros; apply S; [by right|done].
Qed.

Lemma eval_ifunc fuel n f ts r : yields (call_ifunc call_iuser (eval fuel) f ts) (Some r) -> yields (eval (S fuel) (TermIFunc n (Some f) ts)) r.
Proof. intros Y. cbn [e_sexp_term_eval]. by eapply yields_bind. Qed.

Lemma eval_func fuel n f ts rs r : yields (eval_args (eval fuel) ts) rs -> yields (call_func call_user f rs) (Some r) ->
  yields (eval (S fuel) (TermFunc n (Some f) ts)) r.
Proof. intros A Y. cbn [e_sexp_term_eval]. eapply yields_bind; [done|]. by eapply yields_bind. Qed.

(** [sound] for a call, from the result of the function. *)
Lemma sound_ifunc fuel n f ts ty : (exists r, yields (call_ifunc call_iuser (eval fuel) f ts) (Some r) /\ type_of (val r) = ty) ->
  sound (eval (S fuel)) (TermIFunc n (Some f) ts) ty.
Proof. intros (r & Y & T). exists r. split; [by apply eval_ifunc|done]. Qed.

Lemma sound_func fuel n f ts tys ty : Forall2 (sound (eval fuel)) ts tys ->
  (forall rs, map (fun r => type_of (val r)) rs = tys -> exists r, yields (call_func call_user f rs) (Some r) /\ type_of (val r) = ty) ->
  sound (eval (S fuel)) (TermFunc n (Some f) ts) ty.
Proof.
  intros F C. destruct (sound_args _ _ _ F) as (rs & Y & E). destruct (C rs E) as (r & Y' & T). exists r. split; [by eapply eval_func|done].
Qed.

Lemma builtin_ifunc_sound fuel n f t1 t2 ty1 ty2 : sound (eval fuel) t1 ty1 -> sound (eval fuel) t2 ty2 ->
  (f = ILt \/ f = IGt) /\ ty1 = ty2 /\ (ty1 = ESEXP_RES_INT \/ ty1 = ESEXP_RES_STRING \/ ty1 = ESEXP_RES_TIME) \/ f = IEq ->
  sound (eval (S fuel)) (TermIFunc n (Some f) [t1; t2]) ESEXP_RES_BOOL.
Proof.
  intros (r1 & Y1 & T1) (r2 & Y2 & T2) C. apply sound_ifunc.
  assert (X : forall (m : ESExpResult -> ESExpResult -> M (list oper) ESExpResult), (exists y, yields (m r1 r2) y /\ type_of (val y) = ESEXP_RES_BOOL) ->
    exists r, yields (bind (bind (eval fuel t1) (fun a => bind (eval fuel t2) (fun b => m a b))) (fun r => ret (Some r))) (Some r) /\ type_of (val r) = ESEXP_RES_BOOL).
  { intros m (y & Y & E). exists y. split; [|done]. eapply yields_bind; [|apply yields_ret]. eapply yields_bind; [done|]. by eapply yields_bind. }
  destruct C as [[[-> | ->] [-> HT]]| ->]; cbn [call_ifunc]; unfold term_eval_lt, term_eval_gt, term_eval_eq;
    eapply X; [..|by eexists];
    destruct (val r1), (val r2); cbn in T1, T2; subst; try naive_solver; by eexists.
Qed.

Lemma types_replicate rs n ty : map (fun r => type_of (val r)) rs = replicate n ty -> Forall (fun r => type_of (val r) = ty) rs.
Proof.
  intros E. apply list.Forall_forall. intros x I. apply (list_elem_of_fmap_2 (fun r => type_of (val r))) in I.
  change (type_of (val x) ∈ map (fun r => type_of (val r)) rs) in I. rewrite E in I. by apply elem_of_replicate in I as [? _].
Qed.

Ltac height_lia := unfold list_max in *; cbn [map fold_right height] in *; lia.

Lemma sound_mono fuel t ty : typed t ty -> (height t <= fuel)%nat -> sound (eval fuel) t ty.
Proof.
  revert t ty; induction fuel as [|fuel IH]; intros t ty T L; [destruct t; cbn in L; lia|].
  destruct T as [n|b|s|t|n f ts ty HF NE F HT|n f t1 t2 ty HF T1 T2 HT|n t1 t2 ty1 ty2 T1 T2|n c t1 t2 ty T0 T1 T2|n ts tys t ty F T|
    n ts tys F|n t ts ty F HT|n t ts ty F HT|n t ty T HT|n t ty T HT|n u ts tys ty F U];
    [by eexists; split; [apply yields_ret|]..| | | | | | | | | | |]; cbn [height] in L; apply le_S_n in L; idtac;
    match type of L with (list_max (map _ ?ts) <= _)%nat => pose proof (sound_arguments fuel ts IH L) as [ARG ARG2] | _ => idtac end.
  - apply sound_ifunc. by apply and_or_sound; [..|apply ARG|].
  - eapply builtin_ifunc_sound; [apply IH; [exact T1|height_lia]|apply IH; [exact T2|height_lia]|]. left. by split.
  - eapply builtin_ifunc_sound; [apply IH; [exact T1|height_lia]|apply IH; [exact T2|height_lia]|]. by right.
  - apply sound_ifunc. destruct (IH _ _ T0 ltac:(height_lia)) as (r0 & Y0 & E0), (IH _ _ T1 ltac:(height_lia)) as (r1 & Y1 & E1), (IH _ _ T2 ltac:(height_lia)) as (r2 & Y2 & E2).
    exists (if is_true r0 then r1 else r2). split; [|by destruct (is_true r0)]. cbn [call_ifunc]. eapply yields_bind; [|apply yields_ret].
    eapply yields_bind; [done|]. by destruct (is_true r0).
  - apply sound_ifunc. assert (S : sound (eval fuel) t ty).
    { apply IH; [done|]. pose proof (height_args (ts ++ [t]) t). set_solver by lia. }
    assert (F' : Forall2 (sound (eval fuel)) ts tys).
    { apply sound_arguments; [done| |done]. rewrite map_app, list_max_app in L. lia. }
    destruct (begin_sound _ _ _ _ _ None F' S) as (r & Y & E). exists r. split; [|done]. eapply yields_bind; [exact Y|apply yields_ret].
  - eapply sound_func; [by apply ARG2|]. intros rs _. by eexists.
  - eapply sound_func; [apply sound_same; by apply (proj1 (sound_arguments fuel (t :: ts) IH L))|].
    intros [|r rs] E; [done|]. apply plus_sub_sound; [|by left]. by eapply types_replicate.
  - eapply sound_func; [apply sound_same; by apply (proj1 (sound_arguments fuel (t :: ts) IH L))|].
    intros [|r rs] E; [done|]. apply plus_sub_sound; [|by right]. by eapply types_replicate.
  - eapply (sound_func _ _ _ _ [ty]); [constructor; [apply IH; [done|height_lia]|constructor]|]. intros [|r [|]] E; try done.
    injection E as E. rewrite <- E in HT. by apply cast_sound; [|left].
  - eapply (sound_func _ _ _ _ [ty]); [constructor; [apply IH; [done|height_lia]|constructor]|]. intros [|r [|]] E; try done.
    injection E as E. rewrite <- E in HT. by apply cast_sound; [|right].
  - eapply sound_func; [by apply ARG2|]. intros rs E. subst tys. destruct (user_typed _ _ _ U) as (r & C & E). exists r. split; [|done].
    intros ops. cbn. unfold lift. by rewrite C.
Qed.

(** C13. A query with a type is evaluated without an error, to a result of that
    type, and the object is as before: no operator stays on its list. *)
Theorem sexp_type_sound (e : ESExp) t ty : tree e = Tree t -> typed t ty ->
  exists r, e_sexp_eval call_user call_iuser e = Some (Some r, e) /\ type_of (val r) = ty.
Proof.
  intros E T. destruct (sound_mono (height t) t ty T (le_n _)) as (r & Y & TY). exists r. split; [|done].
  unfold e_sexp_eval. rewrite E, Y. unfold with_operators. destruct e; cbn in *. by subst.
Qed.

(** ** The window of time *)

Lemma bind_done {A B} (m : M (list oper) A) (f : A -> M (list oper) B) ops b ops' : bind m f ops = (Done b, ops') ->
  exists a ops1, m ops = (Done a, ops1) /\ f a ops1 = (Done b, ops').
Proof. unfold bind. destruct (m ops) as [[a| | |] ops1]; try done. intros E. by exists a, ops1. Qed.

Abbreviation occ := (e_sexp_term_evaluate_occur_times call_user).

(** A call, whatever the function behind the name. *)
Definition is_call (t : term) (name : list Z) (ts : list term) : Prop :=
  (exists f, t = TermFunc name f ts) \/ (exists f, t = TermIFunc name f ts).

Section window.
(** Terms that hold for an object with the interval from [x] to [y], as far as
    the window is read off their form. *)
Context (x y : Z) (sat : term -> Prop).
Definition overlaps (r : ESExpResult) : Prop := occuring_start r <= y /\ x <= occuring_end r.
Hypothesis in_range : 0 <= y /\ x <= TIME_T_MAX.
Hypothesis sat_and : forall t ts, is_call t (bs "and") ts -> sat t -> Forall sat ts.
Hypothesis sat_or : forall t ts, is_call t (bs "or") ts -> sat t -> Exists sat ts.
Hypothesis sat_generator : forall t name ts g fuel ops argv ops' r, is_call t name ts -> get_generator_function name = Some g ->
  eval_args (occ fuel) ts ops = (Done argv, ops') -> g argv (set_generator undefined true) = (true, r) -> sat t -> overlaps r.
Hypothesis sat_time : forall t name ts, is_call t name ts -> sat t -> is_time_function name = false.

Lemma overlaps_new v : overlaps (e_sexp_result_new v).
Proof. apply in_range. Qed.

Lemma args_overlap fuel ts ops argv ops' : (forall t ops r ops', occ fuel t ops = (Done r, ops') -> sat t -> overlaps r) ->
  eval_args (occ fuel) ts ops = (Done argv, ops') -> Forall2 (fun t r => sat t -> overlaps r) ts argv.
Proof.
  intros IH. revert ops argv; induction ts as [|t ts IHt]; intros ops argv; cbn; [intros [= <- _]; constructor|].
  intros (r & ops1 & E & (rs & ops2 & E2 & [= <- <-])%bind_done)%bind_done. constructor; [by apply (IH _ _ _ _ E)|by eapply IHt].
Qed.

Lemma fold_max_le (f : ESExpResult -> Z) l a b : fold_left (fun m r => Z.max m (f r)) l a <= b <-> a <= b /\ Forall (fun r => f r <= b) l.
Proof.
  revert a; induction l as [|r l IH]; intros a; cbn; [split; [intros; split; [done|constructor]|tauto]|]. rewrite IH, Forall_cons_iff, Z.max_lub_iff. tauto.
Qed.
Lemma fold_min_ge (f : ESExpResult -> Z) l a b : b <= fold_left (fun m r => Z.min m (f r)) l a <-> b <= a /\ Forall (fun r => b <= f r) l.
Proof.
  revert a; induction l as [|r l IH]; intros a; cbn; [split; [intros; split; [done|constructor]|tauto]|]. rewrite IH, Forall_cons_iff, Z.min_glb_iff. tauto.
Qed.
Lemma fold_min_le (f : ESExpResult -> Z) l a b : fold_left (fun m r => Z.min m (f r)) l a <= b <-> a <= b \/ Exists (fun r => f r <= b) l.
Proof.
  revert a; induction l as [|r l IH]; intros a; cbn; [rewrite Exists_nil; tauto|]. rewrite IH, Exists_cons, Z.min_le_iff. tauto.
Qed.
Lemma fold_max_ge (f : ESExpResult -> Z) l a b : b <= fold_left (fun m r => Z.max m (f r)) l a <-> b <= a \/ Exists (fun r => b <= f r) l.
Proof.
  revert a; induction l as [|r l IH]; intros a; cbn; [rewrite Exists_nil; tauto|]. rewrite IH, Exists_cons, Z.max_le_iff. tauto.
Qed.

Lemma and_operator_overlap argv r ts : and_operator argv undefined = (true, r) ->
  Forall2 (fun t r => sat t -> overlaps r) ts argv -> Forall sat ts -> overlaps r.
Proof.
  intros E F S. destruct argv as [|a argv]; [done|]. unfold and_operator in E. injection E as <-.
  assert (O : Forall overlaps (a :: argv)).
  { clear -F S. induction F; [constructor|]. apply Forall_cons_iff in S as [? ?]. constructor; auto. }
  apply Forall_cons_iff in O as [[O1 O2] O]. cbn [time_generator set_generator existsb].
  destruct (time_generator a || existsb time_generator argv); [|apply overlaps_new].
  unfold overlaps. cbn. rewrite fold_max_le, fold_min_ge. split; (split; [done|]); eapply Forall_impl; try exact O; by intros ? [].
Qed.

Lemma or_operator_overlap argv r ts : or_operator argv undefined = (true, r) ->
  Forall2 (fun t r => sat t -> overlaps r) ts argv -> Exists sat ts -> overlaps r.
Proof.
  intros E F S. destruct argv as [|a argv]; [done|]. unfold or_operator in E. injection E as <-.
  assert (O : Exists overlaps (a :: argv)).
  { clear -F S. induction F; [by apply Exists_nil in S|]. apply Exists_cons in S as [?|?]; [left|right]; auto. }
  cbn [time_generator set_generator forallb].
  destruct (time_generator a && forallb time_generator argv); [|apply overlaps_new].
  unfold overlaps. cbn. rewrite fold_min_le, fold_max_ge. apply Exists_cons in O as [[? ?]|O]; [by split; left|].
  split; right; eapply Exists_impl; try exact O; by intros ? [].
Qed.

Lemma get_operator_spec name op : get_operator_function name = Some op ->
  name = bs "or" /\ op = or_operator \/ name = bs "and" /\ op = and_operator.
Proof.
  unfold get_operator_function, operators, find_modifier. destruct (bytes_eqb (bs "or") name) eqn:E1.
  - apply bytes_eqb_eq in E1 as <-. intros [= <-]. by left.
  - destruct (bytes_eqb (bs "and") name) eqn:E2; [|done]. apply bytes_eqb_eq in E2 as <-. intros [= <-]. by right.
Qed.

Lemma occur_call_overlap fuel t name ts f argv ops0 ops ops' r : is_call t name ts -> sat t ->
  eval_args (occ fuel) ts ops0 = (Done argv, ops) -> Forall2 (fun t r => sat t -> overlaps r) ts argv ->
  occur_call name f argv ops = (Done r, ops') -> overlaps r.
Proof.
  intros C S A F. unfold occur_call. rewrite (sat_time _ _ _ C S).
  - destruct (get_generator_function name) as [g|] eqn:G.
    + destruct (g argv (set_generator undefined true)) as [[] r1] eqn:E; [|done]. intros [= <- _]. by eapply sat_generator.
    + destruct (get_operator_function name) as [op|] eqn:O; [|intros [= <- _]; apply overlaps_new].
      destruct (op argv undefined) as [[] r1] eqn:E; [|done]. intros [= <- _].
      apply get_operator_spec in O as [[-> ->]|[-> ->]]; 
        [eapply or_operator_overlap; [exact E|exact F|by eapply sat_or]|eapply and_operator_overlap; [exact E|exact F|by eapply sat_and]].
Qed.

Lemma occ_overlaps fuel t ops r ops' : occ fuel t ops = (Done r, ops') -> sat t -> overlaps r.
Proof.
  revert t ops r ops'; induction fuel as [|fuel IH]; intros t ops r ops'; [done|]. cbn [e_sexp_term_evaluate_occur_times].
  destruct t as [n|b|s|z|name f ts|name f ts|sym]; try (intros [= <- _] _; apply overlaps_new).
  - intros (argv & o1 & A & E)%bind_done S. eapply occur_call_overlap; [by left; eexists|exact S|exact A|by eapply args_overlap|exact E].
  - intros (argv & o1 & A & E)%bind_done S. eapply occur_call_overlap; [by right; eexists|exact S|exact A|by eapply args_overlap|exact E].
Qed.

End window.

(** *** Queries with a window *)

Lemma and_loop_false (ev : term -> M (list oper) ESExpResult) ts type ht ops type' v' ht' ops' :
  and_loop ev ts type false ht ops = (Done (type', v', ht'), ops') -> v' = false.
Proof. destruct ts; cbn; by intros [= _ <- _ _]. Qed.

Lemma and_loop_type (ev : term -> M (list oper) ESExpResult) ts ty v ht ops type' v' ht' ops' :
  and_loop ev ts (Some ty) v ht ops = (Done (type', v', ht'), ops') -> type' = Some ty.
Proof.
  revert v ht ops; induction ts as [|t ts IH]; intros v ht ops; cbn; [by intros [= <- _ _ _]|].
  destruct v; cbn; [|by intros [= <- _ _ _]]. intros (r & o1 & E & E2)%bind_done. cbn in E2. destruct (decide _) as [T|]; [|done].
  destruct (val r); by apply IH in E2.
Qed.

(** A term that was evaluated to a boolean other than 0. *)
Definition holds (t : term) : Prop := exists fuel o r o', eval fuel t o = (Done r, o') /\ is_true r = true.

Lemma and_loop_holds fuel ts type ht ops ht' ops' : (type = None \/ type = Some ESEXP_RES_BOOL) ->
  and_loop (eval fuel) ts type true ht ops = (Done (Some ESEXP_RES_BOOL, true, ht'), ops') -> Forall holds ts.
Proof.
  revert type ht ops; induction ts as [|t ts IH]; intros type ht ops T; cbn; [constructor|].
  intros (r & o1 & E & E2)%bind_done. destruct (decide _) as [TY|]; [|done].
  assert (B : type_of (val r) = ESEXP_RES_BOOL).
  { destruct (val r) eqn:V; try done; apply and_loop_type in E2; rewrite TY in E2; congruence. }
  destruct (val r) as [| | |b| |] eqn:V; try done. destruct (b =? 0) eqn:B0; [by apply and_loop_false in E2|].
  constructor; [exists fuel, ops, r, o1; split; [exact E|unfold is_true; by rewrite V, B0]|].
  eapply IH; [|exact E2]. right. by rewrite TY.
Qed.

Lemma or_loop_type (ev : term -> M (list oper) ESExpResult) ts ty v ht ops type' v' ht' ops' :
  or_loop ev ts (Some ty) v ht ops = (Done (type', v', ht'), ops') -> type' = Some ty.
Proof.
  revert v ht ops; induction ts as [|t ts IH]; intros v ht ops; cbn; [by intros [= <- _ _ _]|].
  destruct (v =? 0); cbn; [|by intros [= <- _ _ _]]. intros (r & o1 & E & E2)%bind_done. cbn in E2. destruct (decide _) as [T|]; [|done].
  destruct (val r); by apply IH in E2.
Qed.

Lemma or_loop_holds fuel ts type v ht ops v' ht' ops' : (type = None \/ type = Some ESEXP_RES_BOOL) -> v' <> 0 ->
  or_loop (eval fuel) ts type v ht ops = (Done (Some ESEXP_RES_BOOL, v', ht'), ops') -> v <> 0 \/ Exists holds ts.
Proof.
  intros T N. revert type v ht ops T; induction ts as [|t ts IH]; intros type v ht ops T; cbn; [intros [= _ -> _ _]; by left|].
  destruct (v =? 0) eqn:V0; cbn; [|intros _; left; by apply Z.eqb_neq]. apply Z.eqb_eq in V0 as ->.
  intros (r & o1 & E & E2)%bind_done. right. destruct (decide _) as [TY|]; [|done].
  assert (B : type_of (val r) = ESEXP_RES_BOOL).
  { destruct (val r) eqn:V; try done; apply or_loop_type in E2; rewrite <- TY in E2; congruence. }
  destruct (val r) as [| | |b| |] eqn:V; try done. rewrite Z.lor_0_l in E2.
  eapply IH in E2 as [B0|X]; [|by right|right; by rewrite <- TY].
  left. exists fuel, ops, r, o1. split; [exact E|]. unfold is_true. rewrite V. by apply negb_true_iff, Z.eqb_neq.
Qed.

Lemma and_holds n ts : holds (TermIFunc n (Some IAnd) ts) -> Forall holds ts.
Proof.
  intros ([|fuel] & o & r & o' & E & T); [done|]. cbn [e_sexp_term_eval call_ifunc] in E.
  apply bind_done in E as (r1 & o1 & (r2 & o2 & E & [= <- _])%bind_done & [= <- _]). unfold term_eval_and in E.
  apply bind_done in E as ([] & o3 & _ & ([[type v] ht] & o4 & E & ([] & o5 & _ & [= <- _])%bind_done)%bind_done). cbn in T.
  destruct type as [[]|]; try done. destruct v; [|done]. eapply and_loop_holds; [|exact E]. by left.
Qed.

Lemma or_holds n ts : holds (TermIFunc n (Some IOr) ts) -> Exists holds ts.
Proof.
  intros ([|fuel] & o & r & o' & E & T); [done|]. cbn [e_sexp_term_eval call_ifunc] in E.
  apply bind_done in E as (r1 & o1 & (r2 & o2 & E & [= <- _])%bind_done & [= <- _]). unfold term_eval_or in E.
  apply bind_done in E as ([] & o3 & _ & ([[type v] ht] & o4 & E & ([] & o5 & _ & [= <- _])%bind_done)%bind_done). cbn in T.
  destruct type as [[]|]; try done. unfold is_true in T. cbn in T. apply negb_true_iff, Z.eqb_neq in T.
  eapply or_loop_holds in E as [?|X]; [done|exact X|by left|exact T].
Qed.

(** Times: calls of the functions that are evaluated for the window, of strings
    and of such calls. *)
Inductive time_expr : term -> Prop :=
| TimeString s : time_expr (TermString s)
| TimeCall name f ts : is_time_function name = true -> Forall time_expr ts -> time_expr (TermFunc name (Some f) ts).

(** What is answered does not depend on the operators. *)
Definition steady {A} (m : M (list oper) A) : Prop := forall ops ops', (m ops).1 = (m ops').1.

Lemma steady_fatal {A} (o : option A) g why : steady (or_fatal o g why).
Proof. by destruct o. Qed.

Lemma steady_some (m : M (list oper) ESExpResult) : steady m -> steady (bind m (fun r => ret (Some r))).
Proof.
  intros S o p. specialize (S o p). unfold bind. destruct (m o) as [[] ?], (m p) as [[] ?]; cbn in S; try done; by injection S as ->.
Qed.

Lemma steady_call_func f argv : steady (call_func (UF := UF) call_user f argv).
Proof.
  destruct f; try done; cbn [call_func]; apply steady_some; unfold term_eval_plus, term_eval_sub, term_eval_castint, term_eval_caststring;
    destruct argv as [|r [|]]; try done; destruct (val r); try done; apply steady_fatal.
Qed.

Lemma call_func_same f argv o a o' p b p' : call_func (UF := UF) call_user f argv o = (Done a, o') -> call_func call_user f argv p = (Done b, p') -> a = b.
Proof. intros E1 E2. pose proof (steady_call_func f argv o p) as S. rewrite E1, E2 in S. by injection S. Qed.

Lemma eval_args_same (ev ev' : term -> M (list oper) ESExpResult) ts o argv o' p argv' p' :
  Forall (fun t => forall o r o' p r' p', ev t o = (Done r, o') -> ev' t p = (Done r', p') -> r' = r) ts ->
  eval_args ev ts o = (Done argv, o') -> eval_args ev' ts p = (Done argv', p') -> argv' = argv.
Proof.
  intros F. revert o argv p argv'. induction F as [|t ts S F IH]; intros o argv p argv'; cbn; [by intros [= <- _] [= <- _]|].
  intros (r & o1 & E & (rs & o2 & E2 & [= <- <-])%bind_done)%bind_done (r' & p1 & E' & (rs' & p2 & E2' & [= <- <-])%bind_done)%bind_done.
  f_equal; [by eapply S|by eapply IH].
Qed.

(** The window is found from the values that the times have in the query. *)
Lemma time_term_same fuel fuel' t o r o' p r' p' : time_expr t -> occ fuel t o = (Done r, o') -> eval fuel' t p = (Done r', p') -> r' = r.
Proof.
  revert fuel' t o r o' p r' p'; induction fuel as [|fuel IH]; intros [|fuel'] t o r o' p r' p' T; [done|done|by destruct t|].
  destruct T as [s|name f ts N F]; cbn; [intros [= <- _] [= <- _]; done|].
  intros (argv & o1 & A & E)%bind_done (argv' & p1 & A' & E')%bind_done.
  assert (argv' = argv) as ->.
  { eapply eval_args_same; [|exact A|exact A']. eapply Forall_impl; [|exact F]. intros u Tu **. by eapply IH. }
  unfold occur_call in E. rewrite N in E. apply bind_done in E as (g & o2 & [= <- <-] & E). cbn in E.
  apply bind_done in E as (a & o3 & E & [= <- _]). apply bind_done in E' as (b & p3 & E' & [= <- _]). by rewrite (call_func_same _ _ _ _ _ _ _ _ E E').
Qed.

(** A query whose window is found from the function [occurs] behind
    "occur-in-time-range?" alone: "and" and "or" are the builtin ones, no other
    name of a generator is used, and the rest is free. *)
Inductive query (occurs : UF) : term -> Prop :=
| QueryAnd ts : Forall (query occurs) ts -> query occurs (TermIFunc (bs "and") (Some IAnd) ts)
| QueryOr ts : Forall (query occurs) ts -> query occurs (TermIFunc (bs "or") (Some IOr) ts)
| QueryRange ts : Forall time_expr ts -> query occurs (TermFunc (bs "occur-in-time-range?") (Some (FUser occurs)) ts)
| QueryOther t : (forall name ts, is_call t name ts ->
    is_time_function name = false /\ get_generator_function name = None /\ get_operator_function name = None) -> query occurs t.

(** An object whose times are from [x] to [y] occurs only in ranges that overlap. *)
Definition occurs_inside (x y : Z) (occurs : UF) : Prop := forall a b argv r s e,
  call_user occurs (a :: b :: argv) = Done (Some r) -> val a = Time s -> val b = Time e -> is_true r = true -> s <= y /\ x <= e.

Lemma query_call occurs t name ts : query occurs t -> is_call t name ts ->
  (name = bs "and" /\ t = TermIFunc name (Some IAnd) ts /\ Forall (query occurs) ts) \/
  (name = bs "or" /\ t = TermIFunc name (Some IOr) ts /\ Forall (query occurs) ts) \/
  (name = bs "occur-in-time-range?" /\ t = TermFunc name (Some (FUser occurs)) ts /\ Forall time_expr ts) \/
  (is_time_function name = false /\ get_generator_function name = None /\ get_operator_function name = None).
Proof.
  intros [us F|us F|us F|u N] C; [..|right; right; right; by apply (N name ts)]; destruct C as [[f C]|[f C]]; try done; injection C as <- _ <-; tauto.
Qed.

Lemma range_holds x y occurs t name ts g fuel ops argv ops' r : occurs_inside x y occurs -> query occurs t /\ holds t -> is_call t name ts ->
  get_generator_function name = Some g -> eval_args (occ fuel) ts ops = (Done argv, ops') -> g argv (set_generator undefined true) = (true, r) ->
  overlaps x y r.
Proof.
  intros O [Q ([|fuel'] & p & r' & p' & E & T)] C G A R; [done|].
  destruct (query_call _ _ _ _ Q C) as [(-> & _)|[(-> & _)|[(-> & -> & F)|(_ & N & _)]]]; [done|done| |congruence].
  injection G as <-. cbn [e_sexp_term_eval] in E. apply bind_done in E as (argv' & p1 & A' & (c & p2 & E & [= <- _])%bind_done).
  assert (argv' = argv) as ->.
  { eapply eval_args_same; [|exact A|exact A']. eapply Forall_impl; [|exact F]. intros u Tu **. by eapply time_term_same. }
  cbn in E. unfold lift in E. injection E as E _. destruct c as [c|]; [|done]. cbn in T.
  assert (W : exists a b rest, argv = a :: b :: rest /\ exists s e, val a = Time s /\ val b = Time e /\ r = set_window (set_generator undefined true) s e).
  { unfold occur_in_time_range_generator in R.
    destruct argv as [|a [|b [|c' [|]]]]; try done; destruct (val a) eqn:Ea, (val b) eqn:Eb; try done; injection R as <-; exists a, b; eexists; (split; [reflexivity|]); eauto. }
  destruct W as (a & b & rest & -> & s & e & Ea & Eb & ->). exact (O _ _ _ _ _ _ E Ea Eb T).
Qed.

(** C15. When a query is evaluated to true for an object whose times are from
    [x] to [y], the interval of the object overlaps the window that was found
    for the query, even when "and" has made it end before it starts: a search of
    the interval tree for the window does not miss the object.

    The conditions: of the functions whose name gives a window, the query calls
    "occur-in-time-range?" only, which holds for ranges that overlap the times of
    the object only, with strings and time functions of such as arguments; and
    the object does not end before 1970 nor start after 2038, since "and" takes
    the window of an argument without one as 0 to INT_MAX ([late_event_missed]).
    The first condition is needed as well: "has-alarms-in-range?" gives the range
    of the alarms as a window of the events ([alarm_event_missed]). *)
Theorem sexp_window_sound occurs x y (e e' e'' : ESExp (UF := UF) (UI := UI)) t r s f : tree e = Tree t -> query occurs t ->
  occurs_inside x y occurs -> 0 <= y /\ x <= TIME_T_MAX ->
  e_sexp_eval call_user call_iuser e = Some (Some r, e') -> is_true r = true ->
  e_sexp_evaluate_occur_times call_user e = Some (true, Some (s, f), e'') -> compare_intervals x y s f = 0.
Proof.
  intros E Q O R EV TR. unfold e_sexp_eval in EV. rewrite E in EV.
  destruct (eval (height t) t (operators_ e)) as [[r0| | |] o0] eqn:V; try done. injection EV as -> _.
  unfold e_sexp_evaluate_occur_times. rewrite E. destruct (occ (height t) t (operators_ e)) as [[r1| | |] ops] eqn:W; try done.
  intros [= TG EW _]. rewrite TG in EW. injection EW as <- <-.
  destruct (occ_overlaps x y (fun t => query occurs t /\ holds t) R) with (5 := W) as [A B].
  - intros u ts C [Qu Hd]. destruct (query_call _ _ _ _ Qu C) as [(_ & -> & F)|[(? & _)|[(? & _)|(_ & _ & N)]]]; try done.
    apply and_holds in Hd. apply list.Forall_and. by split.
  - intros u ts C [Qu Hd]. destruct (query_call _ _ _ _ Qu C) as [(? & _)|[(_ & -> & F)|[(? & _)|(_ & _ & N)]]]; try done.
    apply or_holds in Hd. clear -F Hd. induction Hd as [u ts Hd|u ts Hd IH]; apply Forall_cons_iff in F as [F1 F2]; [by left|right; auto].
  - intros u name ts g fuel o argv o' r2 C G A W2 X. by eapply range_holds.
  - intros u name ts C [Qu _]. by destruct (query_call _ _ _ _ Qu C) as [(-> & _)|[(-> & _)|[(-> & _)|(N & _)]]].
  - split; [done|]. by exists (height t), (operators_ e), r, o0.
  - unfold compare_intervals. rewrite (proj2 (Z.ltb_ge y _)), (proj2 (Z.ltb_ge _ x)) by done. done.
Qed.
End eval.

(** ** Witnesses *)

(** A caller whose functions answer times. *)
Definition time_user (z : Z) (argv : list ESExpResult) : outcome (option ESExpResult) := Done (Some (e_sexp_result_new (Time z))).
Abbreviation time_term := (ESExpTerm (UF := Z) (UI := Empty_set)).
Definition no_iuser (u : Empty_set) (ev : time_term -> M (list oper) ESExpResult) (ts : list time_term) : M (list oper) (option ESExpResult) :=
  match u with end.
Definition sample_order : HashOrder := fun m => map_to_list m.
Definition sample_tree (t : time_term) : ESExp (UF := Z) (UI := Empty_set) := Sexp (Tree t) None [] [] empty 0.

(** (if (< (+ 1 2) 4) (cast-string 7) "no"). *)
Definition sample_if : time_term :=
  TermIFunc (bs "if") (Some IIf) [TermIFunc (bs "<") (Some ILt) [TermFunc (bs "+") (Some FPlus) [TermInt 1; TermInt 2]; TermInt 4];
    TermFunc (bs "cast-string") (Some FCastString) [TermInt 7]; TermString (bs "no")].

Lemma sexp_type_sound_witness : exists r, @e_sexp_eval _ _ time_user no_iuser sample_order (sample_tree sample_if) = Some (Some r, sample_tree sample_if) /\
  type_of (val r) = ESEXP_RES_STRING.
Proof.
  assert (U : forall u argv ty, (fun _ _ t => t = ESEXP_RES_TIME) u (map (fun r => type_of (val r)) argv) ty ->
    exists r, time_user u argv = Done (Some r) /\ type_of (val r) = ty) by (intros u argv ty ->; eexists; split; reflexivity).
  assert (T : typed (UI := Empty_set) (fun _ _ t => t = ESEXP_RES_TIME) sample_if ESEXP_RES_STRING).
  { apply TypIf; [|eapply TypCastString; [constructor|tauto]|constructor].
    eapply TypCompare; [by left| |constructor|by left]. apply TypPlus; [repeat constructor|tauto]. }
  exact (@sexp_type_sound _ _ time_user no_iuser sample_order _ U (sample_tree sample_if) sample_if ESEXP_RES_STRING eq_refl T).
Defined.

Definition term_bool (b : Z) : time_term := TermBool b.

Lemma sexp_and_or_witness : @term_eval_and Z Empty_set sample_order (e_sexp_term_eval (H := sample_order) time_user no_iuser 1) [term_bool 1; term_bool 0] [] =
  (Done (e_sexp_result_new (Boolean 0)), []).
Proof.
  assert (F : Forall2 (fun t b => exists r, yields (e_sexp_term_eval (H := sample_order) time_user no_iuser 1 t) r /\ val r = Boolean b) [term_bool 1; term_bool 0] [1; 0]).
  { repeat constructor; eexists; (split; [intros ops; reflexivity|reflexivity]). }
  destruct (@sexp_and_or Z Empty_set sample_order (fun m => reflexivity _) (e_sexp_term_eval (H := sample_order) time_user no_iuser 1)
    [term_bool 1; term_bool 0] ltac:(discriminate)) as [B _].
  exact (proj1 (B [1; 0] F) []).
Defined.

Lemma sexp_and_or_type_error_witness :
  @term_eval_and Z Empty_set sample_order (e_sexp_term_eval (H := sample_order) time_user no_iuser 1) [term_bool 1; TermInt 3] [] = (Fatal (bs "Invalid types in AND"), [AND]).
Proof.
  assert (F : Forall2 (fun t b => exists r, yields (e_sexp_term_eval (H := sample_order) time_user no_iuser 1 t) r /\ val r = Boolean b) [term_bool 1] [1]).
  { repeat constructor. eexists. split; [intros ops; reflexivity|reflexivity]. }
  exact (proj1 (@sexp_and_or_type_error Z Empty_set sample_order (e_sexp_term_eval (H := sample_order) time_user no_iuser 1)
    [term_bool 1] (TermInt 3) [] [1] (e_sexp_result_new (Number 3)) ltac:(discriminate) F (fun ops => eq_refl) ltac:(discriminate)) []).
Defined.

(** A caller whose functions are for an object from 1 to 6, with an alarm at 0:
    a time, whether it occurs in a range, whether it has alarms in one, and a
    test that holds. *)
Inductive object_fun := MakeTime (z : Z) | Occurs | HasAlarms | Holds.
Definition object_user (x y : Z) (u : object_fun) (argv : list ESExpResult) : outcome (option ESExpResult) :=
  Done (Some (e_sexp_result_new
    match u, argv with
    | MakeTime z, _ => Time z
    | Occurs, a :: b :: _ => match val a, val b with Time s, Time e => boolean ((s <=? y) && (x <=? e)) | _, _ => Boolean 0 end
    | HasAlarms, a :: b :: _ => match val a, val b with Time s, Time e => boolean ((s <=? x - 1) && (x - 1 <=? e)) | _, _ => Boolean 0 end
    | Holds, _ => Boolean 1
    | _, _ => Boolean 0
    end)).
Abbreviation object_term := (ESExpTerm (UF := object_fun) (UI := Empty_set)).
Definition object_tree (t : object_term) : ESExp (UF := object_fun) (UI := Empty_set) := Sexp (Tree t) None [] [] empty 0.
Definition no_object_iuser (u : Empty_set) (ev : object_term -> M (list oper) ESExpResult) (ts : list object_term) : M (list oper) (option ESExpResult) :=
  match u with end.
Definition sample_time (z : Z) : object_term := TermFunc (bs "make-time") (Some (FUser (MakeTime z))) [].
Definition sample_range (s e : Z) : object_term := TermFunc (bs "occur-in-time-range?") (Some (FUser Occurs)) [sample_time s; sample_time e].
Definition sample_holds : object_term := TermFunc (bs "contains?") (Some (FUser Holds)) [].
Definition sample_and (ts : list object_term) : object_term := TermIFunc (bs "and") (Some IAnd) ts.

Lemma occurs_object x y : occurs_inside (object_user x y) x y Occurs.
Proof.
  intros a b argv r s e. cbn. intros [= <-] -> ->. unfold is_true. cbn. destruct (s <=? y) eqn:A, (x <=? e) eqn:B; try done. lia.
Qed.

Lemma query_range s e : query Occurs (sample_range s e).
Proof. apply QueryRange. repeat constructor. Qed.

(** (and (occur-in-time-range? 1 2) (occur-in-time-range? 5 6)), and an event
    from 1 to 6, which is in both ranges: the window is from 5 to 2. *)
Definition sample_query : object_term := sample_and [sample_range 1 2; sample_range 5 6].

Lemma sexp_window_sound_witness :
  e_sexp_evaluate_occur_times (object_user 1 6) (object_tree sample_query) = Some (true, Some (5, 2), object_tree sample_query) /\
  compare_intervals 1 6 5 2 = 0.
Proof.
  assert (E : e_sexp_evaluate_occur_times (object_user 1 6) (object_tree sample_query) = Some (true, Some (5, 2), object_tree sample_query)) by reflexivity.
  split; [exact E|].
  apply (@sexp_window_sound _ _ (object_user 1 6) no_object_iuser sample_order Occurs 1 6 (object_tree sample_query) (object_tree sample_query) (object_tree sample_query)
    sample_query (e_sexp_result_new (Boolean 1)) 5 2).
  - reflexivity.
  - apply QueryAnd. repeat constructor.
  - apply occurs_object.
  - unfold TIME_T_MAX. lia.
  - reflexivity.
  - reflexivity.
  - exact E.
Defined.

(** ** What the window leaves out *)

(** The query is true for the object and has a window that does not overlap it. *)
Definition missed (x y : Z) (t : object_term) : bool :=
  match @e_sexp_eval _ _ (object_user x y) no_object_iuser sample_order (object_tree t), e_sexp_evaluate_occur_times (object_user x y) (object_tree t) with
  | Some (Some r, _), Some (true, Some (s, f), _) => is_true r && negb (compare_intervals x y s f =? 0)
  | _, _ => false
  end.

(** An event in 2040 that has an alarm an hour earlier: it is missed by a query
    for its time and anything else, and by a query for the time of its alarm. *)
Lemma late_event_missed : let t := 2209000000 in missed t (t + 1) (sample_and [sample_holds; sample_range t (t + 1)]) = true.
Proof. reflexivity. Qed.

Lemma alarm_event_missed : let alarms := TermFunc (bs "has-alarms-in-range?") (Some (FUser HasAlarms)) [sample_time 90; sample_time 99] in
  missed 100 200 alarms = true /\ missed 100 200 (sample_and [sample_holds; alarms]) = true.
Proof. split; reflexivity. Qed.
