(* ===== verification/ESexpParse.v ===== *)
(** * ESexpParse: parsing S-expressions, and writing them

    The parser ends, and reads back the tokens of a term; strings are written so
    that the scanner reads them back. *)

From Stdlib Require Import ZArith Lia Ascii.
From stdpp Require Import base list strings gmap numbers option.
From S2P Require Import Prelude ESexp.

Section parse.
Context {UF UI : Type}.
Abbreviation term := (ESExpTerm (UF := UF) (UI := UI)).
Abbreviation tok := (token (UF := UF) (UI := UI)).
Context (token_code : option tok -> Z).
Abbreviation pv := (parse_value token_code).

(** ** The parser ends *)

(** Ends within [n] tokens, and takes a token if it can. *)
Definition ends {A} (m : M (list tok) A) (n : nat) : Prop := forall ts, (length ts <= n)%nat ->
  match m ts with
  | (OutOfFuel, _) => False
  | (Done _, ts') => (length ts' <= length ts)%nat
  | _ => True
  end.
Definition takes {A} (m : M (list tok) A) (n : nat) : Prop := forall t ts, (length (t :: ts) <= n)%nat ->
  match m (t :: ts) with
  | (OutOfFuel, _) => False
  | (Done _, ts') => (length ts' < length (t :: ts))%nat
  | _ => True
  end.

Lemma ends_ret {A} (a : A) n : ends (ret a) n.
Proof. intros ts _. cbn. lia. Qed.
Lemma ends_fatal {A} w n : ends (A := A) (e_sexp_fatal_error w) n.
Proof. by intros ts _. Qed.
Lemma ends_crash {A} n : ends (A := A) crash n.
Proof. by intros ts _. Qed.

Lemma ends_bind {A B} (m : M (list tok) A) (f : A -> M (list tok) B) n : ends m n -> (forall a, ends (f a) n) -> ends (bind m f) n.
Proof.
  intros E F ts L. specialize (E ts L). unfold bind. destruct (m ts) as [[a| | |] ts1]; try done.
  specialize (F a ts1 ltac:(lia)). destruct (f a ts1) as [[b| | |] ts2]; try done. lia.
Qed.

(** After a token was taken, what follows may use one token less. *)
Lemma next_takes {B} (f : option tok -> M (list tok) B) n : (forall t, ends (f (Some t)) n) -> takes (bind get_next_token f) (S n).
Proof.
  intros F t ts L. unfold bind, get_next_token. cbn in *. specialize (F t ts ltac:(lia)). destruct (f (Some t) ts) as [[b| | |] ts2]; try done. lia.
Qed.

Lemma next_ends {B} (f : option tok -> M (list tok) B) n : (forall t, ends (f (Some t)) n) -> (forall b, fst (f None []) = Done b -> snd (f None []) = []) ->
  fst (f None []) <> OutOfFuel -> ends (bind get_next_token f) (S n).
Proof.
  intros F N NF [|t ts] L.
  - unfold bind, get_next_token. destruct (f None []) as [[b| | |] ts2] eqn:E; cbn in *; try done. by rewrite (N b eq_refl).
  - pose proof (next_takes f n F t ts L) as T. destruct (bind get_next_token f (t :: ts)) as [[b| | |] ts2]; try done. lia.
Qed.

Lemma values_loop_ends m fuel n acc : takes m n -> (n < fuel)%nat -> ends (values_loop m fuel acc) n.
Proof.
  intros T. revert n T acc; induction fuel as [|fuel IH]; intros n T acc L [|t ts] LT; [lia..| |].
  - cbn. lia.
  - cbn [values_loop]. unfold bind at 1, peek_next_token. cbn [head].
    assert (R : match bind m (fun x => values_loop m fuel (acc ++ [x])) (t :: ts) with
      | (OutOfFuel, _) => False | (Done _, ts') => (length ts' <= length (t :: ts))%nat | _ => True end).
    { pose proof (T t ts LT) as X. unfold bind. destruct (m (t :: ts)) as [[a| | |] ts1]; try done.
      assert (X2 : ends (values_loop m fuel (acc ++ [a])) (length ts1)).
      { apply IH; [|lia]. intros t' ts' L'. apply T. lia. }
      specialize (X2 ts1 (le_n _)). destruct (values_loop m fuel (acc ++ [a]) ts1) as [[b| | |] ts2]; try done. lia. }
    destruct t; try exact R. cbn. lia.
Qed.

Lemma parse_values_ends m fuel n : takes m n -> (n < fuel)%nat -> ends (parse_values m fuel) n.
Proof. intros T L. apply ends_bind; [by apply values_loop_ends|]. intros a. apply ends_ret. Qed.

Lemma parse_list_ends fuel vs n : ends vs n -> (n < fuel)%nat -> ends (parse_list token_code fuel vs) n.
Proof.
  revert n; induction fuel as [|fuel IH]; intros n E L; [lia|]. cbn [parse_list]. destruct n as [|n].
  - intros [|t ts] LT; [done|cbn in LT; lia].
  - assert (E' : ends vs n) by (intros ts LT; apply E; lia).
    apply next_ends; [|done..]. intros t. destruct t; try apply ends_fatal.
    + apply IH; [done|lia].
    + destruct (base_symbol sym); [|apply ends_crash]. apply ends_bind; [done|]. intros terms.
      destruct n as [|n]; [intros [|]; [done|cbn; lia]|]. apply next_ends; [|done..].
      intros t. destruct t; try apply ends_fatal. apply ends_ret.
Qed.

Lemma parse_value_takes fuel n : (n < fuel)%nat -> takes (pv fuel) n.
Proof.
  revert n; induction fuel as [|fuel IH]; intros n L; [lia|]. destruct n as [|n]; [intros t ts LT; cbn in LT; lia|].
  cbn [parse_value]. apply next_takes. intros t.
  assert (V : ends (parse_values (pv fuel) fuel) n) by (apply parse_values_ends; [apply IH|]; lia).
  assert (X : forall f : option tok -> M (list tok) (option term), (forall t, ends (f (Some t)) (pred n)) -> (exists w, f None [] = (Fatal w, [])) ->
    ends (bind get_next_token f) n).
  { intros f F (w & W). destruct n as [|n]; [intros [|]; [by intros _; unfold bind; cbn; rewrite W|cbn; lia]|].
    apply next_ends; [exact F|by rewrite W|by rewrite W]. }
  destruct t; try apply ends_fatal; try apply ends_ret.
  - apply parse_list_ends; [done|lia].
  - apply X; [|by eexists]. intros t. destruct t; first [apply ends_fatal|apply ends_ret].
  - apply X; [|by eexists]. intros t. destruct t; try apply ends_fatal. destruct (is_bool_name s); [apply ends_ret|apply ends_fatal].
  - destruct sym; [| |apply ends_ret]; (apply ends_bind; [exact V|]; intros terms; apply ends_ret).
Qed.

(** C17. The parser ends: as much fuel as there are tokens is enough, and a value
    takes at least one token. *)
Theorem sexp_parse_ends (ts : list tok) :
  match parse_value token_code (S (length ts)) ts with
  | (OutOfFuel, _) => False
  | (Done t, ts') => (length ts' < length ts)%nat \/ ts = [] /\ t = None
  | _ => True
  end.
Proof.
  destruct ts as [|t ts]; [by right|]. pose proof (parse_value_takes (S (length (t :: ts))) (length (t :: ts)) ltac:(lia) t ts (le_n _)) as T.
  destruct (parse_value _ _ _) as [[x| | |] ts']; try done. by left.
Qed.

(** ** Reading back the tokens of a term *)

(** A call in parentheses, a negative number after a minus. *)
Fixpoint unparse (t : term) : list tok :=
  match t with
  | TermInt n => if n <? 0 then [TokMinus; TokInt (- n)] else [TokInt n]
  | TermBool b => [TokHash; TokIdentifier (if b =? 0 then bs "f" else bs "t")]
  | TermString s => [TokString s]
  | TermTime _ => []
  | TermFunc n f ts => TokLeftParen :: TokSymbol (SymFunc n f) :: concat (map unparse ts) ++ [TokRightParen]
  | TermIFunc n f ts => TokLeftParen :: TokSymbol (SymIFunc n f) :: concat (map unparse ts) ++ [TokRightParen]
  | TermVar sym => [TokSymbol sym]
  end.

(** The terms that the syntax has. *)
Inductive written : term -> Prop :=
| WrInt n : - 2 ^ 31 <= n < 2 ^ 31 -> written (TermInt n)
| WrBool b : b = 0 \/ b = 1 -> written (TermBool b)
| WrString s : written (TermString s)
| WrFunc n f ts : Forall written ts -> written (TermFunc n f ts)
| WrIFunc n f ts : Forall written ts -> written (TermIFunc n f ts)
| WrVar n v : written (TermVar (SymVar n v)).

Lemma unparse_head t : written t -> exists x xs, unparse t = x :: xs /\ x <> TokRightParen.
Proof.
  intros [n _|b _|s|n f ts _|n f ts _|n v]; cbn; try by eexists _, _. destruct (n <? 0); by eexists _, _.
Qed.

Definition reads (fuel : nat) (t : term) : Prop := forall rest, (length (unparse t ++ rest) < fuel)%nat ->
  pv fuel (unparse t ++ rest) = (Done (Some t), rest).

Lemma values_loop_reads m ts fuel fuel' acc rest : Forall written ts ->
  (length (concat (map unparse ts) ++ TokRightParen :: rest) < fuel')%nat -> (fuel' <= fuel)%nat ->
  (forall t rest, t ∈ ts -> (length (unparse t ++ rest) < fuel)%nat -> m (unparse t ++ rest) = (Done (Some t), rest)) ->
  values_loop m fuel' acc (concat (map unparse ts) ++ TokRightParen :: rest) = (Done (acc ++ map Some ts), TokRightParen :: rest).
Proof.
  intros W. revert fuel' acc. induction W as [|t ts W F IH]; intros fuel' acc' L LE R; (destruct fuel' as [|fuel']; [lia|]).
  - cbn. by rewrite app_nil_r.
  - cbn [map concat values_loop] in *. rewrite <- app_assoc in *. destruct (unparse_head t W) as (x & xs & E & NP).
    set (tl := concat (map unparse ts) ++ TokRightParen :: rest) in *.
    assert (HD : head (unparse t ++ tl) = Some x) by (by rewrite E).
    assert (X : bind m (fun x => values_loop m fuel' (acc' ++ [x])) (unparse t ++ tl) = (Done (acc' ++ Some t :: map Some ts), TokRightParen :: rest)).
    { unfold bind. rewrite R by (lia || left). rewrite length_app, E in L. cbn [length] in L.
      rewrite IH; [by rewrite <- app_assoc|lia|lia|]. intros t' rest' I. apply R. by right. }
    unfold bind at 1, peek_next_token. cbv beta iota. rewrite HD. by destruct x.
Qed.

Lemma mapM_some (ts : list term) : mapM id (map Some ts) = Some ts.
Proof. induction ts as [|t ts IH]; [done|]. cbn. by rewrite IH. Qed.

Lemma parse_values_reads m ts fuel rest : Forall written ts ->
  (length (concat (map unparse ts) ++ TokRightParen :: rest) < fuel)%nat ->
  (forall t rest, t ∈ ts -> (length (unparse t ++ rest) < fuel)%nat -> m (unparse t ++ rest) = (Done (Some t), rest)) ->
  parse_values m fuel (concat (map unparse ts) ++ TokRightParen :: rest) = (Done ts, TokRightParen :: rest).
Proof.
  intros W L R. unfold parse_values, bind. rewrite (values_loop_reads _ _ fuel) by done. cbn [app]. by rewrite mapM_some.
Qed.

Lemma parse_call fuel (sym : ESExpSymbol (UF := UF) (UI := UI)) ts rest : base_symbol sym = Some sym -> (forall n v, sym <> SymVar n v) ->
  Forall written ts -> (S (S (length (concat (map unparse ts) ++ TokRightParen :: rest))) < S fuel)%nat ->
  (forall t, t ∈ ts -> reads fuel t) ->
  pv (S fuel) (TokLeftParen :: TokSymbol sym :: concat (map unparse ts) ++ TokRightParen :: rest) = (Done (Some (symbol_term sym ts)), rest).
Proof.
  intros B NV W L R. cbn [parse_value]. unfold bind at 1, get_next_token at 1. destruct fuel as [|fuel]; [lia|].
  cbn [parse_list]. unfold bind at 1, get_next_token at 1. rewrite B. unfold bind at 1.
  rewrite parse_values_reads; [|done|lia|intros t rest' I L'; by apply R]. unfold bind, get_next_token. by destruct sym.
Qed.

Lemma reads_all fuel t : written t -> reads fuel t.
Proof.
  revert t; induction fuel as [|fuel IH]; intros t W rest L; [lia|].
  destruct W as [n R|b R|s|n f ts F|n f ts F|n v].
  - cbn [unparse] in *. destruct (Z.ltb_spec n 0); cbn [parse_value app]; unfold bind, get_next_token; cbv beta iota; unfold ret; do 4 f_equal; unfold s32.
    + destruct (decide (n = - 2 ^ 31)) as [->|]; [done|]. rewrite (Z.mod_small (- n + 2 ^ 31)), Z.mod_small by lia. lia.
    + rewrite Z.mod_small by lia. lia.
  - by destruct R as [-> | ->].
  - done.
  - cbn [unparse app] in *. rewrite <- app_assoc in *. cbn [app length] in *. rewrite (parse_call fuel (SymFunc n f) ts); [done..|lia|].
    intros t I. apply IH. rewrite list.Forall_forall in F. by apply F.
  - cbn [unparse app] in *. rewrite <- app_assoc in *. cbn [app length] in *. rewrite (parse_call fuel (SymIFunc n f) ts); [done..|lia|].
    intros t I. apply IH. rewrite list.Forall_forall in F. by apply F.
  - done.
Qed.

(** C16. The tokens of a term are parsed back to that term: the tree of the
    object is the term that was written. *)
Theorem sexp_parse_roundtrip (e : ESExp) t : written t -> tree e <> Freed -> input e = unparse t ->
  e_sexp_parse token_code e = Some (0, Sexp (Tree t) (error e) (operators_ e) [] (symbols e) (scope e)).
Proof.
  intros W NF I. unfold e_sexp_parse. rewrite I.
  pose proof (reads_all (S (length (unparse t))) t W []) as R. rewrite app_nil_r in R. rewrite R by lia. by destruct (tree e).
Qed.

End parse.

(** ** Strings *)

Section scanner.
(** GLib's scanner after an opening double quote: a character, an escaped one,
    and the closing quote. *)
Variable scan_string : list Z -> option (list Z * list Z).
Hypothesis scan_char : forall c s, c <> 34 -> c <> 92 -> c <> 0 -> scan_string (c :: s) = (fun r => (c :: fst r, snd r)) <$> scan_string s.
Hypothesis scan_escape : forall c s, c = 34 \/ c = 39 \/ c = 92 -> scan_string (92 :: c :: s) = (fun r => (c :: fst r, snd r)) <$> scan_string s.
Hypothesis scan_end : forall s, scan_string (34 :: s) = Some ([], s).

(** What [e_sexp_encode_string] writes for a string is one string token for
    the scanner, with the value it had: no string can end the quotes early. *)
Theorem sexp_encode_string_scans out s rest : Forall (fun c => c <> 0) s ->
  exists quoted, e_sexp_encode_string out (Some s) = out ++ [32; 34] ++ quoted /\ scan_string (quoted ++ rest) = Some (s, rest).
Proof.
  intros F. exists (escape_loop s ++ [34]). split; [done|]. rewrite <- app_assoc. induction F as [|c s N F IH]; [by apply scan_end|].
  cbn [escape_loop]. rewrite <- app_assoc. destruct ((c =? 92) || (c =? 34) || (c =? 39)) eqn:E; cbn [app] in IH |- *.
  - rewrite scan_escape by lia. by rewrite IH.
  - rewrite scan_char by lia. by rewrite IH.
Qed.
End scanner.

(** ** Witnesses *)

Abbreviation plain_term := (ESExpTerm (UF := Empty_set) (UI := Empty_set)).

(** (and #t (= "a" -5)). *)
Definition sample_term : plain_term :=
  TermIFunc (bs "and") (Some IAnd) [TermBool 1; TermIFunc (bs "=") (Some IEq) [TermString (bs "a"); TermInt (-5)]].
Definition sample_sexp (ts : list token) : ESExp (UF := Empty_set) (UI := Empty_set) :=
  let e := e_sexp_init in Sexp (tree e) (error e) (operators_ e) ts (symbols e) (scope e).
Definition sample_code (t : option (token (UF := Empty_set) (UI := Empty_set))) : Z :=
  match t with Some TokRightParen => 41 | _ => 0 end.

Lemma sample_written : written sample_term.
Proof. repeat (constructor; try lia). Qed.

Lemma sexp_parse_roundtrip_witness : written sample_term /\ exists e',
  e_sexp_parse sample_code (sample_sexp (unparse sample_term)) = Some (0, e') /\ tree e' = Tree sample_term.
Proof.
  split; [exact sample_written|]. eexists. split; [|shelve].
  exact (sexp_parse_roundtrip sample_code (sample_sexp (unparse sample_term)) sample_term sample_written ltac:(discriminate) eq_refl).
  Unshelve. reflexivity.
Defined.

(** A second text that does not parse: the object keeps the address of the tree
    that was freed, and to parse again goes through it. *)
Example parse_failure_freed : exists e',
  e_sexp_parse sample_code (Sexp (Tree sample_term) None [] [TokRightParen] empty 0 : ESExp (UF := Empty_set) (UI := Empty_set)) = Some (-1, e') /\
  tree e' = Freed /\ e_sexp_parse sample_code e' = None.
Proof. eexists. split; [reflexivity|]. by split. Qed.

(** Double parentheses swallow the end of the list: what follows is not read. *)
Example parse_double_paren :
  fst (parse_value sample_code 20 ([TokLeftParen; TokSymbol (SymIFunc (bs "or") (Some IOr)); TokLeftParen; TokLeftParen;
    TokSymbol (SymIFunc (bs "and") (Some IAnd)); TokRightParen; TokRightParen; TokHash; TokIdentifier (bs "t"); TokRightParen])) =
  Done (Some (TermIFunc (bs "or") (Some IOr) [TermIFunc (bs "and") (Some IAnd) []])).
Proof. reflexivity. Qed.

(** A scanner with those three rules. *)
Fixpoint scan_dq (s : list Z) : option (list Z * list Z) :=
  match s with
  | [] => None
  | c :: s' =>
      if c =? 34 then Some ([], s')
      else if c =? 92 then
        match s' with
        | d :: s'' => (fun r => (d :: fst r, snd r)) <$> scan_dq s''
        | [] => None
        end
      else (fun r => (c :: fst r, snd r)) <$> scan_dq s'
  end.

Lemma sexp_encode_string_scans_witness : Forall (fun c => c <> 0) (bs "it's") /\ exists quoted,
  e_sexp_encode_string [] (Some (bs "it's")) = [] ++ [32; 34] ++ quoted /\ scan_dq (quoted ++ bs ")") = Some (bs "it's", bs ")").
Proof.
  assert (F : Forall (fun c => c <> 0) (bs "it's")) by (repeat constructor; discriminate).
  assert (C : forall c s, c <> 34 -> c <> 92 -> c <> 0 -> scan_dq (c :: s) = (fun r => (c :: fst r, snd r)) <$> scan_dq s).
  { intros c s A B _. cbn. apply Z.eqb_neq in A, B. rewrite A, B. reflexivity. }
  assert (X : forall c s, c = 34 \/ c = 39 \/ c = 92 -> scan_dq (92 :: c :: s) = (fun r => (c :: fst r, snd r)) <$> scan_dq s).
  { intros c s _. reflexivity. }
  split; [exact F|]. exact (sexp_encode_string_scans scan_dq C X (fun s => eq_refl) [] (bs "it's") (bs ")") F).
Defined.
