(* ===== verification/VCard.v ===== *)
(** vCards (libebook-contacts/e-vcard.c): the attributes of a vCard with their
    parameters and values, the operations that change them, the escaping of
    values and the quoted-printable code of vCard 2.1.  The parser is in
    VCardParse.v, the writers are in VCardWrite.v.

    The objects of C are values here: an attribute that a function changes in
    place is returned changed.  Reference counts are left out.  A [GList] of
    strings is a list of texts, a text is the bytes before the terminator. *)
From Stdlib Require Import ZArith Lia Ascii.
From stdpp Require Import base list option strings.
From S2P Require Import Prelude StringUtils.

Local Open Scope Z_scope.

Notation text := (list Z).

(** * Data *)

Inductive EVCardEncoding := EVC_ENCODING_RAW | EVC_ENCODING_BASE64 | EVC_ENCODING_QP.

Inductive EVCardVersion :=
  E_VCARD_VERSION_UNKNOWN | E_VCARD_VERSION_21 | E_VCARD_VERSION_30 | E_VCARD_VERSION_40.

Record EVCardAttributeParam := { param_name : text; param_values : list text }.

Record EVCardAttribute := {
  attr_group : option text;
  attr_name : text;
  attr_params : list EVCardAttributeParam;
  attr_values : list text;
  attr_decoded_values : list text;
  attr_encoding : EVCardEncoding;
  attr_encoding_set : bool }.

#[export] Instance encoding_dec : EqDecision EVCardEncoding.
Proof. solve_decision. Defined.
#[export] Instance version_dec : EqDecision EVCardVersion.
Proof. solve_decision. Defined.
#[export] Instance param_dec : EqDecision EVCardAttributeParam.
Proof. solve_decision. Defined.
#[export] Instance attribute_dec : EqDecision EVCardAttribute.
Proof. solve_decision. Defined.

Definition with_params (a : EVCardAttribute) (ps : list EVCardAttributeParam) : EVCardAttribute :=
  {| attr_group := attr_group a; attr_name := attr_name a; attr_params := ps;
     attr_values := attr_values a; attr_decoded_values := attr_decoded_values a;
     attr_encoding := attr_encoding a; attr_encoding_set := attr_encoding_set a |}.
Definition with_values (a : EVCardAttribute) (vs ds : list text) : EVCardAttribute :=
  {| attr_group := attr_group a; attr_name := attr_name a; attr_params := attr_params a;
     attr_values := vs; attr_decoded_values := ds;
     attr_encoding := attr_encoding a; attr_encoding_set := attr_encoding_set a |}.
Definition with_encoding (a : EVCardAttribute) (e : EVCardEncoding) (set : bool) : EVCardAttribute :=
  {| attr_group := attr_group a; attr_name := attr_name a; attr_params := attr_params a;
     attr_values := attr_values a; attr_decoded_values := attr_decoded_values a;
     attr_encoding := e; attr_encoding_set := set |}.

(** Names of e-vcard.h. *)
Definition EVC_CATEGORIES : text := bs "CATEGORIES".
Definition EVC_ENCODING : text := bs "ENCODING".
Definition EVC_KEY : text := bs "KEY".
Definition EVC_LOGO : text := bs "LOGO".
Definition EVC_PHOTO : text := bs "PHOTO".
Definition EVC_QUOTEDPRINTABLE : text := bs "QUOTED-PRINTABLE".
Definition EVC_TYPE : text := bs "TYPE".
Definition EVC_UID : text := bs "UID".
Definition EVC_VERSION : text := bs "VERSION".

(** * Parameters *)

Definition e_vcard_attribute_param_new (name : text) : EVCardAttributeParam :=
  {| param_name := name; param_values := [] |}.
Definition e_vcard_attribute_param_add_value (p : EVCardAttributeParam) (v : text) : EVCardAttributeParam :=
  {| param_name := param_name p; param_values := param_values p ++ [v] |}.
Definition e_vcard_attribute_param_add_values (p : EVCardAttributeParam) (vs : list text)
    : EVCardAttributeParam := fold_left e_vcard_attribute_param_add_value vs p.
Definition e_vcard_attribute_param_remove_values (p : EVCardAttributeParam) : EVCardAttributeParam :=
  {| param_name := param_name p; param_values := [] |}.
Definition e_vcard_attribute_param_copy (p : EVCardAttributeParam) : EVCardAttributeParam :=
  fold_left e_vcard_attribute_param_add_value (param_values p) (e_vcard_attribute_param_new (param_name p)).

(** * Attributes *)

(** An empty group is none. *)
Definition e_vcard_attribute_new (attr_group : option text) (attr_name : text) : EVCardAttribute :=
  {| attr_group := match attr_group with Some [] => None | g => g end;
     attr_name := attr_name; attr_params := []; attr_values := []; attr_decoded_values := [];
     attr_encoding := EVC_ENCODING_RAW; attr_encoding_set := false |}.

Definition e_vcard_attribute_is_singlevalue_type (a : EVCardAttribute) : bool :=
  strcase_eqb (attr_name a) EVC_KEY || strcase_eqb (attr_name a) EVC_LOGO ||
  strcase_eqb (attr_name a) EVC_PHOTO || strcase_eqb (attr_name a) (bs "SOUND") ||
  strcase_eqb (attr_name a) (bs "TZ").

Definition e_vcard_attribute_add_value (a : EVCardAttribute) (v : text) : EVCardAttribute :=
  with_values a (attr_values a ++ [v]) (attr_decoded_values a).
Definition e_vcard_attribute_add_values (a : EVCardAttribute) (vs : list text) : EVCardAttribute :=
  fold_left e_vcard_attribute_add_value vs a.
Definition e_vcard_attribute_remove_values (a : EVCardAttribute) : EVCardAttribute := with_values a [] [].

Fixpoint delete_first {A} (p : A -> bool) (l : list A) : list A :=
  match l with
  | [] => []
  | x :: r => if p x then r else x :: delete_first p r
  end.

(** The decoded values are left as they are. *)
Definition e_vcard_attribute_remove_value (a : EVCardAttribute) (s : text) : EVCardAttribute :=
  with_values a (delete_first (fun v => bytes_eqb v s) (attr_values a)) (attr_decoded_values a).

Definition e_vcard_attribute_remove_param (a : EVCardAttribute) (name : text) : EVCardAttribute :=
  if existsb (fun p => strcase_eqb (param_name p) name) (attr_params a) then
    let a := if strcase_eqb name EVC_ENCODING then with_encoding a EVC_ENCODING_RAW false else a in
    with_params a (delete_first (fun p => strcase_eqb (param_name p) name) (attr_params a))
  else a.

Definition e_vcard_attribute_remove_params (a : EVCardAttribute) : EVCardAttribute :=
  with_encoding (with_params a []) EVC_ENCODING_RAW false.

(** The loop over the values of the new parameter: those that [param2] has not
    yet, in any case, are added to it. *)
Definition merge_value (param2 : EVCardAttributeParam) (my_value : text) : EVCardAttributeParam :=
  if existsb (fun v2 => strcase_eqb v2 my_value) (param_values param2) then param2
  else e_vcard_attribute_param_add_value param2 my_value.

Fixpoint merge_param (ps : list EVCardAttributeParam) (param : EVCardAttributeParam)
    : option (list EVCardAttributeParam) :=
  match ps with
  | [] => None
  | param2 :: r =>
      if strcase_eqb (param_name param2) (param_name param)
      then Some (fold_left merge_value (param_values param) param2 :: r)
      else match merge_param r param with Some r => Some (param2 :: r) | None => None end
  end.

(** "We handle our special encoding stuff here". *)
Definition encoding_of (a : EVCardAttribute) (param : EVCardAttributeParam) : EVCardAttribute :=
  if strcase_eqb (param_name param) EVC_ENCODING then
    if attr_encoding_set a then a
    else
      match param_values param with
      | v :: _ =>
          with_encoding a
            (if strcase_eqb v (bs "b") || strcase_eqb v (bs "BASE64") then EVC_ENCODING_BASE64
             else if strcase_eqb v EVC_QUOTEDPRINTABLE then EVC_ENCODING_QP
             else attr_encoding a) true
      | [] => a
      end
  else a.

Definition e_vcard_attribute_add_param (a : EVCardAttribute) (param : EVCardAttributeParam) : EVCardAttribute :=
  let a :=
    match merge_param (attr_params a) param with
    | Some ps => with_params a ps
    | None => with_params a (param :: attr_params a)
    end in
  encoding_of a param.

Definition e_vcard_attribute_add_param_with_value (a : EVCardAttribute) (p : EVCardAttributeParam)
    (v : text) : EVCardAttribute :=
  e_vcard_attribute_add_param a (e_vcard_attribute_param_add_value p v).
Definition e_vcard_attribute_add_param_with_values (a : EVCardAttribute) (p : EVCardAttributeParam)
    (vs : list text) : EVCardAttribute :=
  e_vcard_attribute_add_param a (fold_left e_vcard_attribute_param_add_value vs p).

(** [e_vcard_attribute_remove_param_value]: only the first parameter with the
    name is looked at. *)
Fixpoint remove_param_value (ps : list EVCardAttributeParam) (name s : text) : list EVCardAttributeParam :=
  match ps with
  | [] => []
  | param :: r =>
      if strcase_eqb (param_name param) name then
        if existsb (fun v => strcase_eqb v s) (param_values param) then
          match delete_first (fun v => strcase_eqb v s) (param_values param) with
          | [] => r
          | vs => {| param_name := param_name param; param_values := vs |} :: r
          end
        else param :: r
      else param :: remove_param_value r name s
  end.
Definition e_vcard_attribute_remove_param_value (a : EVCardAttribute) (name s : text) : EVCardAttribute :=
  with_params a (remove_param_value (attr_params a) name s).

Definition e_vcard_attribute_copy (attr : EVCardAttribute) : EVCardAttribute :=
  let a := e_vcard_attribute_new (attr_group attr) (attr_name attr) in
  let a := fold_left e_vcard_attribute_add_value (attr_values attr) a in
  fold_left (fun a p => e_vcard_attribute_add_param a (e_vcard_attribute_param_copy p)) (attr_params attr) a.

Definition e_vcard_attribute_get_param (a : EVCardAttribute) (name : text) : option (list text) :=
  param_values <$> List.find (fun p => strcase_eqb (param_name p) name) (attr_params a).

Definition e_vcard_attribute_has_type (a : EVCardAttribute) (typestr : text) : bool :=
  existsb (fun p => strcase_eqb (param_name p) EVC_TYPE &&
                    existsb (fun v => strcase_eqb v typestr) (param_values p)) (attr_params a).

Definition e_vcard_attribute_is_single_valued (a : EVCardAttribute) : bool :=
  match attr_values a with [_] => true | _ => false end.
Definition e_vcard_attribute_get_value (a : EVCardAttribute) : option text := head (attr_values a).
Definition e_vcard_attribute_get_nth_value (a : EVCardAttribute) (index : nat) : option text :=
  attr_values a !! index.

(** * Versions *)

Definition e_vcard_version_from_string (str : text) : EVCardVersion :=
  if bytes_eqb str (bs "2.1") then E_VCARD_VERSION_21
  else if bytes_eqb str (bs "3.0") then E_VCARD_VERSION_30
  else if bytes_eqb str (bs "4.0") then E_VCARD_VERSION_40
  else E_VCARD_VERSION_UNKNOWN.

Definition e_vcard_version_to_string (version : EVCardVersion) : text :=
  match version with
  | E_VCARD_VERSION_UNKNOWN => bs "unknown"
  | E_VCARD_VERSION_21 => bs "2.1"
  | E_VCARD_VERSION_30 => bs "3.0"
  | E_VCARD_VERSION_40 => bs "4.0"
  end.

Definition vcard_version_from_string_with_fallback (str : text) (fallback : EVCardVersion) : EVCardVersion :=
  match e_vcard_version_from_string str with
  | E_VCARD_VERSION_UNKNOWN => fallback
  | version => version
  end.

(** * Escaping *)

Fixpoint e_vcard_escape_semicolons (s : text) : text :=
  match s with
  | [] => []
  | c :: s => (if c =? ch ";"%char then [92] else []) ++ c :: e_vcard_escape_semicolons s
  end.

(** What one byte becomes; a carriage return takes the line feed after it
    along. *)
Definition escape_char (c : Z) : text :=
  if c =? 10 then [92; ch "n"%char]
  else if c =? 13 then [92; ch "n"%char]
  else if c =? ch ";"%char then [92; ch ";"%char]
  else if c =? ch ","%char then [92; ch ","%char]
  else if c =? 92 then [92; 92]
  else [c].

Fixpoint e_vcard_escape_string_internal (s : text) (skip_double_quotes : bool) : text :=
  match s with
  | [] => []
  | c :: r =>
      if skip_double_quotes && (c =? 34) then e_vcard_escape_string_internal r skip_double_quotes
      else escape_char c ++
        match r with
        | d :: r' => if (c =? 13) && (d =? 10) then e_vcard_escape_string_internal r' skip_double_quotes
                     else e_vcard_escape_string_internal r skip_double_quotes
        | [] => []
        end
  end.
Definition e_vcard_escape_string (s : text) : text := e_vcard_escape_string_internal s false.

Definition unescape_char (c : Z) : option Z :=
  if c =? ch "n"%char then Some 10
  else if c =? ch "r"%char then Some 13
  else if c =? ch ";"%char then Some (ch ";"%char)
  else if c =? ch ","%char then Some (ch ","%char)
  else if c =? 92 then Some 92
  else None.

Fixpoint e_vcard_unescape_string (s : text) : text :=
  match s with
  | [] => []
  | c :: r =>
      if c =? 92 then
        match r with
        | [] => [92]
        | d :: r => match unescape_char d with Some x => [x] | None => [92; d] end
                    ++ e_vcard_unescape_string r
        end
      else c :: e_vcard_unescape_string r
  end.

(** * Quoted-printable *)

(** ["=%2.2X"] of a byte. *)
Definition HEXDIGIT (x : Z) : Z := if x <? 10 then 48 + x else 55 + x.
Definition fmt_02X (c : Z) : text := [61; HEXDIGIT (Z.shiftr (u8 c) 4); HEXDIGIT (Z.land (u8 c) 15)].
Definition soft_break : text := [61; 13; 10; 32].

(** The comparisons are of a signed [gchar]: a byte from 128 on is encoded. *)
Fixpoint qp_encode_loop (p : text) (can_wrap : bool) (count : Z) : text :=
  match p with
  | [] => []
  | c :: p =>
      if ((33 <=? schar c) && (schar c <=? 60)) || ((62 <=? schar c) && (schar c <=? 126)) then
        if can_wrap && (count =? 75)
        then soft_break ++ c :: qp_encode_loop p can_wrap 2
        else c :: qp_encode_loop p can_wrap (count + 1)
      else if (73 <=? count) && can_wrap
      then soft_break ++ fmt_02X c ++ qp_encode_loop p can_wrap 4
      else fmt_02X c ++ qp_encode_loop p can_wrap (count + 3)
  end.
Definition e_vcard_qp_encode (txt : text) (can_wrap : bool) : text := qp_encode_loop txt can_wrap 0.

Definition is_nl (c : Z) : bool := (c =? 10) || (c =? 13).
Definition qp_digit (a : Z) : Z := Z.land (if 65 <=? a then a - 65 + 10 else a - 48) 15.

(** The byte of the two digits, or the three bytes as they are. *)
Definition qp_pair (x y : Z) : text :=
  let a := toupper x in let b := toupper y in
  if isxdigit a && isxdigit b then [Z.lor (Z.shiftl (qp_digit a) 4) (qp_digit b)] else [61; x; y].

Fixpoint qp_decode_loop (txt : text) : text :=
  match txt with
  | [] => []
  | c :: r =>
      match r with
      | d :: r' =>
          if (c =? 61) && is_nl d then
            match r' with
            | e :: r'' => if e =? 10 then qp_decode_loop r'' else qp_decode_loop r'
            | [] => []
            end
          else
            match r' with
            | e :: r'' => if c =? 61 then qp_pair d e ++ qp_decode_loop r''
                          else c :: qp_decode_loop r
            | [] => c :: qp_decode_loop r
            end
      | [] => [c]
      end
  end.

(** The result is a string of C: it ends at the first NUL that is decoded. *)
Definition e_vcard_qp_decode (txt : text) : text := cstr (qp_decode_loop txt).

(** * Decoded values *)

Section Decoded.

(** GLib: base64 code. *)
Context (g_base64_encode : text -> text).
Context (g_base64_decode : text -> text).

(** [e_vcard_attribute_get_values_decoded]: the decoded values are kept. *)
Definition decode_value (e : EVCardEncoding) (v : text) : text :=
  match e with
  | EVC_ENCODING_RAW => v
  | EVC_ENCODING_BASE64 => g_base64_decode v
  | EVC_ENCODING_QP => e_vcard_qp_decode v
  end.

Definition e_vcard_attribute_get_values_decoded (a : EVCardAttribute) : EVCardAttribute * list text :=
  match attr_decoded_values a with
  | [] =>
      let ds := map (decode_value (attr_encoding a)) (attr_values a) in
      (with_values a (attr_values a) ds, ds)
  | ds => (a, ds)
  end.

Definition e_vcard_attribute_get_value_decoded (a : EVCardAttribute) : EVCardAttribute * option text :=
  let '(a, values) := e_vcard_attribute_get_values_decoded a in (a, head values).

(** [value] has [len] bytes; as a string of C it is encoded up to a NUL. *)
Definition e_vcard_attribute_add_value_decoded (a : EVCardAttribute) (value : text) : EVCardAttribute :=
  match attr_encoding a with
  | EVC_ENCODING_RAW => a
  | EVC_ENCODING_BASE64 =>
      let '(a, _) := e_vcard_attribute_get_values_decoded a in
      with_values a (attr_values a ++ [g_base64_encode value]) (attr_decoded_values a ++ [value])
  | EVC_ENCODING_QP =>
      let '(a, _) := e_vcard_attribute_get_values_decoded a in
      with_values a (attr_values a ++ [e_vcard_qp_encode (cstr value) false]) (attr_decoded_values a ++ [value])
  end.

End Decoded.
