(* ===== verification/VCardParse.v ===== *)
(** The vCard parser (libebook-contacts/e-vcard.c): [skip_newline], the readers
    of an attribute, [parse], and the operations of [EVCard], whose text is
    parsed when its attributes are needed first.

    A pointer into the text is the rest of the text; its terminator is not
    part of it, so [*lp] of an empty rest is NUL.  Where the code moves a
    pointer behind the terminator, which it reads there, the result is
    [Overrun].  The loops have fuel, one more than the length of the text is
    enough (VCardParseSpec.v). *)
From Stdlib Require Import ZArith Lia Ascii.
From stdpp Require Import base list option strings.
From S2P Require Import Prelude StringUtils Utf8 VCard.
Local Open Scope Z_scope.

(** * Results *)

Inductive read (A : Type) := Got (a : A) | Overrun | OutOfFuel.
Arguments Got {A} a.
Arguments Overrun {A}.
Arguments OutOfFuel {A}.

#[export] Instance read_ret : MRet read := fun A a => Got a.
#[export] Instance read_bind : MBind read := fun A B f x =>
  match x with Got a => f a | Overrun => Overrun | OutOfFuel => OutOfFuel end.

(** * Pointers *)

Definition deref (lp : text) : Z := match lp with c :: _ => c | [] => 0 end.
Definition advance (lp : text) : read text := match lp with _ :: r => Got r | [] => Overrun end.

Definition is_blank (c : Z) : bool := (c =? 32) || (c =? 9).
Definition is_end (c : Z) : bool := is_nl c || (c =? 0).

Definition skip_newline (p : text) (quoted_printable : bool) : text :=
  if quoted_printable && (deref p =? 61) then
    let next := tl p in
    if is_nl (deref next) then
      let p := tl next in
      if is_nl (deref p) && negb (deref p =? deref next) then
        let p := tl p in
        if is_blank (deref p) then tl p else p
      else p
    else p
  else if is_nl (deref p) then
    let next := tl p in
    if is_nl (deref next) && negb (deref p =? deref next) then
      let next2 := tl next in
      if is_blank (deref next2) then tl next2 else p
    else if is_blank (deref next) then tl next
    else p
  else p.

Fixpoint skip_line (lp : text) : text :=
  match lp with
  | c :: r => if is_end c then lp else skip_line r
  | [] => []
  end.
Fixpoint skip_endline (lp : text) : text :=
  match lp with
  | c :: r => if is_nl c then skip_endline r else lp
  | [] => []
  end.
Definition skip_to_next_line (p : text) : text := skip_endline (skip_line p).

Fixpoint skip_until (lp : text) (s : text) : text :=
  match lp with
  | c :: r => if (c =? 13) || (c =? 0) then lp else if existsb (Z.eqb c) s then lp else skip_until r s
  | [] => []
  end.

(** [WRITE_CHUNK]: the bytes from [chunk_start] to [lp]. *)
Definition write_chunk (str : text) (chunk_start : option text) (lp : text) : text :=
  match chunk_start with
  | Some chunk => str ++ take (length chunk - length lp) chunk
  | None => str
  end.
(** [WRITE_CHUNK] at the end of a turn of a loop, before a line end. *)
Definition flush (str : text) (chunk_start : option text) (lp : text) : text * option text :=
  if is_nl (deref lp) then (write_chunk str chunk_start lp, None) else (str, chunk_start).

Definition xdigit_value (c : Z) : Z :=
  if isdigit c then c - 48 else if isupper c then c - 55 else c - 87.

(** The escapes of a value and of a quoted parameter value. *)
Definition value_escape (c : Z) : option Z :=
  if (c =? ch "n") || (c =? ch "N") then Some 10
  else if (c =? ch "r") || (c =? ch "R") then Some 13
  else if c =? ch ";" then Some (ch ";")
  else if c =? ch "," then Some (ch ",")
  else if c =? 92 then Some 92
  else None.

Definition is_name_char (c : Z) : bool := (c =? ch "-") || (c =? ch "_") || isalnum c.

Section Parser.

(** GLib: [g_utf8_validate] gives the place of the first invalid byte,
    [g_convert] a text from a character set to UTF-8, or nothing. *)
Context (g_utf8_validate : text -> option nat).
Context (g_convert : text -> text -> option text).

(** [g_string_append] of the remainder stops at a NUL. *)
Definition make_utf8_valid (str : text) : text :=
  match make_valid_loop g_utf8_validate (length str) str None with
  | (Some string, remainder) => string ++ cstr remainder
  | (None, _) => str
  end.

Definition convert_value (charset : option text) (str : text) : text :=
  match charset with
  | Some charset => match g_convert charset str with Some tmp => cstr tmp | None => str end
  | None => str
  end.

(** * Values *)

Section Value.
Context (quoted_printable : bool) (charset : option text).

(** A hexadecimal pair after [=], and what is appended. *)
Definition qp_bytes (a b : Z) : text :=
  if isxdigit a && isxdigit b then [Z.lor (Z.shiftl (xdigit_value a) 4) (xdigit_value b)]
  else [61; a; b].

Definition add_read_value (attr : EVCardAttribute) (str : text) : EVCardAttribute :=
  e_vcard_attribute_add_value attr (make_utf8_valid (convert_value charset str)).

(** The loop of [read_attribute_value]: [lp] is the pointer before
    [skip_newline]; the result is [lp], [str] and [chunk_start] behind the
    loop. *)
Fixpoint value_loop (fuel : nat) (lp str : text) (chunk_start : option text) (attr : EVCardAttribute)
    : read (text * text * option text * EVCardAttribute) :=
  match fuel with
  | O => OutOfFuel
  | S fuel =>
      let lp := skip_newline lp quoted_printable in
      if is_end (deref lp) then Got (lp, str, chunk_start, attr)
      else if (deref lp =? 61) && quoted_printable then
        let str := write_chunk str chunk_start lp in
        lp ← advance lp;
        let lp := skip_newline lp quoted_printable in
        let a := deref lp in
        (* with a NUL the loop ends with [lp] behind it *)
        lp ← advance lp;
        let lp := skip_newline lp quoted_printable in
        let b := deref lp in
        if b =? 0 then Got (lp, str, None, attr)
        else
          lp ← advance lp;
          value_loop fuel lp (str ++ qp_bytes a b) None attr
      else if deref lp =? 92 then
        let str := write_chunk str chunk_start lp in
        lp ← advance lp;
        if deref lp =? 0 then Got (lp, str ++ [92], None, attr)
        else
          let lp := skip_newline lp quoted_printable in
          let '(str, chunk_start) :=
            match value_escape (deref lp) with
            | Some c => (str ++ [c], None)
            | None => (str ++ [92], Some lp)
            end in
          lp ← advance lp;
          let '(str, chunk_start) := flush str chunk_start lp in
          value_loop fuel lp str chunk_start attr
      else if ((deref lp =? ch ";") && negb (e_vcard_attribute_is_singlevalue_type attr)) ||
              ((deref lp =? ch ",") && strcase_eqb (attr_name attr) EVC_CATEGORIES) then
        let attr := add_read_value attr (write_chunk str chunk_start lp) in
        lp ← advance lp;
        value_loop fuel lp [] None attr
      else
        let chunk_start := match chunk_start with Some c => Some c | None => Some lp end in
        lp ← advance lp;
        let '(str, chunk_start) := flush str chunk_start lp in
        value_loop fuel lp str chunk_start attr
  end.

Definition read_attribute_value (attr : EVCardAttribute) (p : text) : read (EVCardAttribute * text) :=
  '(lp, str, chunk_start, attr) ← value_loop (S (length p)) p [] None attr;
  let str := write_chunk str chunk_start lp in
  mret (add_read_value attr str, skip_to_next_line lp).

End Value.

(** * Parameters *)

(** The variables of [read_attribute_params]. *)
Record params_state := {
  ps_str : text;
  ps_chunk : option text;
  ps_param : option EVCardAttributeParam;
  ps_in_quote : bool;
  ps_qp : bool;
  ps_charset : option text;
  ps_attr : EVCardAttribute }.

Definition set_str (s : params_state) (str : text) (chunk : option text) : params_state :=
  {| ps_str := str; ps_chunk := chunk; ps_param := ps_param s; ps_in_quote := ps_in_quote s;
     ps_qp := ps_qp s; ps_charset := ps_charset s; ps_attr := ps_attr s |}.
Definition set_param (s : params_state) (param : option EVCardAttributeParam) : params_state :=
  {| ps_str := ps_str s; ps_chunk := ps_chunk s; ps_param := param; ps_in_quote := ps_in_quote s;
     ps_qp := ps_qp s; ps_charset := ps_charset s; ps_attr := ps_attr s |}.
Definition flip_quote (s : params_state) : params_state :=
  {| ps_str := ps_str s; ps_chunk := ps_chunk s; ps_param := ps_param s; ps_in_quote := negb (ps_in_quote s);
     ps_qp := ps_qp s; ps_charset := ps_charset s; ps_attr := ps_attr s |}.
Definition set_reading (s : params_state) (qp : bool) (charset : option text) : params_state :=
  {| ps_str := ps_str s; ps_chunk := ps_chunk s; ps_param := ps_param s; ps_in_quote := ps_in_quote s;
     ps_qp := qp; ps_charset := charset; ps_attr := ps_attr s |}.
Definition set_attr (s : params_state) (attr : EVCardAttribute) : params_state :=
  {| ps_str := ps_str s; ps_chunk := ps_chunk s; ps_param := ps_param s; ps_in_quote := ps_in_quote s;
     ps_qp := ps_qp s; ps_charset := ps_charset s; ps_attr := attr |}.
Definition flush_params (s : params_state) (lp : text) : params_state :=
  let '(str, chunk) := flush (ps_str s) (ps_chunk s) lp in set_str s str chunk.

(** An ENCODING of quoted-printable and a CHARSET other than UTF-8 are not kept
    as parameters. *)
Definition special_param (s : params_state) : params_state :=
  match ps_param s with
  | Some p =>
      let value := default [] (head (param_values p)) in
      if strcase_eqb (param_name p) (bs "encoding") && strcase_eqb value (bs "quoted-printable")
      then set_param (set_reading s true (ps_charset s)) None
      else if strcase_eqb (param_name p) (bs "charset") && negb (strcase_eqb value (bs "utf-8"))
      then set_param (set_reading s (ps_qp s) (Some value)) None
      else s
  | None => s
  end.

(** [;], [:] or [,]: what there is in [str] is a value of the parameter, or of
    a parameter that is named after it. *)
Definition take_param_value (s : params_state) : params_state :=
  match ps_param s with
  | Some p =>
      let s :=
        match ps_str s with
        | [] => match param_values p with [] => set_param s None | _ => s end
        | str => set_str (set_param s (Some (e_vcard_attribute_param_add_value p (make_utf8_valid str))))
                   [] (ps_chunk s)
        end in
      special_param s
  | None =>
      match ps_str s with
      | [] => s
      | str =>
          let '(name, str, qp) :=
            if strcase_eqb str (bs "quoted-printable") then (bs "ENCODING", str, true)
            else if strcase_eqb str (bs "base64") then (bs "ENCODING", bs "b", ps_qp s)
            else (bs "TYPE", str, ps_qp s) in
          let p := e_vcard_attribute_param_add_value (e_vcard_attribute_param_new name) (make_utf8_valid str) in
          set_str (set_param (set_reading s qp (ps_charset s)) (Some p)) [] (ps_chunk s)
      end
  end.

Definition finish_param (s : params_state) : params_state :=
  match ps_param s with
  | Some p => set_param (set_attr s (e_vcard_attribute_add_param (ps_attr s) p)) None
  | None => s
  end.

(** An escape in quotes, [lp] is behind the backslash and a fold. *)
Definition quoted_escape (c : Z) : text :=
  match value_escape c with Some x => [x] | None => [92; c] end.

Fixpoint params_loop (fuel : nat) (lp : text) (s : params_state) : read (text * params_state) :=
  match fuel with
  | O => OutOfFuel
  | S fuel =>
      let lp := skip_newline lp (ps_qp s) in
      let written := set_str s (write_chunk (ps_str s) (ps_chunk s) lp) None in
      if is_end (deref lp) then Got (lp, s)
      else if deref lp =? 34 then
        lp ← advance lp;
        params_loop fuel lp (flip_quote written)
      else if ps_in_quote s || is_name_char (deref lp) then
        '(lp, str) ←
          (if ps_in_quote s && (deref lp =? 92) then
             lp ← advance lp;
             let lp := skip_newline lp (ps_qp s) in
             mret (lp, ps_str written ++ quoted_escape (deref lp))
           else mret (lp, ps_str written ++ [deref lp]));
        lp ← (if negb (deref lp =? 0) then advance lp else mret lp);
        params_loop fuel lp (set_str s str None)
      else if deref lp =? 61 then
        match ps_str written with
        | [] =>
            let lp := skip_until lp (bs ":;") in
            if deref lp =? ch ";" then
              lp ← advance lp;
              params_loop fuel lp written
            else if deref lp =? ch ":" then params_loop fuel lp written
            else Got (skip_to_next_line lp, written)
        | str =>
            lp ← advance lp;
            params_loop fuel lp
              (set_str (set_param s (Some (e_vcard_attribute_param_new (make_utf8_valid str)))) [] None)
        end
      else if (deref lp =? ch ";") || (deref lp =? ch ":") || (deref lp =? ch ",") then
        let colon := deref lp =? ch ":" in
        let comma := deref lp =? ch "," in
        let s := take_param_value written in
        lp ← (if colon then mret lp else advance lp);
        let s := if comma then s else finish_param s in
        if colon then Got (lp, s) else params_loop fuel lp s
      else if ps_param s then
        let chunk := match ps_chunk s with Some c => Some c | None => Some lp end in
        lp ← advance lp;
        params_loop fuel lp (flush_params (set_str s (ps_str s) chunk) lp)
      else
        let s := set_str s [] None in
        params_loop fuel (skip_until lp (bs ":;")) s
  end.

Definition read_attribute_params (attr : EVCardAttribute) (p : text)
    : read (EVCardAttribute * text * bool * option text) :=
  '(lp, s) ← params_loop (S (length p)) p
    {| ps_str := []; ps_chunk := None; ps_param := None; ps_in_quote := false;
       ps_qp := false; ps_charset := None; ps_attr := attr |};
  mret (ps_attr s, lp, ps_qp s, ps_charset s).

(** * Attributes *)

(** Where the loop over group and name ends: behind the name, at a line
    without one, or at the end of the line. *)
Inductive name_result :=
  | NameRead (group : option text) (name lp : text)
  | NameLost (lp : text)
  | NameEnd.

Fixpoint name_loop (fuel : nat) (lp str : text) (group : option text) : read name_result :=
  match fuel with
  | O => OutOfFuel
  | S fuel =>
      let lp := skip_newline lp false in
      if is_end (deref lp) then Got NameEnd
      else if (deref lp =? ch ":") || (deref lp =? ch ";") then
        match str with
        | [] => Got (NameLost lp)
        | _ => Got (NameRead group (make_utf8_valid str) lp)
        end
      else if deref lp =? ch "." then
        let str := match group with Some _ => [] | None => str end in
        lp ← advance lp;
        match str with
        | [] => name_loop fuel lp [] group
        | _ => name_loop fuel lp [] (Some (make_utf8_valid str))
        end
      else if is_name_char (deref lp) then
        let c := deref lp in
        lp ← advance lp;
        name_loop fuel lp (str ++ [c]) group
      else Got (NameLost lp)
  end.

Definition read_attribute (p : text) : read (option EVCardAttribute * text) :=
  r ← name_loop (S (length p)) p [] None;
  match r with
  | NameEnd => mret (None, skip_to_next_line p)
  | NameLost lp => mret (None, skip_to_next_line lp)
  | NameRead group name lp =>
      let attr := e_vcard_attribute_new group name in
      '(attr, lp, is_qp, charset) ←
        (if deref lp =? ch ";" then
           lp ← advance lp;
           '(attr, lp, is_qp, charset) ← read_attribute_params attr lp;
           mret (if is_qp : bool then with_encoding attr EVC_ENCODING_RAW (attr_encoding_set attr) else attr,
                 lp, is_qp, charset)
         else mret (attr, lp, false, None));
      '(attr, lp) ←
        (if deref lp =? ch ":" then
           lp ← advance lp;
           read_attribute_value is_qp charset attr lp
         else mret (attr, lp));
      mret (match attr_values attr with [] => None | _ => Some attr end, lp)
  end.

(** * vCards *)

Record EVCard := { attributes : list EVCardAttribute; vcard : option text; version : EVCardVersion }.

Definition with_attributes (evc : EVCard) (l : list EVCardAttribute) : EVCard :=
  {| attributes := l; vcard := vcard evc; version := version evc |}.
Definition with_version (evc : EVCard) (v : EVCardVersion) : EVCard :=
  {| attributes := attributes evc; vcard := vcard evc; version := v |}.

Definition named (attr : EVCardAttribute) (name : text) : bool := strcase_eqb (attr_name attr) name.

Definition cache_version_from_attr (evc : EVCard) (attr : EVCardAttribute) : EVCard :=
  match attr_values attr with
  | [value] =>
      if named attr EVC_VERSION
      then with_version evc (vcard_version_from_string_with_fallback value E_VCARD_VERSION_UNKNOWN)
      else evc
  | _ => evc
  end.

(** [e_vcard_add_attribute] for a vCard without a text to parse, as all those
    are that [parse] works on. *)
Definition add_parsed (evc : EVCard) (attr : EVCardAttribute) : EVCard :=
  cache_version_from_attr (with_attributes evc (attr :: attributes evc)) attr.

Fixpoint parse_loop (fuel : nat) (p : text) (evc : EVCard) (ignore_uid : bool) : read EVCard :=
  match fuel with
  | O => OutOfFuel
  | S fuel =>
      if deref p =? 0 then Got evc
      else
        '(next_attr, p) ← read_attribute p;
        match next_attr with
        | Some attr =>
            if named attr (bs "end") then Got evc
            else if ignore_uid && named attr EVC_UID then parse_loop fuel p evc ignore_uid
            else parse_loop fuel p (add_parsed evc attr) ignore_uid
        | None => parse_loop fuel p evc ignore_uid
        end
  end.

Definition parse (evc : EVCard) (str : text) (ignore_uid : bool) : read EVCard :=
  let evc := with_version evc E_VCARD_VERSION_UNKNOWN in
  '(attr, p) ← read_attribute str;
  let evc :=
    match attr with
    | Some attr =>
        if named attr (bs "begin") then evc
        else if (negb ignore_uid || negb (named attr EVC_UID)) && negb (named attr (bs "end"))
        then add_parsed evc attr
        else evc
    | None => evc
    end in
  evc ← parse_loop (S (length p)) p evc ignore_uid;
  mret (with_attributes evc (reverse (attributes evc))).

Definition e_vcard_ensure_attributes (evc : EVCard) : read EVCard :=
  match vcard evc with
  | Some vcs =>
      let have_uid := match attributes evc with [] => false | _ => true end in
      parse {| attributes := attributes evc; vcard := None; version := version evc |} vcs have_uid
  | None => mret evc
  end.

(** [e_vcard_construct_full] on a new object; a negative length takes the whole
    text. *)
Definition e_vcard_construct_full (str : text) (len : Z) (uid : option text) : EVCard :=
  {| attributes :=
       match uid with
       | Some uid => [e_vcard_attribute_add_value (e_vcard_attribute_new None EVC_UID) uid]
       | None => []
       end;
     vcard :=
       match str with
       | [] => None
       | _ => Some (if len <? 0 then str else take (Z.to_nat len) str)
       end;
     version := E_VCARD_VERSION_UNKNOWN |}.
Definition e_vcard_new_from_string (str : text) : EVCard := e_vcard_construct_full str (-1) None.

Definition e_vcard_is_parsed (evc : EVCard) : bool :=
  match vcard evc, attributes evc with None, _ :: _ => true | _, _ => false end.

Definition keeps_text (evc : EVCard) (attr : EVCardAttribute) : bool :=
  match vcard evc with Some _ => named attr EVC_UID | None => false end.

Definition e_vcard_append_attribute (evc : EVCard) (attr : EVCardAttribute) : read EVCard :=
  if keeps_text evc attr then mret (with_attributes evc (attributes evc ++ [attr]))
  else
    evc ← e_vcard_ensure_attributes evc;
    mret (cache_version_from_attr (with_attributes evc (attributes evc ++ [attr])) attr).

Definition e_vcard_add_attribute (evc : EVCard) (attr : EVCardAttribute) : read EVCard :=
  if keeps_text evc attr then mret (with_attributes evc (attr :: attributes evc))
  else
    evc ← e_vcard_ensure_attributes evc;
    mret (cache_version_from_attr (with_attributes evc (attr :: attributes evc)) attr).

Definition e_vcard_append_attribute_with_value (evc : EVCard) (attr : EVCardAttribute) (value : text)
    : read EVCard :=
  e_vcard_append_attribute evc (e_vcard_attribute_add_value attr value).
Definition e_vcard_add_attribute_with_value (evc : EVCard) (attr : EVCardAttribute) (value : text)
    : read EVCard :=
  e_vcard_add_attribute evc (e_vcard_attribute_add_value attr value).

Definition e_vcard_append_attributes_take (evc : EVCard) (attrs : list EVCardAttribute) : read EVCard :=
  match attrs with
  | [] => mret evc
  | _ =>
      evc ← e_vcard_ensure_attributes evc;
      mret (with_attributes evc (attributes evc ++ attrs))
  end.
Definition e_vcard_append_attributes (evc : EVCard) (attrs : list EVCardAttribute) : read EVCard :=
  e_vcard_append_attributes_take evc (reverse (fold_left (fun l a => e_vcard_attribute_copy a :: l) attrs [])).

(** The callback does not change the vCard here. *)
Fixpoint foreach_remove_loop (func : EVCardAttribute -> bool) (l : list EVCardAttribute) (v : EVCardVersion)
    (n_removed : nat) : list EVCardAttribute * EVCardVersion * nat :=
  match l with
  | [] => ([], v, n_removed)
  | attr :: l =>
      if func attr then
        foreach_remove_loop func l
          (if negb (bool_decide (v = E_VCARD_VERSION_UNKNOWN)) && named attr EVC_VERSION
           then E_VCARD_VERSION_UNKNOWN else v) (S n_removed)
      else let '(l, v, n) := foreach_remove_loop func l v n_removed in (attr :: l, v, n)
  end.
Definition e_vcard_foreach_remove (evc : EVCard) (func : EVCardAttribute -> bool) : read (EVCard * nat) :=
  evc ← e_vcard_ensure_attributes evc;
  let '(l, v, n) := foreach_remove_loop func (attributes evc) (version evc) 0 in
  mret (with_version (with_attributes evc l) v, n).

Definition vcard_remove_attributes_cb (group : option text) (name : text) (attr : EVCardAttribute) : bool :=
  match group with
  | None | Some [] => true
  | Some g => match attr_group attr with Some ag => strcase_eqb g ag | None => false end
  end && strcase_eqb name (attr_name attr).

Definition e_vcard_remove_attributes (evc : EVCard) (attr_group : option text) (attr_name : text) : read EVCard :=
  let evc := if strcase_eqb attr_name EVC_VERSION then with_version evc E_VCARD_VERSION_UNKNOWN else evc in
  '(evc, _) ← e_vcard_foreach_remove evc (vcard_remove_attributes_cb attr_group attr_name);
  mret evc.

(** The place of the first attribute with the name. *)
Definition find_attribute (l : list EVCardAttribute) (name : text) : option nat :=
  fst <$> list_find (fun a => named a name = true) l.

(** [e_vcard_get_attribute]: the attribute is given by its place. *)
Definition e_vcard_get_attribute (evc : EVCard) (name : text) : read (EVCard * option nat) :=
  let parsed :=
    evc ← e_vcard_ensure_attributes evc;
    mret (evc, find_attribute (attributes evc) name) in
  match vcard evc with
  | Some _ =>
      if strcase_eqb name EVC_UID then
        match find_attribute (attributes evc) name with
        | Some i => mret (evc, Some i)
        | None => parsed
        end
      else parsed
  | None => parsed
  end.

Definition e_vcard_get_attribute_if_parsed (evc : EVCard) (name : text) : option nat :=
  find_attribute (attributes evc) name.

(** [e_vcard_foreach] with a callback that does not change the vCard. *)
Fixpoint foreach_loop {S} (func : EVCardAttribute -> S -> S * bool) (l : list EVCardAttribute) (user_data : S) : S :=
  match l with
  | [] => user_data
  | attr :: l => let '(user_data, go) := func attr user_data in
                 if go : bool then foreach_loop func l user_data else user_data
  end.
Definition e_vcard_foreach {S} (evc : EVCard) (func : EVCardAttribute -> S -> S * bool) (user_data : S)
    : read (EVCard * S) :=
  evc ← e_vcard_ensure_attributes evc;
  mret (evc, foreach_loop func (attributes evc) user_data).

Definition get_attributes_by_name_cb (name : text) (attr : EVCardAttribute) (attrs : list EVCardAttribute)
    : list EVCardAttribute * bool :=
  (if strcase_eqb name (attr_name attr) then attr :: attrs else attrs, true).
Definition e_vcard_get_attributes_by_name (evc : EVCard) (name : text) : read (EVCard * list EVCardAttribute) :=
  '(evc, attrs) ← e_vcard_foreach evc (get_attributes_by_name_cb name) [];
  mret (evc, reverse attrs).

(** [e_vcard_remove_attribute] of the attribute at a place. *)
Definition e_vcard_remove_attribute (evc : EVCard) (i : nat) : EVCard :=
  match attributes evc !! i with
  | Some attr =>
      let evc := if named attr EVC_VERSION then with_version evc E_VCARD_VERSION_UNKNOWN else evc in
      with_attributes evc (delete i (attributes evc))
  | None => evc
  end.

Definition e_vcard_util_set_x_attribute (evc : EVCard) (x_name : text) (value : option text) : read EVCard :=
  if prefix_eqb (bs "X-") x_name then
    '(evc, attr) ← e_vcard_get_attribute evc x_name;
    match attr with
    | Some i =>
        let evc := with_attributes evc (alter e_vcard_attribute_remove_values i (attributes evc)) in
        match value with
        | Some value => mret (with_attributes evc (alter (fun a => e_vcard_attribute_add_value a value) i (attributes evc)))
        | None => mret (e_vcard_remove_attribute evc i)
        end
    | None =>
        match value with
        | Some value => e_vcard_append_attribute_with_value evc (e_vcard_attribute_new None x_name) value
        | None => mret evc
        end
    end
  else mret evc.

(** [g_strstrip] *)
Definition g_ascii_isspace (c : Z) : bool := existsb (Z.eqb c) [32; 9; 10; 12; 13].
Fixpoint strip_front (s : text) : text :=
  match s with c :: r => if g_ascii_isspace c then strip_front r else s | [] => [] end.
Definition g_strstrip (s : text) : text := reverse (strip_front (reverse (strip_front s))).

Definition e_vcard_util_dup_x_attribute (evc : EVCard) (x_name : text) : read (EVCard * option text) :=
  if prefix_eqb (bs "X-") x_name then
    '(evc, attr) ← e_vcard_get_attribute evc x_name;
    mret (evc, match attr ≫= (fun i => attributes evc !! i) with
               | Some a => g_strstrip <$> head (attr_values a)
               | None => None
               end)
  else mret (evc, None).

Definition version_text (v : text) : text := [13; 10] ++ bs "VERSION:" ++ v ++ [13; 10].
Definition has_version (evc : EVCard) (v : text) : bool :=
  match vcard evc with
  | Some t => match camel_strstrcase t (version_text v) with Some _ => true | None => false end
  | None => false
  end.

Definition e_vcard_get_version (evc : EVCard) : read (EVCard * EVCardVersion) :=
  let found evc v := mret (with_version evc v, v) in
  if negb (bool_decide (version evc = E_VCARD_VERSION_UNKNOWN)) then mret (evc, version evc)
  else if has_version evc (bs "4.0") then found evc E_VCARD_VERSION_40
  else if has_version evc (bs "3.0") then found evc E_VCARD_VERSION_30
  else if has_version evc (bs "2.1") then found evc E_VCARD_VERSION_21
  else
    evc ← e_vcard_ensure_attributes evc;
    match List.find (fun attr => match attr_group attr with None => named attr EVC_VERSION | Some _ => false end)
            (attributes evc) with
    | Some attr =>
        match attr_values attr with
        | value :: _ => found evc (vcard_version_from_string_with_fallback value (version evc))
        | [] => mret (evc, version evc)
        end
    | None => found evc E_VCARD_VERSION_40
    end.

End Parser.
