(* ===== verification/VCardWrite.v ===== *)
(** The vCard writers (libebook-contacts/e-vcard.c):
    [e_vcard_to_string_vcard], which escapes values, quotes parameters and
    folds long lines, and [e_vcard_to_string_vcard_21]. *)
From Stdlib Require Import ZArith Lia Ascii.
From stdpp Require Import base list option strings.
From S2P Require Import Prelude StringUtils Utf8 VCard VCardParse.
Local Open Scope Z_scope.

Definition CRLF : text := [13; 10].

(** ** The names that a version has *)

Definition E_VCARD_21_VALID_PROPERTIES : text := bs
  "ADR,ORG,N,AGENT,LOGO,PHOTO,LABEL,FN,TITLE,SOUND,VERSION,TEL,EMAIL,TZ,GEO,NOTE,URL,BDAY,ROLE,REV,UID,KEY,MAILER".

Definition E_VCARD_21_VALID_PARAMETERS : text :=
  bs "TYPE,VALUE,ENCODING,CHARSET,LANGUAGE,DOM,INTL,POSTAL,PARCEL," ++
  bs "HOME,WORK,PREF,VOICE,FAX,MSG,CELL,PAGER,BBS,MODEM,CAR,ISDN,VIDEO," ++
  bs "AOL,APPLELINK,ATTMAIL,CIS,EWORLD,INTERNET,IBMMAIL,MCIMAIL," ++
  bs "POWERSHARE,PRODIGY,TLX,X400,GIF,CGM,WMF,BMP,MET,PMB,DIB,PICT,TIFF," ++
  bs "PDF,PS,JPEG,QTIME,MPEG,MPEG2,AVI,WAVE,AIFF,PCM,X509,PGP".

Definition E_VCARD_30_VALID_PROPERTIES : text :=
  bs "NAME,PROFILE,SOURCE,FN,N,NICKNAME,PHOTO,BDAY,ADR,LABEL,TEL,EMAIL,MAILER,TZ,GEO," ++
  bs "TITLE,ROLE,LOGO,AGENT,ORG,CATEGORIES,NOTE,PRODID,REV,SORT-STRING," ++
  bs "SOUND,UID,URL,VERSION,CLASS,KEY," ++
  bs "FBURL,CAPURI,CALURI".

Definition E_VCARD_30_VALID_PARAMETERS : text :=
  bs "VALUE,CONTEXT,TYPE,PREF,ENCODING,LANGUAGE," ++
  bs "HOME,WORK,PREF,VOICE,FAX,MSG,CELL,PAGER,BBS,MODEM,CAR,ISDN,VIDEO,PCS," ++
  bs "INTERNET,X400," ++
  bs "X509,PGP," ++
  bs "DOM,INTL,POSTAL,PARCEL,HOME,WORK,PREF".

Definition E_VCARD_40_VALID_PROPERTIES : text :=
  bs "SOURCE,KIND,XML,FN,N,NICKNAME,PHOTO,BDAY,ANNIVERSARY,GENDER,ADR,TEL,EMAIL,IMPP," ++
  bs "LANG,TZ,GEO,TITLE,ROLE,LOGO,ORG,MEMBER,RELATED,CATEGORIES,NOTE,PRODID,REV," ++
  bs "SOUND,UID,CLIENTPIDMAP,URL,VERSION,KEY,FBURL,CALADRURI,CALURI," ++
  bs "BIRTHPLACE,DEATHPLACE,DEATHDATE," ++
  bs "EXPERTISE,HOBBY,INTEREST,ORG-DIRECTORY," ++
  bs "CONTACT-URI," ++
  bs "CREATED,LANGUAGE,GRAMGENDER,PRONOUNS,SOCIALPROFILE," ++
  bs "JSPROP".

Definition E_VCARD_40_VALID_PARAMETERS : text :=
  bs "LANGUAGE,VALUE,PREF,ALTID,PID,TYPE,MEDIATYPE,CALSCALE,SORT-AS,GEO,TZ," ++
  bs "WORK,HOME,TEXT,VOICE,FAX,CELL,VIDEO,PAGER,TEXTPHONE,GREGORIAN,CONTACT," ++
  bs "ACQUAINTANCE,FRIEND,MET,CO-WORKER,COLLEAGUE,CO-RESIDENT,NEIGHBOR,CHILD," ++
  bs "PARENT,SIBLING,SPOUSE,KIN,MUSE,CRUSH,DATE,SWEETHEART,ME,AGENT,EMERGENCY," ++
  bs "INDEX,LEVEL,BEGINNER,AVERAGE,EXPERT,HIGH,MEDIUM,LOW," ++
  bs "AUTHOR,AUTHOR-NAME,CREATED,DERIVED,LABEL,PHONETIC,PROP-ID,SCRIPT,SERVICE-TYPE,USERNAME," ++
  bs "ANIMATE,COMMON,FEMININE,INANIMATE,MASCULINE,NEUTER," ++
  bs "IPA,PINY,JYUT,SCRIPT,BILLING,DELIVERY".

(** [g_strsplit] at the commas. *)
Fixpoint split_words (words word : text) : list text :=
  match words with
  | [] => [word]
  | c :: r => if c =? ch "," then word :: split_words r [] else split_words r (word ++ [c])
  end.

(** The keys of the table of [generate_dict_validator], and the test of a name
    against them. *)
Definition generate_dict_validator (words : option text) : option (list text) :=
  match words with
  | Some [] => Some []
  | Some words => Some (split_words words [])
  | None => None
  end.
Definition dict_contains (dict : list text) (name : text) : bool :=
  existsb (fun w => camel_strcase_equal w name) dict.

Definition is_x_name (name : text) : bool := strncase_prefix name (bs "X-").

(** No table is no restriction. *)
Definition valid_name (dict : option (list text)) (name : text) : bool :=
  match dict with Some dict => is_x_name name || dict_contains dict name | None => true end.

Section Writer.

(** GLib: the characters of a text in UTF-8. *)
Context (g_utf8_validate : text -> option nat).
Context (g_convert : text -> text -> option text).
Context (g_utf8_strlen : text -> nat).
Context (g_utf8_offset_to_pointer : text -> nat -> text).
Context (g_utf8_get_char : text -> Z).
Context (g_utf8_next_char : text -> text).
Context (g_unichar_isalnum : Z -> bool).

(** ** Lines *)

(** The loop that folds a line; [len] is the number of characters from [pos2]
    on. *)
Fixpoint fold_loop (fuel : nat) (pos1 pos2 : text) (len : nat) : text :=
  match fuel with
  | O => pos1
  | S fuel =>
      take (length pos1 - length pos2) pos1 ++ CRLF ++ [32] ++
      (if Nat.leb len 74 then pos2
       else fold_loop fuel pos2 (g_utf8_offset_to_pointer pos2 74) (len - 74))
  end.

Definition fold_line (attr_str : text) : text :=
  let len := g_utf8_strlen attr_str in
  if Nat.ltb 75 len
  then fold_loop len attr_str (g_utf8_offset_to_pointer attr_str 75) (len - 75)
  else attr_str.

(** ** Parameters *)

(** Whether a value has a character that is no letter and no digit. *)
Fixpoint needs_quotes (fuel : nat) (pval : text) : bool :=
  match fuel with
  | O => false
  | S fuel =>
      match pval with
      | [] => false
      | _ => if negb (g_unichar_isalnum (g_utf8_get_char pval)) then true
             else needs_quotes fuel (g_utf8_next_char pval)
      end
  end.

Definition param_value_string (value : text) : text :=
  if needs_quotes (length value) value
  then [34] ++ e_vcard_escape_string_internal value true ++ [34]
  else value.

(** The loop over values with a separator in between. *)
Fixpoint join (sep : text) (l : list text) : text :=
  match l with
  | [] => []
  | [x] => x
  | x :: r => x ++ sep ++ join sep r
  end.

Definition param_string (p : EVCardAttributeParam) : text :=
  [ch ";"] ++ param_name p ++
  match param_values p with
  | [] => []
  | vs => [61] ++ join [ch ","] (map param_value_string vs)
  end.

Definition is_qp_param (p : EVCardAttributeParam) : bool :=
  match param_values p with
  | [v] => strcase_eqb (param_name p) (bs "ENCODING") && strcase_eqb v (bs "quoted-printable")
  | _ => false
  end.

(** The loop over the parameters: the first quoted-printable encoding is not
    written. *)
Fixpoint params_string (evc_params : option (list text)) (qp : option EVCardAttributeParam)
    (l : list EVCardAttributeParam) : text * option EVCardAttributeParam :=
  match l with
  | [] => ([], qp)
  | p :: l =>
      match qp with
      | None =>
          if is_qp_param p then params_string evc_params (Some p) l
          else if negb (valid_name evc_params (param_name p)) then params_string evc_params qp l
          else let '(s, qp) := params_string evc_params qp l in (param_string p ++ s, qp)
      | Some _ =>
          if negb (valid_name evc_params (param_name p)) then params_string evc_params qp l
          else let '(s, qp) := params_string evc_params qp l in (param_string p ++ s, qp)
      end
  end.

(** ** Attributes *)

Definition group_string (attr : EVCardAttribute) : text :=
  match attr_group attr with Some g => g ++ [ch "."] | None => [] end ++ attr_name attr.

Definition value_separator (attr : EVCardAttribute) : text :=
  [if strcase_eqb (attr_name attr) EVC_CATEGORIES then ch "," else ch ";"].

(** One turn of the loop over the attributes: the line, and the attribute with
    its values decoded. *)
Definition attribute_string (evc_params : option (list text)) (attr : EVCardAttribute)
    : text * EVCardAttribute :=
  let '(params, quoted_printable_param) := params_string evc_params None (attr_params attr) in
  let values :=
    match quoted_printable_param with
    | Some _ => map e_vcard_qp_decode (attr_values attr)
    | None => attr_values attr
    end in
  let attr_str := group_string attr ++ params ++ [ch ":"] ++
                  join (value_separator attr) (map e_vcard_escape_string values) in
  let attr := with_values attr values (attr_decoded_values attr) in
  (fold_line attr_str ++ CRLF,
   match quoted_printable_param with
   | Some p => e_vcard_attribute_remove_param attr (param_name p)
   | None => attr
   end).

Fixpoint attributes_string (evc_prop evc_params : option (list text)) (l : list EVCardAttribute)
    : text * list EVCardAttribute :=
  match l with
  | [] => ([], [])
  | attr :: l =>
      if named attr (bs "VERSION") || negb (valid_name evc_prop (attr_name attr)) then
        let '(s, l) := attributes_string evc_prop evc_params l in (s, attr :: l)
      else
        let '(line, attr) := attribute_string evc_params attr in
        let '(s, l) := attributes_string evc_prop evc_params l in
        (line ++ s, attr :: l)
  end.

Definition e_vcard_to_string_vcard (evc : EVCard) (to_version : EVCardVersion)
    (valid_properties valid_parameters : option text) : read (text * EVCard) :=
  let evc_prop := generate_dict_validator valid_properties in
  let evc_params := generate_dict_validator valid_parameters in
  evc ← e_vcard_ensure_attributes g_utf8_validate g_convert evc;
  let '(s, l) := attributes_string evc_prop evc_params (attributes evc) in
  mret (bs "BEGIN:VCARD" ++ CRLF ++ bs "VERSION:" ++ e_vcard_version_to_string to_version ++ CRLF ++
        s ++ bs "END:VCARD", with_attributes evc l).

(** ** Version 2.1 *)

Definition param_21 (p : EVCardAttributeParam) : text :=
  [ch ";"] ++ param_name p ++
  join (ch ";" :: param_name p) (map (fun v => 61 :: e_vcard_escape_semicolons v) (param_values p)).

Definition line_21 (attr : EVCardAttribute) (encode : bool) : text :=
  let evc_params := generate_dict_validator (Some E_VCARD_21_VALID_PARAMETERS) in
  group_string attr ++
  concat (map param_21 (List.filter (fun p => valid_name evc_params (param_name p)) (attr_params attr))) ++
  (if encode then bs ";ENCODING=QUOTED-PRINTABLE" else []) ++ [ch ":"] ++
  join [ch ";"] (map (fun v => if encode then e_vcard_qp_encode v true else v) (attr_values attr)) ++ CRLF.

Definition attribute_string_21 (attr : EVCardAttribute) : text :=
  let evc_prop := generate_dict_validator (Some E_VCARD_21_VALID_PROPERTIES) in
  if named attr (bs "VERSION") || negb (valid_name evc_prop (attr_name attr)) then []
  else if forallb (fun v => match v with [] => true | _ => false end) (attr_values attr) then []
  else line_21 attr (existsb (existsb (Z.eqb 10)) (attr_values attr)).

Definition e_vcard_to_string_vcard_21 (evc : EVCard) : read (text * EVCard) :=
  evc ← e_vcard_ensure_attributes g_utf8_validate g_convert evc;
  mret (bs "BEGIN:VCARD" ++ CRLF ++ bs "VERSION:2.1" ++ CRLF ++
        concat (map attribute_string_21 (attributes evc)) ++ bs "END:VCARD", evc).

End Writer.
