(* ===== verification/VCardParseSpec.v ===== *)
(** The vCard parser ends for every text, stays inside the text unless it ends
    with an escape, and gives well-formed attributes. *)
From Stdlib Require Import ZArith Lia Ascii.
From stdpp Require Import base list option strings.
From S2P Require Import Prelude StringUtils Utf8 VCard VCardParse.
Local Open Scope Z_scope.

(** ** Pointers move forward *)

Lemma tl_suffix (l : text) : tl l `suffix_of` l.
Proof. destruct l as [|c l]; [done|]. by exists [c]. Qed.

Lemma skip_newline_suffix p qp : skip_newline p qp `suffix_of` p.
Proof.
  unfold skip_newline. repeat case_match; repeat (first [done | etrans; [apply tl_suffix|]]).
Qed.

Lemma skip_line_suffix p : skip_line p `suffix_of` p.
Proof. induction p as [|c p IH]; simpl; [done|]. case_match; [done|]. by apply suffix_cons_r. Qed.
Lemma skip_endline_suffix p : skip_endline p `suffix_of` p.
Proof. induction p as [|c p IH]; simpl; [done|]. case_match; [|done]. by apply suffix_cons_r. Qed.
Lemma skip_to_next_line_suffix p : skip_to_next_line p `suffix_of` p.
Proof. etrans; [apply skip_endline_suffix|apply skip_line_suffix]. Qed.
Lemma skip_until_suffix p s : skip_until p s `suffix_of` p.
Proof. induction p as [|c p IH]; simpl; [done|]. repeat case_match; try done. by apply suffix_cons_r. Qed.

#[export] Hint Resolve skip_newline_suffix skip_to_next_line_suffix skip_until_suffix : eds.

Lemma skip_to_next_line_shorter p : deref p <> 0 -> (length (skip_to_next_line p) < length p)%nat.
Proof.
  destruct p as [|c p]; [done|]. cbn [deref]. intros N.
  unfold skip_to_next_line. cbn [skip_line]. destruct (is_end c) eqn:E.
  - unfold is_end in E. cbn [skip_endline]. destruct (is_nl c); [|zb; lia].
    pose proof (suffix_length _ _ (skip_endline_suffix p)). cbn. lia.
  - pose proof (suffix_length _ _ (skip_to_next_line_suffix p)). unfold skip_to_next_line in *. cbn. lia.
Qed.

Lemma skip_until_shorter c p s : (c =? 13) || (c =? 0) = false -> existsb (Z.eqb c) s = false ->
  (length (skip_until (c :: p) s) <= length p)%nat.
Proof. intros E1 E2. cbn. rewrite E1, E2. apply suffix_length, skip_until_suffix. Qed.

(** ** The end of the text *)

Definition bad_end (c : Z) : bool := existsb (Z.eqb c) [61; 92; 32; 9].

(** The last byte that is no line end is not an equals sign, a backslash or
    white space. *)
Definition ends_well (s : text) : bool :=
  match skip_endline (reverse s) with [] => true | c :: _ => negb (bad_end c) end.

(** There is such a byte. *)
Definition live (s : text) : Prop :=
  exists pre c nls, s = pre ++ c :: nls /\ bad_end c = false /\ is_nl c = false.

Lemma live_not_nil s : live s -> s <> [].
Proof. intros (pre & c & nls & -> & _). by destruct pre. Qed.

Lemma live_tl s : live s -> bad_end (deref s) = true \/ is_nl (deref s) = true -> live (tl s).
Proof.
  intros (pre & c & nls & -> & B & N) H. destruct pre as [|x pre].
  - cbn [app deref] in H. destruct H; congruence.
  - by exists pre, c, nls.
Qed.

Lemma blank_bad c : is_blank c = true -> bad_end c = true.
Proof. unfold is_blank, bad_end. cbn. intros H. zb; lia. Qed.

Lemma live_skip_newline s qp : live s -> live (skip_newline s qp).
Proof.
  intros L. unfold skip_newline.
  repeat case_match; repeat match goal with
  | H : _ && _ = true |- _ => apply andb_prop in H as [? ?]
  | H : is_blank _ = true |- _ => apply blank_bad in H
  end; auto 10 using live_tl.
  all: repeat (first [assumption | apply live_tl]); auto.
  all: left; match goal with H : (deref ?s =? 61) = true |- _ => apply Z.eqb_eq in H; by rewrite H end.
Qed.

(** After an equals sign or a backslash there is something left. *)
Lemma skip_endline_spec s : exists nls, s = nls ++ skip_endline s /\ Forall (fun c => is_nl c = true) nls.
Proof.
  induction s as [|c s (nls & E & F)]; [by exists []|]. cbn. case_match; [|by exists []].
  exists (c :: nls). split; [by rewrite E at 1|by constructor].
Qed.
Lemma skip_endline_head s c r : skip_endline s = c :: r -> is_nl c = false.
Proof. induction s as [|x s IH]; [done|]. cbn. case_match eqn:E; [done|]. by intros [= -> ->]. Qed.

Lemma escape_live T k c r : ends_well T = true -> T = k ++ c :: r -> bad_end c = true -> live r.
Proof.
  intros W -> B. unfold ends_well in W.
  destruct (skip_endline_spec (reverse (k ++ c :: r))) as (nls & E & F).
  assert (Nc : is_nl c = false) by (unfold bad_end, is_nl in *; cbn in B; zb; lia).
  destruct (skip_endline (reverse (k ++ c :: r))) as [|x y] eqn:S.
  - rewrite app_nil_r in E. rewrite <- E, reverse_app, reverse_cons in F.
    rewrite !list.Forall_app, list.Forall_singleton in F. naive_solver congruence.
  - apply (f_equal reverse) in E. rewrite reverse_involutive, reverse_app, reverse_cons, <- app_assoc in E. cbn [app] in E.
    pose proof (skip_endline_head _ _ _ S) as Nx.
    assert (Bx : bad_end x = false) by (by destruct (bad_end x)).
    assert (L : live (k ++ c :: r)) by (exists (reverse y), x, (reverse nls); done).
    assert (Fn : Forall (fun z => is_nl z = true) (reverse nls)) by (by apply Forall_reverse).
    apply app_eq_inv in E as [(m & E1 & E2)|(m & E1 & E2)].
    + destruct m as [|z m]; cbn [app] in E2; [injection E2; intros; congruence|].
      assert (E3 : reverse nls = m ++ c :: r) by (by injection E2).
      rewrite E3, list.Forall_app, list.Forall_cons in Fn. naive_solver congruence.
    + destruct m as [|z m]; cbn [app] in E2; [injection E2; intros; congruence|].
      assert (E3 : r = m ++ x :: reverse nls) by (by injection E2). by exists m, x, (reverse nls).
Qed.

(** ** What the reader returns *)

Definition param_ok (p : EVCardAttributeParam) : Prop :=
  param_name p <> [] /\ param_values p <> [] /\ Forall (fun v => v <> []) (param_values p).

Definition param_key (p : EVCardAttributeParam) : text := map tolower (param_name p).

(** An attribute has a name, and its parameters have values and different
    names. *)
Definition attr_ok (a : EVCardAttribute) : Prop :=
  attr_name a <> [] /\ Forall param_ok (attr_params a) /\ NoDup (map param_key (attr_params a)).

Definition read_ok (a : EVCardAttribute) : Prop := attr_ok a /\ attr_values a <> [].

Lemma strcase_key a b : strcase_eqb a b = true <-> map tolower a = map tolower b.
Proof. unfold strcase_eqb. apply bytes_eqb_eq. Qed.

Lemma merge_value_ok p v : v <> [] -> param_ok p -> param_ok (merge_value p v).
Proof.
  intros V (N & M & F). unfold merge_value. case_match; [done|]. split_and!; cbn; [done| |].
  - by destruct (param_values p).
  - apply list.Forall_app; auto.
Qed.
Lemma merge_values_ok vs p : Forall (fun v => v <> []) vs -> param_ok p ->
  param_ok (fold_left merge_value vs p) /\ param_name (fold_left merge_value vs p) = param_name p.
Proof.
  intros F. revert p. induction F as [|v vs V F IH]; intros p O; [done|]. cbn.
  destruct (IH (merge_value p v)) as [A B]; [by apply merge_value_ok|]. split; [done|].
  rewrite B. unfold merge_value. by case_match.
Qed.

Lemma merge_param_ok ps p : param_ok p -> Forall param_ok ps ->
  match merge_param ps p with
  | Some ps' => Forall param_ok ps' /\ map param_key ps' = map param_key ps
  | None => ~ In (param_key p) (map param_key ps)
  end.
Proof.
  intros O. induction ps as [|q ps IH]; intros F; [cbn; tauto|]. apply list.Forall_cons in F as [Oq F].
  cbn [merge_param]. destruct (strcase_eqb (param_name q) (param_name p)) eqn:E.
  - destruct (merge_values_ok (param_values p) q) as [A B]; [apply O|done|].
    split; [by constructor|]. cbn [map]. f_equal. unfold param_key. by rewrite B.
  - specialize (IH F). destruct (merge_param ps p) as [ps'|].
    + destruct IH as [A B]. split; [by constructor|]. cbn. by rewrite B.
    + cbn. intros [K|K]; [|done]. apply strcase_key in K. congruence.
Qed.

Lemma encoding_of_params a p : attr_params (encoding_of a p) = attr_params a /\
  attr_name (encoding_of a p) = attr_name a /\ attr_values (encoding_of a p) = attr_values a /\
  attr_group (encoding_of a p) = attr_group a.
Proof. unfold encoding_of. repeat case_match; done. Qed.

Lemma add_param_ok a p : attr_ok a -> param_ok p -> attr_ok (e_vcard_attribute_add_param a p).
Proof.
  intros (N & F & D) O. unfold e_vcard_attribute_add_param.
  pose proof (merge_param_ok _ p O F) as M.
  destruct (merge_param (attr_params a) p) as [ps|]; unfold attr_ok;
    match goal with |- context [encoding_of ?x p] =>
      destruct (encoding_of_params x p) as (-> & -> & _) end; cbn.
  - destruct M as [M ->]. done.
  - split_and!; [done|by constructor|]. constructor; [|done]. by rewrite list_elem_of_In.
Qed.

Section Parser.
Context (g_utf8_validate : text -> option nat).
Context (g_convert : text -> text -> option text).

Notation make_valid := (make_utf8_valid g_utf8_validate).

Lemma make_valid_loop_grows fuel r s : s <> [] ->
  exists s', fst (make_valid_loop g_utf8_validate fuel r (Some s)) = Some s' /\ s' <> [].
Proof.
  revert r s. induction fuel as [|fuel IH]; intros r s N; [by exists s|].
  destruct r as [|c r]; [by exists s|]. cbn [make_valid_loop].
  destruct (g_utf8_validate (c :: r)); [|by exists s]. apply IH. by destruct s.
Qed.

Lemma make_utf8_valid_not_nil s : s <> [] -> make_valid s <> [].
Proof.
  intros N. unfold make_utf8_valid. destruct s as [|c s]; [done|].
  cbn [length make_valid_loop]. destruct (g_utf8_validate (c :: s)) as [k|]; [|done].
  match goal with |- context [make_valid_loop _ ?f ?r (Some ?x)] =>
    destruct (make_valid_loop_grows f r x) as (s' & E & N');
      [|destruct (make_valid_loop _ f r (Some x)) as [o rest]] end.
  - intros [_ K]%app_eq_nil. by apply app_eq_nil in K as [_ K].
  - cbn in E. subst o. by destruct s'.
Qed.

(** ** Ends *)

Section Ends.
Context (T : text).

(** The run gives a result with [Q], and reads behind the text only when the
    text does not end well. *)
Definition ends {A} (r : read A) (Q : A -> Prop) : Prop :=
  match r with Got a => Q a | Overrun => ends_well T = false | OutOfFuel => False end.

Lemma vc_ends_bind {A B} (r : read A) (f : A -> read B) Q R :
  ends r Q -> (forall a, Q a -> ends (f a) R) -> ends (r ≫= f) R.
Proof. destruct r; cbn; auto. Qed.
Lemma ends_mono {A} (r : read A) (Q R : A -> Prop) : ends r Q -> (forall a, Q a -> R a) -> ends r R.
Proof. destruct r; cbn; auto. Qed.

Lemma ends_advance lp (Q : text -> Prop) : lp <> [] -> (forall c r, lp = c :: r -> Q r) -> ends (advance lp) Q.
Proof. destruct lp; [done|]. cbn. eauto. Qed.

Lemma not_end_cons lp : is_end (deref lp) = false -> exists c r, lp = c :: r.
Proof. destruct lp as [|c r]; [done|eauto]. Qed.

(** Behind an escape character and a fold there is a byte. *)
Lemma ends_escape c r qp (Q : text -> Prop) : (c :: r) `suffix_of` T -> bad_end c = true ->
  (forall d r', skip_newline r qp = d :: r' -> Q r') -> ends (advance (skip_newline r qp)) Q.
Proof.
  intros [k E] B H. destruct (skip_newline r qp) as [|d r'] eqn:S; [|by apply (H d)].
  cbn. apply not_true_iff_false. intros W.
  assert (L : live r) by (eapply escape_live; eauto).
  apply (live_skip_newline _ qp) in L. by apply live_not_nil in L.
Qed.

(** ** Values *)

Definition same_head (a a' : EVCardAttribute) : Prop :=
  attr_name a' = attr_name a /\ attr_params a' = attr_params a.

Lemma add_read_value_head charset a s : same_head a (add_read_value g_utf8_validate g_convert charset a s).
Proof. done. Qed.

Lemma suffix_tail c (r lp : text) : (c :: r) `suffix_of` lp -> r `suffix_of` lp /\ (length r < length lp)%nat.
Proof.
  intros S. split; [etrans; [|exact S]; by apply suffix_cons_r|].
  apply suffix_length in S. cbn in S. lia.
Qed.

Lemma value_loop_ends qp charset fuel : forall lp str chunk attr,
  lp `suffix_of` T -> (length lp < fuel)%nat ->
  ends (value_loop g_utf8_validate g_convert qp charset fuel lp str chunk attr)
    (fun '(lp', _, _, a') => lp' `suffix_of` lp /\ same_head attr a').
Proof.
  induction fuel as [|fuel IH]; intros lp str chunk attr S L; [lia|]. cbn [value_loop].
  pose proof (skip_newline_suffix lp qp) as S1.
  destruct (is_end (deref (skip_newline lp qp))) eqn:En; [done|].
  apply not_end_cons in En as (c & r & E). rewrite E in *. cbn [deref].
  assert (ST : (c :: r) `suffix_of` T) by by etrans.
  destruct (suffix_tail _ _ _ S1) as [S2 L2].
  assert (IH' : forall lp2 str chunk attr', lp2 `suffix_of` r -> same_head attr attr' ->
    ends (value_loop g_utf8_validate g_convert qp charset fuel lp2 str chunk attr')
      (fun '(lp', _, _, a') => lp' `suffix_of` lp /\ same_head attr a')).
  { intros lp2 str2 chunk2 attr' Sf H. eapply ends_mono; [apply IH|].
    - etrans; [exact Sf|]. by etrans.
    - apply suffix_length in Sf. lia.
    - intros [[[lp' ?] ?] a'] [Q1 [Q2 Q3]]. split; [etrans; [done|]; by etrans|].
      destruct H. split; congruence. }
  destruct ((c =? 61) && qp) eqn:C1; [|destruct (c =? 92) eqn:C2].
  - cbn [advance mbind read_bind]. apply andb_prop in C1 as [->%Z.eqb_eq _].
    eapply vc_ends_bind; [apply (ends_escape 61 r qp (fun r' => r' `suffix_of` r)); [done|done|]|].
    { intros d r' E'. pose proof (skip_newline_suffix r qp) as S'. rewrite E' in S'. by apply suffix_tail in S' as [? _]. }
    intros r' Sr'. pose proof (skip_newline_suffix r' qp) as S3.
    assert (S4 : skip_newline r' qp `suffix_of` r) by by etrans.
    destruct (skip_newline r' qp) as [|b r2] eqn:E3; [cbn; split; [by apply suffix_nil|done]|].
    cbn [deref]. destruct (b =? 0); [cbn; split; [by etrans|done]|].
    cbn [advance mbind read_bind]. apply IH'; [by apply suffix_tail in S4 as [? _]|done].
  - cbn [advance mbind read_bind]. apply Z.eqb_eq in C2 as ->.
    destruct (deref r =? 0); [done|].
    destruct (match value_escape _ with Some _ => _ | None => _ end) as [str2 chunk2].
    eapply vc_ends_bind; [apply (ends_escape 92 r qp (fun r' => r' `suffix_of` r)); [done|done|]|].
    { intros d r' E'. pose proof (skip_newline_suffix r qp) as S'. rewrite E' in S'. by apply suffix_tail in S' as [? _]. }
    intros r' Sr'. destruct (flush str2 chunk2 r'). by apply IH'.
  - case_match; cbn [advance mbind read_bind].
    + apply IH'; [done|apply add_read_value_head].
    + destruct (flush _ _ _). by apply IH'.
Qed.

Lemma read_attribute_value_ends qp charset attr p : p `suffix_of` T ->
  ends (read_attribute_value g_utf8_validate g_convert qp charset attr p)
    (fun '(a', lp) => lp `suffix_of` p /\ same_head attr a' /\ attr_values a' <> []).
Proof.
  intros S. unfold read_attribute_value. eapply vc_ends_bind; [by apply value_loop_ends; [|lia]|].
  intros [[[lp str] chunk] a'] [S1 H]. cbn. split_and!; [|done|].
  - etrans; [apply skip_to_next_line_suffix|done].
  - by destruct (attr_values a').
Qed.

(** ** Parameters *)

Definition param_begun (p : EVCardAttributeParam) : Prop :=
  param_name p <> [] /\ Forall (fun v => v <> []) (param_values p).

Definition params_inv (s : params_state) : Prop :=
  attr_ok (ps_attr s) /\ (forall p, ps_param s = Some p -> param_begun p).
Definition params_done (s : params_state) : Prop :=
  attr_ok (ps_attr s) /\ (forall p, ps_param s = Some p -> param_ok p).

Lemma params_done_inv s : params_done s -> params_inv s.
Proof. intros [A P]. split; [done|]. intros p E. by destruct (P p E) as (? & ? & ?). Qed.

Lemma special_param_done s : params_done s -> params_done (special_param s).
Proof.
  intros [A P]. unfold special_param. destruct (ps_param s) as [p|] eqn:E; [|split; [done|congruence]].
  repeat case_match; split; cbn; try done. rewrite E. auto.
Qed.

Lemma add_param_value_ok p v : param_begun p -> v <> [] -> param_ok (e_vcard_attribute_param_add_value p v).
Proof.
  intros [N F] V. split_and!; cbn; [done| |by apply list.Forall_app; auto].
  intros [_ K]%app_eq_nil. done.
Qed.

Lemma take_param_value_done s : params_inv s -> params_done (take_param_value g_utf8_validate s).
Proof.
  intros [A P]. unfold take_param_value. destruct (ps_param s) as [p|] eqn:E.
  - apply special_param_done. specialize (P p eq_refl).
    destruct (ps_str s) as [|c str].
    + destruct (param_values p) eqn:V; split; cbn; [done|done|done|]. rewrite E. intros q [= <-].
      split_and!; [apply P|by rewrite V|apply P].
    + split; cbn; [done|]. intros q [= <-]. apply add_param_value_ok; [done|by apply make_utf8_valid_not_nil].
  - destruct (ps_str s) as [|c str] eqn:Es; [split; [done|rewrite E; done]|].
    destruct (strcase_eqb (c :: str) (bs "quoted-printable"));
      [|destruct (strcase_eqb (c :: str) (bs "base64"))];
      (split; cbn; [done|]; intros q [= <-]; apply add_param_value_ok;
       [by split; [|constructor]|by apply make_utf8_valid_not_nil]).
Qed.

Lemma finish_param_inv s : params_done s -> params_inv (finish_param s).
Proof.
  intros D. unfold finish_param. destruct (ps_param s) as [p|] eqn:E; [|by apply params_done_inv].
  destruct D as [A P]. split; cbn; [|done]. apply add_param_ok; auto.
Qed.

Lemma params_loop_ends fuel : forall lp s, lp `suffix_of` T -> (length lp < fuel)%nat -> params_inv s ->
  ends (params_loop g_utf8_validate fuel lp s) (fun '(lp', s') => lp' `suffix_of` lp /\ params_inv s').
Proof.
  induction fuel as [|fuel IH]; intros lp s S L I; [lia|]. cbn [params_loop].
  pose proof (skip_newline_suffix lp (ps_qp s)) as S1.
  destruct (is_end (deref (skip_newline lp (ps_qp s)))) eqn:En; [done|].
  destruct (not_end_cons _ En) as (c & r & E). rewrite E in *. cbn [deref] in *.
  destruct (suffix_tail _ _ _ S1) as [S2 L2].
  assert (IH' : forall lp2 s2, lp2 `suffix_of` r -> params_inv s2 ->
    ends (params_loop g_utf8_validate fuel lp2 s2) (fun '(lp', s') => lp' `suffix_of` lp /\ params_inv s')).
  { intros lp2 s2 Sf H. pose proof (suffix_length _ _ Sf).
    eapply ends_mono; [apply IH; [etrans; [exact Sf|]; by etrans|lia|done]|].
    intros [lp' s'] [Q1 Q2]. split; [etrans; [done|]; by etrans|done]. }
  destruct (c =? 34); [by apply IH'|].
  destruct (ps_in_quote s || is_name_char c).
  { apply (vc_ends_bind _ _ (fun '(lp3, str) => lp3 `suffix_of` r \/ lp3 = c :: r)).
    - case_match; cbn; [|by right]. left. apply skip_newline_suffix.
    - intros [lp3 str] H3. apply (vc_ends_bind _ _ (fun lp4 => lp4 `suffix_of` r)).
      + destruct (deref lp3 =? 0) eqn:Z0; cbn.
        * destruct H3 as [|H3]; [done|]. subst lp3. cbn in Z0. unfold is_end in En. zb; lia.
        * destruct lp3 as [|x lp3]; [done|]. cbn. destruct H3 as [H3|[= -> ->]]; [by apply suffix_tail in H3 as [? _]|done].
      + intros lp4 H4. by apply IH'. }
  destruct (c =? 61) eqn:C61.
  { apply Z.eqb_eq in C61 as ->. cbn [ps_str set_str].
    destruct (write_chunk (ps_str s) (ps_chunk s) (61 :: r)) as [|x str].
    - assert (Su : skip_until (61 :: r) (bs ":;") `suffix_of` r) by (cbn; apply skip_until_suffix).
      destruct (skip_until (61 :: r) (bs ":;")) as [|x y]; [cbn; split; [by etrans; [|done]|done]|].
      cbn [deref]. destruct (x =? ch ";"); [|destruct (x =? ch ":")].
      + cbn [advance mbind read_bind]. apply IH'; [by apply suffix_tail in Su as [? _]|done].
      + by apply IH'.
      + cbn [ends]. split; [|done]. etrans; [apply skip_to_next_line_suffix|]. by etrans.
    - cbn [advance mbind read_bind]. apply IH'; [done|]. split; [apply I|]. cbn. intros q [= <-].
      split; [by apply make_utf8_valid_not_nil|constructor]. }
  destruct ((c =? ch ";") || (c =? ch ":") || (c =? ch ",")) eqn:Sep.
  { clear Sep. assert (D : params_done (take_param_value g_utf8_validate
        (set_str s (write_chunk (ps_str s) (ps_chunk s) (c :: r)) None))) by by apply take_param_value_done.
    destruct (c =? ch ":") eqn:Cc.
    - apply Z.eqb_eq in Cc as ->. cbn. split; [done|by apply finish_param_inv].
    - cbn [advance mbind read_bind mret read_ret]. apply IH'; [done|].
      destruct (c =? ch ","); [by apply params_done_inv|by apply finish_param_inv]. }
  destruct (ps_param s) as [p|] eqn:Ep.
  - cbn [advance mbind read_bind]. apply IH'; [done|].
    unfold flush_params. cbn. destruct (flush _ _ _). split; [apply I|]. cbn. rewrite Ep.
    intros q [= <-]. by apply I.
  - apply IH'; [|by split; [apply I|]; cbn; rewrite Ep].
    assert (E1 : (c =? 13) || (c =? 0) = false) by (unfold is_end, is_nl in En; zb; lia).
    assert (E2 : existsb (Z.eqb c) (bs ":;") = false) by (cbn in Sep |- *; zb; lia).
    cbn [skip_until]. rewrite E1, E2. apply skip_until_suffix.
Qed.

(** ** Attributes *)

Lemma name_loop_ends fuel : forall lp str group, lp `suffix_of` T -> (length lp < fuel)%nat ->
  ends (name_loop g_utf8_validate fuel lp str group)
    (fun r => match r with
              | NameRead _ name lp' => lp' `suffix_of` lp /\ name <> [] /\ (str = [] -> (length lp' < length lp)%nat)
              | NameLost lp' => lp' `suffix_of` lp /\ deref lp' <> 0
              | NameEnd => True
              end).
Proof.
  induction fuel as [|fuel IH]; intros lp str group S L; [lia|]. cbn [name_loop].
  pose proof (skip_newline_suffix lp false) as S1.
  destruct (is_end (deref (skip_newline lp false))) eqn:En; [done|].
  destruct (not_end_cons _ En) as (c & r & E). rewrite E in *. cbn [deref] in *.
  assert (N0 : c <> 0) by (unfold is_end in En; zb; lia).
  destruct (suffix_tail _ _ _ S1) as [S2 L2].
  assert (IH' : forall str2 group, ends (name_loop g_utf8_validate fuel r str2 group)
    (fun r => match r with
              | NameRead _ name lp' => lp' `suffix_of` lp /\ name <> [] /\ (str = [] -> (length lp' < length lp)%nat)
              | NameLost lp' => lp' `suffix_of` lp /\ deref lp' <> 0
              | NameEnd => True
              end)).
  { intros str2 group2. eapply ends_mono; [apply (IH r); [by etrans|lia]|].
    intros [g n lp'|lp'|]; [intros (Q1 & Q2 & Q3)|intros [Q1 Q2]|done].
    - split_and!; [by etrans|done|]. apply suffix_length in Q1. lia.
    - split; [by etrans|done]. }
  destruct ((c =? ch ":") || (c =? ch ";")).
  { destruct str as [|x str]; cbn [ends]; [done|]. split_and!; [done|by apply make_utf8_valid_not_nil|done]. }
  destruct (c =? ch ".").
  { cbn [advance mbind read_bind]. case_match; apply IH'. }
  destruct (is_name_char c); [|done]. cbn [advance mbind read_bind]. apply IH'.
Qed.

Lemma with_encoding_ok a e b : attr_ok a -> attr_ok (with_encoding a e b).
Proof. done. Qed.

Lemma same_head_ok a a' : same_head a a' -> attr_ok a -> attr_ok a'.
Proof. intros [E1 E2]. unfold attr_ok. by rewrite E1, E2. Qed.

Lemma read_params_ends a p : p `suffix_of` T -> attr_ok a ->
  ends (read_attribute_params g_utf8_validate a p) (fun '(a', lp, _, _) => lp `suffix_of` p /\ attr_ok a').
Proof.
  intros S O. unfold read_attribute_params.
  eapply vc_ends_bind; [apply params_loop_ends; [done|lia|by split]|].
  intros [lp s] [Q1 [Q2 _]]. done.
Qed.

Lemma read_attribute_ends p : p `suffix_of` T -> 
  ends (read_attribute g_utf8_validate g_convert p)
    (fun '(attr, lp) => lp `suffix_of` p /\ (deref p <> 0 -> (length lp < length p)%nat) /\
       (forall a, attr = Some a -> read_ok a)).
Proof.
  intros S. unfold read_attribute. eapply vc_ends_bind; [by apply name_loop_ends; [|lia]|].
  intros [group name lp|lp|]; cbn beta.
  2:{ intros [Q1 Q2]. cbn [mret read_ret ends]. pose proof (skip_to_next_line_suffix lp).
      pose proof (skip_to_next_line_shorter lp Q2). apply suffix_length in Q1 as ?.
      split_and!; [by etrans|lia|done]. }
  2:{ intros _. cbn [mret read_ret ends]. split_and!; [apply skip_to_next_line_suffix|apply skip_to_next_line_shorter|done]. }
  intros (Q1 & Q2 & Q3). specialize (Q3 eq_refl).
  assert (ST : lp `suffix_of` T) by by etrans.
  apply (vc_ends_bind _ _ (fun '(a, lp2, _, _) => lp2 `suffix_of` lp /\ attr_ok a)).
  { destruct (deref lp =? ch ";") eqn:E; [|by split; [|split_and!; [|constructor|constructor]]].
    destruct lp as [|c r]; [done|]. cbn [advance mbind read_bind].
    eapply vc_ends_bind; [apply (read_params_ends _ r); [by apply suffix_tail in ST as [? _]|]|].
    - by split_and!; [|constructor|constructor].
    - intros [[[a lp2] qp] cs] [H1 H2]. cbn. split; [by apply suffix_cons_r|]. destruct qp; [by apply with_encoding_ok|done]. }
  intros [[[a lp2] qp] cs] [H1 H2].
  apply (vc_ends_bind _ _ (fun '(a', lp3) => lp3 `suffix_of` lp2 /\ attr_ok a')).
  { destruct (deref lp2 =? ch ":") eqn:E; [|by split].
    destruct lp2 as [|c r]; [done|]. cbn [advance mbind read_bind].
    eapply ends_mono; [apply read_attribute_value_ends; etrans; [|exact ST]; by apply suffix_cons_l in H1|].
    intros [a' lp3] (H3 & H4 & _). split; [by apply suffix_cons_r|by apply (same_head_ok a)]. }
  intros [a' lp3] [H3 H4]. cbn [mret read_ret ends]. split_and!.
  - etrans; [exact H3|]. by etrans.
  - intros _. apply suffix_length in H3, H1. lia.
  - intros b. destruct (attr_values a') eqn:V; [done|]. intros [= <-]. split; [done|by rewrite V].
Qed.

(** ** vCards *)

Lemma add_parsed_attributes evc a : attributes (add_parsed evc a) = a :: attributes evc /\
  vcard (add_parsed evc a) = vcard evc.
Proof. unfold add_parsed, cache_version_from_attr. repeat case_match; done. Qed.

(** The attributes that were there stay. *)
Definition grown (evc evc' : EVCard) : Prop :=
  exists l, attributes evc' = l ++ attributes evc /\ Forall read_ok l /\ vcard evc' = vcard evc.

Lemma grown_add evc a evc' : read_ok a -> grown (add_parsed evc a) evc' -> grown evc evc'.
Proof.
  intros O (l & E & F & V). destruct (add_parsed_attributes evc a) as [E' V'].
  exists (l ++ [a]). rewrite E, E', <- app_assoc. split_and!; [done| |congruence].
  apply list.Forall_app; auto.
Qed.

Lemma parse_loop_ends ignore fuel : forall p evc, p `suffix_of` T -> (length p < fuel)%nat ->
  ends (parse_loop g_utf8_validate g_convert fuel p evc ignore) (grown evc).
Proof.
  assert (R : forall evc, grown evc evc) by (intros evc; by exists []).
  induction fuel as [|fuel IH]; intros p evc S L; [lia|]. cbn [parse_loop].
  destruct (deref p =? 0) eqn:Z0; [apply R|]. apply Z.eqb_neq in Z0.
  eapply vc_ends_bind; [by apply read_attribute_ends|].
  intros [attr lp] (Q1 & Q2 & Q3). specialize (Q2 Z0).
  assert (IH' : forall evc', ends (parse_loop g_utf8_validate g_convert fuel lp evc' ignore) (grown evc')).
  { intros evc'. apply IH; [by etrans|lia]. }
  destruct attr as [a|]; [|apply IH'].
  destruct (named a (bs "end")); [apply R|]. destruct (ignore && named a EVC_UID); [apply IH'|].
  eapply ends_mono; [apply IH'|]. intros evc'. apply grown_add. auto.
Qed.
End Ends.

Lemma parse_ends evc s ignore :
  ends s (parse g_utf8_validate g_convert evc s ignore)
    (fun evc' => exists l, attributes evc' = reverse (attributes evc) ++ l /\ Forall read_ok l /\
                           vcard evc' = vcard evc).
Proof.
  unfold parse. eapply vc_ends_bind; [by apply read_attribute_ends|].
  intros [attr p] (Q1 & Q2 & Q3). 
  set (evc0 := with_version evc E_VCARD_VERSION_UNKNOWN).
  apply (vc_ends_bind _ _ _ (grown evc0)).
  - eapply ends_mono; [apply parse_loop_ends; [done|lia]|]. intros evc' G.
    destruct attr as [a|]; [|done]. repeat (case_match; try done). eapply grown_add; [|done]. auto.
  - intros evc' (l & E & F & V). cbn. exists (reverse l). rewrite E, reverse_app.
    split_and!; [done|by apply Forall_reverse|done].
Qed.

(** C14. Parsing the text of a vCard ends for every text, and reads behind the
    text only when its last byte before the line ends is an equals sign, a
    backslash or white space; the attributes it gives come after those that
    were there, and each has a name, a value, and parameters with values and
    with different names. *)
Theorem vcard_parse_safe (evc : EVCard) (s : text) :
  vcard evc = Some s ->
  e_vcard_ensure_attributes g_utf8_validate g_convert evc <> OutOfFuel /\
  (ends_well s = true -> exists evc' l,
     e_vcard_ensure_attributes g_utf8_validate g_convert evc = Got evc' /\
     vcard evc' = None /\ attributes evc' = reverse (attributes evc) ++ l /\ Forall read_ok l).
Proof.
  intros V. unfold e_vcard_ensure_attributes. rewrite V.
  match goal with |- context [parse _ _ ?e s ?i] => pose proof (parse_ends e s i) as H;
    destruct (parse _ _ e s i) as [evc'| |] end; cbn in H.
  - split; [done|]. intros _. destruct H as (l & E & F & N). eauto 10.
  - split; [done|congruence].
  - done.
Qed.
End Parser.

Lemma vcard_parse_safe_witness :
  vcard (e_vcard_new_from_string (bs "N;A=b:x")) = Some (bs "N;A=b:x") /\
  e_vcard_ensure_attributes (fun _ => None) (fun _ _ => None) (e_vcard_new_from_string (bs "N;A=b:x")) <> OutOfFuel.
Proof.
  split; [reflexivity|].
  apply (vcard_parse_safe (fun _ => None) (fun _ _ => None) (e_vcard_new_from_string (bs "N;A=b:x")) (bs "N;A=b:x")).
  reflexivity.
Defined.

(** A text that ends with an escape is left. *)
Example overrun_qp : ends_well (bs "N;ENCODING=quoted-printable:a=") = false /\
  parse (fun _ => None) (fun _ _ => None) (e_vcard_new_from_string []) (bs "N;ENCODING=quoted-printable:a=") false
  = Overrun.
Proof. split; reflexivity. Qed.
