(* ===== verification/VCardFolds.v ===== *)
(** Reading folded lines: what the loops of the vCard parser do with a line
    that is folded anywhere. *)
From Stdlib Require Import ZArith Lia Ascii.
From stdpp Require Import base list option strings.
From S2P Require Import Prelude StringUtils Utf8 VCard VCardParse VCardWrite.
Local Open Scope Z_scope.

(** [folds L F]: the line [L] with line breaks and a space before some of its
    bytes. *)
Inductive folds : text -> text -> Prop :=
  | folds_nil : folds [] []
  | folds_char c L F : is_end c = false -> folds L F -> folds (c :: L) (c :: F)
  | folds_fold c L F : is_end c = false -> folds L F -> folds (c :: L) (13 :: 10 :: 32 :: c :: F).

#[export] Hint Constructors folds : eds.

Lemma folds_refl L : Forall (fun c => is_end c = false) L -> folds L L.
Proof. induction 1; auto with eds. Qed.
Lemma folds_app L1 F1 L2 F2 : folds L1 F1 -> folds L2 F2 -> folds (L1 ++ L2) (F1 ++ F2).
Proof. induction 1; cbn; auto with eds. Qed.
Lemma folds_before L F : L <> [] -> Forall (fun c => is_end c = false) L ->
  folds L F -> hd 0 F = hd 0 L -> folds L (13 :: 10 :: 32 :: F).
Proof.
  intros N A H. destruct H as [|c L F E H|c L F E H]; [done|by constructor|].
  cbn. intros <-. by apply list.Forall_cons in A as [A _].
Qed.

Lemma name_char_range c : is_name_char c = true ->
  c = 45 \/ c = 95 \/ 48 <= c <= 57 \/ 65 <= c <= 90 \/ 97 <= c <= 122.
Proof.
  unfold is_name_char, isalnum, isalpha, isupper, islower, isdigit.
  change (ch "-") with 45. change (ch "_") with 95. intros N. zb; lia.
Qed.

(** The rest of the text: the end of the line, and a next line that does not
    continue it. *)
Definition line_tail (tail rest : text) : Prop :=
  tail = 13 :: 10 :: rest /\ is_blank (deref rest) = false /\ is_nl (deref rest) = false.

Section Tail.
Context (tail rest : text) (Ht : line_tail tail rest).

Lemma skip_tail : skip_newline tail false = tail.
Proof. destruct Ht as (-> & B & _). unfold skip_newline. cbn [andb deref is_nl tl]. cbn. by rewrite B. Qed.
Lemma tail_end : is_end (deref tail) = true.
Proof. by destruct Ht as (-> & _). Qed.
Lemma tail_next : skip_to_next_line tail = rest.
Proof.
  destruct Ht as (-> & _ & N). unfold skip_to_next_line. cbn.
  destruct rest as [|c r]; [done|]. cbn in N |- *. by rewrite N.
Qed.

Lemma skip_fold c L F : folds (c :: L) F ->
  exists F', skip_newline (F ++ tail) false = c :: F' ++ tail /\ folds L F' /\ (length F' < length F)%nat /\
             is_end c = false.
Proof.
  intros H. inversion H as [|c' L' F' E H'|c' L' F' E H']; subst; exists F'.
  - split_and!; [|done|cbn; lia|done]. unfold skip_newline. cbn [andb app deref].
    unfold is_end in E. apply orb_false_elim in E as [-> _]. done.
  - split_and!; [done|done|cbn; lia|done].
Qed.

(** ** Chunks *)

(** What there is to be read into [str] at [lp]: [str] and the chunk. *)
Definition pending (str : text) (chunk : option text) (lp e : text) : Prop :=
  match chunk with
  | None => str = e
  | Some ch => is_nl (deref lp) = false /\ exists k, ch = k ++ lp /\ e = str ++ k
  end.

Lemma write_chunk_app str k lp : write_chunk str (Some (k ++ lp)) lp = str ++ k.
Proof. cbn. rewrite length_app. by rewrite take_app_length' by lia. Qed.

Lemma write_pending str chunk lp e : pending str chunk lp e ->
  write_chunk str chunk (skip_newline lp false) = e.
Proof.
  destruct chunk as [ch|]; [|done]. intros [N (k & -> & ->)].
  replace (skip_newline lp false) with lp; [apply write_chunk_app|].
  unfold skip_newline. cbn. by rewrite N.
Qed.

(** A byte that is left in the chunk. *)
Lemma chunk_pending str chunk lp e c r : pending str chunk lp e -> skip_newline lp false = c :: r ->
  let '(str', chunk') := flush str (match chunk with Some x => Some x | None => Some (c :: r) end) r in
  pending str' chunk' r (e ++ [c]).
Proof.
  intros P S. assert (exists k, match chunk with Some x => x | None => c :: r end = k ++ c :: r /\ e = str ++ k)
    as (k & K & ->).
  { destruct chunk as [ch|]; [|exists []; by rewrite app_nil_r, P]. destruct P as [N (k & -> & ->)].
    exists k. split; [|done]. f_equal. rewrite <- S. unfold skip_newline. cbn. by rewrite N. }
  assert (match chunk with Some x => Some x | None => Some (c :: r) end = Some (k ++ c :: r)) as ->
    by (rewrite <- K; by destruct chunk).
  unfold flush. destruct (is_nl (deref r)) eqn:N; cbn.
  - replace (k ++ c :: r) with ((k ++ [c]) ++ r) by (by rewrite <- app_assoc).
    rewrite length_app, take_app_length' by lia. by rewrite app_assoc.
  - split; [done|]. exists (k ++ [c]). by rewrite <- !app_assoc.
Qed.

Section Readers.
Context (g_utf8_validate : text -> option nat).
Context (g_convert : text -> text -> option text).
Notation make_valid := (make_utf8_valid g_utf8_validate).

(** ** Values *)

Section Value.
Context (charset : option text).

Definition vrun (lp str : text) (chunk : option text) (attr : EVCardAttribute)
    (out : text * text * option text * EVCardAttribute) : Prop :=
  forall n, (length lp < n)%nat ->
    value_loop g_utf8_validate g_convert false charset n lp str chunk attr = Got out.

(** The run goes on at the rest of the line with [e'] read. *)
Definition vcont (L e' : text) (attr : EVCardAttribute) out : Prop :=
  forall F' str' chunk', folds L F' -> pending str' chunk' (F' ++ tail) e' -> vrun (F' ++ tail) str' chunk' attr out.

Definition is_sep (attr : EVCardAttribute) (c : Z) : bool :=
  ((c =? ch ";") && negb (e_vcard_attribute_is_singlevalue_type attr)) ||
  ((c =? ch ",") && strcase_eqb (attr_name attr) EVC_CATEGORIES).

Lemma vrun_char c L F str chunk e attr out : folds (c :: L) F -> pending str chunk (F ++ tail) e ->
  c <> 92 -> is_sep attr c = false -> vcont L (e ++ [c]) attr out -> vrun (F ++ tail) str chunk attr out.
Proof.
  intros H P N S K [|n] Hn; [lia|]. cbn [value_loop].
  destruct (skip_fold _ _ _ H) as (F' & E & H' & Lt & En). rewrite E. cbn [deref]. rewrite En, andb_false_r.
  rewrite (proj2 (Z.eqb_neq c 92) N). unfold is_sep in S. rewrite S. cbn [advance mbind read_bind].
  pose proof (chunk_pending _ _ _ _ _ _ P E) as CP. destruct (flush _ _ _) as [str' chunk'].
  eapply K; [exact H'|exact CP|]. rewrite length_app in *. lia.
Qed.

Lemma vrun_escape x y L F str chunk e attr out : folds (92 :: x :: L) F -> pending str chunk (F ++ tail) e ->
  value_escape x = Some y -> vcont L (e ++ [y]) attr out -> vrun (F ++ tail) str chunk attr out.
Proof.
  intros H P V K [|n] Hn; [lia|]. cbn [value_loop].
  destruct (skip_fold _ _ _ H) as (F1 & E & H1 & Lt & En). rewrite (write_pending _ _ _ _ P). rewrite E.
  cbn [deref]. rewrite En. cbn [andb Z.eqb Pos.eqb advance mbind read_bind].
  destruct (skip_fold _ _ _ H1) as (F2 & E2 & H2 & Lt2 & En2).
  assert (D : deref (F1 ++ tail) =? 0 = false).
  { inversion H1; subst; cbn; [|done]. unfold is_end in En2. zb; lia. }
  rewrite D, E2. cbn [deref]. rewrite V. cbn [advance mbind read_bind].
  destruct (flush (e ++ [y]) None (F2 ++ tail)) as [str' chunk'] eqn:Fl.
  eapply K; [exact H2| |rewrite length_app in *; lia].
  unfold flush in Fl. case_match; by injection Fl as <- <-.
Qed.

Lemma vrun_sep c L F str chunk e attr out : folds (c :: L) F -> pending str chunk (F ++ tail) e ->
  c <> 92 -> is_sep attr c = true -> vcont L [] (add_read_value g_utf8_validate g_convert charset attr e) out ->
  vrun (F ++ tail) str chunk attr out.
Proof.
  intros H P N S K [|n] Hn; [lia|]. cbn [value_loop].
  destruct (skip_fold _ _ _ H) as (F' & E & H' & Lt & En). rewrite (write_pending _ _ _ _ P). rewrite E.
  cbn [deref]. rewrite En, andb_false_r, (proj2 (Z.eqb_neq c 92) N). unfold is_sep in S. rewrite S.
  cbn [advance mbind read_bind]. eapply K; [exact H'|done|]. rewrite length_app in *. lia.
Qed.

(** An escaped value. *)
Definition escape (v : text) : text := concat (map escape_char v).

Lemma escape_char_cases c : c <> 13 ->
  (escape_char c = [c] /\ c <> 92 /\ c <> 10 /\ c <> ch ";" /\ c <> ch ",") \/
  (exists x, escape_char c = [92; x] /\ value_escape x = Some c).
Proof.
  intros N. unfold escape_char.
  destruct (Z.eqb_spec c 10) as [->|E1]; [right; by exists (ch "n")|].
  destruct (Z.eqb_spec c 13) as [->|E2]; [done|].
  destruct (Z.eqb_spec c (ch ";")) as [->|E3]; [right; by exists (ch ";")|].
  destruct (Z.eqb_spec c (ch ",")) as [->|E4]; [right; by exists (ch ",")|].
  destruct (Z.eqb_spec c 92) as [->|E5]; [right; by exists 92|].
  left. done.
Qed.

Lemma is_sep_plain attr c : c <> ch ";" -> c <> ch "," -> is_sep attr c = false.
Proof. intros A B. unfold is_sep. by rewrite (proj2 (Z.eqb_neq c _) A), (proj2 (Z.eqb_neq c _) B). Qed.

Lemma vrun_escaped v L attr out : Forall (fun c => c <> 13) v -> forall F str chunk e,
  folds (escape v ++ L) F -> pending str chunk (F ++ tail) e -> vcont L (e ++ v) attr out ->
  vrun (F ++ tail) str chunk attr out.
Proof.
  induction 1 as [|c v N A IH]; intros F str chunk e H P K; [rewrite app_nil_r in K; by apply K|].
  unfold escape in H. cbn [map concat] in H. rewrite <- app_assoc in H.
  assert (K' : vcont (escape v ++ L) (e ++ [c]) attr out).
  { intros F' str' chunk' H' P'. apply (IH F' str' chunk' (e ++ [c])); [done|done|]. by rewrite <- app_assoc. }
  destruct (escape_char_cases c N) as [(E & N1 & _ & N2 & N3)|(x & E & V)]; rewrite E in H.
  - by apply (vrun_char c _ _ _ _ _ _ _ H P N1 (is_sep_plain attr c N2 N3)).
  - by apply (vrun_escape x c _ _ _ _ _ _ _ H P V).
Qed.

Lemma vrun_end str chunk e attr : pending str chunk tail e -> vrun tail str chunk attr (tail, e, None, attr).
Proof.
  intros P [|n] Hn; [lia|]. cbn [value_loop]. rewrite skip_tail, tail_end.
  destruct chunk as [ch|]; [|by rewrite P]. destruct P as [P _].
  pose proof Ht as (E & _). rewrite E in P. done.
Qed.

(** The loop behind the values: the last one is still in [str]. *)
Fixpoint values_out (v : text) (vs : list text) (attr : EVCardAttribute) : EVCardAttribute * text :=
  match vs with
  | [] => (attr, v)
  | w :: vs => values_out w vs (add_read_value g_utf8_validate g_convert charset attr v)
  end.
Lemma values_out_add v vs attr : let '(a, w) := values_out v vs attr in
  add_read_value g_utf8_validate g_convert charset a w =
  fold_left (add_read_value g_utf8_validate g_convert charset) (v :: vs) attr.
Proof. revert v attr. induction vs as [|w vs IH]; intros v attr; [done|]. apply IH. Qed.

Lemma vcont_end e attr : vcont [] e attr (tail, e, None, attr).
Proof. intros F' str chunk H P. inversion H. subst. by apply vrun_end. Qed.

Lemma vcont_values sep vs : sep <> 92 -> forall v attr, (vs <> [] -> is_sep attr sep = true) ->
  Forall (Forall (fun c => c <> 13)) (v :: vs) ->
  vcont (join [sep] (map escape (v :: vs))) [] attr
    (let '(a, w) := values_out v vs attr in (tail, w, None, a)).
Proof.
  intros Ns. induction vs as [|w vs IH]; intros v attr S A; apply list.Forall_cons in A as [Av A];
    intros F str chunk H P.
  - cbn [map join values_out] in *. rewrite <- (app_nil_r (escape v)) in H.
    apply (vrun_escaped v [] _ _ Av _ _ _ [] H P), vcont_end.
  - change (join [sep] (map escape (v :: w :: vs))) with (escape v ++ sep :: join [sep] (map escape (w :: vs))) in H.
    apply (vrun_escaped v _ _ _ Av _ _ _ [] H P). clear H P. intros F' str' chunk' H P.
    eapply vrun_sep; [exact H|exact P|done|by apply S|].
    cbn [values_out]. apply IH; [|done]. intros _. by apply S.
Qed.

Lemma read_folded_values sep v vs attr F : sep <> 92 -> (vs <> [] -> is_sep attr sep = true) ->
  Forall (Forall (fun c => c <> 13)) (v :: vs) -> folds (join [sep] (map escape (v :: vs))) F ->
  read_attribute_value g_utf8_validate g_convert false charset attr (F ++ tail) =
  Got (fold_left (add_read_value g_utf8_validate g_convert charset) (v :: vs) attr, rest).
Proof.
  intros N S A H. unfold read_attribute_value.
  pose proof (vcont_values sep vs N v attr S A F [] None H eq_refl (Datatypes.S (length (F ++ tail))) ltac:(lia)) as R.
  pose proof (values_out_add v vs attr) as O. destruct (values_out v vs attr) as [a w].
  rewrite R. cbn [mbind read_bind write_chunk mret read_ret]. by rewrite O, tail_next.
Qed.
End Value.

(** ** Names *)

Definition nrun (lp str : text) (group : option text) (out : name_result -> Prop) : Prop :=
  forall n, (length lp < n)%nat -> exists o, name_loop g_utf8_validate n lp str group = Got o /\ out o.

Lemma nrun_chars s L out : Forall (fun c => is_name_char c = true) s -> forall F str group,
  folds (s ++ L) F -> (forall F', folds L F' -> nrun (F' ++ tail) (str ++ s) group out) ->
  nrun (F ++ tail) str group out.
Proof.
  induction 1 as [|c s N A IH]; intros F str group H K; [rewrite app_nil_r in K; by apply K|].
  intros [|n] Hn; [lia|]. cbn [name_loop].
  destruct (skip_fold _ _ _ H) as (F' & E & H' & Lt & En). rewrite E. cbn [deref]. rewrite En.
  assert (C : (c =? ch ":") || (c =? ch ";") = false /\ (c =? ch ".") = false).
  { apply name_char_range in N. change (ch ":") with 58. change (ch ";") with 59. change (ch ".") with 46.
    split; zb; lia. }
  destruct C as [-> ->]. rewrite N. cbn [advance mbind read_bind].
  apply (IH F' (str ++ [c]) group H'); [|rewrite length_app in *; lia].
  intros F2 H2. rewrite <- app_assoc. by apply K.
Qed.

Lemma nrun_group L F str out : str <> [] -> folds (ch "." :: L) F ->
  (forall F', folds L F' -> nrun (F' ++ tail) [] (Some (make_valid str)) out) -> nrun (F ++ tail) str None out.
Proof.
  intros N H K [|n] Hn; [lia|]. cbn [name_loop].
  destruct (skip_fold _ _ _ H) as (F' & E & H' & Lt & En). rewrite E. cbn [deref]. rewrite En.
  cbn [advance mbind read_bind]. destruct str as [|x str]; [done|].
  apply K; [done|]. rewrite length_app in *. lia.
Qed.

Lemma nrun_name c L F str group (out : name_result -> Prop) : str <> [] -> c = ch ":" \/ c = ch ";" ->
  folds (c :: L) F -> (forall F', folds L F' -> out (NameRead group (make_valid str) (c :: F' ++ tail))) ->
  nrun (F ++ tail) str group out.
Proof.
  intros N C H K. destruct (skip_fold _ _ _ H) as (F' & E & H' & Lt & En).
  intros [|n] Hn; [lia|]. cbn [name_loop]. rewrite E. cbn [deref]. rewrite En.
  assert ((c =? ch ":") || (c =? ch ";") = true) as -> by (by destruct C as [-> | ->]).
  destruct str; [done|]. eexists. split; [done|]. by apply K.
Qed.
End Readers.
End Tail.
