(* ===== verification/VCardParams.v ===== *)
(** Reading folded parameters. *)
From Stdlib Require Import ZArith Lia Ascii.
From stdpp Require Import base list option strings.
From S2P Require Import Prelude StringUtils Utf8 VCard VCardParse VCardWrite VCardFolds.
Local Open Scope Z_scope.

(** A parameter that the reader keeps. *)
Definition special_free (p : EVCardAttributeParam) : bool :=
  let value := default [] (head (param_values p)) in
  negb (strcase_eqb (param_name p) (bs "encoding") && strcase_eqb value (bs "quoted-printable")) &&
  negb (strcase_eqb (param_name p) (bs "charset") && negb (strcase_eqb value (bs "utf-8"))).

(** The state without quoted-printable code and without a character set. *)
Definition reading (param : option EVCardAttributeParam) (in_quote : bool) (attr : EVCardAttribute)
    (str : text) (chunk : option text) : params_state :=
  {| ps_str := str; ps_chunk := chunk; ps_param := param; ps_in_quote := in_quote;
     ps_qp := false; ps_charset := None; ps_attr := attr |}.

Lemma skip_at c l : is_end c = false -> skip_newline (c :: l) false = c :: l.
Proof. intros E. unfold skip_newline. cbn [andb deref]. by apply orb_false_elim in E as [-> _]. Qed.

Section Tail.
Context (tail rest : text) (Ht : line_tail tail rest).
Context (g_utf8_validate : text -> option nat).
Notation make_valid := (make_utf8_valid g_utf8_validate).

Definition prun (lp : text) (s : params_state) (out : text * params_state -> Prop) : Prop :=
  forall n, (length lp < n)%nat -> exists o, params_loop g_utf8_validate n lp s = Got o /\ out o.

(** The run goes on at the rest of the line with [e] read. *)
Definition pcont (L e : text) param in_quote attr out : Prop :=
  forall F str chunk, folds L F -> pending str chunk (F ++ tail) e ->
    prun (F ++ tail) (reading param in_quote attr str chunk) out.

(** One turn of the loop at a byte of the line. *)
Lemma prun_step c L param q attr e out :
  (forall F n, folds L F -> is_end c = false -> (length (F ++ tail) < n)%nat ->
     forall str chunk, 
     write_chunk str chunk (c :: F ++ tail) = e ->
     (let '(str', chunk') := flush str (match chunk with Some x => Some x | None => Some (c :: F ++ tail) end) (F ++ tail) in
      pending str' chunk' (F ++ tail) (e ++ [c])) ->
     exists o, params_loop g_utf8_validate (S n) (c :: F ++ tail) (reading param q attr str chunk) = Got o /\ out o) ->
  pcont (c :: L) e param q attr out.
Proof.
  intros K F str chunk H P [|n] Hn; [lia|].
  destruct (skip_fold tail _ _ _ H) as (F' & E & H' & Lt & En).
  pose proof (write_pending _ _ _ _ P) as W. rewrite E in W.
  pose proof (chunk_pending _ _ _ _ _ _ P E) as CP.
  rewrite length_app in Hn.
  destruct (K F' n H' En ltac:(rewrite length_app; lia) str chunk W CP) as (o & Eo & Q).
  exists o. split; [|done]. rewrite <- Eo. cbn [params_loop ps_qp reading]. rewrite E.
  by rewrite skip_at.
Qed.

Ltac pstep := 
  apply prun_step; intros F n H En Hn str chunk W CP;
  cbn [params_loop ps_qp ps_str ps_chunk ps_in_quote ps_param reading set_str]; rewrite skip_at by done;
  cbn [deref]; rewrite En.

(** A byte in quotes, or of a name. *)
Lemma pcont_char c L param q attr e out : c <> 34 -> (q = true -> c <> 92) -> (q = false -> is_name_char c = true) ->
  pcont L (e ++ [c]) param q attr out -> pcont (c :: L) e param q attr out.
Proof.
  intros N1 N2 N3 K. pstep. rewrite (proj2 (Z.eqb_neq c 34) N1).
  assert (q || is_name_char c = true) as -> by (destruct q; [done|by rewrite N3]).
  assert (q && (c =? 92) = false) as -> by (destruct q; [|done]; cbn; apply Z.eqb_neq; auto).
  cbn [mbind read_bind mret read_ret deref]. 
  assert (c =? 0 = false) as -> by (unfold is_end in En; zb; lia).
  cbn [negb advance]. rewrite W. by apply (K F (e ++ [c]) None).
Qed.

Lemma pcont_quote L param q attr e out : pcont L e param (negb q) attr out -> pcont (34 :: L) e param q attr out.
Proof. intros K. pstep. cbn [Z.eqb Pos.eqb advance mbind read_bind]. rewrite W. by apply (K F e None). Qed.

Lemma pcont_escape x y L param attr e out : value_escape x = Some y -> is_end x = false ->
  pcont L (e ++ [y]) param true attr out -> pcont (92 :: x :: L) e param true attr out.
Proof.
  intros V Ex K. pstep. cbn [Z.eqb Pos.eqb orb andb advance mbind read_bind mret read_ret].
  destruct (skip_fold tail _ _ _ H) as (F2 & E & H' & Lt & _). rewrite E. cbn [deref].
  assert (x =? 0 = false) as -> by (unfold is_end in Ex; zb; lia).
  cbn [negb advance]. unfold quoted_escape. rewrite V, W. apply (K F2 (e ++ [y]) None); [done|done|].
  rewrite length_app in *. lia.
Qed.

(** The equals sign behind the name. *)
Lemma pcont_equals L attr param e out : e <> [] ->
  pcont L [] (Some (e_vcard_attribute_param_new (make_valid e))) false attr out ->
  pcont (61 :: L) e param false attr out.
Proof.
  intros N K. pstep. rewrite W. cbn -[params_loop]. destruct e as [|x e]; [done|].
  by apply (K F [] None).
Qed.

(** A byte of a value without quotes that is not ASCII. *)
Lemma pcont_chunk c L p attr e out : 128 <= c -> pcont L (e ++ [c]) (Some p) false attr out ->
  pcont (c :: L) e (Some p) false attr out.
Proof.
  intros N K. pstep.
  assert (is_name_char c = false) as ->.
  { apply not_true_iff_false. intros C%name_char_range. lia. }
  change (ch ";") with 59. change (ch ":") with 58. change (ch ",") with 44.
  assert (E34 : c =? 34 = false) by lia. assert (E61 : c =? 61 = false) by lia.
  assert (E59 : c =? 59 = false) by lia. assert (E58 : c =? 58 = false) by lia. assert (E44 : c =? 44 = false) by lia.
  rewrite E34, E61, E59, E58, E44. cbn [orb advance mbind read_bind].
  unfold flush_params. cbn [ps_str ps_chunk set_str]. destruct (flush _ _ _) as [str' chunk'].
  by apply (K F str' chunk').
Qed.

(** ** The ends of a value *)

Lemma special_free_kept s p : ps_param s = Some p -> special_free p = true -> special_param s = s.
Proof.
  intros E H. unfold special_param. rewrite E. unfold special_free in H.
  apply andb_prop in H as [H1%negb_true_iff H2%negb_true_iff]. by rewrite H1, H2.
Qed.

Lemma take_value p e attr : e <> [] ->
  special_free (e_vcard_attribute_param_add_value p (make_valid e)) = true ->
  take_param_value g_utf8_validate (reading (Some p) false attr e None) =
  reading (Some (e_vcard_attribute_param_add_value p (make_valid e))) false attr [] None.
Proof.
  intros N H. unfold take_param_value. cbn [ps_param reading ps_str]. destruct e as [|x e]; [done|].
  by erewrite special_free_kept.
Qed.

Section Separators.
Context (p : EVCardAttributeParam) (e : text) (attr : EVCardAttribute) (Ne : e <> []).
Let p' := e_vcard_attribute_param_add_value p (make_valid e).
Context (Sp : special_free p' = true).

Lemma pcont_comma L out : pcont L [] (Some p') false attr out -> pcont (ch "," :: L) e (Some p) false attr out.
Proof.
  intros K. pstep. rewrite W. cbn -[params_loop take_param_value].
  replace (take_param_value _ _) with (reading (Some p') false attr [] None) by (symmetry; by apply take_value).
  by apply (K F [] None).
Qed.

Lemma pcont_semicolon L out : pcont L [] None false (e_vcard_attribute_add_param attr p') out ->
  pcont (ch ";" :: L) e (Some p) false attr out.
Proof.
  intros K. pstep. rewrite W. cbn -[params_loop take_param_value finish_param].
  replace (take_param_value _ _) with (reading (Some p') false attr [] None) by (symmetry; by apply take_value).
  by apply (K F [] None).
Qed.

(** The colon ends the loop. *)
Lemma pcont_colon L (out : text * params_state -> Prop) :
  (forall F, folds L F -> out (ch ":" :: F ++ tail, reading None false (e_vcard_attribute_add_param attr p') [] None)) ->
  pcont (ch ":" :: L) e (Some p) false attr out.
Proof.
  intros K. pstep. rewrite W. cbn -[params_loop take_param_value finish_param].
  replace (take_param_value _ _) with (reading (Some p') false attr [] None) by (symmetry; by apply take_value).
  eexists. split; [done|]. by apply K.
Qed.
End Separators.
End Tail.
