(* ===== verification/VCardLines.v ===== *)
(** Reading the line of an attribute, folded anywhere: the laws of GLib's UTF-8
    functions, the folds of [e_vcard_to_string_vcard], and what
    [read_attribute] makes of a line. *)
From Stdlib Require Import ZArith Lia Ascii.
From stdpp Require Import base list option strings.
From S2P Require Import Prelude StringUtils Utf8 VCard VCardParse VCardWrite VCardParseSpec VCardFolds VCardParams.
Local Open Scope Z_scope.

(** * GLib *)

(** What the code relies on of GLib's functions for UTF-8: a text splits at its
    ASCII characters, pointers move by whole characters. *)
Class Utf8Laws (g_utf8_validate : text -> option nat) (g_utf8_strlen : text -> nat)
    (g_utf8_offset_to_pointer : text -> nat -> text) (g_utf8_get_char : text -> Z)
    (g_utf8_next_char : text -> text) (g_unichar_isalnum : Z -> bool) : Prop := {
  utf8_nil : g_utf8_validate [] = None;
  utf8_ascii c : 0 < c < 128 -> g_utf8_validate [c] = None;
  utf8_app a b : g_utf8_validate a = None -> g_utf8_validate b = None -> g_utf8_validate (a ++ b) = None;
  utf8_split a c b : 0 < c < 128 -> g_utf8_validate (a ++ c :: b) = None ->
    g_utf8_validate a = None /\ g_utf8_validate b = None;
  utf8_bytes s : g_utf8_validate s = None -> Forall (fun c => 0 < c < 256) s;
  utf8_strlen_nil : g_utf8_strlen [] = 0%nat;
  utf8_offset s n : g_utf8_validate s = None -> (n <= g_utf8_strlen s)%nat ->
    exists pre, s = pre ++ g_utf8_offset_to_pointer s n /\
      g_utf8_validate (g_utf8_offset_to_pointer s n) = None /\
      g_utf8_strlen (g_utf8_offset_to_pointer s n) = (g_utf8_strlen s - n)%nat;
  utf8_ascii_char c r : g_utf8_validate (c :: r) = None -> c < 128 ->
    g_utf8_get_char (c :: r) = c /\ g_utf8_next_char (c :: r) = r;
  utf8_next c r : g_utf8_validate (c :: r) = None -> 128 <= c ->
    exists pre, r = pre ++ g_utf8_next_char (c :: r) /\ Forall (fun c => 128 <= c) pre /\
      g_utf8_validate (g_utf8_next_char (c :: r)) = None;
  unichar_isalnum_ascii c : 0 <= c < 128 -> g_unichar_isalnum c = isalnum c }.

Section Writer.
Context {g_utf8_validate : text -> option nat} {g_utf8_strlen : text -> nat}.
Context {g_utf8_offset_to_pointer : text -> nat -> text} {g_utf8_get_char : text -> Z}.
Context {g_utf8_next_char : text -> text} {g_unichar_isalnum : Z -> bool}.
Context {laws : Utf8Laws g_utf8_validate g_utf8_strlen g_utf8_offset_to_pointer g_utf8_get_char
                  g_utf8_next_char g_unichar_isalnum}.
Context (g_convert : text -> text -> option text).

Notation utf8 s := (g_utf8_validate s = None).
Notation make_valid := (make_utf8_valid g_utf8_validate).
Notation fold_line := (fold_line g_utf8_strlen g_utf8_offset_to_pointer).
Notation fold_loop := (fold_loop g_utf8_offset_to_pointer).
Notation param_value_string := (param_value_string g_utf8_get_char g_utf8_next_char g_unichar_isalnum).
Notation param_string := (param_string g_utf8_get_char g_utf8_next_char g_unichar_isalnum).

Lemma make_valid_id s : utf8 s -> make_valid s = s.
Proof.
  intros V. unfold make_utf8_valid. destruct s as [|c s]; [done|]. cbn [length make_valid_loop]. by rewrite V.
Qed.

Lemma utf8_ascii_text s : Forall (fun c => 0 < c < 128) s -> utf8 s.
Proof.
  induction 1 as [|c s A F IH]; [apply utf8_nil|]. apply (utf8_app [c]); [by apply utf8_ascii|done].
Qed.

(** ** Folding *)

Lemma fold_loop_folds fuel : forall pre pos2, pre <> [] -> utf8 pos2 ->
  (0 < g_utf8_strlen pos2 <= fuel)%nat -> Forall (fun c => is_end c = false) (pre ++ pos2) ->
  folds (pre ++ pos2) (fold_loop fuel (pre ++ pos2) pos2 (g_utf8_strlen pos2)) /\
  hd 0 (fold_loop fuel (pre ++ pos2) pos2 (g_utf8_strlen pos2)) = hd 0 (pre ++ pos2).
Proof.
  induction fuel as [|fuel IH]; intros pre pos2 N V L A; [lia|]. cbn [VCardWrite.fold_loop].
  replace (take (length (pre ++ pos2) - length pos2) (pre ++ pos2)) with pre
    by (rewrite length_app, take_app_length' by lia; done).
  apply list.Forall_app in A as [A1 A2].
  assert (N2 : pos2 <> []) by (intros ->; rewrite utf8_strlen_nil in L; lia).
  split; [|by destruct pre].
  apply folds_app; [by apply folds_refl|]. cbn [app CRLF].
  destruct (Nat.leb_spec (g_utf8_strlen pos2) 74) as [Le|Lt].
  - apply folds_before; [done|done|by apply folds_refl|done].
  - destruct (utf8_offset pos2 74 V ltac:(lia)) as (pre2 & E & V2 & L2).
    rewrite <- L2. set (pos3 := g_utf8_offset_to_pointer pos2 74) in *.
    assert (N3 : pre2 <> []).
    { intros ->. cbn in E. rewrite <- E in L2. lia. }
    rewrite E in A2 |- *. destruct (IH pre2 pos3 N3 V2 ltac:(lia) A2) as [H1 H2].
    apply folds_before; try done. by destruct pre2.
Qed.

Lemma fold_line_folds s : utf8 s -> Forall (fun c => is_end c = false) s ->
  folds s (fold_line s) /\ hd 0 (fold_line s) = hd 0 s.
Proof.
  intros V A. unfold VCardWrite.fold_line. destruct (Nat.ltb_spec 75 (g_utf8_strlen s)) as [Lt|Le].
  - destruct (utf8_offset s 75 V ltac:(lia)) as (pre & E & V2 & L2). rewrite <- L2.
    set (pos2 := g_utf8_offset_to_pointer s 75) in *.
    assert (N : pre <> []) by (intros ->; cbn in E; rewrite <- E in L2; lia).
    rewrite E. rewrite E in A. replace (g_utf8_strlen (pre ++ pos2)) with (g_utf8_strlen s) by (by rewrite <- E).
    apply fold_loop_folds; [done|done|lia|done].
  - split; [by apply folds_refl|done].
Qed.

(** ** Escaping *)

Lemma escape_internal v : Forall (fun c => c <> 13) v -> e_vcard_escape_string_internal v false = escape v.
Proof.
  induction 1 as [|c v N A IH]; [done|]. cbn [e_vcard_escape_string_internal andb].
  unfold escape. cbn [map concat]. f_equal. destruct v as [|d v]; [done|].
  by rewrite (proj2 (Z.eqb_neq c 13) N).
Qed.
Lemma escape_internal_quoted v : Forall (fun c => c <> 13 /\ c <> 34) v ->
  e_vcard_escape_string_internal v true = escape v.
Proof.
  induction 1 as [|c v [N N2] A IH]; [done|]. cbn [e_vcard_escape_string_internal andb].
  rewrite (proj2 (Z.eqb_neq c 34) N2). unfold escape. cbn [map concat]. f_equal. destruct v as [|d v]; [done|].
  by rewrite (proj2 (Z.eqb_neq c 13) N).
Qed.

Lemma escape_char_bytes c : 0 < c < 128 -> Forall (fun x => 0 < x < 128) (escape_char c).
Proof. intros H. unfold escape_char. repeat case_match; repeat constructor; done || lia. Qed.
Lemma escape_char_high c : 128 <= c -> escape_char c = [c].
Proof.
  intros H. unfold escape_char. repeat case_match; try done; exfalso;
    match goal with E : (c =? _) = true |- _ => apply Z.eqb_eq in E as -> end; by apply H.
Qed.

Lemma escape_app a b : escape (a ++ b) = escape a ++ escape b.
Proof. unfold escape. by rewrite map_app, concat_app. Qed.
Lemma escape_high a : Forall (fun c => 128 <= c) a -> escape a = a.
Proof.
  induction 1 as [|c a H A IH]; [done|]. unfold escape in *. cbn [map concat]. by rewrite escape_char_high, IH.
Qed.

(** The bytes before the first ASCII character. *)
Lemma high_span (v : text) : exists a b, v = a ++ b /\ Forall (fun c => 128 <= c) a /\
  match b with c :: _ => c < 128 | [] => True end.
Proof.
  induction v as [|c v (a & b & -> & A & B)]; [by exists [], []|].
  destruct (Z.lt_ge_cases c 128); [by exists [], (c :: a ++ b)|]. by exists (c :: a), b; auto.
Qed.

Lemma utf8_escape v : utf8 v -> utf8 (escape v).
Proof.
  remember (length v) as n eqn:E. revert v E. induction (lt_wf n) as [n _ IH]. intros v -> V.
  destruct (high_span v) as (a & b & -> & A & B). rewrite escape_app, (escape_high a A).
  destruct b as [|c b]; [by rewrite app_nil_r in *|].
  assert (C : 0 < c < 128).
  { pose proof (utf8_bytes _ V) as Y. rewrite list.Forall_app, list.Forall_cons in Y. lia. }
  destruct (utf8_split a c b C V) as [Va Vb].
  apply utf8_app; [done|]. unfold escape. cbn [map concat].
  apply utf8_app; [by apply utf8_ascii_text, escape_char_bytes|].
  apply (IH (length b)); [rewrite length_app; cbn; lia|done|done].
Qed.

Lemma escape_no_end v : Forall (fun c => c <> 13 /\ c <> 0) v -> Forall (fun c => is_end c = false) (escape v).
Proof.
  induction 1 as [|c v [N1 N2] A IH]; [constructor|]. unfold escape. cbn [map concat].
  apply list.Forall_app. split; [|done]. unfold escape_char.
  repeat case_match; repeat constructor. unfold is_end, is_nl. zb; lia.
Qed.

(** ** Parameter values *)

Definition plain_byte (c : Z) : Prop := isalnum c = true \/ 128 <= c.

Lemma needs_quotes_plain fuel : forall v, utf8 v -> (length v <= fuel)%nat ->
  needs_quotes g_utf8_get_char g_utf8_next_char g_unichar_isalnum fuel v = false -> Forall plain_byte v.
Proof.
  induction fuel as [|fuel IH]; intros v V L H; [by destruct v; [constructor|cbn in L; lia]|].
  destruct v as [|c r]; [constructor|]. cbn [needs_quotes] in H.
  destruct (g_unichar_isalnum (g_utf8_get_char (c :: r))) eqn:E; [|done]. cbn [negb] in H.
  assert (C : 0 < c < 256) by (pose proof (utf8_bytes _ V) as Y; by apply list.Forall_cons in Y as [Y _]).
  destruct (Z.lt_ge_cases c 128) as [Lt|Ge].
  - destruct (utf8_ascii_char c r V Lt) as [E1 E2]. rewrite E1, unichar_isalnum_ascii in E by lia.
    rewrite E2 in H. constructor; [by left|]. apply IH; [|cbn in L; lia|done].
    by destruct (utf8_split [] c r ltac:(lia) V).
  - destruct (utf8_next c r V Ge) as (pre & E2 & Hp & V2).
    assert (R : Forall plain_byte (g_utf8_next_char (c :: r))).
    { apply IH; [done| |done]. apply (f_equal length) in E2. rewrite length_app in E2. cbn in L. lia. }
    constructor; [by right|]. rewrite E2. apply list.Forall_app. split; [|done].
    eapply list.Forall_impl; [exact Hp|]. intros x Hx. by right.
Qed.

(** A value of a parameter as the model can write and read it. *)
Definition param_value_ok (v : text) : Prop := v <> [] /\ utf8 v /\ Forall (fun c => c <> 13 /\ c <> 34) v.

Section Reading.
Context (tail rest : text) (Ht : line_tail tail rest).
Notation pcont := (pcont tail g_utf8_validate).

Lemma pcont_plain v L p attr out : Forall plain_byte v -> forall e,
  pcont L (e ++ v) (Some p) false attr out -> pcont (v ++ L) e (Some p) false attr out.
Proof.
  induction 1 as [|c v C A IH]; intros e K; [by rewrite app_nil_r in K|]. cbn [app].
  assert (K' : pcont (v ++ L) (e ++ [c]) (Some p) false attr out) by (apply IH; by rewrite <- app_assoc).
  destruct C as [C|C]; [|by apply pcont_chunk].
  apply pcont_char; [|done| |done].
  - unfold isalnum, isalpha, isupper, islower, isdigit in C. zb; lia.
  - intros _. unfold is_name_char. by rewrite C, orb_true_r.
Qed.

Lemma pcont_quoted v L p attr out : Forall (fun c => c <> 13 /\ c <> 34) v -> forall e,
  pcont L (e ++ v) (Some p) true attr out -> pcont (escape v ++ L) e (Some p) true attr out.
Proof.
  induction 1 as [|c v [N N2] A IH]; intros e K; [by rewrite app_nil_r in K|].
  assert (K' : pcont (escape v ++ L) (e ++ [c]) (Some p) true attr out) by (apply IH; by rewrite <- app_assoc).
  unfold escape. cbn [map concat]. rewrite <- app_assoc.
  destruct (escape_char_cases c N) as [(E & N1 & _)|(x & E & V)]; rewrite E; cbn [app].
  - by apply pcont_char.
  - apply (pcont_escape _ _ x c); [done| |done].
    unfold escape_char in E. unfold value_escape in V. 
    repeat case_match; simplify_eq; try done; unfold is_end, is_nl; zb; try lia.
Qed.

Lemma pcont_value v L p attr out : param_value_ok v ->
  pcont L v (Some p) false attr out -> pcont (param_value_string v ++ L) [] (Some p) false attr out.
Proof.
  intros (N & V & A) K. unfold VCardWrite.param_value_string.
  destruct (needs_quotes _ _ _ _ v) eqn:Q.
  - rewrite escape_internal_quoted by done. rewrite <- !app_assoc.
    apply pcont_quote, pcont_quoted; [done|]. by apply pcont_quote.
  - apply pcont_plain; [|done]. eapply needs_quotes_plain; [done|done|exact Q].
Qed.

(** The values of a parameter but the last. *)
Fixpoint param_out (v : text) (vs : list text) (p : EVCardAttributeParam) : EVCardAttributeParam * text :=
  match vs with
  | [] => (p, v)
  | w :: vs => param_out w vs (e_vcard_attribute_param_add_value p v)
  end.
Lemma param_out_add v vs p : let '(q, w) := param_out v vs p in
  e_vcard_attribute_param_add_value q w = fold_left e_vcard_attribute_param_add_value (v :: vs) p.
Proof. revert v p. induction vs as [|w vs IH]; intros v p; [done|]. apply IH. Qed.

Lemma special_free_head p q : param_name p = param_name q -> head (param_values p) = head (param_values q) ->
  special_free p = special_free q.
Proof. intros E1 E2. unfold special_free. by rewrite E1, E2. Qed.

Lemma add_value_special u p v : special_free u = true -> param_name p = param_name u ->
  head (param_values p ++ [v]) = head (param_values u) ->
  special_free (e_vcard_attribute_param_add_value p v) = true.
Proof. intros S N H. by rewrite (special_free_head _ u). Qed.

Lemma param_out_special u v vs : special_free u = true -> forall p, param_name p = param_name u ->
  head (param_values p ++ [v]) = head (param_values u) ->
  let '(q, w) := param_out v vs p in special_free (e_vcard_attribute_param_add_value q w) = true.
Proof.
  intros S. revert v. induction vs as [|w vs IH]; intros v p N H; cbn [param_out].
  - by apply (add_value_special u).
  - apply IH; [done|]. cbn. destruct (param_values p); done.
Qed.

Lemma pcont_values u L attr out vs : special_free u = true -> forall v p,
  param_name p = param_name u -> head (param_values p ++ [v]) = head (param_values u) ->
  Forall param_value_ok (v :: vs) ->
  (let '(q, w) := param_out v vs p in pcont L w (Some q) false attr out) ->
  pcont (join [ch ","] (map param_value_string (v :: vs)) ++ L) [] (Some p) false attr out.
Proof.
  intros S. induction vs as [|w vs IH]; intros v p N H A K; apply list.Forall_cons in A as [Av A].
  - cbn [map join]. by apply pcont_value.
  - change (join _ _) with (param_value_string v ++ ch "," :: join [ch ","] (map param_value_string (w :: vs))).
    rewrite <- app_assoc. apply pcont_value; [done|]. cbn [app].
    assert (M : make_valid v = v) by (apply make_valid_id, Av).
    apply pcont_comma; [apply Av| |].
    + rewrite M. by apply (add_value_special u).
    + rewrite M. apply IH; [done| |done|done]. cbn. by destruct (param_values p).
Qed.

(** A parameter that the writer writes so that the reader gets it back. *)
Definition param_writable (p : EVCardAttributeParam) : Prop :=
  param_name p <> [] /\ Forall (fun c => is_name_char c = true) (param_name p) /\
  param_values p <> [] /\ Forall param_value_ok (param_values p) /\ special_free p = true.

Lemma name_chars_utf8 s : Forall (fun c => is_name_char c = true) s -> utf8 s.
Proof.
  intros A. apply utf8_ascii_text. eapply list.Forall_impl; [exact A|].
  intros c C%name_char_range. lia.
Qed.

Lemma pcont_name s L param attr out : Forall (fun c => is_name_char c = true) s -> forall e,
  pcont L (e ++ s) param false attr out -> pcont (s ++ L) e param false attr out.
Proof.
  induction 1 as [|c s N A IH]; intros e K; [by rewrite app_nil_r in K|].
  apply pcont_char; [|done|done|].
  - apply name_char_range in N. lia.
  - apply IH. by rewrite <- app_assoc.
Qed.

Lemma add_values_eq vs p : fold_left e_vcard_attribute_param_add_value vs p =
  {| param_name := param_name p; param_values := param_values p ++ vs |}.
Proof.
  revert p. induction vs as [|v vs IH]; intros [n ws]; cbn; [by rewrite app_nil_r|].
  rewrite IH. cbn. by rewrite <- app_assoc.
Qed.
Lemma param_copy_id p : e_vcard_attribute_param_copy p = p.
Proof. unfold e_vcard_attribute_param_copy. rewrite add_values_eq. by destruct p. Qed.

(** A parameter behind its semicolon. *)
Definition param_body (p : EVCardAttributeParam) : text :=
  param_name p ++ [61] ++ join [ch ","] (map param_value_string (param_values p)).

Lemma pcont_param p L attr out : param_writable p ->
  (forall q w, e_vcard_attribute_param_add_value q w = p -> w <> [] -> make_valid w = w ->
     pcont L w (Some q) false attr out) ->
  pcont (param_body p ++ L) [] None false attr out.
Proof.
  intros (N & A & Nv & Av & S) K. unfold param_body. rewrite <- !app_assoc.
  apply pcont_name; [done|]. cbn [app]. apply pcont_equals; [done|].
  rewrite make_valid_id by (by apply name_chars_utf8).
  destruct p as [name [|v vs]]; [done|]. cbn [param_name param_values] in *.
  apply (pcont_values {| param_name := name; param_values := v :: vs |}); [done|done|done|done|].
  pose proof (param_out_add v vs (e_vcard_attribute_param_new name)) as O.
  assert (W : let '(q, w) := param_out v vs (e_vcard_attribute_param_new name) in param_value_ok w).
  { clear -Av. revert v Av. generalize (e_vcard_attribute_param_new name).
    induction vs as [|w vs IH]; intros q v A; apply list.Forall_cons in A as [A1 A2]; [done|]. by apply IH. }
  destruct (param_out _ _ _) as [q w]. apply K; [|apply W|by apply make_valid_id, W].
  rewrite O, add_values_eq. done.
Qed.

(** The parameters up to the colon. *)
Lemma pcont_params ps L : forall p attr (out : text * params_state -> Prop), Forall param_writable (p :: ps) ->
  (forall F, folds L F ->
     out (ch ":" :: F ++ tail, reading None false (fold_left e_vcard_attribute_add_param (p :: ps) attr) [] None)) ->
  pcont (param_body p ++ concat (map param_string ps) ++ ch ":" :: L) [] None false attr out.
Proof.
  induction ps as [|r ps IH]; intros p attr out A K; apply list.Forall_cons in A as [Ap A];
    (apply pcont_param; [done|]; intros q w Eq Nw Vw).
  - apply pcont_colon; [done|rewrite Vw, Eq; apply Ap|]. rewrite Vw, Eq. apply K.
  - cbn [map concat]. assert (param_string r = ch ";" :: param_body r) as ->.
    { apply list.Forall_cons in A as [(_ & _ & Nv & _) _]. unfold VCardWrite.param_string, param_body.
      by destruct (param_values r). }
    rewrite <- app_assoc. cbn [app].
    apply pcont_semicolon; [done|rewrite Vw, Eq; apply Ap|]. rewrite Vw, Eq. by apply IH.
Qed.

(** ** Attributes *)

Definition value_ok (v : text) : Prop := utf8 v /\ Forall (fun c => c <> 13) v.

(** An attribute that the writer writes so that the reader gets it back. *)
Record attribute_writable (a : EVCardAttribute) : Prop := {
  aw_group : match attr_group a with
             | Some g => g <> [] /\ Forall (fun c => is_name_char c = true) g
             | None => True
             end;
  aw_name : attr_name a <> [] /\ Forall (fun c => is_name_char c = true) (attr_name a);
  aw_params : Forall param_writable (attr_params a);
  aw_values : attr_values a <> [] /\ Forall value_ok (attr_values a);
  aw_single : e_vcard_attribute_is_singlevalue_type a = true -> length (attr_values a) = 1%nat }.

(** The line of an attribute before it is folded. *)
Definition line (a : EVCardAttribute) : text :=
  group_string a ++ concat (map param_string (attr_params a)) ++ [ch ":"] ++
  join (value_separator a) (map escape (attr_values a)).

Lemma add_params_head ps a : let b := fold_left e_vcard_attribute_add_param ps a in
  attr_name b = attr_name a /\ attr_group b = attr_group a /\ attr_values b = attr_values a.
Proof.
  revert a. induction ps as [|p ps IH]; intros a; [done|]. cbn [fold_left].
  destruct (IH (e_vcard_attribute_add_param a p)) as (-> & -> & ->). unfold e_vcard_attribute_add_param.
  match goal with |- context [encoding_of ?x p] => destruct (encoding_of_params x p) as (_ & -> & -> & ->) end.
  by case_match.
Qed.

Lemma add_values_with vs a : fold_left e_vcard_attribute_add_value vs a =
  with_values a (attr_values a ++ vs) (attr_decoded_values a).
Proof.
  revert a. induction vs as [|v vs IH]; intros a; cbn [fold_left].
  - rewrite app_nil_r. by destruct a.
  - rewrite IH. cbn. by rewrite <- app_assoc.
Qed.

Lemma add_param_values a p vs ds : e_vcard_attribute_add_param (with_values a vs ds) p =
  with_values (e_vcard_attribute_add_param a p) vs ds.
Proof.
  unfold e_vcard_attribute_add_param. cbn [with_values attr_params].
  destruct (merge_param _ _); unfold encoding_of; cbn; repeat case_match; done.
Qed.
Lemma add_params_values ps a vs ds : fold_left e_vcard_attribute_add_param ps (with_values a vs ds) =
  with_values (fold_left e_vcard_attribute_add_param ps a) vs ds.
Proof. revert a. induction ps as [|p ps IH]; intros a; [done|]. cbn. by rewrite add_param_values, IH. Qed.

(** What the reader builds is a copy. *)
Lemma copy_eq a : e_vcard_attribute_copy a =
  fold_left e_vcard_attribute_add_value (attr_values a)
    (fold_left e_vcard_attribute_add_param (attr_params a) (e_vcard_attribute_new (attr_group a) (attr_name a))).
Proof.
  unfold e_vcard_attribute_copy. rewrite !add_values_with.
  transitivity (fold_left e_vcard_attribute_add_param (attr_params a)
    (with_values (e_vcard_attribute_new (attr_group a) (attr_name a)) (attr_values a) [])).
  - generalize (attr_params a). intros ps.
    match goal with |- fold_left _ _ ?x = fold_left _ _ ?y => change x with y; generalize y end.
    induction ps as [|p ps IH]; intros b; [done|]. cbn. by rewrite param_copy_id, IH.
  - rewrite add_params_values.
    destruct (add_params_head (attr_params a) (e_vcard_attribute_new (attr_group a) (attr_name a))) as (_ & _ & E).
    rewrite E. cbn. f_equal.
    generalize (attr_params a). intros ps. 
    assert (G : forall b, attr_decoded_values (fold_left e_vcard_attribute_add_param ps b) = attr_decoded_values b).
    { induction ps as [|p ps IH]; intros b; [done|]. cbn. rewrite IH. unfold e_vcard_attribute_add_param, encoding_of.
      repeat case_match; done. }
    by rewrite G.
Qed.

Lemma single_name a b : attr_name a = attr_name b ->
  e_vcard_attribute_is_singlevalue_type a = e_vcard_attribute_is_singlevalue_type b.
Proof. unfold e_vcard_attribute_is_singlevalue_type. by intros ->. Qed.

Lemma read_values a b F : attribute_writable a -> attr_name b = attr_name a ->
  folds (join (value_separator a) (map escape (attr_values a))) F ->
  read_attribute_value g_utf8_validate g_convert false None b (F ++ tail) =
  Got (fold_left e_vcard_attribute_add_value (attr_values a) b, rest).
Proof.
  intros W N H. destruct (aw_values _ W) as [Nv Av]. pose proof (aw_single _ W) as Sv.
  unfold value_separator in H. destruct (attr_values a) as [|v vs]; [done|].
  rewrite (read_folded_values tail rest Ht g_utf8_validate g_convert None
    (if strcase_eqb (attr_name a) EVC_CATEGORIES then ch "," else ch ";") v vs b F).
  5: exact H.
  - f_equal. f_equal. clear -Av. revert b. induction (v :: vs) as [|w ws IH]; intros b; [done|].
    apply list.Forall_cons in Av as [Aw Av]. cbn [fold_left]. rewrite IH by done. f_equal.
    unfold add_read_value. cbn [convert_value]. by rewrite make_valid_id by apply Aw.
  - by case_match.
  - intros M. rewrite (single_name a b) in Sv by done. unfold is_sep. rewrite N.
    destruct (strcase_eqb (attr_name a) EVC_CATEGORIES); [by rewrite orb_true_r|].
    destruct (e_vcard_attribute_is_singlevalue_type b); [|done].
    specialize (Sv eq_refl). by destruct vs.
  - eapply list.Forall_impl; [exact Av|]. by intros w [_ Aw].
Qed.

Lemma read_params_folded p ps L attr F : Forall param_writable (p :: ps) ->
  folds (param_body p ++ concat (map param_string ps) ++ ch ":" :: L) F ->
  exists F', folds L F' /\
    read_attribute_params g_utf8_validate attr (F ++ tail) =
    Got (fold_left e_vcard_attribute_add_param (p :: ps) attr, ch ":" :: F' ++ tail, false, None).
Proof.
  intros A H. unfold read_attribute_params.
  destruct (pcont_params ps L p attr
    (fun o => exists F', folds L F' /\ o = (ch ":" :: F' ++ tail,
       reading None false (fold_left e_vcard_attribute_add_param (p :: ps) attr) [] None)) A
    (fun F1 H1 => ex_intro _ F1 (conj H1 eq_refl)) F [] None H eq_refl (S (length (F ++ tail))) ltac:(lia)) as (o & E & F' & H' & ->).
  exists F'. split; [done|]. unfold reading in E. by rewrite E.
Qed.

(** The text behind the name. *)
Definition behind_name (a : EVCardAttribute) : text :=
  concat (map param_string (attr_params a)) ++ [ch ":"] ++ join (value_separator a) (map escape (attr_values a)).

Lemma behind_name_cases a : Forall param_writable (attr_params a) ->
  let V := join (value_separator a) (map escape (attr_values a)) in
  (attr_params a = [] /\ behind_name a = ch ":" :: V) \/
  (exists p ps, attr_params a = p :: ps /\
     behind_name a = ch ";" :: param_body p ++ concat (map param_string ps) ++ ch ":" :: V).
Proof.
  intros A. unfold behind_name. destruct (attr_params a) as [|p ps]; [by left|right].
  exists p, ps. split; [done|]. apply list.Forall_cons in A as [(_ & _ & Nv & _) _].
  cbn [map concat]. unfold VCardWrite.param_string, param_body.
  destruct (param_values p); [done|]. cbn [app]. by rewrite <- !app_assoc.
Qed.

Lemma read_name a F (out : name_result -> Prop) : attribute_writable a ->
  folds (group_string a ++ behind_name a) F ->
  (forall c L F', behind_name a = c :: L -> folds L F' ->
     out (NameRead (attr_group (e_vcard_attribute_new (attr_group a) (attr_name a))) (attr_name a) (c :: F' ++ tail))) ->
  nrun g_utf8_validate (F ++ tail) [] None out.
Proof.
  intros W H K.
  destruct (aw_name _ W) as [Nn An]. pose proof (aw_group _ W) as G.
  assert (C : exists c L, behind_name a = c :: L /\ (c = ch ":" \/ c = ch ";")).
  { destruct (behind_name_cases a (aw_params _ W)) as [[_ ->]|(p & ps & _ & ->)]; eauto. }
  destruct C as (c & L & E & C). 
  assert (R : forall F g, folds (attr_name a ++ behind_name a) F ->
    g = attr_group (e_vcard_attribute_new (attr_group a) (attr_name a)) -> nrun g_utf8_validate (F ++ tail) [] g out).
  { intros F1 g H1 Eg. eapply nrun_chars; [exact An|exact H1|]. intros F2 H2. rewrite E in H2.
    eapply nrun_name; [done|exact C|exact H2|]. intros F3 H3.
    rewrite Eg, make_valid_id by (by apply name_chars_utf8). by apply (K c L). }
  unfold group_string in H. destruct (attr_group a) as [g|]; [|by apply R].
  destruct G as [Ng Ag]. rewrite <- !app_assoc in H.
  eapply nrun_chars; [exact Ag|exact H|]. intros F1 H1.
  eapply nrun_group; [done|exact H1|]. intros F2 H2. apply R; [done|].
  rewrite make_valid_id by (by apply name_chars_utf8). by destruct g.
Qed.

Lemma read_line a F : attribute_writable a -> folds (line a) F ->
  read_attribute g_utf8_validate g_convert (F ++ tail) = Got (Some (e_vcard_attribute_copy a), rest).
Proof.
  intros W H. rewrite copy_eq. unfold read_attribute.
  destruct (read_name a F (fun r => exists c L F', behind_name a = c :: L /\ folds L F' /\
    r = NameRead (attr_group (e_vcard_attribute_new (attr_group a) (attr_name a))) (attr_name a) (c :: F' ++ tail))
    W H (fun c L F1 E H1 => ex_intro _ c (ex_intro _ L (ex_intro _ F1 (conj E (conj H1 eq_refl))))) (S (length (F ++ tail))) ltac:(lia)) as (o & -> & c & L & F1 & E & H1 & ->).
  cbn [mbind read_bind].
  set (b := e_vcard_attribute_new (attr_group a) (attr_name a)).
  assert (e_vcard_attribute_new (attr_group b) (attr_name a) = b) as ->.
  { unfold b. cbn. by destruct (attr_group a) as [[|x g]|]. }
  set (d := fold_left e_vcard_attribute_add_param (attr_params a) b).
  assert (P : exists F2, folds (join (value_separator a) (map escape (attr_values a))) F2 /\
    (if deref (c :: F1 ++ tail) =? ch ";" then
       lp ← advance (c :: F1 ++ tail);
       '(attr, lp, is_qp, charset) ← read_attribute_params g_utf8_validate b lp;
       mret (if is_qp : bool then with_encoding attr EVC_ENCODING_RAW (attr_encoding_set attr) else attr,
             lp, is_qp, charset)
     else mret (b, c :: F1 ++ tail, false, None)) = Got (d, ch ":" :: F2 ++ tail, false, None)).
  { unfold d. destruct (behind_name_cases a (aw_params _ W)) as [[Ep Eb]|(p & ps & Ep & Eb)];
      rewrite Eb in E; injection E as <- <-; rewrite Ep.
    - by exists F1.
    - pose proof (aw_params _ W) as A. rewrite Ep in A.
      destruct (read_params_folded p ps _ b F1 A H1) as (F2 & H2 & R). exists F2. split; [done|].
      cbn [deref Z.eqb Pos.eqb advance mbind read_bind]. by rewrite R. }
  destruct P as (F2 & H2 & ->). cbn [mbind read_bind deref advance].
  rewrite (read_values a d F2 W); [|unfold d; by destruct (add_params_head (attr_params a) b) as (-> & _)|done].
  cbn. rewrite add_values_with. cbn. destruct (aw_values _ W) as [Nv _].
  by destruct (attr_values d), (attr_values a).
Qed.
End Reading.
End Writer.
