(* ===== verification/VCardRoundtrip.v ===== *)
(** What [e_vcard_to_string_vcard] writes, the parser reads back. *)
From Stdlib Require Import ZArith Lia Ascii.
From stdpp Require Import base list option strings.
From S2P Require Import Prelude StringUtils Utf8 VCard VCardParse VCardWrite VCardParseSpec VCardFolds VCardParams VCardLines.
Local Open Scope Z_scope.

Section Writer.
Context {g_utf8_validate : text -> option nat} {g_utf8_strlen : text -> nat}.
Context {g_utf8_offset_to_pointer : text -> nat -> text} {g_utf8_get_char : text -> Z}.
Context {g_utf8_next_char : text -> text} {g_unichar_isalnum : Z -> bool}.
Context {laws : Utf8Laws g_utf8_validate g_utf8_strlen g_utf8_offset_to_pointer g_utf8_get_char
                  g_utf8_next_char g_unichar_isalnum}.
Context (g_convert : text -> text -> option text).

Notation utf8 s := (g_utf8_validate s = None).
Notation make_valid := (make_utf8_valid g_utf8_validate).
Notation fold_line := (fold_line g_utf8_strlen g_utf8_offset_to_pointer).
Notation fold_loop := (fold_loop g_utf8_offset_to_pointer).
Notation param_value_string := (param_value_string g_utf8_get_char g_utf8_next_char g_unichar_isalnum).
Notation param_string := (param_string g_utf8_get_char g_utf8_next_char g_unichar_isalnum).

Notation param_value_ok := (@VCardLines.param_value_ok g_utf8_validate).
Notation param_writable := (@VCardLines.param_writable g_utf8_validate).
Notation attribute_writable := (@VCardLines.attribute_writable g_utf8_validate).
Notation line := (@VCardLines.line g_utf8_get_char g_utf8_next_char g_unichar_isalnum).

(** ** Lines *)

(** A text that can stand in a line. *)
Definition clean (s : text) : Prop := utf8 s /\ Forall (fun c => is_end c = false) s.

Lemma clean_app a b : clean a -> clean b -> clean (a ++ b).
Proof. intros [A1 A2] [B1 B2]. split; [by apply utf8_app|by apply list.Forall_app]. Qed.
Lemma clean_nil : clean [].
Proof. split; [apply utf8_nil|constructor]. Qed.
Lemma clean_char c : 0 < c < 128 -> is_end c = false -> clean [c].
Proof. intros H E. split; [by apply utf8_ascii|by constructor]. Qed.
Lemma clean_escape v : utf8 v -> Forall (fun c => c <> 13) v -> clean (escape v).
Proof.
  intros V A. split; [by apply utf8_escape|apply escape_no_end].
  pose proof (utf8_bytes _ V) as Y. clear V. induction A as [|c v N A IH]; [constructor|].
  apply list.Forall_cons in Y as [Y1 Y2]. constructor; [lia|auto].
Qed.
Lemma clean_name s : Forall (fun c => is_name_char c = true) s -> clean s.
Proof.
  intros A. split; [by apply name_chars_utf8|]. eapply list.Forall_impl; [exact A|].
  intros c C%name_char_range. unfold is_end, is_nl. zb; lia.
Qed.
Lemma clean_join c l : clean [c] -> Forall clean l -> clean (join [c] l).
Proof.
  intros C. induction 1 as [|x l X A IH]; [apply clean_nil|]. destruct l as [|y l]; [done|].
  change (join [c] (x :: y :: l)) with (x ++ [c] ++ join [c] (y :: l)). auto using clean_app.
Qed.
Lemma clean_concat l : Forall clean l -> clean (concat l).
Proof. induction 1; [apply clean_nil|by apply clean_app]. Qed.

Lemma clean_param_value v : param_value_ok v -> clean (param_value_string v).
Proof.
  intros (N & V & A).
  assert (A1 : Forall (fun c => c <> 13) v) by (eapply list.Forall_impl; [exact A|]; naive_solver).
  unfold VCardWrite.param_value_string. destruct (needs_quotes _ _ _ _ v) eqn:Q.
  - rewrite escape_internal_quoted by done. assert (C : clean [34]) by (by apply clean_char).
    apply clean_app; [done|]. apply clean_app; [by apply clean_escape|done].
  - split; [done|]. pose proof (needs_quotes_plain _ v V (le_n _) Q) as P.
    eapply list.Forall_impl; [exact P|]. intros c [C|C].
    + unfold isalnum, isalpha, isupper, islower, isdigit in C. unfold is_end, is_nl. zb; lia.
    + unfold is_end, is_nl. zb; lia.
Qed.

Lemma clean_param p : param_writable p -> clean (param_string p).
Proof.
  intros (N & A & Nv & Av & _). unfold VCardWrite.param_string.
  apply clean_app; [by apply clean_char|]. apply clean_app; [by apply clean_name|].
  destruct (param_values p) as [|v vs]; [done|]. apply clean_app; [by apply clean_char|].
  apply clean_join; [by apply clean_char|]. apply List.Forall_map.
  eapply list.Forall_impl; [exact Av|apply clean_param_value].
Qed.

Lemma clean_line a : attribute_writable a -> clean (line a).
Proof.
  intros W. unfold line. destruct (aw_values _ W) as [Nv Av]. apply clean_app; [|apply clean_app; [|apply clean_app]].
  - unfold group_string. pose proof (aw_group _ W) as G. apply clean_app; [|apply clean_name, W].
    destruct (attr_group a); [|apply clean_nil]. apply clean_app; [apply clean_name, G|by apply clean_char].
  - apply clean_concat, List.Forall_map. eapply list.Forall_impl; [apply W|apply clean_param].
  - by apply clean_char.
  - apply clean_join; [by unfold value_separator; case_match; apply clean_char|].
    apply List.Forall_map. eapply list.Forall_impl; [exact Av|]. intros v [V A]. by apply clean_escape.
Qed.

Lemma line_head a : attribute_writable a -> exists c r, line a = c :: r /\ is_name_char c = true.
Proof.
  intros W. unfold line, group_string. pose proof (aw_group _ W) as G. destruct (aw_name _ W) as [N A].
  destruct (attr_group a) as [g|].
  - destruct G as [Ng Ag]. destruct g as [|c g]; [done|]. apply list.Forall_cons in Ag as [Ag _]. by do 2 eexists.
  - destruct (attr_name a) as [|c n]; [done|]. apply list.Forall_cons in A as [A _]. by do 2 eexists.
Qed.

(** A next line does not continue a line. *)
Definition starts_line (s : text) : Prop := is_blank (deref s) = false /\ is_nl (deref s) = false.

Lemma name_char_starts c : is_name_char c = true -> is_blank c = false /\ is_nl c = false.
Proof. intros C%name_char_range. unfold is_blank, is_nl. split; zb; lia. Qed.

(** The reader at a written line. *)
Lemma read_written a rest : attribute_writable a -> starts_line rest ->
  read_attribute g_utf8_validate g_convert (fold_line (line a) ++ CRLF ++ rest) =
    Got (Some (e_vcard_attribute_copy a), rest) /\
  starts_line (fold_line (line a) ++ CRLF ++ rest) /\ deref (fold_line (line a) ++ CRLF ++ rest) <> 0.
Proof.
  intros W [S1 S2]. destruct (clean_line a W) as [V A]. destruct (fold_line_folds _ V A) as [H Hd].
  assert (T : line_tail (13 :: 10 :: rest) rest) by done.
  split; [exact (read_line g_convert _ _ T a _ W H)|].
  destruct (line_head a W) as (c & r & E & C). rewrite E in Hd, H |- *. cbn [hd] in Hd.
  destruct (fold_line (c :: r)) as [|x F] eqn:Ef; [inversion H|]. cbn in Hd. subst x. cbn [app deref]. split.
  - by apply name_char_starts.
  - apply name_char_range in C. cbn. lia.
Qed.

(** ** The writer *)

Notation attribute_string := (attribute_string g_utf8_strlen g_utf8_offset_to_pointer g_utf8_get_char
  g_utf8_next_char g_unichar_isalnum).
Notation attributes_string := (attributes_string g_utf8_strlen g_utf8_offset_to_pointer g_utf8_get_char
  g_utf8_next_char g_unichar_isalnum).

(** The parameters of an attribute that a version has. *)
Definition kept_params (evc_params : option (list text)) (a : EVCardAttribute) : EVCardAttribute :=
  with_params a (List.filter (fun p => valid_name evc_params (param_name p)) (attr_params a)).

(** The attributes that are written. *)
Definition is_written (evc_prop : option (list text)) (a : EVCardAttribute) : bool :=
  negb (named a (bs "VERSION")) && valid_name evc_prop (attr_name a).

(** An attribute that is written, and read again as it is: no quoted-printable
    values, which the writer decodes, and not the end of the vCard. *)
Definition writable (evc_params : option (list text)) (a : EVCardAttribute) : Prop :=
  attribute_writable (kept_params evc_params a) /\ named a (bs "end") = false /\
  Forall (fun p => is_qp_param p = false) (attr_params a).

Lemma params_string_plain evc_params ps : Forall (fun p => is_qp_param p = false) ps ->
  params_string g_utf8_get_char g_utf8_next_char g_unichar_isalnum evc_params None ps =
  (concat (map param_string (List.filter (fun p => valid_name evc_params (param_name p)) ps)), None).
Proof.
  induction 1 as [|p ps Q A IH]; [done|]. cbn [params_string]. rewrite Q. cbn [List.filter].
  destruct (valid_name evc_params (param_name p)); cbn [negb]; rewrite IH; done.
Qed.

Lemma attribute_string_line evc_params a : writable evc_params a ->
  attribute_string evc_params a = (fold_line (line (kept_params evc_params a)) ++ CRLF, a).
Proof.
  intros (W & _ & Q). unfold VCardWrite.attribute_string. rewrite params_string_plain by done.
  unfold line. cbn [kept_params with_params attr_params attr_values].
  assert (map e_vcard_escape_string (attr_values a) = map escape (attr_values a)) as ->.
  { apply map_ext_in. intros v Hv. apply escape_internal.
    destruct (aw_values _ W) as [_ A]. rewrite List.Forall_forall in A. by apply A. }
  f_equal. by destruct a.
Qed.

(** The lines of the attributes that are written. *)
Definition lines (evc_prop evc_params : option (list text)) (l : list EVCardAttribute) : text :=
  concat (map (fun a => fold_line (line (kept_params evc_params a)) ++ CRLF) (List.filter (is_written evc_prop) l)).

Lemma lines_cons evc_prop evc_params a l : lines evc_prop evc_params (a :: l) =
  (if is_written evc_prop a then fold_line (line (kept_params evc_params a)) ++ CRLF else []) ++
  lines evc_prop evc_params l.
Proof. unfold lines. cbn [List.filter]. by destruct (is_written evc_prop a). Qed.

Lemma attributes_string_lines evc_prop evc_params l : Forall (writable evc_params) (List.filter (is_written evc_prop) l) ->
  attributes_string evc_prop evc_params l = (lines evc_prop evc_params l, l).
Proof.
  induction l as [|a l IH]; [done|]. rewrite lines_cons. cbn [VCardWrite.attributes_string List.filter].
  assert (is_written evc_prop a = negb (named a (bs "VERSION") || negb (valid_name evc_prop (attr_name a)))) as ->
    by (unfold is_written; by destruct (named _ _), (valid_name _ _)).
  destruct (named a (bs "VERSION") || _); cbn [negb]; intros A; [by rewrite IH|].
  apply list.Forall_cons in A as [W A]. by rewrite attribute_string_line, IH.
Qed.

(** ** The reader *)

Lemma copy_name a : attr_name (e_vcard_attribute_copy a) = attr_name a.
Proof. rewrite copy_eq, add_values_with. cbn. by destruct (add_params_head (attr_params a) (e_vcard_attribute_new (attr_group a) (attr_name a))) as (-> & _). Qed.

Definition END_VCARD : text := bs "END:VCARD".

Lemma read_end : exists a, read_attribute g_utf8_validate g_convert END_VCARD = Got (Some a, []) /\
  named a (bs "end") = true.
Proof.
  exists (e_vcard_attribute_add_value (e_vcard_attribute_new None (make_valid (bs "END"))) (make_valid (bs "VCARD"))).
  split; [reflexivity|]. unfold named. cbn [e_vcard_attribute_add_value with_values attr_name e_vcard_attribute_new].
  rewrite make_valid_id; [done|]. apply utf8_ascii_text. repeat constructor.
Qed.

(** The vCard with attributes added, the last first. *)
Definition with_added (evc : EVCard) (l : list EVCardAttribute) : EVCard :=
  with_attributes evc (reverse l ++ attributes evc).

Lemma add_parsed_plain evc a : named a EVC_VERSION = false -> add_parsed evc a = with_added evc [a].
Proof. intros N. unfold add_parsed, cache_version_from_attr. rewrite N. by case_match; [|case_match]. Qed.

Lemma starts_lines evc_prop evc_params l : Forall (writable evc_params) (List.filter (is_written evc_prop) l) ->
  starts_line (lines evc_prop evc_params l ++ END_VCARD).
Proof.
  induction l as [|a l IH]; [done|]. rewrite lines_cons. cbn [List.filter].
  destruct (is_written evc_prop a); [|done]. intros A. apply list.Forall_cons in A as [W A].
  rewrite <- !app_assoc. by apply read_written; [apply W|apply IH].
Qed.

Lemma parse_lines evc_prop evc_params l : Forall (writable evc_params) (List.filter (is_written evc_prop) l) ->
  forall fuel evc, (length (lines evc_prop evc_params l ++ END_VCARD) < fuel)%nat ->
  parse_loop g_utf8_validate g_convert fuel (lines evc_prop evc_params l ++ END_VCARD) evc false =
  Got (with_added evc (map (fun a => e_vcard_attribute_copy (kept_params evc_params a)) (List.filter (is_written evc_prop) l))).
Proof.
  induction l as [|a l IH]; intros A fuel evc L.
  - destruct fuel as [|fuel]; [lia|]. destruct read_end as (e & R & E). cbn [lines List.filter map concat app].
    cbn [parse_loop]. cbn [END_VCARD]. change (deref END_VCARD =? 0) with false. rewrite R. cbn [mbind read_bind].
    rewrite E. by destruct evc.
  - rewrite lines_cons in *. cbn [List.filter] in *.
    destruct (is_written evc_prop a) eqn:Ew; [|by apply IH].
    apply list.Forall_cons in A as [(W & Ne & Q) A]. rewrite <- !app_assoc in *.
    destruct (read_written _ _ W (starts_lines _ _ _ A)) as (R & _ & D).
    destruct fuel as [|fuel]; [lia|]. cbn [parse_loop]. rewrite (proj2 (Z.eqb_neq _ 0) D), R.
    cbn [mbind read_bind andb]. set (b := e_vcard_attribute_copy (kept_params evc_params a)).
    assert (Nb : forall n, named b n = named a n).
    { intros n. unfold named, b. by rewrite copy_name. }
    rewrite Nb, Ne, add_parsed_plain.
    2:{ rewrite Nb. unfold is_written in Ew. apply andb_prop in Ew as [Ew _]. by apply negb_true_iff in Ew. }
    rewrite IH; [|done|].
    2:{ rewrite length_app in L. cbn [CRLF app length] in L. lia. }
    unfold with_added. cbn [map]. fold b. rewrite !reverse_cons. destruct evc as [l0 t0 v0].
    change (reverse []) with (@nil EVCardAttribute). cbn [app]. rewrite <- app_assoc.
    done.
Qed.

(** ** The round trip *)

Lemma clean_text s : Forall (fun c => is_name_char c = true \/ c = ch ".") s -> clean s.
Proof.
  induction 1 as [|c s C A IH]; [apply clean_nil|]. apply (clean_app [c]); [|done].
  destruct C as [C| ->]; [|by apply clean_char]. apply (clean_name [c]). by constructor.
Qed.

(** An attribute with a value of letters, digits and points. *)
Definition simple_attribute (name value : text) : EVCardAttribute :=
  e_vcard_attribute_add_value (e_vcard_attribute_new None name) value.

Lemma value_char_plain c : is_name_char c = true \/ c = ch "." -> escape_char c = [c] /\ c <> 13.
Proof.
  intros C. assert (R : c = 45 \/ c = 46 \/ c = 95 \/ 48 <= c <= 57 \/ 65 <= c <= 90 \/ 97 <= c <= 122).
  { destruct C as [C%name_char_range| ->]; [tauto|by right; left]. }
  split; [|lia]. unfold escape_char. change (ch ";") with 59. change (ch ",") with 44.
  repeat case_match; done || (exfalso; zb; lia).
Qed.

Lemma escape_plain v : Forall (fun c => is_name_char c = true \/ c = ch ".") v -> escape v = v.
Proof.
  induction 1 as [|c v C V IH]; [done|]. unfold escape in *. cbn [map concat].
  destruct (value_char_plain c C) as [-> _]. by rewrite IH.
Qed.

Lemma simple_writable name value : name <> [] -> Forall (fun c => is_name_char c = true) name ->
  Forall (fun c => is_name_char c = true \/ c = ch ".") value -> attribute_writable (simple_attribute name value).
Proof.
  intros N A V. split; [done|done|constructor| |done]. split; [done|]. constructor; [|constructor].
  split; [apply (clean_text _ V)|]. eapply list.Forall_impl; [exact V|]. intros c C. by apply value_char_plain.
Qed.

Lemma read_simple name value rest : name <> [] -> Forall (fun c => is_name_char c = true) name ->
  Forall (fun c => is_name_char c = true \/ c = ch ".") value -> starts_line rest ->
  read_attribute g_utf8_validate g_convert (name ++ [ch ":"] ++ value ++ CRLF ++ rest) =
  Got (Some (simple_attribute name value), rest).
Proof.
  intros N A V [S1 S2]. pose proof (simple_writable name value N A V) as W.
  assert (E : line (simple_attribute name value) = name ++ [ch ":"] ++ value).
  { unfold VCardLines.line, group_string. cbn -[escape]. by rewrite (escape_plain _ V). }
  assert (T : line_tail (13 :: 10 :: rest) rest) by done.
  pose proof (read_line g_convert _ _ T _ _ W (folds_refl _ (proj2 (clean_line _ W)))) as R.
  rewrite E, <- !app_assoc in R. exact R.
Qed.

Lemma read_header v rest : starts_line rest ->
  read_attribute g_utf8_validate g_convert
    (bs "BEGIN:VCARD" ++ CRLF ++ bs "VERSION:" ++ e_vcard_version_to_string v ++ CRLF ++ rest) =
    Got (Some (simple_attribute (bs "BEGIN") (bs "VCARD")),
         bs "VERSION:" ++ e_vcard_version_to_string v ++ CRLF ++ rest) /\
  read_attribute g_utf8_validate g_convert (bs "VERSION:" ++ e_vcard_version_to_string v ++ CRLF ++ rest) =
    Got (Some (simple_attribute EVC_VERSION (e_vcard_version_to_string v)), rest).
Proof.
  intros S. split.
  - apply (read_simple (bs "BEGIN") (bs "VCARD") _); [done| | |done]; apply Forall_forall; 
      intros c Hc; [|left]; revert c Hc; apply Forall_forall; repeat constructor.
  - apply (read_simple (bs "VERSION") (e_vcard_version_to_string v) rest); [done| | |done].
    + repeat constructor.
    + destruct v; repeat (constructor; [first [by left|by right]|]); constructor.
Qed.

(** What is read back: the version, and a copy of each attribute that was
    written with the parameters that were written. *)
Definition read_back (evc : EVCard) (v : EVCardVersion) (props params : option text) : EVCard :=
  {| attributes :=
       simple_attribute EVC_VERSION (e_vcard_version_to_string v) ::
       map (fun a => e_vcard_attribute_copy (kept_params (generate_dict_validator params) a))
         (List.filter (is_written (generate_dict_validator props)) (attributes evc));
     vcard := None; version := v |}.

(** C10. A vCard that is written by [e_vcard_to_string_vcard] and parsed again
    is the same, whatever its lines are folded to: the version, and a copy of
    every attribute that the version has, with the values as they were and the
    parameters that the version has. *)
Theorem vcard_roundtrip (evc : EVCard) (v : EVCardVersion) (props params : option text) :
  vcard evc = None ->
  Forall (writable (generate_dict_validator params))
    (List.filter (is_written (generate_dict_validator props)) (attributes evc)) ->
  exists txt,
    e_vcard_to_string_vcard g_utf8_validate g_convert g_utf8_strlen g_utf8_offset_to_pointer g_utf8_get_char
      g_utf8_next_char g_unichar_isalnum evc v props params = Got (txt, evc) /\
    e_vcard_ensure_attributes g_utf8_validate g_convert (e_vcard_new_from_string txt) =
    Got (read_back evc v props params).
Proof.
  intros N A. unfold e_vcard_to_string_vcard, e_vcard_ensure_attributes at 1. rewrite N. cbn [mbind read_bind mret read_ret].
  rewrite attributes_string_lines by done.
  eexists. split; [by destruct evc|].
  set (l := lines _ _ _).
  assert (S : starts_line (l ++ END_VCARD)) by (by apply starts_lines).
  destruct (read_header v _ S) as [R1 R2].
  unfold e_vcard_ensure_attributes, e_vcard_new_from_string, e_vcard_construct_full.
  set (txt := bs "BEGIN:VCARD" ++ _).
  assert (Nt : match txt with [] => None | _ => Some (if -1 <? 0 then txt else take (Z.to_nat (-1)) txt) end = Some txt)
    by done.
  cbn [vcard attributes version]. rewrite Nt. unfold parse, txt. change (bs "END:VCARD") with END_VCARD.
  rewrite R1. cbn [mbind read_bind]. cbn [parse_loop].
  change (named (simple_attribute (bs "BEGIN") (bs "VCARD")) (bs "begin")) with true. cbn match.
  change (deref (bs "VERSION:" ++ e_vcard_version_to_string v ++ CRLF ++ l ++ END_VCARD) =? 0) with false. cbn match.
  rewrite R2. cbn [mbind read_bind].
  change (named (simple_attribute EVC_VERSION (e_vcard_version_to_string v)) (bs "end")) with false. cbn [andb]. cbn match.
  unfold l. rewrite parse_lines; [|done|].
  - cbn [mbind read_bind mret read_ret]. f_equal. unfold read_back, with_added, add_parsed, cache_version_from_attr.
    destruct v; cbn -[bs reverse]; rewrite reverse_app, reverse_involutive; done.
  - fold l. rewrite (length_app (bs "VERSION:")), (length_app (e_vcard_version_to_string v)), (length_app CRLF).
    change (length (bs "VERSION:")) with 8%nat. lia.
Qed.
End Writer.

(** ** An instance *)

(** GLib's functions on ASCII text. *)
Definition ascii_validate (s : text) : option nat := index_where (fun c => negb ((0 <? c) && (c <? 128))) s.

Lemma ascii_validate_spec s : ascii_validate s = None <-> Forall (fun c => 0 < c < 128) s.
Proof.
  unfold ascii_validate. induction s as [|c s IH]; [by split; [constructor|]|].
  cbn [index_where]. rewrite list.Forall_cons, <- IH.
  destruct ((0 <? c) && (c <? 128)) eqn:E; cbn [negb].
  - apply andb_prop in E as [E1%Z.ltb_lt E2%Z.ltb_lt].
    destruct (index_where _ s); split; try done; by intros [_ H].
  - split; [done|]. intros [H _]. apply andb_false_iff in E as [E%Z.ltb_ge|E%Z.ltb_ge]; lia.
Qed.

#[export] Instance ascii_laws : Utf8Laws ascii_validate (@length Z) (fun s n => drop n s) deref (@tl Z) isalnum.
Proof.
  split.
  - done.
  - intros c H. apply ascii_validate_spec. by constructor.
  - intros a b. rewrite !ascii_validate_spec, list.Forall_app. done.
  - intros a c b H. rewrite !ascii_validate_spec, list.Forall_app, list.Forall_cons. naive_solver.
  - intros s. rewrite ascii_validate_spec. intros A. eapply list.Forall_impl; [exact A|]. intros c Hc. cbv beta in *. lia.
  - done.
  - intros s n V L. exists (take n s). rewrite take_drop, length_drop. split_and!; [done| |done].
    rewrite ascii_validate_spec in V |- *. by apply Forall_drop.
  - done.
  - intros c r V H. apply ascii_validate_spec in V. apply list.Forall_cons in V. lia.
  - done.
Qed.

(** A name, categories, and an address with a group, quoted and unquoted
    parameters and a line that is folded. *)
Definition sample_vcard : EVCard := {|
  attributes := [
    e_vcard_attribute_add_values (e_vcard_attribute_new None (bs "N")) [bs "Doe; a\b"; []; bs "John, Jr."];
    e_vcard_attribute_add_values (e_vcard_attribute_new None (bs "categories")) [bs "a;b"; bs "c,d"];
    e_vcard_attribute_add_values
      (e_vcard_attribute_add_param
        (e_vcard_attribute_add_param (e_vcard_attribute_new (Some (bs "item1")) (bs "ADR"))
          (e_vcard_attribute_param_add_values (e_vcard_attribute_param_new (bs "TYPE")) [bs "home"; bs "x-my"]))
        (e_vcard_attribute_param_add_values (e_vcard_attribute_param_new (bs "X-A")) [bs "one; two"]))
      [bs "12 Some Street that has a very long name, and a second line in the address"; bs "Town"] ];
  vcard := None; version := E_VCARD_VERSION_30 |}.

Ltac listed := repeat first [constructor | split]; try done; try (intros ?; done); try lia.

Lemma vcard_roundtrip_witness : exists txt,
  e_vcard_to_string_vcard ascii_validate (fun _ _ => None) (@length Z) (fun s n => drop n s) deref (@tl Z) isalnum
    sample_vcard E_VCARD_VERSION_30 (Some E_VCARD_30_VALID_PROPERTIES) (Some E_VCARD_30_VALID_PARAMETERS) =
    Got (txt, sample_vcard) /\
  e_vcard_ensure_attributes ascii_validate (fun _ _ => None) (e_vcard_new_from_string txt) =
    Got (read_back sample_vcard E_VCARD_VERSION_30 (Some E_VCARD_30_VALID_PROPERTIES) (Some E_VCARD_30_VALID_PARAMETERS)).
Proof.
  apply vcard_roundtrip; [reflexivity|].
  cbv [sample_vcard attributes]. listed.
Defined.
