(* ===== verification/VCardSpec.v ===== *)
(** The escaping of vCard values, quoted-printable values, the UID of a vCard,
    and its parameters. *)
From Stdlib Require Import ZArith Lia Ascii.
From stdpp Require Import base list option strings.
From S2P Require Import Prelude StringUtils Utf8 VCard VCardParse VCardParseSpec.
Local Open Scope Z_scope.

(** ** Escaping *)

(** Line ends as single line feeds. *)
Fixpoint unix_lines (s : text) : text :=
  match s with
  | [] => []
  | c :: r =>
      if c =? 13 then 10 :: match r with d :: r' => if d =? 10 then unix_lines r' else unix_lines r | [] => [] end
      else c :: unix_lines r
  end.

Lemma unescape_plain c r : c <> 92 -> e_vcard_unescape_string (c :: r) = c :: e_vcard_unescape_string r.
Proof. intros N. cbn. by rewrite (proj2 (Z.eqb_neq c 92) N). Qed.

Lemma unescape_escape_char c r : e_vcard_unescape_string (escape_char c ++ r) =
  (if c =? 13 then 10 else c) :: e_vcard_unescape_string r.
Proof.
  unfold escape_char. 
  destruct (Z.eqb_spec c 10) as [->|E1]; [done|]. destruct (Z.eqb_spec c 13) as [->|E2]; [done|].
  destruct (Z.eqb_spec c (ch ";")) as [->|E3]; [done|]. destruct (Z.eqb_spec c (ch ",")) as [->|E4]; [done|].
  destruct (Z.eqb_spec c 92) as [->|E5]; [done|]. by apply unescape_plain.
Qed.

(** Unescaping an escaped value gives the value, with its line ends as line
    feeds. *)
Theorem vcard_unescape_escape (s : text) : e_vcard_unescape_string (e_vcard_escape_string s) = unix_lines s.
Proof.
  unfold e_vcard_escape_string. remember (length s) as n eqn:E. revert s E.
  induction (lt_wf n) as [n _ IH]. intros [|c r] ->; [done|].
  cbn [e_vcard_escape_string_internal andb]. rewrite unescape_escape_char.
  assert (R : forall s, (length s < length (c :: r))%nat ->
    e_vcard_unescape_string (e_vcard_escape_string_internal s false) = unix_lines s) by (intros s H; by eapply IH).
  cbn [unix_lines]. destruct (c =? 13) eqn:C; f_equal.
  - destruct r as [|d r']; [done|]. cbn [andb]. destruct (d =? 10); apply R; cbn; lia.
  - destruct r as [|d r']; [done|]. cbn [andb]. apply R. cbn; lia.
Qed.

(** ** Quoted-printable *)

Lemma qp_decode_plain c r : c <> 61 -> qp_decode_loop (c :: r) = c :: qp_decode_loop r.
Proof.
  intros N%Z.eqb_neq. destruct r as [|d r]; [done|]. cbn [qp_decode_loop]. rewrite N. cbn [andb].
  by destruct r.
Qed.

Lemma qp_decode_hex c r : is_byte c -> qp_decode_loop (fmt_02X c ++ r) = c :: qp_decode_loop r.
Proof.
  intros B. set (x := HEXDIGIT (Z.shiftr (u8 c) 4)). set (y := HEXDIGIT (Z.land (u8 c) 15)).
  assert (H : is_nl x = false /\ qp_pair x y = [c]).
  { by_bytes (fun c => negb (is_nl (HEXDIGIT (Z.shiftr (u8 c) 4))) &&
      bytes_eqb (qp_pair (HEXDIGIT (Z.shiftr (u8 c) 4)) (HEXDIGIT (Z.land (u8 c) 15))) [c]) c B.
    apply andb_prop in K as [K1%negb_true_iff K2%bytes_eqb_eq]. done. }
  destruct H as [Hx Hp]. change (fmt_02X c ++ r) with (61 :: x :: y :: r).
  cbn [qp_decode_loop]. rewrite Hx. change (61 =? 61) with true. cbn [andb]. by rewrite Hp.
Qed.

Lemma qp_encode_loop_cons c p count : exists n, qp_encode_loop (c :: p) false count =
  (if ((33 <=? schar c) && (schar c <=? 60)) || ((62 <=? schar c) && (schar c <=? 126)) then [c] else fmt_02X c) ++
  qp_encode_loop p false n.
Proof. cbn [qp_encode_loop]. rewrite andb_false_r. case_match; eexists; done. Qed.

Lemma qp_decode_encode txt : Forall is_byte txt -> forall count, qp_decode_loop (qp_encode_loop txt false count) = txt.
Proof.
  induction 1 as [|c p Bc B IH]; intros count; [done|].
  destruct (qp_encode_loop_cons c p count) as (n & ->).
  destruct (_ || _) eqn:E; [|by rewrite qp_decode_hex, IH].
  cbn [app]. rewrite qp_decode_plain, IH; [done|]. unfold schar in E. intros ->. cbn in E. done.
Qed.

(** A value in quoted-printable code without soft line breaks is decoded to
    what it was. *)
Theorem vcard_qp_roundtrip (txt : text) : Forall (fun c => 0 < c < 256) txt ->
  e_vcard_qp_decode (e_vcard_qp_encode txt false) = txt.
Proof.
  intros B. unfold e_vcard_qp_decode, e_vcard_qp_encode. rewrite qp_decode_encode.
  - apply cstr_id. eapply list.Forall_impl; [exact B|]. intros c Hc. cbv beta in *. lia.
  - eapply list.Forall_impl; [exact B|]. intros c Hc. unfold is_byte. cbv beta in *. lia.
Qed.

Lemma vcard_qp_roundtrip_witness : e_vcard_qp_decode (e_vcard_qp_encode [97; 61; 10; 195; 169] false) = [97; 61; 10; 195; 169].
Proof. apply vcard_qp_roundtrip. repeat constructor; lia. Defined.

(** With soft line breaks the space behind a break is kept. *)
Example qp_soft_break_space :
  e_vcard_qp_decode (e_vcard_qp_encode (replicate 76 97) true) = replicate 75 97 ++ [32; 97].
Proof. vm_compute. reflexivity. Qed.

(** A soft line break behind letters is kept in the value, one behind an encoded
    byte is not. *)
Definition first_values (s : text) : option (list text) :=
  match read_attribute (fun _ => None) (fun _ _ => None) s with
  | Got (Some a, _) => Some (attr_values a)
  | _ => None
  end.
Example soft_break_in_chunk :
  first_values (bs "N;ENCODING=quoted-printable:ab=" ++ [13; 10] ++ bs "cd") = Some [bs "ab=" ++ [13; 10] ++ bs "cd"] /\
  first_values (bs "N;ENCODING=quoted-printable:a=62=" ++ [13; 10] ++ bs "cd") = Some [bs "abcd"].
Proof. split; vm_compute; reflexivity. Qed.

Section Card.
Context (g_utf8_validate : text -> option nat).
Context (g_convert : text -> text -> option text).
Notation ensure_attributes := (e_vcard_ensure_attributes g_utf8_validate g_convert).
Notation read_attribute := (read_attribute g_utf8_validate g_convert).

(** ** The UID *)

Definition not_uid (a : EVCardAttribute) : Prop := named a EVC_UID = false.

Lemma parse_loop_no_uid fuel : forall p evc evc',
  parse_loop g_utf8_validate g_convert fuel p evc true = Got evc' ->
  exists l, attributes evc' = l ++ attributes evc /\ Forall not_uid l.
Proof.
  induction fuel as [|fuel IH]; intros p evc evc'; [done|]. cbn [parse_loop].
  destruct (deref p =? 0); [intros [= <-]; by exists []|].
  destruct (read_attribute p) as [[[a|] q]| |]; cbn [mbind read_bind]; try done; [|apply IH].
  destruct (named a (bs "end")); [intros [= <-]; by exists []|]. cbn [andb].
  destruct (named a EVC_UID) eqn:U; [apply IH|]. intros R. apply IH in R as (l & E & F).
  exists (l ++ [a]). destruct (add_parsed_attributes evc a) as [E2 _]. rewrite E, E2, <- app_assoc.
  split; [done|]. apply list.Forall_app; auto.
Qed.

Lemma parse_no_uid evc s evc' : parse g_utf8_validate g_convert evc s true = Got evc' ->
  exists l, attributes evc' = reverse (attributes evc) ++ l /\ Forall not_uid l /\ vcard evc' = vcard evc.
Proof.
  intros H. pose proof (parse_ends g_utf8_validate g_convert evc s true) as V. rewrite H in V.
  destruct V as (_ & _ & _ & V). unfold parse in H.
  destruct (read_attribute s) as [[attr p]| |]; cbn [mbind read_bind] in H; try done.
  set (evc0 := match attr with Some _ => _ | None => _ end) in H.
  destruct (parse_loop _ _ _ _ evc0 true) as [evc1| |] eqn:R; try done. injection H as <-.
  apply parse_loop_no_uid in R as (l & E & F). cbn [with_attributes attributes] in *. rewrite E, reverse_app.
  assert (E0 : exists k, attributes evc0 = k ++ attributes evc /\ Forall not_uid k).
  { unfold evc0. destruct attr as [a|]; [|by exists []]. destruct (named a (bs "begin")); [by exists []|].
    cbn [negb orb]. destruct (named a EVC_UID) eqn:U; [by exists []|]. cbn [negb andb].
    destruct (negb (named a (bs "end"))); [|by exists []]. exists [a].
    destruct (add_parsed_attributes (with_version evc E_VCARD_VERSION_UNKNOWN) a) as [-> _]. split; [done|by constructor]. }
  destruct E0 as (k & -> & K). rewrite reverse_app, <- app_assoc.
  exists (reverse k ++ reverse l). split_and!; [done| |done].
  apply list.Forall_app. split; by apply Forall_reverse.
Qed.

Lemma find_attribute_head a l name : named a name = true -> find_attribute (a :: l) name = Some 0%nat.
Proof. intros H. unfold find_attribute. cbn. by rewrite decide_True. Qed.

(** C36. A vCard that is made from a text and a UID has this UID, whatever the
    text has: it is the first attribute, asking for it does not parse the text,
    and after the text is parsed it is the only UID. *)
Theorem vcard_uid_kept (str uid : text) (len : Z) :
  let evc := e_vcard_construct_full str len (Some uid) in
  let a := e_vcard_attribute_add_value (e_vcard_attribute_new None EVC_UID) uid in
  attributes evc = [a] /\
  e_vcard_get_attribute g_utf8_validate g_convert evc EVC_UID = Got (evc, Some 0%nat) /\
  (forall evc', ensure_attributes evc = Got evc' ->
     vcard evc' = None /\ (exists l, attributes evc' = a :: l /\ Forall not_uid l) /\
     e_vcard_get_attribute g_utf8_validate g_convert evc' EVC_UID = Got (evc', Some 0%nat)).
Proof.
  cbn zeta. set (evc := e_vcard_construct_full str len (Some uid)).
  set (a := e_vcard_attribute_add_value _ uid).
  assert (G : forall e l, attributes e = a :: l -> vcard e = None ->
    e_vcard_get_attribute g_utf8_validate g_convert e EVC_UID = Got (e, Some 0%nat)).
  { intros e l E V. unfold e_vcard_get_attribute, e_vcard_ensure_attributes. rewrite V. cbn [mbind read_bind mret read_ret].
    by rewrite E, find_attribute_head. }
  assert (A : attributes evc = [a]) by done.
  split_and!; [done| |].
  - destruct (vcard evc) as [t|] eqn:V; [|by apply (G evc [])].
    unfold e_vcard_get_attribute. rewrite V. change (strcase_eqb EVC_UID EVC_UID) with true. cbn match.
    by rewrite A, find_attribute_head.
  - intros evc' E. unfold e_vcard_ensure_attributes in E. destruct (vcard evc) as [t|] eqn:V.
    + rewrite A in E. apply parse_no_uid in E as (l & E & F & V'). cbn [attributes vcard] in *.
      split_and!; [done|by exists l|]. apply (G evc' l); [by rewrite E|done].
    + injection E as <-. split_and!; [done|exists []; by split|]. by apply (G evc []).
Qed.
End Card.
