(* ===== verification/VCardConvert.v ===== *)
(** Conversions of vCards between versions 2.1, 3.0 and 4.0
    (libebook-contacts/e-vcard.c), the "data:" URIs that they use
    (libedataserver/e-data-server-util.c), and the functions that write a vCard
    in a version.

    The vCard that a conversion builds has no text to parse, so attributes are
    added to it with [add_parsed].  The decoded values that
    [e_vcard_attribute_get_value_decoded] leaves in a LABEL of the converted
    vCard are left out. *)
From Stdlib Require Import ZArith Lia Ascii.
From stdpp Require Import base list option strings.
From S2P Require Import Prelude StringUtils Utf8 VCard VCardParse VCardWrite.
Local Open Scope Z_scope.

(** * "data:" URIs *)

(** The loop over the parameters: [ptr] is in front of a byte, [from] the begin
    of the parameter. *)
Fixpoint split_data_loop (ptr from : text) (mime_type charset : option text) (is_base64 : bool)
    : text * option text * option text * bool :=
  match ptr with
  | [] => (ptr, mime_type, charset, is_base64)
  | c :: r =>
      if c =? ch "," then (ptr, mime_type, charset, is_base64)
      else if (deref r =? ch ",") || (deref r =? ch ";") then
        let len := (length from - length r)%nat in
        let '(mime_type, charset, is_base64) :=
          if strncasecmp_eqb from (bs "base64") len then (mime_type, charset, true)
          else if Nat.ltb 8 len && strncase_prefix from (bs "charset=")
          then (mime_type, Some (take (len - 8) (drop 8 from)), is_base64)
          else if Nat.ltb 0 len && match mime_type with None => true | Some _ => false end
          then (Some (take len from), charset, is_base64)
          else (mime_type, charset, is_base64) in
        split_data_loop r (tl r) mime_type charset is_base64
      else split_data_loop r from mime_type charset is_base64
  end.

(** The MIME type, the character set, whether the data are in base64 code, and
    the data; without a comma all is data. *)
Definition e_util_split_data_uri (uri : text) : option (option text * option text * bool * text) :=
  if strncase_prefix uri (bs "data:") then
    let '(ptr, mime_type, charset, is_base64) := split_data_loop (drop 5 uri) (drop 5 uri) None None false in
    Some (mime_type, charset, is_base64, match ptr with [] => drop 5 uri | _ => tl ptr end)
  else None.

(** * Names *)

Definition EVC_ADR : text := bs "ADR".
Definition EVC_BDAY : text := bs "BDAY".
Definition EVC_GEO : text := bs "GEO".
Definition EVC_LABEL : text := bs "LABEL".
Definition EVC_VALUE : text := bs "VALUE".
Definition EVC_KIND : text := bs "KIND".
Definition EVC_IMPP : text := bs "IMPP".
Definition EVC_ANNIVERSARY : text := bs "ANNIVERSARY".
Definition EVC_X_ANNIVERSARY : text := bs "X-EVOLUTION-ANNIVERSARY".
Definition EVC_X_LIST : text := bs "X-EVOLUTION-LIST".
Definition EVC_X_EVOLUTION_KIND : text := bs "X-EVOLUTION-KIND".
Definition EVC_X_EVOLUTION_IMPP : text := bs "X-EVOLUTION-IMPP".

(** The tables, with the name in 3.0 first. *)
Definition renames : list (text * text) :=
  (EVC_X_ANNIVERSARY, EVC_ANNIVERSARY) :: (bs "X-SOCIALPROFILE", bs "SOCIALPROFILE") ::
  map (fun nm => (bs "X-EVOLUTION-" ++ nm, nm))
    [bs "SOURCE"; bs "KIND"; bs "XML"; bs "GENDER"; bs "IMPP"; bs "LANG"; bs "MEMBER"; bs "RELATED";
     bs "CLIENTPIDMAP"; bs "CALADRURI"; bs "BIRTHPLACE"; bs "DEATHPLACE"; bs "DEATHDATE"; bs "EXPERTISE";
     bs "HOBBY"; bs "INTEREST"; bs "ORG-DIRECTORY"; bs "CONTACT-URI"; bs "CREATED"; bs "GRAMGENDER";
     bs "PRONOUNS"; bs "LANGUAGE"; bs "PREF"; bs "ALTID"; bs "PID"; bs "MEDIATYPE"; bs "CALSCALE"; bs "SORT-AS"].

Definition schemes : list (text * text) :=
  [(bs "X-AIM", bs "aim:"); (bs "X-GADUGADU", bs "gadugadu:"); (bs "X-GOOGLE-TALK", bs "googletalk:");
   (bs "X-GROUPWISE", bs "groupwise:"); (bs "X-ICQ", bs "icq:"); (bs "X-JABBER", bs "jabber:");
   (bs "X-MATRIX", bs "matrix:"); (bs "X-MSN", bs "msn:"); (bs "X-SKYPE", bs "skype:");
   (bs "X-TWITTER", bs "twitter:"); (bs "X-YAHOO", bs "yahoo:")].

(** The hash table that looks names of the other version up. *)
Definition to_40 (to_version : EVCardVersion) : bool := bool_decide (to_version = E_VCARD_VERSION_40).
Definition name_table (table : list (text * text)) (to_version : EVCardVersion) : list (text * text) :=
  if to_40 to_version then table else map (fun '(a, b) => (b, a)) table.
Definition e_vcard_convert_get_30_40_rename_hash := name_table renames.
Definition e_vcard_convert_get_30_40_impp_scheme_hash := name_table schemes.

Definition table_lookup (table : list (text * text)) (name : text) : option text :=
  snd <$> List.find (fun e => camel_strcase_equal (fst e) name) table.

(** * Dates *)

Definition e_vcard_is_date_attr (a : EVCardAttribute) : bool :=
  named a EVC_X_ANNIVERSARY || named a EVC_ANNIVERSARY || named a EVC_BDAY.

Definition set_value (a : EVCardAttribute) (v : text) : EVCardAttribute :=
  e_vcard_attribute_add_value (e_vcard_attribute_remove_values a) v.

Definition e_vcard_convert_date_value (a : EVCardAttribute) (to_version : EVCardVersion) : EVCardAttribute :=
  match attr_values a with
  | value :: _ =>
      if to_40 to_version then
        match value with
        | [y1; y2; y3; y4; d1; m1; m2; d2; e1; e2] =>
            if (d1 =? ch "-") && (d2 =? ch "-") then set_value a [y1; y2; y3; y4; m1; m2; e1; e2] else a
        | _ => a
        end
      else
        match value with
        | [y1; y2; y3; y4; m1; m2; e1; e2] => set_value a [y1; y2; y3; y4; ch "-"; m1; m2; ch "-"; e1; e2]
        | _ => a
        end
  | [] => a
  end.

Section Convert.
Context (g_utf8_validate : text -> option nat).
Context (g_convert : text -> text -> option text).
Context (g_base64_decode : text -> text).

Notation get_value_decoded := (e_vcard_attribute_get_value_decoded g_base64_decode).
Notation ensure_attributes := (e_vcard_ensure_attributes g_utf8_validate g_convert).
Notation get_param := e_vcard_attribute_get_param.

(** What a handler is given and changes: the new vCard, the new attribute, its
    name and the LABELs that are left; and whether the attribute is kept. *)
Record handler_state := {
  hs_vcard : EVCard; hs_attr : EVCardAttribute; hs_name : text; hs_labels : list EVCardAttribute; hs_keep : bool }.

Definition hs_set_attr (s : handler_state) (a : EVCardAttribute) : handler_state :=
  {| hs_vcard := hs_vcard s; hs_attr := a; hs_name := hs_name s; hs_labels := hs_labels s; hs_keep := hs_keep s |}.
Definition hs_set_name (s : handler_state) (name : text) : handler_state :=
  {| hs_vcard := hs_vcard s; hs_attr := hs_attr s; hs_name := name; hs_labels := hs_labels s; hs_keep := hs_keep s |}.
Definition hs_set_labels (s : handler_state) (l : list EVCardAttribute) : handler_state :=
  {| hs_vcard := hs_vcard s; hs_attr := hs_attr s; hs_name := hs_name s; hs_labels := l; hs_keep := hs_keep s |}.
Definition hs_set_keep (s : handler_state) (keep : bool) : handler_state :=
  {| hs_vcard := hs_vcard s; hs_attr := hs_attr s; hs_name := hs_name s; hs_labels := hs_labels s; hs_keep := keep |}.
Definition hs_add (s : handler_state) (a : EVCardAttribute) : handler_state :=
  {| hs_vcard := add_parsed (hs_vcard s) a; hs_attr := hs_attr s; hs_name := hs_name s;
     hs_labels := hs_labels s; hs_keep := hs_keep s |}.

Definition handler := handler_state -> handler_state.

(** [e_vcard_convert_qp_encoding_cb] *)
Definition e_vcard_convert_qp_encoding_cb : handler := fun s =>
  let a := hs_attr s in
  if bool_decide (attr_encoding a = EVC_ENCODING_QP) then
    let decoded_values := map e_vcard_qp_decode (attr_values a) in
    let a := e_vcard_attribute_remove_values (e_vcard_attribute_remove_param a EVC_ENCODING) in
    hs_set_attr s (with_encoding (with_values a decoded_values []) EVC_ENCODING_RAW (attr_encoding_set a))
  else s.

Definition e_vcard_convert_to_21_attrs_cb : handler := fun s =>
  if e_vcard_is_date_attr (hs_attr s)
  then hs_set_attr s (e_vcard_convert_date_value (hs_attr s) E_VCARD_VERSION_21) else s.

(** ** Between 3.0 and 4.0 *)

Definition new_param (name value : text) : EVCardAttributeParam :=
  e_vcard_attribute_param_add_value (e_vcard_attribute_param_new name) value.
Definition nonempty (v : text) : bool := match v with [] => false | _ => true end.

(** A LABEL of an address becomes an attribute; the attribute is in the new
    vCard before it gets its parameter, which makes no difference. *)
Definition convert_adr_30 : handler := fun s =>
  let a := hs_attr s in
  match get_param a EVC_LABEL with
  | Some [label] =>
      let attr := e_vcard_attribute_add_value (e_vcard_attribute_new (attr_group a) EVC_LABEL) label in
      let attr :=
        match List.filter nonempty (default [] (get_param a EVC_TYPE)) with
        | [] => attr
        | types => e_vcard_attribute_add_param attr
                     (fold_left e_vcard_attribute_param_add_value types (e_vcard_attribute_param_new EVC_TYPE))
        end in
      hs_add s attr
  | _ => s
  end.

(** The set of types without regard to case. *)
Fixpoint type_set (values : list text) (set : list text) : list text :=
  match values with
  | [] => set
  | v :: values =>
      type_set values (if nonempty v && negb (existsb (camel_strcase_equal v) set) then v :: set else set)
  end.

(** The loop over the types of a LABEL, which ends when all are found. *)
Fixpoint count_types (values expected : list text) (n_found : nat) : nat :=
  match values with
  | [] => n_found
  | v :: values =>
      if nonempty v && existsb (camel_strcase_equal v) expected then
        let n_found := S n_found in
        if Nat.eqb n_found (length expected) then n_found else count_types values expected n_found
      else count_types values expected n_found
  end.

Definition label_fits (expected : list text) (label : EVCardAttribute) : bool :=
  Nat.eqb (count_types (default [] (get_param label EVC_TYPE)) expected 0) (length expected).

(** [g_ptr_array_remove_index_fast]: the last one moves into the gap. *)
Definition remove_index_fast {A} (i : nat) (l : list A) : list A :=
  match last l with
  | Some x => take (length l - 1) (<[i := x]> l)
  | None => l
  end.

Definition convert_adr_40 : handler := fun s =>
  let a := hs_attr s in
  let expected := type_set (default [] (get_param a EVC_TYPE)) [] in
  match list_find (fun label => label_fits expected label = true) (hs_labels s) with
  | Some (i, label) =>
      let a :=
        match snd (get_value_decoded label) with
        | Some (c :: v) =>
            e_vcard_attribute_add_param (e_vcard_attribute_remove_param a EVC_LABEL)
              (new_param EVC_LABEL (cstr (c :: v)))
        | _ => a
        end in
      hs_set_labels (hs_set_attr s a) (remove_index_fast i (hs_labels s))
  | None => s
  end.

Definition has_attribute (evc : EVCard) (name : text) : bool :=
  existsb (fun a => named a name) (attributes evc).

Definition with_value (name value : text) : EVCardAttribute :=
  e_vcard_attribute_add_value (e_vcard_attribute_new None name) value.
Definition first_value_is (a : EVCardAttribute) (v : text) : bool :=
  match attr_values a with value :: _ => strcase_eqb value v | [] => false end.

Definition convert_list_40 : handler := fun s =>
  let s' := if negb (has_attribute (hs_vcard s) EVC_KIND) && first_value_is (hs_attr s) (bs "TRUE")
            then hs_add s (with_value EVC_KIND (bs "group")) else s in
  hs_set_keep s' false.

Definition convert_kind_30 : handler := fun s =>
  if first_value_is (hs_attr s) (bs "group") then hs_add s (with_value EVC_X_LIST (bs "TRUE")) else s.

(** An instant messaging address: the scheme up to the colon tells the name of
    the attribute. *)
Definition convert_impp_30 : handler := fun s =>
  let a := hs_attr s in
  if e_vcard_attribute_is_single_valued a then
    match get_value_decoded a with
    | (a, Some (c :: v)) =>
        let value := cstr (c :: v) in
        match strchr value (ch ":") with
        | Some i =>
            match table_lookup (e_vcard_convert_get_30_40_impp_scheme_hash E_VCARD_VERSION_30) (take (S i) value) with
            | Some in_30 => hs_set_name (hs_set_attr s (set_value a (drop (S i) value))) in_30
            | None => hs_set_name (hs_set_attr s a) EVC_X_EVOLUTION_IMPP
            end
        | None => hs_set_keep (hs_set_attr s a) false
        end
    | (a, _) => hs_set_keep (hs_set_attr s a) false
    end
  else hs_set_keep s false.

Definition convert_impp_40 : handler := fun s =>
  let a := hs_attr s in
  match table_lookup (e_vcard_convert_get_30_40_impp_scheme_hash E_VCARD_VERSION_40) (attr_name a) with
  | Some impp_scheme =>
      let s := hs_set_name s EVC_IMPP in
      if e_vcard_attribute_is_single_valued a then
        match get_value_decoded a with
        | (a, Some (c :: v)) => hs_set_attr s (set_value a (cstr (impp_scheme ++ c :: v)))
        | (a, _) => hs_set_keep (hs_set_attr s a) false
        end
      else hs_set_keep s false
  | None => if named a EVC_X_EVOLUTION_IMPP then hs_set_name s EVC_IMPP else s
  end.

Definition first_param_is (a : EVCardAttribute) (name v : text) : bool :=
  match get_param a name with Some (value :: _) => strcase_eqb value v | _ => false end.
Definition is_base64_param (a : EVCardAttribute) : bool :=
  first_param_is a EVC_ENCODING (bs "b") || first_param_is a EVC_ENCODING (bs "base64").

(** The attribute with one value and without parameters. *)
Definition only_value (a : EVCardAttribute) (v : text) : EVCardAttribute :=
  set_value (e_vcard_attribute_remove_params a) v.

Definition convert_photo_40 (a : EVCardAttribute) : EVCardAttribute :=
  if negb (first_param_is a EVC_VALUE (bs "uri")) && is_base64_param a then
    match attr_values a with
    | (c :: v) :: _ =>
        only_value a (bs "data:" ++
          match get_param a EVC_TYPE with Some (t :: _) => bs "image/" ++ t ++ [ch ";"] | _ => [] end ++
          bs "base64," ++ c :: v)
    | _ => a
    end
  else a.

Definition convert_photo_30 (a : EVCardAttribute) : EVCardAttribute :=
  match attr_values a with
  | value :: _ =>
      if strncase_prefix value (bs "data:") then
        match e_util_split_data_uri value with
        | Some (mime_type, _, true, data) =>
            let a := e_vcard_attribute_add_param (only_value a data) (new_param EVC_ENCODING (bs "b")) in
            match mime_type with
            | Some mime_type =>
                match strchr mime_type (ch "/") with
                | Some i =>
                    match drop (S i) mime_type with
                    | [] => a
                    | subtype => e_vcard_attribute_add_param a (new_param EVC_TYPE subtype)
                    end
                | None => a
                end
            | None => a
            end
        | _ => a
        end
      else
        match get_param a EVC_VALUE with
        | None | Some [] => e_vcard_attribute_add_param a (new_param EVC_VALUE (bs "uri"))
        | Some _ => a
        end
  | [] => a
  end.

Definition convert_geo_40 (a : EVCardAttribute) : EVCardAttribute :=
  match attr_values a with
  | [lat; long] => set_value a (bs "geo:" ++ lat ++ [ch ","] ++ long)
  | _ => a
  end.
Definition convert_geo_30 (a : EVCardAttribute) : EVCardAttribute :=
  match attr_values a with
  | [value] =>
      if strncase_prefix value (bs "geo:") then
        let rest := drop 4 value in
        match strchr rest (ch ",") with
        | Some i => e_vcard_attribute_add_value (set_value a (take i rest)) (drop (S i) rest)
        | None => a
        end
      else a
  | _ => a
  end.

Definition convert_key_40 (a : EVCardAttribute) : EVCardAttribute :=
  let is_x509 := e_vcard_attribute_has_type a (bs "X509") in
  if negb (first_param_is a EVC_VALUE (bs "uri")) && (is_x509 || e_vcard_attribute_has_type a (bs "PGP")) &&
     (match get_param a EVC_ENCODING with None | Some [] => true | Some _ => is_base64_param a end) then
    match attr_values a with
    | (c :: v) :: _ =>
        let data_uri := bs "data:" ++
          (if is_x509 then bs "application/x-x509-user-cert;" else bs "application/pgp-keys;") ++
          bs "base64," ++ c :: v in
        e_vcard_attribute_add_param (only_value a data_uri)
          (new_param EVC_TYPE (if is_x509 then bs "X509" else bs "PGP"))
    | _ => a
    end
  else a.

Definition convert_key_30 (a : EVCardAttribute) : EVCardAttribute :=
  match attr_values a with
  | value :: _ =>
      if strncase_prefix value (bs "data:") then
        match e_util_split_data_uri value with
        | Some (mime_type, _, true, data) =>
            let is_mime t := match mime_type with Some m => strcase_eqb m t | None => false end in
            if match mime_type with None => true | Some _ => false end || is_mime (bs "application/pgp-keys") ||
               is_mime (bs "application/x-x509-user-cert") || is_mime (bs "application/x-x509-ca-cert") then
              let a := e_vcard_attribute_add_param (only_value a data) (new_param EVC_ENCODING (bs "b")) in
              e_vcard_attribute_add_param a
                (new_param EVC_TYPE (if is_mime (bs "application/pgp-keys") then bs "PGP" else bs "X509"))
            else a
        | _ => a
        end
      else a
  | [] => a
  end.

(** [e_vcard_convert_30_40_cb] *)
Definition e_vcard_convert_30_40_cb (to_version : EVCardVersion) : handler := fun s =>
  let v40 := to_40 to_version in
  let v30 := bool_decide (to_version = E_VCARD_VERSION_30) in
  let a := hs_attr s in
  if named a EVC_ADR then (if v30 then convert_adr_30 s else convert_adr_40 s)
  else if v40 && strcase_eqb (hs_name s) EVC_KIND then hs_set_keep s (negb (has_attribute (hs_vcard s) EVC_KIND))
  else if v40 && strcase_eqb (hs_name s) EVC_X_LIST then convert_list_40 s
  else if v30 && strcase_eqb (hs_name s) EVC_X_EVOLUTION_KIND then convert_kind_30 s
  else if v30 && named a EVC_IMPP then convert_impp_30 s
  else if named a EVC_PHOTO || named a EVC_LOGO then
    hs_set_attr s (if v40 then convert_photo_40 a else convert_photo_30 a)
  else if named a EVC_GEO then hs_set_attr s (if v40 then convert_geo_40 a else convert_geo_30 a)
  else if named a EVC_KEY then hs_set_attr s (if v40 then convert_key_40 a else convert_key_30 a)
  else if e_vcard_is_date_attr a then hs_set_attr s (e_vcard_convert_date_value a to_version)
  else if v40 then convert_impp_40 s
  else s.

(** ** The conversion *)

Definition with_name (a : EVCardAttribute) (name : text) : EVCardAttribute :=
  {| attr_group := attr_group a; attr_name := name; attr_params := attr_params a;
     attr_values := attr_values a; attr_decoded_values := attr_decoded_values a;
     attr_encoding := attr_encoding a; attr_encoding_set := attr_encoding_set a |}.

Section Generic.
Context (evc_prop evc_params : option (list text)) (attr_renames : option (list (text * text))) (cb : handler).

Definition renamed (name : text) : text :=
  match attr_renames with Some t => default name (table_lookup t name) | None => name end.

(** One turn of the loop over the attributes. *)
Definition convert_attribute (attr : EVCardAttribute) (converted : EVCard) (labels : list EVCardAttribute)
    : EVCard * list EVCardAttribute :=
  let name := renamed (attr_name attr) in
  if named attr EVC_VERSION || negb (valid_name evc_prop name) || negb (existsb nonempty (attr_values attr))
  then (converted, labels)
  else
    let s := cb {| hs_vcard := converted; hs_attr := e_vcard_attribute_copy attr; hs_name := name;
                   hs_labels := labels; hs_keep := true |} in
    if hs_keep s then
      let new_attr := with_name (hs_attr s) (hs_name s) in
      let new_attr := with_params new_attr
        (List.filter (fun p => valid_name evc_params (param_name p)) (attr_params new_attr)) in
      (add_parsed (hs_vcard s) new_attr, hs_labels s)
    else (hs_vcard s, hs_labels s).

Fixpoint convert_attributes (l : list EVCardAttribute) (converted : EVCard) (labels : list EVCardAttribute) : EVCard :=
  match l with
  | [] => converted
  | attr :: l =>
      let '(converted, labels) := convert_attribute attr converted labels in
      convert_attributes l converted labels
  end.
End Generic.

(** [self] is parsed when the conversion is done. *)
Definition e_vcard_convert_to_generic (self : EVCard) (to_version : EVCardVersion)
    (valid_properties valid_parameters : text) (attr_renames : option (list (text * text))) (cb : handler)
    (labels : list EVCardAttribute) : EVCard :=
  let converted := add_parsed (e_vcard_new_from_string [])
                     (with_value EVC_VERSION (e_vcard_version_to_string to_version)) in
  let converted := convert_attributes (generate_dict_validator (Some valid_properties))
    (generate_dict_validator (Some valid_parameters)) attr_renames cb (attributes self) converted labels in
  with_attributes converted (reverse (attributes converted)).

Definition e_vcard_convert_to_21 (self : EVCard) : EVCard :=
  e_vcard_convert_to_generic self E_VCARD_VERSION_21 E_VCARD_21_VALID_PROPERTIES E_VCARD_21_VALID_PARAMETERS
    None e_vcard_convert_to_21_attrs_cb [].
Definition e_vcard_convert_21_to_30 (self : EVCard) : EVCard :=
  e_vcard_convert_to_generic self E_VCARD_VERSION_30 E_VCARD_30_VALID_PROPERTIES E_VCARD_30_VALID_PARAMETERS
    None e_vcard_convert_qp_encoding_cb [].

(** [convert_data_30_init] keeps the attributes by name; only the LABELs are
    looked up. *)
Definition labels_of (self : EVCard) : list EVCardAttribute :=
  List.filter (fun a => named a EVC_LABEL) (attributes self).

Definition e_vcard_convert_30_to_40 (self : EVCard) : EVCard :=
  e_vcard_convert_to_generic self E_VCARD_VERSION_40 E_VCARD_40_VALID_PROPERTIES E_VCARD_40_VALID_PARAMETERS
    (Some (e_vcard_convert_get_30_40_rename_hash E_VCARD_VERSION_40))
    (e_vcard_convert_30_40_cb E_VCARD_VERSION_40) (labels_of self).
Definition e_vcard_convert_40_to_30 (self : EVCard) : EVCard :=
  e_vcard_convert_to_generic self E_VCARD_VERSION_30 E_VCARD_30_VALID_PROPERTIES E_VCARD_30_VALID_PARAMETERS
    (Some (e_vcard_convert_get_30_40_rename_hash E_VCARD_VERSION_30))
    (e_vcard_convert_30_40_cb E_VCARD_VERSION_30) (labels_of self).

(** The vCard with its attributes copied. *)
Definition copy_unknown (self : EVCard) : EVCard :=
  {| attributes := map e_vcard_attribute_copy (attributes self); vcard := None; version := E_VCARD_VERSION_UNKNOWN |}.

(** The vCard after it was read, and its conversion unless it is in the version
    already. *)
Definition e_vcard_convert (self : EVCard) (to_version : EVCardVersion) : read (EVCard * option EVCard) :=
  if bool_decide (to_version = E_VCARD_VERSION_UNKNOWN) then mret (self, None)
  else
  '(self, self_version) ← e_vcard_get_version g_utf8_validate g_convert self;
  if bool_decide (self_version = to_version) then mret (self, None)
  else
    self ← ensure_attributes self;
    mret (self, Some
      match to_version, self_version with
      | E_VCARD_VERSION_21, _ => e_vcard_convert_to_21 self
      | E_VCARD_VERSION_30, E_VCARD_VERSION_40 => e_vcard_convert_40_to_30 self
      | E_VCARD_VERSION_30, E_VCARD_VERSION_21 => e_vcard_convert_21_to_30 self
      | E_VCARD_VERSION_40, E_VCARD_VERSION_30 => e_vcard_convert_30_to_40 self
      | E_VCARD_VERSION_40, E_VCARD_VERSION_21 => e_vcard_convert_30_to_40 (e_vcard_convert_21_to_30 self)
      | _, _ => copy_unknown self
      end).

(** * Writing in a version *)

Section Strings.
Context (g_utf8_strlen : text -> nat) (g_utf8_offset_to_pointer : text -> nat -> text).
Context (g_utf8_get_char : text -> Z) (g_utf8_next_char : text -> text) (g_unichar_isalnum : Z -> bool).

Notation to_string_vcard := (e_vcard_to_string_vcard g_utf8_validate g_convert g_utf8_strlen
  g_utf8_offset_to_pointer g_utf8_get_char g_utf8_next_char g_unichar_isalnum).

(** Without a conversion the vCard itself is written, and its quoted-printable
    values are decoded on the way. *)
Definition to_string_converted (evc : EVCard) (v : EVCardVersion) (props params : text) : read (text * EVCard) :=
  '(evc, converted) ← e_vcard_convert evc v;
  match converted with
  | Some c => '(str, _) ← to_string_vcard c v (Some props) (Some params); mret (str, evc)
  | None => to_string_vcard evc v (Some props) (Some params)
  end.
Definition e_vcard_to_string_vcard_30 (evc : EVCard) : read (text * EVCard) :=
  to_string_converted evc E_VCARD_VERSION_30 E_VCARD_30_VALID_PROPERTIES E_VCARD_30_VALID_PARAMETERS.
Definition e_vcard_to_string_vcard_40 (evc : EVCard) : read (text * EVCard) :=
  to_string_converted evc E_VCARD_VERSION_40 E_VCARD_40_VALID_PROPERTIES E_VCARD_40_VALID_PARAMETERS.

(** The text that was not parsed yet, when it is in the version. *)
Definition unparsed (evc : EVCard) : option text :=
  match attributes evc with [] => vcard evc | _ => None end.
Definition unparsed_in (evc : EVCard) (v : EVCardVersion) : option text :=
  if has_version evc (e_vcard_version_to_string v) then unparsed evc else None.

Definition e_vcard_convert_to_string (evc : EVCard) (v : EVCardVersion) : read (option text * EVCard) :=
  match v with
  | E_VCARD_VERSION_UNKNOWN => mret (None, evc)
  | _ =>
      match unparsed_in evc v with
      | Some t => mret (Some t, evc)
      | None =>
          '(str, evc) ← match v with
                        | E_VCARD_VERSION_21 => e_vcard_to_string_vcard_21 g_utf8_validate g_convert evc
                        | E_VCARD_VERSION_30 => e_vcard_to_string_vcard_30 evc
                        | _ => e_vcard_to_string_vcard_40 evc
                        end;
          mret (Some str, evc)
      end
  end.

Definition e_vcard_to_string (evc : EVCard) : read (option text * EVCard) :=
  match unparsed evc with
  | Some t => mret (Some t, evc)
  | None =>
      '(evc, v) ← e_vcard_get_version g_utf8_validate g_convert evc;
      e_vcard_convert_to_string evc
        (if bool_decide (v = E_VCARD_VERSION_UNKNOWN) then E_VCARD_VERSION_40 else v)
  end.
End Strings.
End Convert.
