(* ===== verification/VCardConvertSpec.v ===== *)
(** What a converted vCard has, and what comes back. *)
From Stdlib Require Import ZArith Lia Ascii.
From stdpp Require Import base list option strings.
From S2P Require Import Prelude StringUtils Utf8 VCard VCardParse VCardWrite VCardParseSpec VCardLines VCardConvert.
Local Open Scope Z_scope.

(** The names that a version has. *)
Definition properties_of (v : EVCardVersion) : text :=
  match v with
  | E_VCARD_VERSION_21 => E_VCARD_21_VALID_PROPERTIES
  | E_VCARD_VERSION_30 => E_VCARD_30_VALID_PROPERTIES
  | _ => E_VCARD_40_VALID_PROPERTIES
  end.
Definition parameters_of (v : EVCardVersion) : text :=
  match v with
  | E_VCARD_VERSION_21 => E_VCARD_21_VALID_PARAMETERS
  | E_VCARD_VERSION_30 => E_VCARD_30_VALID_PARAMETERS
  | _ => E_VCARD_40_VALID_PARAMETERS
  end.
Definition valid_property (v : EVCardVersion) (name : text) : bool :=
  valid_name (generate_dict_validator (Some (properties_of v))) name.
Definition valid_parameter (v : EVCardVersion) (name : text) : bool :=
  valid_name (generate_dict_validator (Some (parameters_of v))) name.

(** An attribute that a version has. *)
Definition attribute_of_version (v : EVCardVersion) (a : EVCardAttribute) : bool :=
  valid_property v (attr_name a) && forallb (fun p => valid_parameter v (param_name p)) (attr_params a).

(** The vCard that is built: its attributes are of the version, and only the
    first is the version. *)
Definition building (v : EVCardVersion) (evc : EVCard) : Prop :=
  version evc = v /\ vcard evc = None /\
  exists l, attributes evc = l ++ [with_value EVC_VERSION (e_vcard_version_to_string v)] /\
    Forall (fun a => attribute_of_version v a = true /\ named a EVC_VERSION = false) l.

(** What a handler has to keep. *)
Definition handled (v : EVCardVersion) (s : handler_state) : Prop :=
  building v (hs_vcard s) /\ valid_property v (hs_name s) = true /\ strcase_eqb (hs_name s) EVC_VERSION = false.

Lemma building_add v evc a : building v evc -> attribute_of_version v a = true -> named a EVC_VERSION = false ->
  building v (add_parsed evc a).
Proof.
  intros (V & T & l & E & F) A N. unfold add_parsed, cache_version_from_attr. rewrite N.
  assert (B : building v (with_attributes evc (a :: attributes evc))).
  { split_and!; [done|done|]. exists (a :: l). cbn. rewrite E. split; [done|by constructor]. }
  by repeat case_match.
Qed.

Lemma handled_add v s a : handled v s -> attribute_of_version v a = true -> named a EVC_VERSION = false ->
  handled v (hs_add s a).
Proof. intros (B & N & V) A X. split; [by apply building_add|done]. Qed.

Lemma handled_attr v s a : handled v s -> handled v (hs_set_attr s a).
Proof. done. Qed.
Lemma handled_keep v s k : handled v s -> handled v (hs_set_keep s k).
Proof. done. Qed.
Lemma handled_name v s n : handled v s -> valid_property v n = true -> strcase_eqb n EVC_VERSION = false ->
  handled v (hs_set_name s n).
Proof. intros (B & _ & _) N V. by split. Qed.

(** The result of a table lookup. *)
Lemma table_lookup_forall (P : text -> bool) table name n : forallb (fun e => P (snd e)) table = true ->
  table_lookup table name = Some n -> P n = true.
Proof.
  intros A. unfold table_lookup. destruct (List.find _ table) as [[x y]|] eqn:E; [|done]. intros [= <-].
  apply find_some in E as [E _]. rewrite forallb_forall in A. by apply (A (x, y)).
Qed.

Section Convert.
Context (g_utf8_validate : text -> option nat).
Context (g_convert : text -> text -> option text).
Context (g_base64_decode : text -> text).

(** ** The handlers *)

Lemma qp_handled v s : handled v s -> handled v (e_vcard_convert_qp_encoding_cb s).
Proof. intros H. unfold e_vcard_convert_qp_encoding_cb. by case_match. Qed.
Lemma dates_21_handled v s : handled v s -> handled v (e_vcard_convert_to_21_attrs_cb s).
Proof. intros H. unfold e_vcard_convert_to_21_attrs_cb. by case_match. Qed.

Lemma adr_30_handled s : handled E_VCARD_VERSION_30 s -> handled E_VCARD_VERSION_30 (convert_adr_30 s).
Proof.
  intros H. unfold convert_adr_30. destruct (e_vcard_attribute_get_param _ _) as [[|l [|? ?]]|]; try done.
  destruct (List.filter nonempty _) as [|t ts]; [by apply handled_add|].
  rewrite add_values_eq. by apply handled_add.
Qed.

Lemma adr_40_handled v s : handled v s -> handled v (convert_adr_40 g_base64_decode s).
Proof. intros H. unfold convert_adr_40. destruct (list_find _ _) as [[i label]|]; done. Qed.

Lemma list_40_handled s : handled E_VCARD_VERSION_40 s -> handled E_VCARD_VERSION_40 (convert_list_40 s).
Proof. intros H. unfold convert_list_40. apply handled_keep. case_match; [|done]. by apply handled_add. Qed.
Lemma kind_30_handled s : handled E_VCARD_VERSION_30 s -> handled E_VCARD_VERSION_30 (convert_kind_30 s).
Proof. intros H. unfold convert_kind_30. case_match; [|done]. by apply handled_add. Qed.

Lemma impp_30_handled s : handled E_VCARD_VERSION_30 s -> handled E_VCARD_VERSION_30 (convert_impp_30 g_base64_decode s).
Proof.
  intros H. unfold convert_impp_30. destruct (e_vcard_attribute_is_single_valued _); [|done].
  destruct (e_vcard_attribute_get_value_decoded _ _) as [a [[|c w]|]]; try done.
  destruct (strchr _ _) as [i|]; [|done]. destruct (table_lookup _ _) as [n|] eqn:E; [|by apply handled_name].
  apply handled_name; [done| |].
  - by apply (table_lookup_forall (valid_property E_VCARD_VERSION_30)) in E.
  - apply (table_lookup_forall (fun n => negb (strcase_eqb n EVC_VERSION))) in E; [|done]. by apply negb_true_iff.
Qed.

Lemma impp_40_handled s : handled E_VCARD_VERSION_40 s -> handled E_VCARD_VERSION_40 (convert_impp_40 g_base64_decode s).
Proof.
  intros H. unfold convert_impp_40. destruct (table_lookup _ _) as [n|].
  - assert (H' : handled E_VCARD_VERSION_40 (hs_set_name s EVC_IMPP)) by (by apply handled_name).
    destruct (e_vcard_attribute_is_single_valued _); [|done].
    by destruct (e_vcard_attribute_get_value_decoded _ _) as [a [[|c w]|]].
  - case_match; [|done]. by apply handled_name.
Qed.

Lemma handler_handled v s : v = E_VCARD_VERSION_30 \/ v = E_VCARD_VERSION_40 ->
  handled v s -> handled v (e_vcard_convert_30_40_cb g_base64_decode v s).
Proof.
  intros V H. unfold e_vcard_convert_30_40_cb.
  destruct V as [-> | ->]; cbn [to_40 bool_decide decide_rel];
    repeat (case_match; try done); eauto using adr_30_handled, adr_40_handled, list_40_handled, kind_30_handled,
      impp_30_handled, impp_40_handled.
Qed.

(** ** The conversion *)

Lemma renamed_not_version v name : v = E_VCARD_VERSION_30 \/ v = E_VCARD_VERSION_40 ->
  strcase_eqb name EVC_VERSION = false ->
  strcase_eqb (renamed (Some (e_vcard_convert_get_30_40_rename_hash v)) name) EVC_VERSION = false.
Proof.
  intros V N. unfold renamed. destruct (table_lookup _ name) as [n|] eqn:E; [|done]. cbn [default].
  apply (table_lookup_forall (fun n => negb (strcase_eqb n EVC_VERSION))) in E; [by apply negb_true_iff|].
  by destruct V as [-> | ->].
Qed.

Lemma convert_attribute_building v attr_renames cb attr evc labels :
  (forall s, handled v s -> handled v (cb s)) ->
  (forall name, strcase_eqb name EVC_VERSION = false -> strcase_eqb (renamed attr_renames name) EVC_VERSION = false) ->
  building v evc ->
  building v (fst (convert_attribute (generate_dict_validator (Some (properties_of v)))
    (generate_dict_validator (Some (parameters_of v))) attr_renames cb attr evc labels)).
Proof.
  intros Hcb Hr B. unfold convert_attribute.
  destruct (named attr EVC_VERSION) eqn:N; [done|]. cbn [orb].
  destruct (valid_name _ (renamed attr_renames (attr_name attr))) eqn:Vn; [|done]. cbn [negb orb].
  destruct (existsb nonempty (attr_values attr)); [|done]. cbn [negb].
  match goal with |- context [cb ?s] => assert (H : handled v (cb s)); [apply Hcb|set (s' := cb s) in *] end.
  { split_and!; [done|done|]. by apply Hr. }
  destruct H as (B' & V' & N'). destruct (hs_keep s'); [|done]. cbn [fst].
  apply building_add; [done| |done]. unfold attribute_of_version. apply andb_true_intro. split; [done|].
  apply forallb_forall. intros p. cbn. by intros [_ Hp]%filter_In.
Qed.

Lemma convert_attributes_building v attr_renames cb l :
  (forall s, handled v s -> handled v (cb s)) ->
  (forall name, strcase_eqb name EVC_VERSION = false -> strcase_eqb (renamed attr_renames name) EVC_VERSION = false) ->
  forall evc labels, building v evc ->
  building v (convert_attributes (generate_dict_validator (Some (properties_of v)))
    (generate_dict_validator (Some (parameters_of v))) attr_renames cb l evc labels).
Proof.
  intros Hcb Hr. induction l as [|a l IH]; intros evc labels B; [done|]. cbn [convert_attributes].
  pose proof (convert_attribute_building v attr_renames cb a evc labels Hcb Hr B) as B'.
  destruct (convert_attribute _ _ _ _ _ _ _) as [evc' labels']. by apply IH.
Qed.

(** A vCard of a version: the version first, and otherwise attributes and
    parameters that the version has. *)
Definition vcard_of_version (v : EVCardVersion) (evc : EVCard) : Prop :=
  version evc = v /\ vcard evc = None /\
  exists l, attributes evc = with_value EVC_VERSION (e_vcard_version_to_string v) :: l /\
    Forall (fun a => attribute_of_version v a = true /\ named a EVC_VERSION = false) l.

Lemma convert_generic_version self v attr_renames cb labels : v <> E_VCARD_VERSION_UNKNOWN ->
  (forall s, handled v s -> handled v (cb s)) ->
  (forall name, strcase_eqb name EVC_VERSION = false -> strcase_eqb (renamed attr_renames name) EVC_VERSION = false) ->
  vcard_of_version v (e_vcard_convert_to_generic self v (properties_of v) (parameters_of v) attr_renames cb labels).
Proof.
  intros Nv Hcb Hr. unfold e_vcard_convert_to_generic.
  match goal with |- context [convert_attributes _ _ _ _ _ ?e _] => assert (B : building v e) end.
  { split_and!; [by destruct v|done|]. exists []. by destruct v. }
  apply (convert_attributes_building v attr_renames cb (attributes self) Hcb Hr _ labels) in B as (V & T & l & E & F).
  split_and!; [done|done|]. exists (reverse l). cbn [with_attributes attributes]. rewrite E, reverse_app. split; [done|].
  by apply Forall_reverse.
Qed.

(** C31. A vCard that is converted from a known version is one of the new
    version: the version comes first, and every other attribute and every
    parameter has a name that the version has, or begins with X-. *)
Theorem vcard_convert_valid (self self' converted : EVCard) (v : EVCardVersion) :
  e_vcard_convert g_utf8_validate g_convert g_base64_decode self v = Got (self', Some converted) ->
  (exists u, snd <$> (match e_vcard_get_version g_utf8_validate g_convert self with Got x => Some x | _ => None end) = Some u /\
     u <> E_VCARD_VERSION_UNKNOWN) ->
  vcard_of_version v converted.
Proof.
  unfold e_vcard_convert. intros H (u & U & Nu).
  destruct (bool_decide (v = E_VCARD_VERSION_UNKNOWN)) eqn:Vu; [done|]. apply bool_decide_eq_false in Vu.
  destruct (e_vcard_get_version _ _ self) as [[self1 u']| |]; try done. cbn in U. injection U as ->.
  cbn [mbind read_bind] in H. destruct (bool_decide (u = v)) eqn:Uv; [done|]. apply bool_decide_eq_false in Uv.
  destruct (e_vcard_ensure_attributes _ _ self1) as [self2| |]; try done. cbn in H. injection H as <- <-.
  assert (R : forall w, w = E_VCARD_VERSION_30 \/ w = E_VCARD_VERSION_40 -> forall self labels,
    vcard_of_version w (e_vcard_convert_to_generic self w (properties_of w) (parameters_of w)
      (Some (e_vcard_convert_get_30_40_rename_hash w)) (e_vcard_convert_30_40_cb g_base64_decode w) labels)).
  { intros w Hw self0 labels. apply convert_generic_version; [by destruct Hw as [-> | ->]| |].
    - intros s. by apply handler_handled.
    - intros name. by apply renamed_not_version. }
  destruct v; [done| | |].
  - apply (convert_generic_version _ E_VCARD_VERSION_21); [done|apply dates_21_handled|done].
  - destruct u; try done.
    + apply (convert_generic_version _ E_VCARD_VERSION_30); [done|apply qp_handled|done].
    + apply (R E_VCARD_VERSION_30). by left.
  - destruct u; try done; apply (R E_VCARD_VERSION_40); by right.
Qed.
End Convert.

(** An address, whose label becomes a parameter, and a parameter that version
    4.0 does not have. *)
Definition sample_30 : EVCard := {|
  attributes := [
    with_value EVC_VERSION (bs "3.0");
    e_vcard_attribute_add_param (with_value EVC_ADR (bs "Street")) (new_param EVC_TYPE (bs "home"));
    e_vcard_attribute_add_param (with_value EVC_LABEL (bs "Label")) (new_param EVC_TYPE (bs "HOME"));
    e_vcard_attribute_add_param (with_value (bs "X-A") (bs "v")) (new_param (bs "CONTEXT") (bs "c"))];
  vcard := None; version := E_VCARD_VERSION_30 |}.

Lemma vcard_convert_valid_witness : exists self converted,
  e_vcard_convert (fun _ => None) (fun _ _ => None) (fun s => s) sample_30 E_VCARD_VERSION_40 = Got (self, Some converted) /\
  vcard_of_version E_VCARD_VERSION_40 converted.
Proof.
  eexists _, _. split; [vm_compute; reflexivity|].
  eapply (vcard_convert_valid (fun _ => None) (fun _ _ => None) (fun s => s) sample_30); [vm_compute; reflexivity|].
  exists E_VCARD_VERSION_30. split; [reflexivity|discriminate].
Defined.

Example label_of_address :
  option_map (fun evc => map (fun a => (attr_name a, e_vcard_attribute_get_param a EVC_LABEL)) (attributes evc))
    (match e_vcard_convert (fun _ => None) (fun _ _ => None) (fun s => s) sample_30 E_VCARD_VERSION_40 with
     | Got (_, c) => c | _ => None end) =
  Some [(EVC_VERSION, None); (EVC_ADR, Some [bs "Label"]); (bs "X-A", None)].
Proof. vm_compute. reflexivity. Qed.
