(* ===== verification/VCardConvertBack.v ===== *)
(** Attributes of a vCard 3.0 that come back from version 4.0. *)
From Stdlib Require Import ZArith Lia Ascii.
From stdpp Require Import base list option strings.
From S2P Require Import Prelude StringUtils Utf8 VCard VCardParse VCardWrite VCardParseSpec VCardLines VCardConvert VCardConvertSpec.
Local Open Scope Z_scope.

(** An attribute without parameters. *)
Definition bare (g : option text) (name : text) (values : list text) : EVCardAttribute :=
  {| attr_group := g; attr_name := name; attr_params := []; attr_values := values; attr_decoded_values := [];
     attr_encoding := EVC_ENCODING_RAW; attr_encoding_set := false |}.

Definition rename_to (v : EVCardVersion) (name : text) : text :=
  renamed (Some (e_vcard_convert_get_30_40_rename_hash v)) name.

(** The names that the handler does something for. *)
Definition handled_names : list text :=
  [EVC_ADR; EVC_KIND; EVC_X_LIST; EVC_X_EVOLUTION_KIND; EVC_IMPP; EVC_X_EVOLUTION_IMPP; EVC_PHOTO; EVC_LOGO; EVC_GEO;
   EVC_KEY; EVC_X_ANNIVERSARY; EVC_ANNIVERSARY; EVC_BDAY; EVC_VERSION] ++ map fst schemes.

(** A name of 3.0 that has a name in 4.0 which leads back. *)
Definition ordinary (name : text) : bool :=
  let name40 := rename_to E_VCARD_VERSION_40 name in
  valid_property E_VCARD_VERSION_40 name40 && valid_property E_VCARD_VERSION_30 name &&
  bytes_eqb (rename_to E_VCARD_VERSION_30 name40) name &&
  forallb (fun n => negb (strcase_eqb name n) && negb (strcase_eqb name40 n)) handled_names.

(** Attributes of a vCard 3.0 that come back: dates, places, instant messaging
    addresses, and those with an ordinary name. *)
Inductive returning : EVCardAttribute -> Prop :=
  | returning_date g name y1 y2 y3 y4 m1 m2 d1 d2 : name = EVC_BDAY \/ name = EVC_X_ANNIVERSARY -> g <> Some [] ->
      returning (bare g name [[y1; y2; y3; y4; ch "-"; m1; m2; ch "-"; d1; d2]])
  | returning_geo g lat long : g <> Some [] -> lat <> [] -> Forall (fun c => c <> ch ",") lat ->
      returning (bare g EVC_GEO [lat; long])
  | returning_im g name scheme v : g <> Some [] -> In (name, scheme) schemes -> v <> [] -> Forall (fun c => c <> 0) v ->
      returning (bare g name [v])
  | returning_other g name values : g <> Some [] -> ordinary name = true -> existsb nonempty values = true ->
      returning (bare g name values).

Section Back.
Context (g_utf8_validate : text -> option nat).
Context (g_convert : text -> text -> option text).
Context (g_base64_decode : text -> text).

Notation convert_to v := (convert_attribute (generate_dict_validator (Some (properties_of v)))
  (generate_dict_validator (Some (parameters_of v))) (Some (e_vcard_convert_get_30_40_rename_hash v))
  (e_vcard_convert_30_40_cb g_base64_decode v)).

(** The attribute becomes another, whatever comes before it. *)
Definition becomes (v : EVCardVersion) (a b : EVCardAttribute) : Prop :=
  named b EVC_VERSION = false /\
  forall evc labels, convert_to v a evc labels = (add_parsed evc b, labels).

Lemma copy_bare g name values : g <> Some [] -> e_vcard_attribute_copy (bare g name values) = bare g name values.
Proof.
  intros G. rewrite copy_eq, add_values_with. cbn. unfold with_values, bare. cbn. f_equal. destruct g as [[|]|]; done.
Qed.

(** What the handler does with an attribute without parameters. *)
Lemma becomes_intro v g name values name' values' :
  g <> Some [] -> existsb nonempty values = true ->
  strcase_eqb name EVC_VERSION = false -> strcase_eqb name' EVC_VERSION = false ->
  valid_property v (rename_to v name) = true ->
  (forall evc labels, e_vcard_convert_30_40_cb g_base64_decode v
     {| hs_vcard := evc; hs_attr := bare g name values; hs_name := rename_to v name; hs_labels := labels; hs_keep := true |} =
     {| hs_vcard := evc; hs_attr := bare g name values'; hs_name := name'; hs_labels := labels; hs_keep := true |}) ->
  becomes v (bare g name values) (bare g name' values').
Proof.
  intros G E N N' V H. split; [exact N'|]. intros evc labels. unfold convert_attribute. cbn [attr_name attr_values bare].
  unfold named. cbn [attr_name bare]. rewrite N.
  change (valid_name _ (renamed _ name)) with (valid_property v (rename_to v name)). rewrite V, E. cbn [negb orb].
  rewrite copy_bare by done. change (renamed _ name) with (rename_to v name). by rewrite H.
Qed.

Definition comes_back (a : EVCardAttribute) : Prop :=
  exists b, becomes E_VCARD_VERSION_40 a b /\ becomes E_VCARD_VERSION_30 b a.

Lemma date_back g name y1 y2 y3 y4 m1 m2 d1 d2 : name = EVC_BDAY \/ name = EVC_X_ANNIVERSARY -> g <> Some [] ->
  comes_back (bare g name [[y1; y2; y3; y4; ch "-"; m1; m2; ch "-"; d1; d2]]).
Proof.
  intros N G. exists (bare g (rename_to E_VCARD_VERSION_40 name) [[y1; y2; y3; y4; m1; m2; d1; d2]]).
  split; destruct N as [-> | ->].
  - by apply (becomes_intro E_VCARD_VERSION_40 g EVC_BDAY _ EVC_BDAY).
  - by apply (becomes_intro E_VCARD_VERSION_40 g EVC_X_ANNIVERSARY _ EVC_ANNIVERSARY).
  - by apply (becomes_intro E_VCARD_VERSION_30 g EVC_BDAY _ EVC_BDAY).
  - by apply (becomes_intro E_VCARD_VERSION_30 g EVC_ANNIVERSARY _ EVC_X_ANNIVERSARY).
Qed.

Lemma strchr_first (a b : text) c : Forall (fun x => x <> c) a -> strchr (a ++ c :: b) c = Some (length a).
Proof.
  intros A. unfold strchr. apply index_where_some; [|by apply Z.eqb_refl].
  eapply list.Forall_impl; [exact A|]. intros x Hx. cbv beta in *. apply Z.eqb_neq. congruence.
Qed.

Lemma geo_back g lat long : g <> Some [] -> lat <> [] -> Forall (fun c => c <> ch ",") lat ->
  comes_back (bare g EVC_GEO [lat; long]).
Proof.
  intros G N A. exists (bare g EVC_GEO [bs "geo:" ++ lat ++ [ch ","] ++ long]). split.
  - apply (becomes_intro E_VCARD_VERSION_40 g EVC_GEO _ EVC_GEO); [done| |done..]. by destruct lat.
  - apply (becomes_intro E_VCARD_VERSION_30 g EVC_GEO _ EVC_GEO); [done..|].
    intros evc labels. 
    assert (C : convert_geo_30 (bare g EVC_GEO [bs "geo:" ++ lat ++ [ch ","] ++ long]) = bare g EVC_GEO [lat; long]).
    { unfold convert_geo_30. cbn [attr_values bare].
      change (strncase_prefix (bs "geo:" ++ lat ++ [ch ","] ++ long) (bs "geo:")) with true.
      change (drop 4 (bs "geo:" ++ lat ++ [ch ","] ++ long)) with (lat ++ ch "," :: long). cbn zeta match.
      rewrite strchr_first by done. rewrite take_app_length, drop_middle. done. }
    revert C. generalize (bs "geo:" ++ lat ++ [ch ","] ++ long). intros w C.
    match goal with |- _ ?s = _ =>
      transitivity (hs_set_attr s (convert_geo_30 (bare g EVC_GEO [w]))); [reflexivity|by rewrite C] end.
Qed.

(** ** Instant messaging *)

(** The facts about the table that are checked for each entry. *)
Definition scheme_ok (e : text * text) : bool :=
  let '(name, scheme) := e in
  bytes_eqb (rename_to E_VCARD_VERSION_40 name) name && is_x_name name && negb (strcase_eqb name EVC_VERSION) &&
  forallb (fun n => negb (strcase_eqb name n))
    [EVC_ADR; EVC_KIND; EVC_X_LIST; EVC_X_EVOLUTION_KIND; EVC_IMPP; EVC_PHOTO; EVC_LOGO; EVC_GEO; EVC_KEY; EVC_X_ANNIVERSARY; EVC_ANNIVERSARY; EVC_BDAY] &&
  bool_decide (table_lookup (e_vcard_convert_get_30_40_impp_scheme_hash E_VCARD_VERSION_40) name = Some scheme) &&
  bool_decide (table_lookup (e_vcard_convert_get_30_40_impp_scheme_hash E_VCARD_VERSION_30) scheme = Some name) &&
  bool_decide (strchr scheme (ch ":") = Some (length scheme - 1)%nat) && forallb (fun c => negb (c =? 0)) scheme.

Lemma schemes_ok e : In e schemes -> scheme_ok e = true.
Proof. apply forallb_forall. vm_compute. reflexivity. Qed.

Lemma strchr_app_some a b c i : strchr a c = Some i -> strchr (a ++ b) c = Some i.
Proof.
  unfold strchr. revert i. induction a as [|x a IH]; intros i; [done|]. cbn [app index_where].
  destruct (c =? x); [done|]. destruct (index_where _ a) as [j|]; [|done]. intros [= <-]. by rewrite (IH j).
Qed.

Lemma im_back g name scheme v : g <> Some [] -> In (name, scheme) schemes -> v <> [] -> Forall (fun c => c <> 0) v ->
  comes_back (bare g name [v]).
Proof.
  intros G I N Z. pose proof (schemes_ok _ I) as O. unfold scheme_ok in O.
  rewrite !andb_true_iff, !bool_decide_eq_true in O. destruct O as [[[[[[[R X] Nv] F] L40] L30] C] Nz].
  apply bytes_eqb_eq in R. apply negb_true_iff in Nv.
  assert (K : forall n, In n [EVC_ADR; EVC_KIND; EVC_X_LIST; EVC_X_EVOLUTION_KIND; EVC_IMPP; EVC_PHOTO; EVC_LOGO; EVC_GEO; EVC_KEY; EVC_X_ANNIVERSARY;
    EVC_ANNIVERSARY; EVC_BDAY] -> strcase_eqb name n = false).
  { intros n Hn. rewrite forallb_forall in F. by apply negb_true_iff, F. }
  assert (Zs : cstr (scheme ++ v) = scheme ++ v).
  { apply cstr_id, list.Forall_app. split; [|done]. apply List.Forall_forall. rewrite forallb_forall in Nz.
    intros c Hc. specialize (Nz c Hc). intros ->. done. }
  destruct v as [|c v]; [done|].
  exists (bare g EVC_IMPP [scheme ++ c :: v]). split.
  - apply (becomes_intro E_VCARD_VERSION_40 g name _ EVC_IMPP); [done|done|done|done| |].
    + rewrite R. unfold valid_property, valid_name. cbn match. by rewrite X.
    + intros evc labels. rewrite R. unfold e_vcard_convert_30_40_cb, named, e_vcard_is_date_attr, named.
      cbn [hs_attr hs_name attr_name bare to_40]. cbn [bool_decide decide_rel].
      rewrite !K by (cbn; tauto).
      match goal with |- context [convert_impp_40 _ ?s] =>
        transitivity (convert_impp_40 g_base64_decode s); [reflexivity|] end.
      unfold convert_impp_40. cbn [hs_attr attr_name bare]. rewrite L40. cbn -[app cstr]. by rewrite Zs.
  - apply (becomes_intro E_VCARD_VERSION_30 g EVC_IMPP _ name); [done| |done|done|done|].
    + by destruct scheme.
    + intros evc labels.
      assert (Q : convert_impp_30 g_base64_decode
        {| hs_vcard := evc; hs_attr := bare g EVC_IMPP [scheme ++ c :: v]; hs_name := EVC_X_EVOLUTION_IMPP;
           hs_labels := labels; hs_keep := true |} =
        {| hs_vcard := evc; hs_attr := bare g EVC_IMPP [c :: v]; hs_name := name; hs_labels := labels; hs_keep := true |});
        [|exact Q].
      unfold convert_impp_30. cbn [hs_attr]. 
      assert (E : exists d s, scheme ++ c :: v = d :: s) by (destruct scheme; eauto). destruct E as (d & s & E).
      cbn -[table_lookup strchr cstr]. rewrite E. rewrite <- E, Zs, (strchr_app_some _ _ _ _ C).
      assert (Ls : S (length scheme - 1) = length scheme) by (destruct scheme; [done|cbn; lia]).
      rewrite Ls, take_app_length, drop_app_length, L30. done.
Qed.

(** ** Other names *)

Lemma strcase_sym a b : strcase_eqb a b = strcase_eqb b a.
Proof. unfold strcase_eqb. apply bytes_eqb_sym. Qed.

Lemma scheme_lookup_none name : (forall n, In n (map fst schemes) -> strcase_eqb name n = false) ->
  table_lookup (e_vcard_convert_get_30_40_impp_scheme_hash E_VCARD_VERSION_40) name = None.
Proof.
  intros H. unfold table_lookup.
  change (e_vcard_convert_get_30_40_impp_scheme_hash E_VCARD_VERSION_40) with schemes.
  destruct (List.find _ schemes) as [[x y]|] eqn:E; [|done]. apply find_some in E as [I E].
  unfold camel_strcase_equal in E. cbn [fst] in E. rewrite strcase_sym, H in E; [done|]. by apply (in_map fst _ (x, y)).
Qed.

Lemma handler_ordinary v name rename values g evc labels : v = E_VCARD_VERSION_30 \/ v = E_VCARD_VERSION_40 ->
  (forall n, In n handled_names -> strcase_eqb name n = false) ->
  (forall n, In n handled_names -> strcase_eqb rename n = false) ->
  let s := {| hs_vcard := evc; hs_attr := bare g name values; hs_name := rename; hs_labels := labels; hs_keep := true |} in
  e_vcard_convert_30_40_cb g_base64_decode v s = s.
Proof.
  intros V N R s. unfold e_vcard_convert_30_40_cb, e_vcard_is_date_attr, named.
  change (attr_name (hs_attr s)) with name. change (hs_name s) with rename.
  rewrite !N, !R by (cbn; tauto).
  destruct V as [-> | ->]; [done|].
  transitivity (convert_impp_40 g_base64_decode s); [reflexivity|].
  unfold convert_impp_40, named. change (attr_name (hs_attr s)) with name.
  rewrite scheme_lookup_none, N by (first [by cbn; tauto|intros n Hn; apply N; unfold handled_names; apply in_or_app; by right]).
  done.
Qed.

Lemma ordinary_back g name values : g <> Some [] -> ordinary name = true -> existsb nonempty values = true ->
  comes_back (bare g name values).
Proof.
  intros G O E. unfold ordinary in O. rewrite !andb_true_iff in O. destruct O as [[[V40 V30] R] F].
  apply bytes_eqb_eq in R. rewrite forallb_forall in F.
  assert (N : forall n, In n handled_names -> strcase_eqb name n = false).
  { intros n I. apply F, andb_prop in I as [I _]. by apply negb_true_iff. }
  assert (N40 : forall n, In n handled_names -> strcase_eqb (rename_to E_VCARD_VERSION_40 name) n = false).
  { intros n I. apply F, andb_prop in I as [_ I]. by apply negb_true_iff. }
  exists (bare g (rename_to E_VCARD_VERSION_40 name) values). split.
  - apply becomes_intro; [done|done|apply N; cbn; tauto|apply N40; cbn; tauto|done|].
    intros evc labels. apply handler_ordinary; [by right|done|done].
  - apply becomes_intro; [done|done|apply N40; cbn; tauto|apply N; cbn; tauto|by rewrite R|].
    intros evc labels. rewrite R. apply handler_ordinary; [by left|done|done].
Qed.

Lemma returning_back a : returning a -> comes_back a.
Proof.
  intros [g name y1 y2 y3 y4 m1 m2 d1 d2 N G|g lat long G N A|g name scheme v G I N A|g name values G O E].
  - by apply date_back.
  - by apply geo_back.
  - by eapply im_back.
  - by apply ordinary_back.
Qed.

(** ** vCards *)

Lemma convert_list v l l' : Forall2 (becomes v) l l' -> forall evc labels,
  convert_attributes (generate_dict_validator (Some (properties_of v)))
    (generate_dict_validator (Some (parameters_of v))) (Some (e_vcard_convert_get_30_40_rename_hash v))
    (e_vcard_convert_30_40_cb g_base64_decode v) l evc labels = with_attributes evc (reverse l' ++ attributes evc).
Proof.
  induction 1 as [|a b l l' [N H] F IH]; intros evc labels; cbn [convert_attributes]; [by destruct evc|].
  rewrite H, IH. rewrite reverse_cons, <- app_assoc. unfold add_parsed, cache_version_from_attr. rewrite N.
  by repeat case_match.
Qed.

(** A vCard of a version with its VERSION. *)
Definition vcard_with (v : EVCardVersion) (l : list EVCardAttribute) : EVCard :=
  {| attributes := with_value EVC_VERSION (e_vcard_version_to_string v) :: l; vcard := None; version := v |}.

Lemma convert_with v l l' labels w : v = E_VCARD_VERSION_30 \/ v = E_VCARD_VERSION_40 -> Forall2 (becomes v) l l' ->
  e_vcard_convert_to_generic (vcard_with w l) v (properties_of v) (parameters_of v)
    (Some (e_vcard_convert_get_30_40_rename_hash v)) (e_vcard_convert_30_40_cb g_base64_decode v) labels = vcard_with v l'.
Proof.
  intros V F. unfold e_vcard_convert_to_generic. cbn [vcard_with attributes convert_attributes].
  assert (K : forall x evc labels, convert_to v (with_value EVC_VERSION x) evc labels = (evc, labels)) by done.
  rewrite !K, !(convert_list _ _ _ F).
  destruct V as [-> | ->]; unfold vcard_with, with_attributes; cbn -[reverse bs]; rewrite reverse_app, reverse_involutive; done.
Qed.

(** C20. A vCard 3.0 of dates, places, instant messaging addresses and
    attributes with ordinary names, without parameters, is the same after it was
    converted to version 4.0 and back. *)
Theorem vcard_convert_roundtrip (l : list EVCardAttribute) : Forall returning l ->
  exists l',
    e_vcard_convert g_utf8_validate g_convert g_base64_decode (vcard_with E_VCARD_VERSION_30 l) E_VCARD_VERSION_40 =
      Got (vcard_with E_VCARD_VERSION_30 l, Some (vcard_with E_VCARD_VERSION_40 l')) /\
    e_vcard_convert g_utf8_validate g_convert g_base64_decode (vcard_with E_VCARD_VERSION_40 l') E_VCARD_VERSION_30 =
      Got (vcard_with E_VCARD_VERSION_40 l', Some (vcard_with E_VCARD_VERSION_30 l)).
Proof.
  intros R.
  assert (B : exists l', Forall2 (becomes E_VCARD_VERSION_40) l l' /\ Forall2 (becomes E_VCARD_VERSION_30) l' l).
  { induction R as [|a l A R (l' & F1 & F2)]; [by exists []|].
    destruct (returning_back a A) as (b & B1 & B2). exists (b :: l'). by split; constructor. }
  destruct B as (l' & F1 & F2). exists l'. split.
  - transitivity (Got (vcard_with E_VCARD_VERSION_30 l,
      Some (e_vcard_convert_30_to_40 g_base64_decode (vcard_with E_VCARD_VERSION_30 l)))); [reflexivity|].
    do 3 f_equal. apply (convert_with E_VCARD_VERSION_40); [by right|done].
  - transitivity (Got (vcard_with E_VCARD_VERSION_40 l',
      Some (e_vcard_convert_40_to_30 g_base64_decode (vcard_with E_VCARD_VERSION_40 l')))); [reflexivity|].
    do 3 f_equal. apply (convert_with E_VCARD_VERSION_30); [by left|done].
Qed.
End Back.

Lemma vcard_convert_roundtrip_witness : exists l',
    e_vcard_convert (fun _ => None) (fun _ _ => None) (fun s => s) (vcard_with E_VCARD_VERSION_30
      [bare None (bs "BDAY") [bs "1999-12-31"]; bare (Some (bs "g")) (bs "X-AIM") [bs "me"];
       bare None (bs "GEO") [bs "46.7"; bs "2.3"]; bare None (bs "X-EVOLUTION-GENDER") [bs "M"];
       bare None (bs "N") [bs "Doe"; bs "John"]]) E_VCARD_VERSION_40 =
      Got (vcard_with E_VCARD_VERSION_30
      [bare None (bs "BDAY") [bs "1999-12-31"]; bare (Some (bs "g")) (bs "X-AIM") [bs "me"];
       bare None (bs "GEO") [bs "46.7"; bs "2.3"]; bare None (bs "X-EVOLUTION-GENDER") [bs "M"];
       bare None (bs "N") [bs "Doe"; bs "John"]], Some (vcard_with E_VCARD_VERSION_40 l')) /\
    e_vcard_convert (fun _ => None) (fun _ _ => None) (fun s => s) (vcard_with E_VCARD_VERSION_40 l') E_VCARD_VERSION_30 =
      Got (vcard_with E_VCARD_VERSION_40 l', Some (vcard_with E_VCARD_VERSION_30
      [bare None (bs "BDAY") [bs "1999-12-31"]; bare (Some (bs "g")) (bs "X-AIM") [bs "me"];
       bare None (bs "GEO") [bs "46.7"; bs "2.3"]; bare None (bs "X-EVOLUTION-GENDER") [bs "M"];
       bare None (bs "N") [bs "Doe"; bs "John"]])).
Proof.
  apply vcard_convert_roundtrip.
  repeat (apply List.Forall_cons); [| | | | |apply List.Forall_nil].
  - apply (returning_date None (bs "BDAY")); [by left|done].
  - apply (returning_im (Some (bs "g")) (bs "X-AIM") (bs "aim:") (bs "me")); [done|by left|done|].
    repeat constructor; discriminate.
  - apply (returning_geo None); [done|done|]. repeat constructor; discriminate.
  - apply returning_other; [done|vm_compute; reflexivity|reflexivity].
  - apply returning_other; [done|vm_compute; reflexivity|reflexivity].
Defined.

(** ** Pictures *)

Definition no_separator (c : Z) : Prop := c <> ch "," /\ c <> ch ";".

(** The loop up to a separator: what is read of a parameter. *)
Definition data_parameter (param : text) (mime_type charset : option text) (is_base64 : bool) (from : text)
    : option text * option text * bool :=
  let len := length param in
  if strncasecmp_eqb from (bs "base64") len then (mime_type, charset, true)
  else if Nat.ltb 8 len && strncase_prefix from (bs "charset=")
  then (mime_type, Some (take (len - 8) (drop 8 from)), is_base64)
  else if Nat.ltb 0 len && match mime_type with None => true | Some _ => false end
  then (Some (take len from), charset, is_base64)
  else (mime_type, charset, is_base64).

Lemma split_data_run p sep r : Forall no_separator p -> sep = ch "," \/ sep = ch ";" ->
  forall c param from m cs b, c <> ch "," -> from = param ++ sep :: r ->
  split_data_loop (c :: p ++ sep :: r) from m cs b =
  (let '(m, cs, b) := data_parameter param m cs b from in split_data_loop (sep :: r) r m cs b).
Proof.
  intros A Sp. induction A as [|d p [N1 N2] A IH]; intros c param from m cs b Nc E.
  - cbn [app]. cbn [split_data_loop]. rewrite (proj2 (Z.eqb_neq c (ch ",")) Nc). cbn [deref].
    assert ((sep =? ch ",") || (sep =? ch ";") = true) as -> by (by destruct Sp as [-> | ->]).
    assert ((length from - length (sep :: r))%nat = length param) as -> by (rewrite E, length_app; lia).
    reflexivity.
  - change ((d :: p) ++ sep :: r) with (d :: p ++ sep :: r). 
    transitivity (split_data_loop (d :: p ++ sep :: r) from m cs b); [|by apply IH].
    cbn [split_data_loop]. rewrite (proj2 (Z.eqb_neq c (ch ",")) Nc). cbn [deref].
    by rewrite (proj2 (Z.eqb_neq d (ch ",")) N1), (proj2 (Z.eqb_neq d (ch ";")) N2).
Qed.

Lemma split_image_uri t content : Forall no_separator t ->
  e_util_split_data_uri (bs "data:image/" ++ t ++ bs ";base64," ++ content) =
  Some (Some (bs "image/" ++ t), None, true, content).
Proof.
  intros A. unfold e_util_split_data_uri.
  change (strncase_prefix (bs "data:image/" ++ t ++ bs ";base64," ++ content) (bs "data:")) with true.
  change (drop 5 (bs "data:image/" ++ t ++ bs ";base64," ++ content)) with
    (ch "i" :: (bs "mage/" ++ t) ++ ch ";" :: bs "base64," ++ content).
  assert (A1 : Forall no_separator (bs "mage/" ++ t)).
  { apply list.Forall_app. split; [|exact A]. repeat constructor; discriminate. }
  assert (A2 : Forall no_separator (bs "base64")) by (repeat constructor; discriminate).
  cbn match. rewrite (split_data_run (bs "mage/" ++ t) _ _ A1 ltac:(by right) (ch "i") (bs "image/" ++ t)) by done.
  assert (data_parameter (bs "image/" ++ t) None None false ((bs "image/" ++ t) ++ ch ";" :: bs "base64," ++ content) =
    (Some (bs "image/" ++ t), None, false)) as D.
  { unfold data_parameter. rewrite take_app_length.
    change (strncase_prefix ((bs "image/" ++ t) ++ _) (bs "charset=")) with false. rewrite andb_false_r. reflexivity. }
  change ((bs "image/" ++ t) ++ ch ";" :: bs "base64," ++ content) with
    (ch "i" :: (bs "mage/" ++ t) ++ ch ";" :: bs "base64," ++ content) in D.
  rewrite D. cbn match.
  change (ch ";" :: bs "base64," ++ content) with (ch ";" :: bs "base64" ++ ch "," :: content).
  rewrite (split_data_run (bs "base64") (ch ",") content A2 ltac:(by left) (ch ";") (bs "base64")) by done.
  reflexivity.
Qed.

Lemma strchr_image t : strchr (bs "image/" ++ t) (ch "/") = Some 5%nat.
Proof. apply (strchr_app_some (bs "image/") t). reflexivity. Qed.

(** A picture of a vCard 3.0 is a "data:" URI in version 4.0, and its content,
    its code and its type come back. *)
Theorem vcard_photo_roundtrip (a : EVCardAttribute) (c : Z) (content : text) (t : text) (values : list text) :
  attr_values a = (c :: content) :: values ->
  e_vcard_attribute_get_param a EVC_ENCODING = Some [bs "b"] ->
  e_vcard_attribute_get_param a EVC_TYPE = Some [t] ->
  e_vcard_attribute_get_param a EVC_VALUE = None ->
  t <> [] -> Forall no_separator t ->
  attr_values (convert_photo_40 a) = [bs "data:image/" ++ t ++ bs ";base64," ++ c :: content] /\
  (let b := convert_photo_30 (convert_photo_40 a) in
   attr_values b = [c :: content] /\
   e_vcard_attribute_get_param b EVC_ENCODING = Some [bs "b"] /\
   e_vcard_attribute_get_param b EVC_TYPE = Some [t]).
Proof.
  intros V E T N Nt A.
  assert (P : convert_photo_40 a = only_value a (bs "data:image/" ++ t ++ bs ";base64," ++ c :: content)).
  { unfold convert_photo_40, is_base64_param, first_param_is. rewrite N, E, T, V.
    cbn [negb andb orb]. change (strcase_eqb (bs "b") (bs "b")) with true. cbn match.
    f_equal. change (bs "data:image/") with (bs "data:" ++ bs "image/"). by rewrite <- !app_assoc. }
  rewrite P. split; [done|]. cbn zeta. set (uri := bs "data:image/" ++ _).
  assert (U : e_util_split_data_uri uri = Some (Some (bs "image/" ++ t), None, true, c :: content))
    by (by apply split_image_uri).
  assert (Q : convert_photo_30 (only_value a uri) =
    e_vcard_attribute_add_param (e_vcard_attribute_add_param (only_value a (c :: content)) (new_param EVC_ENCODING (bs "b")))
      (new_param EVC_TYPE t)).
  { unfold convert_photo_30. change (attr_values (only_value a uri)) with [uri].
    change (strncase_prefix uri (bs "data:")) with true. cbn match. rewrite U, strchr_image.
    change (drop 6 (bs "image/" ++ t)) with t. destruct t; [done|]. reflexivity. }
  rewrite Q. split_and!; reflexivity.
Qed.

(** A parameter that begins like "base64", or is empty, is taken for it; one
    behind an empty MIME type is not seen. *)
Example data_uri_parameters :
  e_util_split_data_uri (bs "data:text/plain;,x") = Some (Some (bs "text/plain"), None, true, bs "x") /\
  e_util_split_data_uri (bs "data:b,x") = Some (None, None, true, bs "x") /\
  e_util_split_data_uri (bs "data:;base64,eA==") = Some (Some (bs ";base64"), None, false, bs "eA==").
Proof. split_and!; vm_compute; reflexivity. Qed.

Lemma vcard_photo_roundtrip_witness :
  let a := e_vcard_attribute_add_param (e_vcard_attribute_add_param
    (with_value EVC_PHOTO (bs "eA==")) (new_param EVC_TYPE (bs "PNG"))) (new_param EVC_ENCODING (bs "b")) in
  attr_values (convert_photo_40 a) = [bs "data:image/PNG;base64,eA=="] /\
  (let b := convert_photo_30 (convert_photo_40 a) in
   attr_values b = [bs "eA=="] /\
   e_vcard_attribute_get_param b EVC_ENCODING = Some [bs "b"] /\
   e_vcard_attribute_get_param b EVC_TYPE = Some [bs "PNG"]).
Proof.
  apply (vcard_photo_roundtrip _ (ch "e") (bs "A==") (bs "PNG") []); try reflexivity; [discriminate|].
  repeat constructor; discriminate.
Defined.
