(* ===== verification/BlockFile.v ===== *)
(** * BlockFile: the cached block file below the full-text index
    (camel/camel-block-file.c, camel/camel-block-file.h)

    A file of 1024 byte blocks with a cache of the blocks in memory.  Callers
    hold pointers to [CamelBlock]s, write into their data and touch them; the
    cache writes dirty blocks when it is over its limit and drops blocks nobody
    refers to.  The root block has a flag that says whether the file on disk is
    consistent.

    The model is the pointer program: [heap] has the blocks that are allocated,
    and reading a block that was freed, or a word outside of the data of a
    block, is a failure ([None]); the address
    of a freed block is not used again.  A block is 256 words of 32 bits.  Whether a
    call of the system works (open, lseek and read, lseek and write, fstat,
    ftruncate, unlink) is taken from the list [io]; a call that fails changes
    nothing.  The mutexes make an operation one step; the list of all block
    files of the process is [block_file_offline], what another file does to this
    one when too many are open. *)

From stdpp Require Import base list numbers gmap.
From Stdlib Require Import ZArith Lia.
From S2P Require Import Prelude.

Definition CAMEL_BLOCK_SIZE : Z := 1024.
Definition WORDS : nat := 256.
Definition CAMEL_BLOCK_FILE_SYNC : Z := 1.

Definition zero_block : list Z := replicate WORDS 0.

(** Where [struct _CamelBlockRoot] has its fields, after the eight bytes of the
    version. *)
Definition ROOT_FLAGS : nat := 2.
Definition ROOT_BLOCK_SIZE : nat := 3.
Definition ROOT_FREE : nat := 4.
Definition ROOT_LAST : nat := 5.

(** ** The file on disk *)

Record disk := Disk { st_size : Z; sectors : gmap Z (list Z) }.

(** A read at the end of the file gives nothing: the block keeps the zeros of
    [g_malloc0]. *)
Definition disk_read (f : disk) (id : Z) : list Z := default zero_block (sectors f !! id).
Definition disk_write (f : disk) (id : Z) (d : list Z) : disk :=
  Disk (Z.max (st_size f) (id + CAMEL_BLOCK_SIZE)) (<[id := d]> (sectors f)).
Definition disk_truncate (f : disk) (n : Z) : disk :=
  Disk n (filter (fun '(id, _) => id < n) (sectors f)).

(** ** Blocks and block files *)

Abbreviation loc := positive (only parsing).

Record CamelBlock := Block { bl_id : Z; bl_dirty : bool; bl_detached : bool; bl_refcount : Z; bl_data : list Z }.

Definition with_dirty (v : bool) (b : CamelBlock) := Block (bl_id b) v (bl_detached b) (bl_refcount b) (bl_data b).
Definition with_detached (v : bool) (b : CamelBlock) := Block (bl_id b) (bl_dirty b) v (bl_refcount b) (bl_data b).
Definition with_refcount (v : Z) (b : CamelBlock) := Block (bl_id b) (bl_dirty b) (bl_detached b) v (bl_data b).
Definition with_data (v : list Z) (b : CamelBlock) := Block (bl_id b) (bl_dirty b) (bl_detached b) (bl_refcount b) v.

Record CamelBlockFile := BlockFile {
  bf_version : list Z; bf_deleted : bool; bf_fd : bool; bf_root : option loc;
  block_cache_limit : Z; block_cache_count : Z; block_cache : list loc; bf_blocks : gmap Z loc;
  bf_heap : gmap loc CamelBlock; bf_next : loc; bf_file : disk; bf_io : list bool }.

Definition set_deleted v s := BlockFile (bf_version s) v (bf_fd s) (bf_root s) (block_cache_limit s) (block_cache_count s) (block_cache s) (bf_blocks s) (bf_heap s) (bf_next s) (bf_file s) (bf_io s).
Definition set_fd v s := BlockFile (bf_version s) (bf_deleted s) v (bf_root s) (block_cache_limit s) (block_cache_count s) (block_cache s) (bf_blocks s) (bf_heap s) (bf_next s) (bf_file s) (bf_io s).
Definition set_root v s := BlockFile (bf_version s) (bf_deleted s) (bf_fd s) v (block_cache_limit s) (block_cache_count s) (block_cache s) (bf_blocks s) (bf_heap s) (bf_next s) (bf_file s) (bf_io s).
Definition set_limit v s := BlockFile (bf_version s) (bf_deleted s) (bf_fd s) (bf_root s) v (block_cache_count s) (block_cache s) (bf_blocks s) (bf_heap s) (bf_next s) (bf_file s) (bf_io s).
Definition set_count v s := BlockFile (bf_version s) (bf_deleted s) (bf_fd s) (bf_root s) (block_cache_limit s) v (block_cache s) (bf_blocks s) (bf_heap s) (bf_next s) (bf_file s) (bf_io s).
Definition set_cache v s := BlockFile (bf_version s) (bf_deleted s) (bf_fd s) (bf_root s) (block_cache_limit s) (block_cache_count s) v (bf_blocks s) (bf_heap s) (bf_next s) (bf_file s) (bf_io s).
Definition set_blocks v s := BlockFile (bf_version s) (bf_deleted s) (bf_fd s) (bf_root s) (block_cache_limit s) (block_cache_count s) (block_cache s) v (bf_heap s) (bf_next s) (bf_file s) (bf_io s).
Definition set_heap v s := BlockFile (bf_version s) (bf_deleted s) (bf_fd s) (bf_root s) (block_cache_limit s) (block_cache_count s) (block_cache s) (bf_blocks s) v (bf_next s) (bf_file s) (bf_io s).
Definition set_next v s := BlockFile (bf_version s) (bf_deleted s) (bf_fd s) (bf_root s) (block_cache_limit s) (block_cache_count s) (block_cache s) (bf_blocks s) (bf_heap s) v (bf_file s) (bf_io s).
Definition set_file v s := BlockFile (bf_version s) (bf_deleted s) (bf_fd s) (bf_root s) (block_cache_limit s) (block_cache_count s) (block_cache s) (bf_blocks s) (bf_heap s) (bf_next s) v (bf_io s).
Definition set_io v s := BlockFile (bf_version s) (bf_deleted s) (bf_fd s) (bf_root s) (block_cache_limit s) (block_cache_count s) (block_cache s) (bf_blocks s) (bf_heap s) (bf_next s) (bf_file s) v.

(** Programs over a block file. *)
Definition M (A : Type) : Type := CamelBlockFile -> option (A * CamelBlockFile).
#[export] Instance M_ret : MRet M := fun A a s => Some (a, s).
#[export] Instance M_bind : MBind M := fun A B f m s =>
  match m s with Some (a, s') => f a s' | None => None end.

Definition fail {A} : M A := fun _ => None.
Definition gets {A} (f : CamelBlockFile -> A) : M A := fun s => Some (f s, s).
Definition modify (f : CamelBlockFile -> CamelBlockFile) : M unit := fun s => Some (tt, f s).

(** The fields of the block behind a pointer. *)
Definition deref (p : loc) : M CamelBlock := fun s =>
  match bf_heap s !! p with Some b => Some (b, s) | None => None end.
Definition assign (p : loc) (f : CamelBlock -> CamelBlock) : M unit := fun s =>
  match bf_heap s !! p with Some b => Some (tt, set_heap (<[p := f b]> (bf_heap s)) s) | None => None end.

(** The word [i] of [bl->data]. *)
Definition get_word (p : loc) (i : nat) : M Z :=
  b ← deref p; match bl_data b !! i with Some v => mret v | None => fail end.
Definition set_word (p : loc) (i : nat) (v : Z) : M unit :=
  b ← deref p; if decide (i < length (bl_data b))%nat then assign p (with_data (<[i := v]> (bl_data b))) else fail.

(** The outcome of a call of the system. *)
Definition io_next : M bool := fun s =>
  match bf_io s with [] => Some (true, s) | r :: rest => Some (r, set_io rest s) end.

(** [g_queue_remove], and [g_free] of a block. *)
Fixpoint queue_remove (p : loc) (q : list loc) : list loc :=
  match q with [] => [] | x :: q' => if decide (x = p) then q' else x :: queue_remove p q' end.
Definition free_loc (p : loc) : M unit := modify (fun s => set_heap (delete p (bf_heap s)) s).

(** [bs->priv->root->...]; the root block is the one [root_block] points to. *)
Definition root_ptr : M loc := r ← gets bf_root; match r with Some p => mret p | None => fail end.
Definition root_get (i : nat) : M Z := r ← root_ptr; get_word r i.
Definition root_set (i : nat) (v : Z) : M unit := r ← root_ptr; set_word r i v.

(** ** Opening and closing the file *)

Definition block_file_use : M bool :=
  fd ← gets bf_fd;
  if fd : bool then mret true else
  deleted ← gets bf_deleted;
  if deleted : bool then mret false else
  ok ← io_next;
  if ok : bool then modify (set_fd true);; mret true else mret false.

(** ** Writing blocks *)

(** [true] is the result 0, [false] the result -1. *)
Definition sync_block_nolock (bl : loc) : M bool :=
  b ← deref bl;
  if bl_dirty b then
    ok ← io_next;
    if ok : bool then
      modify (fun s => set_file (disk_write (bf_file s) (bl_id b) (bl_data b)) s);;
      assign bl (with_dirty false);;
      mret true
    else mret false
  else mret true.

(** The loop over the cache: whether there was work, or a failure. *)
Fixpoint sync_dirty (link : list loc) (work : bool) : M (option bool) :=
  match link with
  | [] => mret (Some work)
  | bl :: link' =>
      b ← deref bl;
      if bl_dirty b then
        ok ← sync_block_nolock bl;
        if ok : bool then sync_dirty link' true else mret None
      else sync_dirty link' work
  end.

Definition sync_nolock : M bool :=
  cache ← gets block_cache;
  w ← sync_dirty cache false;
  match w with
  | None => mret false
  | Some work =>
      r ← root_ptr; rb ← deref r;
      flags ← root_get ROOT_FLAGS;
      if negb work && negb (bl_dirty rb) && negb (Z.land flags CAMEL_BLOCK_FILE_SYNC =? 0) then mret true
      else
        root_set ROOT_FLAGS (Z.lor flags CAMEL_BLOCK_FILE_SYNC);;
        assign r (with_dirty true);;
        sync_block_nolock r
  end.

Definition camel_block_file_sync_block (bl : loc) : M bool :=
  ok ← block_file_use;
  if ok : bool then sync_block_nolock bl else mret false.

Definition camel_block_file_sync : M bool :=
  ok ← block_file_use;
  if ok : bool then sync_nolock else mret false.

(** What [block_file_use] of another file does to this one when more than
    [block_file_threshhold] files are open. *)
Definition block_file_offline : M unit :=
  fd ← gets bf_fd;
  if fd : bool then sync_nolock;; modify (set_fd false) else mret tt.

(** ** Blocks *)

(** The loop that flushes old blocks, from the tail of the cache; the result is
    what stays in the cache, the tail first. *)
Fixpoint flush_old (link : list loc) : M (list loc) :=
  match link with
  | [] => mret []
  | flush :: link' =>
      count ← gets block_cache_count; limit ← gets block_cache_limit;
      if count >? limit then
        b ← deref flush;
        if bl_refcount b =? 0 then
          ok ← sync_block_nolock flush;
          if ok : bool then
            modify (fun s => set_blocks (delete (bl_id b) (bf_blocks s)) s);;
            free_loc flush;;
            modify (fun s => set_count (block_cache_count s - 1) s);;
            flush_old link'
          else rest ← flush_old link'; mret (flush :: rest)
        else rest ← flush_old link'; mret (flush :: rest)
      else mret link
  end.

(** [g_malloc0] of a block that is then read from the file. *)
Definition alloc_block (b : CamelBlock) : M loc := fun s =>
  let p := bf_next s in Some (p, set_next (Pos.succ p) (set_heap (<[p := b]> (bf_heap s)) s)).

(** The block is put at the head of the cache and referred to. *)
Definition use_block (bl : loc) : M (option loc) :=
  modify (fun s => set_cache (bl :: block_cache s) s);;
  assign bl (fun b => with_refcount (u32 (bl_refcount b + 1)) b);;
  mret (Some bl).

Definition valid_id (id : Z) : M bool :=
  r ← gets bf_root;
  match r with
  | None => mret ((id =? 0) && (id mod CAMEL_BLOCK_SIZE =? 0))
  | Some p =>
      last ← get_word p ROOT_LAST;
      mret (negb ((id >? last) || (id =? 0)) && (id mod CAMEL_BLOCK_SIZE =? 0))
  end.

Definition camel_block_file_get_block (id : Z) : M (option loc) :=
  valid ← valid_id id;
  if negb valid then mret None else
  found ← gets (fun s => bf_blocks s !! id);
  match found with
  | None =>
      ok ← block_file_use;
      if negb ok then mret None else
      ok ← io_next;
      if negb ok then mret None else
      file ← gets bf_file;
      bl ← alloc_block (Block id false false 0 (disk_read file id));
      modify (fun s => set_count (block_cache_count s + 1) s);;
      modify (fun s => set_blocks (<[id := bl]> (bf_blocks s)) s);;
      cache ← gets block_cache;
      kept ← flush_old (rev cache);
      modify (set_cache (rev kept));;
      use_block bl
  | Some bl =>
      modify (fun s => set_cache (queue_remove bl (block_cache s)) s);;
      use_block bl
  end.

Definition camel_block_file_detach_block (bl : loc) : M unit :=
  b ← deref bl;
  modify (fun s => set_blocks (delete (bl_id b) (bf_blocks s)) s);;
  modify (fun s => set_cache (queue_remove bl (block_cache s)) s);;
  assign bl (with_detached true).

Definition camel_block_file_attach_block (bl : loc) : M unit :=
  b ← deref bl;
  modify (fun s => set_blocks (<[bl_id b := bl]> (bf_blocks s)) s);;
  modify (fun s => set_cache (block_cache s ++ [bl]) s);;
  assign bl (with_detached false).

Definition camel_block_file_touch_block (bl : loc) : M unit :=
  assign bl (with_dirty true);;
  r ← root_ptr;
  flags ← root_get ROOT_FLAGS;
  if negb (Z.land flags CAMEL_BLOCK_FILE_SYNC =? 0) && negb (bool_decide (bl = r)) then
    root_set ROOT_FLAGS (Z.ldiff flags CAMEL_BLOCK_FILE_SYNC);;
    assign r (with_dirty true);;
    camel_block_file_sync_block r;; mret tt
  else mret tt.

Definition camel_block_file_unref_block (bl : loc) : M unit :=
  b ← deref bl;
  if (bl_refcount b =? 1) && bl_detached b then free_loc bl
  else assign bl (with_refcount (u32 (bl_refcount b - 1))).

Definition camel_block_file_new_block : M (option loc) :=
  free ← root_get ROOT_FREE;
  let finish bl :=
    r ← root_ptr;
    assign r (with_dirty true);;
    assign bl (with_dirty true);;
    assign bl (with_data zero_block);;
    mret (Some bl) in
  if negb (free =? 0) then
    bl ← camel_block_file_get_block free;
    match bl with
    | None => mret None
    | Some bl => next ← get_word bl 0; root_set ROOT_FREE next;; finish bl
    end
  else
    last ← root_get ROOT_LAST;
    bl ← camel_block_file_get_block last;
    match bl with
    | None => mret None
    | Some bl => root_set ROOT_LAST (u32 (last + CAMEL_BLOCK_SIZE));; finish bl
    end.

Definition camel_block_file_free_block (id : Z) : M bool :=
  bl ← camel_block_file_get_block id;
  match bl with
  | None => mret false
  | Some bl =>
      free ← root_get ROOT_FREE;
      set_word bl 0 free;;
      b ← deref bl;
      root_set ROOT_FREE (bl_id b);;
      r ← root_ptr;
      assign r (with_dirty true);;
      assign bl (with_dirty true);;
      camel_block_file_unref_block bl;;
      mret true
  end.

Definition camel_block_file_set_cache_limit (limit : Z) : M unit := modify (set_limit limit).

(** ** Block files *)

(** The object before the root block is read: [camel_block_file_init]. *)
Definition block_file_init (version : list Z) (file : disk) (io : list bool) : CamelBlockFile :=
  BlockFile version false false None 256 0 [] ∅ ∅ 1 file io.

Definition block_file_validate_root : M bool :=
  ok ← io_next;
  f ← gets bf_file; version ← gets bf_version;
  r ← root_ptr; b ← deref r;
  flags ← root_get ROOT_FLAGS; block_size ← root_get ROOT_BLOCK_SIZE;
  free ← root_get ROOT_FREE; last ← root_get ROOT_LAST;
  mret (negb ((last =? 0)
    || negb (bytes_eqb (take 2 (bl_data b)) version)
    || negb (block_size =? CAMEL_BLOCK_SIZE)
    || negb (free mod CAMEL_BLOCK_SIZE =? 0)
    || negb (last mod CAMEL_BLOCK_SIZE =? 0)
    || negb ok
    || negb (st_size f =? last)
    || (free >? st_size f)
    || (Z.land flags CAMEL_BLOCK_FILE_SYNC =? 0))).

Definition block_file_init_root : M unit :=
  r ← root_ptr; version ← gets bf_version;
  assign r (with_data (version ++ [CAMEL_BLOCK_FILE_SYNC; CAMEL_BLOCK_SIZE; 0; CAMEL_BLOCK_SIZE] ++ replicate 250 0)).

(** Freeing the object: the blocks of the cache go, whoever refers to them. *)
Fixpoint free_all (q : list loc) : M unit :=
  match q with [] => mret tt | p :: q' => deref p;; free_loc p;; free_all q' end.

Definition block_file_finalize : M unit :=
  r ← gets bf_root;
  match r with Some _ => camel_block_file_sync;; mret tt | None => mret tt end;;
  cache ← gets block_cache;
  free_all cache;;
  modify (set_cache []);;
  modify (set_blocks ∅);;
  match r with Some r => camel_block_file_unref_block r | None => mret tt end;;
  modify (set_fd false).

(** [true] when the file is opened; it is called on [block_file_init]. *)
Definition camel_block_file_new : M bool :=
  root ← camel_block_file_get_block 0;
  match root with
  | None => block_file_finalize;; mret false
  | Some root =>
      modify (set_root (Some root));;
      camel_block_file_detach_block root;;
      valid ← block_file_validate_root;
      if valid : bool then mret true else
      block_file_init_root;;
      camel_block_file_touch_block root;;
      used ← block_file_use;
      if negb used then block_file_finalize;; mret false else
      synced ← sync_block_nolock root;
      if negb synced then block_file_finalize;; mret false else
      truncated ← io_next;
      if negb truncated then block_file_finalize;; mret false else
      last ← root_get ROOT_LAST;
      modify (fun s => set_file (disk_truncate (bf_file s) last) s);;
      mret true
  end.

Definition camel_block_file_delete : M bool :=
  modify (set_fd false);;
  modify (set_deleted true);;
  io_next.
