(* ===== verification/BlockFileInv.v ===== *)
(** * BlockFileInv: what a block file promises to the callers that hold blocks

    [BF s C P X] relates a block file [s] to what its callers see of it: the
    contents [C] of every block, the pointers [P] they hold with their
    references, and the set [X] of held blocks that were written to and are not
    touched yet. *)

From stdpp Require Import base list numbers gmap functions.
From Stdlib Require Import ZArith Lia.
From S2P Require Import Prelude BlockFile.

(** ** Total correctness of programs over a block file *)

Definition wp {A} (m : M A) (Q : A -> CamelBlockFile -> Prop) (s : CamelBlockFile) : Prop :=
  match m s with Some (a, s') => Q a s' | None => False end.

Section Wp.
Context {A B : Type}.
Implicit Types (s : CamelBlockFile).

Lemma wp_mbind (m : M A) (f : A -> M B) Q s : wp m (fun a s' => wp (f a) Q s') s -> wp (m ≫= f) Q s.
Proof. unfold wp, mbind, M_bind. by destruct (m s) as [[a s']|]. Qed.

Lemma wp_mret (a : A) Q s : Q a s -> wp (mret a) Q s.
Proof. done. Qed.

Lemma wp_impl (m : M A) (Q R : A -> CamelBlockFile -> Prop) s :
  wp m Q s -> (forall a s', Q a s' -> R a s') -> wp m R s.
Proof. unfold wp. destruct (m s) as [[a s']|]; [|done]. eauto. Qed.

Lemma wp_gets (f : CamelBlockFile -> A) Q s : Q (f s) s -> wp (gets f) Q s.
Proof. done. Qed.

Lemma wp_modify f Q s : Q tt (f s) -> wp (modify f) Q s.
Proof. done. Qed.

Lemma wp_deref p b Q s : bf_heap s !! p = Some b -> Q b s -> wp (deref p) Q s.
Proof. unfold wp, deref. by intros ->. Qed.

Lemma wp_assign p b f Q s : bf_heap s !! p = Some b ->
  Q tt (set_heap (<[p := f b]> (bf_heap s)) s) -> wp (assign p f) Q s.
Proof. unfold wp, assign. by intros ->. Qed.

Lemma wp_io Q s : (forall r io, (bf_io s = [] -> r = true /\ io = []) -> Q r (set_io io s)) -> wp io_next Q s.
Proof.
  unfold wp, io_next. intros H. destruct s as [a1 a2 a3 a4 a5 a6 a7 a8 a9 a10 a11 [|r io]]; cbn; [|by apply (H r io)].
  by apply (H true []).
Qed.
End Wp.

Lemma wp_get_word p b i v Q s : bf_heap s !! p = Some b -> bl_data b !! i = Some v -> Q v s -> wp (get_word p i) Q s.
Proof. intros H D HQ. apply wp_mbind. eapply wp_deref; [done|]. by rewrite D. Qed.

Lemma wp_set_word p b i v Q s : bf_heap s !! p = Some b -> (i < length (bl_data b))%nat ->
  Q tt (set_heap (<[p := with_data (<[i := v]> (bl_data b)) b]> (bf_heap s)) s) -> wp (set_word p i v) Q s.
Proof. intros H L HQ. apply wp_mbind. eapply wp_deref; [done|]. rewrite decide_True by done. by eapply wp_assign. Qed.

(** ** The invariant *)

(** A pointer that callers hold. *)
Record held := Held { h_id : Z; h_refs : Z; h_detached : bool }.

Definition disk_ok (f : disk) : Prop := forall id d, sectors f !! id = Some d -> length d = WORDS.

(** The references to a block, and what is said of the block behind [p]. *)
Definition refs_ok (o : option held) (b : CamelBlock) : Prop :=
  match o with
  | Some h => h = Held (bl_id b) (bl_refcount b) (bl_detached b) /\ 0 < bl_refcount b < 2 ^ 32
  | None => bl_refcount b = 0 /\ bl_detached b = false
  end.

Record block_ok (s : CamelBlockFile) (C : Z -> list Z) (P : gmap loc held) (X : gset loc) (p : loc) (b : CamelBlock) : Prop := {
  bo_length : length (bl_data b) = WORDS;
  bo_next : (p < bf_next s)%positive;
  bo_data : C (bl_id b) = bl_data b;
  bo_cached : if bl_detached b then bf_blocks s !! bl_id b = None else bf_blocks s !! bl_id b = Some p;
  bo_refs : refs_ok (P !! p) b;
  bo_clean : bl_dirty b = false -> p ∉ X -> disk_read (bf_file s) (bl_id b) = bl_data b }.

(** [q] is the cache of blocks. *)
Record BFq (s : CamelBlockFile) (q : list loc) (C : Z -> list Z) (P : gmap loc held) (X : gset loc) : Prop := {
  bq_cache : forall p, p ∈ q <-> exists id, bf_blocks s !! id = Some p;
  bq_nodup : NoDup q;
  bq_blocks : forall id p, bf_blocks s !! id = Some p -> exists b, bf_heap s !! p = Some b /\ bl_id b = id;
  bq_heap : forall p b, bf_heap s !! p = Some b -> block_ok s C P X p b;
  bq_held : forall p, is_Some (P !! p) -> is_Some (bf_heap s !! p);
  bq_uniq : forall p1 p2 b1 b2, bf_heap s !! p1 = Some b1 -> bf_heap s !! p2 = Some b2 -> bl_id b1 = bl_id b2 -> p1 = p2;
  bq_out : forall id, (forall p b, bf_heap s !! p = Some b -> bl_id b <> id) -> C id = disk_read (bf_file s) id;
  bq_touch : forall p, p ∈ X -> is_Some (P !! p);
  bq_root : exists r n, bf_root s = Some r /\ P !! r = Some (Held 0 n true);
  bq_disk : disk_ok (bf_file s) }.

Definition BF (s : CamelBlockFile) (C : Z -> list Z) (P : gmap loc held) (X : gset loc) : Prop :=
  BFq s (block_cache s) C P X.

(** The state but for the fields that the invariant does not depend on. *)
Record same_core (s s' : CamelBlockFile) : Prop := {
  sc_blocks : bf_blocks s' = bf_blocks s; sc_heap : bf_heap s' = bf_heap s; sc_next : bf_next s' = bf_next s;
  sc_file : bf_file s' = bf_file s; sc_root : bf_root s' = bf_root s }.

Lemma BFq_core s s' q C P X : same_core s s' -> BFq s q C P X -> BFq s' q C P X.
Proof.
  intros [Eb Eh En Ef Er] [B1 B2 B3 B4 B5 B6 B7 B8 B9 B10].
  constructor; rewrite ?Eb, ?Eh, ?Ef, ?Er; try done.
  intros p b Hp. destruct (B4 p b Hp) as [O1 O2 O3 O4 O5 O6]. by constructor; rewrite ?Eb, ?En, ?Ef.
Qed.

Lemma BFq_perm s q q' C P X : q ≡ₚ q' -> BFq s q C P X -> BFq s q' C P X.
Proof. intros E []. constructor; try done; intros; by rewrite <- E. Qed.

Lemma BFq_ext s q C C' P X : (forall id, C' id = C id) -> BFq s q C P X -> BFq s q C' P X.
Proof.
  intros E [B1 B2 B3 B4 B5 B6 B7 B8 B9 B10]. constructor; try done.
  - intros p b Hp. destruct (B4 p b Hp). constructor; rewrite ?E; done.
  - intros id Hid. by rewrite E, B7.
Qed.

(** More blocks may be written to. *)
Lemma BFq_more s q C P X Y : BFq s q C P X -> X ⊆ Y -> (forall p, p ∈ Y -> is_Some (P !! p)) -> BFq s q C P Y.
Proof.
  intros [B1 B2 B3 B4 B5 B6 B7 B8 B9 B10] S N. constructor; try done. intros p b Hp. destruct (B4 p b Hp) as [O1 O2 O3 O4 O5 O6].
  constructor; try done. intros D K. apply O6; [done|]. intros HX. by apply K, S.
Qed.

Section Facts.
Context {s : CamelBlockFile} {q : list loc} {C : Z -> list Z} {P : gmap loc held} {X : gset loc} (I : BFq s q C P X).

Lemma bf_len id : length (C id) = WORDS.
Proof.
  destruct (decide (map_Forall (fun _ b => bl_id b <> id) (bf_heap s))) as [F|F].
  - rewrite (bq_out _ _ _ _ _ I); [|exact F]. unfold disk_read. destruct (sectors (bf_file s) !! id) as [d|] eqn:E; [|done].
    by apply (bq_disk _ _ _ _ _ I) in E.
  - apply map_not_Forall in F as (p & b & Hp & Hb); [|intros; solve_decision].
    destruct (decide (bl_id b = id)) as [<-|]; [|by exfalso]. destruct (bq_heap _ _ _ _ _ I p b Hp) as [L _ D _ _ _]. by rewrite D.
Qed.

Lemma bf_held p h : P !! p = Some h -> exists b, bf_heap s !! p = Some b /\ h = Held (bl_id b) (bl_refcount b) (bl_detached b) /\
  0 < bl_refcount b < 2 ^ 32 /\ bl_data b = C (bl_id b) /\ block_ok s C P X p b.
Proof.
  intros Hp. destruct (bq_held _ _ _ _ _ I p) as [b Hb]; [done|]. pose proof (bq_heap _ _ _ _ _ I p b Hb) as O.
  pose proof (bo_refs _ _ _ _ _ _ O) as R. rewrite Hp in R. destruct R as [R1 R2]. exists b. do 3 (split; [done|]). split; [|done].
  by rewrite (bo_data _ _ _ _ _ _ O).
Qed.

Lemma bf_root_held : exists r n b, bf_root s = Some r /\ P !! r = Some (Held 0 n true) /\ bf_heap s !! r = Some b /\
  bl_id b = 0 /\ bl_detached b = true /\ bl_data b = C 0 /\ bf_blocks s !! 0 = None.
Proof.
  destruct (bq_root _ _ _ _ _ I) as (r & n & Hr & Hp). destruct (bf_held r _ Hp) as (b & Hb & E & _ & D & O).
  injection E as E1 E2 E3. exists r, n, b. rewrite <- E1 in D. split_and!; try done.
  pose proof (bo_cached _ _ _ _ _ _ O) as K. by rewrite <- E3, <- E1 in K.
Qed.
End Facts.

(** Two contents that differ in the flags of the root block only. *)
Definition but_flags (C C' : Z -> list Z) : Prop :=
  (forall id, id <> 0 -> C' id = C id) /\ (forall i, i <> ROOT_FLAGS -> C' 0 !! i = C 0 !! i).

#[export] Instance but_flags_refl : Reflexive but_flags.
Proof. by split. Qed.

#[export] Instance but_flags_trans : Transitive but_flags.
Proof. intros C1 C2 C3 [A1 B1] [A2 B2]. split; [intros id N; by rewrite A2, A1|intros i N; by rewrite B2, B1]. Qed.

(** ** The dirty flag and the file *)

(** Only blocks that were dirty are written, with the data they had. *)
Record calm (s s' : CamelBlockFile) : Prop := {
  cm_dirty : forall p b', bf_heap s' !! p = Some b' -> bl_dirty b' = true ->
    exists b, bf_heap s !! p = Some b /\ bl_dirty b = true /\ bl_id b = bl_id b' /\ bl_data b = bl_data b';
  cm_disk : forall id, disk_read (bf_file s') id = disk_read (bf_file s) id \/
    exists p b, bf_heap s !! p = Some b /\ bl_dirty b = true /\ bl_id b = id /\ disk_read (bf_file s') id = bl_data b }.

Lemma calm_same s s' : bf_heap s' = bf_heap s -> bf_file s' = bf_file s -> calm s s'.
Proof. intros H F. constructor; [intros p b'; rewrite H; by exists b'|intros id; left; by rewrite F]. Qed.

#[export] Instance calm_refl : Reflexive calm.
Proof. intros s. by apply calm_same. Qed.

#[export] Instance calm_trans : Transitive calm.
Proof.
  intros s1 s2 s3 [A1 B1] [A2 B2]. constructor.
  - intros p b3 H3 D3. destruct (A2 p b3 H3 D3) as (b2 & H2 & D2 & E2 & F2). destruct (A1 p b2 H2 D2) as (b1 & H1 & D1 & E1 & F1).
    exists b1. split_and!; try done; congruence.
  - intros id. destruct (B2 id) as [E2|(p & b2 & H2 & D2 & E2 & F2)].
    + destruct (B1 id) as [E1|(p & b1 & H1 & D1 & E1 & F1)]; [left; congruence|right; exists p, b1; split_and!; try done; congruence].
    + right. destruct (A1 p b2 H2 D2) as (b1 & H1 & D1 & E1 & F1). exists p, b1. split_and!; try done; congruence.
Qed.

(** What writing blocks leaves alone. *)
Record io_frame (s s' : CamelBlockFile) : Prop := {
  if_version : bf_version s' = bf_version s; if_deleted : bf_deleted s' = bf_deleted s; if_root : bf_root s' = bf_root s;
  if_limit : block_cache_limit s' = block_cache_limit s; if_count : block_cache_count s' = block_cache_count s;
  if_cache : block_cache s' = block_cache s; if_blocks : bf_blocks s' = bf_blocks s; if_next : bf_next s' = bf_next s;
  if_io : bf_io s = [] -> bf_io s' = []; if_calm : calm s s' }.

(** No call of the system fails. *)
Definition ok_io (s : CamelBlockFile) : Prop := bf_io s = [] /\ bf_deleted s = false.

(** What callers rely on besides the contents. *)
Definition steady (s s' : CamelBlockFile) : Prop := bf_root s' = bf_root s /\ (ok_io s -> ok_io s').

#[export] Instance steady_refl : Reflexive steady.
Proof. by split. Qed.

#[export] Instance steady_trans : Transitive steady.
Proof. intros s1 s2 s3 [A1 B1] [A2 B2]. split; [congruence|tauto]. Qed.

Lemma steady_root s s' : steady s s' -> bf_root s' = bf_root s.
Proof. by intros []. Qed.

Lemma steady_ok s s' : steady s s' -> ok_io s -> ok_io s'.
Proof. by intros []. Qed.

#[export] Instance io_frame_refl : Reflexive io_frame.
Proof. intros s. constructor; try done; reflexivity. Qed.

#[export] Instance io_frame_trans : Transitive io_frame.
Proof. intros s1 s2 s3 [] []. constructor; try congruence; [tauto|by transitivity s2]. Qed.

Lemma io_steady s s' : io_frame s s' -> steady s s'.
Proof. intros []. split; [done|]. intros [A B]. split; [tauto|congruence]. Qed.

Lemma disk_read_write f id d id' : disk_read (disk_write f id d) id' = if decide (id = id') then d else disk_read f id'.
Proof.
  unfold disk_read. cbn. destruct (decide (id = id')) as [->|N]; [by rewrite lookup_insert_eq|by rewrite lookup_insert_ne].
Qed.

Lemma disk_ok_write f id d : disk_ok f -> length d = WORDS -> disk_ok (disk_write f id d).
Proof.
  intros D L i e. cbn. destruct (decide (id = i)) as [->|N]; [rewrite lookup_insert_eq|rewrite lookup_insert_ne by done; apply D].
  by intros [= <-].
Qed.

(** A block whose flag is set, or whose data is on disk. *)
Lemma BFq_dirty s q C P X p b v : BFq s q C P X -> bf_heap s !! p = Some b ->
  (v = false -> p ∉ X -> disk_read (bf_file s) (bl_id b) = bl_data b) ->
  BFq (set_heap (<[p := with_dirty v b]> (bf_heap s)) s) q C P X.
Proof.
  intros [B1 B2 B3 B4 B5 B6 B7 B8 B9 B10] Hp V.
  assert (L : forall p' b', <[p := with_dirty v b]> (bf_heap s) !! p' = Some b' -> exists b0, bf_heap s !! p' = Some b0 /\ bl_id b' = bl_id b0 /\
    bl_data b' = bl_data b0 /\ bl_refcount b' = bl_refcount b0 /\ bl_detached b' = bl_detached b0 /\
    (p' = p /\ bl_dirty b' = v /\ b0 = b \/ b' = b0)).
  { intros p' b'. destruct (decide (p = p')) as [<-|N].
    - rewrite lookup_insert_eq. intros [= <-]. exists b. split_and!; try done. by left.
    - rewrite lookup_insert_ne by done. intros H. exists b'. split_and!; try done. by right. }
  constructor; cbn; try done.
  - intros id p' Hi. destruct (B3 id p' Hi) as (b' & H' & E). destruct (decide (p = p')) as [<-|N].
    + exists (with_dirty v b). rewrite lookup_insert_eq. split; [done|]. cbn. congruence.
    + exists b'. by rewrite lookup_insert_ne.
  - intros p' b' H'. destruct (L p' b' H') as (b0 & H0 & E1 & E2 & E3 & E4 & K). destruct (B4 p' b0 H0) as [O1 O2 O3 O4 O5 O6].
    constructor; cbn; try congruence.
    + by rewrite E4, E1.
    + unfold refs_ok. rewrite E1, E3, E4. exact O5.
    + destruct K as [(-> & -> & ->)| ->]; [|exact O6]. intros -> ?. rewrite E1, E2. by apply V.
  - intros p' H'. destruct (decide (p = p')) as [<-|N]; [by rewrite lookup_insert_eq|rewrite lookup_insert_ne by done; by apply B5].
  - intros p1 p2 b1 b2 H1 H2 E. destruct (L p1 b1 H1) as (c1 & K1 & E1 & _), (L p2 b2 H2) as (c2 & K2 & E2 & _).
    eapply B6; [done|done|congruence].
  - intros id Hid. apply B7. intros p' b' H' <-. destruct (decide (p = p')) as [<-|N].
    + apply (Hid p (with_dirty v b)); [by rewrite lookup_insert_eq|]. cbn. congruence.
    + apply (Hid p' b'); [by rewrite lookup_insert_ne|done].
Qed.

(** Writing the data of a block. *)
Lemma BFq_write s q C P X p b : BFq s q C P X -> bf_heap s !! p = Some b ->
  BFq (set_file (disk_write (bf_file s) (bl_id b) (bl_data b)) s) q C P X.
Proof.
  intros I Hp. pose proof (bq_heap _ _ _ _ _ I p b Hp) as O. destruct I as [B1 B2 B3 B4 B5 B6 B7 B8 B9 B10].
  constructor; cbn; try done.
  - intros p' b' H'. destruct (B4 p' b' H') as [O1 O2 O3 O4 O5 O6]. constructor; cbn; try done.
    intros V N. rewrite disk_read_write. destruct (decide (bl_id b = bl_id b')) as [E|NE]; [|by apply O6].
    pose proof (B6 p p' b b' Hp H' E) as <-. congruence.
  - intros id Hid. rewrite disk_read_write, decide_False by (by eapply Hid). by apply B7.
  - apply disk_ok_write; [done|]. by apply O.
Qed.

Lemma calm_write s p b s' : bf_heap s !! p = Some b -> bl_dirty b = true -> bf_heap s' = <[p := with_dirty false b]> (bf_heap s) ->
  bf_file s' = disk_write (bf_file s) (bl_id b) (bl_data b) -> calm s s'.
Proof.
  intros Hp D H F. constructor.
  - intros x b'. rewrite H. destruct (decide (p = x)) as [<-|N]; [rewrite lookup_insert_eq; by intros [= <-]|].
    rewrite lookup_insert_ne by done. by exists b'.
  - intros id. rewrite F, disk_read_write. destruct (decide (bl_id b = id)) as [<-|N]; [|by left]. right. by exists p, b.
Qed.

Lemma calm_free s p s' : bf_heap s' = delete p (bf_heap s) -> bf_file s' = bf_file s -> calm s s'.
Proof.
  intros H F. constructor; [|intros id; left; by rewrite F]. intros x b'. rewrite H. intros [_ Hx]%lookup_delete_Some. by exists b'.
Qed.

Lemma wp_sync_block s q C P X p b (Q : bool -> CamelBlockFile -> Prop) : BFq s q C P X -> bf_heap s !! p = Some b ->
  (forall s', BFq s' q C P X -> io_frame s s' -> bf_heap s' = <[p := with_dirty false b]> (bf_heap s) ->
    (bl_dirty b = true \/ p ∉ X -> disk_read (bf_file s') (bl_id b) = bl_data b) -> Q true s') ->
  (forall s', BFq s' q C P X -> io_frame s s' -> bf_heap s' = bf_heap s -> ~ ok_io s -> Q false s') ->
  wp (sync_block_nolock p) Q s.
Proof.
  intros I Hp T F. apply wp_mbind. eapply wp_deref; [done|]. destruct (bl_dirty b) eqn:D.
  - apply wp_mbind, wp_io. intros r io IO.
    assert (I2 : BFq (set_io io s) q C P X) by (eapply BFq_core; [|done]; done).
    assert (F2 : io_frame s (set_io io s)) by (constructor; try done; [cbn; intros K; by apply IO in K as [_ ->]|by apply calm_same]). destruct r.
    + apply wp_mbind, wp_modify, wp_mbind. eapply wp_assign; [done|]. apply wp_mret, T; cbn; try done.
      2: { destruct F2. constructor; try done. by apply (calm_write s p b). }
      * apply (BFq_dirty (set_file (disk_write (bf_file s) (bl_id b) (bl_data b)) (set_io io s)) q C P X p b false); [exact (BFq_write (set_io io s) q C P X p b I2 Hp)|done|]. intros _ _. cbn. by rewrite disk_read_write, decide_True.
      * intros _. by rewrite disk_read_write, decide_True.
    + apply wp_mret, F; [exact I2|exact F2|done|]. intros [K _]. by apply IO in K as [? _].
  - apply wp_mret, T; try done.
    + rewrite insert_id; [done|]. rewrite Hp. destruct b. cbn in *. by subst.
    + intros [?|N]; [done|]. destruct (bq_heap _ _ _ _ _ I p b Hp) as [? ? ? ? ? K]. by apply K.
Qed.

Lemma wp_use s q C P X (Q : bool -> CamelBlockFile -> Prop) : BFq s q C P X ->
  (forall r s', BFq s' q C P X -> same_core s s' -> io_frame s s' -> (ok_io s -> r = true) -> Q r s') -> wp block_file_use Q s.
Proof.
  intros I H. apply wp_mbind, wp_gets. destruct (bf_fd s) eqn:F; [by apply wp_mret, H|].
  apply wp_mbind, wp_gets. destruct (bf_deleted s) eqn:D; [apply wp_mret, H; try done; intros [_ K]; congruence|].
  apply wp_mbind, wp_io. intros r io IO.
  assert (F2 : io_frame s (set_io io s)) by (constructor; try done; [cbn; intros K; by apply IO in K as [_ ->]|by apply calm_same]).
  destruct r; [apply wp_mbind, wp_modify|]; apply wp_mret, H; try done; try (eapply BFq_core; [|exact I]; done); try (destruct F2; constructor; try done; by apply calm_same).
  intros [K _]. by apply IO in K as [? _].
Qed.

(** ** Dropping blocks from the cache *)

Lemma unheld s q C P X p b : BFq s q C P X -> bf_heap s !! p = Some b -> bl_refcount b = 0 ->
  P !! p = None /\ bl_detached b = false /\ p ∉ X.
Proof.
  intros I Hp R. pose proof (bo_refs _ _ _ _ _ _ (bq_heap _ _ _ _ _ I p b Hp)) as K. revert K. unfold refs_ok.
  destruct (P !! p) eqn:E; intros K; [lia|]. split_and!; [done|apply K|].
  intros HX. apply (bq_touch _ _ _ _ _ I) in HX as [h Hh]. congruence.
Qed.

Lemma BFq_drop s p q C P X b : BFq s (p :: q) C P X -> bf_heap s !! p = Some b -> bl_refcount b = 0 ->
  disk_read (bf_file s) (bl_id b) = bl_data b ->
  BFq (set_heap (delete p (bf_heap s)) (set_blocks (delete (bl_id b) (bf_blocks s)) s)) q C P X.
Proof.
  intros I Hp R D. destruct (unheld _ _ _ _ _ _ _ I Hp R) as (N & DT & _).
  pose proof (bq_heap _ _ _ _ _ I p b Hp) as O. pose proof (bo_cached _ _ _ _ _ _ O) as K. rewrite DT in K.
  destruct I as [B1 B2 B3 B4 B5 B6 B7 B8 B9 B10]. apply list.NoDup_cons in B2 as [B2 B2']. constructor; cbn; try done.
  - intros p'. split.
    + intros H. destruct (proj1 (B1 p')) as [id Hid]; [by right|]. exists id.
      rewrite lookup_delete_ne; [done|]. intros <-. rewrite K in Hid. injection Hid as <-. done.
    + intros [id [Hi Hid]%lookup_delete_Some]. assert (H : p' ∈ p :: q) by (apply B1; by exists id). apply elem_of_cons in H as [-> | H]; [|done].
      destruct (B3 id p Hid) as (b' & H' & E). rewrite Hp in H'. injection H' as <-. done.
  - intros id p' [Hi Hid]%lookup_delete_Some. destruct (B3 id p' Hid) as (b' & H' & E). exists b'.
    rewrite lookup_delete_ne; [done|]. intros <-. rewrite Hp in H'. injection H' as <-. done.
  - intros p' b' [Hi H']%lookup_delete_Some. destruct (B4 p' b' H') as [O1 O2 O3 O4 O5 O6]. constructor; cbn; try done.
    assert (NE : bl_id b <> bl_id b') by (intros E; apply Hi; by eapply B6).
    destruct (bl_detached b'); by rewrite lookup_delete_ne.
  - intros p' H'. rewrite lookup_delete_ne; [by apply B5|]. intros <-. rewrite N in H'. by destruct H'.
  - intros p1 p2 b1 b2 [_ H1]%lookup_delete_Some [_ H2]%lookup_delete_Some. by eapply B6.
  - intros id Hid. destruct (decide (id = bl_id b)) as [->|NE]; [rewrite D; by apply O|].
    apply B7. intros p' b' H'. destruct (decide (p' = p)) as [->|N']; [congruence|]. apply (Hid p' b'). by rewrite lookup_delete_ne.
Qed.

(** What flushing leaves alone. *)
Record flush_frame (s s' : CamelBlockFile) : Prop := {
  ff_version : bf_version s' = bf_version s; ff_deleted : bf_deleted s' = bf_deleted s; ff_root : bf_root s' = bf_root s;
  ff_limit : block_cache_limit s' = block_cache_limit s; ff_next : bf_next s' = bf_next s;
  ff_io : bf_io s = [] -> bf_io s' = []; ff_calm : calm s s' }.

#[export] Instance flush_frame_trans : Transitive flush_frame.
Proof. intros s1 s2 s3 [] []. constructor; try congruence; [tauto|by transitivity s2]. Qed.

Lemma flush_steady s s' : flush_frame s s' -> steady s s'.
Proof. intros []. split; [done|]. intros [A B]. split; [tauto|congruence]. Qed.

Lemma io_flush s s' : io_frame s s' -> flush_frame s s'.
Proof. by intros []. Qed.

Lemma wp_flush_old C P X q0 link : forall s (Q : list loc -> CamelBlockFile -> Prop), BFq s (link ++ q0) C P X ->
  (forall kept s', BFq s' (kept ++ q0) C P X -> flush_frame s s' ->
    (forall p, p ∈ q0 -> bf_heap s' !! p = bf_heap s !! p) -> Q kept s') ->
  wp (flush_old link) Q s.
Proof.
  revert q0. induction link as [|flush link IH]; intros q0 s Q I H; [by apply wp_mret, H|].
  apply wp_mbind, wp_gets, wp_mbind, wp_gets. destruct (_ >? _); [|by apply wp_mret, H].
  destruct (proj1 (bq_cache _ _ _ _ _ I flush)) as [id Hid]; [by left|].
  destruct (bq_blocks _ _ _ _ _ I id flush Hid) as (b & Hb & _).
  assert (F0 : flush ∉ link ++ q0) by (pose proof (bq_nodup _ _ _ _ _ I) as N; by apply list.NoDup_cons in N as [N _]).
  assert (Keep : forall s1, BFq s1 (flush :: link ++ q0) C P X -> flush_frame s s1 -> (forall p, p ∈ q0 -> bf_heap s1 !! p = bf_heap s !! p) ->
    wp (rest ← flush_old link; mret (flush :: rest)) Q s1).
  { intros s1 I1 Fr1 E1. apply wp_mbind, (IH (flush :: q0)); [eapply BFq_perm; [|exact I1]; by rewrite <- Permutation_middle|].
    intros kept s' I' Fr' E'. apply wp_mret, H.
    - eapply BFq_perm; [|exact I']. cbn. by rewrite <- Permutation_middle.
    - by transitivity s1.
    - intros p Hp. rewrite E', E1; [done|done|by right]. }
  apply wp_mbind. eapply wp_deref; [done|]. destruct (Z.eqb_spec (bl_refcount b) 0) as [R|R]; [|by apply Keep].
  destruct (unheld _ _ _ _ _ _ _ I Hb R) as (_ & _ & NX).
  apply wp_mbind. eapply (wp_sync_block _ _ _ _ _ flush b _ I Hb).
  - intros s1 I1 Fr1 E1 D1. apply wp_mbind, wp_modify, wp_mbind, wp_modify, wp_mbind, wp_modify.
    assert (Hb1 : bf_heap s1 !! flush = Some (with_dirty false b)) by (by rewrite E1, lookup_insert_eq).
    pose proof (BFq_drop s1 flush (link ++ q0) C P X _ I1 Hb1 R (D1 (or_intror NX))) as I2.
    apply (IH q0); [eapply BFq_core; [|exact I2]; done|].
    intros kept s' I' Fr' E'. apply H; [done| |].
    { transitivity s1; [by apply io_flush|]. etransitivity; [|exact Fr']. constructor; try done. by apply (calm_free s1 flush). }
    intros p Hp. rewrite E' by done. cbn. assert (flush <> p) by (intros ->; apply F0, elem_of_app; by right).
    rewrite lookup_delete_ne, E1, lookup_insert_ne; done.
  - intros s1 I1 Fr1 E1 _. apply Keep; [done|by apply io_flush|by rewrite E1].
Qed.

(** ** Changing one block *)

Record block_change (s : CamelBlockFile) (C : Z -> list Z) (P : gmap loc held) (X : gset loc) (p : loc) (b b' : CamelBlock)
    (C' : Z -> list Z) (P' : gmap loc held) (X' : gset loc) : Prop := {
  bc_id : bl_id b' = bl_id b; bc_detached : bl_detached b' = bl_detached b; bc_length : length (bl_data b') = WORDS;
  bc_data : C' (bl_id b) = bl_data b'; bc_other : forall id, id <> bl_id b -> C' id = C id;
  bc_refs : refs_ok (P' !! p) b'; bc_held : forall p', p' <> p -> P' !! p' = P !! p';
  bc_clean : bl_dirty b' = false -> p ∉ X' -> disk_read (bf_file s) (bl_id b) = bl_data b';
  bc_touch : forall p', p' <> p -> p' ∈ X' <-> p' ∈ X; bc_touch_held : p ∈ X' -> is_Some (P' !! p) }.

Lemma BFq_upd s q C P X p b b' C' P' X' : BFq s q C P X -> bf_heap s !! p = Some b -> block_change s C P X p b b' C' P' X' ->
  BFq (set_heap (<[p := b']> (bf_heap s)) s) q C' P' X'.
Proof.
  intros I Hp [H1 H2 H3 H4 H5 H6 H7 H8 H9 H10]. pose proof (bq_heap _ _ _ _ _ I p b Hp) as O.
  pose proof (bf_held I) as BH. pose proof (bf_root_held I) as (r & n & rb & R1 & R2 & R3 & R4 & R5 & _).
  destruct I as [B1 B2 B3 B4 B5 B6 B7 B8 B9 B10].
  assert (L : forall p' c, <[p := b']> (bf_heap s) !! p' = Some c -> exists b0, bf_heap s !! p' = Some b0 /\ bl_id c = bl_id b0 /\
    (p' = p /\ c = b' /\ b0 = b \/ p' <> p /\ c = b0)).
  { intros p' c. destruct (decide (p = p')) as [<-|N].
    - rewrite lookup_insert_eq. intros [= <-]. exists b. split_and!; try done. by left.
    - rewrite lookup_insert_ne by done. intros H. exists c. split_and!; try done. by right. }
  constructor; cbn; try done.
  - intros id p' Hi. destruct (B3 id p' Hi) as (c & H' & E). destruct (decide (p = p')) as [<-|N].
    + exists b'. rewrite lookup_insert_eq. split; [done|]. congruence.
    + exists c. by rewrite lookup_insert_ne.
  - intros p' c H'. destruct (L p' c H') as (b0 & H0 & E & [(-> & -> & ->)|(N & ->)]).
    + destruct O as [O1 O2 O3 O4 O5 O6]. constructor; cbn; rewrite ?H1, ?H2; try done.
    + destruct (B4 p' b0 H0) as [O1 O2 O3 O4 O5 O6]. constructor; cbn; try done.
      * rewrite H5; [done|]. intros E'. apply N. by eapply B6.
      * by rewrite H7.
      * intros D NX. apply O6; [done|]. by rewrite <- H9.
  - intros p' H'. destruct (decide (p = p')) as [<-|N]; [by rewrite lookup_insert_eq|rewrite lookup_insert_ne by done].
    apply B5. by rewrite <- H7.
  - intros p1 p2 b1 b2 K1 K2 E. destruct (L p1 b1 K1) as (c1 & M1 & E1 & _), (L p2 b2 K2) as (c2 & M2 & E2 & _).
    eapply B6; [done|done|congruence].
  - intros id Hid. rewrite H5; [apply B7|].
    + intros p' c H'. destruct (decide (p = p')) as [<-|N]; [|apply (Hid p' c); by rewrite lookup_insert_ne].
      rewrite Hp in H'. injection H' as <-. rewrite <- H1. apply (Hid p b'). by rewrite lookup_insert_eq.
    + rewrite <- H1. intros ->. apply (Hid p b'); [by rewrite lookup_insert_eq|done].
  - intros p' H'. destruct (decide (p' = p)) as [->|N]; [by apply H10|]. rewrite H7 by done. apply B8. by rewrite <- H9.
  - destruct (decide (r = p)) as [->|N].
    + rewrite Hp in R3. injection R3 as <-. exists p, (bl_refcount b'). split; [done|].
      unfold refs_ok in H6. destruct (P' !! p) as [h|]; [|destruct H6; congruence].
      destruct H6 as [-> _]. by rewrite H1, R4, H2, R5.
    + exists r, n. by rewrite H7.
Qed.

(** Nothing is written, and the blocks that become dirty are those of [N]. *)
Definition local (N : Z -> Prop) (s s' : CamelBlockFile) : Prop :=
  steady s s' /\ bf_file s' = bf_file s /\ forall p b', bf_heap s' !! p = Some b' -> bl_dirty b' = true ->
    N (bl_id b') \/ exists b, bf_heap s !! p = Some b /\ bl_dirty b = true /\ bl_id b = bl_id b'.

Lemma local_weaken (N N' : Z -> Prop) s s' : (forall id, N id -> N' id) -> local N s s' -> local N' s s'.
Proof. intros H (A & B & K). split_and!; [done..|]. intros p b' Hp D. destruct (K p b' Hp D) as [Hn|Hn]; [left; by apply H|by right]. Qed.

Lemma local_trans N s1 s2 s3 : local N s1 s2 -> local N s2 s3 -> local N s1 s3.
Proof.
  intros (A1 & B1 & K1) (A2 & B2 & K2). split_and!; [by transitivity s2|congruence|]. intros p b3 H3 D3.
  destruct (K2 p b3 H3 D3) as [Hn|(b2 & H2 & D2 & E2)]; [by left|]. rewrite <- E2. by apply (K1 p b2).
Qed.

(** One block that changes. *)
Lemma local_insert N s s' p b b' : bf_heap s !! p = Some b -> bf_heap s' = <[p := b']> (bf_heap s) -> bf_file s' = bf_file s -> steady s s' ->
  bl_id b' = bl_id b -> (bl_dirty b' = true -> N (bl_id b) \/ bl_dirty b = true) -> local N s s'.
Proof.
  intros Hp H F St E D. split_and!; [done..|]. intros x c. rewrite H. destruct (decide (p = x)) as [<-|NE].
  - rewrite lookup_insert_eq. intros [= <-] K. rewrite E. destruct (D K) as [?|?]; [by left|right; by exists b].
  - rewrite lookup_insert_ne by done. intros Hx Dx. right. by exists c.
Qed.

(** The contents of a block that callers hold. *)
Definition put (C : Z -> list Z) (id : Z) (d : list Z) : Z -> list Z := fun i => if decide (i = id) then d else C i.
Lemma put_eq C id d : put C id d id = d.
Proof. unfold put. by rewrite decide_True. Qed.
Lemma put_ne C id d i : i <> id -> put C id d i = C i.
Proof. intros N. unfold put. by rewrite decide_False. Qed.

Definition word (C : Z -> list Z) (id : Z) (i : nat) : Z := default 0 (C id !! i).
Definition put_word (C : Z -> list Z) (id : Z) (i : nat) (v : Z) : Z -> list Z := put C id (<[i := v]> (C id)).

Lemma wp_word s C P X p id n dt i (Q : Z -> CamelBlockFile -> Prop) : BF s C P X -> P !! p = Some (Held id n dt) -> (i < WORDS)%nat ->
  Q (word C id i) s -> wp (get_word p i) Q s.
Proof.
  intros I Hp Hi HQ. destruct (bf_held I p _ Hp) as (b & Hb & E & _ & D & _). injection E as -> -> ->.
  destruct (lookup_lt_is_Some_2 (C (bl_id b)) i) as [v Hv]; [by rewrite (bf_len I)|].
  eapply wp_get_word; [done|by rewrite D|]. unfold word in HQ. by rewrite Hv in HQ.
Qed.

Lemma wp_put_word s C P X p id n dt i v (Q : unit -> CamelBlockFile -> Prop) : BF s C P X -> P !! p = Some (Held id n dt) -> (i < WORDS)%nat ->
  (forall s', BF s' (put_word C id i v) P (X ∪ {[p]}) -> local (fun _ => False) s s' -> Q tt s') -> wp (set_word p i v) Q s.
Proof.
  intros I Hp Hi HQ. destruct (bf_held I p _ Hp) as (b & Hb & E & B & D & O). injection E as -> -> ->.
  eapply wp_set_word; [done|by rewrite D, (bf_len I)|].
  apply HQ; [|by apply (local_insert _ s _ p b (with_data (<[i := v]> (bl_data b)) b)); [..|right]].
  eapply (BFq_upd s _ C P X p b (with_data (<[i := v]> (bl_data b)) b)); [done..|].
  constructor; cbn; try done.
  - rewrite length_insert. apply O.
  - unfold put_word. by rewrite put_eq, D.
  - intros id N. by apply put_ne.
  - by rewrite Hp.
  - set_solver.
  - set_solver.
Qed.

Lemma wp_root_word s C P X i (Q : Z -> CamelBlockFile -> Prop) : BF s C P X -> (i < WORDS)%nat -> Q (word C 0 i) s -> wp (root_get i) Q s.
Proof.
  intros I Hi HQ. destruct (bq_root _ _ _ _ _ I) as (r & n & Hr & Hp).
  apply wp_mbind, wp_mbind, wp_gets. rewrite Hr. apply wp_mret. by eapply wp_word.
Qed.

(** [r] is the root block. *)
Definition is_root (s : CamelBlockFile) (P : gmap loc held) (r : loc) : Prop := bf_root s = Some r /\ exists n, P !! r = Some (Held 0 n true).

Lemma wp_root_put s C P X i v r (Q : unit -> CamelBlockFile -> Prop) : BF s C P X -> is_root s P r -> (i < WORDS)%nat ->
  (forall s', BF s' (put_word C 0 i v) P (X ∪ {[r]}) -> local (fun _ => False) s s' -> Q tt s') -> wp (root_set i v) Q s.
Proof.
  intros I [Hr [n Hp]] Hi HQ. apply wp_mbind, wp_mbind, wp_gets. rewrite Hr. apply wp_mret. by eapply wp_put_word.
Qed.

(** Marking a block as dirty. *)
Lemma wp_dirty s C P X p id n dt (Q : unit -> CamelBlockFile -> Prop) : BF s C P X -> P !! p = Some (Held id n dt) ->
  (forall s', BF s' C P (X ∖ {[p]}) -> local (eq id) s s' -> Q tt s') -> wp (assign p (with_dirty true)) Q s.
Proof.
  intros I Hp HQ. destruct (bf_held I p _ Hp) as (b & Hb & E & B & D & O). injection E as -> -> ->.
  eapply wp_assign; [done|]. apply HQ; [|by apply (local_insert _ s _ p b (with_dirty true b)); [..|left]].
  eapply (BFq_upd s _ C P X p b (with_dirty true b)); [done..|].
  constructor; cbn; try done; try set_solver; apply O.
Qed.
