(* ===== verification/BlockFileOps.v ===== *)
(** * BlockFileOps: the operations of a block file, as their callers see them

    One lemma per operation: from a state that agrees with the callers' view it
    runs without an access to freed memory to one that agrees with the view the
    operation promises. *)

From stdpp Require Import base list numbers gmap functions.
From Stdlib Require Import ZArith Lia.
From S2P Require Import Prelude BlockFile BlockFileInv.

(** Nothing but dirty blocks is written, and [steady]. *)
Definition quiet (s s' : CamelBlockFile) : Prop := steady s s' /\ calm s s'.

#[export] Instance quiet_refl : Reflexive quiet.
Proof. intros s. by split. Qed.

#[export] Instance quiet_trans : Transitive quiet.
Proof. intros s1 s2 s3 [] []. split; by transitivity s2. Qed.

Lemma io_quiet s s' : io_frame s s' -> quiet s s'.
Proof. intros F. split; [by apply io_steady|apply F]. Qed.

Lemma flush_quiet s s' : flush_frame s s' -> quiet s s'.
Proof. intros F. split; [by apply flush_steady|apply F]. Qed.

(** A state that differs in the cache only. *)
Lemma quiet_core s s' : bf_heap s' = bf_heap s -> bf_file s' = bf_file s -> bf_root s' = bf_root s -> bf_io s' = bf_io s ->
  bf_deleted s' = bf_deleted s -> quiet s s'.
Proof. intros H F R I D. split; [|by apply calm_same]. split; [done|]. unfold ok_io. by rewrite I, D. Qed.

(** One state after another. *)
Ltac steady_t :=
  repeat match goal with
  | H : io_frame _ _ |- _ => apply io_steady in H
  | H : flush_frame _ _ |- _ => apply flush_steady in H
  | H : quiet _ _ |- _ => apply proj1 in H
  | H : local _ _ _ |- _ => apply proj1 in H
  end;
  solve [eassumption | repeat match goal with
  | |- steady ?a ?a => reflexivity
  | H : steady ?a ?b |- steady ?a ?c => first [exact H | transitivity b; [exact H|clear H]]
  end].

Lemma calm_refs s p b b' s' : bf_heap s !! p = Some b -> bl_dirty b' = bl_dirty b -> bl_id b' = bl_id b -> bl_data b' = bl_data b ->
  bf_heap s' = <[p := b']> (bf_heap s) -> bf_file s' = bf_file s -> calm s s'.
Proof.
  intros Hp E1 E2 E3 H F. constructor; [|intros id; left; by rewrite F]. intros x c. rewrite H.
  destruct (decide (p = x)) as [<-|N]; [rewrite lookup_insert_eq|rewrite lookup_insert_ne by done; by exists c].
  intros [= <-] D. exists b. split_and!; congruence.
Qed.

(** ** Looking up a block *)

Definition take_ref (p : loc) (id : Z) (P : gmap loc held) : gmap loc held :=
  <[p := Held id (match P !! p with Some h => h_refs h + 1 | None => 1 end) false]> P.

(** A block that callers may ask for: no detached block has its place, and its
    references do not overflow. *)
Definition gettable (P : gmap loc held) (id : Z) : Prop :=
  forall p h, P !! p = Some h -> h_id h = id -> h_detached h = false /\ h_refs h + 1 < 2 ^ 32.

(** What an id must be for [camel_block_file_get_block]. *)
Definition valid_block (C : Z -> list Z) (id : Z) : bool :=
  negb ((id >? word C 0 ROOT_LAST) || (id =? 0)) && (id mod CAMEL_BLOCK_SIZE =? 0).

Lemma wp_valid_id s C P X id (Q : bool -> CamelBlockFile -> Prop) : BF s C P X -> Q (valid_block C id) s -> wp (valid_id id) Q s.
Proof.
  intros I HQ. destruct (bq_root _ _ _ _ _ I) as (r & n & Hr & Hp).
  apply wp_mbind, wp_gets. rewrite Hr. eapply wp_mbind, wp_word; [done|done|unfold ROOT_LAST, WORDS; lia|]. by apply wp_mret.
Qed.

(** A new block of the cache. *)
Lemma BFq_alloc s q C P X id : BFq s q C P X -> bf_blocks s !! id = None ->
  (forall p b, bf_heap s !! p = Some b -> bl_id b <> id) ->
  BFq (set_blocks (<[id := bf_next s]> (bf_blocks s))
    (set_next (Pos.succ (bf_next s)) (set_heap (<[bf_next s := Block id false false 0 (disk_read (bf_file s) id)]> (bf_heap s)) s)))
    (bf_next s :: q) C P X.
Proof.
  intros I HB HU. pose proof (bq_out _ _ _ _ _ I id HU) as HC. pose proof (bf_len I id) as HL.
  destruct I as [B1 B2 B3 B4 B5 B6 B7 B8 B9 B10].
  assert (F : bf_heap s !! bf_next s = None).
  { destruct (bf_heap s !! bf_next s) as [b|] eqn:E; [|done]. destruct (B4 _ b E) as [_ L _ _ _ _]. lia. }
  assert (FP : P !! bf_next s = None).
  { destruct (P !! bf_next s) as [h|] eqn:E; [|done]. destruct (B5 (bf_next s)) as [b Hb]; [done|]. congruence. }
  assert (FB : forall i, bf_blocks s !! i <> Some (bf_next s)).
  { intros i E. destruct (B3 i _ E) as (b & Hb & _). congruence. }
  constructor; cbn; try done.
  - intros p. rewrite elem_of_cons. split.
    + intros [->|H]; [exists id; by rewrite lookup_insert_eq|]. apply B1 in H as [i Hi]. exists i.
      rewrite lookup_insert_ne; [done|]. intros <-. congruence.
    + intros [i Hi]. destruct (decide (id = i)) as [<-|N]; [rewrite lookup_insert_eq in Hi; injection Hi as <-; by left|].
      rewrite lookup_insert_ne in Hi by done. right. apply B1. by exists i.
  - apply list.NoDup_cons. split; [|done]. intros H. apply B1 in H as [i Hi]. by eapply FB.
  - intros i p. destruct (decide (id = i)) as [<-|N].
    + rewrite lookup_insert_eq. intros [= <-]. eexists. by rewrite lookup_insert_eq.
    + rewrite lookup_insert_ne by done. intros Hi. destruct (B3 i p Hi) as (b & Hb & E). exists b.
      rewrite lookup_insert_ne; [done|]. intros <-. congruence.
  - intros p b. destruct (decide (bf_next s = p)) as [<-|N].
    + rewrite lookup_insert_eq. intros [= <-]. constructor; cbn; try done.
      * by rewrite <- HC.
      * lia.
      * by rewrite lookup_insert_eq.
      * by rewrite FP.
    + rewrite lookup_insert_ne by done. intros Hb. destruct (B4 p b Hb) as [O1 O2 O3 O4 O5 O6]. constructor; cbn; try done; [lia|].
      assert (id <> bl_id b) by (intros E; by eapply HU). destruct (bl_detached b); by rewrite lookup_insert_ne.
  - intros p H. destruct (decide (bf_next s = p)) as [<-|N]; [by rewrite lookup_insert_eq|].
    rewrite lookup_insert_ne by done. by apply B5.
  - intros p1 p2 b1 b2 H1 H2 E. destruct (decide (bf_next s = p1)) as [<-|N1], (decide (bf_next s = p2)) as [<-|N2]; [done| | |].
    + rewrite lookup_insert_eq in H1. injection H1 as <-. rewrite lookup_insert_ne in H2 by done. by destruct (HU p2 b2 H2).
    + rewrite lookup_insert_eq in H2. injection H2 as <-. rewrite lookup_insert_ne in H1 by done. by destruct (HU p1 b1 H1).
    + rewrite lookup_insert_ne in H1, H2 by done. by eapply B6.
  - intros i Hi. apply B7. intros p b Hb. apply (Hi p b). rewrite lookup_insert_ne; [done|]. congruence.
Qed.

Lemma wp_use_block s C P X p b (Q : option loc -> CamelBlockFile -> Prop) q :
  BFq s (p :: q) C P X -> q = block_cache s -> bf_heap s !! p = Some b -> bl_detached b = false -> gettable P (bl_id b) ->
  (forall s', BF s' C (take_ref p (bl_id b) P) X -> quiet s s' -> Q (Some p) s') -> wp (use_block p) Q s.
Proof.
  intros I -> Hp D G HQ. pose proof (bq_heap _ _ _ _ _ I p b Hp) as O.
  assert (R : bl_refcount b = (match P !! p with Some h => h_refs h + 1 | None => 1 end) - 1 /\ 0 <= bl_refcount b /\ bl_refcount b + 1 < 2 ^ 32).
  { pose proof (bo_refs _ _ _ _ _ _ O) as R. unfold refs_ok in R. destruct (P !! p) as [h|] eqn:E.
    - destruct R as [-> R]. destruct (G p _ E eq_refl) as [_ K]. cbn in *. lia.
    - destruct R as [-> _]. lia. }
  destruct R as (R1 & R2 & R3).
  apply wp_mbind, wp_modify, wp_mbind. eapply wp_assign; [done|]. apply wp_mret, HQ; [|split; [done|apply (calm_refs s p b (with_refcount (u32 (bl_refcount b + 1)) b)); done]].
  apply (BFq_upd (set_cache (p :: block_cache s) s) (p :: block_cache s) C P X p b _ C (take_ref p (bl_id b) P) X); [eapply BFq_core; [|exact I]; done|done|].
  constructor; cbn; try done; try apply O.
  - unfold take_ref. rewrite lookup_insert_eq. cbn. unfold u32. rewrite Z.mod_small by lia. rewrite D. split; [f_equal; lia|lia].
  - intros p' N. unfold take_ref. by rewrite lookup_insert_ne.
  - intros _. unfold take_ref. by rewrite lookup_insert_eq.
Qed.

Lemma queue_remove_perm p q : p ∈ q -> q ≡ₚ p :: queue_remove p q.
Proof.
  induction q as [|x q IH]; intros H; [by apply not_elem_of_nil in H|]. cbn. destruct (decide (x = p)) as [->|N]; [done|].
  apply elem_of_cons in H as [->|H]; [done|]. rewrite IH at 1 by done. by rewrite Permutation_swap.
Qed.

Section Get.
Context (s : CamelBlockFile) (C : Z -> list Z) (P : gmap loc held) (X : gset loc) (I : BF s C P X).

(** What is known of the pointer a block is found at. *)
Definition found_ptr (p : loc) (id : Z) : Prop := P !! p = None \/ exists n, P !! p = Some (Held id n false).

Lemma wp_get_any id (Q : option loc -> CamelBlockFile -> Prop) : gettable P id ->
  (forall p s', valid_block C id = true -> BF s' C (take_ref p id P) X -> found_ptr p id -> quiet s s' -> Q (Some p) s') ->
  (forall s', BF s' C P X -> quiet s s' -> (ok_io s -> valid_block C id = false) -> Q None s') ->
  wp (camel_block_file_get_block id) Q s.
Proof.
  intros G HS HN. apply wp_mbind. eapply wp_valid_id; [exact I|].
  destruct (valid_block C id); cbn; [|by apply wp_mret, HN]. specialize (fun p s' => HS p s' eq_refl).
  apply wp_mbind, wp_gets. destruct (bf_blocks s !! id) as [p|] eqn:E.
  - destruct (bq_blocks _ _ _ _ _ I id p E) as (b & Hb & <-). pose proof (bq_heap _ _ _ _ _ I p b Hb) as O.
    assert (D : bl_detached b = false).
    { pose proof (bo_cached _ _ _ _ _ _ O) as K. destruct (bl_detached b); [congruence|done]. }
    assert (Hq : p ∈ block_cache s) by (apply (bq_cache _ _ _ _ _ I); by exists (bl_id b)).
    apply wp_mbind, wp_modify. eapply (wp_use_block (set_cache (queue_remove p (block_cache s)) s) C P X p b _ (queue_remove p (block_cache s))).
    + eapply BFq_core; [|eapply BFq_perm; [by apply (queue_remove_perm p)|exact I]]. done.
    + done.
    + done.
    + done.
    + done.
    + intros s' I' R. apply HS; [done| |transitivity (set_cache (queue_remove p (block_cache s)) s); [by apply quiet_core|exact R]]. unfold found_ptr.
      pose proof (bo_refs _ _ _ _ _ _ O) as K. unfold refs_ok in K. destruct (P !! p) as [h|]; [|by left].
      right. destruct K as [-> _]. rewrite D. by eexists.
  - assert (HU : forall p b, bf_heap s !! p = Some b -> bl_id b <> id).
    { intros p b Hb <-. pose proof (bq_heap _ _ _ _ _ I p b Hb) as O. pose proof (bo_cached _ _ _ _ _ _ O) as K.
      pose proof (bo_refs _ _ _ _ _ _ O) as R. unfold refs_ok in R. destruct (bl_detached b) eqn:D; [|congruence].
      destruct (P !! p) as [h|] eqn:EP; [|by destruct R]. destruct R as [-> _]. by destruct (G p _ EP eq_refl). }
    apply wp_mbind, (wp_use s (block_cache s) C P X); [exact I|]. intros r s1 I1 Co1 Fr1 U1. destruct r; cbn; [|apply wp_mret, HN].
    2: { unfold BF. rewrite (if_cache _ _ Fr1). exact I1. } 2: { by apply io_quiet. } 2: { intros K. by specialize (U1 K). }
    apply wp_mbind, wp_io. intros r io IO. set (s2 := set_io io s1).
    assert (I2 : BFq s2 (block_cache s) C P X) by (eapply BFq_core; [|exact I1]; done).
    assert (St2 : quiet s s2).
    { transitivity s1; [by apply io_quiet|]. split; [|by apply calm_same]. split; [done|]. intros [K1 K2]. split; [|exact K2]. cbn. by apply IO in K1 as [_ ->]. }
    destruct r; cbn; [|apply wp_mret, HN; [|exact St2|]]. 2: { unfold BF. cbn. rewrite (if_cache _ _ Fr1). exact I2. }
    2: { intros K. assert (K1 : ok_io s1) by (apply (steady_ok s s1); [steady_t|exact K]). destruct K1 as [K1 _]. by apply IO in K1 as [? _]. }
    apply wp_mbind, wp_gets, wp_mbind. unfold wp at 1, alloc_block. cbn zeta. apply wp_mbind, wp_modify, wp_mbind, wp_modify, wp_mbind, wp_gets.
    pose proof (BFq_alloc s2 (block_cache s) C P X id I2) as I3. cbn in I3. rewrite (sc_blocks _ _ Co1), (sc_heap _ _ Co1) in I3.
    specialize (I3 E HU). cbn in *. set (p := bf_next s1) in *. rewrite (sc_heap _ _ Co1), (sc_blocks _ _ Co1).
    set (s4 := set_blocks _ (set_count _ _)). apply wp_mbind.
    apply (wp_flush_old C P X [p] (rev (block_cache s1)) s4).
    { eapply BFq_perm; [|eapply BFq_core; [|exact I3]; done]. rewrite (if_cache _ _ Fr1). rewrite Permutation_app_comm. cbn.
      f_equiv. apply Permutation_rev. }
    intros kept s5 I5 Fr5 H5. apply wp_mbind, wp_modify. specialize (H5 p (list_elem_of_here _ _)).
    assert (Hp5 : bf_heap s5 !! p = Some (Block id false false 0 (disk_read (bf_file s1) id))) by (rewrite H5; cbn; by rewrite lookup_insert_eq).
    eapply (wp_use_block _ C P X p _ _ (rev kept)); [|done|exact Hp5|done|done|].
    + eapply BFq_core; [|eapply BFq_perm; [|exact I5]]; [done|]. rewrite Permutation_app_comm. cbn. f_equiv. apply Permutation_rev.
    + intros s' I' R. apply HS; [exact I'| |].
      * left. destruct (P !! p) as [h|] eqn:EP; [|done]. exfalso.
        destruct (bq_held _ _ _ _ _ I p) as [b Hb]; [by rewrite EP|]. pose proof (bo_next _ _ _ _ _ _ (bq_heap _ _ _ _ _ I p b Hb)) as L.
        pose proof (sc_next _ _ Co1). unfold p in L. lia.
      * transitivity s2; [exact St2|]. transitivity s4.
        { split; [done|]. constructor; [|intros i; by left]. intros x c. change (bf_heap s4) with (<[p := Block id false false 0 (disk_read (bf_file s1) id)]> (bf_heap s)).
          destruct (decide (p = x)) as [<-|N]; [rewrite lookup_insert_eq; by intros [= <-]|]. rewrite lookup_insert_ne by done. intros Hx Dx.
          exists c. split_and!; try done. cbn. by rewrite (sc_heap _ _ Co1). }
        transitivity s5; [by apply flush_quiet|]. transitivity (set_cache (rev kept) s5); [by apply quiet_core|exact R].
Qed.
End Get.

(** ** Detaching and dropping references *)

Lemma queue_remove_notin p q : NoDup q -> p ∉ queue_remove p q.
Proof.
  induction q as [|x q IH]; cbn; [intros _; apply not_elem_of_nil|]. intros [N D]%list.NoDup_cons.
  destruct (decide (x = p)) as [->|NE]; [done|]. intros [->|H]%elem_of_cons; [done|]. by apply IH.
Qed.

Lemma elem_of_queue_remove p q x : NoDup q -> x ∈ queue_remove p q <-> x ∈ q /\ x <> p.
Proof.
  intros D. split.
  - intros H. split; [|intros ->; by eapply queue_remove_notin].
    destruct (decide (p ∈ q)) as [Hp|Hp]; [rewrite queue_remove_perm by done; by right|]. clear D.
    induction q as [|y q IH]; [done|]. cbn in H. destruct (decide (y = p)) as [->|NE]; [by right|].
    apply elem_of_cons in H as [->|H]; [by left|]. right. apply IH; [done|]. intros K. apply Hp. by right.
  - intros [H N]. destruct (decide (p ∈ q)) as [Hp|Hp].
    + rewrite (queue_remove_perm p q Hp) in H. by apply elem_of_cons in H as [->|H].
    + clear D. induction q as [|y q IH]; [done|]. cbn. destruct (decide (y = p)) as [->|NE]; [exfalso; apply Hp; by left|].
      apply elem_of_cons in H as [->|H]; [by left|]. right. apply IH; [done|]. intros K. apply Hp. by right.
Qed.

Lemma queue_remove_nodup p q : NoDup q -> NoDup (queue_remove p q).
Proof.
  induction q as [|x q IH]; cbn; [done|]. intros [N D]%list.NoDup_cons. destruct (decide (x = p)) as [->|NE]; [done|].
  apply list.NoDup_cons. split; [|by apply IH]. intros H. by apply elem_of_queue_remove in H as [H _].
Qed.

Lemma wp_detach s C P X p id n (Q : unit -> CamelBlockFile -> Prop) : BF s C P X -> P !! p = Some (Held id n false) ->
  (forall s', BF s' C (<[p := Held id n true]> P) X -> quiet s s' -> Q tt s') -> wp (camel_block_file_detach_block p) Q s.
Proof.
  intros I Hp HQ. destruct (bf_held I p _ Hp) as (b & Hb & E & B & D & O). injection E as -> -> DT.
  pose proof (bo_cached _ _ _ _ _ _ O) as K. rewrite <- DT in K.
  apply wp_mbind. eapply wp_deref; [done|]. apply wp_mbind, wp_modify, wp_mbind, wp_modify. eapply wp_assign; [done|].
  apply HQ; [|split; [done|by apply (calm_refs s p b (with_detached true b))]]. clear HQ. destruct I as [B1 B2 B3 B4 B5 B6 B7 B8 B9 B10].
  assert (L : forall p' c, <[p := with_detached true b]> (bf_heap s) !! p' = Some c -> exists c0, bf_heap s !! p' = Some c0 /\ bl_id c = bl_id c0 /\
    (p' = p /\ c = with_detached true b /\ c0 = b \/ p' <> p /\ c = c0)).
  { intros p' c. destruct (decide (p = p')) as [<-|N].
    - rewrite lookup_insert_eq. intros [= <-]. exists b. split_and!; try done. by left.
    - rewrite lookup_insert_ne by done. intros H. exists c. split_and!; try done. by right. }
  constructor; cbn; try done.
  - intros p'. rewrite elem_of_queue_remove by done. rewrite B1. split.
    + intros [[i Hi] N]. exists i. rewrite lookup_delete_ne; [done|]. intros <-. congruence.
    + intros [i [Ni Hi]%lookup_delete_Some]. split; [by exists i|]. intros ->. destruct (B3 i p Hi) as (c & Hc & Ec).
      rewrite Hb in Hc. injection Hc as <-. done.
  - by apply queue_remove_nodup.
  - intros i p' [Ni Hi]%lookup_delete_Some. destruct (B3 i p' Hi) as (c & Hc & Ec). destruct (decide (p = p')) as [<-|N].
    + rewrite Hb in Hc. injection Hc as <-. done.
    + exists c. by rewrite lookup_insert_ne.
  - intros p' c H'. destruct (L p' c H') as (c0 & H0 & E & [(-> & -> & ->)|(N & ->)]).
    + destruct O as [O1 O2 O3 O4 O5 O6]. constructor; cbn; try done; [by rewrite lookup_delete_eq|].
      rewrite lookup_insert_eq. cbn. by split.
    + destruct (B4 p' c0 H0) as [O1 O2 O3 O4 O5 O6]. constructor; cbn; try done.
      * assert (bl_id b <> bl_id c0) by (intros E'; apply N; by eapply B6). destruct (bl_detached c0); by rewrite lookup_delete_ne.
      * by rewrite lookup_insert_ne.
  - intros p' H'. destruct (decide (p = p')) as [<-|N]; [by rewrite lookup_insert_eq|].
    rewrite lookup_insert_ne in H' by done. rewrite lookup_insert_ne by done. by apply B5.
  - intros p1 p2 b1 b2 K1 K2 E. destruct (L p1 b1 K1) as (c1 & M1 & E1 & _), (L p2 b2 K2) as (c2 & M2 & E2 & _).
    eapply B6; [done|done|congruence].
  - intros i Hi. apply B7. intros p' c Hc. destruct (decide (p = p')) as [<-|N]; [|apply (Hi p' c); by rewrite lookup_insert_ne].
    rewrite Hb in Hc. injection Hc as <-. apply (Hi p (with_detached true b)). by rewrite lookup_insert_eq.
  - intros p' H'. destruct (decide (p = p')) as [<-|N]; [by rewrite lookup_insert_eq|]. rewrite lookup_insert_ne by done. by apply B8.
  - destruct B9 as (r & m & Hr & Hm). exists r, m. split; [done|]. rewrite lookup_insert_ne; [done|]. intros <-. rewrite Hp in Hm. congruence.
Qed.

(** The references of a caller that gives one back. *)
Definition drop_ref (p : loc) (P : gmap loc held) : gmap loc held :=
  match P !! p with
  | Some h => if (h_refs h =? 1) && negb (h_detached h) then delete p P else <[p := Held (h_id h) (h_refs h - 1) (h_detached h)]> P
  | None => P
  end.

Lemma wp_unref s C P X p id n dt (Q : unit -> CamelBlockFile -> Prop) : BF s C P X -> P !! p = Some (Held id n dt) -> p ∉ X ->
  (dt = true -> n <> 1) ->
  (forall s', BF s' C (drop_ref p P) X -> quiet s s' -> Q tt s') -> wp (camel_block_file_unref_block p) Q s.
Proof.
  intros I Hp NX NL HQ. destruct (bf_held I p _ Hp) as (b & Hb & E & B & D & O). injection E as -> -> ->.
  apply wp_mbind. eapply wp_deref; [done|].
  assert (E : (bl_refcount b =? 1) && bl_detached b = false).
  { destruct (bl_detached b); [|by rewrite andb_false_r]. destruct (Z.eqb_spec (bl_refcount b) 1); [by destruct NL|done]. }
  rewrite E. eapply wp_assign; [done|]. apply HQ; [|split; [done|by apply (calm_refs s p b (with_refcount (u32 (bl_refcount b - 1)) b))]]. unfold drop_ref. rewrite Hp. cbn.
  assert (U : u32 (bl_refcount b - 1) = bl_refcount b - 1) by (unfold u32; rewrite Z.mod_small; lia). rewrite U.
  destruct ((bl_refcount b =? 1) && negb (bl_detached b)) eqn:K.
  - apply andb_true_iff in K as [K1%Z.eqb_eq K2%negb_true_iff].
    eapply (BFq_upd s _ C P X p b _ C (delete p P) X); [done..|]. constructor; cbn; try done; try apply O.
    + rewrite lookup_delete_eq. cbn. rewrite K1, K2. by split.
    + intros p' N. by rewrite lookup_delete_ne.
  - eapply (BFq_upd s _ C P X p b _ C (<[p := Held (bl_id b) (bl_refcount b - 1) (bl_detached b)]> P) X); [done..|]. constructor; cbn; try done; try apply O.
    + rewrite lookup_insert_eq. cbn. split; [done|]. destruct (Z.eqb_spec (bl_refcount b) 1), (bl_detached b); try done; lia.
    + intros p' N. by rewrite lookup_insert_ne.
Qed.

(** ** Touching and writing *)

Lemma BF_io s s' C P X : io_frame s s' -> BFq s' (block_cache s) C P X -> BF s' C P X.
Proof. intros F I. unfold BF. by rewrite (if_cache _ _ F). Qed.

Lemma wp_camel_sync_block s C P X p h (Q : bool -> CamelBlockFile -> Prop) : BF s C P X -> P !! p = Some h ->
  (forall s', BF s' C P X -> quiet s s' -> (p ∉ X -> disk_read (bf_file s') (h_id h) = C (h_id h)) -> Q true s') ->
  (forall s', BF s' C P X -> quiet s s' -> ~ ok_io s -> Q false s') -> wp (camel_block_file_sync_block p) Q s.
Proof.
  intros I Hp HT HF. apply wp_mbind, (wp_use s (block_cache s) C P X); [exact I|]. intros r s1 I1 Co Fr U1.
  destruct (bf_held I p h Hp) as (b & Hb & -> & B & D & O).
  destruct r; [|apply wp_mret, HF; [by eapply BF_io|by apply io_quiet|intros K; by specialize (U1 K)]].
  eapply (wp_sync_block s1 _ C P X p b _ I1); [by rewrite (sc_heap _ _ Co)| |].
  - intros s' I' Fr' E' D'. assert (F' : io_frame s s') by (by transitivity s1).
    apply HT; [by eapply BF_io|by apply io_quiet|]. intros N. cbn. rewrite <- D. apply D'. by right.
  - intros s' I' Fr' E' NU. assert (F' : io_frame s s') by (by transitivity s1).
    apply HF; [by eapply BF_io|by apply io_quiet|]. intros K. apply NU. by apply (steady_ok s s1); [apply io_steady|].
Qed.

Lemma put_flags C v : but_flags C (put_word C 0 ROOT_FLAGS v).
Proof.
  unfold put_word. split; [intros id N; by rewrite put_ne|]. intros i N. rewrite put_eq. by rewrite list_lookup_insert_ne.
Qed.

(** The file is marked as inconsistent, in memory and on disk, unless it is
    already or the root block is touched. *)
Definition unsynced (C : Z -> list Z) : Prop := Z.land (word C 0 ROOT_FLAGS) CAMEL_BLOCK_FILE_SYNC = 0.
Definition touched (id : Z) (s : CamelBlockFile) (C : Z -> list Z) (s' : CamelBlockFile) (C' : Z -> list Z) : Prop :=
  local (eq id) s s' /\ C' = C /\ (unsynced C \/ id = 0) \/
  unsynced C' /\ (ok_io s -> unsynced (disk_read (bf_file s'))).

Lemma unsynced_ldiff C v : length (C 0) = WORDS -> unsynced (put_word C 0 ROOT_FLAGS (Z.ldiff v CAMEL_BLOCK_FILE_SYNC)).
Proof.
  intros L. unfold unsynced, word, put_word. rewrite put_eq, list_lookup_insert_eq by (rewrite L; unfold ROOT_FLAGS, WORDS; lia). cbn [default from_option id].
  apply Z.bits_inj'. intros i Hi. rewrite Z.land_spec, Z.ldiff_spec, Z.bits_0. destruct (Z.testbit v i), (Z.testbit CAMEL_BLOCK_FILE_SYNC i); done.
Qed.

Lemma wp_touch s C P X p h (Q : unit -> CamelBlockFile -> Prop) : BF s C P X -> P !! p = Some h ->
  (forall s' C', BF s' C' P (X ∖ {[p]}) -> but_flags C C' -> steady s s' -> touched (h_id h) s C s' C' -> Q tt s') ->
  wp (camel_block_file_touch_block p) Q s.
Proof.
  intros I Hp HQ. destruct h as [id n dt]. apply wp_mbind. eapply wp_dirty; [done..|]. intros s1 I1 R1.
  destruct (bq_root _ _ _ _ _ I1) as (r & m & Hr & Hm).
  apply wp_mbind, wp_mbind, wp_gets. rewrite Hr. apply wp_mret, wp_mbind. eapply wp_root_word; [exact I1|unfold ROOT_FLAGS, WORDS; lia|].
  destruct (negb _ && negb _) eqn:E.
  2: { apply wp_mret, (HQ s1 C); [exact I1|done|steady_t|]. left. split; [exact R1|]. split; [done|]. apply andb_false_iff in E as [E|E].
       - left. apply negb_false_iff, Z.eqb_eq in E. exact E.
       - right. apply negb_false_iff, bool_decide_eq_true in E as ->. rewrite Hp in Hm. by injection Hm. }
  apply wp_mbind. eapply (wp_root_put s1 _ _ _ _ _ r); [exact I1|split; [done|by exists m]|unfold ROOT_FLAGS, WORDS; lia|].
  intros s2 I2 R2. apply wp_mbind. eapply wp_dirty; [exact I2|exact Hm|]. intros s3 I3 R3.
  assert (St : steady s s3) by steady_t.
  set (C' := put_word C 0 ROOT_FLAGS (Z.ldiff (word C 0 ROOT_FLAGS) CAMEL_BLOCK_FILE_SYNC)) in *.
  assert (U : unsynced C') by (apply unsynced_ldiff; exact (bf_len I 0)).
  assert (W : forall s4, BF s4 C' P ((X ∖ {[p]} ∪ {[r]}) ∖ {[r]}) -> BF s4 C' P (X ∖ {[p]})).
  { intros s4 I4. eapply BFq_more; [exact I4|set_solver|]. intros q Hq. apply (bq_touch _ _ _ _ _ I). set_solver. }
  eapply wp_mbind, (wp_camel_sync_block s3); [exact I3|exact Hm| |]; cbn [h_id].
  - intros s4 I4 [R4 _] D4. apply wp_mret, (HQ s4 C'); [by apply W|apply put_flags|by transitivity s3|]. right. split; [exact U|].
    intros _. unfold unsynced, word. rewrite D4 by set_solver. exact U.
  - intros s4 I4 [R4 _] NU. apply wp_mret, (HQ s4 C'); [by apply W|apply put_flags|by transitivity s3|]. right. split; [exact U|].
    intros K. destruct NU. by apply (steady_ok s s3).
Qed.

(** ** Allocating and freeing blocks *)

Lemma wp_dirty_data {A} (k : M A) s C P X p id n dt d (Q : A -> CamelBlockFile -> Prop) : BF s C P X -> P !! p = Some (Held id n dt) -> length d = WORDS ->
  (forall s', BF s' (put C id d) P (X ∖ {[p]}) -> local (eq id) s s' -> wp k Q s') ->
  wp (assign p (with_dirty true);; assign p (with_data d);; k) Q s.
Proof.
  intros I Hp L HQ. destruct (bf_held I p _ Hp) as (b & Hb & E & B & D & O). injection E as -> -> ->.
  apply wp_mbind. eapply wp_assign; [done|]. apply wp_mbind. eapply wp_assign; [cbn; by rewrite lookup_insert_eq|]. cbn.
  rewrite insert_insert_eq. apply HQ; [|by apply (local_insert _ s _ p b (with_data d (with_dirty true b))); [..|left]]. eapply BFq_core; [|eapply (BFq_upd s _ C P X p b (with_data d (with_dirty true b)) (put C (bl_id b) d) P (X ∖ {[p]}))]; [done|done|done|].
  constructor; cbn; try done; try set_solver; try apply O.
  - by rewrite put_eq.
  - intros id N. by apply put_ne.
Qed.

Lemma found_not_root s P p id r : found_ptr P p id -> is_root s P r -> p <> r.
Proof. intros [N|[n N]] [_ [m Hm]] ->; congruence. Qed.

Lemma take_ref_eq p id P : take_ref p id P !! p = Some (Held id (match P !! p with Some h => h_refs h + 1 | None => 1 end) false).
Proof. unfold take_ref. by rewrite lookup_insert_eq. Qed.

Lemma take_ref_ne p id P q : q <> p -> take_ref p id P !! q = P !! q.
Proof. intros N. unfold take_ref. by rewrite lookup_insert_ne. Qed.

Lemma take_ref_dom p id P q : is_Some (P !! q) -> is_Some (take_ref p id P !! q).
Proof. intros H. destruct (decide (q = p)) as [->|N]; [by rewrite take_ref_eq|by rewrite take_ref_ne]. Qed.

Lemma is_root_take s s' P r p id : is_root s P r -> steady s s' -> found_ptr P p id -> is_root s' (take_ref p id P) r.
Proof.
  intros R E F. pose proof (found_not_root _ _ _ _ _ F R) as N. destruct R as [R1 [m R2]], E as [E _]. split; [congruence|].
  exists m. by rewrite take_ref_ne by done.
Qed.

(** The block that is allocated next. *)
Definition next_id (C : Z -> list Z) : Z := if word C 0 ROOT_FREE =? 0 then word C 0 ROOT_LAST else word C 0 ROOT_FREE.

(** What allocating does to the contents. *)
Definition alloc_contents (C : Z -> list Z) : Z -> list Z :=
  put (if word C 0 ROOT_FREE =? 0 then put_word C 0 ROOT_LAST (u32 (word C 0 ROOT_LAST + CAMEL_BLOCK_SIZE))
       else put_word C 0 ROOT_FREE (word C (word C 0 ROOT_FREE) 0)) (next_id C) zero_block.

Lemma wp_finish_new s C P X p id n r (Q : option loc -> CamelBlockFile -> Prop) w v Y : BF s C P X -> is_root s P r ->
  P !! p = Some (Held id n false) -> (w < WORDS)%nat -> X ⊆ Y -> (forall q, q ∈ Y -> is_Some (P !! q)) ->
  (forall s', BF s' (put (put_word C 0 w v) id zero_block) P Y -> local (fun i => i = 0 \/ i = id) s s' -> Q (Some p) s') ->
  wp (root_set w v;; r ← root_ptr; assign r (with_dirty true);; assign p (with_dirty true);; assign p (with_data zero_block);; mret (Some p)) Q s.
Proof.
  intros I R Hp Hw S N HQ. apply wp_mbind. eapply (wp_root_put s _ _ _ _ _ r); [exact I|exact R|exact Hw|].
  intros s1 I1 E1. destruct R as [R [m Hm]]. apply wp_mbind, wp_mbind, wp_gets. rewrite (steady_root _ _ (proj1 E1)), R. apply wp_mret.
  apply wp_mbind. eapply wp_dirty; [exact I1|exact Hm|]. intros s2 I2 E2.
  eapply (wp_dirty_data _ s2); [exact I2|exact Hp|done|]. intros s3 I3 E3. apply wp_mret, HQ.
  2: { eapply local_trans; [eapply local_weaken; [|exact E1]; done|]. eapply local_trans; [eapply local_weaken; [|exact E2]; by left|].
       eapply local_weaken; [|exact E3]. by right. }
  eapply BFq_more; [exact I3|set_solver|exact N].
Qed.

Lemma wp_new_block s C P X (Q : option loc -> CamelBlockFile -> Prop) : BF s C P X -> gettable P (next_id C) ->
  (forall p s', valid_block C (next_id C) = true -> BF s' (alloc_contents C) (take_ref p (next_id C) P) X -> found_ptr P p (next_id C) ->
    (exists s1, quiet s s1 /\ local (fun i => i = 0 \/ i = next_id C) s1 s') -> Q (Some p) s') ->
  (forall s', BF s' C P X -> quiet s s' -> (ok_io s -> valid_block C (next_id C) = false) -> Q None s') -> wp camel_block_file_new_block Q s.
Proof.
  unfold next_id, alloc_contents, next_id. intros I G HS HN. destruct (bq_root _ _ _ _ _ I) as (r & m & R & Hm).
  apply wp_mbind. eapply wp_root_word; [exact I|unfold ROOT_FREE, WORDS; lia|]. destruct (word C 0 ROOT_FREE =? 0) eqn:F; cbn.
  - apply wp_mbind. eapply wp_root_word; [exact I|unfold ROOT_LAST, WORDS; lia|].
    apply wp_mbind, (wp_get_any s C P X I _ _ G); [|intros s1 I1 R1 U; by apply wp_mret, HN].
    intros p s1 V I1 Fp R1. assert (R2 : is_root s1 (take_ref p (word C 0 ROOT_LAST) P) r) by (eapply is_root_take; [split; [exact R|by exists m]|apply R1|done]).
    eapply (wp_finish_new s1 _ _ X _ _ _ r); [exact I1|exact R2|by apply take_ref_eq|unfold ROOT_LAST, WORDS; lia|done| |].
    + intros q Hq. by apply take_ref_dom, (bq_touch _ _ _ _ _ I).
    + intros s2 I2 E2. apply HS; [exact V|exact I2|exact Fp|by exists s1].
  - apply wp_mbind, (wp_get_any s C P X I _ _ G); [|intros s1 I1 R1 U; by apply wp_mret, HN].
    intros p s1 V I1 Fp R1. assert (R2 : is_root s1 (take_ref p (word C 0 ROOT_FREE) P) r) by (eapply is_root_take; [split; [exact R|by exists m]|apply R1|done]).
    apply wp_mbind. eapply wp_word; [exact I1|by apply take_ref_eq|unfold WORDS; lia|].
    eapply (wp_finish_new s1 _ _ X _ _ _ r); [exact I1|exact R2|by apply take_ref_eq|unfold ROOT_FREE, WORDS; lia|done| |].
    + intros q Hq. by apply take_ref_dom, (bq_touch _ _ _ _ _ I).
    + intros s2 I2 E2. apply HS; [exact V|exact I2|exact Fp|by exists s1].
Qed.

Lemma drop_take p id P : found_ptr P p id -> (forall h, P !! p = Some h -> 0 < h_refs h) -> drop_ref p (take_ref p id P) = P.
Proof.
  intros F N. unfold drop_ref. rewrite take_ref_eq. cbn. unfold take_ref. destruct F as [E|[n E]]; rewrite E; cbn.
  - by rewrite delete_insert_eq, delete_id.
  - specialize (N _ E). cbn in N. destruct (Z.eqb_spec (n + 1) 1); [lia|]. cbn. rewrite insert_insert_eq. apply insert_id. rewrite E. do 2 f_equal. lia.
Qed.

Lemma bf_refs s C P X p h : BF s C P X -> P !! p = Some h -> 0 < h_refs h.
Proof. intros I Hp. destruct (bf_held I p h Hp) as (b & _ & -> & B & _). cbn. lia. Qed.

Lemma calm_unsynced s C P X s' : BF s C P X -> calm s s' -> unsynced C -> unsynced (disk_read (bf_file s)) -> unsynced (disk_read (bf_file s')).
Proof.
  intros I [_ B] U V. unfold unsynced, word in *. destruct (B 0) as [->|(p & b & Hp & _ & E & ->)]; [exact V|].
  rewrite <- (bo_data _ _ _ _ _ _ (bq_heap _ _ _ _ _ I p b Hp)), E. exact U.
Qed.

Lemma unsynced_put C id i v : i <> ROOT_FLAGS -> unsynced C -> unsynced (put_word C id i v).
Proof.
  unfold unsynced, word, put_word, put. intros N U. destruct (decide (0 = id)) as [<-|]; [|exact U]. by rewrite list_lookup_insert_ne.
Qed.

(** The flag of consistency stays cleared on disk. *)
Definition stays (C : Z -> list Z) (s s' : CamelBlockFile) : Prop :=
  unsynced C -> unsynced (disk_read (bf_file s)) -> unsynced (disk_read (bf_file s')).

Lemma wp_free_block s C P X id (Q : bool -> CamelBlockFile -> Prop) : BF s C P X -> gettable P id ->
  (forall s', valid_block C id = true -> BF s' (put_word (put_word C id 0 (word C 0 ROOT_FREE)) 0 ROOT_FREE id) P X ->
    steady s s' -> stays C s s' -> Q true s') ->
  (forall s', BF s' C P X -> steady s s' -> stays C s s' -> (ok_io s -> valid_block C id = false) -> Q false s') ->
  wp (camel_block_file_free_block id) Q s.
Proof.
  intros I G HS HN. destruct (bq_root _ _ _ _ _ I) as (r & m & R & Hm).
  apply wp_mbind, (wp_get_any s C P X I _ _ G); [|intros s1 I1 [R1 K] U; apply wp_mret, HN; [done|done| |done]; exact (calm_unsynced _ _ _ _ _ I K)].
  intros p s1 V I1 Fp R1. pose proof (found_not_root _ _ _ _ _ Fp (conj R (ex_intro _ m Hm))) as NR.
  assert (R2 : is_root s1 (take_ref p id P) r) by (eapply is_root_take; [split; [exact R|by exists m]|apply R1|done]).
  apply wp_mbind. eapply wp_root_word; [exact I1|unfold ROOT_FREE, WORDS; lia|].
  apply wp_mbind. eapply wp_put_word; [exact I1|by apply take_ref_eq|unfold WORDS; lia|]. intros s2 I2 E2.
  destruct (bf_held I2 p _ (take_ref_eq p id P)) as (b & Hb & E & _). injection E as E _ _.
  apply wp_mbind. eapply wp_deref; [exact Hb|]. rewrite <- E.
  assert (R2' : is_root s2 (take_ref p id P) r) by (destruct R2 as [K1 K2]; split; [rewrite (steady_root _ _ (proj1 E2)); exact K1|exact K2]).
  apply wp_mbind. eapply (wp_root_put s2 _ _ _ _ _ r); [exact I2|exact R2'|unfold ROOT_FREE, WORDS; lia|]. intros s3 I3 R3. destruct R2' as [R2' [k Hk]].
  apply wp_mbind, wp_mbind, wp_gets. rewrite (steady_root _ _ (proj1 R3)), R2'. apply wp_mret. apply wp_mbind. eapply wp_dirty; [exact I3|exact Hk|]. intros s4 I4 R4.
  apply wp_mbind. eapply wp_dirty; [exact I4|by apply take_ref_eq|]. intros s5 I5 R5.
  apply wp_mbind. eapply wp_unref; [exact I5|by apply take_ref_eq|set_solver|done|]. intros s6 I6 R6. apply wp_mret, HS; [exact V| | |].
  - rewrite drop_take in I6; [|done|intros h Hh; exact (bf_refs s C P X p h I Hh)]. eapply BFq_more; [exact I6|set_solver|]. apply (bq_touch _ _ _ _ _ I).
  - steady_t.
  - intros U0 U1. eapply calm_unsynced; [exact I5|apply R6|by repeat apply unsynced_put|].
    rewrite (proj1 (proj2 R5)), (proj1 (proj2 R4)), (proj1 (proj2 R3)), (proj1 (proj2 E2)). exact (calm_unsynced _ _ _ _ _ I (proj2 R1) U0 U1).
Qed.

(** ** Writing all blocks *)

(** The heap but for the dirty flags that were cleared. *)
Definition cleaned (s s' : CamelBlockFile) : Prop := forall p, match bf_heap s !! p with
  | Some b => exists v, bf_heap s' !! p = Some (with_dirty v b) /\ (bl_dirty b = false -> v = false)
  | None => bf_heap s' !! p = None end.

#[export] Instance cleaned_refl : Reflexive cleaned.
Proof. intros s p. destruct (bf_heap s !! p) as [b|]; [|done]. exists (bl_dirty b). split; [by destruct b|done]. Qed.

#[export] Instance cleaned_trans : Transitive cleaned.
Proof.
  intros s1 s2 s3 H12 H23 p. specialize (H12 p). specialize (H23 p). destruct (bf_heap s1 !! p) as [b|].
  - destruct H12 as (v & E & K). rewrite E in H23. destruct H23 as (w & E' & K'). exists w. split; [exact E'|]. intros D. by apply K', K.
  - by rewrite H12 in H23.
Qed.

Lemma cleaned_insert s s' p b : bf_heap s !! p = Some b -> bf_heap s' = <[p := with_dirty false b]> (bf_heap s) -> cleaned s s'.
Proof.
  intros Hp E q. rewrite E. destruct (decide (p = q)) as [<-|N].
  - rewrite Hp. exists false. by rewrite lookup_insert_eq.
  - rewrite lookup_insert_ne by done. apply cleaned_refl.
Qed.

Definition clean_at (s : CamelBlockFile) (p : loc) : Prop := forall b, bf_heap s !! p = Some b -> bl_dirty b = false.

Lemma cleaned_stays s s' p : cleaned s s' -> is_Some (bf_heap s !! p) -> clean_at s p -> clean_at s' p.
Proof.
  intros K [b Hb] D b' Hb'. specialize (K p). rewrite Hb in K. destruct K as (v & E & V). rewrite Hb' in E. injection E as ->. by apply V, D.
Qed.

Lemma wp_sync_dirty link : forall s q C P X work (Q : option bool -> CamelBlockFile -> Prop), BFq s q C P X ->
  (forall p, p ∈ link -> is_Some (bf_heap s !! p)) ->
  (forall w s', BFq s' q C P X -> io_frame s s' -> cleaned s s' -> (is_Some w -> forall p, p ∈ link -> clean_at s' p) -> (ok_io s -> is_Some w) -> Q w s') ->
  wp (sync_dirty link work) Q s.
Proof.
  induction link as [|p link IH]; intros s q C P X work Q I H HQ; [apply wp_mret, HQ; try done; intros _ p Hp; by apply not_elem_of_nil in Hp|].
  destruct (H p (list_elem_of_here _ _)) as [b Hb]. apply wp_mbind. eapply wp_deref; [exact Hb|].
  destruct (bl_dirty b) eqn:D.
  - apply wp_mbind. eapply (wp_sync_block s q C P X p b _ I Hb).
    + intros s1 I1 F1 E1 _. pose proof (cleaned_insert _ _ _ _ Hb E1) as K1.
      assert (L1 : forall x, is_Some (bf_heap s !! x) -> is_Some (bf_heap s1 !! x)).
      { intros x [c Hc]. specialize (K1 x). rewrite Hc in K1. destruct K1 as (v & -> & _). done. }
      apply (IH s1 q C P X); [exact I1|intros x Hx; apply L1, H; by right|].
      intros w s2 I2 F2 K2 D2 U2. apply HQ; [exact I2|by transitivity s1|by transitivity s1| |].
      2: { intros K. apply U2. by apply (steady_ok s s1); [apply io_steady|]. }
      intros W x [->|Hx]%elem_of_cons; [|by apply D2]. apply (cleaned_stays s1 s2); [exact K2|by apply L1|].
      intros c. rewrite E1, lookup_insert_eq. by intros [= <-].
    + intros s1 I1 F1 E1 NU. apply wp_mret, HQ; [exact I1|exact F1| |by intros []|done]. intros x. rewrite E1. apply cleaned_refl.
  - apply (IH s q C P X); [exact I|intros x Hx; apply H; by right|]. intros w s2 I2 F2 K2 D2 U2. apply HQ; [exact I2|exact F2|exact K2| |exact U2].
    intros W x [->|Hx]%elem_of_cons; [|by apply D2]. apply (cleaned_stays s s2); [exact K2|by rewrite Hb|]. intros c. rewrite Hb. by intros [= <-].
Qed.

(** No block becomes dirty. *)
Definition dirty_from (s s' : CamelBlockFile) : Prop := forall p b', bf_heap s' !! p = Some b' -> bl_dirty b' = true ->
  exists b, bf_heap s !! p = Some b /\ bl_dirty b = true /\ bl_detached b = bl_detached b' /\ bl_id b = bl_id b'.

Lemma cleaned_dirty s s' : cleaned s s' -> dirty_from s s'.
Proof.
  intros K p b' Hp D. specialize (K p). destruct (bf_heap s !! p) as [b|]; [|congruence].
  destruct K as (v & E & V). rewrite E in Hp. injection Hp as <-. cbn in *. exists b. split_and!; try done.
  destruct (bl_dirty b); [done|]. by rewrite V in D.
Qed.

(** The file is consistent: the blocks of the cache and the root block are
    written, and the flag says so. *)
Definition synced (s0 s : CamelBlockFile) (C : Z -> list Z) : Prop :=
  dirty_from s0 s /\
  Z.land (word C 0 ROOT_FLAGS) CAMEL_BLOCK_FILE_SYNC <> 0 /\
  forall p b, bf_heap s !! p = Some b -> bl_detached b = false \/ bl_id b = 0 -> bl_dirty b = false.

Lemma word_put_flags C v : length (C 0) = WORDS -> word (put_word C 0 ROOT_FLAGS v) 0 ROOT_FLAGS = v.
Proof. intros L. unfold word, put_word. rewrite put_eq, list_lookup_insert_eq; [done|]. rewrite L. unfold ROOT_FLAGS, WORDS. lia. Qed.

Lemma wp_sync_nolock s C P X (Q : bool -> CamelBlockFile -> Prop) : BF s C P X ->
  (forall s' C', BF s' C' P X -> but_flags C C' -> steady s s' -> synced s s' C' -> Q true s') ->
  (forall s' C', BF s' C' P X -> but_flags C C' -> steady s s' -> ~ ok_io s -> Q false s') -> wp sync_nolock Q s.
Proof.
  intros I HT HF. apply wp_mbind, wp_gets, wp_mbind. apply (wp_sync_dirty _ s (block_cache s) C P X); [exact I| |].
  { intros p Hp. apply (bq_cache _ _ _ _ _ I) in Hp as [id Hid]. destruct (bq_blocks _ _ _ _ _ I id p Hid) as (b & Hb & _). done. }
  intros w s1 I1 F1 K1 D1 U1. pose proof (BF_io _ _ _ _ _ F1 I1) as I1'.
  destruct w as [work|]; [|apply wp_mret, (HF s1 C); [exact I1'|done|steady_t|intros K; by destruct (U1 K)]].
  specialize (D1 (ex_intro _ _ eq_refl)).
  assert (DC : forall p b, bf_heap s1 !! p = Some b -> bl_detached b = false -> bl_dirty b = false).
  { intros p b Hb D. eapply D1; [|exact Hb]. apply (bq_cache _ _ _ _ _ I1). exists (bl_id b).
    pose proof (bo_cached _ _ _ _ _ _ (bq_heap _ _ _ _ _ I1 p b Hb)) as K. by rewrite D in K. }
  destruct (bf_root_held I1) as (r & n & rb & R & Hr & Hb & E0 & ED & EC & EB).
  apply wp_mbind, wp_mbind, wp_gets. rewrite R. apply wp_mret, wp_mbind. eapply wp_deref; [exact Hb|].
  apply wp_mbind. eapply wp_root_word; [exact I1'|unfold ROOT_FLAGS, WORDS; lia|].
  destruct (negb work && negb (bl_dirty rb) && negb (_ =? 0)) eqn:E.
  - apply andb_true_iff in E as [E E3]. apply andb_true_iff in E as [_ E2]. apply negb_true_iff in E2, E3. apply Z.eqb_neq in E3.
    apply wp_mret, (HT s1 C); [done|done|by apply io_steady|]. split; [by apply cleaned_dirty|]. split; [done|]. intros p b Hp [D|D]; [by eapply DC|].
    pose proof (bq_uniq _ _ _ _ _ I1 p r b rb Hp Hb ltac:(congruence)) as ->. congruence.
  - set (fl := Z.lor (word C 0 ROOT_FLAGS) CAMEL_BLOCK_FILE_SYNC).
    unfold root_set. apply wp_mbind, wp_mbind, wp_mbind, wp_gets. rewrite R. apply wp_mret.
    assert (L : (ROOT_FLAGS < length (bl_data rb))%nat) by (rewrite EC, (bf_len I1); unfold ROOT_FLAGS, WORDS; lia).
    eapply wp_set_word; [exact Hb|exact L|]. apply wp_mbind. eapply wp_assign; [cbn; by rewrite lookup_insert_eq|]. cbn. rewrite insert_insert_eq.
    set (rb' := with_dirty true (with_data (<[ROOT_FLAGS := fl]> (bl_data rb)) rb)).
    assert (I2 : BFq (set_heap (<[r := rb']> (bf_heap s1)) s1) (block_cache s) (put_word C 0 ROOT_FLAGS fl) P X).
    { eapply (BFq_upd s1 _ C P X r rb rb'); [exact I1|exact Hb|]. pose proof (bq_heap _ _ _ _ _ I1 r rb Hb) as O.
      constructor; cbn; try done; try apply O.
      - rewrite length_insert. apply O.
      - rewrite E0. unfold put_word. by rewrite put_eq, EC.
      - intros id N. rewrite E0 in N. by apply put_ne. }
    eapply (wp_sync_block _ (block_cache s) (put_word C 0 ROOT_FLAGS fl) P X r rb'); [eapply BFq_core; [|exact I2]; done|cbn; by rewrite lookup_insert_eq| |].
    + intros s2 I3 F2 E2 D2. assert (St : steady s s2) by (transitivity s1; [by apply io_steady|]; apply io_steady in F2; exact F2). assert (CE : block_cache s2 = block_cache s) by (rewrite (if_cache _ _ F2); apply F1).
      apply (HT s2 (put_word C 0 ROOT_FLAGS fl)); [unfold BF; by rewrite CE|apply put_flags|exact St|]. split; [|split].
      * intros p b. rewrite E2. cbn. rewrite insert_insert_eq. destruct (decide (r = p)) as [<-|N]; [rewrite lookup_insert_eq; by intros [= <-]|].
        rewrite lookup_insert_ne by done. intros Hp Dp. by apply (cleaned_dirty _ _ K1).
      * rewrite word_put_flags by apply (bf_len I1). unfold fl. intros Z0. apply (f_equal (fun x => Z.testbit x 0)) in Z0.
        rewrite Z.land_spec, Z.lor_spec in Z0. change (Z.testbit CAMEL_BLOCK_FILE_SYNC 0) with true in Z0. rewrite orb_true_r in Z0. done.
      * intros p b. rewrite E2. cbn. rewrite insert_insert_eq. destruct (decide (r = p)) as [<-|N]; [rewrite lookup_insert_eq; by intros [= <-]|].
        rewrite lookup_insert_ne by done. intros Hp [D|D]; [by eapply DC|]. destruct N. eapply (bq_uniq _ _ _ _ _ I1); [done|done|congruence].
    + intros s2 I3 F2 E2 NU. assert (St : steady s s2) by (transitivity s1; [by apply io_steady|]; apply io_steady in F2; exact F2). assert (CE : block_cache s2 = block_cache s) by (rewrite (if_cache _ _ F2); apply F1).
      apply (HF s2 (put_word C 0 ROOT_FLAGS fl)); [unfold BF; by rewrite CE|apply put_flags|exact St|]. intros K. apply NU. apply io_steady in F1. exact (steady_ok s s1 F1 K).
Qed.

Lemma wp_sync s C P X (Q : bool -> CamelBlockFile -> Prop) : BF s C P X ->
  (forall s' C', BF s' C' P X -> but_flags C C' -> steady s s' -> synced s s' C' -> Q true s') ->
  (forall s' C', BF s' C' P X -> but_flags C C' -> steady s s' -> ~ ok_io s -> Q false s') -> wp camel_block_file_sync Q s.
Proof.
  intros I HT HF. apply wp_mbind, (wp_use s (block_cache s) C P X); [exact I|]. intros r s1 I1 Co Fr U.
  pose proof (BF_io _ _ _ _ _ Fr I1) as I1'. apply io_steady in Fr. destruct r; [|apply wp_mret, (HF s1 C); try done; intros K; by specialize (U K)].
  apply (wp_sync_nolock s1 C P X); [exact I1'| |].
  - intros s' C' I' B' R' [K1 K2]. apply (HT s' C'); try done; [steady_t|]. split; [|done]. intros p b Hp Dp.
    destruct (K1 p b Hp Dp) as (b0 & H0 & K). exists b0. by rewrite <- (sc_heap _ _ Co).
  - intros s' C' I' B' R' K'. apply (HF s' C'); try done; [steady_t|]. intros K. apply K'. by apply (steady_ok s s1).
Qed.
