(* ===== verification/BlockFileSpec.v ===== *)
(** * BlockFileSpec: the cache of a block file cannot be seen

    The abstract machine is a store of blocks: its state, a [view], is the
    contents of all blocks, the pointers the callers hold and those they have
    written through.  A block file refines it: whatever the cache flushed, with
    any limit and any failing calls of the system, no freed block is read and
    every answer is the answer of the store.  A file that was synced and is
    opened again has the same contents, and a file that validates after the
    program died has the blocks of the last sync, if none was freed or reused
    before the flag of consistency was cleared. *)

From stdpp Require Import base list numbers gmap functions.
From Stdlib Require Import ZArith Lia.
From S2P Require Import Prelude BlockFile BlockFileInv BlockFileOps.

(** ** The abstract machine *)

Record view := View { v_contents : Z -> list Z; v_held : gmap loc held; v_written : gset loc }.

Inductive op :=
  | OpGet (id : Z) | OpNew | OpFree (id : Z) | OpDetach (bl : loc) | OpRead (bl : loc) (i : nat) | OpWrite (bl : loc) (i : nat) (v : Z)
  | OpTouch (bl : loc) | OpUnref (bl : loc) | OpSyncBlock (bl : loc) | OpSync | OpOffline | OpLimit (limit : Z).

Inductive res := RBlock (bl : option loc) | RWord (v : Z) | RBool (b : bool) | RUnit.

Definition run (o : op) : M res :=
  match o with
  | OpGet id => bl ← camel_block_file_get_block id; mret (RBlock bl)
  | OpNew => bl ← camel_block_file_new_block; mret (RBlock bl)
  | OpFree id => b ← camel_block_file_free_block id; mret (RBool b)
  | OpDetach bl => camel_block_file_detach_block bl;; mret RUnit
  | OpRead bl i => v ← get_word bl i; mret (RWord v)
  | OpWrite bl i v => set_word bl i v;; mret RUnit
  | OpTouch bl => camel_block_file_touch_block bl;; mret RUnit
  | OpUnref bl => camel_block_file_unref_block bl;; mret RUnit
  | OpSyncBlock bl => b ← camel_block_file_sync_block bl; mret (RBool b)
  | OpSync => b ← camel_block_file_sync; mret (RBool b)
  | OpOffline => block_file_offline;; mret RUnit
  | OpLimit limit => camel_block_file_set_cache_limit limit;; mret RUnit
  end.

(** A word of a block a caller may read and write: not the flags of the root
    block, which are the block file's own. *)
Definition own_word (v : view) (bl : loc) (i : nat) : Prop :=
  exists h, v_held v !! bl = Some h /\ (i < WORDS)%nat /\ ~ (h_id h = 0 /\ i = ROOT_FLAGS).

(** What callers must keep to. *)
Definition allowed (o : op) (v : view) : Prop :=
  match o with
  | OpGet id | OpFree id => gettable (v_held v) id
  | OpNew => gettable (v_held v) (next_id (v_contents v))
  | OpDetach bl => exists id n, v_held v !! bl = Some (Held id n false)
  | OpRead bl i | OpWrite bl i _ => own_word v bl i
  | OpTouch bl | OpSyncBlock bl => is_Some (v_held v !! bl)
  | OpUnref bl => exists h, v_held v !! bl = Some h /\ bl ∉ v_written v /\ (h_detached h = true -> h_refs h <> 1)
  | OpSync | OpOffline | OpLimit _ => True
  end.

(** The answers of the store. *)
Definition answers (o : op) (v : view) (r : res) : Prop :=
  match o, r with
  | OpGet id, RBlock (Some bl) => valid_block (v_contents v) id = true /\ found_ptr (v_held v) bl id
  | OpNew, RBlock (Some bl) => valid_block (v_contents v) (next_id (v_contents v)) = true /\ found_ptr (v_held v) bl (next_id (v_contents v))
  | OpFree id, RBool b => b = true -> valid_block (v_contents v) id = true
  | OpRead bl i, RWord w => exists h, v_held v !! bl = Some h /\ w = word (v_contents v) (h_id h) i
  | (OpGet _ | OpNew), RBlock None | (OpSyncBlock _ | OpSync), RBool _ => True
  | (OpDetach _ | OpWrite _ _ _ | OpTouch _ | OpUnref _ | OpOffline | OpLimit _), RUnit => True
  | _, _ => False
  end.

(** What operations promise when no call of the system fails. *)
Definition served (o : op) (v : view) (r : res) : Prop :=
  match o, r with
  | OpGet id, RBlock None => valid_block (v_contents v) id = false
  | OpNew, RBlock None => valid_block (v_contents v) (next_id (v_contents v)) = false
  | OpFree id, RBool false => valid_block (v_contents v) id = false
  | (OpSync | OpSyncBlock _), RBool b => b = true
  | _, _ => True
  end.

(** The store after an operation. *)
Definition after (o : op) (r : res) (v : view) : view :=
  match o, r with
  | OpGet id, RBlock (Some bl) => View (v_contents v) (take_ref bl id (v_held v)) (v_written v)
  | OpNew, RBlock (Some bl) => View (alloc_contents (v_contents v)) (take_ref bl (next_id (v_contents v)) (v_held v)) (v_written v)
  | OpFree id, RBool true =>
      View (put_word (put_word (v_contents v) id 0 (word (v_contents v) 0 ROOT_FREE)) 0 ROOT_FREE id) (v_held v) (v_written v)
  | OpDetach bl, _ =>
      match v_held v !! bl with
      | Some h => View (v_contents v) (<[bl := Held (h_id h) (h_refs h) true]> (v_held v)) (v_written v)
      | None => v
      end
  | OpWrite bl i w, _ =>
      match v_held v !! bl with
      | Some h => View (put_word (v_contents v) (h_id h) i w) (v_held v) (v_written v ∪ {[bl]})
      | None => v
      end
  | OpTouch bl, _ => View (v_contents v) (v_held v) (v_written v ∖ {[bl]})
  | OpUnref bl, _ => View (v_contents v) (drop_ref bl (v_held v)) (v_written v)
  | _, _ => v
  end.

(** The block file stands for the store; the flags of the root block are its
    own. *)
Definition represents (s : CamelBlockFile) (v : view) : Prop :=
  exists C, but_flags (v_contents v) C /\ BF s C (v_held v) (v_written v).

(** ** Contents that agree but for the flags *)

Section ButFlags.
Context {C1 C2 : Z -> list Z} (E : but_flags C1 C2).

Lemma bf_word id i : ~ (id = 0 /\ i = ROOT_FLAGS) -> word C2 id i = word C1 id i.
Proof.
  destruct E as [E1 E2]. intros N. unfold word. destruct (decide (id = 0)) as [->|H]; [|by rewrite E1].
  rewrite E2; [done|]. intros ->. by apply N.
Qed.

Lemma insert_agree (l1 l2 : list Z) i v : (forall j, j <> ROOT_FLAGS -> l2 !! j = l1 !! j) -> i <> ROOT_FLAGS ->
  forall j, j <> ROOT_FLAGS -> <[i := v]> l2 !! j = <[i := v]> l1 !! j.
Proof.
  intros H Hi j Hj. specialize (H j Hj). destruct (decide (i = j)) as [<-|N]; [|by rewrite !list_lookup_insert_ne].
  destruct (l1 !! i) eqn:L1.
  - apply lookup_lt_Some in L1, H. by rewrite !list_lookup_insert_eq.
  - apply lookup_ge_None_1 in L1, H. rewrite !(lookup_ge_None_2); [done|by rewrite length_insert..].
Qed.

Lemma bf_put_word id i v : ~ (id = 0 /\ i = ROOT_FLAGS) -> but_flags (put_word C1 id i v) (put_word C2 id i v).
Proof.
  destruct E as [E1 E2]. intros N. unfold put_word, put. split.
  - intros id' N'. destruct (decide (id' = id)) as [->|]; [|by apply E1]. by rewrite E1.
  - intros j Hj. destruct (decide (0 = id)) as [<-|]; [|by apply E2]. apply insert_agree; [exact E2| |exact Hj]. intros ->. by apply N.
Qed.

Lemma bf_put id d : but_flags (put C1 id d) (put C2 id d).
Proof.
  destruct E as [E1 E2]. unfold put. split.
  - intros id' N'. destruct (decide (id' = id)); [done|by apply E1].
  - intros j Hj. destruct (decide (0 = id)); [done|by apply E2].
Qed.

Lemma bf_root_word i : i <> ROOT_FLAGS -> word C2 0 i = word C1 0 i.
Proof. intros N. apply bf_word. by intros [_ ?]. Qed.

Lemma bf_valid id : valid_block C2 id = valid_block C1 id.
Proof. unfold valid_block. by rewrite bf_root_word. Qed.

Lemma bf_next_id : next_id C2 = next_id C1.
Proof. unfold next_id. by rewrite !bf_root_word. Qed.
End ButFlags.

Lemma bf_alloc C1 C2 : but_flags C1 C2 -> but_flags (alloc_contents C1) (alloc_contents C2).
Proof.
  intros E. unfold alloc_contents. rewrite !(bf_next_id E), !(bf_root_word E) by done. apply bf_put.
  destruct (word C1 0 ROOT_FREE =? 0) eqn:F; [apply (bf_put_word E); by intros [_ ?]|].
  apply Z.eqb_neq in F. rewrite (bf_word E) by (by intros [? _]). apply (bf_put_word E). by intros [_ ?].
Qed.

(** ** The refinement *)

Lemma wp_offline s C P X (Q : unit -> CamelBlockFile -> Prop) : BF s C P X ->
  (forall s' C', BF s' C' P X -> but_flags C C' -> steady s s' -> Q tt s') -> wp block_file_offline Q s.
Proof.
  intros I H. apply wp_mbind, wp_gets. destruct (bf_fd s); [|by apply (H s C)].
  apply wp_mbind, (wp_sync_nolock s C P X); [exact I| |]; intros s' C' I' B' R' _; apply wp_modify, (H _ C'); try done; (eapply BFq_core; [|exact I']; done).
Qed.

Lemma wp_then {A} (m : M A) (f : A -> res) (Q : res -> CamelBlockFile -> Prop) s :
  wp m (fun a s' => Q (f a) s') s -> wp (a ← m; mret (f a)) Q s.
Proof. intros H. apply wp_mbind. eapply wp_impl; [exact H|]. intros a s' K. exact K. Qed.

(** What one operation does, as its callers see it. *)
Definition step_ok (o : op) (s : CamelBlockFile) (v : view) (r : res) (s' : CamelBlockFile) : Prop :=
  answers o v r /\ (ok_io s -> served o v r /\ ok_io s') /\ represents s' (after o r v).

Lemma step_okI o s v r s' C : answers o v r -> steady s s' -> (ok_io s -> served o v r) -> but_flags (v_contents (after o r v)) C ->
  BF s' C (v_held (after o r v)) (v_written (after o r v)) -> step_ok o s v r s'.
Proof. intros A St V B I. split; [done|]. split; [intros K; split; [by apply V|by eapply steady_ok]|]. by exists C. Qed.

Lemma refines_step s v o : represents s v -> allowed o v -> wp (run o) (step_ok o s v) s.
Proof.
  intros (C & E & I) A. destruct v as [C0 P X]. cbn in E, I. destruct o; cbn in A; unfold own_word in A; cbn in A; cbn [run].
  - apply wp_then, (wp_get_any s C P X I); [done| |]; [intros p s' V I' F [St _]|intros s' I' [St _] U].
    + rewrite (bf_valid E) in V. by eapply (step_okI _ _ _ _ _ C).
    + rewrite (bf_valid E) in U. by eapply (step_okI _ _ _ _ _ C).
  - rewrite <- (bf_next_id E) in A. apply wp_then, (wp_new_block s C P X); [done|done| |]; [intros p s' V I' F (s1 & [St1 _] & St2 & _)|intros s' I' [St _] U].
    + rewrite (bf_next_id E) in V, F, I'. assert (St : steady s s') by (by transitivity s1). rewrite (bf_valid E) in V. eapply (step_okI _ _ _ _ _ (alloc_contents C)); try done. by apply bf_alloc.
    + rewrite (bf_next_id E), (bf_valid E) in U. by eapply (step_okI _ _ _ _ _ C).
  - apply wp_then, (wp_free_block s C P X); [done|done| |]; [intros s' V I' St _|intros s' I' St _ U].
    + rewrite (bf_valid E) in V. eapply (step_okI _ _ _ _ _ _); [intros _; exact V|exact St|intros _; exact Logic.I| |exact I'].
      rewrite (bf_root_word E) by done. apply bf_put_word; [|by intros [_ ?]]. apply (bf_put_word E). by intros [_ ?].
    + rewrite (bf_valid E) in U. by eapply (step_okI _ _ _ _ _ C).
  - destruct A as (id & n & A). eapply wp_then, wp_detach; [exact I|exact A|]. intros s' I' [St _].
    eapply (step_okI _ _ _ _ _ C); cbn; rewrite ?A; done.
  - destruct A as ([id n dt] & A & L & N). eapply wp_then, wp_word; [exact I|exact A|exact L|]. eapply (step_okI _ _ _ _ _ C); try done.
    eexists. split; [exact A|]. by apply (bf_word E).
  - destruct A as ([id n dt] & A & L & N). eapply wp_then, wp_put_word; [exact I|exact A|exact L|]. intros s' I' [St _].
    eapply (step_okI _ _ _ _ _ _); cbn; rewrite ?A; [done|exact St|done| |exact I']. by apply (bf_put_word E).
  - destruct A as [h A]. eapply wp_then, wp_touch; [exact I|exact A|]. intros s' C' I' B' St _. eapply (step_okI _ _ _ _ _ C'); try done. by transitivity C.
  - destruct A as ([id n dt] & A & N & D). eapply wp_then, wp_unref; [exact I|exact A|exact N|exact D|]. intros s' I' [St _]. by eapply (step_okI _ _ _ _ _ C).
  - destruct A as [h A]. eapply wp_then, wp_camel_sync_block; [exact I|exact A| |]; intros s' I' [St _] U; by eapply (step_okI _ _ _ _ _ C).
  - eapply wp_then, wp_sync; [exact I| |]; intros s' C' I' B' St U; (eapply (step_okI _ _ _ _ _ C'); try done; by transitivity C).
  - eapply wp_then, wp_offline; [exact I|]. intros s' C' I' B' St. eapply (step_okI _ _ _ _ _ C'); try done; by transitivity C.
  - apply wp_then, wp_modify. eapply (step_okI _ _ _ _ _ C); try done. eapply BFq_core; [|exact I]. done.
Qed.

(** ** Opening a block file

    What [camel_block_file_new] makes of a file on disk: the contents of a file
    that validates, and an empty file otherwise. *)

Definition ROOT : loc := 1%positive.
Definition root_held : gmap loc held := {[ROOT := Held 0 1 true]}.

(** What [block_file_validate_root] asks of a file. *)
Definition disk_valid (version : list Z) (f : disk) : bool :=
  let d := disk_read f 0 in let w i := default 0 (d !! i) in
  negb ((w ROOT_LAST =? 0) || negb (bytes_eqb (take 2 d) version) || negb (w ROOT_BLOCK_SIZE =? CAMEL_BLOCK_SIZE)
    || negb (w ROOT_FREE mod CAMEL_BLOCK_SIZE =? 0) || negb (w ROOT_LAST mod CAMEL_BLOCK_SIZE =? 0)
    || negb (st_size f =? w ROOT_LAST) || (w ROOT_FREE >? st_size f)
    || (Z.land (w ROOT_FLAGS) CAMEL_BLOCK_FILE_SYNC =? 0)).

(** The root block of an empty file. *)
Definition init_root (version : list Z) : list Z :=
  version ++ [CAMEL_BLOCK_FILE_SYNC; CAMEL_BLOCK_SIZE; 0; CAMEL_BLOCK_SIZE] ++ replicate 250 0.

Definition init_disk (version : list Z) (f : disk) : disk := disk_truncate (disk_write f 0 (init_root version)) CAMEL_BLOCK_SIZE.

(** The file a block file works on after it was opened. *)
Definition opened_disk (version : list Z) (f : disk) : disk := if disk_valid version f then f else init_disk version f.

(** A block file with nothing but its root block in memory, as it is on disk. *)
Record fresh_state (s : CamelBlockFile) (f : disk) : Prop := {
  fr_root : bf_root s = Some ROOT; fr_cache : block_cache s = []; fr_blocks : bf_blocks s = ∅;
  fr_heap : bf_heap s = {[ROOT := Block 0 false true 1 (disk_read f 0)]}; fr_next : (ROOT < bf_next s)%positive; fr_file : bf_file s = f }.

Lemma fresh_BF s f : fresh_state s f -> disk_ok f -> BF s (disk_read f) root_held ∅.
Proof.
  intros [E1 E2 E3 E4 E5 E6] D. unfold BF. rewrite E2. constructor; rewrite ?E1, ?E3, ?E4, ?E6; try done.
  - intros p. split; [intros H; by apply not_elem_of_nil in H|intros [id H]; by rewrite lookup_empty in H].
  - by apply NoDup_nil_2.
  - intros p b [<- <-]%lookup_singleton_Some. constructor; cbn; rewrite ?E3, ?E6; try done.
    unfold disk_read. destruct (sectors f !! 0) eqn:K; [by apply D in K|done].
  - intros p [h H]. unfold root_held in H. apply lookup_singleton_Some in H as [<- _]. by rewrite lookup_singleton_eq.
  - intros p1 p2 b1 b2 [<- _]%lookup_singleton_Some [<- _]%lookup_singleton_Some. done.
  - exists ROOT, 1. split; [done|]. unfold root_held. by rewrite lookup_singleton_eq.
Qed.

Lemma init_root_length version : length version = 2%nat -> length (init_root version) = WORDS.
Proof. intros L. unfold init_root. rewrite !length_app, L. done. Qed.

Lemma init_disk_ok version f : length version = 2%nat -> disk_ok f -> disk_ok (init_disk version f).
Proof.
  intros L D i d. cbn. intros [H _]%map_lookup_filter_Some. revert H. apply disk_ok_write; [exact D|by apply init_root_length].
Qed.

Lemma init_disk_root version f : disk_read (init_disk version f) 0 = init_root version.
Proof.
  unfold disk_read, init_disk. cbn. rewrite (map_lookup_filter_Some_2 _ _ 0 (init_root version)); [done|by rewrite lookup_insert_eq|done].
Qed.

Lemma init_disk_valid version f : length version = 2%nat -> disk_valid version (init_disk version f) = true.
Proof.
  intros L. unfold disk_valid. rewrite init_disk_root. destruct version as [|v1 [|v2 [|]]]; try done.
  cbn. unfold bytes_eqb. by rewrite !Z.eqb_refl.
Qed.

(** Closing a file, however the write of its blocks ends. *)
Lemma wp_free_all q (Q : unit -> CamelBlockFile -> Prop) : forall s, NoDup q -> (forall p, p ∈ q -> is_Some (bf_heap s !! p)) ->
  (forall s', (forall p, p ∉ q -> bf_heap s' !! p = bf_heap s !! p) -> bf_root s' = bf_root s -> Q tt s') -> wp (free_all q) Q s.
Proof.
  induction q as [|p q IH]; intros s N H HQ; [by apply HQ|]. apply list.NoDup_cons in N as [N1 N2].
  destruct (H p (list_elem_of_here _ _)) as [b Hb]. apply wp_mbind. eapply wp_deref; [exact Hb|]. apply wp_mbind, wp_modify, IH; [done| |].
  - intros x Hx. cbn. rewrite lookup_delete_ne; [apply H; by right|]. by intros ->.
  - intros s' K R. apply HQ; [|exact R]. intros x Hx. rewrite K by (intros ?; apply Hx; by right). cbn.
    rewrite lookup_delete_ne; [done|]. intros ->. apply Hx. by left.
Qed.

Lemma wp_finalize s C P X (Q : unit -> CamelBlockFile -> Prop) : BF s C P X -> (forall s', Q tt s') -> wp block_file_finalize Q s.
Proof.
  intros I HQ. destruct (bq_root _ _ _ _ _ I) as (r & n & R & Hr). apply wp_mbind, wp_gets. rewrite R. apply wp_mbind, wp_mbind.
  assert (K : forall s' C', BF s' C' P X -> steady s s' ->
    wp (cache ← gets block_cache; free_all cache;; modify (set_cache []);; modify (set_blocks ∅);; camel_block_file_unref_block r;; modify (set_fd false)) Q s').
  { intros s' C' I' St. apply wp_mbind, wp_gets, wp_mbind, wp_free_all; [apply I'| |].
    - intros p Hp. apply (bq_cache _ _ _ _ _ I') in Hp as [id Hid]. destruct (bq_blocks _ _ _ _ _ I' id p Hid) as (b & Hb & _). done.
    - intros s1 H1 _. destruct (bf_held I' r _ Hr) as (b & Hb & E & _ & _ & O). injection E as E1 _ E2.
      assert (Hb1 : bf_heap s1 !! r = Some b).
      { rewrite H1; [done|]. intros Hq. apply (bq_cache _ _ _ _ _ I') in Hq as [id Hid].
        destruct (bq_blocks _ _ _ _ _ I' id r Hid) as (b' & Hb' & E'). rewrite Hb in Hb'. injection Hb' as <-.
        pose proof (bo_cached _ _ _ _ _ _ O) as K. rewrite <- E2 in K. congruence. }
      apply wp_mbind, wp_modify, wp_mbind, wp_modify, wp_mbind, wp_mbind. eapply wp_deref; [exact Hb1|].
      destruct (_ && _); [apply wp_modify|eapply wp_assign; [exact Hb1|]]; apply HQ. }
  apply (wp_sync s C P X); [exact I| |]; intros s' C' I' _ St _; apply wp_mret; by eapply K.
Qed.

(** The root block is read and taken out of the cache. *)
Lemma wp_get_root version f io (Q : option loc -> CamelBlockFile -> Prop) :
  (forall s, bf_version s = version -> bf_root s = None -> bf_deleted s = false -> bf_fd s = true -> block_cache s = [ROOT] ->
    bf_blocks s = {[0 := ROOT]} -> bf_heap s = {[ROOT := Block 0 false false 1 (disk_read f 0)]} -> bf_next s = 2%positive -> bf_file s = f ->
    (io = [] -> bf_io s = []) -> Q (Some ROOT) s) ->
  (forall s, io <> [] -> bf_root s = None -> block_cache s = [] -> Q None s) ->
  wp (camel_block_file_get_block 0) Q (block_file_init version f io).
Proof.
  intros HS HN. apply wp_mbind. apply wp_mbind, wp_gets. cbn. apply wp_mret. cbn. apply wp_mbind, wp_gets. cbn.
  change ((∅ : gmap Z loc) !! 0) with (@None loc). apply wp_mbind.
  apply wp_mbind, wp_gets. cbn. apply wp_mbind, wp_gets. cbn. apply wp_mbind, wp_io. intros r1 io1 IO1.
  destruct r1; [apply wp_mbind, wp_modify, wp_mret|apply wp_mret, wp_mret, HN; [|done..]; intros ->; by destruct IO1]. cbn.
  apply wp_mbind, wp_io. cbn. intros r2 io2 IO2.
  destruct r2; cbn; [|apply wp_mret, HN; [|done..]; intros ->; destruct IO1 as [_ ->]; [done|]; by destruct IO2].
  apply wp_mbind, wp_gets, wp_mbind. unfold wp at 1, alloc_block. cbn. apply wp_mbind, wp_modify, wp_mbind, wp_modify, wp_mbind, wp_gets. cbn.
  apply wp_mbind, wp_mret, wp_mbind, wp_modify. unfold use_block. apply wp_mbind, wp_modify, wp_mbind. cbn.
  eapply wp_assign; [cbn; by rewrite lookup_insert_eq|]. apply wp_mret, HS; cbn; try done.
  intros ->. destruct IO1 as [_ ->]; [done|]. by destruct IO2 as [_ ->].
Qed.

Lemma root_word_eq s b i v (Q : Z -> CamelBlockFile -> Prop) : bf_root s = Some ROOT -> bf_heap s !! ROOT = Some b ->
  bl_data b !! i = Some v -> Q v s -> wp (root_get i) Q s.
Proof. intros R H D HQ. apply wp_mbind, wp_mbind, wp_gets. rewrite R. apply wp_mret. by eapply wp_get_word. Qed.

Lemma wp_validate s f (Q : bool -> CamelBlockFile -> Prop) : fresh_state s f -> disk_ok f ->
  (forall ok io, (bf_io s = [] -> ok = true /\ io = []) -> Q (ok && disk_valid (bf_version s) f) (set_io io s)) -> wp block_file_validate_root Q s.
Proof.
  intros [E1 E2 E3 E4 E5 E6] D HQ. apply wp_mbind, wp_io. intros ok io IO.
  assert (L : length (disk_read f 0) = WORDS) by (unfold disk_read; destruct (sectors f !! 0) eqn:K; [by apply D in K|done]).
  assert (W : forall i, (i < WORDS)%nat -> disk_read f 0 !! i = Some (default 0 (disk_read f 0 !! i))).
  { intros i Hi. destruct (lookup_lt_is_Some_2 (disk_read f 0) i) as [v Hv]; [by rewrite L|]. by rewrite Hv. }
  apply wp_mbind, wp_gets, wp_mbind, wp_gets. apply wp_mbind, wp_mbind, wp_gets. cbn. rewrite E1. apply wp_mret.
  assert (H : bf_heap (set_io io s) !! ROOT = Some (Block 0 false true 1 (disk_read f 0))) by (cbn; rewrite E4; by rewrite lookup_singleton_eq).
  apply wp_mbind. eapply wp_deref; [exact H|].
  do 4 (apply wp_mbind; eapply root_word_eq; [exact E1|exact H|apply W; unfold ROOT_FLAGS, ROOT_BLOCK_SIZE, ROOT_FREE, ROOT_LAST, WORDS; lia|]).
  apply wp_mret. cbn [bl_data]. rewrite E6. specialize (HQ ok io IO).
  match goal with |- Q ?b _ => replace b with (ok && disk_valid (bf_version s) f); [exact HQ|] end.
  unfold disk_valid. destruct ok; cbn [negb andb orb]; [rewrite orb_false_r; done|]. rewrite !orb_true_r. done.
Qed.

Lemma init_root_word version i v : length version = 2%nat -> [CAMEL_BLOCK_FILE_SYNC; CAMEL_BLOCK_SIZE; 0; CAMEL_BLOCK_SIZE] !! i = Some v ->
  init_root version !! (2 + i)%nat = Some v.
Proof. destruct version as [|v1 [|v2 [|]]]; try done. intros _. do 4 (destruct i as [|i]; [done|]). done. Qed.

(** The file does not validate and is made an empty one. *)
Definition initialise : M bool :=
  block_file_init_root;;
  camel_block_file_touch_block ROOT;;
  used ← block_file_use;
  if negb used then block_file_finalize;; mret false else
  synced ← sync_block_nolock ROOT;
  if negb synced then block_file_finalize;; mret false else
  truncated ← io_next;
  if negb truncated then block_file_finalize;; mret false else
  last ← root_get ROOT_LAST;
  modify (fun s => set_file (disk_truncate (bf_file s) last) s);;
  mret true.

Lemma insert_root {A} (x y : A) : <[ROOT := x]> ({[ROOT := y]} : gmap loc A) = {[ROOT := x]}.
Proof. reflexivity. Qed.

Lemma wp_initialise s f (Q : bool -> CamelBlockFile -> Prop) : length (bf_version s) = 2%nat -> disk_ok f -> fresh_state s f ->
  bf_fd s = true -> bf_deleted s = false ->
  (forall s', fresh_state s' (init_disk (bf_version s) f) -> bf_version s' = bf_version s -> (bf_io s = [] -> ok_io s') -> Q true s') ->
  (forall s', bf_io s <> [] -> Q false s') -> wp initialise Q s.
Proof.
  intros L D FS FD DL HT HF. pose proof (fresh_BF s f FS D) as I. destruct FS as [E1 E2 E3 E4 E5 E6].
  set (v := bf_version s) in *. set (b1 := Block 0 true true 1 (init_root v)).
  apply wp_mbind. unfold block_file_init_root. apply wp_mbind, wp_mbind, wp_gets. rewrite E1. apply wp_mret, wp_mbind, wp_gets.
  eapply wp_assign; [rewrite E4; by rewrite lookup_singleton_eq|]. rewrite E4, insert_root. cbn [with_data bl_id bl_dirty bl_detached bl_refcount].
  apply wp_mbind. unfold camel_block_file_touch_block. apply wp_mbind. eapply wp_assign; [reflexivity|].
  cbn [bf_heap set_heap]. rewrite insert_root. cbn [with_dirty bl_id bl_dirty bl_detached bl_refcount bl_data].
  change (set_heap _ _) with (set_heap {[ROOT := b1]} s). set (s1 := set_heap {[ROOT := b1]} s).
  assert (H1 : bf_heap s1 !! ROOT = Some b1) by (by reflexivity).
  assert (I1 : BF s1 (put (disk_read f) 0 (init_root v)) root_held ∅).
  { assert (Hr : bf_heap s !! ROOT = Some (Block 0 false true 1 (disk_read f 0))) by (rewrite E4; by rewrite lookup_singleton_eq).
    pose proof (BFq_upd s (block_cache s) (disk_read f) root_held ∅ ROOT _ b1 (put (disk_read f) 0 (init_root v)) root_held ∅ I Hr) as K.
    rewrite E4, insert_root in K. apply K. constructor; cbn; try done; [by apply init_root_length|intros id N; by apply put_ne]. }
  apply wp_mbind, wp_mbind, wp_gets. cbn [bf_root s1 set_heap]. rewrite E1. apply wp_mret, wp_mbind.
  eapply (root_word_eq s1 b1 ROOT_FLAGS CAMEL_BLOCK_FILE_SYNC); [exact E1|exact H1|by apply (init_root_word v 0)|].
  rewrite bool_decide_true by done. rewrite andb_false_r. apply wp_mret.
  apply wp_mbind, wp_mbind, wp_gets. change (bf_fd s1) with (bf_fd s). rewrite FD. apply wp_mret. cbn [negb].
  apply wp_mbind. unfold sync_block_nolock. apply wp_mbind. eapply wp_deref; [exact H1|]. cbn [bl_dirty b1].
  assert (I2 : forall io, BF (set_io io s1) (put (disk_read f) 0 (init_root v)) root_held ∅) by (intros io; eapply BFq_core; [|exact I1]; done).
  apply wp_mbind, wp_io. intros r io IO. destruct r.
  2: { apply wp_mret. cbn [negb]. apply wp_mbind. eapply wp_finalize; [exact (I2 io)|]. intros s3. apply wp_mret, HF. intros K. by destruct (IO K). }
  apply wp_mbind, wp_modify, wp_mbind. eapply wp_assign; [exact H1|]. apply wp_mret. cbn [negb].
  change (<[ROOT := with_dirty false b1]> (bf_heap _)) with ({[ROOT := Block 0 false true 1 (init_root v)]} : gmap loc CamelBlock).
  set (s2 := set_file _ _). set (s3 := set_heap _ s2).
  assert (I3 : BF s3 (put (disk_read f) 0 (init_root v)) root_held ∅).
  { assert (IW : BF s2 (put (disk_read f) 0 (init_root v)) root_held ∅) by exact (BFq_write (set_io io s1) _ _ _ _ ROOT b1 (I2 io) H1).
    refine (BFq_dirty s2 (block_cache s2) (put (disk_read f) 0 (init_root v)) root_held ∅ ROOT b1 false IW H1 _).
    intros _ _. cbn. by rewrite disk_read_write, decide_True. }
  apply wp_mbind, wp_io. intros r io2 IO2. change (bf_io s3) with io in IO2. destruct r; cbn [negb].
  - apply wp_mbind. eapply (root_word_eq _ (Block 0 false true 1 (init_root v)) ROOT_LAST CAMEL_BLOCK_SIZE); [exact E1|reflexivity|by apply (init_root_word v 3)|].
    apply wp_mbind, wp_modify, wp_mret, HT; [|done|].
    + constructor; try done; cbn; [by rewrite init_disk_root|by rewrite E6].
    + intros K. destruct (IO K) as [_ ->]. destruct (IO2 eq_refl) as [_ ->]. by split.
  - apply wp_mbind. eapply wp_finalize; [eapply BFq_core; [|exact I3]; done|]. intros s4. apply wp_mret, HF.
    intros K. destruct (IO K) as [_ ->]. by destruct (IO2 eq_refl).
Qed.

Lemma wp_new version f io (Q : bool -> CamelBlockFile -> Prop) : length version = 2%nat -> disk_ok f ->
  (forall s g, fresh_state s g -> bf_version s = version -> (g = f /\ disk_valid version f = true \/ g = init_disk version f) ->
    (io = [] -> g = opened_disk version f /\ ok_io s) -> Q true s) ->
  (forall s, io <> [] -> Q false s) ->
  wp camel_block_file_new Q (block_file_init version f io).
Proof.
  intros L D HT HF. apply wp_mbind, (wp_get_root version f io).
  2: { intros s N R K. apply wp_mbind, wp_mbind, wp_gets. rewrite R. apply wp_mbind, wp_mret, wp_mbind, wp_gets. rewrite K. apply wp_mbind, wp_mret.
       apply wp_mbind, wp_modify, wp_mbind, wp_modify, wp_mbind, wp_mret, wp_modify, wp_mret. by apply HF. }
  intros s0 V0 R0 DL0 FD0 C0 B0 H0 N0 F0 IO0. apply wp_mbind, wp_modify, wp_mbind.
  apply wp_mbind. eapply wp_deref; [cbn; rewrite H0; by rewrite lookup_singleton_eq|].
  apply wp_mbind, wp_modify, wp_mbind, wp_modify. cbn. rewrite C0, B0. cbn.
  eapply wp_assign; [cbn; rewrite H0; by rewrite lookup_singleton_eq|]. cbn. rewrite H0.
  match goal with |- wp _ _ ?st => set (s1 := st) end.
  assert (FS : fresh_state s1 f).
  { constructor; cbn; try done. by rewrite N0. }
  apply wp_mbind, (wp_validate s1 f _ FS D). intros ok io1 IO1. change (bf_io s1) with (bf_io s0) in IO1.
  change (bf_version s1) with (bf_version s0). rewrite V0. destruct (ok && disk_valid version f) eqn:V.
  { apply andb_true_iff in V as [-> V]. apply wp_mret, (HT _ f); [destruct FS; by constructor|done|by left|].
    intros Hio. split; [unfold opened_disk; by rewrite V|]. split; [|done]. cbn. by destruct (IO1 (IO0 Hio)) as [_ ->]. }
  apply (wp_initialise (set_io io1 s1) f); cbn; try done; [by rewrite V0|destruct FS; by constructor| |].
  - intros s' F' V' U. rewrite V0 in F', V'. apply (HT s' (init_disk version f)); [exact F'|exact V'|by right|].
    intros Hio. destruct (IO1 (IO0 Hio)) as [-> ->]. cbn in V. split; [unfold opened_disk; by rewrite V|]. by apply U.
  - intros s' N. apply HF. intros Hio. destruct (IO1 (IO0 Hio)) as [_ ->]. by apply N.
Qed.
