(* ===== verification/BlockFileSafe.v ===== *)
(** * BlockFileSafe: what callers of a block file can rely on

    The states a block file is in from its opening on, whatever its callers do
    within the rules: nothing is read that was freed and the answers are those
    of the store; a file that was synced has the contents when it is opened
    again; and when the program dies, a file that validates has the blocks of
    the last sync, unless a block was freed or reused before anything cleared
    the flag of consistency ([free_leaves_flag]). *)

From stdpp Require Import base list numbers gmap functions.
From Stdlib Require Import ZArith Lia.
From S2P Require Import Prelude BlockFile BlockFileInv BlockFileOps BlockFileSpec.

(** ** The states of a block file *)

Inductive reachable (version : list Z) (f : disk) : CamelBlockFile -> view -> Prop :=
  | reach_new io s : camel_block_file_new (block_file_init version f io) = Some (true, s) ->
      reachable version f s (View (disk_read (bf_file s)) root_held ∅)
  | reach_step o s v r s' : reachable version f s v -> allowed o v -> run o s = Some (r, s') -> reachable version f s' (after o r v).

Lemma wp_run {A} (m : M A) Q s a s' : wp m Q s -> m s = Some (a, s') -> Q a s'.
Proof. unfold wp. intros H E. by rewrite E in H. Qed.

Lemma wp_total {A} (m : M A) Q s : wp m Q s -> exists a s', m s = Some (a, s') /\ Q a s'.
Proof. unfold wp. destruct (m s) as [[a s']|]; [|done]. by exists a, s'. Qed.

Section Reachable.
Context (version : list Z) (f : disk) (L : length version = 2%nat) (D : disk_ok f).

Lemma new_runs io : exists b s, camel_block_file_new (block_file_init version f io) = Some (b, s).
Proof. destruct (wp_total camel_block_file_new (fun _ _ => True) (block_file_init version f io)) as (b & s & E & _); [|by exists b, s]. by apply wp_new. Qed.

Lemma new_represents io s : camel_block_file_new (block_file_init version f io) = Some (true, s) ->
  represents s (View (disk_read (bf_file s)) root_held ∅).
Proof.
  intros N. assert (W : wp camel_block_file_new (fun b s => b = true -> BF s (disk_read (bf_file s)) root_held ∅) (block_file_init version f io)).
  { apply wp_new; [done|done| |done]. intros s0 g F _ G _ _. rewrite (fr_file _ _ F). apply fresh_BF; [done|].
    destruct G as [[-> _]| ->]; [done|by apply init_disk_ok]. }
  exists (disk_read (bf_file s)). split; [done|]. exact (wp_run _ _ _ _ _ W N eq_refl).
Qed.

Lemma reachable_represents s v : reachable version f s v -> represents s v.
Proof.
  induction 1 as [io s N|o s v r s' _ IH A R]; [by apply (new_represents io)|].
  by eapply (wp_run (run o) _ s r s' (refines_step s v o IH A)) in R as (_ & _ & R).
Qed.

Lemma reachable_step s v o : reachable version f s v -> allowed o v ->
  exists r s', run o s = Some (r, s') /\ step_ok o s v r s' /\ reachable version f s' (after o r v).
Proof.
  intros R A. destruct (wp_total _ _ _ (refines_step s v o (reachable_represents s v R) A)) as (r & s' & E & K).
  exists r, s'. split_and!; [done|done|]. by eapply reach_step.
Qed.
End Reachable.

(** ** Synced files *)

(** The blocks that were taken out of the cache are written. *)
Definition detached_clean (s : CamelBlockFile) : Prop :=
  forall p b, bf_heap s !! p = Some b -> bl_detached b = true -> bl_id b <> 0 -> bl_dirty b = false.


Lemma synced_disk s0 s C P : BF s C P ∅ -> synced s0 s C -> detached_clean s0 -> forall id, disk_read (bf_file s) id = C id.
Proof.
  intros I (K1 & K2 & K3) DC id.
  destruct (decide (map_Forall (fun _ b => bl_id b <> id) (bf_heap s))) as [F|F]; [by rewrite (bq_out _ _ _ _ _ I)|].
  apply map_not_Forall in F as (p & b & Hp & Hb); [|intros; solve_decision]. destruct (decide (bl_id b = id)) as [<-|]; [|by exfalso].
  pose proof (bq_heap _ _ _ _ _ I p b Hp) as O. rewrite (bo_data _ _ _ _ _ _ O). apply (bo_clean _ _ _ _ _ _ O); [|set_solver].
  destruct (bl_dirty b) eqn:Dirty; [|done]. exfalso.
  destruct (bl_detached b) eqn:DT; [|rewrite (K3 p b) in Dirty; [done|done|by left]].
  destruct (decide (bl_id b = 0)) as [E|N]; [rewrite (K3 p b) in Dirty; [done|done|by right]|].
  destruct (K1 p b Hp Dirty) as (b0 & H0 & D0 & T0 & E0). rewrite (DC p b0) in D0; [done|done|congruence|congruence].
Qed.


(** What a call of [camel_block_file_sync] that works leaves on disk. *)
Lemma sync_writes version f s v s' : length version = 2%nat -> disk_ok f -> reachable version f s v -> v_written v = ∅ -> detached_clean s ->
  run OpSync s = Some (RBool true, s') -> exists C, but_flags (v_contents v) C /\ BF s' C (v_held v) ∅ /\ synced s s' C /\
    forall id, disk_read (bf_file s') id = C id.
Proof.
  intros L D R W DC E. destruct (reachable_represents _ _ L D _ _ R) as (C & B & I). rewrite W in I.
  assert (K : wp camel_block_file_sync (fun b s' => b = true -> exists C', but_flags C C' /\ BF s' C' (v_held v) ∅ /\ synced s s' C') s).
  { apply (wp_sync s C (v_held v) ∅ _ I); [intros s1 C' I' B' _ Y _; by exists C'|done]. }
  unfold run in E. unfold mbind, M_bind in E. destruct (camel_block_file_sync s) as [[b s1]|] eqn:E1; [|done].
  injection E as -> ->. destruct (wp_run _ _ _ _ _ K E1 eq_refl) as (C' & B' & I' & Y). exists C'.
  split_and!; try done; [by transitivity C|]. by eapply synced_disk.
Qed.

(** ** What is left when the program dies *)

(** Either the file says that it is inconsistent, or it has the blocks of [K]
    up to [L]. *)
Definition kept (K : Z -> list Z) (L : Z) (s : CamelBlockFile) (C : Z -> list Z) : Prop :=
  unsynced C /\ unsynced (disk_read (bf_file s)) \/
  ~ unsynced C /\ L <= word C 0 ROOT_LAST /\ (forall id, 0 < id < L -> disk_read (bf_file s) id = K id) /\
  forall p b, bf_heap s !! p = Some b -> bl_dirty b = true -> bl_id b = 0 \/ L <= bl_id b.

Lemma kept_calm K L s C P X s' : BF s C P X -> calm s s' -> kept K L s C -> kept K L s' C.
Proof.
  intros I [A B] [[U V]|(U & W & H & Dt)]; [left|right].
  - split; [exact U|]. unfold unsynced, word in *. destruct (B 0) as [->|(p & b & Hp & _ & E & ->)]; [exact V|].
    rewrite <- (bo_data _ _ _ _ _ _ (bq_heap _ _ _ _ _ I p b Hp)), E. exact U.
  - split_and!; [exact U|exact W| |].
    + intros id Hid. destruct (B id) as [->|(p & b & Hp & D & E & _)]; [by apply H|]. destruct (Dt p b Hp D); lia.
    + intros p b Hp D. destruct (A p b Hp D) as (b0 & H0 & D0 & <- & _). by apply (Dt p b0).
Qed.

Lemma kept_local K L s C s' C' N : local N s s' -> word C' 0 ROOT_FLAGS = word C 0 ROOT_FLAGS ->
  (L <= word C 0 ROOT_LAST -> L <= word C' 0 ROOT_LAST /\ forall id, N id -> id = 0 \/ L <= id) -> kept K L s C -> kept K L s' C'.
Proof.
  intros (_ & F & A) E R [[U V]|(U & W & H & Dt)]; [left|right]; unfold unsynced in *; rewrite E, F.
  - by split.
  - destruct (R W) as [R1 R2]. split_and!; [exact U|exact R1|exact H|]. intros p b Hp D.
    destruct (A p b Hp D) as [Hn|(b0 & H0 & D0 & <-)]; [by apply R2|by apply (Dt p b0)].
Qed.

Lemma kept_touch K L id s C s' C' : touched id s C s' C' -> ok_io s -> kept K L s C -> kept K L s' C'.
Proof.
  intros [(Lc & -> & T)|[U V]] O H; [|left; split; [exact U|by apply V]]. destruct T as [T| ->].
  - left. destruct Lc as (_ & F & _). destruct H as [[_ V]|(U & _)]; [|done]. by rewrite F.
  - eapply kept_local; [exact Lc|done| |exact H]. intros HL. split; [exact HL|]. by intros id <-; left.
Qed.

(** The flag of consistency was cleared in the root block, as the first
    [camel_block_file_touch_block] of another block after a sync does. *)
Definition flag_cleared (s : CamelBlockFile) : bool :=
  match r ← bf_root s; bf_heap s !! r with
  | Some b => Z.land (default 0 (bl_data b !! ROOT_FLAGS)) CAMEL_BLOCK_FILE_SYNC =? 0
  | None => false
  end.

(** The operations between two syncs that keep the blocks of the first one
    safe.  As long as the flag is set, blocks may not be freed nor taken from
    the list of free blocks, since neither clears it: new blocks come from the
    end of the file, which is below 4 GB, and the block file's own words are
    not written.  Once it is cleared every operation is safe. *)
Definition ordinary (o : op) (s : CamelBlockFile) (v : view) : Prop :=
  match o with
  | OpSync | OpOffline => False
  | OpFree _ => flag_cleared s = true
  | OpWrite bl i _ => flag_cleared s = true \/ forall h, v_held v !! bl = Some h -> h_id h = 0 -> (6 <= i)%nat
  | OpNew => flag_cleared s = true \/
      word (v_contents v) 0 ROOT_FREE = 0 /\ 0 <= word (v_contents v) 0 ROOT_LAST < 2 ^ 32 - CAMEL_BLOCK_SIZE
  | _ => True
  end.

Inductive works : CamelBlockFile -> view -> CamelBlockFile -> view -> Prop :=
  | works_nil s v : works s v s v
  | works_step s v s1 v1 o r s2 : works s v s1 v1 -> allowed o v1 -> ordinary o s1 v1 -> run o s1 = Some (r, s2) -> works s v s2 (after o r v1).

Lemma word_put_ne C id i v j : i <> j \/ id <> 0 -> word (put_word C id i v) 0 j = word C 0 j.
Proof.
  intros N. unfold word, put_word, put. destruct (decide (0 = id)) as [<-|]; [|done]. destruct N as [N|N]; [|done].
  by rewrite list_lookup_insert_ne.
Qed.

Lemma word_put_block C id d j : id <> 0 -> word (put C id d) 0 j = word C 0 j.
Proof. intros N. unfold word, put. by rewrite decide_False by congruence. Qed.

(** Allocating at the end of the file. *)
Lemma alloc_words C i : word C 0 ROOT_FREE = 0 -> valid_block C (next_id C) = true -> length (C 0) = WORDS ->
  next_id C = word C 0 ROOT_LAST /\ word (alloc_contents C) 0 i = if decide (i = ROOT_LAST) then u32 (word C 0 ROOT_LAST + CAMEL_BLOCK_SIZE) else word C 0 i.
Proof.
  intros F V L. unfold alloc_contents. unfold next_id in *. rewrite F in *. cbn [Z.eqb] in *. split; [done|].
  assert (N : word C 0 ROOT_LAST <> 0).
  { intros E. unfold valid_block in V. rewrite E in V. cbn in V. done. }
  rewrite word_put_block by done. destruct (decide (i = ROOT_LAST)) as [->|Ni]; [|by apply word_put_ne; left].
  unfold word at 1, put_word. rewrite put_eq, list_lookup_insert_eq by (rewrite L; unfold ROOT_LAST, WORDS; lia). done.
Qed.

Definition keeps (K : Z -> list Z) (L : Z) (s : CamelBlockFile) (v : view) : Prop :=
  exists C, but_flags (v_contents v) C /\ BF s C (v_held v) (v_written v) /\ kept K L s C.

Lemma flag_unsynced s C P X : BF s C P X -> flag_cleared s = true -> unsynced C.
Proof.
  intros I. unfold flag_cleared. destruct (bq_root _ _ _ _ _ I) as (r & n & -> & Hr). cbn.
  destruct (bf_held I r _ Hr) as (b & Hb & E & _). rewrite Hb. injection E as E _ _. rewrite <- (bo_data _ _ _ _ _ _ (bq_heap _ _ _ _ _ I r b Hb)), <- E.
  apply Z.eqb_eq.
Qed.

Lemma kept_cleared K L s C : kept K L s C -> unsynced C -> unsynced (disk_read (bf_file s)).
Proof. by intros [[_ V]|[U _]]. Qed.

(** A step that changes words of blocks when the flag is cleared. *)
Lemma kept_local_cleared K L s C s' C' N : unsynced C -> local N s s' -> word C' 0 ROOT_FLAGS = word C 0 ROOT_FLAGS -> kept K L s C -> kept K L s' C'.
Proof. intros U (_ & F & _) E H. left. unfold unsynced in *. rewrite E, F. split; [exact U|by apply (kept_cleared K L s C)]. Qed.

Lemma alloc_flags C : next_id C <> 0 -> word (alloc_contents C) 0 ROOT_FLAGS = word C 0 ROOT_FLAGS.
Proof.
  intros N. unfold alloc_contents. unfold next_id in *. destruct (word C 0 ROOT_FREE =? 0); (rewrite word_put_block by done; by apply word_put_ne; left).
Qed.

Lemma gettable_not_root s C P X id : BF s C P X -> gettable P id -> id <> 0.
Proof. intros I G ->. destruct (bq_root _ _ _ _ _ I) as (r & n & _ & Hr). destruct (G r _ Hr eq_refl) as [D _]. done. Qed.

Lemma keeps_new K L s C C0 P X : but_flags C0 C -> BF s C P X -> kept K L s C -> gettable P (next_id C0) ->
  flag_cleared s = true \/ word C0 0 ROOT_FREE = 0 /\ 0 <= word C0 0 ROOT_LAST < 2 ^ 32 - CAMEL_BLOCK_SIZE ->
  wp camel_block_file_new_block (fun bl s' => keeps K L s' (after OpNew (RBlock bl) (View C0 P X))) s.
Proof.
  intros E I H A R. rewrite <- (bf_next_id E) in A. rewrite <- !(bf_root_word E) in R by done.
  apply (wp_new_block s C P X); [done|done| |]; [intros p s' V I' F (s1 & [_ Q] & Lc)|intros s' I' [_ Q] U].
  - rewrite (bf_next_id E) in I'. exists (alloc_contents C). split_and!; [by apply bf_alloc|exact I'|].
    pose proof (kept_calm _ _ _ _ _ _ _ I Q H) as H1. pose proof (gettable_not_root _ _ _ _ _ I A) as NR.
    destruct R as [R|[R1 R2]].
    { apply flag_unsynced with (1 := I) in R. eapply kept_local_cleared; [exact R|exact Lc|by apply alloc_flags|exact H1]. }
    destruct (alloc_words C ROOT_LAST R1 V (bf_len I 0)) as [EN E2].
    eapply kept_local; [exact Lc|by apply alloc_flags| |exact H1]. rewrite E2, EN. rewrite decide_True by done.
    intros HL. unfold u32, CAMEL_BLOCK_SIZE in *. rewrite Z.mod_small by lia. split; [lia|]. by intros id [->| ->]; [left|right].
  - exists C. split_and!; [done|done|exact (kept_calm _ _ _ _ _ _ _ I Q H)].
Qed.

Lemma keeps_step K L s v o : ok_io s -> keeps K L s v -> allowed o v -> ordinary o s v -> wp (run o) (fun r s' => keeps K L s' (after o r v)) s.
Proof.
  intros O (C & E & I & H) A R. destruct v as [C0 P X]. cbn in E, I. destruct o; cbn in A; unfold own_word in A; cbn in A, R; cbn [run]; try done.
  - apply wp_then, (wp_get_any s C P X I); [done| |]; [intros p s' V I' F [_ Q]|intros s' I' [_ Q] U]; exists C; (split_and!; [done|done|exact (kept_calm _ _ _ _ _ _ _ I Q H)]).
  - apply wp_then. by apply (keeps_new K L s C C0 P X).
  - apply wp_then, (wp_free_block s C P X); [done|done| |]; apply flag_unsynced with (1 := I) in R; pose proof (kept_cleared _ _ _ _ H R) as V.
    + intros s' _ I' _ St. eexists. split_and!; [|exact I'|].
      * rewrite (bf_root_word E) by done. apply bf_put_word; [|by intros [_ ?]]. apply (bf_put_word E). by intros [_ ?].
      * left. split; [by repeat apply unsynced_put|by apply St].
    + intros s' I' _ St _. exists C. split_and!; [done|done|left; split; [done|by apply St]].
  - destruct A as (id & n & A). eapply wp_then, wp_detach; [exact I|exact A|]. intros s' I' [_ Q]. cbn. rewrite A. exists C. split_and!; [done|done|exact (kept_calm _ _ _ _ _ _ _ I Q H)].
  - destruct A as ([id n dt] & A & HL & N). eapply wp_then, wp_word; [exact I|exact A|exact HL|]. by exists C.
  - destruct A as ([id n dt] & A & HL & N). eapply wp_then, wp_put_word; [exact I|exact A|exact HL|]. intros s' I' Lc. cbn. rewrite A.
    eexists. split_and!; [by apply (bf_put_word E)|exact I'|]. destruct R as [R|R].
    { apply flag_unsynced with (1 := I) in R. eapply kept_local_cleared; [exact R|exact Lc| |exact H]. apply word_put_ne.
      cbn in N. destruct (decide (id = 0)); [left|by right]. intros ->. by apply N. }
    specialize (R _ A). cbn in R.
    assert (W : forall j, (j < 6)%nat -> word (put_word C id i v) 0 j = word C 0 j).
    { intros j Hj. apply word_put_ne. destruct (decide (id = 0)) as [->|]; [left; specialize (R eq_refl); lia|by right]. }
    eapply kept_local; [exact Lc|apply W; unfold ROOT_FLAGS; lia| |exact H]. rewrite W by (unfold ROOT_LAST; lia). done.
  - destruct A as [h A]. eapply wp_then, wp_touch; [exact I|exact A|]. intros s' C' I' B' St T. exists C'. split_and!; [by transitivity C|exact I'|].
    by eapply kept_touch.
  - destruct A as ([id n dt] & A & N & D). eapply wp_then, wp_unref; [exact I|exact A|exact N|exact D|]. intros s' I' [_ Q]. exists C. split_and!; [done|done|exact (kept_calm _ _ _ _ _ _ _ I Q H)].
  - destruct A as [h A]. eapply wp_then, wp_camel_sync_block; [exact I|exact A| |]; intros s' I' [_ Q] U; exists C; (split_and!; [done|done|exact (kept_calm _ _ _ _ _ _ _ I Q H)]).
  - apply wp_then, wp_modify. exists C. split_and!; [done|eapply BFq_core; [|exact I]; done|]. eapply kept_calm; [exact I|by apply calm_same|exact H].
Qed.

Lemma works_keeps K L s v s' v' : works s v s' v' -> ok_io s -> keeps K L s v -> ok_io s' /\ keeps K L s' v'.
Proof.
  induction 1 as [|s v s1 v1 o r s2 _ IH A R E]; [done|]. intros O H. destruct (IH O H) as [O1 K1]. split.
  - destruct K1 as (C & B & I & _). pose proof (refines_step s1 v1 o (ex_intro _ C (conj B I)) A) as W.
    by destruct (wp_run _ _ _ _ _ W E) as (_ & [_ O2] & _).
  - exact (wp_run _ _ _ _ _ (keeps_step K L s1 v1 o O1 K1 A R) E).
Qed.

(** ** Runs that can be computed *)

Definition gettableb (P : gmap loc held) (id : Z) : bool :=
  forallb (fun '(_, h) => negb (h_id h =? id) || negb (h_detached h) && (h_refs h + 1 <? 2 ^ 32)) (map_to_list P).

Definition allowedb (o : op) (v : view) : bool :=
  match o with
  | OpGet id | OpFree id => gettableb (v_held v) id
  | OpNew => gettableb (v_held v) (next_id (v_contents v))
  | OpDetach bl => match v_held v !! bl with Some h => negb (h_detached h) | None => false end
  | OpRead bl i | OpWrite bl i _ =>
      match v_held v !! bl with Some h => (i <? WORDS)%nat && negb ((h_id h =? 0) && (i =? ROOT_FLAGS)%nat) | None => false end
  | OpTouch bl | OpSyncBlock bl => match v_held v !! bl with Some _ => true | None => false end
  | OpUnref bl => match v_held v !! bl with
      | Some h => negb (bool_decide (bl ∈ v_written v)) && negb (h_detached h && (h_refs h =? 1)) | None => false end
  | OpSync | OpOffline | OpLimit _ => true
  end.

Definition ordinaryb (o : op) (s : CamelBlockFile) (v : view) : bool :=
  match o with
  | OpSync | OpOffline => false
  | OpFree _ => flag_cleared s
  | OpWrite bl i _ => flag_cleared s || match v_held v !! bl with Some h => negb (h_id h =? 0) || (6 <=? i)%nat | None => false end
  | OpNew => flag_cleared s || (word (v_contents v) 0 ROOT_FREE =? 0) && (0 <=? word (v_contents v) 0 ROOT_LAST) && (word (v_contents v) 0 ROOT_LAST <? 2 ^ 32 - CAMEL_BLOCK_SIZE)
  | _ => true
  end.

(** The states of a run of operations that pass [p]. *)
Fixpoint play (p : op -> CamelBlockFile -> view -> bool) (l : list op) (s : CamelBlockFile) (v : view) : option (CamelBlockFile * view) :=
  match l with
  | [] => Some (s, v)
  | o :: l => if p o s v then match run o s with Some (r, s') => play p l s' (after o r v) | None => None end else None
  end.

Lemma gettableb_ok P id : gettableb P id = true -> gettable P id.
Proof.
  unfold gettableb. rewrite forallb_forall. intros H p h Hp <-. specialize (H (p, h)). cbn in H. rewrite Z.eqb_refl in H. cbn in H.
  assert (K : negb (h_detached h) && (h_refs h + 1 <? 2 ^ 32) = true) by (apply H; apply list_elem_of_In; by apply elem_of_map_to_list).
  apply andb_true_iff in K as [K1 K2]. split; [by apply negb_true_iff|by apply Z.ltb_lt].
Qed.

Lemma allowedb_ok o v : allowedb o v = true -> allowed o v.
Proof.
  destruct o; cbn; try done; try by apply gettableb_ok.
  all: unfold own_word; destruct (v_held v !! _) as [[id n dt]|] eqn:E; try done; cbn.
  - intros H. exists id, n. by apply negb_true_iff in H as ->.
  - intros [H1 H2]%andb_true_iff. eexists. split_and!; [done|apply Nat.leb_le in H1; unfold WORDS; lia|]. cbn. intros [E1 E2]. by rewrite E1, E2 in H2.
  - intros [H1 H2]%andb_true_iff. eexists. split_and!; [done|apply Nat.leb_le in H1; unfold WORDS; lia|]. cbn. intros [E1 E2]. by rewrite E1, E2 in H2.
  - intros [H1 H2]%andb_true_iff. eexists. split_and!; [done|by apply negb_true_iff, bool_decide_eq_false in H1|].
    cbn. intros -> ->. done.
Qed.

Lemma ordinaryb_ok o s v : ordinaryb o s v = true -> ordinary o s v.
Proof.
  destruct o; cbn [ordinaryb ordinary]; try done.
  - intros [H|[[H1 H2]%andb_true_iff H3]%andb_true_iff]%orb_true_iff; [by left|right].
    apply Z.eqb_eq in H1. apply Z.leb_le in H2. apply Z.ltb_lt in H3. lia.
  - intros [H|H]%orb_true_iff; [by left|right]. revert H. destruct (v_held v !! bl) as [h|]; [|done]. intros H h' [= <-] E. rewrite E in H. by apply Nat.leb_le in H.
Qed.

Lemma play_reachable version f l : forall s v s' v', reachable version f s v -> play (fun o _ => allowedb o) l s v = Some (s', v') -> reachable version f s' v'.
Proof.
  induction l as [|o l IH]; intros s v s' v' R; cbn; [by intros [= <- <-]|].
  destruct (allowedb o v) eqn:A; [|done]. destruct (run o s) as [[r s1]|] eqn:E; [|done]. apply IH.
  eapply reach_step; [exact R|by apply allowedb_ok|exact E].
Qed.

Lemma play_works s0 v0 l : forall s v s' v', works s0 v0 s v -> play (fun o s v => allowedb o v && ordinaryb o s v) l s v = Some (s', v') -> works s0 v0 s' v'.
Proof.
  induction l as [|o l IH]; intros s v s' v' R; cbn; [by intros [= <- <-]|].
  destruct (allowedb o v && ordinaryb o s v) eqn:A; [|done]. apply andb_true_iff in A as [A1 A2].
  destruct (run o s) as [[r s1]|] eqn:E; [|done]. apply IH. eapply works_step; [exact R|by apply allowedb_ok|by apply ordinaryb_ok|exact E].
Qed.

(** A file that is made with one block, in which a word is written. *)
Definition sample_version : list Z := [1; 2].
Definition sample_disk : disk := Disk 0 ∅.
Definition sample_new : CamelBlockFile :=
  match camel_block_file_new (block_file_init sample_version sample_disk []) with Some (_, s) => s | None => block_file_init [] sample_disk [] end.
Definition sample_view : view := View (disk_read (bf_file sample_new)) root_held ∅.
Definition played (p : op -> CamelBlockFile -> view -> bool) (l : list op) (s : CamelBlockFile) (v : view) : CamelBlockFile * view := default (s, v) (play p l s v).
Definition sample : CamelBlockFile * view := played (fun o _ => allowedb o) [OpNew; OpWrite 2%positive 3 7; OpTouch 2%positive; OpUnref 2%positive] sample_new sample_view.

Lemma sample_new_reachable : reachable sample_version sample_disk sample_new sample_view.
Proof. apply (reach_new _ _ []). vm_compute. reflexivity. Qed.

(** ** The properties *)

(** C7. The cache cannot be seen: opening a file and every operation that
    keeps to the rules end without an access to a block that was freed, the
    answers are those of a store of blocks, and an operation that needs no
    failing call of the system succeeds. *)
Theorem block_file_transparent version f : length version = 2%nat -> disk_ok f ->
  (forall io, exists b s, camel_block_file_new (block_file_init version f io) = Some (b, s)) /\
  (forall s v o, reachable version f s v -> allowed o v ->
    exists r s', run o s = Some (r, s') /\ answers o v r /\ (ok_io s -> served o v r /\ ok_io s') /\ reachable version f s' (after o r v)).
Proof.
  intros L D. split; [intros io; by apply new_runs|]. intros s v o R A.
  destruct (reachable_step version f L D s v o R A) as (r & s' & E & (K1 & K2 & _) & R'). by exists r, s'.
Qed.


(** C9. When the program dies between a sync and the next sync or closing of the
    file, a file that validates has the blocks of that sync: what was written
    since is lost, or the file is known to be inconsistent.  The conditions: no
    call of the system failed before and at the sync, every block written to was
    touched before it and none was detached with changes ([detached_clean]); and
    from the sync on the callers keep to the rules and to [ordinary]: as long as
    no [camel_block_file_touch_block] has cleared the flag of consistency, no
    block is freed or taken from the list of free blocks, the words of the root
    block that are the block file's own are not written and the file stays below
    4 GB.  Once the flag is cleared all operations are covered.  The condition is
    needed: [free_leaves_flag] is a run where it fails and so does the claim. *)
Theorem block_file_crash_safe version f s v r s1 s2 v2 id : length version = 2%nat -> disk_ok f -> reachable version f s v -> ok_io s ->
  v_written v = ∅ -> detached_clean s -> run OpSync s = Some (r, s1) -> works s1 v s2 v2 ->
  disk_valid version (bf_file s2) = true -> 0 < id < word (v_contents v) 0 ROOT_LAST -> disk_read (bf_file s2) id = v_contents v id.
Proof.
  intros L D R O W DC E Wk V Hid.
  pose proof (refines_step s v OpSync (reachable_represents _ _ L D _ _ R) Logic.I) as St. apply (wp_run _ _ _ _ _ St) in E as H.
  destruct H as (An & Sv & _). destruct (Sv O) as [Sv1 O1]. destruct r as [| |b|]; try done. cbn in Sv1. subst b.
  destruct (sync_writes version f s v s1 L D R W DC E) as (C & B & I & (DF & Y & K3) & K).
  assert (Kp : keeps (v_contents v) (word (v_contents v) 0 ROOT_LAST) s1 v).
  { exists C. rewrite W. split_and!; [done|done|]. right. split_and!; [exact Y|by rewrite (bf_root_word B)| |].
    - intros i Hi. rewrite K. destruct B as [B _]. apply B. lia.
    - intros p b Hp Dp. left. destruct (decide (bl_id b = 0)) as [|N]; [done|]. exfalso. destruct (bl_detached b) eqn:DT.
      + destruct (DF p b Hp Dp) as (b0 & H0 & D0 & T0 & E0). rewrite (DC p b0) in D0; [done|done|congruence|congruence].
      + rewrite (K3 p b) in Dp; [done|done|by left]. }
  destruct (works_keeps _ _ _ _ _ _ Wk O1 Kp) as [_ (C2 & _ & _ & [[_ U]|(_ & _ & H & _)])]; [|by apply H].
  exfalso. unfold disk_valid in V. unfold unsynced, word in U. rewrite U in V. by rewrite orb_true_r in V.
Qed.

(** ** Witnesses *)

Lemma block_file_transparent_witness : exists r s', run OpNew sample_new = Some (r, s') /\ answers OpNew sample_view r.
Proof.
  assert (A : allowed OpNew sample_view) by (apply allowedb_ok; vm_compute; reflexivity).
  assert (D : disk_ok sample_disk) by (intros i d; cbn; by rewrite lookup_empty).
  destruct (block_file_transparent sample_version sample_disk eq_refl D) as [_ T].
  destruct (T sample_new sample_view OpNew sample_new_reachable A) as (r & s' & E & An & _). exists r, s'. split; assumption.
Defined.

Lemma detached_clean_b s : forallb (fun '(_, b) => negb (bl_detached b) || (bl_id b =? 0) || negb (bl_dirty b)) (map_to_list (bf_heap s)) = true ->
  detached_clean s.
Proof.
  rewrite forallb_forall. intros H p b Hp D N. specialize (H (p, b)). cbn in H. rewrite D in H. apply Z.eqb_neq in N. rewrite N in H. cbn in H.
  apply negb_true_iff, H, list_elem_of_In. by apply elem_of_map_to_list.
Qed.

Lemma sample_reachable : reachable sample_version sample_disk (fst sample) (snd sample).
Proof.
  apply (play_reachable sample_version sample_disk [OpNew; OpWrite 2%positive 3 7; OpTouch 2%positive; OpUnref 2%positive] sample_new sample_view);
    [apply sample_new_reachable|]. unfold sample, played. set (o := play _ _ _ _). assert (E : is_Some o) by (vm_compute; eauto).
  destruct E as [[s v] ->]. reflexivity.
Qed.

Lemma sample_disk_ok : disk_ok sample_disk.
Proof. intros i d. cbn. by rewrite lookup_empty. Qed.

(** The sample after it was synced. *)
Definition sample_synced : CamelBlockFile := match run OpSync (fst sample) with Some (_, s) => s | None => fst sample end.


(** The program dies after it asked for a new block. *)
Definition sample_died : CamelBlockFile * view := played (fun o s v => allowedb o v && ordinaryb o s v) [OpNew; OpLimit 0; OpGet 1024] sample_synced (snd sample).

Lemma block_file_crash_safe_witness : disk_read (bf_file (fst sample_died)) 1024 = v_contents (snd sample) 1024.
Proof.
  apply (block_file_crash_safe sample_version sample_disk (fst sample) (snd sample) (RBool true) sample_synced (fst sample_died) (snd sample_died) 1024 eq_refl sample_disk_ok sample_reachable).
  - split; vm_compute; reflexivity.
  - vm_compute. reflexivity.
  - apply detached_clean_b. vm_compute. reflexivity.
  - vm_compute. reflexivity.
  - apply (play_works _ _ [OpNew; OpLimit 0; OpGet 1024] sample_synced (snd sample)); [apply works_nil|].
    unfold sample_died, played. set (o := play _ _ _ _). assert (E : is_Some o) by (vm_compute; eauto). destruct E as [[s v] ->]. reflexivity.
  - vm_compute. reflexivity.
  - vm_compute. split; reflexivity.
Defined.


(** ** What the rules leave out *)

(** When the process has too many block files open, [block_file_use] of another
    one closes this one: the flag of consistency is set on disk although a
    block that was taken out of the cache is not written. *)
Definition offline_sample : CamelBlockFile * view :=
  played (fun o _ => allowedb o) [OpNew; OpDetach 2%positive; OpWrite 2%positive 3 7; OpTouch 2%positive; OpNew; OpUnref 3%positive; OpOffline] sample_new sample_view.

Lemma offline_detached_lost :
  disk_valid sample_version (bf_file (fst offline_sample)) = true /\
  word (v_contents (snd offline_sample)) 1024 3 = 7 /\ word (disk_read (bf_file (fst offline_sample))) 1024 3 = 0.
Proof. vm_compute. by repeat split. Qed.

(** Blocks that were taken out of the cache are counted as blocks of the cache:
    the limit gets smaller with each of them. *)
Lemma detached_blocks_counted :
  block_cache_count (fst offline_sample) = 3 /\ length (block_cache (fst offline_sample)) = 1%nat.
Proof. vm_compute. by split. Qed.


(** [camel_block_file_free_block] marks the block it changes as dirty and leaves
    the flag of consistency: when the cache writes the block to make place for
    another one and the program dies, the file validates although the block has
    not what the sync wrote. *)
Definition freed_synced : CamelBlockFile * view :=
  played (fun o _ => allowedb o) [OpNew; OpWrite 2%positive 0 7; OpTouch 2%positive; OpUnref 2%positive; OpNew; OpUnref 3%positive; OpSync]
    sample_new sample_view.
Definition freed_reopened : CamelBlockFile :=
  match camel_block_file_new (block_file_init sample_version (bf_file (fst freed_synced)) []) with
  | Some (_, s) => s
  | None => fst freed_synced
  end.
Definition freed_sample : CamelBlockFile * view :=
  played (fun o _ => allowedb o) [OpFree 1024; OpLimit 0; OpGet 2048] freed_reopened
    (View (disk_read (bf_file freed_reopened)) root_held ∅).

Lemma free_leaves_flag :
  disk_valid sample_version (bf_file freed_reopened) = true /\ word (disk_read (bf_file freed_reopened)) 1024 0 = 7 /\
  flag_cleared (fst freed_sample) = false /\
  disk_valid sample_version (bf_file (fst freed_sample)) = true /\ word (disk_read (bf_file (fst freed_sample))) 1024 0 = 0.
Proof. vm_compute. by repeat split. Qed.
