(* ===== verification/KeyTable.v ===== *)
(** * KeyTable: the keys of the full-text index
    (the second half of camel/camel-partition-table.c, and its header)

    A key table gives every key that is added a number, and finds the key, a
    block and flags under the number.  Its blocks are a list; a block has the
    records of its keys from the front and their characters from the back.  All
    of it is read and written through a block file.  The bit-field of a record
    is laid out as the compilers for the usual platforms do, the offset in the
    low bits, and the words are little endian. *)

From stdpp Require Import base list numbers gmap.
From Stdlib Require Import ZArith Lia.
From S2P Require Import Prelude BlockFile.

(** ** Characters of a block *)

Definition wbyte (w : Z) (j : nat) : Z := Z.land (Z.shiftr w (8 * Z.of_nat j)) 255.
Definition wset (w : Z) (j : nat) (c : Z) : Z :=
  Z.lor (Z.ldiff w (Z.shiftl 255 (8 * Z.of_nat j))) (Z.shiftl c (8 * Z.of_nat j)).

Definition get_byte (p : loc) (k : nat) : M Z := w ← get_word p (k / 4); mret (wbyte w (k mod 4)).
Definition set_byte (p : loc) (k : nat) (c : Z) : M unit :=
  w ← get_word p (k / 4); set_word p (k / 4) (wset w (k mod 4) c).

(** [memcpy] out of and into the data of a block, from the byte [k] on. *)
Fixpoint get_bytes (p : loc) (k n : nat) : M (list Z) :=
  match n with O => mret [] | S n => c ← get_byte p k; l ← get_bytes p (S k) n; mret (c :: l) end.
Fixpoint set_bytes (p : loc) (k : nat) (l : list Z) : M unit :=
  match l with [] => mret tt | c :: l => set_byte p k c;; set_bytes p (S k) l end.

(** ** The blocks of a key table *)

(** [CamelKeyRootBlock] *)
Definition KR_FIRST : nat := 0.
Definition KR_LAST : nat := 1.

(** [CamelKeyBlock]: [keydata] starts behind [next] and [used]. *)
Definition KB_NEXT : nat := 0.
Definition KB_USED : nat := 1.
Definition KEYDATA : nat := 8.
Definition SIZEOF_KEYDATA : Z := 1016.
Definition SIZEOF_KEY : Z := 8.
Definition CAMEL_KEY_TABLE_MAX_KEY : Z := 128.

Definition key_data (i : Z) : nat := Z.to_nat (2 + 2 * i).
Definition key_bits (i : Z) : nat := Z.to_nat (3 + 2 * i).

(** [guint offset : 10; guint flags : 22]. *)
Definition offset_of (w : Z) : Z := w mod 1024.
Definition flags_of (w : Z) : Z := w / 1024.
Definition with_offset (w off : Z) : Z := off mod 1024 + 1024 * flags_of w.
Definition with_flags (w fl : Z) : Z := offset_of w + 1024 * (fl mod 2 ^ 22).

Definition get_offset (p : loc) (i : Z) : M Z := w ← get_word p (key_bits i); mret (offset_of w).
Definition get_flags (p : loc) (i : Z) : M Z := w ← get_word p (key_bits i); mret (flags_of w).

(** The object: its root block, which is taken out of the cache. *)
Record CamelKeyTable := mkKeyTable { kt_root_block : loc }.

Definition key_block (keyid : Z) : Z := Z.ldiff keyid (CAMEL_BLOCK_SIZE - 1).
Definition key_index (keyid : Z) : Z := Z.land keyid (CAMEL_BLOCK_SIZE - 1).

Definition camel_key_table_new (root : Z) : M (option CamelKeyTable) :=
  bl ← camel_block_file_get_block root;
  match bl with
  | None => mret None
  | Some bl => camel_block_file_detach_block bl;; mret (Some (mkKeyTable bl))
  end.

Definition camel_key_table_sync (ki : CamelKeyTable) : M bool := camel_block_file_sync_block (kt_root_block ki).

(** ** Adding a key *)

(** The block that takes the key: the last one, or a new one behind it. *)
Definition key_last_block (ki : CamelKeyTable) : M (option loc) :=
  last ← get_word (kt_root_block ki) KR_LAST;
  if last =? 0 then
    bl ← camel_block_file_new_block;
    match bl with
    | None => mret None
    | Some bl =>
        b ← deref bl;
        set_word (kt_root_block ki) KR_FIRST (bl_id b);;
        set_word (kt_root_block ki) KR_LAST (bl_id b);;
        camel_block_file_touch_block (kt_root_block ki);;
        mret (Some bl)
    end
  else camel_block_file_get_block last.

Definition key_room (ki : CamelKeyTable) (last : loc) (len : Z) : M (option loc) :=
  used ← get_word last KB_USED;
  if used >? 0 then
    off ← get_offset last (used - 1);
    if off - SIZEOF_KEY * (used + 1) <? len then
      next ← camel_block_file_new_block;
      match next with
      | None => camel_block_file_unref_block last;; mret None
      | Some next =>
          b ← deref next;
          set_word last KB_NEXT (bl_id b);;
          set_word (kt_root_block ki) KR_LAST (bl_id b);;
          camel_block_file_touch_block (kt_root_block ki);;
          camel_block_file_touch_block last;;
          camel_block_file_unref_block last;;
          mret (Some next)
      end
    else mret (Some last)
  else mret (Some last).

(** The record and the characters, in the block that has the room. *)
Definition key_store (last : loc) (key : list Z) (data flags : Z) : M Z :=
  let len := Z.of_nat (length key) in
  used ← get_word last KB_USED;
  offset ← (if used >? 0 then off ← get_offset last (used - 1); mret (off - len) else mret (SIZEOF_KEYDATA - len));
  bits ← get_word last (key_bits used);
  set_word last (key_bits used) (with_flags bits flags);;
  set_word last (key_data used) data;;
  bits ← get_word last (key_bits used);
  set_word last (key_bits used) (with_offset bits offset);;
  (if offset <? 0 then fail else set_bytes last (KEYDATA + Z.to_nat offset) key);;
  b ← deref last;
  let keyid := Z.lor (key_block (bl_id b)) used in
  set_word last KB_USED (used + 1);;
  if used + 1 >=? 127 then mret 0 else
  camel_block_file_touch_block last;;
  camel_block_file_unref_block last;;
  mret keyid.

Definition camel_key_table_add (ki : CamelKeyTable) (key : list Z) (data flags : Z) : M Z :=
  let key := take (Z.to_nat CAMEL_KEY_TABLE_MAX_KEY) key in
  last ← key_last_block ki;
  match last with
  | None => mret 0
  | Some last =>
      used ← get_word last KB_USED;
      if used >=? 127 then mret 0 else
      last ← key_room ki last (Z.of_nat (length key));
      match last with
      | None => mret 0
      | Some last => key_store last key data flags
      end
  end.

(** ** Reading and changing keys *)

Definition camel_key_table_set_data (ki : CamelKeyTable) (keyid data : Z) : M bool :=
  if keyid =? 0 then mret false else
  let index := key_index keyid in
  bl ← camel_block_file_get_block (key_block keyid);
  match bl with
  | None => mret false
  | Some bl =>
      old ← get_word bl (key_data index);
      (if old =? data then mret tt else set_word bl (key_data index) data;; camel_block_file_touch_block bl);;
      camel_block_file_unref_block bl;;
      mret true
  end.

Definition camel_key_table_set_flags (ki : CamelKeyTable) (keyid flags set : Z) : M bool :=
  if keyid =? 0 then mret false else
  let index := key_index keyid in
  bl ← camel_block_file_get_block (key_block keyid);
  match bl with
  | None => mret false
  | Some bl =>
      used ← get_word bl KB_USED;
      if (used >=? 127) || (index >=? used) then mret false else
      bits ← get_word bl (key_bits index);
      let old := flags_of bits in
      (if Z.land old set =? Z.land flags set then mret tt
       else set_word bl (key_bits index) (with_flags bits (Z.lor (Z.ldiff old set) (Z.land flags set)));;
            camel_block_file_touch_block bl);;
      camel_block_file_unref_block bl;;
      mret true
  end.

(** The characters of a key. *)
Definition key_chars (bl : loc) (index : Z) : M (list Z) :=
  off ← get_offset bl index;
  len ← (if index =? 0 then mret (SIZEOF_KEYDATA - off) else prev ← get_offset bl (index - 1); mret (prev - off));
  if len <? 0 then fail else get_bytes bl (KEYDATA + Z.to_nat off) (Z.to_nat len).

(** What a lookup gives: the data, the key if it is asked for, the flags. *)
Definition camel_key_table_lookup (ki : CamelKeyTable) (keyid : Z) (keyp : bool) : M (Z * option (list Z) * Z) :=
  if keyid =? 0 then mret (0, None, 0) else
  let index := key_index keyid in
  bl ← camel_block_file_get_block (key_block keyid);
  match bl with
  | None => mret (0, None, 0)
  | Some bl =>
      used ← get_word bl KB_USED;
      if (used >=? 127) || (index >=? used) then mret (0, None, 0) else
      data ← get_word bl (key_data index);
      flags ← get_flags bl index;
      key ← (if keyp : bool then k ← key_chars bl index; mret (Some k) else mret None);
      camel_block_file_unref_block bl;;
      mret (data, key, flags)
  end.

(** ** Going through all keys *)

(** The block of the next key, through empty blocks; the list may be a circle
    in a broken file, hence the fuel. *)
Fixpoint next_block (fuel : nat) (next : Z) : M (option (loc * Z)) :=
  match fuel with
  | O => fail
  | S fuel =>
      bl ← camel_block_file_get_block (key_block next);
      match bl with
      | None => mret None
      | Some bl =>
          used ← get_word bl KB_USED;
          if key_index next >=? used then
            next ← get_word bl KB_NEXT;
            camel_block_file_unref_block bl;;
            next_block fuel next
          else mret (Some (bl, next))
      end
  end.

Definition bad_offset (off used : Z) : bool := (off >=? SIZEOF_KEYDATA) || (off <? SIZEOF_KEY * used).

(** The number of the next key with its characters, flags and data. *)
Definition camel_key_table_next (fuel : nat) (ki : CamelKeyTable) (next : Z) : M (option (Z * list Z * Z * Z)) :=
  first ← get_word (kt_root_block ki) KR_FIRST;
  if (next =? 0) && (first =? 0) then mret None else
  found ← next_block fuel (if next =? 0 then first else u32 (next + 1));
  match found with
  | None => mret None
  | Some (bl, next) =>
      let index := key_index next in
      used ← get_word bl KB_USED;
      off ← get_offset bl index;
      bad ← (if bad_offset off used then mret true
             else if index >? 0 then prev ← get_offset bl (index - 1); mret (bad_offset prev used) else mret false);
      if bad : bool then camel_block_file_unref_block bl;; mret None else
      data ← get_word bl (key_data index);
      flags ← get_flags bl index;
      key ← key_chars bl index;
      camel_block_file_unref_block bl;;
      mret (Some (next, key, flags, data))
  end.
