(* ===== verification/KeyBlocks.v ===== *)
(** * KeyBlocks: the blocks of a key table as data

    How the characters and the records of a block of keys are laid out, and
    that a key is added behind the others without a change to them. *)

From stdpp Require Import base list numbers gmap functions.
From Stdlib Require Import ZArith Lia.
From S2P Require Import Prelude BlockFile BlockFileInv BlockFileOps KeyTable.

(** ** Bytes of a word *)

Lemma wbyte_spec w j i : 0 <= i -> Z.testbit (wbyte w j) i = Z.testbit w (i + 8 * Z.of_nat j) && (i <? 8).
Proof.
  intros Hi. unfold wbyte. change 255 with (Z.ones 8). rewrite Z.land_spec, Z.shiftr_spec by done. f_equal.
  destruct (Z.ltb_spec i 8); [by apply Z.ones_spec_low|by apply Z.ones_spec_high].
Qed.

Lemma byte_high c i : 0 <= c < 256 -> 8 <= i -> Z.testbit c i = false.
Proof. intros H Hi. apply Z.bits_above_log2; [lia|]. destruct (Z.eq_dec c 0) as [->|]; [cbn; lia|]. apply Z.log2_lt_pow2; [lia|]. apply Z.lt_le_trans with (2 ^ 8); [lia|]. by apply Z.pow_le_mono_r. Qed.

Lemma wset_spec w j c i : 0 <= i -> Z.testbit (wset w j c) i =
  Z.testbit w i && negb ((8 * Z.of_nat j <=? i) && (i <? 8 * Z.of_nat j + 8)) || (8 * Z.of_nat j <=? i) && Z.testbit c (i - 8 * Z.of_nat j).
Proof.
  intros Hi. unfold wset. change 255 with (Z.ones 8). rewrite Z.lor_spec, Z.ldiff_spec, !Z.shiftl_spec by done.
  destruct (Z.leb_spec (8 * Z.of_nat j) i).
  - rewrite !andb_true_l. f_equal. f_equal. f_equal. destruct (Z.ltb_spec i (8 * Z.of_nat j + 8)); [apply Z.ones_spec_low; lia|apply Z.ones_spec_high; lia].
  - rewrite !andb_false_l, !(Z.testbit_neg_r _ (i - _)) by lia. done.
Qed.

Lemma wbyte_wset_eq w j c : 0 <= c < 256 -> wbyte (wset w j c) j = c.
Proof.
  intros H. apply Z.bits_inj'. intros i Hi. rewrite wbyte_spec, wset_spec by lia. replace (i + 8 * Z.of_nat j - 8 * Z.of_nat j) with i by lia.
  rewrite (proj2 (Z.leb_le (8 * Z.of_nat j) (i + 8 * Z.of_nat j))) by lia. rewrite !andb_true_l.
  destruct (Z.ltb_spec i 8) as [L|L].
  - rewrite (proj2 (Z.ltb_lt (i + 8 * Z.of_nat j) (8 * Z.of_nat j + 8))) by lia. cbn. by rewrite andb_false_r, andb_true_r.
  - rewrite andb_false_r. symmetry. by apply byte_high.
Qed.

Lemma wbyte_wset_ne w j j' c : 0 <= c < 256 -> j <> j' -> wbyte (wset w j c) j' = wbyte w j'.
Proof.
  intros H N. apply Z.bits_inj'. intros i Hi. rewrite !wbyte_spec, wset_spec by lia. destruct (Z.ltb_spec i 8); [|by rewrite !andb_false_r].
  rewrite !andb_true_r. destruct (Z.leb_spec (8 * Z.of_nat j) (i + 8 * Z.of_nat j')) as [L|L]; [|by rewrite andb_true_r, orb_false_r].
  assert (K : 8 * Z.of_nat j + 8 <= i + 8 * Z.of_nat j') by lia.
  rewrite (proj2 (Z.ltb_ge _ _)) by lia. rewrite (byte_high c) by lia. cbn. by rewrite andb_true_r, orb_false_r.
Qed.

(** ** Characters of the data of a block *)

Definition getb (d : list Z) (k : nat) : Z := wbyte (default 0 (d !! (k / 4)%nat)) (k mod 4).
Definition setb (d : list Z) (k : nat) (c : Z) : list Z :=
  match d !! (k / 4)%nat with Some w => <[(k / 4)%nat := wset w (k mod 4) c]> d | None => d end.
Fixpoint copyb (d : list Z) (k : nat) (l : list Z) : list Z :=
  match l with [] => d | c :: l => copyb (setb d k c) (S k) l end.
Definition chars (d : list Z) (k n : nat) : list Z := map (getb d) (seq k n).

Lemma setb_length d k c : length (setb d k c) = length d.
Proof. unfold setb. destruct (d !! _); [apply length_insert|done]. Qed.

Lemma copyb_length l : forall d k, length (copyb d k l) = length d.
Proof. induction l as [|c l IH]; intros d k; cbn; [done|]. by rewrite IH, setb_length. Qed.

Lemma getb_setb_eq d k c : 0 <= c < 256 -> (k / 4 < length d)%nat -> getb (setb d k c) k = c.
Proof.
  intros H L. unfold getb, setb. destruct (lookup_lt_is_Some_2 d (k / 4) L) as [w E]. rewrite E, list_lookup_insert_eq by done.
  by apply wbyte_wset_eq.
Qed.

Lemma getb_setb_ne d k k' c : 0 <= c < 256 -> k <> k' -> getb (setb d k c) k' = getb d k'.
Proof.
  intros H N. unfold getb, setb. destruct (d !! (k / 4)%nat) as [w|] eqn:E; [|done].
  destruct (decide (k / 4 = k' / 4)%nat) as [E4|N4].
  - rewrite <- E4, list_lookup_insert_eq by (by eapply lookup_lt_Some). rewrite E. cbn [default from_option id]. apply wbyte_wset_ne; [done|].
    intros M. apply N. pose proof (Nat.div_mod_eq k 4). pose proof (Nat.div_mod_eq k' 4). lia.
  - by rewrite list_lookup_insert_ne.
Qed.

Lemma setb_word d k c i : i <> (k / 4)%nat -> setb d k c !! i = d !! i.
Proof. intros N. unfold setb. destruct (d !! (k / 4)%nat); [by rewrite list_lookup_insert_ne|done]. Qed.

Lemma copyb_word l : forall d k i, (i < k / 4)%nat -> copyb d k l !! i = d !! i.
Proof.
  induction l as [|c l IH]; intros d k i H; cbn; [done|]. rewrite IH by (eapply Nat.lt_le_trans; [exact H|]; apply Nat.Div0.div_le_mono; lia).
  apply setb_word. lia.
Qed.

Lemma copyb_getb l : forall d k j, Forall (fun c => 0 <= c < 256) l -> (j < k \/ k + length l <= j)%nat -> getb (copyb d k l) j = getb d j.
Proof.
  induction l as [|c l IH]; intros d k j F H; cbn in *; [done|]. inversion F; subst. rewrite IH; [|done|lia]. apply getb_setb_ne; [done|lia].
Qed.

Lemma chars_ext d d' k n : (forall j, (k <= j < k + n)%nat -> getb d' j = getb d j) -> chars d' k n = chars d k n.
Proof. intros H. unfold chars. apply map_ext_in. intros j Hj. apply in_seq in Hj. by apply H. Qed.

Lemma chars_copyb l : forall d k, Forall (fun c => 0 <= c < 256) l -> (k + length l <= 4 * length d)%nat -> chars (copyb d k l) k (length l) = l.
Proof.
  induction l as [|c l IH]; intros d k F L; cbn in *; [done|]. inversion F; subst. f_equal.
  - rewrite copyb_getb by (done || lia). apply getb_setb_eq; [done|]. apply Nat.Div0.div_lt_upper_bound. lia.
  - apply IH; [done|]. rewrite setb_length. lia.
Qed.

(** ** A block of keys *)

Record entry := Entry { e_key : list Z; e_data : Z; e_flags : Z }.

(** A key a table takes: some bytes, at most 128, none of them a NUL. *)
Definition good_key (key : list Z) : Prop := (0 < length key <= 128)%nat /\ Forall (fun c => 0 < c < 256) key.

Lemma good_bytes key : good_key key -> Forall (fun c => 0 <= c < 256) key.
Proof. intros [_ K]. eapply list.Forall_impl; [exact K|]. intros c. cbn. lia. Qed.

Definition fill (es : list entry) : nat := sum_list (map (fun e => length (e_key e)) es).

(** The record of the entry [i], its characters at the offset [off]. *)
Record slot (d : list Z) (i : nat) (off : nat) (e : entry) : Prop := {
  sl_data : d !! (2 + 2 * i)%nat = Some (e_data e);
  sl_bits : d !! (3 + 2 * i)%nat = Some (Z.of_nat off + 1024 * e_flags e);
  sl_flags : 0 <= e_flags e < 2 ^ 22;
  sl_key : good_key (e_key e);
  sl_chars : chars d (8 + off) (length (e_key e)) = e_key e }.

Record key_rep (d : list Z) (es : list entry) : Prop := {
  kr_length : length d = WORDS;
  kr_used : d !! 1%nat = Some (Z.of_nat (length es));
  kr_room : (8 * length es + fill es <= 1016)%nat;
  kr_slots : forall i e, es !! i = Some e -> slot d i (1016 - fill (take (S i) es)) e }.

Lemma fill_app es es' : fill (es ++ es') = (fill es + fill es')%nat.
Proof. unfold fill. by rewrite map_app, sum_list_with_app || (rewrite map_app; induction es; cbn; lia). Qed.

Lemma fill_ge es : (forall i e, es !! i = Some e -> good_key (e_key e)) -> (length es <= fill es)%nat.
Proof.
  induction es as [|e es IH]; intros H; [done|]. cbn. destruct (H 0%nat e eq_refl) as [[L _] _].
  assert (K : (length es <= fill es)%nat) by (apply IH; intros i; apply (H (S i))). unfold fill in K. lia.
Qed.

Lemma fill_take es i : (fill (take i es) <= fill es)%nat.
Proof. rewrite <- (take_drop i es) at 2. rewrite fill_app. lia. Qed.

Lemma key_rep_used d es : key_rep d es -> (9 * length es <= 1016)%nat.
Proof. intros [_ _ R S]. pose proof (fill_ge es (fun i e H => sl_key _ _ _ _ (S i e H))). lia. Qed.

(** An empty block, whatever it is linked to. *)
Lemma key_rep_zero : key_rep zero_block [].
Proof. constructor; [done|done|cbn; lia|done]. Qed.

(** A record behind those of a block. *)
Definition add_entry (d : list Z) (u off : nat) (key : list Z) (data flags : Z) : list Z :=
  let d := <[(3 + 2 * u)%nat := with_flags (default 0 (d !! (3 + 2 * u)%nat)) flags]> d in
  let d := <[(2 + 2 * u)%nat := data]> d in
  let d := <[(3 + 2 * u)%nat := with_offset (default 0 (d !! (3 + 2 * u)%nat)) (Z.of_nat off)]> d in
  <[1%nat := Z.of_nat (S u)]> (copyb d (8 + off) key).

Section AddEntry.
Context (d : list Z) (es : list entry) (R : key_rep d es) (key : list Z) (data flags : Z) (K : good_key key)
  (Room : (8 * S (length es) + fill es + length key <= 1016)%nat).
Let u := length es.
Let off := (1016 - fill es - length key)%nat.

Lemma add_entry_small i : i <> 1%nat -> i <> (2 + 2 * u)%nat -> i <> (3 + 2 * u)%nat -> (i < 4 + 2 * u)%nat -> add_entry d u off key data flags !! i = d !! i.
Proof.
  intros N1 N2 N3 L. unfold add_entry. rewrite list_lookup_insert_ne by done. rewrite copyb_word.
  - by rewrite !list_lookup_insert_ne by congruence.
  - apply Nat.div_le_lower_bound; [done|]. unfold u, off in *. lia.
Qed.

Lemma add_entry_length : length (add_entry d u off key data flags) = WORDS.
Proof. unfold add_entry. rewrite length_insert, copyb_length, !length_insert. apply R. Qed.

Lemma add_entry_getb j : (8 + off + length key <= j)%nat -> getb (add_entry d u off key data flags) j = getb d j.
Proof.
  intros L. assert (W : (4 + 2 * u <= j / 4)%nat) by (apply Nat.div_le_lower_bound; [done|]; unfold u, off in *; lia).
  unfold add_entry. set (d1 := <[(3 + 2 * u)%nat := _]> (<[_ := data]> _)).
  transitivity (getb (copyb d1 (8 + off) key) j); [unfold getb; by rewrite list_lookup_insert_ne by lia|].
  rewrite copyb_getb; [|by apply good_bytes|by right].
  unfold getb, d1. by rewrite !list_lookup_insert_ne by lia.
Qed.

Lemma add_entry_slot_old i e : es !! i = Some e -> slot (add_entry d u off key data flags) i (1016 - fill (take (S i) es)) e.
Proof.
  intros H. pose proof (lookup_lt_Some _ _ _ H) as L. destruct (kr_slots _ _ R i e H) as [S1 S2 S3 S4 S5].
  assert (F : (fill (take (S i) es) <= fill es)%nat) by apply fill_take.
  pose proof (kr_room _ _ R) as Rm. constructor; try done.
  - rewrite add_entry_small by (unfold u; lia). exact S1.
  - rewrite add_entry_small by (unfold u; lia). exact S2.
  - rewrite <- S5 at 2. apply chars_ext. intros j Hj. apply add_entry_getb. unfold off. lia.
Qed.

Lemma with_offset_flags w : with_offset (with_flags w flags) (Z.of_nat off) = Z.of_nat off + 1024 * (flags mod 2 ^ 22).
Proof.
  unfold with_offset, with_flags, flags_of, offset_of. rewrite (Z.mod_small (Z.of_nat off)) by (unfold off; lia).
  f_equal. rewrite (Z.mul_comm 1024 (flags mod _)), Z.div_add, (Z.div_small (w mod 1024)) by (try apply Z.mod_pos_bound; lia). lia.
Qed.

Lemma add_entry_slot_new : slot (add_entry d u off key data flags) u off (Entry key data (flags mod 2 ^ 22)).
Proof.
  assert (W : length d = WORDS) by apply R. pose proof (key_rep_used d es R) as U. fold u in U. unfold WORDS in W.
  assert (Lt : forall i, (i < 4 + 2 * u)%nat -> (i < (8 + off) / 4)%nat).
  { intros i Hi. apply Nat.lt_le_trans with (4 + 2 * u)%nat; [done|]. apply Nat.div_le_lower_bound; [done|]. unfold u, off in *. lia. }
  constructor; cbn [e_data e_flags e_key]; try done.
  - unfold add_entry. rewrite list_lookup_insert_ne, copyb_word by (lia || apply Lt; lia).
    rewrite list_lookup_insert_ne, list_lookup_insert_eq; [done|rewrite length_insert; lia|lia].
  - unfold add_entry. rewrite list_lookup_insert_ne, copyb_word by (lia || apply Lt; lia).
    rewrite list_lookup_insert_eq by (rewrite !length_insert; lia). f_equal.
    rewrite list_lookup_insert_ne, list_lookup_insert_eq by lia. apply with_offset_flags.
  - apply Z.mod_pos_bound. lia.
  - unfold add_entry. set (d1 := <[(3 + 2 * u)%nat := _]> (<[_ := data]> _)).
    assert (E : chars (<[1%nat := Z.of_nat (S u)]> (copyb d1 (8 + off) key)) (8 + off) (length key) = chars (copyb d1 (8 + off) key) (8 + off) (length key)).
    { apply chars_ext. intros j Hj. unfold getb. rewrite list_lookup_insert_ne; [done|].
      assert (4 + 2 * u <= j / 4)%nat by (apply Nat.div_le_lower_bound; [done|]; unfold u, off in *; lia). lia. }
    rewrite E. apply chars_copyb.
    + by apply good_bytes.
    + unfold d1. rewrite !length_insert, W. unfold off. lia.
Qed.

Lemma add_entry_rep : key_rep (add_entry d u off key data flags) (es ++ [Entry key data (flags mod 2 ^ 22)]).
Proof.
  assert (W : length d = WORDS) by apply R. unfold WORDS in W. constructor.
  - apply add_entry_length.
  - unfold add_entry. rewrite list_lookup_insert_eq by (rewrite copyb_length, !length_insert; lia). rewrite length_app. cbn. do 2 f_equal. unfold u. lia.
  - rewrite length_app, fill_app. cbn. lia.
  - intros i e H. apply lookup_app_Some in H as [H|[L H]].
    + rewrite take_app_le by (apply lookup_lt_Some in H; lia). by apply add_entry_slot_old.
    + apply list_lookup_singleton_Some in H as [E <-]. assert (i = u) as -> by (unfold u in *; lia).
      rewrite take_ge by (rewrite length_app; cbn; unfold u; lia). rewrite fill_app. cbn [fill map sum_list e_key].
      replace (1016 - _)%nat with off by (unfold off, fill; cbn; lia). apply add_entry_slot_new.
Qed.
End AddEntry.

(** ** The programs on one block of keys

    What storing a key, reading one and changing its record do to the contents
    of the block, as a caller of the block file sees them. *)

(** ** One block at a time *)

Lemma BF_put s C P X id d : BF s C P X -> C id = d -> BF s (put C id d) P X.
Proof. intros I <-. eapply BFq_ext; [|exact I]. intros i. unfold put. by destruct (decide (i = id)) as [->|]. Qed.

Lemma word_put C id d i : word (put C id d) id i = default 0 (d !! i).
Proof. unfold word. by rewrite put_eq. Qed.

Lemma wp_get_at s C0 id d P X p n dt i v (Q : Z -> CamelBlockFile -> Prop) : BF s (put C0 id d) P X -> P !! p = Some (Held id n dt) ->
  d !! i = Some v -> Q v s -> wp (get_word p i) Q s.
Proof.
  intros I Hp D HQ. assert (L : length d = WORDS) by (rewrite <- (put_eq C0 id d); apply (bf_len I)).
  eapply wp_word; [exact I|exact Hp|rewrite <- L; by eapply lookup_lt_Some|]. by rewrite word_put, D.
Qed.

Lemma wp_set_at s C0 id d P X p n dt i v (Q : unit -> CamelBlockFile -> Prop) : BF s (put C0 id d) P X -> P !! p = Some (Held id n dt) ->
  (i < WORDS)%nat -> (forall s', BF s' (put C0 id (<[i := v]> d)) P (X ∪ {[p]}) -> steady s s' -> Q tt s') -> wp (set_word p i v) Q s.
Proof.
  intros I Hp Hi HQ. eapply wp_put_word; [exact I|exact Hp|exact Hi|]. intros s' I' [St _]. apply HQ; [|exact St].
  eapply BFq_ext; [|exact I']. intros j. unfold put_word, put. rewrite (decide_True (P := id = id)) by done. by destruct (decide (j = id)).
Qed.

Lemma wp_set_bytes C0 id P p n dt l : forall s d X k (Q : unit -> CamelBlockFile -> Prop), BF s (put C0 id d) P X -> P !! p = Some (Held id n dt) ->
  (k + length l <= 4 * WORDS)%nat ->
  (forall s', BF s' (put C0 id (copyb d k l)) P (X ∪ {[p]}) -> steady s s' -> Q tt s') -> wp (set_bytes p k l) Q s.
Proof.
  induction l as [|c l IH]; intros s d X k Q I Hp Hk HQ.
  - apply wp_mret, HQ; [|reflexivity]. eapply BFq_more; [exact I|set_solver|]. intros q [Hq|Hq]%elem_of_union; [by apply (bq_touch _ _ _ _ _ I)|].
    apply elem_of_singleton in Hq as ->. by rewrite Hp.
  - assert (L : length d = WORDS) by (rewrite <- (put_eq C0 id d); apply (bf_len I)). cbn [length] in Hk.
    assert (K : (k / 4 < WORDS)%nat) by (apply Nat.Div0.div_lt_upper_bound; lia).
    destruct (lookup_lt_is_Some_2 d (k / 4)) as [w E]; [by rewrite L|].
    apply wp_mbind. unfold set_byte. apply wp_mbind. eapply wp_get_at; [exact I|exact Hp|exact E|].
    eapply wp_set_at; [exact I|exact Hp|exact K|]. intros s1 I1 St1.
    eapply (IH s1 (setb d k c)); [|exact Hp|lia|].
    + unfold setb. rewrite E. exact I1.
    + intros s2 I2 St2. apply HQ; [|by transitivity s1]. eapply BFq_more; [exact I2|set_solver|].
      intros q Hq. apply (bq_touch _ _ _ _ _ I2). set_solver.
Qed.

Lemma wp_get_bytes C0 id P p n dt m : forall s d X k (Q : list Z -> CamelBlockFile -> Prop), BF s (put C0 id d) P X -> P !! p = Some (Held id n dt) ->
  (k + m <= 4 * WORDS)%nat -> Q (chars d k m) s -> wp (get_bytes p k m) Q s.
Proof.
  induction m as [|m IH]; intros s d X k Q I Hp Hk HQ; [by apply wp_mret|].
  assert (L : length d = WORDS) by (rewrite <- (put_eq C0 id d); apply (bf_len I)).
  destruct (lookup_lt_is_Some_2 d (k / 4)) as [w E]; [rewrite L; apply Nat.Div0.div_lt_upper_bound; lia|].
  apply wp_mbind. unfold get_byte. apply wp_mbind. eapply wp_get_at; [exact I|exact Hp|exact E|]. apply wp_mret.
  apply wp_mbind. eapply IH; [exact I|exact Hp|lia|]. apply wp_mret.
    assert (W : wbyte w (k mod 4) = getb d k) by (unfold getb; by rewrite E). rewrite W. exact HQ.
Qed.

(** ** Numbers of keys *)

Lemma key_id_split id i : id mod 1024 = 0 -> 0 <= i < 1024 -> Z.lor (key_block id) i = id + i /\ key_block (id + i) = id /\ key_index (id + i) = i.
Proof.
  intros M Hi. assert (E : forall x, key_block x = x - x mod 1024).
  { intros x. unfold key_block. change (CAMEL_BLOCK_SIZE - 1) with (Z.ones 10). rewrite Z.ldiff_ones_r, Z.shiftr_div_pow2, Z.shiftl_mul_pow2 by lia.
    change (2 ^ 10) with 1024. pose proof (Z.div_mod x 1024). lia. }
  assert (A : (id + i) mod 1024 = i) by (rewrite <- Z.add_mod_idemp_l, M, Z.add_0_l by lia; apply Z.mod_small; lia).
  split_and!.
  - rewrite E, M, Z.sub_0_r. assert (Z.land id i = 0).
    { rewrite <- (Z.mod_small i 1024) by lia. change 1024 with (2 ^ 10) at 1. apply Z.bits_inj'. intros j Hj. rewrite Z.land_spec, Z.bits_0.
      destruct (Z.ltb_spec j 10).
      - rewrite <- (Z.mod_pow2_bits_low id 10 j) by lia. change (2 ^ 10) with 1024. by rewrite M, Z.bits_0.
      - by rewrite (Z.mod_pow2_bits_high i 10 j), andb_false_r by lia. }
    rewrite Z.add_nocarry_lxor by done. apply Z.bits_inj'. intros j Hj.
    rewrite Z.lxor_spec, Z.lor_spec. assert (K : Z.testbit (Z.land id i) j = false) by (by rewrite H, Z.bits_0).
    rewrite Z.land_spec in K. by destruct (Z.testbit id j), (Z.testbit i j).
  - rewrite E, A. lia.
  - unfold key_index. change (CAMEL_BLOCK_SIZE - 1) with (Z.ones 10). rewrite Z.land_ones by lia. exact A.
Qed.

(** ** Storing a key *)

(** The offset of the characters that were stored last. *)
Lemma last_slot d es : key_rep d es -> es <> [] -> exists fl, d !! (3 + 2 * (length es - 1))%nat = Some (Z.of_nat (1016 - fill es) + 1024 * fl).
Proof.
  intros R N. destruct es as [|e es _] using rev_ind; [done|]. exists (e_flags e).
  destruct (kr_slots _ _ R (length es) e) as [_ B _ _ _]; [by rewrite lookup_app_r, Nat.sub_diag by lia|].
  rewrite length_app. cbn [length]. replace (length es + 1 - 1)%nat with (length es) by lia.
  rewrite B. by rewrite take_ge by (rewrite length_app; cbn; lia).
Qed.

Lemma offset_small off fl : (off < 1024)%nat -> offset_of (Z.of_nat off + 1024 * fl) = Z.of_nat off.
Proof. intros L. unfold offset_of. rewrite (Z.mul_comm 1024), Z.mod_add by lia. apply Z.mod_small. lia. Qed.

Lemma flags_small off fl : (off < 1024)%nat -> flags_of (Z.of_nat off + 1024 * fl) = fl.
Proof. intros L. unfold flags_of. rewrite (Z.mul_comm 1024), Z.div_add, Z.div_small by lia. lia. Qed.

Lemma key_bits_nat (u : nat) : key_bits (Z.of_nat u) = (3 + 2 * u)%nat.
Proof. unfold key_bits. lia. Qed.

Lemma key_data_nat (u : nat) : key_data (Z.of_nat u) = (2 + 2 * u)%nat.
Proof. unfold key_data. lia. Qed.

Lemma BF_empty s C P X : BF s C P X -> X ⊆ ∅ -> BF s C P ∅.
Proof. intros I S. eapply BFq_more; [exact I|exact S|]. intros p Hp. set_solver. Qed.

Section Store.
Context (C : Z -> list Z) (P : gmap loc held) (p : loc) (id n : Z) (Hp : P !! p = Some (Held id n false)) (Hid : id mod 1024 = 0)
  (es : list entry) (R : key_rep (C id) es).

(** Where the characters of the next key end. *)
Lemma wp_used_offset s (Q : Z -> CamelBlockFile -> Prop) d : BF s (put C id d) P ∅ -> d = C id -> Q (Z.of_nat (1016 - fill es)) s ->
  wp (if Z.of_nat (length es) >? 0 then off ← get_offset p (Z.of_nat (length es) - 1); mret off else mret SIZEOF_KEYDATA) Q s.
Proof.
  intros I -> HQ. destruct (Z.gtb_spec (Z.of_nat (length es)) 0) as [G|G].
  - destruct (last_slot _ _ R) as [fl B]; [by intros ->|]. apply wp_mbind. unfold get_offset. apply wp_mbind.
    replace (Z.of_nat (length es) - 1) with (Z.of_nat (length es - 1)) by (destruct es; cbn in *; lia). rewrite key_bits_nat.
    eapply wp_get_at; [exact I|exact Hp|exact B|]. apply wp_mret, wp_mret. by rewrite offset_small by lia.
  - destruct es; [|cbn in G; lia]. by apply wp_mret.
Qed.

Lemma wp_key_store s key data flags (Q : Z -> CamelBlockFile -> Prop) : BF s C P ∅ -> good_key key ->
  (8 * S (length es) + fill es + length key <= 1016)%nat ->
  (forall s' C', BF s' C' (drop_ref p P) ∅ -> steady s s' ->
    but_flags (put C id (add_entry (C id) (length es) (1016 - fill es - length key) key data flags)) C' -> Q (id + Z.of_nat (length es)) s') ->
  wp (key_store p key data flags) Q s.
Proof.
  intros I0 K Rm HQ. pose proof (BF_put _ _ _ _ id _ I0 eq_refl) as I. clear I0.
  set (u := length es) in *. set (off := (1016 - fill es - length key)%nat) in *. set (d := C id) in *.
  assert (L : length d = 256%nat) by apply R. pose proof (key_rep_used _ _ R) as U. fold u in U.
  unfold key_store. apply wp_mbind. eapply wp_get_at; [exact I|exact Hp|apply (kr_used _ _ R)|]. fold u.
  apply wp_mbind. apply (wp_impl _ (fun z s' => z = Z.of_nat off /\ s' = s)).
  { pose proof (wp_used_offset s (fun z s' => z = Z.of_nat (1016 - fill es) /\ s' = s) d I eq_refl (conj eq_refl eq_refl)) as W.
    fold u in W. destruct (Z.of_nat u >? 0).
    - apply wp_mbind. unfold wp, mbind, M_bind in W |- *. destruct (get_offset _ _ s) as [[z s1]|]; [|done].
      destruct W as [-> ->]. split; [|done]. unfold off. lia.
    - apply wp_mret. destruct W as [E _]. rewrite E. split; [|done]. unfold off. lia. }
  intros z s0 [-> ->]. rewrite key_bits_nat, key_data_nat.
  destruct (lookup_lt_is_Some_2 d (3 + 2 * u)) as [w W]; [lia|].
  apply wp_mbind. eapply wp_get_at; [exact I|exact Hp|exact W|].
  apply wp_mbind. eapply wp_set_at; [exact I|exact Hp|unfold WORDS; lia|]. intros s1 I1 St1.
  apply wp_mbind. eapply wp_set_at; [exact I1|exact Hp|unfold WORDS; lia|]. intros s2 I2 St2.
  apply wp_mbind. eapply wp_get_at; [exact I2|exact Hp|rewrite list_lookup_insert_ne, list_lookup_insert_eq by lia; reflexivity|].
  apply wp_mbind. eapply wp_set_at; [exact I2|exact Hp|unfold WORDS; lia|]. intros s3 I3 St3.
  rewrite (proj2 (Z.ltb_ge (Z.of_nat off) 0)) by lia. rewrite Nat2Z.id.
  apply wp_mbind. eapply wp_set_bytes; [exact I3|exact Hp|unfold WORDS, KEYDATA, off; lia|]. intros s4 I4 St4.
  destruct (bf_held I4 p _ Hp) as (b & Hb & E & _). injection E as Eb _ _.
  apply wp_mbind. eapply wp_deref; [exact Hb|]. rewrite <- Eb.
  destruct (key_id_split id (Z.of_nat u) Hid) as (KI & _ & _); [unfold u in *; lia|]. rewrite KI.
  apply wp_mbind. eapply wp_set_at; [exact I4|exact Hp|unfold KB_USED, WORDS; lia|]. intros s5 I5 St5.
  rewrite Z.geb_leb, (proj2 (Z.leb_gt 127 (Z.of_nat u + 1))) by lia.
  apply wp_mbind. eapply wp_touch; [exact I5|exact Hp|]. intros s6 C6 I6 B6 St6 _.
  apply wp_mbind. eapply wp_unref; [exact I6|exact Hp|set_solver|done|]. intros s7 I7 [St7 _].
  apply wp_mret, (HQ s7 C6); [eapply BF_empty; [exact I7|set_solver]|steady_t|].
  assert (E : add_entry d u off key data flags = <[KB_USED := Z.of_nat u + 1]> (copyb (<[(3 + 2 * u)%nat := with_offset (with_flags w flags) (Z.of_nat off)]>
    (<[(2 + 2 * u)%nat := data]> (<[(3 + 2 * u)%nat := with_flags w flags]> d))) (KEYDATA + off) key)); [|by rewrite E].
  unfold add_entry. rewrite W. change (default 0 (Some w)) with w. rewrite (list_lookup_insert_ne _ (2 + 2 * u)), list_lookup_insert_eq by lia.
  replace (Z.of_nat (S u)) with (Z.of_nat u + 1) by lia. reflexivity.
Qed.
End Store.
