(* ===== verification/KeyTableInv.v ===== *)
(** * KeyTableInv: the list of keys that the blocks of a key table hold

    [key_chain] says how the blocks of a key table are linked and laid out,
    [keys_of] gives the keys with their numbers, in the order of the list. *)

From stdpp Require Import base list numbers gmap functions.
From Stdlib Require Import ZArith Lia.
From S2P Require Import Prelude BlockFile BlockFileInv BlockFileOps KeyTable KeyBlocks.

(** ** Changing the record of a key *)

Lemma fill_keys es es' : map e_key es = map e_key es' -> fill es = fill es'.
Proof.
  intros E. unfold fill. rewrite <- (map_map e_key length es), <- (map_map e_key length es'). by rewrite E.
Qed.

Lemma map_key_insert es i e e' : es !! i = Some e -> e_key e' = e_key e -> map e_key (<[i := e']> es) = map e_key es.
Proof. intros H E. change (e_key <$> <[i := e']> es = e_key <$> es). rewrite list_fmap_insert, E. apply list_insert_id. by rewrite list_lookup_fmap, H. Qed.

Lemma fill_insert es i e e' n : es !! i = Some e -> e_key e' = e_key e -> fill (take n (<[i := e']> es)) = fill (take n es).
Proof. intros H E. apply fill_keys. change (e_key <$> take n (<[i := e']> es) = e_key <$> take n es). rewrite !fmap_take. f_equal. by eapply map_key_insert. Qed.

Lemma key_rep_update d d' es i e e' : key_rep d es -> es !! i = Some e -> e_key e' = e_key e -> 0 <= e_flags e' < 2 ^ 22 -> length d' = WORDS ->
  d' !! (2 + 2 * i)%nat = Some (e_data e') -> d' !! (3 + 2 * i)%nat = Some (Z.of_nat (1016 - fill (take (S i) es)) + 1024 * e_flags e') ->
  (forall j, j <> (2 + 2 * i)%nat -> j <> (3 + 2 * i)%nat -> d' !! j = d !! j) -> key_rep d' (<[i := e']> es).
Proof.
  intros R He K F L D B O. pose proof (lookup_lt_Some _ _ _ He) as Li. pose proof (kr_room _ _ R) as Rm.
  assert (Ch : forall k n, (8 + 8 * length es <= k)%nat -> chars d' k n = chars d k n).
  { intros k n Hk. apply chars_ext. intros j Hj. unfold getb. rewrite O; [done|..]; (enough (4 + 2 * i <= j / 4)%nat by lia; apply Nat.div_le_lower_bound; lia). }
  constructor; [done| | |].
  - rewrite O by lia. rewrite length_insert. apply R.
  - rewrite length_insert. rewrite <- (firstn_all (<[i := e']> es)), length_insert, (fill_insert _ _ e) by done. by rewrite firstn_all.
  - intros j x Hj. rewrite (fill_insert _ _ e) by done. pose proof (fill_take es (S j)) as FT.
    apply list_lookup_insert_Some in Hj as [(<- & -> & _)|[N Hj]].
    + destruct (kr_slots _ _ R i e He) as [_ _ _ S4 S5]. constructor; try done; rewrite ?K; [exact S4|]. rewrite Ch by lia. exact S5.
    + destruct (kr_slots _ _ R j x Hj) as [S1 S2 S3 S4 S5]. constructor; try done; rewrite ?O by lia; try done. rewrite Ch by lia. exact S5.
Qed.

(** ** The blocks of a table *)

(** The number of the block [i]; 0 behind the last one. *)
Definition block_at (kbs : list (Z * list entry)) (i : nat) : Z := match kbs !! i with Some (id, _) => id | None => 0 end.

Record key_chain (C : Z -> list Z) (root : Z) (kbs : list (Z * list entry)) : Prop := {
  kc_first : word C root KR_FIRST = block_at kbs 0;
  kc_last : word C root KR_LAST = block_at kbs (length kbs - 1);
  kc_nodup : NoDup (root :: map fst kbs);
  kc_ids : forall i id es, kbs !! i = Some (id, es) -> 0 < id < word C 0 ROOT_LAST /\ id mod 1024 = 0;
  kc_reps : forall i id es, kbs !! i = Some (id, es) -> key_rep (C id) es;
  kc_links : forall i id es, kbs !! i = Some (id, es) -> word C id KB_NEXT = block_at kbs (S i) }.

(** The next block comes from the end of the file: no block is ever freed by
    the index, and no caller holds a block behind the end. *)
Record alloc_ok (C : Z -> list Z) (P : gmap loc held) : Prop := {
  al_free : word C 0 ROOT_FREE = 0;
  al_last : 0 < word C 0 ROOT_LAST < 2 ^ 32 /\ word C 0 ROOT_LAST mod 1024 = 0;
  al_held : forall p h, P !! p = Some h -> h_id h < word C 0 ROOT_LAST }.

Definition not_held (P : gmap loc held) (id : Z) : Prop := forall p h, P !! p = Some h -> h_id h <> id.

Record key_blocks (ki : CamelKeyTable) (root : Z) (C : Z -> list Z) (P : gmap loc held) (kbs : list (Z * list entry)) : Prop := {
  kb_root : root <> 0 /\ exists n, P !! kt_root_block ki = Some (Held root n true);
  kb_alloc : alloc_ok C P;
  kb_chain : key_chain C root kbs;
  kb_used : forall id es, (id, es) ∈ kbs -> es <> [];
  kb_free : forall id es, (id, es) ∈ kbs -> not_held P id }.

(** ** Programs on blocks that nobody holds *)

Lemma not_held_gettable P id : not_held P id -> gettable P id.
Proof. intros H p h Hp E. by destruct (H p h Hp). Qed.

Lemma not_held_fresh P p id : not_held P id -> found_ptr P p id -> P !! p = None.
Proof. intros H [E|[n E]]; [done|]. by destruct (H p _ E). Qed.

Lemma take_fresh P p id : P !! p = None -> take_ref p id P = <[p := Held id 1 false]> P.
Proof. intros E. unfold take_ref. by rewrite E. Qed.

Lemma drop_fresh P p id : P !! p = None -> drop_ref p (<[p := Held id 1 false]> P) = P.
Proof. intros E. unfold drop_ref. rewrite lookup_insert_eq. cbn. by rewrite delete_insert_id. Qed.

Lemma wp_get_fresh s C P X id (Q : option loc -> CamelBlockFile -> Prop) : BF s C P X -> ok_io s -> valid_block C id = true -> not_held P id ->
  (forall p s', BF s' C (<[p := Held id 1 false]> P) X -> P !! p = None -> steady s s' -> Q (Some p) s') -> wp (camel_block_file_get_block id) Q s.
Proof.
  intros I K V N HQ. apply (wp_get_any s C P X I); [by apply not_held_gettable| |].
  - intros p s' _ I' F [St _]. pose proof (not_held_fresh _ _ _ N F) as E. apply HQ; [|done|done]. by rewrite take_fresh in I'.
  - intros s' _ _ U. rewrite V in U. by specialize (U K).
Qed.

Lemma valid_block_intro C id : 0 < id <= word C 0 ROOT_LAST -> id mod 1024 = 0 -> valid_block C id = true.
Proof.
  intros H M. unfold valid_block, CAMEL_BLOCK_SIZE. rewrite M. rewrite Z.gtb_ltb, (proj2 (Z.ltb_ge _ _)) by lia.
  by rewrite (proj2 (Z.eqb_neq id 0)) by lia.
Qed.

(** The contents after a block was added at the end of the file. *)
Record grown (C C' : Z -> list Z) : Prop := {
  gr_other : forall id, id <> 0 -> id <> word C 0 ROOT_LAST -> C' id = C id;
  gr_new : C' (word C 0 ROOT_LAST) = zero_block;
  gr_free : word C' 0 ROOT_FREE = 0;
  gr_last : word C' 0 ROOT_LAST = word C 0 ROOT_LAST + 1024 }.

Lemma wp_new_fresh s C P X (Q : option loc -> CamelBlockFile -> Prop) : BF s C P X -> ok_io s -> alloc_ok C P -> word C 0 ROOT_LAST + 1024 < 2 ^ 32 ->
  (forall p s' C', BF s' C' (<[p := Held (word C 0 ROOT_LAST) 1 false]> P) X -> P !! p = None -> grown C C' -> steady s s' -> Q (Some p) s') ->
  wp camel_block_file_new_block Q s.
Proof.
  intros I K [F [B M] H] R HQ. set (L := word C 0 ROOT_LAST) in *.
  assert (E : next_id C = L) by (unfold next_id; by rewrite F).
  assert (N : not_held P L) by (intros p h Hp; specialize (H p h Hp); lia).
  assert (V : valid_block C L = true) by (apply valid_block_intro; [unfold L in *; lia|exact M]).
  apply (wp_new_block s C P X); [exact I|rewrite E; by apply not_held_gettable| |].
  - rewrite E. intros p s' _ I' Fp (s1 & [St1 _] & [St2 _]). pose proof (not_held_fresh _ _ _ N Fp) as EP.
    rewrite take_fresh in I' by done. apply (HQ p s' (alloc_contents C)); [exact I'|done| |by transitivity s1].
    assert (W : forall i, (i <> ROOT_LAST -> word (alloc_contents C) 0 i = word C 0 i) /\ word (alloc_contents C) 0 ROOT_LAST = L + 1024).
    { pose proof (bf_len I 0) as L0. intros i. unfold alloc_contents. rewrite E, F. change (0 =? 0) with true. cbv iota. unfold word, put_word.
      rewrite put_ne by (unfold L in *; lia). rewrite put_eq. split; [intros NI; by rewrite list_lookup_insert_ne|].
      rewrite list_lookup_insert_eq by (rewrite L0; unfold ROOT_LAST, WORDS; lia). cbn [default from_option].
      change (u32 (L + CAMEL_BLOCK_SIZE) = L + 1024). unfold u32, CAMEL_BLOCK_SIZE. apply Z.mod_small. unfold L in *. lia. }
    constructor.
    + intros id N0 NL. unfold alloc_contents. rewrite E, F. change (0 =? 0) with true. cbv iota. rewrite put_ne by exact NL. unfold put_word. by apply put_ne.
    + unfold alloc_contents. rewrite E. apply put_eq.
    + rewrite (proj1 (W ROOT_FREE)) by done. exact F.
    + apply (proj2 (W 0%nat)).
  - rewrite E. intros s' _ _ U. rewrite V in U. by specialize (U K).
Qed.

(** ** The keys in the order of the blocks *)

Definition block_keys (b : Z * list entry) : list (Z * entry) := imap (fun j e => (fst b + Z.of_nat j, e)) (snd b).
Definition keys_of (kbs : list (Z * list entry)) : list (Z * entry) := concat (map block_keys kbs).

Lemma block_keys_length b : length (block_keys b) = length (snd b).
Proof. apply length_imap. Qed.

Lemma block_keys_lookup b j : block_keys b !! j = (fun e => (fst b + Z.of_nat j, e)) <$> snd b !! j.
Proof. unfold block_keys. by rewrite list_lookup_imap. Qed.

Lemma block_keys_insert id es j e e' : es !! j = Some e -> block_keys (id, <[j := e']> es) = <[j := (id + Z.of_nat j, e')]> (block_keys (id, es)).
Proof.
  intros H. apply list_eq. intros i. rewrite block_keys_lookup. cbn [fst snd]. pose proof (lookup_lt_Some _ _ _ H) as L. destruct (decide (i = j)) as [->|N].
  - by rewrite !list_lookup_insert_eq by (rewrite ?block_keys_length; done).
  - rewrite !list_lookup_insert_ne by done. by rewrite block_keys_lookup.
Qed.

(** Where a key is, what a change of its record does, and which key is next. *)
Lemma keys_position kbs : forall n k e, keys_of kbs !! n = Some (k, e) -> exists i id es j,
  kbs !! i = Some (id, es) /\ es !! j = Some e /\ k = id + Z.of_nat j /\
  (forall e', keys_of (<[i := (id, <[j := e']> es)]> kbs) = <[n := (k, e')]> (keys_of kbs)) /\
  keys_of kbs !! S n = match es !! S j with Some e2 => Some (id + Z.of_nat (S j), e2) | None => keys_of (drop (S i) kbs) !! 0%nat end.
Proof.
  induction kbs as [|[id0 es0] kbs IH]; intros n k e H; [done|]. change (keys_of ((id0, es0) :: kbs)) with (block_keys (id0, es0) ++ keys_of kbs) in *.
  apply lookup_app_Some in H as [H|[L H]].
  - rewrite block_keys_lookup in H. cbn [fst snd] in H. destruct (es0 !! n) as [x|] eqn:E; [|done]. injection H as <- ->.
    pose proof (lookup_lt_Some _ _ _ E) as Ln. exists 0%nat, id0, es0, n. split_and!; try done.
    + intros e'. cbn [insert list_insert]. change (keys_of ((id0, <[n := e']> es0) :: kbs)) with (block_keys (id0, <[n := e']> es0) ++ keys_of kbs).
      rewrite (block_keys_insert _ _ _ _ _ E), insert_app_l; [done|]. by rewrite block_keys_length.
    + change (drop 1 ((id0, es0) :: kbs)) with kbs. destruct (es0 !! S n) as [e2|] eqn:E2.
      * rewrite lookup_app_l; [by rewrite block_keys_lookup; cbn; rewrite E2|]. rewrite block_keys_length. by eapply lookup_lt_Some.
      * apply lookup_ge_None in E2. rewrite lookup_app_r by (rewrite block_keys_length; exact E2). rewrite block_keys_length. cbn [snd]. f_equal. lia.
  - rewrite block_keys_length in L, H. cbn [snd] in L, H. destruct (IH _ _ _ H) as (i & id & es & j & Hi & Hj & -> & U & Nx).
    exists (S i), id, es, j. split_and!; try done.
    + intros e'. cbn [insert list_insert]. change (keys_of ((id0, es0) :: <[i := (id, <[j := e']> es)]> kbs)) with (block_keys (id0, es0) ++ keys_of (<[i := (id, <[j := e']> es)]> kbs)).
      rewrite U, insert_app_r_alt by (rewrite block_keys_length; exact L). by rewrite block_keys_length.
    + rewrite lookup_app_r by (rewrite block_keys_length; cbn [snd]; lia). rewrite block_keys_length. cbn [snd].
      replace (S n - length es0)%nat with (S (n - length es0)) by lia. exact Nx.
Qed.

Lemma keys_of_app kbs kbs' : keys_of (kbs ++ kbs') = keys_of kbs ++ keys_of kbs'.
Proof. unfold keys_of. by rewrite map_app, concat_app. Qed.

Lemma keys_of_last kbs id es e : keys_of (kbs ++ [(id, es ++ [e])]) = keys_of (kbs ++ [(id, es)]) ++ [(id + Z.of_nat (length es), e)].
Proof. rewrite !keys_of_app, <- app_assoc. f_equal. unfold keys_of. cbn. rewrite !app_nil_r. unfold block_keys. cbn. rewrite imap_app. cbn. by rewrite Nat.add_0_r. Qed.

(** ** Chains *)

Lemma key_chain_pos C root kbs i id es : key_chain C root kbs -> kbs !! i = Some (id, es) -> id <> root.
Proof. intros K H ->. pose proof (kc_nodup _ _ _ K) as N. apply list.NoDup_cons in N as [N _]. apply N. apply list_elem_of_fmap. exists (root, es). split; [done|]. by eapply list_elem_of_lookup_2. Qed.

Lemma key_chain_unique C root kbs i j id es es' : key_chain C root kbs -> kbs !! i = Some (id, es) -> kbs !! j = Some (id, es') -> i = j.
Proof.
  intros K Hi Hj. pose proof (kc_nodup _ _ _ K) as N. apply list.NoDup_cons in N as [_ N]. eapply (list.NoDup_lookup _ i j id N); change (map fst kbs) with (fst <$> kbs); rewrite list_lookup_fmap, ?Hi, ?Hj; done.
Qed.

(** The block [i] gets other records. *)
Lemma key_chain_set C C' root kbs i id es es' : key_chain C root kbs -> kbs !! i = Some (id, es) -> (forall id', id' <> 0 -> id' <> id -> C' id' = C id') ->
  root <> 0 -> word C' 0 ROOT_LAST = word C 0 ROOT_LAST -> key_rep (C' id) es' -> word C' id KB_NEXT = word C id KB_NEXT -> key_chain C' root (<[i := (id, es')]> kbs).
Proof.
  intros K H F R0 L R N. pose proof (lookup_lt_Some _ _ _ H) as Li.
  assert (W : forall w, word C' root w = word C root w) by (intros w; unfold word; rewrite F; [done|done|intros ->; by eapply key_chain_pos]).
  assert (B : forall j, block_at (<[i := (id, es')]> kbs) j = block_at kbs j).
  { intros j. unfold block_at. destruct (decide (i = j)) as [->|Nj]; [by rewrite list_lookup_insert_eq, H by done|by rewrite list_lookup_insert_ne]. }
  assert (Cs : forall j x y, <[i := (id, es')]> kbs !! j = Some (x, y) -> j = i /\ x = id /\ y = es' \/ j <> i /\ kbs !! j = Some (x, y) /\ x <> id).
  { intros j x y Hj. apply list_lookup_insert_Some in Hj as [(<- & E & _)|[Nj Hj]]; [injection E as <- <-; by left|]. right. split_and!; [done..|].
    intros ->. by destruct (key_chain_unique _ _ _ _ _ _ _ _ K Hj H). }
  constructor; rewrite ?W, ?B, ?length_insert; try apply K.
  - change (map fst (<[i := (id, es')]> kbs)) with (fst <$> <[i := (id, es')]> kbs). rewrite list_fmap_insert. cbn. rewrite list_insert_id; [apply K|]. by rewrite list_lookup_fmap, H.
  - intros j x y Hj. rewrite L. destruct (Cs _ _ _ Hj) as [(-> & -> & ->)|(_ & Hj' & _)]; by eapply kc_ids.
  - intros j x y Hj. destruct (Cs _ _ _ Hj) as [(-> & -> & ->)|(_ & Hj' & Nx)]; [exact R|]. rewrite F; [by eapply kc_reps|pose proof (kc_ids _ _ _ K _ _ _ Hj'); lia|exact Nx].
  - intros j x y Hj. rewrite B. destruct (Cs _ _ _ Hj) as [(-> & -> & ->)|(_ & Hj' & Nx)]; [rewrite N; by eapply kc_links|].
    unfold word. rewrite F; [by eapply (kc_links _ _ _ K)|pose proof (kc_ids _ _ _ K _ _ _ Hj'); lia|exact Nx].
Qed.

(** A new block behind the last one. *)
Lemma key_chain_snoc C C' root kbs L : key_chain C root kbs -> L = word C 0 ROOT_LAST -> 0 < L -> L mod 1024 = 0 -> root <> L -> word C' 0 ROOT_LAST = L + 1024 ->
  word C' root KR_FIRST = block_at (kbs ++ [(L, [])]) 0 -> word C' root KR_LAST = L -> C' L = zero_block ->
  (forall i id es, kbs !! i = Some (id, es) -> key_rep (C' id) es /\ word C' id KB_NEXT = if decide (S i = length kbs) then L else word C id KB_NEXT) ->
  key_chain C' root (kbs ++ [(L, [])]).
Proof.
  intros K EL L0 M RL W F La Zb Old.
  assert (Cs : forall j x y, (kbs ++ [(L, [])]) !! j = Some (x, y) -> kbs !! j = Some (x, y) \/ j = length kbs /\ x = L /\ y = []).
  { intros j x y Hj. apply lookup_app_Some in Hj as [Hj|[Lj Hj]]; [by left|]. right. apply list_lookup_singleton_Some in Hj as [E [= <- <-]]. split_and!; try done. lia. }
  constructor; try done.
  - rewrite La. unfold block_at. rewrite length_app. cbn [length]. rewrite lookup_app_r by lia. by replace (length kbs + 1 - 1 - length kbs)%nat with 0%nat by lia.
  - rewrite map_app. apply (list.NoDup_app (root :: map fst kbs) [L]). split_and!; [apply K| |apply list.NoDup_singleton].
    intros x Hx Hy. apply list_elem_of_singleton in Hy as ->. apply elem_of_cons in Hx as [E|Hx]; [congruence|].
    apply list_elem_of_fmap in Hx as ([x y] & E & Hx). apply list_elem_of_lookup_1 in Hx as [i Hi]. cbn in E. pose proof (kc_ids _ _ _ K _ _ _ Hi). lia.
  - intros j x y Hj. rewrite W. destruct (Cs _ _ _ Hj) as [Hj'|(_ & -> & _)]; [pose proof (kc_ids _ _ _ K _ _ _ Hj'); lia|lia].
  - intros j x y Hj. destruct (Cs _ _ _ Hj) as [Hj'|(_ & -> & ->)]; [by apply (Old _ _ _ Hj')|]. rewrite Zb. apply key_rep_zero.
  - intros j x y Hj. unfold block_at. destruct (Cs _ _ _ Hj) as [Hj'|(-> & -> & ->)].
    + rewrite (proj2 (Old _ _ _ Hj')). pose proof (lookup_lt_Some _ _ _ Hj'). destruct (decide (S j = length kbs)) as [E|N].
      * rewrite lookup_app_r by lia. by replace (S j - length kbs)%nat with 0%nat by lia.
      * rewrite lookup_app_l by lia. by eapply (kc_links _ _ _ K).
    + unfold word. rewrite Zb. rewrite (lookup_ge_None_2 (kbs ++ _)) by (rewrite length_app; cbn; lia). done.
Qed.
