(* ===== verification/KeyTableSpec.v ===== *)
(** * KeyTableSpec: the operations of a key table on the list of its keys

    Records are read and changed in place; the next key is the next of the list;
    a new key goes behind the others, in the last block or in a new one. *)

From stdpp Require Import base list numbers gmap functions.
From Stdlib Require Import ZArith Lia.
From S2P Require Import Prelude BlockFile BlockFileInv BlockFileOps KeyTable KeyBlocks KeyTableInv.

(** ** Reading a record *)

Lemma wp_word_at s C P X p id n dt i v (Q : Z -> CamelBlockFile -> Prop) : BF s C P X -> P !! p = Some (Held id n dt) ->
  C id !! i = Some v -> Q v s -> wp (get_word p i) Q s.
Proof. intros I Hp D HQ. eapply wp_get_at; [apply (BF_put s C P X id _ I eq_refl)|exact Hp|exact D|exact HQ]. Qed.

Section Record.
Context (C : Z -> list Z) (P : gmap loc held) (X : gset loc) (p : loc) (id n : Z) (dt : bool) (Hp : P !! p = Some (Held id n dt))
  (es : list entry) (R : key_rep (C id) es).

Lemma wp_offset s i e (Q : Z -> CamelBlockFile -> Prop) : BF s C P X -> es !! i = Some e -> Q (Z.of_nat (1016 - fill (take (S i) es))) s ->
  wp (get_offset p (Z.of_nat i)) Q s.
Proof.
  intros I H HQ. apply wp_mbind. rewrite key_bits_nat. eapply wp_word_at; [exact I|exact Hp|apply (sl_bits _ _ _ _ (kr_slots _ _ R i e H))|].
  apply wp_mret. by rewrite offset_small by lia.
Qed.

Lemma wp_flags s i e (Q : Z -> CamelBlockFile -> Prop) : BF s C P X -> es !! i = Some e -> Q (e_flags e) s -> wp (get_flags p (Z.of_nat i)) Q s.
Proof.
  intros I H HQ. apply wp_mbind. rewrite key_bits_nat. eapply wp_word_at; [exact I|exact Hp|apply (sl_bits _ _ _ _ (kr_slots _ _ R i e H))|].
  apply wp_mret. by rewrite flags_small by lia.
Qed.

Lemma wp_data s i e (Q : Z -> CamelBlockFile -> Prop) : BF s C P X -> es !! i = Some e -> Q (e_data e) s -> wp (get_word p (key_data (Z.of_nat i))) Q s.
Proof. intros I H HQ. rewrite key_data_nat. eapply wp_word_at; [exact I|exact Hp|apply (sl_data _ _ _ _ (kr_slots _ _ R i e H))|exact HQ]. Qed.

Lemma wp_used s (Q : Z -> CamelBlockFile -> Prop) : BF s C P X -> Q (Z.of_nat (length es)) s -> wp (get_word p KB_USED) Q s.
Proof. intros I HQ. eapply wp_word_at; [exact I|exact Hp|apply (kr_used _ _ R)|exact HQ]. Qed.

(** The key ends where the key before starts. *)
Lemma fill_take_S i e : es !! i = Some e -> fill (take (S i) es) = (fill (take i es) + length (e_key e))%nat.
Proof. intros H. rewrite (take_S_r _ _ _ H), fill_app. cbn. lia. Qed.

Lemma wp_key_chars s i e (Q : list Z -> CamelBlockFile -> Prop) : BF s C P X -> es !! i = Some e -> Q (e_key e) s -> wp (key_chars p (Z.of_nat i)) Q s.
Proof.
  intros I H HQ. pose proof (fill_take es (S i)) as F. pose proof (fill_take_S i e H) as FS. pose proof (kr_room _ _ R) as Rm.
  apply wp_mbind. eapply wp_offset; [exact I|exact H|]. apply wp_mbind.
  apply (wp_impl _ (fun l s' => l = Z.of_nat (length (e_key e)) /\ s' = s)).
  - destruct i as [|i]; [apply wp_mret; split; [|done]; change (fill (take 0 es)) with 0%nat in FS; unfold SIZEOF_KEYDATA; lia|].
    replace (Z.of_nat (S i) =? 0) with false by (symmetry; apply Z.eqb_neq; lia). replace (Z.of_nat (S i) - 1) with (Z.of_nat i) by lia.
    destruct (lookup_lt_is_Some_2 es i) as [e0 H0]; [apply lookup_lt_Some in H; lia|].
    apply wp_mbind. eapply wp_offset; [exact I|exact H0|]. apply wp_mret. split; [|done]. lia.
  - intros l s' [-> ->]. rewrite (proj2 (Z.ltb_ge _ 0)) by lia. rewrite !Nat2Z.id.
    eapply wp_get_bytes; [apply (BF_put s C P X id _ I eq_refl)|exact Hp|unfold KEYDATA, WORDS; lia|].
    destruct (kr_slots _ _ R i e H) as [_ _ _ _ E]. change (KEYDATA + (1016 - fill (take (S i) es)))%nat with (8 + (1016 - fill (take (S i) es)))%nat. by rewrite E.
Qed.
End Record.

Lemma wp_drop P s1 C1 p id n (Q : unit -> CamelBlockFile -> Prop) X : BF s1 C1 (<[p := Held id 1 n]> P) X -> n = false -> X ⊆ ∅ -> P !! p = None ->
  (forall s', BF s' C1 P ∅ -> steady s1 s' -> Q tt s') -> wp (camel_block_file_unref_block p) Q s1.
Proof.
  intros I1 -> S Hp HQ. eapply wp_unref; [exact I1|apply lookup_insert_eq|set_solver|done|]. intros s2 I2 [St2 _].
  rewrite drop_fresh in I2 by done. apply HQ; [by eapply BF_empty|exact St2].
Qed.

(** ** Looking up and changing the record of a key *)

Section Ops.
Context (s : CamelBlockFile) (C : Z -> list Z) (P : gmap loc held) (ki : CamelKeyTable) (root : Z) (kbs : list (Z * list entry))
  (I : BF s C P ∅) (KB : key_blocks ki root C P kbs) (K : ok_io s).

Lemma wp_get_keys i id es (Q : option loc -> CamelBlockFile -> Prop) : kbs !! i = Some (id, es) ->
  (forall p s', BF s' C (<[p := Held id 1 false]> P) ∅ -> P !! p = None -> steady s s' -> Q (Some p) s') -> wp (camel_block_file_get_block id) Q s.
Proof.
  intros H HQ. destruct (kc_ids _ _ _ (kb_chain _ _ _ _ _ KB) _ _ _ H) as [B M].
  eapply wp_get_fresh; [exact I|exact K|apply valid_block_intro; [lia|exact M]| |exact HQ].
  eapply (kb_free _ _ _ _ _ KB). by eapply list_elem_of_lookup_2.
Qed.

(** A key that is in the table. *)
Lemma key_id_at i id es j e : kbs !! i = Some (id, es) -> es !! j = Some e ->
  key_block (id + Z.of_nat j) = id /\ key_index (id + Z.of_nat j) = Z.of_nat j /\ (id + Z.of_nat j =? 0) = false /\ (j < length es)%nat /\ (length es < 127)%nat.
Proof.
  intros H Hj. destruct (kc_ids _ _ _ (kb_chain _ _ _ _ _ KB) _ _ _ H) as [B M]. pose proof (kc_reps _ _ _ (kb_chain _ _ _ _ _ KB) _ _ _ H) as R.
  pose proof (key_rep_used _ _ R) as U. pose proof (lookup_lt_Some _ _ _ Hj) as L.
  destruct (key_id_split id (Z.of_nat j) M) as (_ & A & A'); [lia|]. rewrite (proj2 (Z.eqb_neq _ 0)) by lia. split_and!; [done..|lia].
Qed.

Lemma wp_key_lookup i id es j e (keyp : bool) (Q : Z * option (list Z) * Z -> CamelBlockFile -> Prop) : kbs !! i = Some (id, es) -> es !! j = Some e ->
  (forall s', BF s' C P ∅ -> steady s s' -> Q (e_data e, if keyp then Some (e_key e) else None, e_flags e) s') ->
  wp (camel_key_table_lookup ki (id + Z.of_nat j) keyp) Q s.
Proof.
  intros H Hj HQ. destruct (key_id_at _ _ _ _ _ H Hj) as (E1 & E2 & E3 & L & U). pose proof (kc_reps _ _ _ (kb_chain _ _ _ _ _ KB) _ _ _ H) as R.
  unfold camel_key_table_lookup. rewrite E1, E2, E3. apply wp_mbind. eapply wp_get_keys; [exact H|]. intros p s1 I1 Hp St1.
  assert (Hp1 : <[p := Held id 1 false]> P !! p = Some (Held id 1 false)) by apply lookup_insert_eq.
  apply wp_mbind. eapply wp_used; [exact Hp1|exact R|exact I1|].
  rewrite !Z.geb_leb, !(proj2 (Z.leb_gt _ _)) by lia. cbn [orb].
  apply wp_mbind. eapply wp_data; [exact Hp1|exact R|exact I1|exact Hj|].
  apply wp_mbind. eapply wp_flags; [exact Hp1|exact R|exact I1|exact Hj|]. apply wp_mbind.
  apply (wp_impl _ (fun k s' => k = (if keyp then Some (e_key e) else None) /\ s' = s1)).
  - destruct keyp; [|by apply wp_mret]. apply wp_mbind. eapply wp_key_chars; [exact Hp1|exact R|exact I1|exact Hj|by apply wp_mret].
  - intros k s' [-> ->]. apply wp_mbind. eapply wp_drop; [exact I1|done|done|exact Hp|]. intros s2 I2 St2. apply wp_mret, HQ; [done|by transitivity s1].
Qed.

(** After the record was changed, the table is the one with the new record. *)
Lemma key_blocks_set C' i id es j e e' : kbs !! i = Some (id, es) -> es !! j = Some e -> (forall id', id' <> 0 -> id' <> id -> C' id' = C id') ->
  (forall w, w <> ROOT_FLAGS -> C' 0 !! w = C 0 !! w) -> key_rep (C' id) (<[j := e']> es) -> word C' id KB_NEXT = word C id KB_NEXT ->
  key_blocks ki root C' P (<[i := (id, <[j := e']> es)]> kbs).
Proof.
  intros H Hj F F0 R N. destruct KB as [[R0 Kr] [A1 A2 A3] Kc Ku Kf].
  assert (W : forall w, w <> ROOT_FLAGS -> word C' 0 w = word C 0 w) by (intros w Nw; unfold word; by rewrite F0).
  assert (In : forall x y, (x, y) ∈ <[i := (id, <[j := e']> es)]> kbs -> (x, y) ∈ kbs \/ x = id /\ y = <[j := e']> es).
  { intros x y Hx. apply list_elem_of_lookup_1 in Hx as [m Hm]. apply list_lookup_insert_Some in Hm as [(_ & [= <- <-] & _)|[_ Hm]]; [by right|left; by eapply list_elem_of_lookup_2]. }
  constructor; [done| | | |].
  - constructor; rewrite ?W by done; done.
  - eapply key_chain_set; [exact Kc|exact H|exact F|exact R0|by apply W|exact R|exact N].
  - intros x y Hx. destruct (In x y Hx) as [Hk|[-> ->]]; [by eapply Ku|]. intros E. apply (f_equal length) in E. rewrite length_insert in E. apply lookup_lt_Some in Hj. cbn in E. lia.
  - intros x y Hx. destruct (In x y Hx) as [Hk|[-> _]]; [by eapply Kf|]. eapply Kf. by eapply list_elem_of_lookup_2.
Qed.

Lemma key_blocks_same : forall i id es j e, kbs !! i = Some (id, es) -> es !! j = Some e -> <[i := (id, <[j := e]> es)]> kbs = kbs.
Proof. intros i id es j e H Hj. rewrite (list_insert_id es j e Hj). by apply list_insert_id. Qed.

(** Writing one word of the record, and touching the block. *)
Lemma wp_record i id es j e e' w v p s1 (Q : unit -> CamelBlockFile -> Prop) : kbs !! i = Some (id, es) -> es !! j = Some e ->
  BF s1 C (<[p := Held id 1 false]> P) ∅ -> P !! p = None -> (1 < w < WORDS)%nat -> key_rep (<[w := v]> (C id)) (<[j := e']> es) ->
  (forall s' C', BF s' C' (<[p := Held id 1 false]> P) ∅ -> key_blocks ki root C' P (<[i := (id, <[j := e']> es)]> kbs) ->
    (forall x, x <> 0 -> x <> id -> C' x = C x) -> word C' 0 ROOT_LAST = word C 0 ROOT_LAST -> steady s1 s' -> Q tt s') ->
  wp (set_word p w v;; camel_block_file_touch_block p) Q s1.
Proof.
  intros H Hj I1 Hp Hw R HQ. destruct (kc_ids _ _ _ (kb_chain _ _ _ _ _ KB) _ _ _ H) as [B M]. set (P1 := <[p := Held id 1 false]> P).
  assert (Hp1 : P1 !! p = Some (Held id 1 false)) by apply lookup_insert_eq.
  apply wp_mbind. eapply wp_put_word; [exact I1|exact Hp1|lia|]. intros s2 I2 [St2 _].
  eapply wp_touch; [exact I2|exact Hp1|]. intros s3 C3 I3 [B3 B3'] St3 _. cbn [h_id] in *.
  assert (E : C3 id = <[w := v]> (C id)) by (rewrite B3 by lia; unfold put_word; by rewrite put_eq).
  assert (F : forall x, x <> 0 -> x <> id -> C3 x = C x) by (intros x N0 N1; rewrite B3 by done; unfold put_word; by rewrite put_ne).
  assert (F0 : forall x, x <> ROOT_FLAGS -> C3 0 !! x = C 0 !! x) by (intros x Nx; rewrite B3' by done; unfold put_word; by rewrite put_ne by lia).
  apply (HQ s3 C3); [eapply BF_empty; [exact I3|set_solver]| |exact F|unfold word; by rewrite F0|by transitivity s2].
  apply (key_blocks_set C3 i id es j e e'); [done|done|exact F|exact F0|by rewrite E|].
  unfold word, KB_NEXT. rewrite E, list_lookup_insert_ne by lia. done.
Qed.

(** A table with other contents and records. *)
Definition table_after (s' : CamelBlockFile) (L : Z) (kbs' : list (Z * list entry)) : Prop :=
  steady s s' /\ exists C', BF s' C' P ∅ /\ key_blocks ki root C' P kbs' /\ word C' 0 ROOT_LAST = L /\
    (forall x, x <> 0 -> x <> root -> x < word C 0 ROOT_LAST -> (forall es, (x, es) ∉ kbs) -> C' x = C x).

Lemma table_after_same s' : BF s' C P ∅ -> steady s s' -> table_after s' (word C 0 ROOT_LAST) kbs.
Proof. intros I' St. split; [exact St|]. by exists C. Qed.

Lemma key_bits_with off fl v : (off < 1024)%nat -> with_flags (Z.of_nat off + 1024 * fl) v = Z.of_nat off + 1024 * (v mod 2 ^ 22).
Proof. intros L. unfold with_flags. by rewrite offset_small. Qed.

(** Unreferencing the block that was read or changed. *)
Lemma wp_finish (b : bool) s1 C1 p id i es j e e' (Q : bool -> CamelBlockFile -> Prop) : kbs !! i = Some (id, es) -> es !! j = Some e -> P !! p = None ->
  BF s1 C1 (<[p := Held id 1 false]> P) ∅ -> key_blocks ki root C1 P (<[i := (id, <[j := e']> es)]> kbs) -> (forall x, x <> 0 -> x <> id -> C1 x = C x) ->
  word C1 0 ROOT_LAST = word C 0 ROOT_LAST -> steady s s1 ->
  (forall s', table_after s' (word C 0 ROOT_LAST) (<[i := (id, <[j := e']> es)]> kbs) -> Q b s') -> wp (camel_block_file_unref_block p;; mret b) Q s1.
Proof.
  intros H Hj Hp I1 KB1 F L St HQ. apply wp_mbind. eapply wp_drop; [exact I1|done|done|exact Hp|]. intros s2 I2 St2.
  apply wp_mret, HQ. split; [by transitivity s1|]. exists C1. split_and!; [exact I2|exact KB1|exact L|].
  intros x N0 _ _ Nx. apply F; [exact N0|]. intros ->. apply (Nx es). by eapply list_elem_of_lookup_2.
Qed.

Lemma wp_key_set_data i id es j e data (Q : bool -> CamelBlockFile -> Prop) : kbs !! i = Some (id, es) -> es !! j = Some e ->
  (forall s', table_after s' (word C 0 ROOT_LAST) (<[i := (id, <[j := Entry (e_key e) data (e_flags e)]> es)]> kbs) -> Q true s') ->
  wp (camel_key_table_set_data ki (id + Z.of_nat j) data) Q s.
Proof.
  intros H Hj HQ. destruct (key_id_at _ _ _ _ _ H Hj) as (E1 & E2 & E3 & L & U). pose proof (kc_reps _ _ _ (kb_chain _ _ _ _ _ KB) _ _ _ H) as R.
  unfold camel_key_table_set_data. rewrite E1, E2, E3. apply wp_mbind. eapply wp_get_keys; [exact H|]. intros p s1 I1 Hp St1.
  assert (Hp1 : <[p := Held id 1 false]> P !! p = Some (Held id 1 false)) by apply lookup_insert_eq.
  apply wp_mbind. eapply wp_data; [exact Hp1|exact R|exact I1|exact Hj|]. apply wp_mbind. destruct (Z.eqb_spec (e_data e) data) as [<-|N].
  - apply wp_mret. destruct e as [ek ed ef]. eapply wp_finish; [exact H|exact Hj|exact Hp|exact I1|rewrite (key_blocks_same _ _ _ _ _ H Hj); exact KB|done|done|exact St1|exact HQ].
  - destruct (kr_slots _ _ R j e Hj) as [S1 S2 S3 S4 S5]. pose proof (kr_length _ _ R) as Ld. rewrite key_data_nat.
    eapply (wp_record i id es j e (Entry (e_key e) data (e_flags e))); [exact H|exact Hj|exact I1|exact Hp|unfold WORDS; lia| |].
    + eapply (key_rep_update (C id)); [exact R|exact Hj|done|exact S3|by rewrite length_insert| | |].
      * rewrite list_lookup_insert_eq; [done|]. rewrite Ld. unfold WORDS. lia.
      * rewrite list_lookup_insert_ne by lia. exact S2.
      * intros x Nx _. by rewrite list_lookup_insert_ne.
    + intros s2 C2 I2 KB2 F F0 St2. eapply wp_finish; [exact H|exact Hj|exact Hp|exact I2|exact KB2|exact F|exact F0|by transitivity s1|exact HQ].
Qed.

Lemma flags_kept old fl set : 0 <= old < 2 ^ 22 -> Z.land old set = Z.land fl set -> Z.lor (Z.ldiff old set) (Z.land fl set) mod 2 ^ 22 = old.
Proof.
  intros B <-. replace (Z.lor (Z.ldiff old set) (Z.land old set)) with old; [by apply Z.mod_small|].
  apply Z.bits_inj'. intros i _. rewrite Z.lor_spec, Z.ldiff_spec, Z.land_spec. by destruct (Z.testbit old i), (Z.testbit set i).
Qed.

Lemma wp_key_set_flags i id es j e fl set (Q : bool -> CamelBlockFile -> Prop) : kbs !! i = Some (id, es) -> es !! j = Some e ->
  (forall s', table_after s' (word C 0 ROOT_LAST)
      (<[i := (id, <[j := Entry (e_key e) (e_data e) (Z.lor (Z.ldiff (e_flags e) set) (Z.land fl set) mod 2 ^ 22)]> es)]> kbs) -> Q true s') ->
  wp (camel_key_table_set_flags ki (id + Z.of_nat j) fl set) Q s.
Proof.
  intros H Hj HQ. destruct (key_id_at _ _ _ _ _ H Hj) as (E1 & E2 & E3 & L & U). pose proof (kc_reps _ _ _ (kb_chain _ _ _ _ _ KB) _ _ _ H) as R.
  unfold camel_key_table_set_flags. rewrite E1, E2, E3. apply wp_mbind. eapply wp_get_keys; [exact H|]. intros p s1 I1 Hp St1.
  assert (Hp1 : <[p := Held id 1 false]> P !! p = Some (Held id 1 false)) by apply lookup_insert_eq.
  destruct (kr_slots _ _ R j e Hj) as [S1 S2 S3 S4 S5]. pose proof (kr_length _ _ R) as Ld.
  apply wp_mbind. eapply wp_used; [exact Hp1|exact R|exact I1|]. rewrite !Z.geb_leb, !(proj2 (Z.leb_gt _ _)) by lia. cbn [orb]. rewrite key_bits_nat.
  apply wp_mbind. eapply wp_word_at; [exact I1|exact Hp1|exact S2|]. rewrite flags_small by lia. apply wp_mbind.
  destruct (Z.eqb_spec (Z.land (e_flags e) set) (Z.land fl set)) as [E|N].
  - apply wp_mret. rewrite (flags_kept _ _ _ S3 E) in HQ. destruct e as [ek ed ef].
    eapply wp_finish; [exact H|exact Hj|exact Hp|exact I1|rewrite (key_blocks_same _ _ _ _ _ H Hj); exact KB|done|done|exact St1|exact HQ].
  - set (fl' := Z.lor (Z.ldiff (e_flags e) set) (Z.land fl set)) in *. rewrite key_bits_with by lia.
    eapply (wp_record i id es j e (Entry (e_key e) (e_data e) (fl' mod 2 ^ 22))); [exact H|exact Hj|exact I1|exact Hp|unfold WORDS; lia| |].
    + eapply (key_rep_update (C id)); [exact R|exact Hj|done|apply Z.mod_pos_bound; lia|by rewrite length_insert| | |].
      * rewrite list_lookup_insert_ne by lia. exact S1.
      * rewrite list_lookup_insert_eq; [done|]. rewrite Ld. unfold WORDS. lia.
      * intros x _ Nx. by rewrite list_lookup_insert_ne.
    + intros s2 C2 I2 KB2 F F0 St2. eapply wp_finish; [exact H|exact Hj|exact Hp|exact I2|exact KB2|exact F|exact F0|by transitivity s1|exact HQ].
Qed.

(** ** The next key *)

Lemma bad_offset_false es m i e : key_rep m es -> es !! i = Some e -> bad_offset (Z.of_nat (1016 - fill (take (S i) es))) (Z.of_nat (length es)) = false.
Proof.
  intros R H. pose proof (fill_take es (S i)) as F. pose proof (fill_take_S es i e H) as FS. pose proof (kr_room _ _ R) as Rm.
  destruct (sl_key _ _ _ _ (kr_slots _ _ R i e H)) as [[G _] _]. unfold bad_offset, SIZEOF_KEYDATA, SIZEOF_KEY.
  rewrite Z.geb_leb, (proj2 (Z.leb_gt _ _)), (proj2 (Z.ltb_ge _ _)) by lia. done.
Qed.
End Ops.

Lemma wp_get_invalid s C P X id (Q : option loc -> CamelBlockFile -> Prop) : BF s C P X -> valid_block C id = false -> Q None s ->
  wp (camel_block_file_get_block id) Q s.
Proof. intros I V HQ. apply wp_mbind. eapply wp_valid_id; [exact I|]. rewrite V. by apply wp_mret. Qed.

Section Next.
Context (C : Z -> list Z) (P : gmap loc held) (ki : CamelKeyTable) (root : Z) (kbs : list (Z * list entry)) (KB : key_blocks ki root C P kbs).
Let Kc := kb_chain _ _ _ _ _ KB.

Lemma keys_of_drop i : keys_of (drop i kbs) !! 0%nat = match kbs !! i with Some (id, e :: _) => Some (id + Z.of_nat 0, e) | _ => None end.
Proof.
  destruct (kbs !! i) as [[id es]|] eqn:H.
  - rewrite (drop_S _ _ _ H). destruct es as [|e es]; [|done]. by destruct (kb_used _ _ _ _ _ KB id []); [by eapply list_elem_of_lookup_2|].
  - apply lookup_ge_None in H. by rewrite drop_ge.
Qed.

(** The walk ends at the key asked for, at the first key of the next block or
    at the end of the list. *)
Lemma wp_next_block s fuel i id es j (Q : option (loc * Z) -> CamelBlockFile -> Prop) : BF s C P ∅ -> ok_io s -> (2 <= fuel)%nat ->
  kbs !! i = Some (id, es) -> (j <= length es)%nat ->
  (forall s' p i' id' es' j' e, kbs !! i' = Some (id', es') -> es' !! j' = Some e ->
    Some (id' + Z.of_nat j', e) = match es !! j with Some e => Some (id + Z.of_nat j, e) | None => keys_of (drop (S i) kbs) !! 0%nat end ->
    BF s' C (<[p := Held id' 1 false]> P) ∅ -> P !! p = None -> steady s s' -> Q (Some (p, id' + Z.of_nat j')) s') ->
  (forall s', BF s' C P ∅ -> steady s s' -> es !! j = None -> keys_of (drop (S i) kbs) !! 0%nat = None -> Q None s') ->
  wp (next_block fuel (id + Z.of_nat j)) Q s.
Proof.
  intros I K Fu H Lj HS HN. destruct fuel as [|[|fuel]]; [lia..|].
  destruct (kc_ids _ _ _ Kc _ _ _ H) as [B M]. pose proof (kc_reps _ _ _ Kc _ _ _ H) as R. pose proof (key_rep_used _ _ R) as U.
  destruct (key_id_split id (Z.of_nat j) M) as (_ & E1 & E2); [lia|].
  cbn [next_block]. rewrite E1. apply wp_mbind. eapply wp_get_keys; [exact I|exact KB|exact K|exact H|]. intros p s1 I1 Hp St1.
  assert (Hp1 : <[p := Held id 1 false]> P !! p = Some (Held id 1 false)) by apply lookup_insert_eq.
  apply wp_mbind. eapply wp_used; [exact Hp1|exact R|exact I1|]. rewrite E2, Z.geb_leb. destruct (Z.leb_spec (Z.of_nat (length es)) (Z.of_nat j)) as [L|L].
  2: { destruct (lookup_lt_is_Some_2 es j) as [e He]; [lia|]. apply wp_mret. eapply (HS s1 p i); [exact H|exact He|by rewrite He|exact I1|exact Hp|exact St1]. }
  assert (Ej : es !! j = None) by (apply lookup_ge_None_2; lia). rewrite Ej in *.
  apply wp_mbind. eapply wp_word; [exact I1|exact Hp1|unfold KB_NEXT, WORDS; lia|]. rewrite (kc_links _ _ _ Kc _ _ _ H).
  apply wp_mbind. eapply wp_drop; [exact I1|done|done|exact Hp|]. intros s2 I2 St2. unfold block_at.
  pose proof (keys_of_drop (S i)) as D. assert (St : steady s s2) by (by transitivity s1).
  destruct (kbs !! S i) as [[id2 es2]|] eqn:H2.
  - destruct es2 as [|e2 es2]; [by destruct (kb_used _ _ _ _ _ KB id2 []); [by eapply list_elem_of_lookup_2|]|].
    destruct (kc_ids _ _ _ Kc _ _ _ H2) as [B2 M2]. destruct (key_id_split id2 0 M2) as (_ & F1 & F2); [lia|]. rewrite Z.add_0_r in F1, F2.
    rewrite F1, F2. apply wp_mbind. eapply wp_get_keys; [exact I2|exact KB|by apply (steady_ok s s2)|exact H2|]. intros q s3 I3 Hq St3.
    assert (Hq1 : <[q := Held id2 1 false]> P !! q = Some (Held id2 1 false)) by apply lookup_insert_eq.
    apply wp_mbind. eapply wp_used; [exact Hq1|by apply (kc_reps _ _ _ Kc _ _ _ H2)|exact I3|].
    rewrite Z.geb_leb, (proj2 (Z.leb_gt _ _)) by (cbn [length]; lia). apply wp_mret.
    replace id2 with (id2 + Z.of_nat 0) at 1 by lia. eapply (HS s3 q (S i) id2 _ 0%nat); [exact H2|done|by rewrite D|exact I3|exact Hq|by transitivity s2].
  - change (key_block 0) with 0. apply wp_mbind. eapply wp_get_invalid; [exact I2| |by apply wp_mret, HN].
    unfold valid_block. change (0 =? 0) with true. by rewrite orb_true_r.
Qed.

(** The checks of the offsets, and what is read. *)
Lemma wp_next_record s p i id es j e (Q : option (Z * list Z * Z * Z) -> CamelBlockFile -> Prop) : BF s C (<[p := Held id 1 false]> P) ∅ -> P !! p = None ->
  kbs !! i = Some (id, es) -> es !! j = Some e ->
  (forall s', BF s' C P ∅ -> steady s s' -> Q (Some (id + Z.of_nat j, e_key e, e_flags e, e_data e)) s') ->
  wp (let next := id + Z.of_nat j in let index := key_index next in
      used ← get_word p KB_USED; off ← get_offset p index;
      bad ← (if bad_offset off used then mret true
             else if index >? 0 then prev ← get_offset p (index - 1); mret (bad_offset prev used) else mret false);
      if bad : bool then camel_block_file_unref_block p;; mret None else
      data ← get_word p (key_data index); flags ← get_flags p index; key ← key_chars p index;
      camel_block_file_unref_block p;; mret (Some (next, key, flags, data))) Q s.
Proof.
  intros I Hp H He HQ. pose proof (kc_reps _ _ _ Kc _ _ _ H) as R. destruct (key_id_at _ _ _ _ _ KB _ _ _ _ _ H He) as (_ & E2 & _ & L & _).
  cbn zeta. rewrite E2. assert (Hp1 : <[p := Held id 1 false]> P !! p = Some (Held id 1 false)) by apply lookup_insert_eq.
  apply wp_mbind. eapply wp_used; [exact Hp1|exact R|exact I|].
  apply wp_mbind. eapply wp_offset; [exact Hp1|exact R|exact I|exact He|]. rewrite (bad_offset_false _ _ _ _ R He).
  apply wp_mbind. apply (wp_impl _ (fun b s' => b = false /\ s' = s)).
  - destruct j as [|j]; [by apply wp_mret|]. replace (Z.of_nat (S j) >? 0) with true by (symmetry; apply Z.gtb_lt; lia).
    replace (Z.of_nat (S j) - 1) with (Z.of_nat j) by lia. destruct (lookup_lt_is_Some_2 es j) as [e0 H0]; [lia|].
    apply wp_mbind. eapply wp_offset; [exact Hp1|exact R|exact I|exact H0|]. rewrite (bad_offset_false _ _ _ _ R H0). by apply wp_mret.
  - intros b s' [-> ->]. apply wp_mbind. eapply wp_data; [exact Hp1|exact R|exact I|exact He|].
    apply wp_mbind. eapply wp_flags; [exact Hp1|exact R|exact I|exact He|]. apply wp_mbind. eapply wp_key_chars; [exact Hp1|exact R|exact I|exact He|].
    apply wp_mbind. eapply wp_drop; [exact I|done|done|exact Hp|]. intros s2 I2 St2. by apply wp_mret, HQ.
Qed.

Lemma wp_key_next s fuel next (Q : option (Z * list Z * Z * Z) -> CamelBlockFile -> Prop) (o : option (Z * entry)) : BF s C P ∅ -> ok_io s -> (2 <= fuel)%nat ->
  word C 0 ROOT_LAST + 127 < 2 ^ 32 ->
  (next = 0 /\ o = keys_of kbs !! 0%nat \/ exists n e, keys_of kbs !! n = Some (next, e) /\ o = keys_of kbs !! S n) ->
  (forall s', BF s' C P ∅ -> steady s s' -> Q ((fun '(k, e) => (k, e_key e, e_flags e, e_data e)) <$> o) s') -> wp (camel_key_table_next fuel ki next) Q s.
Proof.
  intros I K Fu Rm Ho HQ. destruct (kb_root _ _ _ _ _ KB) as [R0 [m Hm]]. apply wp_mbind. eapply wp_word; [exact I|exact Hm|unfold KR_FIRST, WORDS; lia|].
  rewrite (kc_first _ _ _ Kc). assert (S0 : exists i id es j, kbs !! i = Some (id, es) /\ (j <= length es)%nat /\ (next =? 0) && (block_at kbs 0 =? 0) = false /\
      (if next =? 0 then block_at kbs 0 else u32 (next + 1)) = id + Z.of_nat j /\
      o = match es !! j with Some e => Some (id + Z.of_nat j, e) | None => keys_of (drop (S i) kbs) !! 0%nat end \/ next = 0 /\ kbs = [] /\ o = None).
  { destruct Ho as [[-> Eo]|(n & e & Hn & Eo)].
    - pose proof (keys_of_drop 0) as D. rewrite drop_0 in D. unfold block_at. destruct kbs as [|[id es] kbs']; [by exists 0%nat, 0, [], 0%nat; right|].
      cbn [lookup list_lookup] in D |- *. destruct es as [|e es]; [by destruct (kb_used _ _ _ _ _ KB id [] (list_elem_of_here _ _))|].
      destruct (kc_ids _ _ _ Kc 0 id _ eq_refl) as [B _]. exists 0%nat, id, (e :: es), 0%nat. left. change (0 =? 0) with true.
      rewrite (proj2 (Z.eqb_neq id 0)) by lia. split_and!; [done|lia|done|lia|by rewrite Eo, D].
    - destruct (keys_position _ _ _ _ Hn) as (i & id & es & j & Hi & Hj & -> & _ & Nx).
      destruct (key_id_at _ _ _ _ _ KB _ _ _ _ _ Hi Hj) as (_ & _ & E3 & L & L'). destruct (kc_ids _ _ _ Kc _ _ _ Hi) as [B _].
      exists i, id, es, (S j). left. rewrite E3. split_and!; [done|lia|done| |by rewrite Eo]. unfold u32. rewrite Z.mod_small by lia. lia. }
  destruct S0 as (i & id & es & j & [(H & Lj & -> & -> & Eo)|(-> & Ek & ->)]).
  2: { rewrite Ek. change (block_at [] 0) with 0. apply wp_mret, HQ; done. }
  apply wp_mbind. eapply wp_next_block; [exact I|exact K|exact Fu|exact H|exact Lj| |].
  - intros s1 p i' id' es' j' e H' He E I1 Hp St1. rewrite <- E in Eo. rewrite Eo in HQ.
    eapply (wp_next_record s1 p i' id' es' j' e); [exact I1|exact Hp|exact H'|exact He|]. intros s2 I2 St2. apply HQ; [exact I2|by transitivity s1].
  - intros s1 I1 St1 Ej E. apply wp_mret. rewrite Ej, E in Eo. rewrite Eo in HQ. by apply HQ.
Qed.
End Next.

(** ** A key is added behind the others

    The last block takes the key when it has the room, else a new block behind
    it does; the other keys keep their numbers and records. *)

(** ** Words of blocks *)

Lemma key_rep_next d es v : key_rep d es -> key_rep (<[KB_NEXT := v]> d) es.
Proof.
  intros [R1 R2 R3 R4]. unfold KB_NEXT. constructor; [by rewrite length_insert|by rewrite list_lookup_insert_ne|done|].
  intros i e H. destruct (R4 i e H) as [S1 S2 S3 S4 S5]. constructor; try done; rewrite ?list_lookup_insert_ne by lia; try done.
  rewrite <- S5 at 2. apply chars_ext. intros j Hj. unfold getb. rewrite list_lookup_insert_ne; [done|].
  enough (2 <= j / 4)%nat by lia. apply Nat.div_le_lower_bound; lia.
Qed.

(** Inserting a word, seen from another word. *)
Lemma put_word_word C id i v id' i' : id <> id' \/ i <> i' -> word (put_word C id i v) id' i' = word C id' i'.
Proof.
  intros N. unfold word, put_word, put. destruct (decide (id' = id)) as [->|]; [|done]. destruct N as [N|N]; [done|]. by rewrite list_lookup_insert_ne.
Qed.

Lemma word_put_same C id i v : length (C id) = WORDS -> (i < WORDS)%nat -> word (put_word C id i v) id i = v.
Proof. intros L Hi. unfold word, put_word. rewrite put_eq, list_lookup_insert_eq by lia. done. Qed.

Lemma put_word_ne C id i v x : x <> id -> put_word C id i v x = C x.
Proof. intros N. unfold put_word. by apply put_ne. Qed.

Lemma flags_word C C' x i : but_flags C C' -> x <> 0 \/ i <> ROOT_FLAGS -> word C' x i = word C x i.
Proof. intros [B1 B2] N. unfold word. destruct (decide (x = 0)) as [->|Nx]; [|by rewrite B1]. destruct N as [|N]; [done|]. by rewrite B2. Qed.

(** ** The block that takes the key *)

Record at_end (C0 : Z -> list Z) (P : gmap loc held) (root : Z) (kbs : list (Z * list entry)) (C : Z -> list Z) (id : Z) (es : list entry) (kbs1 : list (Z * list entry)) : Prop := {
  ae_chain : key_chain C root (kbs1 ++ [(id, es)]);
  ae_alloc : alloc_ok C P;
  ae_used : forall x y, (x, y) ∈ kbs1 -> y <> [];
  ae_free : forall x y, (x, y) ∈ kbs1 ++ [(id, es)] -> not_held P x;
  ae_keys : keys_of (kbs1 ++ [(id, es)]) = keys_of kbs;
  ae_last : word C 0 ROOT_LAST = word C0 0 ROOT_LAST + match es with [] => 1024 | _ => 0 end;
  ae_id : word C0 0 ROOT_LAST <= id \/ (id, es) ∈ kbs;
  ae_frame : forall x, x <> 0 -> x <> root -> x < word C0 0 ROOT_LAST -> (forall y, (x, y) ∉ kbs) -> C x = C0 x }.

Section Add.
Context (C0 : Z -> list Z) (P : gmap loc held) (ki : CamelKeyTable) (root : Z) (kbs : list (Z * list entry)) (KB : key_blocks ki root C0 P kbs)
  (Rm : word C0 0 ROOT_LAST + 1024 < 2 ^ 32).
Let L := word C0 0 ROOT_LAST.
Let Kc := kb_chain _ _ _ _ _ KB.

(** The last block of a table that is not empty. *)
Lemma at_end_last kbs1 id es : kbs = kbs1 ++ [(id, es)] -> at_end C0 P root kbs C0 id es kbs1.
Proof.
  intros E. pose proof KB as [_ A Kc' U F]. constructor; rewrite <- ?E; try done.
  - intros x y Hx. apply (U x y). rewrite E. apply elem_of_app. by left.
  - destruct es; [|lia]. destruct (U id []); [|done]. rewrite E. apply elem_of_app. right. by apply list_elem_of_singleton.
  - right. rewrite E. apply elem_of_app. right. by apply list_elem_of_singleton.
Qed.

Lemma alloc_more C1 : grown C0 C1 -> alloc_ok C1 P.
Proof.
  intros [_ _ G1 G2]. destruct (kb_alloc _ _ _ _ _ KB) as [_ [A2 A3] A4]. constructor; [done| |].
  - rewrite G2, <- Z.add_mod_idemp_l, A3 by lia. split; [lia|done].
  - intros p h Hp. specialize (A4 p h Hp). lia.
Qed.

Lemma root_below : root < L.
Proof. destruct (kb_root _ _ _ _ _ KB) as [_ [n Hn]]. by apply (al_held _ _ (kb_alloc _ _ _ _ _ KB)) in Hn. Qed.

(** A new block becomes the last one. *)
Lemma at_end_new C1 C : grown C0 C1 -> (forall x, x <> 0 -> x <> root -> (forall es, kbs !! (length kbs - 1)%nat <> Some (x, es)) -> C x = C1 x) ->
  word C 0 ROOT_FREE = 0 -> word C 0 ROOT_LAST = L + 1024 -> word C root KR_FIRST = block_at (kbs ++ [(L, [])]) 0 -> word C root KR_LAST = L ->
  (forall x es, kbs !! (length kbs - 1)%nat = Some (x, es) -> C x = <[KB_NEXT := L]> (C0 x)) -> at_end C0 P root kbs C L [] kbs.
Proof.
  intros G Fr F0 F1 W1 W2 Lk. pose proof root_below as RL. destruct (alloc_more C1 G) as [_ A2 A3]. destruct G as [G1 G2 G3 G4].
  destruct (al_last _ _ (kb_alloc _ _ _ _ _ KB)) as [A4 A5]. assert (R0 : root <> 0) by apply KB.
  assert (Ids : forall i x es, kbs !! i = Some (x, es) -> x <> 0 /\ x <> root /\ x <> L) by (intros i x es H; destruct (kc_ids _ _ _ Kc _ _ _ H); split_and!; [lia|by eapply key_chain_pos|unfold L; lia]).
  assert (CL : forall x es, x = L \/ x < L -> kbs !! (length kbs - 1)%nat = Some (x, es) -> x <> L) by (intros x es _ H; by apply Ids in H as (_ & _ & ?)).
  assert (Oth : forall i x es, kbs !! i = Some (x, es) -> (i < length kbs - 1)%nat -> C x = C0 x).
  { intros i x es H Li. destruct (Ids _ _ _ H) as (I1 & I2 & I3). rewrite Fr; [by apply G1|done|done|]. intros es' H'. pose proof (key_chain_unique _ _ _ _ _ _ _ _ Kc H H'). lia. }
  constructor; try done.
  - apply (key_chain_snoc C0); try done; try lia. { rewrite Fr; [exact G2|unfold L; lia|lia|]. intros es H. by apply Ids in H as (_ & _ & ?). }
    intros i x es H. pose proof (lookup_lt_Some _ _ _ H) as Li. pose proof (kc_reps _ _ _ Kc _ _ _ H) as R. destruct (decide (S i = length kbs)) as [E|N].
    + rewrite (Lk x es) by (rewrite <- H; f_equal; lia). split; [by apply key_rep_next|]. unfold word. rewrite (Lk x es) by (rewrite <- H; f_equal; lia).
      rewrite list_lookup_insert_eq; [done|]. rewrite (kr_length _ _ R). unfold KB_NEXT, WORDS. lia.
    + unfold word. by rewrite (Oth i x es H) by lia.
  - constructor; [done|rewrite F1; unfold L; rewrite <- G4; done|]. intros p h Hp. rewrite F1. unfold L. rewrite <- G4. by apply (A3 p).
  - apply KB.
  - intros x y [Hx|Hx]%elem_of_app; [by eapply (kb_free _ _ _ _ _ KB)|]. apply list_elem_of_singleton in Hx as [= -> ->].
    intros p h Hp. pose proof (al_held _ _ (kb_alloc _ _ _ _ _ KB) p h Hp). unfold L. lia.
  - rewrite keys_of_app. by rewrite app_nil_r.
  - left. unfold L. lia.
  - intros x N0 Nr Lx Nx. rewrite Fr; [apply G1; [done|lia]|done|done|]. intros es H. apply (Nx es). by eapply list_elem_of_lookup_2.
Qed.

(** What is known when a block is found to take the key. *)
Definition takes (s : CamelBlockFile) (Q : option loc -> CamelBlockFile -> Prop) (R : (Z -> list Z) -> Z -> list entry -> list (Z * list entry) -> Prop) : Prop :=
  forall s' p C id es kbs1, at_end C0 P root kbs C id es kbs1 -> R C id es kbs1 -> BF s' C (<[p := Held id 1 false]> P) ∅ -> P !! p = None -> steady s s' -> Q (Some p) s'.

Lemma held_root p id : P !! p = None -> exists m, <[p := Held id 1 false]> P !! kt_root_block ki = Some (Held root m true).
Proof. intros Hp. destruct (kb_root _ _ _ _ _ KB) as [_ [m Hm]]. exists m. rewrite lookup_insert_ne; [done|]. intros ->. congruence. Qed.

Lemma root_next_word C id v : root <> 0 -> length (C root) = WORDS -> word (put_word (put_word C root KR_FIRST v) root KR_LAST id) root KR_FIRST = v.
Proof. intros R0 E. rewrite put_word_word by (right; unfold KR_LAST, KR_FIRST; lia). apply word_put_same; [exact E|unfold KR_FIRST, WORDS; lia]. Qed.

(** The first block of the table. *)
Lemma wp_first_block s (Q : option loc -> CamelBlockFile -> Prop) : BF s C0 P ∅ -> ok_io s -> kbs = [] -> takes s Q (fun _ _ es _ => es = []) ->
  wp (bl ← camel_block_file_new_block;
      match bl with
      | None => mret None
      | Some bl => b ← deref bl; set_word (kt_root_block ki) KR_FIRST (bl_id b);; set_word (kt_root_block ki) KR_LAST (bl_id b);;
          camel_block_file_touch_block (kt_root_block ki);; mret (Some bl)
      end) Q s.
Proof.
  intros I K Ek HQ. apply wp_mbind. eapply wp_new_fresh; [exact I|exact K|apply KB|exact Rm|]. intros p s1 C1 I1 Hp G St1.
  destruct (held_root p L Hp) as [m Hm]. assert (R0 : root <> 0) by apply KB. pose proof root_below as RL. fold L in RL.
  destruct (bf_held I1 p _ (lookup_insert_eq _ _ _)) as (b & Hb & E & _). injection E as Eb _ _. apply wp_mbind. eapply wp_deref; [exact Hb|]. rewrite <- Eb.
  apply wp_mbind. eapply wp_put_word; [exact I1|exact Hm|unfold KR_FIRST, WORDS; lia|]. intros s2 I2 [St2 _].
  apply wp_mbind. eapply wp_put_word; [exact I2|exact Hm|unfold KR_LAST, WORDS; lia|]. intros s3 I3 [St3 _].
  apply wp_mbind. eapply wp_touch; [exact I3|exact Hm|]. intros s4 C4 I4 B4 St4 _. apply wp_mret.
  pose proof (bf_len I1 root) as Lr. pose proof (bf_len I2 root) as Lr2.
  assert (W : forall x w, x <> root -> x <> 0 \/ w <> ROOT_FLAGS -> word C4 x w = word C1 x w) by (intros x w N N'; rewrite (flags_word _ _ _ _ B4 N'), !put_word_word by (left; congruence); done).
  eapply (HQ s4 p C4 L [] []); [|done|eapply BF_empty; [exact I4|set_solver]|exact Hp|steady_t].
  rewrite <- Ek. eapply (at_end_new C1); [exact G|..].
  - intros x N0 Nr _. rewrite (proj1 B4) by done. by rewrite !put_word_ne.
  - rewrite W by (congruence || by right). apply G.
  - rewrite W by (congruence || by right). apply G.
  - rewrite Ek, (flags_word _ _ _ _ B4) by by left. by apply root_next_word.
  - rewrite (flags_word _ _ _ _ B4) by by left. apply word_put_same; [exact Lr2|unfold KR_LAST, WORDS; lia].
  - rewrite Ek. done.
Qed.

Lemma wp_last_block s (Q : option loc -> CamelBlockFile -> Prop) : BF s C0 P ∅ -> ok_io s ->
  takes s Q (fun C id es kbs1 => es = [] \/ C = C0 /\ kbs = kbs1 ++ [(id, es)]) -> wp (key_last_block ki) Q s.
Proof.
  intros I K HQ. destruct (kb_root _ _ _ _ _ KB) as [R0 [m Hm]]. apply wp_mbind. eapply wp_word; [exact I|exact Hm|unfold KR_LAST, WORDS; lia|].
  rewrite (kc_last _ _ _ Kc). destruct (decide (kbs = [])) as [Ek|Nk].
  - rewrite Ek. apply wp_first_block; [done..|]. intros s' p C id es kbs1 A E. apply (HQ s' p C id es kbs1 A). by left.
  - destruct (exists_last Nk) as (kbs1 & [id es] & E). unfold block_at. rewrite E, length_app. cbn [length].
    rewrite lookup_app_r by lia. replace (length kbs1 + 1 - 1 - length kbs1)%nat with 0%nat by lia. cbn [lookup list_lookup].
    assert (H : kbs !! length kbs1 = Some (id, es)) by (by rewrite E, lookup_app_r, Nat.sub_diag by lia).
    destruct (kc_ids _ _ _ Kc _ _ _ H) as [B _]. rewrite (proj2 (Z.eqb_neq id 0)) by lia.
    eapply wp_get_keys; [exact I|exact KB|exact K|exact H|]. intros p s1 I1 Hp St1.
    eapply (HQ s1 p C0 id es kbs1); [by apply at_end_last|by right|exact I1|exact Hp|exact St1].
Qed.

Lemma at_end_linked C1 C kbs1 id es : grown C0 C1 -> length (C1 root) = WORDS -> kbs = kbs1 ++ [(id, es)] ->
  but_flags (put_word (put_word C1 id KB_NEXT L) root KR_LAST L) C -> at_end C0 P root kbs C L [] kbs.
Proof.
  intros G Lr E B. assert (H : kbs !! (length kbs - 1)%nat = Some (id, es)) by (rewrite E, length_app; cbn [length]; rewrite lookup_app_r by lia; by replace (length kbs1 + 1 - 1 - length kbs1)%nat with 0%nat by lia).
  destruct (kc_ids _ _ _ Kc _ _ _ H) as [Bd _]. pose proof (key_chain_pos _ _ _ _ _ _ Kc H) as Nr. assert (R0 : root <> 0) by apply KB. pose proof root_below as RL. fold L in RL.
  assert (W : forall w, w <> ROOT_FLAGS -> word C 0 w = word C1 0 w) by (intros w N; rewrite (flags_word _ _ _ _ B), !put_word_word by (first [by right|left; lia]); done).
  eapply (at_end_new C1); [exact G|..].
  - intros x N0 Nx Ne. rewrite (proj1 B) by done. rewrite !put_word_ne; [done| |done]. intros ->. by apply (Ne es).
  - rewrite W by done. apply G.
  - rewrite W by done. apply G.
  - rewrite (flags_word _ _ _ _ B) by by left. rewrite put_word_word by (right; unfold KR_LAST, KR_FIRST; lia). rewrite put_word_word by by left.
    unfold word at 1. rewrite (gr_other _ _ G) by (done || lia). change (word C0 root KR_FIRST = block_at (kbs ++ [(L, [])]) 0). rewrite (kc_first _ _ _ Kc). unfold block_at. rewrite E. by destruct kbs1.
  - rewrite (flags_word _ _ _ _ B) by by left. apply word_put_same; [|unfold KR_LAST, WORDS; lia]. by rewrite put_word_ne by congruence.
  - intros x y Hx. rewrite H in Hx. injection Hx as <- <-. rewrite (proj1 B) by lia. rewrite put_word_ne by done. unfold put_word. rewrite put_eq. f_equal. apply G; unfold L in *; lia.
Qed.

(** A new block behind the last one. *)
Lemma wp_next_new s p id es kbs1 (Q : option loc -> CamelBlockFile -> Prop) : BF s C0 (<[p := Held id 1 false]> P) ∅ -> P !! p = None -> ok_io s ->
  kbs = kbs1 ++ [(id, es)] -> takes s Q (fun _ _ es _ => es = []) ->
  wp (next ← camel_block_file_new_block;
      match next with
      | None => camel_block_file_unref_block p;; mret None
      | Some next => b ← deref next; set_word p KB_NEXT (bl_id b);; set_word (kt_root_block ki) KR_LAST (bl_id b);;
          camel_block_file_touch_block (kt_root_block ki);; camel_block_file_touch_block p;; camel_block_file_unref_block p;; mret (Some next)
      end) Q s.
Proof.
  intros I Hp K E HQ. assert (H : kbs !! (length kbs - 1)%nat = Some (id, es)) by (rewrite E, length_app; cbn [length]; rewrite lookup_app_r by lia; by replace (length kbs1 + 1 - 1 - length kbs1)%nat with 0%nat by lia).
  destruct (kc_ids _ _ _ Kc _ _ _ H) as [B _]. pose proof (key_chain_pos _ _ _ _ _ _ Kc H) as Nr. destruct (kb_alloc _ _ _ _ _ KB) as [A1 A2 A3].
  apply wp_mbind. eapply wp_new_fresh; [exact I|exact K| |exact Rm|].
  { constructor; [done|done|]. intros q h Hq. apply lookup_insert_Some in Hq as [[_ <-]|[_ Hq]]; [cbn; lia|by eapply A3]. }
  intros q s1 C1 I1 Hq G St1. fold L in I1. assert (N : p <> q) by (intros ->; by rewrite lookup_insert_eq in Hq). rewrite lookup_insert_ne in Hq by done.
  set (P2 := <[q := Held L 1 false]> (<[p := Held id 1 false]> P)) in *. assert (R0 : root <> 0) by apply KB. pose proof root_below as RL. fold L in RL.
  assert (Hp2 : P2 !! p = Some (Held id 1 false)) by (unfold P2; rewrite lookup_insert_ne, lookup_insert_eq by done; done).
  destruct (held_root p id Hp) as [m Hm]. assert (Hm2 : P2 !! kt_root_block ki = Some (Held root m true)).
  { unfold P2. rewrite lookup_insert_ne; [done|]. intros ->. rewrite lookup_insert_ne in Hm by done. congruence. }
  destruct (bf_held I1 q _ (lookup_insert_eq _ _ _)) as (b & Hb & Eb & _). injection Eb as Eb _ _. apply wp_mbind. eapply wp_deref; [exact Hb|]. rewrite <- Eb.
  apply wp_mbind. eapply wp_put_word; [exact I1|exact Hp2|unfold KB_NEXT, WORDS; lia|]. intros s2 I2 [St2 _].
  apply wp_mbind. eapply wp_put_word; [exact I2|exact Hm2|unfold KR_LAST, WORDS; lia|]. intros s3 I3 [St3 _].
  apply wp_mbind. eapply wp_touch; [exact I3|exact Hm2|]. intros s4 C4 I4 B4 St4 _.
  apply wp_mbind. eapply wp_touch; [exact I4|exact Hp2|]. intros s5 C5 I5 B5 St5 _.
  apply wp_mbind. eapply wp_unref; [exact I5|exact Hp2|set_solver|done|]. intros s6 I6 [St6 _]. apply wp_mret.
  assert (Ed : drop_ref p P2 = <[q := Held L 1 false]> P).
  { unfold P2. rewrite insert_insert_ne by done. apply drop_fresh. by rewrite lookup_insert_ne. }
  rewrite Ed in I6. assert (Bf : but_flags (put_word (put_word C1 id KB_NEXT L) root KR_LAST L) C5) by (by transitivity C4).
  eapply (HQ s6 q C5 L [] kbs); [|done|eapply BF_empty; [exact I6|set_solver]|exact Hq|steady_t].
  eapply (at_end_linked C1); [exact G|apply (bf_len I1)|exact E|exact Bf].
Qed.

(** The block that is found has the room for the key. *)
Definition has_room (len : nat) (es : list entry) : Prop := (8 * S (length es) + fill es + len <= 1016)%nat.

Lemma wp_key_room s p C id es kbs1 len (Q : option loc -> CamelBlockFile -> Prop) : BF s C (<[p := Held id 1 false]> P) ∅ -> P !! p = None -> ok_io s ->
  at_end C0 P root kbs C id es kbs1 -> es = [] \/ C = C0 /\ kbs = kbs1 ++ [(id, es)] -> (len <= 128)%nat ->
  takes s Q (fun _ _ es _ => has_room len es) -> wp (key_room ki p (Z.of_nat len)) Q s.
Proof.
  intros I Hp K A Cs Hl HQ. assert (Hp1 : <[p := Held id 1 false]> P !! p = Some (Held id 1 false)) by apply lookup_insert_eq.
  assert (R : key_rep (C id) es) by (eapply (kc_reps _ _ _ (ae_chain _ _ _ _ _ _ _ _ A) (length kbs1)); by rewrite lookup_app_r, Nat.sub_diag by lia).
  pose proof (kr_room _ _ R) as Rr. apply wp_mbind. eapply wp_used; [exact Hp1|exact R|exact I|].
  destruct (Z.gtb_spec (Z.of_nat (length es)) 0) as [G|G].
  2: { destruct es; [|cbn in G; lia]. apply wp_mret, (HQ s p C id [] kbs1); try done. unfold has_room. cbn. lia. }
  destruct Cs as [->|[-> E]]; [cbn in G; lia|].
  destruct (lookup_lt_is_Some_2 es (length es - 1)) as [e He]; [lia|]. replace (Z.of_nat (length es) - 1) with (Z.of_nat (length es - 1)) by lia.
  apply wp_mbind. eapply wp_offset; [exact Hp1|exact R|exact I|exact He|]. rewrite take_ge by lia. unfold SIZEOF_KEY.
  destruct (Z.ltb_spec (Z.of_nat (1016 - fill es) - 8 * (Z.of_nat (length es) + 1)) (Z.of_nat len)) as [Lt|Ge].
  - eapply wp_next_new; [exact I|exact Hp|exact K|exact E|]. intros s' q C id' es' kbs' A' -> I' Hq St. apply (HQ s' q C id' [] kbs'); try done.
    unfold has_room. cbn. lia.
  - apply wp_mret, (HQ s p C0 id es kbs1); try done. unfold has_room. lia.
Qed.

(** The number of the new key is not that of another one. *)
Lemma new_key_id C id es kbs1 : at_end C0 P root kbs C id es kbs1 -> id + Z.of_nat (length es) ∉ map fst (keys_of kbs) /\ id + Z.of_nat (length es) <> 0.
Proof.
  intros A. pose proof (ae_chain _ _ _ _ _ _ _ _ A) as Kc'. set (n := length kbs1).
  assert (H : (kbs1 ++ [(id, es)]) !! n = Some (id, es)) by (unfold n; by rewrite lookup_app_r, Nat.sub_diag by lia).
  destruct (kc_ids _ _ _ Kc' _ _ _ H) as [B M]. pose proof (key_rep_used _ _ (kc_reps _ _ _ Kc' _ _ _ H)) as U. split; [|lia].
  rewrite <- (ae_keys _ _ _ _ _ _ _ _ A). intros [[k e] [Ek Hk]]%list_elem_of_fmap. apply list_elem_of_lookup_1 in Hk as [m Hm]. cbn in Ek. subst k.
  destruct (keys_position _ _ _ _ Hm) as (i & id' & es' & j & Hi & Hj & E & _). destruct (kc_ids _ _ _ Kc' _ _ _ Hi) as [B' M'].
  pose proof (key_rep_used _ _ (kc_reps _ _ _ Kc' _ _ _ Hi)) as U'. pose proof (lookup_lt_Some _ _ _ Hj) as Lj.
  destruct (key_id_split id (Z.of_nat (length es)) M) as (_ & K1 & K2); [lia|]. destruct (key_id_split id' (Z.of_nat j) M') as (_ & K1' & K2'); [lia|].
  rewrite E in K1, K2. assert (id' = id) by congruence. subst id'. rewrite (key_chain_unique _ _ _ _ _ _ _ _ Kc' Hi H) in Hi. rewrite H in Hi. injection Hi as <-. lia.
Qed.

(** The table when the key is stored. *)
Lemma key_blocks_stored C id es kbs1 C' e : at_end C0 P root kbs C id es kbs1 -> (forall x, x <> 0 -> x <> id -> C' x = C x) ->
  (forall w, w <> ROOT_FLAGS -> word C' 0 w = word C 0 w) -> key_rep (C' id) (es ++ [e]) -> word C' id KB_NEXT = word C id KB_NEXT ->
  key_blocks ki root C' P (kbs1 ++ [(id, es ++ [e])]).
Proof.
  intros A F W R N. pose proof A as [Kc' [A1 A2 A3] Au Af _ _ _ _].
  assert (H : (kbs1 ++ [(id, es)]) !! length kbs1 = Some (id, es)) by (by rewrite lookup_app_r, Nat.sub_diag by lia).
  assert (E : <[length kbs1 := (id, es ++ [e])]> (kbs1 ++ [(id, es)]) = kbs1 ++ [(id, es ++ [e])]) by (rewrite insert_app_r_alt, Nat.sub_diag by lia; done).
  constructor; [apply KB| | | |].
  - constructor; [by rewrite W|by rewrite W|]. intros p h Hp. rewrite W by done. by eapply A3.
  - rewrite <- E. eapply key_chain_set; [exact Kc'|exact H|exact F|apply KB|by apply W|exact R|exact N].
  - intros x y [Hx|Hx]%elem_of_app; [by eapply Au|]. apply list_elem_of_singleton in Hx as [= -> ->]. intros E0. by apply app_nil in E0 as [_ ?].
  - intros x y [Hx|Hx]%elem_of_app; [eapply (Af x y); apply elem_of_app; by left|]. apply list_elem_of_singleton in Hx as [= -> _].
    eapply (Af id es). apply elem_of_app. right. by apply list_elem_of_singleton.
Qed.
End Add.

(** ** Adding a key *)

Lemma wp_key_add s C P ki root kbs key data flags (Q : Z -> CamelBlockFile -> Prop) : BF s C P ∅ -> key_blocks ki root C P kbs -> ok_io s ->
  word C 0 ROOT_LAST + 1024 < 2 ^ 32 -> key <> [] -> Forall (fun c => 0 < c < 256) key ->
  (forall s' k L kbs', table_after s C P ki root kbs s' L kbs' -> L = word C 0 ROOT_LAST \/ L = word C 0 ROOT_LAST + 1024 ->
    k <> 0 -> k ∉ map fst (keys_of kbs) -> keys_of kbs' = keys_of kbs ++ [(k, Entry (take 128 key) data (flags mod 2 ^ 22))] -> Q k s') ->
  wp (camel_key_table_add ki key data flags) Q s.
Proof.
  intros I KB K Rm Nk Fk HQ. change (Z.to_nat CAMEL_KEY_TABLE_MAX_KEY) with 128%nat. unfold camel_key_table_add. change (Z.to_nat CAMEL_KEY_TABLE_MAX_KEY) with 128%nat.
  set (key' := take 128 key). assert (GK : good_key key').
  { split; [|by apply Forall_take]. unfold key'. rewrite length_take. destruct key; [done|cbn [length]; lia]. }
  apply wp_mbind. eapply wp_last_block; [exact KB|exact Rm|exact I|exact K|]. intros s1 p C1 id es kbs1 A Cs I1 Hp St1.
  assert (R : key_rep (C1 id) es) by (eapply (kc_reps _ _ _ (ae_chain _ _ _ _ _ _ _ _ A) (length kbs1)); by rewrite lookup_app_r, Nat.sub_diag by lia).
  pose proof (key_rep_used _ _ R) as U. apply wp_mbind. eapply wp_used; [apply lookup_insert_eq|exact R|exact I1|].
  rewrite Z.geb_leb, (proj2 (Z.leb_gt _ _)) by lia. clear R U.
  apply wp_mbind. eapply wp_key_room; [exact KB|exact Rm|exact I1|exact Hp|by apply (steady_ok s s1)|exact A|exact Cs|apply GK|].
  clear Cs A I1 Hp p C1 id es kbs1. intros s2 p C1 id es kbs1 A Rr I1 Hp St2.
  assert (H : (kbs1 ++ [(id, es)]) !! length kbs1 = Some (id, es)) by (by rewrite lookup_app_r, Nat.sub_diag by lia).
  destruct (kc_ids _ _ _ (ae_chain _ _ _ _ _ _ _ _ A) _ _ _ H) as [B M]. pose proof (kc_reps _ _ _ (ae_chain _ _ _ _ _ _ _ _ A) _ _ _ H) as R.
  eapply (wp_key_store C1 _ p id 1 (lookup_insert_eq _ _ _) M es R); [exact I1|exact GK|exact Rr|].
  intros s3 C3 I3 St3 B3. rewrite drop_fresh in I3 by done. destruct (new_key_id _ _ _ _ _ _ _ _ A) as [N1 N2].
  pose proof (add_entry_rep (C1 id) es R key' data flags GK Rr) as R3. set (d := add_entry _ _ _ _ _ _) in *.
  assert (Ed : C3 id = d) by (rewrite (proj1 B3) by lia; apply put_eq).
  assert (F3 : forall x, x <> 0 -> x <> id -> C3 x = C1 x) by (intros x X0 X1; rewrite (proj1 B3) by done; by apply put_ne).
  assert (W3 : forall w, w <> ROOT_FLAGS -> word C3 0 w = word C1 0 w) by (intros w Nw; rewrite (flags_word _ _ _ _ B3) by (by right); unfold word; by rewrite put_ne by lia).
  eapply (HQ s3 (id + Z.of_nat (length es)) (word C1 0 ROOT_LAST) (kbs1 ++ [(id, es ++ [Entry key' data (flags mod 2 ^ 22)])])); [| |done|done|].
  - split; [steady_t|]. exists C3. split_and!; [exact I3| |by apply W3|].
    + eapply key_blocks_stored; [exact KB|exact A|exact F3|exact W3|by rewrite Ed|].
      unfold word. rewrite Ed. unfold d. rewrite add_entry_small; [done|exact Rr|unfold KB_NEXT; lia..].
    + intros x X0 Xr Xl Xn. rewrite F3; [by apply (ae_frame _ _ _ _ _ _ _ _ A)|done|]. intros ->.
      destruct (ae_id _ _ _ _ _ _ _ _ A) as [Ge|In]; [lia|by apply (Xn es)].
  - rewrite (ae_last _ _ _ _ _ _ _ _ A). destruct es; [right|left]; lia.
  - rewrite keys_of_last. by rewrite (ae_keys _ _ _ _ _ _ _ _ A).
Qed.
