(* ===== verification/KeyTableSafe.v ===== *)
(** * KeyTableSafe: a key table is the list of the keys that were added

    Every operation on a key table does to the list of its keys what it says,
    gives back every block it asked for, and the list is the same when a file
    that was synced is opened again. *)

From stdpp Require Import base list numbers gmap functions.
From Stdlib Require Import ZArith Lia.
From S2P Require Import Prelude BlockFile BlockFileInv BlockFileOps BlockFileSpec BlockFileSafe KeyTable KeyBlocks KeyTableInv KeyTableSpec.

(** ** The operations on the list *)

(** The callers of the file hold [P], the file ends at [L], and the table has
    the keys [T] with their numbers. *)
Definition key_table (s : CamelBlockFile) (P : gmap loc held) (ki : CamelKeyTable) (root L : Z) (T : list (Z * entry)) : Prop :=
  exists C kbs, BF s C P ∅ /\ key_blocks ki root C P kbs /\ keys_of kbs = T /\ word C 0 ROOT_LAST = L.

Inductive key_op :=
  | KeyAdd (key : list Z) (data flags : Z) | KeySetData (keyid data : Z) | KeySetFlags (keyid flags set : Z)
  | KeyLookup (keyid : Z) (keyp : bool) | KeyNext (fuel : nat) (keyid : Z).

Inductive key_res :=
  | KeyId (keyid : Z) | KeyDone (b : bool) | KeyFound (data : Z) (key : option (list Z)) (flags : Z) | KeyNextIs (o : option (Z * list Z * Z * Z)).

Definition key_run (ki : CamelKeyTable) (o : key_op) : M key_res :=
  match o with
  | KeyAdd key data flags => k ← camel_key_table_add ki key data flags; mret (KeyId k)
  | KeySetData k data => b ← camel_key_table_set_data ki k data; mret (KeyDone b)
  | KeySetFlags k fl set => b ← camel_key_table_set_flags ki k fl set; mret (KeyDone b)
  | KeyLookup k keyp => r ← camel_key_table_lookup ki k keyp; mret (KeyFound (fst (fst r)) (snd (fst r)) (snd r))
  | KeyNext fuel k => r ← camel_key_table_next fuel ki k; mret (KeyNextIs r)
  end.

(** Keys are not empty and have no NUL, the file does not grow over four
    gigabytes, and the numbers are those of keys. *)
Definition key_allowed (o : key_op) (L : Z) (T : list (Z * entry)) : Prop :=
  match o with
  | KeyAdd key _ _ => key <> [] /\ Forall (fun c => 0 < c < 256) key /\ L + 1024 < 2 ^ 32
  | KeySetData k _ | KeySetFlags k _ _ | KeyLookup k _ => exists e, (k, e) ∈ T
  | KeyNext fuel k => (k = 0 \/ exists e, (k, e) ∈ T) /\ (2 <= fuel)%nat /\ L + 127 < 2 ^ 32
  end.

(** What an operation does to the list. *)
Definition key_step (o : key_op) (T : list (Z * entry)) (r : key_res) (T' : list (Z * entry)) : Prop :=
  match o, r with
  | KeyAdd key data flags, KeyId k => k <> 0 /\ k ∉ map fst T /\ T' = T ++ [(k, Entry (take 128 key) data (flags mod 2 ^ 22))]
  | KeySetData k data, KeyDone b => b = true /\ exists n e, T !! n = Some (k, e) /\ T' = <[n := (k, Entry (e_key e) data (e_flags e))]> T
  | KeySetFlags k fl set, KeyDone b => b = true /\ exists n e, T !! n = Some (k, e) /\
      T' = <[n := (k, Entry (e_key e) (e_data e) (Z.lor (Z.ldiff (e_flags e) set) (Z.land fl set) mod 2 ^ 22))]> T
  | KeyLookup k keyp, KeyFound data key flags => T' = T /\ exists n e, T !! n = Some (k, e) /\
      data = e_data e /\ key = (if keyp then Some (e_key e) else None) /\ flags = e_flags e
  | KeyNext _ k, KeyNextIs r => T' = T /\ exists o, r = (fun '(k, e) => (k, e_key e, e_flags e, e_data e)) <$> o /\
      (k = 0 /\ o = T !! 0%nat \/ exists n e, T !! n = Some (k, e) /\ o = T !! S n)
  | _, _ => False
  end.

(** ** The refinement *)

Definition key_next (s : CamelBlockFile) (P : gmap loc held) (ki : CamelKeyTable) (root L : Z) (T : list (Z * entry)) (o : key_op) (r : key_res) (s' : CamelBlockFile) : Prop :=
  ok_io s' /\ exists L' T', key_table s' P ki root L' T' /\ key_step o T r T' /\ (L' = L \/ L' = L + 1024 /\ exists key data flags, o = KeyAdd key data flags).

Lemma wp_key_then {A} (m : M A) (f : A -> key_res) (Q : key_res -> CamelBlockFile -> Prop) s : wp m (fun a s' => Q (f a) s') s -> wp (a ← m; mret (f a)) Q s.
Proof. intros H. apply wp_mbind. eapply wp_impl; [exact H|]. intros a s' HQ. by apply wp_mret. Qed.

Lemma key_refines s P ki root L T o : key_table s P ki root L T -> ok_io s -> key_allowed o L T -> wp (key_run ki o) (key_next s P ki root L T o) s.
Proof.
  intros (C & kbs & I & KB & <- & <-) K A. pose proof (kb_chain _ _ _ _ _ KB) as Kc.
  assert (Pos : forall k e, (k, e) ∈ keys_of kbs -> exists n, keys_of kbs !! n = Some (k, e)) by (intros k e H; by apply list_elem_of_lookup_1).
  assert (Nx : forall s' L' kbs' o r, table_after s C P ki root kbs s' L' kbs' -> L' = word C 0 ROOT_LAST \/ L' = word C 0 ROOT_LAST + 1024 /\ (exists key data flags, o = KeyAdd key data flags) ->
    key_step o (keys_of kbs) r (keys_of kbs') -> key_next s P ki root (word C 0 ROOT_LAST) (keys_of kbs) o r s').
  { intros s' L' kbs' o' r [St (C' & I' & KB' & E & _)] HL S. split; [by apply (steady_ok s s')|]. exists L', (keys_of kbs'). split_and!; [by exists C', kbs'|done|done]. }
  destruct o as [key data flags|k data|k fl set|k keyp|fuel k]; cbn [key_run key_allowed] in *; apply wp_key_then.
  - destruct A as (A1 & A2 & A3). eapply wp_key_add; [exact I|exact KB|exact K|exact A3|exact A1|exact A2|].
    intros s' k L' kbs' Tb HL N0 Nk E. eapply Nx; [exact Tb|destruct HL as [HL|HL]; [by left|right; split; [done|by exists key, data, flags]]|by split_and!].
  - destruct A as [e [n H]%Pos]. destruct (keys_position _ _ _ _ H) as (i & id & es & j & Hi & Hj & -> & U & _).
    eapply wp_key_set_data; [exact I|exact KB|exact K|exact Hi|exact Hj|]. intros s' Tb. eapply Nx; [exact Tb|by left|]. split; [done|]. exists n, e. by rewrite U.
  - destruct A as [e [n H]%Pos]. destruct (keys_position _ _ _ _ H) as (i & id & es & j & Hi & Hj & -> & U & _).
    eapply wp_key_set_flags; [exact I|exact KB|exact K|exact Hi|exact Hj|]. intros s' Tb. eapply Nx; [exact Tb|by left|]. split; [done|]. exists n, e. by rewrite U.
  - destruct A as [e [n H]%Pos]. destruct (keys_position _ _ _ _ H) as (i & id & es & j & Hi & Hj & -> & _ & _).
    eapply wp_key_lookup; [exact I|exact KB|exact K|exact Hi|exact Hj|]. intros s' I' St.
    eapply (Nx s' _ kbs); [by apply table_after_same|by left|]. split; [done|]. by exists n, e.
  - destruct A as (A & Fu & Rm). assert (Ho : exists o, k = 0 /\ o = keys_of kbs !! 0%nat \/ exists n e, keys_of kbs !! n = Some (k, e) /\ o = keys_of kbs !! S n).
    { destruct A as [->|[e [n H]%Pos]]; [eexists; by left|exists (keys_of kbs !! S n); right; by exists n, e]. }
    destruct Ho as [o Ho]. eapply wp_key_next; [exact KB|exact I|exact K|exact Fu|exact Rm|exact Ho|]. intros s' I' St.
    eapply (Nx s' _ kbs); [by apply table_after_same|by left|]. split; [done|]. by exists o.
Qed.

(** ** Opening a table *)

Lemma key_chain_flags C C' root kbs : but_flags C C' -> root <> 0 -> key_chain C root kbs -> key_chain C' root kbs.
Proof.
  intros B R0 [K1 K2 K3 K4 K5 K6]. assert (W : forall x w, x <> 0 \/ w <> ROOT_FLAGS -> word C' x w = word C x w) by (intros x w; by apply flags_word).
  constructor; try done.
  - rewrite W; [done|by left].
  - rewrite W; [done|by left].
  - intros i id es H. rewrite W; [by apply (K4 i id es)|by right].
  - intros i id es H. destruct (K4 i id es H) as [Hid _]. rewrite (proj1 B) by lia. by apply (K5 i).
  - intros i id es H. destruct (K4 i id es H) as [Hid _]. rewrite W by (left; lia). by apply (K6 i id es).
Qed.

Lemma key_chain_empty C root : C root = zero_block -> key_chain C root [].
Proof. intros E. constructor; try done; try (unfold word; by rewrite E). apply list.NoDup_singleton. Qed.

Lemma alloc_insert C P p h : alloc_ok C P -> h_id h < word C 0 ROOT_LAST -> alloc_ok C (<[p := h]> P).
Proof. intros [A1 A2 A3] H. constructor; [done|done|]. intros q k [[_ <-]|[_ Hq]]%lookup_insert_Some; [done|by eapply A3]. Qed.

Lemma wp_key_table_new s C P root kbs (Q : option CamelKeyTable -> CamelBlockFile -> Prop) : BF s C P ∅ -> ok_io s -> 0 < root < word C 0 ROOT_LAST ->
  root mod 1024 = 0 -> not_held P root -> alloc_ok C P -> key_chain C root kbs -> (forall id es, (id, es) ∈ kbs -> es <> [] /\ not_held P id) ->
  (forall s' p, BF s' C (<[p := Held root 1 true]> P) ∅ -> key_blocks (mkKeyTable p) root C (<[p := Held root 1 true]> P) kbs -> P !! p = None -> steady s s' ->
    Q (Some (mkKeyTable p)) s') -> wp (camel_key_table_new root) Q s.
Proof.
  intros I K B M N A Kc U HQ. apply wp_mbind. eapply wp_get_fresh; [exact I|exact K|apply valid_block_intro; [lia|exact M]|exact N|]. intros p s1 I1 Hp St1.
  apply wp_mbind. eapply wp_detach; [exact I1|apply lookup_insert_eq|]. intros s2 I2 [St2 _]. rewrite insert_insert_eq in I2.
  apply wp_mret, HQ; [exact I2| |exact Hp|by transitivity s1]. constructor.
  - split; [lia|]. exists 1. apply lookup_insert_eq.
  - apply alloc_insert; [exact A|cbn; lia].
  - exact Kc.
  - intros id es H. by apply (U id es).
  - intros id es H q h [[_ <-]|[_ Hq]]%lookup_insert_Some; [|by eapply (proj2 (U id es H))].
    cbn. intros ->. apply list_elem_of_lookup_1 in H as [i H]. by eapply key_chain_pos.
Qed.

(** A table on a new block. *)
Lemma key_table_empty s C P root s' ki : BF s C P ∅ -> ok_io s -> 0 < root < word C 0 ROOT_LAST -> root mod 1024 = 0 -> not_held P root -> alloc_ok C P -> C root = zero_block ->
  camel_key_table_new root s = Some (Some ki, s') -> exists P', key_table s' P' ki root (word C 0 ROOT_LAST) [].
Proof.
  intros I K B M N A E H. assert (W : wp (camel_key_table_new root) (fun ki s' => forall k, ki = Some k -> exists P', key_table s' P' k root (word C 0 ROOT_LAST) []) s).
  { eapply (wp_key_table_new s C P root []); [done..|by apply key_chain_empty| |].
    - intros id es Hn. by apply not_elem_of_nil in Hn.
    - intros s1 p I1 KB _ _ k [= <-]. exists (<[p := Held root 1 true]> P), C, []. by split_and!. }
  exact (wp_run _ _ _ _ _ W H ki eq_refl).
Qed.

(** ** Syncing and opening again *)

(** Of the blocks that were taken out of the cache only the root blocks of the
    file and of the table may be dirty. *)
Definition tables_clean (s : CamelBlockFile) (ki : CamelKeyTable) : Prop :=
  forall p b, bf_heap s !! p = Some b -> bl_detached b = true -> bl_id b <> 0 -> p <> kt_root_block ki -> bl_dirty b = false.

Lemma wp_key_table_sync s C P ki root kbs (Q : bool -> CamelBlockFile -> Prop) : BF s C P ∅ -> key_blocks ki root C P kbs -> ok_io s -> tables_clean s ki ->
  (forall s', BF s' C P ∅ -> ok_io s' -> detached_clean s' -> Q true s') -> wp (camel_key_table_sync ki) Q s.
Proof.
  intros I KB K TC HQ. apply wp_mbind, (wp_use s (block_cache s) C P ∅); [exact I|]. intros r s1 I1 Co Fr U. rewrite (U K).
  destruct (kb_root _ _ _ _ _ KB) as [_ [n Hn]]. destruct (bf_held I _ _ Hn) as (b & Hb & _).
  assert (K1 : ok_io s1) by (apply (steady_ok s s1); [by apply io_steady|exact K]).
  eapply (wp_sync_block s1 _ C P ∅ _ b _ I1); [by rewrite (sc_heap _ _ Co)| |].
  - intros s2 I2 Fr2 H2 _. assert (Fr3 : io_frame s s2) by (by transitivity s1).
    apply HQ; [by eapply BF_io|apply (steady_ok s s2); [by apply io_steady|exact K]|].
    intros p c Hp D N. rewrite H2, (sc_heap _ _ Co) in Hp. apply lookup_insert_Some in Hp as [[_ <-]|[Np Hp]]; [done|]. by apply (TC p).
  - intros s2 _ _ _ NK. by destruct NK.
Qed.

Section Reopen.
Context (version : list Z) (Lv : length version = 2%nat).

(** What is read from a file that validates. *)
Lemma opened_reads f : disk_ok f -> disk_valid version f = true ->
  exists s, camel_block_file_new (block_file_init version f []) = Some (true, s) /\ BF s (disk_read f) root_held ∅ /\ ok_io s.
Proof.
  intros D V. destruct (wp_total camel_block_file_new (fun b s => b = true /\ BF s (disk_read f) root_held ∅ /\ ok_io s) (block_file_init version f [])) as (b & s & E & -> & B & K).
  - apply wp_new; [exact Lv|exact D| |done]. intros s g F _ _ G. destruct (G eq_refl) as [Eg K]. split_and!; [done| |exact K].
    unfold opened_disk in Eg. rewrite V in Eg. subst g. by apply fresh_BF.
  - by exists s.
Qed.

Lemma root_held_lookup p h : root_held !! p = Some h -> h_id h = 0.
Proof. unfold root_held. by intros [_ <-]%lookup_singleton_Some. Qed.

Lemma reopened s P ki root L T s1 s2 : key_table s P ki root L T -> ok_io s -> tables_clean s ki -> 0 < root -> root mod 1024 = 0 ->
  camel_key_table_sync ki s = Some (true, s1) -> camel_block_file_sync s1 = Some (true, s2) -> disk_valid version (bf_file s2) = true ->
  exists s3 ki' s4 P', camel_block_file_new (block_file_init version (bf_file s2) []) = Some (true, s3) /\ camel_key_table_new root s3 = Some (Some ki', s4) /\
    ok_io s4 /\ key_table s4 P' ki' root L T.
Proof.
  intros (C & kbs & I & KB & <- & <-) K TC R0 RM E1 E2 V.
  assert (H1 : BF s1 C P ∅ /\ ok_io s1 /\ detached_clean s1) by (eapply (wp_run (camel_key_table_sync ki) (fun _ s' => BF s' C P ∅ /\ ok_io s' /\ detached_clean s') s); [|exact E1]; eapply wp_key_table_sync; eauto).
  destruct H1 as (I1 & K1 & DC).
  assert (H2 : exists C2, but_flags C C2 /\ BF s2 C2 P ∅ /\ synced s1 s2 C2).
  { eapply (wp_run camel_block_file_sync (fun b s2 => b = true -> exists C2, but_flags C C2 /\ BF s2 C2 P ∅ /\ synced s1 s2 C2) s1); [|exact E2|done].
    eapply wp_sync; [exact I1| |]; [intros s' C' I' B' _ Y _; by exists C'|done]. }
  destruct H2 as (C2 & B & I2 & Y). pose proof (synced_disk _ _ _ _ I2 Y DC) as Dk.
  assert (Bd : but_flags C (disk_read (bf_file s2))) by (destruct B as [B1 B2]; split; [intros id N; by rewrite Dk, B1|intros i N; by rewrite Dk, B2]).
  destruct (opened_reads (bf_file s2)) as (s3 & E3 & I3 & K3); [apply I2|exact V|].
  destruct (kb_alloc _ _ _ _ _ KB) as [A1 A2 A3]. destruct (kb_root _ _ _ _ _ KB) as [_ [n Hn]]. pose proof (A3 _ _ Hn) as RL. cbn in RL.
  assert (W : forall w, w <> ROOT_FLAGS -> word (disk_read (bf_file s2)) 0 w = word C 0 w) by (intros w N; apply flags_word; [exact Bd|by right]).
  destruct (wp_total (camel_key_table_new root) (fun o s4 => exists ki' P', o = Some ki' /\ ok_io s4 /\ key_table s4 P' ki' root (word C 0 ROOT_LAST) (keys_of kbs)) s3) as (o & s4 & E4 & ki' & P' & -> & K4 & T4).
  - eapply (wp_key_table_new s3 _ root_held root kbs); [exact I3|exact K3|rewrite W by done; lia|exact RM| | |eapply key_chain_flags; [exact Bd|lia|apply KB]| |].
    + intros p h Hp. apply root_held_lookup in Hp. lia.
    + constructor; rewrite ?W by done; [done|done|]. intros p h Hp. apply root_held_lookup in Hp. lia.
    + intros id es H. split; [by eapply (kb_used _ _ _ _ _ KB)|]. intros p h Hp. apply root_held_lookup in Hp.
      apply list_elem_of_lookup_1 in H as [i H]. destruct (kc_ids _ _ _ (kb_chain _ _ _ _ _ KB) _ _ _ H). lia.
    + intros s4 p I4 KB4 _ St4. eexists _, _. split_and!; [done|by apply (steady_ok s3 s4)|]. eexists _, kbs. split_and!; [exact I4|exact KB4|done|by rewrite W].
  - exists s3, ki', s4, P'. by split_and!.
Qed.
End Reopen.

(** ** The properties *)

(** C11. A key table is the list of its keys with their numbers: when no call of
    the system fails, adding a key puts it behind the others under a new number
    that is not 0, with its first 128 characters, the data and the low 22 bits
    of the flags; setting the data or the flags of a key changes that record and
    no other; looking a key up gives its record; and the next key is the next of
    the list, the first one after 0, nothing after the last one.  Every
    operation returns, and gives back the blocks it asked for. *)
Theorem key_table_refines s P ki root L T o : key_table s P ki root L T -> ok_io s -> key_allowed o L T ->
  exists r s' L' T', key_run ki o s = Some (r, s') /\ ok_io s' /\ key_table s' P ki root L' T' /\ key_step o T r T' /\
    (L' = L \/ L' = L + 1024 /\ exists key data flags, o = KeyAdd key data flags).
Proof.
  intros H K A. destruct (wp_total _ _ _ (key_refines s P ki root L T o H K A)) as (r & s' & E & K' & L' & T' & H' & S & HL).
  exists r, s', L', T'. by split_and!.
Qed.

(** C21. The keys outlive the program: when the table and the file were synced
    and the file on disk validates, opening the file and the table again gives
    the same keys with the same numbers, data and flags. *)
Theorem key_table_reopen version s P ki root L T s1 s2 : length version = 2%nat -> key_table s P ki root L T -> ok_io s -> tables_clean s ki ->
  0 < root -> root mod 1024 = 0 -> camel_key_table_sync ki s = Some (true, s1) -> camel_block_file_sync s1 = Some (true, s2) ->
  disk_valid version (bf_file s2) = true ->
  exists s3 ki' s4 P', camel_block_file_new (block_file_init version (bf_file s2) []) = Some (true, s3) /\
    camel_key_table_new root s3 = Some (Some ki', s4) /\ ok_io s4 /\ key_table s4 P' ki' root L T.
Proof. intros Lv. by apply reopened. Qed.

(** ** Witnesses *)

(** A new file with a block for the table. *)
Definition key_file : CamelBlockFile * view := played (fun o _ => allowedb o) [OpNew; OpUnref 2%positive] sample_new sample_view.
Definition key_ki : CamelKeyTable := mkKeyTable 2%positive.
Definition key_opened : CamelBlockFile := match camel_key_table_new 1024 (fst key_file) with Some (_, s) => s | None => fst key_file end.
Definition key_added : CamelBlockFile := match key_run key_ki (KeyAdd [104; 105] 7 1) key_opened with Some (_, s) => s | None => key_opened end.
Definition key_synced : CamelBlockFile :=
  match camel_key_table_sync key_ki key_added with
  | Some (_, s) => match camel_block_file_sync s with Some (_, s') => s' | None => s end
  | None => key_added
  end.

Lemma key_opened_empty : exists P, key_table key_opened P key_ki 1024 2048 [].
Proof.
  assert (R : reachable sample_version sample_disk (fst key_file) (snd key_file)).
  { apply (play_reachable sample_version sample_disk [OpNew; OpUnref 2%positive] sample_new sample_view); [apply sample_new_reachable|].
    unfold key_file, played. set (o := play _ _ _ _). assert (E : is_Some o) by (vm_compute; eauto). destruct E as [[s v] ->]. reflexivity. }
  destruct (reachable_represents sample_version sample_disk eq_refl sample_disk_ok _ _ R) as (C & B & I).
  assert (EP : v_held (snd key_file) = root_held) by (vm_compute; reflexivity). assert (EX : v_written (snd key_file) = ∅) by (vm_compute; reflexivity).
  rewrite EP, EX in I. assert (W : forall w, w <> ROOT_FLAGS -> word C 0 w = word (v_contents (snd key_file)) 0 w) by (intros w N; apply flags_word; [exact B|by right]).
  assert (WL : word C 0 ROOT_LAST = 2048) by (rewrite W by done; vm_compute; reflexivity).
  rewrite <- WL. eapply (key_table_empty (fst key_file) C root_held 1024 key_opened key_ki); [exact I|split; vm_compute; reflexivity|rewrite WL; lia|reflexivity| | | |].
  - intros p h Hp E. apply root_held_lookup in Hp. lia.
  - constructor; [rewrite W by done; vm_compute; reflexivity|rewrite WL; split; [lia|reflexivity]|]. intros p h Hp. apply root_held_lookup in Hp. lia.
  - rewrite (proj1 B) by done. vm_compute. reflexivity.
  - vm_compute. reflexivity.
Qed.

Lemma key_table_refines_witness : exists r s', key_run key_ki (KeyAdd [104; 105] 7 1) key_opened = Some (r, s') /\ r = KeyId 2048.
Proof.
  destruct key_opened_empty as [P H].
  destruct (key_table_refines key_opened P key_ki 1024 2048 [] (KeyAdd [104; 105] 7 1) H) as (r & s' & L' & T' & E & _).
  - split; vm_compute; reflexivity.
  - split; [discriminate|]. split; [repeat constructor|reflexivity].
  - exists r, s'. split; [exact E|]. vm_compute in E. injection E as <- _. reflexivity.
Defined.

Lemma key_added_table : exists P L, key_table key_added P key_ki 1024 L [(2048, Entry [104; 105] 7 1)].
Proof.
  destruct key_opened_empty as [P H].
  assert (A : key_allowed (KeyAdd [104; 105] 7 1) 2048 []) by (split; [done|]; split; [repeat constructor|done]).
  pose proof (key_refines key_opened P key_ki 1024 2048 [] _ H ltac:(split; vm_compute; reflexivity) A) as W.
  assert (E : key_run key_ki (KeyAdd [104; 105] 7 1) key_opened = Some (KeyId 2048, key_added)) by (vm_compute; reflexivity).
  destruct (wp_run _ _ _ _ _ W E) as (_ & L' & T' & H' & (_ & _ & ->) & _). by exists P, L'.
Qed.

Lemma tables_clean_b s ki : forallb (fun '(p, b) => negb (bl_detached b) || (bl_id b =? 0) || bool_decide (p = kt_root_block ki) || negb (bl_dirty b)) (map_to_list (bf_heap s)) = true ->
  tables_clean s ki.
Proof.
  rewrite forallb_forall. intros H p b Hp D N NP. specialize (H (p, b)). cbn in H. rewrite D in H. apply Z.eqb_neq in N. rewrite N in H.
  rewrite bool_decide_eq_false_2 in H by done. cbn in H. apply negb_true_iff, H, list_elem_of_In. by apply elem_of_map_to_list.
Qed.

Lemma key_table_reopen_witness : exists s3 ki' s4, camel_block_file_new (block_file_init sample_version (bf_file key_synced) []) = Some (true, s3) /\
  camel_key_table_new 1024 s3 = Some (Some ki', s4) /\ exists P L, key_table s4 P ki' 1024 L [(2048, Entry [104; 105] 7 1)].
Proof.
  destruct key_added_table as (P & L & H).
  destruct (key_table_reopen sample_version key_added P key_ki 1024 L [(2048, Entry [104; 105] 7 1)]
    (match camel_key_table_sync key_ki key_added with Some (_, s) => s | None => key_added end) key_synced eq_refl H) as (s3 & ki' & s4 & P' & E3 & E4 & _ & H4).
  - split; vm_compute; reflexivity.
  - apply tables_clean_b. vm_compute. reflexivity.
  - reflexivity.
  - reflexivity.
  - vm_compute. reflexivity.
  - vm_compute. reflexivity.
  - vm_compute. reflexivity.
  - exists s3, ki', s4. split; [exact E3|]. split; [exact E4|]. exists P', L. exact H4.
Defined.
