(* ===== verification/PartitionTable.v ===== *)
(** * PartitionTable: the hash table of the full-text index
    (the first half of camel/camel-partition-table.c, and its header)

    A partition table finds the number of a key.  The hashes are cut into
    ranges, and a block of keys has the hashes and numbers of one range.  The
    blocks of the map have the ends of the ranges in order; they are kept in
    memory, in a queue.  A block that is full is split with a neighbour that has
    room or with a new block, and a full block of the map is split in two.

    The C library's [qsort] is a parameter: it orders equal hashes as it
    likes.  Characters are signed, as on the usual platforms.  [None] is an
    access outside of an array. *)

From stdpp Require Import base list numbers gmap.
From Stdlib Require Import ZArith Lia.
From S2P Require Import Prelude BlockFile KeyTable.

(** ** The blocks *)

(** [CamelPartitionMapBlock] *)
Definition PM_NEXT : nat := 0.
Definition PM_USED : nat := 1.
Definition N_PARTITION : Z := 127.

(** [CamelPartitionKeyBlock] *)
Definition PK_USED : nat := 0.
Definition N_KEYS : Z := 127.

(** An element of an array of pairs of words, which starts at the word [base]
    and has 127 elements. *)
Definition pair_word (base i : Z) : option nat := if (0 <=? i) && (i <? 127) then Some (Z.to_nat (base + 2 * i)) else None.
Definition get_at (p : loc) (w : option nat) : M Z := match w with Some w => get_word p w | None => fail end.
Definition set_at (p : loc) (w : option nat) (v : Z) : M unit := match w with Some w => set_word p w v | None => fail end.

(** [ptb->partition[i].hashid] and [.blockid]; [kb->keys[i].hashid] and [.keyid]. *)
Definition part_hash (i : Z) : option nat := pair_word 2 i.
Definition part_block (i : Z) : option nat := pair_word 3 i.
Definition pkey_hash (i : Z) : option nat := pair_word 1 i.
Definition pkey_id (i : Z) : option nat := pair_word 2 i.

(** The object.  Its queue is a list of pointers. *)
Record CamelPartitionTable := mkPartitionTable { pt_key_table : option CamelKeyTable; pt_partition : list loc }.

Definition camel_partition_table_set_key_table (cpi : CamelPartitionTable) (key_table : option CamelKeyTable) : CamelPartitionTable :=
  mkPartitionTable key_table (pt_partition cpi).

(** ** Finding the range of a hash *)

Definition key_schar (c : Z) : Z := if c <? 128 then c else c - 256.

Definition key_hash_step (hash c : Z) : Z := Z.lxor (u32 (hash * key_schar c)) (u32 (key_schar c)).

Definition hash_key (key : list Z) : Z := fold_left key_hash_step key 2880290829.

Definition next_jump (jump : Z) : Z := let jump := jump / 2 in if jump =? 0 then 1 else jump.

(** The search in a block of the map: halving steps, then steps of one. *)
Fixpoint search_partition (fuel : nat) (bl : loc) (id index jump : Z) : M Z :=
  match fuel with
  | O => fail
  | S fuel =>
      h ← get_at bl (part_hash index);
      if id <=? h then
        stop ← (if index =? 0 then mret true else prev ← get_at bl (part_hash (index - 1)); mret (id >? prev));
        if stop : bool then mret index else search_partition fuel bl id (index - jump) (next_jump jump)
      else
        used ← get_word bl PM_USED;
        if u32 index >=? u32 (used - 1) then mret index else search_partition fuel bl id (index + jump) (next_jump jump)
  end.

(** Enough for 127 ranges. *)
Definition SEARCH_FUEL : nat := 256.

(** The place in the queue, the block there and the index in it. *)
Fixpoint find_partition (partition : list loc) (link : nat) (id : Z) : M (option (nat * loc * Z)) :=
  match partition with
  | [] => mret None
  | bl :: partition =>
      used ← get_word bl PM_USED;
      fits ← (if used >? 0 then last ← get_at bl (part_hash (used - 1)); mret (id <=? last) else mret false);
      if fits : bool then
        index ← search_partition SEARCH_FUEL bl id (used / 2) (let jump := used / 4 in if jump =? 0 then 1 else jump);
        mret (Some (link, bl, index))
      else find_partition partition (S link) id
  end.

(** ** Opening, syncing and closing *)

Fixpoint sync_all (partition : list loc) : M bool :=
  match partition with
  | [] => mret true
  | bl :: partition => ok ← camel_block_file_sync_block bl; if ok : bool then sync_all partition else mret false
  end.

Definition camel_partition_table_sync (cpi : CamelPartitionTable) : M bool := sync_all (pt_partition cpi).

Fixpoint unref_all (partition : list loc) : M unit :=
  match partition with
  | [] => mret tt
  | bl :: partition => camel_block_file_sync_block bl;; camel_block_file_unref_block bl;; unref_all partition
  end.

Definition partition_table_finalize (cpi : CamelPartitionTable) : M unit :=
  unref_all (pt_partition cpi);; camel_block_file_sync;; mret tt.

(** The first range of a table: all hashes. *)
Definition prime_map (block : loc) : M bool :=
  pblock ← camel_block_file_new_block;
  match pblock with
  | None => camel_block_file_unref_block block;; mret false
  | Some pblock =>
      set_word pblock PK_USED 0;;
      set_word block PM_USED 1;;
      set_at block (part_hash 0) 4294967295;;
      b ← deref pblock;
      set_at block (part_block 0) (bl_id b);;
      camel_block_file_touch_block pblock;;
      camel_block_file_unref_block pblock;;
      camel_block_file_touch_block block;;
      mret true
  end.

(** The loop that reads the blocks of the map; they may be a circle in a broken
    file, hence the fuel. *)
Fixpoint read_maps (fuel : nat) (partition : list loc) (root : Z) : M (option CamelPartitionTable) :=
  match fuel with
  | O => fail
  | S fuel =>
      block ← camel_block_file_get_block root;
      match block with
      | None => partition_table_finalize (mkPartitionTable None partition);; mret None
      | Some block =>
          used ← get_word block PM_USED;
          next ← get_word block PM_NEXT;
          ok ← (if (used =? 0) && bool_decide (partition = []) && (next =? 0) then prime_map block else mret true);
          if ok : bool then
            root ← get_word block PM_NEXT;
            camel_block_file_detach_block block;;
            let partition := partition ++ [block] in
            if root =? 0 then mret (Some (mkPartitionTable None partition)) else read_maps fuel partition root
          else partition_table_finalize (mkPartitionTable None partition);; mret None
      end
  end.

Definition camel_partition_table_new (fuel : nat) (root : Z) : M (option CamelPartitionTable) := read_maps fuel [] root.

(** ** Looking up and removing *)

(** [g_strcmp0 (stored, key) == 0]; the key ends at its NUL. *)
Fixpoint cstring (l : list Z) : list Z := match l with [] => [] | c :: l => if c =? 0 then [] else c :: cstring l end.
Definition stored_is (stored : option (list Z)) (key : list Z) : bool :=
  match stored with Some l => bytes_eqb (cstring l) key | None => false end.

(** Whether the number is that of the key, which only a table with its keys can
    tell. *)
Definition is_key (cpi : CamelPartitionTable) (keyid : Z) (key : list Z) : M bool :=
  match pt_key_table cpi with
  | None => mret true
  | Some ki => r ← camel_key_table_lookup ki keyid true; mret (stored_is (snd (fst r)) key)
  end.

(** The loop over the keys of a block, from [i] on: the index and the number. *)
Fixpoint scan_keys (fuel : nat) (cpi : CamelPartitionTable) (block : loc) (key : list Z) (hashid i : Z) : M (option (Z * Z)) :=
  match fuel with
  | O => fail
  | S fuel =>
      used ← get_word block PK_USED;
      if i <? used then
        h ← get_at block (pkey_hash i);
        if h =? hashid then
          keyid ← get_at block (pkey_id i);
          same ← is_key cpi keyid key;
          if same : bool then mret (Some (i, keyid)) else scan_keys fuel cpi block key hashid (i + 1)
        else scan_keys fuel cpi block key hashid (i + 1)
      else mret None
  end.

Definition SCAN_FUEL : nat := 129.

Definition camel_partition_table_lookup (cpi : CamelPartitionTable) (key : list Z) : M Z :=
  let hashid := hash_key key in
  found ← find_partition (pt_partition cpi) 0 hashid;
  match found with
  | None => mret 0
  | Some (_, ptblock, index) =>
      blockid ← get_at ptblock (part_block index);
      block ← camel_block_file_get_block blockid;
      match block with
      | None => mret 0
      | Some block =>
          r ← scan_keys SCAN_FUEL cpi block key hashid 0;
          camel_block_file_unref_block block;;
          mret (match r with Some (_, keyid) => keyid | None => 0 end)
      end
  end.

(** The keys behind [i] move up. *)
Fixpoint close_gap (fuel : nat) (block : loc) (i : Z) : M unit :=
  match fuel with
  | O => fail
  | S fuel =>
      used ← get_word block PK_USED;
      if i <? used then
        k ← get_at block (pkey_id (i + 1)); set_at block (pkey_id i) k;;
        h ← get_at block (pkey_hash (i + 1)); set_at block (pkey_hash i) h;;
        close_gap fuel block (i + 1)
      else mret tt
  end.

Definition camel_partition_table_remove (cpi : CamelPartitionTable) (key : list Z) : M bool :=
  let hashid := hash_key key in
  found ← find_partition (pt_partition cpi) 0 hashid;
  match found with
  | None => mret true
  | Some (_, ptblock, index) =>
      blockid ← get_at ptblock (part_block index);
      block ← camel_block_file_get_block blockid;
      match block with
      | None => mret false
      | Some block =>
          r ← scan_keys SCAN_FUEL cpi block key hashid 0;
          match r with
          | Some (i, _) =>
              used ← get_word block PK_USED;
              set_word block PK_USED (u32 (used - 1));;
              close_gap SCAN_FUEL block i;;
              camel_block_file_touch_block block
          | None => mret tt
          end;;
          camel_block_file_unref_block block;;
          mret true
      end
  end.

(** ** Adding *)

(** [memcpy] of keys out of and into the array of a block. *)
Fixpoint get_keys (p : loc) (i : Z) (n : nat) : M (list (Z * Z)) :=
  match n with
  | O => mret []
  | S n => h ← get_at p (pkey_hash i); k ← get_at p (pkey_id i); l ← get_keys p (i + 1) n; mret ((h, k) :: l)
  end.
Fixpoint set_keys (p : loc) (i : Z) (l : list (Z * Z)) : M unit :=
  match l with
  | [] => mret tt
  | (h, k) :: l => set_at p (pkey_hash i) h;; set_at p (pkey_id i) k;; set_keys p (i + 1) l
  end.

(** Where sorted keys are cut in two halves that fit: at a change of the hash
    above the middle, else below it. *)
Fixpoint scan_up (fuel : nat) (hs : list Z) (half upper : nat) : nat :=
  match fuel with
  | O => half
  | S fuel => if (half <? upper)%nat && (nth half hs 0 =? nth (half - 1) hs 0) then scan_up fuel hs (S half) upper else half
  end.
Fixpoint scan_down (fuel : nat) (hs : list Z) (half lower : nat) : nat :=
  match fuel with
  | O => half
  | S fuel => if (lower <? half)%nat && (nth (half - 1) hs 0 =? nth (half - 2) hs 0) then scan_down fuel hs (half - 1) lower else half
  end.
Definition split_point (hs : list Z) : nat :=
  let len := length hs in
  let upper := Nat.min 127 (len - 1) in
  let lower := Nat.max 1 (len - 127) in
  let half := scan_up len hs (len / 2) upper in
  if (upper <=? half)%nat && (nth half hs 0 =? nth (half - 1) hs 0) then scan_down len hs (len / 2) lower else half.

(** The loop that makes place behind [index] in a block of the map. *)
Fixpoint open_gap (fuel : nat) (ptblock : loc) (index i : Z) : M unit :=
  match fuel with
  | O => fail
  | S fuel =>
      if i >? index then
        h ← get_at ptblock (part_hash i); set_at ptblock (part_hash (i + 1)) h;;
        b ← get_at ptblock (part_block i); set_at ptblock (part_block (i + 1)) b;;
        open_gap fuel ptblock index (i - 1)
      else mret tt
  end.

(** [memcpy] of ranges between blocks of the map. *)
Fixpoint copy_parts (from to : loc) (i j : Z) (n : nat) : M unit :=
  match n with
  | O => mret tt
  | S n =>
      h ← get_at from (part_hash i); set_at to (part_hash j) h;;
      b ← get_at from (part_block i); set_at to (part_block j) b;;
      copy_parts from to (i + 1) (j + 1) n
  end.

Definition unref_opt (bl : option loc) : M unit := match bl with Some bl => camel_block_file_unref_block bl | None => mret tt end.

(** A neighbour of the block, if there is one: [None] when it cannot be read. *)
Definition get_neighbour (ptblock : loc) (there : bool) (index : Z) : M (option (option loc)) :=
  if there then
    id ← get_at ptblock (part_block index);
    bl ← camel_block_file_get_block id;
    match bl with Some bl => mret (Some (Some bl)) | None => mret None end
  else mret (Some None).

Definition has_place (bl : option loc) : M (option Z) :=
  match bl with
  | Some bl => used ← get_word bl PK_USED; mret (if used <? N_KEYS then Some used else None)
  | None => mret None
  end.

(** The neighbour that has room, and its index. *)
Definition choose (pblock nblock : option loc) (index : Z) : M (option (loc * Z)) :=
  pused ← has_place pblock;
  nused ← has_place nblock;
  mret (match pblock, pused, nblock, nused with
        | Some p, Some pu, Some n, Some nu => if pu <? nu then Some (n, index + 1) else Some (p, index - 1)
        | Some p, Some _, _, _ => Some (p, index - 1)
        | _, _, Some n, Some _ => Some (n, index + 1)
        | _, _, _, _ => None
        end).

(** The full block of the map at [link] is split; the block and the index where
    the range is now. *)
Definition split_map (cpi : CamelPartitionTable) (link : nat) (ptblock : loc) (index : Z) : M (option (CamelPartitionTable * loc * Z)) :=
  used ← get_word ptblock PM_USED;
  if used >=? N_PARTITION then
    ptn ← camel_block_file_new_block;
    match ptn with
    | None => mret None
    | Some ptn =>
        camel_block_file_detach_block ptn;;
        next ← get_word ptblock PM_NEXT;
        set_word ptn PM_NEXT next;;
        b ← deref ptn;
        set_word ptblock PM_NEXT (bl_id b);;
        let len := used / 2 in
        set_word ptn PM_USED (used - len);;
        set_word ptblock PM_USED len;;
        copy_parts ptblock ptn len 0 (Z.to_nat (used - len));;
        let partition := take (S link) (pt_partition cpi) ++ [ptn] ++ drop (S link) (pt_partition cpi) in
        let cpi := mkPartitionTable (pt_key_table cpi) partition in
        camel_block_file_touch_block ptn;;
        if index >? len then camel_block_file_touch_block ptblock;; mret (Some (cpi, ptn, index - len))
        else mret (Some (cpi, ptblock, index))
    end
  else mret (Some (cpi, ptblock, index)).

(** A new block of keys behind the one at [index]. *)
Definition new_range (ptblock : loc) (index : Z) : M (option loc) :=
  newblock ← camel_block_file_new_block;
  match newblock with
  | None => mret None
  | Some newblock =>
      used ← get_word ptblock PM_USED;
      open_gap SEARCH_FUEL ptblock index (used - 1);;
      set_word ptblock PM_USED (used + 1);;
      set_word newblock PK_USED 0;;
      h ← get_at ptblock (part_hash index); set_at ptblock (part_hash (index + 1)) h;;
      b ← deref newblock;
      set_at ptblock (part_block (index + 1)) (bl_id b);;
      mret (Some newblock)
  end.

Section Add.
Context (qsort : list (Z * Z) -> list (Z * Z)).

(** The keys of the two blocks and the new one are sorted and cut. *)
Definition split_keys (ptblock block newblock : loc) (index newindex hashid keyid : Z) : M unit :=
  used ← get_word block PK_USED;
  l1 ← get_keys block 0 (Z.to_nat used);
  newused ← get_word newblock PK_USED;
  l2 ← get_keys newblock 0 (Z.to_nat newused);
  let keys := qsort (l1 ++ l2 ++ [(hashid, keyid)]) in
  let half := split_point (map fst keys) in
  let partid := nth (half - 1) (map fst keys) 0 in
  let low := if index <? newindex then block else newblock in
  let high := if index <? newindex then newblock else block in
  set_keys low 0 (take half keys);;
  set_word low PK_USED (Z.of_nat half);;
  set_keys high 0 (drop half keys);;
  set_word high PK_USED (Z.of_nat (length keys - half));;
  set_at ptblock (part_hash (if index <? newindex then index else newindex)) partid;;
  camel_block_file_touch_block ptblock;;
  camel_block_file_touch_block newblock;;
  camel_block_file_unref_block newblock.

(** The last steps of an addition that worked. *)
Definition finish_add (block : loc) (cpi : CamelPartitionTable) : M (bool * CamelPartitionTable) :=
  camel_block_file_touch_block block;;
  camel_block_file_unref_block block;;
  mret (true, cpi).

(** A full block with its neighbours: its keys are shared with the one that has
    room, or with a new block. *)
Definition add_chosen (cpi : CamelPartitionTable) (link : nat) (ptblock : loc) (index : Z) (block : loc) (pblock nblock : option loc) (hashid keyid : Z) : M (bool * CamelPartitionTable) :=
  chosen ← choose pblock nblock index;
  match chosen with
  | Some (newblock, newindex) =>
      (if bool_decide (pblock = Some newblock) then unref_opt nblock else unref_opt pblock);;
      split_keys ptblock block newblock index newindex hashid keyid;;
      finish_add block cpi
  | None =>
      s ← split_map cpi link ptblock index;
      match s with
      | None => unref_opt nblock;; unref_opt pblock;; mret (false, cpi)
      | Some (cpi, ptblock, index) =>
          n ← new_range ptblock index;
          match n with
          | None => unref_opt nblock;; unref_opt pblock;; mret (false, cpi)
          | Some newblock =>
              unref_opt nblock;; unref_opt pblock;;
              split_keys ptblock block newblock index (index + 1) hashid keyid;;
              finish_add block cpi
          end
      end
  end.

(** The block is full. *)
Definition add_split (cpi : CamelPartitionTable) (link : nat) (ptblock : loc) (index : Z) (block : loc) (hashid keyid : Z) : M (bool * CamelPartitionTable) :=
  pb ← get_neighbour ptblock (index >? 0) (index - 1);
  match pb with
  | None => mret (false, cpi)
  | Some pblock =>
      used ← get_word ptblock PM_USED;
      nb ← get_neighbour ptblock (index <? used - 1) (index + 1);
      match nb with
      | None => unref_opt pblock;; mret (false, cpi)
      | Some nblock => add_chosen cpi link ptblock index block pblock nblock hashid keyid
      end
  end.

Definition camel_partition_table_add (cpi : CamelPartitionTable) (key : list Z) (keyid : Z) : M (bool * CamelPartitionTable) :=
  let hashid := hash_key key in
  found ← find_partition (pt_partition cpi) 0 hashid;
  match found with
  | None => mret (false, cpi)
  | Some (link, ptblock, index) =>
      blockid ← get_at ptblock (part_block index);
      bl ← camel_block_file_get_block blockid;
      match bl with
      | None => mret (false, cpi)
      | Some block =>
          used ← get_word block PK_USED;
          if used <? N_KEYS then
            set_at block (pkey_hash used) hashid;;
            set_at block (pkey_id used) keyid;;
            set_word block PK_USED (used + 1);;
            finish_add block cpi
          else add_split cpi link ptblock index block hashid keyid
      end
  end.
End Add.
