(* ===== verification/PartitionInv.v ===== *)
(** * PartitionInv: the ranges of a partition table, and the search

    The table is a list of ranges of hashes with their keys, cut into the blocks
    of the map.  A block of the map and a block of keys both hold an array of pairs of words
    and the number of its elements.  What the loops over these arrays do, and why the
    search for a range ends. *)

From stdpp Require Import base list numbers gmap functions.
From Stdlib Require Import ZArith Lia.
From S2P Require Import Prelude BlockFile BlockFileInv BlockFileOps KeyTable KeyBlocks KeyTableInv KeyTableSpec PartitionTable.

(** ** The array as a list *)

(** The pairs [l] at the index [i] of the array that starts at the word [base]. *)
Fixpoint put_pairs (base : nat) (d : list Z) (i : nat) (l : list (Z * Z)) : list Z :=
  match l with
  | [] => d
  | (h, v) :: l => put_pairs base (<[(base + 1 + 2 * i)%nat := v]> (<[(base + 2 * i)%nat := h]> d)) (S i) l
  end.

Definition pair_at (base : nat) (d : list Z) (i : nat) (x : Z * Z) : Prop :=
  d !! (base + 2 * i)%nat = Some (fst x) /\ d !! (base + 1 + 2 * i)%nat = Some (snd x).

(** The word [cnt] has the number of the pairs. *)
Record pairs_rep (base cnt : nat) (d : list Z) (l : list (Z * Z)) : Prop := {
  pr_length : length d = WORDS;
  pr_count : d !! cnt = Some (Z.of_nat (length l));
  pr_bound : (length l <= 127)%nat;
  pr_pairs : forall i x, l !! i = Some x -> pair_at base d i x }.

Lemma put_pairs_length base l : forall d i, length (put_pairs base d i l) = length d.
Proof. induction l as [|[h v] l IH]; intros d i; cbn [put_pairs]; [done|]. by rewrite IH, !length_insert. Qed.

Lemma put_pairs_other base l : forall d i w, (w < base + 2 * i \/ base + 2 * (i + length l) <= w)%nat -> put_pairs base d i l !! w = d !! w.
Proof.
  induction l as [|[h v] l IH]; intros d i w H; cbn [put_pairs length] in *; [done|]. rewrite IH by lia. by rewrite !list_lookup_insert_ne by lia.
Qed.

Lemma put_pairs_at base l : forall d i j x, (base + 2 * (i + length l) <= length d)%nat -> l !! j = Some x -> pair_at base (put_pairs base d i l) (i + j) x.
Proof.
  induction l as [|[h v] l IH]; intros d i j x L H; [done|]. cbn [put_pairs length] in *. destruct j as [|j].
  - injection H as <-. unfold pair_at. rewrite Nat.add_0_r, !put_pairs_other by lia. split.
    + rewrite list_lookup_insert_ne, list_lookup_insert_eq by lia. done.
    + rewrite list_lookup_insert_eq by (rewrite length_insert; lia). done.
  - replace (i + S j)%nat with (S i + j)%nat by lia. apply IH; [rewrite !length_insert; lia|exact H].
Qed.

(** Writing in front of the pairs. *)
Lemma put_pairs_before base l : forall d i w v, (w < base + 2 * i)%nat -> <[w := v]> (put_pairs base d i l) = put_pairs base (<[w := v]> d) i l.
Proof.
  induction l as [|[h k] l IH]; intros d i w v H; cbn [put_pairs]; [done|]. rewrite IH by lia. f_equal.
  rewrite (list_insert_insert_ne _ w (base + 1 + 2 * i)) by lia. f_equal. by rewrite list_insert_insert_ne by lia.
Qed.

Lemma put_pairs_cons base d i h v l :
  <[(base + 1 + 2 * i)%nat := v]> (<[(base + 2 * i)%nat := h]> (put_pairs base d (S i) l)) = put_pairs base d i ((h, v) :: l).
Proof. cbn [put_pairs]. by rewrite !put_pairs_before by lia. Qed.

(** The pairs of a block after others were put behind the first [i]. *)
Lemma pairs_rep_put base cnt d l l' i : pairs_rep base cnt d l -> (base <= 2)%nat -> (cnt < base)%nat -> (i <= length l)%nat -> (i + length l' <= 127)%nat ->
  pairs_rep base cnt (<[cnt := Z.of_nat (i + length l')]> (put_pairs base d i l')) (take i l ++ l').
Proof.
  intros [L K B P] Hb Hc Hi Hl. assert (LL : length (take i l ++ l') = (i + length l')%nat) by (rewrite length_app, length_take; lia).
  assert (W : (base + 2 * (i + length l') <= length d)%nat) by (rewrite L; unfold WORDS; lia). constructor.
  - by rewrite length_insert, put_pairs_length.
  - rewrite list_lookup_insert_eq by (rewrite put_pairs_length; lia). by rewrite LL.
  - lia.
  - intros j x Hj. unfold pair_at. rewrite !list_lookup_insert_ne by lia. apply lookup_app_Some in Hj as [Hj|[Lj Hj]].
    + rewrite lookup_take_Some in Hj. destruct Hj as [Hj Lj]. rewrite !put_pairs_other by lia. by apply P.
    + rewrite length_take, Nat.min_l in Lj, Hj by lia. replace j with (i + (j - i))%nat by lia. by apply put_pairs_at.
Qed.

Lemma pairs_rep_zero base cnt : (cnt < 256)%nat -> pairs_rep base cnt zero_block [].
Proof. intros H. constructor; [done| |cbn; lia|done]. unfold zero_block. rewrite lookup_replicate_2; [done|]. exact H. Qed.

(** ** Single accesses *)

Lemma pair_word_nat base (i : nat) : (i < 127)%nat -> pair_word (Z.of_nat base) (Z.of_nat i) = Some (base + 2 * i)%nat.
Proof. intros H. unfold pair_word. rewrite (proj2 (Z.leb_le 0 _)), (proj2 (Z.ltb_lt _ 127)) by lia. f_equal. lia. Qed.

Section Access.
Context (C0 : Z -> list Z) (P : gmap loc held) (p : loc) (id n : Z) (dt : bool) (Hp : P !! p = Some (Held id n dt)).

Lemma wp_get_pair s X d b i v (Q : Z -> CamelBlockFile -> Prop) : BF s (put C0 id d) P X -> (i < 127)%nat -> d !! (b + 2 * i)%nat = Some v ->
  Q v s -> wp (get_at p (pair_word (Z.of_nat b) (Z.of_nat i))) Q s.
Proof. intros I Hi D HQ. rewrite pair_word_nat by done. eapply wp_get_at; [exact I|exact Hp|exact D|exact HQ]. Qed.

Lemma wp_set_pair s X d b i v (Q : unit -> CamelBlockFile -> Prop) : BF s (put C0 id d) P X -> (i < 127)%nat -> (b + 2 * i < WORDS)%nat ->
  (forall s', BF s' (put C0 id (<[(b + 2 * i)%nat := v]> d)) P (X ∪ {[p]}) -> steady s s' -> Q tt s') -> wp (set_at p (pair_word (Z.of_nat b) (Z.of_nat i)) v) Q s.
Proof. intros I Hi Hw HQ. rewrite pair_word_nat by done. eapply wp_set_at; [exact I|exact Hp|exact Hw|exact HQ]. Qed.

Lemma BF_X s C X Y : BF s C P X -> X ⊆ Y -> Y ⊆ X ∪ {[p]} -> BF s C P Y.
Proof.
  intros I S T. eapply BFq_more; [exact I|exact S|]. intros q Hq. apply T in Hq. apply elem_of_union in Hq as [Hq|Hq]; [by apply (bq_touch _ _ _ _ _ I)|].
  apply elem_of_singleton in Hq as ->. by rewrite Hp.
Qed.

(** ** Loops *)

Lemma wp_get_keys_list s X d l (Q : list (Z * Z) -> CamelBlockFile -> Prop) : BF s (put C0 id d) P X -> forall i,
  (i + length l <= 127)%nat -> (forall j x, l !! j = Some x -> pair_at 1 d (i + j) x) -> Q l s -> wp (get_keys p (Z.of_nat i) (length l)) Q s.
Proof.
  intros I. revert Q. induction l as [|[h k] l IH]; intros Q i L H HQ; [by apply wp_mret|]. cbn [length] in *.
  destruct (H 0%nat (h, k) eq_refl) as [H1 H2]. rewrite Nat.add_0_r in *. cbn [fst snd] in *. cbn [get_keys].
  apply wp_mbind. eapply (wp_get_pair s X d 1 i); [exact I|lia|exact H1|].
  apply wp_mbind. eapply (wp_get_pair s X d 2 i); [exact I|lia|exact H2|].
  apply wp_mbind. replace (Z.of_nat i + 1) with (Z.of_nat (S i)) by lia. apply IH; [lia| |by apply wp_mret].
  intros j x Hj. replace (S i + j)%nat with (i + S j)%nat by lia. by apply H.
Qed.

Lemma wp_set_keys_list l : forall s X d i (Q : unit -> CamelBlockFile -> Prop), BF s (put C0 id d) P X -> (i + length l <= 127)%nat ->
  (forall s', BF s' (put C0 id (put_pairs 1 d i l)) P (X ∪ {[p]}) -> steady s s' -> Q tt s') -> wp (set_keys p (Z.of_nat i) l) Q s.
Proof.
  induction l as [|[h k] l IH]; intros s X d i Q I L HQ; cbn [set_keys length put_pairs] in *.
  - apply wp_mret, HQ; [|done]. eapply BF_X; [exact I|set_solver|done].
  - apply wp_mbind. eapply (wp_set_pair s X d 1 i); [exact I|lia|unfold WORDS; lia|]. intros s1 I1 St1.
    apply wp_mbind. eapply (wp_set_pair s1 _ _ 2 i); [exact I1|lia|unfold WORDS; lia|]. intros s2 I2 St2.
    replace (Z.of_nat i + 1) with (Z.of_nat (S i)) by lia. eapply IH; [exact I2|lia|]. intros s3 I3 St3.
    apply HQ; [|by transitivity s1; [|transitivity s2]]. eapply BF_X; [|reflexivity|set_solver].
    assert (EX : X ∪ {[p]} ∪ {[p]} ∪ {[p]} = X ∪ {[p]}) by set_solver. rewrite EX in I3. exact I3.
Qed.

(** The keys behind the one that is removed move to its place. *)
Lemma wp_close_gap l : forall fuel s X d i used (Q : unit -> CamelBlockFile -> Prop), BF s (put C0 id d) P X -> (length l < fuel)%nat -> (i + length l <= 126)%nat ->
  d !! PK_USED = Some used -> used = Z.of_nat (i + length l) -> (forall j x, l !! j = Some x -> pair_at 1 d (S i + j) x) ->
  (forall s', BF s' (put C0 id (put_pairs 1 d i l)) P (X ∪ {[p]}) -> steady s s' -> Q tt s') -> wp (close_gap fuel p (Z.of_nat i)) Q s.
Proof.
  induction l as [|[h k] l IH]; intros fuel s X d i used Q I F L U -> H HQ; (destruct fuel as [|fuel]; [cbn in F; lia|]); cbn [length put_pairs close_gap] in *;
    (apply wp_mbind; eapply wp_get_at; [exact I|exact Hp|exact U|]).
  - rewrite (proj2 (Z.ltb_ge _ _)) by lia. apply wp_mret, HQ; [|done]. eapply BF_X; [exact I|set_solver|done].
  - rewrite (proj2 (Z.ltb_lt _ _)) by lia. destruct (H 0%nat (h, k) eq_refl) as [H1 H2]. rewrite Nat.add_0_r in *. cbn [fst snd] in *.
    replace (Z.of_nat i + 1) with (Z.of_nat (S i)) by lia.
    apply wp_mbind. eapply (wp_get_pair s X d 2 (S i)); [exact I|lia|exact H2|].
    apply wp_mbind. eapply (wp_set_pair s X d 2 i); [exact I|lia|unfold WORDS; lia|]. intros s1 I1 St1.
    apply wp_mbind. eapply (wp_get_pair s1 _ _ 1 (S i)); [exact I1|lia|rewrite list_lookup_insert_ne by lia; exact H1|].
    apply wp_mbind. eapply (wp_set_pair s1 _ _ 1 i); [exact I1|lia|unfold WORDS; lia|]. intros s2 I2 St2.
    rewrite list_insert_insert_ne in I2 by lia.
    eapply (IH fuel s2 _ _ (S i)); [exact I2|lia|lia|rewrite !list_lookup_insert_ne by (unfold PK_USED; lia); exact U|lia| |].
    + intros j x Hj. destruct (H (S j) x Hj) as [J1 J2]. unfold pair_at. rewrite !list_lookup_insert_ne by lia.
      replace (S (S i) + j)%nat with (S i + S j)%nat by lia. by split.
    + intros s3 I3 St3. apply HQ; [|by transitivity s1; [|transitivity s2]].
      assert (EX : X ∪ {[p]} ∪ {[p]} ∪ {[p]} = X ∪ {[p]}) by set_solver. rewrite EX in I3. exact I3.
Qed.

(** The ranges behind [index] move up by one. *)
Lemma wp_open_gap l index : forall m fuel s X d (Q : unit -> CamelBlockFile -> Prop), let i := (index + m)%nat in
  BF s (put C0 id (put_pairs 2 d (S (S i)) (drop (S i) l))) P X -> (m < fuel)%nat -> (S i <= length l)%nat -> (length l <= 126)%nat -> length d = WORDS ->
  (forall j x, l !! j = Some x -> pair_at 2 d j x) ->
  (forall s', BF s' (put C0 id (put_pairs 2 d (S (S index)) (drop (S index) l))) P (X ∪ {[p]}) -> steady s s' -> Q tt s') ->
  wp (open_gap fuel p (Z.of_nat index) (Z.of_nat i)) Q s.
Proof.
  induction m as [|m IH]; intros fuel s X d Q i I F Hi L Ld H HQ; (destruct fuel as [|fuel]; [lia|]); cbn [open_gap].
  - unfold i in *. rewrite Nat.add_0_r in *. rewrite Z.gtb_ltb, (proj2 (Z.ltb_ge _ _)) by lia. apply wp_mret, HQ; [|done]. eapply BF_X; [exact I|set_solver|done].
  - rewrite Z.gtb_ltb, (proj2 (Z.ltb_lt _ _)) by (unfold i; lia). destruct (lookup_lt_is_Some_2 l i) as [[h b] E]; [lia|]. destruct (H i _ E) as [H1 H2].
    replace (Z.of_nat i + 1) with (Z.of_nat (S i)) by lia. replace (Z.of_nat i - 1) with (Z.of_nat (index + m)) by (unfold i; lia).
    apply wp_mbind. eapply (wp_get_pair s X _ 2 i); [exact I|lia|rewrite put_pairs_other by lia; exact H1|].
    apply wp_mbind. eapply (wp_set_pair s X _ 2 (S i)); [exact I|lia|unfold WORDS; lia|]. intros s1 I1 St1.
    apply wp_mbind. eapply (wp_get_pair s1 _ _ 3 i); [exact I1|lia|rewrite list_lookup_insert_ne, put_pairs_other by lia; exact H2|].
    apply wp_mbind. eapply (wp_set_pair s1 _ _ 3 (S i)); [exact I1|lia|unfold WORDS; lia|]. intros s2 I2 St2.
    change (3 + 2 * S i)%nat with (2 + 1 + 2 * S i)%nat in I2. rewrite put_pairs_cons in I2. cbn [fst snd] in I2. rewrite <- (drop_S _ _ _ E) in I2.
    assert (Ei : i = S (index + m)) by (unfold i; lia). rewrite Ei in I2.
    eapply IH; [exact I2|lia|lia|exact L|exact Ld|exact H|]. intros s3 I3 St3. apply HQ; [|by transitivity s1; [|transitivity s2]].
    assert (EX : X ∪ {[p]} ∪ {[p]} ∪ {[p]} = X ∪ {[p]}) by set_solver. rewrite EX in I3. exact I3.
Qed.
End Access.

(** Ranges are copied from one block of the map to another. *)
Lemma wp_copy_parts C0 P p q id id' n n' dt dt' l : P !! p = Some (Held id n dt) -> P !! q = Some (Held id' n' dt') -> id <> id' ->
  forall s X d i j (Q : unit -> CamelBlockFile -> Prop), BF s (put C0 id' d) P X -> (i + length l <= 127)%nat -> (j + length l <= 127)%nat ->
  (forall k x, l !! k = Some x -> pair_at 2 (C0 id) (i + k) x) ->
  (forall s', BF s' (put C0 id' (put_pairs 2 d j l)) P (X ∪ {[q]}) -> steady s s' -> Q tt s') ->
  wp (copy_parts p q (Z.of_nat i) (Z.of_nat j) (length l)) Q s.
Proof.
  intros Hp Hq N. induction l as [|[h b] l IH]; intros s X d i j Q I Li Lj H HQ; cbn [copy_parts length put_pairs] in *.
  - apply wp_mret, HQ; [|done]. eapply BF_X; [exact Hq|exact I|set_solver|done].
  - destruct (H 0%nat (h, b) eq_refl) as [H1 H2]. rewrite Nat.add_0_r in *. cbn [fst snd] in *.
    assert (E : forall d', put C0 id' d' id = C0 id) by (intros d'; by apply put_ne).
    apply wp_mbind. eapply (wp_get_pair _ P p id n dt Hp s X (C0 id) 2 i); [apply (BF_put _ _ _ _ _ _ I (E _))|lia|exact H1|].
    apply wp_mbind. eapply (wp_set_pair C0 P q id' n' dt' Hq s X d 2 j); [exact I|lia|unfold WORDS; lia|]. intros s1 I1 St1.
    apply wp_mbind. eapply (wp_get_pair _ P p id n dt Hp s1 _ (C0 id) 3 i); [apply (BF_put _ _ _ _ _ _ I1 (E _))|lia|exact H2|].
    apply wp_mbind. eapply (wp_set_pair C0 P q id' n' dt' Hq s1 _ _ 3 j); [exact I1|lia|unfold WORDS; lia|]. intros s2 I2 St2.
    replace (Z.of_nat i + 1) with (Z.of_nat (S i)) by lia. replace (Z.of_nat j + 1) with (Z.of_nat (S j)) by lia.
    eapply IH; [exact I2|lia|lia| |].
    + intros k x Hk. replace (S i + k)%nat with (i + S k)%nat by lia. by apply H.
    + intros s3 I3 St3. apply HQ; [|by transitivity s1; [|transitivity s2]].
      assert (EX : X ∪ {[q]} ∪ {[q]} ∪ {[q]} = X ∪ {[q]}) by set_solver. rewrite EX in I3. exact I3.
Qed.

(** ** The ranges of a partition table, and the search

    What the blocks of a partition table hold: the blocks of the map in the
    order of the queue, their ranges, and the keys of each range.  Finding the
    range of a hash ends, for every block of the map, and gives the range that
    has the hash. *)

(** ** The search in one block *)

Section Search.
Context (bl : loc) (s : CamelBlockFile) (hs : list Z)
  (Rh : forall i h, hs !! i = Some h -> get_at bl (part_hash (Z.of_nat i)) s = Some (h, s))
  (Ru : get_word bl PM_USED s = Some (Z.of_nat (length hs), s)) (Bu : (length hs <= 127)%nat).

(** The range of the hash: the first element that is not below it, with the one
    before it below. *)
Definition boundary (id : Z) (i : nat) : Prop :=
  (exists h, hs !! i = Some h /\ id <= h) /\ (forall h, (0 < i)%nat -> hs !! (i - 1)%nat = Some h -> h < id).

(** One step. *)
Lemma search_step fuel id i jump h : hs !! i = Some h -> search_partition (S fuel) bl id (Z.of_nat i) jump s =
  if id <=? h then
    if (i =? 0)%nat || (match hs !! (i - 1)%nat with Some prev => id >? prev | None => false end) then Some (Z.of_nat i, s)
    else search_partition fuel bl id (Z.of_nat i - jump) (next_jump jump) s
  else if (length hs - 1 <=? i)%nat then Some (Z.of_nat i, s) else search_partition fuel bl id (Z.of_nat i + jump) (next_jump jump) s.
Proof.
  intros H. pose proof (lookup_lt_Some _ _ _ H) as L. cbn [search_partition]. unfold mbind at 1, M_bind. rewrite (Rh i h H). destruct (id <=? h) eqn:E.
  - destruct (Nat.eqb_spec i 0) as [->|N]; [done|]. replace (Z.of_nat i =? 0) with false by (symmetry; apply Z.eqb_neq; lia).
    destruct (lookup_lt_is_Some_2 hs (i - 1)) as [prev Hp]; [lia|]. rewrite Hp. unfold mbind, M_bind.
    replace (Z.of_nat i - 1) with (Z.of_nat (i - 1)) by lia. rewrite (Rh _ _ Hp). cbn. by destruct (id >? prev).
  - unfold mbind, M_bind. rewrite Ru. unfold u32. rewrite !Z.mod_small by lia. rewrite Z.geb_leb.
    destruct (Nat.leb_spec (length hs - 1) i); [rewrite (proj2 (Z.leb_le _ _)) by lia; done|rewrite (proj2 (Z.leb_gt _ _)) by lia; done].
Qed.

(** Downwards by ones. *)
Lemma search_down id : forall i fuel h, hs !! i = Some h -> id <= h -> (i < fuel)%nat ->
  exists j, search_partition fuel bl id (Z.of_nat i) 1 s = Some (Z.of_nat j, s) /\ boundary id j.
Proof.
  induction i as [|i IH]; intros fuel h H L F; (destruct fuel as [|fuel]; [lia|]); rewrite (search_step _ _ _ _ _ H), (proj2 (Z.leb_le _ _)) by done.
  - exists 0%nat. split; [done|]. split; [by exists h|lia].
  - cbn [Nat.eqb orb]. replace (S i - 1)%nat with i by lia. destruct (lookup_lt_is_Some_2 hs i) as [prev Hp]; [apply lookup_lt_Some in H; lia|].
    rewrite Hp, Z.gtb_ltb. destruct (Z.ltb_spec prev id) as [Lt|Ge].
    + exists (S i). split; [done|]. split; [by exists h|]. replace (S i - 1)%nat with i by lia. intros h' _ Hh. congruence.
    + replace (Z.of_nat (S i) - 1) with (Z.of_nat i) by lia. eapply IH; [exact Hp|lia|lia].
Qed.

(** By ones, whatever the direction, when the last element is not below. *)
Lemma search_ones id last : hs !! (length hs - 1)%nat = Some last -> id <= last -> forall m i fuel, (i + m = length hs - 1)%nat -> hs <> [] -> (length hs < fuel)%nat \/ (m < fuel)%nat /\ (forall h, hs !! i = Some h -> h < id) ->
  exists j, search_partition fuel bl id (Z.of_nat i) 1 s = Some (Z.of_nat j, s) /\ boundary id j.
Proof.
  intros HL Lid. induction m as [|m IH]; intros i fuel E N F; (assert (L0 : (0 < length hs)%nat) by (destruct hs; [done|cbn; lia])).
  - destruct F as [F|[_ F]]; [|exfalso; specialize (F last); rewrite <- E, Nat.add_0_r in HL; specialize (F HL); lia].
    rewrite <- E, Nat.add_0_r in HL. eapply search_down; [exact HL|exact Lid|lia].
  - destruct (lookup_lt_is_Some_2 hs i) as [h H]; [lia|]. destruct (Z.le_gt_cases id h) as [Le|Gt].
    + destruct F as [F|[_ F]]; [|specialize (F h H); lia]. eapply search_down; [exact H|exact Le|lia].
    + destruct fuel as [|fuel]; [lia|]. rewrite (search_step _ _ _ _ _ H), (proj2 (Z.leb_gt _ _)) by done. rewrite (proj2 (Nat.leb_gt _ _)) by lia.
      change (next_jump 1) with 1. replace (Z.of_nat i + 1) with (Z.of_nat (S i)) by lia.
      destruct (lookup_lt_is_Some_2 hs (S i)) as [h' H']; [lia|]. destruct (Z.le_gt_cases id h') as [Le'|Gt'].
      * destruct fuel as [|fuel]; [lia|]. rewrite (search_step _ _ _ _ _ H'), (proj2 (Z.leb_le _ _)) by done. cbn [Nat.eqb orb].
        replace (S i - 1)%nat with i by lia. rewrite H, Z.gtb_ltb, (proj2 (Z.ltb_lt _ _)) by lia. exists (S i). split; [done|]. split; [by exists h'|].
        replace (S i - 1)%nat with i by lia. intros x _ Hx. congruence.
      * apply IH; [lia|done|]. right. split; [lia|]. intros x Hx. congruence.
Qed.

(** The halving steps stay inside of the array. *)
Lemma search_jumps id last : hs !! (length hs - 1)%nat = Some last -> id <= last -> hs <> [] -> forall n jump i fuel, (Z.to_nat jump <= n)%nat -> 1 <= jump ->
  (jump = 1 /\ (i < length hs)%nat) \/ (2 * jump - 1 <= Z.of_nat i /\ Z.of_nat i + 2 * jump - 1 <= Z.of_nat (length hs) - 1) ->
  (length hs + n < fuel)%nat -> exists j, search_partition fuel bl id (Z.of_nat i) jump s = Some (Z.of_nat j, s) /\ boundary id j.
Proof.
  intros HL Lid N. induction n as [|n IH]; intros jump i fuel Ln J Iv F; [lia|].
  destruct (Z.eq_dec jump 1) as [->|NJ]; [eapply (search_ones id last HL Lid (length hs - 1 - i)); [lia|done|left; lia]|].
  destruct Iv as [[? _]|[I1 I2]]; [done|]. assert (D : 1 <= jump / 2 <= jump - 1) by (split; [apply Z.div_le_lower_bound; lia|]; pose proof (Z.div_lt jump 2); lia).
  pose proof (Z.mul_div_le jump 2). assert (EJ : next_jump jump = jump / 2) by (unfold next_jump; by rewrite (proj2 (Z.eqb_neq _ 0)) by lia).
  destruct (lookup_lt_is_Some_2 hs i) as [h H']; [lia|]. destruct fuel as [|fuel]; [lia|]. rewrite (search_step _ _ _ _ _ H'), EJ. destruct (Z.leb_spec id h) as [Le|Gt].
  - destruct (Nat.eqb_spec i 0) as [->|NI]; [lia|]. cbn [orb]. destruct (lookup_lt_is_Some_2 hs (i - 1)) as [prev Hp]; [lia|]. rewrite Hp, Z.gtb_ltb.
    destruct (Z.ltb_spec prev id) as [Lt|Ge].
    + exists i. split; [done|]. split; [by exists h|]. intros x _ Hx. congruence.
    + replace (Z.of_nat i - jump) with (Z.of_nat (i - Z.to_nat jump)) by lia. apply IH; [lia|lia|right; lia|lia].
  - rewrite (proj2 (Nat.leb_gt _ _)) by lia. replace (Z.of_nat i + jump) with (Z.of_nat (i + Z.to_nat jump)) by lia. apply IH; [lia|lia|right; lia|lia].
Qed.

Lemma search_ends id last : hs !! (length hs - 1)%nat = Some last -> id <= last ->
  exists j, search_partition SEARCH_FUEL bl id (Z.of_nat (length hs) / 2) (let jump := Z.of_nat (length hs) / 4 in if jump =? 0 then 1 else jump) s = Some (Z.of_nat j, s) /\ boundary id j.
Proof.
  intros HL Lid. assert (N : hs <> []) by (by intros ->). assert (L0 : (0 < length hs)%nat) by (destruct hs; [done|cbn; lia]). set (u := Z.of_nat (length hs)) in *.
  replace (u / 2) with (Z.of_nat (Z.to_nat (u / 2))) by (pose proof (Z.div_pos u 2); lia). cbn zeta.
  assert (D2 : u / 2 < u) by (apply Z.div_lt; lia). pose proof (Z.mul_div_le u 4). pose proof (Z.mul_div_le u 2). pose proof (Z.mul_succ_div_gt u 2). pose proof (Z.mul_succ_div_gt u 4).
  pose proof (Z.div_pos u 2). destruct (Z.eqb_spec (u / 4) 0) as [E|E].
  - apply (search_jumps id last HL Lid N 1); [lia|lia|left; split; [done|lia]|unfold SEARCH_FUEL; lia].
  - apply (search_jumps id last HL Lid N (Z.to_nat (u / 4))); [lia|lia| |unfold SEARCH_FUEL; lia]. rewrite Z2Nat.id by lia. right. lia.
Qed.
End Search.

(** ** Ranges *)

(** A range: the largest hash in it, and the block with its keys, which are
    pairs of a hash and a number. *)
Record range := Range { r_hi : Z; r_block : Z; r_keys : list (Z * Z) }.

(** A block of the map: where it is in memory, its number, its ranges. *)
Record mapb := MapB { m_ptr : loc; m_id : Z; m_ranges : list range }.

Definition range_pair (r : range) : Z * Z := (r_hi r, r_block r).
Definition ranges_of (maps : list mapb) : list range := concat (map m_ranges maps).
Definition all_keys (maps : list mapb) : list (Z * Z) := concat (map r_keys (ranges_of maps)).
Definition blocks_of (maps : list mapb) : list Z := map m_id maps ++ map r_block (ranges_of maps).

(** Ranges in order, from behind [lo] to [hi], with their keys inside. *)
Fixpoint seg (lo : Z) (rs : list range) (hi : Z) : Prop :=
  match rs with
  | [] => lo = hi
  | r :: rs => lo < r_hi r /\ (forall x, x ∈ r_keys r -> lo < fst x <= r_hi r) /\ seg (r_hi r) rs hi
  end.

Lemma ranges_seg_app lo rs rs' hi : seg lo (rs ++ rs') hi <-> exists mid, seg lo rs mid /\ seg mid rs' hi.
Proof.
  revert lo. induction rs as [|r rs IH]; intros lo; cbn [seg app].
  - split; [intros H; by exists lo|by intros (mid & -> & H)].
  - rewrite IH. split; [intros (A & B & mid & M1 & M2); by exists mid|intros (mid & (A & B & M1) & M2); split_and!; [done..|by exists mid]].
Qed.

Lemma seg_le lo rs hi : seg lo rs hi -> lo <= hi.
Proof. revert lo. induction rs as [|r rs IH]; intros lo; cbn; [lia|]. intros (A & _ & H). apply IH in H. lia. Qed.

Lemma seg_in lo rs hi r : seg lo rs hi -> r ∈ rs -> lo < r_hi r <= hi /\ forall x, x ∈ r_keys r -> lo < fst x <= r_hi r.
Proof.
  revert lo. induction rs as [|y rs IH]; intros lo; [by intros _ ?%not_elem_of_nil|]. cbn. intros (A & B & H) [->|Hr]%elem_of_cons.
  - apply seg_le in H. split; [lia|exact B].
  - destruct (IH _ H Hr) as [C D]. split; [lia|]. intros x Hx. specialize (D x Hx). lia.
Qed.

Lemma ranges_of_app m1 m2 : ranges_of (m1 ++ m2) = ranges_of m1 ++ ranges_of m2.
Proof. unfold ranges_of. by rewrite map_app, concat_app. Qed.

Lemma ranges_of_cons m ms : ranges_of (m :: ms) = m_ranges m ++ ranges_of ms.
Proof. done. Qed.

Lemma all_keys_ranges maps a r b : ranges_of maps = a ++ r :: b -> all_keys maps ≡ₚ r_keys r ++ concat (map r_keys (a ++ b)).
Proof.
  intros E. unfold all_keys. rewrite E, !map_app, !concat_app. cbn [map concat]. apply Permutation_app_swap_app.
Qed.

(** ** The table *)

Definition head_id (nxt : Z) (maps : list mapb) : Z := match maps with m :: _ => m_id m | [] => nxt end.

(** The blocks of the map; behind the last one is [nxt]. *)
Definition map_ok (C : Z -> list Z) (nxt : Z) (m : mapb) : Prop :=
  pairs_rep 2 1 (C (m_id m)) (map range_pair (m_ranges m)) /\ m_ranges m <> [] /\ word C (m_id m) PM_NEXT = nxt.
Fixpoint linked (C : Z -> list Z) (nxt : Z) (maps : list mapb) : Prop :=
  match maps with [] => True | m :: maps => map_ok C (head_id nxt maps) m /\ linked C nxt maps end.

Definition keys_ok (C : Z -> list Z) (r : range) : Prop := pairs_rep 1 0 (C (r_block r)) (r_keys r).

(** All hashes have a range. *)
Definition MAX_HASH : Z := 4294967295.

Record part_rep (C : Z -> list Z) (P : gmap loc held) (cpi : CamelPartitionTable) (maps : list mapb) : Prop := {
  pp_queue : pt_partition cpi = map m_ptr maps;
  pp_held : forall m, m ∈ maps -> exists n, P !! m_ptr m = Some (Held (m_id m) n true);
  pp_linked : linked C 0 maps;
  pp_keys : forall r, r ∈ ranges_of maps -> keys_ok C r;
  pp_seg : seg (-1) (ranges_of maps) MAX_HASH;
  pp_ids : forall x, x ∈ blocks_of maps -> 0 < x < word C 0 ROOT_LAST /\ x mod 1024 = 0;
  pp_nodup : NoDup (blocks_of maps);
  pp_free : forall r, r ∈ ranges_of maps -> not_held P (r_block r);
  pp_alloc : alloc_ok C P }.

Lemma linked_app C nxt m1 m2 : linked C nxt (m1 ++ m2) <-> linked C (head_id nxt m2) m1 /\ linked C nxt m2.
Proof.
  induction m1 as [|m m1 IH]; cbn [linked app]; [tauto|]. rewrite IH. assert (E : head_id nxt (m1 ++ m2) = head_id (head_id nxt m2) m1) by (by destruct m1).
  rewrite E. tauto.
Qed.

Lemma linked_map C nxt maps m : linked C nxt maps -> m ∈ maps -> exists x, map_ok C x m.
Proof. induction maps as [|y maps IH]; [by intros _ ?%not_elem_of_nil|]. cbn. intros [A B] [->|H]%elem_of_cons; [by eexists|by apply IH]. Qed.

(** ** Finding the range of a hash *)

(** Where the range of a hash is. *)
Record at_range (maps : list mapb) (id : Z) (m1 : list mapb) (m : mapb) (m2 : list mapb) (rs1 : list range) (r : range) (rs2 : list range) : Prop := {
  ar_maps : maps = m1 ++ m :: m2;
  ar_ranges : m_ranges m = rs1 ++ r :: rs2;
  ar_low : forall x, x ∈ ranges_of m1 ++ rs1 -> r_hi x < id;
  ar_hi : id <= r_hi r }.

Lemma boundary_split hs id i : boundary hs id i -> (forall j k x y, (j < k)%nat -> hs !! j = Some x -> hs !! k = Some y -> x < y) ->
  exists h, hs !! i = Some h /\ id <= h /\ forall j x, (j < i)%nat -> hs !! j = Some x -> x < id.
Proof.
  intros [(h & H & L) B] S. exists h. split_and!; [done|done|]. intros j x Lj Hj. pose proof (lookup_lt_Some _ _ _ H) as Li.
  destruct (lookup_lt_is_Some_2 hs (i - 1)) as [y Hy]; [lia|]. assert (y < id) by (apply B; [lia|done]).
  destruct (decide (j = i - 1)%nat) as [->|N]; [congruence|]. assert (x < y) by (eapply (S j (i - 1)%nat); [lia|done|done]). lia.
Qed.

(** The ends of ranges are in order. *)
Lemma seg_sorted rs : forall lo hi j k x y, seg lo rs hi -> (j < k)%nat -> map r_hi rs !! j = Some x -> map r_hi rs !! k = Some y -> x < y.
Proof.
  induction rs as [|r rs IH]; intros lo hi j k x y S L Hj Hk; [done|]. cbn [seg map] in *. destruct S as (A & _ & S). destruct k as [|k]; [lia|]. cbn in Hk. destruct j as [|j].
  - injection Hj as <-. change (r_hi <$> rs) with (map r_hi rs) in Hk. change ((r_hi <$> rs) !! k = Some y) in Hk. rewrite list_lookup_fmap in Hk.
    destruct (rs !! k) as [z|] eqn:E; [|done]. injection Hk as <-. destruct (seg_in _ _ _ z S) as [B _]; [by eapply list_elem_of_lookup_2|]. lia.
  - eapply (IH (r_hi r) hi j k); [exact S|lia|exact Hj|exact Hk].
Qed.

Section Find.
Context (C : Z -> list Z) (P : gmap loc held) (X : gset loc) (s : CamelBlockFile) (I : BF s C P X) (id : Z).

Lemma read_word p i n dt w v : P !! p = Some (Held i n dt) -> C i !! w = Some v -> get_word p w s = Some (v, s).
Proof. intros Hp D. pose proof (wp_word_at s C P X p i n dt w v (fun a s' => a = v /\ s' = s) I Hp D (conj eq_refl eq_refl)) as W. unfold wp in W. destruct (get_word p w s) as [[a s']|]; [|done]. by destruct W as [-> ->]. Qed.

Lemma read_hash p i n dt l k x : P !! p = Some (Held i n dt) -> pairs_rep 2 1 (C i) l -> l !! k = Some x -> get_at p (part_hash (Z.of_nat k)) s = Some (fst x, s).
Proof.
  intros Hp R H. pose proof (lookup_lt_Some _ _ _ H) as L. pose proof (pr_bound _ _ _ _ R) as B. unfold part_hash. rewrite (pair_word_nat 2) by lia.
  eapply read_word; [exact Hp|]. apply (pr_pairs _ _ _ _ R k x H).
Qed.

(** The walk over the queue. *)
Lemma find_ends : forall maps link lo (Q : option (nat * loc * Z) -> CamelBlockFile -> Prop), linked C 0 maps -> (forall m, m ∈ maps -> exists n, P !! m_ptr m = Some (Held (m_id m) n true)) ->
  seg lo (ranges_of maps) MAX_HASH -> lo < id <= MAX_HASH ->
  (forall m1 m m2 rs1 r rs2, at_range maps id m1 m m2 rs1 r rs2 -> Q (Some ((link + length m1)%nat, m_ptr m, Z.of_nat (length rs1))) s) ->
  wp (find_partition (map m_ptr maps) link id) Q s.
Proof.
  induction maps as [|m maps IH]; intros link lo Q Lk Hh S B HQ; [cbn in S; lia|].
  cbn [linked] in Lk. destruct Lk as [(R & N & _) Lk]. destruct (Hh m (list_elem_of_here _ _)) as [n Hn].
  cbn [map find_partition]. set (l := map range_pair (m_ranges m)) in *. assert (Ll : length l = length (m_ranges m)) by apply length_map.
  pose proof (pr_bound _ _ _ _ R) as Bd. rewrite ranges_of_cons in S. apply ranges_seg_app in S as (mid & S1 & S2).
  assert (L0 : (0 < length l)%nat) by (rewrite Ll; destruct (m_ranges m); [done|cbn; lia]).
  destruct (exists_last N) as (rs & r & Er). pose proof S1 as S1'. rewrite Er in S1'. apply ranges_seg_app in S1' as (m0 & _ & (_ & _ & Em)). cbn in Em.
  assert (Hl : l !! (length l - 1)%nat = Some (range_pair r)).
  { rewrite Ll, Er, length_app. unfold l. rewrite Er, map_app. cbn [length map]. rewrite lookup_app_r by (rewrite length_map; lia). rewrite length_map. by replace (length rs + 1 - 1 - length rs)%nat with 0%nat by lia. }
  assert (Ru : get_word (m_ptr m) PM_USED s = Some (Z.of_nat (length l), s)) by (eapply read_word; [exact Hn|apply (pr_count _ _ _ _ R)]).
  unfold wp, mbind, M_bind. rewrite Ru,  (proj2 (Z.gtb_lt _ 0)) by lia.
  replace (Z.of_nat (length l) - 1) with (Z.of_nat (length l - 1)) by lia. rewrite (read_hash _ _ _ _ _ _ _ Hn R Hl). cbn [mret M_ret range_pair fst].
  rewrite Em. destruct (Z.leb_spec id mid) as [Le|Gt].
  - assert (Hf : map fst l = map r_hi (m_ranges m)) by (unfold l; rewrite map_map; done).
    destruct (search_ends (m_ptr m) s (map fst l)) with (id := id) (last := mid) as (j & E & Bj).
    + intros i h Hi. change (map fst l) with (fst <$> l) in Hi. rewrite list_lookup_fmap in Hi. destruct (l !! i) as [x|] eqn:E; [|done]. injection Hi as <-. by eapply read_hash.
    + rewrite length_map. exact Ru.
    + by rewrite length_map.
    + rewrite length_map. change (map fst l) with (fst <$> l). rewrite list_lookup_fmap, Hl. cbn. by rewrite Em.
    + exact Le.
    + rewrite length_map in E. cbn zeta in E. rewrite E. destruct (boundary_split _ _ _ Bj) as (h & Hj & Lh & Low).
      { intros a b x y Lab Ha Hb. rewrite Hf in Ha, Hb. by eapply (seg_sorted (m_ranges m) lo mid a b). }
      rewrite Hf in Hj. change (map r_hi (m_ranges m)) with (r_hi <$> m_ranges m) in Hj. rewrite list_lookup_fmap in Hj. destruct (m_ranges m !! j) as [r'|] eqn:Ej; [|done]. injection Hj as <-.
      pose proof (take_drop_middle _ _ _ Ej) as Ed. replace j with (length (take j (m_ranges m))) by (rewrite length_take; apply lookup_lt_Some in Ej; lia).
      replace link with (link + length (@nil mapb))%nat by (cbn; lia). eapply (HQ [] m maps (take j (m_ranges m)) r' (drop (S j) (m_ranges m))). constructor; [done|by rewrite Ed| |exact Lh].
      intros x Hx. cbn in Hx. apply elem_of_take in Hx as (a & Ha & La). apply (Low a); [done|]. rewrite Hf. change (map r_hi (m_ranges m)) with (r_hi <$> m_ranges m). by rewrite list_lookup_fmap, Ha.
  - apply (IH (S link) mid); [exact Lk|intros x Hx; apply Hh; by right|exact S2|lia|].
    intros m1 m' m2 rs1 r' rs2 [A1 A2 A3 A4]. replace (S link + length m1)%nat with (link + length (m :: m1))%nat by (cbn; lia).
    eapply (HQ (m :: m1) m' m2 rs1 r' rs2). constructor; [by rewrite A1|exact A2| |exact A4]. intros x Hx. rewrite ranges_of_cons, <- app_assoc in Hx.
    apply elem_of_app in Hx as [Hx|Hx]; [|by apply A3]. destruct (seg_in _ _ _ x S1 Hx) as [Bx _]. lia.
Qed.
End Find.

Lemma wp_find s C P X cpi maps id (Q : option (nat * loc * Z) -> CamelBlockFile -> Prop) : BF s C P X -> part_rep C P cpi maps -> 0 <= id <= MAX_HASH ->
  (forall m1 m m2 rs1 r rs2, at_range maps id m1 m m2 rs1 r rs2 -> Q (Some (length m1, m_ptr m, Z.of_nat (length rs1))) s) ->
  wp (find_partition (pt_partition cpi) 0 id) Q s.
Proof.
  intros I R B HQ. rewrite (pp_queue _ _ _ _ R). eapply (find_ends C P X s I id maps 0 (-1)); [apply R|apply R|apply R|lia|exact HQ].
Qed.
