(* ===== verification/PartitionSpec.v ===== *)
(** * PartitionSpec: looking up and removing keys

    The keys that a lookup can find are those that were added: the number of a
    key with the hash, and with the characters when the table knows its key
    table. *)

From stdpp Require Import base list numbers gmap functions.
From Stdlib Require Import ZArith Lia.
From S2P Require Import Prelude BlockFile BlockFileInv BlockFileOps KeyTable KeyBlocks KeyTableInv KeyTableSpec PartitionTable PartitionInv.

(** ** The range in the table *)

Section Range.
Context (C : Z -> list Z) (P : gmap loc held) (cpi : CamelPartitionTable) (maps : list mapb) (R : part_rep C P cpi maps)
  (id : Z) (m1 : list mapb) (m : mapb) (m2 : list mapb) (rs1 : list range) (r : range) (rs2 : list range) (A : at_range maps id m1 m m2 rs1 r rs2).

Lemma at_range_flat : ranges_of maps = (ranges_of m1 ++ rs1) ++ r :: (rs2 ++ ranges_of m2).
Proof. rewrite (ar_maps _ _ _ _ _ _ _ _ A), ranges_of_app, ranges_of_cons, (ar_ranges _ _ _ _ _ _ _ _ A). by rewrite <- !app_assoc. Qed.

Lemma at_range_in : r ∈ ranges_of maps.
Proof. rewrite at_range_flat. apply elem_of_app. right. apply list_elem_of_here. Qed.

(** The range and its neighbours in order. *)
Lemma at_range_seg : -1 < id -> exists lo, seg (-1) (ranges_of m1 ++ rs1) lo /\ lo < id /\ id <= r_hi r /\ (forall x, x ∈ r_keys r -> lo < fst x <= r_hi r) /\ seg (r_hi r) (rs2 ++ ranges_of m2) MAX_HASH.
Proof.
  intros B. pose proof (pp_seg _ _ _ _ R) as S. rewrite at_range_flat in S. apply ranges_seg_app in S as (lo & S1 & S2). cbn [seg] in S2. destruct S2 as (L & K & S2).
  exists lo. split_and!; [exact S1| |apply A|exact K|exact S2]. destruct (decide (ranges_of m1 ++ rs1 = [])) as [E|N]; [rewrite E in S1; cbn in S1; lia|].
  destruct (exists_last N) as (a & x & E). rewrite E in S1. apply ranges_seg_app in S1 as (mid & _ & S1). cbn in S1. destruct S1 as (_ & _ & <-).
  apply (ar_low _ _ _ _ _ _ _ _ A). rewrite E. apply elem_of_app. right. by apply list_elem_of_singleton.
Qed.

(** The keys with the hash are in the range. *)
Lemma at_range_keys k : -1 < id -> (id, k) ∈ all_keys maps <-> (id, k) ∈ r_keys r.
Proof.
  intros B. rewrite (all_keys_ranges _ _ _ _ at_range_flat), elem_of_app. split; [|by left]. intros [H|H]; [done|]. exfalso.
  destruct (at_range_seg B) as (lo & S1 & L & H' & _ & S2). apply list_elem_of_In, in_concat in H as (ks & H1 & H2).
  apply in_map_iff in H1 as (y & <- & Hy). apply list_elem_of_In in Hy, H2. apply elem_of_app in Hy as [Hy|Hy].
  - destruct (seg_in _ _ _ _ S1 Hy) as [B1 B2]. specialize (B2 _ H2). cbn in B2. lia.
  - destruct (seg_in _ _ _ _ S2 Hy) as [B1 B2]. specialize (B2 _ H2). cbn in B2. lia.
Qed.

(** No other block has the number of the range's block. *)
Lemma at_range_other : (forall x, x ∈ maps -> m_id x <> r_block r) /\ (forall x, x ∈ (ranges_of m1 ++ rs1) ++ rs2 ++ ranges_of m2 -> r_block x <> r_block r).
Proof.
  pose proof (pp_nodup _ _ _ _ R) as N. unfold blocks_of in N. apply list.NoDup_app in N as (_ & N1 & N2). rewrite at_range_flat in N1, N2. split.
  - intros x Hx E. apply (N1 (m_id x)); [by apply (list_elem_of_fmap_2 m_id)|]. rewrite E. apply (list_elem_of_fmap_2 r_block). apply elem_of_app. right. apply list_elem_of_here.
  - intros x Hx E. rewrite map_app in N2. cbn [map] in N2. apply (NoDup_remove_2 (map r_block (ranges_of m1 ++ rs1)) (map r_block (rs2 ++ ranges_of m2)) (r_block r)); [by apply NoDup_ListNoDup|].
    rewrite <- map_app, <- E. apply list_elem_of_In. by apply (list_elem_of_fmap_2 r_block).
Qed.

(** The map block of the range, in memory. *)
Lemma at_range_map : exists n nxt, P !! m_ptr m = Some (Held (m_id m) n true) /\ map_ok C nxt m.
Proof.
  assert (Hm : m ∈ maps) by (rewrite (ar_maps _ _ _ _ _ _ _ _ A); apply elem_of_app; right; apply list_elem_of_here).
  destruct (pp_held _ _ _ _ R m Hm) as [n Hn]. destruct (linked_map _ _ _ _ (pp_linked _ _ _ _ R) Hm) as [nxt K]. by exists n, nxt.
Qed.

Lemma wp_range_block s X (Q : Z -> CamelBlockFile -> Prop) : BF s C P X -> Q (r_block r) s -> wp (get_at (m_ptr m) (part_block (Z.of_nat (length rs1)))) Q s.
Proof.
  intros I HQ. destruct at_range_map as (n & nxt & Hn & (K & _ & _)). pose proof (pr_bound _ _ _ _ K) as B.
  assert (H : map range_pair (m_ranges m) !! length rs1 = Some (range_pair r)).
  { rewrite (ar_ranges _ _ _ _ _ _ _ _ A), map_app. cbn [map]. rewrite lookup_app_r by (rewrite length_map; lia). by rewrite length_map, Nat.sub_diag. }
  pose proof (lookup_lt_Some _ _ _ H) as L. unfold part_block. rewrite (pair_word_nat 3) by lia.
  eapply wp_word_at; [exact I|exact Hn|apply (pr_pairs _ _ _ _ K _ _ H)|exact HQ].
Qed.

(** Getting the block of the range. *)
Lemma wp_get_range s X (Q : option loc -> CamelBlockFile -> Prop) : BF s C P X -> ok_io s ->
  (forall p s', BF s' C (<[p := Held (r_block r) 1 false]> P) X -> P !! p = None -> steady s s' -> Q (Some p) s') -> wp (camel_block_file_get_block (r_block r)) Q s.
Proof.
  intros I K HQ. assert (Hb : r_block r ∈ blocks_of maps) by (apply elem_of_app; right; apply (list_elem_of_fmap_2 r_block), at_range_in).
  destruct (pp_ids _ _ _ _ R _ Hb) as [B M]. eapply wp_get_fresh; [exact I|exact K|apply valid_block_intro; [lia|exact M]|apply (pp_free _ _ _ _ R), at_range_in|exact HQ].
Qed.

(** *** Other keys in the range *)

Definition with_keys (ks : list (Z * Z)) : list mapb := m1 ++ MapB (m_ptr m) (m_id m) (rs1 ++ Range (r_hi r) (r_block r) ks :: rs2) :: m2.

Lemma with_keys_flat ks : ranges_of (with_keys ks) = (ranges_of m1 ++ rs1) ++ Range (r_hi r) (r_block r) ks :: (rs2 ++ ranges_of m2).
Proof. unfold with_keys. rewrite ranges_of_app, ranges_of_cons. cbn [m_ranges]. by rewrite <- !app_assoc. Qed.

Lemma with_keys_blocks ks : blocks_of (with_keys ks) = blocks_of maps.
Proof.
  unfold blocks_of. rewrite with_keys_flat, at_range_flat, !map_app. unfold with_keys. rewrite (ar_maps _ _ _ _ _ _ _ _ A), !map_app. by cbn [map m_id r_block].
Qed.

Lemma linked_maps_frame C1 C2 nxt ms : (forall x, x ∈ ms -> C2 (m_id x) = C1 (m_id x)) -> linked C1 nxt ms -> linked C2 nxt ms.
Proof.
  induction ms as [|y ms IH]; intros F; cbn [linked]; [done|]. intros [K L]. split; [|apply IH; [|exact L]; intros x Hx; apply F; by right].
  unfold map_ok, word. rewrite (F y) by apply list_elem_of_here. exact K.
Qed.

Lemma part_rep_keys C' ks : 0 <= id -> (forall x, x <> 0 -> x <> r_block r -> C' x = C x) -> (forall w, w <> ROOT_FLAGS -> C' 0 !! w = C 0 !! w) ->
  pairs_rep 1 0 (C' (r_block r)) ks -> (forall x, x ∈ ks -> x ∈ r_keys r \/ fst x = id) -> part_rep C' P cpi (with_keys ks).
Proof.
  intros B F F0 K In. destruct at_range_other as [O1 O2]. destruct R as [Q1 Q2 Q3 Q4 Q5 Q6 Q7 Q8 [Q9 Q10 Q11]].
  assert (W : forall w, w <> ROOT_FLAGS -> word C' 0 w = word C 0 w) by (intros w N; unfold word; by rewrite F0).
  assert (Sub : forall x, x ∈ ranges_of (with_keys ks) -> x = Range (r_hi r) (r_block r) ks \/ x ∈ (ranges_of m1 ++ rs1) ++ rs2 ++ ranges_of m2).
  { rewrite with_keys_flat. intros x [Hx|[->|Hx]%elem_of_cons]%elem_of_app; [right; apply elem_of_app; by left|by left|right; apply elem_of_app; by right]. }
  assert (In' : forall x, x ∈ (ranges_of m1 ++ rs1) ++ rs2 ++ ranges_of m2 -> x ∈ ranges_of maps).
  { rewrite at_range_flat. intros x [Hx|Hx]%elem_of_app; apply elem_of_app; [by left|right; by right]. }
  assert (Nz : forall x, x ∈ blocks_of maps -> x <> 0) by (intros x Hx; destruct (Q6 x Hx); lia).
  assert (Cm : forall x, x ∈ maps -> C' (m_id x) = C (m_id x)) by (intros x Hx; apply F; [apply Nz, elem_of_app; left; by apply (list_elem_of_fmap_2 m_id)|by apply O1]).
  pose proof (ar_maps _ _ _ _ _ _ _ _ A) as Em. constructor.
  - rewrite Q1, Em. unfold with_keys. by rewrite !map_app.
  - intros x [Hx|[->|Hx]%elem_of_cons]%elem_of_app; [apply Q2; rewrite Em; apply elem_of_app; by left| |apply Q2; rewrite Em; apply elem_of_app; right; by right].
    cbn [m_ptr m_id]. apply Q2. rewrite Em. apply elem_of_app. right. apply list_elem_of_here.
  - apply (linked_maps_frame _ _ _ _ Cm) in Q3. rewrite Em in Q3. unfold with_keys. apply linked_app in Q3 as [L1 [L2 L3]]. apply linked_app. split; [exact L1|]. split; [|exact L3].
    unfold map_ok in *. cbn [m_id m_ranges]. rewrite (ar_ranges _ _ _ _ _ _ _ _ A), map_app in L2. rewrite map_app. destruct L2 as (L2 & _ & L4). split_and!; [exact L2|by destruct rs1|exact L4].
  - intros x [->|Hx]%Sub; [exact K|]. unfold keys_ok. rewrite F; [by apply Q4, In'| |by apply O2]. apply Nz, elem_of_app. right. by apply (list_elem_of_fmap_2 r_block), In'.
  - rewrite with_keys_flat. destruct (at_range_seg ltac:(lia)) as (lo & S1 & L & H & Kr & S2). apply ranges_seg_app. exists lo. split; [exact S1|]. cbn [seg r_hi r_keys].
    split_and!; [lia| |exact S2]. intros x Hx. destruct (In x Hx) as [Hr|E]; [by apply Kr|lia].
  - rewrite with_keys_blocks. intros x Hx. rewrite W by done. by apply Q6.
  - by rewrite with_keys_blocks.
  - intros x [->|Hx]%Sub; [cbn; apply Q8, at_range_in|by apply Q8, In'].
  - constructor; rewrite ?W by done; done.
Qed.

Lemma all_keys_with ks : all_keys (with_keys ks) ≡ₚ ks ++ concat (map r_keys ((ranges_of m1 ++ rs1) ++ rs2 ++ ranges_of m2)).
Proof. by rewrite (all_keys_ranges _ _ _ _ (with_keys_flat ks)). Qed.
End Range.

(** ** A table with its key table *)

Definition key_ghost : Type := option (Z * list (Z * list entry)).

(** What is known of the key table, if there is one: its blocks are others,
    and the numbers in the partition table are those of keys. *)
Definition keys_known (C : Z -> list Z) (P : gmap loc held) (cpi : CamelPartitionTable) (maps : list mapb) (kt : key_ghost) : Prop :=
  match pt_key_table cpi, kt with
  | None, None => True
  | Some ki, Some (root, kbs) => key_blocks ki root C P kbs /\ (forall x, x ∈ root :: map fst kbs -> x ∉ blocks_of maps) /\
      (forall h k, (h, k) ∈ all_keys maps -> exists e, (k, e) ∈ keys_of kbs)
  | _, _ => False
  end.

Definition index_rep (C : Z -> list Z) (P : gmap loc held) (cpi : CamelPartitionTable) (maps : list mapb) (kt : key_ghost) : Prop :=
  part_rep C P cpi maps /\ keys_known C P cpi maps kt.

(** The key with the number has these characters. *)
Definition named (kt : key_ghost) (k : Z) (key : list Z) : Prop :=
  match kt with None => True | Some (_, kbs) => exists e, (k, e) ∈ keys_of kbs /\ e_key e = key end.

Lemma keys_of_unique C root kbs k e e' : key_chain C root kbs -> (k, e) ∈ keys_of kbs -> (k, e') ∈ keys_of kbs -> e = e'.
Proof.
  intros K H H'. apply list_elem_of_lookup_1 in H as [n H], H' as [n' H'].
  destruct (keys_position _ _ _ _ H) as (i & id & es & j & Hi & Hj & E & _). destruct (keys_position _ _ _ _ H') as (i' & id' & es' & j' & Hi' & Hj' & E' & _).
  destruct (kc_ids _ _ _ K _ _ _ Hi) as [_ M]. destruct (kc_ids _ _ _ K _ _ _ Hi') as [_ M'].
  pose proof (key_rep_used _ _ (kc_reps _ _ _ K _ _ _ Hi)). pose proof (key_rep_used _ _ (kc_reps _ _ _ K _ _ _ Hi')).
  pose proof (lookup_lt_Some _ _ _ Hj). pose proof (lookup_lt_Some _ _ _ Hj').
  destruct (key_id_split id (Z.of_nat j) M) as (_ & K1 & K2); [lia|]. destruct (key_id_split id' (Z.of_nat j') M') as (_ & K1' & K2'); [lia|].
  assert (id = id') by congruence. subst id'. assert (j = j') by lia. subst j'. rewrite (key_chain_unique _ _ _ _ _ _ _ _ K Hi Hi') in Hi. rewrite Hi' in Hi. injection Hi as <-. congruence.
Qed.

Lemma cstring_good key : Forall (fun c => 0 < c < 256) key -> cstring key = key.
Proof. induction 1 as [|c key Hc _ IH]; [done|]. cbn. rewrite (proj2 (Z.eqb_neq c 0)) by lia. by rewrite IH. Qed.

(** One more block in memory does not bother a key table. *)
Lemma key_blocks_hold ki root C P kbs p x n dt : key_blocks ki root C P kbs -> P !! p = None -> x ∉ root :: map fst kbs -> x < word C 0 ROOT_LAST ->
  key_blocks ki root C (<[p := Held x n dt]> P) kbs.
Proof.
  intros [[R0 [m Hm]] [A1 A2 A3] Kc U Fr] Hp N L. constructor; [|constructor|exact Kc|exact U|]; try done.
  - split; [done|]. exists m. rewrite lookup_insert_ne; [done|]. intros ->. congruence.
  - intros q h [[_ <-]|[_ Hq]]%lookup_insert_Some; [done|by eapply A3].
  - intros id es H q h [[_ <-]|[_ Hq]]%lookup_insert_Some; [|by eapply Fr]. cbn. intros ->. apply N. right. by apply (list_elem_of_fmap_2 fst) in H.
Qed.

Section Scan.
Context (C : Z -> list Z) (P : gmap loc held) (cpi : CamelPartitionTable) (maps : list mapb) (kt : key_ghost) (R : index_rep C P cpi maps kt) (key : list Z).

Lemma wp_is_key s p x h k (Q : bool -> CamelBlockFile -> Prop) : BF s C (<[p := Held x 1 false]> P) ∅ -> ok_io s -> P !! p = None -> x ∈ blocks_of maps ->
  (h, k) ∈ all_keys maps -> (forall (b : bool) s', BF s' C (<[p := Held x 1 false]> P) ∅ -> steady s s' -> (if b then named kt k key else ~ named kt k key) -> Q b s') ->
  wp (is_key cpi k key) Q s.
Proof.
  intros I K Hp Hx Hk HQ. destruct R as [Rp Rk]. unfold is_key. unfold keys_known in Rk. destruct (pt_key_table cpi) as [ki|], kt as [[root kbs]|]; try done; [|by apply wp_mret, HQ].
  destruct Rk as (KB & Dj & Kn). destruct (Kn h k Hk) as [e He]. destruct (pp_ids _ _ _ _ Rp x Hx) as [B _].
  assert (KB1 : key_blocks ki root C (<[p := Held x 1 false]> P) kbs) by (apply key_blocks_hold; [done|done|intros H; by apply (Dj x)|lia]).
  apply list_elem_of_lookup_1 in He as [n Hn]. destruct (keys_position _ _ _ _ Hn) as (i & id & es & j & Hi & Hj & E & _). rewrite E.
  apply wp_mbind. eapply wp_key_lookup; [exact I|exact KB1|exact K|exact Hi|exact Hj|]. intros s' I' St. cbn [fst snd stored_is]. apply wp_mret, HQ; [exact I'|exact St|].
  assert (G : good_key (e_key e)) by apply (sl_key _ _ _ _ (kr_slots _ _ (kc_reps _ _ _ (kb_chain _ _ _ _ _ KB) _ _ _ Hi) _ _ Hj)).
  rewrite cstring_good by apply G. cbn [named]. apply list_elem_of_lookup_2 in Hn. destruct (bytes_eqb (e_key e) key) eqn:Eb.
  - exists e. split; [done|]. by apply bytes_eqb_eq.
  - intros (e' & He' & Ek). rewrite (keys_of_unique _ _ _ _ _ _ (kb_chain _ _ _ _ _ KB) He' Hn) in Ek. rewrite Ek, bytes_eqb_refl in Eb. done.
Qed.

Lemma wp_scan p r hash : P !! p = None -> r ∈ ranges_of maps -> forall n i fuel s (Q : option (Z * Z) -> CamelBlockFile -> Prop), (i + n = length (r_keys r))%nat -> (n < fuel)%nat ->
  BF s C (<[p := Held (r_block r) 1 false]> P) ∅ -> ok_io s ->
  (forall s' j k, BF s' C (<[p := Held (r_block r) 1 false]> P) ∅ -> steady s s' -> r_keys r !! j = Some (hash, k) -> named kt k key -> Q (Some (Z.of_nat j, k)) s') ->
  (forall s', BF s' C (<[p := Held (r_block r) 1 false]> P) ∅ -> steady s s' -> (forall j k, (i <= j)%nat -> r_keys r !! j = Some (hash, k) -> ~ named kt k key) -> Q None s') ->
  wp (scan_keys fuel cpi p key hash (Z.of_nat i)) Q s.
Proof.
  intros Hp Hr. pose proof (pp_keys _ _ _ _ (proj1 R) r Hr) as Kr. pose proof (pr_bound _ _ _ _ Kr) as Bd. assert (Hp1 : <[p := Held (r_block r) 1 false]> P !! p = Some (Held (r_block r) 1 false)) by apply lookup_insert_eq.
  assert (Hx : r_block r ∈ blocks_of maps) by (apply elem_of_app; right; by apply (list_elem_of_fmap_2 r_block)).
  induction n as [|n IH]; intros i fuel s Q E F I K HS HN; (destruct fuel as [|fuel]; [lia|]); cbn [scan_keys];
    (apply wp_mbind; eapply wp_word_at; [exact I|exact Hp1|apply (pr_count _ _ _ _ Kr)|]).
  - rewrite (proj2 (Z.ltb_ge _ _)) by lia. apply wp_mret, HN; [done..|]. intros j k Hj Hk. apply lookup_lt_Some in Hk. lia.
  - rewrite (proj2 (Z.ltb_lt _ _)) by lia. destruct (lookup_lt_is_Some_2 (r_keys r) i) as [[h k] Hi]; [lia|]. destruct (pr_pairs _ _ _ _ Kr i _ Hi) as [W1 W2].
    replace (Z.of_nat i + 1) with (Z.of_nat (S i)) by lia. apply wp_mbind. unfold pkey_hash. rewrite (pair_word_nat 1) by lia. eapply wp_word_at; [exact I|exact Hp1|exact W1|].
    cbn [fst]. destruct (Z.eqb_spec h hash) as [->|Nh].
    2: { apply IH; [lia|lia|done|done|done|]. intros s' I' St Hn. apply HN; [done|done|]. intros j k' Hj Hk. destruct (decide (j = i)) as [->|]; [congruence|]. apply (Hn j k'); [lia|done]. }
    apply wp_mbind. unfold pkey_id. rewrite (pair_word_nat 2) by lia. eapply wp_word_at; [exact I|exact Hp1|exact W2|]. cbn [snd].
    apply wp_mbind. eapply (wp_is_key s p (r_block r) hash k); [exact I|exact K|exact Hp|exact Hx| |].
    { apply list_elem_of_In, in_concat. exists (r_keys r). split; [apply in_map, list_elem_of_In, Hr|]. apply list_elem_of_In. by eapply list_elem_of_lookup_2. }
    intros b s1 I1 St1 Nb. destruct b; [apply wp_mret; by eapply HS|].
    apply IH; [lia|lia|exact I1|by apply (steady_ok s s1)| |].
    + intros s' j k' I' St. apply HS; [done|by transitivity s1].
    + intros s' I' St Hn. apply HN; [done|by transitivity s1|]. intros j k' Hj Hk. destruct (decide (j = i)) as [->|]; [congruence|]. apply (Hn j k'); [lia|done].
Qed.
End Scan.

(** ** Looking up *)

Definition key_answer (maps : list mapb) (kt : key_ghost) (key : list Z) (keyid : Z) : Prop :=
  (exists k, (hash_key key, k) ∈ all_keys maps /\ named kt k key /\ keyid = k) \/
  (keyid = 0 /\ forall k, (hash_key key, k) ∈ all_keys maps -> ~ named kt k key).

Lemma hash_key_range key : 0 <= hash_key key <= MAX_HASH.
Proof.
  unfold hash_key, MAX_HASH. assert (G : forall l h, 0 <= h <= 4294967295 -> 0 <= fold_left key_hash_step l h <= 4294967295); [|apply G; lia].
  induction l as [|c l IH]; intros h Hh; cbn [fold_left]; [done|]. apply IH. unfold key_hash_step.
  set (a := u32 (h * key_schar c)). set (b := u32 (key_schar c)). assert (Ha : 0 <= a < 2 ^ 32) by (apply Z.mod_pos_bound; lia). assert (Hb : 0 <= b < 2 ^ 32) by (apply Z.mod_pos_bound; lia).
  split; [apply Z.lxor_nonneg; lia|]. change 4294967295 with (Z.ones 32). apply Z.lt_le_pred. change (Z.lxor a b < 2 ^ 32).
  destruct (Z.eq_dec (Z.lxor a b) 0) as [->|N]; [lia|]. assert (0 <= Z.lxor a b) by (apply Z.lxor_nonneg; lia). apply Z.log2_lt_pow2; [lia|].
  eapply Z.le_lt_trans; [apply Z.log2_lxor; lia|]. apply Z.max_lub_lt; (match goal with |- Z.log2 ?x < _ => destruct (Z.eq_dec x 0) as [->|]; [done|apply Z.log2_lt_pow2; lia] end).
Qed.

Section Lookup.
Context (s : CamelBlockFile) (C : Z -> list Z) (P : gmap loc held) (cpi : CamelPartitionTable) (maps : list mapb) (kt : key_ghost)
  (I : BF s C P ∅) (R : index_rep C P cpi maps kt) (K : ok_io s) (key : list Z).

(** The keys of the range are all that matter. *)
Lemma range_answer m1 m m2 rs1 r rs2 : at_range maps (hash_key key) m1 m m2 rs1 r rs2 -> forall k, (hash_key key, k) ∈ all_keys maps <-> (hash_key key, k) ∈ r_keys r.
Proof. intros A k. pose proof (hash_key_range key). eapply at_range_keys; [apply R|exact A|lia]. Qed.

Lemma wp_part_lookup (Q : Z -> CamelBlockFile -> Prop) : (forall s' k, BF s' C P ∅ -> steady s s' -> key_answer maps kt key k -> Q k s') ->
  wp (camel_partition_table_lookup cpi key) Q s.
Proof.
  intros HQ. unfold camel_partition_table_lookup. apply wp_mbind. eapply wp_find; [exact I|apply R|apply hash_key_range|]. intros m1 m m2 rs1 r rs2 A.
  pose proof (proj1 R) as Rp. apply wp_mbind. eapply wp_range_block; [exact Rp|exact A|exact I|]. apply wp_mbind. eapply wp_get_range; [exact Rp|exact A|exact I|exact K|].
  intros p s1 I1 Hp St1. pose proof (pp_keys _ _ _ _ Rp r (at_range_in _ _ _ _ _ _ _ _ A)) as Kr. pose proof (pr_bound _ _ _ _ Kr) as Bd.
  apply wp_mbind. eapply (wp_scan C P cpi maps kt R key p r (hash_key key) Hp (at_range_in _ _ _ _ _ _ _ _ A) (length (r_keys r)) 0);
    [lia|unfold SCAN_FUEL; lia|exact I1|by apply (steady_ok s s1)| |].
  - intros s2 j k I2 St2 Hj Nk. apply wp_mbind. eapply wp_drop; [exact I2|done|done|exact Hp|]. intros s3 I3 St3. apply wp_mret, HQ; [done|steady_t|].
    left. exists k. split_and!; [|done|done]. apply (range_answer _ _ _ _ _ _ A). by eapply list_elem_of_lookup_2.
  - intros s2 I2 St2 Hn. apply wp_mbind. eapply wp_drop; [exact I2|done|done|exact Hp|]. intros s3 I3 St3. apply wp_mret, HQ; [done|steady_t|].
    right. split; [done|]. intros k Hk. apply (range_answer _ _ _ _ _ _ A) in Hk. apply list_elem_of_lookup_1 in Hk as [j Hj]. apply (Hn j); [lia|done].
Qed.
End Lookup.

(** ** Removing a key from a partition table *)

(** ** Key tables that are not touched *)

Lemma key_blocks_frame ki root C P kbs C' P' : key_blocks ki root C P kbs -> (forall x, x ∈ root :: map fst kbs -> C' x = C x) -> alloc_ok C' P' ->
  word C 0 ROOT_LAST <= word C' 0 ROOT_LAST -> (forall p h, P !! p = Some h -> P' !! p = Some h) -> (forall p h, P' !! p = Some h -> h_id h ∉ map fst kbs) ->
  key_blocks ki root C' P' kbs.
Proof.
  intros [[R0 [n Hn]] _ [K1 K2 K3 K4 K5 K6] U _] F A L Sub N. assert (Cr : C' root = C root) by (apply F, list_elem_of_here).
  assert (Ci : forall i id es, kbs !! i = Some (id, es) -> C' id = C id) by (intros i id es H; apply F; right; apply (list_elem_of_fmap_2 fst _ (id, es)); by eapply list_elem_of_lookup_2).
  constructor; [split; [done|exists n; by apply Sub]|exact A| |exact U|].
  - constructor; unfold word in *; rewrite ?Cr; try done.
    + intros i id es H. destruct (K4 i id es H). split; [lia|done].
    + intros i id es H. rewrite (Ci i id es H). by eapply K5.
    + intros i id es H. rewrite (Ci i id es H). by eapply K6.
  - intros id es H p h Hp E. apply (N p h Hp). rewrite E. by apply (list_elem_of_fmap_2 fst _ (id, es)).
Qed.

(** The table of keys after an operation that changed blocks of the partition
    table only. *)
Lemma keys_known_frame C P cpi maps kt C' P' cpi' maps' : keys_known C P cpi maps kt -> pt_key_table cpi' = pt_key_table cpi ->
  (forall x, x <> 0 -> x ∉ blocks_of maps -> x < word C 0 ROOT_LAST -> C' x = C x) ->
  (forall x, x ∈ blocks_of maps' -> x ∈ blocks_of maps \/ word C 0 ROOT_LAST <= x) -> alloc_ok C' P' -> word C 0 ROOT_LAST <= word C' 0 ROOT_LAST ->
  (forall p h, P !! p = Some h -> P' !! p = Some h) -> (forall p h, P' !! p = Some h -> P !! p = Some h \/ word C 0 ROOT_LAST <= h_id h) ->
  (forall h k, (h, k) ∈ all_keys maps' -> (h, k) ∈ all_keys maps \/ match kt with Some (_, kbs) => exists e, (k, e) ∈ keys_of kbs | None => True end) ->
  keys_known C' P' cpi' maps' kt.
Proof.
  intros K E F B A L S1 S2 N. unfold keys_known in *. rewrite E. destruct (pt_key_table cpi) as [ki|], kt as [[root kbs]|]; try done. destruct K as (KB & D & Kn).
  assert (Ids : forall x, x ∈ root :: map fst kbs -> x <> 0 /\ x < word C 0 ROOT_LAST).
  { intros x [->|Hx]%elem_of_cons.
    - destruct (kb_root _ _ _ _ _ KB) as [R0 [n Hn]]. split; [done|]. by apply (al_held _ _ (kb_alloc _ _ _ _ _ KB)) in Hn.
    - apply list_elem_of_fmap in Hx as ([id es] & -> & Hx). apply list_elem_of_lookup_1 in Hx as [i Hi]. destruct (kc_ids _ _ _ (kb_chain _ _ _ _ _ KB) _ _ _ Hi). cbn. lia. }
  split_and!.
  - eapply key_blocks_frame; [exact KB| |exact A|exact L|exact S1|].
    + intros x Hx. destruct (Ids x Hx). apply F; [done|by apply D|done].
    + intros p h Hp Hx. destruct (S2 p h Hp) as [Hp'|Ge]; [|destruct (Ids (h_id h)); [by right|lia]].
      apply list_elem_of_fmap in Hx as ([id es] & Ex & Hx). by apply (kb_free _ _ _ _ _ KB id es Hx p h Hp').
  - intros x Hx Hb. destruct (B x Hb) as [Hb'|Ge]; [by apply (D x)|]. destruct (Ids x Hx). lia.
  - intros h k Hk. destruct (N h k Hk) as [Hk'|Hk']; [by eapply Kn|done].
Qed.

(** ** Removing *)

Lemma elem_of_take_in {A} (x : A) n l : x ∈ take n l -> x ∈ l.
Proof. intros (i & H & _)%elem_of_take. by eapply list_elem_of_lookup_2. Qed.

Lemma elem_of_drop_in {A} (x : A) n l : x ∈ drop n l -> x ∈ l.
Proof. intros H. apply list_elem_of_lookup_1 in H as [i H]. rewrite lookup_drop in H. by eapply list_elem_of_lookup_2. Qed.

Section Remove.
Context (s : CamelBlockFile) (C : Z -> list Z) (P : gmap loc held) (cpi : CamelPartitionTable) (maps : list mapb) (kt : key_ghost)
  (I : BF s C P ∅) (R : index_rep C P cpi maps kt) (K : ok_io s) (key : list Z).

(** The state after an operation that kept the callers' blocks. *)
Definition index_after (s' : CamelBlockFile) (maps' : list mapb) : Prop :=
  steady s s' /\ exists C', BF s' C' P ∅ /\ index_rep C' P cpi maps' kt /\ word C' 0 ROOT_LAST = word C 0 ROOT_LAST /\
    (forall x, x <> 0 -> x ∉ blocks_of maps -> C' x = C x).

(** Touching and giving back the block whose keys were changed. *)
Lemma wp_range_done {A} m1 m m2 rs1 r rs2 p s1 d ks X (a : A) (Q : A -> CamelBlockFile -> Prop) : at_range maps (hash_key key) m1 m m2 rs1 r rs2 -> P !! p = None -> X ⊆ {[p]} ->
  BF s1 (put C (r_block r) d) (<[p := Held (r_block r) 1 false]> P) X -> pairs_rep 1 0 d ks -> (forall x, x ∈ ks -> x ∈ r_keys r \/ fst x = hash_key key) ->
  (forall h k, (h, k) ∈ ks -> (h, k) ∈ r_keys r \/ match kt with Some (_, kbs) => exists e, (k, e) ∈ keys_of kbs | None => True end) -> steady s s1 ->
  (forall s', index_after s' (with_keys m1 m m2 rs1 r rs2 ks) -> Q a s') ->
  wp (camel_block_file_touch_block p) (fun _ s' => wp (camel_block_file_unref_block p;; mret a) Q s') s1.
Proof.
  intros A0 Hp S I1 Kd In Kn St1 HQ. destruct R as [Rp Rk]. assert (Hp1 : <[p := Held (r_block r) 1 false]> P !! p = Some (Held (r_block r) 1 false)) by apply lookup_insert_eq.
  assert (Hb : r_block r ∈ blocks_of maps) by (apply elem_of_app; right; eapply (list_elem_of_fmap_2 r_block), at_range_in, A0). destruct (pp_ids _ _ _ _ Rp _ Hb) as [B _].
  eapply wp_touch; [exact I1|exact Hp1|]. intros s2 C2 I2 [B1 B2] St2 _. cbn [h_id] in *.
  apply wp_mbind. eapply wp_drop; [exact I2|done|set_solver|exact Hp|]. intros s3 I3 St3. apply wp_mret, HQ. split; [steady_t|]. exists C2.
  assert (F : forall x, x <> 0 -> x <> r_block r -> C2 x = C x) by (intros x N0 N1; rewrite B1 by done; by apply put_ne).
  assert (F0 : forall w, w <> ROOT_FLAGS -> C2 0 !! w = C 0 !! w) by (intros w N; rewrite B2 by done; by rewrite put_ne by lia).
  assert (Er : C2 (r_block r) = d) by (rewrite B1 by lia; apply put_eq).
  assert (L : word C2 0 ROOT_LAST = word C 0 ROOT_LAST) by (unfold word; by rewrite F0).
  assert (Rp' : part_rep C2 P cpi (with_keys m1 m m2 rs1 r rs2 ks)).
  { pose proof (hash_key_range key). eapply part_rep_keys; [exact Rp|exact A0|lia|exact F|exact F0|by rewrite Er|exact In]. }
  split_and!; [exact I3|split; [exact Rp'|]|exact L|].
  - eapply keys_known_frame; [exact Rk|done|intros x N0 Nx _; apply F; [done|]; intros ->; done| |apply Rp'|by rewrite L|done|by left|].
    + intros x Hx. left. by rewrite (with_keys_blocks _ _ _ _ _ _ _ _ A0) in Hx.
    + intros h k Hk. rewrite all_keys_with in Hk. rewrite (all_keys_ranges _ _ _ _ (at_range_flat _ _ _ _ _ _ _ _ A0)).
      apply elem_of_app in Hk as [Hk|Hk]; [|left; apply elem_of_app; by right]. destruct (Kn h k Hk) as [Hr|Hr]; [left; apply elem_of_app; by left|by right].
  - intros x N0 Nx. apply F; [done|]. intros ->. done.
Qed.

(** What removing leaves. *)
Definition key_removed (maps' : list mapb) : Prop :=
  (exists k, named kt k key /\ all_keys maps ≡ₚ (hash_key key, k) :: all_keys maps') \/
  (maps' = maps /\ forall k, (hash_key key, k) ∈ all_keys maps -> ~ named kt k key).

Lemma wp_part_remove (Q : bool -> CamelBlockFile -> Prop) : (forall s' maps', index_after s' maps' -> key_removed maps' -> Q true s') ->
  wp (camel_partition_table_remove cpi key) Q s.
Proof.
  intros HQ. unfold camel_partition_table_remove. pose proof (proj1 R) as Rp. apply wp_mbind. eapply wp_find; [exact I|exact Rp|apply hash_key_range|]. intros m1 m m2 rs1 r rs2 A.
  apply wp_mbind. eapply wp_range_block; [exact Rp|exact A|exact I|]. apply wp_mbind. eapply wp_get_range; [exact Rp|exact A|exact I|exact K|].
  intros p s1 I1 Hp St1. pose proof (at_range_in _ _ _ _ _ _ _ _ A) as Hr. pose proof (pp_keys _ _ _ _ Rp r Hr) as Kr. pose proof (pr_bound _ _ _ _ Kr) as Bd.
  assert (Hp1 : <[p := Held (r_block r) 1 false]> P !! p = Some (Held (r_block r) 1 false)) by apply lookup_insert_eq.
  apply wp_mbind. eapply (wp_scan C P cpi maps kt R key p r (hash_key key) Hp Hr (length (r_keys r)) 0); [lia|unfold SCAN_FUEL; lia|exact I1|by apply (steady_ok s s1)| |].
  - intros s2 j k I2 St2 Hj Nk. pose proof (lookup_lt_Some _ _ _ Hj) as Lj. set (l := r_keys r) in *. set (d := C (r_block r)) in *.
    apply wp_mbind, wp_mbind. eapply wp_word_at; [exact I2|exact Hp1|apply (pr_count _ _ _ _ Kr)|].
    apply wp_mbind. eapply wp_set_at; [apply (BF_put _ _ _ _ _ _ I2 (eq_refl : C (r_block r) = d))|exact Hp1|unfold PK_USED, WORDS; lia|]. intros s3 I3 St3.
    assert (EU : u32 (Z.of_nat (length l) - 1) = Z.of_nat (length l - 1)) by (unfold u32; rewrite Z.mod_small; lia). fold l in I3. rewrite EU in I3.
    assert (Ld : length (drop (S j) l) = (length l - S j)%nat) by apply length_drop. apply wp_mbind.
    eapply (wp_close_gap C _ p _ _ _ Hp1 (drop (S j) l) SCAN_FUEL s3 _ _ j); [exact I3|unfold SCAN_FUEL; lia|lia| |rewrite Ld; reflexivity| |].
    { unfold PK_USED. rewrite list_lookup_insert_eq by (unfold d; rewrite (pr_length _ _ _ _ Kr); unfold WORDS; lia). f_equal. lia. }
    { intros i x Hi. rewrite lookup_drop in Hi. destruct (pr_pairs _ _ _ _ Kr _ _ Hi) as [W1 W2]. unfold pair_at, PK_USED. by rewrite !list_lookup_insert_ne by lia. }
    intros s4 I4 St4. unfold PK_USED in I4. rewrite <- put_pairs_before in I4 by lia.
    replace (length l - 1)%nat with (j + length (drop (S j) l))%nat in I4 by lia.
    eapply (wp_range_done m1 m m2 rs1 r rs2 p s4 _ (take j l ++ drop (S j) l)); [exact A|exact Hp| |exact I4|apply (pairs_rep_put 1 0 d l); [exact Kr|lia..]| | |steady_t|].
    + set_solver.
    + intros x Hx. left. apply elem_of_app in Hx as [Hx|Hx]; [by eapply elem_of_take_in|by eapply elem_of_drop_in].
    + intros h k' Hx. left. apply elem_of_app in Hx as [Hx|Hx]; [by eapply elem_of_take_in|by eapply elem_of_drop_in].
    + intros s' Af. eapply HQ; [exact Af|]. left. exists k. split; [exact Nk|]. rewrite all_keys_with, (all_keys_ranges _ _ _ _ (at_range_flat _ _ _ _ _ _ _ _ A)).
      fold l. rewrite <- (take_drop_middle l j _ Hj) at 1. rewrite <- !app_assoc. cbn [app]. symmetry. apply Permutation_middle.
  - intros s2 I2 St2 Hn. apply wp_mbind, wp_mret, wp_mbind. eapply wp_drop; [exact I2|done|done|exact Hp|]. intros s3 I3 St3. apply wp_mret, (HQ s3 maps).
    + split; [steady_t|]. by exists C.
    + right. split; [done|]. intros k Hk. apply (range_answer _ _ _ _ _ R key _ _ _ _ _ _ A) in Hk. apply list_elem_of_lookup_1 in Hk as [j Hj]. apply (Hn j); [lia|done].
Qed.
End Remove.
