(* ===== verification/PartitionSplit.v ===== *)
(** * PartitionSplit: cutting the keys of two blocks in halves

    Both halves fit in a block, whatever the hashes; the cut is between two
    hashes exactly when the hash below the middle is not the one at the upper
    bound of the scan.  Then the two ranges take the place of the old ones. *)

From stdpp Require Import base list numbers sorting gmap functions.
From Stdlib Require Import ZArith Lia.
From S2P Require Import Prelude BlockFile BlockFileInv BlockFileOps KeyTable KeyBlocks KeyTableInv KeyTableSpec PartitionTable PartitionInv PartitionSpec.

(** ** Where the keys are cut *)

Lemma scan_up_spec hs upper : forall fuel half, (half <= upper)%nat -> (upper <= half + fuel)%nat ->
  let h := scan_up fuel hs half upper in (half <= h <= upper)%nat /\
  (forall j, (half <= j < h)%nat -> nth j hs 0 = nth (j - 1) hs 0) /\ (h = upper \/ nth h hs 0 <> nth (h - 1) hs 0).
Proof.
  induction fuel as [|fuel IH]; intros half L F; cbn [scan_up]; [split_and!; [lia..|by left; lia]|].
  destruct (Nat.ltb_spec half upper) as [Lt|Ge]; cbn [andb]; [|split_and!; [lia..|left; lia]].
  destruct (Z.eqb_spec (nth half hs 0) (nth (half - 1) hs 0)) as [E|N]; [|split_and!; [lia..|by right]].
  destruct (IH (S half)) as (B & Eq & St); [lia..|]. split_and!; [lia|lia| |exact St]. intros j Hj. destruct (decide (j = half)) as [->|]; [done|]. apply Eq. lia.
Qed.

Lemma scan_down_spec hs lower : forall fuel half, (lower <= half)%nat ->
  let h := scan_down fuel hs half lower in (lower <= h <= half)%nat /\ (h = half \/ nth h hs 0 = nth (h - 1) hs 0).
Proof.
  induction fuel as [|fuel IH]; intros half L; cbn [scan_down]; [split; [lia|by left]|].
  destruct (Nat.ltb_spec lower half) as [Lt|Ge]; cbn [andb]; [|split; [lia|by left]].
  destruct (Z.eqb_spec (nth (half - 1) hs 0) (nth (half - 2) hs 0)) as [E|N]; [|split; [lia|by left]].
  destruct (IH (half - 1)%nat) as (B & [Eq|Eq]); [lia| |]; (split; [lia|right]); [|exact Eq]. rewrite Eq. replace (half - 1 - 1)%nat with (half - 2)%nat by lia. exact E.
Qed.

(** The cut is at a change of the hash. *)
Definition cut_at_change (hs : list Z) : Prop := nth (split_point hs) hs 0 <> nth (split_point hs - 1) hs 0.

Section Split.
Context (hs : list Z) (L : (128 <= length hs <= 254)%nat).
Let n := length hs.

Lemma split_point_fits : (1 <= split_point hs <= 127 /\ 1 <= n - split_point hs <= 127)%nat.
Proof.
  unfold split_point. fold n. assert (Ln : (128 <= n <= 254)%nat) by exact L. clearbody n. set (upper := Nat.min 127 (n - 1)). set (lower := Nat.max 1 (n - 127)).
  assert (H2 : (64 <= n / 2 <= 127 /\ n <= 2 * (n / 2) + 1)%nat) by (split; [split; [apply Nat.div_le_lower_bound; lia|apply Nat.div_le_upper_bound; lia]|pose proof (Nat.div_mod_eq n 2); pose proof (Nat.mod_upper_bound n 2); lia]).
  destruct (scan_up_spec hs upper n (n / 2)) as (B & _); [lia..|]. destruct (_ && _); [|lia].
  destruct (scan_down_spec hs lower n (n / 2)) as (B' & _); [lia|]. lia.
Qed.

(** The second scan never finds a change: the cut is good exactly when the
    first one ends at a change. *)
Lemma split_point_change : (forall i j, (i <= j < n)%nat -> nth i hs 0 <= nth j hs 0) ->
  cut_at_change hs <-> nth (n / 2 - 1) hs 0 <> nth (Nat.min 127 (n - 1)) hs 0.
Proof.
  intros So. unfold cut_at_change, split_point. fold n. assert (Ln : (128 <= n <= 254)%nat) by exact L. clearbody n. set (upper := Nat.min 127 (n - 1)). set (lower := Nat.max 1 (n - 127)).
  assert (H2 : (64 <= n / 2 <= 127 /\ n <= 2 * (n / 2) + 1)%nat) by (split; [split; [apply Nat.div_le_lower_bound; lia|apply Nat.div_le_upper_bound; lia]|pose proof (Nat.div_mod_eq n 2); pose proof (Nat.mod_upper_bound n 2); lia]).
  destruct (scan_up_spec hs upper n (n / 2)) as (B & Eq & St); [lia..|]. set (half := scan_up n hs (n / 2) upper) in *.
  destruct ((upper <=? half)%nat && _) eqn:E.
  - apply andb_true_iff in E as [E1%Nat.leb_le E2%Z.eqb_eq]. assert (half = upper) by lia.
    assert (Run : forall k, (n / 2 + k <= upper)%nat -> nth (n / 2 + k) hs 0 = nth (n / 2 - 1) hs 0).
    { induction k as [|k IHk]; intros Hk.
      - rewrite Nat.add_0_r. destruct (decide (n / 2 = half)%nat) as [->|]; [done|]. apply Eq. lia.
      - rewrite <- IHk by lia. replace (n / 2 + k)%nat with (n / 2 + S k - 1)%nat by lia. destruct (decide (n / 2 + S k = half)%nat) as [->|]; [done|]. apply Eq. lia. }
    split; [|intros N; exfalso; apply N; rewrite <- (Run (upper - n / 2)%nat) by lia; f_equal; lia]. intros N. exfalso. apply N.
    destruct (scan_down_spec hs lower n (n / 2)) as (B' & [->|Eq']); [lia| |exact Eq']. rewrite <- (Run 0%nat) by lia. by rewrite Nat.add_0_r.
  - assert (N : nth half hs 0 <> nth (half - 1) hs 0).
    { destruct St as [->|N]; [|done]. intros E'. rewrite (proj2 (Z.eqb_eq _ _) E'), Nat.leb_refl in E. done. }
    split; [|done]. intros _ E'. pose proof (So (half - 1)%nat half ltac:(lia)). pose proof (So (n / 2 - 1)%nat (half - 1)%nat ltac:(lia)). pose proof (So half upper ltac:(lia)). lia.
Qed.
End Split.

(** ** Writing the halves *)

Lemma wp_get_all C P s X p id n dt l (Q : list (Z * Z) -> CamelBlockFile -> Prop) : BF s C P X -> P !! p = Some (Held id n dt) -> pairs_rep 1 0 (C id) l -> Q l s ->
  wp (get_keys p 0 (Z.to_nat (Z.of_nat (length l)))) Q s.
Proof.
  intros I Hp K HQ. rewrite Nat2Z.id. change 0 with (Z.of_nat 0). pose proof (pr_bound _ _ _ _ K).
  eapply (wp_get_keys_list C P p id n dt Hp s X (C id)); [apply (BF_put _ _ _ _ _ _ I eq_refl)|lia|apply (pr_pairs _ _ _ _ K)|exact HQ].
Qed.

Lemma wp_write_half {A} C P s X p id n dt l ks (k : M A) (Q : A -> CamelBlockFile -> Prop) : BF s C P X -> P !! p = Some (Held id n dt) -> pairs_rep 1 0 (C id) l ->
  (length ks <= 127)%nat ->
  (forall s' d, BF s' (put C id d) P (X ∪ {[p]}) -> pairs_rep 1 0 d ks -> steady s s' -> wp k Q s') ->
  wp (set_keys p 0 ks;; set_word p PK_USED (Z.of_nat (length ks));; k) Q s.
Proof.
  intros I Hp K L HQ. apply wp_mbind. change 0 with (Z.of_nat 0).
  eapply (wp_set_keys_list C P p id n dt Hp ks s X (C id) 0); [apply (BF_put _ _ _ _ _ _ I eq_refl)|lia|]. intros s1 I1 St1.
  apply wp_mbind. eapply wp_set_at; [exact I1|exact Hp|unfold PK_USED, WORDS; lia|]. intros s2 I2 St2.
  assert (EX : X ∪ {[p]} ∪ {[p]} = X ∪ {[p]}) by set_solver. rewrite EX in I2.
  eapply HQ; [exact I2| |by transitivity s1]. pose proof (pairs_rep_put 1 0 (C id) l ks 0 K) as R. cbn [take app Nat.add] in R. apply R; lia.
Qed.

(** A word of the map block. *)
Lemma pairs_rep_hash d l i x v : pairs_rep 2 1 d l -> l !! i = Some x -> pairs_rep 2 1 (<[(2 + 2 * i)%nat := v]> d) (<[i := (v, snd x)]> l).
Proof.
  intros [L K B Pr] H. pose proof (lookup_lt_Some _ _ _ H) as Li. constructor.
  - by rewrite length_insert.
  - rewrite length_insert. by rewrite list_lookup_insert_ne by lia.
  - by rewrite length_insert.
  - intros j y Hj. unfold pair_at. apply list_lookup_insert_Some in Hj as [(<- & <- & _)|[N Hj]].
    + rewrite list_lookup_insert_eq by (rewrite L; unfold WORDS; lia). rewrite list_lookup_insert_ne by lia. destruct (Pr i x H) as [_ P2]. by split.
    + rewrite !list_lookup_insert_ne by lia. by apply Pr.
Qed.

Section SplitKeys.
Context (qsort : list (Z * Z) -> list (Z * Z)) (Hqs : forall l, qsort l ≡ₚ l).

Lemma written_left (X : gset loc) a b c : X ⊆ {[a; b; c]} -> X ∖ {[a]} ∖ {[b]} ⊆ {[c]}.
Proof. set_solver. Qed.

(** The sorted keys, and what the two blocks get. *)
Definition merged (l1 l2 : list (Z * Z)) (hashid keyid : Z) : list (Z * Z) := qsort (l1 ++ l2 ++ [(hashid, keyid)]).
Definition half_of (ks : list (Z * Z)) : nat := split_point (map fst ks).

Lemma wp_split_keys s C P block x nx newblock y pt mm nm X l1 l2 ps (low : bool) i index newindex hashid keyid (Q : unit -> CamelBlockFile -> Prop) :
  BF s C (<[newblock := Held y 1 false]> P) X -> P !! newblock = None -> P !! block = Some (Held x nx false) -> P !! pt = Some (Held mm nm true) ->
  x <> y -> mm <> x -> mm <> y -> x <> 0 -> y <> 0 -> mm <> 0 -> pairs_rep 1 0 (C x) l1 -> pairs_rep 1 0 (C y) l2 -> pairs_rep 2 1 (C mm) ps -> (i < length ps)%nat ->
  (128 <= length (l1 ++ l2 ++ [(hashid, keyid)]) <= 254)%nat -> (index <? newindex) = low -> (if low then index else newindex) = Z.of_nat i -> X ⊆ {[pt; newblock; block]} ->
  (forall s' C', let ks := merged l1 l2 hashid keyid in BF s' C' P {[block]} -> steady s s' -> (forall z, z <> 0 -> z <> x -> z <> y -> z <> mm -> C' z = C z) ->
    (forall w, w <> ROOT_FLAGS -> C' 0 !! w = C 0 !! w) -> pairs_rep 1 0 (C' (if low then x else y)) (take (half_of ks) ks) ->
    pairs_rep 1 0 (C' (if low then y else x)) (drop (half_of ks) ks) -> C' mm = <[(2 + 2 * i)%nat := nth (half_of ks - 1) (map fst ks) 0]> (C mm) -> Q tt s') ->
  wp (split_keys qsort pt block newblock index newindex hashid keyid) Q s.
Proof.
  intros I Hn Hb Hm Nxy Nmx Nmy X0 Y0 M0 K1 K2 Km Li Len El Ei SX HQ. cbn zeta in HQ. assert (Nbn : block <> newblock) by congruence. assert (Npn : pt <> newblock) by congruence.
  set (P1 := <[newblock := Held y 1 false]> P) in *.
  assert (Hn1 : P1 !! newblock = Some (Held y 1 false)) by apply lookup_insert_eq. assert (Hb1 : P1 !! block = Some (Held x nx false)) by (unfold P1; by rewrite lookup_insert_ne).
  assert (Hm1 : P1 !! pt = Some (Held mm nm true)) by (unfold P1; by rewrite lookup_insert_ne). pose proof (pr_bound _ _ _ _ K1) as B1. pose proof (pr_bound _ _ _ _ K2) as B2.
  unfold split_keys. apply wp_mbind. eapply wp_word_at; [exact I|exact Hb1|apply (pr_count _ _ _ _ K1)|].
  apply wp_mbind. eapply wp_get_all; [exact I|exact Hb1|exact K1|].
  apply wp_mbind. eapply wp_word_at; [exact I|exact Hn1|apply (pr_count _ _ _ _ K2)|].
  apply wp_mbind. eapply wp_get_all; [exact I|exact Hn1|exact K2|].
  cbn zeta. fold (merged l1 l2 hashid keyid). set (ks := merged l1 l2 hashid keyid) in *. fold (half_of ks). set (h := half_of ks) in *. rewrite El, Ei.
  assert (Lk : length ks = length (l1 ++ l2 ++ [(hashid, keyid)])) by (unfold ks, merged; by rewrite Hqs).
  assert (F : (1 <= h <= 127 /\ 1 <= length ks - h <= 127)%nat).
  { unfold h, half_of. rewrite <- (length_map fst ks). apply split_point_fits. rewrite length_map. lia. }
  assert (Lt : length (take h ks) = h) by (rewrite length_take; lia). assert (Ld : length (drop h ks) = (length ks - h)%nat) by apply length_drop.
  set (v := nth (h - 1) (map fst ks) 0) in *.
  assert (G : exists pl ph il ih nl nh ll lh, (if low then block else newblock) = pl /\ (if low then newblock else block) = ph /\ (if low then x else y) = il /\ (if low then y else x) = ih /\
    P1 !! pl = Some (Held il nl false) /\ P1 !! ph = Some (Held ih nh false) /\ pairs_rep 1 0 (C il) ll /\ pairs_rep 1 0 (C ih) lh /\ il <> ih /\ mm <> il /\ mm <> ih /\ il <> 0 /\ ih <> 0 /\
    (X ∪ {[pl]} ∪ {[ph]} ∪ {[pt]} ⊆ {[pt; newblock; block]}) /\ (forall z, z <> x -> z <> y -> z <> il /\ z <> ih)).
  { destruct low; [exists block, newblock, x, y, nx, 1, l1, l2|exists newblock, block, y, x, 1, nx, l2, l1]; split_and!; try done; try set_solver; intros z Z1 Z2; by split. }
  destruct G as (pl & ph & il & ih & nl & nh & ll & lh & -> & -> & Eil & Eih & Hl1 & Hh1 & Kl & Kh & Nlh & Nml & Nmh & L0 & H0 & SX' & Nz). rewrite Eil, Eih in HQ.
  replace (Z.of_nat h) with (Z.of_nat (length (take h ks))) by (by rewrite Lt). eapply wp_write_half; [exact I|exact Hl1|exact Kl|lia|]. intros s1 dl I1 Kl1 St1.
  rewrite <- Ld. eapply wp_write_half; [exact I1|exact Hh1|rewrite put_ne by congruence; exact Kh|lia|]. intros s2 dh I2 Kh2 St2.
  apply wp_mbind. assert (Em : put (put C il dl) ih dh mm = C mm) by by rewrite !put_ne.
  eapply (wp_set_pair _ P1 pt mm nm true Hm1 s2 _ (C mm) 2 i); [apply (BF_put _ _ _ _ _ _ I2 Em)|pose proof (pr_bound _ _ _ _ Km); lia|unfold WORDS; pose proof (pr_bound _ _ _ _ Km); lia|]. intros s3 I3 St3.
  apply wp_mbind. eapply wp_touch; [exact I3|exact Hm1|]. intros s4 C4 I4 B4 St4 _.
  apply wp_mbind. eapply wp_touch; [exact I4|exact Hn1|]. intros s5 C5 I5 B5 St5 _.
  eapply wp_unref; [exact I5|exact Hn1|set_solver|done|]. intros s6 I6 [St6 _]. unfold P1 in I6. rewrite drop_fresh in I6 by done.
  assert (B : but_flags (put (put (put C il dl) ih dh) mm (<[(2 + 2 * i)%nat := v]> (C mm))) C5) by (by transitivity C4). destruct B as [Ba Bb].
  eapply (HQ s6 C5); [|steady_t|..].
  - eapply BF_X; [exact Hb|exact I6|by apply written_left|apply union_subseteq_r].
  - intros z Z0 Zx Zy Zm. destruct (Nz z Zx Zy). rewrite Ba by done. by rewrite !put_ne by done.
  - intros w Nw. rewrite Bb by done. by rewrite !put_ne by congruence.
  - rewrite Ba by done. rewrite (put_ne _ mm), (put_ne _ ih), put_eq by congruence. exact Kl1.
  - rewrite Ba by done. rewrite (put_ne _ mm), put_eq by congruence. exact Kh2.
  - rewrite Ba by done. by rewrite put_eq.
Qed.
End SplitKeys.

(** ** Other ranges in the place of some, and blocks that are
    held for a while *)

(** ** Replacing ranges *)

Lemma linked_in C nxt ms : linked C nxt ms -> forall m, m ∈ ms -> m_ranges m <> [].
Proof. intros L m Hm. destruct (linked_map _ _ _ _ L Hm) as (x & _ & N & _). exact N. Qed.

Lemma part_nodup_mid (a b c : list Z) x : NoDup (a ++ b ++ c) -> x ∈ b -> x ∉ a ++ c.
Proof. rewrite (Permutation_app_swap_app a b c). intros (_ & N & _)%list.NoDup_app Hx. by apply N. Qed.

Section Replace.
Context (C : Z -> list Z) (P : gmap loc held) (cpi : CamelPartitionTable) (m1 : list mapb) (m : mapb) (m2 : list mapb)
  (ra old rb : list range) (R : part_rep C P cpi (m1 ++ m :: m2)) (E : m_ranges m = ra ++ old ++ rb)
  (C' : Z -> list Z) (nw : list range) (news : list Z).
Let m' := MapB (m_ptr m) (m_id m) (ra ++ nw ++ rb).

Lemma replace_flat x : m_ranges x = ra ++ old ++ rb -> ranges_of (m1 ++ x :: m2) = (ranges_of m1 ++ ra) ++ old ++ (rb ++ ranges_of m2).
Proof. intros Ex. rewrite ranges_of_app, ranges_of_cons, Ex. by rewrite <- !app_assoc. Qed.

Lemma replace_flat_new : ranges_of (m1 ++ m' :: m2) = (ranges_of m1 ++ ra) ++ nw ++ (rb ++ ranges_of m2).
Proof. rewrite ranges_of_app, ranges_of_cons. cbn [m' m_ranges]. by rewrite <- !app_assoc. Qed.

Lemma replace_blocks : map r_block nw ≡ₚ news ++ map r_block old -> blocks_of (m1 ++ m' :: m2) ≡ₚ news ++ blocks_of (m1 ++ m :: m2).
Proof.
  intros Pn. unfold blocks_of. rewrite replace_flat_new, (replace_flat m E), !map_app, Pn. cbn [map m' m_id].
  rewrite <- !app_assoc. rewrite !(Permutation_app_swap_app _ news). reflexivity.
Qed.

Lemma part_rep_replace : nw <> [] -> pairs_rep 2 1 (C' (m_id m)) (map range_pair (ra ++ nw ++ rb)) -> word C' (m_id m) PM_NEXT = word C (m_id m) PM_NEXT ->
  (forall r, r ∈ nw -> keys_ok C' r) -> (forall lo hi, seg (-1) (ranges_of m1 ++ ra) lo -> seg lo old hi -> seg lo nw hi) -> map r_block nw ≡ₚ news ++ map r_block old ->
  NoDup news -> (forall x, x ∈ news -> word C 0 ROOT_LAST <= x < word C' 0 ROOT_LAST /\ x mod 1024 = 0) ->
  (forall x, x <> 0 -> x <> m_id m -> x ∉ map r_block nw -> C' x = C x) -> word C 0 ROOT_LAST <= word C' 0 ROOT_LAST -> alloc_ok C' P ->
  part_rep C' P cpi (m1 ++ m' :: m2).
Proof.
  intros Nn Pm Wn Kn Sg Pn Dn Bn F Lb Al. pose proof (replace_blocks Pn) as PB. destruct R as [Q1 Q2 Q3 Q4 Q5 Q6 Q7 Q8 Q9].
  assert (Hb : forall x, x ∈ blocks_of (m1 ++ m :: m2) -> x <> 0 /\ x < word C 0 ROOT_LAST) by (intros x Hx; destruct (Q6 x Hx); lia).
  assert (Dj : NoDup (blocks_of (m1 ++ m' :: m2))).
  { rewrite PB. apply list.NoDup_app. split_and!; [exact Dn| |exact Q7]. intros x Hx Hx'. destruct (Bn x Hx). destruct (Hb x Hx'). lia. }
  assert (Fm : forall x, x ∈ m1 ++ m2 -> C' (m_id x) = C (m_id x)).
  { intros x Hx. assert (Hx' : x ∈ m1 ++ m :: m2) by (apply elem_of_app in Hx as [Hx|Hx]; apply elem_of_app; [by left|right; by right]).
    apply F; [apply Hb, elem_of_app; left; by apply (list_elem_of_fmap_2 m_id)| |].
    - intros Ei. apply list.NoDup_app in Q7 as (N & _ & _). rewrite map_app in N. cbn [map] in N. apply (NoDup_remove_2 (map m_id m1) (map m_id m2) (m_id m)); [by apply NoDup_ListNoDup|].
      rewrite <- map_app, <- Ei. apply list_elem_of_In. by apply (list_elem_of_fmap_2 m_id).
    - intros Hr. apply list.NoDup_app in Dj as (_ & N & _). apply (N (m_id x)); [|rewrite replace_flat_new, !map_app; apply elem_of_app; right; apply elem_of_app; by left].
      rewrite map_app. cbn [map m' m_id]. rewrite <- map_cons, <- map_app. by apply (list_elem_of_fmap_2 m_id _ x). }
  assert (Fr : forall r, r ∈ (ranges_of m1 ++ ra) ++ (rb ++ ranges_of m2) -> C' (r_block r) = C (r_block r) /\ r ∈ ranges_of (m1 ++ m :: m2)).
  { intros r Hr. assert (Hr' : r ∈ ranges_of (m1 ++ m :: m2)) by (rewrite (replace_flat m E); apply elem_of_app in Hr as [Hr|Hr]; apply elem_of_app; [by left|right; apply elem_of_app; by right]).
    split; [|done]. apply F; [apply Hb, elem_of_app; right; by apply (list_elem_of_fmap_2 r_block)| |].
    - intros Ei. apply list.NoDup_app in Q7 as (_ & N & _). apply (N (m_id m)); [apply (list_elem_of_fmap_2 m_id), elem_of_app; right; apply list_elem_of_here|]. rewrite <- Ei. by apply (list_elem_of_fmap_2 r_block).
    - intros Hn. apply list.NoDup_app in Dj as (_ & _ & N). rewrite replace_flat_new, !map_app in N. apply (part_nodup_mid _ _ _ (r_block r) N Hn). rewrite <- !map_app. by apply (list_elem_of_fmap_2 r_block). }
  constructor.
  - rewrite Q1, !map_app. done.
  - intros x [Hx|[->|Hx]%elem_of_cons]%elem_of_app; [apply Q2, elem_of_app; by left| |apply Q2, elem_of_app; right; by right]. cbn [m' m_ptr m_id]. apply Q2, elem_of_app. right. apply list_elem_of_here.
  - apply linked_app in Q3 as [L1 [(_ & _ & L2) L3]]. apply linked_app. split; [eapply linked_maps_frame; [|exact L1]; intros x Hx; apply Fm, elem_of_app; by left|].
    split; [|eapply linked_maps_frame; [|exact L3]; intros x Hx; apply Fm, elem_of_app; by right]. split_and!; [exact Pm|cbn [m' m_ranges]; destruct ra; [by destruct nw|done]|exact (eq_trans Wn L2)].
  - intros r Hr. rewrite replace_flat_new in Hr. apply elem_of_app in Hr as [Hr|[Hr|Hr]%elem_of_app]; [|by apply Kn|].
    + destruct (Fr r) as [Ec Hr']; [apply elem_of_app; by left|]. unfold keys_ok. rewrite Ec. by apply Q4.
    + destruct (Fr r) as [Ec Hr']; [apply elem_of_app; by right|]. unfold keys_ok. rewrite Ec. by apply Q4.
  - rewrite (replace_flat m E) in Q5. rewrite replace_flat_new. apply ranges_seg_app in Q5 as (lo & S1 & S2). apply ranges_seg_app in S2 as (hi & S2 & S3). apply ranges_seg_app. exists lo. split; [exact S1|]. apply ranges_seg_app. exists hi. split; [|exact S3]. by apply Sg.
  - intros x Hx. rewrite PB in Hx. apply elem_of_app in Hx as [Hx|Hx]; [destruct (Bn x Hx); split; [|done]|destruct (Q6 x Hx); split; [lia|done]]. destruct (al_last _ _ Q9). lia.
  - exact Dj.
  - intros r Hr p h Hp Eh. assert (Hr' : r_block r ∈ blocks_of (m1 ++ m' :: m2)) by (apply elem_of_app; right; by apply (list_elem_of_fmap_2 r_block)).
    rewrite replace_flat_new in Hr. apply elem_of_app in Hr as [Hr|[Hr|Hr]%elem_of_app]; [by apply (Q8 r (proj2 (Fr r (proj2 (elem_of_app _ _ _) (or_introl Hr)))) p h)| |by apply (Q8 r (proj2 (Fr r (proj2 (elem_of_app _ _ _) (or_intror Hr)))) p h)].
    apply (list_elem_of_fmap_2 r_block) in Hr. change (r_block <$> nw) with (map r_block nw) in Hr. rewrite Pn in Hr. apply elem_of_app in Hr as [Hr|Hr].
    + destruct (Bn _ Hr). pose proof (al_held _ _ Q9 p h Hp). lia.
    + apply list_elem_of_fmap in Hr as (y & Ey & Hy). eapply (Q8 y); [rewrite (replace_flat m E); apply elem_of_app; right; apply elem_of_app; by left|exact Hp|congruence].
  - exact Al.
Qed.
End Replace.
