(* ===== verification/PartitionGrow.v ===== *)
(** * PartitionGrow: blocks held for a while, neighbours, new ranges and split
    blocks of the map *)

From stdpp Require Import base list numbers gmap functions.
From Stdlib Require Import ZArith Lia.
From S2P Require Import Prelude BlockFile BlockFileInv BlockFileOps KeyTable KeyBlocks KeyTableInv KeyTableSpec KeyTableSafe PartitionTable PartitionInv PartitionSpec PartitionSplit.

(** ** Blocks that an operation holds *)

(** The pointers [ts], with the numbers of their blocks, on top of [P]. *)
Fixpoint hold (ts : list (loc * Z)) (P : gmap loc held) : gmap loc held :=
  match ts with [] => P | (p, i) :: ts => <[p := Held i 1 false]> (hold ts P) end.

Record fresh_ptrs (ts : list (loc * Z)) (P : gmap loc held) : Prop := {
  fp_nodup : NoDup (map fst ts);
  fp_new : forall p i, (p, i) ∈ ts -> P !! p = None }.

Lemma hold_other ts P p : p ∉ map fst ts -> hold ts P !! p = P !! p.
Proof. induction ts as [|[q i] ts IH]; cbn [hold map fst]; [done|]. intros [N1 N2]%not_elem_of_cons. by rewrite lookup_insert_ne, IH. Qed.

Lemma hold_base ts P p h : fresh_ptrs ts P -> P !! p = Some h -> hold ts P !! p = Some h.
Proof. intros [_ F] Hp. rewrite hold_other; [done|]. intros ([q i] & E & Hq)%list_elem_of_fmap. cbn in E. subst q. by rewrite (F _ _ Hq) in Hp. Qed.

Lemma hold_in ts P p i : NoDup (map fst ts) -> (p, i) ∈ ts -> hold ts P !! p = Some (Held i 1 false).
Proof.
  induction ts as [|[q j] ts IH]; cbn [hold map fst]; [by intros _ ?%not_elem_of_nil|]. intros [N D]%list.NoDup_cons [[= <- <-]|H]%elem_of_cons; [apply lookup_insert_eq|].
  rewrite lookup_insert_ne; [by apply IH|]. intros ->. apply N. by apply (list_elem_of_fmap_2 fst _ (p, i)).
Qed.

Lemma hold_lookup ts P p h : hold ts P !! p = Some h -> (exists i, (p, i) ∈ ts /\ h = Held i 1 false) \/ P !! p = Some h.
Proof.
  induction ts as [|[q j] ts IH]; cbn [hold map fst]; [by right|]. intros [[<- <-]|[_ H]]%lookup_insert_Some; [left; exists j; split; [apply list_elem_of_here|done]|].
  destruct (IH H) as [(i & Hi & E)|E]; [left; exists i; split; [by right|done]|by right].
Qed.

Lemma hold_app ts ts' P : hold (ts ++ ts') P = hold ts (hold ts' P).
Proof. induction ts as [|[p i] ts IH]; cbn [app hold]; [done|]. by rewrite IH. Qed.

Lemma hold_insert ts P p h : p ∉ map fst ts -> <[p := h]> (hold ts P) = hold ts (<[p := h]> P).
Proof. induction ts as [|[q i] ts IH]; cbn [hold map fst]; [done|]. intros [N1 N2]%not_elem_of_cons. by rewrite insert_insert_ne, IH. Qed.

Lemma drop_hold ts1 p i ts2 P : fresh_ptrs (ts1 ++ (p, i) :: ts2) P -> drop_ref p (hold (ts1 ++ (p, i) :: ts2) P) = hold (ts1 ++ ts2) P.
Proof.
  intros [D F]. rewrite !hold_app. cbn [hold]. rewrite map_app in D. cbn [map] in D. apply list.NoDup_app in D as (D1 & D2 & [D3 D4]%list.NoDup_cons).
  assert (N : p ∉ map fst ts1) by (intros H; apply (D2 p H), list_elem_of_here).
  rewrite <- hold_insert by done. apply drop_fresh. rewrite hold_other by done. rewrite hold_other by done. apply (F p i). apply elem_of_app. right. apply list_elem_of_here.
Qed.

Lemma fresh_drop ts1 x ts2 P : fresh_ptrs (ts1 ++ x :: ts2) P -> fresh_ptrs (ts1 ++ ts2) P.
Proof.
  intros [D F]. constructor.
  - rewrite map_app in *. cbn [map] in D. apply NoDup_ListNoDup. apply (NoDup_remove_1 _ _ (fst x)). by apply NoDup_ListNoDup.
  - intros p i H. apply (F p i). apply elem_of_app in H as [H|H]; apply elem_of_app; [by left|right; by right].
Qed.

Lemma fresh_base ts P p h : fresh_ptrs ts P -> p ∉ map fst ts -> fresh_ptrs ts (<[p := h]> P).
Proof. intros [D F] N. constructor; [exact D|]. intros q i Hq. rewrite lookup_insert_ne; [by eapply F|]. intros ->. apply N. by apply (list_elem_of_fmap_2 fst _ (q, i)). Qed.

Lemma fresh_cons ts P p i : fresh_ptrs ts P -> hold ts P !! p = None -> fresh_ptrs ((p, i) :: ts) P.
Proof.
  intros [D F] H. assert (N : p ∉ map fst ts) by (intros ([q j] & E & Hq)%list_elem_of_fmap; cbn in E; subst q; by rewrite (hold_in _ _ _ _ D Hq) in H).
  constructor; [by apply list.NoDup_cons|]. intros q j [[= -> ->]|Hq]%elem_of_cons; [by rewrite hold_other in H|by eapply F].
Qed.

Lemma wp_unref_hold s C ts1 p i ts2 P X (Q : unit -> CamelBlockFile -> Prop) : BF s C (hold (ts1 ++ (p, i) :: ts2) P) X -> fresh_ptrs (ts1 ++ (p, i) :: ts2) P -> p ∉ X ->
  (forall s', BF s' C (hold (ts1 ++ ts2) P) X -> steady s s' -> Q tt s') -> wp (camel_block_file_unref_block p) Q s.
Proof.
  intros I Fr N HQ. eapply wp_unref; [exact I|apply hold_in; [apply Fr|apply elem_of_app; right; apply list_elem_of_here]|exact N|done|].
  intros s' I' [St _]. rewrite (drop_hold _ _ _ _ _ Fr) in I'. by apply HQ.
Qed.

(** An optional block of the list. *)
Definition opt_ptr (o : option (loc * Z)) : list (loc * Z) := match o with Some x => [x] | None => [] end.

Lemma wp_unref_opt s C ts1 o ts2 P X (Q : unit -> CamelBlockFile -> Prop) : BF s C (hold (ts1 ++ opt_ptr o ++ ts2) P) X -> fresh_ptrs (ts1 ++ opt_ptr o ++ ts2) P ->
  (forall x, o = Some x -> fst x ∉ X) ->
  (forall s', BF s' C (hold (ts1 ++ ts2) P) X -> fresh_ptrs (ts1 ++ ts2) P -> steady s s' -> Q tt s') -> wp (unref_opt (fst <$> o)) Q s.
Proof.
  intros I Fr N HQ. destruct o as [[p i]|]; cbn [opt_ptr app fmap option_fmap option_map fst unref_opt] in *; [|by apply wp_mret, HQ].
  eapply wp_unref_hold; [exact I|exact Fr|by apply (N (p, i))|]. intros s' I' St. apply HQ; [exact I'|by eapply fresh_drop|exact St].
Qed.

Lemma wp_get_hold s C ts P X id (Q : option loc -> CamelBlockFile -> Prop) : BF s C (hold ts P) X -> fresh_ptrs ts P -> ok_io s -> valid_block C id = true -> not_held P id ->
  id ∉ map snd ts -> (forall p s', BF s' C (hold ((p, id) :: ts) P) X -> fresh_ptrs ((p, id) :: ts) P -> steady s s' -> Q (Some p) s') -> wp (camel_block_file_get_block id) Q s.
Proof.
  intros I Fr K V N Ni HQ. eapply wp_get_fresh; [exact I|exact K|exact V| |].
  - intros p h Hp E. destruct (hold_lookup _ _ _ _ Hp) as [(i & Hi & ->)|Hp']; [|by apply (N p h)]. cbn in E. subst i. apply Ni. by apply (list_elem_of_fmap_2 snd _ (p, id)).
  - intros p s' I' Hp St. apply HQ; [exact I'|by apply fresh_cons|exact St].
Qed.

Lemma alloc_hold C ts P : alloc_ok C P -> (forall p i, (p, i) ∈ ts -> i < word C 0 ROOT_LAST) -> alloc_ok C (hold ts P).
Proof.
  intros [A1 A2 A3] B. constructor; [done|done|]. intros p h Hp. destruct (hold_lookup _ _ _ _ Hp) as [(i & Hi & ->)|Hp']; [by eapply B|by eapply A3].
Qed.

Lemma wp_new_hold s C ts P X (Q : option loc -> CamelBlockFile -> Prop) : BF s C (hold ts P) X -> fresh_ptrs ts P -> ok_io s -> alloc_ok C P ->
  (forall p i, (p, i) ∈ ts -> i < word C 0 ROOT_LAST) -> word C 0 ROOT_LAST + 1024 < 2 ^ 32 ->
  (forall p s' C', BF s' C' (hold ((p, word C 0 ROOT_LAST) :: ts) P) X -> fresh_ptrs ((p, word C 0 ROOT_LAST) :: ts) P -> grown C C' -> steady s s' -> Q (Some p) s') ->
  wp camel_block_file_new_block Q s.
Proof.
  intros I Fr K A B Rm HQ. eapply wp_new_fresh; [exact I|exact K|by apply alloc_hold|exact Rm|]. intros p s' C' I' Hp G St.
  apply (HQ p s' C'); [exact I'|by apply fresh_cons|exact G|exact St].
Qed.

(** The table is the same when more blocks are used at the end of the file. *)
Lemma grown_alloc_ok C C' P : grown C C' -> alloc_ok C P -> word C 0 ROOT_LAST + 1024 < 2 ^ 32 -> alloc_ok C' P.
Proof.
  intros [_ _ G1 G2] [_ [A2 A3] A4] Rm. constructor; [done| |].
  - rewrite G2, <- Z.add_mod_idemp_l, A3 by lia. split; [lia|done].
  - intros p h Hp. specialize (A4 p h Hp). lia.
Qed.

Lemma alloc_same C C' P : C' 0 = C 0 -> alloc_ok C P -> alloc_ok C' P.
Proof. intros E [A1 A2 A3]. constructor; unfold word in *; by rewrite E. Qed.

Lemma BF_X2 s C P p q id id' n n' dt dt' X : P !! p = Some (Held id n dt) -> P !! q = Some (Held id' n' dt') ->
  forall Y, BF s C P Y -> Y ⊆ X ∪ {[p; q]} -> (forall x, x ∈ X -> is_Some (P !! x)) -> BF s C P (X ∪ {[p; q]}).
Proof.
  intros Hp Hq Y I S HX. eapply BFq_more; [exact I|exact S|]. intros x [Hx|[Hx%elem_of_singleton|Hx%elem_of_singleton]%elem_of_union]%elem_of_union; [by apply HX|subst x; by rewrite Hp|subst x; by rewrite Hq].
Qed.

(** ** Neighbours *)

Lemma wp_neighbour s C P X ts cpi maps m i r (Q : option (option loc) -> CamelBlockFile -> Prop) : BF s C (hold ts P) X -> fresh_ptrs ts P -> ok_io s -> part_rep C P cpi maps ->
  m ∈ maps -> m_ranges m !! i = Some r -> r_block r ∉ map snd ts ->
  (forall p s', BF s' C (hold ((p, r_block r) :: ts) P) X -> fresh_ptrs ((p, r_block r) :: ts) P -> steady s s' -> Q (Some (Some p)) s') ->
  wp (get_neighbour (m_ptr m) true (Z.of_nat i)) Q s.
Proof.
  intros I Fr K R Hm Hi N HQ. destruct (pp_held _ _ _ _ R m Hm) as [n Hn]. destruct (linked_map _ _ _ _ (pp_linked _ _ _ _ R) Hm) as (x & Km & _).
  pose proof (pr_bound _ _ _ _ Km) as B. rewrite length_map in B. pose proof (lookup_lt_Some _ _ _ Hi) as Li.
  assert (Hr : r ∈ ranges_of maps) by (apply list_elem_of_In, in_concat; exists (m_ranges m); split; [apply in_map|]; apply list_elem_of_In; [done|by eapply list_elem_of_lookup_2]).
  assert (Hb : r_block r ∈ blocks_of maps) by (apply elem_of_app; right; by apply (list_elem_of_fmap_2 r_block)). destruct (pp_ids _ _ _ _ R _ Hb) as [Bb Mb].
  unfold get_neighbour. apply wp_mbind. unfold part_block. rewrite (pair_word_nat 3) by lia.
  assert (Hp : map range_pair (m_ranges m) !! i = Some (range_pair r)) by (change (range_pair <$> m_ranges m) with (map range_pair (m_ranges m)); change (map range_pair (m_ranges m)) with (range_pair <$> m_ranges m); by rewrite list_lookup_fmap, Hi).
  eapply wp_word_at; [exact I|by apply (hold_base _ _ _ _ Fr)|apply (pr_pairs _ _ _ _ Km _ _ Hp)|]. cbn [range_pair snd].
  apply wp_mbind. eapply wp_get_hold; [exact I|exact Fr|exact K|apply valid_block_intro; [lia|exact Mb]|by apply (pp_free _ _ _ _ R)|exact N|].
  intros p s' I' Fr' St. apply wp_mret. by apply HQ.
Qed.

Lemma wp_has_place s C Pc X o l (Q : option Z -> CamelBlockFile -> Prop) : BF s C Pc X -> (forall p y, o = Some (p, y) -> Pc !! p = Some (Held y 1 false) /\ pairs_rep 1 0 (C y) l) ->
  Q (match o with Some _ => if Z.of_nat (length l) <? N_KEYS then Some (Z.of_nat (length l)) else None | None => None end) s -> wp (has_place (fst <$> o)) Q s.
Proof.
  intros I H HQ. destruct o as [[p y]|]; [|by apply wp_mret]. destruct (H p y eq_refl) as [Hp K].
  apply wp_mbind. eapply wp_word_at; [exact I|exact Hp|apply (pr_count _ _ _ _ K)|]. by apply wp_mret.
Qed.

Lemma wp_choose s C Pc X po no lp ln index (Q : option (loc * Z) -> CamelBlockFile -> Prop) : BF s C Pc X ->
  (forall p y, po = Some (p, y) -> Pc !! p = Some (Held y 1 false) /\ pairs_rep 1 0 (C y) lp) ->
  (forall p y, no = Some (p, y) -> Pc !! p = Some (Held y 1 false) /\ pairs_rep 1 0 (C y) ln) ->
  Q None s -> (forall p y, po = Some (p, y) -> (length lp < 127)%nat -> Q (Some (p, index - 1)) s) ->
  (forall p y, no = Some (p, y) -> (length ln < 127)%nat -> Q (Some (p, index + 1)) s) -> wp (choose (fst <$> po) (fst <$> no) index) Q s.
Proof.
  intros I Hp Hn Q0 Qp Qn. apply wp_mbind. eapply wp_has_place; [exact I|exact Hp|]. apply wp_mbind. eapply wp_has_place; [exact I|exact Hn|]. apply wp_mret. unfold N_KEYS.
  destruct po as [[p y]|], no as [[q z]|]; cbn [fmap option_fmap option_map fst]; try done.
  - destruct (Z.ltb_spec (Z.of_nat (length lp)) 127), (Z.ltb_spec (Z.of_nat (length ln)) 127); [destruct (_ <? _)| | |]; first [exact Q0|apply (Qp p y); [done|lia]|apply (Qn q z); [done|lia]].
  - destruct (Z.ltb_spec (Z.of_nat (length lp)) 127); [apply (Qp p y); [done|lia]|exact Q0].
  - destruct (Z.ltb_spec (Z.of_nat (length ln)) 127); [apply (Qn q z); [done|lia]|exact Q0].
Qed.

(** ** A new range *)

Lemma pairs_rep_next base d l v : (1 < base)%nat -> pairs_rep base 1 d l -> pairs_rep base 1 (<[0%nat := v]> d) l.
Proof.
  intros H [L K B Pr]. constructor; [by rewrite length_insert|by rewrite list_lookup_insert_ne|done|]. intros i x Hi. unfold pair_at. rewrite !list_lookup_insert_ne by lia. by apply Pr.
Qed.

Lemma wp_new_range s C ts P X pt mm nm ps index h b (Q : option loc -> CamelBlockFile -> Prop) : BF s C (hold ts P) X -> fresh_ptrs ts P -> ok_io s -> alloc_ok C P ->
  (forall p i, (p, i) ∈ ts -> i < word C 0 ROOT_LAST) -> word C 0 ROOT_LAST + 1024 < 2 ^ 32 -> P !! pt = Some (Held mm nm true) -> mm <> 0 -> pairs_rep 2 1 (C mm) ps ->
  (length ps <= 126)%nat -> ps !! index = Some (h, b) ->
  (forall s' C' q, let y := word C 0 ROOT_LAST in BF s' C' (hold ((q, y) :: ts) P) (X ∪ {[pt; q]}) -> fresh_ptrs ((q, y) :: ts) P -> steady s s' ->
    pairs_rep 2 1 (C' mm) (take (S index) ps ++ (h, y) :: drop (S index) ps) -> word C' mm PM_NEXT = word C mm PM_NEXT -> pairs_rep 1 0 (C' y) [] ->
    (forall x, x <> 0 -> x <> mm -> x <> y -> C' x = C x) -> alloc_ok C' P -> word C' 0 ROOT_LAST = y + 1024 -> Q (Some q) s') ->
  wp (new_range pt (Z.of_nat index)) Q s.
Proof.
  intros I Fr K A Bt Rm Hm M0 Km Lp Hi HQ. cbn zeta in HQ. set (y := word C 0 ROOT_LAST) in *. pose proof (al_held _ _ A _ _ Hm) as Bm. cbn in Bm. fold y in Bm. destruct (al_last _ _ A) as [By _]. fold y in By.
  pose proof (lookup_lt_Some _ _ _ Hi) as Li. unfold new_range. apply wp_mbind. eapply wp_new_hold; [exact I|exact Fr|exact K|exact A|exact Bt|exact Rm|]. fold y. intros q s1 C1 I1 Fr1 G St1.
  set (P1 := hold ((q, y) :: ts) P) in *. assert (Hm1 : P1 !! pt = Some (Held mm nm true)) by by apply hold_base.
  assert (Hq1 : P1 !! q = Some (Held y 1 false)) by apply lookup_insert_eq. assert (Em : C1 mm = C mm) by (apply (gr_other _ _ G); [done|fold y; lia]). set (d := C mm) in *.
  pose proof (pr_length _ _ _ _ Km) as Ld. apply wp_mbind. eapply wp_word_at; [exact I1|exact Hm1|rewrite Em; apply (pr_count _ _ _ _ Km)|].
  apply wp_mbind. replace (Z.of_nat (length ps) - 1) with (Z.of_nat (index + (length ps - 1 - index))) by lia.
  eapply (wp_open_gap C1 P1 pt mm nm true Hm1 ps index (length ps - 1 - index) SEARCH_FUEL s1 X d); [|unfold SEARCH_FUEL; lia|lia|lia|exact Ld|apply (pr_pairs _ _ _ _ Km)|].
  { rewrite drop_ge by lia. cbn [put_pairs]. by apply BF_put. }
  intros s2 I2 St2. apply wp_mbind. eapply wp_set_at; [exact I2|exact Hm1|unfold PM_USED, WORDS; lia|]. intros s3 I3 St3. unfold PM_USED in I3. rewrite put_pairs_before in I3 by lia.
  set (d1 := put_pairs 2 (<[1%nat := Z.of_nat (length ps) + 1]> d) (S (S index)) (drop (S index) ps)) in *.
  assert (Ey : put C1 mm d1 y = zero_block) by (rewrite put_ne by lia; apply G).
  apply wp_mbind. eapply wp_set_at; [apply (BF_put _ _ _ _ _ _ I3 Ey)|exact Hq1|unfold PK_USED, WORDS; lia|]. intros s4 I4 St4. unfold PK_USED in I4.
  set (dy := <[0%nat := 0]> zero_block) in *. assert (Em4 : put (put C1 mm d1) y dy mm = d1) by (rewrite put_ne, put_eq by lia; done).
  assert (E1 : d1 !! (2 + 2 * index)%nat = Some h) by (unfold d1; rewrite put_pairs_other, list_lookup_insert_ne by lia; apply (pr_pairs _ _ _ _ Km _ _ Hi)).
  apply wp_mbind. eapply (wp_get_pair _ P1 pt mm nm true Hm1 s4 _ d1 2 index); [apply (BF_put _ _ _ _ _ _ I4 Em4)|lia|exact E1|].
  apply wp_mbind. replace (Z.of_nat index + 1) with (Z.of_nat (S index)) by lia.
  eapply (wp_set_pair _ P1 pt mm nm true Hm1 s4 _ d1 2 (S index)); [apply (BF_put _ _ _ _ _ _ I4 Em4)|lia|unfold WORDS; lia|]. intros s5 I5 St5.
  destruct (bf_held I5 q _ Hq1) as (bq & Hbq & Eb & _). injection Eb as Eb _ _. apply wp_mbind. eapply wp_deref; [exact Hbq|]. rewrite <- Eb.
  apply wp_mbind. eapply (wp_set_pair _ P1 pt mm nm true Hm1 s5 _ _ 3 (S index)); [exact I5|lia|unfold WORDS; lia|]. intros s6 I6 St6. apply wp_mret.
  change (3 + 2 * S index)%nat with (2 + 1 + 2 * S index)%nat in I6. unfold d1 at 2 in I6. rewrite put_pairs_cons in I6.
  pose proof (pairs_rep_put 2 1 d ps ((h, y) :: drop (S index) ps) (S index) Km) as Kn. cbn [length] in Kn. rewrite length_drop in Kn.
  specialize (Kn ltac:(lia) ltac:(lia) ltac:(lia) ltac:(lia)). rewrite put_pairs_before in Kn by lia. replace (Z.of_nat (S index + S (length ps - S index))) with (Z.of_nat (length ps) + 1) in Kn by lia.
  set (dm := put_pairs 2 (<[1%nat := Z.of_nat (length ps) + 1]> d) (S index) ((h, y) :: drop (S index) ps)) in *. set (C6 := put (put (put C1 mm d1) y dy) mm dm) in *.
  assert (F0 : C6 0 = C1 0) by (unfold C6; rewrite !put_ne by lia; done).
  apply (HQ s6 C6 q); [|exact Fr1|steady_t|..].
  - eapply BF_X2; [exact Hm1|exact Hq1|exact I6|clear; set_solver|]. intros x Hx. apply (bq_touch _ _ _ _ _ I6). clear -Hx. set_solver.
  - unfold C6. rewrite put_eq. exact Kn.
  - unfold word, C6. rewrite put_eq. unfold dm. rewrite put_pairs_other by (unfold PM_NEXT; lia). by rewrite list_lookup_insert_ne.
  - unfold C6. rewrite put_ne, put_eq by lia. unfold dy. rewrite list_insert_id by done. by apply pairs_rep_zero; lia.
  - intros x Nx0 Nxm Nxy. unfold C6. rewrite !put_ne by done. by apply (gr_other _ _ G).
  - apply (alloc_same C1); [exact F0|]. by eapply grown_alloc_ok.
  - unfold word. rewrite F0. apply G.
Qed.

(** ** A full block of the map is split *)

(** ** The table with the block split *)

Section SplitRep.
Context (C : Z -> list Z) (P : gmap loc held) (cpi : CamelPartitionTable) (m1 : list mapb) (m : mapb) (m2 : list mapb) (R : part_rep C P cpi (m1 ++ m :: m2)) (len : nat)
  (q : loc) (y : Z).
Let ma := MapB (m_ptr m) (m_id m) (take len (m_ranges m)).
Let mb := MapB q y (drop len (m_ranges m)).

Definition split_maps : list mapb := m1 ++ ma :: mb :: m2.

Lemma split_maps_flat : ranges_of split_maps = ranges_of (m1 ++ m :: m2).
Proof. unfold split_maps. rewrite !ranges_of_app, !ranges_of_cons. cbn [ma mb m_ranges]. by rewrite (app_assoc (take _ _)), take_drop. Qed.

Lemma split_maps_blocks : blocks_of split_maps ≡ₚ y :: blocks_of (m1 ++ m :: m2).
Proof. unfold blocks_of. rewrite split_maps_flat. unfold split_maps. rewrite !map_app. cbn [map ma mb m_id]. rewrite <- !app_assoc. cbn [app]. symmetry. rewrite (Permutation_middle (map m_id m1)). apply Permutation_app_head. apply perm_swap. Qed.

Lemma part_rep_split_map C' : (0 < len < length (m_ranges m))%nat -> P !! q = None -> y = word C 0 ROOT_LAST -> word C 0 ROOT_LAST < word C' 0 ROOT_LAST ->
  pairs_rep 2 1 (C' (m_id m)) (map range_pair (take len (m_ranges m))) -> word C' (m_id m) PM_NEXT = y ->
  pairs_rep 2 1 (C' y) (map range_pair (drop len (m_ranges m))) -> word C' y PM_NEXT = word C (m_id m) PM_NEXT ->
  (forall x, x <> 0 -> x <> m_id m -> x <> y -> C' x = C x) -> alloc_ok C' P ->
  part_rep C' (<[q := Held y 1 true]> P) (mkPartitionTable (pt_key_table cpi) (map m_ptr split_maps)) split_maps.
Proof.
  intros Ln Hq Ey Lb Pa Na Pb Nb F Al. destruct R as [Q1 Q2 Q3 Q4 Q5 Q6 Q7 Q8 Q9]. destruct (al_last _ _ Q9) as [BL ML].
  assert (Hb : forall x, x ∈ blocks_of (m1 ++ m :: m2) -> x <> 0 /\ x < y /\ x <> y) by (intros x Hx; destruct (Q6 x Hx); lia).
  assert (Nm : forall x, x ∈ m1 ++ m2 -> m_id x <> m_id m).
  { intros x Hx Ei. apply list.NoDup_app in Q7 as (N & _ & _). rewrite map_app in N. cbn [map] in N. apply (NoDup_remove_2 (map m_id m1) (map m_id m2) (m_id m)); [by apply NoDup_ListNoDup|].
    rewrite <- map_app, <- Ei. apply list_elem_of_In. by apply (list_elem_of_fmap_2 m_id). }
  assert (Fm : forall x, x ∈ m1 ++ m2 -> C' (m_id x) = C (m_id x)).
  { intros x Hx. assert (Hx' : m_id x ∈ blocks_of (m1 ++ m :: m2)).
    { apply elem_of_app. left. apply (list_elem_of_fmap_2 m_id). apply elem_of_app in Hx as [Hx|Hx]; apply elem_of_app; [by left|right; by right]. }
    destruct (Hb _ Hx') as (N0 & _ & Ny). apply F; [done|by apply Nm|done]. }
  assert (Fr : forall r, r ∈ ranges_of (m1 ++ m :: m2) -> C' (r_block r) = C (r_block r)).
  { intros r Hr. destruct (Hb (r_block r)) as (N0 & _ & Ny); [apply elem_of_app; right; by apply (list_elem_of_fmap_2 r_block)|]. apply F; [done| |done].
    intros Ei. apply list.NoDup_app in Q7 as (_ & N & _). apply (N (m_id m)); [apply (list_elem_of_fmap_2 m_id), elem_of_app; right; apply list_elem_of_here|]. rewrite <- Ei. by apply (list_elem_of_fmap_2 r_block). }
  constructor.
  - done.
  - intros x Hx. assert (Cs : x = mb \/ exists z, z ∈ m1 ++ m :: m2 /\ m_ptr x = m_ptr z /\ m_id x = m_id z).
    { unfold split_maps in Hx. rewrite elem_of_app, !elem_of_cons in Hx. destruct Hx as [Hx|[Ex|[Ex|Hx]]].
      - right. exists x. split_and!; [apply elem_of_app; by left|done..].
      - right. exists m. rewrite Ex. split_and!; [apply elem_of_app; right; apply list_elem_of_here|done..].
      - by left.
      - right. exists x. split_and!; [apply elem_of_app; right; by right|done..]. }
    destruct Cs as [Ex|(z & Hz & -> & ->)]; [exists 1; rewrite Ex; apply lookup_insert_eq|]. destruct (Q2 z Hz) as [n Hn]. exists n. rewrite lookup_insert_ne; [done|]. intros Eq. congruence.
  - apply linked_app in Q3 as [L1 [(_ & _ & L2) L3]]. unfold split_maps. apply linked_app. split; [eapply linked_maps_frame; [|exact L1]; intros x Hx; apply Fm, elem_of_app; by left|].
    assert (Ta : take len (m_ranges m) <> []) by (intros E; apply (f_equal length) in E; rewrite length_take in E; cbn in E; lia).
    assert (Tb : drop len (m_ranges m) <> []) by (intros E; apply (f_equal length) in E; rewrite length_drop in E; cbn in E; lia).
    split; [by split_and!|]. split; [split_and!; [exact Pb|exact Tb|exact (eq_trans Nb L2)]|]. eapply linked_maps_frame; [|exact L3]. intros x Hx. apply Fm, elem_of_app. by right.
  - intros r Hr. rewrite split_maps_flat in Hr. unfold keys_ok. rewrite Fr by done. by apply Q4.
  - by rewrite split_maps_flat.
  - intros x Hx. rewrite split_maps_blocks in Hx. apply elem_of_cons in Hx as [->|Hx]; [split; [lia|by rewrite Ey]|]. destruct (Q6 x Hx). split; [lia|done].
  - rewrite split_maps_blocks. apply list.NoDup_cons. split; [|done]. intros Hy. by destruct (Hb y Hy) as (_ & _ & ?).
  - intros r Hr p h [[_ <-]|[_ Hp]]%lookup_insert_Some; rewrite split_maps_flat in Hr; [|by apply (Q8 r Hr p h)]. cbn. intros E.
    destruct (Hb (r_block r)) as (_ & _ & Ny); [apply elem_of_app; right; by apply (list_elem_of_fmap_2 r_block)|]. congruence.
  - apply alloc_insert; [exact Al|cbn; lia].
Qed.

(** Where the range is now. *)
Lemma at_range_split hash rs1 r rs2 : at_range (m1 ++ m :: m2) hash m1 m m2 rs1 r rs2 -> length rs1 <> len -> (len < length (m_ranges m))%nat ->
  if (len <? length rs1)%nat then exists a, length a = (length rs1 - len)%nat /\ at_range split_maps hash (m1 ++ [ma]) mb m2 a r rs2
  else exists b, at_range split_maps hash m1 ma (mb :: m2) rs1 r b.
Proof.
  intros [_ A2 A3 A4] N L. destruct (Nat.ltb_spec len (length rs1)) as [Lt|Ge].
  - exists (drop len rs1). split; [apply length_drop|]. constructor; [unfold split_maps; by rewrite <- app_assoc|cbn [mb m_ranges]; rewrite A2, drop_app_le by lia; done| |exact A4].
    intros x Hx. apply A3. rewrite ranges_of_app, ranges_of_cons in Hx. cbn [ma m_ranges ranges_of map concat] in Hx. rewrite A2, take_app_le, app_nil_r in Hx by lia.
    rewrite <- app_assoc, take_drop in Hx. exact Hx.
  - exists (take (len - S (length rs1)) rs2). constructor; [done| |exact A3|exact A4]. cbn [ma m_ranges]. rewrite A2, take_app_ge by lia.
    replace (len - length rs1)%nat with (S (len - S (length rs1))) by lia. done.
Qed.
End SplitRep.

(** ** The program *)

Lemma pairs_rep_take base cnt d l n v : pairs_rep base cnt d l -> (cnt < base)%nat -> (base <= 2)%nat -> (n <= length l)%nat -> v = Z.of_nat n -> pairs_rep base cnt (<[cnt := v]> d) (take n l).
Proof.
  intros K Hc Hb Hn ->. pose proof (pairs_rep_put base cnt d l [] n K Hb Hc Hn) as R. pose proof (pr_bound _ _ _ _ K). rewrite Nat.add_0_r, app_nil_r in R. cbn [put_pairs] in R. apply R. cbn. lia.
Qed.

(** What the rest of the addition relies on. *)
Record map_ready (C : Z -> list Z) (P : gmap loc held) (cpi : CamelPartitionTable) (maps : list mapb) (C' : Z -> list Z) (P' : gmap loc held) (cpi' : CamelPartitionTable) (maps' : list mapb) : Prop := {
  mr_rep : part_rep C' P' cpi' maps';
  mr_keys : pt_key_table cpi' = pt_key_table cpi;
  mr_flat : ranges_of maps' = ranges_of maps;
  mr_blocks : forall x, x ∈ blocks_of maps' -> x ∈ blocks_of maps \/ word C 0 ROOT_LAST <= x;
  mr_last : word C 0 ROOT_LAST <= word C' 0 ROOT_LAST <= word C 0 ROOT_LAST + 1024;
  mr_frame : forall x, x <> 0 -> x ∉ blocks_of maps -> x < word C 0 ROOT_LAST -> C' x = C x;
  mr_held : forall p h, P !! p = Some h -> P' !! p = Some h;
  mr_new : forall p h, P' !! p = Some h -> P !! p = Some h \/ word C 0 ROOT_LAST <= h_id h /\ p ∈ map m_ptr maps' /\ P !! p = None }.

Lemma map_ready_refl C P cpi maps : part_rep C P cpi maps -> map_ready C P cpi maps C P cpi maps.
Proof. intros R. constructor; try done; try lia; by left. Qed.

(** The block of the map is written in two. *)
Lemma wp_split_blocks {A} s C P p q mm nm y ps (k : M A) (Q : A -> CamelBlockFile -> Prop) : BF s C P ∅ -> P !! p = Some (Held mm nm true) -> P !! q = Some (Held y 1 true) -> mm <> y ->
  pairs_rep 2 1 (C mm) ps -> length ps = 127%nat -> C y = zero_block ->
  (forall s' dm dy, BF s' (put (put C mm dm) y dy) P {[p; q]} -> steady s s' -> pairs_rep 2 1 dm (take 63 ps) -> default 0 (dm !! PM_NEXT) = y ->
    pairs_rep 2 1 dy (drop 63 ps) -> default 0 (dy !! PM_NEXT) = word C mm PM_NEXT -> wp k Q s') ->
  wp (next ← get_word p PM_NEXT; set_word q PM_NEXT next;; b ← deref q; set_word p PM_NEXT (bl_id b);; set_word q PM_USED 64;; set_word p PM_USED 63;; copy_parts p q 63 0 64;; k) Q s.
Proof.
  intros I Hp Hq N Km Lp Zy HQ. set (d := C mm) in *. pose proof (pr_length _ _ _ _ Km) as Ld.
  apply wp_mbind. eapply wp_word; [exact I|exact Hp|unfold PM_NEXT, WORDS; lia|]. set (nxt := word C mm PM_NEXT) in *.
  apply wp_mbind. eapply wp_set_at; [apply (BF_put _ _ _ _ _ _ I Zy)|exact Hq|unfold PM_NEXT, WORDS; lia|]. intros s1 I1 St1. unfold PM_NEXT in I1.
  destruct (bf_held I1 q _ Hq) as (bq & Hbq & Eb & _). injection Eb as Eb _ _. apply wp_mbind. eapply wp_deref; [exact Hbq|]. rewrite <- Eb.
  assert (E1 : put C y (<[0%nat := nxt]> zero_block) mm = d) by by apply put_ne.
  apply wp_mbind. eapply wp_set_at; [apply (BF_put _ _ _ _ _ _ I1 E1)|exact Hp|unfold PM_NEXT, WORDS; lia|]. intros s2 I2 St2. unfold PM_NEXT in I2.
  assert (E2 : put (put C y (<[0%nat := nxt]> zero_block)) mm (<[0%nat := y]> d) y = <[0%nat := nxt]> zero_block) by (rewrite put_ne by congruence; apply put_eq).
  apply wp_mbind. eapply wp_set_at; [apply (BF_put _ _ _ _ _ _ I2 E2)|exact Hq|unfold PM_USED, WORDS; lia|]. intros s3 I3 St3. unfold PM_USED in I3.
  apply wp_mbind. eapply (wp_set_at _ (put (put C y (<[0%nat := nxt]> zero_block)) y (<[1%nat := 64]> (<[0%nat := nxt]> zero_block))) mm (<[0%nat := y]> d)); [|exact Hp|unfold PM_USED, WORDS; lia|].
  { eapply BFq_ext; [|exact I3]. intros x. unfold put. destruct (decide (x = mm)), (decide (x = y)); congruence. }
  intros s4 I4 St4. unfold PM_USED in I4. set (dy0 := <[1%nat := 64]> (<[0%nat := nxt]> zero_block)) in *. set (dm := <[1%nat := 63]> (<[0%nat := y]> d)) in *.
  assert (Pm : pairs_rep 2 1 dm (take 63 ps)) by (unfold dm; apply pairs_rep_take; [by apply pairs_rep_next; [lia|]|lia..]).
  apply wp_mbind. change 63 with (Z.of_nat 63) at 1. change 0 with (Z.of_nat 0) at 1. replace 64%nat with (length (drop 63 ps)) by (rewrite length_drop; lia).
  eapply (wp_copy_parts (put C mm dm) P p q mm y nm 1 true true (drop 63 ps) Hp Hq N s4 _ dy0 63 0); [|rewrite length_drop; lia|rewrite length_drop; lia| |].
  { eapply BFq_ext; [|exact I4]. intros x. unfold put. destruct (decide (x = mm)), (decide (x = y)); congruence. }
  { intros k0 x Hk. rewrite lookup_drop in Hk. rewrite put_eq. unfold pair_at, dm. rewrite !list_lookup_insert_ne by lia. by apply (pr_pairs _ _ _ _ Km). }
  intros s5 I5 St5. eapply (HQ s5 dm (put_pairs 2 dy0 0 (drop 63 ps))); [|steady_t|exact Pm| | |].
  - assert (EX : forall Y : gset loc, Y = ∅ ∪ {[q]} ∪ {[p]} ∪ {[q]} ∪ {[p]} ∪ {[q]} -> Y = {[p; q]}) by (clear; intros Y ->; set_solver). erewrite <- (EX _ eq_refl). exact I5.
  - unfold dm, PM_NEXT. rewrite list_lookup_insert_ne, list_lookup_insert_eq by (rewrite ?Ld; unfold WORDS; lia). done.
  - pose proof (pairs_rep_put 2 1 _ [] (drop 63 ps) 0 (pairs_rep_next 2 _ _ nxt ltac:(lia) (pairs_rep_zero 2 1 ltac:(lia)))) as Rp. cbn [take app Nat.add length] in Rp. rewrite length_drop, Lp in Rp.
    rewrite put_pairs_before in Rp by lia. unfold dy0. apply Rp; lia.
  - unfold dy0, PM_NEXT. rewrite put_pairs_other, list_lookup_insert_ne by lia. done.
Qed.

(** The table after the block was split. *)
Lemma split_ready C P cpi m1 m m2 C1 C' q dm dy : let y := word C 0 ROOT_LAST in part_rep C P cpi (m1 ++ m :: m2) -> length (m_ranges m) = 127%nat -> P !! q = None ->
  word C 0 ROOT_LAST + 1024 < 2 ^ 32 -> grown C C1 -> but_flags (put (put C1 (m_id m) dm) y dy) C' -> pairs_rep 2 1 dm (take 63 (map range_pair (m_ranges m))) -> default 0 (dm !! PM_NEXT) = y ->
  pairs_rep 2 1 dy (drop 63 (map range_pair (m_ranges m))) -> default 0 (dy !! PM_NEXT) = word C (m_id m) PM_NEXT ->
  map_ready C P cpi (m1 ++ m :: m2) C' (<[q := Held y 1 true]> P) (mkPartitionTable (pt_key_table cpi) (map m_ptr (split_maps m1 m m2 63 q y))) (split_maps m1 m m2 63 q y).
Proof.
  intros y R L Hq Rm G [B B'] Pm Wm Py Wy. assert (Hm : m_id m ∈ blocks_of (m1 ++ m :: m2)) by (apply elem_of_app; left; apply (list_elem_of_fmap_2 m_id), elem_of_app; right; apply list_elem_of_here).
  destruct (pp_ids _ _ _ _ R _ Hm) as [Bm _]. fold y in Bm. assert (Em : C' (m_id m) = dm) by (rewrite B by lia; rewrite put_ne, put_eq by lia; done).
  assert (Ey : C' y = dy) by (rewrite B by lia; apply put_eq).
  assert (W : forall w, w <> ROOT_FLAGS -> word C' 0 w = word C1 0 w) by (intros w N; unfold word; rewrite B' by done; by rewrite !put_ne by lia).
  assert (F : forall x, x <> 0 -> x <> m_id m -> x <> y -> C' x = C x) by (intros x N0 Nm Ny; rewrite B by done; rewrite !put_ne by done; by apply (gr_other _ _ G)).
  assert (A1 : alloc_ok C1 P) by (eapply grown_alloc_ok; [exact G|apply R|exact Rm]).
  assert (A' : alloc_ok C' P) by (destruct A1 as [U1 U2 U3]; constructor; rewrite ?W by done; done).
  assert (WL : word C' 0 ROOT_LAST = y + 1024) by (rewrite W by done; apply G).
  rewrite firstn_map in Pm. rewrite skipn_map in Py. constructor.
  - eapply (part_rep_split_map C P cpi m1 m m2 R 63 q y C'); [lia|exact Hq|done|fold y; lia|by rewrite Em|unfold word; by rewrite Em|by rewrite Ey|unfold word; by rewrite Ey|exact F|exact A'].
  - done.
  - apply split_maps_flat.
  - intros x Hx. rewrite split_maps_blocks in Hx. apply elem_of_cons in Hx as [->|Hx]; [right; fold y; lia|by left].
  - fold y. lia.
  - intros x N0 Nx Lx. apply F; [done|intros ->; done|fold y in Lx; lia].
  - intros p h Hp. rewrite lookup_insert_ne; [done|]. intros ->. congruence.
  - intros p h [[<- <-]|[_ Hp]]%lookup_insert_Some; [right|by left]. cbn. split_and!; [fold y; lia| |done]. unfold split_maps. rewrite map_app. apply elem_of_app. right. right. apply list_elem_of_here.
Qed.

Lemma split_queue m1 m m2 q y : take (S (length m1)) (map m_ptr (m1 ++ m :: m2)) ++ [q] ++ drop (S (length m1)) (map m_ptr (m1 ++ m :: m2)) = map m_ptr (split_maps m1 m m2 63 q y).
Proof.
  unfold split_maps. rewrite !map_app. cbn [map m_ptr]. rewrite take_app_ge, drop_app_ge by (rewrite length_map; lia). rewrite length_map. replace (S (length m1) - length m1)%nat with 1%nat by lia.
  rewrite <- app_assoc. done.
Qed.

Lemma wp_split_map s C ts P cpi maps hash m1 m m2 rs1 r rs2 (Q : option (CamelPartitionTable * loc * Z) -> CamelBlockFile -> Prop) : BF s C (hold ts P) ∅ -> fresh_ptrs ts P -> ok_io s ->
  part_rep C P cpi maps -> at_range maps hash m1 m m2 rs1 r rs2 -> (forall p i, (p, i) ∈ ts -> i < word C 0 ROOT_LAST) -> word C 0 ROOT_LAST + 1024 < 2 ^ 32 ->
  (length (m_ranges m) = 127%nat -> length rs1 <> 63%nat) ->
  (forall s' C' P' cpi' maps' m1' m' m2' rs1' rs2' X, BF s' C' (hold ts P') X -> fresh_ptrs ts P' -> steady s s' -> at_range maps' hash m1' m' m2' rs1' r rs2' ->
    (length (m_ranges m') <= 126)%nat -> X ⊆ {[m_ptr m']} -> map_ready C P cpi maps C' P' cpi' maps' -> Q (Some (cpi', m_ptr m', Z.of_nat (length rs1'))) s') ->
  wp (split_map cpi (length m1) (m_ptr m) (Z.of_nat (length rs1))) Q s.
Proof.
  intros I Fr K R A Bt Rm Sf HQ. destruct (at_range_map C P cpi maps R hash m1 m m2 rs1 r rs2 A) as (n & nxt & Hn & (Km & Nm & Wm)). set (ps := map range_pair (m_ranges m)) in *.
  assert (Lp : length ps = length (m_ranges m)) by apply length_map. pose proof (pr_bound _ _ _ _ Km) as Bd. assert (Hn1 : hold ts P !! m_ptr m = Some (Held (m_id m) n true)) by by apply hold_base.
  unfold split_map. apply wp_mbind. eapply wp_word_at; [exact I|exact Hn1|apply (pr_count _ _ _ _ Km)|]. unfold N_PARTITION. rewrite Z.geb_leb.
  destruct (Z.leb_spec 127 (Z.of_nat (length ps))) as [Le|Gt].
  2: { apply wp_mret. eapply (HQ s C P cpi maps m1 m m2 rs1 rs2 ∅); [exact I|exact Fr|reflexivity|exact A|lia|set_solver|by apply map_ready_refl]. }
  assert (Lp7 : length ps = 127%nat) by lia. rewrite Lp7. set (y := word C 0 ROOT_LAST) in *. pose proof (ar_maps _ _ _ _ _ _ _ _ A) as ->.
  assert (Hm : m_id m ∈ blocks_of (m1 ++ m :: m2)) by (apply elem_of_app; left; apply (list_elem_of_fmap_2 m_id), elem_of_app; right; apply list_elem_of_here). destruct (pp_ids _ _ _ _ R _ Hm) as [Bm _]. fold y in Bm.
  apply wp_mbind. eapply wp_new_hold; [exact I|exact Fr|exact K|apply R|exact Bt|exact Rm|]. fold y. intros q s1 C1 I1 Fr1 G St1.
  assert (Hq : P !! q = None) by (apply (fp_new _ _ Fr1 q y), list_elem_of_here). assert (Nq : q ∉ map fst ts) by (by apply (fp_nodup _ _), list.NoDup_cons in Fr1 as [? _]).
  apply wp_mbind. eapply wp_detach; [exact I1|apply lookup_insert_eq|]. intros s2 I2 [St2 _]. cbn [hold] in I2. rewrite insert_insert_eq, hold_insert in I2 by done. set (P' := <[q := Held y 1 true]> P) in *.
  assert (Hq2 : hold ts P' !! q = Some (Held y 1 true)) by (rewrite hold_other by done; apply lookup_insert_eq). assert (Nqm : m_ptr m <> q) by (intros E; rewrite <- E in Hq; congruence).
  assert (Fr2 : fresh_ptrs ts P') by (apply (fresh_base ts P q); [by apply (fresh_drop [] (q, y) ts)|done]).
  assert (Hn2 : hold ts P' !! m_ptr m = Some (Held (m_id m) n true)) by (apply hold_base; [done|]; unfold P'; by rewrite lookup_insert_ne).
  assert (Em : C1 (m_id m) = C (m_id m)) by (apply (gr_other _ _ G); fold y; lia).
  change (Z.of_nat 127 / 2) with 63. change (Z.of_nat 127 - 63) with 64. change (Z.to_nat 64) with 64%nat. cbn zeta.
  eapply (wp_split_blocks s2 C1 (hold ts P') (m_ptr m) q (m_id m) n y ps); [exact I2|exact Hn2|exact Hq2|lia|by rewrite Em|exact Lp7|apply G|].
  intros s3 dm dy I3 St3 Pm Wnm Py Wny. set (C3 := put (put C1 (m_id m) dm) y dy) in *. apply wp_mbind. eapply wp_touch; [exact I3|exact Hq2|]. intros s4 C4 I4 [B4 B4'] St4 _. cbn [h_id] in *.
  rewrite (pp_queue _ _ _ _ R), (split_queue m1 m m2 q y). assert (Lr : length (m_ranges m) = 127%nat) by lia. specialize (Sf Lr).
  assert (Fin : forall s' C' X, BF s' C' (hold ts P') X -> but_flags C3 C' -> steady s s' -> X ⊆ {[m_ptr m]} -> ((63 < length rs1)%nat -> X = ∅) ->
     Q (Some (mkPartitionTable (pt_key_table cpi) (map m_ptr (split_maps m1 m m2 63 q y)), (if (63 <? length rs1)%nat then q else m_ptr m), Z.of_nat (if (63 <? length rs1)%nat then length rs1 - 63 else length rs1))) s').
  { intros s' C' X I' B' St' SX EX. assert (Rd := split_ready C P cpi m1 m m2 C1 C' q dm dy R Lr Hq Rm G B' Pm Wnm Py ltac:(rewrite Wny; unfold word; by rewrite Em)).
    pose proof (at_range_split m1 m m2 63 q y hash rs1 r rs2 A Sf ltac:(lia)) as As. destruct (Nat.ltb_spec 63 (length rs1)) as [Lt|Ge].
    - destruct As as (a & <- & As). replace (Z.of_nat (length a)) with (Z.of_nat (length a)) by done.
      eapply (HQ s' C' P' _ _ _ (MapB q y (drop 63 (m_ranges m))) m2 a rs2 X); [exact I'|exact Fr2|exact St'|exact As|cbn [m_ranges]; rewrite length_drop; lia|rewrite EX by lia; set_solver|exact Rd].
    - destruct As as (b & As). eapply (HQ s' C' P' _ _ _ (MapB (m_ptr m) (m_id m) (take 63 (m_ranges m))) _ rs1 b X); [exact I'|exact Fr2|exact St'|exact As|cbn [m_ranges]; rewrite length_take; lia|exact SX|exact Rd]. }
  rewrite Z.gtb_ltb. destruct (Z.ltb_spec 63 (Z.of_nat (length rs1))) as [Lt|Ge].
  - apply wp_mbind. eapply wp_touch; [exact I4|exact Hn2|]. intros s5 C5 I5 B5 St5 _. apply wp_mret. rewrite (proj2 (Nat.ltb_lt _ _)) in Fin by lia.
    replace (Z.of_nat (length rs1) - 63) with (Z.of_nat (length rs1 - 63)) by lia. eapply Fin; [exact I5|transitivity C4; [by split|exact B5]|steady_t|clear; set_solver|]. intros _. clear. set_solver.
  - apply wp_mret. rewrite (proj2 (Nat.ltb_ge _ _)) in Fin by lia. eapply Fin; [exact I4|by split|steady_t|clear; set_solver|lia].
Qed.
