(* ===== verification/PartitionAdd.v ===== *)
(** * PartitionAdd: adding a key to a partition table

    The keys of a full block are shared with a neighbour or with a new block;
    the ranges stay in order when the cut is between different hashes. *)

From stdpp Require Import base list numbers gmap functions sorting.
From Stdlib Require Import ZArith Lia.
From S2P Require Import Prelude BlockFile BlockFileInv BlockFileOps KeyTable KeyBlocks KeyTableInv KeyTableSpec KeyTableSafe PartitionTable PartitionInv PartitionSpec PartitionSplit PartitionGrow.

(** ** Sorted keys in two halves *)

Lemma sorted_nth (l : list Z) i j : StronglySorted Z.le l -> (i <= j < length l)%nat -> nth i l 0 <= nth j l 0.
Proof.
  intros S. revert i j. induction S as [|x l S IH F]; intros i j L; [cbn in L; lia|]. cbn [length] in L. destruct i as [|i], j as [|j]; cbn [nth]; try lia.
  - rewrite Forall_forall in F. apply F. apply list_elem_of_In, nth_In. lia.
  - apply IH. lia.
Qed.

Lemma lookup_map_nth {A} (f : A -> Z) l i x : l !! i = Some x -> f x = nth i (map f l) 0 /\ (i < length l)%nat.
Proof. revert i. induction l as [|y l IH]; intros [|i]; cbn [lookup list_lookup map nth length]; [done..|by intros [= ->]; split; [|lia]|]. intros H. destruct (IH i H). split; [done|lia]. Qed.

(** The flags of the root block do not matter. *)
Lemma part_rep_flags C P cpi maps C' : part_rep C P cpi maps -> (forall z, z <> 0 -> C' z = C z) -> (forall w, w <> ROOT_FLAGS -> C' 0 !! w = C 0 !! w) -> part_rep C' P cpi maps.
Proof.
  intros [Q1 Q2 Q3 Q4 Q5 Q6 Q7 Q8 [U1 U2 U3]] F F0. assert (W : forall w, w <> ROOT_FLAGS -> word C' 0 w = word C 0 w) by (intros w N; unfold word; by rewrite F0).
  assert (Nz : forall x, x ∈ blocks_of maps -> x <> 0) by (intros x Hx; destruct (Q6 x Hx); lia).
  constructor; try done.
  - eapply linked_maps_frame; [|exact Q3]. intros x Hx. apply F, Nz, elem_of_app. left. by apply (list_elem_of_fmap_2 m_id).
  - intros r Hr. unfold keys_ok. rewrite F; [by apply Q4|]. apply Nz, elem_of_app. right. by apply (list_elem_of_fmap_2 r_block).
  - intros x Hx. rewrite W by done. by apply Q6.
  - constructor; rewrite ?W by done; done.
Qed.

Section Done.
Context (qsort : list (Z * Z) -> list (Z * Z)) (Hqs : forall l, qsort l ≡ₚ l) (Hso : forall l, StronglySorted Z.le (map fst (qsort l)))
  (C : Z -> list Z) (P : gmap loc held) (cpi : CamelPartitionTable) (m1 : list mapb) (m : mapb) (m2 : list mapb) (ra old rb : list range)
  (R : part_rep C P cpi (m1 ++ m :: m2)) (E : m_ranges m = ra ++ old ++ rb)
  (x y : Z) (low : bool) (l1 l2 : list (Z * Z)) (hi : Z) (news : list Z) (hash keyid : Z).
Let ks := merged qsort l1 l2 hash keyid.
Let h := half_of ks.
Let nw := [Range (nth (h - 1) (map fst ks) 0) (if low then x else y) (take h ks); Range hi (if low then y else x) (drop h ks)].
Let maps' := m1 ++ MapB (m_ptr m) (m_id m) (ra ++ nw ++ rb) :: m2.
Context (Len : (128 <= length (l1 ++ l2 ++ [(hash, keyid)]) <= 254)%nat) (Cut : cut_at_change (map fst ks))
  (Kp : l1 ++ l2 ≡ₚ concat (map r_keys old)) (Hi : exists o ro, old = o ++ [ro] /\ r_hi ro = hi)
  (Lo : forall z, z ∈ ranges_of m1 ++ ra -> r_hi z < hash) (Hh : 0 <= hash <= hi)
  (Bl : [if low then x else y; if low then y else x] ≡ₚ news ++ map r_block old).

Lemma merged_perm : ks ≡ₚ (hash, keyid) :: concat (map r_keys old).
Proof. unfold ks, merged. rewrite Hqs, app_assoc, Kp. symmetry. apply Permutation_cons_append. Qed.

Lemma merged_length : length ks = length (l1 ++ l2 ++ [(hash, keyid)]).
Proof. unfold ks, merged. by rewrite Hqs. Qed.

Lemma new_keys : all_keys maps' ≡ₚ (hash, keyid) :: all_keys (m1 ++ m :: m2).
Proof.
  unfold all_keys, maps'. rewrite (replace_flat_new m1 m m2 ra rb nw), (replace_flat m1 m2 ra old rb m E). rewrite !map_app, !concat_app.
  assert (Ek : concat (map r_keys nw) = ks) by (unfold nw; cbn [map concat r_keys]; rewrite app_nil_r; apply take_drop). rewrite Ek, merged_perm. cbn [app].
  symmetry. apply Permutation_middle.
Qed.
Lemma merged_fits : (1 <= h <= 127 /\ 1 <= length ks - h <= 127)%nat.
Proof. unfold h, half_of. rewrite <- (length_map fst ks). apply split_point_fits. rewrite length_map, merged_length. lia. Qed.

Lemma low_bound lo : seg (-1) (ranges_of m1 ++ ra) lo -> lo < hash.
Proof.
  intros S. destruct (decide (ranges_of m1 ++ ra = [])) as [E'|N]; [rewrite E' in S; cbn in S; lia|].
  destruct (exists_last N) as (a & z & E'). rewrite E' in S. apply ranges_seg_app in S as (mid & _ & S). cbn in S. destruct S as (_ & _ & <-).
  apply Lo. rewrite E'. apply elem_of_app. right. by apply list_elem_of_singleton.
Qed.

Lemma halves_seg lo hi' : seg (-1) (ranges_of m1 ++ ra) lo -> seg lo old hi' -> seg lo nw hi'.
Proof.
  intros S1 S2. apply low_bound in S1. destruct Hi as (o & ro & Eo & Eh).
  assert (Ehi : hi' = hi) by (rewrite Eo in S2; apply ranges_seg_app in S2 as (mid & _ & S2); cbn in S2; lia). subst hi'.
  assert (B : forall e, e ∈ ks -> lo < fst e <= hi).
  { intros e He. rewrite merged_perm in He. apply elem_of_cons in He as [->|He]; [cbn; lia|]. apply list_elem_of_In, in_concat in He as (kl & H1 & H2).
    apply in_map_iff in H1 as (z & <- & Hz). destruct (seg_in _ _ _ z S2) as [B1 B2]; [by apply list_elem_of_In|]. specialize (B2 e). rewrite list_elem_of_In in B2. specialize (B2 H2). lia. }
  destruct merged_fits as [F1 F2]. set (hs := map fst ks) in *. assert (Lh : length hs = length ks) by apply length_map. assert (So : StronglySorted Z.le hs) by apply Hso.
  assert (Bn : forall i, (i < length ks)%nat -> lo < nth i hs 0 <= hi).
  { intros i Li. destruct (lookup_lt_is_Some_2 ks i Li) as [e He]. destruct (lookup_map_nth fst ks i e He) as [Ee _]. fold hs in Ee. rewrite <- Ee. apply B. by eapply list_elem_of_lookup_2. }
  assert (V : nth (h - 1) hs 0 < nth h hs 0) by (pose proof (sorted_nth hs (h - 1) h So ltac:(lia)); assert (N : nth h hs 0 <> nth (h - 1) hs 0) by exact Cut; lia).
  pose proof (Bn (h - 1)%nat ltac:(lia)). pose proof (Bn h ltac:(lia)). unfold nw. cbn [seg r_hi r_keys]. split_and!; [lia| |lia| |done].
  - intros e (i & He & Li)%elem_of_take. destruct (lookup_map_nth fst ks i e He) as [-> ?]. fold hs. pose proof (sorted_nth hs i (h - 1) So ltac:(lia)). pose proof (Bn i ltac:(lia)). lia.
  - intros e (i & He)%list_elem_of_lookup_1. rewrite lookup_drop in He. destruct (lookup_map_nth fst ks _ e He) as [-> ?]. fold hs. pose proof (sorted_nth hs h (h + i) So ltac:(lia)). pose proof (Bn (h + i)%nat ltac:(lia)). lia.
Qed.

Context (Nxy : x <> y) (Nm : m_id m <> x /\ m_id m <> y) (Nz : x <> 0 /\ y <> 0 /\ m_id m <> 0) (Dn : NoDup news).

Lemma done_rep C1 C2 h0 : (forall z, z <> 0 -> z <> m_id m -> z <> x -> z <> y -> C1 z = C z) -> word C1 (m_id m) PM_NEXT = word C (m_id m) PM_NEXT ->
  pairs_rep 2 1 (C1 (m_id m)) (map range_pair ra ++ (h0, if low then x else y) :: (hi, if low then y else x) :: map range_pair rb) ->
  (forall z, z ∈ news -> word C 0 ROOT_LAST <= z < word C1 0 ROOT_LAST /\ z mod 1024 = 0) -> word C 0 ROOT_LAST <= word C1 0 ROOT_LAST -> alloc_ok C1 P ->
  (forall z, z <> 0 -> z <> x -> z <> y -> z <> m_id m -> C2 z = C1 z) -> (forall w, w <> ROOT_FLAGS -> C2 0 !! w = C1 0 !! w) ->
  pairs_rep 1 0 (C2 (if low then x else y)) (take h ks) -> pairs_rep 1 0 (C2 (if low then y else x)) (drop h ks) ->
  C2 (m_id m) = <[(2 + 2 * length ra)%nat := nth (h - 1) (map fst ks) 0]> (C1 (m_id m)) -> part_rep C2 P cpi maps' /\ alloc_ok C2 P /\ word C2 0 ROOT_LAST = word C1 0 ROOT_LAST.
Proof.
  intros F1 Wn Pm Nw Lb A1 F2 F0 Kl Kh Em. assert (W : forall w, w <> ROOT_FLAGS -> word C2 0 w = word C1 0 w) by (intros w N; unfold word; by rewrite F0).
  assert (A2 : alloc_ok C2 P) by (destruct A1 as [U1 U2 U3]; constructor; rewrite ?W by done; done). split_and!; [|exact A2|by rewrite W].
  eapply (part_rep_replace C P cpi m1 m m2 ra old rb R E C2 nw news); [done| | | |exact halves_seg|exact Bl|exact Dn| | |by rewrite W|exact A2].
  - rewrite Em. eapply (pairs_rep_hash _ _ (length ra)) in Pm; [|rewrite lookup_app_r by (rewrite length_map; lia); rewrite length_map, Nat.sub_diag; reflexivity].
    rewrite insert_app_r_alt in Pm by (rewrite length_map; lia). rewrite length_map, Nat.sub_diag in Pm. rewrite !map_app. exact Pm.
  - unfold word in *. rewrite Em, list_lookup_insert_ne by (unfold PM_NEXT; lia). exact Wn.
  - intros r. unfold nw. rewrite !elem_of_cons. intros [->|[->|Hr%not_elem_of_nil]]; [exact Kl|exact Kh|done].
  - intros z Hz. rewrite W by done. by apply Nw.
  - intros z Z0 Zm Zn. unfold nw in Zn. cbn [map r_block] in Zn. apply not_elem_of_cons in Zn as [Z1 Zn]. apply not_elem_of_cons in Zn as [Z2 _].
    assert (Z3 : z <> x /\ z <> y) by (by destruct low). destruct Z3 as [Zx Zy]. rewrite F2 by done. by apply F1.
Qed.

Lemma wp_split_done s1 C1 block newblock X index newindex h0 (Q : bool * CamelPartitionTable -> CamelBlockFile -> Prop) :
  BF s1 C1 (<[newblock := Held y 1 false]> (<[block := Held x 1 false]> P)) X -> block <> newblock -> P !! block = None -> P !! newblock = None -> X ⊆ {[m_ptr m; newblock]} ->
  (index <? newindex) = low -> (if low then index else newindex) = Z.of_nat (length ra) ->
  (forall z, z <> 0 -> z <> m_id m -> z <> x -> z <> y -> C1 z = C z) -> word C1 (m_id m) PM_NEXT = word C (m_id m) PM_NEXT ->
  pairs_rep 2 1 (C1 (m_id m)) (map range_pair ra ++ (h0, if low then x else y) :: (hi, if low then y else x) :: map range_pair rb) ->
  (forall z, z ∈ news -> word C 0 ROOT_LAST <= z < word C1 0 ROOT_LAST /\ z mod 1024 = 0) -> word C 0 ROOT_LAST <= word C1 0 ROOT_LAST -> alloc_ok C1 P ->
  pairs_rep 1 0 (C1 x) l1 -> pairs_rep 1 0 (C1 y) l2 ->
  (forall s' C', BF s' C' P ∅ -> steady s1 s' -> part_rep C' P cpi maps' -> word C' 0 ROOT_LAST = word C1 0 ROOT_LAST ->
    (forall z, z <> 0 -> z <> m_id m -> z <> x -> z <> y -> C' z = C z) -> Q (true, cpi) s') ->
  wp (split_keys qsort (m_ptr m) block newblock index newindex hash keyid;; finish_add block cpi) Q s1.
Proof.
  intros I Nbn Hb Hn SX El Ei F1 Wn Pm Nw Lb A1 K1 K2 HQ. destruct Nm as [Nmx Nmy]. destruct Nz as (X0 & Y0 & M0).
  assert (Hm : m ∈ m1 ++ m :: m2) by (apply elem_of_app; right; apply list_elem_of_here). destruct (pp_held _ _ _ _ R m Hm) as [nm Hm'].
  assert (Npb : m_ptr m <> block) by congruence. apply wp_mbind.
  eapply (wp_split_keys qsort Hqs s1 C1 (<[block := Held x 1 false]> P) block x 1 newblock y (m_ptr m) (m_id m) nm X l1 l2 _ low (length ra) index newindex hash keyid);
    [exact I|by rewrite lookup_insert_ne|apply lookup_insert_eq|by rewrite lookup_insert_ne|exact Nxy|exact Nmx|exact Nmy|exact X0|exact Y0|exact M0|exact K1|exact K2|exact Pm| |exact Len|exact El|exact Ei|clear -SX; set_solver|].
  { rewrite length_app, length_map. cbn. lia. }
  cbn zeta. fold ks h. intros s2 C2 I2 St2 F2 F0 Kl Kh Em. assert (Hb2 : <[block := Held x 1 false]> P !! block = Some (Held x 1 false)) by apply lookup_insert_eq.
  destruct (done_rep C1 C2 h0) as (R2 & A2 & L2); [done..|].
  unfold finish_add. apply wp_mbind. eapply wp_touch; [exact I2|exact Hb2|]. intros s3 C3 I3 [B3 B3'] St3 _. cbn [h_id] in *.
  apply wp_mbind. eapply wp_drop; [exact I3|done|clear; set_solver|exact Hb|]. intros s4 I4 St4. apply wp_mret.
  assert (W : forall w, w <> ROOT_FLAGS -> C3 0 !! w = C2 0 !! w) by exact B3'.
  apply (HQ s4 C3); [exact I4|steady_t|by eapply part_rep_flags|unfold word; by rewrite W|]. intros z Z0 Zm Zx Zy. rewrite B3 by done. rewrite F2 by done. by apply F1.
Qed.
End Done.

(** ** Adding a key to a block that is full *)

(** What an addition makes of a table: one more key, and at most two more
    blocks, of which one may stay in memory. *)
Record pair_added (C : Z -> list Z) (P : gmap loc held) (cpi : CamelPartitionTable) (maps : list mapb) (hash keyid : Z)
    (C' : Z -> list Z) (P' : gmap loc held) (cpi' : CamelPartitionTable) (maps' : list mapb) : Prop := {
  ka_rep : part_rep C' P' cpi' maps';
  ka_table : pt_key_table cpi' = pt_key_table cpi;
  ka_keys : all_keys maps' ≡ₚ (hash, keyid) :: all_keys maps;
  ka_blocks : forall x, x ∈ blocks_of maps' -> x ∈ blocks_of maps \/ word C 0 ROOT_LAST <= x;
  ka_last : word C 0 ROOT_LAST <= word C' 0 ROOT_LAST <= word C 0 ROOT_LAST + 2048;
  ka_frame : forall x, x <> 0 -> x ∉ blocks_of maps -> x < word C 0 ROOT_LAST -> C' x = C x;
  ka_held : forall p h, P !! p = Some h -> P' !! p = Some h;
  ka_new : forall p h, P' !! p = Some h -> P !! p = Some h \/ word C 0 ROOT_LAST <= h_id h /\ p ∈ map m_ptr maps' /\ P !! p = None }.

(** The blocks of two places of the table are different. *)
Lemma range_in_map maps m i r : m ∈ maps -> m_ranges m !! i = Some r -> r ∈ ranges_of maps.
Proof. intros Hm Hi. apply list_elem_of_In, in_concat. exists (m_ranges m). split; [apply in_map|]; apply list_elem_of_In; [done|by eapply list_elem_of_lookup_2]. Qed.

Lemma range_block_in maps r : r ∈ ranges_of maps -> r_block r ∈ blocks_of maps.
Proof. intros H. apply elem_of_app. right. by apply (list_elem_of_fmap_2 r_block). Qed.

Lemma map_id_in maps m : m ∈ maps -> m_id m ∈ blocks_of maps.
Proof. intros H. apply elem_of_app. left. by apply (list_elem_of_fmap_2 m_id). Qed.

Lemma two_blocks C P cpi m1 m m2 a r b r' c : part_rep C P cpi (m1 ++ m :: m2) -> m_ranges m = a ++ r :: b ++ r' :: c -> r_block r <> r_block r'.
Proof.
  intros R E Eq. pose proof (pp_nodup _ _ _ _ R) as N. unfold blocks_of in N. apply list.NoDup_app in N as (_ & _ & N).
  rewrite ranges_of_app, ranges_of_cons, E, !map_app in N. cbn [map] in N. apply list.NoDup_app in N as (_ & _ & N). apply list.NoDup_app in N as (N & _ & _). apply list.NoDup_app in N as (_ & _ & N).
  rewrite map_app in N. cbn [map] in N. apply list.NoDup_cons in N as [N _]. apply N. rewrite Eq. apply elem_of_app. right. apply list_elem_of_here.
Qed.

Lemma map_not_range C P cpi maps m r : part_rep C P cpi maps -> m ∈ maps -> r ∈ ranges_of maps -> m_id m <> r_block r.
Proof.
  intros R Hm Hr Eq. pose proof (pp_nodup _ _ _ _ R) as N. apply list.NoDup_app in N as (_ & N & _). apply (N (m_id m)); [by apply (list_elem_of_fmap_2 m_id)|]. rewrite Eq. by apply (list_elem_of_fmap_2 r_block).
Qed.

(** Getting a neighbour that may not be there. *)
Lemma wp_opt_neighbour s C P X ts cpi maps m (there : bool) i idx (Q : option (option loc) -> CamelBlockFile -> Prop) : BF s C (hold ts P) X -> fresh_ptrs ts P -> ok_io s ->
  part_rep C P cpi maps -> m ∈ maps -> (there = true -> idx = Z.of_nat i /\ exists r, m_ranges m !! i = Some r /\ r_block r ∉ map snd ts) ->
  (forall s' po, BF s' C (hold (opt_ptr po ++ ts) P) X -> fresh_ptrs (opt_ptr po ++ ts) P -> steady s s' ->
    (forall p y, po = Some (p, y) -> there = true /\ exists r, m_ranges m !! i = Some r /\ y = r_block r) -> Q (Some (fst <$> po)) s') ->
  wp (get_neighbour (m_ptr m) there idx) Q s.
Proof.
  intros I Fr K R Hm T HQ. destruct there.
  - destruct (T eq_refl) as (-> & r & Hr & N). eapply wp_neighbour; [exact I|exact Fr|exact K|exact R|exact Hm|exact Hr|exact N|]. intros p s' I' Fr' St.
    apply (HQ s' (Some (p, r_block r)) I' Fr' St). intros q z [= <- <-]. split; [done|]. by exists r.
  - apply wp_mret. apply (HQ s None I Fr); [reflexivity|]. done.
Qed.

Section Full.
Context (qsort : list (Z * Z) -> list (Z * Z)) (Hqs : forall l, qsort l ≡ₚ l) (Hso : forall l, StronglySorted Z.le (map fst (qsort l)))
  (C : Z -> list Z) (P : gmap loc held) (cpi : CamelPartitionTable) (m1 : list mapb) (m : mapb) (m2 : list mapb) (rs1 : list range) (r : range) (rs2 : list range)
  (hash keyid : Z) (Hh : 0 <= hash).
Let maps := m1 ++ m :: m2.
Context (R : part_rep C P cpi maps) (A : at_range maps hash m1 m m2 rs1 r rs2) (Full : length (r_keys r) = 127%nat).

(** The keys are shared with a neighbour. *)
Lemma wp_merge s block nb X (low : bool) ra rn rb index newindex (Q : bool * CamelPartitionTable -> CamelBlockFile -> Prop) :
  m_ranges m = ra ++ (if low then [r; rn] else [rn; r]) ++ rb -> rs1 = (if low then ra else ra ++ [rn]) ->
  BF s C (<[nb := Held (r_block rn) 1 false]> (<[block := Held (r_block r) 1 false]> P)) X -> block <> nb -> P !! block = None -> P !! nb = None -> X ⊆ {[m_ptr m; nb]} ->
  (index <? newindex) = low -> (if low then index else newindex) = Z.of_nat (length ra) -> (length (r_keys rn) < 127)%nat ->
  cut_at_change (map fst (merged qsort (r_keys r) (r_keys rn) hash keyid)) ->
  (forall s' C' maps', BF s' C' P ∅ -> steady s s' -> pair_added C P cpi maps hash keyid C' P cpi maps' -> Q (true, cpi) s') ->
  wp (split_keys qsort (m_ptr m) block nb index newindex hash keyid;; finish_add block cpi) Q s.
Proof.
  intros E Er I Nbn Hb Hn SX El Ei Ln Cut HQ. set (old := if low then [r; rn] else [rn; r]) in *. assert (Hm : m ∈ maps) by (apply elem_of_app; right; apply list_elem_of_here).
  assert (Io : forall z, z ∈ old -> z ∈ ranges_of maps) by (intros z Hz; unfold maps; rewrite (replace_flat m1 m2 ra old rb m E); apply elem_of_app; right; apply elem_of_app; by left).
  assert (Hr : r ∈ ranges_of maps /\ rn ∈ ranges_of maps) by (split; apply Io; unfold old; destruct low; first [apply list_elem_of_here|right; apply list_elem_of_here]).
  destruct Hr as [Hr Hrn]. assert (Nxy : r_block r <> r_block rn).
  { unfold old in E. destruct low; [|apply not_eq_sym]; eapply (two_blocks C P cpi m1 m m2 ra _ [] _ rb R); exact E. }
  assert (Bx : forall z, z ∈ blocks_of maps -> 0 < z < word C 0 ROOT_LAST) by (intros z Hz; apply (pp_ids _ _ _ _ R z Hz)).
  pose proof (Bx _ (range_block_in _ _ Hr)) as Bxr. pose proof (Bx _ (range_block_in _ _ Hrn)) as Bxn. pose proof (Bx _ (map_id_in _ _ Hm)) as Bm.
  destruct (linked_map _ _ _ _ (pp_linked _ _ _ _ R) Hm) as (nx & Km & _ & _). pose proof (ar_hi _ _ _ _ _ _ _ _ A) as Hhi.
  assert (Kr : pairs_rep 1 0 (C (r_block r)) (r_keys r)) by by apply (pp_keys _ _ _ _ R). assert (Krn : pairs_rep 1 0 (C (r_block rn)) (r_keys rn)) by by apply (pp_keys _ _ _ _ R).
  set (hi := r_hi (if low then rn else r)).
  assert (Hle : r_hi r <= hi).
  { unfold hi. destruct low; [|lia]. pose proof (pp_seg _ _ _ _ R) as S. unfold maps in S. rewrite (replace_flat m1 m2 ra old rb m E) in S. apply ranges_seg_app in S as (lo & _ & S). cbn [old app seg] in S. lia. }
  eapply (wp_split_done qsort Hqs Hso C P cpi m1 m m2 ra old rb R E (r_block r) (r_block rn) low (r_keys r) (r_keys rn) hi [] hash keyid) with (h0 := r_hi (if low then r else rn));
    [rewrite !length_app; cbn; lia|exact Cut| | | |lia| |exact Nxy|split; by eapply map_not_range|lia|constructor|exact I|exact Nbn|exact Hb|exact Hn|exact SX|exact El|exact Ei|done|done| |by intros z ?%not_elem_of_nil|lia|apply R|exact Kr|exact Krn|].
  - unfold old. destruct low; cbn [map concat]; rewrite app_nil_r; [done|apply Permutation_app_comm].
  - unfold old, hi. destruct low; [by exists [r], rn|by exists [rn], r].
  - intros z Hz. apply (ar_low _ _ _ _ _ _ _ _ A). rewrite Er. apply elem_of_app in Hz as [Hz|Hz]; apply elem_of_app; [by left|right]. destruct low; [done|]. apply elem_of_app. by left.
  - unfold old. destruct low; cbn [app map]; [done|]. done.
  - rewrite E, !map_app in Km. unfold old, hi in *. destruct low; exact Km.
  - intros s' C' I' St R' L' F'. eapply HQ; [exact I'|exact St|]. constructor; [exact R'|done| | |rewrite L'; lia| |done|by left].
    + eapply (new_keys qsort Hqs m1 m m2 ra old rb E); [unfold old; destruct low; cbn [map concat]; rewrite app_nil_r; [done|apply Permutation_app_comm]].
    + intros z Hz. left. rewrite (replace_blocks m1 m m2 ra old rb E _ []) in Hz; [exact Hz|]. unfold old. destruct low; done.
    + intros z Z0 Zn _. apply F'; [done|intros ->..]; apply Zn; [by apply map_id_in|by apply range_block_in|by apply range_block_in].
Qed.

(** The table after the new range was filled. *)
Lemma grown_pair_added C1 P1 cpi1 maps1 ma mb mc a b C2 maps2 ks0 hk : map_ready C P cpi maps C1 P1 cpi1 maps1 -> at_range maps1 hash ma mb mc a r b -> part_rep C2 P1 cpi1 maps2 ->
  maps2 = ma ++ MapB (m_ptr mb) (m_id mb) (a ++ [Range hk (r_block r) (take (half_of ks0) ks0); Range (r_hi r) (word C1 0 ROOT_LAST) (drop (half_of ks0) ks0)] ++ b) :: mc ->
  ks0 ≡ₚ (hash, keyid) :: r_keys r -> word C2 0 ROOT_LAST = word C1 0 ROOT_LAST + 1024 ->
  (forall z, z <> 0 -> z <> m_id mb -> z <> r_block r -> z <> word C1 0 ROOT_LAST -> C2 z = C1 z) -> pair_added C P cpi maps hash keyid C2 P1 cpi1 maps2.
Proof.
  intros [M1 M2 M3 M4 M5 M6 M7 M8] A1 R2 -> Pk L F. pose proof (ar_ranges _ _ _ _ _ _ _ _ A1) as Ea. change (a ++ r :: b) with (a ++ [r] ++ b) in Ea. pose proof (ar_maps _ _ _ _ _ _ _ _ A1) as Em. subst maps1.
  assert (Hm : mb ∈ ma ++ mb :: mc) by (apply elem_of_app; right; apply list_elem_of_here). pose proof (at_range_in _ _ _ _ _ _ _ _ A1) as Hr.
  assert (Er : r_block r ∈ blocks_of maps) by (apply range_block_in; rewrite <- M3; exact Hr).
  constructor; [exact R2|exact M2| | |lia| |exact M7|].
  - unfold all_keys. rewrite (replace_flat_new ma mb mc a b), !map_app, !concat_app. cbn [map concat r_keys]. rewrite app_nil_r, take_drop, Pk, <- M3, (replace_flat ma mc a [r] b mb Ea), !map_app, !concat_app.
    cbn [map concat app]. rewrite app_nil_r. symmetry. apply Permutation_middle.
  - intros z Hz. rewrite (replace_blocks ma mb mc a [r] b Ea _ [word C1 0 ROOT_LAST]) in Hz; [|cbn; apply perm_swap]. cbn [app] in Hz. apply elem_of_cons in Hz as [->|Hz]; [right; lia|]. by apply M4.
  - intros z Z0 Zn Zl. rewrite F; [by apply M6|done| |by intros ->|lia]. intros ->. destruct (M4 (m_id mb)) as [Hb|Hb]; [by apply map_id_in|done|lia].
  - intros p h Hp. destruct (M8 p h Hp) as [Hq|(Hq & Hi & Hq')]; [by left|right]. split_and!; [done| |done]. rewrite map_app in *. exact Hi.
Qed.

Lemma wp_grow s no po block ts (Q : bool * CamelPartitionTable -> CamelBlockFile -> Prop) : ts = opt_ptr no ++ opt_ptr po ++ [(block, r_block r)] -> BF s C (hold ts P) ∅ -> fresh_ptrs ts P -> ok_io s ->
  (forall p i, (p, i) ∈ ts -> i < word C 0 ROOT_LAST) -> word C 0 ROOT_LAST + 2048 < 2 ^ 32 -> (length (m_ranges m) = 127%nat -> length rs1 <> 63%nat) ->
  cut_at_change (map fst (merged qsort (r_keys r) [] hash keyid)) ->
  (forall s' C' P' cpi' maps', BF s' C' P' ∅ -> steady s s' -> pair_added C P cpi maps hash keyid C' P' cpi' maps' -> Q (true, cpi') s') ->
  wp (s ← split_map cpi (length m1) (m_ptr m) (Z.of_nat (length rs1));
      match s with
      | None => unref_opt (fst <$> no);; unref_opt (fst <$> po);; mret (false, cpi)
      | Some (cpi, ptblock, index) =>
          n ← new_range ptblock index;
          match n with
          | None => unref_opt (fst <$> no);; unref_opt (fst <$> po);; mret (false, cpi)
          | Some newblock =>
              unref_opt (fst <$> no);; unref_opt (fst <$> po);;
              split_keys qsort ptblock block newblock index (index + 1) hash keyid;;
              finish_add block cpi
          end
      end) Q s.
Proof.
  intros Ets I Fr K Bt Rm Sf Cut HQ. apply wp_mbind. eapply wp_split_map; [exact I|exact Fr|exact K|exact R|exact A|exact Bt|lia|exact Sf|].
  intros s1 C1 P1 cpi1 maps1 ma mb mc a b X I1 Fr1 St1 A1 Lb SX Mr. pose proof (mr_rep _ _ _ _ _ _ _ _ Mr) as R1. pose proof (mr_last _ _ _ _ _ _ _ _ Mr) as L1.
  destruct (at_range_map _ _ _ _ R1 _ _ _ _ _ _ _ A1) as (nb & nxt & Hn & (Km & _ & _)). set (y := word C1 0 ROOT_LAST) in *. pose proof (ar_ranges _ _ _ _ _ _ _ _ A1) as Ea. pose proof (ar_maps _ _ _ _ _ _ _ _ A1) as Em1.
  assert (Hm1 : mb ∈ maps1) by (rewrite Em1; apply elem_of_app; right; apply list_elem_of_here). pose proof (at_range_in _ _ _ _ _ _ _ _ A1) as Hr1.
  destruct (pp_ids _ _ _ _ R1 _ (map_id_in _ _ Hm1)) as [Bm _]. destruct (pp_ids _ _ _ _ R1 _ (range_block_in _ _ Hr1)) as [Br _]. pose proof (map_not_range _ _ _ _ _ _ R1 Hm1 Hr1) as Nmr. fold y in Bm, Br.
  apply wp_mbind. rewrite Ea, map_app in Km. cbn [map] in Km. eapply (wp_new_range s1 C1 ts P1 X (m_ptr mb) (m_id mb) nb _ (length a) (r_hi r) (r_block r));
    [exact I1|exact Fr1|by apply (steady_ok s s1)|apply R1|intros p i Hi; specialize (Bt p i Hi); fold y; lia|fold y; lia|exact Hn|lia|exact Km| | |].
  { rewrite Ea in Lb. rewrite <- (length_map range_pair), map_app in Lb. exact Lb. }
  { rewrite lookup_app_r by (rewrite length_map; lia). by rewrite length_map, Nat.sub_diag. }
  cbn zeta. fold y. intros s2 C2 q I2 Fr2 St2 Km2 Wn2 Ky F2 A2 L2. set (X2 := X ∪ {[m_ptr mb; q]}) in *. assert (SX2 : X2 ⊆ {[m_ptr mb; q]}) by (clear -SX; set_solver).
  assert (Nx : forall z, z ∈ ts -> fst z ∉ X2).
  { intros [p i] Hz Hx. cbn in Hx. apply SX2 in Hx. apply elem_of_union in Hx as [->%elem_of_singleton| ->%elem_of_singleton]; [by rewrite (fp_new _ _ Fr1 _ _ Hz) in Hn|].
    pose proof (fp_nodup _ _ Fr2) as N. cbn [map fst] in N. apply list.NoDup_cons in N as [N _]. apply N. by apply (list_elem_of_fmap_2 fst _ (q, i)). }
  rewrite Ets in I2, Fr2. apply wp_mbind. eapply (wp_unref_opt s2 C2 [(q, y)] no (opt_ptr po ++ [(block, r_block r)])); [exact I2|exact Fr2|intros x ->; apply Nx; rewrite Ets; apply list_elem_of_here|]. intros s3 I3 Fr3 St3.
  apply wp_mbind. eapply (wp_unref_opt s3 C2 [(q, y)] po [(block, r_block r)]); [exact I3|exact Fr3|intros x ->; apply Nx; rewrite Ets; apply elem_of_app; right; apply list_elem_of_here|]. intros s4 I4 Fr4 St4.
  assert (Hb : P1 !! block = None) by (apply (fp_new _ _ Fr4 block (r_block r)); right; apply list_elem_of_here). assert (Hq : P1 !! q = None) by (apply (fp_new _ _ Fr4 q y), list_elem_of_here).
  assert (Nbq : block <> q) by (intros ->; pose proof (fp_nodup _ _ Fr4) as N; cbn in N; apply list.NoDup_cons in N as [N _]; apply N, list_elem_of_here).
  pose proof Km2 as Km3. rewrite take_app_ge, drop_app_ge in Km3 by (rewrite length_map; lia). rewrite length_map in Km3. replace (S (length a) - length a)%nat with 1%nat in Km3 by lia. cbn [take drop] in Km3. rewrite <- app_assoc in Km3.
  rewrite Em1 in R1. eapply (wp_split_done qsort Hqs Hso C1 P1 cpi1 ma mb mc a [r] b R1 Ea (r_block r) y true (r_keys r) [] (r_hi r) [y] hash keyid);
    [rewrite !length_app; cbn; lia|exact Cut|cbn [map concat]; by rewrite !app_nil_r|by exists [], r|apply A1|pose proof (ar_hi _ _ _ _ _ _ _ _ A1); lia|cbn; apply perm_swap|lia|split; [exact Nmr|lia]|lia|
     apply list.NoDup_singleton|exact I4|exact Nbq|exact Hb|exact Hq|exact SX2|apply Z.ltb_lt; lia|done|intros z Z0 Z1 _ Z2; by apply F2|exact Wn2|exact Km3| |fold y; lia|exact A2| |exact Ky|].
  - intros z ->%list_elem_of_singleton. fold y. split; [lia|]. pose proof (al_last _ _ (pp_alloc _ _ _ _ R1)) as [_ M]. exact M.
  - rewrite F2 by lia. apply (pp_keys _ _ _ _ R1). by rewrite <- Em1.
  - intros s5 C5 I5 St5 R5 L5 F5. eapply HQ; [exact I5|steady_t|]. eapply (grown_pair_added C1 P1 cpi1 maps1 ma mb mc a b C5); [exact Mr|exact A1|exact R5|reflexivity| |rewrite L5; exact L2|exact F5].
    unfold merged. rewrite Hqs. symmetry. apply Permutation_cons_append.
Qed.
End Full.

(** ** Adding a key to a partition table *)

(** What keys a full block at [i] may be merged with. *)
Definition neighbour_keys (m : mapb) (i : nat) (l : list (Z * Z)) : Prop :=
  l = [] \/ exists j rn, (S j = i \/ j = S i) /\ m_ranges m !! j = Some rn /\ (length (r_keys rn) < 127)%nat /\ l = r_keys rn.

(** When the block of the hash is full, the cut does not separate equal hashes;
    when the block of the map is full too, the range is not the one behind the
    middle, which the code does not find again. *)
Definition add_clean (qsort : list (Z * Z) -> list (Z * Z)) (maps : list mapb) (hash keyid : Z) : Prop :=
  forall m1 m m2 rs1 r rs2, at_range maps hash m1 m m2 rs1 r rs2 -> length (r_keys r) = 127%nat ->
    (length (m_ranges m) = 127%nat -> length rs1 <> 63%nat) /\
    forall l, neighbour_keys m (length rs1) l -> cut_at_change (map fst (merged qsort (r_keys r) l hash keyid)).

Section Store.
Context (qsort : list (Z * Z) -> list (Z * Z)) (Hqs : forall l, qsort l ≡ₚ l) (Hso : forall l, StronglySorted Z.le (map fst (qsort l)))
  (C : Z -> list Z) (P : gmap loc held) (cpi : CamelPartitionTable) (maps : list mapb) (hash keyid : Z) (Hh : 0 <= hash)
  (R : part_rep C P cpi maps) (Rm : word C 0 ROOT_LAST + 2048 < 2 ^ 32) (Cl : add_clean qsort maps hash keyid).

Context (m1 : list mapb) (m : mapb) (m2 : list mapb) (rs1 : list range) (r : range) (rs2 : list range) (A : at_range maps hash m1 m m2 rs1 r rs2) (Full : length (r_keys r) = 127%nat).

(** The neighbours that were read. *)
Definition are_neighbours (po no : option (loc * Z)) : Prop :=
  (forall p y, po = Some (p, y) -> (0 < length rs1)%nat /\ exists rn, m_ranges m !! (length rs1 - 1)%nat = Some rn /\ y = r_block rn) /\
  (forall p y, no = Some (p, y) -> exists rn, m_ranges m !! S (length rs1) = Some rn /\ y = r_block rn).
Definition op_ptrs (po no : option (loc * Z)) (block : loc) : list (loc * Z) := opt_ptr no ++ opt_ptr po ++ [(block, r_block r)].

Lemma here_map : m ∈ maps.
Proof. rewrite (ar_maps _ _ _ _ _ _ _ _ A). apply elem_of_app. right. apply list_elem_of_here. Qed.

Lemma here_range : m_ranges m !! length rs1 = Some r.
Proof. rewrite (ar_ranges _ _ _ _ _ _ _ _ A), lookup_app_r, Nat.sub_diag by lia. done. Qed.

Lemma other_blocks i j x y : m_ranges m !! i = Some x -> m_ranges m !! j = Some y -> (i < j)%nat -> r_block x <> r_block y.
Proof.
  intros Hx Hy L. pose proof R as R0. rewrite (ar_maps _ _ _ _ _ _ _ _ A) in R0. pose proof (take_drop_middle _ _ _ Hx) as E1.
  assert (Hy' : drop (S i) (m_ranges m) !! (j - S i)%nat = Some y) by (rewrite lookup_drop; by replace (S i + (j - S i))%nat with j by lia).
  rewrite <- (take_drop_middle _ _ _ Hy') in E1. symmetry in E1. exact (two_blocks _ _ _ _ _ _ _ _ _ _ _ R0 E1).
Qed.

Lemma wp_neighbours s block (Q : bool * CamelPartitionTable -> CamelBlockFile -> Prop) : BF s C (<[block := Held (r_block r) 1 false]> P) ∅ -> P !! block = None -> ok_io s ->
  (forall s' po no, BF s' C (hold (op_ptrs po no block) P) ∅ -> fresh_ptrs (op_ptrs po no block) P -> steady s s' -> are_neighbours po no ->
    wp (add_chosen qsort cpi (length m1) (m_ptr m) (Z.of_nat (length rs1)) block (fst <$> po) (fst <$> no) hash keyid) Q s') ->
  wp (add_split qsort cpi (length m1) (m_ptr m) (Z.of_nat (length rs1)) block hash keyid) Q s.
Proof.
  intros I Hb K HQ. pose proof here_map as Hm. pose proof here_range as Hr. assert (Fr : fresh_ptrs [(block, r_block r)] P) by (constructor; [apply list.NoDup_singleton|intros p i [= -> ->]%list_elem_of_singleton; exact Hb]).
  destruct (pp_held _ _ _ _ R m Hm) as [nm Hn]. destruct (linked_map _ _ _ _ (pp_linked _ _ _ _ R) Hm) as (nx & Km & _). pose proof (pr_count _ _ _ _ Km) as Kc. rewrite length_map in Kc.
  unfold add_split. apply wp_mbind. eapply (wp_opt_neighbour s C P ∅ [(block, r_block r)] cpi maps m _ (length rs1 - 1)); [exact I|exact Fr|exact K|exact R|exact Hm| |].
  { intros G%Z.gtb_lt. split; [lia|]. destruct (lookup_lt_is_Some_2 (m_ranges m) (length rs1 - 1)) as [rn Hrn]; [apply lookup_lt_Some in Hr; lia|]. exists rn. split; [done|].
    intros E%list_elem_of_singleton. by apply (other_blocks (length rs1 - 1)%nat (length rs1) rn r Hrn Hr ltac:(lia)). }
  intros s1 po I1 Fr1 St1 Po. apply wp_mbind. eapply wp_word_at; [exact I1|by apply (hold_base _ _ _ _ Fr1)|exact Kc|].
  apply wp_mbind. eapply (wp_opt_neighbour s1 C P ∅ _ cpi maps m _ (S (length rs1))); [exact I1|exact Fr1|by apply (steady_ok s s1)|exact R|exact Hm| |].
  { intros G%Z.ltb_lt. split; [lia|]. destruct (lookup_lt_is_Some_2 (m_ranges m) (S (length rs1))) as [rn Hrn]; [lia|]. exists rn. split; [done|].
    rewrite map_app. intros [H|E%list_elem_of_singleton]%elem_of_app; [|symmetry in E; by apply (other_blocks (length rs1) (S (length rs1)) r rn Hr Hrn ltac:(lia))].
    destruct po as [[p z]|]; [|by apply not_elem_of_nil in H]. cbn in H. apply list_elem_of_singleton in H. destruct (Po p z eq_refl) as (G' & rp & Hp & ->).
    symmetry in H. by apply (other_blocks (length rs1 - 1)%nat (S (length rs1)) rp rn Hp Hrn ltac:(lia)). }
  intros s2 no I2 Fr2 St2 No. apply HQ; [exact I2|exact Fr2|steady_t|]. split; intros p y E; [destruct (Po p y E) as (G & H)|destruct (No p y E) as (G & H)]; [|done]. split; [apply Z.gtb_lt in G; lia|done].
Qed.

Lemma prev_split rn : (0 < length rs1)%nat -> m_ranges m !! (length rs1 - 1)%nat = Some rn -> exists ra, rs1 = ra ++ [rn] /\ m_ranges m = ra ++ [rn; r] ++ rs2.
Proof.
  intros L H. destruct rs1 as [|z l] eqn:E1; [cbn in L; lia|]. rewrite <- E1 in *. destruct (exists_last (l := rs1) ltac:(by rewrite E1)) as (ra & x & E). exists ra.
  rewrite (ar_ranges _ _ _ _ _ _ _ _ A), E in H. rewrite length_app in H. cbn [length] in H. rewrite lookup_app_l in H by (rewrite length_app; cbn; lia). rewrite lookup_app_r in H by lia.
  replace (length ra + 1 - 1 - length ra)%nat with 0%nat in H by lia. injection H as ->. split; [done|]. rewrite (ar_ranges _ _ _ _ _ _ _ _ A), E, <- app_assoc. done.
Qed.

Lemma next_split rn : m_ranges m !! S (length rs1) = Some rn -> exists rb, rs2 = rn :: rb /\ m_ranges m = rs1 ++ [r; rn] ++ rb.
Proof.
  intros H. rewrite (ar_ranges _ _ _ _ _ _ _ _ A) in *. rewrite lookup_app_r in H by lia. replace (S (length rs1) - length rs1)%nat with 1%nat in H by lia. cbn in H.
  destruct rs2 as [|x rb]; [done|]. injection H as ->. by exists rb.
Qed.

Lemma wp_add_chosen s po no block (Q : bool * CamelPartitionTable -> CamelBlockFile -> Prop) : BF s C (hold (op_ptrs po no block) P) ∅ -> fresh_ptrs (op_ptrs po no block) P -> ok_io s -> are_neighbours po no ->
  (forall s' C' P' cpi' maps', BF s' C' P' ∅ -> steady s s' -> pair_added C P cpi maps hash keyid C' P' cpi' maps' -> Q (true, cpi') s') ->
  wp (add_chosen qsort cpi (length m1) (m_ptr m) (Z.of_nat (length rs1)) block (fst <$> po) (fst <$> no) hash keyid) Q s.
Proof.
  intros I Fr K [Po No] HQ. destruct (Cl _ _ _ _ _ _ A Full) as [Sf Cut]. pose proof here_map as Hm. pose proof here_range as Hr. pose proof (ar_maps _ _ _ _ _ _ _ _ A) as Em.
  pose proof R as R0. rewrite Em in R0. pose proof A as A0. rewrite Em in A0. set (ts := op_ptrs po no block) in *.
  assert (Kb : forall i rn, m_ranges m !! i = Some rn -> keys_ok C rn /\ r_block rn < word C 0 ROOT_LAST).
  { intros i rn Hi. pose proof (range_in_map maps m i rn Hm Hi) as Hrn. split; [by apply (pp_keys _ _ _ _ R)|]. destruct (pp_ids _ _ _ _ R _ (range_block_in _ _ Hrn)). lia. }
  assert (In1 : forall p y, po = Some (p, y) -> (p, y) ∈ ts) by (intros p y ->; unfold ts, op_ptrs; rewrite !elem_of_app; right; left; apply list_elem_of_here).
  assert (In2 : forall p y, no = Some (p, y) -> (p, y) ∈ ts) by (intros p y ->; unfold ts, op_ptrs; rewrite !elem_of_app; left; apply list_elem_of_here).
  assert (In3 : (block, r_block r) ∈ ts) by (unfold ts, op_ptrs; rewrite !elem_of_app; right; right; apply list_elem_of_here).
  unfold add_chosen. apply wp_mbind. set (keys_at := fun i => match m_ranges m !! i with Some x => r_keys x | None => [] end).
  eapply (wp_choose s C (hold ts P) ∅ po no (keys_at (length rs1 - 1)%nat) (keys_at (S (length rs1)))); [exact I| | | | |].
  - intros p y E. split; [apply hold_in; [apply Fr|by apply In1]|]. destruct (Po p y E) as (_ & rn & Hrn & ->). unfold keys_at. rewrite Hrn. by apply (Kb _ _ Hrn).
  - intros p y E. split; [apply hold_in; [apply Fr|by apply In2]|]. destruct (No p y E) as (rn & Hrn & ->). unfold keys_at. rewrite Hrn. by apply (Kb _ _ Hrn).
  - rewrite Em in HQ. eapply (wp_grow qsort Hqs Hso C P cpi m1 m m2 rs1 r rs2 hash keyid Hh R0 A0 Full s no po block ts);
      [done|exact I|exact Fr|exact K| |exact Rm|exact Sf|apply Cut; by left|exact HQ].
    intros p i. unfold ts, op_ptrs. rewrite !elem_of_app. intros [H|[H|H]].
    + destruct no as [[q z]|]; [|by apply not_elem_of_nil in H]. apply list_elem_of_singleton in H. injection H as -> ->. destruct (No q z eq_refl) as (rn & Hrn & ->). by apply (Kb _ _ Hrn).
    + destruct po as [[q z]|]; [|by apply not_elem_of_nil in H]. apply list_elem_of_singleton in H. injection H as -> ->. destruct (Po q z eq_refl) as (_ & rn & Hrn & ->). by apply (Kb _ _ Hrn).
    + apply list_elem_of_singleton in H. injection H as -> ->. by apply (Kb _ _ Hr).
  - intros p y E Lp. destruct (Po p y E) as (G & rn & Hrn & ->). unfold keys_at in Lp. rewrite Hrn in Lp. subst po. cbn [fmap option_fmap option_map fst]. rewrite bool_decide_true by done. destruct (prev_split rn G Hrn) as (ra & Ers & Emr).
    apply wp_mbind. eapply (wp_unref_opt s C [] no [(p, r_block rn); (block, r_block r)]); [exact I|exact Fr|intros x _; apply not_elem_of_empty|]. intros s1 I1 Fr1 St1. cbn [app hold] in I1.
    rewrite Em in HQ. eapply (wp_merge qsort Hqs Hso C P cpi m1 m m2 rs1 r rs2 hash keyid Hh R0 A0 Full s1 block p ∅ false ra rn rs2);
      [exact Emr|exact Ers|exact I1| |apply (fp_new _ _ Fr block _ In3)|apply (fp_new _ _ Fr p _ (In1 _ _ eq_refl))|apply empty_subseteq|apply Z.ltb_ge; lia|rewrite Ers, length_app; cbn; lia|exact Lp|apply Cut; right; exists (length rs1 - 1)%nat, rn; split_and!; [left; lia|done..]|].
    + intros ->. pose proof (fp_nodup _ _ Fr1) as N. cbn in N. apply list.NoDup_cons in N as [N _]. apply N, list_elem_of_here.
    + intros s' C' maps' I' St' Ka. eapply HQ; [exact I'|steady_t|exact Ka].
  - intros p y E Lp. destruct (No p y E) as (rn & Hrn & ->). unfold keys_at in Lp. rewrite Hrn in Lp. subst no. cbn [fmap option_fmap option_map fst]. destruct (next_split rn Hrn) as (rb & Ers & Emr).
    pose proof (fp_nodup _ _ Fr) as N. unfold ts, op_ptrs in N. cbn [opt_ptr app map fst] in N. apply list.NoDup_cons in N as [N _].
    rewrite bool_decide_false by (intros Ep; destruct po as [[q z]|]; [|done]; injection Ep as ->; apply N, list_elem_of_here).
    apply wp_mbind. eapply (wp_unref_opt s C [(p, r_block rn)] po [(block, r_block r)]); [exact I|exact Fr|intros x _; apply not_elem_of_empty|]. intros s1 I1 Fr1 St1. cbn [app hold] in I1.
    rewrite Em in HQ. eapply (wp_merge qsort Hqs Hso C P cpi m1 m m2 rs1 r rs2 hash keyid Hh R0 A0 Full s1 block p ∅ true rs1 rn rb);
      [exact Emr|done|exact I1| |apply (fp_new _ _ Fr block _ In3)|apply (fp_new _ _ Fr p _ (In2 _ _ eq_refl))|apply empty_subseteq|apply Z.ltb_lt; lia|done|exact Lp|apply Cut; right; exists (S (length rs1)), rn; split_and!; [by right|done..]|].
    + intros ->. pose proof (fp_nodup _ _ Fr1) as N'. cbn in N'. apply list.NoDup_cons in N' as [N' _]. apply N', list_elem_of_here.
    + intros s' C' maps' I' St' Ka. eapply HQ; [exact I'|steady_t|exact Ka].
Qed.

Lemma wp_add_split s block (Q : bool * CamelPartitionTable -> CamelBlockFile -> Prop) : BF s C (<[block := Held (r_block r) 1 false]> P) ∅ -> P !! block = None -> ok_io s ->
  (forall s' C' P' cpi' maps', BF s' C' P' ∅ -> steady s s' -> pair_added C P cpi maps hash keyid C' P' cpi' maps' -> Q (true, cpi') s') ->
  wp (add_split qsort cpi (length m1) (m_ptr m) (Z.of_nat (length rs1)) block hash keyid) Q s.
Proof.
  intros I Hb K HQ. eapply wp_neighbours; [exact I|exact Hb|exact K|]. intros s1 po no I1 Fr1 St1 Nb.
  eapply wp_add_chosen; [exact I1|exact Fr1|by apply (steady_ok s s1)|exact Nb|]. intros s' C' P' cpi' maps' I' St' Ka. eapply HQ; [exact I'|steady_t|exact Ka].
Qed.
End Store.
