(* ===== verification/PartitionSafe.v ===== *)
(** * PartitionSafe: what partition tables promise

    A partition table stores pairs of a hash and a number.  Adding a key adds
    a pair, removing a key removes one, and looking up finds the number of a pair
    with the hash of the key, and with its characters when the table knows its
    key table. *)

From stdpp Require Import base list numbers gmap functions sorting.
From Stdlib Require Import ZArith Lia.
From S2P Require Import Prelude BlockFile BlockFileInv BlockFileOps BlockFileSpec BlockFileSafe KeyTable KeyBlocks KeyTableInv KeyTableSpec KeyTableSafe PartitionTable PartitionInv PartitionSpec PartitionSplit PartitionGrow PartitionAdd.

(** ** Operations *)

Definition index_table (s : CamelBlockFile) (P : gmap loc held) (cpi : CamelPartitionTable) (kt : key_ghost) (L : Z) (maps : list mapb) : Prop :=
  exists C, BF s C P ∅ /\ index_rep C P cpi maps kt /\ word C 0 ROOT_LAST = L.

Inductive part_op :=
  | PartAdd (key : list Z) (keyid : Z)
  | PartRemove (key : list Z)
  | PartLookup (key : list Z).

Definition part_run (qsort : list (Z * Z) -> list (Z * Z)) (cpi : CamelPartitionTable) (o : part_op) : M (Z * CamelPartitionTable) :=
  match o with
  | PartAdd key keyid => '(b, cpi) ← camel_partition_table_add qsort cpi key keyid; mret (Z.b2z b, cpi)
  | PartRemove key => b ← camel_partition_table_remove cpi key; mret (Z.b2z b, cpi)
  | PartLookup key => k ← camel_partition_table_lookup cpi key; mret (k, cpi)
  end.

(** What the pairs are after an operation, and its answer. *)
Definition part_step (kt : key_ghost) (o : part_op) (T : list (Z * Z)) (r : Z) (T' : list (Z * Z)) : Prop :=
  match o with
  | PartAdd key keyid => r = 1 /\ T' ≡ₚ (hash_key key, keyid) :: T
  | PartRemove key => r = 1 /\ ((exists k, named kt k key /\ T ≡ₚ (hash_key key, k) :: T') \/ (T' = T /\ forall k, (hash_key key, k) ∈ T -> ~ named kt k key))
  | PartLookup key => T' = T /\ ((exists k, (hash_key key, k) ∈ T /\ named kt k key /\ r = k) \/ (r = 0 /\ forall k, (hash_key key, k) ∈ T -> ~ named kt k key))
  end.

(** A number that is added is that of a key. *)
Definition keyid_known (kt : key_ghost) (keyid : Z) : Prop := match kt with Some (_, kbs) => exists e, (keyid, e) ∈ keys_of kbs | None => True end.

Definition part_allowed (qsort : list (Z * Z) -> list (Z * Z)) (kt : key_ghost) (o : part_op) (L : Z) (maps : list mapb) : Prop :=
  match o with
  | PartAdd key keyid => L + 2048 < 2 ^ 32 /\ keyid_known kt keyid /\ add_clean qsort maps (hash_key key) keyid
  | _ => True
  end.

(** The only blocks that stay in memory are those of the map. *)
Definition keeps_blocks (P P' : gmap loc held) (maps' : list mapb) : Prop :=
  forall p, P' !! p = P !! p \/ P !! p = None /\ p ∈ map m_ptr maps'.

Lemma keeps_same P maps : keeps_blocks P P maps.
Proof. intros p. by left. Qed.

(** A table that is told its key table. *)
Lemma index_set_keys C P cpi maps ki root kbs : part_rep C P cpi maps -> key_blocks ki root C P kbs -> (forall x, x ∈ root :: map fst kbs -> x ∉ blocks_of maps) ->
  (forall h k, (h, k) ∈ all_keys maps -> exists e, (k, e) ∈ keys_of kbs) -> index_rep C P (camel_partition_table_set_key_table cpi (Some ki)) maps (Some (root, kbs)).
Proof. intros [Q1 Q2 Q3 Q4 Q5 Q6 Q7 Q8 Q9] KB D Kn. split; [by constructor|by split_and!]. Qed.

(** ** Adding *)

Section Adding.
Context (qsort : list (Z * Z) -> list (Z * Z)) (Hqs : forall l, qsort l ≡ₚ l) (Hso : forall l, StronglySorted Z.le (map fst (qsort l)))
  (s : CamelBlockFile) (C : Z -> list Z) (P : gmap loc held) (cpi : CamelPartitionTable) (maps : list mapb) (kt : key_ghost)
  (I : BF s C P ∅) (R : index_rep C P cpi maps kt) (K : ok_io s) (key : list Z) (keyid : Z) (Kn : keyid_known kt keyid).

(** There is room in the block. *)
Lemma wp_add_room m1 m m2 rs1 r rs2 s1 p (Q : bool * CamelPartitionTable -> CamelBlockFile -> Prop) : at_range maps (hash_key key) m1 m m2 rs1 r rs2 -> (length (r_keys r) < 127)%nat ->
  BF s1 C (<[p := Held (r_block r) 1 false]> P) ∅ -> P !! p = None -> steady s s1 ->
  (forall s' maps', index_after s C P cpi maps kt s' maps' -> all_keys maps' ≡ₚ (hash_key key, keyid) :: all_keys maps -> Q (true, cpi) s') ->
  wp (set_at p (pkey_hash (Z.of_nat (length (r_keys r)))) (hash_key key);; set_at p (pkey_id (Z.of_nat (length (r_keys r)))) keyid;;
      set_word p PK_USED (Z.of_nat (length (r_keys r)) + 1);; finish_add p cpi) Q s1.
Proof.
  intros A Lr I1 Hp St1 HQ. pose proof (at_range_in _ _ _ _ _ _ _ _ A) as Hr. pose proof (pp_keys _ _ _ _ (proj1 R) r Hr) as Kr. set (l := r_keys r) in *. set (d := C (r_block r)) in *.
  assert (Hp1 : <[p := Held (r_block r) 1 false]> P !! p = Some (Held (r_block r) 1 false)) by apply lookup_insert_eq.
  apply wp_mbind. eapply (wp_set_pair C _ p _ _ _ Hp1 s1 ∅ d 1 (length l)); [apply (BF_put _ _ _ _ _ _ I1 (eq_refl : C (r_block r) = d))|lia|unfold WORDS; lia|]. intros s2 I2 St2.
  apply wp_mbind. eapply (wp_set_pair C _ p _ _ _ Hp1 s2 _ _ 2 (length l)); [exact I2|lia|unfold WORDS; lia|]. intros s3 I3 St3.
  apply wp_mbind. eapply wp_set_at; [exact I3|exact Hp1|unfold PK_USED, WORDS; lia|]. intros s4 I4 St4. unfold PK_USED in I4.
  pose proof (pairs_rep_put 1 0 d l [(hash_key key, keyid)] (length l) Kr ltac:(lia) ltac:(lia) ltac:(lia) ltac:(cbn; lia)) as Kd. rewrite take_ge in Kd by lia.
  cbn [put_pairs length] in Kd. replace (Z.of_nat (length l + 1)) with (Z.of_nat (length l) + 1) in Kd by lia.
  unfold finish_add. apply wp_mbind. eapply (wp_range_done s C P cpi maps kt I R K key m1 m m2 rs1 r rs2 p s4 _ _ _ (true, cpi)); [exact A|exact Hp| |exact I4|exact Kd| | |steady_t|].
  - clear. set_solver.
  - intros x [Hx|Hx%list_elem_of_singleton]%elem_of_app; [by left|right; by rewrite Hx].
  - intros h k [Hx|Hx%list_elem_of_singleton]%elem_of_app; [by left|right]. injection Hx as _ ->. exact Kn.
  - intros s' Af. eapply HQ; [exact Af|]. rewrite all_keys_with, (all_keys_ranges _ _ _ _ (at_range_flat _ _ _ _ _ _ _ _ A)). fold l. rewrite <- app_assoc. cbn [app]. symmetry. apply Permutation_middle.
Qed.

Lemma wp_part_add (Q : bool * CamelPartitionTable -> CamelBlockFile -> Prop) : word C 0 ROOT_LAST + 2048 < 2 ^ 32 -> add_clean qsort maps (hash_key key) keyid ->
  (forall s' P' cpi' L' maps', steady s s' -> index_table s' P' cpi' kt L' maps' -> keeps_blocks P P' maps' -> word C 0 ROOT_LAST <= L' <= word C 0 ROOT_LAST + 2048 ->
    all_keys maps' ≡ₚ (hash_key key, keyid) :: all_keys maps -> Q (true, cpi') s') -> wp (camel_partition_table_add qsort cpi key keyid) Q s.
Proof.
  intros Rm Cl HQ. pose proof (proj1 R) as Rp. unfold camel_partition_table_add. apply wp_mbind. eapply wp_find; [exact I|exact Rp|apply hash_key_range|]. intros m1 m m2 rs1 r rs2 A.
  apply wp_mbind. eapply wp_range_block; [exact Rp|exact A|exact I|]. apply wp_mbind. eapply wp_get_range; [exact Rp|exact A|exact I|exact K|]. intros p s1 I1 Hp St1.
  pose proof (at_range_in _ _ _ _ _ _ _ _ A) as Hr. pose proof (pp_keys _ _ _ _ Rp r Hr) as Kr. pose proof (pr_bound _ _ _ _ Kr) as Bd.
  assert (Hp1 : <[p := Held (r_block r) 1 false]> P !! p = Some (Held (r_block r) 1 false)) by apply lookup_insert_eq.
  apply wp_mbind. eapply wp_word_at; [exact I1|exact Hp1|apply (pr_count _ _ _ _ Kr)|]. unfold N_KEYS. destruct (Z.ltb_spec (Z.of_nat (length (r_keys r))) 127) as [Lt|Ge].
  - eapply wp_add_room; [exact A|lia|exact I1|exact Hp|exact St1|]. intros s' maps' (St & C' & I' & R' & L' & _) Ak. eapply (HQ s' P cpi (word C' 0 ROOT_LAST) maps'); [exact St|by exists C'|apply keeps_same|lia|exact Ak].
  - eapply (wp_add_split qsort Hqs Hso C P cpi maps (hash_key key) keyid ltac:(apply hash_key_range) Rp Rm Cl m1 m m2 rs1 r rs2 A); [lia|exact I1|exact Hp|by apply (steady_ok s s1)|].
    intros s' C' P' cpi' maps' I' St' [A1 A2 A3 A4 A5 A6 A7 A8]. eapply (HQ s' P' cpi' (word C' 0 ROOT_LAST) maps'); [steady_t| | |exact A5|exact A3].
    + exists C'. split_and!; [exact I'| |done]. split; [exact A1|]. eapply keys_known_frame; [apply R|exact A2|exact A6|exact A4|apply A1|lia|exact A7| |].
      * intros q h Hq. destruct (A8 q h Hq) as [Hq'|(Hq' & _)]; [by left|by right].
      * intros h k Hk. rewrite A3 in Hk. apply elem_of_cons in Hk as [Hk|Hk]; [right; injection Hk as _ ->; exact Kn|by left].
    + intros q. destruct (P' !! q) as [h|] eqn:E; [destruct (A8 q h E) as [Eq|(_ & Hq & Hq')]; [left; by rewrite Eq|by right]|left]. destruct (P !! q) as [h|] eqn:E'; [|done]. by rewrite (A7 q h E') in E.
Qed.
End Adding.

Lemma part_refines qsort s P cpi kt L maps o : (forall l, qsort l ≡ₚ l) -> (forall l, StronglySorted Z.le (map fst (qsort l))) -> index_table s P cpi kt L maps -> ok_io s -> part_allowed qsort kt o L maps ->
  wp (part_run qsort cpi o) (fun a s' => ok_io s' /\ exists P' L' maps', index_table s' P' (snd a) kt L' maps' /\ keeps_blocks P P' maps' /\ L <= L' <= L + 2048 /\ part_step kt o (all_keys maps) (fst a) (all_keys maps')) s.
Proof.
  intros Hqs Hso (C & I & R & <-) K Al. destruct o as [key keyid|key|key]; cbn [part_run part_step part_allowed] in *; apply wp_mbind.
  - destruct Al as (Rm & Kn & Cl). eapply wp_part_add; [exact Hqs|exact Hso|exact I|exact R|exact K|exact Kn|exact Rm|exact Cl|]. intros s' P' cpi' L' maps' St T Kb B Ak.
    apply wp_mret. cbn [fst snd Z.b2z]. split; [by apply (steady_ok s s')|]. exists P', L', maps'. split_and!; first [done|lia].
  - eapply wp_part_remove; [exact I|exact R|exact K|]. intros s' maps' (St & C' & I' & R' & L' & _) Kr. apply wp_mret. cbn [fst snd Z.b2z]. split; [by apply (steady_ok s s')|].
    exists P, (word C' 0 ROOT_LAST), maps'. split_and!; [by exists C'|apply keeps_same|lia|lia|done|]. destruct Kr as [Kr|[-> Kr]]; [by left|by right].
  - eapply wp_part_lookup; [exact I|exact R|exact K|]. intros s' k I' St Ka. apply wp_mret. cbn [fst snd]. split; [by apply (steady_ok s s')|].
    exists P, (word C 0 ROOT_LAST), maps. split_and!; [by exists C|apply keeps_same|lia|lia|done|exact Ka].
Qed.

(** ** New partition tables, and tables that are opened again *)

(** ** A new table *)

Definition new_map (y : Z) : list Z := put_pairs 2 (<[PM_USED := 1]> zero_block) 0 [(MAX_HASH, y)].

Lemma new_map_pairs y : pairs_rep 2 1 (new_map y) [(MAX_HASH, y)].
Proof.
  pose proof (pairs_rep_put 2 1 zero_block [] [(MAX_HASH, y)] 0 (pairs_rep_zero 2 1 ltac:(lia)) ltac:(lia) ltac:(lia) ltac:(cbn; lia) ltac:(cbn; lia)) as H.
  rewrite put_pairs_before in H by lia. exact H.
Qed.

Lemma part_new_rep C P p root y : P !! p = None -> C root = new_map y -> C y = zero_block -> word C 0 ROOT_LAST = y + 1024 -> word C 0 ROOT_FREE = 0 -> 0 < root < y -> root mod 1024 = 0 -> y mod 1024 = 0 ->
  y + 1024 < 2 ^ 32 -> (forall q h, P !! q = Some h -> h_id h < y) -> part_rep C (<[p := Held root 1 true]> P) (mkPartitionTable None [p]) [MapB p root [Range MAX_HASH y []]].
Proof.
  intros Hp Er Ey L F B Mr My Rm Hd. constructor; cbn [map m_ptr ranges_of concat m_ranges app r_block m_id].
  - done.
  - intros m ->%list_elem_of_singleton. exists 1. apply lookup_insert_eq.
  - cbn [linked head_id]. split; [|done]. split_and!; [cbn [m_id m_ranges map]; rewrite Er; exact (new_map_pairs y)|done|]. unfold word. cbn [m_id]. rewrite Er. reflexivity.
  - intros r ->%list_elem_of_singleton. unfold keys_ok. cbn. rewrite Ey. by apply pairs_rep_zero; lia.
  - cbn. unfold MAX_HASH. split_and!; [lia|by intros x ?%not_elem_of_nil|done].
  - unfold blocks_of. cbn. intros x Hx. apply elem_of_cons in Hx as [->|Hx%list_elem_of_singleton]; [split; [lia|done]|subst x; split; [lia|done]].
  - unfold blocks_of. cbn. apply list.NoDup_cons. split; [|apply list.NoDup_singleton]. intros E%list_elem_of_singleton. lia.
  - intros r ->%list_elem_of_singleton q h [[_ <-]|[_ Hq]]%lookup_insert_Some; cbn; [lia|]. specialize (Hd q h Hq). lia.
  - apply alloc_insert; [|cbn; lia]. constructor; [done| |intros q h Hq; specialize (Hd q h Hq); lia]. rewrite L, <- Z.add_mod_idemp_l, My by lia. split; [lia|done].
Qed.

Lemma wp_part_new s C P root fuel (Q : option CamelPartitionTable -> CamelBlockFile -> Prop) : BF s C P ∅ -> ok_io s -> 0 < root < word C 0 ROOT_LAST -> root mod 1024 = 0 -> not_held P root -> alloc_ok C P ->
  C root = zero_block -> word C 0 ROOT_LAST + 1024 < 2 ^ 32 ->
  (forall s' C' p, let y := word C 0 ROOT_LAST in let P' := <[p := Held root 1 true]> P in BF s' C' P' ∅ -> P !! p = None -> steady s s' ->
    part_rep C' P' (mkPartitionTable None [p]) [MapB p root [Range MAX_HASH y []]] -> word C' 0 ROOT_LAST = y + 1024 -> Q (Some (mkPartitionTable None [p])) s') ->
  wp (camel_partition_table_new (S fuel) root) Q s.
Proof.
  intros I K [R0 RL] RM N A Z0 Rm HQ. cbn zeta in HQ. set (y := word C 0 ROOT_LAST) in *. destruct (al_last _ _ A) as [By My]. fold y in By, My. unfold camel_partition_table_new. cbn [read_maps].
  apply wp_mbind. eapply wp_get_fresh; [exact I|exact K|apply valid_block_intro; [lia|exact RM]|exact N|]. intros p s1 I1 Hp St1. set (P1 := <[p := Held root 1 false]> P) in *.
  assert (Hp1 : P1 !! p = Some (Held root 1 false)) by apply lookup_insert_eq.
  assert (A1 : alloc_ok C P1) by (apply alloc_insert; [exact A|cbn; fold y; lia]).
  apply wp_mbind. eapply wp_word_at; [exact I1|exact Hp1|rewrite Z0; reflexivity|]. apply wp_mbind. eapply wp_word_at; [exact I1|exact Hp1|rewrite Z0; reflexivity|].
  rewrite Z.eqb_refl, bool_decide_true by done. cbn [andb]. apply wp_mbind. unfold prime_map.
  apply wp_mbind. eapply wp_new_fresh; [exact I1|by apply (steady_ok s s1)|exact A1|fold y; lia|]. fold y. intros q s2 C2 I2 Hq G St2. set (P2 := <[q := Held y 1 false]> P1) in *.
  assert (Nqp : p <> q) by (intros ->; congruence). assert (Hq2 : P2 !! q = Some (Held y 1 false)) by apply lookup_insert_eq. assert (Hp2 : P2 !! p = Some (Held root 1 false)) by (unfold P2; by rewrite lookup_insert_ne).
  assert (Ey : C2 y = zero_block) by apply G. assert (Er : C2 root = zero_block) by (rewrite (gr_other _ _ G); [exact Z0|lia|fold y; lia]).
  apply wp_mbind. eapply wp_set_at; [apply (BF_put _ _ _ _ _ _ I2 Ey)|exact Hq2|unfold PK_USED, WORDS; lia|]. intros s3 I3 St3. unfold PK_USED in I3. change (<[0%nat := 0]> zero_block) with zero_block in I3.
  assert (I3' : BF s3 (put C2 root zero_block) P2 (∅ ∪ {[q]})) by (eapply BFq_ext; [|exact I3]; intros x; unfold put; destruct (decide (x = root)), (decide (x = y)); congruence).
  apply wp_mbind. eapply wp_set_at; [exact I3'|exact Hp2|unfold PM_USED, WORDS; lia|]. intros s4 I4 St4. unfold PM_USED in I4.
  apply wp_mbind. eapply (wp_set_pair C2 P2 p root 1 false Hp2 s4 _ _ 2 0); [exact I4|lia|unfold WORDS; lia|]. intros s5 I5 St5.
  destruct (bf_held I5 q _ Hq2) as (b & Hb & Eb & _). injection Eb as Eb _ _. apply wp_mbind. eapply wp_deref; [exact Hb|]. rewrite <- Eb.
  apply wp_mbind. eapply (wp_set_pair C2 P2 p root 1 false Hp2 s5 _ _ 3 0); [exact I5|lia|unfold WORDS; lia|]. intros s6 I6 St6.
  set (d := <[(3 + 2 * 0)%nat := y]> _) in I6. set (C6 := put C2 root d) in *.
  apply wp_mbind. eapply wp_touch; [exact I6|exact Hq2|]. intros s7 C7 I7 B7 St7 _. apply wp_mbind. eapply wp_unref; [exact I7|exact Hq2|clear; set_solver|done|]. intros s8 I8 [St8 _]. unfold P2 in I8. rewrite drop_fresh in I8 by done.
  apply wp_mbind. eapply wp_touch; [exact I8|exact Hp1|]. intros s9 C9 I9 B9 St9 _. apply wp_mret. assert (B : but_flags C6 C9) by (by transitivity C7). destruct B as [B B'].
  assert (E9 : C9 root = d) by (rewrite B by lia; apply put_eq). assert (Ey9 : C9 y = zero_block) by (rewrite B by lia; unfold C6; rewrite put_ne by lia; exact Ey).
  assert (W : forall w, w <> ROOT_FLAGS -> word C9 0 w = word C2 0 w) by (intros w Nw; unfold word; rewrite B' by done; unfold C6; by rewrite put_ne by lia).
  apply wp_mbind. eapply wp_word_at; [exact I9|exact Hp1|rewrite E9; reflexivity|]. apply wp_mbind. eapply wp_detach; [exact I9|exact Hp1|]. intros s10 I10 [St10 _]. cbn [app]. rewrite Z.eqb_refl. apply wp_mret.
  unfold P1 in I10. rewrite insert_insert_eq in I10. assert (WL : word C9 0 ROOT_LAST = y + 1024) by (rewrite W by done; apply G).
  assert (Xe : forall X : gset loc, X = (∅ ∪ {[q]} ∪ {[p]} ∪ {[p]} ∪ {[p]}) ∖ {[q]} ∖ {[p]} -> X = ∅) by (clear; intros X ->; set_solver). rewrite (Xe _ eq_refl) in I10.
  apply (HQ s10 C9 p I10 Hp); [steady_t| |exact WL].
  apply part_new_rep; [exact Hp|exact E9|exact Ey9|exact WL|rewrite W by done; apply G|lia|exact RM|exact My|exact Rm|]. intros r h Hr. exact (al_held _ _ A r h Hr).
Qed.

(** ** Opening a table *)

(** What is on disk of a table. *)
Record part_chain (C : Z -> list Z) (maps : list mapb) : Prop := {
  pc_some : maps <> [];
  pc_linked : linked C 0 maps;
  pc_keys : forall r, r ∈ ranges_of maps -> keys_ok C r;
  pc_seg : seg (-1) (ranges_of maps) MAX_HASH;
  pc_ids : forall x, x ∈ blocks_of maps -> 0 < x < word C 0 ROOT_LAST /\ x mod 1024 = 0;
  pc_nodup : NoDup (blocks_of maps) }.

Lemma rep_chain C P cpi maps : part_rep C P cpi maps -> part_chain C maps.
Proof. intros [Q1 Q2 Q3 Q4 Q5 Q6 Q7 Q8 Q9]. constructor; try done. intros ->. cbn in Q5. unfold MAX_HASH in Q5. lia. Qed.

(** The same blocks, elsewhere in memory. *)
Definition same_map (m m' : mapb) : Prop := m_id m' = m_id m /\ m_ranges m' = m_ranges m.

Lemma same_maps maps maps' : Forall2 same_map maps maps' -> map m_id maps' = map m_id maps /\ ranges_of maps' = ranges_of maps.
Proof. induction 1 as [|m m' l l' [E1 E2] _ [IH1 IH2]]; [done|]. rewrite !ranges_of_cons. cbn [map]. rewrite E1, E2, IH1, IH2. done. Qed.

Lemma same_linked C nxt maps maps' : Forall2 same_map maps maps' -> linked C nxt maps -> linked C nxt maps'.
Proof.
  induction 1 as [|m m' l l' [E1 E2] H IH]; [done|]. cbn [linked]. intros [L1 L2]. split; [|by apply IH]. unfold map_ok. rewrite E1, E2.
  assert (E : head_id nxt l' = head_id nxt l) by (destruct H as [|? ? ? ? [E _] _]; [done|exact E]). rewrite E. exact L1.
Qed.

(** The blocks of the map in memory. *)
Record opened_maps (P P' : gmap loc held) (maps' : list mapb) : Prop := {
  om_held : forall m, m ∈ maps' -> P' !! m_ptr m = Some (Held (m_id m) 1 true);
  om_old : forall p h, P !! p = Some h -> P' !! p = Some h;
  om_new : forall p h, P' !! p = Some h -> P !! p = Some h \/ h_id h ∈ map m_id maps' }.

Lemma opened_rep C P P' maps maps' : part_chain C maps -> (forall x, x ∈ blocks_of maps -> not_held P x) -> alloc_ok C P -> Forall2 same_map maps maps' -> opened_maps P P' maps' ->
  part_rep C P' (mkPartitionTable None (map m_ptr maps')) maps'.
Proof.
  intros [K1 K2 K3 K4 K5 K6] N [A1 A2 A3] S [O1 O2 O3]. destruct (same_maps _ _ S) as [E1 E2]. assert (EB : blocks_of maps' = blocks_of maps) by (unfold blocks_of; by rewrite E1, E2).
  constructor; rewrite ?EB, ?E2; try done.
  - intros m Hm. exists 1. by apply O1.
  - by eapply same_linked.
  - intros r Hr p h Hp E. destruct (O3 p h Hp) as [Hq|Hq]; [by apply (N (r_block r) (range_block_in _ _ Hr) p h)|].
    rewrite E1 in Hq. apply list.NoDup_app in K6 as (_ & K6 & _). apply (K6 _ Hq). rewrite E. by apply (list_elem_of_fmap_2 r_block).
  - constructor; [done|done|]. intros p h Hp. destruct (O3 p h Hp) as [Hq|Hq]; [by eapply A3|]. rewrite E1 in Hq. destruct (K5 (h_id h)); [apply elem_of_app; by left|lia].
Qed.

Lemma wp_read_maps C : forall maps fuel P part s (Q : option CamelPartitionTable -> CamelBlockFile -> Prop), maps <> [] -> linked C 0 maps -> (length maps <= fuel)%nat ->
  (forall m, m ∈ maps -> 0 < m_id m < word C 0 ROOT_LAST /\ m_id m mod 1024 = 0 /\ not_held P (m_id m)) -> NoDup (map m_id maps) -> BF s C P ∅ -> ok_io s ->
  (forall s' maps' P', BF s' C P' ∅ -> steady s s' -> Forall2 same_map maps maps' -> opened_maps P P' maps' -> Q (Some (mkPartitionTable None (part ++ map m_ptr maps'))) s') ->
  wp (read_maps fuel part (head_id 0 maps)) Q s.
Proof.
  induction maps as [|m maps IH]; intros fuel P part s Q Ne Lk Fu Ids Nd I K HQ; [done|]. destruct fuel as [|fuel]; [cbn in Fu; lia|]. cbn [linked length map head_id read_maps] in *.
  destruct Lk as [(Km & Rn & Wn) Lk]. destruct (Ids m (list_elem_of_here _ _)) as (B & M & N). apply list.NoDup_cons in Nd as [Nh Nd].
  apply wp_mbind. eapply wp_get_fresh; [exact I|exact K|apply valid_block_intro; [lia|exact M]|exact N|]. intros p s1 I1 Hp St1. set (P1 := <[p := Held (m_id m) 1 false]> P) in *.
  assert (Hp1 : P1 !! p = Some (Held (m_id m) 1 false)) by apply lookup_insert_eq. pose proof (pr_count _ _ _ _ Km) as Kc. rewrite length_map in Kc.
  assert (Ln : (0 < length (m_ranges m))%nat) by (destruct (m_ranges m); [done|cbn; lia]).
  apply wp_mbind. eapply wp_word_at; [exact I1|exact Hp1|exact Kc|]. apply wp_mbind. eapply wp_word; [exact I1|exact Hp1|unfold PM_NEXT, WORDS; lia|].
  rewrite (proj2 (Z.eqb_neq _ 0)) by lia. cbn [andb]. apply wp_mbind, wp_mret. apply wp_mbind. eapply wp_word; [exact I1|exact Hp1|unfold PM_NEXT, WORDS; lia|]. rewrite Wn.
  apply wp_mbind. eapply wp_detach; [exact I1|exact Hp1|]. intros s2 I2 [St2 _]. unfold P1 in I2. rewrite insert_insert_eq in I2. set (P2 := <[p := Held (m_id m) 1 true]> P) in *.
  destruct maps as [|m' maps].
  - cbn [head_id]. rewrite Z.eqb_refl. apply wp_mret. apply (HQ s2 [MapB p (m_id m) (m_ranges m)] P2 I2); [steady_t|by repeat constructor|]. constructor.
    + intros x ->%list_elem_of_singleton. apply lookup_insert_eq.
    + intros q h Hq. unfold P2. rewrite lookup_insert_ne; [done|]. intros ->. congruence.
    + intros q h [[_ <-]|[_ Hq]]%lookup_insert_Some; [right; apply list_elem_of_here|by left].
  - destruct (Ids m') as (B' & M' & N'); [right; apply list_elem_of_here|]. rewrite (proj2 (Z.eqb_neq _ 0)) by (cbn [head_id]; lia).
    eapply (IH fuel P2 (part ++ [p]) s2); [done|exact Lk|cbn in *; lia| |exact Nd|exact I2|apply (steady_ok s s2); [steady_t|exact K]|].
    + intros x Hx. destruct (Ids x (proj2 (elem_of_cons _ _ _) (or_intror Hx))) as (Bx & Mx & Nx). split_and!; [lia|lia|exact Mx|]. intros q h [[_ <-]|[_ Hq]]%lookup_insert_Some; [|by apply (Nx q h)].
      cbn. intros E. apply Nh. rewrite E. by apply (list_elem_of_fmap_2 m_id).
    + intros s' maps' P' I' St' S [O1 O2 O3]. rewrite <- app_assoc. apply (HQ s' (MapB p (m_id m) (m_ranges m) :: maps') P' I'); [steady_t|by constructor|]. constructor.
      * intros x [->|Hx]%elem_of_cons; [apply O2, lookup_insert_eq|by apply O1].
      * intros q h Hq. apply O2. unfold P2. rewrite lookup_insert_ne; [done|]. intros ->. congruence.
      * intros q h Hq. destruct (O3 q h Hq) as [[[_ <-]|[_ Hq']]%lookup_insert_Some|Hq']; [right; apply list_elem_of_here|by left|right; by right].
Qed.

Lemma wp_part_open s C P maps fuel (Q : option CamelPartitionTable -> CamelBlockFile -> Prop) : BF s C P ∅ -> ok_io s -> part_chain C maps -> (forall x, x ∈ blocks_of maps -> not_held P x) -> alloc_ok C P ->
  (length maps <= fuel)%nat ->
  (forall s' maps' P', BF s' C P' ∅ -> steady s s' -> Forall2 same_map maps maps' -> opened_maps P P' maps' -> part_rep C P' (mkPartitionTable None (map m_ptr maps')) maps' ->
    Q (Some (mkPartitionTable None (map m_ptr maps'))) s') -> wp (camel_partition_table_new fuel (head_id 0 maps)) Q s.
Proof.
  intros I K Ch N A Fu HQ. pose proof Ch as [K1 K2 K3 K4 K5 K6]. unfold camel_partition_table_new. eapply (wp_read_maps C maps fuel P [] s); [exact K1|exact K2|exact Fu| | |exact I|exact K|].
  - intros m Hm. destruct (K5 _ (map_id_in _ _ Hm)). split_and!; [lia|lia|done|by apply N, map_id_in].
  - by apply list.NoDup_app in K6 as (? & _ & _).
  - intros s' maps' P' I' St S O. apply (HQ s' maps' P' I' St S O). by eapply opened_rep.
Qed.

(** ** Syncing *)

Lemma chain_flags C C' maps : part_chain C maps -> but_flags C C' -> part_chain C' maps.
Proof.
  intros [K1 K2 K3 K4 K5 K6] [B B']. assert (W : word C' 0 ROOT_LAST = word C 0 ROOT_LAST) by (unfold word; by rewrite B').
  assert (Nz : forall x, x ∈ blocks_of maps -> C' x = C x) by (intros x Hx; apply B; destruct (K5 x Hx); lia).
  constructor; rewrite ?W; try done.
  - eapply linked_maps_frame; [|exact K2]. intros x Hx. by apply Nz, map_id_in.
  - intros r Hr. unfold keys_ok. rewrite Nz by by apply range_block_in. by apply K3.
Qed.

(** No detached block but those of the table has changes. *)
Definition maps_clean (s : CamelBlockFile) (part : list loc) : Prop :=
  forall p b, bf_heap s !! p = Some b -> bl_detached b = true -> bl_id b <> 0 -> p ∉ part -> bl_dirty b = false.

Lemma wp_sync_all C P : forall part s (Q : bool -> CamelBlockFile -> Prop), BF s C P ∅ -> ok_io s -> (forall p, p ∈ part -> is_Some (P !! p)) -> maps_clean s part ->
  (forall s', BF s' C P ∅ -> ok_io s' -> detached_clean s' -> Q true s') -> wp (sync_all part) Q s.
Proof.
  induction part as [|p part IH]; intros s Q I K Hh Cl HQ; cbn [sync_all].
  - apply wp_mret, HQ; [done..|]. intros q b Hq D N. apply (Cl q b Hq D N). apply not_elem_of_nil.
  - apply wp_mbind. unfold camel_block_file_sync_block. apply wp_mbind, (wp_use s (block_cache s) C P ∅); [exact I|]. intros r s1 I1 Co Fr U. rewrite (U K).
    destruct (Hh p (list_elem_of_here _ _)) as [h Hp]. destruct (bf_held I _ _ Hp) as (b & Hb & _). assert (K1 : ok_io s1) by (apply (steady_ok s s1); [by apply io_steady|exact K]).
    eapply (wp_sync_block s1 _ C P ∅ _ b _ I1); [by rewrite (sc_heap _ _ Co)| |].
    + intros s2 I2 Fr2 H2 _. assert (Fr3 : io_frame s s2) by (by transitivity s1). apply IH; [by eapply BF_io|apply (steady_ok s s2); [by apply io_steady|exact K]|intros q Hq; apply Hh; by right| |exact HQ].
      intros q c Hq D N Nq. rewrite H2, (sc_heap _ _ Co) in Hq. apply lookup_insert_Some in Hq as [[_ <-]|[Np Hq]]; [done|]. apply (Cl q c Hq D N). by apply not_elem_of_cons.
    + intros s2 _ _ _ NK. by destruct NK.
Qed.

Section Reopened.
Context (version : list Z) (Lv : length version = 2%nat).

Lemma part_reopened s P cpi kt L maps s1 s2 fuel : index_table s P cpi kt L maps -> ok_io s -> maps_clean s (pt_partition cpi) -> (length maps <= fuel)%nat ->
  camel_partition_table_sync cpi s = Some (true, s1) -> camel_block_file_sync s1 = Some (true, s2) -> disk_valid version (bf_file s2) = true ->
  exists s3 cpi' s4 P' maps', camel_block_file_new (block_file_init version (bf_file s2) []) = Some (true, s3) /\ camel_partition_table_new fuel (head_id 0 maps) s3 = Some (Some cpi', s4) /\
    ok_io s4 /\ index_table s4 P' cpi' None L maps' /\ Forall2 same_map maps maps'.
Proof.
  intros (C & I & [R _] & <-) K MC Fu E1 E2 V. unfold camel_partition_table_sync in E1.
  assert (H1 : BF s1 C P ∅ /\ ok_io s1 /\ detached_clean s1).
  { eapply (wp_run (sync_all (pt_partition cpi)) (fun _ s' => BF s' C P ∅ /\ ok_io s' /\ detached_clean s') s); [|exact E1]. eapply wp_sync_all; [exact I|exact K| |exact MC|eauto].
    rewrite (pp_queue _ _ _ _ R). intros p (m & -> & Hm)%list_elem_of_fmap. destruct (pp_held _ _ _ _ R m Hm) as [n Hn]. by rewrite Hn. }
  destruct H1 as (I1 & K1 & DC).
  assert (H2 : exists C2, but_flags C C2 /\ BF s2 C2 P ∅ /\ synced s1 s2 C2).
  { eapply (wp_run camel_block_file_sync (fun b s2 => b = true -> exists C2, but_flags C C2 /\ BF s2 C2 P ∅ /\ synced s1 s2 C2) s1); [|exact E2|done].
    eapply wp_sync; [exact I1| |]; [intros s' C' I' B' _ Y _; by exists C'|done]. }
  destruct H2 as (C2 & B & I2 & Y). pose proof (synced_disk _ _ _ _ I2 Y DC) as Dk.
  assert (Bd : but_flags C (disk_read (bf_file s2))) by (destruct B as [B1 B2]; split; [intros id N; by rewrite Dk, B1|intros i N; by rewrite Dk, B2]).
  destruct (opened_reads version Lv (bf_file s2)) as (s3 & E3 & I3 & K3); [apply I2|exact V|].
  pose proof (rep_chain _ _ _ _ R) as Ch. destruct (pp_alloc _ _ _ _ R) as [A1 A2 A3].
  assert (W : forall w, w <> ROOT_FLAGS -> word (disk_read (bf_file s2)) 0 w = word C 0 w) by (intros w N; apply flags_word; [exact Bd|by right]).
  destruct (wp_total (camel_partition_table_new fuel (head_id 0 maps)) (fun o s4 => exists cpi' P' maps', o = Some cpi' /\ ok_io s4 /\ index_table s4 P' cpi' None (word C 0 ROOT_LAST) maps' /\ Forall2 same_map maps maps') s3)
    as (o & s4 & E4 & cpi' & P' & maps' & -> & K4 & T4 & S4).
  - eapply (wp_part_open s3 (disk_read (bf_file s2)) root_held maps); [exact I3|exact K3|by eapply chain_flags| | |exact Fu|].
    + intros x Hx p h Hp. apply root_held_lookup in Hp. destruct (pc_ids _ _ Ch x Hx). lia.
    + constructor; rewrite ?W by done; [done|done|]. intros p h Hp. apply root_held_lookup in Hp. lia.
    + intros s4 maps' P' I4 St4 S4 O4 R4. eexists _, P', maps'. split_and!; [done|by apply (steady_ok s3 s4)| |exact S4]. eexists. split_and!; [exact I4|split; [exact R4|done]|by rewrite W].
  - exists s3, cpi', s4, P', maps'. by split_and!.
Qed.
End Reopened.

(** ** The properties of partition tables, at samples *)

(** ** When the cut is clean *)

(** Different hashes are never separated wrongly. *)
Lemma distinct_cut qsort l1 l2 hash keyid : (forall l, qsort l ≡ₚ l) -> (forall l, StronglySorted Z.le (map fst (qsort l))) -> NoDup (hash :: map fst (l1 ++ l2)) -> (127 <= length (l1 ++ l2) <= 253)%nat ->
  cut_at_change (map fst (merged qsort l1 l2 hash keyid)).
Proof.
  intros Hq Hs N L. set (hs := map fst _). assert (E : hs ≡ₚ hash :: map fst (l1 ++ l2)).
  { unfold hs, merged. rewrite Hq, app_assoc, map_app. symmetry. apply Permutation_cons_append. }
  assert (Ln : length hs = S (length (l1 ++ l2))) by (rewrite E; cbn; by rewrite length_map). rewrite <- E in N.
  assert (B : (128 <= length hs <= 254)%nat) by lia. apply (split_point_change hs B); [intros i j Lij; apply sorted_nth; [apply Hs|lia]|].
  assert (H2 : (64 <= length hs / 2 <= 127)%nat) by (split; [apply Nat.div_le_lower_bound; lia|apply Nat.div_le_upper_bound; lia]).
  intros Eq. apply NoDup_ListNoDup in N. apply (proj1 (NoDup_nth hs 0) N) in Eq; lia.
Qed.

Lemma all_keys_perm maps rs : ranges_of maps ≡ₚ rs -> all_keys maps ≡ₚ concat (map r_keys rs).
Proof. intros E. unfold all_keys. rewrite <- !flat_map_concat_map. by apply Permutation_flat_map. Qed.

Lemma neighbour_in (rs1 : list range) r rs2 j rn : S j = length rs1 \/ j = S (length rs1) -> (rs1 ++ r :: rs2) !! j = Some rn -> rn ∈ rs1 ++ rs2.
Proof.
  intros [J| ->] H.
  - rewrite lookup_app_l in H by lia. apply elem_of_app. left. by eapply list_elem_of_lookup_2.
  - rewrite lookup_app_r in H by lia. replace (S (length rs1) - length rs1)%nat with 1%nat in H by lia. cbn in H.
    apply elem_of_app. right. by eapply list_elem_of_lookup_2.
Qed.

Lemma neighbour_keys_apart maps hash m1 m m2 rs1 r rs2 l : at_range maps hash m1 m m2 rs1 r rs2 -> neighbour_keys m (length rs1) l ->
  r_keys r ++ l ⊆+ all_keys maps.
Proof.
  intros [Em Er _ _] N. set (q := ranges_of m1 ++ (rs1 ++ rs2) ++ ranges_of m2).
  assert (E : ranges_of maps ≡ₚ r :: q) by (rewrite Em; unfold ranges_of, q; rewrite map_app, concat_app; cbn; rewrite Er; solve_Permutation).
  rewrite (all_keys_perm _ _ E). cbn [map concat]. apply submseteq_app; [done|].
  destruct N as [->|(j & rn & J & H & _ & ->)]; [apply submseteq_nil_l|]. rewrite Er in H. apply neighbour_in in H; [|done].
  apply elem_of_Permutation in H as [k Hk].
  assert (E2 : q ≡ₚ rn :: ranges_of m1 ++ k ++ ranges_of m2) by (unfold q; rewrite Hk; solve_Permutation).
  rewrite <- flat_map_concat_map, (Permutation_flat_map r_keys E2). cbn. by apply submseteq_inserts_r.
Qed.

(** A key can be added to a table in which all hashes differ, from each other
    and from its own, and no block of the map is full. *)
Lemma distinct_add_clean qsort maps hash keyid : (forall l, qsort l ≡ₚ l) -> (forall l, StronglySorted Z.le (map fst (qsort l))) ->
  NoDup (hash :: map fst (all_keys maps)) -> (forall m, m ∈ maps -> (length (m_ranges m) < 127)%nat) -> add_clean qsort maps hash keyid.
Proof.
  intros Hq Hs D F m1 m m2 rs1 r rs2 A Full. split.
  { intros L. assert (I : m ∈ maps) by (rewrite (ar_maps _ _ _ _ _ _ _ _ A); apply elem_of_app; right; apply list_elem_of_here). specialize (F m I). lia. }
  intros l N. pose proof (neighbour_keys_apart _ _ _ _ _ _ _ _ _ A N) as S. apply distinct_cut; [done|done| |].
  - apply submseteq_Permutation in S as [k Hk]. rewrite Hk, map_app, app_comm_cons in D. by apply list.NoDup_app in D as [D _].
  - rewrite length_app, Full. destruct N as [->|(j & rn & _ & _ & Lr & ->)]; cbn; lia.
Qed.

(** ** The properties *)

(** C12. A partition table is a bag of pairs of a hash and a number, within what
    [part_allowed] says of additions: adding a key adds its pair, removing a key
    removes one pair with its hash and, in a table with a key table, its
    characters, and a lookup answers the number of such a pair, or 0 when there
    is none.  Every operation returns, the ranges stay in order and their blocks
    apart, and no block stays in memory but those of the map.

    The conditions: no call of the system fails; the file stays below 4 GB; the
    number added is that of a key of the key table; and [add_clean], two cases
    that the code gets wrong.  An addition that cuts a full block may not put the
    cut between equal hashes, as the scan for it can when one hash fills the
    block from the middle on ([equal_hashes_lost]); and when the block of the map
    is full too, the range that is cut may not be its range at index 63, the
    first one of its upper half, which the test [index > len] leaves to the old
    block of the map.  [distinct_add_clean]: no addition is excluded in a table
    with different hashes whose blocks of the map are not full. *)
Theorem partition_table_refines qsort s P cpi kt L maps o : (forall l, qsort l ≡ₚ l) -> (forall l, StronglySorted Z.le (map fst (qsort l))) ->
  index_table s P cpi kt L maps -> ok_io s -> part_allowed qsort kt o L maps ->
  exists r cpi' s' P' L' maps', part_run qsort cpi o s = Some ((r, cpi'), s') /\ ok_io s' /\ index_table s' P' cpi' kt L' maps' /\ keeps_blocks P P' maps' /\
    L <= L' <= L + 2048 /\ part_step kt o (all_keys maps) r (all_keys maps').
Proof.
  intros Hq Hs H K Al. destruct (wp_total _ _ _ (part_refines qsort s P cpi kt L maps o Hq Hs H K Al)) as ([r cpi'] & s' & E & K' & P' & L' & maps' & H1 & H2 & H3 & H4).
  exists r, cpi', s', P', L', maps'. split_and!; first [done|lia].
Qed.

(** C22. The pairs outlive the program: when the table and the file were synced
    and the file on disk validates, opening the file and the table again gives
    the same ranges with the same pairs. *)
Theorem partition_table_reopen version s P cpi kt L maps s1 s2 fuel : length version = 2%nat -> index_table s P cpi kt L maps -> ok_io s -> maps_clean s (pt_partition cpi) -> (length maps <= fuel)%nat ->
  camel_partition_table_sync cpi s = Some (true, s1) -> camel_block_file_sync s1 = Some (true, s2) -> disk_valid version (bf_file s2) = true ->
  exists s3 cpi' s4 P' maps', camel_block_file_new (block_file_init version (bf_file s2) []) = Some (true, s3) /\ camel_partition_table_new fuel (head_id 0 maps) s3 = Some (Some cpi', s4) /\
    ok_io s4 /\ index_table s4 P' cpi' None L maps' /\ ranges_of maps' = ranges_of maps /\ all_keys maps' = all_keys maps.
Proof.
  intros Lv H K MC Fu E1 E2 V. destruct (part_reopened version Lv s P cpi kt L maps s1 s2 fuel H K MC Fu E1 E2 V) as (s3 & cpi' & s4 & P' & maps' & E3 & E4 & K4 & H4 & S).
  destruct (same_maps _ _ S) as [_ Er]. exists s3, cpi', s4, P', maps'. split_and!; try done. unfold all_keys. by rewrite Er.
Qed.

(** C23. The sorted hashes of one or two blocks and a new key, 128 to 254, are
    always cut in two parts that fit in blocks; and the cut is between different
    hashes exactly when the last hash of the lower half differs from the one at
    127, or from the last one: the scan towards lower hashes never finds a cut. *)
Theorem split_point_cuts hs : (128 <= length hs <= 254)%nat -> StronglySorted Z.le hs ->
  (1 <= split_point hs <= 127)%nat /\ (1 <= length hs - split_point hs <= 127)%nat /\
  (nth (split_point hs) hs 0 <> nth (split_point hs - 1) hs 0 <-> nth (length hs / 2 - 1) hs 0 <> nth (Nat.min 127 (length hs - 1)) hs 0).
Proof.
  intros L S. destruct (split_point_fits hs L) as [F1 F2]. split_and!; try lia. apply (split_point_change hs L). intros i j Lij. by apply sorted_nth.
Qed.

(** ** Witnesses *)

Definition hash_le (x y : Z * Z) : Prop := fst x <= fst y.
Instance hash_le_dec : RelDecision hash_le.
Proof. intros x y. unfold hash_le. apply _. Defined.
Definition sort_pairs : list (Z * Z) -> list (Z * Z) := merge_sort hash_le.

Lemma sort_pairs_perm l : sort_pairs l ≡ₚ l.
Proof. apply merge_sort_Permutation. Qed.

Lemma sort_pairs_sorted l : StronglySorted Z.le (map fst (sort_pairs l)).
Proof.
  assert (S : StronglySorted hash_le (sort_pairs l)) by (apply StronglySorted_merge_sort; [intros x y z; unfold hash_le; lia|intros x y; unfold hash_le; lia]).
  induction S as [|x k S IH F]; cbn [map]; constructor; [exact IH|]. rewrite Forall_map. exact F.
Qed.

(** A new table in a new file. *)
Definition part_opened : CamelBlockFile := match camel_partition_table_new 2 1024 (fst key_file) with Some (_, s) => s | None => fst key_file end.
Definition part_cpi : CamelPartitionTable := match camel_partition_table_new 2 1024 (fst key_file) with Some (Some cpi, _) => cpi | _ => mkPartitionTable None [] end.
Definition part_maps : list mapb := [MapB 2%positive 1024 [Range MAX_HASH 2048 []]].

Lemma part_opened_empty : exists P, index_table part_opened P part_cpi None 3072 part_maps.
Proof.
  assert (R : reachable sample_version sample_disk (fst key_file) (snd key_file)).
  { apply (play_reachable sample_version sample_disk [OpNew; OpUnref 2%positive] sample_new sample_view); [apply sample_new_reachable|].
    unfold key_file, played. set (o := play _ _ _ _). assert (E : is_Some o) by (vm_compute; eauto). destruct E as [[s v] ->]. reflexivity. }
  destruct (reachable_represents sample_version sample_disk eq_refl sample_disk_ok _ _ R) as (C & B & I).
  assert (EP : v_held (snd key_file) = root_held) by (vm_compute; reflexivity). assert (EX : v_written (snd key_file) = ∅) by (vm_compute; reflexivity).
  rewrite EP, EX in I. assert (W : forall w, w <> ROOT_FLAGS -> word C 0 w = word (v_contents (snd key_file)) 0 w) by (intros w N; apply flags_word; [exact B|by right]).
  assert (WL : word C 0 ROOT_LAST = 2048) by (rewrite W by done; vm_compute; reflexivity).
  assert (E : camel_partition_table_new 2 1024 (fst key_file) = Some (Some part_cpi, part_opened)) by (vm_compute; reflexivity).
  refine (wp_run _ (fun o s => o = Some part_cpi -> exists P, index_table s P part_cpi None 3072 part_maps) _ _ _ _ E eq_refl).
  eapply (wp_part_new (fst key_file) C root_held 1024 1); [exact I|split; vm_compute; reflexivity|rewrite WL; lia|reflexivity| | | |rewrite WL; lia|].
  - intros p h Hp Eh. apply root_held_lookup in Hp. lia.
  - constructor; [rewrite W by done; vm_compute; reflexivity|rewrite WL; split; [lia|reflexivity]|]. intros p h Hp. apply root_held_lookup in Hp. lia.
  - rewrite (proj1 B) by done. vm_compute. reflexivity.
  - intros s' C' p y P' I' Hp St R' L' E2. unfold y in *. rewrite WL in *. assert (Ep : part_cpi = mkPartitionTable None [2%positive]) by (vm_compute; reflexivity). rewrite Ep in *. injection E2 as ->.
    exists P', C'. split_and!; [exact I'|split; [exact R'|done]|exact L'].
Qed.

(** A key is added, then found and removed. *)
Definition part_key : list Z := [104; 105].
Definition part_added : CamelBlockFile := match part_run sort_pairs part_cpi (PartAdd part_key 7) part_opened with Some (_, s) => s | None => part_opened end.

Lemma part_key_allowed : part_allowed sort_pairs None (PartAdd part_key 7) 3072 part_maps.
Proof.
  split; [done|]. split; [done|]. intros m1 m m2 rs1 r rs2 A L. exfalso. pose proof (at_range_flat _ _ _ _ _ _ _ _ A) as F. unfold part_maps in F. cbn in F.
  assert (Hr : r ∈ [Range MAX_HASH 2048 []]) by (rewrite F; apply elem_of_app; right; apply list_elem_of_here). apply list_elem_of_singleton in Hr. rewrite Hr in L. cbn in L. lia.
Qed.

Lemma partition_table_refines_witness : exists r cpi' s', part_run sort_pairs part_cpi (PartAdd part_key 7) part_opened = Some ((r, cpi'), s') /\ r = 1 /\
  part_run sort_pairs cpi' (PartLookup part_key) s' = Some ((7, cpi'), s').
Proof.
  destruct part_opened_empty as [P H].
  destruct (partition_table_refines sort_pairs part_opened P part_cpi None 3072 part_maps (PartAdd part_key 7) sort_pairs_perm sort_pairs_sorted H) as (r & cpi' & s' & P' & L' & maps' & E & _ & _ & _ & _ & -> & _).
  - split; vm_compute; reflexivity.
  - exact part_key_allowed.
  - exists 1, cpi', s'. split; [exact E|]. split; [reflexivity|]. vm_compute in E. injection E as <- <-. vm_compute. reflexivity.
Defined.

Definition part_synced : CamelBlockFile :=
  match camel_partition_table_sync part_cpi part_opened with
  | Some (_, s) => match camel_block_file_sync s with Some (_, s') => s' | None => s end
  | None => part_opened
  end.

Lemma maps_clean_b s part : forallb (fun '(p, b) => negb (bl_detached b) || (bl_id b =? 0) || bool_decide (p ∈ part) || negb (bl_dirty b)) (map_to_list (bf_heap s)) = true -> maps_clean s part.
Proof.
  rewrite forallb_forall. intros H p b Hp D N NP. specialize (H (p, b)). cbn in H. rewrite D in H. apply Z.eqb_neq in N. rewrite N in H.
  rewrite bool_decide_eq_false_2 in H by done. cbn in H. apply negb_true_iff, H, list_elem_of_In. by apply elem_of_map_to_list.
Qed.

Lemma partition_table_reopen_witness : exists s3 cpi' s4, camel_block_file_new (block_file_init sample_version (bf_file part_synced) []) = Some (true, s3) /\
  camel_partition_table_new 1 1024 s3 = Some (Some cpi', s4) /\ exists P L maps', index_table s4 P cpi' None L maps' /\ ranges_of maps' = [Range MAX_HASH 2048 []].
Proof.
  destruct part_opened_empty as [P H].
  destruct (partition_table_reopen sample_version part_opened P part_cpi None 3072 part_maps
    (match camel_partition_table_sync part_cpi part_opened with Some (_, s) => s | None => part_opened end) part_synced 1 eq_refl H) as (s3 & cpi' & s4 & P' & maps' & E3 & E4 & _ & H4 & Er & _).
  - split; vm_compute; reflexivity.
  - apply maps_clean_b. vm_compute. reflexivity.
  - cbn. lia.
  - vm_compute. reflexivity.
  - vm_compute. reflexivity.
  - vm_compute. reflexivity.
  - exists s3, cpi', s4. split; [exact E3|]. split; [exact E4|]. exists P', 3072, maps'. split; [exact H4|exact Er].
Defined.

Definition split_sample : list Z := map Z.of_nat (seq 0 130).

Lemma split_point_cuts_witness : (128 <= length split_sample <= 254)%nat /\ split_point split_sample = 65%nat /\ nth (split_point split_sample) split_sample 0 <> nth (split_point split_sample - 1) split_sample 0.
Proof.
  assert (L : (128 <= length split_sample <= 254)%nat) by (vm_compute; split; repeat constructor).
  assert (S : StronglySorted Z.le split_sample).
  { apply (Sorted_StronglySorted _). unfold split_sample. cbn. repeat (constructor; try (vm_compute; discriminate)). }
  destruct (split_point_cuts split_sample L S) as (_ & _ & H). split; [exact L|]. split; [vm_compute; reflexivity|]. apply H. vm_compute. discriminate.
Defined.

(** ** What the code gets wrong *)

(** The number of pairs in the blocks that one can reach. *)
Fixpoint add_all (cpi : CamelPartitionTable) (l : list (list Z * Z)) : M CamelPartitionTable :=
  match l with
  | [] => mret cpi
  | (key, keyid) :: l => '(_, cpi) ← camel_partition_table_add sort_pairs cpi key keyid; add_all cpi l
  end.
Fixpoint remove_all (cpi : CamelPartitionTable) (key : list Z) (n : nat) : M Z :=
  match n with
  | O => camel_partition_table_lookup cpi key
  | S n => camel_partition_table_remove cpi key;; remove_all cpi key n
  end.

(** A key that was added with 128 numbers is not found after one of them was
    removed: the others are in a range that the search does not look into. *)
Lemma equal_hashes_lost : let added := add_all part_cpi (map (fun k => (part_key, Z.of_nat k)) (seq 1 128)) in
  option_map fst ((cpi ← added; remove_all cpi part_key 0) part_opened) = Some 1 /\ option_map fst ((cpi ← added; remove_all cpi part_key 1) part_opened) = Some 0.
Proof. split; vm_compute; reflexivity. Qed.

(** Keys with different hashes are found after their block was split. *)
Fixpoint found_all (cpi : CamelPartitionTable) (l : list (list Z * Z)) : M bool :=
  match l with
  | [] => mret true
  | (key, keyid) :: l => k ← camel_partition_table_lookup cpi key; if k =? keyid then found_all cpi l else mret false
  end.

Lemma split_block_found : let keys := map (fun k => ([Z.of_nat (k mod 90) + 33; Z.of_nat (k / 90) + 65], Z.of_nat k)) (seq 1 200) in
  option_map fst ((cpi ← add_all part_cpi keys; found_all cpi keys) part_opened) = Some true.
Proof. vm_compute. reflexivity. Qed.
